(* ===== verification/_CoqProject ===== *)
-Q . S2P
Prelude.v
Bytes.v
Slots.v
Ring.v
MtssTypes.v
RunQueue.v
Mtss.v
MtssInv.v
MtssSafety.v
TaskCore.v
TaskCoreSafety.v
Subkernel.v
SubkernelSafety.v
FrameAllocator.v
FrameSafety.v
Ipc.v
Timer.v
Futex.v
ServiceCapability.v
Permissions.v
Vfs.v
BlockDevice.v
Process.v
ThreadBlock.v
Abi.v
KernelCore.v
KernelSafety.v
KernelTimeouts.v
QfsFormat.v
QfsFormatSafety.v
QfsJournal.v
Qfs.v
QfsTree.v
QfsNamespace.v
QfsSafety.v
Paging.v
PagingSafety.v
PagingFrames.v
PagingTheorems.v
KernelHeap.v
KernelHeapSafety.v
MemoryManager.v
MemoryManagerSafety.v
MemoryTheorems.v
AddressSpaces.v
AddressSpaceSafety.v
AddressSpaceTheorems.v
Text.v
SpiderUnits.v
SpiderGraph.v
SpiderInit.v
SpiderHost.v
UserMemory.v
ExecImage.v
ExecSafety.v
Elf.v
ExecTheorems.v
KernelPath.v
OpenFiles.v
FileSystem.v
