(* ===== verification/Prelude.v ===== *)
(** * Mirage verification library

    Mirage is an operating system kernel in Rust.  This library is a shallow
    embedding of its scheduling, security, memory, timing and messaging core, of the
    part of the kernel that ties them together, of its page tables and of its file
    system: each component of the source is translated into executable definitions, and its
    theorems are proved about those definitions.  Paths below are relative to the
    directory src/ that holds the repository.

    ** The program and where it is modelled

    - crates/mirage-mtss is the scheduler, MTSS.  Its lib.rs (states, transition
      tables, task, thread and process records, statistics, lifecycle events) is
      [MtssTypes]; its run_queue.rs is [RunQueue]; its mtss.rs, the scheduler proper
      with every public operation, is [Mtss], with its invariant in [MtssInv] and its
      theorems in [MtssSafety].  Its task_core.rs, the small scheduler that runs the
      first userspace programs, is [TaskCore], its theorems are in [TaskCoreSafety].
    - src/subkernel/mod.rs is the security kernel: labels, credentials, task
      domains, the capability table, and the authorisation of IPC, devices, spawn,
      exec and memory mappings.  It is [Subkernel], its theorems are in
      [SubkernelSafety].  Of src/kernel/process.rs and src/kernel/memory.rs the
      records its requests are made of are included.
    - src/kernel/memory/frame_allocator.rs is the physical frame allocator.  It is
      [FrameAllocator], with the boot information it reads (src/arch/x86_64/boot.rs)
      and the address translator (src/arch/x86_64/paging.rs); its theorems are in
      [FrameSafety].
    - src/arch/x86_64/paging.rs is the page table code: boot mappings from a pool of
      tables, kernel mappings, user address spaces, translation.  It is [Paging]; the
      tables are words of memory, the CR3 register and the invalidated pages are
      fields of the state.  [PagingSafety] has the invariant (the tables reachable
      from the roots form a forest) and what each operation does to it,
      [PagingFrames] the frame allocator as the source of tables, [PagingTheorems]
      the theorems.
    - src/kernel/memory/heap.rs maps the pages of the kernel heap as it grows:
      [KernelHeap], with its invariant in [KernelHeapSafety].  The memory manager of
      src/kernel/memory.rs (malloc, realloc, free, mmap and munmap) is
      [MemoryManager], its invariant is in [MemoryManagerSafety], and the theorems of
      both are in [MemoryTheorems].  The tables of address spaces and user mappings of
      the same file, with copies to and from user memory, are [AddressSpaces]: the
      operations on frames, page tables, heap and blocks together.  [AddressSpaceSafety]
      has their joint invariant, [AddressSpaceTheorems] the theorems.
    - src/kernel/ipc.rs, timer.rs and futex.rs are the kernel's message queues,
      timers and wait queues: [Ipc], [Timer] (with the timeout loop of
      src/kernel/mod.rs) and [Futex].
    - crates/mirage-cap is the capability check of driver services:
      [ServiceCapability].

    - src/kernel/process.rs and thread.rs are the control blocks: [Process]
      (credentials, descriptor tables, signals, exit statuses) and [ThreadBlock] (the
      saved register frame).  src/kernel/fs/permissions.rs is [Permissions].
    - crates/mirage-abi/src/syscall.rs, with the error types of the kernel and their
      encoding, is [Abi].
    - src/kernel/fs/path.rs, inode.rs and the errors of vfs.rs are [Vfs].  The block
      device trait of src/kernel/device.rs, with the RAM disk there and the boot module
      of src/kernel/mod.rs, is [BlockDevice].
    - src/kernel/fs/qfs_format.rs is the on-disk format of the file system QFS:
      [QfsFormat], on the byte fields of [Bytes], with the round trips in
      [QfsFormatSafety] and journal replay in [QfsJournal].  src/kernel/fs/qfs.rs is
      the file system: [Qfs], every operation.  [QfsTree] and [QfsNamespace] relate
      its inode table to an abstract namespace, [QfsSafety] has the theorems.
    - src/kernel/mod.rs is the kernel core.  It schedules threads through MTSS, asks
      the security kernel before it delivers a message, and wakes processes from
      messages, timers and futexes.  [KernelCore] models this part: sending and
      receiving, blocking and waking, the futex system call, the timeout work of the
      timer interrupt and scheduling decisions; its theorems are in [KernelSafety], those
      on the timer interrupt in [KernelTimeouts].  Its path buffer and the walk over the
      components of a path are [KernelPath].
    - src/kernel/fs/file.rs, with the pipes and event counters of src/kernel/mod.rs, is
      [OpenFiles].  The file system trait of src/kernel/fs/vfs.rs, the root file system of
      src/kernel/mod.rs and the structures of src/kernel/fs/stdlib.rs are [FileSystem],
      with QFS as an instance of the trait.

    - The functions of src/kernel/mod.rs that follow user pointers are [UserMemory]; its
      [user_view] is what the futex system call of [KernelCore] takes as an argument.
      src/kernel/elf.rs, which makes the image of a program for execve, is [ExecImage]:
      file, page tables, heap and mapping tables together.  [ExecSafety] has what each
      step shows to the program, [ExecTheorems] the theorems.  The parser of the first
      program, src/kernel/userspace/elf_loader.rs, is [Elf].

    - userspace/spider-rs is the init system.  Its units.rs and parser.rs are
      [SpiderUnits], its graph.rs is [SpiderGraph], the dispatcher that PID 1 starts
      (bin_spider_rsd.rs) is [SpiderInit], and manager.rs, process.rs, the supervision
      loop of start.rs and the bootstrap heap of lib.rs are [SpiderHost].  [Text] has the
      operations of strings they use.

    The kernel core is a client of the scheduler, the message rings and the security
    kernel.  What it asks of each is an interface, a type class: [Scheduler],
    [MessageBuffer] and [IpcPolicy], with the promises [SchedulerLaws] and
    [MessageBufferLaws].  Its operations and theorems are stated over the interfaces;
    [KernelSafety] proves that MTSS and the message ring keep the promises.  In the
    same way QFS is a client of the class [BlockStorage], with [BlockStorageLaws] and
    [Reliable], paging of [FrameSource], with [FrameSourceLaws], and the memory manager
    of [HeapBacking], with [HeapBackingLaws]; the RAM disk, the frame allocator and the
    kernel heap are shown to keep them.  The loader reads its file through [ExecFiles],
    with [ExecFilesLaws].

    ** How code becomes definitions

    [Prelude] (this file) has machine integers as [Z] with saturation and
    wrap-around written out at their width, the result type, and the state and
    error monad [M]: a method that takes [&mut self] and returns a [Result] is a
    function from the state to a result and the state it leaves, also when it
    fails.  A fixed array of optional entries, the representation of nearly every
    table, is a list of options; [Slots] has the scans the code performs on such
    tables and the theory of tables with unique keys, [Ring] the theory of ring
    buffers.  Const generics are the lengths of those lists.  Loops over array
    indices are folds over the indices; identifiers are plain [Z].

    ** What the theorems show

    - Scheduler: every state that any sequence of calls reaches satisfies the
      invariant; dispatching, blocking, waking, terminating and reaping do exactly
      what they promise; a slice lasts exactly its ticks; yielding is fair; the event
      ring keeps the latest events.  The run queue refines a bounded list, except
      after removals have left holes, where it can lose a record.
    - Boot scheduler: reachable states are consistent, it refines an abstract
      round-robin machine and starves no thread; spawning is specified on every
      branch.
    - Security kernel: the capability table is sound in every reachable state;
      authorisations hold exactly under the stated conditions; delegation never
      escalates; transfers attenuate; granting and revoking is a round trip;
      revocation of a task is complete, revocation of a capability is not transitive.
    - Frame allocator: boot frees only memory nobody owns; no frame is handed out
      twice; allocating and freeing is a round trip; free is specified on every branch.
    - Messages, timers, futexes, service capabilities: queues refine bounded lists,
      timers fire exactly once and keep their phase, identifiers are fresh, wakes and
      timeouts release exactly the right threads, checks are exact.
    - Control blocks, permissions, ABI: a frame the kernel returns to is confined to
      user mode, descriptors are the lowest free ones, signals are conserved, access
      is decided by exactly one permission class, an encoded error is never a result.
    - Kernel core: a send is a transaction; over any sequence of operations messages
      are delivered exactly once, in order and only when authorised; the timeout work
      ends and wakes exactly the processes whose timeout was due, their threads with
      them unless the scheduler refuses one, which is followed down to the calls to the
      scheduler; waiting on a futex records the waiter.  Lemmas show defects: a process
      that blocks for a message stays in the run queue, and a timeout that meets a full
      run queue is lost.
    - Paths and open files: the walk of a path is lexical resolution that never leaves the
      root directory of the process; a pipe is a bounded queue of bytes.
    - Paging: in every reachable state the tables form a forest, so that mapping or
      unmapping a page changes the translation of that page and of no other, in its
      own address space and in all others; a new address space maps nothing in the
      user half; destroying one returns exactly its tables; the two page walks agree.
    - Kernel memory: over any history live blocks are disjoint and counted exactly;
      allocation returns fresh aligned blocks, reallocation keeps the contents, free
      and exit release exactly what they should; every byte of a live block of the
      kernel heap is backed by memory of its own, also after failed growth.
    - Address spaces: over any history from boot on, what a user address translates to
      is a frame nobody else hands out; a mapping shows the user exactly the bytes of
      its block, is recorded in a free slot and changes nothing else; what the kernel copies to user memory it
      reads back; sharing and leaving an address space is a round trip, and the last
      one to leave removes it; a clone has the same contents at the same addresses.
      Lemmas with concrete states show where the tables and the memory manager
      disagree.
    - Programs: parsing an image never reads outside it and accepts only segments that
      fit and keep to their own pages; an image written in the format is parsed back.  A
      loaded program finds exactly its segments and the stack with its arguments, at the
      addresses of the file, and nothing else; a load that fails gives everything back,
      on all paths but one.  Reading a string through a user pointer gives the bytes up to
      the null byte, from one mapping, or fails for a stated reason.
    - Init system: a parsed unit is well formed and a written unit file is parsed back;
      a startup plan has exactly the units the target needs, in an order their files
      allow, and there is one whenever there can be; the dispatcher neither panics
      nor loops for ever, its units are those of the files it read, and the system calls
      it makes to start them are those they call for, in the order of the plan: at its end every unit is in the state its kind, its
      requirements and the answers to these calls give, and short of it the dispatcher
      waits for a process that does not end.
    - QFS: parsing inverts serialisation, and says why where it refuses a record; replay changes only
      sectors of committed transactions, can be repeated, and installs the newest
      version when the journal is in order.  Each operation of the file system refines
      an update of an abstract namespace, keeps the inode table well formed, also when
      it fails, and changes nothing without permission; what is written is read back.
      Lemmas with concrete states show the defects: records beyond the second are not
      stored, a wrapped journal reverts newer data, formatting keeps the old journal,
      a directory can be renamed into itself, hard links go stale.

    ** Bounds and fuel

    Capacities are arbitrary: theorems quantify over them.  These loops run on
    fuel.  The scans of the run queue take at most one step per slot.  The search
    for a timer id takes at most one step per slot plus one, and the timeout loop
    one round per slot plus one, in [Timer] as in [KernelCore]; both are proved to
    end within that fuel.  The dequeue loop of the boot scheduler is bounded by the
    queue length.  The components of a path number at most its bytes; the data loops
    of QFS copy at least one byte per round and get one round per byte; mapping a range
    gets one round per page.  Collecting units gets one round per name that can be
    pushed, ordering them one per unit; reading files gets as many rounds as the caller
    gives, and ends when that is more than any file has bytes.  A wait that does not return
    has no answer, which ends the run of the dispatcher where it stands.

    ** What is not modelled

    Device drivers, interrupt entry, boot output and the host tools act on hardware
    or files and are left out, and so is the inline assembly of the page table code.
    Reads through user pointers are an argument of the futex system call.  Planned, in
    this order: partition tables, process creation, exit
    and wait in the kernel core and its remaining system calls, the service registry,
    mounts, and the module state machine. *)

From stdpp Require Import prelude.

(** ** Machine integers

    A Rust unsigned integer of [w] bits is a [Z]; every operation that can
    leave its range is written out at its width. *)
Section machine_integers.
  Local Open Scope Z_scope.

Definition umax (w : Z) : Z := 2 ^ w - 1.

(** [a.saturating_add(b)] *)
Definition sat_add (w a b : Z) : Z := Z.min (a + b) (umax w).

(** [a.saturating_sub(b)] *)
Definition sat_sub (a b : Z) : Z := Z.max (a - b) 0.

(** [a.saturating_mul(b)] *)
Definition sat_mul (w a b : Z) : Z := Z.min (a * b) (umax w).

(** [a.wrapping_add(b)], and [a += b] in the release profile *)
Definition wrap_add (w a b : Z) : Z := (a + b) mod 2 ^ w.

(** [a.checked_add(b)], [a.checked_sub(b)] and [a.checked_mul(b)] *)
Definition checked_add (w a b : Z) : option Z := if a + b <=? umax w then Some (a + b) else None.
Definition checked_sub (a b : Z) : option Z := if b <=? a then Some (a - b) else None.
Definition checked_mul (w a b : Z) : option Z := if a * b <=? umax w then Some (a * b) else None.

Lemma checked_add_Some w a b c : checked_add w a b = Some c ↔ c = a + b ∧ a + b <= umax w.
Proof. unfold checked_add. destruct (Z.leb_spec (a + b) (umax w)); split; intuition (congruence || lia). Qed.

Lemma sat_add_small w a b : a + b <= umax w → sat_add w a b = a + b.
Proof. unfold sat_add. lia. Qed.

Lemma sat_add_le w a b : 0 <= b → a <= umax w → a <= sat_add w a b <= umax w.
Proof. unfold sat_add. lia. Qed.

Lemma wrap_add_small w a b : 0 <= a + b <= umax w → wrap_add w a b = a + b.
Proof. unfold umax, wrap_add. intros. apply Z.mod_small. lia. Qed.
End machine_integers.

(** ** Results and stateful fallible code

    A method [fn op(&mut self) -> Result<A, E>] is a function from the state
    to its result and the state it leaves behind.  An early return with an
    error keeps the mutations made before it, as Rust does. *)
Inductive result (E A : Type) : Type :=
| Ok (a : A)
| Err (e : E).
Arguments Ok {E A} a.
Arguments Err {E A} e.

Definition is_ok {E A} (r : result E A) : bool :=
  match r with Ok _ => true | Err _ => false end.

Definition M (S E A : Type) : Type := S → result E A * S.

#[export] Instance M_ret {S E} : MRet (M S E) := λ A a s, (Ok a, s).
#[export] Instance M_bind {S E} : MBind (M S E) := λ A B f m s,
  match m s with
  | (Ok a, s') => f a s'
  | (Err e, s') => (Err e, s')
  end.

Section monad.
  Context {S E : Type}.

Definition throw {A} (e : E) : M S E A := λ s, (Err e, s).
Definition gets {A} (f : S → A) : M S E A := λ s, (Ok (f s), s).
Definition modify (f : S → S) : M S E unit := λ s, (Ok tt, f s).

(** [r?] for a pure [r : Result<A, E>] *)
Definition lift {A} (r : result E A) : M S E A := λ s, (r, s).

(** [o.ok_or(e)] *)
Definition ok_or {A} (o : option A) (e : E) : result E A :=
  match o with Some a => Ok a | None => Err e end.

(** [match m { Ok(a) => a, Err(e) => handler }], with the state the failure left *)
Definition catch {E' A} (m : M S E' A) (handler : E' → M S E A) : M S E A := λ s,
  match m s with
  | (Ok a, s') => (Ok a, s')
  | (Err e, s') => handler e s'
  end.

(** [while idx < n { body(idx); idx += 1 }] over the listed indices *)
Fixpoint mfor {B} (l : list B) (body : B → M S E unit) : M S E unit :=
  match l with
  | [] => mret tt
  | i :: l' => body i ;; mfor l' body
  end.

(** a loop whose every iteration succeeds and keeps an invariant succeeds *)
Lemma mfor_total {B} (I : S → Prop) (l : list B) (body : B → M S E unit) s :
  I s → (∀ x s', x ∈ l → I s' → (body x s').1 = Ok tt ∧ I (body x s').2) →
  (mfor l body s).1 = Ok tt ∧ I (mfor l body s).2.
Proof.
  revert s. induction l as [|x l IH]; intros s Hs Hb; cbn; [done|].
  destruct (Hb x s) as [H1 H2]; [apply list_elem_of_here|done|]. unfold mbind, M_bind.
  destruct (body x s) as [[[]|e] s']; [|done]. apply IH; [done|].
  intros. apply Hb; [by apply list_elem_of_further|done].
Qed.

Lemma bind_assoc {A B C} (m : M S E A) (f : A → M S E B) (g : B → M S E C) s :
  ((m ≫= f) ≫= g) s = (m ≫= λ a, f a ≫= g) s.
Proof. unfold mbind, M_bind. by destruct (m s) as [[a|e] s']. Qed.

Lemma bind_ext {A B} (m : M S E A) (f g : A → M S E B) s :
  (∀ a s', f a s' = g a s') → (m ≫= f) s = (m ≫= g) s.
Proof. intros H. unfold mbind, M_bind. destruct (m s) as [[a|e] s']; auto. Qed.

Lemma bind_ok {A B} (m : M S E A) (f : A → M S E B) a s s' :
  m s = (Ok a, s') → (m ≫= f) s = f a s'.
Proof. unfold mbind, M_bind. by intros ->. Qed.

(** *** Reasoning about outcomes *)
Definition outcome {A} (Q : A → S → Prop) (R : E → S → Prop)
    (p : result E A * S) : Prop :=
  match p with
  | (Ok a, s) => Q a s
  | (Err e, s) => R e s
  end.

Definition triple {A} (P : S → Prop) (m : M S E A)
    (Q : A → S → Prop) (R : E → S → Prop) : Prop :=
  ∀ s, P s → outcome Q R (m s).

(** An operation that keeps an invariant whether it succeeds or fails. *)
Definition keeps {A} (I : S → Prop) (m : M S E A) : Prop :=
  ∀ s, I s → I (m s).2.

Lemma outcome_mono {A} (Q Q' : A → S → Prop) (R R' : E → S → Prop) p :
  outcome Q R p → (∀ a s, Q a s → Q' a s) → (∀ e s, R e s → R' e s) →
  outcome Q' R' p.
Proof. destruct p as [[a|e] s]; cbn; auto. Qed.

Lemma triple_bind {A B} P (m : M S E A) (k : A → M S E B) Q1 Q R :
  triple P m Q1 R → (∀ a, triple (Q1 a) (k a) Q R) → triple P (m ≫= k) Q R.
Proof.
  intros Hm Hk s Hs. specialize (Hm s Hs). unfold mbind, M_bind.
  destruct (m s) as [[a|e] s']; cbn in *; [by apply Hk|done].
Qed.

Lemma triple_ret {A} (a : A) (P : S → Prop) (Q : A → S → Prop) R :
  (∀ s, P s → Q a s) → triple P (mret a) Q R.
Proof. intros H s Hs. by apply H. Qed.

Lemma triple_modify f (P : S → Prop) (Q : unit → S → Prop) R :
  (∀ s, P s → Q tt (f s)) → triple P (modify f) Q R.
Proof. intros H s Hs. by apply H. Qed.

Lemma triple_gets {A} (f : S → A) (P : S → Prop) (Q : A → S → Prop) R :
  (∀ s, P s → Q (f s) s) → triple P (gets f) Q R.
Proof. intros H s Hs. by apply H. Qed.

Lemma triple_throw {A} e (P : S → Prop) (Q : A → S → Prop) (R : E → S → Prop) :
  (∀ s, P s → R e s) → triple P (throw e) Q R.
Proof. intros H s Hs. by apply H. Qed.

Lemma triple_catch {E' A} P (m : M S E' A) (handler : E' → M S E A) (Q : A → S → Prop)
    (R' : E' → S → Prop) (R : E → S → Prop) :
  (∀ s, P s → match m s with (Ok a, s') => Q a s' | (Err e, s') => R' e s' end) →
  (∀ e, triple (R' e) (handler e) Q R) → triple P (catch m handler) Q R.
Proof.
  intros Hm Hh s Hs. specialize (Hm s Hs). unfold catch.
  destruct (m s) as [[a|e] s']; [done|by apply Hh].
Qed.

Lemma triple_lift {A} (r : result E A) (P : S → Prop) (Q : A → S → Prop)
    (R : E → S → Prop) :
  (∀ s a, P s → r = Ok a → Q a s) → (∀ s e, P s → r = Err e → R e s) →
  triple P (lift r) Q R.
Proof. intros HQ HR s Hs. unfold lift. destruct r; cbn; eauto. Qed.

Lemma triple_mono {A} (P P' : S → Prop) (m : M S E A) (Q Q' : A → S → Prop)
    (R R' : E → S → Prop) :
  triple P m Q R → (∀ s, P' s → P s) → (∀ a s, Q a s → Q' a s) →
  (∀ e s, R e s → R' e s) → triple P' m Q' R'.
Proof. intros H HP HQ HR s Hs. eapply outcome_mono; eauto. Qed.

(** Loop rule: [I] is indexed by the indices still to visit. *)
Lemma triple_mfor {B} (I : list B → S → Prop) (body : B → M S E unit) R l :
  (∀ i l', triple (I (i :: l')) (body i) (λ _, I l') R) →
  triple (I l) (mfor l body) (λ _, I []) R.
Proof.
  intros Hb. induction l as [|i l IH]; cbn.
  - by apply triple_ret.
  - eapply triple_bind; [apply Hb|]. by intros [].
Qed.

Lemma keeps_triple {A} I (m : M S E A) :
  keeps I m ↔ triple I m (λ _, I) (λ _, I).
Proof.
  split; intros H s Hs; specialize (H s Hs); destruct (m s) as [[a|e] s']; done.
Qed.

Lemma keeps_bind {A B} I (m : M S E A) (k : A → M S E B) :
  keeps I m → (∀ a, keeps I (k a)) → keeps I (m ≫= k).
Proof.
  intros Hm Hk s Hs. specialize (Hm s Hs). unfold mbind, M_bind.
  destruct (m s) as [[a|e] s']; cbn in *; [by apply Hk|done].
Qed.

Lemma keeps_ret {A} I (a : A) : keeps I (mret a).
Proof. by intros s Hs. Qed.

Lemma keeps_gets {A} I (f : S → A) : keeps I (gets f).
Proof. by intros s Hs. Qed.

Lemma keeps_throw {A} I e : keeps I (throw e : M S E A).
Proof. by intros s Hs. Qed.

Lemma keeps_lift {A} I (r : result E A) : keeps I (lift r).
Proof. by intros s Hs. Qed.

Lemma keeps_modify I f : (∀ s, I s → I (f s)) → keeps I (modify f).
Proof. intros H s Hs. by apply H. Qed.

Lemma keeps_mfor {B} I l (body : B → M S E unit) :
  (∀ i, keeps I (body i)) → keeps I (mfor l body).
Proof.
  intros H. induction l; cbn; [apply keeps_ret|by apply keeps_bind].
Qed.
End monad.

Create HintDb keeps discriminated.
#[export] Hint Resolve keeps_bind keeps_ret keeps_gets keeps_throw keeps_lift
  keeps_mfor : keeps.

(** Execute the monad's plumbing on a known state. *)
Ltac run_monad :=
  unfold mbind, M_bind, mret, M_ret, gets, modify, lift, throw in *; cbn in *.
