(* ===== verification/Bytes.v ===== *)
(** * Bytes and fixed-width little-endian fields

    Buffers are lists of byte values in [Z].  The Rust slice operations the parsers
    and serialisers use are [slice] (reading a range), [write_at]
    ([copy_from_slice] into a range) and the little-endian conversions of the
    integer types, here stdpp's.  The lemmas say what a read sees after a write;
    a fixed-width record is a list of fields that are stored one by one and read
    back by [slice_patched].  [result] gets its own monad instance for parsers
    without state. *)

From stdpp Require Import prelude.
From S2P Require Import Prelude.

Local Open Scope Z_scope.

(** ** Fallible code without state *)
#[export] Instance result_ret {E} : MRet (result E) := λ A a, Ok a.
#[export] Instance result_bind {E} : MBind (result E) := λ A B f r,
  match r with Ok a => f a | Err e => Err e end.

Lemma result_bind_Ok {E A B} (r : result E A) (f : A → result E B) b :
  r ≫= f = Ok b ↔ ∃ a, r = Ok a ∧ f a = Ok b.
Proof. destruct r as [a|e]; cbn; split; [by exists a|by intros (? & [= <-] & ?)|done|by intros (? & ? & _)]. Qed.

(** [while idx < n { body(idx)?; idx += 1 }] over a local accumulator *)
Fixpoint rfold {E A B} (body : A → B → result E A) (a : A) (l : list B) : result E A :=
  match l with
  | [] => Ok a
  | i :: l' => a ← body a i; rfold body a l'
  end.

(** ** Ranges of a buffer *)
Definition bytes_ok (bs : list Z) : Prop := Forall (λ b, 0 <= b < 2 ^ 8) bs.

Definition slice (off n : nat) (bs : list Z) : list Z := take n (drop off bs).

(** [dst[off..off + src.len()].copy_from_slice(src)], in range *)
Definition write_at (off : nat) (src bs : list Z) : list Z :=
  take off bs ++ src ++ drop (off + length src) bs.

Arguments slice : simpl never.
Arguments write_at : simpl never.

Lemma length_slice off n bs : (off + n ≤ length bs)%nat → length (slice off n bs) = n.
Proof. intros. unfold slice. rewrite length_take, length_drop. lia. Qed.

Lemma length_write_at off src bs :
  (off + length src ≤ length bs)%nat → length (write_at off src bs) = length bs.
Proof. intros. unfold write_at. rewrite !length_app, length_take, length_drop. lia. Qed.

(** reading back what was written *)
Lemma slice_write_eq off n src bs :
  n = length src → (off + length src ≤ length bs)%nat → slice off n (write_at off src bs) = src.
Proof.
  intros -> H. unfold slice, write_at. rewrite drop_app_length' by (rewrite length_take; lia).
  by rewrite take_app_length.
Qed.

(** reading what a write does not touch *)
Lemma slice_write_ne off n off' src bs :
  (off + n ≤ off')%nat ∨ (off' + length src ≤ off)%nat → (off' + length src ≤ length bs)%nat →
  slice off n (write_at off' src bs) = slice off n bs.
Proof.
  intros H Hl. unfold slice, write_at. apply list_eq. intros i.
  destruct (decide (i < n)%nat) as [Hi|Hi]; [|by rewrite !lookup_take_ge by lia].
  rewrite !lookup_take_lt, !lookup_drop by lia. destruct H as [H|H].
  - rewrite lookup_app_l by (rewrite length_take; lia). by rewrite lookup_take_lt by lia.
  - rewrite lookup_app_r by (rewrite length_take; lia). rewrite length_take, Nat.min_l by lia.
    rewrite lookup_app_r by lia. rewrite lookup_drop. f_equal. lia.
Qed.

Lemma slice_all bs n : n = length bs → slice 0 n bs = bs.
Proof. intros ->. unfold slice. by rewrite drop_0, firstn_all. Qed.

Lemma bytes_ok_slice off n bs : bytes_ok bs → bytes_ok (slice off n bs).
Proof. intros. by apply Forall_take, Forall_drop. Qed.

Lemma bytes_ok_write off src bs : bytes_ok src → bytes_ok bs → bytes_ok (write_at off src bs).
Proof. intros. apply Forall_app; split; [by apply Forall_take|]. apply Forall_app; split; [done|by apply Forall_drop]. Qed.

(** ** Little-endian integers *)
(** [value.to_le_bytes()] of an [n]-byte integer *)
Definition to_le_bytes (n : nat) (value : Z) : list Z := Z_to_little_endian (Z.of_nat n) 8 value.
(** [uN::from_le_bytes(bytes)] *)
Definition from_le_bytes (bs : list Z) : Z := little_endian_to_Z 8 bs.

(** a value of an [n]-byte unsigned integer *)
Definition fits (n : nat) (value : Z) : Prop := 0 <= value < 2 ^ (8 * Z.of_nat n).

Lemma fits_b n v : (0 <=? v) && (v <? 2 ^ (8 * Z.of_nat n)) = true → fits n v.
Proof. rewrite andb_true_iff, Z.leb_le, Z.ltb_lt. done. Qed.

Arguments to_le_bytes : simpl never.
Arguments from_le_bytes : simpl never.

Lemma length_to_le n v : length (to_le_bytes n v) = n.
Proof. apply Nat2Z.inj. apply length_Z_to_little_endian. lia. Qed.

Lemma bytes_ok_to_le n v : bytes_ok (to_le_bytes n v).
Proof. apply Z_to_little_endian_bound; lia. Qed.

Lemma from_to_le n v : fits n v → from_le_bytes (to_le_bytes n v) = v.
Proof.
  intros H. unfold from_le_bytes, to_le_bytes.
  rewrite little_endian_to_Z_to_little_endian by lia. apply Z.mod_small.
  unfold fits in H. by rewrite Z.mul_comm in H.
Qed.

Lemma to_from_le n bs : length bs = n → bytes_ok bs → to_le_bytes n (from_le_bytes bs) = bs.
Proof. intros <- H. unfold to_le_bytes, from_le_bytes. by apply Z_to_little_endian_to_Z; [|lia|]. Qed.

Lemma from_le_fits bs : bytes_ok bs → fits (length bs) (from_le_bytes bs).
Proof.
  intros H. unfold fits, from_le_bytes. rewrite Z.mul_comm.
  apply little_endian_to_Z_bound; [lia|done].
Qed.

(** ** Records of fields

    A fixed-width record is a list of fields, each an offset and its bytes; a
    serialiser stores them one by one. *)
Definition field : Type := nat * list Z.

Fixpoint patched (fs : list field) (bs : list Z) : list Z :=
  match fs with
  | [] => bs
  | f :: fs' => patched fs' (write_at f.1 f.2 bs)
  end.

(** every field in range and no two overlap *)
Definition apart (f g : nat * nat) : bool := (f.1 + f.2 <=? g.1)%nat || (g.1 + g.2 <=? f.1)%nat.
Fixpoint layout_ok (n : nat) (es : list (nat * nat)) : bool :=
  match es with
  | [] => true
  | e :: es' => (e.1 + e.2 <=? n)%nat && forallb (apart e) es' && layout_ok n es'
  end.
Definition extents (fs : list field) : list (nat * nat) := (λ f, (f.1, length f.2)) <$> fs.

Lemma length_patched fs bs :
  layout_ok (length bs) (extents fs) = true → length (patched fs bs) = length bs.
Proof.
  revert bs. induction fs as [|f fs IH]; intros bs; cbn; [done|]. rewrite !andb_true_iff.
  intros [[Hr _] Hl]. apply Nat.leb_le in Hr. cbn in Hr.
  pose proof (length_write_at f.1 f.2 bs Hr) as Hlen.
  etrans; [apply IH|exact Hlen]. by rewrite Hlen.
Qed.

Lemma slice_patched_ne off n fs bs :
  layout_ok (length bs) (extents fs) = true → forallb (apart (off, n)) (extents fs) = true →
  slice off n (patched fs bs) = slice off n bs.
Proof.
  revert bs. induction fs as [|f fs IH]; intros bs; cbn; [done|]. rewrite !andb_true_iff.
  intros [[Hr _] Hl] [Ha Hs]. apply Nat.leb_le in Hr. cbn in Hr.
  rewrite IH; [|by rewrite length_write_at|done]. apply slice_write_ne; [|done].
  apply orb_true_iff in Ha. rewrite !Nat.leb_le in Ha. exact Ha.
Qed.

(** each field reads back as it was stored *)
Lemma slice_patched fs bs i off src n :
  layout_ok (length bs) (extents fs) = true → fs !! i = Some (off, src) → n = length src →
  slice off n (patched fs bs) = src.
Proof.
  revert bs i. induction fs as [|f fs IH]; intros bs i; cbn; [done|]. rewrite !andb_true_iff.
  intros [[Hr Ha] Hl] Hi ->. apply Nat.leb_le in Hr. cbn in Hr.
  destruct i as [|i]; cbn in Hi.
  - injection Hi as ->. cbn [fst snd] in *. rewrite slice_patched_ne; [|by rewrite length_write_at|done].
    by apply slice_write_eq.
  - eapply IH; [|exact Hi|done]. by rewrite length_write_at.
Qed.

Lemma bytes_ok_patched fs bs :
  Forall (λ f, bytes_ok f.2) fs → bytes_ok bs → bytes_ok (patched fs bs).
Proof.
  intros Hf. revert bs. induction Hf as [|f fs Hf _ IH]; intros bs Hb; cbn; [done|].
  apply IH. by apply bytes_ok_write.
Qed.

Lemma slice_patched_elem fs bs off src n :
  layout_ok (length bs) (extents fs) = true → (off, src) ∈ fs → n = length src →
  slice off n (patched fs bs) = src.
Proof. intros Hl [i Hi]%list_elem_of_lookup. by eapply slice_patched. Qed.

Lemma patched_app fs fs' bs : patched (fs ++ fs') bs = patched fs' (patched fs bs).
Proof. revert bs. induction fs as [|f fs IH]; intros bs; cbn; [done|]. apply IH. Qed.

(** a layout with shorter fields at the same places is still a layout *)
Lemma layout_ok_le n es es' :
  Forall2 (λ e e', e.1 = e'.1 ∧ (e.2 ≤ e'.2)%nat) es es' →
  layout_ok n es' = true → layout_ok n es = true.
Proof.
  induction 1 as [|[o l] [o' l'] es es' [Ho Hle] Hr IH]; cbn in *; [done|]. subst o'.
  rewrite !andb_true_iff, !Nat.leb_le. intros [[H1 H2] H3]. split_and!; [lia| |by apply IH].
  clear IH H1 H3. induction Hr as [|[o1 l1] [o2 l2] es es' [He Hl'] _ IH]; [done|].
  cbn in *. subst o2. rewrite !andb_true_iff in *. destruct H2 as [H2 H3].
  split; [|by apply IH]. unfold apart in *. cbn in *. rewrite !orb_true_iff, !Nat.leb_le in *. lia.
Qed.

Lemma slice_app_whole off n bs src k :
  slice off n bs = src → (k ≤ n)%nat → slice off k bs = take k src.
Proof. intros <- Hk. unfold slice. rewrite take_take. by rewrite Nat.min_l by lia. Qed.

(** ** Records without gaps *)
Fixpoint contiguous (off : nat) (fs : list field) : Prop :=
  match fs with
  | [] => True
  | f :: fs' => f.1 = off ∧ contiguous (off + length f.2) fs'
  end.
Definition field_bytes (fs : list field) : list Z := fs ≫= snd.

Lemma patched_contiguous off fs bs :
  contiguous off fs → (off + length (field_bytes fs) ≤ length bs)%nat →
  patched fs bs = take off bs ++ field_bytes fs ++ drop (off + length (field_bytes fs)) bs.
Proof.
  revert off bs. induction fs as [|[o src] fs IH]; intros off bs; cbn.
  { intros _ _. by rewrite Nat.add_0_r, take_drop. }
  intros [-> Hc]. rewrite length_app. intros Hl.
  change (fs ≫= snd) with (field_bytes fs) in *.
  rewrite (IH (off + length src)%nat); [|done|by rewrite length_write_at; lia].
  assert (take (off + length src) (write_at off src bs) = take off bs ++ src) as ->.
  { unfold write_at. rewrite app_assoc. apply take_app_length'. rewrite length_app, length_take. lia. }
  assert (∀ k, drop (off + length src + k) (write_at off src bs) = drop (off + length src + k) bs) as Hd.
  { intros k. unfold write_at. rewrite app_assoc, <-drop_drop, drop_app_length'
      by (rewrite length_app, length_take; lia). by rewrite drop_drop. }
  rewrite Hd, <-!app_assoc. do 3 f_equal. f_equal. lia.
Qed.

Lemma slice_slice_app off n m bs :
  slice off n bs ++ slice (off + n) m bs = slice off (n + m) bs.
Proof. unfold slice. rewrite <-drop_drop. by rewrite take_take_drop. Qed.

(** successive ranges *)
Fixpoint cut (off : nat) (ns : list nat) (bs : list Z) : list Z :=
  match ns with
  | [] => []
  | n :: ns' => slice off n bs ++ cut (off + n) ns' bs
  end.
Lemma cut_slice off ns bs : cut off ns bs = slice off (sum_list ns) bs.
Proof.
  revert off. induction ns as [|n ns IH]; intros off; cbn; [done|]. by rewrite IH, slice_slice_app.
Qed.

Lemma apart_le f es es' :
  Forall2 (λ e e', e.1 = e'.1 ∧ (e.2 ≤ e'.2)%nat) es es' →
  forallb (apart f) es' = true → forallb (apart f) es = true.
Proof.
  induction 1 as [|[o l] [o' l'] es es' [Ho Hle] _ IH]; cbn in *; [done|]. subst o'.
  rewrite !andb_true_iff. intros [H1 H2]. split; [|by apply IH].
  unfold apart in *. cbn in *. rewrite !orb_true_iff, !Nat.leb_le in *. lia.
Qed.

(** ** Bitwise operations stay within a width *)
Lemma lxor_fits n a b : fits n a → fits n b → fits n (Z.lxor a b).
Proof.
  unfold fits. intros [Ha Ha'] [Hb Hb']. set (w := 8 * Z.of_nat n) in *.
  assert (0 <= Z.lxor a b) as Hn by (apply Z.lxor_nonneg; lia). split; [done|].
  destruct (decide (Z.lxor a b = 0)) as [->|Hne]; [lia|].
  apply Z.log2_lt_pow2; [lia|]. eapply Z.le_lt_trans; [by apply Z.log2_lxor|].
  assert (∀ x, 0 <= x < 2 ^ w → Z.log2 x < w ∨ x = 0) as Hlog.
  { intros x Hx. destruct (decide (x = 0)); [by right|]. left. apply Z.log2_lt_pow2; lia. }
  assert (w ≠ 0) as Hw.
  { intros Hw. rewrite Hw in *. assert (a = 0) as -> by lia. assert (b = 0) as -> by lia. done. }
  apply Z.max_lub_lt.
  - destruct (Hlog a) as [?| ->]; [lia|done|]. cbn. lia.
  - destruct (Hlog b) as [?| ->]; [lia|done|]. cbn. lia.
Qed.
