(* ===== verification/Slots.v ===== *)
(** * Slot tables

    Every fixed-capacity table of the kernel is an array [[Option<T>; N]]
    scanned by index from 0.  Such an array is a [list (option T)] whose length
    is [N].  This file holds the scans the code performs on them (first match,
    first free slot, clear every match) and the map view that makes them usable:
    with a key function, a table is a partial map [slot_get]. *)

From stdpp Require Import prelude.
From S2P Require Import Prelude.

Section scans.
  Context {T : Type}.
  Implicit Types (l : list (option T)) (p : T → bool).

(** [idx] of the first occupied slot that satisfies [p] *)
Fixpoint find_slot p l : option nat :=
  match l with
  | [] => None
  | Some x :: l' => if p x then Some 0 else S <$> find_slot p l'
  | None :: l' => S <$> find_slot p l'
  end.

(** the first occupied entry that satisfies [p] *)
Fixpoint slot_find p l : option T :=
  match l with
  | [] => None
  | Some x :: l' => if p x then Some x else slot_find p l'
  | None :: l' => slot_find p l'
  end.

(** [idx] of the first empty slot *)
Fixpoint free_slot l : option nat :=
  match l with
  | [] => None
  | None :: _ => Some 0
  | Some _ :: l' => S <$> free_slot l'
  end.

(** empty every slot whose entry satisfies [p] *)
Fixpoint clear_where p l : list (option T) :=
  match l with
  | [] => []
  | Some x :: l' => (if p x then None else Some x) :: clear_where p l'
  | None :: l' => None :: clear_where p l'
  end.

(** is there an occupied slot that satisfies [p]? *)
Definition slot_any p l : bool :=
  match slot_find p l with Some _ => true | None => false end.

(** the entries, in index order *)
Fixpoint occupied l : list T :=
  match l with
  | [] => []
  | Some x :: l' => x :: occupied l'
  | None :: l' => occupied l'
  end.

Lemma length_clear_where p l : length (clear_where p l) = length l.
Proof. by induction l as [|[x|] l IH]; cbn; rewrite ?IH. Qed.

Lemma find_slot_Some p l i :
  find_slot p l = Some i →
  ∃ x, l !! i = Some (Some x) ∧ p x = true ∧ slot_find p l = Some x.
Proof.
  revert i. induction l as [|[x|] l IH]; intros i; cbn; [done| |].
  - destruct (p x) eqn:Hp; [intros [= <-]; eauto|].
    intros (j & Hj & ->)%fmap_Some. cbn. eauto.
  - intros (j & Hj & ->)%fmap_Some. cbn. eauto.
Qed.

Lemma find_slot_lt p l i : find_slot p l = Some i → i < length l.
Proof. intros (x & Hx & _)%find_slot_Some. by eapply lookup_lt_Some. Qed.

Lemma find_slot_None p l : find_slot p l = None ↔ slot_find p l = None.
Proof.
  induction l as [|[x|] l IH]; cbn; [done| |].
  - destruct (p x); [done|]. by rewrite fmap_None.
  - by rewrite fmap_None.
Qed.

Lemma find_slot_find p l :
  match find_slot p l with
  | Some i => ∃ x, l !! i = Some (Some x) ∧ slot_find p l = Some x
  | None => slot_find p l = None
  end.
Proof.
  destruct (find_slot p l) eqn:H; [|by apply find_slot_None].
  apply find_slot_Some in H as (x & ? & _ & ?). eauto.
Qed.

Lemma slot_find_Some p l x : slot_find p l = Some x → p x = true ∧ Some x ∈ l.
Proof.
  induction l as [|[y|] l IH]; cbn; [done| |].
  - destruct (p y) eqn:Hp; [intros [= ->]; split; [done|by constructor]|].
    intros [? ?]%IH. split; [done|by constructor].
  - intros [? ?]%IH. split; [done|by constructor].
Qed.

Lemma slot_find_None p l : slot_find p l = None ↔ ∀ x, Some x ∈ l → p x = false.
Proof.
  induction l as [|[y|] l IH]; cbn.
  - split; [|done]. intros _ x Hx. by apply not_elem_of_nil in Hx.
  - destruct (p y) eqn:Hp.
    + split; [done|]. intros H. rewrite (H y) in Hp; [done|by constructor].
    + rewrite IH. split; intros H x.
      * intros [[= ->]|?]%elem_of_cons; eauto.
      * intros ?. apply H. by constructor.
  - rewrite IH. split; intros H x Hx.
    + apply elem_of_cons in Hx as [?|?]; [done|eauto].
    + apply H. by constructor.
Qed.

Lemma slot_any_true p l : slot_any p l = true ↔ ∃ x, Some x ∈ l ∧ p x = true.
Proof.
  unfold slot_any. destruct (slot_find p l) as [x|] eqn:H.
  - apply slot_find_Some in H as [? ?]. split; eauto.
  - split; [done|]. intros (x & Hx & Hp).
    rewrite slot_find_None in H. rewrite (H x Hx) in Hp. done.
Qed.

Lemma free_slot_Some l i : free_slot l = Some i → l !! i = Some None.
Proof.
  revert i. induction l as [|[x|] l IH]; intros i; cbn; [done| |].
  - intros (j & Hj & ->)%fmap_Some. cbn. eauto.
  - by intros [= <-].
Qed.

Lemma free_slot_None l : free_slot l = None ↔ ∀ o, o ∈ l → is_Some o.
Proof.
  induction l as [|[x|] l IH]; cbn.
  - split; [|done]. intros _ x Hx. by apply not_elem_of_nil in Hx.
  - rewrite fmap_None, IH. split; intros H o.
    + intros [->|?]%elem_of_cons; eauto.
    + intros ?. apply H. by constructor.
  - split; [done|]. intros H. destruct (H None) as [? ?]; [constructor|done].
Qed.

Lemma elem_of_occupied l x : x ∈ occupied l ↔ Some x ∈ l.
Proof.
  induction l as [|[y|] l IH]; cbn.
  - by rewrite !elem_of_nil.
  - rewrite !elem_of_cons, IH. intuition congruence.
  - rewrite !elem_of_cons, IH. intuition congruence.
Qed.

Lemma length_occupied_le l : length (occupied l) ≤ length l.
Proof. induction l as [|[x|] l IH]; cbn; lia. Qed.

Lemma free_slot_room l : length (occupied l) < length l ↔ is_Some (free_slot l).
Proof.
  induction l as [|[x|] l IH]; cbn.
  - split; [lia|]. by intros [? ?].
  - rewrite fmap_is_Some, <-IH. lia.
  - split; [eauto|]. intros _. pose proof (length_occupied_le l). lia.
Qed.

Lemma length_occupied_insert_free l i x :
  free_slot l = Some i →
  length (occupied (<[i:=Some x]> l)) = S (length (occupied l)).
Proof.
  revert i. induction l as [|[y|] l IH]; intros i; cbn; [done| |].
  - intros (j & Hj & ->)%fmap_Some. cbn. by rewrite IH.
  - intros [= <-]. done.
Qed.

Lemma occupied_clear p l :
  occupied (clear_where p l) = filter (λ x, p x = false) (occupied l).
Proof.
  induction l as [|[x|] l IH]; cbn [occupied clear_where]; [done| |done].
  rewrite filter_cons. destruct (p x) eqn:Hp; cbn [occupied]; rewrite IH.
  - by rewrite decide_False by done.
  - by rewrite decide_True by done.
Qed.

Lemma elem_of_clear p l x :
  Some x ∈ clear_where p l ↔ Some x ∈ l ∧ p x = false.
Proof.
  rewrite <-!elem_of_occupied, occupied_clear, list_elem_of_filter. intuition auto.
Qed.

Lemma occupied_replicate n : occupied (replicate n (@None T)) = [].
Proof. by induction n. Qed.

Lemma occupied_app l l' : occupied (l ++ l') = occupied l ++ occupied l'.
Proof. induction l as [|[x|] l IH]; cbn; by rewrite ?IH. Qed.

Lemma elem_of_replicate_None n x : Some x ∈ replicate n (@None T) ↔ False.
Proof. rewrite <-elem_of_occupied, occupied_replicate, elem_of_nil. done. Qed.

Lemma elem_of_insert_slot l i o x :
  Some x ∈ <[i:=o]> l → o = Some x ∨ Some x ∈ l.
Proof.
  rewrite !list_elem_of_lookup. intros [j Hj].
  apply list_lookup_insert_Some in Hj as [(-> & -> & _)|(? & ?)]; eauto.
Qed.

Lemma elem_of_insert_slot_new l i x :
  i < length l → Some x ∈ <[i:=Some x]> l.
Proof. intros. apply list_elem_of_lookup. exists i. by apply list_lookup_insert_eq. Qed.

Lemma elem_of_insert_slot_old l i o x :
  Some x ∈ l → l !! i ≠ Some (Some x) → Some x ∈ <[i:=o]> l.
Proof.
  rewrite !list_elem_of_lookup. intros [j Hj] Hi. exists j.
  rewrite list_lookup_insert_ne; [done|]. by intros ->.
Qed.
Lemma find_slot_split p l i :
  find_slot p l = Some i →
  ∃ x l1 l2, l = l1 ++ Some x :: l2 ∧ length l1 = i ∧ p x = true ∧
    (∀ y, Some y ∈ l1 → p y = false).
Proof.
  revert i. induction l as [|o l IH]; intros i; [done|]. cbn.
  assert ((∃ j, find_slot p l = Some j ∧ i = S j ∧ (∀ y, o = Some y → p y = false)) →
    ∃ x l1 l2, o :: l = l1 ++ Some x :: l2 ∧ length l1 = i ∧ p x = true ∧
      (∀ y, Some y ∈ l1 → p y = false)) as Hlater.
  { intros (j & (x & l1 & l2 & -> & Hl & Hp & Hno)%IH & -> & Ho).
    exists x, (o :: l1), l2. split_and!; [done|cbn; congruence|done|].
    intros y [Hy|Hy]%elem_of_cons; [by apply Ho|by apply Hno]. }
  destruct o as [x|].
  - destruct (p x) eqn:Hp.
    + intros [= <-]. exists x, [], l. split_and!; [done|done|done|]. by intros y ?%elem_of_nil.
    + intros (j & Hj & ->)%fmap_Some. apply Hlater. exists j. split_and!; [done|done|congruence].
  - intros (j & Hj & ->)%fmap_Some. apply Hlater. by exists j.
Qed.

(** Emptying the slot a scan found takes exactly that entry out. *)
Lemma find_slot_remove p l i :
  find_slot p l = Some i →
  ∃ x, l !! i = Some (Some x) ∧ p x = true ∧ occupied l ≡ₚ x :: occupied (<[i:=None]> l).
Proof.
  intros (x & l1 & l2 & -> & <- & Hp & _)%find_slot_split. exists x.
  split_and!; [by apply list_lookup_middle|done|].
  rewrite insert_app_r_alt, Nat.sub_diag by done. cbn [insert list_insert].
  rewrite !occupied_app. cbn. by rewrite Permutation_middle.
Qed.

Lemma occupied_remove l i x :
  l !! i = Some (Some x) → occupied l ≡ₚ x :: occupied (<[i:=None]> l).
Proof.
  intros H. rewrite <-(take_drop_middle l i (Some x) H) at 1.
  rewrite insert_take_drop by (by eapply lookup_lt_Some). rewrite !occupied_app. cbn.
  by rewrite Permutation_middle.
Qed.

Lemma occupied_insert_free l i x :
  free_slot l = Some i → occupied (<[i:=Some x]> l) ≡ₚ x :: occupied l.
Proof.
  revert i. induction l as [|[y|] l IH]; intros i; cbn; [done| |].
  - intros (j & Hj & ->)%fmap_Some. cbn. rewrite (IH _ Hj). constructor.
  - intros [= <-]. done.
Qed.
End scans.

(** ** Tables as maps

    [key] extracts the identifier the code searches by. *)
Section keyed.
  Context {K T : Type} `{!EqDecision K} (key : T → K).
  Implicit Types (l : list (option T)) (k : K).

(** the test the scans use: [entry.id == k] *)
Definition has_key k (x : T) : bool := bool_decide (key x = k).

Definition slot_get k l : option T := slot_find (has_key k) l.
#[local] Arguments slot_get : simpl never.

(** no identifier occurs twice *)
Definition uniq l : Prop := NoDup (key <$> occupied l).

Lemma has_key_true k x : has_key k x = true ↔ key x = k.
Proof. unfold has_key. by rewrite bool_decide_eq_true. Qed.

Lemma has_key_false k x : has_key k x = false ↔ key x ≠ k.
Proof. unfold has_key. by rewrite bool_decide_eq_false. Qed.

Lemma slot_get_key k l x : slot_get k l = Some x → key x = k.
Proof. intros [?%has_key_true _]%slot_find_Some. done. Qed.

Lemma slot_get_elem k l x : slot_get k l = Some x → Some x ∈ l.
Proof. by intros [_ ?]%slot_find_Some. Qed.

Lemma slot_get_None k l : slot_get k l = None ↔ ∀ x, Some x ∈ l → key x ≠ k.
Proof.
  unfold slot_get. rewrite slot_find_None.
  split; intros H x Hx; apply has_key_false; eauto.
Qed.

Lemma slot_get_cons k o l :
  slot_get k (o :: l) =
    match o with
    | Some x => if decide (key x = k) then Some x else slot_get k l
    | None => slot_get k l
    end.
Proof.
  unfold slot_get, has_key; cbn. destruct o as [x|]; [|done].
  by case_bool_decide; case_decide.
Qed.

Lemma slot_get_replicate k n : slot_get k (replicate n None) = None.
Proof. by induction n. Qed.

Lemma uniq_replicate n : uniq (replicate n None).
Proof. unfold uniq. rewrite occupied_replicate. constructor. Qed.

Lemma uniq_cons_Some x l :
  uniq (Some x :: l) ↔ slot_get (key x) l = None ∧ uniq l.
Proof.
  unfold uniq; cbn. rewrite NoDup_cons, slot_get_None. f_equiv.
  rewrite list_elem_of_fmap. split.
  - intros H y Hy Heq. apply H. exists y. by rewrite elem_of_occupied.
  - intros H (y & Heq & Hy). apply elem_of_occupied in Hy. by eapply H.
Qed.

Lemma uniq_elem l x : uniq l → Some x ∈ l → slot_get (key x) l = Some x.
Proof.
  induction l as [|[y|] l IH]; intros Hu Hx.
  - by apply not_elem_of_nil in Hx.
  - apply uniq_cons_Some in Hu as [Hy Hu]. rewrite slot_get_cons.
    apply elem_of_cons in Hx as [[= ->]|Hx]; [by rewrite decide_True|].
    rewrite decide_False; [by apply IH|].
    intros Heq. rewrite slot_get_None in Hy. by apply (Hy x).
  - apply elem_of_cons in Hx as [?|Hx]; [done|]. rewrite slot_get_cons. by apply IH.
Qed.

(** Overwrite the slot found for [k] with an entry of the same key. *)
Lemma slot_get_update l k i y k' :
  find_slot (has_key k) l = Some i → key y = k →
  slot_get k' (<[i:=Some y]> l) = if decide (k = k') then Some y else slot_get k' l.
Proof.
  intros Hi Hy. revert i Hi. induction l as [|[x|] l IH]; intros i; simpl; [done| |].
  - destruct (has_key k x) eqn:Hx.
    + intros [= <-]. apply has_key_true in Hx. simpl.
      rewrite !slot_get_cons, Hx, Hy. by case_decide.
    + intros (j & Hj & ->)%fmap_Some. apply has_key_false in Hx. simpl.
      rewrite !slot_get_cons, (IH _ Hj). repeat case_decide; congruence.
  - intros (j & Hj & ->)%fmap_Some. simpl. rewrite !slot_get_cons. by apply IH.
Qed.

(** Overwrite an occupied slot of a table without duplicates. *)
Lemma slot_get_set l i x y k :
  uniq l → l !! i = Some (Some x) → key y = key x →
  slot_get k (<[i:=Some y]> l) = if decide (key x = k) then Some y else slot_get k l.
Proof.
  revert i. induction l as [|[z|] l IH]; intros i Hu Hi Hy; [done| |].
  - apply uniq_cons_Some in Hu as [Hz Hu]. destruct i as [|i]; simpl in *.
    + injection Hi as ->. rewrite !slot_get_cons, Hy. by case_decide.
    + rewrite !slot_get_cons, (IH _ Hu Hi Hy).
      assert (key z ≠ key x).
      { intros Heq. rewrite slot_get_None in Hz. apply (Hz x); [|done].
        apply list_elem_of_lookup. eauto. }
      repeat case_decide; congruence.
  - destruct i as [|i]; simpl in *; [done|]. rewrite !slot_get_cons. by apply IH.
Qed.

(** Fill the first free slot with a fresh key. *)
Lemma slot_get_insert l i x k :
  free_slot l = Some i → slot_get (key x) l = None →
  slot_get k (<[i:=Some x]> l) = if decide (key x = k) then Some x else slot_get k l.
Proof.
  revert i. induction l as [|[y|] l IH]; intros i; simpl; [done| |].
  - intros (j & Hj & ->)%fmap_Some. simpl. rewrite !slot_get_cons.
    intros Hx. case_decide; [done|]. rewrite (IH _ Hj Hx).
    repeat case_decide; congruence.
  - intros [= <-] _. simpl. by rewrite slot_get_cons.
Qed.

(** Fill the first free slot when the key may already be present. *)
Lemma slot_get_insert_any l i x k :
  free_slot l = Some i →
  slot_get k (<[i:=Some x]> l) = slot_get k l ∧ key x ≠ k ∨
  (key x = k ∧ ∃ y, slot_get k (<[i:=Some x]> l) = Some y ∧
                    (y = x ∨ slot_get k l = Some y)).
Proof.
  revert i. induction l as [|[y|] l IH]; intros i; simpl; [done| |].
  - intros (j & Hj & ->)%fmap_Some. simpl. rewrite !slot_get_cons.
    destruct (IH _ Hj) as [[Heq Hne]|(Hk & z & Hz & Hor)]; repeat case_decide; eauto 10.
  - intros [= <-]. simpl. rewrite !slot_get_cons. case_decide; eauto 10.
Qed.

Lemma uniq_set l i x y :
  uniq l → l !! i = Some (Some x) → key y = key x → uniq (<[i:=Some y]> l).
Proof.
  revert i. induction l as [|[z|] l IH]; intros i Hu Hi Hy; [done| |].
  - apply uniq_cons_Some in Hu as [Hz Hu]. destruct i as [|i]; simpl in *.
    + injection Hi as ->. apply uniq_cons_Some. by rewrite Hy.
    + apply uniq_cons_Some. split; [|by eapply IH].
      rewrite (slot_get_set _ _ _ _ _ Hu Hi Hy). rewrite decide_False; [done|].
      intros Heq. rewrite slot_get_None in Hz. apply (Hz x); [|done].
      apply list_elem_of_lookup. eauto.
  - destruct i as [|i]; simpl in *; [done|]. by apply (IH i).
Qed.

Lemma uniq_insert l i x :
  uniq l → free_slot l = Some i → slot_get (key x) l = None →
  uniq (<[i:=Some x]> l).
Proof.
  revert i. induction l as [|[y|] l IH]; intros i Hu; simpl; [done| |].
  - intros (j & Hj & ->)%fmap_Some. simpl. rewrite slot_get_cons. intros Hx.
    apply uniq_cons_Some in Hu as [Hy Hu]. case_decide; [done|].
    apply uniq_cons_Some. split; [|by apply IH].
    rewrite (slot_get_insert _ _ _ _ Hj Hx). by rewrite decide_False.
  - intros [= <-]. simpl. rewrite slot_get_cons. intros Hx. by apply uniq_cons_Some.
Qed.

Lemma uniq_sublist_clear p l : uniq l → uniq (clear_where p l).
Proof.
  unfold uniq. rewrite occupied_clear. intros Hu.
  eapply sublist_NoDup; [exact Hu|]. apply fmap_sublist, sublist_filter.
Qed.

Lemma slot_get_clear p l k :
  uniq l →
  slot_get k (clear_where p l) =
    match slot_get k l with
    | Some x => if p x then None else Some x
    | None => None
    end.
Proof.
  intros Hu. destruct (slot_get k l) as [x|] eqn:Hx.
  - destruct (p x) eqn:Hp.
    + apply slot_get_None. intros y [Hy Hpy]%elem_of_clear <-.
      rewrite (uniq_elem _ _ Hu Hy) in Hx. congruence.
    + rewrite <-(slot_get_key _ _ _ Hx). apply uniq_elem; [by apply uniq_sublist_clear|].
      apply elem_of_clear. split; [by eapply slot_get_elem|done].
  - apply slot_get_None. intros y [Hy _]%elem_of_clear.
    rewrite slot_get_None in Hx. by apply Hx.
Qed.

(** Emptying one slot of a table without duplicates. *)
Lemma clear_key l i x :
  uniq l → l !! i = Some (Some x) → <[i:=None]> l = clear_where (has_key (key x)) l.
Proof.
  assert (∀ l', slot_get (key x) l' = None → clear_where (has_key (key x)) l' = l') as Hid.
  { induction l' as [|[z|] l' IH]; rewrite ?slot_get_cons; cbn; [done| |].
    - case_decide; [done|]. intros Hz. rewrite IH by done.
      assert (has_key (key x) z = false) as -> by (by apply has_key_false). done.
    - intros Hz. by rewrite IH. }
  revert i. induction l as [|[y|] l IH]; intros [|i] Hu Hi; simplify_eq/=.
  - apply uniq_cons_Some in Hu as [Hn _]. rewrite Hid by done.
    assert (has_key (key x) x = true) as -> by (by apply has_key_true). done.
  - apply uniq_cons_Some in Hu as [Hn Hu]. rewrite (IH i) by done.
    assert (has_key (key x) y = false) as ->; [|done]. apply has_key_false. intros Heq.
    rewrite slot_get_None in Hn. apply (Hn x); [|done]. apply list_elem_of_lookup. eauto.
  - by rewrite (IH i).
Qed.

Lemma slot_get_clear_one l i x k :
  uniq l → l !! i = Some (Some x) →
  slot_get k (<[i:=None]> l) = if decide (key x = k) then None else slot_get k l.
Proof.
  intros Hu Hi. rewrite (clear_key _ _ _ Hu Hi), slot_get_clear by done.
  assert (slot_get (key x) l = Some x) as Hx.
  { apply uniq_elem; [done|]. apply list_elem_of_lookup. eauto. }
  unfold has_key. case_decide as Heq.
  - subst k. rewrite Hx. by rewrite bool_decide_true.
  - destruct (slot_get k l) as [y|] eqn:Hy; [|done].
    apply slot_get_key in Hy. rewrite bool_decide_false; [done|congruence].
Qed.

Lemma uniq_clear_one l i x : uniq l → l !! i = Some (Some x) → uniq (<[i:=None]> l).
Proof.
  intros Hu Hi. rewrite (clear_key _ _ _ Hu Hi). by apply uniq_sublist_clear.
Qed.
End keyed.

Arguments slot_get {K T _} key k l : simpl never.
#[export] Hint Resolve uniq_replicate uniq_sublist_clear : core.
