(* ===== verification/Ring.v ===== *)
(** * Ring buffers

    The run queue, the ready queue, the scheduler event log and the message
    queues are arrays of optional entries addressed modulo their length.  A ring
    is read as the window of slots that starts at its head: [windowed buf h w]
    says that, read from [h], the array is [w] followed by empty slots only.  A
    window without holes ([fifo]) is a first-in first-out queue. *)

From stdpp Require Import prelude.
From S2P Require Import Prelude Slots.

Section ring.
  Context {T : Type}.
  Implicit Types (buf w : list (option T)) (h i k : nat) (x : T).

Lemma rotate_nat_add_mod h i n : 0 < n → rotate_nat_add h i n = (h + i) mod n.
Proof.
  intros. unfold rotate_nat_add.
  by rewrite <-Nat2Z.inj_add, <-Nat2Z.inj_mod, Nat2Z.id.
Qed.

Lemma lookup_rotate_mod buf h i :
  i < length buf → rotate h buf !! i = buf !! ((h + i) mod length buf).
Proof. intros. rewrite lookup_rotate_r by done. by rewrite rotate_nat_add_mod by lia. Qed.

Lemma rotate_insert_mod buf h i o :
  i < length buf →
  rotate h (<[(h + i) mod length buf:=o]> buf) = <[i:=o]> (rotate h buf).
Proof. intros. rewrite <-rotate_nat_add_mod by lia. by rewrite rotate_insert_l. Qed.

Lemma rotate_advance buf h k :
  k ≤ length buf →
  rotate ((h + k) mod length buf) buf = drop k (rotate h buf) ++ take k (rotate h buf).
Proof.
  intros Hk. set (n := length buf) in *.
  destruct (decide (n = 0)) as [Hn|Hn].
  { assert (buf = []) as -> by (by apply nil_length_inv).
    unfold rotate. rewrite ?drop_nil, ?take_nil. cbn. by rewrite ?drop_nil, ?take_nil. }
  apply list_eq_same_length with n.
  { by rewrite length_app, length_drop, length_take, length_rotate; fold n; lia. }
  { by rewrite length_rotate. }
  intros i a b Hi. rewrite lookup_rotate_mod by (fold n; lia). fold n.
  rewrite Nat.Div0.add_mod_idemp_l. destruct (decide (i < n - k)).
  - rewrite lookup_app_l by (rewrite length_drop, length_rotate; fold n; lia).
    rewrite lookup_drop, lookup_rotate_mod by (fold n; lia). fold n.
    rewrite Nat.add_assoc. congruence.
  - rewrite lookup_app_r by (rewrite length_drop, length_rotate; fold n; lia).
    rewrite length_drop, length_rotate. fold n.
    rewrite lookup_take by lia. rewrite decide_True by lia.
    rewrite lookup_rotate_mod by (fold n; lia). fold n.
    replace (h + k + i) with (h + (i - (n - k)) + 1 * n) by lia.
    rewrite Nat.Div0.mod_add. congruence.
Qed.

Lemma clear_where_app p buf w :
  clear_where p (buf ++ w) = clear_where p buf ++ clear_where p w.
Proof. induction buf as [|[x|] l IH]; cbn; by rewrite ?IH. Qed.

Lemma clear_where_replicate (p : T → bool) n :
  clear_where p (replicate n None) = replicate n None.
Proof. induction n; cbn; congruence. Qed.

Lemma clear_where_drop p k buf : clear_where p (drop k buf) = drop k (clear_where p buf).
Proof. revert k. induction buf as [|[x|] l IH]; intros [|k]; cbn; auto. Qed.

Lemma clear_where_take p k buf : clear_where p (take k buf) = take k (clear_where p buf).
Proof. revert k. induction buf as [|[x|] l IH]; intros [|k]; cbn; by rewrite ?IH. Qed.

Lemma clear_where_rotate p h buf : clear_where p (rotate h buf) = rotate h (clear_where p buf).
Proof.
  unfold rotate.
  by rewrite clear_where_app, clear_where_drop, clear_where_take, length_clear_where.
Qed.

Lemma occupied_rotate h buf : occupied (rotate h buf) ≡ₚ occupied buf.
Proof.
  unfold rotate. rewrite occupied_app, Permutation_app_comm, <-occupied_app.
  by rewrite take_drop.
Qed.

(** ** Windows *)
Definition windowed buf h w : Prop :=
  length w ≤ length buf ∧ rotate h buf = w ++ replicate (length buf - length w) None.

Lemma windowed_empty n h : windowed (replicate n None) h [].
Proof.
  split; [cbn; lia|]. rewrite rotate_replicate, length_replicate. cbn. by rewrite Nat.sub_0_r.
Qed.

Lemma windowed_occupied buf h w : windowed buf h w → occupied buf ≡ₚ occupied w.
Proof.
  intros [_ Hw]. rewrite <-(occupied_rotate h), Hw, occupied_app, occupied_replicate.
  by rewrite app_nil_r.
Qed.

Lemma windowed_lookup buf h w i :
  windowed buf h w → i < length w → buf !! ((h + i) mod length buf) = w !! i.
Proof.
  intros [Hl Hw] Hi. rewrite <-lookup_rotate_mod by lia.
  by rewrite Hw, lookup_app_l.
Qed.

Lemma windowed_next_empty buf h w :
  windowed buf h w → length w < length buf →
  buf !! ((h + length w) mod length buf) = Some None.
Proof.
  intros [Hl Hw] Hi. rewrite <-lookup_rotate_mod by lia.
  rewrite Hw, lookup_app_r, Nat.sub_diag by lia. apply lookup_replicate_2. lia.
Qed.

Lemma windowed_push buf h w o :
  windowed buf h w → length w < length buf →
  windowed (<[(h + length w) mod length buf:=o]> buf) h (w ++ [o]).
Proof.
  intros [Hl Hw] Hlt. split; rewrite length_insert, length_app; cbn; [lia|].
  rewrite rotate_insert_mod, Hw by done.
  rewrite insert_app_r_alt, Nat.sub_diag by lia.
  replace (length buf - length w) with (S (length buf - (length w + 1))) by lia.
  cbn. by rewrite <-app_assoc.
Qed.

Lemma windowed_set buf h w i o :
  windowed buf h w → i < length w →
  windowed (<[(h + i) mod length buf:=o]> buf) h (<[i:=o]> w).
Proof.
  intros [Hl Hw] Hi. split; rewrite !length_insert; [done|].
  rewrite rotate_insert_mod, Hw by lia. by rewrite insert_app_l by lia.
Qed.

Lemma windowed_skip buf h n w :
  windowed buf h (replicate n None ++ w) →
  windowed buf ((h + n) mod length buf) w.
Proof.
  intros [Hl Hw]. rewrite length_app, length_replicate in *. split; [lia|].
  rewrite rotate_advance, Hw by lia. rewrite <-app_assoc.
  rewrite drop_app_length', take_app_length' by (by rewrite length_replicate).
  rewrite <-app_assoc, <-replicate_add. do 2 f_equal. lia.
Qed.

Lemma windowed_pop buf h x w :
  windowed buf h (Some x :: w) →
  windowed (<[h mod length buf:=None]> buf) ((h + 1) mod length buf) w.
Proof.
  intros Hw. apply (windowed_set _ _ _ 0 None) in Hw as Hw'; [|cbn; lia].
  rewrite Nat.add_0_r in Hw'.
  rewrite <-(length_insert buf (h mod length buf) None) at 2.
  by apply (windowed_skip _ h 1).
Qed.

Lemma windowed_unpush buf h w o :
  windowed buf h (w ++ [o]) →
  windowed (<[(h + length w) mod length buf:=None]> buf) h w.
Proof.
  intros Hw. apply (windowed_set _ _ _ (length w) None) in Hw as [Hl Hw'].
  2:{ rewrite length_app; cbn; lia. }
  rewrite insert_app_r_alt, Nat.sub_diag in * by lia. cbn in *.
  rewrite length_insert, length_app in *; cbn in *.
  split; rewrite length_insert; [lia|]. rewrite Hw', <-app_assoc; cbn.
  by replace (length buf - length w) with (S (length buf - (length w + 1))) by lia.
Qed.

Lemma windowed_clear p buf h w :
  windowed buf h w → windowed (clear_where p buf) h (clear_where p w).
Proof.
  intros [Hl Hw]. split; rewrite !length_clear_where; [done|].
  rewrite <-clear_where_rotate, Hw, clear_where_app. f_equal.
  apply clear_where_replicate.
Qed.

(** The first occupied slot of a window and the empty prefix before it. *)
Lemma window_split w x xs :
  occupied w = x :: xs →
  ∃ n w', w = replicate n None ++ Some x :: w' ∧ occupied w' = xs.
Proof.
  induction w as [|[y|] w IH]; cbn; [done| |].
  - intros [= -> ?]. by exists 0, w.
  - intros (n & w' & -> & ?)%IH. by exists (S n), w'.
Qed.

Lemma window_split_unique n k x y w v :
  replicate n None ++ Some x :: w = replicate k None ++ Some y :: v →
  n = k ∧ x = y ∧ w = v.
Proof.
  revert k. induction n as [|n IH]; intros [|k]; cbn; intros H; try done.
  - by injection H as -> ->.
  - injection H as H. by destruct (IH k H) as (-> & -> & ->).
Qed.

Lemma window_all_empty w : occupied w = [] → w = replicate (length w) None.
Proof. induction w as [|[y|] w IH]; cbn; [done|done|]. intros. f_equal. auto. Qed.

(** ** Queues: windows without holes *)
Definition fifo buf h (xs : list T) : Prop := windowed buf h (Some <$> xs).

Lemma occupied_fmap_Some (xs : list T) : occupied (Some <$> xs) = xs.
Proof. induction xs; cbn; congruence. Qed.

Lemma fifo_length buf h xs : fifo buf h xs → length xs ≤ length buf.
Proof. intros [Hl _]. by rewrite length_fmap in Hl. Qed.

Lemma fifo_occupied buf h xs : fifo buf h xs → occupied buf ≡ₚ xs.
Proof. intros ->%windowed_occupied. by rewrite occupied_fmap_Some. Qed.

Lemma fifo_elem buf h xs x : fifo buf h xs → Some x ∈ buf ↔ x ∈ xs.
Proof. intros H%fifo_occupied. by rewrite <-elem_of_occupied, H. Qed.

Lemma fifo_empty n h : fifo (replicate n None) h [].
Proof. apply windowed_empty. Qed.

Lemma fifo_push buf h xs x :
  fifo buf h xs → length xs < length buf →
  fifo (<[(h + length xs) mod length buf:=Some x]> buf) h (xs ++ [x]).
Proof.
  unfold fifo. intros Hw Hl. rewrite fmap_app. cbn.
  rewrite <-(length_fmap Some xs). apply windowed_push; [done|].
  by rewrite length_fmap.
Qed.

Lemma fifo_head buf h x xs :
  fifo buf h (x :: xs) → h < length buf → buf !! h = Some (Some x).
Proof.
  intros Hw Hh. apply (windowed_lookup _ _ _ 0) in Hw; [|cbn; lia].
  by rewrite Nat.add_0_r, Nat.mod_small in Hw.
Qed.

Lemma fifo_pop buf h x xs :
  fifo buf h (x :: xs) → h < length buf →
  fifo (<[h:=None]> buf) ((h + 1) mod length buf) xs.
Proof. intros Hw Hh. apply windowed_pop in Hw. by rewrite Nat.mod_small in Hw. Qed.

(** A full ring that overwrites its oldest entry. *)
Lemma fifo_overwrite buf h x xs y :
  fifo buf h (x :: xs) → h < length buf → length (x :: xs) = length buf →
  fifo (<[h:=Some y]> buf) ((h + 1) mod length buf) (xs ++ [y]).
Proof.
  intros Hf Hh Hl. cbn in Hl. apply fifo_pop in Hf; [|done].
  apply (fifo_push _ _ _ y) in Hf; rewrite length_insert in *; [|lia].
  rewrite Nat.Div0.add_mod_idemp_l in Hf.
  replace ((h + 1 + length xs) mod length buf) with h in Hf.
  - by rewrite list_insert_insert_eq in Hf.
  - replace (h + 1 + length xs) with (h + 1 * length buf) by lia.
    rewrite Nat.Div0.mod_add. by rewrite Nat.mod_small.
Qed.

Lemma fifo_last buf h xs x :
  fifo buf h (xs ++ [x]) →
  buf !! ((h + length xs) mod length buf) = Some (Some x).
Proof.
  unfold fifo. rewrite fmap_app. cbn. intros Hw.
  apply (windowed_lookup _ _ _ (length xs)) in Hw.
  - rewrite Hw, lookup_app_r; rewrite length_fmap; [|lia]. by rewrite Nat.sub_diag.
  - rewrite length_app, length_fmap. cbn. lia.
Qed.

Lemma fifo_unpush buf h xs x :
  fifo buf h (xs ++ [x]) →
  fifo (<[(h + length xs) mod length buf:=None]> buf) h xs.
Proof.
  unfold fifo. rewrite fmap_app. cbn. intros Hw%windowed_unpush.
  by rewrite length_fmap in Hw.
Qed.
End ring.
