(* ===== verification/MtssTypes.v ===== *)
(** * MTSS data types

    Model of [crates/mirage-mtss/src/lib.rs]: identifiers, lifecycle states and
    their transition validators, task and thread descriptors, process records,
    events, accounting counters and the minimal [SchedulerCore].  A newtype
    around an integer is that integer; an enum is an inductive type in a module
    of its name. *)

From stdpp Require Import prelude strings.
From S2P Require Import Prelude Slots.

Abbreviation TaskId := Z (only parsing).
Abbreviation ThreadId := Z (only parsing).
Abbreviation ProcessId := Z (only parsing).
Abbreviation CpuId := Z (only parsing).
Abbreviation AddressSpaceId := Z (only parsing).
Abbreviation Priority := Z (only parsing).
Abbreviation Timestamp := Z (only parsing).
Abbreviation Timeslice := Z (only parsing).

(** ** Lifecycle states *)
Module TaskState.
Inductive t : Type := Created | Runnable | Running | Blocked | Exited.
#[global] Instance eq_dec : EqDecision t.
Proof. solve_decision. Defined.

Definition is_terminal (s : t) : bool :=
  match s with Exited => true | _ => false end.
Definition may_schedule (s : t) : bool :=
  match s with Runnable | Running => true | _ => false end.
End TaskState.

Module ThreadState.
Inductive t : Type := New | Ready | Running | Blocked | Sleeping | Zombie | Dead.
#[global] Instance eq_dec : EqDecision t.
Proof. solve_decision. Defined.

Definition is_terminal (s : t) : bool :=
  match s with Zombie | Dead => true | _ => false end.
Definition may_schedule (s : t) : bool :=
  match s with Ready | Running => true | _ => false end.
End ThreadState.

Module ProcessState.
Inductive t : Type := New | Ready | Running | Waiting | Zombie | Dead | Failed.
#[global] Instance eq_dec : EqDecision t.
Proof. solve_decision. Defined.

Definition is_terminal (s : t) : bool :=
  match s with Dead | Failed => true | _ => false end.
Definition may_schedule (s : t) : bool :=
  match s with Ready | Running => true | _ => false end.
End ProcessState.

Definition valid_task_transition (from to : TaskState.t) : bool :=
  match from, to with
  | TaskState.Created, (TaskState.Runnable | TaskState.Exited) => true
  | TaskState.Runnable, (TaskState.Running | TaskState.Blocked | TaskState.Exited) => true
  | TaskState.Running, (TaskState.Runnable | TaskState.Blocked | TaskState.Exited) => true
  | TaskState.Blocked, (TaskState.Runnable | TaskState.Exited) => true
  | state, next => bool_decide (state = next)
  end.

Definition valid_thread_transition (from to : ThreadState.t) : bool :=
  match from, to with
  | ThreadState.New, (ThreadState.Ready | ThreadState.Dead) => true
  | ThreadState.Ready,
    (ThreadState.Running | ThreadState.Blocked | ThreadState.Sleeping
     | ThreadState.Zombie | ThreadState.Dead) => true
  | ThreadState.Running,
    (ThreadState.Ready | ThreadState.Blocked | ThreadState.Sleeping
     | ThreadState.Zombie | ThreadState.Dead) => true
  | ThreadState.Blocked, (ThreadState.Ready | ThreadState.Zombie | ThreadState.Dead) => true
  | ThreadState.Sleeping, (ThreadState.Ready | ThreadState.Zombie | ThreadState.Dead) => true
  | ThreadState.Zombie, ThreadState.Dead => true
  | ThreadState.Dead, ThreadState.Dead => true
  | state, next => bool_decide (state = next)
  end.

Definition valid_process_transition (from to : ProcessState.t) : bool :=
  match from, to with
  | ProcessState.New, (ProcessState.Ready | ProcessState.Failed) => true
  | ProcessState.Ready,
    (ProcessState.Running | ProcessState.Waiting | ProcessState.Zombie
     | ProcessState.Failed) => true
  | ProcessState.Running,
    (ProcessState.Ready | ProcessState.Waiting | ProcessState.Zombie
     | ProcessState.Failed) => true
  | ProcessState.Waiting,
    (ProcessState.Ready | ProcessState.Zombie | ProcessState.Failed) => true
  | ProcessState.Zombie, ProcessState.Dead => true
  | state, next => bool_decide (state = next)
  end.

Module MtssError.
Inductive t : Type :=
| RunQueueFull
| AlreadyCurrent
| EmptyRunQueue
| InvalidTask
| InvalidThread
| TaskTableFull
| ThreadTableFull
| InvalidTaskTransition (from to : TaskState.t)
| InvalidThreadTransition (from to : ThreadState.t)
| InvalidProcessTransition (from to : ProcessState.t)
| ProcessRecordFull
| BackendUnavailable
| CapabilityDenied.
#[global] Instance eq_dec : EqDecision t.
Proof. solve_decision. Defined.
End MtssError.

(** ** Time slices *)
Module Timeslice.
Definition is_expired (ts : Z) : bool := bool_decide (ts = 0%Z).
Definition consume_tick (ts : Z) : Z := sat_sub ts 1.
End Timeslice.

(** ** Task descriptors *)
Module Task.
Record t : Type := mk {
  id : TaskId;
  parent : option TaskId;
  address_space : AddressSpaceId;
  state : TaskState.t;
  priority : Priority;
  thread_count : Z;     (* u16 *)
  cpu_time_ticks : Z    (* u128 *)
}.

Definition new (id : TaskId) (parent : option TaskId) (address_space : AddressSpaceId)
    (priority : Priority) : t :=
  mk id parent address_space TaskState.Created priority 0 0.

Definition set_state (st : TaskState.t) (x : t) : t :=
  mk x.(id) x.(parent) x.(address_space) st x.(priority) x.(thread_count) x.(cpu_time_ticks).

Definition transition (next : TaskState.t) : M t MtssError.t TaskState.t := λ x,
  if negb (valid_task_transition x.(state) next)
  then (Err (MtssError.InvalidTaskTransition x.(state) next), x)
  else let previous := x.(state) in (Ok previous, set_state next x).

Definition admit_ : M t MtssError.t TaskState.t := transition TaskState.Runnable.
Definition mark_running : M t MtssError.t TaskState.t := transition TaskState.Running.
Definition block : M t MtssError.t TaskState.t := transition TaskState.Blocked.
Definition sleep : M t MtssError.t TaskState.t := transition TaskState.Blocked.
Definition suspend : M t MtssError.t TaskState.t := transition TaskState.Blocked.
Definition suspect : M t MtssError.t TaskState.t := transition TaskState.Blocked.
Definition contain : M t MtssError.t TaskState.t := transition TaskState.Blocked.
Definition terminate : M t MtssError.t TaskState.t := transition TaskState.Exited.
Definition reap : M t MtssError.t TaskState.t := transition TaskState.Exited.
Definition wake : M t MtssError.t TaskState.t := transition TaskState.Runnable.

Definition increment_thread_count (x : t) : t :=
  mk x.(id) x.(parent) x.(address_space) x.(state) x.(priority)
     (sat_add 16 x.(thread_count) 1) x.(cpu_time_ticks).
Definition decrement_thread_count (x : t) : t :=
  mk x.(id) x.(parent) x.(address_space) x.(state) x.(priority)
     (sat_sub x.(thread_count) 1) x.(cpu_time_ticks).
Definition accumulate_cpu_time (ticks : Z) (x : t) : t :=
  mk x.(id) x.(parent) x.(address_space) x.(state) x.(priority)
     x.(thread_count) (sat_add 128 x.(cpu_time_ticks) ticks).
End Task.

(** ** Thread descriptors *)
Module Thread.
Record t : Type := mk {
  id : ThreadId;
  task : TaskId;
  state : ThreadState.t;
  priority : Priority;
  timeslice : Timeslice;
  cpu_time_ticks : Z    (* u128 *)
}.

Definition new (id : ThreadId) (task : TaskId) (priority : Priority)
    (timeslice : Timeslice) : t :=
  mk id task ThreadState.New priority timeslice 0.

Definition set_state (st : ThreadState.t) (x : t) : t :=
  mk x.(id) x.(task) st x.(priority) x.(timeslice) x.(cpu_time_ticks).

Definition transition (next : ThreadState.t) : M t MtssError.t ThreadState.t := λ x,
  if negb (valid_thread_transition x.(state) next)
  then (Err (MtssError.InvalidThreadTransition x.(state) next), x)
  else let previous := x.(state) in (Ok previous, set_state next x).

Definition admit_ : M t MtssError.t ThreadState.t := transition ThreadState.Ready.
Definition mark_running : M t MtssError.t ThreadState.t := transition ThreadState.Running.
Definition mark_ready : M t MtssError.t ThreadState.t := transition ThreadState.Ready.
Definition block : M t MtssError.t ThreadState.t := transition ThreadState.Blocked.
Definition sleep : M t MtssError.t ThreadState.t := transition ThreadState.Sleeping.
Definition wake : M t MtssError.t ThreadState.t := transition ThreadState.Ready.
Definition terminate : M t MtssError.t ThreadState.t := transition ThreadState.Dead.

Definition reset_timeslice (timeslice : Timeslice) (x : t) : t :=
  mk x.(id) x.(task) x.(state) x.(priority) timeslice x.(cpu_time_ticks).
Definition accumulate_cpu_time (ticks : Z) (x : t) : t :=
  mk x.(id) x.(task) x.(state) x.(priority) x.(timeslice)
     (sat_add 128 x.(cpu_time_ticks) ticks).
Definition consume_timeslice_tick : M t MtssError.t bool := λ x,
  let x' := reset_timeslice (Timeslice.consume_tick x.(timeslice)) x in
  (Ok (Timeslice.is_expired x'.(timeslice)), x').
End Thread.

(** ** Process records

    [children] and [threads] are the arrays of [MAX_CHILDREN] and [MAX_THREADS]
    slots; their lengths are the const generics. *)
Module ProcessRecord.
Record t : Type := mk {
  pid : ProcessId;
  parent_pid : option ProcessId;
  children : list (option ProcessId);
  child_count : Z;      (* usize *)
  threads : list (option ThreadId);
  thread_count : Z;     (* usize *)
  state : ProcessState.t;
  exit_code : option Z;
  address_space : option AddressSpaceId;
  credentials : option Z;
  grants : option Z;
  name : string;
  path : string
}.

Definition new (MAX_CHILDREN MAX_THREADS : nat) (pid : ProcessId)
    (parent_pid : option ProcessId) (address_space : option AddressSpaceId)
    (name path : string) : t :=
  mk pid parent_pid (replicate MAX_CHILDREN None) 0 (replicate MAX_THREADS None) 0
     ProcessState.New None address_space None None name path.

Definition transition (next : ProcessState.t) : M t MtssError.t ProcessState.t := λ r,
  if negb (valid_process_transition r.(state) next)
  then (Err (MtssError.InvalidProcessTransition r.(state) next), r)
  else (Ok r.(state),
        mk r.(pid) r.(parent_pid) r.(children) r.(child_count) r.(threads)
           r.(thread_count) next r.(exit_code) r.(address_space) r.(credentials)
           r.(grants) r.(name) r.(path)).

(** The scan shared by [add_child] and [add_thread]: it stops at the first slot
    that already holds [v] ([None]: nothing to store) or is empty
    ([Some idx]: store there); [Err] when neither exists. *)
Fixpoint claim_slot (v : Z) (l : list (option Z)) : result MtssError.t (option nat) :=
  match l with
  | [] => Err MtssError.ProcessRecordFull
  | Some w :: l' =>
      if decide (w = v) then Ok None
      else match claim_slot v l' with
           | Ok (Some i) => Ok (Some (S i))
           | r => r
           end
  | None :: _ => Ok (Some 0)
  end.

Definition add_child (child : ProcessId) : M t MtssError.t unit := λ r,
  match claim_slot child r.(children) with
  | Ok None => (Ok tt, r)
  | Ok (Some idx) =>
      (Ok tt,
       mk r.(pid) r.(parent_pid) (<[idx := Some child]> r.(children))
          (sat_add 64 r.(child_count) 1) r.(threads) r.(thread_count) r.(state)
          r.(exit_code) r.(address_space) r.(credentials) r.(grants) r.(name) r.(path))
  | Err e => (Err e, r)
  end.

Definition add_thread (thread : ThreadId) : M t MtssError.t unit := λ r,
  match claim_slot thread r.(threads) with
  | Ok None => (Ok tt, r)
  | Ok (Some idx) =>
      (Ok tt,
       mk r.(pid) r.(parent_pid) r.(children) r.(child_count)
          (<[idx := Some thread]> r.(threads)) (sat_add 64 r.(thread_count) 1) r.(state)
          r.(exit_code) r.(address_space) r.(credentials) r.(grants) r.(name) r.(path))
  | Err e => (Err e, r)
  end.

(** *** Membership as a bounded set

    [children] and [threads] hold distinct identifiers in the order they were
    added, packed at the front of their arrays. *)
Definition packed (n : nat) (xs : list Z) : list (option Z) :=
  (Some <$> xs) ++ replicate (n - length xs) None.

Definition spec_add (n : nat) (v : Z) (xs : list Z) : result MtssError.t unit * list Z :=
  if decide (v ∈ xs) then (Ok tt, xs)
  else if decide (length xs < n) then (Ok tt, xs ++ [v])
  else (Err MtssError.ProcessRecordFull, xs).

Lemma claim_packed n v xs :
  claim_slot v (packed n xs) =
    if decide (v ∈ xs) then Ok None
    else if decide (length xs < n) then Ok (Some (length xs))
    else Err MtssError.ProcessRecordFull.
Proof.
  unfold packed. revert n. induction xs as [|x xs IH]; intros n.
  - rewrite (decide_False (P := v ∈ [])) by apply not_elem_of_nil. cbn.
    destruct n; cbn; [|done]. done.
  - cbn. destruct (decide (x = v)) as [->|Hne].
    { by rewrite decide_True by set_solver. }
    assert (replicate (n - S (length xs)) (@None Z) = replicate (pred n - length xs) None) as ->
      by (f_equal; lia).
    rewrite IH. destruct (decide (v ∈ xs)).
    { by rewrite decide_True by set_solver. }
    rewrite (decide_False (P := v ∈ x :: xs)) by set_solver.
    repeat case_decide; first [done | lia].
Qed.

Lemma packed_push n v xs :
  length xs < n → <[length xs := Some v]> (packed n xs) = packed n (xs ++ [v]).
Proof.
  intros Hl. unfold packed. rewrite fmap_app, length_app; cbn.
  rewrite insert_app_r_alt by (rewrite length_fmap; lia).
  rewrite length_fmap, Nat.sub_diag, <-app_assoc. f_equal.
  replace (n - length xs) with (S (n - (length xs + 1))) by lia. done.
Qed.

(** [r] lists exactly the children [cs] and the threads [ts]. *)
Record lists (mc mt : nat) (r : t) (cs ts : list Z) : Prop := {
  lists_children : r.(children) = packed mc cs;
  lists_child_count : r.(child_count) = Z.of_nat (length cs);
  lists_children_fit : length cs ≤ mc;
  lists_threads : r.(threads) = packed mt ts;
  lists_thread_count : r.(thread_count) = Z.of_nat (length ts);
  lists_threads_fit : length ts ≤ mt
}.

Inductive member : Type := Child (c : ProcessId) | Member_thread (th : ThreadId).

Definition add (m : member) : M t MtssError.t unit :=
  match m with Child c => add_child c | Member_thread th => add_thread th end.

Fixpoint add_all (ms : list member) (r : t) : list (result MtssError.t unit) * t :=
  match ms with
  | [] => ([], r)
  | m :: ms' =>
      let '(e, r1) := add m r in
      let '(es, r2) := add_all ms' r1 in (e :: es, r2)
  end.

Fixpoint spec_all (mc mt : nat) (ms : list member) (cs ts : list Z)
    : list (result MtssError.t unit) * (list Z * list Z) :=
  match ms with
  | [] => ([], (cs, ts))
  | Child c :: ms' =>
      let '(e, cs') := spec_add mc c cs in
      let '(es, p) := spec_all mc mt ms' cs' ts in (e :: es, p)
  | Member_thread th :: ms' =>
      let '(e, ts') := spec_add mt th ts in
      let '(es, p) := spec_all mc mt ms' cs ts' in (e :: es, p)
  end.

Lemma count_push mx (xs : list Z) v :
  (Z.of_nat mx <= umax 64)%Z → length xs < mx →
  sat_add 64 (Z.of_nat (length xs)) 1 = Z.of_nat (length (xs ++ [v])).
Proof. intros ??. rewrite length_app, sat_add_small; cbn; lia. Qed.

Lemma add_child_lists mc mt r cs ts c :
  (Z.of_nat mc <= umax 64)%Z → lists mc mt r cs ts →
  (add_child c r).1 = (spec_add mc c cs).1 ∧
  lists mc mt (add_child c r).2 (spec_add mc c cs).2 ts.
Proof.
  intros Hmax [Hc Hn Hf Ht Hm Hg]. unfold add_child, spec_add.
  rewrite Hc, claim_packed. repeat case_decide; cbn; (split; [done|]); split; cbn; try done.
  - by apply packed_push.
  - rewrite Hn. by eapply count_push.
  - rewrite length_app; cbn; lia.
Qed.

Lemma add_thread_lists mc mt r cs ts th :
  (Z.of_nat mt <= umax 64)%Z → lists mc mt r cs ts →
  (add_thread th r).1 = (spec_add mt th ts).1 ∧
  lists mc mt (add_thread th r).2 cs (spec_add mt th ts).2.
Proof.
  intros Hmax [Hc Hn Hf Ht Hm Hg]. unfold add_thread, spec_add.
  rewrite Ht, claim_packed. repeat case_decide; cbn; (split; [done|]); split; cbn; try done.
  - by apply packed_push.
  - rewrite Hm. by eapply count_push.
  - rewrite length_app; cbn; lia.
Qed.

(** A process record keeps its children and its threads as two bounded sets
    in order of arrival.  For any sequence of [add_child] and [add_thread] on a
    fresh record, adding a member twice is a no-op, a new member is appended
    while its array has room, [ProcessRecordFull] is returned (and nothing
    changes) exactly when it has not, and both counts equal the set sizes. *)
Theorem process_membership_refines (mc mt : nat) pid parent asp name path (ms : list member) :
  (Z.of_nat mc <= umax 64)%Z → (Z.of_nat mt <= umax 64)%Z →
  let '(es, r) := add_all ms (new mc mt pid parent asp name path) in
  let '(es', (cs, ts)) := spec_all mc mt ms [] [] in
  es = es' ∧ lists mc mt r cs ts.
Proof.
  intros Hmc Hmt. set (r0 := new mc mt pid parent asp name path).
  assert (lists mc mt r0 [] []) as Hl.
  { split; cbn; unfold packed; rewrite ?Nat.sub_0_r; first [done | lia]. }
  revert Hl. generalize (@nil Z) at 1 3. generalize (@nil Z). generalize r0.
  induction ms as [|m ms IH]; intros r ts cs Hl; cbn; [done|].
  destruct m as [c|th]; cbn.
  - destruct (add_child_lists mc mt r cs ts c Hmc Hl) as [He Hl1].
    destruct (add_child c r) as [e r1], (spec_add mc c cs) as [e' cs1]; cbn in *. subst e'.
    specialize (IH r1 ts cs1 Hl1). destruct (add_all ms r1), (spec_all mc mt ms cs1 ts) as [? [??]].
    destruct IH as [-> ?]. done.
  - destruct (add_thread_lists mc mt r cs ts th Hmt Hl) as [He Hl1].
    destruct (add_thread th r) as [e r1], (spec_add mt th ts) as [e' ts1]; cbn in *. subst e'.
    specialize (IH r1 ts1 cs Hl1). destruct (add_all ms r1), (spec_all mc mt ms cs ts1) as [? [??]].
    destruct IH as [-> ?]. done.
Qed.

Lemma process_membership_refines_witness :
  (add_all [Child 5; Child 6; Child 5; Child 7; Member_thread 1]
     (new 2 1 9 None None "init" "/sbin/init")).1 =
  [Ok tt; Ok tt; Ok tt; Err MtssError.ProcessRecordFull; Ok tt].
Proof.
  pose proof (process_membership_refines 2 1 9 None None "init" "/sbin/init"
    [Child 5; Child 6; Child 5; Child 7; Member_thread 1]) as H.
  destruct (add_all _ _) as [es r]. destruct H as [-> _]; reflexivity || done.
Defined.
End ProcessRecord.

(** ** Events *)
Module MtssEventKind.
Inductive t : Type :=
| TaskCreated | ThreadCreated | ThreadRunnable | ThreadRunning | ThreadBlocked
| ThreadSleeping | TaskSuspect | TaskContained | TaskTerminated | TaskReaped
| ThreadExited | TimesliceExpired.
#[global] Instance eq_dec : EqDecision t.
Proof. solve_decision. Defined.
End MtssEventKind.

Module MtssEvent.
Record t : Type := mk {
  kind : MtssEventKind.t;
  task_of : option TaskId;
  thread_of : option ThreadId;
  cpu : option CpuId;
  at_ : Timestamp
}.
#[global] Instance eq_dec : EqDecision t.
Proof. solve_decision. Defined.

Definition task (kind : MtssEventKind.t) (task : TaskId) (at_ : Timestamp) : t :=
  mk kind (Some task) None None at_.
Definition thread (kind : MtssEventKind.t) (task : TaskId) (thread : ThreadId)
    (cpu : option CpuId) (at_ : Timestamp) : t :=
  mk kind (Some task) (Some thread) cpu at_.
End MtssEvent.

Module LifecycleReason.
Inductive t : Type :=
| Created | Admitted_ | Scheduled | Yielded | Preempted | Blocked | Sleeping | Woken
| Suspended | Suspected | Contained | Exited | Reaped | Faulted | Revoked.
End LifecycleReason.

Module LifecycleEvent.
Record t : Type := mk {
  task_of : option TaskId;
  thread_of : option ThreadId;
  cpu : option CpuId;
  previous_task : option TaskState.t;
  next_task : option TaskState.t;
  previous_thread : option ThreadState.t;
  next_thread : option ThreadState.t;
  reason : LifecycleReason.t;
  at_ : Timestamp
}.
Definition thread (thread : ThreadId) (cpu : option CpuId)
    (previous : option ThreadState.t) (next : ThreadState.t)
    (reason : LifecycleReason.t) (at_ : Timestamp) : t :=
  mk None (Some thread) cpu None None previous (Some next) reason at_.
Definition task (task : TaskId) (previous : option TaskState.t) (next : TaskState.t)
    (reason : LifecycleReason.t) (at_ : Timestamp) : t :=
  mk (Some task) None None previous (Some next) None None reason at_.
End LifecycleEvent.

(** ** Accounting counters (u64, incremented with [+= 1]) *)
Module MtssStats.
Record t : Type := mk {
  admitted_tasks : Z; completed_tasks : Z; reaped_tasks : Z; admitted_threads : Z;
  completed_threads : Z; context_switches : Z; preemptions : Z; blocked_tasks : Z;
  blocked_threads : Z; sleeps : Z; wakeups : Z; suspensions : Z; containments : Z
}.

Definition new : t := mk 0 0 0 0 0 0 0 0 0 0 0 0 0.

Definition incr (n : Z) : Z := wrap_add 64 n 1.

Definition with_task_admission '(mk a b c d e f g h i j k l m) : t :=
  mk (incr a) b c d e f g h i j k l m.
Definition with_task_completion '(mk a b c d e f g h i j k l m) : t :=
  mk a (incr b) c d e f g h i j k l m.
Definition with_reap '(mk a b c d e f g h i j k l m) : t :=
  mk a b (incr c) d e f g h i j k l m.
Definition with_admission '(mk a b c d e f g h i j k l m) : t :=
  mk a b c (incr d) e f g h i j k l m.
Definition with_completion '(mk a b c d e f g h i j k l m) : t :=
  mk a b c d (incr e) f g h i j k l m.
Definition with_context_switch '(mk a b c d e f g h i j k l m) : t :=
  mk a b c d e (incr f) g h i j k l m.
Definition with_preemption '(mk a b c d e f g h i j k l m) : t :=
  mk a b c d e f (incr g) h i j k l m.
Definition with_task_block '(mk a b c d e f g h i j k l m) : t :=
  mk a b c d e f g (incr h) i j k l m.
Definition with_block '(mk a b c d e f g h i j k l m) : t :=
  mk a b c d e f g h (incr i) j k l m.
Definition with_sleep '(mk a b c d e f g h i j k l m) : t :=
  mk a b c d e f g h i (incr j) k l m.
Definition with_wakeup '(mk a b c d e f g h i j k l m) : t :=
  mk a b c d e f g h i j (incr k) l m.
Definition with_suspension '(mk a b c d e f g h i j k l m) : t :=
  mk a b c d e f g h i j k (incr l) m.
Definition with_containment '(mk a b c d e f g h i j k l m) : t :=
  mk a b c d e f g h i j k l (incr m).
End MtssStats.

(** ** Scheduling decisions and the minimal scheduler core *)
Module ScheduleDecision.
Record t : Type := new {
  cpu : CpuId;
  previous : option ThreadId;
  next : ThreadId;
  at_ : Timestamp
}.
End ScheduleDecision.

Module SchedulerCore.
Record t : Type := mk {
  cpu : CpuId;
  current : option ThreadId;
  stats : MtssStats.t
}.

Definition new (cpu : CpuId) : t := mk cpu None MtssStats.new.

Definition admit_ (thread : ThreadId) (at_ : Timestamp) (s : t) : LifecycleEvent.t * t :=
  (LifecycleEvent.thread thread (Some s.(cpu)) (Some ThreadState.New) ThreadState.Ready
     LifecycleReason.Admitted_ at_,
   mk s.(cpu) s.(current) (MtssStats.with_admission s.(stats))).

Definition select (next : ThreadId) (at_ : Timestamp) : M t MtssError.t ScheduleDecision.t :=
  λ s,
  if decide (Some next = s.(current)) then (Err MtssError.AlreadyCurrent, s)
  else
    (Ok (ScheduleDecision.new s.(cpu) s.(current) next at_),
     mk s.(cpu) (Some next) (MtssStats.with_context_switch s.(stats))).

Definition clear_current (reason : LifecycleReason.t) (at_ : Timestamp) (s : t)
    : option LifecycleEvent.t * t :=
  match s.(current) with
  | None => (None, s)
  | Some thread =>
      (Some (LifecycleEvent.thread thread (Some s.(cpu)) (Some ThreadState.Running)
               ThreadState.Dead reason at_),
       mk s.(cpu) None (MtssStats.with_completion s.(stats)))
  end.
End SchedulerCore.
