(* ===== verification/RunQueue.v ===== *)
(** * The MTSS run queue

    Model of [crates/mirage-mtss/src/run_queue.rs]: schedule records and the
    fixed-capacity queue of runnable threads.  The array [queue] is a list whose
    length is the const generic [MAX].

    The queue is read as a window of slots from [head] to [tail] (Ring.v).
    [remove_matching] leaves holes inside the window, so the window can be longer
    than the number of queued records.  As long as it is shorter than the array
    the queue refines an abstract first-in first-out list; once it spans the
    whole array, [enqueue] reuses the slot at [head]. *)

From stdpp Require Import prelude.
From S2P Require Import Prelude Slots Ring MtssTypes.

(** ** Schedule records *)
Module Sched.
Record t (Thread Process Priority : Type) : Type := mk {
  thread : Thread;
  process : Process;
  priority : Priority;
  remaining_slice : Z;  (* u8 *)
  slice_budget : Z      (* u8 *)
}.
Arguments mk {Thread Process Priority} _ _ _ _ _.
Arguments thread {Thread Process Priority} _.
Arguments process {Thread Process Priority} _.
Arguments priority {Thread Process Priority} _.
Arguments remaining_slice {Thread Process Priority} _.
Arguments slice_budget {Thread Process Priority} _.

Section ops.
  Context {Thread Process Priority : Type}.
  Implicit Types r : t Thread Process Priority.

Definition new (thread : Thread) (process : Process) (priority : Priority)
    (slice_budget : Z) : t Thread Process Priority :=
  mk thread process priority slice_budget slice_budget.

Definition consume_time_slice r : bool * t Thread Process Priority :=
  let rem := if decide (r.(remaining_slice) > 0)%Z
             then (r.(remaining_slice) - 1)%Z else r.(remaining_slice) in
  (bool_decide (rem = 0%Z), mk r.(thread) r.(process) r.(priority) rem r.(slice_budget)).

Definition reset_time_slice r : t Thread Process Priority :=
  mk r.(thread) r.(process) r.(priority) r.(slice_budget) r.(slice_budget).
End ops.
End Sched.

(** ** The queue *)
Module RunQueue.
Record t (Record_ : Type) : Type := mk {
  queue : list (option Record_);
  head : nat;
  tail : nat;
  len : nat
}.
Arguments mk {Record_} _ _ _ _.
Arguments queue {Record_} _.
Arguments head {Record_} _.
Arguments tail {Record_} _.
Arguments len {Record_} _.

Section ops.
  Context {R : Type}.
  Implicit Types (q : t R) (record : R).

(** the const generic [MAX] *)
Definition max q : nat := length q.(queue).

Definition new (MAX : nat) : t R := mk (replicate MAX None) 0 0 0.

Definition reset q : t R := mk (replicate (max q) None) 0 0 0.

Definition enqueue record : M (t R) MtssError.t unit := λ q,
  if decide (q.(len) = max q) then (Err MtssError.RunQueueFull, q)
  else (Ok tt,
        mk (<[q.(tail) := Some record]> q.(queue)) q.(head)
           ((q.(tail) + 1) mod max q) (q.(len) + 1)).

Definition requeue record : M (t R) MtssError.t unit := enqueue record.

(** the [while steps < MAX] scan of [next]: the first occupied slot at or after
    [steps] positions past the head *)
Fixpoint scan q (fuel steps : nat) : option (nat * R) :=
  match fuel with
  | 0 => None
  | S fuel' =>
      let idx := (q.(head) + steps) mod max q in
      match q.(queue) !! idx with
      | Some (Some entry) => Some (idx, entry)
      | _ => scan q fuel' (steps + 1)
      end
  end.

Definition next q : option R * t R :=
  if decide (q.(len) = 0) then (None, q)
  else
    match scan q (max q) 0 with
    | Some (idx, entry) =>
        (Some entry,
         mk (<[idx := None]> q.(queue)) ((idx + 1) mod max q) q.(tail) (q.(len) - 1))
    | None => (None, mk q.(queue) 0 0 0)
    end.

Definition is_empty q : bool := bool_decide (q.(len) = 0).

(** the loop of [remove_matching] from slot [idx] on: the array, [len] and
    [removed] after it *)
Fixpoint remove_loop (matches : R → bool) (l : list (option R)) (n removed : nat)
    : list (option R) * nat * nat :=
  match l with
  | [] => ([], n, removed)
  | Some entry :: l' =>
      if matches entry
      then
        let '(l'', n', removed') :=
          remove_loop matches l' (if decide (0 < n) then n - 1 else n) (removed + 1) in
        (None :: l'', n', removed')
      else
        let '(l'', n', removed') := remove_loop matches l' n removed in
        (Some entry :: l'', n', removed')
  | None :: l' =>
      let '(l'', n', removed') := remove_loop matches l' n removed in
      (None :: l'', n', removed')
  end.

Definition remove_matching (matches : R → bool) q : nat * t R :=
  let '(l, n, removed) := remove_loop matches q.(queue) q.(len) 0 in
  (removed, mk l q.(head) q.(tail) n).
End ops.

Section records.
  Context {Thread Process Priority : Type} `{!EqDecision Thread, !EqDecision Process}.
  Implicit Types q : t (Sched.t Thread Process Priority).

Definition contains_process (process : Process) q : bool :=
  slot_any (λ entry, bool_decide (entry.(Sched.process) = process)) q.(queue).

Definition remove_thread (thread : Thread) q : nat * t (Sched.t Thread Process Priority) :=
  remove_matching (λ entry, bool_decide (entry.(Sched.thread) = thread)) q.

Definition remove_process (process : Process) q : nat * t (Sched.t Thread Process Priority) :=
  remove_matching (λ entry, bool_decide (entry.(Sched.process) = process)) q.
End records.

(** ** Invariant and refinement *)
Section theory.
  Context {R : Type}.
  Implicit Types (q : t R) (xs : list R).

(** Index safety and length accounting, for every use of the queue. *)
Record wf q : Prop := {
  wf_head : q.(head) < max q ∨ max q = 0;
  wf_tail : q.(tail) < max q ∨ max q = 0;
  wf_occupied : length (occupied q.(queue)) ≤ q.(len);
  wf_len : q.(len) ≤ max q
}.

(** [q] holds the records [xs], oldest first, in a window of [w] slots. *)
Record holds q (w : list (option R)) xs : Prop := {
  h_window : windowed q.(queue) q.(head) w;
  h_tail : q.(tail) = (q.(head) + length w) mod max q;
  h_records : occupied w = xs;
  h_len : q.(len) = length xs;
  h_head : q.(head) < max q ∨ max q = 0
}.

Lemma remove_loop_eq matches (l : list (option R)) n removed :
  let k := length (filter (λ x, matches x = true) (occupied l)) in
  remove_loop matches l n removed = (clear_where matches l, n - k, removed + k).
Proof.
  cbv zeta. revert n removed.
  induction l as [|[x|] l IH]; intros n removed; cbn [remove_loop occupied clear_where].
  - cbn. f_equal; [f_equal|]; lia.
  - rewrite filter_cons. destruct (matches x) eqn:Hx; rewrite IH.
    + rewrite (decide_True (P := true = true)) by done. cbn [length].
      case_decide; (f_equal; [f_equal|]; lia).
    + by rewrite (decide_False (P := false = true)) by done.
  - by rewrite IH.
Qed.

Lemma remove_matching_eq matches q :
  let k := length (filter (λ x, matches x = true) (occupied q.(queue))) in
  remove_matching matches q =
    (k, mk (clear_where matches q.(queue)) q.(head) q.(tail) (q.(len) - k)).
Proof. cbn. unfold remove_matching. by rewrite remove_loop_eq. Qed.

Lemma length_filter_split (matches : R → bool) xs :
  length (filter (λ x, matches x = true) xs) +
  length (filter (λ x, matches x = false) xs) = length xs.
Proof.
  induction xs as [|x xs IH]; [done|]. rewrite !filter_cons.
  destruct (matches x); repeat case_decide; cbn; try done; lia.
Qed.

(** The scan of [next], read on the array rotated to its head. *)
Lemma scan_spec q fuel steps :
  steps + fuel = max q →
  match scan q fuel steps with
  | Some (idx, e) => ∃ k w', drop steps (rotate q.(head) q.(queue)) =
                               replicate k None ++ Some e :: w' ∧
                             idx = (q.(head) + (steps + k)) mod max q
  | None => occupied (drop steps (rotate q.(head) q.(queue))) = []
  end.
Proof.
  revert steps. induction fuel as [|fuel IH]; intros steps Hs; cbn.
  { rewrite drop_ge; [done|]. rewrite length_rotate. fold (max q). lia. }
  assert (Hlt : steps < length q.(queue)) by (fold (max q); lia).
  unfold max at 1. rewrite <-(lookup_rotate_mod _ _ _ Hlt).
  destruct (rotate q.(head) q.(queue) !! steps) as [o|] eqn:Ho.
  2:{ apply lookup_ge_None in Ho. rewrite length_rotate in Ho. fold (max q) in Ho. lia. }
  apply drop_S in Ho as Hd. rewrite Hd. specialize (IH (steps + 1) ltac:(lia)).
  rewrite Nat.add_1_r in IH. destruct o as [e|].
  - exists 0, (drop (S steps) (rotate q.(head) q.(queue))). by rewrite Nat.add_0_r.
  - rewrite Nat.add_1_r. destruct (scan q fuel (S steps)) as [[idx e]|]; [|done].
    destruct IH as (k & w' & -> & ->). exists (S k), w'. split; [done|]. f_equal. lia.
Qed.

Lemma scan_all q :
  match scan q (max q) 0 with
  | Some (idx, e) => q.(queue) !! idx = Some (Some e)
  | None => occupied q.(queue) = []
  end.
Proof.
  pose proof (scan_spec q (max q) 0 eq_refl) as H.
  destruct (scan q (max q) 0) as [[idx e]|]; rewrite drop_0 in H.
  - destruct H as (k & w' & Hr & ->). unfold max. rewrite <-lookup_rotate_mod.
    + rewrite Hr, lookup_app_r; rewrite length_replicate; [|lia]. by rewrite Nat.sub_diag.
    + rewrite <-(length_rotate q.(queue) q.(head)), Hr, length_app, length_replicate.
      cbn. lia.
  - apply Permutation_nil. by rewrite <-H, occupied_rotate.
Qed.

Lemma next_None q : (next q).1 = None → wf q → occupied q.(queue) = [].
Proof.
  unfold next. intros Hn Hwf. case_decide as Hl.
  - apply nil_length_inv. pose proof (wf_occupied q Hwf). lia.
  - pose proof (scan_all q) as Hs. destruct (scan q (max q) 0) as [[idx e]|]; done.
Qed.

(** Whatever [next] returns was queued, and nothing else is added. *)
Lemma next_elem q e :
  (next q).1 = Some e → Some e ∈ q.(queue).
Proof.
  unfold next. case_decide; [done|]. pose proof (scan_all q) as Hs.
  destruct (scan q (max q) 0) as [[idx e']|]; [|done].
  intros [= ->]. apply list_elem_of_lookup. eauto.
Qed.

Lemma next_rest q x : Some x ∈ (next q).2.(queue) → Some x ∈ q.(queue).
Proof.
  unfold next. case_decide; [done|].
  destruct (scan q (max q) 0) as [[idx e']|]; [|done]. cbn.
  by intros [?|?]%elem_of_insert_slot.
Qed.

Lemma enqueue_elem q r x :
  Some x ∈ (enqueue r q).2.(queue) → x = r ∨ Some x ∈ q.(queue).
Proof.
  unfold enqueue. case_decide; [by right|]. cbn.
  intros [[= ->]|?]%elem_of_insert_slot; auto.
Qed.

Lemma remove_matching_elem matches q x :
  Some x ∈ (remove_matching matches q).2.(queue) ↔ Some x ∈ q.(queue) ∧ matches x = false.
Proof. rewrite remove_matching_eq. apply elem_of_clear. Qed.

Lemma length_occupied_insert_le (l : list (option R)) i x :
  length (occupied (<[i:=Some x]> l)) ≤ S (length (occupied l)).
Proof.
  revert i. induction l as [|[y|] l IH]; intros [|i]; simpl; try lia.
  - specialize (IH i). lia.
  - specialize (IH i). lia.
Qed.

Lemma length_occupied_remove (l : list (option R)) i x :
  l !! i = Some (Some x) → S (length (occupied (<[i:=None]> l))) = length (occupied l).
Proof.
  revert i. induction l as [|[y|] l IH]; intros [|i]; simpl; try done.
  - intros H. by rewrite (IH _ H).
  - intros H. by rewrite (IH _ H).
Qed.

Lemma mod_lt_or a n : a mod n < n ∨ n = 0.
Proof. destruct n; [by right|left]. apply Nat.mod_upper_bound. lia. Qed.

Lemma new_wf MAX : wf (new MAX : t R).
Proof.
  split; unfold max; cbn; rewrite ?length_replicate, ?occupied_replicate; cbn; lia.
Qed.

Lemma reset_wf q : wf (reset q).
Proof. apply (new_wf (max q)). Qed.

Lemma enqueue_wf r q : wf q → wf (enqueue r q).2.
Proof.
  intros Hwf. unfold enqueue. case_decide as Hf; [done|]. destruct Hwf as [Hh Ht Ho Hl].
  split; unfold max in *; cbn; rewrite ?length_insert; [done|apply mod_lt_or| |lia].
  pose proof (length_occupied_insert_le q.(queue) q.(tail) r). lia.
Qed.

Lemma next_wf q : wf q → wf (next q).2.
Proof.
  intros Hwf. unfold next. case_decide as Hf; [done|]. destruct Hwf as [Hh Ht Ho Hl].
  pose proof (scan_all q) as Hs. destruct (scan q (max q) 0) as [[idx e]|].
  - pose proof (length_occupied_remove _ _ _ Hs).
    split; unfold max in *; cbn; rewrite ?length_insert; [apply mod_lt_or|done|lia|lia].
  - split; unfold max in *; cbn; rewrite ?Hs; cbn; lia.
Qed.

Lemma remove_matching_wf matches q : wf q → wf (remove_matching matches q).2.
Proof.
  intros [Hh Ht Ho Hl]. rewrite remove_matching_eq. cbn.
  split; unfold max in *; cbn; rewrite ?length_clear_where; [done|done| |lia].
  rewrite occupied_clear.
  pose proof (length_filter_split matches (occupied q.(queue))). lia.
Qed.

(** *** One step of the refinement *)
Lemma new_holds MAX : holds (new MAX : t R) [] [].
Proof.
  split; cbn; [apply windowed_empty|by rewrite Nat.Div0.mod_0_l|done|done|].
  unfold max; cbn. rewrite length_replicate. lia.
Qed.

Lemma holds_len_max q w xs : holds q w xs → length xs ≤ length w ≤ max q.
Proof.
  intros [[Hl _] _ <- _ _]. split; [apply length_occupied_le|done].
Qed.

Lemma enqueue_holds q w xs r :
  holds q w xs → length w < max q →
  (enqueue r q).1 = Ok tt ∧ holds (enqueue r q).2 (w ++ [Some r]) (xs ++ [r]).
Proof.
  intros Hh Hlt. pose proof (holds_len_max _ _ _ Hh).
  destruct Hh as [Hw Ht Hx Hl Hd]. unfold enqueue.
  rewrite decide_False by lia. split; [done|]. unfold max in *.
  split; unfold max; cbn; rewrite ?length_insert.
  - rewrite Ht. by apply windowed_push.
  - rewrite Ht, Nat.Div0.add_mod_idemp_l, length_app; cbn. f_equal. lia.
  - rewrite occupied_app, Hx. done.
  - rewrite length_app; cbn. lia.
  - done.
Qed.

Lemma next_holds_cons q w x xs :
  holds q w (x :: xs) →
  (next q).1 = Some x ∧ ∃ w', length w' < length w ∧ holds (next q).2 w' xs ∧
  (w = Some <$> x :: xs → w' = Some <$> xs).
Proof.
  intros [Hw Ht Hx Hl Hd]. unfold next. rewrite decide_False by (cbn in Hl; lia).
  pose proof (scan_spec q (max q) 0 eq_refl) as Hs. rewrite drop_0 in Hs.
  destruct (window_split _ _ _ Hx) as (n & w' & -> & Hw').
  destruct Hw as [Hwl Hwr] eqn:HE. pose proof Hwr as Hr. rewrite <-app_assoc in Hr.
  destruct (scan q (max q) 0) as [[idx e]|].
  2:{ rewrite Hr, occupied_app, occupied_replicate in Hs. done. }
  destruct Hs as (k & v & Hk & ->). rewrite Hr in Hk.
  assert (k = n ∧ e = x) as [-> ->].
  { by apply window_split_unique in Hk as (-> & -> & _). }
  split; [done|]. exists w'. cbn [fst snd].
  rewrite length_app, length_replicate; cbn [length Nat.add]. unfold max in *.
  split; [lia|]. split.
  - split; unfold max; cbn; rewrite ?length_insert; [|..|done| |].
    + pose proof (windowed_skip _ _ n _ Hw) as Hp%windowed_pop.
      rewrite Nat.Div0.mod_mod in Hp. exact Hp.
    + rewrite Ht, length_app, length_replicate; cbn.
      rewrite Nat.Div0.add_mod_idemp_l, <-Nat.add_assoc, Nat.Div0.add_mod_idemp_l.
      f_equal. lia.
    + cbn in Hl. lia.
    + apply mod_lt_or.
  - destruct n; cbn; intros [=]; done.
Qed.

Lemma next_holds_nil q w : holds q w [] → next q = (None, q).
Proof. intros [_ _ _ Hl _]. unfold next. by rewrite decide_True. Qed.

Lemma remove_matching_holds q w xs matches :
  holds q w xs →
  (remove_matching matches q).1 = length (filter (λ x, matches x = true) xs) ∧
  holds (remove_matching matches q).2 (clear_where matches w)
    (filter (λ x, matches x = false) xs).
Proof.
  intros [Hw Ht Hx Hl Hd]. rewrite remove_matching_eq. cbn [fst snd].
  assert (length (filter (λ x, matches x = true) (occupied q.(queue))) =
          length (filter (λ x, matches x = true) xs)) as Hc.
  { by rewrite (windowed_occupied _ _ _ Hw), Hx. }
  split; [done|]. split; cbn; unfold max in *; cbn; rewrite ?length_clear_where; [..|done].
  - by apply windowed_clear.
  - done.
  - by rewrite occupied_clear, Hx.
  - rewrite Hc, Hl. pose proof (length_filter_split matches xs). lia.
Qed.

Lemma enqueue_full q w xs r :
  holds q w xs → length xs = max q → enqueue r q = (Err MtssError.RunQueueFull, q).
Proof. intros [_ _ _ Hl _] Hm. unfold enqueue. by rewrite decide_True by lia. Qed.

(** ** The abstract queue

    A bounded list, oldest record first. *)
Inductive op : Type :=
| OpEnqueue (r : R)
| OpNext
| OpRemove (matches : R → bool).

Inductive obs : Type :=
| ObsEnqueue (res : result MtssError.t unit)
| ObsNext (res : option R)
| ObsRemove (removed : nat).

Definition impl_step (o : op) q : obs * t R :=
  match o with
  | OpEnqueue r => let '(res, q') := enqueue r q in (ObsEnqueue res, q')
  | OpNext => let '(res, q') := next q in (ObsNext res, q')
  | OpRemove p => let '(n, q') := remove_matching p q in (ObsRemove n, q')
  end.

Definition spec_step (MAX : nat) (o : op) xs : obs * list R :=
  match o with
  | OpEnqueue r =>
      if decide (length xs = MAX) then (ObsEnqueue (Err MtssError.RunQueueFull), xs)
      else (ObsEnqueue (Ok tt), xs ++ [r])
  | OpNext => (ObsNext (hd_error xs), tl xs)
  | OpRemove p => (ObsRemove (length (filter (λ x, p x = true) xs)),
                   filter (λ x, p x = false) xs)
  end.

Fixpoint impl_run (ops : list op) q : list obs :=
  match ops with
  | [] => []
  | o :: ops' => let '(b, q') := impl_step o q in b :: impl_run ops' q'
  end.

Fixpoint spec_run (MAX : nat) (ops : list op) xs : list obs :=
  match ops with
  | [] => []
  | o :: ops' => let '(b, xs') := spec_step MAX o xs in b :: spec_run MAX ops' xs'
  end.

Definition is_enqueue (o : op) : bool := match o with OpEnqueue _ => true | _ => false end.
Definition is_remove (o : op) : bool := match o with OpRemove _ => true | _ => false end.

(** One step agrees with the list when the window has room (or the queue is
    full, or nothing is enqueued); the window grows only on [enqueue], and stays
    free of holes without [remove_matching]. *)
Lemma step_sim o q w xs :
  holds q w xs →
  (is_enqueue o = true → length w < max q ∨ length xs = max q) →
  ∃ w' xs', spec_step (max q) o xs = ((impl_step o q).1, xs') ∧
    holds (impl_step o q).2 w' xs' ∧ max (impl_step o q).2 = max q ∧
    length w' ≤ length w + (if is_enqueue o then 1 else 0) ∧
    (is_remove o = false → w = Some <$> xs → w' = Some <$> xs').
Proof.
  intros Hh Hroom. pose proof (holds_len_max _ _ _ Hh) as Hle.
  destruct o as [r| |p]; cbn [impl_step spec_step is_enqueue is_remove] in *.
  - case_decide as Hf.
    + rewrite (enqueue_full _ _ _ _ Hh Hf). exists w, xs. split_and!; eauto. lia.
    + destruct (Hroom eq_refl) as [Hlt|]; [|done].
      destruct (enqueue_holds _ _ _ r Hh Hlt) as [Hok Hh'].
      destruct (enqueue r q) as [res q'] eqn:He; cbn in *. subst.
      exists (w ++ [Some r]), (xs ++ [r]). split_and!; [done|done| | |].
      * unfold enqueue in He. case_decide; simplify_eq. unfold max; cbn.
        by rewrite length_insert.
      * rewrite length_app; cbn; lia.
      * intros _ ->. by rewrite fmap_app.
  - destruct xs as [|x xs].
    + rewrite (next_holds_nil _ _ Hh). exists w, []. split_and!; eauto. lia.
    + destruct (next_holds_cons _ _ _ _ Hh) as (Hx & w' & Hw' & Hh' & Hhole).
      assert (max (next q).2 = max q) as Hm.
      { unfold next, max. case_decide; [done|].
        destruct (scan q (length q.(queue)) 0) as [[??]|]; cbn; by rewrite ?length_insert. }
      destruct (next q) as [res q'] eqn:He; cbn in *. subst.
      exists w', xs. split_and!; eauto. lia.
  - destruct (remove_matching_holds _ _ _ p Hh) as [Hn Hh'].
    assert (max (remove_matching p q).2 = max q) as Hm.
    { rewrite remove_matching_eq. apply length_clear_where. }
    destruct (remove_matching p q) as [n q'] eqn:He; cbn in *. subst.
    exists (clear_where p w), (filter (λ x, p x = false) xs). split_and!; [done|done|done| |done].
    rewrite length_clear_where. lia.
Qed.

(** Without removals the run queue is exactly a bounded first-in first-out
    list: for any capacity and any sequence of [enqueue] and [next], every
    result (including [RunQueueFull]) equals the list's. *)
Theorem run_queue_fifo (MAX : nat) (ops : list op) :
  Forall (λ o, is_remove o = false) ops →
  impl_run ops (new MAX) = spec_run MAX ops [].
Proof.
  intros Hops. assert (max (new MAX : t R) = MAX) as Hm by apply length_replicate.
  generalize (new_holds MAX). change (@nil (option R)) with (Some <$> @nil R).
  revert Hm. generalize (new MAX : t R). generalize (@nil R).
  induction Hops as [|o ops Ho Hops IH]; intros xs q Hm Hh; cbn [impl_run spec_run]; [done|].
  destruct (step_sim o q _ _ Hh) as (w' & xs' & Hs & Hh' & Hmax & _ & Hhole).
  { rewrite length_fmap. pose proof (holds_len_max _ _ _ Hh). lia. }
  rewrite <-Hm, Hs. destruct (impl_step o q) as [b q'] eqn:He; cbn in *.
  rewrite (Hhole Ho eq_refl) in Hh'. f_equal. rewrite Hm. apply IH; [lia|done].
Qed.

(** With removals the run queue still behaves as the abstract list, and
    removes exactly the matching records in place, as long as no more than [MAX]
    records are enqueued over the life of the queue. *)
Theorem run_queue_removal_refines (MAX : nat) (ops : list op) :
  length (filter (λ o, is_enqueue o = true) ops) ≤ MAX →
  impl_run ops (new MAX) = spec_run MAX ops [].
Proof.
  intros Hops. assert (max (new MAX : t R) = MAX) as Hm by apply length_replicate.
  generalize (new_holds MAX). revert Hm.
  assert (length (@nil (option R)) + length (filter (λ o, is_enqueue o = true) ops) ≤ MAX)
    as Hroom by done.
  clear Hops. revert Hroom.
  generalize (new MAX : t R), (@nil R), (@nil (option R)).
  induction ops as [|o ops IH]; intros q xs w Hroom Hm Hh; cbn [impl_run spec_run]; [done|].
  rewrite filter_cons in Hroom.
  destruct (step_sim o q _ _ Hh) as (w' & xs' & Hs & Hh' & Hmax & Hlen & _).
  { intros Ho. left. rewrite decide_True in Hroom by done. cbn in Hroom. lia. }
  rewrite <-Hm, Hs. destruct (impl_step o q) as [b q'] eqn:He; cbn in *.
  f_equal. rewrite Hm. apply IH with w'; [|lia|done].
  destruct (is_enqueue o); repeat case_decide; cbn in *; try done; lia.
Qed.

(** When removals have left holes and the window spans the whole array,
    [enqueue] succeeds by overwriting the oldest record: the queue then holds
    the new record and the others, while [len] still counts the lost one. *)
Theorem enqueue_drops_oldest q w x xs r :
  holds q (Some x :: w) xs → length (Some x :: w) = max q → length xs < max q →
  (enqueue r q).1 = Ok tt ∧
  (enqueue r q).2.(queue) = <[q.(head) := Some r]> q.(queue) ∧
  occupied (enqueue r q).2.(queue) ≡ₚ r :: occupied w ∧
  (enqueue r q).2.(len) = length (occupied w) + 2.
Proof.
  intros [Hw Ht Hx Hl Hd] Hfull Hlt. unfold enqueue. rewrite decide_False by lia.
  assert (q.(head) < max q) as Hd' by (destruct Hd; lia).
  assert (q.(tail) = q.(head)) as Htail.
  { rewrite Ht, Hfull. rewrite <-(Nat.mul_1_l (max q)) at 1.
    rewrite Nat.Div0.mod_add. by apply Nat.mod_small. }
  cbn [fst snd queue len]. rewrite Htail. split_and!; [done|done| |].
  - apply (windowed_set _ _ _ 0 (Some r)) in Hw; [|cbn; lia].
    rewrite Nat.add_0_r, Nat.mod_small in Hw by done.
    by rewrite (windowed_occupied _ _ _ Hw).
  - cbn in Hx. rewrite Hl, <-Hx. cbn. lia.
Qed.

Definition impl_state (ops : list op) q : t R :=
  foldl (λ q' o, (impl_step o q').2) q ops.

Lemma impl_step_wf o q : wf q → wf (impl_step o q).2.
Proof.
  intros Hwf. destruct o as [r| |p]; cbn.
  - pose proof (enqueue_wf r q Hwf). by destruct (enqueue r q).
  - pose proof (next_wf q Hwf). by destruct (next q).
  - pose proof (remove_matching_wf p q Hwf). by destruct (remove_matching p q).
Qed.

(** Whatever operations are applied, removals included, the indices stay
    inside the array (no slice access can panic), [len] never exceeds the
    capacity and never drops below the number of records stored. *)
Theorem run_queue_indices_safe (MAX : nat) (ops : list op) :
  wf (impl_state ops (new MAX)).
Proof.
  pose proof (new_wf MAX) as Hwf. revert Hwf. generalize (new MAX : t R).
  unfold impl_state. induction ops as [|o ops IH]; intros q Hwf; cbn; [done|].
  by apply IH, impl_step_wf.
Qed.
End theory.

(** *** The theorems at work *)
Lemma run_queue_fifo_witness :
  impl_run [OpEnqueue 7; OpEnqueue 8; OpEnqueue 9; OpNext; OpEnqueue 9; OpNext; OpNext; OpNext]
    (new 2) =
  [ObsEnqueue (Ok tt); ObsEnqueue (Ok tt); ObsEnqueue (Err MtssError.RunQueueFull);
   ObsNext (Some 7); ObsEnqueue (Ok tt); ObsNext (Some 8); ObsNext (Some 9); ObsNext None].
Proof. rewrite (run_queue_fifo (R := nat) 2); [reflexivity|repeat constructor]. Defined.

Lemma run_queue_removal_refines_witness :
  impl_run [OpEnqueue 7; OpEnqueue 8; OpRemove (Nat.eqb 7); OpEnqueue 9; OpNext; OpNext]
    (new 3) =
  [ObsEnqueue (Ok tt); ObsEnqueue (Ok tt); ObsRemove 1; ObsEnqueue (Ok tt);
   ObsNext (Some 8); ObsNext (Some 9)].
Proof. rewrite (run_queue_removal_refines (R := nat) 3); [reflexivity|apply le_n]. Defined.

(** Fill a queue of three with 1, 2, 3 and remove 2: enqueueing 4 drops 1. *)
Definition full_with_hole : t nat :=
  impl_state [OpEnqueue 1; OpEnqueue 2; OpEnqueue 3; OpRemove (Nat.eqb 2)] (new 3).

Lemma full_with_hole_holds : holds full_with_hole [Some 1; None; Some 3] [1; 3].
Proof.
  split; [split; [apply le_n|reflexivity]|reflexivity..|].
  left. apply Nat.ltb_lt. reflexivity.
Qed.

Lemma enqueue_drops_oldest_witness :
  (enqueue 4 full_with_hole).1 = Ok tt ∧
  occupied (enqueue 4 full_with_hole).2.(queue) ≡ₚ [4; 3] ∧
  (enqueue 4 full_with_hole).2.(len) = 3.
Proof.
  destruct (enqueue_drops_oldest full_with_hole [None; Some 3] 1 [1; 3] 4)
    as (H1 & _ & H3 & H4).
  - apply full_with_hole_holds.
  - reflexivity.
  - apply le_n.
  - auto.
Defined.
End RunQueue.
