(* ===== verification/Mtss.v ===== *)
(** * The MTSS scheduler facade

    Model of [crates/mirage-mtss/src/mtss.rs].  The state [Mtss.t] has the
    fields of the struct; the const generics are the lengths of its arrays.  A
    method [fn op(&mut self) -> Result<A, MtssError>] is an [Op A]; [task_mut]
    and [thread_mut] run an operation on the descriptor the scan finds, in
    place, as the borrowed [&mut] does. *)

From stdpp Require Import prelude.
From S2P Require Import Prelude Slots Ring MtssTypes RunQueue.

Module MtssConfig.
Record t : Type := mk {
  cpu : CpuId;
  initial_time : Timestamp;
  default_timeslice : Timeslice
}.
Definition new (cpu : CpuId) : t := mk cpu 0 4.
Definition with_initial_time (initial_time : Timestamp) (c : t) : t :=
  mk c.(cpu) initial_time c.(default_timeslice).
Definition with_default_timeslice (default_timeslice : Timeslice) (c : t) : t :=
  mk c.(cpu) c.(initial_time) default_timeslice.
Definition default : t := new 0.
End MtssConfig.

Module MtssHandle.
Record t : Type := mk { task_of : TaskId; thread_of : option ThreadId }.
Definition task (task : TaskId) : t := mk task None.
Definition thread (task : TaskId) (thread : ThreadId) : t := mk task (Some thread).
End MtssHandle.

(** the records stored in the run queue *)
Abbreviation SRecord := (Sched.t ThreadId TaskId Priority).

Definition validate_thread_destination (from to : ThreadState.t) : result MtssError.t unit :=
  if valid_thread_transition from to then Ok tt
  else Err (MtssError.InvalidThreadTransition from to).

Definition timeslice_budget_u8 (timeslice : Timeslice) : Z :=
  if decide (timeslice = 0)%Z then 1
  else if decide (timeslice > 255)%Z then 255
  else timeslice.

Module Mtss.
Record t : Type := mk {
  config : MtssConfig.t;
  now : Timestamp;
  current : option ThreadId;
  tasks : list (option Task.t);
  threads : list (option Thread.t);
  run_queue : RunQueue.t SRecord;
  stats : MtssStats.t;
  need_resched : bool;
  events : list (option MtssEvent.t);
  event_head : nat;
  event_len : nat;
  dropped_events : Z    (* u64 *)
}.

Definition Op (A : Type) : Type := M t MtssError.t A.

Definition new (MAX_TASKS MAX_THREADS RUN_QUEUE_DEPTH EVENT_QUEUE_DEPTH : nat)
    (config : MtssConfig.t) : t :=
  mk config config.(MtssConfig.initial_time) None (replicate MAX_TASKS None)
     (replicate MAX_THREADS None) (RunQueue.new RUN_QUEUE_DEPTH) MtssStats.new false
     (replicate EVENT_QUEUE_DEPTH None) 0 0 0.

(** ** Field assignments *)
Definition set_now (v : Timestamp) (s : t) : t :=
  mk s.(config) v s.(current) s.(tasks) s.(threads) s.(run_queue)
     s.(stats) s.(need_resched) s.(events) s.(event_head) s.(event_len) s.(dropped_events).
Definition set_current (v : option ThreadId) (s : t) : t :=
  mk s.(config) s.(now) v s.(tasks) s.(threads) s.(run_queue)
     s.(stats) s.(need_resched) s.(events) s.(event_head) s.(event_len) s.(dropped_events).
Definition set_tasks (v : list (option Task.t)) (s : t) : t :=
  mk s.(config) s.(now) s.(current) v s.(threads) s.(run_queue)
     s.(stats) s.(need_resched) s.(events) s.(event_head) s.(event_len) s.(dropped_events).
Definition set_threads (v : list (option Thread.t)) (s : t) : t :=
  mk s.(config) s.(now) s.(current) s.(tasks) v s.(run_queue)
     s.(stats) s.(need_resched) s.(events) s.(event_head) s.(event_len) s.(dropped_events).
Definition set_run_queue (v : RunQueue.t SRecord) (s : t) : t :=
  mk s.(config) s.(now) s.(current) s.(tasks) s.(threads) v
     s.(stats) s.(need_resched) s.(events) s.(event_head) s.(event_len) s.(dropped_events).
Definition set_stats (v : MtssStats.t) (s : t) : t :=
  mk s.(config) s.(now) s.(current) s.(tasks) s.(threads) s.(run_queue)
     v s.(need_resched) s.(events) s.(event_head) s.(event_len) s.(dropped_events).
Definition set_need_resched (v : bool) (s : t) : t :=
  mk s.(config) s.(now) s.(current) s.(tasks) s.(threads) s.(run_queue)
     s.(stats) v s.(events) s.(event_head) s.(event_len) s.(dropped_events).
Definition set_events (v : list (option MtssEvent.t)) (hd n : nat) (dropped : Z) (s : t) : t :=
  mk s.(config) s.(now) s.(current) s.(tasks) s.(threads) s.(run_queue)
     s.(stats) s.(need_resched) v hd n dropped.

Definition with_stats (f : MtssStats.t → MtssStats.t) : Op unit :=
  modify (λ s, set_stats (f s.(stats)) s).

(** ** Event ring *)
Definition drain_event (s : t) : option MtssEvent.t * t :=
  if decide (s.(event_len) = 0) then (None, s)
  else
    (* self.events[self.event_head].take() *)
    let event := mjoin (s.(events) !! s.(event_head)) in
    (event,
     set_events (<[s.(event_head) := None]> s.(events))
       ((s.(event_head) + 1) mod length s.(events)) (s.(event_len) - 1)
       s.(dropped_events) s).

(** [drain_events_to]: the events handed to the sink; the loop runs until the
    ring returns [None], at most [event_len] times *)
Fixpoint drain_loop (fuel : nat) (s : t) : list MtssEvent.t * t :=
  match fuel with
  | 0 => ([], s)
  | S fuel' =>
      match drain_event s with
      | (None, s') => ([], s')
      | (Some event, s') =>
          let '(rest, s'') := drain_loop fuel' s' in (event :: rest, s'')
      end
  end.
Definition drain_events_to (s : t) : list MtssEvent.t * t :=
  drain_loop (S s.(event_len)) s.

Definition emit (event : MtssEvent.t) (s : t) : t :=
  let depth := length s.(events) in
  if decide (depth = 0) then
    set_events s.(events) s.(event_head) s.(event_len) (sat_add 64 s.(dropped_events) 1) s
  else if decide (s.(event_len) = depth) then
    set_events (<[s.(event_head) := Some event]> s.(events))
      ((s.(event_head) + 1) mod depth) s.(event_len) (sat_add 64 s.(dropped_events) 1) s
  else
    let tail := (s.(event_head) + s.(event_len)) mod depth in
    set_events (<[tail := Some event]> s.(events)) s.(event_head) (s.(event_len) + 1)
      s.(dropped_events) s.

Definition emit_task (kind : MtssEventKind.t) (task : TaskId) : Op unit :=
  modify (λ s, emit (MtssEvent.task kind task s.(now)) s).

Definition emit_thread (kind : MtssEventKind.t) (task : TaskId) (thread : ThreadId) : Op unit :=
  modify (λ s, emit (MtssEvent.thread kind task thread
                       (Some s.(config).(MtssConfig.cpu)) s.(now)) s).

(** ** Table access *)
Definition find_task_index (task : TaskId) (s : t) : option nat :=
  find_slot (has_key Task.id task) s.(tasks).

Definition find_thread_index (thread : ThreadId) (s : t) : option nat :=
  find_slot (has_key Thread.id thread) s.(threads).

Definition free_task_slot (s : t) : option nat := free_slot s.(tasks).
Definition free_thread_slot (s : t) : option nat := free_slot s.(threads).

Definition task_mut {A} (task : TaskId) (m : M Task.t MtssError.t A) : Op A := λ s,
  match find_task_index task s with
  | None => (Err MtssError.InvalidTask, s)
  | Some idx =>
      match s.(tasks) !! idx with
      | Some (Some x) =>
          let '(r, x') := m x in (r, set_tasks (<[idx := Some x']> s.(tasks)) s)
      | _ => (Err MtssError.InvalidTask, s)
      end
  end.

Definition thread_mut {A} (thread : ThreadId) (m : M Thread.t MtssError.t A) : Op A := λ s,
  match find_thread_index thread s with
  | None => (Err MtssError.InvalidThread, s)
  | Some idx =>
      match s.(threads) !! idx with
      | Some (Some x) =>
          let '(r, x') := m x in (r, set_threads (<[idx := Some x']> s.(threads)) s)
      | _ => (Err MtssError.InvalidThread, s)
      end
  end.

(** [fn thread(&self, thread) -> Result<Thread, MtssError>] *)
Definition thread (thread : ThreadId) : Op Thread.t := λ s,
  match find_thread_index thread s with
  | None => (Err MtssError.InvalidThread, s)
  | Some idx => (ok_or (mjoin (s.(threads) !! idx)) MtssError.InvalidThread, s)
  end.

Definition with_task_mut (task : TaskId) (f : Task.t → Task.t) : Op unit :=
  task_mut task (modify f).

Definition with_task_mut_for_thread (th : ThreadId) (f : Task.t → Task.t) : Op unit :=
  x ← thread th; with_task_mut x.(Thread.task) f.

Definition run_queue_op {A} (m : M (RunQueue.t SRecord) MtssError.t A) : Op A := λ s,
  let '(r, q) := m s.(run_queue) in (r, set_run_queue q s).

Definition ensure_run_queue_capacity : Op unit := λ s,
  if decide (s.(run_queue).(RunQueue.len) = RunQueue.max s.(run_queue))
  then (Err MtssError.RunQueueFull, s) else (Ok tt, s).

Definition unschedule_thread (thread : ThreadId) (s : t) : t :=
  let s := set_run_queue (RunQueue.remove_thread thread s.(run_queue)).2 s in
  if decide (s.(current) = Some thread) then set_current None s else s.

Definition any_schedulable_thread (task : TaskId) (s : t) : bool :=
  slot_any (λ x, bool_decide (x.(Thread.task) = task) &&
                 ThreadState.may_schedule x.(Thread.state)) s.(threads).

Definition schedule_record (x : Thread.t) : SRecord :=
  Sched.new x.(Thread.id) x.(Thread.task) x.(Thread.priority)
    (timeslice_budget_u8 x.(Thread.timeslice)).

(** ** Admission *)
Definition create_task (id : TaskId) (parent : option TaskId)
    (address_space : AddressSpaceId) (priority : Priority) : Op MtssHandle.t :=
  found ← gets (find_task_index id);
  match found with
  | Some _ => throw MtssError.InvalidTask
  | None =>
      free ← gets free_task_slot;
      slot ← lift (ok_or free MtssError.TaskTableFull);
      let '(r, task) := Task.admit_ (Task.new id parent address_space priority) in
      lift r ;;
      modify (λ s, set_tasks (<[slot := Some task]> s.(tasks)) s) ;;
      with_stats MtssStats.with_task_admission ;;
      emit_task MtssEventKind.TaskCreated id ;;
      mret (MtssHandle.task id)
  end.

Definition create_thread (task : TaskId) (thread : ThreadId) (priority : Priority)
    : Op MtssHandle.t :=
  found ← gets (find_thread_index thread);
  match found with
  | Some _ => throw MtssError.InvalidThread
  | None =>
      o ← gets (find_task_index task);
      task_index ← lift (ok_or o MtssError.InvalidTask);
      entry ← gets (λ s, mjoin (s.(tasks) !! task_index));
      x ← lift (ok_or entry MtssError.InvalidTask);
      let task_state := x.(Task.state) in
      if negb (TaskState.may_schedule task_state)
      then throw (MtssError.InvalidTaskTransition task_state TaskState.Runnable)
      else
        free ← gets free_thread_slot;
        slot ← lift (ok_or free MtssError.ThreadTableFull);
        modify (λ s, set_threads
          (<[slot := Some (Thread.new thread task priority
                             s.(config).(MtssConfig.default_timeslice))]> s.(threads)) s) ;;
        with_task_mut task Task.increment_thread_count ;;
        modify (λ s, emit (MtssEvent.thread MtssEventKind.ThreadCreated task thread None
                             s.(now)) s) ;;
        mret (MtssHandle.thread task thread)
  end.

Definition enqueue_thread (thread : ThreadId) : Op unit :=
  ensure_run_queue_capacity ;;
  rt ← thread_mut thread
    (previous ← gets Thread.state;
     (if decide (previous = ThreadState.Ready) then mret tt
      else Thread.transition ThreadState.Ready ;; mret tt) ;;
     gets (λ x, (schedule_record x, x.(Thread.task))));
  run_queue_op (RunQueue.enqueue rt.1) ;;
  with_stats MtssStats.with_admission ;;
  emit_thread MtssEventKind.ThreadRunnable rt.2 thread.

(** ** Dispatch and preemption *)
Definition dispatch (thread : ThreadId) (_reason : LifecycleReason.t)
    : Op ScheduleDecision.t :=
  previous ← gets current;
  default_timeslice ← gets (λ s, s.(config).(MtssConfig.default_timeslice));
  task ← thread_mut thread
    (Thread.mark_running ;;
     modify (Thread.reset_timeslice default_timeslice) ;;
     gets Thread.task);
  with_task_mut task (λ x,
    if decide (x.(Task.state) = TaskState.Runnable) then (Task.mark_running x).2 else x) ;;
  modify (set_current (Some thread)) ;;
  with_stats MtssStats.with_context_switch ;;
  emit_thread MtssEventKind.ThreadRunning task thread ;;
  gets (λ s, ScheduleDecision.new s.(config).(MtssConfig.cpu) previous thread s.(now)).

Definition pick_next : Op (option ScheduleDecision.t) :=
  record ← run_queue_op (λ q, let '(r, q') := RunQueue.next q in (Ok r, q'));
  match record with
  | None => mret None
  | Some record =>
      d ← dispatch record.(Sched.thread) LifecycleReason.Scheduled;
      mret (Some d)
  end.

Definition ready_current_for_requeue (thread : ThreadId) (_reason : LifecycleReason.t)
    : Op unit :=
  ensure_run_queue_capacity ;;
  default_timeslice ← gets (λ s, s.(config).(MtssConfig.default_timeslice));
  rt ← thread_mut thread
    (Thread.mark_ready ;;
     modify (Thread.reset_timeslice default_timeslice) ;;
     gets (λ x, (schedule_record x, x.(Thread.task))));
  run_queue_op (RunQueue.requeue rt.1) ;;
  emit_thread MtssEventKind.ThreadRunnable rt.2 thread.

Definition yield_current : Op (option ScheduleDecision.t) :=
  cur ← gets current;
  match cur with
  | None => pick_next
  | Some cur =>
      ready_current_for_requeue cur LifecycleReason.Yielded ;;
      pick_next
  end.

Definition reschedule_if_needed : Op (option ScheduleDecision.t) :=
  nr ← gets need_resched;
  if negb nr then mret None
  else
    modify (set_need_resched false) ;;
    yield_current.

Definition on_timer_tick_with_preemption_disabled (preemption_disabled : bool)
    : Op (option ScheduleDecision.t) :=
  modify (λ s, set_now (sat_add 64 s.(now) 1) s) ;;
  cur ← gets current;
  match cur with
  | None => mret None
  | Some cur =>
      expired ← thread_mut cur
        (st ← gets Thread.state;
         if negb (bool_decide (st = ThreadState.Running))
         then throw (MtssError.InvalidThreadTransition st ThreadState.Running)
         else
           modify (Thread.accumulate_cpu_time 1) ;;
           Thread.consume_timeslice_tick);
      with_task_mut_for_thread cur (Task.accumulate_cpu_time 1) ;;
      if negb expired then mret None
      else
        modify (set_need_resched true) ;;
        with_stats MtssStats.with_preemption ;;
        x ← thread cur;
        emit_thread MtssEventKind.TimesliceExpired x.(Thread.task) cur ;;
        if preemption_disabled then mret None
        else reschedule_if_needed
  end.

Definition on_timer_tick : Op (option ScheduleDecision.t) :=
  on_timer_tick_with_preemption_disabled false.

Definition requeue_current : Op unit :=
  cur ← gets current;
  modify (set_current None) ;;
  match cur with
  | None => mret tt
  | Some cur => ready_current_for_requeue cur LifecycleReason.Yielded
  end.

(** ** Task state *)
Definition mark_task_running (task : TaskId) : Op unit :=
  task_mut task
    (st ← gets Task.state;
     if decide (st = TaskState.Runnable) then Task.mark_running ;; mret tt else mret tt).

Definition mark_task_ready (task : TaskId) : Op unit :=
  task_mut task
    (st ← gets Task.state;
     if decide (st = TaskState.Running ∨ st = TaskState.Blocked)
     then Task.wake ;; mret tt else mret tt).

Definition block_task (task : TaskId) : Op unit :=
  blocked ← task_mut task
    (st ← gets Task.state;
     if decide (st ≠ TaskState.Exited ∧ st ≠ TaskState.Blocked)
     then Task.block ;; mret true else mret false);
  if (blocked : bool) then with_stats MtssStats.with_task_block else mret tt.

Definition refresh_task_wait_state (task : TaskId) (waiting_state : TaskState.t) : Op unit :=
  has_schedulable ← gets (any_schedulable_thread task);
  went ← task_mut task
    (st ← gets Task.state;
     if (has_schedulable : bool) then
       if decide (st ≠ TaskState.Runnable ∧ st ≠ TaskState.Running)
       then Task.wake ;; mret false else mret false
     else if decide (st ≠ waiting_state)
     then Task.transition waiting_state ;; mret true else mret false);
  if went && bool_decide (waiting_state = TaskState.Blocked)
  then with_stats MtssStats.with_task_block else mret tt.

Definition wake_task_if_waiting (task : TaskId) : Op unit :=
  task_mut task
    (st ← gets Task.state;
     if decide (st = TaskState.Blocked) then Task.wake ;; mret tt else mret tt).

(** ** Blocking, sleeping, waking *)
Definition block_thread (th : ThreadId) : Op unit :=
  x ← thread th;
  lift (validate_thread_destination x.(Thread.state) ThreadState.Blocked) ;;
  modify (unschedule_thread th) ;;
  task ← thread_mut th (Thread.block ;; gets Thread.task);
  refresh_task_wait_state task TaskState.Blocked ;;
  with_stats MtssStats.with_block ;;
  emit_thread MtssEventKind.ThreadBlocked task th.

Definition sleep_thread (th : ThreadId) : Op unit :=
  x ← thread th;
  lift (validate_thread_destination x.(Thread.state) ThreadState.Sleeping) ;;
  modify (unschedule_thread th) ;;
  task ← thread_mut th (Thread.sleep ;; gets Thread.task);
  refresh_task_wait_state task TaskState.Blocked ;;
  with_stats MtssStats.with_sleep ;;
  emit_thread MtssEventKind.ThreadSleeping task th.

Definition wake_thread (th : ThreadId) : Op unit :=
  ensure_run_queue_capacity ;;
  task ← thread_mut th (Thread.wake ;; gets Thread.task);
  wake_task_if_waiting task ;;
  with_stats MtssStats.with_wakeup ;;
  enqueue_thread th.

(** ** Termination, containment, reaping *)
Definition terminate_slot (task : TaskId) (idx : nat) : Op unit :=
  entry ← gets (λ s, mjoin (s.(threads) !! idx));
  match entry with
  | Some th =>
      if decide (th.(Thread.task) = task) then
        modify (unschedule_thread th.(Thread.id)) ;;
        let '(r, th') := Thread.terminate th in
        lift r ;;
        modify (λ s, set_threads (<[idx := Some th']> s.(threads)) s) ;;
        with_stats MtssStats.with_completion ;;
        emit_thread MtssEventKind.ThreadExited task th'.(Thread.id)
      else mret tt
  | None => mret tt
  end.

Definition terminate_task (task : TaskId) : Op unit :=
  previous ← task_mut task Task.terminate;
  n ← gets (λ s, length s.(threads));
  mfor (seq 0 n) (terminate_slot task) ;;
  (if decide (previous = TaskState.Exited) then mret tt
   else with_stats MtssStats.with_task_completion) ;;
  emit_task MtssEventKind.TaskTerminated task.

Definition exit_thread (th : ThreadId) : Op unit :=
  modify (unschedule_thread th) ;;
  task ← thread_mut th (Thread.terminate ;; gets Thread.task);
  with_task_mut task Task.decrement_thread_count ;;
  with_stats MtssStats.with_completion ;;
  emit_thread MtssEventKind.ThreadExited task th.

Definition contain_slot (task : TaskId) (idx : nat) : Op unit :=
  entry ← gets (λ s, mjoin (s.(threads) !! idx));
  match entry with
  | Some th =>
      if decide (th.(Thread.task) = task) then modify (unschedule_thread th.(Thread.id))
      else mret tt
  | None => mret tt
  end.

Definition contain_task (task : TaskId) : Op unit :=
  task_mut task
    (st ← gets Task.state;
     if decide (st ≠ TaskState.Blocked) then Task.suspect ;; mret tt else mret tt) ;;
  emit_task MtssEventKind.TaskSuspect task ;;
  task_mut task Task.contain ;;
  n ← gets (λ s, length s.(threads));
  mfor (seq 0 n) (contain_slot task) ;;
  with_stats MtssStats.with_containment ;;
  emit_task MtssEventKind.TaskContained task.

Definition reap_check_slot (task : TaskId) (idx : nat) : Op unit :=
  entry ← gets (λ s, mjoin (s.(threads) !! idx));
  match entry with
  | Some th =>
      if decide (th.(Thread.task) = task ∧ th.(Thread.state) ≠ ThreadState.Dead)
      then throw (MtssError.InvalidThreadTransition th.(Thread.state) ThreadState.Dead)
      else mret tt
  | None => mret tt
  end.

Definition reap_clear_slot (task : TaskId) (idx : nat) : Op unit :=
  entry ← gets (λ s, mjoin (s.(threads) !! idx));
  match entry with
  | Some th =>
      if decide (th.(Thread.task) = task)
      then modify (λ s, set_threads (<[idx := None]> s.(threads)) s)
      else mret tt
  | None => mret tt
  end.

(** [self.tasks[task_index].as_mut().ok_or(InvalidTask)?.reap()?] *)
Definition reap_slot (task_index : nat) : Op unit := λ s,
  match mjoin (s.(tasks) !! task_index) with
  | None => (Err MtssError.InvalidTask, s)
  | Some x =>
      match Task.reap x with
      | (Ok _, x') => (Ok tt, set_tasks (<[task_index := Some x']> s.(tasks)) s)
      | (Err e, x') => (Err e, set_tasks (<[task_index := Some x']> s.(tasks)) s)
      end
  end.

Definition reap_task (task : TaskId) : Op unit :=
  o ← gets (find_task_index task);
  task_index ← lift (ok_or o MtssError.InvalidTask);
  entry ← gets (λ s, mjoin (s.(tasks) !! task_index));
  x ← lift (ok_or entry MtssError.InvalidTask);
  if decide (x.(Task.state) ≠ TaskState.Exited)
  then throw (MtssError.InvalidTaskTransition x.(Task.state) TaskState.Exited)
  else
    n ← gets (λ s, length s.(threads));
    mfor (seq 0 n) (reap_check_slot task) ;;
    reap_slot task_index ;;
    mfor (seq 0 n) (reap_clear_slot task) ;;
    modify (λ s, set_tasks (<[task_index := None]> s.(tasks)) s) ;;
    with_stats MtssStats.with_reap ;;
    emit_task MtssEventKind.TaskReaped task.
End Mtss.
