(* ===== verification/MtssInv.v ===== *)
(** * Invariants of the MTSS scheduler

    The scheduler invariant ties the four tables of Mtss.v together: identifiers
    are unique, every thread belongs to a live task, an exited task has only dead
    threads, and whatever the run queue or [current] refers to is a thread that
    may be scheduled.  Every method keeps it, on success and on error; the step
    relation at the end gives reachability. *)

From stdpp Require Import prelude.
From S2P Require Import Prelude Slots Ring MtssTypes RunQueue Mtss.
Import Mtss.

Abbreviation get_task k s := (slot_get Task.id k s.(tasks)).
Abbreviation get_thread k s := (slot_get Thread.id k s.(threads)).

(** ** The event log *)
Definition event_log (s : t) (xs : list MtssEvent.t) : Prop :=
  fifo s.(events) s.(event_head) xs ∧ s.(event_len) = length xs ∧
  (s.(event_head) < length s.(events) ∨ length s.(events) = 0).

(** the last [n] elements *)
Definition last_n {A} (n : nat) (xs : list A) : list A := drop (length xs - n) xs.

Lemma emit_frame ev s :
  (emit ev s).(tasks) = s.(tasks) ∧ (emit ev s).(threads) = s.(threads) ∧
  (emit ev s).(run_queue) = s.(run_queue) ∧ (emit ev s).(current) = s.(current) ∧
  (emit ev s).(config) = s.(config) ∧ (emit ev s).(now) = s.(now) ∧
  (emit ev s).(stats) = s.(stats) ∧ (emit ev s).(need_resched) = s.(need_resched).
Proof. destruct s. unfold emit. cbn. repeat case_decide; cbn; done. Qed.

Lemma emit_log ev s xs :
  event_log s xs →
  event_log (emit ev s) (last_n (length s.(events)) (xs ++ [ev])) ∧
  (emit ev s).(dropped_events) =
    (if decide (length xs < length s.(events)) then s.(dropped_events)
     else sat_add 64 s.(dropped_events) 1) ∧
  length (emit ev s).(events) = length s.(events).
Proof.
  destruct s as [? ? ? ? ? ? ? ? evs hd n dr]. unfold event_log, emit, last_n; cbn.
  intros (Hf & -> & Hh). pose proof (fifo_length _ _ _ Hf) as Hle.
  rewrite length_app; cbn. case_decide as Hd; cbn.
  { destruct evs; [|done]. destruct xs; [|cbn in *; lia]. cbn.
    split_and!; auto. }
  case_decide as Hl; cbn; rewrite ?length_insert.
  - assert (hd < length evs) as Hlt by (destruct Hh; lia).
    destruct xs as [|x xs]; [done|].
    replace (length (x :: xs) + 1 - length evs) with 1 by lia.
    cbn [app drop]. rewrite decide_False by lia. split_and!; [| | |done|done].
    + by apply (fifo_overwrite _ _ x).
    + rewrite drop_0, length_app; cbn in *; lia.
    + left. apply Nat.mod_upper_bound. lia.
  - rewrite decide_True by lia. replace (length xs + 1 - length evs) with 0 by lia.
    rewrite drop_0. split_and!; [apply fifo_push; [done|lia]| |done|done|done].
    by rewrite length_app.
Qed.

(** ** The scheduler invariant *)
Definition schedulable (ths : list (option Thread.t)) (k : ThreadId) : Prop :=
  ∃ th, slot_get Thread.id k ths = Some th ∧
        ThreadState.may_schedule th.(Thread.state) = true.

(** thread [k] is queued or current *)
Definition referenced (q : list (option SRecord)) (cur : option ThreadId) (k : ThreadId) : Prop :=
  (∃ r, Some r ∈ q ∧ r.(Sched.thread) = k) ∨ cur = Some k.

Record core (tks : list (option Task.t)) (ths : list (option Thread.t))
    (q : list (option SRecord)) (cur : option ThreadId) : Prop := {
  core_tasks : uniq Task.id tks;
  core_threads : uniq Thread.id ths;
  core_owner : ∀ th, Some th ∈ ths → is_Some (slot_get Task.id th.(Thread.task) tks);
  core_exited : ∀ th tk, Some th ∈ ths → slot_get Task.id th.(Thread.task) tks = Some tk →
    tk.(Task.state) = TaskState.Exited → th.(Thread.state) = ThreadState.Dead;
  core_referenced : ∀ k, referenced q cur k → schedulable ths k;
  core_admitted : ∀ tk, Some tk ∈ tks → tk.(Task.state) ≠ TaskState.Created
}.

(** The invariant of [s] read against the task table [tks]. *)
Record InvAt (tks : list (option Task.t)) (s : t) : Prop := {
  inv_core : core tks s.(threads) s.(run_queue).(RunQueue.queue) s.(current);
  inv_queue : RunQueue.wf s.(run_queue);
  inv_events : ∃ xs, event_log s xs
}.

Definition Inv (s : t) : Prop := InvAt s.(tasks) s.

Section core_lemmas.
  Context {tks : list (option Task.t)} {ths : list (option Thread.t)}
    {q : list (option SRecord)} {cur : option ThreadId} (C : core tks ths q cur).

Lemma core_task_set i x y :
  tks !! i = Some (Some x) → y.(Task.id) = x.(Task.id) →
  (y.(Task.state) = TaskState.Exited → x.(Task.state) = TaskState.Exited ∨
     ∀ th, Some th ∈ ths → th.(Thread.task) = x.(Task.id) →
           th.(Thread.state) = ThreadState.Dead) →
  y.(Task.state) ≠ TaskState.Created →
  core (<[i:=Some y]> tks) ths q cur.
Proof.
  intros Hi Hid Hst Hadm. pose proof (core_tasks _ _ _ _ C) as Hu.
  assert (∀ k, slot_get Task.id k (<[i:=Some y]> tks) =
    if decide (x.(Task.id) = k) then Some y else slot_get Task.id k tks) as Hget.
  { intros k. by apply slot_get_set. }
  assert (slot_get Task.id x.(Task.id) tks = Some x) as Hx.
  { apply uniq_elem; [done|]. apply list_elem_of_lookup. eauto. }
  split; try apply C.
  - by eapply uniq_set.
  - intros th Hth. rewrite Hget. case_decide; [done|]. by apply C.
  - intros th tk Hth. rewrite Hget. case_decide as Heq.
    + intros [= <-] Hex. destruct (Hst Hex) as [Hx'|Hall]; [|by apply Hall].
      eapply (core_exited _ _ _ _ C); [done| |exact Hx']. by rewrite <-Heq.
    + by apply C.
  - intros tk [[= <-]|Htk]%elem_of_insert_slot; [done|by apply C].
Qed.

Lemma core_thread_set i x y :
  ths !! i = Some (Some x) → y.(Thread.id) = x.(Thread.id) →
  y.(Thread.task) = x.(Thread.task) →
  (x.(Thread.state) = ThreadState.Dead → y.(Thread.state) = ThreadState.Dead) →
  (referenced q cur x.(Thread.id) → ThreadState.may_schedule y.(Thread.state) = true) →
  core tks (<[i:=Some y]> ths) q cur.
Proof.
  intros Hi Hid Htask Hdead Href. pose proof (core_threads _ _ _ _ C) as Hu.
  assert (Some x ∈ ths) as Hx by (apply list_elem_of_lookup; eauto).
  split; try apply C.
  - by eapply uniq_set.
  - intros th [[= <-]|Hth]%elem_of_insert_slot; [rewrite Htask|]; by apply C.
  - intros th tk [[= <-]|Hth]%elem_of_insert_slot; [|by apply C].
    rewrite Htask. intros Hg Hex. apply Hdead. by eapply (core_exited _ _ _ _ C).
  - intros k Hk. unfold schedulable. rewrite (slot_get_set _ _ _ _ _ _ Hu Hi Hid).
    case_decide as Heq; [|by apply C]. subst k. eauto.
Qed.

Lemma core_task_insert i x :
  free_slot tks = Some i → slot_get Task.id x.(Task.id) tks = None →
  x.(Task.state) ≠ TaskState.Created →
  core (<[i:=Some x]> tks) ths q cur.
Proof.
  intros Hi Hx Hadm. split; try apply C.
  - apply uniq_insert; [apply C|done|done].
  - intros th Hth. rewrite (slot_get_insert _ _ _ _ _ Hi Hx). case_decide; [done|].
    by apply C.
  - intros th tk Hth. rewrite (slot_get_insert _ _ _ _ _ Hi Hx). case_decide as Heq.
    + destruct (core_owner _ _ _ _ C th Hth) as [tk' Htk']. congruence.
    + by apply C.
  - intros tk [[= <-]|Htk]%elem_of_insert_slot; [done|by apply C].
Qed.

Lemma core_thread_insert i x tk :
  free_slot ths = Some i → slot_get Thread.id x.(Thread.id) ths = None →
  slot_get Task.id x.(Thread.task) tks = Some tk → tk.(Task.state) ≠ TaskState.Exited →
  core tks (<[i:=Some x]> ths) q cur.
Proof.
  intros Hi Hx Htk Hst. split; try apply C.
  - apply uniq_insert; [apply C|done|done].
  - intros th [[= <-]|Hth]%elem_of_insert_slot; [eauto|by apply C].
  - intros th tk' [[= <-]|Hth]%elem_of_insert_slot; [|by apply C]. congruence.
  - intros k Hk. destruct (core_referenced _ _ _ _ C k Hk) as (th & Hth & Hm).
    exists th. rewrite (slot_get_insert _ _ _ _ _ Hi Hx).
    rewrite decide_False; [done|]. intros <-. congruence.
Qed.

Lemma core_refs q' cur' :
  (∀ k, referenced q' cur' k → schedulable ths k) → core tks ths q' cur'.
Proof. intros H. split; try apply C. done. Qed.

Lemma core_unschedule th :
  core tks ths (clear_where (λ e, bool_decide (e.(Sched.thread) = th)) q)
    (if decide (cur = Some th) then None else cur).
Proof.
  apply core_refs. intros k [(r & [Hr _]%elem_of_clear & <-)|Hc].
  - apply C. left. eauto.
  - apply C. right. by case_decide.
Qed.

(** Drop a dead thread: nothing refers to it. *)
Lemma core_thread_clear i x :
  ths !! i = Some (Some x) → x.(Thread.state) = ThreadState.Dead →
  core tks (<[i:=None]> ths) q cur.
Proof.
  intros Hi Hd. pose proof (core_threads _ _ _ _ C) as Hu.
  assert (slot_get Thread.id x.(Thread.id) ths = Some x) as Hx.
  { apply uniq_elem; [done|]. apply list_elem_of_lookup. eauto. }
  split; try apply C.
  - by eapply uniq_clear_one.
  - intros th [?|Hth]%elem_of_insert_slot; [done|by apply C].
  - intros th tk [?|Hth]%elem_of_insert_slot; [done|by apply C].
  - intros k Hk. destruct (core_referenced _ _ _ _ C k Hk) as (th & Hth & Hm).
    exists th. rewrite (slot_get_clear_one _ _ _ _ _ Hu Hi).
    case_decide; [|done]. subst k. rewrite Hx in Hth. injection Hth as ->.
    by rewrite Hd in Hm.
Qed.

(** Drop a task that owns no thread. *)
Lemma core_task_clear i x :
  tks !! i = Some (Some x) → (∀ th, Some th ∈ ths → th.(Thread.task) ≠ x.(Task.id)) →
  core (<[i:=None]> tks) ths q cur.
Proof.
  intros Hi Hno. pose proof (core_tasks _ _ _ _ C) as Hu. split; try apply C.
  - by eapply uniq_clear_one.
  - intros th Hth. rewrite (slot_get_clear_one _ _ _ _ _ Hu Hi).
    rewrite decide_False by (intros Heq; by apply (Hno th)). by apply C.
  - intros th tk Hth. rewrite (slot_get_clear_one _ _ _ _ _ Hu Hi).
    rewrite decide_False by (intros Heq; by apply (Hno th)). by apply C.
  - intros tk [?|Htk]%elem_of_insert_slot; [done|by apply C].
Qed.
End core_lemmas.

(** ** Building blocks keep the invariant *)
Lemma at_emit tks ev s : InvAt tks s → InvAt tks (emit ev s).
Proof.
  intros [Hc Hq [xs He]]. pose proof (emit_frame ev s) as (_ & Hh & Hr & Hu & _).
  split; [by rewrite Hh, Hr, Hu|by rewrite Hr|].
  destruct (emit_log ev s xs He) as [? _]. eauto.
Qed.

Lemma inv_emit ev s : Inv s → Inv (emit ev s).
Proof.
  intros Hs. unfold Inv. pose proof (emit_frame ev s) as (-> & _). by apply at_emit.
Qed.

Lemma at_set_stats tks v s : InvAt tks s → InvAt tks (set_stats v s).
Proof. intros [Hc Hq He]. by destruct s. Qed.
Lemma at_set_threads tks v s :
  InvAt tks s → core tks v s.(run_queue).(RunQueue.queue) s.(current) →
  InvAt tks (set_threads v s).
Proof. intros [Hc Hq He] ?. by destruct s. Qed.

Lemma inv_set_stats v s : Inv s → Inv (set_stats v s).
Proof. intros [Hc Hq He]. by destruct s. Qed.
Lemma inv_set_now v s : Inv s → Inv (set_now v s).
Proof. intros [Hc Hq He]. by destruct s. Qed.
Lemma inv_set_need_resched v s : Inv s → Inv (set_need_resched v s).
Proof. intros [Hc Hq He]. by destruct s. Qed.

Lemma inv_set_tasks v s :
  Inv s → core v s.(threads) s.(run_queue).(RunQueue.queue) s.(current) → Inv (set_tasks v s).
Proof. intros [Hc Hq He] ?. by destruct s. Qed.
Lemma inv_set_threads v s :
  Inv s → core s.(tasks) v s.(run_queue).(RunQueue.queue) s.(current) → Inv (set_threads v s).
Proof. intros [Hc Hq He] ?. by destruct s. Qed.

Lemma keeps_with_stats f : keeps Inv (with_stats f).
Proof. apply keeps_modify. intros. by apply inv_set_stats. Qed.
Lemma keeps_emit_task k i : keeps Inv (emit_task k i).
Proof. apply keeps_modify. intros. by apply inv_emit. Qed.
Lemma keeps_emit_thread k i j : keeps Inv (emit_thread k i j).
Proof. apply keeps_modify. intros. by apply inv_emit. Qed.
Lemma keeps_ensure : keeps Inv ensure_run_queue_capacity.
Proof. intros s Hs. unfold ensure_run_queue_capacity. by case_decide. Qed.
Lemma keeps_thread k : keeps Inv (thread k).
Proof. intros s Hs. unfold thread. by destruct (find_thread_index k s). Qed.

Lemma task_mut_spec {A} task (m : M Task.t MtssError.t A) s :
  match get_task task s with
  | None => task_mut task m s = (Err MtssError.InvalidTask, s)
  | Some x => ∃ i, find_task_index task s = Some i ∧ s.(tasks) !! i = Some (Some x) ∧
      task_mut task m s = ((m x).1, set_tasks (<[i:=Some (m x).2]> s.(tasks)) s)
  end.
Proof.
  unfold task_mut, find_task_index, slot_get.
  pose proof (find_slot_find (has_key Task.id task) s.(tasks)) as H.
  destruct (find_slot _ _) as [i|].
  - destruct H as (x & Hi & ->). exists i. rewrite Hi. by destruct (m x).
  - by rewrite H.
Qed.

Lemma thread_mut_spec {A} th (m : M Thread.t MtssError.t A) s :
  match get_thread th s with
  | None => thread_mut th m s = (Err MtssError.InvalidThread, s)
  | Some x => ∃ i, find_thread_index th s = Some i ∧ s.(threads) !! i = Some (Some x) ∧
      thread_mut th m s = ((m x).1, set_threads (<[i:=Some (m x).2]> s.(threads)) s)
  end.
Proof.
  unfold thread_mut, find_thread_index, slot_get.
  pose proof (find_slot_find (has_key Thread.id th) s.(threads)) as H.
  destruct (find_slot _ _) as [i|].
  - destruct H as (x & Hi & ->). exists i. rewrite Hi. by destruct (m x).
  - by rewrite H.
Qed.

Lemma thread_spec th s :
  thread th s = (ok_or (get_thread th s) MtssError.InvalidThread, s).
Proof.
  unfold thread, find_thread_index, slot_get.
  pose proof (find_slot_find (has_key Thread.id th) s.(threads)) as H.
  destruct (find_slot _ _) as [i|].
  - destruct H as (x & Hi & ->). by rewrite Hi.
  - by rewrite H.
Qed.

(** Descriptor operations that change neither identity nor, for tasks, enter
    [Exited]; for threads, leave [Dead] or drop out of the schedulable states. *)
Definition step_safe (x y : Task.t) : Prop :=
  y.(Task.id) = x.(Task.id) ∧
  (y.(Task.state) = TaskState.Exited → x.(Task.state) = TaskState.Exited) ∧
  (y.(Task.state) = TaskState.Created → x.(Task.state) = TaskState.Created).

Definition task_safe {A} (m : M Task.t MtssError.t A) : Prop :=
  ∀ x, step_safe x (m x).2.

Definition thread_same {A} (m : M Thread.t MtssError.t A) : Prop :=
  ∀ x, (m x).2.(Thread.id) = x.(Thread.id) ∧ (m x).2.(Thread.task) = x.(Thread.task) ∧
       (x.(Thread.state) = ThreadState.Dead → (m x).2.(Thread.state) = ThreadState.Dead).

Definition thread_safe {A} (m : M Thread.t MtssError.t A) : Prop :=
  thread_same m ∧
  ∀ x, ThreadState.may_schedule x.(Thread.state) = true →
       ThreadState.may_schedule (m x).2.(Thread.state) = true.

(** Closed descriptor operations are checked state by state. *)
Ltac descriptor_cases :=
  let x := fresh "x" in
  let st := fresh "st" in
  intros x;
  lazymatch type of x with
  | Task.t => destruct x as [? ? ? st ? ? ?]
  | Thread.t => destruct x as [? ? st ? ? ?]
  end;
  destruct st; cbn; repeat split; solve [done | auto | intros; discriminate].

Ltac solve_safe :=
  match goal with
  | |- task_safe _ => unfold task_safe, step_safe; descriptor_cases
  | |- thread_same _ => unfold thread_same; descriptor_cases
  | |- thread_safe _ => split; [unfold thread_same|]; descriptor_cases
  end.

Lemma keeps_task_mut {A} task (m : M Task.t MtssError.t A) :
  task_safe m → keeps Inv (task_mut task m).
Proof.
  intros Hm s Hs. pose proof (task_mut_spec task m s) as H.
  destruct (get_task task s) as [x|].
  - destruct H as (i & _ & Hi & ->). destruct (Hm x) as (? & ? & Hcr).
    apply inv_set_tasks; [done|]. eapply core_task_set; [apply Hs|done|done|auto|].
    intros Hy. apply Hcr in Hy. eapply (core_admitted _ _ _ _ (inv_core _ _ Hs)); [|exact Hy].
    apply list_elem_of_lookup. eauto.
  - by rewrite H.
Qed.

Lemma keeps_with_task_mut task f :
  (∀ x, step_safe x (f x)) →
  keeps Inv (with_task_mut task f).
Proof. intros Hf. apply keeps_task_mut. intros x. apply Hf. Qed.

Lemma keeps_thread_mut {A} th (m : M Thread.t MtssError.t A) :
  thread_safe m → keeps Inv (thread_mut th m).
Proof.
  intros [Hm Hsch] s Hs. pose proof (thread_mut_spec th m s) as H.
  destruct (get_thread th s) as [x|] eqn:Hx.
  - destruct H as (i & _ & Hi & ->). destruct (Hm x) as (? & ? & ?).
    apply inv_set_threads; [done|]. eapply core_thread_set; [apply Hs|done..|].
    intros Hr. apply Hsch. apply (core_referenced _ _ _ _ (inv_core _ _ Hs)) in Hr as (y & Hy & ?).
    apply slot_get_key in Hx as Hk. congruence.
  - by rewrite H.
Qed.

#[export] Hint Resolve keeps_with_stats keeps_emit_task keeps_emit_thread keeps_ensure
  keeps_thread : keeps.

(** After unscheduling, nothing refers to the thread. *)
Definition unreferenced (k : ThreadId) (s : t) : Prop :=
  ¬ referenced s.(run_queue).(RunQueue.queue) s.(current) k.

Lemma unschedule_eq th s :
  unschedule_thread th s =
  set_current (if decide (s.(current) = Some th) then None else s.(current))
    (set_run_queue (RunQueue.remove_thread th s.(run_queue)).2 s).
Proof. destruct s; unfold unschedule_thread; cbn. by case_decide. Qed.

Lemma at_unschedule tks th s : InvAt tks s → InvAt tks (unschedule_thread th s).
Proof.
  intros [Hc Hq He]. rewrite unschedule_eq. unfold RunQueue.remove_thread.
  pose proof (RunQueue.remove_matching_wf
    (λ e : SRecord, bool_decide (e.(Sched.thread) = th)) _ Hq).
  pose proof (core_unschedule Hc th).
  destruct s; cbn in *. split; cbn; [|done|done].
  by rewrite RunQueue.remove_matching_eq.
Qed.

Lemma inv_unschedule th s : Inv s → Inv (unschedule_thread th s).
Proof.
  intros Hs. unfold Inv. replace (unschedule_thread th s).(tasks) with s.(tasks).
  - by apply at_unschedule.
  - rewrite unschedule_eq. by destruct s.
Qed.

Lemma unschedule_unreferenced th s : unreferenced th (unschedule_thread th s).
Proof.
  rewrite unschedule_eq. intros [(r & Hr & Heq)|Hc].
  - destruct s; cbn in Hr. apply RunQueue.remove_matching_elem in Hr as [_ Hr].
    by apply bool_decide_eq_false in Hr.
  - destruct s; cbn in Hc. by case_decide.
Qed.

Lemma unschedule_frame th s :
  (unschedule_thread th s).(tasks) = s.(tasks) ∧
  (unschedule_thread th s).(threads) = s.(threads).
Proof. rewrite unschedule_eq. by destruct s. Qed.

Lemma keeps_unschedule th : keeps Inv (modify (unschedule_thread th) : Op unit).
Proof. apply keeps_modify. intros. by apply inv_unschedule. Qed.
#[export] Hint Resolve keeps_unschedule : keeps.

(** Retiring an unscheduled thread. *)
Lemma triple_thread_retire {A} th (m : M Thread.t MtssError.t A) :
  thread_same m →
  triple (λ s, Inv s ∧ unreferenced th s) (thread_mut th m) (λ _, Inv) (λ _, Inv).
Proof.
  intros Hm s [Hs Hr]. pose proof (thread_mut_spec th m s) as H.
  assert (Inv (thread_mut th m s).2) as Hkeep.
  { destruct (get_thread th s) as [x|] eqn:Hx; [|by rewrite H].
    destruct H as (i & _ & Hi & ->). destruct (Hm x) as (? & ? & ?).
    apply inv_set_threads; [done|]. eapply core_thread_set; [apply Hs|done..|].
    intros Hr'. apply slot_get_key in Hx. by rewrite Hx in Hr'. }
  by destruct (thread_mut th m s) as [[a|e] s'].
Qed.

Lemma triple_retire {A B} th (m : M Thread.t MtssError.t A) (k : A → Op B) :
  thread_same m → (∀ a, keeps Inv (k a)) →
  keeps Inv (modify (unschedule_thread th) ;; a ← thread_mut th m; k a).
Proof.
  intros Hm Hk. apply keeps_triple. eapply triple_bind.
  { apply (triple_modify _ _ (λ _ s, Inv s ∧ unreferenced th s)). intros s Hs.
    split; [by apply inv_unschedule|apply unschedule_unreferenced]. }
  intros u. cbn. eapply triple_bind; [by apply triple_thread_retire|].
  intros a. by apply keeps_triple.
Qed.

(** Queueing a schedulable thread. *)
Lemma triple_enqueue r :
  triple (λ s, Inv s ∧ schedulable s.(threads) r.(Sched.thread))
    (run_queue_op (RunQueue.enqueue r)) (λ _, Inv) (λ _, Inv).
Proof.
  intros s [[Hc Hq He] Hr]. unfold run_queue_op.
  pose proof (RunQueue.enqueue_wf r _ Hq) as Hwf.
  pose proof (RunQueue.enqueue_elem s.(run_queue) r) as Hel.
  destruct (RunQueue.enqueue r s.(run_queue)) as [res q']; cbn in *.
  assert (Inv (set_run_queue q' s)).
  { destruct s; cbn in *. split; cbn; [|done|done].
    eapply core_refs; [done|]. intros k [(x & Hx & <-)|Hk].
    - destruct (Hel _ Hx) as [->|?]; [done|]. apply Hc. left. eauto.
    - apply Hc. by right. }
  by destruct res.
Qed.

(** A thread operation that succeeds only with a schedulable thread and returns
    its schedule record. *)
Lemma triple_record {B} th (m : M Thread.t MtssError.t (SRecord * B)) :
  thread_safe m →
  (∀ x r b, (m x).1 = Ok (r, b) →
     r.(Sched.thread) = x.(Thread.id) ∧
     ThreadState.may_schedule (m x).2.(Thread.state) = true) →
  triple Inv (thread_mut th m)
    (λ rt s, Inv s ∧ schedulable s.(threads) rt.1.(Sched.thread)) (λ _, Inv).
Proof.
  intros Hsafe Hrec s Hs. pose proof (keeps_thread_mut th m Hsafe s Hs) as Hk.
  pose proof (thread_mut_spec th m s) as H.
  destruct (get_thread th s) as [x|] eqn:Hx; [|by rewrite H].
  destruct H as (i & _ & Hi & Heq). rewrite Heq in *. cbn in *.
  destruct (m x) as [[[r b]|e] x'] eqn:Hm; cbn in *; [|done].
  split; [done|]. specialize (Hrec x r b). rewrite Hm in Hrec.
  destruct (Hrec eq_refl) as [Hid Hst]. exists x'. split; [|done].
  assert (x'.(Thread.id) = x.(Thread.id)) as Hx'.
  { destruct Hsafe as [Hsame _]. destruct (Hsame x) as (Hid' & _). by rewrite Hm in Hid'. }
  pose proof (core_threads _ _ _ _ (inv_core _ _ Hs)) as Hu.
  destruct s; cbn in *. rewrite (slot_get_set _ _ _ _ _ _ Hu Hi Hx').
  by rewrite decide_True by congruence.
Qed.

Ltac record_cases :=
  let x := fresh "x" in
  let st := fresh "st" in
  intros x; destruct x as [? ? st ? ? ?]; destruct st;
  cbv [Thread.mark_ready Thread.mark_running Thread.transition]; run_monad; intros;
  repeat case_decide; simplify_eq/=; split; done.

Lemma keeps_enqueue_thread th : keeps Inv (enqueue_thread th).
Proof.
  unfold enqueue_thread. apply keeps_bind; [apply keeps_ensure|intros _].
  apply keeps_triple. eapply triple_bind.
  { apply triple_record; [solve_safe|record_cases]. }
  intros rt. eapply triple_bind; [apply triple_enqueue|].
  intros u. apply keeps_triple. auto with keeps.
Qed.

Lemma keeps_ready_current th reason : keeps Inv (ready_current_for_requeue th reason).
Proof.
  unfold ready_current_for_requeue. apply keeps_bind; [apply keeps_ensure|intros _].
  apply keeps_bind; [apply keeps_gets|intros ts]. apply keeps_triple. eapply triple_bind.
  { apply triple_record; [solve_safe|record_cases]. }
  intros rt. eapply triple_bind; [apply triple_enqueue|].
  intros u. apply keeps_triple. auto with keeps.
Qed.

(** Dispatching: the thread is marked running before it becomes current. *)
Lemma triple_mark_running th ts :
  triple Inv
    (thread_mut th (Thread.mark_running ;; modify (Thread.reset_timeslice ts) ;;
                    gets Thread.task))
    (λ _ s, Inv s ∧ schedulable s.(threads) th) (λ _, Inv).
Proof.
  intros s Hs. set (m := Thread.mark_running ;; _).
  assert (thread_safe m) as Hsafe by (subst m; solve_safe).
  pose proof (keeps_thread_mut th m Hsafe s Hs) as Hk.
  pose proof (thread_mut_spec th m s) as H.
  destruct (get_thread th s) as [x|] eqn:Hx; [|by rewrite H].
  destruct H as (i & _ & Hi & Heq). rewrite Heq in *. cbn [fst snd] in *.
  destruct (m x) as [[tk|e] x'] eqn:Hm; cbn in *; [|done].
  split; [done|]. exists x'.
  assert (x'.(Thread.id) = x.(Thread.id) ∧
          ThreadState.may_schedule x'.(Thread.state) = true) as [Hid Hst].
  { subst m. destruct x as [? ? st ? ? ?]; destruct st; vm_compute in Hm; by simplify_eq. }
  split; [|done]. pose proof (core_threads _ _ _ _ (inv_core _ _ Hs)) as Hu.
  apply slot_get_key in Hx.
  destruct s; cbn in *. rewrite (slot_get_set _ _ _ _ _ _ Hu Hi Hid).
  by rewrite decide_True.
Qed.

Lemma triple_with_task_mut_frame task f th :
  (∀ x, step_safe x (f x)) →
  triple (λ s, Inv s ∧ schedulable s.(threads) th) (with_task_mut task f)
    (λ _ s, Inv s ∧ schedulable s.(threads) th) (λ _, Inv).
Proof.
  intros Hf s [Hs Hth]. pose proof (keeps_with_task_mut task f Hf s Hs) as Hk.
  unfold with_task_mut in *. pose proof (task_mut_spec task (modify f) s) as H.
  destruct (get_task task s) as [x|].
  - destruct H as (i & _ & _ & Heq). rewrite Heq in *. cbn in *. split; [done|].
    by destruct s.
  - by rewrite H.
Qed.

Lemma inv_set_current th s :
  Inv s → schedulable s.(threads) th → Inv (set_current (Some th) s).
Proof.
  intros [Hc Hq He] Hth. destruct s; cbn in *. split; cbn; [|done|done].
  eapply core_refs; [done|]. intros k [Hk|[= <-]]; [|done]. apply Hc. by left.
Qed.

Lemma keeps_dispatch th reason : keeps Inv (dispatch th reason).
Proof.
  unfold dispatch. apply keeps_bind; [apply keeps_gets|intros prev].
  apply keeps_bind; [apply keeps_gets|intros ts]. apply keeps_triple.
  eapply triple_bind; [apply triple_mark_running|intros task].
  eapply triple_bind; [apply triple_with_task_mut_frame|intros u].
  { intros [? ? ? st ? ? ?]. destruct st; cbn; split_and!; done. }
  eapply triple_bind.
  { apply (triple_modify _ _ (λ _, Inv)). intros s [Hs Hth]. by apply inv_set_current. }
  intros u'. apply keeps_triple. auto 6 with keeps.
Qed.

Lemma inv_next s r q :
  Inv s → RunQueue.next s.(run_queue) = (r, q) → Inv (set_run_queue q s).
Proof.
  intros [Hc Hq He] Hn. pose proof (RunQueue.next_wf _ Hq) as Hwf.
  pose proof (RunQueue.next_rest s.(run_queue)) as Hrest. rewrite Hn in *. cbn in *.
  destruct s; cbn in *. split; cbn; [|done|done].
  eapply core_refs; [done|]. intros k [(x & Hx & <-)|Hk].
  - apply Hc. left. eauto.
  - apply Hc. by right.
Qed.

Lemma keeps_pick_next : keeps Inv pick_next.
Proof.
  unfold pick_next. apply keeps_bind.
  - intros s Hs. unfold run_queue_op. destruct (RunQueue.next s.(run_queue)) as [r q] eqn:Hn.
    by eapply inv_next.
  - intros [r|]; [|apply keeps_ret]. apply keeps_bind; [apply keeps_dispatch|].
    intros. apply keeps_ret.
Qed.

#[export] Hint Resolve keeps_enqueue_thread keeps_ready_current keeps_dispatch
  keeps_pick_next : keeps.

Lemma keeps_yield_current : keeps Inv yield_current.
Proof.
  unfold yield_current. apply keeps_bind; [apply keeps_gets|].
  intros [cur|]; auto with keeps.
Qed.

Lemma keeps_reschedule : keeps Inv reschedule_if_needed.
Proof.
  unfold reschedule_if_needed. apply keeps_bind; [apply keeps_gets|].
  intros [|]; cbn; [|apply keeps_ret]. apply keeps_bind; [|intros; apply keeps_yield_current].
  apply keeps_modify. intros. by apply inv_set_need_resched.
Qed.
#[export] Hint Resolve keeps_yield_current keeps_reschedule : keeps.

Lemma keeps_timer_tick b : keeps Inv (on_timer_tick_with_preemption_disabled b).
Proof.
  unfold on_timer_tick_with_preemption_disabled. apply keeps_bind.
  { apply keeps_modify. intros. by apply inv_set_now. }
  intros _. apply keeps_bind; [apply keeps_gets|]. intros [cur|]; [|apply keeps_ret].
  apply keeps_bind; [apply keeps_thread_mut; solve_safe|]. intros expired.
  apply keeps_bind.
  { unfold with_task_mut_for_thread. apply keeps_bind; [apply keeps_thread|].
    intros x. by apply keeps_with_task_mut. }
  intros _. destruct expired; cbn; [|apply keeps_ret]. apply keeps_bind.
  { apply keeps_modify. intros. by apply inv_set_need_resched. }
  intros _. apply keeps_bind; [apply keeps_with_stats|intros _].
  apply keeps_bind; [apply keeps_thread|intros x].
  apply keeps_bind; [apply keeps_emit_thread|intros _].
  destruct b; auto with keeps.
Qed.

Lemma keeps_requeue_current : keeps Inv requeue_current.
Proof.
  unfold requeue_current. apply keeps_bind; [apply keeps_gets|intros cur].
  apply keeps_bind.
  - apply keeps_modify. intros s [Hc Hq He]. destruct s; cbn in *. split; cbn; [|done|done].
    eapply core_refs; [done|]. intros k [Hk|?]; [|done]. apply Hc. by left.
  - intros _. destruct cur; auto with keeps.
Qed.

(** ** Admission *)
Lemma keeps_create_task id parent asp prio : keeps Inv (create_task id parent asp prio).
Proof.
  intros s Hs. unfold create_task. run_monad.
  destruct (find_task_index id s) as [i|] eqn:Hf; [done|].
  apply find_slot_None in Hf. unfold free_task_slot.
  destruct (free_slot s.(tasks)) as [j|] eqn:Hj; cbn; [|done].
  apply inv_emit, inv_set_stats, inv_set_tasks; [done|].
  apply core_task_insert; [apply Hs|done..].
Qed.

Lemma keeps_create_thread task th prio : keeps Inv (create_thread task th prio).
Proof.
  unfold create_thread. intros s Hs.
  destruct (find_thread_index th s) as [i|] eqn:Hf; run_monad; rewrite Hf; [done|].
  apply find_slot_None in Hf. unfold find_task_index.
  pose proof (find_slot_find (has_key Task.id task) s.(tasks)) as Ht.
  destruct (find_slot (has_key Task.id task) s.(tasks)) as [i|]; cbn; [|done].
  destruct Ht as (x & Hi & Hx). rewrite Hi; cbn.
  destruct (TaskState.may_schedule x.(Task.state)) eqn:Hm; cbn; [|done].
  unfold free_thread_slot. destruct (free_slot s.(threads)) as [j|] eqn:Hj; cbn; [|done].
  set (s1 := set_threads _ s).
  assert (Inv s1) as Hs1.
  { apply inv_set_threads; [done|]. eapply core_thread_insert; [apply Hs|done|done|done|].
    intros Heq. by rewrite Heq in Hm. }
  pose proof (keeps_with_task_mut task Task.increment_thread_count ltac:(done) s1 Hs1) as Hs2.
  destruct (with_task_mut task Task.increment_thread_count s1) as [[u|e] s2]; cbn in *;
    [by apply inv_emit|done].
Qed.

(** ** Task state *)
Lemma keeps_mark_task_running task : keeps Inv (mark_task_running task).
Proof. apply keeps_task_mut. solve_safe. Qed.

Lemma keeps_mark_task_ready task : keeps Inv (mark_task_ready task).
Proof. apply keeps_task_mut. solve_safe. Qed.

Lemma keeps_block_task task : keeps Inv (block_task task).
Proof.
  apply keeps_bind; [apply keeps_task_mut; solve_safe|]. intros [|]; auto with keeps.
Qed.

Lemma keeps_refresh task : keeps Inv (refresh_task_wait_state task TaskState.Blocked).
Proof.
  unfold refresh_task_wait_state. apply keeps_bind; [apply keeps_gets|intros has].
  apply keeps_bind; [apply keeps_task_mut; destruct has; solve_safe|].
  intros went. destruct (went && _); auto with keeps.
Qed.

Lemma keeps_wake_task_if_waiting task : keeps Inv (wake_task_if_waiting task).
Proof. apply keeps_task_mut. solve_safe. Qed.
#[export] Hint Resolve keeps_refresh keeps_wake_task_if_waiting : keeps.

(** ** Blocking, sleeping, waking *)
Lemma keeps_block_thread th : keeps Inv (block_thread th).
Proof.
  unfold block_thread. apply keeps_bind; [apply keeps_thread|intros x].
  apply keeps_bind; [apply keeps_lift|intros _].
  apply triple_retire; [solve_safe|]. intros task. auto with keeps.
Qed.

Lemma keeps_sleep_thread th : keeps Inv (sleep_thread th).
Proof.
  unfold sleep_thread. apply keeps_bind; [apply keeps_thread|intros x].
  apply keeps_bind; [apply keeps_lift|intros _].
  apply triple_retire; [solve_safe|]. intros task. auto with keeps.
Qed.

Lemma keeps_wake_thread th : keeps Inv (wake_thread th).
Proof.
  unfold wake_thread. apply keeps_bind; [apply keeps_ensure|intros _].
  apply keeps_bind; [apply keeps_thread_mut; solve_safe|]. intros task. auto with keeps.
Qed.

Lemma keeps_exit_thread th : keeps Inv (exit_thread th).
Proof.
  apply triple_retire; [solve_safe|]. intros task.
  apply keeps_bind; [by apply keeps_with_task_mut|]. auto with keeps.
Qed.

Lemma keeps_contain_task task : keeps Inv (contain_task task).
Proof.
  unfold contain_task. apply keeps_bind; [apply keeps_task_mut; solve_safe|intros _].
  apply keeps_bind; [apply keeps_emit_task|intros _].
  apply keeps_bind; [apply keeps_task_mut; solve_safe|intros _].
  apply keeps_bind; [apply keeps_gets|intros n].
  apply keeps_bind; [|auto with keeps]. apply keeps_mfor. intros i. unfold contain_slot.
  apply keeps_bind; [apply keeps_gets|]. intros [x|]; [case_decide|]; auto with keeps.
Qed.

Lemma inv_drain_event s : Inv s → Inv (drain_event s).2.
Proof.
  intros [Hc Hq [xs (Hf & Hl & Hh)]]. unfold drain_event. case_decide as Hn; cbn.
  { split; eauto. by exists xs. }
  destruct s as [? ? ? ? ? ? ? ? evs hd n dr]; cbn in *. split; cbn; [done|done|].
  destruct xs as [|x xs]; [done|].
  assert (hd < length evs).
  { apply fifo_length in Hf. cbn in Hf. destruct Hh; lia. }
  exists xs. split_and!; cbn; rewrite ?length_insert.
  - by apply fifo_pop with x.
  - cbn in Hl. lia.
  - left. apply Nat.mod_upper_bound. lia.
Qed.

(** ** Termination

    While the loop of [terminate_task] runs, the task is already [Exited] but
    the threads at the indices still to visit may be alive: the invariant is
    read against the task table [tks0] from before the call. *)
Record terminating (task : TaskId) (tks0 tks1 : list (option Task.t)) (others : Thread.t → Prop)
    (l : list nat) (s : t) : Prop := {
  term_tasks : s.(tasks) = tks1;
  term_inv : InvAt tks0 s;
  term_dead : ∀ i th, s.(threads) !! i = Some (Some th) → th.(Thread.task) = task →
    i ∈ l ∨ th.(Thread.state) = ThreadState.Dead;
  term_others : ∀ th, th.(Thread.task) ≠ task → Some th ∈ s.(threads) ↔ others th
}.

(** What one iteration does to a matching slot. *)
Definition kill_slot (task : TaskId) (i : nat) (th : Thread.t) (s : t) : t :=
  let s1 := unschedule_thread th.(Thread.id) s in
  emit (MtssEvent.thread MtssEventKind.ThreadExited task th.(Thread.id)
          (Some s1.(config).(MtssConfig.cpu)) s1.(now))
    (set_stats (MtssStats.with_completion s1.(stats))
       (set_threads (<[i:=Some (Thread.set_state ThreadState.Dead th)]> s1.(threads)) s1)).

Lemma terminate_slot_eq task i s :
  terminate_slot task i s =
    (Ok tt, match mjoin (s.(threads) !! i) with
            | Some th => if decide (th.(Thread.task) = task) then kill_slot task i th s else s
            | None => s
            end).
Proof.
  unfold terminate_slot, mbind, M_bind, gets at 1.
  destruct (mjoin (s.(threads) !! i)) as [th|]; [|done].
  case_decide as Htask; [|done].
  assert (Thread.terminate th = (Ok th.(Thread.state), Thread.set_state ThreadState.Dead th))
    as -> by (by destruct th as [? ? st ? ? ?]; destruct st).
  unfold kill_slot. cbn. by destruct (unschedule_thread th.(Thread.id) s).
Qed.

Lemma kill_slot_frame task i th s :
  (kill_slot task i th s).(tasks) = s.(tasks) ∧
  (kill_slot task i th s).(threads) =
    <[i:=Some (Thread.set_state ThreadState.Dead th)]> s.(threads).
Proof.
  unfold kill_slot. cbv zeta. set (s1 := unschedule_thread _ s).
  pose proof (unschedule_frame th.(Thread.id) s) as [H1 H2]. fold s1 in H1, H2.
  match goal with |- context [emit ?ev ?x] =>
    pose proof (emit_frame ev x) as (-> & -> & _) end.
  destruct s1; cbn in *. by subst.
Qed.

Lemma kill_slot_inv tks task i th s :
  InvAt tks s → s.(threads) !! i = Some (Some th) → InvAt tks (kill_slot task i th s).
Proof.
  intros Hs Hi. apply at_emit, at_set_stats.
  apply (at_unschedule _ th.(Thread.id)) in Hs.
  apply at_set_threads; [done|].
  apply (core_thread_set (inv_core _ _ Hs) i th); [|done..|].
  - pose proof (unschedule_frame th.(Thread.id) s) as [_ ->]. exact Hi.
  - intros Hr. by destruct (unschedule_unreferenced th.(Thread.id) s).
Qed.

Lemma triple_terminate_slot task tks0 tks1 others i l :
  triple (terminating task tks0 tks1 others (i :: l)) (terminate_slot task i)
    (λ _, terminating task tks0 tks1 others l) (λ _ _, False).
Proof.
  intros s [Ht Hi Hd Ho]. rewrite terminate_slot_eq; cbn [outcome].
  assert (∀ th, s.(threads) !! i = Some (Some th) → th.(Thread.task) ≠ task →
    terminating task tks0 tks1 others l s) as Hskip.
  { intros th Hth Hne. split; [done|done| |done]. intros j y Hj Hy.
    destruct (Hd j y Hj Hy) as [[->|]%elem_of_cons|]; [congruence|auto..]. }
  destruct (s.(threads) !! i) as [[th|]|] eqn:Hth; cbn.
  2,3: split; [done|done| |done]; intros j y Hj Hy;
    destruct (Hd j y Hj Hy) as [[->|]%elem_of_cons|]; [congruence|auto..].
  case_decide as Htask; [|by apply (Hskip th)].
  pose proof (kill_slot_frame task i th s) as [Hk1 Hk2]. split.
  - by rewrite Hk1.
  - by apply kill_slot_inv.
  - intros j y. rewrite Hk2, list_lookup_insert_Some.
    intros [(-> & [= <-] & _)|(Hne & Hj)] Hy; [by right|].
    destruct (Hd j y Hj Hy) as [[->|]%elem_of_cons|]; [done|auto..].
  - intros y Hy. rewrite <-(Ho y Hy), Hk2. split.
    + by intros [[= <-]|]%elem_of_insert_slot.
    + intros. apply elem_of_insert_slot_old; [done|]. congruence.
Qed.

(** The loop leaves every thread of the task dead and restores the invariant. *)
Lemma terminate_loop task s i x :
  Inv s → s.(tasks) !! i = Some (Some x) → x.(Task.id) = task →
  let y := Task.set_state TaskState.Exited x in
  let s1 := set_tasks (<[i:=Some y]> s.(tasks)) s in
  ∃ s2, mfor (seq 0 (length s1.(threads))) (terminate_slot task) s1 = (Ok tt, s2) ∧
    Inv s2 ∧ s2.(tasks) = <[i:=Some y]> s.(tasks) ∧
    (∀ th, Some th ∈ s2.(threads) → th.(Thread.task) = task →
           th.(Thread.state) = ThreadState.Dead) ∧
    (∀ th, th.(Thread.task) ≠ task → Some th ∈ s2.(threads) ↔ Some th ∈ s.(threads)).
Proof.
  intros Hs Hi Hx y s1.
  assert (s1.(threads) = s.(threads)) as Hth1 by (by destruct s).
  assert (terminating task s.(tasks) (<[i:=Some y]> s.(tasks)) (λ th, Some th ∈ s.(threads))
            (seq 0 (length s1.(threads))) s1) as Hinit.
  { split; [by destruct s|by destruct s, Hs|intros j th Hj _|by rewrite Hth1].
    left. apply elem_of_seq. apply lookup_lt_Some in Hj. lia. }
  pose proof (triple_mfor _ (terminate_slot task) _ (seq 0 (length s1.(threads)))
    (triple_terminate_slot task s.(tasks) (<[i:=Some y]> s.(tasks))
       (λ th, Some th ∈ s.(threads)))) as Hloop.
  specialize (Hloop s1 Hinit).
  destruct (mfor _ _ s1) as [[[]|e] s2]; [|done]. destruct Hloop as [Ht Hat Hd Ho].
  assert (∀ th, Some th ∈ s2.(threads) → th.(Thread.task) = task →
    th.(Thread.state) = ThreadState.Dead) as Hdead.
  { intros th [j Hj]%list_elem_of_lookup Htask.
    destruct (Hd j th Hj Htask) as [Hin|]; [|done]. by apply not_elem_of_nil in Hin. }
  exists s2. split_and!; [done| |done|done|done].
  destruct Hat as [Hc Hq He]. split; [|done|done]. rewrite Ht.
  eapply core_task_set; [exact Hc|exact Hi|done| |done]. intros _. right. by rewrite Hx.
Qed.

Lemma terminate_task_spec task s x :
  Inv s → get_task task s = Some x →
  ∃ s', terminate_task task s = (Ok tt, s') ∧ Inv s' ∧
    get_task task s' = Some (Task.set_state TaskState.Exited x) ∧
    (∀ k, k ≠ task → get_task k s' = get_task k s) ∧
    (∀ th, Some th ∈ s'.(threads) → th.(Thread.task) = task →
           th.(Thread.state) = ThreadState.Dead) ∧
    (∀ th, th.(Thread.task) ≠ task → Some th ∈ s'.(threads) ↔ Some th ∈ s.(threads)).
Proof.
  intros Hs Hx. pose proof (slot_get_key _ _ _ _ Hx) as Hk.
  pose proof (task_mut_spec task Task.terminate s) as Hm. rewrite Hx in Hm.
  destruct Hm as (i & _ & Hi & Hm).
  assert (Task.terminate x = (Ok x.(Task.state), Task.set_state TaskState.Exited x)) as Hterm
    by (by destruct x as [? ? ? st ? ? ?]; destruct st).
  rewrite Hterm in Hm; cbn [fst snd] in Hm.
  destruct (terminate_loop task s i x Hs Hi Hk) as (s2 & Hl & Hs2 & Ht & Hd & Ho).
  set (s1 := set_tasks _ s) in *.
  assert (∃ s3, (if decide (x.(Task.state) = TaskState.Exited) then mret tt
                 else with_stats MtssStats.with_task_completion) s2 = (Ok tt, s3) ∧ Inv s3 ∧
               s3.(tasks) = s2.(tasks) ∧ s3.(threads) = s2.(threads))
    as (s3 & Hst3 & Hs3 & Ht3 & Hth3).
  { case_decide; [by exists s2|]. eexists. split; [done|].
    split; [by apply inv_set_stats|]. by destruct s2. }
  pose proof (emit_frame (MtssEvent.task MtssEventKind.TaskTerminated task s3.(now)) s3)
    as (He1 & He2 & _).
  eexists. split.
  { unfold terminate_task, mbind, M_bind, gets. rewrite Hm, Hl, Hst3. reflexivity. }
  split; [by apply inv_emit|]. rewrite He1, He2, Ht3, Hth3, Ht.
  pose proof (core_tasks _ _ _ _ (inv_core _ _ Hs)) as Hu. split_and!; [| |done|done].
  - rewrite (slot_get_set _ _ _ _ _ _ Hu Hi) by done. by rewrite decide_True.
  - intros k Hne. rewrite (slot_get_set _ _ _ _ _ _ Hu Hi) by done.
    by rewrite decide_False by congruence.
Qed.

Lemma keeps_terminate_task task : keeps Inv (terminate_task task).
Proof.
  intros s Hs. destruct (get_task task s) as [x|] eqn:Hx.
  - by destruct (terminate_task_spec task s x Hs Hx) as (s' & -> & ? & _).
  - unfold terminate_task, mbind at 1, M_bind at 1.
    pose proof (task_mut_spec task Task.terminate s) as Hm. rewrite Hx in Hm. by rewrite Hm.
Qed.

(** ** Reaping *)
Lemma reap_check_loop task l s :
  (∀ th, Some th ∈ s.(threads) → th.(Thread.task) = task →
         th.(Thread.state) = ThreadState.Dead) →
  mfor l (reap_check_slot task) s = (Ok tt, s).
Proof.
  intros Hd. induction l as [|i l IH]; cbn; [done|]. unfold mbind, M_bind.
  assert (reap_check_slot task i s = (Ok tt, s)) as ->; [|done].
  unfold reap_check_slot, mbind, M_bind, gets.
  destruct (s.(threads) !! i) as [[th|]|] eqn:Hi; cbn; [|done|done].
  case_decide as Hc; [|done]. destruct Hc as [Htask Hc]. destruct Hc. apply Hd; [|done].
  apply list_elem_of_lookup. eauto.
Qed.

Record reaping (task : TaskId) (tks : list (option Task.t)) (others : Thread.t → Prop)
    (l : list nat) (s : t) : Prop := {
  reap_tasks : s.(tasks) = tks;
  reap_inv : Inv s;
  reap_left : ∀ i th, s.(threads) !! i = Some (Some th) → th.(Thread.task) = task → i ∈ l;
  reap_others : ∀ th, th.(Thread.task) ≠ task → Some th ∈ s.(threads) ↔ others th
}.

Lemma triple_reap_clear task tks others x i l :
  slot_get Task.id task tks = Some x → x.(Task.state) = TaskState.Exited →
  triple (reaping task tks others (i :: l)) (reap_clear_slot task i)
    (λ _, reaping task tks others l) (λ _ _, False).
Proof.
  intros Hx Hex s [Ht Hs Hl Ho]. unfold reap_clear_slot, mbind, M_bind, gets.
  destruct (s.(threads) !! i) as [[th|]|] eqn:Hi; cbn.
  2,3: split; [done|done| |done]; intros j y Hj Hy;
    pose proof (Hl j y Hj Hy) as [|]%elem_of_cons; congruence.
  case_decide as Htask; cbn.
  - assert (Some th ∈ s.(threads)) as Hin by (apply list_elem_of_lookup; eauto).
    split.
    + by destruct s.
    + apply inv_set_threads; [done|]. eapply core_thread_clear; [apply Hs|exact Hi|].
      eapply (core_exited _ _ _ _ (inv_core _ _ Hs)); [done| |exact Hex].
      by rewrite Htask, Ht.
    + intros j y Hj Hy. replace (set_threads _ s).(threads) with (<[i:=None]> s.(threads)) in Hj
        by (by destruct s).
      apply list_lookup_insert_Some in Hj as [(-> & ? & _)|(Hne & Hj)]; [done|].
      pose proof (Hl j y Hj Hy) as [|]%elem_of_cons; congruence.
    + intros y Hy. rewrite <-(Ho y Hy).
      replace (set_threads _ s).(threads) with (<[i:=None]> s.(threads)) by (by destruct s).
      split; [by intros [|]%elem_of_insert_slot|]. intros. apply elem_of_insert_slot_old; [done|].
      congruence.
  - split; [done|done| |done]. intros j y Hj Hy.
    pose proof (Hl j y Hj Hy) as [|]%elem_of_cons; congruence.
Qed.

Lemma reap_clear_loop task s x :
  Inv s → get_task task s = Some x → x.(Task.state) = TaskState.Exited →
  ∃ s', mfor (seq 0 (length s.(threads))) (reap_clear_slot task) s = (Ok tt, s') ∧
    Inv s' ∧ s'.(tasks) = s.(tasks) ∧
    (∀ th, Some th ∈ s'.(threads) ↔ th.(Thread.task) ≠ task ∧ Some th ∈ s.(threads)).
Proof.
  intros Hs Hx Hex.
  pose proof (triple_mfor _ (reap_clear_slot task) _ (seq 0 (length s.(threads)))
    (λ i l, triple_reap_clear task s.(tasks) (λ th, Some th ∈ s.(threads)) x i l Hx Hex)) as Hloop.
  specialize (Hloop s).
  destruct (mfor _ _ s) as [[[]|e] s']; cbn in Hloop.
  - destruct Hloop as [Ht Hs' Hl Ho].
    { split; [done|done| |done]. intros j th Hj _. apply elem_of_seq.
      apply lookup_lt_Some in Hj. lia. }
    exists s'. split_and!; [done|done|done|]. intros th. split.
    + intros Hth. assert (th.(Thread.task) ≠ task) as Hne.
      { intros Heq. apply list_elem_of_lookup in Hth as [j Hj].
        specialize (Hl j th Hj Heq). by apply not_elem_of_nil in Hl. }
      split; [done|]. by apply Ho.
    + intros [Hne Hth]. by apply Ho.
  - exfalso. apply Hloop. split; [done|done| |done]. intros j th Hj _. apply elem_of_seq.
    apply lookup_lt_Some in Hj. lia.
Qed.

Lemma reap_task_spec task s x :
  Inv s → get_task task s = Some x → x.(Task.state) = TaskState.Exited →
  ∃ s', reap_task task s = (Ok tt, s') ∧ Inv s' ∧
    get_task task s' = None ∧ (∀ k, k ≠ task → get_task k s' = get_task k s) ∧
    (∀ th, Some th ∈ s'.(threads) ↔ th.(Thread.task) ≠ task ∧ Some th ∈ s.(threads)).
Proof.
  intros Hs Hx Hex. pose proof (slot_get_key _ _ _ _ Hx) as Hk.
  pose proof (find_slot_find (has_key Task.id task) s.(tasks)) as Hf.
  fold (slot_get Task.id task s.(tasks)) in Hf. rewrite Hx in Hf.
  destruct (find_slot (has_key Task.id task) s.(tasks)) as [i|] eqn:Hfi; [|done].
  destruct Hf as (x' & Hi & [= <-]).
  destruct (reap_clear_loop task s x Hs Hx Hex) as (s2 & Hl & Hs2 & Ht2 & Hth2).
  assert (reap_slot i s = (Ok tt, s)) as Hslot.
  { unfold reap_slot. rewrite Hi; cbn. destruct x as [? ? ? st ? ? ?]; cbn in Hex; subst st; cbn.
    unfold Task.set_state; cbn. f_equal. destruct s; cbn in *. by rewrite list_insert_id. }
  eexists. split.
  { unfold reap_task, mbind, M_bind, gets, lift. unfold find_task_index. rewrite Hfi; cbn.
    rewrite Hi; cbn. rewrite decide_False by (intros Hn; by apply Hn).
    rewrite reap_check_loop.
    - rewrite Hslot, Hl. reflexivity.
    - intros th Hth Htask. eapply (core_exited _ _ _ _ (inv_core _ _ Hs)); [done| |exact Hex].
      by rewrite Htask. }
  match goal with |- Inv (emit ?ev ?y) ∧ _ =>
    pose proof (emit_frame ev y) as (He1 & He2 & _); set (s3 := y) in * end.
  assert (s3.(tasks) = <[i:=None]> s.(tasks)) as Ht3.
  { subst s3. destruct s2; cbn in *. by subst. }
  assert (s3.(threads) = s2.(threads)) as Hth3 by (subst s3; by destruct s2).
  pose proof (core_tasks _ _ _ _ (inv_core _ _ Hs)) as Hu.
  split.
  { apply inv_emit, inv_set_stats, inv_set_tasks; [done|].
    eapply core_task_clear; [apply Hs2|by rewrite Ht2|].
    intros th Hth. rewrite Hk. by apply Hth2. }
  rewrite He1, He2, Ht3, Hth3. split_and!; [| |done].
  - rewrite (slot_get_clear_one _ _ _ _ _ Hu Hi). by rewrite decide_True.
  - intros k Hne. rewrite (slot_get_clear_one _ _ _ _ _ Hu Hi).
    by rewrite decide_False by congruence.
Qed.

Lemma keeps_reap_task task : keeps Inv (reap_task task).
Proof.
  intros s Hs. destruct (get_task task s) as [x|] eqn:Hx.
  - destruct (decide (x.(Task.state) = TaskState.Exited)) as [Hex|Hex].
    { by destruct (reap_task_spec task s x Hs Hx Hex) as (s' & -> & ? & _). }
    unfold reap_task, mbind, M_bind, gets, lift, find_task_index.
    pose proof (find_slot_find (has_key Task.id task) s.(tasks)) as Hf.
    fold (slot_get Task.id task s.(tasks)) in Hf. rewrite Hx in Hf.
    destruct (find_slot (has_key Task.id task) s.(tasks)) as [i|]; [|done].
    destruct Hf as (x' & Hi & [= <-]). cbn. rewrite Hi; cbn. by rewrite decide_True.
  - unfold reap_task, mbind at 1, M_bind at 1, gets at 1, find_task_index.
    apply find_slot_None in Hx. rewrite Hx. done.
Qed.
