(* ===== verification/MtssSafety.v ===== *)
(** * What the MTSS scheduler guarantees

    The calls of the facade as a step relation, the invariant for every
    reachable state, and the functional behaviour of dispatch, blocking, waking,
    termination, reaping, preemption and the event log on top of it.  The last
    section exhibits reachable states that the code's own comments rule out. *)

From stdpp Require Import prelude.
From S2P Require Import Prelude Slots Ring MtssTypes RunQueue Mtss MtssInv.
Import Mtss.

(** ** Reachable states

    One step is one public call, successful or not, from any caller. *)
Inductive call : Type :=
| CreateTask (id : TaskId) (parent : option TaskId) (asp : AddressSpaceId) (prio : Priority)
| CreateThread (task : TaskId) (th : ThreadId) (prio : Priority)
| EnqueueThread (th : ThreadId)
| PickNext
| TimerTick (preemption_disabled : bool)
| RescheduleIfNeeded
| YieldCurrent
| RequeueCurrent
| MarkTaskRunning (task : TaskId)
| MarkTaskReady (task : TaskId)
| BlockTask (task : TaskId)
| BlockThread (th : ThreadId)
| WakeThread (th : ThreadId)
| SleepThread (th : ThreadId)
| TerminateTask (task : TaskId)
| ExitThread (th : ThreadId)
| ContainTask (task : TaskId)
| ReapTask (task : TaskId)
| DrainEvent.

Definition exec (c : call) (s : t) : t :=
  match c with
  | CreateTask id parent asp prio => (create_task id parent asp prio s).2
  | CreateThread task th prio => (create_thread task th prio s).2
  | EnqueueThread th => (enqueue_thread th s).2
  | PickNext => (pick_next s).2
  | TimerTick disabled => (on_timer_tick_with_preemption_disabled disabled s).2
  | RescheduleIfNeeded => (reschedule_if_needed s).2
  | YieldCurrent => (yield_current s).2
  | RequeueCurrent => (requeue_current s).2
  | MarkTaskRunning task => (mark_task_running task s).2
  | MarkTaskReady task => (mark_task_ready task s).2
  | BlockTask task => (block_task task s).2
  | BlockThread th => (block_thread th s).2
  | WakeThread th => (wake_thread th s).2
  | SleepThread th => (sleep_thread th s).2
  | TerminateTask task => (terminate_task task s).2
  | ExitThread th => (exit_thread th s).2
  | ContainTask task => (contain_task task s).2
  | ReapTask task => (reap_task task s).2
  | DrainEvent => (drain_event s).2
  end.

Inductive step : t → t → Prop :=
| step_call c s : step s (exec c s).

Inductive reachable : t → Prop :=
| reachable_new mt mth rq ev cfg : reachable (new mt mth rq ev cfg)
| reachable_step s s' : reachable s → step s s' → reachable s'.

Lemma new_inv mt mth rq ev cfg : Inv (new mt mth rq ev cfg).
Proof.
  split; cbn; [split; cbn|apply RunQueue.new_wf|].
  - apply uniq_replicate.
  - apply uniq_replicate.
  - by intros th ?%elem_of_replicate_None.
  - by intros th tk ?%elem_of_replicate_None.
  - by intros k [(r & ?%elem_of_replicate_None & _)|?].
  - by intros tk ?%elem_of_replicate_None.
  - exists []. split_and!; cbn; [apply fifo_empty|done|].
    rewrite length_replicate. lia.
Qed.

#[export] Hint Resolve keeps_create_task keeps_create_thread keeps_timer_tick
  keeps_requeue_current keeps_mark_task_running keeps_mark_task_ready keeps_block_task
  keeps_block_thread keeps_wake_thread keeps_sleep_thread keeps_terminate_task
  keeps_exit_thread keeps_contain_task keeps_reap_task : keeps.

Lemma keeps_apply {A} (op : Op A) s : keeps Inv op → Inv s → Inv (op s).2.
Proof. auto. Qed.

Lemma step_inv s s' : step s s' → Inv s → Inv s'.
Proof.
  destruct 1 as [c s]. destruct c; try (apply keeps_apply; solve [auto with keeps]).
  apply inv_drain_event.
Qed.

Lemma reachable_inv s : reachable s → Inv s.
Proof. induction 1; [apply new_inv|by eapply step_inv]. Qed.

(** the state a sequence of calls leads to *)
Definition run (cs : list call) (s : t) : t := foldl (flip exec) s cs.

Lemma reachable_run mt mth rq ev cfg cs : reachable (run cs (new mt mth rq ev cfg)).
Proof.
  unfold run. pose proof (reachable_new mt mth rq ev cfg) as H. revert H.
  generalize (new mt mth rq ev cfg). induction cs as [|c cs IH]; intros s Hs; cbn; [done|].
  apply IH. eapply reachable_step; [done|constructor].
Qed.

(** C1: in every state any sequence of calls can reach, task and thread
    identifiers are unique, every thread belongs to a task of the table, an
    exited task has only dead threads, the run queue and [current] only refer to
    existing threads that are [Ready] or [Running], and the run queue and event
    ring indices are in bounds. *)
Theorem scheduler_invariant s : reachable s → Inv s.
Proof. apply reachable_inv. Qed.

(** ** Dispatch *)
Lemma mark_running_ok ts x :
  ThreadState.may_schedule x.(Thread.state) = true →
  (Thread.mark_running ;; modify (Thread.reset_timeslice ts) ;; gets Thread.task) x =
    (Ok x.(Thread.task), Thread.reset_timeslice ts (Thread.set_state ThreadState.Running x)).
Proof. destruct x as [? ? st ? ? ?]. by destruct st. Qed.

(** Every thread operation below goes through these two steps. *)
Lemma thread_mut_at {A} th (m : M Thread.t MtssError.t A) s x :
  Inv s → get_thread th s = Some x → (m x).2.(Thread.id) = x.(Thread.id) →
  ∃ v, thread_mut th m s = ((m x).1, set_threads v s) ∧
    (∀ k, slot_get Thread.id k v = if decide (th = k) then Some (m x).2 else get_thread k s).
Proof.
  intros Hs Hx Hid. pose proof (thread_mut_spec th m s) as H. rewrite Hx in H.
  destruct H as (i & _ & Hi & ->). eexists. split; [done|]. intros k.
  pose proof (slot_get_key _ _ _ _ Hx) as <-.
  by apply slot_get_set; [apply (inv_core _ _ Hs)|..].
Qed.

Lemma task_mut_at {A} task (m : M Task.t MtssError.t A) s x :
  Inv s → get_task task s = Some x → (m x).2.(Task.id) = x.(Task.id) →
  ∃ v, task_mut task m s = ((m x).1, set_tasks v s) ∧
    (∀ k, slot_get Task.id k v = if decide (task = k) then Some (m x).2 else get_task k s).
Proof.
  intros Hs Hx Hid. pose proof (task_mut_spec task m s) as H. rewrite Hx in H.
  destruct H as (i & _ & Hi & ->). eexists. split; [done|]. intros k.
  pose proof (slot_get_key _ _ _ _ Hx) as <-.
  by apply slot_get_set; [apply (inv_core _ _ Hs)|..].
Qed.

Lemma owner_task s th x : Inv s → get_thread th s = Some x →
  ∃ tk, get_task x.(Thread.task) s = Some tk.
Proof.
  intros Hs Hx%slot_get_elem. by destruct (core_owner _ _ _ _ (inv_core _ _ Hs) x Hx); eauto.
Qed.

Lemma dispatch_spec th reason s x :
  Inv s → get_thread th s = Some x →
  ThreadState.may_schedule x.(Thread.state) = true →
  let ts := s.(config).(MtssConfig.default_timeslice) in
  ∃ s', dispatch th reason s =
          (Ok (ScheduleDecision.new s.(config).(MtssConfig.cpu) s.(current) th s.(now)), s') ∧
    s'.(current) = Some th ∧ s'.(run_queue) = s.(run_queue) ∧
    (∀ k, get_thread k s' = if decide (th = k)
       then Some (Thread.reset_timeslice ts (Thread.set_state ThreadState.Running x))
       else get_thread k s).
Proof.
  intros Hs Hx Hm ts. destruct (owner_task s th x Hs Hx) as [tk Htk].
  pose proof (mark_running_ok ts x Hm) as Hrun.
  set (m := Thread.mark_running ;; _) in Hrun.
  assert ((m x).2.(Thread.id) = x.(Thread.id)) as Hid by (by rewrite Hrun).
  destruct (thread_mut_at th m s x Hs Hx Hid) as (v & Hv & Hget). rewrite Hrun in Hv, Hget.
  set (s1 := set_threads v s) in *.
  assert (Inv s1) as Hs1.
  { pose proof (keeps_thread_mut th m ltac:(subst m; solve_safe) s Hs) as Hk.
    by rewrite Hv in Hk. }
  set (f := λ y : Task.t, if decide (y.(Task.state) = TaskState.Runnable)
                          then (Task.mark_running y).2 else y).
  assert ((f tk).(Task.id) = tk.(Task.id)) as Hfid.
  { subst f; cbn. case_decide; [|done]. by destruct tk as [? ? ? st ? ? ?]; destruct st. }
  destruct (task_mut_at x.(Thread.task) (modify f : M Task.t MtssError.t unit) s1 tk
    Hs1 Htk Hfid) as (w & Hw & _). cbn in Hw.
  eexists. split.
  { unfold dispatch, mbind, M_bind, gets at 1 2. fold ts. fold m in Hv.
    change (thread_mut th _ s) with (thread_mut th m s). rewrite Hv; cbn.
    unfold with_task_mut. fold f. rewrite Hw; cbn. unfold gets.
    match goal with |- context [emit ?ev ?y] =>
      pose proof (emit_frame ev y) as (_ & _ & _ & _ & Hc & Hn & _) end.
    rewrite Hc, Hn. reflexivity. }
  match goal with |- context [emit ?ev ?y] =>
    pose proof (emit_frame ev y) as (_ & -> & -> & -> & _) end.
  cbn. split_and!; [done|done|exact Hget].
Qed.

(** In a reachable state [pick_next] never fails.  It returns [None] exactly
    when no record is queued; otherwise it dispatches the thread of a queued
    record, which was [Ready] or [Running], is now [Running] with a full time
    slice and is the current thread; other threads are untouched. *)
Theorem pick_next_dispatches s :
  reachable s →
  ∃ r s', pick_next s = (Ok r, s') ∧
    match r with
    | None => occupied s.(run_queue).(RunQueue.queue) = [] ∧ s'.(current) = s.(current)
    | Some d =>
        d.(ScheduleDecision.previous) = s.(current) ∧
        s'.(current) = Some d.(ScheduleDecision.next) ∧
        (∃ rec, Some rec ∈ s.(run_queue).(RunQueue.queue) ∧
                rec.(Sched.thread) = d.(ScheduleDecision.next)) ∧
        (∃ x y, get_thread d.(ScheduleDecision.next) s = Some x ∧
                ThreadState.may_schedule x.(Thread.state) = true ∧
                get_thread d.(ScheduleDecision.next) s' = Some y ∧
                y.(Thread.state) = ThreadState.Running ∧
                y.(Thread.timeslice) = s.(config).(MtssConfig.default_timeslice)) ∧
        (∀ k, k ≠ d.(ScheduleDecision.next) → get_thread k s' = get_thread k s)
    end.
Proof.
  intros Hs%reachable_inv. unfold pick_next, mbind, M_bind, run_queue_op.
  destruct (RunQueue.next s.(run_queue)) as [[rec|] q] eqn:Hn.
  2:{ eexists _, _. split; [done|]. split; [|done].
      apply RunQueue.next_None; [by rewrite Hn|apply Hs]. }
  assert (Some rec ∈ s.(run_queue).(RunQueue.queue)) as Hrec.
  { apply RunQueue.next_elem. by rewrite Hn. }
  destruct (core_referenced _ _ _ _ (inv_core _ _ Hs) rec.(Sched.thread)) as (x & Hx & Hm).
  { left. eauto. }
  pose proof (inv_next s _ _ Hs Hn) as Hs1. set (s1 := set_run_queue q s) in *.
  destruct (dispatch_spec rec.(Sched.thread) LifecycleReason.Scheduled s1 x Hs1 Hx Hm)
    as (s' & -> & Hc & _ & Hg).
  eexists _, _. split; [done|]. cbn. split_and!; [done|done|by eauto| |].
  - eexists x, _. rewrite Hg, decide_True by done. split_and!; eauto.
  - intros k Hk. by rewrite Hg, decide_False by congruence.
Qed.

(** ** Blocking and sleeping *)
Definition wait_state (has_schedulable : bool) (st : TaskState.t) : TaskState.t :=
  if has_schedulable then
    match st with TaskState.Running => TaskState.Running | _ => TaskState.Runnable end
  else TaskState.Blocked.

Lemma refresh_spec task s tk :
  Inv s → get_task task s = Some tk → tk.(Task.state) ≠ TaskState.Exited →
  ∃ s', refresh_task_wait_state task TaskState.Blocked s = (Ok tt, s') ∧ Inv s' ∧
    s'.(threads) = s.(threads) ∧ s'.(run_queue) = s.(run_queue) ∧ s'.(current) = s.(current) ∧
    get_task task s' =
      Some (Task.set_state (wait_state (any_schedulable_thread task s) tk.(Task.state)) tk) ∧
    (∀ k, k ≠ task → get_task k s' = get_task k s).
Proof.
  intros Hs Htk Hex.
  assert (tk.(Task.state) ≠ TaskState.Created) as Hcr.
  { apply (core_admitted _ _ _ _ (inv_core _ _ Hs)). by eapply slot_get_elem. }
  pose proof (keeps_refresh task s Hs) as Hk.
  set (has := any_schedulable_thread task s).
  set (m := st ← gets Task.state;
     if (has : bool) then
       if decide (st ≠ TaskState.Runnable ∧ st ≠ TaskState.Running)
       then Task.wake ;; mret false else mret false
     else if decide (st ≠ TaskState.Blocked)
     then Task.transition TaskState.Blocked ;; mret true else mret false).
  assert ((m tk).2 = Task.set_state (wait_state has tk.(Task.state)) tk ∧
          ∃ b, (m tk).1 = Ok b) as [Hm2 [b Hm1]].
  { subst m. clear Hk. destruct tk as [? ? ? st ? ? ?]; cbn in Hex, Hcr.
    destruct has, st; try done; split; eauto. }
  destruct (task_mut_at task m s tk Hs Htk ltac:(by rewrite Hm2)) as (v & Hv & Hget).
  rewrite Hm1, Hm2 in *.
  assert (refresh_task_wait_state task TaskState.Blocked s =
    (if b && bool_decide (TaskState.Blocked = TaskState.Blocked)
     then with_stats MtssStats.with_task_block else mret tt) (set_tasks v s)) as Heq.
  { unfold refresh_task_wait_state, mbind at 1, M_bind at 1, gets at 1. fold has.
    unfold mbind at 1, M_bind at 1. change (task_mut task _ s) with (task_mut task m s).
    by rewrite Hv. }
  rewrite Heq in *. clear Heq. destruct (b && _); eexists; (split; [done|]); cbn in *.
  all: split_and!; [done..|by rewrite Hget, decide_True|].
  all: intros k Hne; by rewrite Hget, decide_False by congruence.
Qed.

(** The common part of [block_thread] and [sleep_thread]. *)
Definition park (dest : ThreadState.t) (th : ThreadId) : Op TaskId :=
  modify (unschedule_thread th) ;;
  task ← thread_mut th (Thread.transition dest ;; gets Thread.task);
  refresh_task_wait_state task TaskState.Blocked ;;
  mret task.

Lemma park_spec dest th s x :
  dest = ThreadState.Blocked ∨ dest = ThreadState.Sleeping →
  Inv s → get_thread th s = Some x → valid_thread_transition x.(Thread.state) dest = true →
  ∃ s', park dest th s = (Ok x.(Thread.task), s') ∧ unreferenced th s' ∧
    (∀ k, get_thread k s' = if decide (th = k) then Some (Thread.set_state dest x)
                            else get_thread k s) ∧
    (∃ tk, get_task x.(Thread.task) s = Some tk ∧
       get_task x.(Thread.task) s' =
         Some (Task.set_state (wait_state (any_schedulable_thread x.(Thread.task) s')
                                 tk.(Task.state)) tk)).
Proof.
  intros Hdest Hs Hx Hvalid. destruct (owner_task s th x Hs Hx) as [tk Htk].
  assert (tk.(Task.state) ≠ TaskState.Exited) as Hex.
  { intros Hex. pose proof (core_exited _ _ _ _ (inv_core _ _ Hs) x tk
      (slot_get_elem _ _ _ _ Hx) Htk Hex) as Hd.
    rewrite Hd in Hvalid. by destruct Hdest as [-> | ->]. }
  set (s1 := unschedule_thread th s).
  pose proof (unschedule_frame th s) as [Hf1 Hf2]. fold s1 in Hf1, Hf2.
  assert (Inv s1) as Hs1 by (by apply inv_unschedule).
  pose proof (unschedule_unreferenced th s) as Hun. fold s1 in Hun.
  set (m := Thread.transition dest ;; gets Thread.task).
  assert (m x = (Ok x.(Thread.task), Thread.set_state dest x)) as Hm.
  { subst m. unfold mbind, M_bind, Thread.transition. by rewrite Hvalid. }
  rewrite <-Hf2 in Hx. rewrite <-Hf1 in Htk.
  destruct (thread_mut_at th m s1 x Hs1 Hx ltac:(by rewrite Hm)) as (v & Hv & Hget).
  rewrite Hm in Hv, Hget.
  assert (Inv (set_threads v s1)) as Hs2.
  { assert (thread_same m) as Hsame.
    { subst m. destruct Hdest as [-> | ->]; solve_safe. }
    pose proof (triple_thread_retire th m Hsame s1 (conj Hs1 Hun)) as Ht.
    by rewrite Hv in Ht. }
  destruct (refresh_spec x.(Thread.task) (set_threads v s1) tk Hs2 Htk Hex)
    as (s3 & Hr & _ & Hth3 & Hrq3 & Hc3 & Htk3 & _).
  exists s3. split_and!.
  - unfold park, mbind, M_bind, modify. fold s1. change (thread_mut th _ s1) with (thread_mut th m s1).
    rewrite Hv; cbn. by rewrite Hr.
  - unfold unreferenced. by rewrite Hrq3, Hc3.
  - intros k. rewrite Hth3; cbn. by rewrite Hget, Hf2.
  - exists tk. split; [by rewrite <-Hf1|]. rewrite Htk3. unfold any_schedulable_thread.
    by rewrite Hth3.
Qed.

Lemma block_thread_park th s x :
  get_thread th s = Some x → valid_thread_transition x.(Thread.state) ThreadState.Blocked = true →
  block_thread th s =
    (task ← park ThreadState.Blocked th;
     with_stats MtssStats.with_block ;;
     emit_thread MtssEventKind.ThreadBlocked task th) s.
Proof.
  intros Hx Hv. unfold block_thread, mbind at 1, M_bind at 1. rewrite thread_spec, Hx; cbn.
  unfold validate_thread_destination. rewrite Hv. unfold park, lift, mbind, M_bind, modify.
  unfold Thread.block. destruct (thread_mut _ _ _) as [[task|e] s1]; [|done].
  by destruct (refresh_task_wait_state _ _ _) as [[u|e] s2].
Qed.

Lemma stats_emit_frame f k task th s s' :
  (with_stats f ;; emit_thread k task th) s = (Ok tt, s') →
  s'.(tasks) = s.(tasks) ∧ s'.(threads) = s.(threads) ∧
  s'.(run_queue) = s.(run_queue) ∧ s'.(current) = s.(current).
Proof.
  intros [= <-]. match goal with |- context [emit ?ev ?y] =>
    pose proof (emit_frame ev y) as (-> & -> & -> & -> & _) end. done.
Qed.

(** [block_thread] on a reachable state either rejects the call and leaves
    the state exactly as it was (unknown thread, or a transition into [Blocked]
    that the lifecycle forbids), or blocks the thread: it is then neither queued
    nor current, other threads are untouched, and its task is blocked unless
    another of its threads can still be scheduled. *)
Theorem block_thread_outcome s th :
  reachable s →
  match get_thread th s with
  | None => block_thread th s = (Err MtssError.InvalidThread, s)
  | Some x =>
      if valid_thread_transition x.(Thread.state) ThreadState.Blocked then
        ∃ s' tk, block_thread th s = (Ok tt, s') ∧ unreferenced th s' ∧
          (∀ k, get_thread k s' =
             if decide (th = k) then Some (Thread.set_state ThreadState.Blocked x)
             else get_thread k s) ∧
          get_task x.(Thread.task) s' = Some tk ∧
          (if any_schedulable_thread x.(Thread.task) s'
           then TaskState.may_schedule tk.(Task.state) = true
           else tk.(Task.state) = TaskState.Blocked)
      else
        block_thread th s =
          (Err (MtssError.InvalidThreadTransition x.(Thread.state) ThreadState.Blocked), s)
  end.
Proof.
  intros Hs%reachable_inv. destruct (get_thread th s) as [x|] eqn:Hx.
  2:{ unfold block_thread, mbind at 1, M_bind at 1. by rewrite thread_spec, Hx. }
  destruct (valid_thread_transition x.(Thread.state) ThreadState.Blocked) eqn:Hv.
  2:{ unfold block_thread, mbind at 1, M_bind at 1. rewrite thread_spec, Hx; cbn.
      unfold validate_thread_destination. by rewrite Hv. }
  destruct (park_spec ThreadState.Blocked th s x (or_introl eq_refl) Hs Hx Hv)
    as (s1 & Hp & Hun & Hget & tk & Htk & Htk').
  rewrite (block_thread_park th s x Hx Hv). unfold mbind at 1, M_bind at 1. rewrite Hp.
  set (tail := with_stats _ ;; _). assert (∃ s2, tail s1 = (Ok tt, s2)) as [s2 H2] by (by eexists).
  rewrite H2. destruct (stats_emit_frame _ _ _ _ _ _ H2) as (Ht2 & Hth2 & Hrq2 & Hc2).
  eexists s2, _. split; [done|]. unfold unreferenced, any_schedulable_thread.
  rewrite Hrq2, Hc2, Hth2, Ht2. split_and!; [done|done|exact Htk'|].
  unfold any_schedulable_thread. destruct (slot_any _ _); cbn; [|done].
  by destruct (tk.(Task.state)).
Qed.

(** ** Waking *)
Lemma enqueue_in (r : SRecord) q : RunQueue.wf q → q.(RunQueue.len) ≠ RunQueue.max q →
  ∃ q', RunQueue.enqueue r q = (Ok tt, q') ∧ Some r ∈ q'.(RunQueue.queue).
Proof.
  intros Hwf Hl. unfold RunQueue.enqueue. rewrite decide_False by done.
  eexists. split; [done|]. cbn. apply elem_of_insert_slot_new.
  destruct (RunQueue.wf_tail _ Hwf) as [?|Hz]; [done|]. pose proof (RunQueue.wf_len _ Hwf).
  unfold RunQueue.max in *. lia.
Qed.

Lemma enqueue_ready th s x :
  Inv s → get_thread th s = Some x → x.(Thread.state) = ThreadState.Ready →
  s.(run_queue).(RunQueue.len) ≠ RunQueue.max s.(run_queue) →
  ∃ s', enqueue_thread th s = (Ok tt, s') ∧
    Some (schedule_record x) ∈ s'.(run_queue).(RunQueue.queue) ∧
    s'.(tasks) = s.(tasks) ∧ get_thread th s' = Some x.
Proof.
  intros Hs Hx Hst Hl. unfold enqueue_thread.
  set (m := previous ← gets Thread.state; _).
  assert (m x = (Ok (schedule_record x, x.(Thread.task)), x)) as Hm.
  { subst m. run_monad. by rewrite decide_True. }
  destruct (thread_mut_at th m s x Hs Hx ltac:(by rewrite Hm)) as (v & Hv & Hget).
  rewrite Hm in Hv, Hget. cbn [fst snd] in Hv, Hget.
  destruct (enqueue_in (schedule_record x) _ (inv_queue _ _ Hs) Hl) as (q' & Hq & Hin).
  unfold mbind at 1, M_bind at 1, ensure_run_queue_capacity. rewrite decide_False by done.
  unfold mbind at 1, M_bind at 1. rewrite Hv. unfold mbind at 1, M_bind at 1, run_queue_op.
  cbn [set_threads run_queue fst snd]. rewrite Hq.
  set (tail := with_stats _ ;; _). set (s1 := set_run_queue q' _).
  assert (∃ s2, tail s1 = (Ok tt, s2)) as [s2 H2] by (by eexists).
  rewrite H2. destruct (stats_emit_frame _ _ _ _ _ _ H2) as (Ht2 & Hth2 & Hrq2 & Hc2).
  exists s2. rewrite Ht2, Hth2, Hrq2. split_and!; [done|done|done|].
  cbn. by rewrite Hget, decide_True.
Qed.

(** Waking a blocked or sleeping thread of a reachable state, when the run
    queue has room, succeeds: the thread is [Ready], its record is queued, and
    its task is no longer blocked. *)
Theorem wake_thread_queues s th x :
  reachable s → get_thread th s = Some x →
  x.(Thread.state) = ThreadState.Blocked ∨ x.(Thread.state) = ThreadState.Sleeping →
  s.(run_queue).(RunQueue.len) ≠ RunQueue.max s.(run_queue) →
  ∃ s' tk, wake_thread th s = (Ok tt, s') ∧
    get_thread th s' = Some (Thread.set_state ThreadState.Ready x) ∧
    Some (schedule_record (Thread.set_state ThreadState.Ready x))
      ∈ s'.(run_queue).(RunQueue.queue) ∧
    get_task x.(Thread.task) s' = Some tk ∧ TaskState.may_schedule tk.(Task.state) = true.
Proof.
  intros Hs%reachable_inv Hx Hst Hl. destruct (owner_task s th x Hs Hx) as [tk Htk].
  assert (tk.(Task.state) ≠ TaskState.Exited) as Hex.
  { intros Hex. pose proof (core_exited _ _ _ _ (inv_core _ _ Hs) x tk
      (slot_get_elem _ _ _ _ Hx) Htk Hex). destruct Hst; congruence. }
  assert (tk.(Task.state) ≠ TaskState.Created) as Hcr.
  { apply (core_admitted _ _ _ _ (inv_core _ _ Hs)). by eapply slot_get_elem. }
  set (y := Thread.set_state ThreadState.Ready x).
  set (m := Thread.wake ;; gets Thread.task).
  assert (m x = (Ok x.(Thread.task), y)) as Hm.
  { subst m y. destruct x as [? ? st ? ? ?]; cbn in Hst. by destruct Hst; subst st. }
  destruct (thread_mut_at th m s x Hs Hx ltac:(by rewrite Hm)) as (v & Hv & Hget).
  rewrite Hm in Hv, Hget. cbn [fst snd] in Hv, Hget.
  assert (Inv (set_threads v s)) as Hs1.
  { pose proof (keeps_thread_mut th m ltac:(subst m; solve_safe) s Hs) as Hk.
    by rewrite Hv in Hk. }
  pose proof (keeps_wake_task_if_waiting x.(Thread.task) _ Hs1) as Hs2.
  unfold wake_task_if_waiting in Hs2. set (m2 := st ← gets Task.state; _) in Hs2.
  assert ((m2 tk).1 = Ok tt ∧ (m2 tk).2.(Task.id) = tk.(Task.id) ∧
          TaskState.may_schedule (m2 tk).2.(Task.state) = true) as (Hm21 & Hm22 & Hm23).
  { subst m2. destruct tk as [? ? ? st ? ? ?]; cbn in Hex, Hcr. by destruct st. }
  destruct (task_mut_at x.(Thread.task) m2 _ tk Hs1 Htk Hm22) as (w & Hw & Hgetw).
  rewrite Hw in Hs2. cbn [snd] in Hs2.
  apply (inv_set_stats (MtssStats.with_wakeup s.(stats))) in Hs2.
  destruct (enqueue_ready th _ y Hs2) as (s4 & He & Hin & Htk4 & Hth4).
  { cbn. by rewrite Hget, decide_True. }
  { done. }
  { done. }
  exists s4, (m2 tk).2. split_and!; [|done|done| |done].
  - unfold wake_thread, mbind, M_bind, ensure_run_queue_capacity. rewrite decide_False by done.
    change (thread_mut th _ s) with (thread_mut th m s). rewrite Hv; cbn.
    unfold wake_task_if_waiting. change (task_mut _ _ _) with
      (task_mut x.(Thread.task) m2 (set_threads v s)). rewrite Hw, Hm21. exact He.
  - rewrite Htk4. cbn. by rewrite Hgetw, decide_True.
Qed.

(** ** Termination and reaping *)

(** Terminating a task of a reachable state and reaping it always succeeds.
    After [terminate_task] the task is [Exited], all its threads are dead and
    none of them is queued or current; after [reap_task] neither the task nor
    any of its threads is left in the tables, and every other task and thread
    survives both calls unchanged. *)
Theorem terminate_then_reap s task x :
  reachable s → get_task task s = Some x →
  ∃ s1 s2, terminate_task task s = (Ok tt, s1) ∧ reap_task task s1 = (Ok tt, s2) ∧
    get_task task s1 = Some (Task.set_state TaskState.Exited x) ∧
    (∀ th, Some th ∈ s1.(threads) → th.(Thread.task) = task →
           th.(Thread.state) = ThreadState.Dead ∧ unreferenced th.(Thread.id) s1) ∧
    get_task task s2 = None ∧
    (∀ k, k ≠ task → get_task k s2 = get_task k s) ∧
    (∀ th, Some th ∈ s2.(threads) ↔ th.(Thread.task) ≠ task ∧ Some th ∈ s.(threads)).
Proof.
  intros Hs%reachable_inv Hx.
  destruct (terminate_task_spec task s x Hs Hx) as (s1 & Ht & Hs1 & Hx1 & Ho1 & Hd & Hth1).
  destruct (reap_task_spec task s1 _ Hs1 Hx1 eq_refl) as (s2 & Hr & _ & Hx2 & Ho2 & Hth2).
  exists s1, s2. split_and!; [done|done|done| |done| |].
  - intros th Hth Htask. split; [by apply Hd|]. intros Hr'.
    destruct (core_referenced _ _ _ _ (inv_core _ _ Hs1) _ Hr') as (y & Hy & Hm).
    rewrite (uniq_elem _ _ _ (core_threads _ _ _ _ (inv_core _ _ Hs1)) Hth) in Hy.
    injection Hy as <-. by rewrite (Hd th Hth Htask) in Hm.
  - intros k Hk. by rewrite Ho2, Ho1.
  - intros th. rewrite Hth2. split; intros [Hne Hin]; (split; [done|]); by apply Hth1.
Qed.

(** ** Round robin *)

(** [c] runs and the queue holds [rs], oldest first, with a slot to spare *)
Record rr (s : t) (c : ThreadId) (rs : list SRecord) : Prop := {
  rr_inv : Inv s;
  rr_current : s.(current) = Some c;
  rr_running : ∃ x, get_thread c s = Some x ∧ x.(Thread.state) = ThreadState.Running;
  rr_queue : ∃ w, RunQueue.holds s.(run_queue) w rs ∧ length w < RunQueue.max s.(run_queue)
}.

Lemma max_enqueue (r : SRecord) q : RunQueue.max (RunQueue.enqueue r q).2 = RunQueue.max q.
Proof.
  unfold RunQueue.enqueue, RunQueue.max. case_decide; [done|]. apply length_insert.
Qed.

Lemma max_next (q : RunQueue.t SRecord) : RunQueue.max (RunQueue.next q).2 = RunQueue.max q.
Proof.
  unfold RunQueue.next, RunQueue.max. case_decide; [done|].
  destruct (RunQueue.scan _ _ _) as [[??]|]; cbn; by rewrite ?length_insert.
Qed.

Lemma ready_current_spec c reason s rs :
  rr s c rs →
  ∃ s' rec w, ready_current_for_requeue c reason s = (Ok tt, s') ∧ Inv s' ∧
    rec.(Sched.thread) = c ∧ s'.(current) = Some c ∧
    RunQueue.holds s'.(run_queue) w (rs ++ [rec]) ∧
    length w ≤ RunQueue.max s'.(run_queue) ∧
    s'.(config) = s.(config) ∧ s'.(now) = s.(now).
Proof.
  intros [Hs Hc (x & Hx & Hrun) (w & Hw & Hlt)].
  pose proof (RunQueue.holds_len_max _ _ _ Hw) as Hle.
  set (ts := s.(config).(MtssConfig.default_timeslice)).
  set (y := Thread.reset_timeslice ts (Thread.set_state ThreadState.Ready x)).
  set (m := Thread.mark_ready ;; modify (Thread.reset_timeslice ts) ;;
     gets (λ x, (schedule_record x, x.(Thread.task)))).
  assert (m x = (Ok (schedule_record y, x.(Thread.task)), y)) as Hm.
  { subst m y. destruct x as [? ? st ? ? ?]; cbn in Hrun. by subst st. }
  destruct (thread_mut_at c m s x Hs Hx ltac:(by rewrite Hm)) as (v & Hv & Hget).
  rewrite Hm in Hv. cbn [fst snd] in Hv.
  pose proof (keeps_ready_current c reason s Hs) as Hk.
  destruct (RunQueue.enqueue_holds _ _ _ (schedule_record y) Hw Hlt) as [Hok Hh].
  pose proof (max_enqueue (schedule_record y) s.(run_queue)) as Hmax.
  destruct (RunQueue.enqueue (schedule_record y) s.(run_queue)) as [res q'] eqn:He.
  cbn [fst snd] in Hok, Hh, Hmax. subst res.
  set (ev := MtssEvent.thread MtssEventKind.ThreadRunnable x.(Thread.task) c
               (Some s.(config).(MtssConfig.cpu)) s.(now)).
  assert (ready_current_for_requeue c reason s =
          (Ok tt, emit ev (set_run_queue q' (set_threads v s)))) as Heq.
  { unfold ready_current_for_requeue, mbind at 1, M_bind at 1, ensure_run_queue_capacity.
    rewrite decide_False by (rewrite (RunQueue.h_len _ _ _ Hw); lia).
    unfold mbind at 1, M_bind at 1, gets at 1. fold ts.
    unfold mbind at 1, M_bind at 1. change (thread_mut c _ s) with (thread_mut c m s).
    rewrite Hv. unfold mbind at 1, M_bind at 1, run_queue_op, RunQueue.requeue.
    cbn [fst snd set_threads run_queue]. by rewrite He. }
  rewrite Heq in *. exists (emit ev (set_run_queue q' (set_threads v s))).
  pose proof (emit_frame ev (set_run_queue q' (set_threads v s)))
    as (_ & _ & -> & -> & -> & -> & _).
  exists (schedule_record y), (w ++ [Some (schedule_record y)]). cbn [set_run_queue run_queue].
  split_and!; [done|done| |done|done| |done|done].
  - apply (slot_get_key _ _ _ _ Hx).
  - rewrite length_app; cbn. lia.
Qed.

Lemma yield_round s c rs :
  rr s c rs →
  ∃ s' rec d r rest, rs ++ [rec] = r :: rest ∧ rec.(Sched.thread) = c ∧
    yield_current s = (Ok (Some d), s') ∧ d.(ScheduleDecision.previous) = Some c ∧
    d.(ScheduleDecision.next) = r.(Sched.thread) ∧ d.(ScheduleDecision.at_) = s.(now) ∧
    rr s' r.(Sched.thread) rest.
Proof.
  intros Hrr. destruct (ready_current_spec c LifecycleReason.Yielded s rs Hrr)
    as (s1 & rec & w & Hready & Hs1 & Hrec & Hc1 & Hh & Hle & Hcfg & Hnow).
  destruct (rs ++ [rec]) as [|r rest] eqn:Hrest; [by destruct rs|].
  destruct (RunQueue.next_holds_cons _ _ _ _ Hh) as (Hn & w' & Hw' & Hh' & _).
  pose proof (max_next s1.(run_queue)) as Hmax.
  assert (Some r ∈ s1.(run_queue).(RunQueue.queue)) as Hin by (by apply RunQueue.next_elem).
  destruct (RunQueue.next s1.(run_queue)) as [o q] eqn:Hnext; cbn [fst snd] in *. subst o.
  destruct (core_referenced _ _ _ _ (inv_core _ _ Hs1) r.(Sched.thread)) as (x & Hx & Hm).
  { left. eauto. }
  pose proof (inv_next s1 _ _ Hs1 Hnext) as Hs2. set (s2 := set_run_queue q s1) in *.
  destruct (dispatch_spec r.(Sched.thread) LifecycleReason.Scheduled s2 x Hs2 Hx Hm)
    as (s' & Hd & Hc & Hq & Hg).
  exists s', rec. eexists _, r, rest. split_and!; [done|done| |..].
  - unfold yield_current, mbind at 1, M_bind at 1, gets at 1. rewrite (rr_current _ _ _ Hrr).
    unfold mbind at 1, M_bind at 1. rewrite Hready. unfold pick_next, mbind, M_bind, run_queue_op.
    rewrite Hnext. fold s2. by rewrite Hd.
  - exact Hc1.
  - done.
  - exact Hnow.
  - split; [|done|eexists; by rewrite Hg, decide_True|exists w'; rewrite Hq; split; [done|subst s2; cbn; lia]].
    pose proof (keeps_dispatch r.(Sched.thread) LifecycleReason.Scheduled s2 Hs2) as Hk.
    by rewrite Hd in Hk.
Qed.

(** [n] calls of [yield_current]: what they return and the state they reach *)
Fixpoint yields (n : nat) (s : t)
    : list (result MtssError.t (option ScheduleDecision.t)) * t :=
  match n with
  | 0 => ([], s)
  | S n' =>
      let '(r, s1) := yield_current s in
      let '(rs, s2) := yields n' s1 in (r :: rs, s2)
  end.

(** the thread a decision switches to *)
Definition dispatched (r : result MtssError.t (option ScheduleDecision.t)) : option ThreadId :=
  match r with Ok (Some d) => Some d.(ScheduleDecision.next) | _ => None end.

Lemma yields_prefix rs1 rs2 s c :
  rr s c (rs1 ++ rs2) →
  ∃ cs c', (dispatched <$> (yields (length rs1) s).1) = Some <$> (Sched.thread <$> rs1) ∧
    rr (yields (length rs1) s).2 c' (rs2 ++ cs) ∧
    (Sched.thread <$> cs) ++ [c'] = c :: (Sched.thread <$> rs1).
Proof.
  revert s c rs2. induction rs1 as [|r rs1 IH]; intros s c rs2 Hrr; cbn [length yields].
  { exists [], c. rewrite app_nil_r. done. }
  destruct (yield_round _ _ _ Hrr) as (s1 & rec & d & r' & rest & Heq & Hrec & -> & _ & Hd & _ & Hrr1).
  injection Heq as <- <-. rewrite <-app_assoc in Hrr1.
  destruct (IH _ _ _ Hrr1) as (cs & c' & Hds & Hrr' & Hcs).
  destruct (yields (length rs1) s1) as [ds s2]; cbn in *.
  exists (rec :: cs), c'. rewrite Hds, Hd. split_and!; [done| |by rewrite <-Hcs, <-Hrec].
  by rewrite <-app_assoc in Hrr'.
Qed.

(** C21: round robin.  When thread [c] runs and the queue holds [rs] (and has a
    spare slot), yielding once per queued record plus once more dispatches every
    queued thread exactly once, in queue order, and then [c] again; the queue
    ends up in the order it started from, so no runnable thread starves. *)
Theorem round_robin_fair s c x w rs :
  reachable s → s.(current) = Some c →
  get_thread c s = Some x → x.(Thread.state) = ThreadState.Running →
  RunQueue.holds s.(run_queue) w rs → length w < RunQueue.max s.(run_queue) →
  let '(ds, s') := yields (length rs + 1) s in
  (dispatched <$> ds) = Some <$> ((Sched.thread <$> rs) ++ [c]) ∧
  s'.(current) = Some c ∧
  ∃ w' rs', RunQueue.holds s'.(run_queue) w' rs' ∧
            (Sched.thread <$> rs') = (Sched.thread <$> rs).
Proof.
  intros Hs%reachable_inv Hc Hx Hrun Hw Hlt.
  assert (rr s c (rs ++ [])) as Hrr by (rewrite app_nil_r; split; eauto).
  destruct (yields_prefix rs [] s c Hrr) as (cs & c' & Hds & Hrr' & Hcs). cbn in Hrr'.
  assert (∀ n s0, yields (n + 1) s0 =
    let '(ds, s1) := yields n s0 in let '(r, s2) := yield_current s1 in (ds ++ [r], s2)) as Hplus.
  { induction n as [|n IH]; intros s0; cbn; [by destruct (yield_current s0)|].
    destruct (yield_current s0) as [r s1]. rewrite IH.
    destruct (yields n s1) as [ds s2]. by destruct (yield_current s2). }
  rewrite Hplus. destruct (yields (length rs) s) as [ds s1]; cbn in Hds, Hrr'.
  destruct (yield_round _ _ _ Hrr') as (s2 & rec & d & r & rest & Heq & Hrec & -> & _ & Hd & _ & Hrr2).
  assert (r.(Sched.thread) = c ∧ (Sched.thread <$> rest) = (Sched.thread <$> rs)) as [Hr Hrest].
  { assert ((Sched.thread <$> cs ++ [rec]) = c :: (Sched.thread <$> rs)) as Hmap
      by (rewrite fmap_app; cbn; by rewrite Hrec).
    rewrite Heq in Hmap. by injection Hmap. }
  split_and!.
  - rewrite fmap_app, Hds; cbn. by rewrite Hd, Hr, fmap_app.
  - rewrite <-Hr. apply Hrr2.
  - destruct (rr_queue _ _ _ Hrr2) as (w2 & Hw2 & _). eauto.
Qed.

(** ** Time slices *)

(** the accounting of a tick, up to the test of [expired] *)
Definition charge (th : ThreadId) : Op bool :=
  expired ← thread_mut th
    (st ← gets Thread.state;
     if negb (bool_decide (st = ThreadState.Running))
     then throw (MtssError.InvalidThreadTransition st ThreadState.Running)
     else modify (Thread.accumulate_cpu_time 1) ;; Thread.consume_timeslice_tick);
  with_task_mut_for_thread th (Task.accumulate_cpu_time 1) ;;
  mret expired.

Lemma charge_spec th s x :
  Inv s → get_thread th s = Some x → x.(Thread.state) = ThreadState.Running →
  let y := Thread.reset_timeslice (Timeslice.consume_tick x.(Thread.timeslice))
             (Thread.accumulate_cpu_time 1 x) in
  ∃ v w, charge th s = (Ok (Timeslice.is_expired y.(Thread.timeslice)),
                        set_tasks w (set_threads v s)) ∧
    Inv (set_tasks w (set_threads v s)) ∧ slot_get Thread.id th v = Some y ∧
    (∃ tk, get_task x.(Thread.task) s = Some tk ∧
           slot_get Task.id x.(Thread.task) w = Some (Task.accumulate_cpu_time 1 tk)).
Proof.
  intros Hs Hx Hrun y. destruct (owner_task s th x Hs Hx) as [tk Htk].
  set (m := st ← gets Thread.state;
     if negb (bool_decide (st = ThreadState.Running))
     then throw (MtssError.InvalidThreadTransition st ThreadState.Running)
     else modify (Thread.accumulate_cpu_time 1) ;; Thread.consume_timeslice_tick).
  assert (m x = (Ok (Timeslice.is_expired y.(Thread.timeslice)), y)) as Hm.
  { subst m. run_monad. by rewrite Hrun. }
  destruct (thread_mut_at th m s x Hs Hx ltac:(by rewrite Hm)) as (v & Hv & Hget).
  rewrite Hm in Hv, Hget. cbn [fst snd] in Hv, Hget.
  assert (Inv (set_threads v s)) as Hs1.
  { pose proof (keeps_thread_mut th m ltac:(subst m; solve_safe) s Hs) as Hk.
    by rewrite Hv in Hk. }
  assert (get_thread th (set_threads v s) = Some y) as Hy by (cbn; by rewrite Hget, decide_True).
  destruct (task_mut_at x.(Thread.task) (modify (Task.accumulate_cpu_time 1)
    : M Task.t MtssError.t unit) _ tk Hs1 Htk eq_refl) as (w & Hw & Hgetw).
  exists v, w. split_and!.
  - unfold charge, mbind at 1, M_bind at 1. change (thread_mut th _ s) with (thread_mut th m s).
    rewrite Hv. unfold mbind at 1, M_bind at 1, with_task_mut_for_thread.
    unfold mbind at 1, M_bind at 1. rewrite thread_spec, Hy. cbn [ok_or].
    unfold with_task_mut. change (Thread.task y) with (Thread.task x). by rewrite Hw.
  - pose proof (keeps_with_task_mut x.(Thread.task) (Task.accumulate_cpu_time 1)
      ltac:(done) _ Hs1) as Hk. unfold with_task_mut in Hk. by rewrite Hw in Hk.
  - by rewrite Hget, decide_True.
  - exists tk. split; [done|]. by rewrite Hgetw, decide_True.
Qed.

Lemma tick_charge disabled th s :
  s.(current) = Some th →
  on_timer_tick_with_preemption_disabled disabled s =
    (expired ← charge th;
     if negb expired then mret None
     else
       modify (set_need_resched true) ;;
       with_stats MtssStats.with_preemption ;;
       x ← thread th;
       emit_thread MtssEventKind.TimesliceExpired x.(Thread.task) th ;;
       if disabled then mret None else reschedule_if_needed)
    (set_now (sat_add 64 s.(now) 1) s).
Proof.
  intros Hc. unfold on_timer_tick_with_preemption_disabled.
  do 2 (etrans; [exact (bind_ok _ _ _ _ _ eq_refl)|]). cbn [set_now current].
  rewrite Hc. unfold charge. symmetry. etrans; [apply bind_assoc|].
  apply bind_ext. intros e s1. etrans; [apply bind_assoc|]. by apply bind_ext.
Qed.

(** A tick that does not exhaust the slice only accounts; the last one requeues
    the running thread and dispatches the head of the queue. *)
Lemma tick_running s th rs x :
  rr s th rs → get_thread th s = Some x → (1 < x.(Thread.timeslice))%Z →
  ∃ s', on_timer_tick s = (Ok None, s') ∧ rr s' th rs ∧
    s'.(now) = sat_add 64 s.(now) 1 ∧ s'.(need_resched) = s.(need_resched) ∧
    (∃ y, get_thread th s' = Some y ∧ y.(Thread.timeslice) = x.(Thread.timeslice) - 1)%Z.
Proof.
  intros [Hs Hc (x' & Hx' & Hrun) Hq] Hx Hts. assert (x' = x) as -> by congruence.
  set (s0 := set_now (sat_add 64 s.(now) 1) s).
  destruct (charge_spec th s0 x (inv_set_now _ _ Hs) Hx Hrun) as (v & w & Hch & Hs1 & Hy & _).
  unfold on_timer_tick. rewrite (tick_charge false th s Hc). fold s0.
  unfold mbind at 1, M_bind at 1. rewrite Hch. cbn -[charge].
  unfold Timeslice.is_expired, Timeslice.consume_tick, sat_sub.
  rewrite bool_decide_eq_false_2 by lia. cbn. eexists. split; [done|]. split_and!; [|done|done|].
  - split; cbn; [exact Hs1|done|eauto|done].
  - eexists. split; [exact Hy|]. cbn. unfold Timeslice.consume_tick, sat_sub. lia.
Qed.

Lemma tick_expires s th rs x :
  rr s th rs → get_thread th s = Some x → x.(Thread.timeslice) = 1%Z →
  ∃ s' rec d r rest, on_timer_tick s = (Ok (Some d), s') ∧
    rs ++ [rec] = r :: rest ∧ rec.(Sched.thread) = th ∧
    d.(ScheduleDecision.previous) = Some th ∧ d.(ScheduleDecision.next) = r.(Sched.thread) ∧
    d.(ScheduleDecision.at_) = sat_add 64 s.(now) 1 ∧ rr s' r.(Sched.thread) rest.
Proof.
  intros [Hs Hc (x' & Hx' & Hrun) Hq] Hx Hts. assert (x' = x) as -> by congruence.
  set (s0 := set_now (sat_add 64 s.(now) 1) s).
  destruct (charge_spec th s0 x (inv_set_now _ _ Hs) Hx Hrun) as (v & w & Hch & Hs1 & Hy & _).
  set (s1 := set_tasks w (set_threads v s0)) in *.
  set (ev := MtssEvent.thread MtssEventKind.TimesliceExpired x.(Thread.task) th
               (Some s.(config).(MtssConfig.cpu)) s0.(now)).
  set (s2 := set_stats (MtssStats.with_preemption s.(stats)) (set_need_resched true s1)).
  set (s3 := set_need_resched false (emit ev s2)).
  assert (on_timer_tick s = yield_current s3) as ->.
  { unfold on_timer_tick. rewrite (tick_charge false th s Hc). fold s0.
    etrans; [exact (bind_ok _ _ _ _ _ Hch)|].
    assert (Timeslice.is_expired (Timeslice.consume_tick x.(Thread.timeslice)) = true) as Hexp
      by (by rewrite Hts).
    cbn [Thread.reset_timeslice Thread.timeslice]. rewrite Hexp. cbn [negb].
    do 2 (etrans; [exact (bind_ok _ _ _ _ _ eq_refl)|]).
    pose proof (thread_spec th s2) as Hth. change s2.(threads) with v in Hth. rewrite Hy in Hth.
    etrans; [exact (bind_ok _ _ _ _ _ Hth)|].
    do 2 (etrans; [exact (bind_ok _ _ _ _ _ eq_refl)|]).
    change (emit _ _) with (emit ev s2).
    pose proof (emit_frame ev s2) as (_ & _ & _ & _ & _ & _ & _ & Hnr).
    rewrite Hnr. done. }
  pose proof (emit_frame ev s2) as (_ & Hf2 & Hf3 & Hf4 & _ & Hf6 & _ & _).
  assert (rr s3 th rs) as Hrr3.
  { split.
    - by apply inv_set_need_resched, inv_emit, inv_set_stats, inv_set_need_resched.
    - subst s3. cbn. by rewrite Hf4.
    - subst s3. cbn. rewrite Hf2. eauto.
    - subst s3. cbn. by rewrite Hf3. }
  destruct (yield_round _ _ _ Hrr3) as (s' & rec & d & r & rest & ? & ? & ? & ? & ? & Hat & ?).
  exists s', rec, d, r, rest. split_and!; try done. rewrite Hat. subst s3. cbn. by rewrite Hf6.
Qed.

Fixpoint ticks (n : nat) (s : t)
    : list (result MtssError.t (option ScheduleDecision.t)) * t :=
  match n with
  | 0 => ([], s)
  | S n' =>
      let '(r, s1) := on_timer_tick s in
      let '(rs, s2) := ticks n' s1 in (r :: rs, s2)
  end.

(** Preemption happens exactly when the slice is used up.  A running thread
    with a slice of [n + 1] ticks keeps the processor for [n] ticks; tick
    [n + 1] puts it at the back of the queue and dispatches the oldest queued
    thread (itself if the queue was empty). *)
Theorem timeslice_preempts_exactly (n : nat) s th x w rs :
  reachable s → s.(current) = Some th →
  get_thread th s = Some x → x.(Thread.state) = ThreadState.Running →
  x.(Thread.timeslice) = Z.of_nat (n + 1) →
  RunQueue.holds s.(run_queue) w rs → length w < RunQueue.max s.(run_queue) →
  ∃ d s', ticks (n + 1) s = (replicate n (Ok None) ++ [Ok (Some d)], s') ∧
    d.(ScheduleDecision.previous) = Some th ∧
    d.(ScheduleDecision.next) = hd th (Sched.thread <$> rs) ∧
    s'.(current) = Some d.(ScheduleDecision.next) ∧
    ∃ w' rs', RunQueue.holds s'.(run_queue) w' rs' ∧
      (Sched.thread <$> rs') = tl ((Sched.thread <$> rs) ++ [th]).
Proof.
  intros Hs%reachable_inv Hc Hx Hrun Hts Hw Hlt.
  assert (rr s th rs) as Hrr by (split; eauto). clear Hs Hc Hrun Hw Hlt w.
  revert s x Hrr Hx Hts. induction n as [|n IH]; intros s x Hrr Hx Hts.
  - destruct (tick_expires s th rs x Hrr Hx Hts)
      as (s' & rec & d & r & rest & Ht & Heq & Hrec & Hp & Hn & _ & Hrr').
    exists d, s'. cbn. rewrite Ht. split; [done|]. split; [done|].
    assert ((Sched.thread <$> rs) ++ [th] = r.(Sched.thread) :: (Sched.thread <$> rest)) as Hmap.
    { rewrite <-Hrec. change (r.(Sched.thread) :: (Sched.thread <$> rest))
        with (Sched.thread <$> (r :: rest)). by rewrite <-Heq, fmap_app. }
    rewrite Hn, Hmap. split_and!.
    + destruct rs; cbn in Hmap |- *; by simplify_eq.
    + apply Hrr'.
    + destruct (rr_queue _ _ _ Hrr') as (w' & Hw' & _). eauto.
  - destruct (tick_running s th rs x Hrr Hx) as (s1 & Ht & Hrr1 & _ & _ & y & Hy & Hts1); [lia|].
    destruct (IH s1 y Hrr1 Hy) as (d & s' & Hticks & Hrest); [lia|].
    exists d, s'. split; [|exact Hrest]. cbn [Nat.add ticks replicate app].
    by rewrite Ht, Hticks.
Qed.

(** ** The event log *)
Definition emits (evs : list MtssEvent.t) (s : t) : t := foldl (flip emit) s evs.

Lemma drain_log s x xs :
  event_log s (x :: xs) →
  ∃ s', drain_event s = (Some x, s') ∧ event_log s' xs ∧
        length s'.(events) = length s.(events).
Proof.
  destruct s as [? ? ? ? ? ? ? ? evs hd n dr]. unfold event_log, drain_event; cbn.
  intros (Hf & -> & Hh). pose proof (fifo_length _ _ _ Hf) as Hle. cbn in Hle.
  assert (hd < length evs) as Hlt by (destruct Hh; lia).
  rewrite (fifo_head _ _ _ _ Hf Hlt). eexists. split; [done|]. cbn.
  rewrite length_insert, Nat.sub_0_r. split_and!; [by apply fifo_pop with x|done| |done].
  left. apply Nat.mod_upper_bound. lia.
Qed.

Lemma drain_all s xs :
  event_log s xs → ∃ s', drain_events_to s = (xs, s') ∧ event_log s' [].
Proof.
  intros Hlog. unfold drain_events_to. replace s.(event_len) with (length xs) by (symmetry; apply Hlog).
  revert s Hlog. induction xs as [|x xs IH]; intros s Hlog.
  - exists s. destruct Hlog as (Hf & Hl & Hh). cbn in Hl.
    cbn. unfold drain_event. rewrite decide_True by done. by split_and!.
  - destruct (drain_log s x xs Hlog) as (s1 & Hd & Hlog1 & _).
    destruct (IH s1 Hlog1) as (s' & Hrest & Hnil). exists s'. split; [|done].
    cbn [length]. change (drain_loop (S (S (length xs))) s) with
      (match drain_event s with
       | (None, s') => ([], s')
       | (Some event, s') =>
           let '(rest, s'') := drain_loop (S (length xs)) s' in (event :: rest, s'')
       end). by rewrite Hd, Hrest.
Qed.

Lemma last_n_last_n {A} n (xs ys : list A) :
  last_n n (last_n n xs ++ ys) = last_n n (xs ++ ys).
Proof.
  unfold last_n. destruct (decide (length xs ≤ n)) as [Hle|Hgt].
  { by replace (length xs - n) with 0 by lia. }
  rewrite !length_app, length_drop.
  rewrite <-(drop_app_le xs ys (length xs - n)) by lia. rewrite drop_drop. f_equal. lia.
Qed.

Lemma emits_log evs s xs :
  event_log s xs →
  event_log (emits evs s) (last_n (length s.(events)) (xs ++ evs)) ∧
  length (emits evs s).(events) = length s.(events) ∧
  (0 <= s.(dropped_events) <= umax 64 →
   (emits evs s).(dropped_events) =
     sat_add 64 s.(dropped_events) (Z.of_nat (length xs + length evs - length s.(events))))%Z.
Proof.
  revert s xs. induction evs as [|ev evs IH] using rev_ind; intros s xs Hlog.
  - rewrite app_nil_r. cbn. pose proof (fifo_length _ _ _ (proj1 Hlog)).
    unfold last_n. replace (length xs - length s.(events)) with 0 by lia.
    split_and!; [done|done|]. intros ?. replace (length xs + 0 - _) with 0 by lia.
    rewrite sat_add_small; lia.
  - destruct (IH s xs Hlog) as (Hlog1 & Hlen1 & Hdr1).
    unfold emits in *. rewrite foldl_app. cbn [foldl flip].
    set (s1 := foldl _ s evs) in *.
    destruct (emit_log ev s1 _ Hlog1) as (Hlog2 & Hdr2 & Hlen2).
    unfold flip in *. rewrite Hlen1, last_n_last_n, <-app_assoc in Hlog2. split_and!; [done|by rewrite Hlen2|].
    intros Hb. rewrite Hdr2, (Hdr1 Hb), Hlen1. unfold last_n. rewrite length_drop, !length_app. cbn.
    clear Hdr1 Hdr2. unfold sat_add. case_decide; lia.
Qed.

(** The event ring is a log of the latest events.  Whatever the scheduler
    has recorded, recording [evs] on top and then draining returns the pending
    events followed by [evs], cut to the last [EVENT_QUEUE_DEPTH]; the drained
    ring is empty, and [dropped_events] has grown by exactly the number of
    events that were lost. *)
Theorem event_log_keeps_latest s evs :
  reachable s → (0 <= s.(dropped_events) <= umax 64)%Z →
  let pending := (drain_events_to s).1 in
  let depth := length s.(events) in
  ∃ s', drain_events_to (emits evs s) = (last_n depth (pending ++ evs), s') ∧
    s'.(event_len) = 0 ∧
    (emits evs s).(dropped_events) =
      sat_add 64 s.(dropped_events) (Z.of_nat (length pending + length evs - depth)).
Proof.
  intros Hs%reachable_inv Hb pending depth. destruct (inv_events _ _ Hs) as [xs Hlog].
  destruct (drain_all s xs Hlog) as (s0 & Hd & _). subst pending. rewrite Hd. cbn [fst].
  destruct (emits_log evs s xs Hlog) as (Hlog' & _ & Hdr).
  destruct (drain_all _ _ Hlog') as (s' & Hd' & Hnil). exists s'.
  split_and!; [done|apply Hnil|by apply Hdr].
Qed.

(** ** Where the code and its comments part ways *)

(** [requeue_current] clears [current] before it checks the run queue's
    capacity: in any reachable state with a full queue it fails with
    [RunQueueFull] and leaves the running thread neither current nor in any
    other way different, so a thread that was not also queued is lost to the
    scheduler. *)
Theorem requeue_current_strands s c :
  reachable s → s.(current) = Some c →
  s.(run_queue).(RunQueue.len) = RunQueue.max s.(run_queue) →
  (∀ r, Some r ∈ s.(run_queue).(RunQueue.queue) → r.(Sched.thread) ≠ c) →
  requeue_current s = (Err MtssError.RunQueueFull, set_current None s) ∧
  unreferenced c (set_current None s) ∧
  ∃ x, get_thread c (set_current None s) = Some x ∧
       ThreadState.may_schedule x.(Thread.state) = true.
Proof.
  intros Hs%reachable_inv Hc Hfull Hnq. split_and!.
  - unfold requeue_current. do 2 (etrans; [exact (bind_ok _ _ _ _ _ eq_refl)|]). rewrite Hc.
    unfold ready_current_for_requeue, mbind at 1, M_bind at 1, ensure_run_queue_capacity.
    by rewrite decide_True.
  - intros [(r & Hr & Heq)|?]; [by apply (Hnq r)|done].
  - apply (core_referenced _ _ _ _ (inv_core _ _ Hs) c). by right.
Qed.

(** is some record of thread [k] queued? *)
Definition queued (k : ThreadId) (s : t) : bool :=
  slot_any (λ r, bool_decide (r.(Sched.thread) = k)) s.(run_queue).(RunQueue.queue).

(** Two threads and a run queue for two: block the second and wake it again. *)
Definition two_ready : t :=
  run [CreateTask 1 None 0 0; CreateThread 1 10 0; CreateThread 1 11 0;
       EnqueueThread 10; EnqueueThread 11; BlockThread 11] (new 2 3 2 8 MtssConfig.default).

(** Waking one thread can drop another.  There is a reachable state in which
    thread 10 is [Ready] and queued and a successful [wake_thread 11] leaves it
    [Ready] but neither queued nor current; from then on [pick_next] only ever
    finds thread 11. *)
Theorem wake_drops_ready_thread :
  reachable two_ready ∧ queued 10 two_ready = true ∧
  (wake_thread 11 two_ready).1 = Ok tt ∧
  let s := (wake_thread 11 two_ready).2 in
  (Thread.state <$> get_thread 10%Z s) = Some ThreadState.Ready ∧
  queued 10 s = false ∧ s.(current) = None ∧
  dispatched (pick_next s).1 = Some 11%Z ∧
  (pick_next (pick_next s).2).1 = Ok None.
Proof. split; [apply reachable_run|]. vm_compute. split_and!; reflexivity. Qed.

(** A task with two ready threads, just contained. *)
Definition contained : t :=
  run [CreateTask 1 None 0 0; CreateThread 1 10 0; CreateThread 1 11 0;
       EnqueueThread 10; EnqueueThread 11; ContainTask 1] (new 2 3 4 8 MtssConfig.default).

(** Containment does not hold.  After [contain_task] the task is [Blocked] and
    its threads are unscheduled but still [Ready]; blocking one of them makes the
    task [Runnable] again, and re-enqueueing the other one dispatches it. *)
Theorem containment_escapes :
  reachable contained ∧
  (Task.state <$> get_task 1%Z contained) = Some TaskState.Blocked ∧
  queued 10 contained = false ∧ queued 11 contained = false ∧
  (Thread.state <$> get_thread 10%Z contained) = Some ThreadState.Ready ∧
  let s := run [BlockThread 11; EnqueueThread 10] contained in
  (Task.state <$> get_task 1%Z s) = Some TaskState.Runnable ∧
  dispatched (pick_next s).1 = Some 10%Z.
Proof. split; [apply reachable_run|]. vm_compute. split_and!; reflexivity. Qed.

(** ** The theorems at work

    Thread 10 runs with its full slice of four ticks; threads 11 and 12 are
    queued, 13 is blocked. *)
Definition demo : t :=
  run [CreateTask 1 None 0 0; CreateTask 2 (Some 1%Z) 0 0;
       CreateThread 1 10 0; CreateThread 1 11 0; CreateThread 2 12 0; CreateThread 2 13 0;
       EnqueueThread 13; BlockThread 13;
       EnqueueThread 10; EnqueueThread 11; EnqueueThread 12; PickNext]
    (new 4 8 8 4 MtssConfig.default).

Lemma demo_reachable : reachable demo.
Proof. apply reachable_run. Qed.

Definition demo_thread : Thread.t := Thread.mk 10 1 ThreadState.Running 0 4 0.

Definition demo_records : list SRecord := [Sched.new 11 1 0 4; Sched.new 12 2 0 4]%Z.

Lemma demo_holds : RunQueue.holds demo.(run_queue) (Some <$> demo_records) demo_records.
Proof.
  split; [split; [by apply Nat.leb_le|by vm_compute]|by vm_compute..|].
  left. by apply Nat.ltb_lt.
Qed.

Lemma demo_current : demo.(current) = Some 10%Z.
Proof. by vm_compute. Qed.

Lemma scheduler_invariant_witness : Inv demo.
Proof. apply (scheduler_invariant demo). apply demo_reachable. Defined.

Lemma pick_next_dispatches_witness :
  ∃ r s', pick_next demo = (Ok r, s') ∧ dispatched (Ok r) = Some 11%Z.
Proof.
  destruct (pick_next_dispatches demo demo_reachable) as (r & s' & Hp & _).
  exists r, s'. split; [exact Hp|]. apply (f_equal (dispatched ∘ fst)) in Hp.
  symmetry. exact Hp.
Defined.

Lemma block_thread_outcome_witness :
  ∃ s', block_thread 10 demo = (Ok tt, s') ∧ unreferenced 10 s'.
Proof.
  pose proof (block_thread_outcome demo 10 demo_reachable) as H.
  assert (get_thread 10%Z demo = Some demo_thread) as Hx by (by vm_compute).
  rewrite Hx in H. destruct H as (s' & tk & Hb & Hu & _).
  exists s'. split; [exact Hb|exact Hu].
Defined.

Lemma wake_thread_queues_witness :
  ∃ x s', get_thread 13%Z demo = Some x ∧ wake_thread 13 demo = (Ok tt, s') ∧
    Some (schedule_record (Thread.set_state ThreadState.Ready x))
      ∈ s'.(run_queue).(RunQueue.queue).
Proof.
  destruct (get_thread 13%Z demo) as [x|] eqn:Hx; [|by vm_compute in Hx].
  assert (x.(Thread.state) = ThreadState.Blocked) as Hst.
  { vm_compute in Hx. injection Hx as <-. reflexivity. }
  destruct (wake_thread_queues demo 13 x demo_reachable Hx (or_introl Hst))
    as (s' & tk & Hw & _ & Hin & _); [by vm_compute|].
  exists x, s'. auto.
Defined.

Lemma terminate_then_reap_witness :
  ∃ s1 s2, terminate_task 1 demo = (Ok tt, s1) ∧ reap_task 1 s1 = (Ok tt, s2) ∧
    get_task 1%Z s2 = None.
Proof.
  destruct (get_task 1%Z demo) as [x|] eqn:Hx; [|by vm_compute in Hx].
  destruct (terminate_then_reap demo 1 x demo_reachable Hx)
    as (s1 & s2 & H1 & H2 & _ & _ & H3 & _). eauto.
Defined.

Lemma round_robin_fair_witness :
  (dispatched <$> (yields 3 demo).1) = [Some 11; Some 12; Some 10]%Z.
Proof.
  destruct (get_thread 10%Z demo) as [x|] eqn:Hx; [|by vm_compute in Hx].
  assert (x.(Thread.state) = ThreadState.Running) as Hst.
  { vm_compute in Hx. injection Hx as <-. reflexivity. }
  assert (length (Some <$> demo_records) < RunQueue.max demo.(run_queue)) as Hlt.
  { by apply Nat.ltb_lt. }
  pose proof (round_robin_fair demo 10 x _ _ demo_reachable demo_current Hx Hst
    demo_holds Hlt) as H.
  change (length demo_records + 1) with 3 in H.
  destruct (yields 3 demo) as [ds s']. apply H.
Defined.

Lemma timeslice_preempts_exactly_witness :
  ∃ d s', ticks 4 demo = ([Ok None; Ok None; Ok None; Ok (Some d)], s') ∧
    d.(ScheduleDecision.previous) = Some 10%Z ∧ d.(ScheduleDecision.next) = 11%Z.
Proof.
  destruct (get_thread 10%Z demo) as [x|] eqn:Hx; [|by vm_compute in Hx].
  assert (x.(Thread.state) = ThreadState.Running ∧ x.(Thread.timeslice) = 4%Z) as [Hst Hts].
  { vm_compute in Hx. injection Hx as <-. split; reflexivity. }
  assert (length (Some <$> demo_records) < RunQueue.max demo.(run_queue)) as Hlt.
  { by apply Nat.ltb_lt. }
  destruct (timeslice_preempts_exactly 3 demo 10 x _ _ demo_reachable demo_current
    Hx Hst Hts demo_holds Hlt) as (d & s' & H1 & H2 & H3 & _).
  exists d, s'. auto.
Defined.

Lemma event_log_keeps_latest_witness :
  let ev := MtssEvent.task MtssEventKind.TaskReaped 7 0 in
  ∃ s', drain_events_to (emits [ev] demo) =
          (last_n 4 ((drain_events_to demo).1 ++ [ev]), s') ∧ s'.(event_len) = 0.
Proof.
  intros ev. destruct (event_log_keeps_latest demo [ev] demo_reachable)
    as (s' & H1 & H2 & _); [by vm_compute|]. exists s'. auto.
Defined.

(** a queue of one, filled while thread 10 runs *)
Definition full_queue : t :=
  run [CreateTask 1 None 0 0; CreateThread 1 10 0; CreateThread 1 11 0;
       EnqueueThread 10; PickNext; EnqueueThread 11] (new 2 2 1 4 MtssConfig.default).

Lemma requeue_current_strands_witness :
  requeue_current full_queue = (Err MtssError.RunQueueFull, set_current None full_queue).
Proof.
  refine (proj1 (requeue_current_strands full_queue 10 (reachable_run _ _ _ _ _ _)
    eq_refl eq_refl _)).
  intros r Hr. vm_compute in Hr. apply list_elem_of_singleton in Hr. injection Hr as ->. done.
Defined.
