(* ===== verification/TaskCore.v ===== *)
(** * The MTSS task/thread core

    Model of [crates/mirage-mtss/src/task_core.rs]: the fixed-capacity core that
    launches userspace.  [CoreMtss.t] has the fields of the struct; the const
    generics TASKS, THREADS and READY are the lengths of its arrays.  The second
    half refines it to an abstract round-robin scheduler: one running thread and
    a list of the ready ones, with the idle thread as fallback. *)

From stdpp Require Import prelude strings.
From S2P Require Import Prelude Slots Ring MtssTypes.

Module TaskKind.
Inductive t : Type := Kernel | Userspace.
End TaskKind.

Module StackRange.
Record t : Type := new { bottom : Z; top : Z }.
Definition len (r : t) : Z := sat_sub r.(top) r.(bottom).
Definition is_valid (r : t) : bool := bool_decide (r.(bottom) < r.(top))%Z.
End StackRange.

Module SavedRegisters.
Record t : Type := mk {
  rax : Z; rbx : Z; rcx : Z; rdx : Z; rsi : Z; rdi : Z; rbp : Z; r8 : Z; r9 : Z;
  r10 : Z; r11 : Z; r12 : Z; r13 : Z; r14 : Z; r15 : Z
}.
Definition zeroed : t := mk 0 0 0 0 0 0 0 0 0 0 0 0 0 0 0.
End SavedRegisters.

Module CpuContext.
Record t : Type := mk { rip : Z; rsp : Z; rflags : Z; cr3 : Z; regs : SavedRegisters.t }.
Definition USER_RFLAGS : Z := 0x202.
Definition kernel_placeholder (rip rsp : Z) : t :=
  mk rip rsp USER_RFLAGS 0 SavedRegisters.zeroed.
Definition userspace_entry (entry user_stack_top cr3 : Z) : t :=
  mk entry user_stack_top USER_RFLAGS cr3 SavedRegisters.zeroed.
End CpuContext.

Module CoreTask.
Record t : Type := mk {
  id : TaskId;
  kind : TaskKind.t;
  state : TaskState.t;
  address_space : option AddressSpaceId;
  main_thread : ThreadId;
  name : string
}.
Definition set_state (st : TaskState.t) (x : t) : t :=
  mk x.(id) x.(kind) st x.(address_space) x.(main_thread) x.(name).
End CoreTask.

Module CoreThread.
Record t : Type := mk {
  id : ThreadId;
  task : TaskId;
  state : ThreadState.t;
  kernel_stack : StackRange.t;
  user_stack : option StackRange.t;
  context : CpuContext.t
}.
Definition set_state (st : ThreadState.t) (x : t) : t :=
  mk x.(id) x.(task) st x.(kernel_stack) x.(user_stack) x.(context).
End CoreThread.

Module UserProgramImage.
Record t : Type := mk {
  entry : Z;
  address_space : AddressSpaceId;
  user_stack : StackRange.t;
  cr3 : Z
}.
End UserProgramImage.

Module UserThreadPreflight.
Record t : Type := mk {
  canonical_rip : bool;
  canonical_rsp : bool;
  executable_user_rip_mapping : bool;
  writable_user_stack_mapping : bool;
  valid_user_cs : bool;
  valid_user_ss : bool;
  valid_kernel_stack : bool;
  valid_tss_rsp0 : bool;
  valid_address_space : bool;
  valid_cr3 : bool
}.
Definition complete (p : t) : bool :=
  p.(canonical_rip) && p.(canonical_rsp) && p.(executable_user_rip_mapping) &&
  p.(writable_user_stack_mapping) && p.(valid_user_cs) && p.(valid_user_ss) &&
  p.(valid_kernel_stack) && p.(valid_tss_rsp0) && p.(valid_address_space) && p.(valid_cr3).
End UserThreadPreflight.

Module CoreMtssError.
Inductive t : Type :=
| TaskTableFull | ThreadTableFull | ReadyQueueFull | ReadyQueueEmpty
| InvalidAddressSpace | InvalidEntry | InvalidStack | UnknownTask | UnknownThread.
#[global] Instance eq_dec : EqDecision t.
Proof. solve_decision. Defined.
End CoreMtssError.

Definition is_canonical_user (address : Z) : bool :=
  bool_decide (address < 0x0000800000000000)%Z.

Module CoreMtss.
Definition DEFAULT_TASK_TABLE_SIZE : nat := 64.
Definition DEFAULT_THREAD_TABLE_SIZE : nat := 128.
Definition DEFAULT_READY_QUEUE_SIZE : nat := 128.

(** [TaskId::IDLE] and [ThreadId::IDLE] *)
Definition IDLE : Z := 0.

Record t : Type := mk {
  next_pid : Z;     (* u64 *)
  next_tid : Z;     (* u64 *)
  tasks : list (option CoreTask.t);
  threads : list (option CoreThread.t);
  ready : list (option ThreadId);
  ready_head : nat;
  ready_tail : nat;
  ready_len : nat;
  current : option ThreadId;
  per_cpu_idle_thread : option ThreadId;
  initialized : bool
}.

Definition Op (A : Type) : Type := M t CoreMtssError.t A.

Definition new (TASKS THREADS READY : nat) : t :=
  mk 1 1 (replicate TASKS None) (replicate THREADS None) (replicate READY None)
     0 0 0 None None false.

Definition set_next (pid tid : Z) (s : t) : t :=
  mk pid tid s.(tasks) s.(threads) s.(ready) s.(ready_head) s.(ready_tail) s.(ready_len)
     s.(current) s.(per_cpu_idle_thread) s.(initialized).
Definition set_tasks (v : list (option CoreTask.t)) (s : t) : t :=
  mk s.(next_pid) s.(next_tid) v s.(threads) s.(ready) s.(ready_head) s.(ready_tail)
     s.(ready_len) s.(current) s.(per_cpu_idle_thread) s.(initialized).
Definition set_threads (v : list (option CoreThread.t)) (s : t) : t :=
  mk s.(next_pid) s.(next_tid) s.(tasks) v s.(ready) s.(ready_head) s.(ready_tail)
     s.(ready_len) s.(current) s.(per_cpu_idle_thread) s.(initialized).
Definition set_ready (v : list (option ThreadId)) (hd tl n : nat) (s : t) : t :=
  mk s.(next_pid) s.(next_tid) s.(tasks) s.(threads) v hd tl n
     s.(current) s.(per_cpu_idle_thread) s.(initialized).
Definition set_current (v : option ThreadId) (s : t) : t :=
  mk s.(next_pid) s.(next_tid) s.(tasks) s.(threads) s.(ready) s.(ready_head) s.(ready_tail)
     s.(ready_len) v s.(per_cpu_idle_thread) s.(initialized).
Definition set_idle (v : option ThreadId) (init : bool) (s : t) : t :=
  mk s.(next_pid) s.(next_tid) s.(tasks) s.(threads) s.(ready) s.(ready_head) s.(ready_tail)
     s.(ready_len) s.(current) v init.

(** ** Tables *)
Definition task (id : TaskId) (s : t) : option CoreTask.t :=
  slot_find (λ x, bool_decide (x.(CoreTask.id) = id)) s.(tasks).

Definition thread (id : ThreadId) (s : t) : option CoreThread.t :=
  slot_find (λ x, bool_decide (x.(CoreThread.id) = id)) s.(threads).

(** [if let Some(task) = self.task_mut(id) { task.state = st; }] *)
Definition set_task_state (id : TaskId) (st : TaskState.t) (s : t) : t :=
  match find_slot (λ x, bool_decide (x.(CoreTask.id) = id)) s.(tasks) with
  | None => s
  | Some i =>
      match s.(tasks) !! i with
      | Some (Some x) => set_tasks (<[i := Some (CoreTask.set_state st x)]> s.(tasks)) s
      | _ => s
      end
  end.

(** [if let Some(thread) = self.thread_mut(id) { thread.state = st; Some(thread.task) }
    else { None }] *)
Definition set_thread_state (id : ThreadId) (st : ThreadState.t) (s : t) : option TaskId * t :=
  match find_slot (λ x, bool_decide (x.(CoreThread.id) = id)) s.(threads) with
  | None => (None, s)
  | Some i =>
      match s.(threads) !! i with
      | Some (Some x) =>
          (Some x.(CoreThread.task),
           set_threads (<[i := Some (CoreThread.set_state st x)]> s.(threads)) s)
      | _ => (None, s)
      end
  end.

Definition allocate_pid : Op TaskId := λ s,
  (Ok s.(next_pid), set_next (sat_add 64 s.(next_pid) 1) s.(next_tid) s).

Definition allocate_tid : Op ThreadId := λ s,
  (Ok s.(next_tid), set_next s.(next_pid) (sat_add 64 s.(next_tid) 1) s).

Definition insert_task (x : CoreTask.t) : Op unit := λ s,
  match free_slot s.(tasks) with
  | Some idx => (Ok tt, set_tasks (<[idx := Some x]> s.(tasks)) s)
  | None => (Err CoreMtssError.TaskTableFull, s)
  end.

Definition insert_thread (x : CoreThread.t) : Op unit := λ s,
  match free_slot s.(threads) with
  | Some idx => (Ok tt, set_threads (<[idx := Some x]> s.(threads)) s)
  | None => (Err CoreMtssError.ThreadTableFull, s)
  end.

(** ** Ready queue *)
Definition enqueue (th : ThreadId) : Op unit := λ s,
  let READY := length s.(ready) in
  if decide (s.(ready_len) = READY) then (Err CoreMtssError.ReadyQueueFull, s)
  else (Ok tt,
        set_ready (<[s.(ready_tail) := Some th]> s.(ready)) s.(ready_head)
          ((s.(ready_tail) + 1) mod READY) (s.(ready_len) + 1) s).

Definition dequeue : Op ThreadId := λ s,
  if decide (s.(ready_len) = 0) then (Err CoreMtssError.ReadyQueueEmpty, s)
  else
    match mjoin (s.(ready) !! s.(ready_head)) with
    | None => (Err CoreMtssError.ReadyQueueEmpty, s)
    | Some th =>
        (Ok th,
         set_ready (<[s.(ready_head) := None]> s.(ready))
           ((s.(ready_head) + 1) mod length s.(ready)) s.(ready_tail) (s.(ready_len) - 1) s)
    end.

(** ** Launch *)
Definition init_with_idle (kernel_stack : StackRange.t) : Op unit :=
  init ← gets initialized;
  if (init : bool) then mret tt
  else if negb (StackRange.is_valid kernel_stack) then throw CoreMtssError.InvalidStack
  else
    let idle_task :=
      CoreTask.mk IDLE TaskKind.Kernel TaskState.Runnable None IDLE "idle" in
    let idle_thread :=
      CoreThread.mk IDLE IDLE ThreadState.Ready kernel_stack None
        (CpuContext.kernel_placeholder 0 kernel_stack.(StackRange.top)) in
    insert_task idle_task ;;
    insert_thread idle_thread ;;
    modify (set_idle (Some IDLE) true).

(** the checks of [spawn_userspace] before anything is allocated *)
Definition spawn_checks (program : UserProgramImage.t) (kernel_stack : StackRange.t)
    (preflight : UserThreadPreflight.t) : result CoreMtssError.t unit :=
  if decide (program.(UserProgramImage.address_space) = 0 ∨ program.(UserProgramImage.cr3) = 0)%Z
  then Err CoreMtssError.InvalidAddressSpace
  else if negb (is_canonical_user program.(UserProgramImage.entry))
  then Err CoreMtssError.InvalidEntry
  else if negb (StackRange.is_valid program.(UserProgramImage.user_stack)) ||
          negb (is_canonical_user program.(UserProgramImage.user_stack).(StackRange.top))
  then Err CoreMtssError.InvalidStack
  else if negb (StackRange.is_valid kernel_stack) ||
          negb preflight.(UserThreadPreflight.valid_kernel_stack)
  then Err CoreMtssError.InvalidStack
  else Ok tt.

(** the error [spawn_userspace] reports for an incomplete preflight *)
Definition preflight_error (preflight : UserThreadPreflight.t) : CoreMtssError.t :=
  if negb preflight.(UserThreadPreflight.valid_address_space) ||
     negb preflight.(UserThreadPreflight.valid_cr3)
  then CoreMtssError.InvalidAddressSpace
  else if negb preflight.(UserThreadPreflight.canonical_rip) ||
          negb preflight.(UserThreadPreflight.executable_user_rip_mapping)
  then CoreMtssError.InvalidEntry
  else CoreMtssError.InvalidStack.

Definition user_task (name : string) (program : UserProgramImage.t) (task_id : TaskId)
    (thread_id : ThreadId) : CoreTask.t :=
  CoreTask.mk task_id TaskKind.Userspace TaskState.Created
    (Some program.(UserProgramImage.address_space)) thread_id name.

Definition user_thread (program : UserProgramImage.t) (kernel_stack : StackRange.t)
    (task_id : TaskId) (thread_id : ThreadId) : CoreThread.t :=
  CoreThread.mk thread_id task_id ThreadState.New kernel_stack
    (Some program.(UserProgramImage.user_stack))
    (CpuContext.userspace_entry program.(UserProgramImage.entry)
       program.(UserProgramImage.user_stack).(StackRange.top) program.(UserProgramImage.cr3)).

Definition spawn_userspace (name : string) (program : UserProgramImage.t)
    (kernel_stack : StackRange.t) (preflight : UserThreadPreflight.t) : Op TaskId :=
  lift (spawn_checks program kernel_stack preflight) ;;
  task_id ← allocate_pid;
  thread_id ← allocate_tid;
  insert_task (user_task name program task_id thread_id) ;;
  insert_thread (user_thread program kernel_stack task_id thread_id) ;;
  if negb (UserThreadPreflight.complete preflight) then throw (preflight_error preflight)
  else
    full ← gets (λ s, bool_decide (s.(ready_len) = length s.(ready)));
    if (full : bool) then throw CoreMtssError.ReadyQueueFull
    else
      modify (set_task_state task_id TaskState.Runnable) ;;
      modify (λ s, (set_thread_state thread_id ThreadState.Ready s).2) ;;
      enqueue thread_id ;;
      mret task_id.

(** ** Scheduling *)
Definition return_current_to_ready_queue : Op unit := λ s,
  match s.(current) with
  | None => (Ok tt, s)
  | Some cur =>
      let is_idle := bool_decide (Some cur = s.(per_cpu_idle_thread)) in
      match thread cur s with
      | Some x =>
          if decide (x.(CoreThread.state) = ThreadState.Running) then
            let '(task_to_ready, s1) := set_thread_state cur ThreadState.Ready s in
            ((if is_idle then mret tt else enqueue cur) ;;
             modify (λ s2, match task_to_ready with
                           | Some task_id => set_task_state task_id TaskState.Runnable s2
                           | None => s2
                           end)) s1
          else (Ok tt, s)
      | None => (Ok tt, s)
      end
  end.

(** the [while checked < candidates] loop; [fuel] is [candidates - checked] *)
Fixpoint dequeue_loop (fuel : nat) : Op (option ThreadId) :=
  match fuel with
  | 0 => mret None
  | S fuel' =>
      thread_id ← dequeue;
      idle ← gets per_cpu_idle_thread;
      if decide (Some thread_id = idle) then dequeue_loop fuel'
      else
        entry ← gets (thread thread_id);
        match entry with
        | Some x =>
            if decide (x.(CoreThread.state) = ThreadState.Ready) then mret (Some thread_id)
            else dequeue_loop fuel'
        | None => dequeue_loop fuel'
        end
  end.

Definition dequeue_non_idle_runnable : Op (option ThreadId) :=
  candidates ← gets ready_len;
  dequeue_loop candidates.

Definition mark_thread_running (thread_id : ThreadId) : Op unit := λ s,
  match set_thread_state thread_id ThreadState.Running s with
  | (Some task_id, s1) => (Ok tt, set_task_state task_id TaskState.Running s1)
  | (None, s1) => (Err CoreMtssError.UnknownThread, s1)
  end.

Definition schedule_next : Op (option ThreadId) :=
  return_current_to_ready_queue ;;
  next ← dequeue_non_idle_runnable;
  idle ← gets per_cpu_idle_thread;
  match (match next with Some next => Some next | None => idle end) with
  | None => mret None
  | Some next =>
      mark_thread_running next ;;
      modify (set_current (Some next)) ;;
      mret (Some next)
  end.

Definition on_timer_tick : Op (option ThreadId) := schedule_next.

Definition exit_current (_status : Z) : Op (option ThreadId) := λ s,
  match s.(current) with
  | None => (Ok None, s)
  | Some cur =>
      match set_thread_state cur ThreadState.Zombie (set_current None s) with
      | (Some task_id, s1) => (Ok (Some cur), set_task_state task_id TaskState.Exited s1)
      | (None, s1) => (Err CoreMtssError.UnknownThread, s1)
      end
  end.
End CoreMtss.
