(* ===== verification/TaskCoreSafety.v ===== *)
(** * What the MTSS task/thread core guarantees

    An abstract round-robin scheduler has one running thread and a list of ready
    threads, oldest first; the idle thread never waits in the list.  The core of
    TaskCore.v refines it in every reachable state when the ready queue is at
    least as large as the thread table, which the default sizes satisfy. *)

From stdpp Require Import prelude strings.
From S2P Require Import Prelude Slots Ring MtssTypes TaskCore.
Import CoreMtss.

Abbreviation get_task k s := (slot_get CoreTask.id k s.(tasks)).
Abbreviation get_thread k s := (slot_get CoreThread.id k s.(threads)).

(** ** Invariant *)

(** the state of a task, given the state of its only thread *)
Definition task_state_of (st : ThreadState.t) : TaskState.t :=
  match st with
  | ThreadState.New => TaskState.Created
  | ThreadState.Ready => TaskState.Runnable
  | ThreadState.Running => TaskState.Running
  | _ => TaskState.Exited
  end.

(** The tables: identifiers are allocated in lockstep and never repeat, every
    thread is the main thread of the task of the same number, and that task's
    state follows the thread's. *)
Record base (s : t) : Prop := {
  b_next : s.(next_pid) = s.(next_tid) ∧ (1 <= s.(next_tid) <= umax 64)%Z;
  b_room : free_slot s.(tasks) = None ∨
           (s.(next_tid) <= Z.of_nat (length (occupied s.(tasks))) + 1)%Z;
  b_sizes : length s.(threads) ≤ length s.(ready) ∧
            (Z.of_nat (length s.(tasks)) < umax 64)%Z;
  b_pids : ∀ k tk, get_task k s = Some tk → (k < s.(next_tid))%Z;
  b_tids : ∀ k th, get_thread k s = Some th →
             (0 <= k < s.(next_tid))%Z ∧ th.(CoreThread.task) = k;
  b_uniq : uniq CoreThread.id s.(threads);
  b_task : ∀ k th, get_thread k s = Some th →
             ∃ tk, get_task k s = Some tk ∧
                   tk.(CoreTask.state) = task_state_of th.(CoreThread.state);
  b_idle : s.(per_cpu_idle_thread) = (if s.(initialized) then Some IDLE else None) ∧
           (s.(initialized) = true ↔ is_Some (get_thread IDLE s));
  b_idle_task : ∀ tk, s.(initialized) = false → get_task IDLE s = Some tk →
                tk.(CoreTask.state) = TaskState.Runnable
}.

(** the ready ring holds [q], oldest first *)
Definition ring (s : t) (q : list ThreadId) : Prop :=
  fifo s.(ready) s.(ready_head) q ∧ s.(ready_len) = length q ∧
  s.(ready_tail) = (s.(ready_head) + length q) mod length s.(ready) ∧
  (s.(ready_head) < length s.(ready) ∨ length s.(ready) = 0).

Definition in_state (s : t) (k : ThreadId) (st : ThreadState.t) : Prop :=
  ∃ th, get_thread k s = Some th ∧ th.(CoreThread.state) = st.

(** the queue lists exactly the ready threads other than idle, once each *)
Definition lists_ready (s : t) (q : list ThreadId) : Prop :=
  NoDup q ∧ ∀ k, k ∈ q ↔ k ≠ IDLE ∧ in_state s k ThreadState.Ready.

(** [cur] is the running thread, and the only one *)
Definition runs (s : t) (cur : option ThreadId) : Prop :=
  ∀ k, cur = Some k ↔ in_state s k ThreadState.Running.

(** [s] represents the abstract scheduler state [(cur, q)]. *)
Record rep (s : t) (cur : option ThreadId) (q : list ThreadId) : Prop := {
  rep_base : base s;
  rep_ring : ring s q;
  rep_ready : lists_ready s q;
  rep_runs : runs s cur;
  rep_current : s.(current) = cur
}.

Lemma in_state_set s s' c x :
  (∀ j, get_thread j s' = if decide (c = j) then Some x else get_thread j s) →
  ∀ j st, in_state s' j st ↔
    (c = j ∧ x.(CoreThread.state) = st) ∨ (c ≠ j ∧ in_state s j st).
Proof.
  intros Hg j st. unfold in_state. rewrite Hg. case_decide; [|intuition congruence].
  split; [intros (th & [= <-] & ?); auto|]. intros [[_ ?]|[? _]]; [eauto|done].
Qed.

Lemma in_state_fun s k a b : in_state s k a → in_state s k b → a = b.
Proof. intros (x & Hx & <-) (y & Hy & <-). congruence. Qed.

(** ** Updating one thread and its task *)
Lemma set_thread_state_spec k st s x :
  uniq CoreThread.id s.(threads) → get_thread k s = Some x →
  ∃ v, set_thread_state k st s = (Some x.(CoreThread.task), set_threads v s) ∧
    length v = length s.(threads) ∧ uniq CoreThread.id v ∧
    (∀ j, slot_get CoreThread.id j v =
       if decide (k = j) then Some (CoreThread.set_state st x) else get_thread j s).
Proof.
  intros Hu Hx. pose proof (slot_get_key _ _ _ _ Hx) as Hk.
  unfold set_thread_state. change (λ y, bool_decide _) with (has_key CoreThread.id k).
  pose proof (find_slot_find (has_key CoreThread.id k) s.(threads)) as Hf.
  fold (slot_get CoreThread.id k s.(threads)) in Hf. rewrite Hx in Hf.
  destruct (find_slot _ _) as [i|] eqn:Hi; [|done]. destruct Hf as (y & Hy & [= <-]).
  rewrite Hy. eexists. split; [done|]. rewrite length_insert. split_and!; [done| |].
  - by eapply uniq_set.
  - intros j. by apply slot_get_update.
Qed.

Lemma set_thread_state_None k st s :
  get_thread k s = None → set_thread_state k st s = (None, s).
Proof.
  intros Hx. unfold set_thread_state.
  change (λ y, bool_decide _) with (has_key CoreThread.id k).
  pose proof (find_slot_find (has_key CoreThread.id k) s.(threads)) as Hf.
  fold (slot_get CoreThread.id k s.(threads)) in Hf. rewrite Hx in Hf.
  destruct (find_slot _ _) as [i|] eqn:Hi; [|done]. by destruct Hf as (y & _ & ?).
Qed.

Lemma length_occupied_set {T} (l : list (option T)) i x y :
  l !! i = Some (Some x) → length (occupied (<[i:=Some y]> l)) = length (occupied l).
Proof.
  revert i. induction l as [|[z|] l IH]; intros [|i]; simpl; try done.
  all: intros H; by rewrite (IH _ H).
Qed.

Lemma free_slot_set {T} (l : list (option T)) i x y :
  l !! i = Some (Some x) → free_slot (<[i:=Some y]> l) = free_slot l.
Proof.
  revert i. induction l as [|[z|] l IH]; intros [|i]; simpl; try done.
  intros H. by rewrite (IH _ H).
Qed.

Lemma set_task_state_spec k st s x :
  get_task k s = Some x →
  ∃ w, set_task_state k st s = set_tasks w s ∧ length w = length s.(tasks) ∧
    length (occupied w) = length (occupied s.(tasks)) ∧
    free_slot w = free_slot s.(tasks) ∧
    (∀ j, slot_get CoreTask.id j w =
       if decide (k = j) then Some (CoreTask.set_state st x) else get_task j s).
Proof.
  intros Hx. pose proof (slot_get_key _ _ _ _ Hx) as Hk.
  unfold set_task_state. change (λ y, bool_decide _) with (has_key CoreTask.id k).
  pose proof (find_slot_find (has_key CoreTask.id k) s.(tasks)) as Hf.
  fold (slot_get CoreTask.id k s.(tasks)) in Hf. rewrite Hx in Hf.
  destruct (find_slot _ _) as [i|] eqn:Hi; [|done]. destruct Hf as (y & Hy & [= <-]).
  rewrite Hy. eexists. split; [done|]. rewrite length_insert. split_and!; [done| | |].
  - by eapply length_occupied_set.
  - by eapply free_slot_set.
  - intros j. by apply slot_get_update.
Qed.

(** Move a thread and its task together: only their states change. *)
Lemma switch_spec k st s x :
  base s → get_thread k s = Some x →
  ∃ v w, set_thread_state k st s = (Some k, set_threads v s) ∧
    (∀ s1, s1.(tasks) = s.(tasks) →
       set_task_state k (task_state_of st) s1 = set_tasks w s1) ∧
    (∀ j, slot_get CoreThread.id j v =
       if decide (k = j) then Some (CoreThread.set_state st x) else get_thread j s) ∧
    base (set_tasks w (set_threads v s)).
Proof.
  intros B Hx. destruct (b_tids _ B k x Hx) as [_ Htask].
  destruct (set_thread_state_spec k st s x (b_uniq _ B) Hx) as (v & Hv & Hlv & Huv & Hgv).
  destruct (b_task _ B k x Hx) as (tk & Htk & _).
  destruct (set_task_state_spec k (task_state_of st) s tk Htk) as (w & Hw & Hlw & Ho & Hfr & Hgw).
  exists v, w. rewrite Htask in Hv. split_and!; [done| |done|].
  { intros s1 Hs1. unfold set_task_state in *. rewrite Hs1.
    destruct (find_slot _ _) as [i|] eqn:Hi.
    - destruct (s.(tasks) !! i) as [[y|]|] eqn:Hy.
      + apply (f_equal tasks) in Hw. cbn in Hw. by rewrite Hw.
      + apply (f_equal tasks) in Hw. cbn in Hw. destruct s1; cbn in *. by subst.
      + apply (f_equal tasks) in Hw. cbn in Hw. destruct s1; cbn in *. by subst.
    - apply (f_equal tasks) in Hw. cbn in Hw. destruct s1; cbn in *. by subst. }
  destruct B. split; cbn in *; [done|by rewrite Ho, Hfr|by rewrite Hlv, Hlw| | |done| | |].
  - intros j y. rewrite Hgw. case_decide; [|eauto]. subst. intros _. by eapply b_pids0.
  - intros j y. rewrite Hgv. case_decide; [|eauto]. subst. intros [= <-]. by destruct (b_tids0 _ _ Hx).
  - intros j y. rewrite Hgv, Hgw. case_decide; [|eauto]. intros [= <-]. eauto.
  - destruct b_idle0 as [? Hidle]. split; [done|]. rewrite Hgv. case_decide as Hk; [|done].
    rewrite Hk in Hx. rewrite Hidle, Hx. by split.
  - intros y Hi. rewrite Hgw. case_decide as Hk; [|eauto]. rewrite Hk in Hx.
    destruct b_idle0 as [_ [_ Hidle]]. rewrite Hx in Hidle. rewrite Hidle in Hi; by eauto.
Qed.

(** ** The ready ring *)
Lemma enqueue_ring k s q :
  ring s q → length q < length s.(ready) →
  ∃ r tl, enqueue k s = (Ok tt, set_ready r s.(ready_head) tl (s.(ready_len) + 1) s) ∧
    length r = length s.(ready) ∧
    ring (set_ready r s.(ready_head) tl (s.(ready_len) + 1) s) (q ++ [k]).
Proof.
  intros (Hf & Hl & Ht & Hh) Hlt. unfold enqueue. rewrite decide_False by lia.
  eexists _, _. split; [done|]. rewrite length_insert. split; [done|].
  unfold ring; cbn. rewrite length_insert, length_app. cbn. split_and!; [|lia| |done].
  - rewrite Ht. by apply fifo_push.
  - rewrite Ht, Nat.Div0.add_mod_idemp_l. f_equal. lia.
Qed.

Lemma dequeue_ring k s q :
  ring s (k :: q) →
  ∃ r hd, dequeue s = (Ok k, set_ready r hd s.(ready_tail) (s.(ready_len) - 1) s) ∧
    length r = length s.(ready) ∧
    ring (set_ready r hd s.(ready_tail) (s.(ready_len) - 1) s) q.
Proof.
  intros (Hf & Hl & Ht & Hh). pose proof (fifo_length _ _ _ Hf) as Hle. cbn in Hl, Hle.
  assert (s.(ready_head) < length s.(ready)) as Hlt by (destruct Hh; lia).
  unfold dequeue. rewrite decide_False by lia.
  rewrite (fifo_head _ _ _ _ Hf Hlt). cbn. eexists _, _. split; [done|].
  rewrite length_insert. split; [done|]. unfold ring; cbn. rewrite length_insert.
  split_and!; [by apply fifo_pop with k|lia| |left; apply Nat.mod_upper_bound; lia].
  rewrite Ht, Nat.Div0.add_mod_idemp_l. cbn. f_equal. lia.
Qed.

Lemma base_set_ready r hd tl n s :
  length r = length s.(ready) → base s → base (set_ready r hd tl n s).
Proof. intros Hr []. split; cbn; rewrite ?Hr; done. Qed.

Lemma base_set_current c s : base s → base (set_current c s).
Proof. intros []. by split. Qed.

(** Listed threads and the running one are distinct entries of the thread table. *)
Lemma ready_room s q c x :
  base s → lists_ready s q → get_thread c s = Some x →
  x.(CoreThread.state) ≠ ThreadState.Ready → length q < length s.(ready).
Proof.
  intros B [Hnd Hq] Hx Hst. destruct (b_sizes _ B) as [Hle _].
  assert (c ∉ q) as Hc.
  { intros (_ & th & Hth & ?)%Hq. congruence. }
  assert (length (c :: q) ≤ length (CoreThread.id <$> occupied s.(threads))) as Hlen.
  { apply submseteq_length, NoDup_submseteq; [by constructor|].
    intros k Hk. apply list_elem_of_fmap. apply elem_of_cons in Hk as [->|Hk].
    - exists x. split; [by rewrite (slot_get_key _ _ _ _ Hx)|].
      apply elem_of_occupied. by eapply slot_get_elem.
    - apply Hq in Hk as (_ & th & Hth & _). exists th.
      split; [by rewrite (slot_get_key _ _ _ _ Hth)|].
      apply elem_of_occupied. by eapply slot_get_elem. }
  rewrite length_fmap in Hlen. pose proof (length_occupied_le s.(threads)). cbn in Hlen. lia.
Qed.

(** ** The abstract scheduler *)

(** the ready list once the running thread has been put back *)
Definition requeued (cur : option ThreadId) (q : list ThreadId) : list ThreadId :=
  match cur with
  | Some c => if decide (c = IDLE) then q else q ++ [c]
  | None => q
  end.

Lemma return_current_spec s cur q :
  rep s cur q →
  ∃ s1, return_current_to_ready_queue s = (Ok tt, s1) ∧ base s1 ∧
    ring s1 (requeued cur q) ∧ lists_ready s1 (requeued cur q) ∧ runs s1 None ∧
    s1.(current) = s.(current) ∧ s1.(initialized) = s.(initialized).
Proof.
  intros [B Hr Hq Hrun Hc]. unfold return_current_to_ready_queue. rewrite Hc.
  destruct cur as [c|]; [|by exists s]. cbn [requeued].
  destruct (proj1 (Hrun c) eq_refl) as (x & Hx & Hst).
  change (thread c s) with (get_thread c s). rewrite Hx, decide_True by done.
  destruct (switch_spec c ThreadState.Ready s x B Hx) as (v & w & -> & Hw & Hgv & B').
  assert (runs (set_tasks w (set_threads v s)) None) as Hnone.
  { intros k. rewrite (in_state_set s (set_tasks w (set_threads v s)) c _ Hgv). cbn. split; [done|].
    intros [[_ ?]|[? [= ?]%Hrun]]; done. }
  destruct (b_idle _ B) as [Hidle Hinit].
  destruct (decide (c = IDLE)) as [->|Hne].
  - assert (s.(initialized) = true) as Hi by (apply Hinit; eauto).
    rewrite bool_decide_eq_true_2 by (by rewrite Hidle, Hi).
    unfold mbind, M_bind, mret, M_ret, modify.
    change TaskState.Runnable with (task_state_of ThreadState.Ready). rewrite Hw by done.
    eexists. split; [done|]. split_and!; try done. split; [apply Hq|]. intros k.
    rewrite (proj2 Hq), (in_state_set s (set_tasks w (set_threads v s)) IDLE _ Hgv). intuition congruence.
  - rewrite bool_decide_eq_false_2 by (rewrite Hidle; case_match; congruence).
    assert (length q < length s.(ready)) as Hroom.
    { eapply ready_room; [done..|]. congruence. }
    destruct (enqueue_ring c (set_threads v s) q Hr Hroom) as (r & tl & He & Hlr & Hr').
    unfold mbind, M_bind. rewrite He. unfold modify.
    change TaskState.Runnable with (task_state_of ThreadState.Ready).
    rewrite Hw by done. eexists. split; [done|].
    split_and!; [|exact Hr'| |exact Hnone|done|done].
    { apply (base_set_ready r s.(ready_head) tl (s.(ready_len) + 1)) in B'; done. }
    destruct Hq as [Hnd Hq]. assert (c ∉ q) as Hcq.
    { intros [_ Hcq]%Hq. assert (in_state s c ThreadState.Running) as Hcr by (by apply Hrun).
      pose proof (in_state_fun _ _ _ _ Hcq Hcr). done. }
    split.
    { apply NoDup_app. split_and!; [done| |apply NoDup_singleton].
      intros k Hk ->%list_elem_of_singleton. done. }
    intros k. rewrite elem_of_app, list_elem_of_singleton, Hq.
    change (in_state _ k ThreadState.Ready) with
      (in_state (set_tasks w (set_threads v s)) k ThreadState.Ready) at 2.
    rewrite (in_state_set s (set_tasks w (set_threads v s)) c _ Hgv). split.
    + intros [[??]| ->]; [|by auto]. split; [done|]. right. split; [|done].
      intros ->. apply Hcq, Hq. done.
    + intros [? [[-> _]|[_ ?]]]; auto.
Qed.

Lemma dequeue_spec s q :
  base s → ring s q → lists_ready s q →
  ∃ r hd n, let s1 := set_ready r hd s.(ready_tail) n s in
    dequeue_non_idle_runnable s = (Ok (hd_error q), s1) ∧ base s1 ∧ ring s1 (tl q).
Proof.
  intros B Hr [Hnd Hq]. unfold dequeue_non_idle_runnable, mbind at 1, M_bind at 1, gets at 1.
  destruct Hr as (Hf & Hl & Ht & Hh) eqn:HE. rewrite Hl. destruct q as [|k q]; cbn [length].
  { exists s.(ready), s.(ready_head), s.(ready_len). cbn. destruct s; cbn in *. done. }
  destruct (dequeue_ring k s q Hr) as (r & hd & Hd & Hlr & Hr').
  exists r, hd, (s.(ready_len) - 1). cbn zeta. cbn [hd_error tl dequeue_loop].
  unfold mbind at 1, M_bind at 1. rewrite Hd. unfold mbind at 1, M_bind at 1, gets at 1.
  destruct (proj1 (Hq k) (list_elem_of_here _ _)) as (Hne & th & Hth & Hst).
  rewrite decide_False by (cbn; rewrite (proj1 (b_idle _ B)); case_match; congruence).
  unfold mbind at 1, M_bind at 1, gets at 1. change (thread k _) with (get_thread k s).
  rewrite Hth, decide_True by done. split_and!; [done|by apply base_set_ready|done].
Qed.

Lemma mark_running_spec s k x :
  base s → get_thread k s = Some x → runs s None →
  ∃ v w, mark_thread_running k s = (Ok tt, set_tasks w (set_threads v s)) ∧
    base (set_tasks w (set_threads v s)) ∧ runs (set_tasks w (set_threads v s)) (Some k) ∧
    (∀ j, slot_get CoreThread.id j v =
       if decide (k = j) then Some (CoreThread.set_state ThreadState.Running x)
       else get_thread j s).
Proof.
  intros B Hx Hnone.
  destruct (switch_spec k ThreadState.Running s x B Hx) as (v & w & Hv & Hw & Hgv & B').
  exists v, w. unfold mark_thread_running. rewrite Hv.
  change TaskState.Running with (task_state_of ThreadState.Running). rewrite Hw by done.
  split_and!; [done|done| |done]. intros j. rewrite (in_state_set s (set_tasks w (set_threads v s)) k _ Hgv). split.
  - intros [= <-]. by left.
  - intros [[-> _]|[_ Hj%Hnone]]; done.
Qed.

(** the abstract [schedule_next]: the head of the ready list, or idle *)
Definition spec_schedule (init : bool) (cur : option ThreadId) (q : list ThreadId)
    : option ThreadId * list ThreadId :=
  match requeued cur q with
  | [] => (if init then Some IDLE else None, [])
  | k :: q' => (Some k, q')
  end.

Lemma schedule_next_spec s cur q :
  rep s cur q →
  let '(next, q') := spec_schedule s.(initialized) cur q in
  ∃ s', schedule_next s = (Ok next, s') ∧ rep s' next q' ∧ s'.(initialized) = s.(initialized).
Proof.
  intros Hrep.
  destruct (return_current_spec s cur q Hrep) as (s1 & Hret & B1 & Hr1 & Hq1 & Hn1 & Hc1 & Hi1).
  destruct (dequeue_spec s1 _ B1 Hr1 Hq1) as (r & hd & n & Hd & B2 & Hr2).
  set (s2 := set_ready r hd s1.(ready_tail) n s1) in *. destruct (b_idle _ B2) as [Hidle Hth].
  change s2.(initialized) with s1.(initialized) in *. rewrite Hi1 in Hidle, Hth.
  destruct (spec_schedule s.(initialized) cur q) as [next q'] eqn:Hspec.
  assert (schedule_next s = (match next with
    | None => mret None
    | Some k => mark_thread_running k ;; modify (set_current (Some k)) ;; mret (Some k)
    end) s2) as Hsched.
  { unfold schedule_next. etrans; [exact (bind_ok _ _ _ _ _ Hret)|].
    etrans; [exact (bind_ok _ _ _ _ _ Hd)|]. etrans; [exact (bind_ok _ _ _ _ _ eq_refl)|].
    rewrite Hidle. unfold spec_schedule in Hspec.
    destruct (requeued cur q); [destruct (s.(initialized))|]; by injection Hspec as <- _. }
  rewrite Hsched. clear Hsched. destruct next as [next|].
  2:{ unfold spec_schedule in Hspec. destruct (requeued cur q) as [|? ?] eqn:Hrq; [|done].
      destruct (s.(initialized)) eqn:Hinit; [done|]. injection Hspec as <-.
      assert (cur = None) as ->.
      { destruct cur as [c|]; [|done]. cbn in Hrq. case_decide; [|by destruct q]. subst c.
        destruct (proj1 (rep_runs _ _ _ Hrep IDLE) eq_refl) as (x & Hx & _).
        destruct (b_idle _ (rep_base _ _ _ Hrep)) as [_ [_ Hi]].
        rewrite Hi in Hinit; [done|eauto]. }
      exists s2. split; [done|]. split; [|done].
      split; [done|done|exact Hq1|exact Hn1|]. by rewrite <-(rep_current _ _ _ Hrep), <-Hc1. }
  assert (∃ x, get_thread next s2 = Some x) as [x Hx].
  { unfold spec_schedule in Hspec. destruct (requeued cur q) as [|k q0].
    - destruct (s.(initialized)); [|done]. injection Hspec as <- _. by apply Hth.
    - injection Hspec as <- _. destruct Hq1 as [_ Hq1].
      destruct (proj1 (Hq1 k) (list_elem_of_here _ _)) as (_ & th & Ht & _). by exists th. }
  destruct (mark_running_spec s2 next x B2 Hx Hn1) as (v & w & Hm & B3 & Hrun3 & Hgv).
  exists (set_current (Some next) (set_tasks w (set_threads v s2))). split_and!.
  - etrans; [exact (bind_ok _ _ _ _ _ Hm)|]. done.
  - pose proof (in_state_set s1 (set_current (Some next) (set_tasks w (set_threads v s2)))
      next _ Hgv) as Hset.
    destruct Hq1 as [Hnd Hq1]. unfold spec_schedule in Hspec.
    split; [by apply base_set_current| | |done|done].
    + destruct (requeued cur q); by injection Hspec as <- <-.
    + destruct (requeued cur q) as [|k q0].
      * destruct (s.(initialized)); [|done]. injection Hspec as <- <-.
        split; [done|]. intros j. rewrite Hq1, Hset. cbn. intuition congruence.
      * injection Hspec as <- <-. apply NoDup_cons in Hnd as [Hk Hnd]. split; [done|].
        intros j. rewrite Hset. cbn. specialize (Hq1 j). rewrite elem_of_cons in Hq1.
        destruct (decide (k = j)) as [<-|]; intuition congruence.
  - done.
Qed.

(** ** Exit *)
Lemma exit_current_spec status s cur q :
  rep s cur q →
  ∃ s', exit_current status s = (Ok cur, s') ∧ rep s' None q ∧
    s'.(initialized) = s.(initialized) ∧
    ∀ k, cur = Some k → in_state s' k ThreadState.Zombie.
Proof.
  intros [B Hr Hq Hrun Hc]. unfold exit_current. rewrite Hc.
  destruct cur as [c|]; [|exists s; split_and!; try done].
  destruct (proj1 (Hrun c) eq_refl) as (x & Hx & Hst).
  destruct (switch_spec c ThreadState.Zombie (set_current None s) x
    (base_set_current _ _ B) Hx) as (v & w & -> & Hw & Hgv & B').
  change TaskState.Exited with (task_state_of ThreadState.Zombie). rewrite Hw by done.
  set (s' := set_tasks w (set_threads v (set_current None s))) in *.
  pose proof (in_state_set s s' c _ Hgv) as Hset.
  eexists. split; [done|]. split_and!; [|done|].
  - split; [done|done| | |done].
    + split; [apply Hq|]. intros k. rewrite (proj2 Hq), Hset. cbn.
      destruct (decide (c = k)) as [<-|]; [|intuition congruence].
      assert (¬ in_state s c ThreadState.Ready) as Hnot.
      { intros Hcr. assert (in_state s c ThreadState.Running) as Hcr' by (by apply Hrun).
        by pose proof (in_state_fun _ _ _ _ Hcr Hcr'). }
      intuition congruence.
    + intros k. rewrite Hset. cbn. split; [done|].
      intros [[_ ?]|[? [= ?]%Hrun]]; done.
  - intros k [= <-]. apply Hset. by left.
Qed.

(** ** Admission *)
Lemma base_set_next n s :
  base s → (s.(next_tid) <= n <= umax 64)%Z → free_slot s.(tasks) = None → base (set_next n n s).
Proof.
  intros [] Hn Hfull. split; cbn; [lia|by left|done| | |done|done|done|done].
  - intros k tk Hk. apply b_pids0 in Hk. lia.
  - intros k th Hk. apply b_tids0 in Hk as [? ?]. split; [lia|done].
Qed.

Lemma base_insert_task s i tk :
  base s → free_slot s.(tasks) = Some i → tk.(CoreTask.id) = s.(next_tid) →
  let s1 := set_tasks (<[i:=Some tk]> s.(tasks)) (set_next (s.(next_tid) + 1) (s.(next_tid) + 1) s) in
  base s1 ∧ sat_add 64 s.(next_tid) 1 = (s.(next_tid) + 1)%Z ∧
  get_task s.(next_tid) s1 = Some tk ∧ get_thread s.(next_tid) s1 = None.
Proof.
  intros B Hi Hid s1. destruct (b_next _ B) as [_ Hpos].
  assert (get_task s.(next_tid) s = None) as Hnone.
  { destruct (get_task s.(next_tid) s) as [x|] eqn:Hx; [|done].
    apply (b_pids _ B) in Hx. lia. }
  assert (get_thread s.(next_tid) s = None) as Hnone'.
  { destruct (get_thread s.(next_tid) s) as [x|] eqn:Hx; [|done].
    apply (b_tids _ B) in Hx as [? _]. lia. }
  assert (∀ k, get_task k s1 = if decide (s.(next_tid) = k) then Some tk else get_task k s) as Hg.
  { intros k. rewrite <-Hid. apply slot_get_insert; [done|by rewrite Hid]. }
  assert (s.(next_tid) <= Z.of_nat (length (occupied s.(tasks))) + 1)%Z as Hroom
    by (destruct (b_room _ B); [congruence|done]).
  assert (length (occupied s.(tasks)) < length s.(tasks)) by (apply free_slot_room; eauto).
  destruct B. split_and!; [|apply sat_add_small; lia|by rewrite Hg, decide_True|done].
  split; unfold s1; cbn [set_tasks set_next next_pid next_tid threads ready per_cpu_idle_thread initialized
              tasks]; [lia| | | | |done| |done|].
  - right. rewrite (length_occupied_insert_free _ _ _ Hi). lia.
  - by rewrite length_insert.
  - intros k x. change (slot_get CoreTask.id k _) with (get_task k s1). rewrite Hg.
    case_decide; [lia|]. intros Hx%b_pids0. lia.
  - intros k x Hx. apply b_tids0 in Hx as [? ?]. split; [lia|done].
  - intros k x Hx. change (slot_get CoreTask.id k _) with (get_task k s1). rewrite Hg.
    rewrite decide_False; [eauto|]. intros <-. congruence.
  - intros x Hinit. change (slot_get CoreTask.id IDLE _) with (get_task IDLE s1). rewrite Hg.
    rewrite decide_False by (unfold IDLE; lia). eauto.
Qed.

Lemma base_insert_thread s i th tk :
  base s → free_slot s.(threads) = Some i → get_thread th.(CoreThread.id) s = None →
  (0 < th.(CoreThread.id) < s.(next_tid))%Z →
  th.(CoreThread.task) = th.(CoreThread.id) →
  get_task th.(CoreThread.id) s = Some tk →
  tk.(CoreTask.state) = task_state_of th.(CoreThread.state) →
  let s1 := set_threads (<[i:=Some th]> s.(threads)) s in
  base s1 ∧ ∀ k, get_thread k s1 =
    if decide (th.(CoreThread.id) = k) then Some th else get_thread k s.
Proof.
  intros B Hi Hnone Hid Htask Htk Hst s1.
  assert (∀ k, get_thread k s1 =
    if decide (th.(CoreThread.id) = k) then Some th else get_thread k s) as Hg.
  { intros k. by apply slot_get_insert. }
  split; [|done]. destruct B. split; try done.
  - cbn. by rewrite length_insert.
  - intros k x. rewrite Hg. case_decide; [|apply b_tids0]. intros [= <-]. split; [|congruence].
    cbn. lia.
  - by apply uniq_insert.
  - intros k x. rewrite Hg. case_decide; [|apply b_task0]. intros [= <-]. subst k. by exists tk.
  - destruct b_idle0 as [? Hinit]. split; [done|]. rewrite Hg, decide_False; [done|].
    unfold IDLE. lia.
Qed.

Lemma base_insert_idle_task s i tk :
  base s → s.(initialized) = false → free_slot s.(tasks) = Some i →
  tk.(CoreTask.id) = IDLE → tk.(CoreTask.state) = TaskState.Runnable →
  let s1 := set_tasks (<[i:=Some tk]> s.(tasks)) s in
  base s1 ∧ ∃ tk', get_task IDLE s1 = Some tk' ∧ tk'.(CoreTask.state) = TaskState.Runnable.
Proof.
  intros B Hinit Hi Hid Hst s1.
  assert (∀ k, get_task k s1 = get_task k s ∧ k ≠ IDLE ∨
    (k = IDLE ∧ ∃ y, get_task k s1 = Some y ∧ y.(CoreTask.state) = TaskState.Runnable)) as Hg.
  { intros k. destruct (slot_get_insert_any CoreTask.id s.(tasks) i tk k Hi)
      as [[? ?]|(Hk & y & Hy & Hor)]; [left; split; [done|congruence]|].
    right. split; [congruence|]. exists y. split; [done|]. destruct Hor as [->|Hold]; [done|].
    apply (b_idle_task _ B _ Hinit). by rewrite <-Hid, Hk. }
  split.
  2:{ destruct (Hg IDLE) as [[_ ?]|[_ ?]]; done. }
  destruct (b_next _ B) as [_ Hpos]. destruct B. split; try done.
  - cbn. right. rewrite (length_occupied_insert_free _ _ _ Hi).
    destruct b_room0 as [|]; [congruence|lia].
  - cbn. by rewrite length_insert.
  - intros k x Hx. destruct (Hg k) as [[Heq _]|[-> _]].
    + rewrite Heq in Hx. by apply b_pids0 in Hx.
    + unfold IDLE. cbn. lia.
  - intros k x Hx. destruct (Hg k) as [[Heq _]|[-> _]].
    + rewrite Heq. by apply b_task0.
    + destruct b_idle0 as [_ [_ Hi']]. change (get_thread IDLE s1) with (get_thread IDLE s) in Hx.
      rewrite Hi' in Hinit; [done|eauto].
  - intros x _ Hx. destruct (Hg IDLE) as [[_ ?]|(_ & y & Hy & ?)]; [done|]. congruence.
Qed.

(** A fresh thread that is neither ready nor running leaves the abstract state
    alone. *)
Lemma rep_tables s s' cur q :
  rep s cur q → base s' →
  s'.(ready) = s.(ready) → s'.(ready_head) = s.(ready_head) →
  s'.(ready_tail) = s.(ready_tail) → s'.(ready_len) = s.(ready_len) →
  s'.(current) = s.(current) →
  (∀ k, in_state s' k ThreadState.Running ↔ in_state s k ThreadState.Running) →
  (∀ k, k ≠ IDLE → in_state s' k ThreadState.Ready ↔ in_state s k ThreadState.Ready) →
  rep s' cur q.
Proof.
  intros [B Hr Hq Hrun Hc] B' H1 H2 H3 H4 H5 H6 H7. split; [done| | | |congruence].
  - unfold ring. by rewrite H1, H2, H3, H4.
  - split; [apply Hq|]. intros k. rewrite (proj2 Hq). specialize (H7 k). intuition.
  - intros k. by rewrite H6.
Qed.

Lemma init_with_idle_spec stack s cur q :
  rep s cur q →
  ∃ r s', init_with_idle stack s = (r, s') ∧ rep s' cur q ∧
    (r = Ok tt → s'.(initialized) = true) ∧
    (is_Some (free_slot s.(tasks)) → is_Some (free_slot s.(threads)) →
     StackRange.is_valid stack = true → r = Ok tt).
Proof.
  intros Hrep. unfold init_with_idle, mbind at 1, M_bind at 1, gets at 1.
  destruct (s.(initialized)) eqn:Hinit; [by eexists _, _|].
  destruct (StackRange.is_valid stack) eqn:Hv; cbn [negb]; [|by eexists _, _].
  set (tk := CoreTask.mk _ _ _ _ _ _). set (th := CoreThread.mk _ _ _ _ _ _).
  unfold mbind at 1, M_bind at 1, insert_task.
  destruct (free_slot s.(tasks)) as [i|] eqn:Hi.
  2:{ eexists _, _. split_and!; [done|done|done|]. by intros [? ?]. }
  destruct (base_insert_idle_task s i tk (rep_base _ _ _ Hrep) Hinit Hi eq_refl eq_refl)
    as [B1 (tk' & Htk' & Htk'')].
  set (s1 := set_tasks _ s) in *.
  assert (rep s1 cur q) as Hrep1 by (by eapply rep_tables).
  unfold mbind at 1, M_bind at 1, insert_thread. change s1.(threads) with s.(threads).
  destruct (free_slot s.(threads)) as [j|] eqn:Hj.
  2:{ eexists _, _. split_and!; [done|done|done|]. by intros _ [? ?]. }
  unfold modify. eexists _, _. split_and!; [done| |done|done].
  assert (get_thread IDLE s = None) as Hnone.
  { destruct (get_thread IDLE s) eqn:Hx; [|done].
    destruct (b_idle _ (rep_base _ _ _ Hrep)) as [_ [_ Hi']]. rewrite Hi' in Hinit; [done|eauto]. }
  set (s2 := set_idle _ _ _).
  assert (∀ k, get_thread k s2 = if decide (IDLE = k) then Some th else get_thread k s) as Hg.
  { intros k. by apply (slot_get_insert CoreThread.id s.(threads) j th k). }
  pose proof (in_state_set s s2 IDLE th Hg) as Hset.
  eapply rep_tables; [exact Hrep| |done..| |].
  - destruct (b_next _ B1) as [_ Hpos]. destruct B1. split; try done.
    + cbn. by rewrite length_insert.
    + intros k x. rewrite Hg. case_decide; [|apply b_tids0]. intros [= <-].
      split; [|done]. subst k. unfold IDLE. cbn in *. lia.
    + by apply uniq_insert.
    + intros k x. rewrite Hg. case_decide; [|apply b_task0]. intros [= <-]. subst k.
      exists tk'. by rewrite Htk''.
    + split; [done|]. rewrite Hg, decide_True by done. done.
  - intros k. rewrite Hset. split.
    + intros [[_ ?]|[_ ?]]; [done|done].
    + intros Hk. right. split; [|done]. intros <-. destruct Hk as (x & Hx & _). congruence.
  - intros k Hk. rewrite Hset. intuition congruence.
Qed.

Lemma set_thread_state_tasks k st w s :
  set_thread_state k st (set_tasks w s) =
    let '(o, s1) := set_thread_state k st s in (o, set_tasks w s1).
Proof.
  unfold set_thread_state. cbn. destruct (find_slot _ _) as [i|]; [|done].
  by destruct (s.(threads) !! i) as [[x|]|].
Qed.

(** the task and thread tables after an accepted request, before preflight *)
Definition admitted (s s' : t) (name : string) (program : UserProgramImage.t)
    (stack : StackRange.t) : Prop :=
  get_task s.(next_tid) s' = Some (user_task name program s.(next_tid) s.(next_tid)) ∧
  get_thread s.(next_tid) s' = Some (user_thread program stack s.(next_tid) s.(next_tid)).

Lemma spawn_prefix name program stack s cur q i j :
  rep s cur q → free_slot s.(tasks) = Some i → free_slot s.(threads) = Some j →
  let k := s.(next_tid) in
  ∃ s', (∀ A (rest : TaskId → ThreadId → Op A),
      (task_id ← allocate_pid; thread_id ← allocate_tid;
       insert_task (user_task name program task_id thread_id) ;;
       insert_thread (user_thread program stack task_id thread_id) ;;
       rest task_id thread_id) s = rest k k s') ∧
    rep s' cur q ∧ admitted s s' name program stack ∧
    (∀ p, p ≠ k → get_thread p s' = get_thread p s) ∧
    s'.(initialized) = s.(initialized) ∧ s'.(next_tid) = (k + 1)%Z ∧ (1 <= k)%Z.
Proof.
  intros Hrep Hi Hj k. pose proof (rep_base _ _ _ Hrep) as B.
  destruct (b_next _ B) as [Hpid Hpos].
  destruct (base_insert_task s i (user_task name program k k) B Hi eq_refl)
    as (B1 & Hsat & Htk & Hth).
  set (s1 := set_tasks _ _) in *. set (th := user_thread program stack k k).
  destruct (base_insert_thread s1 j th (user_task name program k k) B1 Hj Hth) as [B2 Hg];
    [cbn; lia|done|exact Htk|done|].
  set (s2 := set_threads _ s1) in *. exists s2. split_and!.
  - intros A rest. unfold allocate_pid, allocate_tid, insert_task, insert_thread, mbind, M_bind.
    cbn [next_pid next_tid tasks threads set_next]. rewrite Hpid, Hsat, Hi. fold k.
    cbn [next_pid next_tid tasks threads set_next set_tasks]. by rewrite Hj.
  - pose proof (in_state_set s s2 k th Hg) as Hset.
    assert (get_thread k s = None) as Hnone by exact Hth.
    eapply rep_tables; [exact Hrep|exact B2|done..| |]; intros p; rewrite Hset; cbn.
    + split; [by intros [[_ ?]|[_ ?]]|]. intros Hp. right. split; [|done].
      intros <-. destruct Hp as (x & Hx & _). congruence.
    + intros _. split; [by intros [[_ ?]|[_ ?]]|]. intros Hp. right. split; [|done].
      intros <-. destruct Hp as (x & Hx & _). congruence.
  - split; [exact Htk|]. rewrite Hg. by rewrite decide_True.
  - intros p Hp. rewrite Hg, decide_False by (cbn; congruence). done.
  - done.
  - done.
  - lia.
Qed.

Lemma spawn_ready s cur q k th :
  rep s cur q → get_thread k s = Some th → th.(CoreThread.state) = ThreadState.New → k ≠ IDLE →
  ∃ s', (modify (set_task_state k TaskState.Runnable) ;;
         modify (λ s, (set_thread_state k ThreadState.Ready s).2) ;;
         enqueue k ;; mret k) s = (Ok k, s') ∧
    rep s' cur (q ++ [k]) ∧ s'.(initialized) = s.(initialized) ∧
    get_thread k s' = Some (CoreThread.set_state ThreadState.Ready th) ∧
    (∀ p, p ≠ k → get_thread p s' = get_thread p s) ∧
    (CoreTask.state <$> get_task k s') = Some TaskState.Runnable ∧
    s'.(next_tid) = s.(next_tid).
Proof.
  intros [B Hr Hq Hrun Hc] Hx Hst Hne.
  destruct (switch_spec k ThreadState.Ready s th B Hx) as (v & w & Hv & Hw & Hgv & B').
  assert (length q < length s.(ready)) as Hroom.
  { eapply ready_room; [done..|]. congruence. }
  destruct (enqueue_ring k (set_tasks w (set_threads v s)) q Hr Hroom) as (r & tl & He & Hlr & Hr').
  eexists. split.
  { do 2 (etrans; [exact (bind_ok _ _ _ _ _ eq_refl)|]).
    change TaskState.Runnable with (task_state_of ThreadState.Ready).
    rewrite (Hw s eq_refl), set_thread_state_tasks, Hv. cbn [snd].
    etrans; [exact (bind_ok _ _ _ _ _ He)|]. reflexivity. }
  set (s1 := set_tasks w (set_threads v s)) in *. set (s' := set_ready _ _ _ _ s1).
  pose proof (in_state_set s s' k _ Hgv) as Hset.
  assert (k ∉ q) as Hkq.
  { intros [_ (y & Hy & ?)]%(proj2 Hq). congruence. }
  split_and!.
  - split; [by apply base_set_ready|exact Hr'| | |done].
    + split.
      { apply NoDup_app. split_and!; [apply Hq| |apply NoDup_singleton].
        intros p Hp ->%list_elem_of_singleton. done. }
      intros p. rewrite elem_of_app, list_elem_of_singleton, (proj2 Hq), Hset. cbn.
      destruct (decide (k = p)) as [<-|]; intuition congruence.
    + intros p. rewrite Hset. cbn. split.
      * intros Hp%Hrun. right. split; [|done]. intros <-. destruct Hp as (y & Hy & ?). congruence.
      * intros [[_ ?]|[_ ?%Hrun]]; done.
  - done.
  - cbn. by rewrite Hgv, decide_True.
  - intros p Hp. cbn. by rewrite Hgv, decide_False by congruence.
  - destruct (b_task _ B' k (CoreThread.set_state ThreadState.Ready th)) as (tk & Htk & Hstk).
    { cbn. by rewrite Hgv, decide_True. }
    change (get_task k s') with (get_task k s1). rewrite Htk. cbn. by rewrite Hstk.
  - done.
Qed.

(** Every outcome of [spawn_userspace]. *)
Definition spawn_outcome (name : string) (program : UserProgramImage.t) (stack : StackRange.t)
    (pre : UserThreadPreflight.t) (s : t) (cur : option ThreadId) (q : list ThreadId)
    (r : result CoreMtssError.t TaskId) (s' : t) : Prop :=
  let k := s.(next_tid) in
  match spawn_checks program stack pre with
  | Err e => r = Err e ∧ s' = s
  | Ok _ =>
      if decide (free_slot s.(tasks) = None) then
        r = Err CoreMtssError.TaskTableFull ∧ rep s' cur q
      else if decide (free_slot s.(threads) = None) then
        r = Err CoreMtssError.ThreadTableFull ∧ rep s' cur q
      else if negb (UserThreadPreflight.complete pre) then
        r = Err (preflight_error pre) ∧ rep s' cur q ∧ admitted s s' name program stack
      else
        r = Ok k ∧ rep s' cur (q ++ [k]) ∧
        get_thread k s' =
          Some (CoreThread.set_state ThreadState.Ready (user_thread program stack k k)) ∧
        (CoreTask.state <$> get_task k s') = Some TaskState.Runnable ∧
        (∀ p, p ≠ k → get_thread p s' = get_thread p s)
  end.

Lemma spawn_spec name program stack pre s cur q :
  rep s cur q →
  ∃ r s', spawn_userspace name program stack pre s = (r, s') ∧
    spawn_outcome name program stack pre s cur q r s' ∧ rep s' cur (if r is Ok k then q ++ [k] else q) ∧
    s'.(initialized) = s.(initialized).
Proof.
  intros Hrep. unfold spawn_userspace, spawn_outcome, mbind at 1, M_bind at 1, lift.
  destruct (spawn_checks program stack pre) as [u|e] eqn:Hchk.
  2:{ by eexists _, _. }
  pose proof (rep_base _ _ _ Hrep) as B. destruct (b_next _ B) as [Hpid Hpos].
  destruct (free_slot s.(tasks)) as [i|] eqn:Hi.
  2:{ destruct (decide (None = None)) as [_|]; [|done].
      assert (rep (set_next (sat_add 64 s.(next_tid) 1) (sat_add 64 s.(next_tid) 1) s) cur q)
        as Hrep'.
      { eapply rep_tables; [exact Hrep| |done..]. apply base_set_next; [done| |done].
        unfold sat_add. lia. }
      eexists _, _. split; [|split_and!; [done|exact Hrep'|exact Hrep'|done]].
      unfold allocate_pid, allocate_tid, insert_task, mbind, M_bind.
      cbn [next_pid next_tid tasks set_next]. by rewrite Hpid, Hi. }
  destruct (decide (Some i = None)) as [|_]; [done|]. destruct (free_slot s.(threads)) as [j|] eqn:Hj.
  2:{ destruct (decide (None = None)) as [_|]; [|done].
      destruct (base_insert_task s i (user_task name program s.(next_tid) s.(next_tid)) B Hi eq_refl)
        as (B1 & Hsat & _).
      set (s1 := set_tasks _ _) in *. assert (rep s1 cur q) as Hrep1 by (by eapply rep_tables).
      exists (Err CoreMtssError.ThreadTableFull), s1.
      split; [|split_and!; [done|exact Hrep1|exact Hrep1|done]].
      unfold allocate_pid, allocate_tid, insert_task, insert_thread, mbind, M_bind.
      cbn [next_pid next_tid tasks set_next]. rewrite Hpid, Hsat, Hi. cbn. by rewrite Hj. }
  destruct (decide (Some j = None)) as [|_]; [done|].
  destruct (spawn_prefix name program stack s cur q i j Hrep Hi Hj)
    as (s1 & Hpre & Hrep1 & [Hadt Hadm] & Hoth & Hinit & Hnext & _).
  rewrite Hpre. destruct (UserThreadPreflight.complete pre); cbn [negb].
  2:{ by eexists _, _. }
  destruct (spawn_ready s1 cur q _ _ Hrep1 Hadm eq_refl) as (s2 & Hs2 & Hrep2 & Hi2 & Hth2 & Ho2 & Ht2 & _).
  { unfold IDLE. lia. }
  exists (Ok s.(next_tid)), s2. split.
  { etrans; [exact (bind_ok _ _ _ _ _ eq_refl)|]. rewrite bool_decide_eq_false_2; [exact Hs2|].
    destruct (rep_ring _ _ _ Hrep1) as (_ & -> & _).
    pose proof (ready_room s1 q _ _ (rep_base _ _ _ Hrep1) (rep_ready _ _ _ Hrep1) Hadm).
    cbn in *. intros ?. assert (length q < length s1.(ready)); [auto|lia]. }
  split_and!; [done|done|done|done| |done|congruence].
  intros p Hp. by rewrite Ho2, Hoth.
Qed.

(** ** Reachable states *)
Inductive call : Type :=
| InitWithIdle (stack : StackRange.t)
| SpawnUserspace (name : string) (program : UserProgramImage.t) (stack : StackRange.t)
    (preflight : UserThreadPreflight.t)
| OnTimerTick
| ExitCurrent (status : Z).

Definition exec (c : call) (s : t) : t :=
  match c with
  | InitWithIdle stack => (init_with_idle stack s).2
  | SpawnUserspace name program stack preflight =>
      (spawn_userspace name program stack preflight s).2
  | OnTimerTick => (on_timer_tick s).2
  | ExitCurrent status => (exit_current status s).2
  end.

Definition run (cs : list call) (s : t) : t := foldl (flip exec) s cs.

Lemma exec_rep c s cur q : rep s cur q → ∃ cur' q', rep (exec c s) cur' q'.
Proof.
  intros Hrep. destruct c as [stack|name program stack pre| |status]; cbn.
  - destruct (init_with_idle_spec stack s cur q Hrep) as (r & s' & -> & ? & _). eauto.
  - destruct (spawn_spec name program stack pre s cur q Hrep) as (r & s' & -> & _ & ? & _). eauto.
  - pose proof (schedule_next_spec s cur q Hrep) as Hs. unfold on_timer_tick.
    destruct (spec_schedule _ _ _) as [n q']. destruct Hs as (s' & -> & ? & _). eauto.
  - destruct (exit_current_spec status s cur q Hrep) as (s' & -> & ? & _). eauto.
Qed.

Lemma new_rep TASKS THREADS READY :
  THREADS ≤ READY → (Z.of_nat TASKS < umax 64)%Z → rep (new TASKS THREADS READY) None [].
Proof.
  intros Hle Hlt. assert (∀ k st, ¬ in_state (new TASKS THREADS READY) k st) as Hno.
  { intros k st (x & Hx & _). cbn in Hx. by rewrite slot_get_replicate in Hx. }
  split.
  - split; cbn; rewrite ?length_replicate, ?occupied_replicate; cbn;
      try (intros *; rewrite slot_get_replicate); try done.
    right. lia.
  - split_and!; cbn; [apply fifo_empty|done|by rewrite Nat.Div0.mod_0_l|].
    rewrite length_replicate. lia.
  - split; [constructor|]. intros k. split; [by intros ?%elem_of_nil|]. intros [_ []%Hno].
  - intros k. split; [done|]. intros []%Hno.
  - done.
Qed.

Lemma run_rep cs s cur q : rep s cur q → ∃ cur' q', rep (run cs s) cur' q'.
Proof.
  revert s cur q. induction cs as [|c cs IH]; intros s cur q Hrep; [eauto|].
  destruct (exec_rep c s cur q Hrep) as (cur' & q' & Hrep'). eapply IH, Hrep'.
Qed.

(** ** Properties *)

(** When the ready queue is at least as large as the thread table (as the
    default sizes are), every sequence of calls on a fresh core leads to a state
    in which at most one thread is [Running], it is [current], the ready queue
    lists exactly the [Ready] threads other than idle, each once, thread
    identifiers are unique, and every task's state agrees with its thread's. *)
Theorem core_state_consistent TASKS THREADS READY (cs : list call) :
  THREADS ≤ READY → (Z.of_nat TASKS < umax 64)%Z →
  let s := run cs (new TASKS THREADS READY) in
  ∃ q, rep s s.(current) q.
Proof.
  intros Hle Hlt s. destruct (run_rep cs _ _ _ (new_rep TASKS THREADS READY Hle Hlt))
    as (cur & q & Hrep). exists q. subst s. by rewrite (rep_current _ _ _ Hrep).
Qed.

(** scheduling calls and what they return *)
Inductive sched_call : Type := Tick | Exit (status : Z).

Fixpoint impl_run (cs : list sched_call) (s : t)
    : list (result CoreMtssError.t (option ThreadId)) :=
  match cs with
  | [] => []
  | Tick :: cs' => let '(r, s') := on_timer_tick s in r :: impl_run cs' s'
  | Exit status :: cs' => let '(r, s') := exit_current status s in r :: impl_run cs' s'
  end.

Fixpoint spec_run (init : bool) (cs : list sched_call) (cur : option ThreadId)
    (q : list ThreadId) : list (result CoreMtssError.t (option ThreadId)) :=
  match cs with
  | [] => []
  | Tick :: cs' =>
      let '(next, q') := spec_schedule init cur q in Ok next :: spec_run init cs' next q'
  | Exit _ :: cs' => Ok cur :: spec_run init cs' None q
  end.

(** C5: the core is a round-robin scheduler.  From any consistent state, any
    sequence of timer ticks and exits returns exactly what the abstract
    scheduler returns: a tick puts the running thread at the back of the ready
    list and runs its head, falling back to idle when the list is empty; no tick
    and no exit ever fails. *)
Theorem core_refines_round_robin (cs : list sched_call) s cur q :
  rep s cur q → impl_run cs s = spec_run s.(initialized) cs cur q.
Proof.
  revert s cur q. induction cs as [|[|status] cs IH]; intros s cur q Hrep; cbn; [done|..].
  - pose proof (schedule_next_spec s cur q Hrep) as Hs. unfold on_timer_tick.
    destruct (spec_schedule _ _ _) as [n q']. destruct Hs as (s' & -> & Hrep' & <-).
    f_equal. by apply IH.
  - destruct (exit_current_spec status s cur q Hrep) as (s' & -> & Hrep' & <- & _).
    f_equal. by apply IH.
Qed.

Fixpoint tick_results (n : nat) (s : t) : list (result CoreMtssError.t (option ThreadId)) :=
  match n with
  | 0 => []
  | S n' => let '(r, s') := on_timer_tick s in r :: tick_results n' s'
  end.

(** C25: no ready thread starves: a thread with [length q1] threads ahead of it in
    the ready queue is dispatched by tick number [length q1 + 1]. *)
Theorem ready_thread_runs_soon s cur q1 k q2 :
  rep s cur (q1 ++ k :: q2) →
  tick_results (length q1 + 1) s = (λ j, Ok (Some j)) <$> (q1 ++ [k]).
Proof.
  revert s cur q2. induction q1 as [|j q1 IH]; intros s cur q2 Hrep;
    pose proof (schedule_next_spec s _ _ Hrep) as Hs; cbn; unfold on_timer_tick.
  - unfold spec_schedule in Hs.
    assert (requeued cur (k :: q2) = k :: requeued cur q2) as Hrq.
    { destruct cur; cbn; [by case_decide|done]. }
    cbn [app] in Hs. rewrite Hrq in Hs. by destruct Hs as (s' & -> & _).
  - unfold spec_schedule in Hs. cbn [app] in Hs.
    assert (∃ q3, requeued cur (j :: q1 ++ k :: q2) = j :: q1 ++ k :: q3) as [q3 Hrq].
    { destruct cur; cbn; [case_decide|]; rewrite <-?app_assoc; eauto. }
    rewrite Hrq in Hs. destruct Hs as (s' & -> & Hrep' & _). f_equal. by eapply IH.
Qed.

(** [spawn_userspace] on a consistent state: a request that fails validation
    changes nothing; a full task or thread table is reported; an incomplete
    preflight leaves a [Created] task with a [New] thread that is not queued and
    reports the failed check; otherwise the new task is [Runnable], its thread
    is [Ready] with the program's entry point, stack and page table in its
    context, and it is last in the ready queue.  Every other thread is
    unaffected, and the state stays consistent. *)
Theorem spawn_userspace_outcome name program stack pre s cur q :
  rep s cur q →
  ∃ r s', spawn_userspace name program stack pre s = (r, s') ∧
    spawn_outcome name program stack pre s cur q r s'.
Proof.
  intros Hrep. destruct (spawn_spec name program stack pre s cur q Hrep)
    as (r & s' & ? & ? & _). eauto.
Qed.

(** ** The theorems at work *)
Definition demo_stack : StackRange.t := StackRange.new 0x8000 0x9000.
Definition demo_program : UserProgramImage.t :=
  UserProgramImage.mk 0x401000 42 (StackRange.new 0x70000000 0x70004000) 0x1000.
Definition demo_preflight : UserThreadPreflight.t :=
  UserThreadPreflight.mk true true true true true true true true true true.
Definition demo_calls : list call :=
  [InitWithIdle demo_stack;
   SpawnUserspace "spider-rs" demo_program demo_stack demo_preflight;
   SpawnUserspace "shell" demo_program demo_stack demo_preflight].
Definition demo : t :=
  run demo_calls (new DEFAULT_TASK_TABLE_SIZE DEFAULT_THREAD_TABLE_SIZE DEFAULT_READY_QUEUE_SIZE).

Lemma core_state_consistent_witness : ∃ q, rep demo demo.(current) q.
Proof.
  apply (core_state_consistent DEFAULT_TASK_TABLE_SIZE DEFAULT_THREAD_TABLE_SIZE
    DEFAULT_READY_QUEUE_SIZE demo_calls); [apply le_n|reflexivity].
Defined.

Lemma demo_rep : rep demo None [1; 2]%Z.
Proof.
  assert (rep (new DEFAULT_TASK_TABLE_SIZE DEFAULT_THREAD_TABLE_SIZE DEFAULT_READY_QUEUE_SIZE)
    None []) as H0 by (apply new_rep; [apply le_n|reflexivity]).
  unfold demo, demo_calls, run. cbn [foldl flip exec].
  destruct (init_with_idle_spec demo_stack _ _ _ H0) as (r1 & s1 & E1 & H1 & _).
  change (flip exec) with (λ s c, exec c s). cbn beta. cbn [exec]. rewrite E1. cbn [snd].
  destruct (spawn_spec "spider-rs" demo_program demo_stack demo_preflight s1 _ _ H1)
    as (r2 & s2 & E2 & _ & H2 & _). rewrite E2. cbn [snd].
  destruct (spawn_spec "shell" demo_program demo_stack demo_preflight s2 _ _ H2)
    as (r3 & s3 & E3 & _ & H3 & _). rewrite E3. cbn [snd].
  assert (s1 = exec (InitWithIdle demo_stack) (new DEFAULT_TASK_TABLE_SIZE
    DEFAULT_THREAD_TABLE_SIZE DEFAULT_READY_QUEUE_SIZE)) as Hs1 by (cbn [exec]; by rewrite E1).
  assert (r2 = Ok 1%Z) as ->.
  { transitivity (spawn_userspace "spider-rs" demo_program demo_stack demo_preflight s1).1;
      [by rewrite E2|]. rewrite Hs1. by vm_compute. }
  assert (r3 = Ok 2%Z) as ->; [|exact H3].
  transitivity (spawn_userspace "shell" demo_program demo_stack demo_preflight s2).1;
    [by rewrite E3|].
  assert (s2 = exec (SpawnUserspace "spider-rs" demo_program demo_stack demo_preflight) s1)
    as -> by (cbn [exec]; by rewrite E2).
  rewrite Hs1. by vm_compute.
Qed.

Lemma core_refines_round_robin_witness :
  impl_run [Tick; Tick; Exit 0; Tick; Exit 0; Tick] demo =
  [Ok (Some 1); Ok (Some 2); Ok (Some 2); Ok (Some 1); Ok (Some 1); Ok (Some 0)]%Z.
Proof.
  rewrite (core_refines_round_robin [Tick; Tick; Exit 0; Tick; Exit 0; Tick] demo None [1; 2]%Z
    demo_rep). by vm_compute.
Defined.

Lemma ready_thread_runs_soon_witness :
  tick_results 2 demo = [Ok (Some 1); Ok (Some 2)]%Z.
Proof. exact (ready_thread_runs_soon demo None [1]%Z 2 [] demo_rep). Defined.

Lemma spawn_userspace_outcome_witness :
  ∃ s', spawn_userspace "login" demo_program demo_stack demo_preflight demo = (Ok 3%Z, s') ∧
    rep s' None [1; 2; 3]%Z.
Proof.
  destruct (spawn_userspace_outcome "login" demo_program demo_stack demo_preflight demo None
    [1; 2]%Z demo_rep) as (r & s' & Heq & Hout).
  exists s'. unfold spawn_outcome in Hout.
  assert (demo.(next_tid) = 3%Z) as Hk by (by vm_compute). rewrite Hk in Hout.
  change (spawn_checks demo_program demo_stack demo_preflight) with
    (Ok (E := CoreMtssError.t) tt) in Hout.
  destruct (decide (free_slot demo.(tasks) = None)) as [He|_]; [by vm_compute in He|].
  destruct (decide (free_slot demo.(threads) = None)) as [He|_]; [by vm_compute in He|].
  destruct Hout as (-> & Hrep & _). auto.
Defined.
