(* ===== verification/Subkernel.v ===== *)
(** * The L2 security kernel

    Model of [src/subkernel/mod.rs]: security labels, capability rights and
    records, credentials, task domains and the [SecurityKernel] that registers
    tasks, keeps the capability table and answers authorization requests.  The
    const generic MAX is the length of [domains]; the capability table has
    [MAX_CAPABILITY_RECORDS] slots.  The exec request types come from
    [src/kernel/process.rs], the page protection from [src/kernel/memory.rs]. *)

From stdpp Require Import prelude strings.
From S2P Require Import Prelude Slots.

Abbreviation ProcessId := Z (only parsing).
Abbreviation CapabilityId := Z (only parsing).

Definition u64_max : Z := 0xffffffffffffffff.
Definition u32_max : Z := 0xffffffff.
Definition u16_max : Z := 0xffff.

(** ** Labels *)
Module SecurityLevel.
Inductive t : Type := Public | Internal | Confidential | System.
#[global] Instance eq_dec : EqDecision t.
Proof. solve_decision. Defined.
(** [self as u8] *)
Definition as_u8 (l : t) : Z :=
  match l with Public => 0 | Internal => 1 | Confidential => 2 | System => 3 end.
End SecurityLevel.

Module SecurityLabel.
Record t : Type := new { level : SecurityLevel.t; categories : Z (* u32 *) }.
#[global] Instance eq_dec : EqDecision t.
Proof. solve_decision. Defined.

Definition public : t := new SecurityLevel.Public 0.
Definition internal : t := new SecurityLevel.Internal 0.
Definition confidential : t := new SecurityLevel.Confidential 0.
Definition system : t := new SecurityLevel.System u32_max.

Definition dominates (self other : t) : bool :=
  bool_decide (SecurityLevel.as_u8 other.(level) <= SecurityLevel.as_u8 self.(level))%Z &&
  bool_decide (Z.land self.(categories) other.(categories) = other.(categories)).
End SecurityLabel.

Module SecurityClass.
Inductive t : Type := Public | Internal | Confidential | System.
Definition as_label (c : t) : SecurityLabel.t :=
  match c with
  | Public => SecurityLabel.public
  | Internal => SecurityLabel.internal
  | Confidential => SecurityLabel.confidential
  | System => SecurityLabel.system
  end.
End SecurityClass.

Module IsolationLevel.
Inductive t : Type := None_ | Process | VirtualMachine.
#[global] Instance eq_dec : EqDecision t.
Proof. solve_decision. Defined.
End IsolationLevel.

(** ** Capabilities *)
Module CapabilityObject.
Inductive t : Type :=
| IpcEndpoint (pid : ProcessId)
| IrqLine (line : Z)
| DmaRegion (base length : Z)
| PciDevice (id : Z)
| MmioRegion (base length : Z)
| VramRegion (base length : Z)
| Framebuffer (base length : Z)
| HotplugController (id : Z)
| BlockDeviceRegistry
| DisplayRegistry
| FsObject (id : Z)
| ServiceControl
| ModuleLoad
| ProcessHandle (pid : ProcessId)
| MemoryObject (id : Z).
#[global] Instance eq_dec : EqDecision t.
Proof. solve_decision. Defined.

(** the base and length of the four region objects *)
Definition region (o : t) : option (Z * Z) :=
  match o with
  | DmaRegion b l | MmioRegion b l | VramRegion b l | Framebuffer b l => Some (b, l)
  | _ => None
  end.
End CapabilityObject.

Module CapabilityRight.
Inductive t : Type := Read | Write | Send | Receive | Control | Transfer | Revoke.
#[global] Instance eq_dec : EqDecision t.
Proof. solve_decision. Defined.
Definition flag (r : t) : Z :=
  match r with
  | Read => 1 | Write => 2 | Send => 4 | Receive => 8 | Control => 16
  | Transfer => 32 | Revoke => 64
  end.
End CapabilityRight.

(** a [u16] of flags *)
Module CapabilityRights.
Definition none : Z := 0.
Definition all : Z := 127.
Definition io : Z := Z.lor (Z.lor (Z.lor (Z.lor 1 2) 16) 32) 64.
Definition ipc_endpoint : Z := Z.lor (Z.lor (Z.lor 4 8) 32) 64.
Definition service_control : Z := Z.lor (Z.lor 16 32) 64.
Definition memory : Z := Z.lor (Z.lor (Z.lor (Z.lor 1 2) 16) 32) 64.
Definition process_control : Z := Z.lor (Z.lor 16 32) 64.

Definition with_ (right : CapabilityRight.t) (flags : Z) : Z :=
  Z.lor flags (CapabilityRight.flag right).
(** [self.flags &= !right.flag()] *)
Definition without (right : CapabilityRight.t) (flags : Z) : Z :=
  Z.ldiff flags (CapabilityRight.flag right).
Definition contains (flags : Z) (right : CapabilityRight.t) : bool :=
  negb (bool_decide (Z.land flags (CapabilityRight.flag right) = 0%Z)).
Definition contains_all (flags requested : Z) : bool :=
  bool_decide (Z.land flags requested = requested).
Definition inherited_child (flags : Z) : Z := without CapabilityRight.Revoke flags.
End CapabilityRights.

Module CapabilityRecord.
Record t : Type := new {
  id : CapabilityId;
  owner : ProcessId;
  object : CapabilityObject.t;
  rights : Z;
  parent : option CapabilityId
}.
End CapabilityRecord.

Definition MAX_CAPABILITY_RECORDS : nat := 256.

(** ** Credentials *)

(** a [u32] of flags *)
Module CapabilitySet.
Definition CAP_IPC : Z := 1.
Definition CAP_SPAWN : Z := 2.
Definition CAP_KERNEL : Z := 4.
Definition CAP_IO : Z := 8.
Definition none : Z := 0.
Definition full : Z := Z.lor (Z.lor (Z.lor CAP_IPC CAP_SPAWN) CAP_KERNEL) CAP_IO.
Definition ipc : Z := CAP_IPC.
Definition ipc_io : Z := Z.lor CAP_IPC CAP_IO.
Definition has (flag flags : Z) : bool := negb (bool_decide (Z.land flags flag = 0%Z)).
Definition allows_ipc : Z → bool := has CAP_IPC.
Definition allows_spawn : Z → bool := has CAP_SPAWN.
Definition allows_kernel_access : Z → bool := has CAP_KERNEL.
Definition allows_io : Z → bool := has CAP_IO.
Definition contains (flags requested : Z) : bool :=
  bool_decide (Z.land flags requested = requested).
End CapabilitySet.

Definition MAX_SUPPLEMENTARY_GROUPS : nat := 16.

Module Credentials.
Record t : Type := with_unix_credentials {
  label : SecurityLabel.t;
  capabilities : Z;
  isolation : IsolationLevel.t;
  uid : Z; euid : Z; gid : Z; egid : Z;    (* u16 *)
  supplementary_groups : list Z;
  supplementary_group_count : Z
}.

Definition new (label : SecurityLabel.t) (capabilities : Z) (isolation : IsolationLevel.t) : t :=
  let uid := match label.(SecurityLabel.level) with SecurityLevel.System => 0%Z | _ => 1000%Z end in
  with_unix_credentials label capabilities isolation uid uid uid uid
    (replicate MAX_SUPPLEMENTARY_GROUPS 0%Z) 0.

Definition system : t :=
  with_unix_credentials SecurityLabel.system CapabilitySet.full IsolationLevel.Process
    0 0 0 0 (replicate MAX_SUPPLEMENTARY_GROUPS 0%Z) 0.

Definition user : t :=
  with_unix_credentials SecurityLabel.internal CapabilitySet.ipc IsolationLevel.None_
    1000 1000 1000 1000 (replicate MAX_SUPPLEMENTARY_GROUPS 0%Z) 0.
End Credentials.

Module TaskDomain.
Record t : Type := mk {
  pid : ProcessId;
  label : SecurityLabel.t;
  capabilities : Z;
  isolation : IsolationLevel.t;
  uid : Z; euid : Z; gid : Z; egid : Z;
  supplementary_groups : list Z;
  supplementary_group_count : Z;
  quarantine_events : Z     (* u32 *)
}.

Definition from_credentials (pid : ProcessId) (creds : Credentials.t) : t :=
  mk pid creds.(Credentials.label) creds.(Credentials.capabilities) creds.(Credentials.isolation)
     creds.(Credentials.uid) creds.(Credentials.euid) creds.(Credentials.gid)
     creds.(Credentials.egid) creds.(Credentials.supplementary_groups)
     creds.(Credentials.supplementary_group_count) 0.

Definition can_receive (d : t) (class : SecurityClass.t) : bool :=
  SecurityLabel.dominates d.(label) (SecurityClass.as_label class).

Definition can_transmit (d : t) (class : SecurityClass.t) : bool :=
  CapabilitySet.allows_ipc d.(capabilities) &&
  SecurityLabel.dominates d.(label) (SecurityClass.as_label class).

Definition has_system_privilege (d : t) : bool :=
  bool_decide (d.(label).(SecurityLabel.level) = SecurityLevel.System) ||
  CapabilitySet.allows_kernel_access d.(capabilities).

Definition can_delegate (d : t) (requested : Credentials.t) : bool :=
  SecurityLabel.dominates d.(label) requested.(Credentials.label) &&
  CapabilitySet.contains d.(capabilities) requested.(Credentials.capabilities).
End TaskDomain.

Module DeviceSecurity.
Record t : Type := new { class : SecurityClass.t; requires_kernel_mode : bool }.
End DeviceSecurity.

Module IsolationError.
Inductive t : Type := UnknownTask | PolicyViolation | CapabilityMissing | CapabilityTableFull.
#[global] Instance eq_dec : EqDecision t.
Proof. solve_decision. Defined.
End IsolationError.

(** ** Requests of the kernel *)
Module MemoryProtection.
Record t : Type := new { read : bool; write : bool; execute : bool }.
End MemoryProtection.

Module ExecVectorMetadata.
Record t : Type := new { base : Z; count : Z; truncated : bool }.
Definition empty : t := new 0 0 false.
End ExecVectorMetadata.

Module ExecServiceDaemon.
Inductive t : Type := Display | Network | Input | L2Driver.
End ExecServiceDaemon.

Module ExecSignatureMetadata.
Record t : Type := new { signer : string; manifest_digest : Z }.
End ExecSignatureMetadata.

Module ExecImageMetadata.
Record t : Type := new {
  inode : Z; size : Z; mode : Z; entry_point : Z; stack_pointer : Z; address_space_root : Z;
  service_daemon : option ExecServiceDaemon.t;
  signature : option ExecSignatureMetadata.t
}.
(** the execute bits of the mode, octal 111 *)
Definition is_executable (i : t) : bool := negb (bool_decide (Z.land i.(mode) 73 = 0%Z)).
Definition is_signed_service_daemon (i : t) : bool :=
  match i.(service_daemon), i.(signature) with Some _, Some _ => true | _, _ => false end.
End ExecImageMetadata.

Module ExecRequest.
Record t : Type := new {
  caller : ProcessId;
  path : list Z;       (* the bytes of the [ProcessPath] *)
  argv : ExecVectorMetadata.t;
  envp : ExecVectorMetadata.t;
  requested_credentials : Credentials.t;
  image : ExecImageMetadata.t
}.
End ExecRequest.

(** ** The security kernel *)
Module SecurityKernel.
Record t : Type := mk {
  domains : list (option TaskDomain.t);
  capabilities : list (option CapabilityRecord.t);
  next_capability_id : Z    (* u64 *)
}.

Definition Op (A : Type) : Type := M t IsolationError.t A.

Definition new (MAX : nat) : t :=
  mk (replicate MAX None) (replicate MAX_CAPABILITY_RECORDS None) 1.

Definition reset (s : t) : t :=
  mk (replicate (length s.(domains)) None) (replicate (length s.(capabilities)) None) 1.

Definition set_domains (v : list (option TaskDomain.t)) (s : t) : t :=
  mk v s.(capabilities) s.(next_capability_id).
Definition set_capabilities (v : list (option CapabilityRecord.t)) (s : t) : t :=
  mk s.(domains) v s.(next_capability_id).

(** *** Lookups *)
Definition find_domain_index (pid : ProcessId) (s : t) : option nat :=
  find_slot (has_key TaskDomain.pid pid) s.(domains).

Definition domain (pid : ProcessId) (s : t) : result IsolationError.t TaskDomain.t :=
  ok_or (find_domain_index pid s ≫= λ idx, mjoin (s.(domains) !! idx)) IsolationError.UnknownTask.

Definition find_capability_index (id : CapabilityId) (s : t) : option nat :=
  find_slot (has_key CapabilityRecord.id id) s.(capabilities).

Definition capability_object_matches (granted requested : CapabilityObject.t) : bool :=
  if decide (granted = requested) then true
  else
    match granted, requested with
    | CapabilityObject.IpcEndpoint pid, CapabilityObject.IpcEndpoint _
    | CapabilityObject.ProcessHandle pid, CapabilityObject.ProcessHandle _ =>
        bool_decide (pid = u64_max)
    | CapabilityObject.PciDevice id, CapabilityObject.PciDevice _
    | CapabilityObject.FsObject id, CapabilityObject.FsObject _
    | CapabilityObject.HotplugController id, CapabilityObject.HotplugController _
    | CapabilityObject.MemoryObject id, CapabilityObject.MemoryObject _ =>
        bool_decide (id = u64_max)
    | CapabilityObject.IrqLine line, CapabilityObject.IrqLine _ => bool_decide (line = u16_max)
    | _, _ =>
        match CapabilityObject.region granted, CapabilityObject.region requested with
        | Some (granted_base, granted_length), Some (requested_base, requested_length) =>
            let granted_end := sat_add 64 granted_base granted_length in
            let requested_end := sat_add 64 requested_base requested_length in
            bool_decide (granted_base <= requested_base)%Z &&
            bool_decide (requested_end <= granted_end)%Z
        | _, _ => false
        end
    end.

Definition has_capability (owner : ProcessId) (object : CapabilityObject.t)
    (right : CapabilityRight.t) (s : t) : bool :=
  slot_any (λ r, bool_decide (r.(CapabilityRecord.owner) = owner) &&
                 capability_object_matches r.(CapabilityRecord.object) object &&
                 CapabilityRights.contains r.(CapabilityRecord.rights) right) s.(capabilities).

(** *** The capability table *)
Definition insert_capability (owner : ProcessId) (object : CapabilityObject.t) (rights : Z)
    (parent : option CapabilityId) : Op CapabilityId := λ s,
  match free_slot s.(capabilities) with
  | Some idx =>
      let id := s.(next_capability_id) in
      let next := wrap_add 64 id 1 in
      let next := if decide (next = 0%Z) then 1%Z else next in
      (Ok id,
       mk s.(domains)
          (<[idx := Some (CapabilityRecord.new id owner object rights parent)]> s.(capabilities))
          next)
  | None => (Err IsolationError.CapabilityTableFull, s)
  end.

Definition revoke_all_capabilities (owner : ProcessId) (s : t) : t :=
  set_capabilities
    (clear_where (λ r, bool_decide (r.(CapabilityRecord.owner) = owner)) s.(capabilities)) s.

(** [if c { body?; }] *)
Definition when (c : bool) (body : Op unit) : Op unit := if c then body else mret tt.

Definition seed (pid : ProcessId) (object : CapabilityObject.t) (rights : Z) : Op unit :=
  insert_capability pid object rights None ;; mret tt.

Definition seed_initial_capabilities (pid : ProcessId) (creds : Credentials.t) : Op unit :=
  let caps := creds.(Credentials.capabilities) in
  when (CapabilitySet.allows_ipc caps)
    (seed pid (CapabilityObject.IpcEndpoint pid) CapabilityRights.ipc_endpoint ;;
     seed pid (CapabilityObject.IpcEndpoint u64_max) CapabilityRights.ipc_endpoint) ;;
  when (CapabilitySet.allows_io caps)
    (seed pid (CapabilityObject.PciDevice u64_max) CapabilityRights.io ;;
     seed pid (CapabilityObject.DmaRegion 0 u64_max) CapabilityRights.io ;;
     seed pid (CapabilityObject.IrqLine u16_max) CapabilityRights.io ;;
     seed pid (CapabilityObject.MmioRegion 0 u64_max) CapabilityRights.io) ;;
  when (CapabilitySet.allows_kernel_access caps ||
        bool_decide (creds.(Credentials.label).(SecurityLabel.level) = SecurityLevel.System))
    (seed pid CapabilityObject.ServiceControl CapabilityRights.service_control ;;
     seed pid CapabilityObject.ModuleLoad CapabilityRights.service_control ;;
     seed pid (CapabilityObject.ProcessHandle pid) CapabilityRights.process_control ;;
     seed pid (CapabilityObject.ProcessHandle u64_max) CapabilityRights.process_control ;;
     seed pid (CapabilityObject.MemoryObject u64_max) CapabilityRights.memory).

(** *** Tasks *)
Definition register_task (pid : ProcessId) (creds : Credentials.t) : Op unit := λ s,
  match find_domain_index pid s with
  | Some idx =>
      let previous := mjoin (s.(domains) !! idx) in
      let s1 := set_domains
        (<[idx := Some (TaskDomain.from_credentials pid creds)]> s.(domains)) s in
      let s2 := revoke_all_capabilities pid s1 in
      match seed_initial_capabilities pid creds s2 with
      | (Ok _, s3) => (Ok tt, s3)
      | (Err err, s3) =>
          let s4 := revoke_all_capabilities pid s3 in
          (Err err, set_domains (<[idx := previous]> s4.(domains)) s4)
      end
  | None =>
      match free_slot s.(domains) with
      | Some idx =>
          let s1 := set_domains
            (<[idx := Some (TaskDomain.from_credentials pid creds)]> s.(domains)) s in
          match seed_initial_capabilities pid creds s1 with
          | (Ok _, s2) => (Ok tt, s2)
          | (Err err, s2) => (Err err, set_domains (<[idx := None]> s2.(domains)) s2)
          end
      | None => (Err IsolationError.PolicyViolation, s)
      end
  end.

Definition revoke_task (pid : ProcessId) (s : t) : t :=
  let s1 := match find_domain_index pid s with
            | Some idx => set_domains (<[idx := None]> s.(domains)) s
            | None => s
            end in
  revoke_all_capabilities pid s1.

Definition credentials (pid : ProcessId) (s : t) : result IsolationError.t Credentials.t :=
  match domain pid s with
  | Err e => Err e
  | Ok d =>
      Ok (Credentials.with_unix_credentials d.(TaskDomain.label) d.(TaskDomain.capabilities)
            d.(TaskDomain.isolation) d.(TaskDomain.uid) d.(TaskDomain.euid) d.(TaskDomain.gid)
            d.(TaskDomain.egid) d.(TaskDomain.supplementary_groups)
            d.(TaskDomain.supplementary_group_count))
  end.

(** *** Granting and revoking *)
Definition grant_capability (owner : ProcessId) (object : CapabilityObject.t) (rights : Z)
    : Op CapabilityId :=
  d ← gets (domain owner);
  lift d ;;
  insert_capability owner object rights None.

Definition revoke_capability (id : CapabilityId) : Op unit := λ s,
  match find_capability_index id s with
  | None => (Err IsolationError.CapabilityMissing, s)
  | Some idx =>
      (Ok tt,
       set_capabilities
         (clear_where (λ r, bool_decide (r.(CapabilityRecord.parent) = Some id))
            (<[idx := None]> s.(capabilities))) s)
  end.

Definition transfer_capability (source target : ProcessId) (id : CapabilityId)
    : Op CapabilityId :=
  d ← gets (domain source);
  lift d ;;
  d' ← gets (domain target);
  lift d' ;;
  o ← gets (find_capability_index id);
  idx ← lift (ok_or o IsolationError.CapabilityMissing);
  entry ← gets (λ s, mjoin (s.(capabilities) !! idx));
  record ← lift (ok_or entry IsolationError.CapabilityMissing);
  if negb (bool_decide (record.(CapabilityRecord.owner) = source)) ||
     negb (CapabilityRights.contains record.(CapabilityRecord.rights) CapabilityRight.Transfer)
  then throw IsolationError.CapabilityMissing
  else insert_capability target record.(CapabilityRecord.object)
         (CapabilityRights.inherited_child record.(CapabilityRecord.rights)) (Some id).

(** one step of the loop over the snapshot *)
Definition derive_slot (parent child : ProcessId) (entry : option CapabilityRecord.t) : Op unit :=
  match entry with
  | Some record =>
      if bool_decide (record.(CapabilityRecord.owner) = parent) &&
         CapabilityRights.contains record.(CapabilityRecord.rights) CapabilityRight.Transfer
      then
        insert_capability child record.(CapabilityRecord.object)
          (CapabilityRights.inherited_child record.(CapabilityRecord.rights))
          (Some record.(CapabilityRecord.id)) ;;
        mret tt
      else mret tt
  | None => mret tt
  end.

Definition derive_inherited_child_capabilities (parent child : ProcessId) : Op unit :=
  d ← gets (domain parent);
  lift d ;;
  d' ← gets (domain child);
  lift d' ;;
  snapshot ← gets capabilities;
  mfor snapshot (derive_slot parent child).

(** *** Authorization *)
Definition check_capability (owner : ProcessId) (object : CapabilityObject.t)
    (right : CapabilityRight.t) (s : t) : result IsolationError.t unit :=
  match domain owner s with
  | Err e => Err e
  | Ok _ => if has_capability owner object right s then Ok tt
            else Err IsolationError.CapabilityMissing
  end.

Definition authorize_ipc (sender receiver : ProcessId) (class : SecurityClass.t) (s : t)
    : result IsolationError.t unit :=
  match domain sender s with
  | Err e => Err e
  | Ok sender_domain =>
      match domain receiver s with
      | Err e => Err e
      | Ok receiver_domain =>
          match check_capability sender (CapabilityObject.IpcEndpoint receiver)
                  CapabilityRight.Send s with
          | Err e => Err e
          | Ok _ =>
              if negb (TaskDomain.can_transmit sender_domain class) ||
                 negb (TaskDomain.can_receive receiver_domain class)
              then Err IsolationError.PolicyViolation
              else if bool_decide (sender_domain.(TaskDomain.isolation) =
                                     IsolationLevel.VirtualMachine) &&
                      bool_decide (receiver_domain.(TaskDomain.isolation) = IsolationLevel.None_)
              then Err IsolationError.PolicyViolation
              else Ok tt
          end
      end
  end.

Definition authorize_device_access (pid : ProcessId) (object : CapabilityObject.t)
    (required_right : CapabilityRight.t) (security : DeviceSecurity.t) (s : t)
    : result IsolationError.t unit :=
  match domain pid s with
  | Err e => Err e
  | Ok d =>
      match check_capability pid object required_right s with
      | Err e => Err e
      | Ok _ =>
          match (if security.(DeviceSecurity.requires_kernel_mode)
                 then check_capability pid CapabilityObject.ModuleLoad CapabilityRight.Control s
                 else Ok tt) with
          | Err e => Err e
          | Ok _ =>
              if negb (SecurityLabel.dominates d.(TaskDomain.label)
                         (SecurityClass.as_label security.(DeviceSecurity.class)))
              then Err IsolationError.PolicyViolation
              else Ok tt
          end
      end
  end.

(** [self.domain(pid)?; self.check_capability(pid, object, right)] *)
Definition authorize_own (pid : ProcessId) (object : CapabilityObject.t)
    (right : CapabilityRight.t) (s : t) : result IsolationError.t unit :=
  match domain pid s with
  | Err e => Err e
  | Ok _ => check_capability pid object right s
  end.

Definition authorize_ipc_receive (pid : ProcessId) (s : t) : result IsolationError.t unit :=
  authorize_own pid (CapabilityObject.IpcEndpoint pid) CapabilityRight.Receive s.

Definition authorize_service_control (pid : ProcessId) (s : t) : result IsolationError.t unit :=
  authorize_own pid CapabilityObject.ServiceControl CapabilityRight.Control s.

Definition authorize_credential_update (pid : ProcessId) (s : t) : result IsolationError.t unit :=
  authorize_own pid (CapabilityObject.ProcessHandle pid) CapabilityRight.Control s.

Definition authorize_device_enumeration (pid : ProcessId) (s : t) : result IsolationError.t unit :=
  authorize_own pid (CapabilityObject.PciDevice u64_max) CapabilityRight.Read s.

Definition authorize_service_registration (pid : ProcessId) (class : SecurityClass.t) (s : t)
    : result IsolationError.t unit :=
  match domain pid s with
  | Err e => Err e
  | Ok d =>
      match check_capability pid (CapabilityObject.IpcEndpoint pid) CapabilityRight.Receive s with
      | Err e => Err e
      | Ok _ => if TaskDomain.can_receive d class then Ok tt
                else Err IsolationError.PolicyViolation
      end
  end.

Definition authorize_spawn (parent : ProcessId) (requested : Credentials.t) (s : t)
    : result IsolationError.t unit :=
  match domain parent s with
  | Err e => Err e
  | Ok d =>
      if negb (CapabilitySet.allows_spawn d.(TaskDomain.capabilities))
      then Err IsolationError.CapabilityMissing
      else if negb (TaskDomain.has_system_privilege d) && negb (TaskDomain.can_delegate d requested)
      then Err IsolationError.PolicyViolation
      else Ok tt
  end.

Definition authorize_exec (request : ExecRequest.t) (s : t) : result IsolationError.t unit :=
  match domain request.(ExecRequest.caller) s with
  | Err e => Err e
  | Ok d =>
      if negb (ExecImageMetadata.is_executable request.(ExecRequest.image))
      then Err IsolationError.PolicyViolation
      else if request.(ExecRequest.argv).(ExecVectorMetadata.truncated) ||
              request.(ExecRequest.envp).(ExecVectorMetadata.truncated)
      then Err IsolationError.PolicyViolation
      else if TaskDomain.has_system_privilege d ||
              TaskDomain.can_delegate d request.(ExecRequest.requested_credentials)
      then Ok tt
      else if ExecImageMetadata.is_signed_service_daemon request.(ExecRequest.image) then Ok tt
      else Err IsolationError.PolicyViolation
  end.

Definition enforce_isolation (pid : ProcessId) (s : t) : result IsolationError.t unit :=
  match domain pid s with
  | Err e => Err e
  | Ok d =>
      match d.(TaskDomain.isolation) with
      | IsolationLevel.None_ => Ok tt
      | IsolationLevel.Process => Ok tt
      | IsolationLevel.VirtualMachine =>
          if decide (d.(TaskDomain.quarantine_events) > 0)%Z
          then Err IsolationError.PolicyViolation else Ok tt
      end
  end.

Definition authorize_memory_service (pid : ProcessId) (s : t) : result IsolationError.t unit :=
  enforce_isolation pid s.

Definition authorize_memory_mapping (pid : ProcessId) (protection : MemoryProtection.t) (s : t)
    : result IsolationError.t unit :=
  match domain pid s with
  | Err e => Err e
  | Ok d =>
      if protection.(MemoryProtection.write) && protection.(MemoryProtection.execute)
      then Err IsolationError.PolicyViolation
      else if protection.(MemoryProtection.execute) && negb (TaskDomain.has_system_privilege d)
      then Err IsolationError.CapabilityMissing
      else enforce_isolation pid s
  end.
End SecurityKernel.
