(* ===== verification/SubkernelSafety.v ===== *)
(** * What the L2 security kernel guarantees

    Labels form a partial order; authorization decisions are characterised
    exactly; delegation cannot escalate; the capability table keeps its
    identifiers unique and derived capabilities attenuated; registration,
    granting, transfer and revocation do what they promise.  The last section
    exhibits runs in which revocation and failed registration leave
    capabilities behind. *)

From stdpp Require Import prelude strings.
From S2P Require Import Prelude Slots Subkernel.
Import SecurityKernel.

(** ** Bit sets *)
Lemma land_trans a b c : Z.land a b = b → Z.land b c = c → Z.land a c = c.
Proof. intros Hab Hbc. by rewrite <-Hbc at 1; rewrite Z.land_assoc, Hab. Qed.

Lemma land_antisym a b : Z.land a b = b → Z.land b a = a → a = b.
Proof. intros Hab Hba. transitivity (Z.land b a); [done|]. by rewrite Z.land_comm. Qed.

(** a flag of a subset is a flag of the set *)
Lemma has_subset flag a b : Z.land a b = b → CapabilitySet.has flag b = true →
  CapabilitySet.has flag a = true.
Proof.
  unfold CapabilitySet.has. rewrite !negb_true_iff, !bool_decide_eq_false.
  intros Hab Hb Ha. apply Hb. by rewrite <-Hab, (Z.land_comm a b), <-Z.land_assoc, Ha, Z.land_0_r.
Qed.

Lemma dominates_spec a b :
  SecurityLabel.dominates a b = true ↔
  (SecurityLevel.as_u8 b.(SecurityLabel.level) <= SecurityLevel.as_u8 a.(SecurityLabel.level))%Z ∧
  Z.land a.(SecurityLabel.categories) b.(SecurityLabel.categories) = b.(SecurityLabel.categories).
Proof. unfold SecurityLabel.dominates. by rewrite andb_true_iff, !bool_decide_eq_true. Qed.

Lemma dominates_refl a : SecurityLabel.dominates a a = true.
Proof. apply dominates_spec. split; [lia|apply Z.land_diag]. Qed.

Lemma dominates_trans a b c :
  SecurityLabel.dominates a b = true → SecurityLabel.dominates b c = true →
  SecurityLabel.dominates a c = true.
Proof.
  rewrite !dominates_spec. intros [? ?] [? ?]. split; [lia|by eapply land_trans].
Qed.

(** [dominates] is a partial order on security labels (reflexive, transitive
    and antisymmetric), so information-flow decisions compose; the system label
    dominates every label whose categories fit in 32 bits. *)
Theorem dominates_partial_order :
  (∀ a, SecurityLabel.dominates a a = true) ∧
  (∀ a b c, SecurityLabel.dominates a b = true → SecurityLabel.dominates b c = true →
            SecurityLabel.dominates a c = true) ∧
  (∀ a b, SecurityLabel.dominates a b = true → SecurityLabel.dominates b a = true → a = b) ∧
  (∀ a, (0 <= a.(SecurityLabel.categories) <= u32_max)%Z →
        SecurityLabel.dominates SecurityLabel.system a = true).
Proof.
  split_and!; [apply dominates_refl|apply dominates_trans| |].
  - intros [la ca] [lb cb]. rewrite !dominates_spec; cbn. intros [Hl Hc] [Hl' Hc'].
    f_equal; [|by apply land_antisym]. by destruct la, lb; cbn in *; try lia.
  - intros [l c] Hc; cbn in Hc. apply dominates_spec; cbn. split; [destruct l; cbn; lia|].
    rewrite Z.land_comm. change u32_max with (Z.ones 32). rewrite Z.land_ones by lia.
    apply Z.mod_small. unfold u32_max in Hc. lia.
Qed.

(** ** Lookups *)
Abbreviation get_domain k s := (slot_get TaskDomain.pid k s.(domains)).
Abbreviation get_cap k s := (slot_get CapabilityRecord.id k s.(capabilities)).

Lemma find_key_join {K T} `{!EqDecision K} (key : T → K) k l :
  (find_slot (has_key key k) l ≫= λ i, mjoin (l !! i)) = slot_get key k l.
Proof.
  unfold slot_get. pose proof (find_slot_find (has_key key k) l) as H.
  destruct (find_slot (has_key key k) l) as [i|]; cbn; [|done].
  destruct H as (x & Hx & ->). by rewrite Hx.
Qed.

Lemma domain_spec pid s : domain pid s = ok_or (get_domain pid s) IsolationError.UnknownTask.
Proof. unfold domain, find_domain_index. by rewrite find_key_join. Qed.

Lemma has_capability_spec owner object right s :
  has_capability owner object right s = true ↔
  ∃ r, Some r ∈ s.(capabilities) ∧ r.(CapabilityRecord.owner) = owner ∧
    capability_object_matches r.(CapabilityRecord.object) object = true ∧
    CapabilityRights.contains r.(CapabilityRecord.rights) right = true.
Proof.
  unfold has_capability. rewrite slot_any_true. f_equiv. intros r.
  rewrite !andb_true_iff, bool_decide_eq_true. tauto.
Qed.

Lemma check_capability_spec owner object right s :
  check_capability owner object right s = Ok tt ↔
  is_Some (get_domain owner s) ∧ has_capability owner object right s = true.
Proof.
  unfold check_capability. rewrite domain_spec.
  destruct (get_domain owner s) as [d|]; cbn.
  - destruct (has_capability _ _ _ _); split; [eauto|done|done|by intros [_ ?]].
  - split; [done|]. by intros [[? ?] _].
Qed.

(** ** IPC and devices *)

(** [authorize_ipc] succeeds exactly when both tasks are registered, the
    sender owns a capability covering the receiver's endpoint with the Send
    right and has the IPC flag, both labels dominate the message class, and the
    message does not leave a virtual machine for an unisolated task. *)
Theorem authorize_ipc_exact sender receiver class s :
  authorize_ipc sender receiver class s = Ok tt ↔
  ∃ ds dr r,
    get_domain sender s = Some ds ∧ get_domain receiver s = Some dr ∧
    Some r ∈ s.(capabilities) ∧ r.(CapabilityRecord.owner) = sender ∧
    capability_object_matches r.(CapabilityRecord.object)
      (CapabilityObject.IpcEndpoint receiver) = true ∧
    CapabilityRights.contains r.(CapabilityRecord.rights) CapabilityRight.Send = true ∧
    CapabilitySet.allows_ipc ds.(TaskDomain.capabilities) = true ∧
    SecurityLabel.dominates ds.(TaskDomain.label) (SecurityClass.as_label class) = true ∧
    SecurityLabel.dominates dr.(TaskDomain.label) (SecurityClass.as_label class) = true ∧
    ¬ (ds.(TaskDomain.isolation) = IsolationLevel.VirtualMachine ∧
       dr.(TaskDomain.isolation) = IsolationLevel.None_).
Proof.
  unfold authorize_ipc. rewrite !domain_spec.
  destruct (get_domain sender s) as [ds|] eqn:Hs; cbn [ok_or];
    [|split; [done|intros (? & ? & ? & ? & _); done]].
  destruct (get_domain receiver s) as [dr|] eqn:Hr; cbn [ok_or];
    [|split; [done|intros (? & ? & ? & ? & ? & _); done]].
  pose proof (check_capability_spec sender (CapabilityObject.IpcEndpoint receiver)
    CapabilityRight.Send s) as Hc. rewrite has_capability_spec, Hs in Hc.
  destruct (check_capability _ _ _ _) as [[]|e].
  2:{ split; [done|]. intros (? & ? & r & ? & ? & ? & ? & ? & ? & _).
      enough (Err e = Ok (E := IsolationError.t) tt) by done. apply Hc. eauto 10. }
  destruct (proj1 Hc eq_refl) as [_ (r & Hr1 & Hr2 & Hr3 & Hr4)].
  unfold TaskDomain.can_transmit, TaskDomain.can_receive.
  destruct (CapabilitySet.allows_ipc ds.(TaskDomain.capabilities)) eqn:Hi,
    (SecurityLabel.dominates ds.(TaskDomain.label) _) eqn:Hd1,
    (SecurityLabel.dominates dr.(TaskDomain.label) _) eqn:Hd2; cbn [negb andb orb];
    try (split; [done|]; intros (? & ? & ? & [= <-] & [= <-] & ? & ? & ? & ? & ? & ? & ? & ?);
         congruence).
  rewrite <-bool_decide_and. case_bool_decide as Hiso.
  - split; [done|]. intros (? & ? & ? & [= <-] & [= <-] & Hrest). tauto.
  - split; [|done]. intros _. exists ds, dr, r. done.
Qed.

(** [authorize_device_access] succeeds exactly when the task is registered,
    owns a capability covering the device with the required right, owns the
    module-load control capability if the device needs kernel mode, and its
    label dominates the device's class. *)
Theorem authorize_device_access_exact pid object right security s :
  authorize_device_access pid object right security s = Ok tt ↔
  ∃ d, get_domain pid s = Some d ∧ has_capability pid object right s = true ∧
    (security.(DeviceSecurity.requires_kernel_mode) = true →
     has_capability pid CapabilityObject.ModuleLoad CapabilityRight.Control s = true) ∧
    SecurityLabel.dominates d.(TaskDomain.label)
      (SecurityClass.as_label security.(DeviceSecurity.class)) = true.
Proof.
  unfold authorize_device_access, check_capability. rewrite domain_spec.
  destruct (get_domain pid s) as [d|]; cbn [ok_or]; [|split; [done|by intros (? & ? & _)]].
  destruct (has_capability pid object right s), (security.(DeviceSecurity.requires_kernel_mode)),
    (has_capability pid CapabilityObject.ModuleLoad CapabilityRight.Control s),
    (SecurityLabel.dominates d.(TaskDomain.label)
       (SecurityClass.as_label security.(DeviceSecurity.class))) eqn:Hd; cbn; split;
    first [done | intros _; exists d; done
          | intros (? & [= <-] & ? & Hk & ?); try specialize (Hk eq_refl); congruence ].
Qed.

(** the address range [[base, base + length)] *)
Definition in_region (o : CapabilityObject.t) (a : Z) : Prop :=
  match CapabilityObject.region o with
  | Some (b, l) => (b <= a < b + l)%Z
  | None => False
  end.

(** A region capability covers a request only if it contains every address
    of it.  The granted region must end inside the 64-bit address space; the
    requested one may be any region, even one whose end saturates (its last
    address 2^64-1 excepted). *)
Theorem region_match_contains granted requested a :
  capability_object_matches granted requested = true →
  (∃ b l, CapabilityObject.region granted = Some (b, l) ∧ (b + l <= u64_max)%Z) →
  in_region requested a → (a < u64_max)%Z → in_region granted a.
Proof.
  intros Hm (b & l & Hg & Hle) Hin Ha. unfold in_region in *. rewrite Hg.
  destruct (CapabilityObject.region requested) as [[rb rl]|] eqn:Hr; [|done].
  unfold capability_object_matches in Hm. case_decide as Heq.
  { subst. rewrite Hg in Hr. by injection Hr as -> ->. }
  destruct granted; try done; destruct requested; try done; cbn in Hg, Hr;
    injection Hg as -> ->; injection Hr as -> ->; cbn in Hm;
    apply andb_true_iff in Hm as [H1%bool_decide_eq_true H2%bool_decide_eq_true];
    unfold sat_add, umax, u64_max in *; lia.
Qed.

(** ** Memory mappings *)

(** [authorize_memory_mapping] enforces W^X and reserves executable mappings
    for privileged tasks: it succeeds exactly when the task is registered, the
    mapping is not both writable and executable, an executable one is asked for
    by a task with system privilege, and the task is not a quarantined virtual
    machine. *)
Theorem memory_mapping_exact pid p s :
  authorize_memory_mapping pid p s = Ok tt ↔
  ∃ d, get_domain pid s = Some d ∧
    ¬ (p.(MemoryProtection.write) = true ∧ p.(MemoryProtection.execute) = true) ∧
    (p.(MemoryProtection.execute) = true → TaskDomain.has_system_privilege d = true) ∧
    ¬ (d.(TaskDomain.isolation) = IsolationLevel.VirtualMachine ∧
       0 < d.(TaskDomain.quarantine_events))%Z.
Proof.
  unfold authorize_memory_mapping, enforce_isolation. rewrite domain_spec.
  destruct (get_domain pid s) as [d|]; cbn [ok_or]; [|split; [done|by intros (? & ? & _)]].
  destruct (p.(MemoryProtection.write)), (p.(MemoryProtection.execute)),
    (TaskDomain.has_system_privilege d) eqn:Hp, (d.(TaskDomain.isolation)) eqn:Hi; cbn;
    try case_decide; split;
    first [ done
          | intros _; exists d; split_and!; try done; (intros [? ?]; first [done | congruence | lia])
          | intros (? & [= <-] & Hwx & Hx & Hq); exfalso;
            first [ apply Hwx; done | specialize (Hx eq_refl); congruence
                  | apply Hq; split; [congruence | lia] ] ].
Qed.

(** ** Delegation *)
Definition privileged (c : Credentials.t) : bool :=
  bool_decide (c.(Credentials.label).(SecurityLabel.level) = SecurityLevel.System) ||
  CapabilitySet.allows_kernel_access c.(Credentials.capabilities).

(** [c'] asks for no more than [c] has *)
Definition within (c c' : Credentials.t) : Prop :=
  SecurityLabel.dominates c.(Credentials.label) c'.(Credentials.label) = true ∧
  CapabilitySet.contains c.(Credentials.capabilities) c'.(Credentials.capabilities) = true.

(** a task with credentials [c] is allowed to start a task, or to become one,
    with credentials [c'], without a signed service image *)
Inductive delegates (c c' : Credentials.t) : Prop :=
| delegates_spawn s pid :
    credentials pid s = Ok c → authorize_spawn pid c' s = Ok tt → delegates c c'
| delegates_exec s request :
    credentials request.(ExecRequest.caller) s = Ok c →
    request.(ExecRequest.requested_credentials) = c' →
    ExecImageMetadata.is_signed_service_daemon request.(ExecRequest.image) = false →
    authorize_exec request s = Ok tt → delegates c c'.

Lemma credentials_spec pid s c :
  credentials pid s = Ok c →
  ∃ d, get_domain pid s = Some d ∧ c.(Credentials.label) = d.(TaskDomain.label) ∧
       c.(Credentials.capabilities) = d.(TaskDomain.capabilities).
Proof.
  unfold credentials. rewrite domain_spec. destruct (get_domain pid s) as [d|]; [|done].
  intros [= <-]. by exists d.
Qed.

Lemma delegates_within c c' : delegates c c' → privileged c = false → within c c'.
Proof.
  intros [s pid Hc Ha|s request Hc <- Hsig Ha] Hp;
    apply credentials_spec in Hc as (d & Hd & Hl & Hk);
    assert (TaskDomain.has_system_privilege d = false) as Hd'
      by (unfold TaskDomain.has_system_privilege, privileged in *; by rewrite <-Hl, <-Hk).
  - unfold authorize_spawn in Ha. rewrite domain_spec, Hd in Ha. cbn in Ha.
    destruct (negb _); [done|]. rewrite Hd' in Ha. cbn in Ha.
    destruct (TaskDomain.can_delegate d c') eqn:Hcan; [|done].
    apply andb_true_iff in Hcan as [? ?]. split; congruence.
  - unfold authorize_exec in Ha. rewrite domain_spec, Hd in Ha. cbn in Ha.
    destruct (negb _); [done|]. destruct (_ || _); [done|]. rewrite Hd', Hsig in Ha. cbn in Ha.
    destruct (TaskDomain.can_delegate d _) eqn:Hcan; [|done].
    apply andb_true_iff in Hcan as [? ?]. split; congruence.
Qed.

Lemma within_unprivileged c c' : within c c' → privileged c = false → privileged c' = false.
Proof.
  unfold within, privileged. rewrite !orb_false_iff, !bool_decide_eq_false.
  intros [[Hl _]%dominates_spec Hk%bool_decide_eq_true] [Hns Hnk]. split.
  - intros Hs. rewrite Hs in Hl. cbn in Hl.
    destruct (c.(Credentials.label).(SecurityLabel.level)); cbn in Hl; try lia. done.
  - destruct (CapabilitySet.allows_kernel_access c'.(Credentials.capabilities)) eqn:Hk'; [|done].
    unfold CapabilitySet.allows_kernel_access in *.
    by rewrite (has_subset _ _ _ Hk Hk') in Hnk.
Qed.

Lemma within_trans a b c : within a b → within b c → within a c.
Proof.
  intros [Hl1 Hk1%bool_decide_eq_true] [Hl2 Hk2%bool_decide_eq_true].
  split; [by eapply dominates_trans|]. apply bool_decide_eq_true. by eapply land_trans.
Qed.

(** C22: no escalation along any chain of spawns and execs: starting from an
    unprivileged task, every task reached by authorised spawns and by execs of
    images that are not signed service daemons is unprivileged, its label is
    dominated by the original one and its capabilities are among the original
    ones. *)
Theorem delegation_never_escalates c c' :
  rtc delegates c c' → privileged c = false → privileged c' = false ∧ within c c'.
Proof.
  induction 1 as [c|c c1 c2 Hstep _ IH]; intros Hp.
  - split; [done|]. split; [apply dominates_refl|]. apply bool_decide_eq_true, Z.land_diag.
  - pose proof (delegates_within _ _ Hstep Hp) as Hw.
    destruct (IH (within_unprivileged _ _ Hw Hp)) as [? ?]. split; [done|].
    by eapply within_trans.
Qed.

(** ** The capability table *)
Record cap_wf (s : t) : Prop := {
  cw_size : length s.(capabilities) = MAX_CAPABILITY_RECORDS;
  cw_next : (1 <= s.(next_capability_id) <= u64_max)%Z;
  cw_ids : ∀ r, Some r ∈ s.(capabilities) →
             (1 <= r.(CapabilityRecord.id) < s.(next_capability_id))%Z;
  cw_uniq : uniq CapabilityRecord.id s.(capabilities);
  (* a parent is older than its child *)
  cw_parent : ∀ r p, Some r ∈ s.(capabilities) → r.(CapabilityRecord.parent) = Some p →
                (1 <= p < r.(CapabilityRecord.id))%Z;
  (* a derived capability is its parent's without the Revoke right *)
  cw_derived : ∀ r q, Some r ∈ s.(capabilities) → Some q ∈ s.(capabilities) →
                 r.(CapabilityRecord.parent) = Some q.(CapabilityRecord.id) →
                 r.(CapabilityRecord.object) = q.(CapabilityRecord.object) ∧
                 r.(CapabilityRecord.rights) =
                   CapabilityRights.inherited_child q.(CapabilityRecord.rights);
  cw_domains : uniq TaskDomain.pid s.(domains);
  cw_quarantine : ∀ d, Some d ∈ s.(domains) → d.(TaskDomain.quarantine_events) = 0%Z
}.

Lemma wf_clear p s :
  cap_wf s → cap_wf (set_capabilities (clear_where p s.(capabilities)) s).
Proof.
  intros []. split; cbn; try done.
  - by rewrite length_clear_where.
  - intros r [? _]%elem_of_clear. auto.
  - by apply uniq_sublist_clear.
  - intros r q [? _]%elem_of_clear. eauto.
  - intros r q [? _]%elem_of_clear [? _]%elem_of_clear. eauto.
Qed.

Lemma wf_remove s i r :
  cap_wf s → s.(capabilities) !! i = Some (Some r) →
  cap_wf (set_capabilities (<[i:=None]> s.(capabilities)) s).
Proof.
  intros [] Hi. assert (∀ q, Some q ∈ <[i:=None]> s.(capabilities) → Some q ∈ s.(capabilities)) as Hin.
  { by intros q [?|?]%elem_of_insert_slot. }
  split; cbn; try done.
  - by rewrite length_insert.
  - eauto.
  - by eapply uniq_clear_one.
  - eauto.
  - eauto 10.
Qed.

Lemma wf_set_domains v s :
  cap_wf s → uniq TaskDomain.pid v →
  (∀ d, Some d ∈ v → d.(TaskDomain.quarantine_events) = 0%Z) → cap_wf (set_domains v s).
Proof. intros [] Hu Hq. by split. Qed.

(** An operation that keeps the table well formed and allocates at most [k]
    identifiers, as long as they last. *)
Definition allocates {A} (k : nat) (m : Op A) : Prop :=
  ∀ s, cap_wf s → (s.(next_capability_id) + Z.of_nat k <= u64_max)%Z →
    cap_wf (m s).2 ∧
    (s.(next_capability_id) <= (m s).2.(next_capability_id)
       <= s.(next_capability_id) + Z.of_nat k)%Z.

Lemma allocates_ret {A} (a : A) : allocates 0 (mret a).
Proof. intros s Hs _. cbn. split; [done|lia]. Qed.

Lemma allocates_bind {A B} k l (m : Op A) (f : A → Op B) :
  allocates k m → (∀ a, allocates l (f a)) → allocates (k + l) (m ≫= f).
Proof.
  intros Hm Hf s Hs Hb. destruct (Hm s Hs ltac:(lia)) as [Hs1 Hn1].
  unfold mbind, M_bind. destruct (m s) as [[a|e] s1]; cbn in *; [|split; [done|lia]].
  destruct (Hf a s1 Hs1 ltac:(lia)) as [Hs2 Hn2]. split; [done|lia].
Qed.

Lemma allocates_mono {A} k l (m : Op A) : k ≤ l → allocates k m → allocates l m.
Proof. intros Hle Hm s Hs Hb. destruct (Hm s Hs ltac:(lia)). split; [done|lia]. Qed.

(** What inserting does, in full. *)
Lemma insert_spec owner object rights parent s i :
  cap_wf s → (s.(next_capability_id) < u64_max)%Z → free_slot s.(capabilities) = Some i →
  let r := CapabilityRecord.new s.(next_capability_id) owner object rights parent in
  insert_capability owner object rights parent s =
    (Ok s.(next_capability_id),
     mk s.(domains) (<[i:=Some r]> s.(capabilities)) (s.(next_capability_id) + 1)).
Proof.
  intros Hs Hlt Hi r. unfold insert_capability. rewrite Hi.
  pose proof (cw_next _ Hs) as Hn.
  assert (wrap_add 64 s.(next_capability_id) 1 = s.(next_capability_id) + 1)%Z as ->.
  { apply wrap_add_small. unfold umax, u64_max in *. lia. }
  rewrite decide_False by lia. done.
Qed.

Lemma elem_of_insert_free {T} (l : list (option T)) i x y :
  free_slot l = Some i → Some y ∈ <[i:=Some x]> l ↔ y = x ∨ Some y ∈ l.
Proof.
  intros Hi%free_slot_Some. split.
  - intros [[= ->]|?]%elem_of_insert_slot; auto.
  - intros [->|Hy].
    + apply elem_of_insert_slot_new. by eapply lookup_lt_Some.
    + apply list_elem_of_lookup in Hy as [j Hj]. apply list_elem_of_lookup. exists j.
      rewrite list_lookup_insert_ne; [done|]. congruence.
Qed.

Lemma allocates_insert owner object rights parent s :
  cap_wf s → (s.(next_capability_id) + 1 <= u64_max)%Z →
  (∀ p, parent = Some p → (1 <= p < s.(next_capability_id))%Z ∧
     ∀ q, Some q ∈ s.(capabilities) → q.(CapabilityRecord.id) = p →
          object = q.(CapabilityRecord.object) ∧
          rights = CapabilityRights.inherited_child q.(CapabilityRecord.rights)) →
  let s' := (insert_capability owner object rights parent s).2 in
  cap_wf s' ∧ (s.(next_capability_id) <= s'.(next_capability_id)
                 <= s.(next_capability_id) + 1)%Z ∧
  (∀ r, Some r ∈ s.(capabilities) → Some r ∈ s'.(capabilities)).
Proof.
  intros Hs Hb Hpar s'. subst s'. destruct (free_slot s.(capabilities)) as [i|] eqn:Hi.
  2:{ unfold insert_capability. rewrite Hi. cbn. split_and!; [done|lia..|done]. }
  rewrite (insert_spec _ _ _ _ _ _ Hs ltac:(lia) Hi). cbn [snd next_capability_id capabilities].
  pose proof (cw_next _ Hs) as Hn. split_and!; [|lia..|].
  2:{ intros r Hr. apply elem_of_insert_free; auto. }
  destruct Hs. split; cbn; try done.
  - by rewrite length_insert.
  - lia.
  - intros r [->|Hr]%(elem_of_insert_free _ _ _ _ Hi); cbn; [lia|].
    specialize (cw_ids0 r Hr). lia.
  - apply uniq_insert; [done|done|]. cbn. apply slot_get_None. intros r Hr Heq.
    specialize (cw_ids0 r Hr). lia.
  - intros r p [->|Hr]%(elem_of_insert_free _ _ _ _ Hi); cbn.
    + intros Hp. by apply Hpar in Hp as [? _].
    + by apply cw_parent0.
  - intros r q [->|Hr]%(elem_of_insert_free _ _ _ _ Hi) [->|Hq]%(elem_of_insert_free _ _ _ _ Hi);
      cbn; intros Hp.
    + apply Hpar in Hp as [? _]. lia.
    + apply Hpar in Hp as [_ Hp]. by apply Hp.
    + apply cw_parent0 in Hp; [|done]. specialize (cw_ids0 r Hr). lia.
    + by apply cw_derived0.
Qed.

Lemma allocates_seed pid object rights : allocates 1 (seed pid object rights).
Proof.
  intros s Hs Hb.
  destruct (allocates_insert pid object rights None s Hs ltac:(lia)) as (Hw & Hn & _); [done|].
  unfold seed, mbind, M_bind. destruct (insert_capability _ _ _ _ s) as [[i|e] s1]; cbn in *.
  all: split; [done|lia].
Qed.

Lemma allocates_when k c m : allocates k m → allocates k (when c m).
Proof.
  intros Hm. destruct c; cbn; [done|]. eapply allocates_mono; [|apply allocates_ret]. lia.
Qed.

Lemma allocates_seeds pid creds : allocates 11 (seed_initial_capabilities pid creds).
Proof.
  unfold seed_initial_capabilities.
  apply (allocates_bind 2 9); [|intros _; apply (allocates_bind 4 5); [|intros _]];
    apply allocates_when; repeat first
      [ apply allocates_seed | apply (allocates_bind 1); [apply allocates_seed|intros _] ].
Qed.

(** Nothing below the task layer touches the domains. *)
Lemma keeps_domains_insert D owner object rights parent :
  keeps (λ s, s.(domains) = D) (insert_capability owner object rights parent).
Proof. intros s Hs. unfold insert_capability. by destruct (free_slot _). Qed.
#[export] Hint Resolve keeps_domains_insert : keeps.

Lemma keeps_domains_when D c m :
  keeps (λ s, s.(domains) = D) m → keeps (λ s, s.(domains) = D) (when c m).
Proof. intros Hm. destruct c; [done|]. by intros s. Qed.
#[export] Hint Resolve keeps_domains_when : keeps.

Lemma seeds_domains pid creds s :
  (seed_initial_capabilities pid creds s).2.(domains) = s.(domains).
Proof.
  assert (keeps (λ s', s'.(domains) = s.(domains)) (seed_initial_capabilities pid creds)) as Hk;
    [|by apply Hk]. unfold seed_initial_capabilities, seed. auto 20 with keeps.
Qed.

(** The two ways [register_task] proceeds. *)
Lemma register_cases pid s :
  (∃ d i, get_domain pid s = Some d ∧ find_domain_index pid s = Some i ∧
          s.(domains) !! i = Some (Some d)) ∨
  (get_domain pid s = None ∧ find_domain_index pid s = None).
Proof.
  unfold find_domain_index, slot_get.
  pose proof (find_slot_find (has_key TaskDomain.pid pid) s.(domains)) as Hf.
  destruct (find_slot _ _) as [i|]; [left|by right]. destruct Hf as (d & Hi & ->). eauto.
Qed.

Lemma allocates_register pid creds : allocates 11 (register_task pid creds).
Proof.
  intros s Hs Hb. unfold register_task.
  destruct (register_cases pid s) as [(d & i & Hd & -> & Hi)|[Hd ->]].
  - pose proof (slot_get_key _ _ _ _ Hd) as Hk. rewrite Hi. cbn [mjoin option_join].
    set (s1 := set_domains _ s). assert (cap_wf s1) as Hs1.
    { destruct Hs. apply wf_set_domains; [by split|by eapply uniq_set|].
      intros x [[= <-]|?]%elem_of_insert_slot; auto. }
    pose proof (wf_clear (λ r, bool_decide (r.(CapabilityRecord.owner) = pid)) s1 Hs1) as Hs2.
    fold (revoke_all_capabilities pid s1) in Hs2.
    destruct (allocates_seeds pid creds _ Hs2 Hb) as [Hs3 Hn].
    pose proof (seeds_domains pid creds (revoke_all_capabilities pid s1)) as Hdom.
    destruct (seed_initial_capabilities pid creds _) as [[u|e] s3]; [by split|].
    cbn [fst snd] in *. split; [|done].
    pose proof (wf_clear (λ r, bool_decide (r.(CapabilityRecord.owner) = pid)) s3 Hs3) as Hs4.
    apply wf_set_domains; [exact Hs4|..]; cbn [domains revoke_all_capabilities set_capabilities];
      rewrite Hdom; cbn; rewrite list_insert_insert_eq, list_insert_id by done; apply Hs.
  - destruct (free_slot s.(domains)) as [i|] eqn:Hi; [|split; [done|cbn in *; lia]].
    set (s1 := set_domains _ s). assert (cap_wf s1) as Hs1.
    { destruct Hs. apply wf_set_domains; [by split|by apply uniq_insert|].
      intros x [[= <-]|?]%elem_of_insert_slot; auto. }
    destruct (allocates_seeds pid creds s1 Hs1 Hb) as [Hs2 Hn].
    pose proof (seeds_domains pid creds s1) as Hdom.
    destruct (seed_initial_capabilities pid creds _) as [[u|e] s3]; [by split|].
    cbn [fst snd] in *. split; [|done].
    apply wf_set_domains; [exact Hs2|..]; rewrite Hdom; cbn;
      rewrite list_insert_insert_eq, list_insert_id by (by apply free_slot_Some); apply Hs.
Qed.

Lemma wf_revoke_task pid s : cap_wf s → cap_wf (revoke_task pid s).
Proof.
  intros Hs. unfold revoke_task. set (s1 := match _ with Some _ => _ | None => _ end).
  assert (cap_wf s1) as Hs1; [|by apply wf_clear].
  subst s1. destruct (register_cases pid s) as [(d & i & Hd & -> & Hi)|[_ ->]];
    [|done]. destruct Hs. apply wf_set_domains; [by split|by eapply uniq_clear_one|].
  intros x [?|?]%elem_of_insert_slot; [done|auto].
Qed.

Lemma wf_revoke_capability id s : cap_wf s → cap_wf (revoke_capability id s).2.
Proof.
  intros Hs. unfold revoke_capability, find_capability_index.
  pose proof (find_slot_find (has_key CapabilityRecord.id id) s.(capabilities)) as Hf.
  destruct (find_slot _ _) as [i|]; [|done]. destruct Hf as (r & Hi & _).
  apply (wf_clear _ _ (wf_remove _ _ _ Hs Hi)).
Qed.

Lemma allocates_grant owner object rights : allocates 1 (grant_capability owner object rights).
Proof.
  intros s Hs Hb. unfold grant_capability, mbind, M_bind, gets, lift.
  destruct (domain owner s) as [d|e]; [|split; [done|cbn in *; lia]].
  destruct (allocates_insert owner object rights None s Hs ltac:(lia)) as (Hw & Hn & _); [done|].
  split; [done|cbn in *; lia].
Qed.

(** the record [find_capability_index] leads to *)
Lemma transfer_spec source target id s :
  transfer_capability source target id s =
  match get_domain source s, get_domain target s, get_cap id s with
  | None, _, _ | _, None, _ => (Err IsolationError.UnknownTask, s)
  | _, _, None => (Err IsolationError.CapabilityMissing, s)
  | Some _, Some _, Some r =>
      if bool_decide (r.(CapabilityRecord.owner) = source) &&
         CapabilityRights.contains r.(CapabilityRecord.rights) CapabilityRight.Transfer
      then insert_capability target r.(CapabilityRecord.object)
             (CapabilityRights.inherited_child r.(CapabilityRecord.rights)) (Some id) s
      else (Err IsolationError.CapabilityMissing, s)
  end.
Proof.
  unfold transfer_capability, mbind, M_bind, gets, lift. rewrite !domain_spec.
  destruct (get_domain source s), (get_domain target s); cbn [ok_or]; try done.
  unfold find_capability_index, slot_get.
  pose proof (find_slot_find (has_key CapabilityRecord.id id) s.(capabilities)) as Hf.
  destruct (find_slot _ _) as [i|]; cbn [ok_or]; [|by rewrite Hf].
  destruct Hf as (r & -> & ->). cbn.
  by destruct (bool_decide _), (CapabilityRights.contains _ _).
Qed.

Lemma allocates_transfer source target id : allocates 1 (transfer_capability source target id).
Proof.
  intros s Hs Hb. rewrite transfer_spec.
  destruct (get_domain source s), (get_domain target s); try (split; [done|cbn; lia]).
  destruct (get_cap id s) as [r|] eqn:Hr; [|split; [done|cbn; lia]].
  destruct (_ && _); [|split; [done|cbn; lia]].
  pose proof (slot_get_key _ _ _ _ Hr) as Hid. pose proof (slot_get_elem _ _ _ _ Hr) as Hin.
  destruct (allocates_insert target r.(CapabilityRecord.object)
    (CapabilityRights.inherited_child r.(CapabilityRecord.rights)) (Some id) s Hs ltac:(lia))
    as (Hw & Hn & _); [|split; [done|cbn in *; lia]].
  intros p [= <-]. split; [rewrite <-Hid; by apply Hs|]. intros q Hq Hqid.
  assert (q = r) as ->; [|done].
  pose proof (uniq_elem _ _ _ (cw_uniq _ Hs) Hq) as Hq'. rewrite Hqid in Hq'. congruence.
Qed.

Lemma derive_loop_spec parent child l s :
  cap_wf s → (∀ r, Some r ∈ l → Some r ∈ s.(capabilities)) →
  (s.(next_capability_id) + Z.of_nat (length l) <= u64_max)%Z →
  let s' := (mfor l (derive_slot parent child) s).2 in
  cap_wf s' ∧ (s.(next_capability_id) <= s'.(next_capability_id)
                 <= s.(next_capability_id) + Z.of_nat (length l))%Z.
Proof.
  revert s. induction l as [|o l IH]; intros s Hs Hl Hb; cbn zeta; cbn [mfor]; [split; [done|cbn; lia]|].
  cbn [length] in *. unfold mbind, M_bind.
  set (d := derive_slot parent child o s).
  assert (cap_wf d.2 ∧ (s.(next_capability_id) <= d.2.(next_capability_id)
            <= s.(next_capability_id) + 1)%Z ∧
          (∀ r, Some r ∈ s.(capabilities) → Some r ∈ d.2.(capabilities))) as (Hd1 & Hd2 & Hd3).
  { subst d. unfold derive_slot. destruct o as [r|]; [|split_and!; [done|cbn; lia..|done]].
    destruct (_ && _); [|split_and!; [done|cbn; lia..|done]].
    assert (Some r ∈ s.(capabilities)) as Hr by (apply Hl; constructor).
    pose proof (allocates_insert child r.(CapabilityRecord.object)
      (CapabilityRights.inherited_child r.(CapabilityRecord.rights))
      (Some r.(CapabilityRecord.id)) s Hs ltac:(lia)) as Ha.
    unfold mbind, M_bind. destruct (insert_capability _ _ _ _ s) as [[i|e] s1]; cbn in *; apply Ha.
    all: intros p [= <-]; split; [by apply Hs|]; intros q Hq Hqid.
    all: assert (q = r) as ->; [|done].
    all: pose proof (uniq_elem _ _ _ (cw_uniq _ Hs) Hq) as Hq'; rewrite Hqid in Hq'.
    all: pose proof (uniq_elem _ _ _ (cw_uniq _ Hs) Hr); congruence. }
  destruct d as [[u|e] s1]; cbn [fst snd] in *; [|split; [done|lia]].
  destruct (IH s1 Hd1) as [? ?]; [|lia|split; [done|cbn [snd] in *; lia]].
  intros r Hr. apply Hd3, Hl. by constructor.
Qed.

Lemma allocates_derive parent child :
  allocates 256 (derive_inherited_child_capabilities parent child).
Proof.
  intros s Hs Hb. unfold derive_inherited_child_capabilities, mbind, M_bind, gets, lift.
  destruct (domain parent s); [|split; [done|cbn; lia]].
  destruct (domain child s); [|split; [done|cbn; lia]].
  pose proof (cw_size _ Hs) as Hsz. unfold MAX_CAPABILITY_RECORDS in Hsz.
  destruct (derive_loop_spec parent child s.(capabilities) s Hs) as [? ?]; [done|lia|].
  split; [done|cbn in *; lia].
Qed.

(** ** Reachable states *)
Inductive call : Type :=
| RegisterTask (pid : ProcessId) (creds : Credentials.t)
| RevokeTask (pid : ProcessId)
| GrantCapability (owner : ProcessId) (object : CapabilityObject.t) (rights : Z)
| RevokeCapability (id : CapabilityId)
| TransferCapability (source target : ProcessId) (id : CapabilityId)
| DeriveInherited (parent child : ProcessId)
| RevokeAll (owner : ProcessId)
| Reset_.

Definition exec (c : call) (s : t) : t :=
  match c with
  | RegisterTask pid creds => (register_task pid creds s).2
  | RevokeTask pid => revoke_task pid s
  | GrantCapability owner object rights => (grant_capability owner object rights s).2
  | RevokeCapability id => (revoke_capability id s).2
  | TransferCapability source target id => (transfer_capability source target id s).2
  | DeriveInherited parent child => (derive_inherited_child_capabilities parent child s).2
  | RevokeAll owner => revoke_all_capabilities owner s
  | Reset_ => reset s
  end.

Definition run (cs : list call) (s : t) : t := foldl (flip exec) s cs.

Lemma security_new_wf n m : m = MAX_CAPABILITY_RECORDS → cap_wf (mk (replicate n None) (replicate m None) 1).
Proof.
  intros ->. split; cbn [domains capabilities next_capability_id].
  - apply length_replicate.
  - unfold u64_max. lia.
  - by intros r ?%elem_of_replicate_None.
  - apply uniq_replicate.
  - by intros r p ?%elem_of_replicate_None.
  - by intros r q ?%elem_of_replicate_None.
  - apply uniq_replicate.
  - by intros d ?%elem_of_replicate_None.
Qed.

Lemma exec_wf c s :
  cap_wf s → (s.(next_capability_id) + 256 <= u64_max)%Z →
  cap_wf (exec c s) ∧ ((exec c s).(next_capability_id) <= s.(next_capability_id) + 256)%Z.
Proof.
  intros Hs Hb.
  assert (∀ A k (m : Op A), k ≤ 256 → allocates k m →
    cap_wf (m s).2 ∧ ((m s).2.(next_capability_id) <= s.(next_capability_id) + 256)%Z) as Hop.
  { intros A k m Hk Hm. destruct (Hm s Hs ltac:(lia)). split; [done|lia]. }
  pose proof (cw_next _ Hs).
  destruct c; cbn [exec].
  - apply (Hop _ 11); [lia|apply allocates_register].
  - split; [by apply wf_revoke_task|]. unfold revoke_task.
    destruct (find_domain_index pid s); cbn; lia.
  - apply (Hop _ 1); [lia|apply allocates_grant].
  - split; [by apply wf_revoke_capability|]. unfold revoke_capability.
    destruct (find_capability_index id s); cbn; lia.
  - apply (Hop _ 1); [lia|apply allocates_transfer].
  - apply (Hop _ 256); [lia|apply allocates_derive].
  - split; [by apply wf_clear|cbn; lia].
  - split; [apply security_new_wf, Hs|cbn; lia].
Qed.

Lemma run_wf cs s :
  cap_wf s → (s.(next_capability_id) + 256 * Z.of_nat (length cs) <= u64_max)%Z →
  cap_wf (run cs s).
Proof.
  revert s. induction cs as [|c cs IH]; intros s Hs Hb; [done|]. cbn [length] in Hb.
  destruct (exec_wf c s Hs ltac:(lia)) as [Hs1 Hn1]. apply (IH (exec c s)); [done|lia].
Qed.

(** C7: the capability table stays sound under any sequence of calls that cannot
    exhaust the 64-bit identifiers (each call allocates at most 256): identifiers
    are unique and below the next one, parents are older than their children,
    every derived capability names its parent's object with exactly its parent's
    rights minus Revoke, and task domains are unique. *)
Theorem capability_table_sound MAX (cs : list call) :
  (256 * Z.of_nat (length cs) < u64_max)%Z → cap_wf (run cs (new MAX)).
Proof. intros Hb. apply run_wf; [by apply security_new_wf|cbn [new next_capability_id]; lia]. Qed.

(** Quarantine never takes effect: in every reachable state no domain has a
    quarantine event, so [enforce_isolation] (and with it the memory service
    authorization) accepts every registered task, virtual machines included. *)
Theorem isolation_never_quarantines MAX (cs : list call) pid d :
  (256 * Z.of_nat (length cs) < u64_max)%Z →
  let s := run cs (new MAX) in
  get_domain pid s = Some d → authorize_memory_service pid s = Ok tt.
Proof.
  intros Hb s Hd. assert (cap_wf s) as Hs by (apply run_wf; [by apply security_new_wf|cbn [new next_capability_id]; lia]).
  unfold authorize_memory_service, enforce_isolation. rewrite domain_spec, Hd. cbn.
  destruct (d.(TaskDomain.isolation)); try done.
  rewrite (cw_quarantine _ Hs d) by (by eapply slot_get_elem). done.
Qed.

(** ** Revoking a task *)

(** [revoke_task] removes the task and everything it owns, and nothing else:
    afterwards the task is unknown, no capability is owned by it, and every other
    task and every other task's capability is untouched. *)
Theorem revoke_task_complete pid s :
  cap_wf s →
  let s' := revoke_task pid s in
  domain pid s' = Err IsolationError.UnknownTask ∧
  (∀ q, q ≠ pid → domain q s' = domain q s) ∧
  (∀ r, Some r ∈ s'.(capabilities) ↔
        Some r ∈ s.(capabilities) ∧ r.(CapabilityRecord.owner) ≠ pid).
Proof.
  intros Hs s'. split_and!.
  - rewrite domain_spec. subst s'. unfold revoke_task.
    destruct (register_cases pid s) as [(d & i & Hd & -> & Hi)|[Hd ->]]; cbn; [|by rewrite Hd].
    rewrite (slot_get_clear_one _ _ _ d) by (done || apply Hs).
    by rewrite decide_True by (by eapply slot_get_key).
  - intros q Hq. rewrite !domain_spec. subst s'. unfold revoke_task.
    destruct (register_cases pid s) as [(d & i & Hd & -> & Hi)|[Hd ->]]; cbn; [|done].
    rewrite (slot_get_clear_one _ _ _ d) by (done || apply Hs).
    apply slot_get_key in Hd. by rewrite decide_False by congruence.
  - intros r. assert (s'.(capabilities) =
      clear_where (λ r, bool_decide (r.(CapabilityRecord.owner) = pid)) s.(capabilities)) as ->.
    { subst s'. unfold revoke_task. by destruct (find_domain_index pid s). }
    by rewrite elem_of_clear, bool_decide_eq_false.
Qed.

(** ** Registration *)

(** what a task with these credentials starts with *)
Definition seeded (pid : ProcessId) (creds : Credentials.t) : list (CapabilityObject.t * Z) :=
  let caps := creds.(Credentials.capabilities) in
  (if CapabilitySet.allows_ipc caps then
     [(CapabilityObject.IpcEndpoint pid, CapabilityRights.ipc_endpoint);
      (CapabilityObject.IpcEndpoint u64_max, CapabilityRights.ipc_endpoint)] else []) ++
  (if CapabilitySet.allows_io caps then
     [(CapabilityObject.PciDevice u64_max, CapabilityRights.io);
      (CapabilityObject.DmaRegion 0 u64_max, CapabilityRights.io);
      (CapabilityObject.IrqLine u16_max, CapabilityRights.io);
      (CapabilityObject.MmioRegion 0 u64_max, CapabilityRights.io)] else []) ++
  (if privileged creds then
     [(CapabilityObject.ServiceControl, CapabilityRights.service_control);
      (CapabilityObject.ModuleLoad, CapabilityRights.service_control);
      (CapabilityObject.ProcessHandle pid, CapabilityRights.process_control);
      (CapabilityObject.ProcessHandle u64_max, CapabilityRights.process_control);
      (CapabilityObject.MemoryObject u64_max, CapabilityRights.memory)] else []).

Definition covers (object : CapabilityObject.t) (right : CapabilityRight.t)
    (p : CapabilityObject.t * Z) : bool :=
  capability_object_matches p.1 object && CapabilityRights.contains p.2 right.

Lemma slot_any_insert_free {T} (p : T → bool) l i x :
  free_slot l = Some i → slot_any p (<[i:=Some x]> l) = p x || slot_any p l.
Proof.
  intros Hi. apply eq_true_iff_eq. rewrite orb_true_iff, !slot_any_true.
  setoid_rewrite (elem_of_insert_free _ _ _ _ Hi). split.
  - intros (y & [->|Hy] & Hp); eauto.
  - intros [Hp|(y & Hy & Hp)]; eauto.
Qed.

(** [s'] extends [s] by capabilities of [pid] for [l]. *)
Definition gained (pid : ProcessId) (l : list (CapabilityObject.t * Z)) (s s' : t) : Prop :=
  ∀ q object right, has_capability q object right s' =
    (bool_decide (pid = q) && existsb (covers object right) l) || has_capability q object right s.

Lemma gained_nil pid s : gained pid [] s s.
Proof. intros q object right. by destruct (bool_decide _). Qed.

Lemma gained_trans pid l1 l2 s1 s2 s3 :
  gained pid l1 s1 s2 → gained pid l2 s2 s3 → gained pid (l1 ++ l2) s1 s3.
Proof.
  intros H1 H2 q object right. rewrite H2, H1, existsb_app.
  by destruct (bool_decide _), (existsb _ l1), (existsb _ l2), (has_capability _ _ _ _).
Qed.

Definition gains (pid : ProcessId) (l : list (CapabilityObject.t * Z)) (m : Op unit) : Prop :=
  ∀ s s', m s = (Ok tt, s') → gained pid l s s'.

Lemma gains_seed pid object rights : gains pid [(object, rights)] (seed pid object rights).
Proof.
  intros s s'. unfold seed, mbind, M_bind, insert_capability.
  destruct (free_slot s.(capabilities)) as [i|] eqn:Hi; [|done]. intros [= <-] q o right.
  unfold has_capability. cbn [capabilities]. rewrite (slot_any_insert_free _ _ _ _ Hi).
  unfold covers. cbn. rewrite orb_false_r. by destruct (bool_decide _).
Qed.

Lemma gains_bind pid l1 l2 m1 m2 :
  gains pid l1 m1 → gains pid l2 m2 → gains pid (l1 ++ l2) (m1 ;; m2).
Proof.
  intros H1 H2 s s'. unfold mbind, M_bind.
  destruct (m1 s) as [[[]|e] s1] eqn:Hm; [|done]. intros Hm2.
  eapply gained_trans; [by apply H1|by apply H2].
Qed.

Lemma gains_when pid l (c : bool) m : gains pid l m → gains pid (if c then l else []) (when c m).
Proof. intros Hm. destruct c; [done|]. intros s s' [= <-]. apply gained_nil. Qed.

Lemma gains_seeds pid creds : gains pid (seeded pid creds) (seed_initial_capabilities pid creds).
Proof.
  unfold seeded, seed_initial_capabilities, privileged. rewrite orb_comm.
  apply gains_bind; [|apply gains_bind]; apply gains_when; repeat first
    [ apply gains_seed | apply (gains_bind _ [_]); [apply gains_seed|] ].
Qed.

Lemma credentials_of pid creds s d :
  get_domain pid s = Some d → d = TaskDomain.from_credentials pid creds →
  credentials pid s = Ok creds.
Proof.
  intros Hd ->. unfold credentials. rewrite domain_spec, Hd. cbn. by destruct creds.
Qed.

Lemma has_capability_revoked pid q object right s :
  has_capability q object right (revoke_all_capabilities pid s) =
    if decide (pid = q) then false else has_capability q object right s.
Proof.
  apply eq_true_iff_eq. case_decide as Hq; rewrite !has_capability_spec; cbn [capabilities
    revoke_all_capabilities set_capabilities]; setoid_rewrite elem_of_clear;
    setoid_rewrite bool_decide_eq_false.
  - split; [|done]. intros (r & [? ?] & ? & _). congruence.
  - split; intros (r & Hr & Ho & Hrest); exists r; [by destruct Hr|]. split_and!; try apply Hrest; try done.
    congruence.
Qed.

(** A successful [register_task] gives the task exactly the credentials and
    the capabilities its flags call for.  Provided the task was already
    registered or owned nothing, [credentials] returns what was registered, every
    capability check of the task is decided by the seeded list alone, and no other
    task's domain or capability check changes. *)
Theorem register_grants_exactly pid creds s s' :
  register_task pid creds s = (Ok tt, s') →
  is_Some (get_domain pid s) ∨ (∀ object right, has_capability pid object right s = false) →
  credentials pid s' = Ok creds ∧
  (∀ object right, has_capability pid object right s' =
     existsb (covers object right) (seeded pid creds)) ∧
  (∀ q, q ≠ pid → domain q s' = domain q s ∧
     ∀ object right, has_capability q object right s' = has_capability q object right s).
Proof.
  unfold register_task. intros Hreg Hfresh.
  set (d := TaskDomain.from_credentials pid creds) in *.
  assert (∃ s1 i, domains s1 = <[i:=Some d]> s.(domains) ∧
    (∀ k, slot_get TaskDomain.pid k (<[i:=Some d]> s.(domains)) =
       if decide (pid = k) then Some d else get_domain k s) ∧
    (∀ q object right, has_capability q object right s1 =
       if decide (pid = q) then false else has_capability q object right s) ∧
    seed_initial_capabilities pid creds s1 = (Ok tt, s')) as (s1 & i & Hdom & Hget & Hcap & Hseed).
  { destruct (register_cases pid s) as [(x & i & Hx & Hf & Hi)|[Hx Hf]]; rewrite Hf in Hreg.
    - destruct (seed_initial_capabilities pid creds _) as [[[]|e] s3] eqn:Hseed; [|done].
      injection Hreg as ->. eexists _, i. split_and!; [| | |exact Hseed].
      + done.
      + intros k. by apply slot_get_update.
      + intros q object right. rewrite has_capability_revoked. done.
    - destruct (free_slot s.(domains)) as [i|] eqn:Hi; [|done].
      destruct (seed_initial_capabilities pid creds _) as [[[]|e] s3] eqn:Hseed; [|done].
      injection Hreg as ->. eexists _, i. split_and!; [| | |exact Hseed].
      + done.
      + intros k. by apply (slot_get_insert TaskDomain.pid _ _ d).
      + intros q object right. destruct Hfresh as [[? ?]|Hfresh]; [congruence|].
        case_decide; [subst q; apply Hfresh|done]. }
  pose proof (gains_seeds pid creds _ _ Hseed) as Hg.
  pose proof (seeds_domains pid creds s1) as Hd. rewrite Hseed in Hd. cbn [snd] in Hd.
  split_and!.
  - eapply credentials_of; [|done]. by rewrite Hd, Hdom, Hget, decide_True.
  - intros object right. rewrite (Hg pid), Hcap, decide_True by done.
    by rewrite bool_decide_eq_true_2, orb_false_r by done.
  - intros q Hq. split.
    + rewrite !domain_spec, Hd, Hdom, Hget. by rewrite decide_False by congruence.
    + intros object right. rewrite (Hg q), Hcap. rewrite bool_decide_eq_false_2 by congruence.
      by rewrite decide_False by congruence.
Qed.

(** ** Grant, transfer, revoke *)
Lemma matches_refl o : capability_object_matches o o = true.
Proof. unfold capability_object_matches. by rewrite decide_True. Qed.

Lemma clear_where_none {T} (p : T → bool) l :
  (∀ x, Some x ∈ l → p x = false) → clear_where p l = l.
Proof.
  induction l as [|[x|] l IH]; intros H; cbn; [done| |].
  - rewrite (H x) by constructor. f_equal. apply IH. intros y Hy. apply H. by constructor.
  - f_equal. apply IH. intros y Hy. apply H. by constructor.
Qed.

Lemma find_inserted {T K} `{!EqDecision K} (key : T → K) l i x :
  free_slot l = Some i → slot_get key (key x) l = None →
  find_slot (has_key key (key x)) (<[i:=Some x]> l) = Some i.
Proof.
  revert i. induction l as [|[y|] l IH]; intros i; simpl; [done| |].
  - intros (j & Hj & ->)%fmap_Some. rewrite slot_get_cons. case_decide; [done|]. intros Hx.
    simpl. unfold has_key at 1. rewrite bool_decide_eq_false_2 by done. by rewrite (IH _ Hj Hx).
  - intros [= <-] _. simpl. unfold has_key. by rewrite bool_decide_eq_true_2.
Qed.

(** Granting and revoking is a round trip.  On a sound table with a free
    slot, granting to a registered task makes every granted right check out for
    that object, and revoking the returned identifier restores the capability
    table exactly. *)
Theorem grant_revoke_roundtrip owner object rights s i :
  cap_wf s → (s.(next_capability_id) < u64_max)%Z →
  is_Some (get_domain owner s) → free_slot s.(capabilities) = Some i →
  ∃ id s1 s2, grant_capability owner object rights s = (Ok id, s1) ∧
    (∀ right, CapabilityRights.contains rights right = true →
              check_capability owner object right s1 = Ok tt) ∧
    revoke_capability id s1 = (Ok tt, s2) ∧
    s2.(capabilities) = s.(capabilities) ∧ s2.(domains) = s.(domains).
Proof.
  intros Hs Hlt [d Hd] Hi. pose proof (insert_spec owner object rights None s i Hs Hlt Hi) as Hins.
  cbv zeta in Hins. set (r := CapabilityRecord.new _ _ _ _ _) in Hins. set (s1 := mk _ _ _) in Hins.
  assert (get_cap s.(next_capability_id) s = None) as Hnone.
  { apply slot_get_None. intros q Hq Heq. pose proof (cw_ids _ Hs q Hq). lia. }
  exists s.(next_capability_id), s1. eexists. split_and!.
  - unfold grant_capability, mbind, M_bind, gets, lift. by rewrite domain_spec, Hd.
  - intros right Hr. apply check_capability_spec. split; [by exists d|].
    apply has_capability_spec. exists r. split_and!; [|done|apply matches_refl|done].
    apply elem_of_insert_free; auto.
  - unfold revoke_capability, find_capability_index.
    change (capabilities s1) with (<[i:=Some r]> s.(capabilities)).
    pose proof (find_inserted CapabilityRecord.id _ _ r Hi Hnone) as Hf.
    change (CapabilityRecord.id r) with s.(next_capability_id) in Hf. by rewrite Hf.
  - cbn. rewrite list_insert_insert_eq, list_insert_id by (by apply free_slot_Some).
    apply clear_where_none. intros q Hq. apply bool_decide_eq_false. intros Hp.
    pose proof (cw_parent _ Hs _ _ Hq Hp). pose proof (cw_ids _ Hs q Hq). lia.
  - done.
Qed.

(** Transferring needs ownership and the Transfer right, and attenuates.
    [transfer_capability] succeeds exactly when both tasks are registered, the
    source owns the capability with the Transfer right, and the table has a free
    slot; the one record it adds belongs to the target, names the same object and
    the same rights without Revoke.  A failed transfer changes nothing. *)
Theorem transfer_attenuates source target id s :
  cap_wf s → (s.(next_capability_id) < u64_max)%Z →
  match transfer_capability source target id s with
  | (Ok id', s') =>
      ∃ r, get_cap id s = Some r ∧ r.(CapabilityRecord.owner) = source ∧
        CapabilityRights.contains r.(CapabilityRecord.rights) CapabilityRight.Transfer = true ∧
        (∀ x, Some x ∈ s'.(capabilities) ↔ Some x ∈ s.(capabilities) ∨
           x = CapabilityRecord.new id' target r.(CapabilityRecord.object)
                 (CapabilityRights.inherited_child r.(CapabilityRecord.rights)) (Some id)) ∧
        CapabilityRights.contains
          (CapabilityRights.inherited_child r.(CapabilityRecord.rights))
          CapabilityRight.Revoke = false
  | (Err e, s') =>
      s' = s ∧
      (get_domain source s = None ∨ get_domain target s = None ∨
       free_slot s.(capabilities) = None ∨
       (∀ r, get_cap id s = Some r → r.(CapabilityRecord.owner) = source →
             CapabilityRights.contains r.(CapabilityRecord.rights) CapabilityRight.Transfer = false))
  end.
Proof.
  intros Hs Hlt. rewrite transfer_spec.
  destruct (get_domain source s) as [ds|]; [|by auto].
  destruct (get_domain target s) as [dt|]; [|by auto].
  destruct (get_cap id s) as [r|] eqn:Hr.
  2:{ split; [done|]. right; right; right. done. }
  destruct (bool_decide_reflect (r.(CapabilityRecord.owner) = source)) as [Ho|Ho]; cbn [andb].
  2:{ split; [done|]. right; right; right. intros ? [= <-]. done. }
  destruct (CapabilityRights.contains r.(CapabilityRecord.rights) CapabilityRight.Transfer) eqn:Ht.
  2:{ split; [done|]. right; right; right. by intros ? [= <-]. }
  destruct (free_slot s.(capabilities)) as [i|] eqn:Hi.
  2:{ unfold insert_capability. rewrite Hi. split; [done|]. auto. }
  rewrite (insert_spec _ _ _ _ _ _ Hs Hlt Hi). exists r. split_and!; [done|done|done| |].
  - intros x. cbn [capabilities]. rewrite (elem_of_insert_free _ _ _ _ Hi). tauto.
  - unfold CapabilityRights.contains, CapabilityRights.inherited_child, CapabilityRights.without.
    apply negb_false_iff, bool_decide_eq_true. rewrite Z.land_comm. apply Z.bits_inj'. intros n Hn.
    rewrite Z.land_spec, Z.ldiff_spec, Z.bits_0.
    by destruct (Z.testbit (CapabilityRight.flag CapabilityRight.Revoke) n),
      (Z.testbit r.(CapabilityRecord.rights) n).
Qed.

(** ** Capabilities that outlive their authority *)

(** Tasks 1, 2 and 3; task 1's capability is passed on to 2 and from 2 to 3,
    then revoked. *)
Definition three_tasks : t :=
  run [RegisterTask 1 Credentials.user; RegisterTask 2 Credentials.user;
       RegisterTask 3 Credentials.user;
       GrantCapability 1 (CapabilityObject.MemoryObject 42) CapabilityRights.memory;
       TransferCapability 1 2 7; TransferCapability 2 3 8] (new 4).

(** Revocation reaches children but not grandchildren: after capability 7 has
    been transferred from task 1 to 2 (as 8) and from 2 to 3 (as 9), revoking 7
    takes the object from tasks 1 and 2 but leaves task 3 in control of it. *)
Theorem revocation_misses_grandchildren :
  let object := CapabilityObject.MemoryObject 42 in
  let '(r, s) := revoke_capability 7 three_tasks in
  r = Ok tt ∧
  check_capability 1 object CapabilityRight.Control s = Err IsolationError.CapabilityMissing ∧
  check_capability 2 object CapabilityRight.Control s = Err IsolationError.CapabilityMissing ∧
  check_capability 3 object CapabilityRight.Control s = Ok tt.
Proof. vm_compute. split_and!; reflexivity. Qed.

(** Task 1 fills the table but for two slots; registering task 2 as a system task
    then fails; task 1 is revoked and task 2 registered with no capability. *)
Definition leaked : t :=
  let no_caps := Credentials.new SecurityLabel.public CapabilitySet.none IsolationLevel.Process in
  run ([RegisterTask 1 no_caps] ++
       replicate 254 (GrantCapability 1 (CapabilityObject.FsObject 5) CapabilityRights.io) ++
       [RegisterTask 2 Credentials.system; RevokeTask 1; RegisterTask 2 no_caps]) (new 4).

(** A failed first registration leaves capabilities behind.  When the table
    fills up while task 2 is being registered, the capabilities seeded so far
    stay in it; registering task 2 again, now without any capability flag, leaves
    it holding an IPC endpoint, so [authorize_ipc_receive] accepts it. *)
Theorem failed_registration_leaks :
  (CapabilitySet.allows_ipc <$>
     (TaskDomain.capabilities <$> get_domain 2%Z leaked)) = Some false ∧
  authorize_ipc_receive 2 leaked = Ok tt ∧
  has_capability 2 (CapabilityObject.IpcEndpoint 99) CapabilityRight.Send leaked = true.
Proof. vm_compute. split_and!; reflexivity. Qed.

(** ** The theorems at work *)
Definition demo_calls : list call :=
  [RegisterTask 1 Credentials.system; RegisterTask 2 Credentials.user;
   GrantCapability 2 (CapabilityObject.MmioRegion 4096 8192) CapabilityRights.io].
Definition demo : t := run demo_calls (new 4).

Lemma demo_wf : cap_wf demo.
Proof. apply run_wf; [by apply security_new_wf|]. by apply Z.leb_le. Qed.

Lemma capability_table_sound_witness : cap_wf (run demo_calls (new 4)).
Proof. apply (capability_table_sound 4 demo_calls). reflexivity. Defined.

Lemma isolation_never_quarantines_witness : authorize_memory_service 2 demo = Ok tt.
Proof.
  refine (isolation_never_quarantines 4 demo_calls 2
    (TaskDomain.from_credentials 2 Credentials.user) _ _); vm_compute; reflexivity.
Defined.

Lemma region_match_contains_witness :
  in_region (CapabilityObject.MmioRegion 4096 8192) 5000.
Proof.
  apply (region_match_contains (CapabilityObject.MmioRegion 4096 8192)
           (CapabilityObject.DmaRegion 4096 1000)).
  - reflexivity.
  - exists 4096%Z, 8192%Z. split; [reflexivity|]. by apply Z.leb_le.
  - split; [by apply Z.leb_le|by apply Z.ltb_lt].
  - by apply Z.ltb_lt.
Defined.

Definition spawner : Credentials.t :=
  Credentials.new SecurityLabel.internal
    (Z.lor CapabilitySet.CAP_IPC CapabilitySet.CAP_SPAWN) IsolationLevel.Process.

Lemma delegation_never_escalates_witness :
  privileged Credentials.user = false ∧ within spawner Credentials.user.
Proof.
  apply (delegation_never_escalates spawner Credentials.user); [|reflexivity].
  apply rtc_once.
  apply (delegates_spawn _ _ (run [RegisterTask 1 spawner] (new 2)) 1); reflexivity.
Defined.

Lemma revoke_task_complete_witness :
  domain 2 (revoke_task 2 demo) = Err IsolationError.UnknownTask.
Proof. exact (proj1 (revoke_task_complete 2 demo demo_wf)). Defined.

Lemma register_grants_exactly_witness :
  credentials 3 (exec (RegisterTask 3 Credentials.user) demo) = Ok Credentials.user.
Proof.
  destruct (register_task 3 Credentials.user demo) as [r s'] eqn:Hreg.
  assert (r = Ok tt) as -> by (apply (f_equal fst) in Hreg; vm_compute in Hreg; by subst).
  destruct (register_grants_exactly 3 Credentials.user demo s' Hreg) as [H _].
  - right. intros object right. destruct (has_capability 3 object right demo) eqn:Hc; [|done].
    apply has_capability_spec in Hc as (x & Hx & Ho & _). exfalso.
    assert (slot_any (λ r, bool_decide (r.(CapabilityRecord.owner) = 3%Z)) demo.(capabilities)
      = true) as Hany.
    { apply slot_any_true. exists x. split; [exact Hx|]. by apply bool_decide_eq_true. }
    vm_compute in Hany. discriminate Hany.
  - cbn [exec]. rewrite Hreg. exact H.
Defined.

Lemma demo_room : ∃ i, free_slot demo.(capabilities) = Some i.
Proof. exists 14. by vm_compute. Qed.

Lemma grant_revoke_roundtrip_witness :
  ∃ id s1 s2, grant_capability 2 (CapabilityObject.FsObject 5) CapabilityRights.io demo = (Ok id, s1) ∧
    revoke_capability id s1 = (Ok tt, s2) ∧ s2.(capabilities) = demo.(capabilities).
Proof.
  destruct demo_room as [i Hi].
  destruct (grant_revoke_roundtrip 2 (CapabilityObject.FsObject 5) CapabilityRights.io demo i demo_wf)
    as (id & s1 & s2 & H1 & _ & H2 & H3 & _); [by vm_compute| |exact Hi|].
  - exists (TaskDomain.from_credentials 2 Credentials.user). by vm_compute.
  - eauto 10.
Defined.

Lemma transfer_attenuates_witness :
  ∃ e, transfer_capability 2 1 1 demo = (Err e, demo).
Proof.
  pose proof (transfer_attenuates 2 1 1 demo demo_wf) as H.
  destruct (transfer_capability 2 1 1 demo) as [[id|e] s'] eqn:Ht.
  - apply (f_equal (λ p, is_ok p.1)) in Ht. by vm_compute in Ht.
  - destruct H as [-> _]; [by vm_compute|]. by exists e.
Defined.
