(* ===== verification/FrameAllocator.v ===== *)
(** * The physical frame allocator

    Model of [src/kernel/memory/frame_allocator.rs]: the table of physical
    regions and the database of 4 KiB frames.  The const generic MAX_REGIONS is
    the length of [regions].  The [metadata] pointer is the list of frame states
    it points to, [None] when it is null; every access in the code is at an
    index below [frame_count].

    The boot information (src/src/arch/x86_64/boot.rs) is a record of the fields
    the allocator reads; an entry or module whose Limine pointer is unusable is
    [None], as the accessors return it.  Three inputs come from the machine and
    are arguments of [ingest_boot_info]: the address range of the static page
    table pool, the address of the current stack, and the memory behind a virtual
    address.  Addresses are translated as in src/src/arch/x86_64/paging.rs. *)

From stdpp Require Import prelude.
From S2P Require Import Prelude Slots.

Local Open Scope Z_scope.

Definition PAGE_SIZE : Z := 4096.

(** ** Addresses *)
(** [value & !(PAGE_SIZE - 1)] *)
Definition align_down_u64 (value : Z) : Z := Z.ldiff value (PAGE_SIZE - 1).
Definition align_up_u64 (value : Z) : Z :=
  let mask := PAGE_SIZE - 1 in Z.ldiff (sat_add 64 value mask) mask.
Definition frame_index (address : Z) : nat := Z.to_nat (address / PAGE_SIZE).
Definition ranges_overlap (a_start a_end b_start b_end : Z) : bool :=
  bool_decide (a_start < b_end) && bool_decide (b_start < a_end).

Module MemoryError.
Inductive t : Type :=
| NotInitialized | OutOfMemory | MetadataUnavailable | MetadataTooSmall | InvalidFrame
| DoubleFree | UnalignedFrame.
#[global] Instance eq_dec : EqDecision t.
Proof. solve_decision. Defined.
End MemoryError.

Module PhysFrame.
Record t : Type := mk { start : Z }.
Definition containing_address (address : Z) : t := mk (align_down_u64 address).
Definition from_start_address (start : Z) : result MemoryError.t t :=
  if decide (Z.land start (PAGE_SIZE - 1) = 0) then Ok (mk start)
  else Err MemoryError.UnalignedFrame.
End PhysFrame.

(** the kinds of Limine memory map entries *)
Module MemoryRegionKind.
Inductive t : Type :=
| Usable | Reserved | AcpiReclaimable | AcpiNvs | BadMemory | BootloaderReclaimable
| KernelAndModules | Framebuffer | Unknown (raw : Z).
End MemoryRegionKind.

Module PhysicalRegionKind.
Inductive t : Type :=
| Usable | Reserved | Acpi | Mmio | Kernel | Module_ | BootloaderReclaimable
| AllocatorMetadata.
#[global] Instance eq_dec : EqDecision t.
Proof. solve_decision. Defined.
Definition from_boot (kind : MemoryRegionKind.t) : t :=
  match kind with
  | MemoryRegionKind.Usable => Usable
  | MemoryRegionKind.AcpiReclaimable | MemoryRegionKind.AcpiNvs => Acpi
  | MemoryRegionKind.Framebuffer => Mmio
  | MemoryRegionKind.KernelAndModules => Kernel
  | MemoryRegionKind.BootloaderReclaimable => BootloaderReclaimable
  | MemoryRegionKind.Reserved | MemoryRegionKind.BadMemory | MemoryRegionKind.Unknown _ =>
      Reserved
  end.
End PhysicalRegionKind.

Module PhysicalRegion.
Record t : Type := new { start : Z; length_ : Z; kind : PhysicalRegionKind.t }.
Definition end_ (r : t) : Z := sat_add 64 r.(start) r.(length_).
End PhysicalRegion.

Module FrameState.
Inductive t : Type := Invalid | Free | Allocated | Reserved | BootloaderReclaimable.
#[global] Instance eq_dec : EqDecision t.
Proof. solve_decision. Defined.
End FrameState.

Definition state_for_reserved_kind (kind : PhysicalRegionKind.t) : FrameState.t :=
  match kind with
  | PhysicalRegionKind.Usable => FrameState.Free
  | PhysicalRegionKind.BootloaderReclaimable => FrameState.BootloaderReclaimable
  | _ => FrameState.Reserved
  end.

Module PhysicalMemoryStats.
Record t : Type := mk {
  total_memory_map_bytes : Z; total_bytes : Z; total_usable_bytes : Z; usable_bytes : Z;
  reserved_bytes : Z; bootloader_reclaimable_bytes : Z; acpi_bytes : Z;
  mmio_framebuffer_bytes : Z; mmio_bytes : Z; kernel_module_bytes : Z; kernel_bytes : Z;
  module_bytes : Z; total_frame_count : nat; free_frame_count : nat; used_frame_count : nat;
  frame_count : nat; free_frames : nat; used_frames : nat; allocated_frames : nat;
  metadata_bytes : Z; metadata_physical_start : Z; metadata_physical_end : Z
}.
Definition zero : t := mk 0 0 0 0 0 0 0 0 0 0 0 0 0%nat 0%nat 0%nat 0%nat 0%nat 0%nat 0%nat 0 0 0.
End PhysicalMemoryStats.

(** one entry of the boot memory map *)
Module MemoryMapEntry.
Record t : Type := mk { base : Z; length_ : Z; kind : MemoryRegionKind.t }.
End MemoryMapEntry.

(** ** Boot information *)
Module VirtualRange.
Record t : Type := mk { start : Z; end_ : Z }.
Definition length_ (r : t) : Z := sat_sub r.(end_) r.(start).
End VirtualRange.

Module KernelLoadRange.
Record t : Type := mk { physical_start : Z; virtual_start : Z; length_ : Z }.
End KernelLoadRange.

Module BootModule.
Record t : Type := mk { base : Z; size : Z }.
End BootModule.

Module FramebufferInfo.
Record t : Type := mk { address : Z; height : Z; pitch : Z }.
End FramebufferInfo.

Module BootInfo.
Record t : Type := mk {
  memory_map : option (list (option MemoryMapEntry.t));
  framebuffer : option FramebufferInfo.t;
  rsdp : option Z;
  hhdm_offset : option Z;
  kernel_section : VirtualRange.t;
  load_range : option KernelLoadRange.t;
  modules : list (option BootModule.t)
}.
End BootInfo.

Module AddressTranslator.
Record t : Type := mk {
  hhdm_offset : option Z;
  kernel_physical_start : Z;
  kernel_virtual_start : Z;
  kernel_length : Z
}.

Definition identity : t := mk None 0 0 0.

Definition new (boot_info : BootInfo.t) : t :=
  let load := boot_info.(BootInfo.load_range) in
  mk boot_info.(BootInfo.hhdm_offset)
     (from_option KernelLoadRange.physical_start 0 load)
     (from_option KernelLoadRange.virtual_start 0 load)
     (from_option KernelLoadRange.length_ 0 load).

Definition physical_for_virtual (self : t) (virtual_address : Z) : Z :=
  if decide (self.(kernel_length) ≠ 0 ∧ self.(kernel_virtual_start) <= virtual_address ∧
             virtual_address < sat_add 64 self.(kernel_virtual_start) self.(kernel_length))
  then sat_add 64 self.(kernel_physical_start) (sat_sub virtual_address self.(kernel_virtual_start))
  else
    match self.(hhdm_offset) with
    | Some offset => if decide (offset <= virtual_address) then virtual_address - offset
                     else virtual_address
    | None => virtual_address
    end.

Definition virtual_for_physical (self : t) (physical_address : Z) : Z :=
  if decide (self.(kernel_length) ≠ 0 ∧ self.(kernel_physical_start) <= physical_address ∧
             physical_address < sat_add 64 self.(kernel_physical_start) self.(kernel_length))
  then sat_add 64 self.(kernel_virtual_start) (sat_sub physical_address self.(kernel_physical_start))
  else
    match self.(hhdm_offset) with
    | Some offset => sat_add 64 physical_address offset
    | None => physical_address
    end.
End AddressTranslator.


Module PhysicalFrameAllocator.
Record t : Type := mk {
  regions : list (option PhysicalRegion.t);
  metadata : option (list FrameState.t);
  frame_count : nat;
  metadata_bytes : Z;
  metadata_physical_start : Z;
  free_frames : nat;
  used_frames : nat;
  stats : PhysicalMemoryStats.t;
  initialized : bool
}.

Definition Op (A : Type) : Type := M t MemoryError.t A.

Definition new (MAX_REGIONS : nat) : t :=
  mk (replicate MAX_REGIONS None) None 0 0 0 0 0 PhysicalMemoryStats.zero false.

Definition reset (s : t) : t := new (length s.(regions)).

Definition set_regions (v : list (option PhysicalRegion.t)) (s : t) : t :=
  mk v s.(metadata) s.(frame_count) s.(metadata_bytes) s.(metadata_physical_start)
     s.(free_frames) s.(used_frames) s.(stats) s.(initialized).
Definition set_frames (v : option (list FrameState.t)) (free used : nat) (s : t) : t :=
  mk s.(regions) v s.(frame_count) s.(metadata_bytes) s.(metadata_physical_start)
     free used s.(stats) s.(initialized).
Definition set_stats (v : PhysicalMemoryStats.t) (s : t) : t :=
  mk s.(regions) s.(metadata) s.(frame_count) s.(metadata_bytes) s.(metadata_physical_start)
     s.(free_frames) s.(used_frames) v s.(initialized).
Definition set_layout (fc : nat) (mb start : Z) (s : t) : t :=
  mk s.(regions) s.(metadata) fc mb start s.(free_frames) s.(used_frames) s.(stats)
     s.(initialized).
Definition set_initialized (v : bool) (s : t) : t :=
  mk s.(regions) s.(metadata) s.(frame_count) s.(metadata_bytes) s.(metadata_physical_start)
     s.(free_frames) s.(used_frames) s.(stats) v.

(** ** Regions *)

(** the first loop of [add_region]: extend an adjacent region of the same kind *)
Fixpoint merge_region (region : PhysicalRegion.t) (l : list (option PhysicalRegion.t))
    : option (list (option PhysicalRegion.t)) :=
  match l with
  | [] => None
  | Some existing :: l' =>
      if decide (existing.(PhysicalRegion.kind) = region.(PhysicalRegion.kind) ∧
                 PhysicalRegion.end_ existing = region.(PhysicalRegion.start))
      then Some (Some (PhysicalRegion.new existing.(PhysicalRegion.start)
             (sat_add 64 existing.(PhysicalRegion.length_) region.(PhysicalRegion.length_))
             existing.(PhysicalRegion.kind)) :: l')
      else if decide (existing.(PhysicalRegion.kind) = region.(PhysicalRegion.kind) ∧
                      PhysicalRegion.end_ region = existing.(PhysicalRegion.start))
      then Some (Some (PhysicalRegion.new region.(PhysicalRegion.start)
             (sat_add 64 existing.(PhysicalRegion.length_) region.(PhysicalRegion.length_))
             existing.(PhysicalRegion.kind)) :: l')
      else cons (Some existing) <$> merge_region region l'
  | None :: l' => cons None <$> merge_region region l'
  end.

Definition add_to (region : PhysicalRegion.t) (l : list (option PhysicalRegion.t))
    : bool * list (option PhysicalRegion.t) :=
  if decide (region.(PhysicalRegion.length_) = 0) then (true, l)
  else
    match merge_region region l with
    | Some l' => (true, l')
    | None =>
        match free_slot l with
        | Some idx => (true, <[idx := Some region]> l)
        | None => (false, l)
        end
    end.

Definition add_region (region : PhysicalRegion.t) (s : t) : bool * t :=
  let '(b, l) := add_to region s.(regions) in (b, set_regions l s).

(** one step of the loop of [reserve_range] *)
Definition carve (reserve_start reserve_end : Z) (idx : nat)
    (l : list (option PhysicalRegion.t)) : list (option PhysicalRegion.t) :=
  match mjoin (l !! idx) with
  | Some region =>
      if ranges_overlap region.(PhysicalRegion.start) (PhysicalRegion.end_ region)
           reserve_start reserve_end
      then
        let l := <[idx := None]> l in
        let l := if decide (region.(PhysicalRegion.start) < reserve_start) then
                   (add_to (PhysicalRegion.new region.(PhysicalRegion.start)
                      (sat_sub reserve_start region.(PhysicalRegion.start))
                      region.(PhysicalRegion.kind)) l).2
                 else l in
        if decide (reserve_end < PhysicalRegion.end_ region) then
          (add_to (PhysicalRegion.new reserve_end
             (sat_sub (PhysicalRegion.end_ region) reserve_end)
             region.(PhysicalRegion.kind)) l).2
        else l
      else l
  | None => l
  end.

Definition carve_all (reserve_start reserve_end : Z) (l : list (option PhysicalRegion.t))
    : list (option PhysicalRegion.t) :=
  foldl (λ l idx, carve reserve_start reserve_end idx l) l (seq 0 (length l)).

Fixpoint live_bytes (kind : PhysicalRegionKind.t) (l : list (option PhysicalRegion.t))
    (total : Z) : Z :=
  match l with
  | [] => total
  | Some region :: l' =>
      live_bytes kind l'
        (if decide (region.(PhysicalRegion.kind) = kind)
         then sat_add 64 total region.(PhysicalRegion.length_) else total)
  | None :: l' => live_bytes kind l' total
  end.
Definition live_bytes_for (kind : PhysicalRegionKind.t) (s : t) : Z :=
  live_bytes kind s.(regions) 0.

(** ** Frames *)
(** the body of the loop of [mark_frame_range] at [index] *)
Definition mark_frame (state : FrameState.t) (index : nat) (s : t) : t :=
  match s.(metadata) with
  | None => s
  | Some m =>
      let old := default FrameState.Invalid (m !! index) in
      let free := if decide (old = FrameState.Free ∧ state ≠ FrameState.Free)
                  then (s.(free_frames) - 1)%nat else s.(free_frames) in
      let used := if decide (old = FrameState.Allocated ∧ state ≠ FrameState.Allocated)
                  then (s.(used_frames) - 1)%nat else s.(used_frames) in
      set_frames (Some (<[index := state]> m)) free used s
  end.

Definition mark_frame_range (start end_ : Z) (state : FrameState.t) (s : t) : t :=
  let index := frame_index (align_down_u64 start) in
  let end_index := frame_index (align_up_u64 end_) in
  foldl (λ s idx, mark_frame state idx s) s
    (seq index (Nat.min end_index s.(frame_count) - index)).

Definition count_state (st : FrameState.t) (m : list FrameState.t) : nat :=
  length (filter (λ x, x = st) m).

Definition refresh_stats (s : t) : t :=
  let frames := match s.(metadata) with Some m => take s.(frame_count) m | None => [] end in
  let free := count_state FrameState.Free frames in
  let used := count_state FrameState.Allocated frames in
  let st := s.(stats) in
  let kernel := live_bytes_for PhysicalRegionKind.Kernel s in
  let module := live_bytes_for PhysicalRegionKind.Module_ s in
  let mmio := live_bytes_for PhysicalRegionKind.Mmio s in
  set_stats
    (PhysicalMemoryStats.mk
       st.(PhysicalMemoryStats.total_memory_map_bytes) st.(PhysicalMemoryStats.total_bytes)
       st.(PhysicalMemoryStats.total_usable_bytes) st.(PhysicalMemoryStats.usable_bytes)
       (sat_add 64 (live_bytes_for PhysicalRegionKind.Reserved s)
          (live_bytes_for PhysicalRegionKind.AllocatorMetadata s))
       (live_bytes_for PhysicalRegionKind.BootloaderReclaimable s)
       (live_bytes_for PhysicalRegionKind.Acpi s)
       mmio mmio (sat_add 64 kernel module) kernel module
       s.(frame_count) free used s.(frame_count) free used used
       s.(metadata_bytes) s.(metadata_physical_start)
       (sat_add 64 s.(metadata_physical_start) s.(metadata_bytes)))
    (set_frames s.(metadata) free used s).

Definition region_state (kind : PhysicalRegionKind.t) : FrameState.t :=
  match kind with
  | PhysicalRegionKind.Usable => FrameState.Free
  | PhysicalRegionKind.BootloaderReclaimable => FrameState.BootloaderReclaimable
  | _ => FrameState.Reserved
  end.

Definition mark_region (entry : option PhysicalRegion.t) (s : t) : t :=
  match entry with
  | Some region =>
      mark_frame_range region.(PhysicalRegion.start) (PhysicalRegion.end_ region)
        (region_state region.(PhysicalRegion.kind)) s
  | None => s
  end.

Definition initialize_database (s : t) : t :=
  let s := set_frames
    ((λ m, replicate s.(frame_count) FrameState.Invalid ++ drop s.(frame_count) m) <$> s.(metadata))
    s.(free_frames) s.(used_frames) s in
  foldl (λ s entry, mark_region entry s) s s.(regions).

Definition allocate_frame : Op PhysFrame.t := λ s,
  match s.(initialized), s.(metadata) with
  | true, Some m =>
      match list_find (λ x, x = FrameState.Free) (take s.(frame_count) m) with
      | Some (index, _) =>
          (Ok (PhysFrame.mk (sat_mul 64 (Z.of_nat index) PAGE_SIZE)),
           refresh_stats
             (set_frames (Some (<[index := FrameState.Allocated]> m))
                (s.(free_frames) - 1) (s.(used_frames) + 1) s))
      | None => (Err MemoryError.OutOfMemory, s)
      end
  | _, _ => (Err MemoryError.NotInitialized, s)
  end.

Definition free_frame (frame : PhysFrame.t) : Op unit := λ s,
  match s.(initialized), s.(metadata) with
  | true, Some m =>
      if decide (Z.land frame.(PhysFrame.start) (PAGE_SIZE - 1) ≠ 0)
      then (Err MemoryError.UnalignedFrame, s)
      else
        let index := frame_index frame.(PhysFrame.start) in
        if decide (s.(frame_count) ≤ index)%nat then (Err MemoryError.InvalidFrame, s)
        else
          match default FrameState.Invalid (m !! index) with
          | FrameState.Allocated =>
              (Ok tt,
               refresh_stats
                 (set_frames (Some (<[index := FrameState.Free]> m))
                    (s.(free_frames) + 1) (s.(used_frames) - 1) s))
          | FrameState.Free => (Err MemoryError.DoubleFree, s)
          | FrameState.Invalid | FrameState.Reserved | FrameState.BootloaderReclaimable =>
              (Err MemoryError.InvalidFrame, s)
          end
  | _, _ => (Err MemoryError.NotInitialized, s)
  end.

Definition reserve_range (start length_ : Z) (kind : PhysicalRegionKind.t) (s : t) : t :=
  if decide (length_ = 0) then s
  else
    let reserve_start := align_down_u64 start in
    let reserve_end := align_up_u64 (sat_add 64 start length_) in
    let s := set_regions (carve_all reserve_start reserve_end s.(regions)) s in
    let s := (add_region (PhysicalRegion.new reserve_start
                (sat_sub reserve_end reserve_start) kind) s).2 in
    match s.(initialized), s.(metadata) with
    | true, Some _ =>
        refresh_stats (mark_frame_range reserve_start reserve_end (state_for_reserved_kind kind) s)
    | _, _ => s
    end.

(** ** Boot *)
Definition account_original_region (kind : PhysicalRegionKind.t) (length_ : Z) (s : t) : t :=
  let st := s.(stats) in
  let add (k : PhysicalRegionKind.t) (v : Z) : Z :=
    if decide (kind = k) then sat_add 64 v length_ else v in
  let total := sat_add 64 st.(PhysicalMemoryStats.total_memory_map_bytes) length_ in
  let usable := add PhysicalRegionKind.Usable st.(PhysicalMemoryStats.total_usable_bytes) in
  set_stats
    (PhysicalMemoryStats.mk total total usable
       (if decide (kind = PhysicalRegionKind.Usable) then usable
        else st.(PhysicalMemoryStats.usable_bytes))
       (if decide (kind = PhysicalRegionKind.Reserved ∨ kind = PhysicalRegionKind.AllocatorMetadata)
        then sat_add 64 st.(PhysicalMemoryStats.reserved_bytes) length_
        else st.(PhysicalMemoryStats.reserved_bytes))
       (add PhysicalRegionKind.BootloaderReclaimable
          st.(PhysicalMemoryStats.bootloader_reclaimable_bytes))
       (add PhysicalRegionKind.Acpi st.(PhysicalMemoryStats.acpi_bytes))
       st.(PhysicalMemoryStats.mmio_framebuffer_bytes)
       (add PhysicalRegionKind.Mmio st.(PhysicalMemoryStats.mmio_bytes))
       st.(PhysicalMemoryStats.kernel_module_bytes)
       (add PhysicalRegionKind.Kernel st.(PhysicalMemoryStats.kernel_bytes))
       (add PhysicalRegionKind.Module_ st.(PhysicalMemoryStats.module_bytes))
       st.(PhysicalMemoryStats.total_frame_count) st.(PhysicalMemoryStats.free_frame_count)
       st.(PhysicalMemoryStats.used_frame_count) st.(PhysicalMemoryStats.frame_count)
       st.(PhysicalMemoryStats.free_frames) st.(PhysicalMemoryStats.used_frames)
       st.(PhysicalMemoryStats.allocated_frames) st.(PhysicalMemoryStats.metadata_bytes)
       st.(PhysicalMemoryStats.metadata_physical_start)
       st.(PhysicalMemoryStats.metadata_physical_end)) s.

Fixpoint find_metadata (required : Z) (l : list (option PhysicalRegion.t)) : option Z :=
  match l with
  | [] => None
  | Some region :: l' =>
      let start := align_up_u64 region.(PhysicalRegion.start) in
      let end_ := align_down_u64 (PhysicalRegion.end_ region) in
      if decide (region.(PhysicalRegion.kind) = PhysicalRegionKind.Usable ∧
                 start < end_ ∧ required <= sat_sub end_ start)
      then Some start
      else find_metadata required l'
  | None :: l' => find_metadata required l'
  end.

Definition find_metadata_range (bytes : Z) (s : t) : option Z :=
  if decide (bytes = 0) then None else find_metadata (align_up_u64 bytes) s.(regions).

(** the body of the memory map loop: the state and [max_end] *)
Definition ingest_entry (p : t * Z) (entry : MemoryMapEntry.t) : t * Z :=
  let '(s, max_end) := p in
  let raw_start := entry.(MemoryMapEntry.base) in
  let raw_end := sat_add 64 entry.(MemoryMapEntry.base) entry.(MemoryMapEntry.length_) in
  let kind := PhysicalRegionKind.from_boot entry.(MemoryMapEntry.kind) in
  let s := account_original_region kind entry.(MemoryMapEntry.length_) s in
  let '(start, end_) :=
    if decide (kind = PhysicalRegionKind.Usable)
    then (align_up_u64 raw_start, align_down_u64 raw_end)
    else (align_down_u64 raw_start, align_up_u64 raw_end) in
  let s := if decide (start < end_)
           then (add_region (PhysicalRegion.new start (sat_sub end_ start) kind) s).2 else s in
  (s, Z.max max_end (align_up_u64 raw_end)).

(** the ranges the boot code owns, in the order they are reserved; [tables] is
    [paging::page_table_pool_range()], [stack_virtual] the address of a local *)
Definition boot_owned_ranges (boot_info : BootInfo.t) (translator : AddressTranslator.t)
    (tables : Z * Z) (stack_virtual : Z) : list (Z * Z * PhysicalRegionKind.t) :=
  let phys := AddressTranslator.physical_for_virtual translator in
  match boot_info.(BootInfo.load_range) with
  | Some load => [(load.(KernelLoadRange.physical_start), load.(KernelLoadRange.length_),
                   PhysicalRegionKind.Kernel)]
  | None => let kernel := boot_info.(BootInfo.kernel_section) in
            [(phys kernel.(VirtualRange.start), VirtualRange.length_ kernel,
              PhysicalRegionKind.Kernel)]
  end ++
  ((λ m, (phys m.(BootModule.base), m.(BootModule.size), PhysicalRegionKind.Module_))
     <$> omap id boot_info.(BootInfo.modules)) ++
  match boot_info.(BootInfo.framebuffer) with
  | Some fb => [(phys fb.(FramebufferInfo.address),
                 sat_mul 64 fb.(FramebufferInfo.pitch) fb.(FramebufferInfo.height),
                 PhysicalRegionKind.Mmio)]
  | None => []
  end ++
  match boot_info.(BootInfo.rsdp) with
  | Some rsdp => [(rsdp, PAGE_SIZE, PhysicalRegionKind.Acpi)]
  | None => []
  end ++
  [(phys tables.1, tables.2, PhysicalRegionKind.Kernel);
   (sat_sub (phys stack_virtual) (64 * 1024), 64 * 1024, PhysicalRegionKind.Kernel)].

Definition reserve_boot_owned_ranges (boot_info : BootInfo.t) (translator : AddressTranslator.t)
    (tables : Z * Z) (stack_virtual : Z) (s : t) : t :=
  foldl (λ s '(start, length_, kind), reserve_range start length_ kind s) s
    (boot_owned_ranges boot_info translator tables stack_virtual).

(** the entries the memory map loop visits *)
Definition map_entries (boot_info : BootInfo.t) : list MemoryMapEntry.t :=
  match boot_info.(BootInfo.memory_map) with Some map => omap id map | None => [] end.

Definition ingest_boot_info (boot_info : BootInfo.t) (tables : Z * Z) (stack_virtual : Z)
    (memory : Z → list FrameState.t) : Op unit := λ s,
  let translator := AddressTranslator.new boot_info in
  let '(s, max_end) := foldl ingest_entry (reset s, 0) (map_entries boot_info) in
  let s := reserve_boot_owned_ranges boot_info translator tables stack_virtual s in
  let frame_count := (frame_index max_end +
                      (if decide (max_end mod PAGE_SIZE ≠ 0)%Z then 1 else 0))%nat in
  let bytes := Z.of_nat frame_count in
  let s := set_layout frame_count bytes s.(metadata_physical_start) s in
  match find_metadata_range bytes s with
  | None => (Err MemoryError.MetadataUnavailable, s)
  | Some metadata_physical =>
      let s := reserve_range metadata_physical bytes PhysicalRegionKind.AllocatorMetadata s in
      let s := set_layout frame_count bytes metadata_physical s in
      let metadata := AddressTranslator.virtual_for_physical translator metadata_physical in
      if decide (metadata = 0) then
        (Err MemoryError.MetadataUnavailable, set_frames None s.(free_frames) s.(used_frames) s)
      else
        let s := set_frames (Some (memory metadata)) s.(free_frames) s.(used_frames) s in
        (Ok tt, refresh_stats (set_initialized true (initialize_database s)))
  end.
End PhysicalFrameAllocator.
