(* ===== verification/FrameSafety.v ===== *)
(** * What the frame allocator guarantees

    Frames are handed out at most once, freeing is the exact inverse of
    allocating, and after boot no free frame touches memory that the boot code
    or the allocator itself owns. *)

From stdpp Require Import prelude.
From S2P Require Import Prelude Slots FrameAllocator.
Import PhysicalFrameAllocator.

Local Open Scope Z_scope.

(** ** Alignment *)
Lemma align_down_eq v : align_down_u64 v = PAGE_SIZE * (v / PAGE_SIZE).
Proof.
  unfold align_down_u64, PAGE_SIZE. change (4096 - 1) with (Z.ones 12).
  rewrite Z.ldiff_ones_r by lia. rewrite Z.shiftl_mul_pow2, Z.shiftr_div_pow2 by lia.
  change (2 ^ 12) with 4096. lia.
Qed.

Lemma align_down_bounds v :
  align_down_u64 v <= v < align_down_u64 v + PAGE_SIZE ∧ align_down_u64 v mod PAGE_SIZE = 0.
Proof.
  rewrite align_down_eq. split; [|rewrite Z.mul_comm; apply Z.mod_mul; by unfold PAGE_SIZE].
  pose proof (Z.div_mod v PAGE_SIZE ltac:(by unfold PAGE_SIZE)).
  pose proof (Z.mod_pos_bound v PAGE_SIZE ltac:(by unfold PAGE_SIZE)). lia.
Qed.

Lemma align_up_eq v : v + (PAGE_SIZE - 1) <= umax 64 →
  align_up_u64 v = align_down_u64 (v + (PAGE_SIZE - 1)).
Proof. intros Hv. unfold align_up_u64. by rewrite sat_add_small. Qed.

Lemma align_up_bounds v : v + (PAGE_SIZE - 1) <= umax 64 →
  v <= align_up_u64 v <= v + (PAGE_SIZE - 1) ∧ align_up_u64 v mod PAGE_SIZE = 0.
Proof.
  intros Hv. rewrite align_up_eq by done.
  pose proof (align_down_bounds (v + (PAGE_SIZE - 1))). lia.
Qed.

Lemma align_down_aligned v : v mod PAGE_SIZE = 0 → align_down_u64 v = v.
Proof.
  intros Hv. rewrite align_down_eq.
  pose proof (Z.div_mod v PAGE_SIZE ltac:(by unfold PAGE_SIZE)). lia.
Qed.

Lemma align_up_aligned v : v + (PAGE_SIZE - 1) <= umax 64 → v mod PAGE_SIZE = 0 →
  align_up_u64 v = v.
Proof.
  intros Hb Hv. rewrite align_up_eq by done. rewrite align_down_eq.
  assert (v = v / PAGE_SIZE * PAGE_SIZE) as Hk.
  { pose proof (Z.div_mod v PAGE_SIZE ltac:(by unfold PAGE_SIZE)). lia. }
  rewrite Hk at 1. rewrite Z.div_add_l by (by unfold PAGE_SIZE).
  rewrite (Z.div_small (PAGE_SIZE - 1)) by (unfold PAGE_SIZE; lia). lia.
Qed.

(** ** Frames as states *)

(** the states of the frames the allocator manages *)
Definition frames (s : t) : list FrameState.t :=
  match s.(metadata) with Some m => take s.(frame_count) m | None => [] end.

Record ready (s : t) : Prop := {
  r_init : s.(initialized) = true;
  r_mem : ∃ m, s.(metadata) = Some m ∧ (s.(frame_count) ≤ length m)%nat;
  r_free : s.(free_frames) = count_state FrameState.Free (frames s);
  r_used : s.(used_frames) = count_state FrameState.Allocated (frames s);
  r_space : Z.of_nat s.(frame_count) * PAGE_SIZE <= umax 64
}.

Definition frame_at (i : nat) : PhysFrame.t := PhysFrame.mk (Z.of_nat i * PAGE_SIZE).

Lemma frames_length s : ready s → length (frames s) = s.(frame_count).
Proof.
  intros R. destruct (r_mem _ R) as (m & Hm & Hl). unfold frames. rewrite Hm, length_take. lia.
Qed.

(** Overwriting a managed frame and refreshing the counters. *)
Lemma refresh_ready s m i st free used :
  ready s → s.(metadata) = Some m → (i < s.(frame_count))%nat →
  let s' := refresh_stats (set_frames (Some (<[i:=st]> m)) free used s) in
  ready s' ∧ frames s' = <[i:=st]> (frames s) ∧ s'.(frame_count) = s.(frame_count) ∧
  s'.(regions) = s.(regions).
Proof.
  intros R Hm Hi s'. destruct (r_mem _ R) as (m' & Hm' & Hl). assert (m' = m) as -> by congruence.
  assert (frames s' = <[i:=st]> (frames s)) as Hf.
  { unfold frames. subst s'. cbn. rewrite Hm. by rewrite take_insert_lt. }
  split_and!; [|done|done|done]. destruct R.
  split; [done| |by subst s'|by subst s'|done].
  subst s'. cbn. eexists. split; [done|]. by rewrite length_insert.
Qed.

Lemma list_find_first {A} (P : A → Prop) `{!∀ x, Decision (P x)} l i x :
  list_find P l = Some (i, x) ↔
  l !! i = Some x ∧ P x ∧ ∀ j y, l !! j = Some y → (j < i)%nat → ¬ P y.
Proof. apply list_find_Some. Qed.

(** What [allocate_frame] does. *)
Lemma allocate_spec s :
  ready s →
  match allocate_frame s with
  | (Ok f, s') =>
      ∃ i, f = frame_at i ∧ frames s !! i = Some FrameState.Free ∧
        (∀ j, (j < i)%nat → frames s !! j ≠ Some FrameState.Free) ∧
        ready s' ∧ frames s' = <[i:=FrameState.Allocated]> (frames s) ∧
        s'.(frame_count) = s.(frame_count)
  | (Err e, s') =>
      e = MemoryError.OutOfMemory ∧ s' = s ∧ FrameState.Free ∉ frames s
  end.
Proof.
  intros R. destruct (r_mem _ R) as (m & Hm & Hl). unfold allocate_frame.
  rewrite (r_init _ R), Hm. replace (take s.(frame_count) m) with (frames s)
    by (unfold frames; by rewrite Hm).
  destruct (list_find _ (frames s)) as [[i x]|] eqn:Hf.
  - apply list_find_first in Hf as (Hi & -> & Hlow).
    assert (i < s.(frame_count))%nat as Hlt.
    { rewrite <-(frames_length _ R). by eapply lookup_lt_Some. }
    destruct (refresh_ready s m i FrameState.Allocated (s.(free_frames) - 1)
      (s.(used_frames) + 1) R Hm Hlt) as (R' & Hfr & Hfc & _).
    exists i. split_and!; [|done| |done|done|done].
    + unfold frame_at. f_equal. unfold sat_mul. pose proof (r_space _ R).
      apply Z.min_l. unfold PAGE_SIZE in *. nia.
    + intros j Hj Hfree. by eapply Hlow.
  - split_and!; [done|done|]. apply list_find_None in Hf. intros Hin.
    rewrite Forall_forall in Hf. by apply (Hf _ Hin).
Qed.

Lemma frame_index_at i : frame_index (Z.of_nat i * PAGE_SIZE) = i.
Proof. unfold frame_index. rewrite Z.div_mul by (by unfold PAGE_SIZE). lia. Qed.

Lemma land_page v : 0 <= v → Z.land v (PAGE_SIZE - 1) = v mod PAGE_SIZE.
Proof.
  intros Hv. unfold PAGE_SIZE. change (4096 - 1) with (Z.ones 12).
  rewrite Z.land_ones by lia. done.
Qed.

Lemma free_spec s a :
  ready s → 0 <= a <= umax 64 →
  match free_frame (PhysFrame.mk a) s with
  | (Ok _, s') =>
      ∃ i, a = Z.of_nat i * PAGE_SIZE ∧ frames s !! i = Some FrameState.Allocated ∧
        ready s' ∧ frames s' = <[i:=FrameState.Free]> (frames s)
  | (Err e, s') =>
      s' = s ∧
      (e = MemoryError.UnalignedFrame ∧ a mod PAGE_SIZE ≠ 0 ∨
       ∃ i, a = Z.of_nat i * PAGE_SIZE ∧
         (e = MemoryError.DoubleFree ∧ frames s !! i = Some FrameState.Free ∨
          e = MemoryError.InvalidFrame ∧ frames s !! i ≠ Some FrameState.Free ∧
          frames s !! i ≠ Some FrameState.Allocated))
  end.
Proof.
  intros R Ha. destruct (r_mem _ R) as (m & Hm & Hl). unfold free_frame.
  rewrite (r_init _ R), Hm. cbn [PhysFrame.start]. rewrite land_page by lia.
  case_decide as Hal; [split; [done|by left]|].
  assert (a = Z.of_nat (frame_index a) * PAGE_SIZE) as Hai.
  { unfold frame_index. rewrite Z2Nat.id by (apply Z.div_pos; unfold PAGE_SIZE; lia).
    pose proof (Z.div_mod a PAGE_SIZE ltac:(by unfold PAGE_SIZE)). lia. }
  set (i := frame_index a) in *. case_decide as Hi.
  { split; [done|]. right. exists i. split; [done|]. right.
    rewrite lookup_ge_None_2 by (rewrite frames_length; done). done. }
  assert (frames s !! i = m !! i) as Hfi.
  { unfold frames. rewrite Hm. apply lookup_take_lt. lia. }
  destruct (m !! i) as [st|] eqn:Hst; [|apply lookup_ge_None in Hst; lia]. cbn [default].
  destruct st; cbn; try (split; [done|]; right; exists i; rewrite Hfi; split; [done|];
    first [left; done | right; done]).
  destruct (refresh_ready s m i FrameState.Free (s.(free_frames) + 1) (s.(used_frames) - 1)
    R Hm ltac:(lia)) as (R' & Hfr & _). exists i. rewrite Hfi. done.
Qed.

(** [free_frame] on a ready allocator, on every branch: an unaligned address,
    an address past the managed frames, a frame that is already free and a frame
    the allocator does not own are each rejected with their own error and change
    nothing; freeing an allocated frame makes exactly that frame free and keeps
    the counters exact. *)
Theorem free_frame_outcome s a :
  ready s → 0 <= a <= umax 64 →
  match free_frame (PhysFrame.mk a) s with
  | (Ok _, s') =>
      ∃ i, a = Z.of_nat i * PAGE_SIZE ∧ frames s !! i = Some FrameState.Allocated ∧
        ready s' ∧ frames s' = <[i:=FrameState.Free]> (frames s)
  | (Err e, s') =>
      s' = s ∧
      (e = MemoryError.UnalignedFrame ∧ a mod PAGE_SIZE ≠ 0 ∨
       ∃ i, a = Z.of_nat i * PAGE_SIZE ∧
         (e = MemoryError.DoubleFree ∧ frames s !! i = Some FrameState.Free ∨
          e = MemoryError.InvalidFrame ∧ frames s !! i ≠ Some FrameState.Free ∧
          frames s !! i ≠ Some FrameState.Allocated))
  end.
Proof. apply free_spec. Qed.

(** ** No double allocation *)
Inductive op : Type := Allocate | Free (f : PhysFrame.t).

(** [owned] is what the callers hold: allocated and not yet freed *)
Definition step (p : t * list PhysFrame.t) (o : op) : t * list PhysFrame.t :=
  let '(s, owned) := p in
  match o with
  | Allocate => match allocate_frame s with
                | (Ok f, s') => (s', f :: owned)
                | (Err _, s') => (s', owned)
                end
  | Free f => match free_frame f s with
              | (Ok _, s') => (s', filter (λ g, g.(PhysFrame.start) ≠ f.(PhysFrame.start)) owned)
              | (Err _, s') => (s', owned)
              end
  end.

Definition tracks (s : t) (owned : list PhysFrame.t) : Prop :=
  ready s ∧ NoDup (PhysFrame.start <$> owned) ∧
  ∀ f, f ∈ owned ↔ ∃ i, f = frame_at i ∧ frames s !! i = Some FrameState.Allocated.

Lemma frame_at_inj i j : frame_at i = frame_at j → i = j.
Proof. intros [= H]. unfold PAGE_SIZE in H. lia. Qed.

Lemma allocate_tracks s owned :
  tracks s owned →
  match allocate_frame s with
  | (Ok f, s') => (f ∉ owned) ∧ tracks s' (f :: owned)
  | (Err _, s') => s' = s
  end.
Proof.
  intros (R & Hnd & Ho). pose proof (allocate_spec s R) as H.
  destruct (allocate_frame s) as [[f|e] s']; [|by destruct H as (_ & -> & _)].
  destruct H as (i & -> & Hi & _ & R' & Hf & _).
  assert (frame_at i ∉ owned) as Hnew.
  { rewrite Ho. intros (j & ->%frame_at_inj & Hj). congruence. }
  split; [done|]. split_and!; [done| |].
  - cbn. constructor; [|done]. rewrite list_elem_of_fmap. intros (g & Hg & Hin).
    apply Hnew. destruct g; cbn in Hg. unfold frame_at. by rewrite Hg.
  - intros f. rewrite elem_of_cons, Ho, Hf. split.
    + intros [->|(j & -> & Hj)]; [exists i|exists j].
      * split; [done|]. apply list_lookup_insert_eq. by eapply lookup_lt_Some.
      * split; [done|]. rewrite list_lookup_insert_ne; [done|]. congruence.
    + intros (j & -> & Hj). destruct (decide (i = j)) as [->|]; [by left|].
      right. exists j. by rewrite list_lookup_insert_ne in Hj.
Qed.

Lemma elem_of_keep (f g : PhysFrame.t) (owned : list PhysFrame.t) :
  g ∈ filter (λ h, h.(PhysFrame.start) ≠ f.(PhysFrame.start)) owned ↔ g ≠ f ∧ g ∈ owned.
Proof.
  rewrite list_elem_of_filter. destruct f, g; cbn. split; intros [Hne ?]; (split; [|done]).
  - congruence.
  - intros ->. done.
Qed.

Lemma free_tracks a s owned :
  tracks s owned → 0 <= a <= umax 64 →
  match free_frame (PhysFrame.mk a) s with
  | (Ok _, s') =>
      PhysFrame.mk a ∈ owned ∧ tracks s' (filter (λ g, g.(PhysFrame.start) ≠ a) owned)
  | (Err _, s') => s' = s
  end.
Proof.
  intros (R & Hnd & Ho) Ha. pose proof (free_spec s a R Ha) as H.
  destruct (free_frame _ s) as [[[]|e] s']; [|by destruct H as [-> _]].
  destruct H as (i & -> & Hi & R' & Hf). change (PhysFrame.mk _) with (frame_at i).
  split; [apply Ho; eauto|]. split_and!; [done| |].
  - eapply sublist_NoDup; [exact Hnd|]. apply fmap_sublist, sublist_filter.
  - intros g. rewrite (elem_of_keep (frame_at i)), Ho, Hf. split.
    + intros (Hne & j & -> & Hj). exists j. split; [done|].
      rewrite list_lookup_insert_ne; [done|]. congruence.
    + intros (j & -> & Hj). destruct (decide (i = j)) as [->|Hne].
      { rewrite list_lookup_insert_eq in Hj; [done|]. by eapply lookup_lt_Some. }
      rewrite list_lookup_insert_ne in Hj by done. split; [|eauto].
      intros ?%frame_at_inj. congruence.
Qed.

Definition op_ok (o : op) : Prop :=
  match o with Allocate => True | Free f => 0 <= f.(PhysFrame.start) <= umax 64 end.

Lemma step_tracks s owned o :
  tracks s owned → op_ok o → tracks (step (s, owned) o).1 (step (s, owned) o).2.
Proof.
  intros Ht Ho. destruct o as [|[a]]; cbn in *.
  - pose proof (allocate_tracks s owned Ht) as H.
    destruct (allocate_frame s) as [[f|e] s']; [apply H|by subst].
  - pose proof (free_tracks a s owned Ht Ho) as H.
    destruct (free_frame _ s) as [[u|e] s']; [apply H|by subst].
Qed.

Lemma run_tracks ops s owned :
  tracks s owned → Forall op_ok ops →
  tracks (foldl step (s, owned) ops).1 (foldl step (s, owned) ops).2.
Proof.
  intros Ht Hops. revert s owned Ht. induction Hops as [|o ops Ho Hops IH]; intros s owned Ht; [done|].
  cbn [foldl]. pose proof (step_tracks s owned o Ht Ho) as H.
  destruct (step (s, owned) o) as [s1 owned1]. by apply IH.
Qed.

(** C12: no frame is ever handed out twice.  Start from a ready allocator with no
    frame allocated and run any sequence of allocations and frees (of any
    addresses): the frames the callers hold are pairwise distinct, are exactly
    the frames marked allocated, and the next allocation returns a frame nobody
    holds, or fails only when no frame is free. *)
Theorem no_double_allocation s (ops : list op) :
  ready s → FrameState.Allocated ∉ frames s → Forall op_ok ops →
  let '(s', owned) := foldl step (s, []) ops in
  NoDup (PhysFrame.start <$> owned) ∧
  (∀ f, f ∈ owned ↔ ∃ i, f = frame_at i ∧ frames s' !! i = Some FrameState.Allocated) ∧
  match allocate_frame s' with
  | (Ok f, _) => f ∉ owned
  | (Err e, _) => e = MemoryError.OutOfMemory ∧ FrameState.Free ∉ frames s'
  end.
Proof.
  intros R Hnone Hops. assert (tracks s []) as Ht.
  { split_and!; [done|constructor|]. intros f. split; [by intros ?%elem_of_nil|].
    intros (i & _ & Hi). destruct Hnone. by eapply list_elem_of_lookup_2. }
  pose proof (run_tracks ops s [] Ht Hops) as Htr.
  destruct (foldl step (s, []) ops) as [s' owned]; cbn [fst snd] in Htr.
  destruct Htr as (R' & Hnd & Ho). split_and!; [done|done|].
  pose proof (allocate_tracks s' owned (conj R' (conj Hnd Ho))) as Ha.
  pose proof (allocate_spec s' R') as Hs.
  destruct (allocate_frame s') as [[f|e] s'']; [apply Ha|]. destruct Hs as (? & _ & ?). done.
Qed.

(** Allocating and freeing is a round trip: freeing the frame just allocated
    succeeds and restores every frame's state and both counters, and freeing it a
    second time is reported as a double free. *)
Theorem allocate_free_roundtrip s f s1 :
  ready s → allocate_frame s = (Ok f, s1) →
  ∃ s2, free_frame f s1 = (Ok tt, s2) ∧ frames s2 = frames s ∧
    s2.(free_frames) = s.(free_frames) ∧ s2.(used_frames) = s.(used_frames) ∧
    free_frame f s2 = (Err MemoryError.DoubleFree, s2).
Proof.
  intros R Hal. pose proof (allocate_spec s R) as H. rewrite Hal in H.
  destruct H as (i & -> & Hi & _ & R1 & Hf1 & Hfc).
  assert (i < length (frames s))%nat as Hlt by (by eapply lookup_lt_Some).
  assert (0 <= Z.of_nat i * PAGE_SIZE <= umax 64) as Ha.
  { pose proof (r_space _ R). rewrite frames_length in Hlt by done. unfold PAGE_SIZE in *. nia. }
  pose proof (free_spec s1 _ R1 Ha) as H. change (PhysFrame.mk _) with (frame_at i) in H.
  assert (frames s1 !! i = Some FrameState.Allocated) as Hi1
    by (rewrite Hf1; by apply list_lookup_insert_eq).
  assert (∀ j, Z.of_nat i * PAGE_SIZE = Z.of_nat j * PAGE_SIZE → j = i) as Hinj
    by (unfold PAGE_SIZE; intros; lia).
  destruct (free_frame (frame_at i) s1) as [[[]|e] s2] eqn:Hfree.
  2:{ destruct H as [_ [[_ Hm]|(j & ->%Hinj & [[_ ?]|(_ & _ & ?)])]]; try congruence.
      by rewrite Z.mod_mul in Hm by (by unfold PAGE_SIZE). }
  destruct H as (j & ->%Hinj & _ & R2 & Hf2).
  assert (frames s2 = frames s) as Hs2.
  { rewrite Hf2, Hf1, list_insert_insert_eq. by apply list_insert_id. }
  exists s2. split_and!; [done|done| | |].
  - by rewrite (r_free _ R2), (r_free _ R), Hs2.
  - by rewrite (r_used _ R2), (r_used _ R), Hs2.
  - pose proof (free_spec s2 _ R2 Ha) as H. change (PhysFrame.mk _) with (frame_at i) in H.
    destruct (free_frame (frame_at i) s2) as [[[]|e] s3].
    + destruct H as (j & ->%Hinj & Hj & _). congruence.
    + destruct H as [-> [[_ Hm]|(j & ->%Hinj & [[-> _]|(_ & Hj & _)])]]; [| done|congruence].
      by rewrite Z.mod_mul in Hm by (by unfold PAGE_SIZE).
Qed.

(** ** Regions *)

(** the last page boundary of the address space *)
Definition LIMIT : Z := umax 64 - (PAGE_SIZE - 1).

Record region_ok (r : PhysicalRegion.t) : Prop := {
  ro_start : 0 <= r.(PhysicalRegion.start) ∧ r.(PhysicalRegion.start) mod PAGE_SIZE = 0;
  ro_length : 0 < r.(PhysicalRegion.length_) ∧ r.(PhysicalRegion.length_) mod PAGE_SIZE = 0;
  ro_end : r.(PhysicalRegion.start) + r.(PhysicalRegion.length_) <= LIMIT
}.

Definition regions_ok (l : list (option PhysicalRegion.t)) : Prop :=
  ∀ j r, l !! j = Some (Some r) → region_ok r.

(** region [r] contains address [a] *)
Definition contains (r : PhysicalRegion.t) (a : Z) : Prop :=
  r.(PhysicalRegion.start) <= a < r.(PhysicalRegion.start) + r.(PhysicalRegion.length_).

(** slot [j] holds a region of kind [k] that contains [a] *)
Definition inside (l : list (option PhysicalRegion.t)) (j : nat) (k : PhysicalRegionKind.t)
    (a : Z) : Prop :=
  ∃ r, l !! j = Some (Some r) ∧ r.(PhysicalRegion.kind) = k ∧ contains r a.

Lemma limit_lt : LIMIT <= umax 64.
Proof. unfold LIMIT, PAGE_SIZE. lia. Qed.

Lemma region_end r : region_ok r →
  PhysicalRegion.end_ r = r.(PhysicalRegion.start) + r.(PhysicalRegion.length_).
Proof. intros []. apply sat_add_small. pose proof limit_lt. lia. Qed.

Lemma mod_add_aligned a b : a mod PAGE_SIZE = 0 → b mod PAGE_SIZE = 0 → (a + b) mod PAGE_SIZE = 0.
Proof. intros Ha Hb. by rewrite Z.add_mod, Ha, Hb by (by unfold PAGE_SIZE). Qed.

Lemma mod_sub_aligned a b : a mod PAGE_SIZE = 0 → b mod PAGE_SIZE = 0 → (a - b) mod PAGE_SIZE = 0.
Proof. intros Ha Hb. by rewrite Zminus_mod, Ha, Hb. Qed.

(** Merging extends one slot by exactly the new region. *)
Lemma merge_spec region l l' :
  regions_ok l → region_ok region → merge_region region l = Some l' →
  ∃ i ex r, l !! i = Some (Some ex) ∧ l' = <[i:=Some r]> l ∧ region_ok r ∧
    r.(PhysicalRegion.kind) = region.(PhysicalRegion.kind) ∧
    ex.(PhysicalRegion.kind) = region.(PhysicalRegion.kind) ∧
    (∀ a, contains r a ↔ contains ex a ∨ contains region a).
Proof.
  intros Hok Hr. revert l'. induction l as [|[ex|] l IH]; intros l'; cbn; [done| |].
  - assert (region_ok ex) as He by (by apply (Hok 0%nat)).
    rewrite !region_end by done. pose proof He as [[? ?] [? ?] ?]. pose proof Hr as [[? ?] [? ?] ?].
    pose proof limit_lt.
    case_decide as Ha1; [|case_decide as Ha2].
    + destruct Ha1 as [Hk Ha1]. intros [= <-]. exists 0%nat, ex. eexists. cbn.
      rewrite sat_add_small by lia.
      split_and!; [done|done| |done|done|].
      * split; cbn; [done| |lia]. split; [lia|by apply mod_add_aligned].
      * intros a. unfold contains; cbn. lia.
    + destruct Ha2 as [Hk Ha2]. intros [= <-]. exists 0%nat, ex. eexists. cbn.
      rewrite sat_add_small by lia.
      split_and!; [done|done| |done|done|].
      * split; cbn; [done| |lia]. split; [lia|by apply mod_add_aligned].
      * intros a. unfold contains; cbn. lia.
    + intros (l1 & Hl1 & ->)%fmap_Some.
      destruct (IH (λ j r, Hok (S j) r) l1 Hl1) as (i & ex' & r & Hi & -> & Hrest).
      exists (S i), ex', r. done.
  - intros (l1 & Hl1 & ->)%fmap_Some.
    destruct (IH (λ j r, Hok (S j) r) l1 Hl1) as (i & ex' & r & Hi & -> & Hrest).
    exists (S i), ex', r. done.
Qed.

(** [add_to] adds no address but the new region's. *)
Lemma add_to_spec region l :
  regions_ok l → region_ok region →
  let l' := (add_to region l).2 in
  regions_ok l' ∧ length l' = length l ∧
  (∀ j k a, inside l' j k a →
     inside l j k a ∨ (k = region.(PhysicalRegion.kind) ∧ contains region a)).
Proof.
  intros Hok Hr. unfold add_to. destruct Hr as [? [? ?] ?] eqn:HE. rewrite decide_False by lia.
  destruct (merge_region region l) as [l1|] eqn:Hm; cbn.
  - destruct (merge_spec region l l1 Hok Hr Hm) as (i & ex & r & Hi & -> & Hrok & Hk & Hk' & Hc).
    rewrite length_insert. split_and!; [|done|].
    + intros j x. destruct (decide (i = j)) as [->|Hne].
      * rewrite list_lookup_insert_eq by (by eapply lookup_lt_Some). by intros [= <-].
      * rewrite list_lookup_insert_ne by done. apply Hok.
    + intros j k a (x & Hx & Hxk & Hxa). destruct (decide (i = j)) as [->|Hne].
      * rewrite list_lookup_insert_eq in Hx by (by eapply lookup_lt_Some). injection Hx as <-.
        apply Hc in Hxa as [Hxa|Hxa]; [left|right; split; congruence || done].
        exists ex. split_and!; [done|congruence|done].
      * rewrite list_lookup_insert_ne in Hx by done. left. by exists x.
  - destruct (free_slot l) as [i|] eqn:Hi; cbn; [|split_and!; eauto].
    apply free_slot_Some in Hi. rewrite length_insert. split_and!; [|done|].
    + intros j x. destruct (decide (i = j)) as [->|Hne].
      * rewrite list_lookup_insert_eq by (by eapply lookup_lt_Some). by intros [= <-].
      * rewrite list_lookup_insert_ne by done. apply Hok.
    + intros j k a (x & Hx & Hxk & Hxa). destruct (decide (i = j)) as [->|Hne].
      * rewrite list_lookup_insert_eq in Hx by (by eapply lookup_lt_Some). injection Hx as <-.
        right. done.
      * rewrite list_lookup_insert_ne in Hx by done. left. by exists x.
Qed.

Section carve.
  Context (rs re : Z) (Hrs : 0 <= rs ∧ rs mod PAGE_SIZE = 0) (Hre : re mod PAGE_SIZE = 0).

(** a piece cut from region [r], outside the reserved range *)
Lemma piece_add r l st ln :
  regions_ok l → region_ok r → r.(PhysicalRegion.start) <= st → 0 < ln →
  st mod PAGE_SIZE = 0 → ln mod PAGE_SIZE = 0 →
  st + ln <= r.(PhysicalRegion.start) + r.(PhysicalRegion.length_) →
  (st + ln <= rs ∨ re <= st) →
  let l' := (add_to (PhysicalRegion.new st ln r.(PhysicalRegion.kind)) l).2 in
  regions_ok l' ∧ length l' = length l ∧
  (∀ j k a, rs <= a < re → inside l' j k a → inside l j k a) ∧
  (∀ j k a, inside l' j k a → inside l j k a ∨ (k = r.(PhysicalRegion.kind) ∧ contains r a)).
Proof.
  intros Hok [[? ?] [? ?] ?] Hst Hln Hsa Hla Hend Hout l'.
  destruct (add_to_spec (PhysicalRegion.new st ln r.(PhysicalRegion.kind)) l Hok)
    as (Hok' & Hlen & Hin).
  { split; cbn; [split; [lia|done]|done|lia]. }
  split_and!; [done|done| |].
  - intros j k a Ha [?|[_ Hc]]%Hin; [done|]. unfold contains in Hc; cbn in Hc. lia.
  - intros j k a [?|[-> Hc]]%Hin; [by left|right]. split; [done|].
    unfold contains in *; cbn in Hc. lia.
Qed.

Lemma carve_spec idx l :
  regions_ok l →
  let l' := carve rs re idx l in
  regions_ok l' ∧ length l' = length l ∧
  (∀ j k a, rs <= a < re → inside l' j k a → inside l j k a ∧ j ≠ idx) ∧
  (∀ j k a, inside l' j k a → ∃ j', inside l j' k a).
Proof.
  intros Hok. unfold carve. destruct (l !! idx) as [[r|]|] eqn:Hr; cbn [mjoin option_join].
  2,3: split_and!; [done|done| |eauto];
    intros j k a _ Hin; (split; [done|]); intros ->; destruct Hin as (x & Hx & _); congruence.
  assert (region_ok r) as Hrok by (by eapply Hok). rewrite region_end by done.
  destruct (ranges_overlap _ _ rs re) eqn:Hov.
  2:{ split_and!; [done|done| |eauto]. intros j k a Ha Hin. split; [done|]. intros ->.
      destruct Hin as (x & Hx & _ & Hxa). rewrite Hr in Hx. injection Hx as <-.
      unfold ranges_overlap in Hov. unfold contains in Hxa.
      apply andb_false_iff in Hov as [Hov|Hov]; apply bool_decide_eq_false in Hov; lia. }
  set (l0 := <[idx:=None]> l).
  assert (regions_ok l0) as Hok0.
  { intros j x. subst l0. destruct (decide (idx = j)) as [->|Hne].
    - rewrite list_lookup_insert_eq by (by eapply lookup_lt_Some). done.
    - rewrite list_lookup_insert_ne by done. apply Hok. }
  assert (∀ j k a, inside l0 j k a → inside l j k a ∧ j ≠ idx) as Hin0.
  { intros j k a (x & Hx & Hrest). subst l0. destruct (decide (idx = j)) as [->|Hne].
    - rewrite list_lookup_insert_eq in Hx by (by eapply lookup_lt_Some). done.
    - rewrite list_lookup_insert_ne in Hx by done. split; [by exists x|congruence]. }
  assert (∀ k a, k = r.(PhysicalRegion.kind) ∧ contains r a → ∃ j', inside l j' k a) as Hself.
  { intros k a [-> ?]. exists idx, r. done. }
  pose proof Hrok as [[? ?] [? ?] ?].
  set (l1 := if decide (r.(PhysicalRegion.start) < rs) then _ else l0).
  assert (regions_ok l1 ∧ length l1 = length l0 ∧
    (∀ j k a, rs <= a < re → inside l1 j k a → inside l0 j k a) ∧
    (∀ j k a, inside l1 j k a → inside l0 j k a ∨ (k = r.(PhysicalRegion.kind) ∧ contains r a)))
    as (Hok1 & Hlen1 & Hin1 & Hcov1).
  { subst l1. case_decide; [|split_and!; eauto].
    unfold ranges_overlap in Hov. apply andb_true_iff in Hov as [Ho1 Ho2].
    apply bool_decide_eq_true in Ho1, Ho2.
    unfold sat_sub. rewrite Z.max_l by lia. apply (piece_add r); try done; try lia.
    by apply mod_sub_aligned; [apply Hrs|]. }
  set (l2 := if decide (re < _) then _ else l1).
  assert (regions_ok l2 ∧ length l2 = length l1 ∧
    (∀ j k a, rs <= a < re → inside l2 j k a → inside l1 j k a) ∧
    (∀ j k a, inside l2 j k a → inside l1 j k a ∨ (k = r.(PhysicalRegion.kind) ∧ contains r a)))
    as (Hok2 & Hlen2 & Hin2 & Hcov2).
  { subst l2. case_decide; [|split_and!; eauto].
    unfold ranges_overlap in Hov. apply andb_true_iff in Hov as [Ho1 Ho2].
    apply bool_decide_eq_true in Ho1, Ho2.
    unfold sat_sub. rewrite Z.max_l by lia. apply (piece_add r); try done; try lia.
    apply mod_sub_aligned; [by apply mod_add_aligned|done]. }
  split_and!; [done| |auto|].
  - rewrite Hlen2, Hlen1. apply length_insert.
  - intros j k a [[[? _]%Hin0|Hc]%Hcov1|Hc]%Hcov2; eauto.
Qed.

Lemma carve_fold idxs l :
  regions_ok l →
  let l' := foldl (λ l idx, carve rs re idx l) l idxs in
  regions_ok l' ∧ length l' = length l ∧
  (∀ j k a, rs <= a < re → inside l' j k a → inside l j k a ∧ j ∉ idxs) ∧
  (∀ j k a, inside l' j k a → ∃ j', inside l j' k a).
Proof.
  revert l. induction idxs as [|i idxs IH]; intros l Hok; cbn.
  { split_and!; [done|done| |eauto]. intros j k a _ ?. split; [done|]. apply not_elem_of_nil. }
  destruct (carve_spec i l Hok) as (Hok1 & Hlen1 & Hin1 & Hcov1).
  destruct (IH _ Hok1) as (Hok2 & Hlen2 & Hin2 & Hcov2). split_and!; [done|by rewrite Hlen2| |].
  - intros j k a Ha [Hj Hni]%Hin2; [|done]. apply Hin1 in Hj as [Hj Hne]; [|done].
    split; [done|]. by apply not_elem_of_cons.
  - intros j k a [j1 [j2 ?]%Hcov1]%Hcov2. eauto.
Qed.

Lemma carve_all_spec l :
  regions_ok l →
  let l' := carve_all rs re l in
  regions_ok l' ∧ length l' = length l ∧
  (∀ j k a, rs <= a < re → ¬ inside l' j k a) ∧
  (∀ j k a, inside l' j k a → ∃ j', inside l j' k a).
Proof.
  intros Hok l'. destruct (carve_fold (seq 0 (length l)) l Hok) as (Hok' & Hlen & Hin & Hcov).
  split_and!; [done|done| |done]. intros j k a Ha Hj.
  assert (j < length l)%nat as Hlt'.
  { destruct Hj as (x & Hx & _). rewrite <-Hlen. by eapply lookup_lt_Some. }
  apply Hin in Hj as [_ Hj]; [|done]. apply Hj, elem_of_seq. lia.
Qed.
End carve.

(** ** Reservations *)
Definition range_fits (start len : Z) : Prop := 0 <= start ∧ 0 <= len ∧ start + len <= LIMIT.

(** [a] lies in a usable region *)
Definition usable (l : list (option PhysicalRegion.t)) (a : Z) : Prop :=
  ∃ j, inside l j PhysicalRegionKind.Usable a.

Lemma reserve_bounds start len : range_fits start len → len ≠ 0 →
  let rs := align_down_u64 start in
  let re := align_up_u64 (sat_add 64 start len) in
  (0 <= rs ∧ rs mod PAGE_SIZE = 0) ∧ re mod PAGE_SIZE = 0 ∧ rs < re ∧ re <= LIMIT ∧
  rs <= start ∧ start + len <= re.
Proof.
  intros (H1 & H2 & H3) Hne rs re. subst rs re. pose proof limit_lt.
  rewrite (sat_add_small 64 start len) by lia.
  pose proof (align_down_bounds start) as [? ?].
  destruct (align_up_bounds (start + len)) as [? Hup]; [unfold LIMIT in *; lia|].
  assert (align_up_u64 (start + len) <= LIMIT) as Hle.
  { (* both sides are page boundaries *)
    assert (LIMIT mod PAGE_SIZE = 0) as Hl by (by vm_compute).
    pose proof (Z.div_mod LIMIT PAGE_SIZE ltac:(by unfold PAGE_SIZE)) as Hd1.
    pose proof (Z.div_mod (align_up_u64 (start + len)) PAGE_SIZE ltac:(by unfold PAGE_SIZE)) as Hd2.
    rewrite Hl in Hd1. rewrite Hup in Hd2. unfold PAGE_SIZE in *. lia. }
  assert (0 <= align_down_u64 start).
  { rewrite align_down_eq. apply Z.mul_nonneg_nonneg; [by unfold PAGE_SIZE|].
    apply Z.div_pos; [done|by unfold PAGE_SIZE]. }
  split_and!; try done; lia.
Qed.

Lemma reserve_range_regions start len kind s :
  regions_ok s.(regions) → range_fits start len → kind ≠ PhysicalRegionKind.Usable →
  let s' := reserve_range start len kind s in
  regions_ok s'.(regions) ∧ s'.(initialized) = s.(initialized) ∧
  (∀ a, usable s'.(regions) a → usable s.(regions) a ∧ ¬ (start <= a < start + len)).
Proof.
  intros Hok Hfit Hk s'. subst s'. unfold reserve_range. case_decide as Hne.
  { split_and!; [done|done|]. intros a Ha. split; [done|]. lia. }
  destruct (reserve_bounds start len Hfit Hne) as (Hrs & Hre & Hlt & Hlim & Hlo & Hhi).
  set (rs := align_down_u64 start) in *. set (re := align_up_u64 (sat_add 64 start len)) in *.
  destruct (carve_all_spec rs re Hrs Hre s.(regions) Hok) as (Hok1 & _ & Hno & Hcov).
  unfold sat_sub. rewrite Z.max_l by lia.
  destruct (add_to_spec (PhysicalRegion.new rs (re - rs) kind) _ Hok1) as (Hok2 & _ & Hin).
  { split; cbn; [done| |lia]. split; [lia|]. apply mod_sub_aligned; [done|apply Hrs]. }
  unfold add_region. cbn [regions set_regions].
  destruct (add_to _ (carve_all rs re s.(regions))) as [b l2]; cbn [snd] in *.
  set (s2 := set_regions l2 _).
  assert (∀ a, usable l2 a → usable s.(regions) a ∧ ¬ (start <= a < start + len)) as Hu.
  { intros a [j [Hj|[Hj _]]%Hin]; [|cbn in Hj; congruence]. split.
    - destruct (Hcov _ _ _ Hj) as [j' ?]. by exists j'.
    - intros Ha. apply (Hno j PhysicalRegionKind.Usable a); [lia|done]. }
  assert (∀ idxs st s0, (foldl (λ s idx, mark_frame st idx s) s0 idxs).(regions) = s0.(regions) ∧
    (foldl (λ s idx, mark_frame st idx s) s0 idxs).(initialized) = s0.(initialized)) as Hmark.
  { induction idxs as [|i idxs IH]; intros st s0; cbn; [done|].
    destruct (IH st (mark_frame st i s0)) as [-> ->]. unfold mark_frame. by destruct (s0.(metadata)). }
  destruct (s2.(initialized)) eqn:Hi, (s2.(metadata)) eqn:Hm; try by split_and!.
  unfold mark_frame_range. set (idxs := seq _ _).
  destruct (Hmark idxs (state_for_reserved_kind kind) s2) as [Hr Hini].
  cbn [refresh_stats set_stats regions set_frames initialized]. rewrite Hr, Hini.
  by split_and!.
Qed.

(** the ranges the boot code owns *)
Definition owned_ok (p : Z * Z * PhysicalRegionKind.t) : Prop :=
  range_fits p.1.1 p.1.2 ∧ p.2 ≠ PhysicalRegionKind.Usable.

Definition in_owned (owned : list (Z * Z * PhysicalRegionKind.t)) (a : Z) : Prop :=
  ∃ p, p ∈ owned ∧ p.1.1 <= a < p.1.1 + p.1.2.

Lemma reserve_all owned s :
  regions_ok s.(regions) → Forall owned_ok owned →
  let s' := foldl (λ s '(start, len, kind), reserve_range start len kind s) s owned in
  regions_ok s'.(regions) ∧ s'.(initialized) = s.(initialized) ∧
  (∀ a, usable s'.(regions) a → usable s.(regions) a ∧ ¬ in_owned owned a).
Proof.
  intros Hok Hall. revert s Hok. induction Hall as [|[[st len] kind] owned [Hfit Hk] Hall IH];
    intros s Hok; cbn [foldl].
  { split_and!; [done|done|]. intros a Ha. split; [done|].
    intros (p & Hp & _). by apply elem_of_nil in Hp. }
  cbn in Hfit, Hk.
  destruct (reserve_range_regions st len kind s Hok Hfit Hk) as (Hok1 & Hi1 & Hu1).
  destruct (IH _ Hok1) as (Hok2 & Hi2 & Hu2). split_and!; [done|by rewrite Hi2|].
  intros a [[Hs Hno]%Hu1 Hno2]%Hu2. split; [done|].
  intros (p & [->|Hp]%elem_of_cons & Ha); [by apply Hno|]. apply Hno2. by exists p.
Qed.

(** ** The memory map *)
Definition entry_ok (e : MemoryMapEntry.t) : Prop :=
  range_fits e.(MemoryMapEntry.base) e.(MemoryMapEntry.length_).

(** [a] lies in an entry of the map the boot loader calls usable *)
Definition map_usable (map : list MemoryMapEntry.t) (a : Z) : Prop :=
  ∃ e, e ∈ map ∧ e.(MemoryMapEntry.kind) = MemoryRegionKind.Usable ∧
       e.(MemoryMapEntry.base) <= a < e.(MemoryMapEntry.base) + e.(MemoryMapEntry.length_).

Lemma aligned_le_limit v : v mod PAGE_SIZE = 0 → v <= umax 64 → v <= LIMIT.
Proof.
  intros Hv Hle. assert (LIMIT mod PAGE_SIZE = 0) as Hl by (by vm_compute).
  pose proof (Z.div_mod LIMIT PAGE_SIZE ltac:(by unfold PAGE_SIZE)) as Hd1.
  pose proof (Z.div_mod v PAGE_SIZE ltac:(by unfold PAGE_SIZE)) as Hd2.
  unfold LIMIT, PAGE_SIZE, umax in *. lia.
Qed.

Lemma from_boot_usable k : PhysicalRegionKind.from_boot k = PhysicalRegionKind.Usable →
  k = MemoryRegionKind.Usable.
Proof. by destruct k. Qed.

Lemma ingest_entry_spec s max_end e :
  regions_ok s.(regions) → entry_ok e → 0 <= max_end <= LIMIT → max_end mod PAGE_SIZE = 0 →
  let '(s', max_end') := ingest_entry (s, max_end) e in
  regions_ok s'.(regions) ∧ s'.(initialized) = s.(initialized) ∧
  0 <= max_end' <= LIMIT ∧ max_end' mod PAGE_SIZE = 0 ∧
  (∀ a, usable s'.(regions) a → usable s.(regions) a ∨ map_usable [e] a).
Proof.
  intros Hok (H1 & H2 & H3) Hmax Hmod. unfold ingest_entry. pose proof limit_lt.
  rewrite (sat_add_small 64 e.(MemoryMapEntry.base)) by lia.
  set (b := e.(MemoryMapEntry.base)) in *. set (en := b + e.(MemoryMapEntry.length_)) in *.
  pose proof (align_down_bounds b) as [? ?]. pose proof (align_down_bounds en) as [? ?].
  destruct (align_up_bounds b) as [? ?]; [unfold LIMIT in *; lia|].
  destruct (align_up_bounds en) as [? Hup]; [unfold LIMIT in *; lia|].
  assert (align_up_u64 en <= LIMIT).
  { apply aligned_le_limit; [done|]. unfold LIMIT in *. lia. }
  assert (0 <= align_down_u64 b).
  { rewrite align_down_eq. apply Z.mul_nonneg_nonneg; [by unfold PAGE_SIZE|].
    apply Z.div_pos; [done|by unfold PAGE_SIZE]. }
  set (kind := PhysicalRegionKind.from_boot _). set (s1 := account_original_region kind _ s).
  set (se := if decide (kind = PhysicalRegionKind.Usable) then _ else _).
  assert (0 <= se.1 ∧ se.1 mod PAGE_SIZE = 0 ∧ se.2 mod PAGE_SIZE = 0 ∧ se.2 <= LIMIT ∧
    (kind = PhysicalRegionKind.Usable → b <= se.1 ∧ se.2 <= en)) as (Ha & Hb & Hc & Hd & He).
  { subst se. case_decide; cbn; split_and!; try done; try lia. }
  destruct se as [st en']; cbn [fst snd] in *.
  assert (0 <= Z.max max_end (align_up_u64 en) <= LIMIT ∧
          Z.max max_end (align_up_u64 en) mod PAGE_SIZE = 0) as [Hm1 Hm2].
  { split; [lia|]. by destruct (Z.max_spec max_end (align_up_u64 en)) as [[_ ->]|[_ ->]]. }
  case_decide as Hlt; [|split_and!; try done; try lia; by left].
  unfold add_region. change s1.(regions) with s.(regions).
  unfold sat_sub. rewrite Z.max_l by lia.
  destruct (add_to_spec (PhysicalRegion.new st (en' - st) kind) _ Hok) as (Hok' & _ & Hin).
  { split; cbn; [done| |lia]. split; [lia|]. by apply mod_sub_aligned. }
  destruct (add_to _ s.(regions)) as [r l']; cbn [snd regions set_regions initialized] in *.
  split_and!; try done; try lia. intros a [j [Hj|[Hj Hcn]]%Hin]; [left; by exists j|right].
  cbn in Hj. symmetry in Hj. destruct (He Hj) as [? ?]. exists e. split_and!; [constructor| | |].
  - by apply from_boot_usable.
  - unfold contains in Hcn; cbn in Hcn. fold b en. lia.
  - unfold contains in Hcn; cbn in Hcn. fold b en. lia.
Qed.

Lemma ingest_map map s max_end :
  regions_ok s.(regions) → Forall entry_ok map → 0 <= max_end <= LIMIT → max_end mod PAGE_SIZE = 0 →
  let '(s', max_end') := foldl ingest_entry (s, max_end) map in
  regions_ok s'.(regions) ∧ s'.(initialized) = s.(initialized) ∧
  0 <= max_end' <= LIMIT ∧ max_end' mod PAGE_SIZE = 0 ∧
  (∀ a, usable s'.(regions) a → usable s.(regions) a ∨ map_usable map a).
Proof.
  intros Hok Hall. revert s max_end Hok. induction Hall as [|e map He Hall IH];
    intros s max_end Hok Hm Hmod; cbn [foldl].
  { split_and!; try done; try lia. by left. }
  pose proof (ingest_entry_spec s max_end e Hok He Hm Hmod) as Hstep.
  destruct (ingest_entry (s, max_end) e) as [s1 m1]. destruct Hstep as (Hok1 & Hi1 & Hm1 & Hmod1 & Hu1).
  pose proof (IH s1 m1 Hok1 Hm1 Hmod1) as Hrest.
  destruct (foldl ingest_entry (s1, m1) map) as [s2 m2].
  destruct Hrest as (Hok2 & Hi2 & Hm2 & Hmod2 & Hu2). split_and!; try done; try lia; try congruence.
  intros a [[Ha|(e' & ->%list_elem_of_singleton & Hrest)]%Hu1|(e' & He' & Hrest)]%Hu2; [by left|..].
  - right. exists e. split; [constructor|done].
  - right. exists e'. split; [by constructor|done].
Qed.

(** ** The frame database *)
Lemma mark_fold idxs st s m :
  s.(metadata) = Some m →
  let s' := foldl (λ s idx, mark_frame st idx s) s idxs in
  ∃ m', s'.(metadata) = Some m' ∧ length m' = length m ∧
    s'.(frame_count) = s.(frame_count) ∧ s'.(regions) = s.(regions) ∧
    s'.(initialized) = s.(initialized) ∧ s'.(metadata_bytes) = s.(metadata_bytes) ∧
    s'.(metadata_physical_start) = s.(metadata_physical_start) ∧
    (∀ i x, m' !! i = Some x → (i ∈ idxs ∧ x = st) ∨ m !! i = Some x).
Proof.
  revert s m. induction idxs as [|j idxs IH]; intros s m Hm; cbn.
  { exists m. split_and!; auto. }
  assert (metadata (mark_frame st j s) = Some (<[j:=st]> m)) as Hm1
    by (unfold mark_frame; by rewrite Hm).
  destruct (IH _ _ Hm1) as (m' & Hm' & Hlen & Hfc & Hr & Hi & Hb & Hp & Hx).
  assert (∀ {A} (f : t → A), (∀ v a b, f (set_frames v a b s) = f s) → f (mark_frame st j s) = f s)
    as Hf by (intros A f H; unfold mark_frame; by rewrite Hm, H).
  exists m'. rewrite Hlen, length_insert, Hfc, Hr, Hi, Hb, Hp.
  split_and!; [done|done|by apply (Hf _ frame_count)|by apply (Hf _ regions)
    |by apply (Hf _ initialized)|by apply (Hf _ metadata_bytes)
    |by apply (Hf _ metadata_physical_start)|].
  intros i x [[? ->]|Hix]%Hx; [left; split; [by constructor|done]|].
  destruct (decide (j = i)) as [->|Hne].
  - destruct (decide (i < length m)%nat) as [Hlt|Hge].
    + rewrite list_lookup_insert_eq in Hix by done. injection Hix as <-. left. split; [constructor|done].
    + rewrite list_insert_ge in Hix by lia. by right.
  - rewrite list_lookup_insert_ne in Hix by done. by right.
Qed.

(** A frame found free in the database lies inside one usable region. *)
Lemma frame_covered r (i : nat) :
  region_ok r →
  (frame_index (align_down_u64 r.(PhysicalRegion.start)) ≤ i
     < frame_index (align_up_u64 (PhysicalRegion.end_ r)))%nat →
  ∀ a, Z.of_nat i * PAGE_SIZE <= a < (Z.of_nat i + 1) * PAGE_SIZE → contains r a.
Proof.
  intros Hr Hi a Ha. rewrite region_end in Hi by done. destruct Hr as [[? ?] [? ?] Hend].
  rewrite align_down_aligned, align_up_aligned in Hi;
    [|unfold LIMIT in Hend; lia|by apply mod_add_aligned|done].
  unfold frame_index in Hi. unfold contains.
  set (st := r.(PhysicalRegion.start)) in *. set (en := st + r.(PhysicalRegion.length_)) in *.
  pose proof (Z.div_mod st PAGE_SIZE ltac:(by unfold PAGE_SIZE)) as Hd1.
  pose proof (Z.div_mod en PAGE_SIZE ltac:(by unfold PAGE_SIZE)) as Hd2.
  assert (en mod PAGE_SIZE = 0) as Hen by (by apply mod_add_aligned).
  assert (0 <= st / PAGE_SIZE) by (apply Z.div_pos; [done|by unfold PAGE_SIZE]).
  assert (0 <= en / PAGE_SIZE) by (apply Z.div_pos; [lia|by unfold PAGE_SIZE]).
  unfold PAGE_SIZE in *. lia.
Qed.

Lemma mark_regions l s m :
  s.(metadata) = Some m →
  (∀ r, Some r ∈ l → region_ok r) →
  let s' := foldl (λ s entry, mark_region entry s) s l in
  ∃ m', s'.(metadata) = Some m' ∧ length m' = length m ∧
    s'.(frame_count) = s.(frame_count) ∧ s'.(regions) = s.(regions) ∧
    s'.(initialized) = s.(initialized) ∧ s'.(metadata_bytes) = s.(metadata_bytes) ∧
    s'.(metadata_physical_start) = s.(metadata_physical_start) ∧
    (∀ i x, m' !! i = Some x → m !! i = Some x ∨
       ∃ r, Some r ∈ l ∧ x = region_state r.(PhysicalRegion.kind) ∧
         ∀ a, Z.of_nat i * PAGE_SIZE <= a < (Z.of_nat i + 1) * PAGE_SIZE → contains r a).
Proof.
  revert s m. induction l as [|[r|] l IH]; intros s m Hm Hok; cbn [foldl].
  { exists m. split_and!; auto. }
  2:{ destruct (IH s m Hm) as (m' & H1 & H2 & H3 & H4 & H5 & H6 & H7 & H8).
      { intros r Hr. apply Hok. by constructor. }
      exists m'. split_and!; try done. intros i x [?|(r & ? & ?)]%H8; [by left|].
      right. exists r. split; [by constructor|done]. }
  assert (region_ok r) as Hrok by (apply Hok; constructor).
  cbn [mark_region]. unfold mark_frame_range. set (idxs := seq _ _).
  destruct (mark_fold idxs (region_state r.(PhysicalRegion.kind)) s m Hm)
    as (m1 & Hm1 & Hl1 & Hfc1 & Hr1 & Hi1 & Hb1 & Hp1 & Hx1).
  destruct (IH _ m1 Hm1) as (m' & Hm' & Hl & Hfc & Hrg & Hi & Hb & Hp & Hx).
  { intros x Hin. apply Hok. by constructor. }
  exists m'. rewrite Hl, Hfc, Hrg, Hi, Hb, Hp. split_and!; try done.
  intros i x [[[Hin ->]|?]%Hx1|(r' & Hr' & Hrest)]%Hx; [|by left|].
  - right. exists r. split_and!; [constructor|done|]. apply frame_covered; [done|].
    subst idxs. apply elem_of_seq in Hin. lia.
  - right. exists r'. split; [by constructor|done].
Qed.

Lemma find_metadata_spec required l start :
  regions_ok l → 0 <= required → find_metadata required l = Some start →
  0 <= start ∧ start + required <= LIMIT.
Proof.
  intros Hok Hreq. induction l as [|[r|] l IH]; cbn; [done| |].
  - assert (region_ok r) as Hr by (by apply (Hok 0%nat)). rewrite region_end by done.
    case_decide as Hd; [|apply IH; intros j; apply (Hok (S j))]. intros [= <-].
    destruct Hd as (_ & Hlt & Hsz). destruct Hr as [[? ?] [? ?] Hend].
    rewrite align_up_aligned in Hlt, Hsz |- * by (done || (unfold LIMIT in Hend; lia)).
    rewrite align_down_aligned in Hlt, Hsz by (by apply mod_add_aligned).
    unfold sat_sub in Hsz. lia.
  - apply IH. intros j. apply (Hok (S j)).
Qed.

Lemma count_refresh s m :
  s.(metadata) = Some m → (s.(frame_count) ≤ length m)%nat →
  Z.of_nat s.(frame_count) * PAGE_SIZE <= umax 64 →
  ready (refresh_stats (set_initialized true s)).
Proof.
  intros Hm Hl Hs. split; cbn; [done|eauto| | |done]; unfold frames; cbn; by rewrite Hm.
Qed.

Lemma database_spec s m :
  s.(metadata) = Some m → regions_ok s.(regions) →
  Z.of_nat s.(frame_count) * PAGE_SIZE <= umax 64 →
  let s' := refresh_stats (set_initialized true (initialize_database s)) in
  ready s' ∧ s'.(metadata_bytes) = s.(metadata_bytes) ∧
  s'.(metadata_physical_start) = s.(metadata_physical_start) ∧
  (∀ i x, frames s' !! i = Some x → x = FrameState.Invalid ∨
     ∃ r, Some r ∈ s.(regions) ∧ x = region_state r.(PhysicalRegion.kind) ∧
       ∀ a, Z.of_nat i * PAGE_SIZE <= a < (Z.of_nat i + 1) * PAGE_SIZE → contains r a).
Proof.
  intros Hm Hok Hsp. unfold initialize_database. rewrite Hm. cbn [fmap option_fmap option_map].
  set (m1 := replicate _ _ ++ _). set (s1 := set_frames _ _ _ s).
  destruct (mark_regions s.(regions) s1 m1 eq_refl) as (m' & Hm' & Hl & Hfc & _ & _ & Hb & Hp & Hx).
  { intros r [j Hj]%list_elem_of_lookup. by eapply Hok. }
  change (foldl _ _ s1.(regions)) with (foldl (λ s entry, mark_region entry s) s1 s.(regions)).
  set (s2 := foldl _ s1 _) in *. change (frame_count s1) with s.(frame_count) in Hfc.
  split_and!; [|exact Hb|exact Hp|].
  - apply (count_refresh s2 m'); [done| |by rewrite Hfc].
    rewrite Hfc, Hl. subst m1. rewrite length_app, length_replicate. lia.
  - intros i x Hix. change (frames s2 !! i = Some x) in Hix. unfold frames in Hix.
    rewrite Hm', Hfc in Hix. apply lookup_take_Some in Hix as [Hix Hlt].
    apply Hx in Hix as [Hix|?]; [left|by right].
    subst m1. rewrite lookup_app_l in Hix by (rewrite length_replicate; lia).
    by apply lookup_replicate in Hix as [-> _].
Qed.

Lemma metadata_fits (fc : nat) s start :
  regions_ok s.(regions) → Z.of_nat fc * PAGE_SIZE <= LIMIT →
  find_metadata_range (Z.of_nat fc) s = Some start → range_fits start (Z.of_nat fc).
Proof.
  intros Hok Hfc Hmeta. unfold find_metadata_range in Hmeta. case_decide; [done|].
  assert (Z.of_nat fc <= align_up_u64 (Z.of_nat fc)).
  { apply align_up_bounds. pose proof limit_lt. unfold LIMIT, umax, PAGE_SIZE in *. lia. }
  apply find_metadata_spec in Hmeta as [? ?]; [|done|lia]. split_and!; lia.
Qed.

Lemma frame_index_limit e : 0 <= e <= LIMIT → Z.of_nat (frame_index e) * PAGE_SIZE <= LIMIT.
Proof.
  intros He. unfold frame_index.
  pose proof (Z.div_mod e PAGE_SIZE ltac:(by unfold PAGE_SIZE)).
  pose proof (Z.mod_pos_bound e PAGE_SIZE ltac:(by unfold PAGE_SIZE)).
  assert (0 <= e / PAGE_SIZE) by (apply Z.div_pos; [lia|by unfold PAGE_SIZE]).
  rewrite Z2Nat.id by done. lia.
Qed.

Lemma boot_owned_kinds boot translator tables stack :
  Forall (λ p, p.2 ≠ PhysicalRegionKind.Usable) (boot_owned_ranges boot translator tables stack).
Proof.
  unfold boot_owned_ranges. rewrite !Forall_app, Forall_fmap. split_and!.
  - by destruct (BootInfo.load_range boot); repeat constructor.
  - by apply Forall_forall.
  - by destruct (BootInfo.framebuffer boot); repeat constructor.
  - by destruct (BootInfo.rsdp boot); repeat constructor.
  - by repeat constructor.
Qed.

(** C11: after boot only memory that nobody owns is free.  If [ingest_boot_info]
    succeeds on a memory map and boot-owned ranges that fit in the address space,
    the allocator is ready with no frame allocated, and every free frame consists
    of addresses the boot loader reported as usable, none of which belongs to a
    boot-owned range (kernel image, modules, framebuffer, tables, stack) or to the
    allocator's own frame database.  This holds even when the region table
    overflows. *)
Theorem boot_frees_only_unowned boot tables stack memory s s' :
  let owned := boot_owned_ranges boot (AddressTranslator.new boot) tables stack in
  ingest_boot_info boot tables stack memory s = (Ok tt, s') →
  Forall entry_ok (map_entries boot) → Forall (λ p, range_fits p.1.1 p.1.2) owned →
  ready s' ∧ (FrameState.Allocated ∉ frames s') ∧
  ∀ i a, frames s' !! i = Some FrameState.Free →
    Z.of_nat i * PAGE_SIZE <= a < (Z.of_nat i + 1) * PAGE_SIZE →
    map_usable (map_entries boot) a ∧ ¬ in_owned owned a ∧
    ¬ (s'.(metadata_physical_start) <= a < s'.(metadata_physical_start) + s'.(metadata_bytes)).
Proof.
  intros owned Hing Hmap Hfit. assert (Forall owned_ok owned) as Howned
    by (apply Forall_and; split; [done|apply boot_owned_kinds]).
  unfold ingest_boot_info, reserve_boot_owned_ranges in Hing. fold owned in Hing. clearbody owned.
  pose proof (ingest_map (map_entries boot) (reset s) 0) as Hstep.
  destruct (foldl ingest_entry (reset s, 0) (map_entries boot)) as [s1 max_end].
  destruct Hstep as (Hok1 & Hi1 & Hm1 & Hmod1 & Hu1); [| |by vm_compute|done|].
  { intros j r Hj. cbn in Hj. apply lookup_replicate in Hj as [? _]. done. }
  { done. }
  destruct (reserve_all owned s1 Hok1 Howned) as (Hok2 & Hi2 & Hu2).
  set (s2 := foldl _ s1 owned) in *. rewrite decide_False, Nat.add_0_r in Hing by lia.
  assert (Z.of_nat (frame_index max_end) * PAGE_SIZE <= LIMIT) as Hfc
    by (apply frame_index_limit; lia).
  set (fc := frame_index max_end) in *. set (s3 := set_layout fc _ _ s2) in *.
  destruct (find_metadata_range (Z.of_nat fc) s3) as [mp|] eqn:Hmeta; [|done].
  destruct (reserve_range_regions mp (Z.of_nat fc) PhysicalRegionKind.AllocatorMetadata s3 Hok2)
    as (Hok4 & Hi4 & Hu4); [by eapply metadata_fits|done|].
  set (s4 := reserve_range mp _ _ s3) in *. cbn zeta in Hing. case_decide; [done|].
  injection Hing as <-. set (m := memory _). set (s5 := set_frames (Some m) _ _ _).
  destruct (database_spec s5 m eq_refl Hok4) as (R & Hb & Hp & Hframes).
  { cbn. pose proof limit_lt. lia. }
  split_and!; [done| |].
  - intros [i Hi]%list_elem_of_lookup.
    apply Hframes in Hi as [?|(r & _ & Hk & _)]; [done|]. by destruct (r.(PhysicalRegion.kind)).
  - intros i a Hi Ha. apply Hframes in Hi as [?|(r & Hr & Hk & Hc)]; [done|].
    assert (usable s4.(regions) a) as Hus.
    { apply list_elem_of_lookup in Hr as [j Hj]. exists j, r. split_and!; [done| |by apply Hc].
      by destruct (r.(PhysicalRegion.kind)). }
    apply Hu4 in Hus as [Hus Hnm]. apply Hu2 in Hus as [Hus Hno].
    split_and!; [|done|by rewrite Hb, Hp].
    apply Hu1 in Hus as [(j & x & Hx & _)|?]; [|done]. cbn in Hx.
    by apply lookup_replicate in Hx as [? _].
Qed.

(** ** A booted allocator *)

(** 160 KiB of memory with the kernel image, a module and the stack in it *)
Definition demo_boot : BootInfo.t := BootInfo.mk
  (Some [Some (MemoryMapEntry.mk 0 4096 MemoryRegionKind.Reserved); None;
         Some (MemoryMapEntry.mk 4096 159744 MemoryRegionKind.Usable)])
  None (Some 4096) (Some 1048576) (VirtualRange.mk 0 0)
  (Some (KernelLoadRange.mk 12288 8388608 6000))
  [Some (BootModule.mk (1048576 + 24576) 100)].
Definition demo_tables : Z * Z := (8388608 + 4096, 1000).
Definition demo_stack : Z := 1048576 + 131072.
Definition demo_memory (_ : Z) : list FrameState.t := replicate 40 FrameState.Invalid.

Definition booted : t :=
  (ingest_boot_info demo_boot demo_tables demo_stack demo_memory (new 16)).2.

Lemma booted_ready : ready booted.
Proof.
  split; [by vm_compute| |by vm_compute|by vm_compute|by vm_compute].
  eexists. split; [vm_compute; reflexivity|vm_compute; lia].
Qed.

Lemma boot_frees_only_unowned_witness :
  ingest_boot_info demo_boot demo_tables demo_stack demo_memory (new 16) = (Ok tt, booted) ∧
  frames booted !! 5%nat = Some FrameState.Free ∧
  ¬ in_owned (boot_owned_ranges demo_boot (AddressTranslator.new demo_boot) demo_tables demo_stack) 20480.
Proof.
  assert (ingest_boot_info demo_boot demo_tables demo_stack demo_memory (new 16) = (Ok tt, booted))
    as Hb by (vm_compute; reflexivity).
  assert (frames booted !! 5%nat = Some FrameState.Free) as H5 by (vm_compute; reflexivity).
  split; [exact Hb|split; [exact H5|]].
  assert (Forall entry_ok (map_entries demo_boot)) as Hm
    by (repeat constructor; vm_compute; discriminate).
  assert (Forall (λ p, range_fits p.1.1 p.1.2)
            (boot_owned_ranges demo_boot (AddressTranslator.new demo_boot) demo_tables demo_stack)) as Ho
    by (repeat constructor; vm_compute; discriminate).
  destruct (boot_frees_only_unowned _ _ _ _ _ _ Hb Hm Ho) as (_ & _ & H).
  destruct (H 5%nat 20480 H5) as (_ & Hno & _); [unfold PAGE_SIZE; lia|exact Hno].
Defined.

Lemma free_frame_outcome_witness :
  (free_frame (PhysFrame.mk 20480) booted).2 = booted.
Proof.
  pose proof (free_frame_outcome booted 20480 booted_ready ltac:(by vm_compute)) as H.
  assert ((free_frame (PhysFrame.mk 20480) booted).1 = Err MemoryError.DoubleFree) as He
    by (vm_compute; reflexivity).
  destruct (free_frame (PhysFrame.mk 20480) booted) as [[[]|e] s']; [discriminate He|].
  exact (proj1 H).
Defined.

Lemma no_double_allocation_witness :
  NoDup (PhysFrame.start <$> (foldl step (booted, []) [Allocate; Allocate; Free (PhysFrame.mk 20480); Allocate]).2).
Proof.
  assert (FrameState.Allocated ∉ frames booted) as Hn.
  { apply (bool_decide_eq_true_1 _). vm_compute. reflexivity. }
  assert (Forall op_ok [Allocate; Allocate; Free (PhysFrame.mk 20480); Allocate]) as Ho
    by (repeat constructor; vm_compute; discriminate).
  pose proof (no_double_allocation booted _ booted_ready Hn Ho) as H.
  destruct (foldl step (booted, []) _) as [s' owned]. exact (proj1 H).
Defined.

Lemma allocate_free_roundtrip_witness :
  ∃ s2, free_frame (PhysFrame.mk 20480) (allocate_frame booted).2 = (Ok tt, s2) ∧
    frames s2 = frames booted.
Proof.
  assert (allocate_frame booted = (Ok (PhysFrame.mk 20480), (allocate_frame booted).2)) as Ha
    by (vm_compute; reflexivity).
  destruct (allocate_free_roundtrip booted _ _ booted_ready Ha) as (s2 & Hf & Hs & _).
  exists s2. split; [exact Hf|exact Hs].
Defined.
