(* ===== verification/Ipc.v ===== *)
(** * Inter-process messages

    Models src/src/kernel/ipc.rs: the fixed-size message payload and the bounded
    ring of messages every process owns.  The theorems show that a payload carries
    exactly the first 64 bytes of what was sent, and that the ring refines a
    bounded queue whose last push can be taken back. *)

From stdpp Require Import prelude.
From S2P Require Import Prelude Slots Ring Subkernel.

(** ** Payloads *)
Module MessagePayload.
Definition CAPACITY : nat := 64.
Record t : Type := mk { security_class : SecurityClass.t; data : list Z; length_ : nat }.

Definition empty (class : SecurityClass.t) : t := mk class (replicate CAPACITY 0%Z) 0.

(** [while idx < slice.len() && idx < data.len()]; returns the buffer and [idx] *)
Fixpoint copy_loop (slice data : list Z) (idx : nat) : list Z * nat :=
  match slice with
  | [] => (data, idx)
  | b :: slice' =>
      if decide (idx < length data) then copy_loop slice' (<[idx:=b]> data) (S idx)
      else (data, idx)
  end.

Definition from_slice (class : SecurityClass.t) (slice : list Z) : t :=
  let payload := empty class in
  let '(data, idx) := copy_loop slice payload.(data) 0 in
  mk class data idx.

Lemma copy_loop_spec slice data idx :
  idx ≤ length data →
  copy_loop slice data idx =
    (take idx data ++ take (length data - idx) slice ++
       drop (idx + length slice) data, Nat.min (length data) (idx + length slice)).
Proof.
  revert data idx. induction slice as [|b slice IH]; intros data idx Hidx; cbn [copy_loop].
  - rewrite take_nil, Nat.add_0_r. cbn. rewrite take_drop, Nat.min_r by done. done.
  - case_decide as Hlt.
    + rewrite IH by (rewrite length_insert; lia). rewrite length_insert. f_equal; [|cbn; lia].
      rewrite (take_S_r _ _ b) by (by apply list_lookup_insert_eq).
      rewrite take_insert_ge by lia. rewrite <-app_assoc. f_equal. cbn [length].
      replace (length data - idx) with (S (length data - S idx)) by lia. cbn [take app]. f_equal.
      f_equal. rewrite drop_insert_lt by lia. f_equal. lia.
    + assert (idx = length data) as -> by lia. rewrite Nat.sub_diag, take_ge by lia.
      rewrite drop_ge by lia. cbn [take app]. rewrite app_nil_r, Nat.min_l by lia. done.
Qed.

(** A payload holds exactly the bytes of the slice it was built from, cut to
    its 64 byte buffer: the length never exceeds the buffer, the bytes before it
    are the slice's and the rest of the buffer is zero, so no stale byte leaks to
    the receiver. *)
Theorem payload_from_slice class slice :
  let p := from_slice class slice in
  p.(security_class) = class ∧
  p.(length_) = Nat.min CAPACITY (length slice) ∧
  length p.(data) = CAPACITY ∧
  take p.(length_) p.(data) = take CAPACITY slice ∧
  drop p.(length_) p.(data) = replicate (CAPACITY - p.(length_)) 0%Z.
Proof.
  unfold from_slice. rewrite copy_loop_spec by (cbn; lia). cbn [empty data length_ security_class].
  rewrite length_replicate, Nat.sub_0_r, take_0, drop_replicate. cbn [app Nat.add].
  split_and!; [done|done| | |].
  - rewrite length_app, length_take, length_replicate. lia.
  - rewrite take_app_le by (rewrite length_take; lia). by rewrite take_ge by (rewrite length_take; lia).
  - rewrite drop_app_ge by (rewrite length_take; lia). rewrite drop_replicate, length_take.
    f_equal. lia.
Qed.
End MessagePayload.

Module Message.
Record t : Type := mk {
  sender : ProcessId; receiver : ProcessId; sequence : Z; payload : MessagePayload.t
}.
End Message.

Module MessageQueueError.
Inductive t : Type := Full.
End MessageQueueError.

(** ** The queue

    The const generic [N] is the length of [buffer]. *)
Module MessageQueue.
Record t : Type := mk {
  buffer : list (option Message.t); head : nat; tail : nat; len : nat
}.

Definition N (q : t) : nat := length q.(buffer).

Definition new (N : nat) : t := mk (replicate N None) 0 0 0.

Definition is_full (q : t) : bool := bool_decide (q.(len) = N q).

Definition push (message : Message.t) (q : t) : result MessageQueueError.t unit * t :=
  if is_full q then (Err MessageQueueError.Full, q)
  else (Ok tt, mk (<[q.(tail):=Some message]> q.(buffer)) q.(head)
                  ((q.(tail) + 1) mod N q) (q.(len) + 1)).

Definition pop (q : t) : option Message.t * t :=
  if decide (q.(len) = 0) then (None, q)
  else
    let message := mjoin (q.(buffer) !! q.(head)) in
    (message, mk (<[q.(head):=None]> q.(buffer)) ((q.(head) + 1) mod N q) q.(tail) (q.(len) - 1)).

Definition rollback_last_push (q : t) : option Message.t * t :=
  if decide (q.(len) = 0) then (None, q)
  else
    let tail := (q.(tail) + N q - 1) mod N q in
    let message := mjoin (q.(buffer) !! tail) in
    (message, mk (<[tail:=None]> q.(buffer)) q.(head) tail (q.(len) - 1)).

Definition clear (q : t) : t := mk (clear_where (λ _, true) q.(buffer)) 0 0 0.

(** ** The abstract queue *)
Inductive op : Type := Push (m : Message.t) | Pop | RollbackLastPush | Clear.
Inductive obs : Type := Pushed (ok : bool) | Popped (m : option Message.t) | Cleared.

Definition impl_step (o : op) (q : t) : obs * t :=
  match o with
  | Push m => let '(r, q) := push m q in (Pushed (is_ok r), q)
  | Pop => let '(r, q) := pop q in (Popped r, q)
  | RollbackLastPush => let '(r, q) := rollback_last_push q in (Popped r, q)
  | Clear => (Cleared, clear q)
  end.

Definition spec_step (n : nat) (o : op) (l : list Message.t) : obs * list Message.t :=
  match o with
  | Push m => if decide (length l < n) then (Pushed true, l ++ [m]) else (Pushed false, l)
  | Pop => (Popped (hd_error l), tl l)
  | RollbackLastPush => (Popped (last l), take (length l - 1) l)
  | Clear => (Cleared, [])
  end.

Fixpoint impl_run (ops : list op) (q : t) : list obs * t :=
  match ops with
  | [] => ([], q)
  | o :: ops' => let '(b, q) := impl_step o q in
                 let '(bs, q) := impl_run ops' q in (b :: bs, q)
  end.

Fixpoint spec_run (n : nat) (ops : list op) (l : list Message.t) : list obs * list Message.t :=
  match ops with
  | [] => ([], l)
  | o :: ops' => let '(b, l) := spec_step n o l in
                 let '(bs, l) := spec_run n ops' l in (b :: bs, l)
  end.

(** [q] stores the messages [l], oldest first, and its indices are in range *)
Record rep (n : nat) (q : t) (l : list Message.t) : Prop := {
  rep_n : length q.(buffer) = n;
  rep_fifo : fifo q.(buffer) q.(MessageQueue.head) l;
  rep_len : q.(len) = length l;
  rep_head : 0 < n → q.(MessageQueue.head) < n;
  rep_tail : 0 < n → q.(MessageQueue.tail) = (q.(MessageQueue.head) + length l) mod n
}.

Lemma rep_new n : rep n (new n) [].
Proof.
  split; cbn; [by rewrite length_replicate|apply fifo_empty|done|done|].
  intros. by rewrite Nat.Div0.mod_0_l.
Qed.

Lemma rep_push n q l m :
  rep n q l →
  let '(r, q') := push m q in
  is_ok r = bool_decide (length l < n) ∧
  rep n q' (if decide (length l < n) then l ++ [m] else l).
Proof.
  intros R. destruct R as [Hn Hf Hl Hh Ht]. pose proof (fifo_length _ _ _ Hf) as Hle.
  unfold push, is_full, N. rewrite Hl, Hn in *. case_bool_decide as Hfull.
  - rewrite decide_False, bool_decide_eq_false_2 by lia. split; [done|by split; rewrite ?Hl].
  - rewrite decide_True, bool_decide_eq_true_2 by lia. split; [done|].
    rewrite Ht by lia. split; cbn; rewrite ?length_insert, ?length_app; cbn; [done| |lia|done|].
    + rewrite <-Hn at 1. apply fifo_push; [done|lia].
    + intros. rewrite Nat.Div0.add_mod_idemp_l. f_equal. lia.
Qed.

Lemma rep_pop n q l :
  rep n q l → (pop q).1 = hd_error l ∧ rep n (pop q).2 (tl l).
Proof.
  intros R. pose proof R as [Hn Hf Hl Hh Ht]. pose proof (fifo_length _ _ _ Hf) as Hle.
  unfold pop, N. rewrite Hl. destruct l as [|m l]; cbn [length] in *; [done|].
  rewrite decide_False by lia. cbn [fst snd hd_error tl].
  rewrite Hn in Hle. specialize (Hh ltac:(lia)). specialize (Ht ltac:(lia)).
  rewrite (fifo_head _ _ _ _ Hf) by lia. split; [done|].
  split; cbn; rewrite ?length_insert; [done| |lia| |].
  - apply (fifo_pop _ _ m); [done|lia].
  - intros. rewrite Hn. apply Nat.mod_upper_bound. lia.
  - intros. rewrite Hn, Nat.Div0.add_mod_idemp_l, Ht. f_equal. lia.
Qed.

Lemma rep_rollback n q l :
  rep n q l →
  (rollback_last_push q).1 = last l ∧ rep n (rollback_last_push q).2 (take (length l - 1) l).
Proof.
  intros R. pose proof R as [Hn Hf Hl Hh Ht]. pose proof (fifo_length _ _ _ Hf) as Hle.
  unfold rollback_last_push, N. rewrite Hl, Hn. rewrite Hn in Hle.
  destruct (decide (length l = 0)) as [H0|H0].
  { apply nil_length_inv in H0 as ->. done. }
  destruct l as [|m l] using rev_ind; [done|]. clear IHl.
  rewrite length_app in *. cbn [length] in *. rewrite last_snoc.
  specialize (Hh ltac:(lia)). specialize (Ht ltac:(lia)). rewrite take_app_length' by lia.
  assert ((q.(MessageQueue.tail) + n - 1) mod n = (q.(MessageQueue.head) + length l) mod n) as Hm.
  { rewrite Ht. replace ((_ mod n) + n - 1) with (((q.(MessageQueue.head) + (length l + 1)) mod n) + (n - 1)) by lia.
    rewrite Nat.Div0.add_mod_idemp_l.
    replace (q.(MessageQueue.head) + (length l + 1) + (n - 1)) with (q.(MessageQueue.head) + length l + 1 * n) by lia.
    by rewrite Nat.Div0.mod_add. }
  rewrite Hm. cbn [fst snd]. pose proof (fifo_last _ _ _ _ Hf) as Hlast. rewrite Hn in Hlast.
  rewrite Hlast. split; [done|].
  split; cbn; rewrite ?length_insert; [done| |lia|done|done].
  rewrite <-Hn at 1. by eapply fifo_unpush.
Qed.

Lemma rep_clear n q l : rep n q l → rep n (clear q) [].
Proof.
  intros R. assert (clear_where (λ _ : Message.t, true) q.(buffer) = replicate n None) as Hc.
  { rewrite <-(rep_n _ _ _ R). clear. induction q.(buffer) as [|[x|] b IH]; cbn; congruence. }
  unfold clear. rewrite Hc. apply rep_new.
Qed.

Lemma rep_step n q l o :
  rep n q l →
  (impl_step o q).1 = (spec_step n o l).1 ∧ rep n (impl_step o q).2 (spec_step n o l).2.
Proof.
  intros R. destruct o as [m| | |]; cbn.
  - pose proof (rep_push n q l m R) as H. destruct (push m q) as [r q']. destruct H as [Hr H].
    rewrite Hr. case_decide; [rewrite bool_decide_eq_true_2 by done|rewrite bool_decide_eq_false_2 by done];
      by split.
  - destruct (rep_pop n q l R) as [Hr H]. destruct (pop q) as [r q']. cbn in *. by rewrite Hr.
  - destruct (rep_rollback n q l R) as [Hr H]. destruct (rollback_last_push q) as [r q'].
    cbn in *. by rewrite Hr.
  - split; [done|by eapply rep_clear].
Qed.

(** The ring of messages is a bounded queue.  From an empty queue of any
    capacity, every sequence of pushes, pops, rollbacks and clears observes exactly
    what a list of at most [n] messages observes (a push is refused exactly when [n]
    messages wait, a pop returns the oldest, a rollback withdraws the newest),
    and the ring ends up holding exactly that list, with its indices in range. *)
Theorem message_queue_refines n ops :
  (impl_run ops (new n)).1 = (spec_run n ops []).1 ∧
  rep n (impl_run ops (new n)).2 (spec_run n ops []).2.
Proof.
  assert (∀ q l, rep n q l → (impl_run ops q).1 = (spec_run n ops l).1 ∧
    rep n (impl_run ops q).2 (spec_run n ops l).2) as H; [|apply H, rep_new].
  induction ops as [|o ops IH]; intros q l R; cbn; [done|].
  destruct (rep_step n q l o R) as [Ho R'].
  destruct (impl_step o q) as [b q'], (spec_step n o l) as [b' l']; cbn in *. subst b'.
  destruct (IH q' l' R') as [Hbs R''].
  destruct (impl_run ops q') as [bs q''], (spec_run n ops l') as [bs' l'']; cbn in *. by subst.
Qed.

(** A push followed by a rollback restores the queue: the message handed back
    is the one pushed and the queue again holds what it held, so a send that fails
    after queueing leaves no trace. *)
Theorem push_rollback n q l m q' :
  rep n q l → push m q = (Ok tt, q') →
  (rollback_last_push q').1 = Some m ∧ rep n (rollback_last_push q').2 l.
Proof.
  intros R Hp. pose proof (rep_push n q l m R) as H. rewrite Hp in H. destruct H as [Hr R'].
  cbn in Hr. symmetry in Hr. apply bool_decide_eq_true_1 in Hr. rewrite decide_True in R' by done.
  destruct (rep_rollback n q' _ R') as [-> Hrb]. rewrite length_app in Hrb. cbn in Hrb.
  rewrite take_app_length' in Hrb by lia. by rewrite last_snoc.
Qed.

Lemma push_rollback_witness :
  let m := Message.mk 1 2 3 (MessagePayload.empty SecurityClass.Internal) in
  rep 2 (rollback_last_push (push m (new 2)).2).2 [].
Proof.
  intros m. assert (push m (new 2) = (Ok tt, (push m (new 2)).2)) as Hp by (vm_compute; reflexivity).
  exact (proj2 (push_rollback 2 (new 2) [] m _ (rep_new 2) Hp)).
Defined.
End MessageQueue.
