(* ===== verification/Timer.v ===== *)
(** * Sleeps and process timers

    Models src/src/kernel/timer.rs ([TimerManager]: sleeping processes and one-shot
    or periodic process timers, both in fixed tables) and the loop of
    src/src/kernel/mod.rs that fires what is due ([wake_expired_timeouts]).
    Timestamps are u128 nanoseconds, timer ids u64.

    The search for an unused timer id is unbounded in the source; here it runs on
    fuel and answers [None] when the fuel runs out.  One more step than the table
    has slots is enough, see [allocate_fresh]. *)

From stdpp Require Import prelude.
From S2P Require Import Prelude Slots Ring Subkernel.

Local Open Scope Z_scope.

Abbreviation ThreadId := Z (only parsing).

Module SleepEntry.
Record t : Type := mk { process : ProcessId; thread : option ThreadId; wake_deadline_ns : Z }.
End SleepEntry.

Module ExpiredSleep.
Record t : Type := mk { process : ProcessId; thread : option ThreadId }.
End ExpiredSleep.

Module ProcessTimer.
Record t : Type := mk {
  owner : ProcessId; id : Z; armed : bool; wake_deadline_ns : Z; interval_ns : Z
}.
Definition key (x : t) : ProcessId * Z := (x.(owner), x.(id)).
End ProcessTimer.

Module ExpiredTimer.
Record t : Type := mk { owner : ProcessId; id : Z }.
End ExpiredTimer.

Module TimerError.
Inductive t : Type := Full | InvalidTimer.
End TimerError.

(** ** The manager *)
Module TimerManager.
Record t : Type := mk {
  sleeps : list (option SleepEntry.t);
  timers : list (option ProcessTimer.t);
  next_timer_id : Z
}.

Definition new (SLEEP_CAP TIMER_CAP : nat) : t :=
  mk (replicate SLEEP_CAP None) (replicate TIMER_CAP None) 1.

Definition reset (s : t) : t := new (length s.(sleeps)) (length s.(timers)).

Definition set_sleeps v (s : t) : t := mk v s.(timers) s.(next_timer_id).
Definition set_timers v (s : t) : t := mk s.(sleeps) v s.(next_timer_id).
Definition set_next_timer_id v (s : t) : t := mk s.(sleeps) s.(timers) v.

Definition add_sleep (process : ProcessId) (thread : option ThreadId) (deadline : Z) (s : t)
    : result TimerError.t unit * t :=
  match free_slot s.(sleeps) with
  | Some idx =>
      (Ok tt, set_sleeps (<[idx:=Some (SleepEntry.mk process thread deadline)]> s.(sleeps)) s)
  | None => (Err TimerError.Full, s)
  end.

Definition sleep_due (now : Z) (e : SleepEntry.t) : bool :=
  bool_decide (e.(SleepEntry.wake_deadline_ns) <= now).

Definition expire_sleep (now : Z) (s : t) : option ExpiredSleep.t * t :=
  match find_slot (sleep_due now) s.(sleeps) with
  | Some idx =>
      match s.(sleeps) !! idx with
      | Some (Some e) => (Some (ExpiredSleep.mk e.(SleepEntry.process) e.(SleepEntry.thread)),
                          set_sleeps (<[idx:=None]> s.(sleeps)) s)
      | _ => (None, s)
      end
  | None => (None, s)
  end.

Definition locate_timer (owner : ProcessId) (id : Z) (s : t) : result TimerError.t nat :=
  ok_or (find_slot (has_key ProcessTimer.key (owner, id)) s.(timers)) TimerError.InvalidTimer.

(** [candidate.wrapping_add(1).max(1)] *)
Definition next_candidate (candidate : Z) : Z := Z.max (wrap_add 64 candidate 1) 1.

Fixpoint allocate_loop (fuel : nat) (owner : ProcessId) (start candidate : Z) (s : t)
    : option (Z * t) :=
  match fuel with
  | O => None
  | S fuel =>
      match locate_timer owner candidate s with
      | Err _ => Some (candidate, set_next_timer_id (next_candidate candidate) s)
      | Ok _ =>
          let candidate := next_candidate candidate in
          if decide (candidate = start) then Some (1, s)
          else allocate_loop fuel owner start candidate s
      end
  end.

Definition allocate_timer_id (owner : ProcessId) (s : t) : option (Z * t) :=
  let start := Z.max s.(next_timer_id) 1 in
  allocate_loop (S (length s.(timers))) owner start start s.

Definition create_timer (owner : ProcessId) (s : t) : option (result TimerError.t Z * t) :=
  match free_slot s.(timers) with
  | Some idx =>
      match allocate_timer_id owner s with
      | Some (id, s) =>
          Some (Ok id, set_timers
            (<[idx:=Some (ProcessTimer.mk owner id false 0 0)]> s.(timers)) s)
      | None => None
      end
  | None => Some (Err TimerError.Full, s)
  end.

Definition timer (owner : ProcessId) (id : Z) (s : t) : result TimerError.t ProcessTimer.t :=
  match locate_timer owner id s with
  | Ok idx => ok_or (mjoin (s.(timers) !! idx)) TimerError.InvalidTimer
  | Err e => Err e
  end.

Definition set_timer (owner : ProcessId) (id : Z) (deadline : option Z) (interval : Z) (s : t)
    : result TimerError.t ProcessTimer.t * t :=
  match locate_timer owner id s with
  | Ok idx =>
      match mjoin (s.(timers) !! idx) with
      | Some previous =>
          let timer := ProcessTimer.mk previous.(ProcessTimer.owner) previous.(ProcessTimer.id)
            (bool_decide (is_Some deadline)) (default 0 deadline) interval in
          (Ok previous, set_timers (<[idx:=Some timer]> s.(timers)) s)
      | None => (Err TimerError.InvalidTimer, s)
      end
  | Err e => (Err e, s)
  end.

Definition delete_timer (owner : ProcessId) (id : Z) (s : t) : result TimerError.t unit * t :=
  match locate_timer owner id s with
  | Ok idx => (Ok tt, set_timers (<[idx:=None]> s.(timers)) s)
  | Err e => (Err e, s)
  end.

Definition release_process (owner : ProcessId) (s : t) : t :=
  mk (clear_where (λ e, bool_decide (e.(SleepEntry.process) = owner)) s.(sleeps))
     (clear_where (λ x, bool_decide (x.(ProcessTimer.owner) = owner)) s.(timers))
     s.(next_timer_id).

Definition timer_due (now : Z) (x : ProcessTimer.t) : bool :=
  x.(ProcessTimer.armed) && bool_decide (x.(ProcessTimer.wake_deadline_ns) <= now).

(** what [expire_timer] stores back for a due timer *)
Definition rearm (now : Z) (x : ProcessTimer.t) : ProcessTimer.t :=
  let deadline := x.(ProcessTimer.wake_deadline_ns) in
  let interval := x.(ProcessTimer.interval_ns) in
  if decide (interval > 0) then
    let elapsed := sat_sub now deadline in
    let missed_periods := elapsed / interval + 1 in
    ProcessTimer.mk x.(ProcessTimer.owner) x.(ProcessTimer.id) x.(ProcessTimer.armed)
      (sat_add 128 deadline (sat_mul 128 interval missed_periods)) interval
  else ProcessTimer.mk x.(ProcessTimer.owner) x.(ProcessTimer.id) false 0 interval.

Definition expire_timer (now : Z) (s : t) : option ExpiredTimer.t * t :=
  match find_slot (timer_due now) s.(timers) with
  | Some idx =>
      match s.(timers) !! idx with
      | Some (Some x) => (Some (ExpiredTimer.mk x.(ProcessTimer.owner) x.(ProcessTimer.id)),
                          set_timers (<[idx:=Some (rearm now x)]> s.(timers)) s)
      | _ => (None, s)
      end
  | None => (None, s)
  end.

(** [while let Some(expired) = expire(now) { .. }]: the expired entries in the
    order they are reported, [None] when the fuel runs out *)
Fixpoint drain {A} (expire : t → option A * t) (fuel : nat) (s : t) : option (list A * t) :=
  match fuel with
  | O => None
  | S fuel =>
      match expire s with
      | (Some e, s) => '(es, s) ← drain expire fuel s; Some (e :: es, s)
      | (None, s) => Some ([], s)
      end
  end.

Definition wake_expired_timeouts (now : Z) (fuel : nat) (s : t)
    : option (list ExpiredSleep.t * list ExpiredTimer.t * t) :=
  '(es, s) ← drain (expire_sleep now) fuel s;
  '(xs, s) ← drain (expire_timer now) fuel s;
  Some (es, xs, s).
End TimerManager.

Import TimerManager.

(** ** Timer ids *)

(** no two timers of one process share an id *)
Record wf (s : t) : Prop := {
  wf_uniq : uniq ProcessTimer.key s.(timers);
  wf_next : 0 <= s.(next_timer_id) <= umax 64
}.

(** the [i]-th id the search tries *)
Definition candidate_at (start : Z) (i : nat) : Z := (start - 1 + Z.of_nat i) mod umax 64 + 1.

Lemma candidate_start start : 1 <= start <= umax 64 → candidate_at start 0 = start.
Proof. intros Hs. unfold candidate_at. rewrite Z.mod_small by lia. lia. Qed.

Lemma candidate_bounds start i : 1 <= candidate_at start i <= umax 64.
Proof.
  unfold candidate_at. pose proof (Z.mod_pos_bound (start - 1 + Z.of_nat i) (umax 64) ltac:(by vm_compute)).
  lia.
Qed.

Lemma candidate_next start i : next_candidate (candidate_at start i) = candidate_at start (S i).
Proof.
  unfold candidate_at. replace (start - 1 + Z.of_nat (S i)) with (start - 1 + Z.of_nat i + 1) by lia.
  set (k := start - 1 + Z.of_nat i). rewrite <-(Z.add_mod_idemp_l k 1) by (by vm_compute).
  assert (0 <= k mod umax 64 < umax 64) as Hb by (by apply Z.mod_pos_bound; vm_compute).
  set (r := k mod umax 64) in *. unfold next_candidate, wrap_add.
  destruct (decide (r + 1 = umax 64)) as [He|Hne].
  - rewrite He, Z.mod_same by (by vm_compute). by vm_compute.
  - rewrite (Z.mod_small (r + 1)) by lia.
    rewrite Z.mod_small by (unfold umax in *; lia). lia.
Qed.

Lemma candidate_inj start i j :
  (i < Z.to_nat (umax 64))%nat → (j < Z.to_nat (umax 64))%nat →
  candidate_at start i = candidate_at start j → i = j.
Proof.
  unfold candidate_at. intros Hi Hj He.
  assert (0 < umax 64) as Hpos by (by vm_compute).
  set (k := start - 1) in *. set (n := umax 64) in *. clearbody n.
  assert ((k + Z.of_nat i) mod n = (k + Z.of_nat j) mod n) as Hm by lia.
  pose proof (Z.div_mod (k + Z.of_nat i) n ltac:(lia)) as H1.
  pose proof (Z.div_mod (k + Z.of_nat j) n ltac:(lia)) as H2.
  rewrite Hm in H1.
  set (a := (k + Z.of_nat i) / n) in *. set (b := (k + Z.of_nat j) / n) in *.
  assert (a = b) by nia. subst a. nia.
Qed.

Definition ids_of (owner : ProcessId) (s : t) : list Z :=
  ProcessTimer.id <$> filter (λ x, x.(ProcessTimer.owner) = owner) (occupied s.(timers)).

Lemma locate_Ok owner id s idx : locate_timer owner id s = Ok idx → id ∈ ids_of owner s.
Proof.
  unfold locate_timer. destruct (find_slot _ _) as [i|] eqn:Hf; [|done]. intros _.
  apply find_slot_Some in Hf as (x & Hx & Hk & _). apply (has_key_true ProcessTimer.key) in Hk.
  unfold ProcessTimer.key in Hk. injection Hk as <- <-. unfold ids_of. apply list_elem_of_fmap. exists x.
  rewrite list_elem_of_filter, elem_of_occupied. split_and!; [done|done|].
  by eapply list_elem_of_lookup_2.
Qed.

(** Not every candidate can be taken: there are more of them than slots. *)
Lemma candidate_pigeonhole owner start s :
  (S (length s.(timers)) < Z.to_nat (umax 64))%nat →
  (∀ j, (j < S (length s.(timers)))%nat → candidate_at start j ∈ ids_of owner s) → False.
Proof.
  intros Hcap Hall. set (n := length s.(timers)) in *.
  assert (NoDup (candidate_at start <$> seq 0 (S n))) as Hnd.
  { apply NoDup_fmap_2_strong; [|apply NoDup_seq].
    intros i j Hi%elem_of_seq Hj%elem_of_seq. apply candidate_inj; lia. }
  assert ((candidate_at start <$> seq 0 (S n)) ⊆+ ids_of owner s) as Hsub.
  { apply NoDup_submseteq; [done|]. intros z (j & -> & Hj%elem_of_seq)%list_elem_of_fmap.
    apply Hall. lia. }
  apply submseteq_length in Hsub. unfold ids_of in Hsub.
  rewrite !length_fmap, length_seq in Hsub.
  pose proof (length_filter (λ x, x.(ProcessTimer.owner) = owner) (occupied s.(timers))).
  pose proof (length_occupied_le s.(timers)). unfold n in *. lia.
Qed.

Lemma allocate_loop_fresh fuel owner start s i :
  1 <= start <= umax 64 →
  (S (length s.(timers)) < Z.to_nat (umax 64))%nat →
  (i + fuel = S (length s.(timers)))%nat →
  (∀ j, (j < i)%nat → candidate_at start j ∈ ids_of owner s) →
  ∃ id, allocate_loop fuel owner start (candidate_at start i) s =
          Some (id, set_next_timer_id (next_candidate id) s) ∧
        locate_timer owner id s = Err TimerError.InvalidTimer ∧ 1 <= id <= umax 64.
Proof.
  intros Hstart Hcap. revert i. induction fuel as [|fuel IH]; intros i Hi Hall.
  { exfalso. eapply candidate_pigeonhole; [done|]. intros j Hj. apply Hall. lia. }
  cbn [allocate_loop].
  destruct (locate_timer owner (candidate_at start i) s) as [idx|[]] eqn:Hloc.
  - rewrite candidate_next. rewrite decide_False.
    + apply IH; [lia|]. intros j Hj. destruct (decide (j = i)) as [->|]; [by eapply locate_Ok|].
      apply Hall. lia.
    + intros He. rewrite <-(candidate_start start) in He at 2 by done.
      apply candidate_inj in He; lia.
  - unfold locate_timer in Hloc. by destruct (find_slot _ _).
  - eexists. split_and!; [done|done| |]; apply candidate_bounds.
Qed.

Lemma allocate_fresh owner s :
  wf s → (S (length s.(timers)) < Z.to_nat (umax 64))%nat →
  ∃ id, allocate_timer_id owner s = Some (id, set_next_timer_id (next_candidate id) s) ∧
        locate_timer owner id s = Err TimerError.InvalidTimer ∧ 1 <= id <= umax 64.
Proof.
  intros W Hcap. unfold allocate_timer_id. cbn zeta. set (start := Z.max _ _).
  assert (1 <= start <= umax 64) as Hs.
  { pose proof (wf_next _ W). subst start. assert (1 <= umax 64) by (by vm_compute). lia. }
  destruct (allocate_loop_fresh (S (length s.(timers))) owner start s 0) as (id & Hl & Hid);
    [done|done|lia|intros; lia|].
  rewrite candidate_start in Hl by done. by exists id.
Qed.

Lemma locate_get owner id s :
  locate_timer owner id s = Err TimerError.InvalidTimer ↔
  slot_get ProcessTimer.key (owner, id) s.(timers) = None.
Proof.
  unfold locate_timer, slot_get. rewrite <-find_slot_None. by destruct (find_slot _ _).
Qed.

Lemma timer_get owner id s :
  timer owner id s = ok_or (slot_get ProcessTimer.key (owner, id) s.(timers)) TimerError.InvalidTimer.
Proof.
  unfold timer, locate_timer, slot_get.
  pose proof (find_slot_find (has_key ProcessTimer.key (owner, id)) s.(timers)) as H.
  destruct (find_slot _ _) as [i|]; cbn; [|by rewrite H].
  destruct H as (x & -> & ->). done.
Qed.

Lemma next_candidate_bounds c : 0 <= next_candidate c <= umax 64.
Proof.
  unfold next_candidate, wrap_add, umax. pose proof (Z.mod_pos_bound (c + 1) (2 ^ 64) ltac:(lia)). lia.
Qed.

(** Creating a timer always returns, and the id it returns is new.  The search
    for an id terminates within one step per table slot plus one; on success the
    owner had no timer with that id, afterwards [timer] finds it, disarmed, every
    other timer is what it was and ids stay unique; it fails, changing nothing,
    exactly when the table is full. *)
Theorem create_timer_fresh owner s :
  wf s → (S (length s.(timers)) < Z.to_nat (umax 64))%nat →
  ∃ r s', create_timer owner s = Some (r, s') ∧ wf s' ∧
  match r with
  | Ok id =>
      1 <= id ∧ timer owner id s = Err TimerError.InvalidTimer ∧
      (∀ o i, timer o i s' = if decide ((owner, id) = (o, i))
                             then Ok (ProcessTimer.mk owner id false 0 0) else timer o i s)
  | Err e => e = TimerError.Full ∧ s' = s ∧ free_slot s.(timers) = None
  end.
Proof.
  intros W Hcap. unfold create_timer. destruct (free_slot s.(timers)) as [idx|] eqn:Hfree.
  2:{ eexists (Err _), s. split_and!; done. }
  destruct (allocate_fresh owner s W Hcap) as (id & -> & Hloc & Hid).
  apply locate_get in Hloc. eexists (Ok id), _. split; [done|]. split.
  { split; cbn; [|apply next_candidate_bounds].
    apply uniq_insert; [apply (wf_uniq _ W)|done|done]. }
  split_and!; [lia|by rewrite timer_get, Hloc|]. intros o i. rewrite !timer_get.
  cbn [set_timers set_next_timer_id timers]. rewrite slot_get_insert by done.
  change (ProcessTimer.key _) with (owner, id). by destruct (decide ((owner, id) = (o, i))).
Qed.

(** ** Firing what is due *)
Section firing.
  Context {T : Type} (p : T → bool) (f : T → option T).

(** every entry [p] holds of replaced by what [f] makes of it *)
Definition fire_all (l : list (option T)) : list (option T) :=
  (λ o, match o with Some x => if p x then f x else Some x | None => None end) <$> l.

Lemma fire_all_idle l : (∀ x, Some x ∈ l → p x = false) → fire_all l = l.
Proof.
  induction l as [|[x|] l IH]; intros H; cbn; [done| |]; fold (fire_all l);
    rewrite ?H by constructor; f_equal; apply IH; intros y Hy; apply H; by constructor.
Qed.

Lemma filter_idle l :
  (∀ x, Some x ∈ l → p x = false) → filter (λ x, p x = true) (occupied l) = [].
Proof.
  induction l as [|[x|] l IH]; intros H; cbn [occupied]; [done| |].
  - rewrite filter_cons_False by (by rewrite H by constructor).
    apply IH. intros y Hy. apply H. by constructor.
  - apply IH. intros y Hy. apply H. by constructor.
Qed.

Context {A : Type} (get : t → list (option T)) (set : list (option T) → t → t) (out : T → A)
  (ok : T → Prop) (expire : t → option A * t).
Hypothesis get_set : ∀ v s, get (set v s) = v.
Hypothesis set_set : ∀ v w s, set v (set w s) = set v s.
Hypothesis set_get : ∀ s, set (get s) s = s.
Hypothesis expire_eq : ∀ s, expire s =
  match find_slot p (get s) with
  | Some idx => match get s !! idx with
                | Some (Some x) => (Some (out x), set (<[idx:=f x]> (get s)) s)
                | _ => (None, s)
                end
  | None => (None, s)
  end.
(** a fired entry is not due any more *)
Hypothesis settles : ∀ x y, ok x → p x = true → f x = Some y → p y = false ∧ ok y.

Lemma drain_fires fuel s :
  (∀ x, Some x ∈ get s → ok x) →
  (length (filter (λ x, p x = true) (occupied (get s))) < fuel)%nat →
  drain expire fuel s =
    Some (out <$> filter (λ x, p x = true) (occupied (get s)), set (fire_all (get s)) s).
Proof using get_set set_set set_get expire_eq settles.
  revert s. induction fuel as [|fuel IH]; intros s Hok Hfuel; [lia|]. cbn [drain].
  rewrite expire_eq. destruct (find_slot p (get s)) as [i|] eqn:Hfind.
  - apply find_slot_split in Hfind as (x & l1 & l2 & Hl & <- & Hp & Hno).
    assert (ok x) as Hokx by (apply Hok; rewrite Hl; apply elem_of_app; right; constructor).
    assert (∀ y, f x = Some y → p y = false ∧ ok y) as Hy
      by (intros y; exact (settles x y Hokx Hp)).
    rewrite Hl, list_lookup_middle, insert_app_r_alt, Nat.sub_diag by done. cbn [insert list_insert].
    assert (filter (λ x, p x = true) (occupied (l1 ++ f x :: l2)) =
            filter (λ x, p x = true) (occupied l2)) as Hrest.
    { rewrite occupied_app, filter_app, filter_idle by done. cbn [app occupied].
      destruct (f x) as [y|]; cbn [occupied]; [|done].
      rewrite filter_cons_False; [done|]. by rewrite (proj1 (Hy y eq_refl)). }
    assert (filter (λ x, p x = true) (occupied (get s)) =
            x :: filter (λ x, p x = true) (occupied l2)) as Hall.
    { rewrite Hl, occupied_app, filter_app, filter_idle by done. cbn [app occupied].
      by rewrite filter_cons_True. }
    rewrite Hall in Hfuel. cbn [length] in Hfuel.
    rewrite IH; rewrite get_set; [rewrite Hrest| |rewrite Hrest; lia].
    2:{ intros z [Hz|[Hz|Hz]%elem_of_cons]%elem_of_app; [|by apply (Hy z)|];
          apply Hok; rewrite Hl; apply elem_of_app; [by left|right; by constructor]. }
    cbn [mbind option_bind].
    rewrite set_set, <-Hl, Hall, Hl. cbn [fmap list_fmap]. do 3 f_equal.
    unfold fire_all. rewrite !fmap_app. cbn [fmap list_fmap]. rewrite Hp. do 2 f_equal.
    destruct (f x) as [y|]; [|done]. by rewrite (proj1 (Hy y eq_refl)).
  - rewrite find_slot_None, slot_find_None in Hfind.
    by rewrite filter_idle, fire_all_idle, set_get by done.
Qed.

Lemma fire_all_settled l x :
  (∀ x, Some x ∈ l → ok x) → Some x ∈ fire_all l → p x = false.
Proof using settles.
  intros Hok (o & Ho & Hin)%list_elem_of_fmap. destruct o as [y|]; [|done].
  destruct (p y) eqn:Hp; [by eapply (settles y); eauto|]. by injection Ho as ->.
Qed.
End firing.

(** The next deadline is the first one of the period after [now]. *)
Lemma rearm_deadline now x :
  timer_due now x = true → 0 < x.(ProcessTimer.interval_ns) →
  0 <= x.(ProcessTimer.wake_deadline_ns) →
  now + x.(ProcessTimer.interval_ns) <= umax 128 →
  let d := (rearm now x).(ProcessTimer.wake_deadline_ns) in
  now < d <= now + x.(ProcessTimer.interval_ns) ∧
  (d - x.(ProcessTimer.wake_deadline_ns)) mod x.(ProcessTimer.interval_ns) = 0.
Proof.
  intros [_ Hle%bool_decide_eq_true]%andb_true_iff Hi Hd Hmax. unfold rearm.
  set (i := x.(ProcessTimer.interval_ns)) in *. set (d := x.(ProcessTimer.wake_deadline_ns)) in *.
  rewrite decide_True by lia. cbn [ProcessTimer.wake_deadline_ns].
  assert (sat_sub now d = now - d) as -> by (unfold sat_sub; lia).
  pose proof (Z.div_mod (now - d) i ltac:(lia)) as Hdm.
  pose proof (Z.mod_pos_bound (now - d) i ltac:(lia)) as Hb.
  set (q := (now - d) / i) in *. assert (i * (q + 1) = now - d - (now - d) mod i + i) as Hq by lia.
  unfold sat_mul. rewrite Z.min_l by lia. rewrite sat_add_small by lia. split; [lia|].
  replace (d + i * (q + 1) - d) with ((q + 1) * i) by lia. apply Z.mod_mul. lia.
Qed.

Lemma rearm_settles now x :
  now < umax 128 → 0 <= x.(ProcessTimer.wake_deadline_ns) →
  timer_due now x = true → timer_due now (rearm now x) = false.
Proof.
  intros Hnow Hd [Ha Hle%bool_decide_eq_true]%andb_true_iff. unfold rearm, timer_due.
  case_decide as Hi; cbn; [|done]. rewrite Ha. apply bool_decide_eq_false.
  unfold sat_add, sat_mul, sat_sub.
  set (i := x.(ProcessTimer.interval_ns)) in *. set (d := x.(ProcessTimer.wake_deadline_ns)) in *.
  replace (Z.max (now - d) 0) with (now - d) by lia.
  pose proof (Z.div_mod (now - d) i ltac:(lia)) as Hdm.
  pose proof (Z.mod_pos_bound (now - d) i ltac:(lia)) as Hb.
  set (q := (now - d) / i) in *. assert (i * (q + 1) = now - d - (now - d) mod i + i) as Hq by lia.
  rewrite Hq. lia.
Qed.

Definition timers_ok (s : t) : Prop :=
  ∀ x, Some x ∈ s.(timers) → 0 <= x.(ProcessTimer.wake_deadline_ns).

Definition expired_sleep (e : SleepEntry.t) : ExpiredSleep.t :=
  ExpiredSleep.mk e.(SleepEntry.process) e.(SleepEntry.thread).
Definition expired_timer (x : ProcessTimer.t) : ExpiredTimer.t :=
  ExpiredTimer.mk x.(ProcessTimer.owner) x.(ProcessTimer.id).

Lemma drain_sleeps now fuel s :
  (length s.(sleeps) < fuel)%nat →
  drain (expire_sleep now) fuel s =
    Some (expired_sleep <$> filter (λ e, sleep_due now e = true) (occupied s.(sleeps)),
          set_sleeps (clear_where (sleep_due now) s.(sleeps)) s).
Proof.
  intros Hfuel. rewrite (drain_fires (sleep_due now) (λ _, None) sleeps set_sleeps expired_sleep (λ _, True)).
  - do 3 f_equal. induction s.(sleeps) as [|[e|] l IH]; cbn; [done| |];
      fold (fire_all (sleep_due now) (λ _, None) l); by rewrite IH by (cbn in *; lia).
  - done.
  - done.
  - by intros [].
  - intros s'. unfold expire_sleep. destruct (find_slot _ _); [|done]. by destruct (_ !! _) as [[?|]|].
  - done.
  - done.
  - pose proof (length_filter (λ e, sleep_due now e = true) (occupied s.(sleeps))).
    pose proof (length_occupied_le s.(sleeps)). lia.
Qed.

Lemma rearm_ok now x :
  now < umax 128 → 0 <= x.(ProcessTimer.wake_deadline_ns) → timer_due now x = true →
  timer_due now (rearm now x) = false ∧ 0 <= (rearm now x).(ProcessTimer.wake_deadline_ns).
Proof.
  intros Hnow Hd Hdue. split; [by apply rearm_settles|]. unfold rearm.
  apply andb_true_iff in Hdue as [_ Hle%bool_decide_eq_true].
  case_decide as Hi; cbn; [|done]. unfold sat_add, sat_mul, sat_sub.
  assert (0 <= umax 128) by (by vm_compute).
  set (i := x.(ProcessTimer.interval_ns)) in *. set (d := x.(ProcessTimer.wake_deadline_ns)) in *.
  assert (0 <= Z.max (now - d) 0 / i) by (apply Z.div_pos; lia).
  assert (0 <= i * (Z.max (now - d) 0 / i + 1)) by nia. lia.
Qed.

Lemma drain_timers now fuel s :
  now < umax 128 → timers_ok s → (length s.(timers) < fuel)%nat →
  drain (expire_timer now) fuel s =
    Some (expired_timer <$> filter (λ x, timer_due now x = true) (occupied s.(timers)),
          set_timers (fire_all (timer_due now) (λ x, Some (rearm now x)) s.(timers)) s).
Proof.
  intros Hnow Hok Hfuel.
  apply (drain_fires (timer_due now) (λ x, Some (rearm now x)) timers set_timers expired_timer
           (λ x, 0 <= x.(ProcessTimer.wake_deadline_ns))).
  - done.
  - done.
  - by intros [].
  - intros s'. unfold expire_timer. destruct (find_slot _ _); [|done]. by destruct (_ !! _) as [[?|]|].
  - intros x y Hx Hp [= <-]. by apply rearm_ok.
  - apply Hok.
  - pose proof (length_filter (λ x, timer_due now x = true) (occupied s.(timers))).
    pose proof (length_occupied_le s.(timers)). lia.
Qed.

(** The timeout loop terminates and fires exactly what is due.  At any time
    before the end of the u128 clock, with one more round than there are slots, it
    reports every due sleep and every due timer exactly once, in slot order, and
    nothing else; due sleeps are removed, due timers rearmed, all other entries
    kept, and afterwards nothing is due. *)
Theorem timeouts_fire_once now fuel s :
  now < umax 128 → timers_ok s →
  (length s.(sleeps) < fuel)%nat → (length s.(timers) < fuel)%nat →
  ∃ s', wake_expired_timeouts now fuel s =
    Some (expired_sleep <$> filter (λ e, sleep_due now e = true) (occupied s.(sleeps)),
          expired_timer <$> filter (λ x, timer_due now x = true) (occupied s.(timers)), s') ∧
    s'.(sleeps) = clear_where (sleep_due now) s.(sleeps) ∧
    (∀ i, s'.(timers) !! i = (λ o, x ← o; Some (if timer_due now x then rearm now x else x)) <$> s.(timers) !! i) ∧
    (∀ x, Some x ∈ s'.(timers) → timer_due now x = false).
Proof.
  intros Hnow Hok Hsf Htf. unfold wake_expired_timeouts. rewrite drain_sleeps by done.
  cbn [mbind option_bind]. rewrite drain_timers by done. cbn [mbind option_bind].
  eexists. split; [done|]. split_and!; [done| |].
  - intros i. cbn. unfold fire_all. rewrite list_lookup_fmap.
    destruct (_ !! i) as [[x|]|]; cbn; [|done|done]. by destruct (timer_due now x).
  - cbn. intros x Hx. eapply (fire_all_settled _ (λ x, Some (rearm now x)) (λ x, 0 <= x.(ProcessTimer.wake_deadline_ns))).
    + intros y z Hy Hp [= <-]. by apply rearm_ok.
    + apply Hok.
    + done.
Qed.

(** A periodic timer keeps its period.  When a due periodic timer fires, its
    next deadline lies after [now], at most one interval away, and a whole number of
    intervals after the old one: missed periods are skipped, never fired late in a
    burst, and the phase does not drift. *)
Theorem periodic_timer_keeps_phase now s idx x :
  find_slot (timer_due now) s.(timers) = Some idx → s.(timers) !! idx = Some (Some x) →
  0 < x.(ProcessTimer.interval_ns) → 0 <= x.(ProcessTimer.wake_deadline_ns) →
  now + x.(ProcessTimer.interval_ns) <= umax 128 →
  ∃ y, expire_timer now s = (Some (expired_timer x), set_timers (<[idx:=Some y]> s.(timers)) s) ∧
    y.(ProcessTimer.owner) = x.(ProcessTimer.owner) ∧ y.(ProcessTimer.id) = x.(ProcessTimer.id) ∧
    y.(ProcessTimer.armed) = true ∧ y.(ProcessTimer.interval_ns) = x.(ProcessTimer.interval_ns) ∧
    now < y.(ProcessTimer.wake_deadline_ns) <= now + x.(ProcessTimer.interval_ns) ∧
    (y.(ProcessTimer.wake_deadline_ns) - x.(ProcessTimer.wake_deadline_ns))
      mod x.(ProcessTimer.interval_ns) = 0.
Proof.
  intros Hf Hx Hi Hd Hmax. apply find_slot_Some in Hf as Hf'. destruct Hf' as (x' & Hx' & Hdue & _).
  assert (x' = x) as -> by congruence. exists (rearm now x).
  destruct (rearm_deadline now x Hdue Hi Hd Hmax) as [Hb Hm].
  split; [unfold expire_timer; by rewrite Hf, Hx|].
  apply andb_true_iff in Hdue as [Ha _].
  assert ((rearm now x).(ProcessTimer.owner) = x.(ProcessTimer.owner) ∧
          (rearm now x).(ProcessTimer.id) = x.(ProcessTimer.id) ∧
          (rearm now x).(ProcessTimer.armed) = true ∧
          (rearm now x).(ProcessTimer.interval_ns) = x.(ProcessTimer.interval_ns)) as (?&?&?&?).
  { unfold rearm. rewrite decide_True by lia. done. }
  done.
Qed.

(** ** A manager in use *)
Definition demo : t :=
  let s := (add_sleep 7 None 40 (new 2 3)).2 in
  match create_timer 7 s with
  | Some (Ok id, s) => (set_timer 7 id (Some 100) 30 s).2
  | _ => s
  end.

Lemma demo_timers_wf : wf demo.
Proof.
  split; [|by vm_compute].
  unfold uniq. vm_compute. repeat constructor. by intros ?%elem_of_nil.
Qed.

Lemma create_timer_fresh_witness :
  ∃ r s', create_timer 7 demo = Some (r, s') ∧ wf s'.
Proof.
  destruct (create_timer_fresh 7 demo demo_timers_wf) as (r & s' & Hc & Hw & _).
  { apply Nat2Z.inj_lt. rewrite Z2Nat.id by (vm_compute; discriminate). vm_compute. reflexivity. }
  exists r, s'. split; [exact Hc|exact Hw].
Defined.

Lemma timeouts_fire_once_witness :
  ∃ s', wake_expired_timeouts 170 4 demo =
    Some ([ExpiredSleep.mk 7 None], [ExpiredTimer.mk 7 1], s') ∧
    s'.(sleeps) = [None; None].
Proof.
  destruct (timeouts_fire_once 170 4 demo) as (s' & Hw & Hs & _).
  - vm_compute. reflexivity.
  - intros x Hx. apply elem_of_occupied in Hx. vm_compute in Hx.
    apply list_elem_of_singleton in Hx. subst x. vm_compute. discriminate.
  - vm_compute. lia.
  - vm_compute. lia.
  - exists s'. split; [exact Hw|exact Hs].
Defined.

Lemma periodic_timer_keeps_phase_witness :
  ∃ y, expire_timer 170 demo =
    (Some (ExpiredTimer.mk 7 1), set_timers (<[0%nat:=Some y]> demo.(timers)) demo) ∧
    170 < y.(ProcessTimer.wake_deadline_ns) <= 200.
Proof.
  destruct (periodic_timer_keeps_phase 170 demo 0 (ProcessTimer.mk 7 1 true 100 30))
    as (y & He & _ & _ & _ & _ & Hb & _); try (vm_compute; (reflexivity || discriminate)).
  exists y. split; [exact He|exact Hb].
Defined.
