(* ===== verification/Futex.v ===== *)
(** * Futex wait queues

    Models src/src/kernel/futex.rs: the fixed table of threads that wait on a user
    address.  The theorems show that a thread waits on at most one address, that
    [wake] and [expire] release exactly the waiters they should, and that whoever
    is released is reported to the caller. *)

From stdpp Require Import prelude.
From S2P Require Import Prelude Slots.

Local Open Scope Z_scope.

Abbreviation ThreadId := Z (only parsing).

Module FutexKey.
Record t : Type := mk { owner : Z; address : Z }.
#[global] Instance eq_dec : EqDecision t.
Proof. solve_decision. Defined.
End FutexKey.

Module FutexWaiter.
Record t : Type := mk { key : FutexKey.t; thread : ThreadId; deadline_ns : option Z }.
End FutexWaiter.

Module FutexTableError.
Inductive t : Type := Full.
End FutexTableError.

Module FutexTable.
Record t : Type := mk { waiters : list (option FutexWaiter.t) }.

Definition new (MAX : nat) : t := mk (replicate MAX None).
Definition reset (s : t) : t := new (length s.(waiters)).

(** The scan stops at the thread's own entry; the first free slot it passed is
    used when there is none. *)
Definition enqueue (key : FutexKey.t) (thread : ThreadId) (deadline : option Z) (s : t)
    : result FutexTableError.t unit * t :=
  let waiter := FutexWaiter.mk key thread deadline in
  match find_slot (λ w, bool_decide (w.(FutexWaiter.thread) = thread)) s.(waiters) with
  | Some idx => (Ok tt, mk (<[idx:=Some waiter]> s.(waiters)))
  | None =>
      match free_slot s.(waiters) with
      | Some slot => (Ok tt, mk (<[slot:=Some waiter]> s.(waiters)))
      | None => (Err FutexTableError.Full, s)
      end
  end.

(** [while idx < MAX && count < limit && count < out.len()]: releases the waiters
    [p] holds of and stores their threads in [out] *)
Fixpoint release_loop (p : FutexWaiter.t → bool) (limit : nat)
    (ws : list (option FutexWaiter.t)) (out : list (option ThreadId)) (count : nat)
    : list (option FutexWaiter.t) * list (option ThreadId) * nat :=
  match ws with
  | [] => ([], out, count)
  | o :: ws' =>
      if bool_decide (count < limit)%nat && bool_decide (count < length out)%nat then
        match o with
        | Some w =>
            if p w then
              let '(ws'', out, n) :=
                release_loop p limit ws' (<[count:=Some w.(FutexWaiter.thread)]> out) (S count) in
              (None :: ws'', out, n)
            else
              let '(ws'', out, n) := release_loop p limit ws' out count in (Some w :: ws'', out, n)
        | None => let '(ws'', out, n) := release_loop p limit ws' out count in (None :: ws'', out, n)
        end
      else (ws, out, count)
  end.

Definition waits_on (key : FutexKey.t) (w : FutexWaiter.t) : bool :=
  bool_decide (w.(FutexWaiter.key) = key).

Definition wake (key : FutexKey.t) (limit : nat) (out : list (option ThreadId)) (s : t)
    : nat * list (option ThreadId) * t :=
  if decide (limit = 0%nat ∨ out = []) then (0%nat, out, s)
  else
    let '(ws, out, count) := release_loop (waits_on key) limit s.(waiters) out 0 in
    (count, out, mk ws).

Definition timed_out (now : Z) (w : FutexWaiter.t) : bool :=
  match w.(FutexWaiter.deadline_ns) with
  | Some deadline => bool_decide (deadline <= now)
  | None => false
  end.

Definition expire (now : Z) (out : list (option ThreadId)) (s : t)
    : nat * list (option ThreadId) * t :=
  if decide (out = []) then (0%nat, out, s)
  else
    let '(ws, out, count) := release_loop (timed_out now) (length out) s.(waiters) out 0 in
    (count, out, mk ws).

Definition remove_thread (thread : ThreadId) (s : t) : t :=
  mk (clear_where (λ w, bool_decide (w.(FutexWaiter.thread) = thread)) s.(waiters)).

Definition remove_owner (owner : Z) (s : t) : t :=
  mk (clear_where (λ w, bool_decide (w.(FutexWaiter.key).(FutexKey.owner) = owner)) s.(waiters)).
End FutexTable.
Import FutexTable.

(** ** Releasing waiters *)

(** [woken] are the first waiters of [ws] that satisfy [p]; [ws'] is [ws] without
    them *)
Record released (p : FutexWaiter.t → bool) (ws ws' : list (option FutexWaiter.t))
    (woken : list FutexWaiter.t) : Prop := {
  rel_first : filter (λ w, p w = true) (occupied ws) =
                woken ++ filter (λ w, p w = true) (occupied ws');
  rel_kept : filter (λ w, p w = false) (occupied ws') = filter (λ w, p w = false) (occupied ws);
  rel_place : ∀ i, ws' !! i = ws !! i ∨ ws' !! i = Some None
}.

Lemma released_refl p ws : released p ws ws [].
Proof. split; auto. Qed.

Lemma released_None p ws ws' woken :
  released p ws ws' woken → released p (None :: ws) (None :: ws') woken.
Proof. intros [H1 H2 H3]. split; [done|done|]. intros [|i]; cbn; auto. Qed.

Lemma released_keep p w ws ws' woken :
  p w = false → released p ws ws' woken → released p (Some w :: ws) (Some w :: ws') woken.
Proof.
  intros Hp [H1 H2 H3]. split; cbn [occupied].
  - by rewrite !filter_cons_False by (by rewrite Hp).
  - by rewrite !filter_cons_True, H2 by done.
  - intros [|i]; cbn; auto.
Qed.

Lemma released_wake p w ws ws' woken :
  p w = true → released p ws ws' woken → released p (Some w :: ws) (None :: ws') (w :: woken).
Proof.
  intros Hp [H1 H2 H3]. split; cbn [occupied].
  - by rewrite filter_cons_True, H1 by done.
  - by rewrite (filter_cons_False _ w), H2 by (by rewrite Hp).
  - intros [|i]; cbn; auto.
Qed.

Lemma release_loop_spec p limit ws out count :
  (count ≤ length out)%nat →
  let '(ws', out', n) := release_loop p limit ws out count in
  ∃ woken, released p ws ws' woken ∧ n = (count + length woken)%nat ∧
    length woken = Nat.min (Nat.min limit (length out) - count)
                           (length (filter (λ w, p w = true) (occupied ws))) ∧
    out' = take count out ++ ((λ w, Some w.(FutexWaiter.thread)) <$> woken) ++ drop n out.
Proof.
  revert out count. induction ws as [|o ws IH]; intros out count Hc; cbn [release_loop].
  { exists []. split_and!; [apply released_refl|cbn; lia|cbn; lia|]. cbn. by rewrite take_drop. }
  destruct (bool_decide _ && bool_decide _) eqn:Hgo.
  2:{ exists []. split_and!; [apply released_refl|cbn; lia| |].
      - apply andb_false_iff in Hgo as [?%bool_decide_eq_false|?%bool_decide_eq_false]; cbn; lia.
      - cbn. by rewrite take_drop. }
  apply andb_true_iff in Hgo as [Hlim%bool_decide_eq_true Hlen%bool_decide_eq_true].
  destruct o as [w|]; [destruct (p w) eqn:Hp|].
  - specialize (IH (<[count:=Some w.(FutexWaiter.thread)]> out) (S count)).
    rewrite length_insert in IH. specialize (IH ltac:(lia)).
    destruct (release_loop p limit ws _ (S count)) as [[ws' out'] n].
    destruct IH as (woken & Hrel & -> & Hl & ->). exists (w :: woken). cbn [occupied].
    rewrite filter_cons_True by done. cbn [length]. split_and!; [by apply released_wake|lia|lia|].
    rewrite (take_S_r _ _ (Some w.(FutexWaiter.thread))) by (by apply list_lookup_insert_eq).
    rewrite take_insert_ge, drop_insert_lt by lia. rewrite <-app_assoc. cbn. do 3 f_equal.
  - specialize (IH out count Hc). destruct (release_loop p limit ws out count) as [[ws' out'] n].
    destruct IH as (woken & Hrel & -> & Hl & ->). exists woken. cbn [occupied].
    rewrite filter_cons_False by (by rewrite Hp). by split_and!; [apply released_keep| | |].
  - specialize (IH out count Hc). destruct (release_loop p limit ws out count) as [[ws' out'] n].
    destruct IH as (woken & Hrel & -> & Hl & ->). exists woken.
    by split_and!; [apply released_None| | |].
Qed.

(** A wake releases exactly the right threads.  [wake] releases the first
    waiters on the key, as many as the limit, the caller's buffer and the queue
    allow, keeps every other waiter in its slot, reports each released thread in
    the buffer, in order, and returns their number: no waiter is lost without
    being reported and none is woken twice. *)
Theorem futex_wake_exact key limit out s :
  let '(count, out', s') := wake key limit out s in
  ∃ woken, released (waits_on key) s.(waiters) s'.(waiters) woken ∧
    count = length woken ∧
    count = Nat.min (Nat.min limit (length out))
                    (length (filter (λ w, waits_on key w = true) (occupied s.(waiters)))) ∧
    out' = ((λ w, Some w.(FutexWaiter.thread)) <$> woken) ++ drop count out.
Proof.
  unfold wake. case_decide as Hz.
  - exists []. split_and!; [apply released_refl|done| |done].
    destruct Hz as [->| ->]; cbn; [done|]. by rewrite Nat.min_0_r.
  - pose proof (release_loop_spec (waits_on key) limit s.(waiters) out 0 ltac:(lia)) as H.
    destruct (release_loop _ _ _ _ _) as [[ws' out'] n]. destruct H as (woken & Hrel & -> & Hl & ->).
    exists woken. rewrite Nat.sub_0_r in Hl. by split_and!.
Qed.

(** A timeout scan with room for every waiter releases exactly the waiters whose
    deadline has passed: they are all reported, in slot order, and afterwards no
    waiter of the table is overdue, while waiters without a deadline stay. *)
Theorem futex_expire_complete now out s :
  (length s.(waiters) ≤ length out)%nat →
  let '(count, out', s') := expire now out s in
  let overdue := filter (λ w, timed_out now w = true) (occupied s.(waiters)) in
  count = length overdue ∧
  out' = ((λ w, Some w.(FutexWaiter.thread)) <$> overdue) ++ drop count out ∧
  occupied s'.(waiters) = filter (λ w, timed_out now w = false) (occupied s.(waiters)).
Proof.
  intros Hroom. unfold expire. case_decide as Hz.
  { subst out. cbn in Hroom. apply Nat.le_0_r, nil_length_inv in Hroom. by rewrite Hroom. }
  pose proof (release_loop_spec (timed_out now) (length out) s.(waiters) out 0 ltac:(lia)) as H.
  destruct (release_loop _ _ _ _ _) as [[ws' out'] n]. destruct H as (woken & Hrel & -> & Hl & ->).
  cbn [waiters]. set (overdue := filter _ (occupied s.(waiters))) in *.
  assert (length overdue ≤ length out)%nat.
  { pose proof (length_filter (λ w, timed_out now w = true) (occupied s.(waiters))).
    pose proof (length_occupied_le s.(waiters)). unfold overdue. lia. }
  destruct Hrel as [Hfirst Hkept _]. fold overdue in Hfirst.
  assert (filter (λ w, timed_out now w = true) (occupied ws') = []) as Hnone.
  { apply nil_length_inv. apply (f_equal length) in Hfirst. rewrite length_app in Hfirst. lia. }
  rewrite Hnone, app_nil_r in Hfirst. rewrite <-Hfirst, <-Hkept. split_and!; [done|done|].
  clear -Hnone. induction (occupied ws') as [|w l IH]; [done|].
  rewrite filter_cons in Hnone. destruct (timed_out now w) eqn:Ht.
  - by rewrite decide_True in Hnone.
  - rewrite decide_False in Hnone by done. rewrite filter_cons_True by done. f_equal. by apply IH.
Qed.

(** ** Waiting *)

(** a thread waits at most once *)
Definition wf (s : t) : Prop := uniq FutexWaiter.thread s.(waiters).
Definition waiting (thread : ThreadId) (s : t) : option FutexWaiter.t :=
  slot_get FutexWaiter.thread thread s.(waiters).

(** A thread waits on at most one address.  Enqueueing a thread makes it wait on
    exactly the given key and deadline, replacing an earlier wait of the same
    thread, and leaves every other thread's wait alone; it fails, changing nothing,
    only when the table is full and the thread has no entry. *)
Theorem futex_enqueue_outcome key thread deadline s :
  wf s →
  match enqueue key thread deadline s with
  | (Ok _, s') =>
      wf s' ∧ ∀ th, waiting th s' =
        if decide (thread = th) then Some (FutexWaiter.mk key thread deadline) else waiting th s
  | (Err _, s') => s' = s ∧ waiting thread s = None ∧ free_slot s.(waiters) = None
  end.
Proof.
  intros W. unfold enqueue, waiting, wf in *.
  change (λ w, bool_decide (FutexWaiter.thread w = thread))
    with (has_key FutexWaiter.thread thread).
  destruct (find_slot _ _) as [i|] eqn:Hf.
  - apply find_slot_Some in Hf as Hf'. destruct Hf' as (w & Hw & Hk & _).
    apply (has_key_true FutexWaiter.thread) in Hk. split; cbn.
    + by eapply uniq_set.
    + intros th. by apply slot_get_update.
  - apply find_slot_None in Hf. destruct (free_slot s.(waiters)) as [i|] eqn:Hfree; [|done].
    split; cbn; [by apply uniq_insert|]. intros th. by apply slot_get_insert.
Qed.

(** ** A table in use *)
Definition demo_key : FutexKey.t := FutexKey.mk 1 4096.
Definition demo : t :=
  (enqueue demo_key 11 (Some 50) (enqueue demo_key 10 None (new 3)).2).2.

Lemma futex_enqueue_outcome_witness :
  waiting 12 (enqueue demo_key 12 None demo).2 = Some (FutexWaiter.mk demo_key 12 None).
Proof.
  assert (wf demo) as W.
  { unfold wf, uniq. vm_compute. repeat constructor.
    - by intros ?%list_elem_of_singleton.
    - by intros ?%elem_of_nil. }
  pose proof (futex_enqueue_outcome demo_key 12 None demo W) as H.
  assert ((enqueue demo_key 12 None demo).1 = Ok tt) as He by (vm_compute; reflexivity).
  destruct (enqueue demo_key 12 None demo) as [[u|e] s']; [|discriminate He].
  exact (proj2 H 12).
Defined.

Lemma futex_expire_complete_witness :
  let '(count, _, _) := expire 60 [None; None; None] demo in count = 1%nat.
Proof.
  pose proof (futex_expire_complete 60 [None; None; None] demo ltac:(vm_compute; lia)) as H.
  destruct (expire 60 [None; None; None] demo) as [[count out] s']. exact (proj1 H).
Defined.
