(* ===== verification/ServiceCapability.v ===== *)
(** * Service capabilities

    Models src/crates/mirage-cap/src/lib.rs: the capability tokens the supervisor
    hands to driver services and the set a service checks before a privileged
    operation.  The theorem states exactly when a check succeeds and what each
    refusal means. *)

From stdpp Require Import prelude.
From S2P Require Import Prelude.

Local Open Scope Z_scope.

Module ServiceObject.
Inductive t : Type :=
| PciDevice (id : Z) | MmioRegion (base length : Z) | DmaRegion (id : Z)
| DmaBuffer (base length : Z) | MemoryObject (id : Z) | VramRegion (base length : Z)
| Framebuffer (base length : Z) | IrqLine (line : Z) | IpcEndpoint (id : Z)
| HotplugController (id : Z) | BlockDeviceRegistry | DisplayRegistry.
#[global] Instance eq_dec : EqDecision t.
Proof. solve_decision. Defined.
End ServiceObject.

Module ServiceRight.
Inductive t : Type := Read | Write | Send | Receive | Control | Io.
Definition bit (right : t) : Z :=
  match right with
  | Read => Z.shiftl 1 0 | Write => Z.shiftl 1 1 | Send => Z.shiftl 1 2
  | Receive => Z.shiftl 1 3 | Control => Z.shiftl 1 4 | Io => Z.shiftl 1 5
  end.
End ServiceRight.

(** a rights mask is the u16 inside [CapabilityRights] *)
Module ServiceRights.
Definition empty : Z := 0.
Definition io : Z := Z.lor (ServiceRight.bit ServiceRight.Io) (ServiceRight.bit ServiceRight.Control).
Definition read_write_io : Z :=
  Z.lor (Z.lor (Z.lor (ServiceRight.bit ServiceRight.Read) (ServiceRight.bit ServiceRight.Write))
               (ServiceRight.bit ServiceRight.Control)) (ServiceRight.bit ServiceRight.Io).
Definition ipc : Z :=
  Z.lor (ServiceRight.bit ServiceRight.Send) (ServiceRight.bit ServiceRight.Receive).
Definition with_right (self : Z) (right : ServiceRight.t) : Z := Z.lor self (ServiceRight.bit right).
Definition contains (self : Z) (right : ServiceRight.t) : bool :=
  bool_decide (Z.land self (ServiceRight.bit right) = ServiceRight.bit right).
Definition contains_all (self requested : Z) : bool :=
  bool_decide (Z.land self requested = requested).
End ServiceRights.

Module ServiceCapError.
Inductive t : Type := Missing | InsufficientRights | Revoked.
End ServiceCapError.

Module ServiceCap.
Record t : Type := mk { object : ServiceObject.t; rights : Z; revoked : bool }.
Definition new (object : ServiceObject.t) (rights : Z) : t := mk object rights false.
Definition revoke (c : t) : t := mk c.(object) c.(rights) true.
Definition permits (obj : ServiceObject.t) (requested : Z) (c : t) : result ServiceCapError.t unit :=
  if c.(revoked) then Err ServiceCapError.Revoked
  else if decide (c.(object) ≠ obj) then Err ServiceCapError.Missing
  else if ServiceRights.contains_all c.(rights) requested then Ok tt
  else Err ServiceCapError.InsufficientRights.
End ServiceCap.

Module ServiceCapSet.
Definition t : Type := list ServiceCap.t.
Definition new : t := [].
Definition grant (c : ServiceCap.t) (s : t) : t := s ++ [c].

Fixpoint check_loop (obj : ServiceObject.t) (requested : Z) (s : t) (saw_revoked saw_object : bool)
    : result ServiceCapError.t unit :=
  match s with
  | [] =>
      Err (if saw_revoked then ServiceCapError.Revoked
           else if saw_object then ServiceCapError.InsufficientRights
           else ServiceCapError.Missing)
  | c :: s' =>
      if decide (c.(ServiceCap.object) ≠ obj) then check_loop obj requested s' saw_revoked saw_object
      else
        match ServiceCap.permits obj requested c with
        | Ok _ => Ok tt
        | Err ServiceCapError.Revoked => check_loop obj requested s' true true
        | Err _ => check_loop obj requested s' saw_revoked true
        end
  end.

Definition check (obj : ServiceObject.t) (requested : Z) (s : t) : result ServiceCapError.t unit :=
  check_loop obj requested s false false.
End ServiceCapSet.
Import ServiceCapSet.

Lemma contains_all_bits self requested :
  ServiceRights.contains_all self requested = true ↔
  ∀ i, Z.testbit requested i = true → Z.testbit self i = true.
Proof.
  unfold ServiceRights.contains_all. rewrite bool_decide_eq_true. split.
  - intros H i. rewrite <-H, Z.land_spec. by intros [? _]%andb_true_iff.
  - intros H. apply Z.bits_inj. intros i. rewrite Z.land_spec.
    destruct (Z.testbit requested i) eqn:Hi; [by rewrite H|by rewrite andb_false_r].
Qed.

(** [c] is a live token for [obj] that carries every requested right *)
Definition permitting (obj : ServiceObject.t) (requested : Z) (c : ServiceCap.t) : Prop :=
  c.(ServiceCap.object) = obj ∧ c.(ServiceCap.revoked) = false ∧
  ∀ i, Z.testbit requested i = true → Z.testbit c.(ServiceCap.rights) i = true.

Lemma permits_Ok obj requested c :
  c.(ServiceCap.object) = obj →
  match ServiceCap.permits obj requested c with
  | Ok _ => permitting obj requested c
  | Err e => ¬ permitting obj requested c ∧
             (e = ServiceCapError.Revoked ↔ c.(ServiceCap.revoked) = true)
  end.
Proof.
  intros Ho. unfold ServiceCap.permits, permitting. destruct (ServiceCap.revoked c).
  - split; [by intros (_ & ? & _)|done].
  - rewrite decide_False by (by intros ?).
    destruct (ServiceRights.contains_all _ _) eqn:Hc.
    + split_and!; [done|done|by apply contains_all_bits].
    + split; [|done]. intros (_ & _ & H%contains_all_bits). congruence.
Qed.

(** [c] is a token for [obj]; a revoked one *)
Definition names (obj : ServiceObject.t) (c : ServiceCap.t) : Prop := c.(ServiceCap.object) = obj.
Definition revoked_for (obj : ServiceObject.t) (c : ServiceCap.t) : Prop :=
  names obj c ∧ c.(ServiceCap.revoked) = true.

Lemma check_loop_spec obj requested s sr so :
  let held := Exists (permitting obj requested) s in
  let revoked := sr = true ∨ Exists (revoked_for obj) s in
  let seen := so = true ∨ Exists (names obj) s in
  match check_loop obj requested s sr so with
  | Ok _ => held
  | Err ServiceCapError.Revoked => ¬ held ∧ revoked
  | Err ServiceCapError.InsufficientRights => ¬ held ∧ ¬ revoked ∧ seen
  | Err ServiceCapError.Missing => ¬ held ∧ ¬ revoked ∧ ¬ seen
  end.
Proof.
  revert sr so. induction s as [|c s IH]; intros sr so; cbn [check_loop].
  { pose proof (Exists_nil (permitting obj requested)). pose proof (Exists_nil (revoked_for obj)).
    pose proof (Exists_nil (names obj)). destruct sr, so; cbn; intuition done. }
  cbn zeta in *. pose proof (Exists_cons (permitting obj requested) c s) as Eh.
  pose proof (Exists_cons (revoked_for obj) c s) as Er. pose proof (Exists_cons (names obj) c s) as En.
  case_decide as Ho.
  - specialize (IH sr so).
    assert (¬ permitting obj requested c) by (by intros [? _]).
    assert (¬ revoked_for obj c) by (by intros [? _]).
    assert (¬ names obj c) by done.
    destruct (check_loop _ _ _ _ _) as [u|[]]; tauto.
  - pose proof (permits_Ok obj requested c Ho) as Hc.
    destruct (ServiceCap.permits obj requested c) as [u|e]; [by apply Eh; left|].
    destruct Hc as [Hnp Hrev]. assert (names obj c) as Hn by done.
    assert (revoked_for obj c ↔ e = ServiceCapError.Revoked) as Hr
      by (rewrite Hrev; unfold revoked_for; tauto).
    rewrite Hr in Er. clear Hr Hrev. specialize (IH (match e with ServiceCapError.Revoked => true | _ => sr end) true).
    destruct e; destruct (check_loop _ _ _ _ _) as [u|[]]; intuition congruence.
Qed.

(** A capability check is exact.  It succeeds exactly when the service holds a
    live token for that very object with every requested right; a refusal says
    [Missing] when there is no token for the object at all, [Revoked] when one was
    revoked and no live one suffices, and [InsufficientRights] when all tokens for
    it are live but too weak. *)
Theorem service_check_exact obj requested (s : ServiceCapSet.t) :
  let held := Exists (permitting obj requested) s in
  let revoked := Exists (revoked_for obj) s in
  let seen := Exists (names obj) s in
  (check obj requested s = Ok tt ↔ held) ∧
  (check obj requested s = Err ServiceCapError.Revoked ↔ ¬ held ∧ revoked) ∧
  (check obj requested s = Err ServiceCapError.InsufficientRights ↔ ¬ held ∧ ¬ revoked ∧ seen) ∧
  (check obj requested s = Err ServiceCapError.Missing ↔ ¬ seen).
Proof.
  intros held revoked seen. unfold check. pose proof (check_loop_spec obj requested s false false) as H.
  cbn zeta in H. fold held revoked seen in H.
  assert (held → seen) as Hhs by (intros Hx; eapply Exists_impl; [exact Hx|]; by intros c [? _]).
  assert (revoked → seen) as Hrs by (intros Hx; eapply Exists_impl; [exact Hx|]; by intros c [? _]).
  clearbody held revoked seen.
  destruct (check_loop _ _ _ _ _) as [[]|[]]; intuition congruence.
Qed.
