(* ===== verification/Permissions.v ===== *)
(** * File permissions

    Models src/src/kernel/fs/permissions.rs: Unix permission bits and the check
    against a caller's identity.  An array of groups is a list; the code reads its
    first [supplementary_group_count] entries, a count the constructors keep within
    the array. *)

From stdpp Require Import prelude.
From S2P Require Import Prelude.

Local Open Scope Z_scope.

(** octal 4, 2 and 1 *)
Definition READ : Z := 4.
Definition WRITE : Z := 2.
Definition EXECUTE : Z := 1.
Definition MAX_GROUPS : nat := 16.

Module AccessMode.
Inductive t : Type := Read | Write | Execute | ReadWrite.
End AccessMode.

Module FsCredentials.
Record t : Type := user_with_groups_and_kernel {
  uid : Z; gid : Z;
  supplementary_groups : list Z;
  supplementary_group_count : nat;
  is_kernel : bool
}.
Definition kernel : t := user_with_groups_and_kernel 0 0 (replicate MAX_GROUPS 0) 0 true.
Definition user (uid gid : Z) : t :=
  user_with_groups_and_kernel uid gid (replicate MAX_GROUPS 0) 0 false.
Definition user_with_groups (uid gid : Z) (groups : list Z) (count : nat) : t :=
  user_with_groups_and_kernel uid gid groups count false.
Definition is_member_of (c : t) (g : Z) : bool :=
  bool_decide (c.(gid) = g) ||
  existsb (λ x, bool_decide (x = g)) (take c.(supplementary_group_count) c.(supplementary_groups)).
End FsCredentials.

Module Permissions.
Record t : Type := mk { bits : Z; owner : Z; group : Z }.
(** [bits & 0o777] *)
Definition new (bits owner group : Z) : t := mk (Z.land bits 511) owner group.
Definition read_only : t := new 292 0 0.
Definition read_write : t := new 420 0 0.
Definition executable : t := new 493 0 0.

Definition shift (p : t) (c : FsCredentials.t) : Z :=
  if decide (c.(FsCredentials.uid) = p.(owner)) then 6
  else if FsCredentials.is_member_of c p.(group) then 3
  else 0.

Definition allows (p : t) (c : FsCredentials.t) (mode : AccessMode.t) : bool :=
  if c.(FsCredentials.is_kernel) then true
  else
    let class_bits := Z.land (Z.shiftr p.(bits) (shift p c)) 7 in
    match mode with
    | AccessMode.Read => negb (bool_decide (Z.land class_bits READ = 0))
    | AccessMode.Write => negb (bool_decide (Z.land class_bits WRITE = 0))
    | AccessMode.Execute => negb (bool_decide (Z.land class_bits EXECUTE = 0))
    | AccessMode.ReadWrite => bool_decide (Z.land class_bits (Z.lor READ WRITE) = Z.lor READ WRITE)
    end.
End Permissions.
Import Permissions.

(** ** What is checked *)

(** the permission bits a mode needs, as positions in a class *)
Definition needs (mode : AccessMode.t) : list Z :=
  match mode with
  | AccessMode.Read => [2] | AccessMode.Write => [1] | AccessMode.Execute => [0]
  | AccessMode.ReadWrite => [2; 1]
  end.

Lemma class_bit x k : 0 <= k < 3 → 0 <= x < 8 →
  negb (bool_decide (Z.land x (2 ^ k) = 0)) = Z.testbit x k.
Proof.
  intros Hk Hx. assert (k = 0 ∨ k = 1 ∨ k = 2) as Hk' by lia.
  assert (x ∈ [0; 1; 2; 3; 4; 5; 6; 7]) as Hx'.
  { rewrite !elem_of_cons. lia. }
  destruct Hk' as [-> |[-> | ->]]; repeat (apply elem_of_cons in Hx' as [->|Hx']; [by vm_compute|]);
    by apply elem_of_nil in Hx'.
Qed.

Lemma class_read_write x : 0 <= x < 8 →
  bool_decide (Z.land x (Z.lor READ WRITE) = Z.lor READ WRITE) = Z.testbit x 2 && Z.testbit x 1.
Proof.
  intros Hx. assert (x ∈ [0; 1; 2; 3; 4; 5; 6; 7]) as Hx'.
  { rewrite !elem_of_cons. lia. }
  repeat (apply elem_of_cons in Hx' as [->|Hx']; [by vm_compute|]). by apply elem_of_nil in Hx'.
Qed.

Lemma testbit_class b sh k : 0 <= sh → 0 <= k < 3 →
  Z.testbit (Z.land (Z.shiftr b sh) 7) k = Z.testbit b (sh + k).
Proof.
  intros Hs Hk. rewrite Z.land_spec, Z.shiftr_spec by lia.
  assert (Z.testbit 7 k = true) as ->.
  { assert (k = 0 ∨ k = 1 ∨ k = 2) as [-> |[-> | ->]] by lia; done. }
  rewrite andb_true_r. f_equal. lia.
Qed.

(** Exactly one permission class decides.  An access by the kernel is always
    allowed.  Any other is allowed exactly when every bit its mode needs is set in
    one class of the mode word: the owner's if the caller owns the object, otherwise
    the group's if the caller is in the group, otherwise everyone's; a more generous
    other class never helps. *)
Theorem permission_class_exact p c mode :
  allows p c mode = true ↔
  c.(FsCredentials.is_kernel) = true ∨
  ∀ k, k ∈ needs mode → Z.testbit p.(bits) (shift p c + k) = true.
Proof.
  unfold allows. destruct (FsCredentials.is_kernel c); [by split; auto|].
  assert (0 <= shift p c) as Hsh.
  { unfold shift. repeat case_match; lia. }
  set (x := Z.land (Z.shiftr (bits p) (shift p c)) 7).
  assert (0 <= x < 8) as Hx.
  { subst x. change 7 with (Z.ones 3). rewrite Z.land_ones by lia. by apply Z.mod_pos_bound. }
  assert (∀ k, 0 <= k < 3 → Z.testbit x k = Z.testbit (bits p) (shift p c + k)) as Hbit
    by (intros k Hk; by apply testbit_class).
  assert (∀ P : Prop, (false = true ∨ P) ↔ P) as Hf by (intros P; split; [by intros [?|?]|by right]).
  rewrite Hf, <-(Forall_forall (λ k, Z.testbit (bits p) (shift p c + k) = true)).
  destruct mode; cbn [needs]; rewrite !Forall_cons, Forall_nil.
  - change READ with (2 ^ 2). rewrite class_bit, Hbit by lia. tauto.
  - change WRITE with (2 ^ 1). rewrite class_bit, Hbit by lia. tauto.
  - change EXECUTE with (2 ^ 0). rewrite class_bit, Hbit by lia. tauto.
  - rewrite class_read_write, !Hbit, andb_true_iff by lia. tauto.
Qed.
