(* ===== verification/Vfs.v ===== *)
(** * Paths, inode metadata and filesystem errors

    Models src/src/kernel/fs/path.rs, the data types of fs/inode.rs and the error
    type of fs/vfs.rs with its errno values, which the filesystems, the mount table
    and the system call layer share.  A [&str] is the list of its bytes and is valid
    UTF-8, as Rust guarantees; [utf8_valid] is [core::str::from_utf8]'s test.

    [components] is the iterator run to its end.  The theorems identify it with the
    non-empty pieces between slashes, and bound what a validated path yields. *)

From stdpp Require Import prelude.
From S2P Require Import Prelude Bytes Permissions.

Local Open Scope Z_scope.

(** ** Errors *)
Module PathError.
Inductive t : Type := Empty | TooLong | ComponentTooLong | NotAbsolute | InvalidByte.
End PathError.

Module VfsError.
Inductive t : Type :=
  | NoDevice | InvalidSuperblock | UnsupportedFeature | CorruptFilesystem
  | InvalidPath (e : PathError.t) | NameTooLong | NotFound | NotDirectory | IsDirectory
  | AlreadyExists | PermissionDenied | ReadOnly | Io | NoSpace | JournalRequired
  | ChecksumMismatch | InvalidHandle | InvalidArgument | Busy | CrossDevice | TooManyLinks
  | Unsupported | InvalidInput.

Definition linux_errno (e : t) : Z :=
  match e with
  | InvalidPath PathError.TooLong | InvalidPath PathError.ComponentTooLong | NameTooLong => 36
  | NoDevice | InvalidPath PathError.Empty | NotFound => 2
  | InvalidSuperblock | CorruptFilesystem | InvalidPath PathError.NotAbsolute
  | InvalidPath PathError.InvalidByte | InvalidArgument | InvalidInput => 22
  | NotDirectory => 20
  | IsDirectory => 21
  | AlreadyExists => 17
  | PermissionDenied => 13
  | ReadOnly => 30
  | Io => 5
  | NoSpace => 28
  | JournalRequired => 30
  | ChecksumMismatch => 74
  | InvalidHandle => 9
  | Busy => 16
  | CrossDevice => 18
  | TooManyLinks => 31
  | Unsupported | UnsupportedFeature => 95
  end.
End VfsError.

#[export] Instance PathError_eq_dec : EqDecision PathError.t.
Proof. solve_decision. Defined.
#[export] Instance VfsError_eq_dec : EqDecision VfsError.t.
Proof. solve_decision. Defined.

(** ** Strings *)
(** a continuation byte, and a byte in a range *)
Definition between (lo hi b : Z) : bool := (lo <=? b) && (b <=? hi).
Definition cont : Z → bool := between 128 191.

(** [core::str::from_utf8(bytes).is_ok()] *)
Fixpoint utf8_valid (bs : list Z) : bool :=
  match bs with
  | [] => true
  | b0 :: bs1 =>
      if between 0 127 b0 then utf8_valid bs1
      else match bs1 with
      | [] => false
      | b1 :: bs2 =>
          if between 194 223 b0 then cont b1 && utf8_valid bs2
          else match bs2 with
          | [] => false
          | b2 :: bs3 =>
              if between 224 239 b0 then
                (if b0 =? 224 then between 160 191 b1
                 else if b0 =? 237 then between 128 159 b1 else cont b1)
                && cont b2 && utf8_valid bs3
              else match bs3 with
              | [] => false
              | b3 :: bs4 =>
                  between 240 244 b0
                  && (if b0 =? 240 then between 144 191 b1
                      else if b0 =? 244 then between 128 143 b1 else cont b1)
                  && cont b2 && cont b3 && utf8_valid bs4
              end
          end
      end
  end.

(** [core::str::from_utf8(bytes).unwrap_or("")] *)
Definition from_utf8_or_empty (bs : list Z) : list Z := if utf8_valid bs then bs else [].

(** ** Paths *)
Definition MAX_PATH_BYTES : Z := 128.
Definition MAX_COMPONENT_BYTES : Z := 32.
Definition slash : Z := 47.

Fixpoint validate_bytes (component_len : Z) (raw : list Z) : result PathError.t unit :=
  match raw with
  | [] => Ok tt
  | byte :: rest =>
      if byte =? 0 then Err PathError.InvalidByte
      else if byte =? slash then validate_bytes 0 rest
      else if MAX_COMPONENT_BYTES <? component_len + 1 then Err PathError.ComponentTooLong
      else validate_bytes (component_len + 1) rest
  end.

(** A [Path] is its raw bytes. *)
Definition validate (raw : list Z) (require_absolute : bool) : result PathError.t (list Z) :=
  if bool_decide (raw = []) then Err PathError.Empty
  else if MAX_PATH_BYTES <? Z.of_nat (length raw) then Err PathError.TooLong
  else if require_absolute && negb (bool_decide (head raw = Some slash)) then
    Err PathError.NotAbsolute
  else _ ← validate_bytes 0 raw; Ok raw.

Definition path_new (raw : list Z) : result PathError.t (list Z) := validate raw true.
Definition new_unchecked_rooted (raw : list Z) : result PathError.t (list Z) := validate raw false.
Definition is_root (raw : list Z) : bool := bool_decide (raw = [slash]).
Definition is_absolute (raw : list Z) : bool := bool_decide (head raw = Some slash).

(** [while self.remaining.starts_with('/')] *)
Fixpoint skip_slashes (remaining : list Z) : list Z :=
  match remaining with
  | b :: rest => if b =? slash then skip_slashes rest else remaining
  | [] => []
  end.

(** the part before the first slash and the rest from it on, as [find] splits it *)
Fixpoint split_slash (remaining : list Z) : list Z * list Z :=
  match remaining with
  | [] => ([], [])
  | b :: rest =>
      if b =? slash then ([], remaining)
      else let '(c, r) := split_slash rest in (b :: c, r)
  end.

(** [Components::next]: the component and what remains *)
Definition next (remaining : list Z) : option (list Z * list Z) :=
  let remaining := skip_slashes remaining in
  if bool_decide (remaining = []) then None else Some (split_slash remaining).

Fixpoint components_fuel (fuel : nat) (remaining : list Z) : list (list Z) :=
  match fuel with
  | O => []
  | S fuel =>
      match next remaining with
      | None => []
      | Some (component, rest) => component :: components_fuel fuel rest
      end
  end.

(** The components of a path, in order; every step consumes a byte. *)
Definition components (raw : list Z) : list (list Z) := components_fuel (S (length raw)) raw.
Arguments components : simpl never.

(** ** Inodes *)
Definition InodeId_ROOT : Z := 1.

Module InodeKind.
Inductive t : Type := Directory | RegularFile | Symlink | BlockDevice | CharDevice | Fifo | Socket.
End InodeKind.
#[export] Instance InodeKind_eq_dec : EqDecision InodeKind.t.
Proof. solve_decision. Defined.

Record InodeMetadata : Type := with_links {
  im_id : Z; im_kind : InodeKind.t; im_size : Z; im_permissions : Permissions.t; im_links : Z
}.

Record Stat : Type := mk_Stat {
  st_inode : Z; st_kind : InodeKind.t; st_size : Z; st_mode : Z; st_uid : Z; st_gid : Z;
  st_links : Z
}.
Definition from_metadata (m : InodeMetadata) : Stat :=
  mk_Stat m.(im_id) m.(im_kind) m.(im_size) m.(im_permissions).(Permissions.bits)
    m.(im_permissions).(Permissions.owner) m.(im_permissions).(Permissions.group) m.(im_links).

Record DirEntry : Type := mk_DirEntry {
  de_inode : Z; de_kind : InodeKind.t; de_name : list Z; de_name_len : nat
}.
Definition DirEntry_empty : DirEntry := mk_DirEntry 0 InodeKind.RegularFile (replicate 32 0) 0.
Definition DirEntry_new (inode : Z) (kind : InodeKind.t) (name : list Z)
    : result VfsError.t DirEntry :=
  if MAX_COMPONENT_BYTES <? Z.of_nat (length name) then Err VfsError.NameTooLong
  else Ok (mk_DirEntry inode kind (write_at 0 name (replicate 32 0)) (length name)).
Definition DirEntry_name (e : DirEntry) : list Z :=
  from_utf8_or_empty (take e.(de_name_len) e.(de_name)).

(** ** What the iterator yields *)
(** the pieces between slashes *)
Fixpoint pieces (raw : list Z) : list (list Z) :=
  match raw with
  | [] => [[]]
  | b :: rest =>
      if b =? slash then [] :: pieces rest
      else match pieces rest with
           | p :: ps => (b :: p) :: ps
           | [] => [[b]]
           end
  end.
Definition nonempty_pieces (raw : list Z) : list (list Z) := filter (λ p, p ≠ []) (pieces raw).

Definition slash_free (c : list Z) : Prop := slash ∉ c.

Lemma pieces_cons_slash r : nonempty_pieces (slash :: r) = nonempty_pieces r.
Proof. done. Qed.

Lemma pieces_not_nil raw : pieces raw ≠ [].
Proof. destruct raw; cbn; [done|]. by repeat case_match. Qed.

Lemma pieces_app c r : slash_free c → pieces (c ++ slash :: r) = c :: pieces r.
Proof.
  induction c as [|b c IH]; cbn; [done|]. intros Hc.
  apply not_elem_of_cons in Hc as [Hb Hc].
  rewrite (proj2 (Z.eqb_neq b slash)) by congruence. by rewrite IH.
Qed.

Lemma pieces_single c : slash_free c → pieces c = [c].
Proof.
  induction c as [|b c IH]; cbn; [done|]. intros Hc.
  apply not_elem_of_cons in Hc as [Hb Hc].
  rewrite (proj2 (Z.eqb_neq b slash)) by congruence. by rewrite IH.
Qed.

Lemma nonempty_skip raw : nonempty_pieces (skip_slashes raw) = nonempty_pieces raw.
Proof.
  induction raw as [|b r IH]; cbn [skip_slashes]; [done|].
  destruct (Z.eqb_spec b slash) as [->|]; [|done]. by rewrite pieces_cons_slash.
Qed.

Lemma length_skip raw : (length (skip_slashes raw) ≤ length raw)%nat.
Proof. induction raw as [|b r IH]; cbn; [done|]. case_match; cbn; lia. Qed.

Lemma skip_head raw : head (skip_slashes raw) ≠ Some slash.
Proof.
  induction raw as [|b r IH]; cbn; [done|]. destruct (Z.eqb_spec b slash); [done|]. cbn. congruence.
Qed.

(** what [find] splits off *)
Lemma split_slash_spec raw c r : split_slash raw = (c, r) →
  raw = c ++ r ∧ slash_free c ∧ (r = [] ∨ head r = Some slash).
Proof.
  revert c r. induction raw as [|b raw IH]; cbn; intros c r H.
  { injection H as <- <-. split_and!; [done|apply not_elem_of_nil|by left]. }
  destruct (Z.eqb_spec b slash) as [->|Hb].
  { injection H as <- <-. split_and!; [done|apply not_elem_of_nil|by right]. }
  destruct (split_slash raw) as [c' r'] eqn:E. injection H as <- <-.
  destruct (IH _ _ eq_refl) as (-> & Hc & Hr). split_and!; [done| |done].
  apply not_elem_of_cons. split; [congruence|done].
Qed.

Lemma next_spec raw : 
  match next raw with
  | None => nonempty_pieces raw = []
  | Some (c, r) => nonempty_pieces raw = c :: nonempty_pieces r ∧ (length r < length raw)%nat
  end.
Proof.
  unfold next. pose proof (nonempty_skip raw) as Hn. pose proof (length_skip raw) as Hl.
  pose proof (skip_head raw) as Hh. case_bool_decide as He; [by rewrite <-Hn, He|].
  destruct (split_slash (skip_slashes raw)) as [c r] eqn:E.
  destruct (split_slash_spec _ _ _ E) as (Hs & Hc & Hr).
  assert (c ≠ []) as Hne.
  { intros ->. cbn in Hs. rewrite Hs in *. destruct Hr as [->|Hr]; done. }
  assert (0 < length c)%nat by (destruct c; [done|cbn; lia]).
  rewrite Hs, length_app in Hl. split; [|lia]. rewrite <-Hn, Hs. destruct r as [|b r].
  - rewrite app_nil_r. unfold nonempty_pieces. rewrite pieces_single by done. cbn [pieces].
    rewrite filter_cons_True by done. by rewrite !filter_nil, filter_cons_False by (intros []; done).
  - destruct Hr as [|[= ->]]; [done|]. rewrite pieces_cons_slash. unfold nonempty_pieces.
    by rewrite pieces_app, filter_cons_True.
Qed.

(** the iterator yields the non-empty pieces between slashes *)
Lemma components_pieces raw : components raw = nonempty_pieces raw.
Proof.
  unfold components. generalize (Nat.lt_succ_diag_r (length raw)). generalize (S (length raw)).
  intros n. revert raw. induction n as [|n IH]; intros raw Hn; [lia|]. cbn [components_fuel].
  pose proof (next_spec raw) as Hs. destruct (next raw) as [[c r]|]; [|done].
  destruct Hs as [-> Hl]. rewrite IH by lia. done.
Qed.

(** the path that names a list of components *)
Definition join (cs : list (list Z)) : list Z := cs ≫= (λ c, slash :: c).

Lemma pieces_join c cs : slash_free c → Forall slash_free cs →
  pieces (c ++ join cs) = c :: cs.
Proof.
  intros Hc H. revert c Hc. induction H as [|d cs Hd _ IH]; intros c Hc; cbn.
  - by rewrite app_nil_r, pieces_single.
  - rewrite pieces_app by done. f_equal. by apply IH.
Qed.

Lemma pieces_slash_free raw : Forall slash_free (pieces raw).
Proof.
  induction raw as [|b r IH]; cbn; [by repeat constructor; apply not_elem_of_nil|].
  destruct (Z.eqb_spec b slash) as [->|Hb].
  { constructor; [apply not_elem_of_nil|done]. }
  pose proof (pieces_not_nil r) as Hn. destruct (pieces r) as [|p ps]; [done|].
  apply Forall_cons in IH as [Hp Hps]. constructor; [|done].
  apply not_elem_of_cons. split; [congruence|done].
Qed.

Lemma filter_all {A} (P : A → Prop) `{∀ x, Decision (P x)} l : Forall P l → filter P l = l.
Proof. induction 1; [done|]. rewrite filter_cons_True by done. by f_equal. Qed.

Lemma components_join cs :
  Forall (λ c, c ≠ [] ∧ slash_free c) cs → components (join cs) = cs.
Proof.
  intros H. rewrite components_pieces. destruct H as [|c cs [Hc Hf] Hcs]; [done|]. cbn [join mbind list_bind].
  change (nonempty_pieces (slash :: c ++ join cs) = c :: cs).
  rewrite pieces_cons_slash. unfold nonempty_pieces. rewrite pieces_join; [|done|].
  - apply filter_all. constructor; [done|]. eapply Forall_impl; [done|]. by intros ? [].
  - eapply Forall_impl; [done|]. by intros ? [].
Qed.

(** ** UTF-8 across a slash *)
Lemma utf8_valid_app_slash a b :
  utf8_valid (a ++ slash :: b) = true → utf8_valid a = true ∧ utf8_valid b = true.
Proof.
  assert (between 0 127 slash = true) as H1 by done.
  assert (∀ lo hi, 47 < lo → between lo hi slash = false) as H2.
  { intros lo hi ?. unfold between. rewrite (proj2 (Z.leb_gt _ _)); [done|]. unfold slash. lia. }
  assert (cont slash = false) as H3 by done.
  remember (length a) as n eqn:Hn. assert (length a ≤ n)%nat as Hl by lia. clear Hn. revert a Hl.
  induction n as [|n IH]; intros a Hl.
  { destruct a; [|cbn in Hl; lia]. done. }
  destruct a as [|b0 a]; [done|]. cbn [app utf8_valid]. cbn in Hl.
  destruct (between 0 127 b0); [apply IH; lia|].
  destruct a as [|b1 a]; cbn [app].
  { repeat case_match; cbn; rewrite ?andb_true_iff; intros; destruct_and?; congruence. }
  destruct (between 194 223 b0).
  { destruct (cont b1); [|done]. apply IH. cbn in Hl. lia. }
  destruct a as [|b2 a]; cbn [app].
  { rewrite H3. repeat case_match; cbn; rewrite ?andb_false_r; try done. }
  destruct (between 224 239 b0).
  { destruct (if b0 =? 224 then _ else _); [|done]. destruct (cont b2); [|done].
    apply IH. cbn in Hl. lia. }
  destruct a as [|b3 a]; cbn [app].
  { rewrite H3, !andb_false_r. done. }
  destruct (between 240 244 b0); [|done]. destruct (if b0 =? 240 then _ else _); [|done].
  destruct (cont b2); [|done]. destruct (cont b3); [|done]. apply IH. cbn in Hl. lia.
Qed.

Lemma utf8_pieces raw : utf8_valid raw = true → Forall (λ p, utf8_valid p = true) (pieces raw).
Proof.
  assert (∀ n raw, (length raw ≤ n)%nat → utf8_valid raw = true →
    Forall (λ p, utf8_valid p = true) (pieces raw)) as H; [|by apply (H (length raw))].
  clear raw. induction n as [|n IH]; intros raw Hl Hu.
  { destruct raw; [|cbn in Hl; lia]. by repeat constructor. }
  destruct (split_slash raw) as [c r] eqn:E.
  destruct (split_slash_spec _ _ _ E) as (-> & Hc & Hr). destruct r as [|b r].
  - rewrite app_nil_r in *. rewrite pieces_single by done. by repeat constructor.
  - destruct Hr as [|[= ->]]; [done|]. rewrite pieces_app by done.
    apply utf8_valid_app_slash in Hu as [Hu1 Hu2]. constructor; [done|].
    apply IH; [|done]. rewrite length_app in Hl. cbn in Hl. lia.
Qed.

(** ** What validation guarantees *)
Definition short (c : list Z) : Prop := Z.of_nat (length c) <= MAX_COMPONENT_BYTES ∧ 0 ∉ c.

Lemma validate_bytes_pieces raw k : 0 <= k → validate_bytes k raw = Ok tt →
  Forall short (pieces raw) ∧
  (k <= MAX_COMPONENT_BYTES →
   ∀ p ps, pieces raw = p :: ps → k + Z.of_nat (length p) <= MAX_COMPONENT_BYTES).
Proof.
  revert k. induction raw as [|b r IH]; intros k Hk; cbn -[Z.of_nat].
  { intros _. split.
    - repeat constructor; [cbn; done|apply not_elem_of_nil].
    - intros ? p ps [= <- <-]. cbn. lia. }
  destruct (Z.eqb_spec b 0) as [->|H0]; [done|].
  destruct (Z.eqb_spec b slash) as [->|Hb].
  { intros H. apply IH in H as [H1 H2]; [|done]. split.
    - constructor; [|done]. split; [cbn; done|apply not_elem_of_nil].
    - intros ? p ps [= <- <-]. cbn. lia. }
  destruct (Z.ltb_spec MAX_COMPONENT_BYTES (k + 1)) as [|Hk1]; [done|].
  intros H. apply IH in H as [H1 H2]; [|lia]. pose proof (pieces_not_nil r) as Hn.
  destruct (pieces r) as [|p ps]; [done|]. apply Forall_cons in H1 as [[Hp Hz] Hps].
  specialize (H2 Hk1 _ _ eq_refl). split.
  - constructor; [|done]. split; [cbn [length]; lia|]. apply not_elem_of_cons. by split.
  - intros _ ? ? [= <- <-]. cbn [length]. lia.
Qed.

Lemma validate_ok raw absolute p : validate raw absolute = Ok p →
  p = raw ∧ raw ≠ [] ∧ Z.of_nat (length raw) <= MAX_PATH_BYTES ∧
  (absolute = true → head raw = Some slash) ∧ Forall short (pieces raw).
Proof.
  unfold validate. case_bool_decide as He; [done|].
  destruct (Z.ltb_spec MAX_PATH_BYTES (Z.of_nat (length raw))); [done|].
  destruct (absolute && _) eqn:Ha; [done|].
  destruct (validate_bytes 0 raw) as [[]|] eqn:Ev; cbn; [|done]. intros [= <-].
  apply validate_bytes_pieces in Ev as [Ev _]; [|done]. split_and!; [done..| |done].
  intros ->. apply negb_false_iff, bool_decide_eq_true in Ha. done.
Qed.

Definition component_ok (c : list Z) : Prop :=
  c ≠ [] ∧ slash_free c ∧ short c ∧ utf8_valid c = true.

Lemma components_ok raw absolute p :
  utf8_valid raw = true → validate raw absolute = Ok p → Forall component_ok (components p).
Proof.
  intros Hu (-> & _ & _ & _ & Hs)%validate_ok. rewrite components_pieces. apply Forall_forall.
  intros c [Hne Hc]%list_elem_of_filter.
  pose proof (pieces_slash_free raw) as Hf. pose proof (utf8_pieces _ Hu) as Hv.
  rewrite Forall_forall in Hs, Hf, Hv. split_and!; by auto.
Qed.

(** Reading a path and writing it back.  The components a validated path yields
    are exactly the non-empty pieces of the text between slashes: each is non-empty,
    valid UTF-8, free of slashes and NUL bytes and at most 32 bytes long, and the
    canonical path built from them yields them again. *)
Theorem path_components_roundtrip raw p :
  utf8_valid raw = true → path_new raw = Ok p →
  components p = filter (λ c, c ≠ []) (pieces raw) ∧
  Forall component_ok (components p) ∧
  components (join (components p)) = components p.
Proof.
  intros Hu Hv. pose proof (components_ok _ _ _ Hu Hv) as Hok. split_and!.
  - apply validate_ok in Hv as [-> _]. apply components_pieces.
  - done.
  - apply components_join. eapply Forall_impl; [exact Hok|]. by intros c (? & ? & _).
Qed.

(** "//etc/spider/" *)
Definition sample_path : list Z :=
  [47; 47; 101; 116; 99; 47; 115; 112; 105; 100; 101; 114; 47].
Lemma path_components_roundtrip_witness :
  path_new sample_path = Ok sample_path ∧
  components sample_path = [[101; 116; 99]; [115; 112; 105; 100; 101; 114]] ∧
  components (join (components sample_path)) = components sample_path.
Proof.
  split; [by vm_compute|]. split; [by vm_compute|].
  apply (path_components_roundtrip sample_path sample_path); by vm_compute.
Defined.
