(* ===== verification/BlockDevice.v ===== *)
(** * Block storage devices

    Models the trait [BlockStorageDevice] of src/src/kernel/device.rs as the class
    [BlockStorage], the built-in RAM disk that implements it there
    ([BlockStorageDriver]) and the read-only device over a boot module
    ([BootModuleBlockDevice] of kernel/mod.rs).  Operations take the device by shared
    reference and mutate it behind a lock, so a write returns the new device.

    [BlockStorageLaws] is what a filesystem relies on, for one-sector transfers: a
    successful read returns the sector, a successful write replaces that sector, and
    no operation changes another.  A device may fail any transfer; [Reliable] is the
    class of those that serve every sector in range.  Both drivers satisfy the laws,
    the RAM disk is reliable. *)

From stdpp Require Import prelude.
From S2P Require Import Prelude Bytes.

Local Open Scope Z_scope.

Module DeviceError.
Inductive t : Type := NotFound | RegistryFull | BufferTooSmall | Unsupported | Busy.
End DeviceError.
#[export] Instance DeviceError_eq_dec : EqDecision DeviceError.t.
Proof. solve_decision. Defined.

(** ** The trait *)
Class BlockStorage (D : Type) : Type := {
  sector_size : D → Z;
  sector_count : D → Z;
  (** the outcome and the caller's buffer afterwards *)
  read_sectors : D → Z → list Z → result DeviceError.t Z * list Z;
  write_sectors : D → Z → list Z → result DeviceError.t Z * D;
  flush : D → result DeviceError.t unit * D;
  discard : D → Z → Z → result DeviceError.t unit * D
}.

(** the size of a sector of every device modelled here *)
Definition SECTOR_SIZE : Z := 512.
Definition sector_ok (bs : list Z) : Prop := length bs = 512%nat ∧ bytes_ok bs.

Class BlockStorageLaws (D : Type) `{BlockStorage D} : Type := {
  device_ok : D → Prop;
  sector_at : D → Z → list Z;
  device_geometry : ∀ d, device_ok d → 0 <= sector_count d <= umax 64;
  read_one : ∀ d s buf,
    device_ok d → length buf = 512%nat → 0 <= s → (read_sectors d s buf).1 = Ok SECTOR_SIZE →
    (read_sectors d s buf).2 = sector_at d s ∧ length (sector_at d s) = 512%nat;
  write_one : ∀ d s data,
    device_ok d → length data = 512%nat → 0 <= s → (write_sectors d s data).1 = Ok SECTOR_SIZE →
    sector_at (write_sectors d s data).2 s = data;
  write_other : ∀ d s data s',
    device_ok d → length data = 512%nat → 0 <= s → 0 <= s' → s' ≠ s →
    sector_at (write_sectors d s data).2 s' = sector_at d s';
  write_keeps : ∀ d s data,
    device_ok d → length data = 512%nat → 0 <= s →
    device_ok (write_sectors d s data).2 ∧
    sector_size (write_sectors d s data).2 = sector_size d ∧
    sector_count (write_sectors d s data).2 = sector_count d;
  flush_keeps : ∀ d,
    device_ok d →
    device_ok (flush d).2 ∧ sector_size (flush d).2 = sector_size d ∧
    sector_count (flush d).2 = sector_count d ∧
    ∀ s, 0 <= s → sector_at (flush d).2 s = sector_at d s
}.

(** every sector in range can be read and written, now and after any write *)
Class Reliable (D : Type) `{BlockStorageLaws D} : Prop := {
  reliable_read : ∀ d s buf,
    device_ok d → length buf = 512%nat → 0 <= s < sector_count d →
    (read_sectors d s buf).1 = Ok SECTOR_SIZE;
  reliable_write : ∀ d s data,
    device_ok d → length data = 512%nat → 0 <= s < sector_count d →
    (write_sectors d s data).1 = Ok SECTOR_SIZE;
  reliable_flush : ∀ d, device_ok d → (flush d).1 = Ok tt
}.

(** ** The RAM disk

    A table of sectors; [validate_transfer] is shared by every operation.  The number
    of sectors is the code's constant, kept as a parameter of the operations. *)
Module RamDisk.
Section ram_disk.
Context (SECTOR_COUNT : Z).

Record t : Type := mk { sectors : list (list Z) }.

Definition new : t := mk (replicate (Z.to_nat SECTOR_COUNT) (replicate 512 0)).

Definition validate_transfer (first_sector byte_len : Z) : result DeviceError.t Z :=
  if negb (byte_len mod SECTOR_SIZE =? 0) then Err DeviceError.BufferTooSmall
  else
    let sectors := byte_len / SECTOR_SIZE in
    if umax 64 <? first_sector + sectors then Err DeviceError.Unsupported
    else if (SECTOR_COUNT <? first_sector) || (SECTOR_COUNT <? first_sector + sectors) then
      Err DeviceError.NotFound
    else Ok sectors.

(** [buffer[start..end].copy_from_slice(&state.sectors[sector])] for each sector *)
Fixpoint read_loop (d : t) (first_sector : Z) (idx todo : nat) (buffer : list Z) : list Z :=
  match todo with
  | O => buffer
  | S todo =>
      let sector := default [] (d.(sectors) !! (Z.to_nat first_sector + idx)%nat) in
      read_loop d first_sector (S idx) todo (write_at (idx * 512) sector buffer)
  end.

Fixpoint write_loop (d : t) (first_sector : Z) (idx todo : nat) (data : list Z) : t :=
  match todo with
  | O => d
  | S todo =>
      let sector := (Z.to_nat first_sector + idx)%nat in
      write_loop (mk (<[sector := slice (idx * 512) 512 data]> d.(sectors)))
        first_sector (S idx) todo data
  end.

Fixpoint discard_loop (d : t) (first_sector : Z) (idx todo : nat) : t :=
  match todo with
  | O => d
  | S todo =>
      discard_loop (mk (<[(Z.to_nat first_sector + idx)%nat := replicate 512 0]> d.(sectors)))
        first_sector (S idx) todo
  end.

Definition read_sectors (d : t) (first_sector : Z) (buffer : list Z)
    : result DeviceError.t Z * list Z :=
  match validate_transfer first_sector (Z.of_nat (length buffer)) with
  | Err e => (Err e, buffer)
  | Ok sectors =>
      (Ok (Z.of_nat (length buffer)), read_loop d first_sector 0 (Z.to_nat sectors) buffer)
  end.

Definition write_sectors (d : t) (first_sector : Z) (data : list Z)
    : result DeviceError.t Z * t :=
  match validate_transfer first_sector (Z.of_nat (length data)) with
  | Err e => (Err e, d)
  | Ok sectors =>
      (Ok (Z.of_nat (length data)), write_loop d first_sector 0 (Z.to_nat sectors) data)
  end.

Definition discard (d : t) (first_sector sector_count : Z) : result DeviceError.t unit * t :=
  if umax 64 <? sector_count * SECTOR_SIZE then (Err DeviceError.Unsupported, d)
  else
    match validate_transfer first_sector (sector_count * SECTOR_SIZE) with
    | Err e => (Err e, d)
    | Ok sectors => (Ok tt, discard_loop d first_sector 0 (Z.to_nat sectors))
    end.
End ram_disk.
Arguments read_sectors : simpl never.
Arguments write_sectors : simpl never.
End RamDisk.

(** the driver's own size *)
Definition RAM_SECTOR_COUNT : Z := 160.

(** ** The boot module, a read-only image in memory *)
Module BootModule.
(** [base] is the memory from the module's address on, [None] for a null pointer *)
Record t : Type := mk { base : option (list Z); size : Z }.

Definition new : t := mk None 0.
Definition configure (base : list Z) (size : Z) : t := mk (Some base) size.

Definition read_sectors (d : t) (first_sector : Z) (buffer : list Z)
    : result DeviceError.t Z * list Z :=
  let len := Z.of_nat (length buffer) in
  if negb (len mod SECTOR_SIZE =? 0) then (Err DeviceError.BufferTooSmall, buffer)
  else if umax 64 <? first_sector * SECTOR_SIZE then (Err DeviceError.Unsupported, buffer)
  else
    let start := first_sector * SECTOR_SIZE in
    if umax 64 <? start + len then (Err DeviceError.Unsupported, buffer)
    else
      match d.(base) with
      | None => (Err DeviceError.BufferTooSmall, buffer)
      | Some base =>
          if d.(size) <? start + len then (Err DeviceError.BufferTooSmall, buffer)
          else (Ok len, slice (Z.to_nat start) (length buffer) base)
      end.
End BootModule.

(** ** The drivers keep the contract *)
Definition ram_instance (n : Z) : BlockStorage RamDisk.t := {|
  sector_size := λ _, SECTOR_SIZE;
  sector_count := λ _, n;
  read_sectors := RamDisk.read_sectors n;
  write_sectors := RamDisk.write_sectors n;
  flush := λ d, (Ok tt, d);
  discard := RamDisk.discard n
|}.
#[export] Instance ram_block_storage : BlockStorage RamDisk.t := ram_instance RAM_SECTOR_COUNT.

#[export] Instance boot_module_storage : BlockStorage BootModule.t := {|
  sector_size := λ _, SECTOR_SIZE;
  sector_count := λ d, d.(BootModule.size) / SECTOR_SIZE;
  read_sectors := BootModule.read_sectors;
  write_sectors := λ d _ _, (Err DeviceError.Unsupported, d);
  flush := λ d, (Ok tt, d);
  discard := λ d _ _, (Err DeviceError.Unsupported, d)
|}.

Module RamDiskLaws.
Section laws.
Context (n : Z).

Definition ok (d : RamDisk.t) : Prop :=
  0 <= n <= umax 64 - 1 ∧ length d.(RamDisk.sectors) = Z.to_nat n ∧
  Forall (λ s, length s = 512%nat) d.(RamDisk.sectors).
Definition at_ (d : RamDisk.t) (s : Z) : list Z := default [] (d.(RamDisk.sectors) !! Z.to_nat s).

Lemma new_ok : 0 <= n <= umax 64 - 1 → ok (RamDisk.new n).
Proof.
  intros Hn. split_and!; [lia..|by apply length_replicate|]. apply Forall_replicate, length_replicate.
Qed.

Lemma validate_one s : 0 <= s → 0 <= n <= umax 64 - 1 →
  RamDisk.validate_transfer n s (Z.of_nat 512) =
  if s <? n then Ok 1 else
  if umax 64 <? s + 1 then Err DeviceError.Unsupported else Err DeviceError.NotFound.
Proof.
  intros Hs Hn. unfold RamDisk.validate_transfer.
  change (Z.of_nat 512 mod SECTOR_SIZE =? 0) with true.
  change (Z.of_nat 512 / SECTOR_SIZE) with 1. cbn [negb].
  destruct (Z.ltb_spec s n).
  - rewrite (proj2 (Z.ltb_ge (umax 64) _)), (proj2 (Z.ltb_ge n s)), (proj2 (Z.ltb_ge n (s + 1))) by lia.
    done.
  - destruct (Z.ltb_spec (umax 64) (s + 1)); [done|].
    rewrite (proj2 (Z.ltb_lt n (s + 1))) by lia. by rewrite orb_true_r.
Qed.

Lemma read_one_ram d s buf : ok d → length buf = 512%nat → 0 <= s →
  RamDisk.read_sectors n d s buf =
  if s <? n then (Ok SECTOR_SIZE, at_ d s) else
  if umax 64 <? s + 1 then (Err DeviceError.Unsupported, buf) else (Err DeviceError.NotFound, buf).
Proof.
  intros (Hn & Hl & Hf) Hb Hs. unfold RamDisk.read_sectors. rewrite Hb, validate_one by done.
  destruct (Z.ltb_spec s n); [|by destruct (umax 64 <? s + 1)].
  change (Z.to_nat 1) with 1%nat. cbn [RamDisk.read_loop]. f_equal.
  rewrite Nat.add_0_r, Nat.mul_0_l.
  destruct (lookup_lt_is_Some_2 (RamDisk.sectors d) (Z.to_nat s)) as [x Hx]; [lia|].
  unfold at_. rewrite Hx. cbn [default from_option id]. rewrite Forall_lookup in Hf. specialize (Hf _ _ Hx).
  unfold write_at. cbn [take app]. rewrite drop_ge by lia. by rewrite app_nil_r.
Qed.

Lemma write_one_ram d s data : ok d → length data = 512%nat → 0 <= s →
  RamDisk.write_sectors n d s data =
  if s <? n then (Ok SECTOR_SIZE, RamDisk.mk (<[Z.to_nat s := data]> d.(RamDisk.sectors))) else
  if umax 64 <? s + 1 then (Err DeviceError.Unsupported, d) else (Err DeviceError.NotFound, d).
Proof.
  intros (Hn & Hl & Hf) Hb Hs. unfold RamDisk.write_sectors. rewrite Hb, validate_one by done.
  destruct (Z.ltb_spec s n); [|by destruct (umax 64 <? s + 1)].
  change (Z.to_nat 1) with 1%nat. cbn [RamDisk.write_loop]. rewrite Nat.add_0_r, Nat.mul_0_l.
  by rewrite (slice_all data 512) by done.
Qed.

Lemma at_insert d s data s' : ok d → 0 <= s < n → 0 <= s' →
  at_ (RamDisk.mk (<[Z.to_nat s := data]> d.(RamDisk.sectors))) s' =
  if decide (s' = s) then data else at_ d s'.
Proof.
  intros (Hn & Hl & Hf) Hs Hs'. unfold at_. cbn. case_decide as Hd.
  - subst. rewrite list_lookup_insert_eq by lia. done.
  - by rewrite list_lookup_insert_ne by lia.
Qed.

Lemma ok_insert d s data : ok d → length data = 512%nat →
  ok (RamDisk.mk (<[Z.to_nat s := data]> d.(RamDisk.sectors))).
Proof.
  intros (Hn & Hl & Hf) Hd. split_and!; cbn; [lia..|by rewrite length_insert|].
  by apply Forall_insert.
Qed.
End laws.
End RamDiskLaws.

(** the RAM disk keeps the contract, whatever its size *)
Definition ram_instance_laws (n : Z) : @BlockStorageLaws RamDisk.t (ram_instance n).
Proof.
  refine {| device_ok := RamDiskLaws.ok n : RamDisk.t → Prop; sector_at := RamDiskLaws.at_ |}; cbn.
  - intros d (Hn & _). unfold umax in *. lia.
  - intros d s buf Hd Hb Hs. rewrite RamDiskLaws.read_one_ram by done.
    destruct (Z.ltb_spec s n); [|by destruct (umax 64 <? s + 1)]. cbn. intros _. split; [done|].
    destruct Hd as (? & ? & Hf). unfold RamDiskLaws.at_.
    destruct (lookup_lt_is_Some_2 (RamDisk.sectors d) (Z.to_nat s)) as [x Hx]; [lia|].
    rewrite Hx. rewrite Forall_lookup in Hf. by apply (Hf _ _ Hx).
  - intros d s data Hd Hb Hs. rewrite RamDiskLaws.write_one_ram by done.
    destruct (Z.ltb_spec s n); [|by destruct (umax 64 <? s + 1)]. cbn. intros _.
    rewrite RamDiskLaws.at_insert with (n := n) by (done || lia). by rewrite decide_True.
  - intros d s data s' Hd Hb Hs Hs' Hne. rewrite RamDiskLaws.write_one_ram by done.
    destruct (Z.ltb_spec s n); [|by destruct (umax 64 <? s + 1)]. cbn.
    rewrite RamDiskLaws.at_insert with (n := n) by (done || lia). by rewrite decide_False.
  - intros d s data Hd Hb Hs. rewrite RamDiskLaws.write_one_ram by done.
    destruct (Z.ltb_spec s n); [|by destruct (umax 64 <? s + 1)]. cbn. split_and!; [|done..].
    by apply RamDiskLaws.ok_insert.
  - intros d Hd. by split_and!.
Defined.

#[export] Instance ram_block_storage_laws : BlockStorageLaws RamDisk.t :=
  ram_instance_laws RAM_SECTOR_COUNT.

Lemma ram_instance_reliable n : @Reliable RamDisk.t (ram_instance n) (ram_instance_laws n).
Proof.
  split; cbn.
  - intros d s buf Hd Hb Hs. rewrite RamDiskLaws.read_one_ram by (done || lia).
    by rewrite (proj2 (Z.ltb_lt s n)) by lia.
  - intros d s data Hd Hb Hs. rewrite RamDiskLaws.write_one_ram by (done || lia).
    by rewrite (proj2 (Z.ltb_lt s n)) by lia.
  - done.
Qed.

#[export] Instance ram_block_storage_reliable : Reliable RamDisk.t :=
  ram_instance_reliable RAM_SECTOR_COUNT.

(** the boot module keeps it too: it never changes *)
#[export] Instance boot_module_laws : BlockStorageLaws BootModule.t.
Proof.
  refine {| device_ok := λ d : BootModule.t,
              0 <= d.(BootModule.size) <= umax 64 ∧
              ∀ base, d.(BootModule.base) = Some base → Z.of_nat (length base) = d.(BootModule.size);
            sector_at := λ d s, slice (Z.to_nat (s * SECTOR_SIZE)) 512 (default [] d.(BootModule.base)) |}.
  - intros d [Hs _]. cbn. unfold SECTOR_SIZE. split; [apply Z.div_pos; lia|].
    etrans; [apply Z.div_le_upper_bound|reflexivity]; lia.
  - intros d s buf [Hz Hd] Hb Hs. cbn. unfold BootModule.read_sectors. rewrite Hb.
    change (Z.of_nat 512 mod SECTOR_SIZE =? 0) with true. cbn [negb].
    destruct (umax 64 <? s * SECTOR_SIZE); [done|].
    destruct (umax 64 <? s * SECTOR_SIZE + Z.of_nat 512); [done|].
    destruct (BootModule.base d) as [base|] eqn:Eb; [|done]. specialize (Hd _ eq_refl).
    destruct (Z.ltb_spec (BootModule.size d) (s * SECTOR_SIZE + Z.of_nat 512)); [done|].
    intros _. cbn. split; [done|]. apply length_slice. unfold SECTOR_SIZE in *. lia.
  - done.
  - done.
  - intros d s data Hd _ _. split; [exact Hd|by split].
  - intros d Hd. split; [exact Hd|by split_and!].
Defined.
