(* ===== verification/Process.v ===== *)
(** * Process control blocks

    Models src/src/kernel/process.rs: credentials, the per-process descriptor table,
    exit statuses, signal masks, the queue of pending signals and the process
    control block itself.  The exec requests of that file are in the security
    kernel's model, which is their only reader.  Descriptor flags and description
    ids come from src/src/kernel/fs/file.rs.  Signals are u8, masks u64. *)

From stdpp Require Import prelude.
From S2P Require Import Prelude Slots Subkernel Permissions.

Local Open Scope Z_scope.

Definition MAX_PENDING_SIGNALS : nat := 32.
Definition MAX_SIGNAL_NUMBER : Z := 64.
Definition SIGKILL : Z := 9.
Definition SIGTERM : Z := 15.
Definition SIGCHLD : Z := 17.
Definition MAX_PATH_BYTES : nat := 128.

Module ProcessCredentials.
Record t : Type := mk {
  uid : Z; euid : Z; gid : Z; egid : Z;
  supplementary_groups : list Z;
  supplementary_group_count : nat
}.
Definition new (uid euid gid egid : Z) : t :=
  mk uid euid gid egid (replicate MAX_SUPPLEMENTARY_GROUPS 0) 0.
Definition from_credentials (c : Credentials.t) : t :=
  mk c.(Credentials.uid) c.(Credentials.euid) c.(Credentials.gid) c.(Credentials.egid)
     c.(Credentials.supplementary_groups) (Z.to_nat c.(Credentials.supplementary_group_count)).
Definition set_uid (uid : Z) (c : t) : t :=
  mk uid uid c.(gid) c.(egid) c.(supplementary_groups) c.(supplementary_group_count).
Definition set_gid (gid : Z) (c : t) : t :=
  mk c.(uid) c.(euid) gid gid c.(supplementary_groups) c.(supplementary_group_count).
Definition set_supplementary_groups (groups : list Z) (c : t) : result unit unit * t :=
  if decide (MAX_SUPPLEMENTARY_GROUPS < length groups)%nat then (Err tt, c)
  else
    let next := groups ++ replicate (MAX_SUPPLEMENTARY_GROUPS - length groups) 0 in
    (Ok tt, mk c.(uid) c.(euid) c.(gid) c.(egid) next (length groups)).
End ProcessCredentials.

Module ProcessState.
Inductive t : Type := Ready | Running | Blocked | Zombie | Terminated.
#[global] Instance eq_dec : EqDecision t.
Proof. solve_decision. Defined.
End ProcessState.

Module ChildWaitSelector.
Inductive t : Type := Any | Pid (pid : ProcessId) | ProcessGroup (pgid : Z).
Definition matches (s : t) (pid : ProcessId) (process_group : Z) : bool :=
  match s with
  | Any => true
  | Pid wait_pid => bool_decide (wait_pid = pid)
  | ProcessGroup wait_pgid => bool_decide (wait_pgid = process_group)
  end.
End ChildWaitSelector.

Module ProcessPriority.
Inductive t : Type := Critical | High | Normal | Low.
Definition time_slice (p : t) : Z :=
  match p with Critical => 8 | High => 6 | Normal => 4 | Low => 2 end.
End ProcessPriority.

Module ProcessPath.
Record t : Type := mk { bytes : list Z; len : nat }.
Definition root : t := mk (47 :: replicate (MAX_PATH_BYTES - 1) 0) 1.
End ProcessPath.

(** ** Descriptor tables *)
Module DescriptorFlags.
Definition EMPTY : Z := 0.
Definition CLOSE_ON_EXEC : Z := Z.shiftl 1 0.
Definition contains (self flag : Z) : bool := bool_decide (Z.land self flag = flag).
End DescriptorFlags.

Module FileDescriptor.
Record t : Type := mk { description : Z; flags : Z }.
Definition close_on_exec (d : t) : bool :=
  DescriptorFlags.contains d.(flags) DescriptorFlags.CLOSE_ON_EXEC.
Definition set_flags (flags : Z) (d : t) : t := mk d.(description) flags.
End FileDescriptor.

Module ProcessFileTableError.
Inductive t : Type := Full | InvalidDescriptor.
End ProcessFileTableError.

Module ProcessFileTable.
Record t : Type := mk {
  descriptors : list (option FileDescriptor.t);
  cwd : ProcessPath.t;
  root : ProcessPath.t;
  umask : Permissions.t
}.

(** the initial umask is octal 022 *)
Definition new (MAX : nat) : t :=
  mk (replicate MAX None) ProcessPath.root ProcessPath.root (Permissions.new 18 0 0).

Definition set_descriptors v (s : t) : t := mk v s.(cwd) s.(root) s.(umask).
Definition set_cwd v (s : t) : t := mk s.(descriptors) v s.(root) s.(umask).
Definition set_root v (s : t) : t := mk s.(descriptors) s.(cwd) v s.(umask).
Definition set_umask (umask : Permissions.t) (s : t) : Permissions.t * t :=
  (s.(ProcessFileTable.umask),
   mk s.(descriptors) s.(cwd) s.(root) (Permissions.new (Z.land umask.(Permissions.bits) 511) 0 0)).

(** [while fd < MAX] from [min_fd]: the first free descriptor *)
Fixpoint lowest_free (l : list (option FileDescriptor.t)) (min_fd : nat) : option nat :=
  match l, min_fd with
  | [], _ => None
  | None :: _, O => Some O
  | _ :: l', O => S <$> lowest_free l' O
  | _ :: l', S n => S <$> lowest_free l' n
  end.

Definition open_at_or_above (description flags : Z) (min_fd : nat) (s : t)
    : result ProcessFileTableError.t nat * t :=
  match lowest_free s.(descriptors) min_fd with
  | Some fd =>
      (Ok fd, set_descriptors (<[fd:=Some (FileDescriptor.mk description flags)]> s.(descriptors)) s)
  | None => (Err ProcessFileTableError.Full, s)
  end.

Definition open (description flags : Z) : t → result ProcessFileTableError.t nat * t :=
  open_at_or_above description flags 0.

Definition duplicate_to (fd : nat) (description flags : Z) (s : t)
    : result ProcessFileTableError.t (option FileDescriptor.t) * t :=
  match s.(descriptors) !! fd with
  | Some previous =>
      (Ok previous, set_descriptors (<[fd:=Some (FileDescriptor.mk description flags)]> s.(descriptors)) s)
  | None => (Err ProcessFileTableError.InvalidDescriptor, s)
  end.

Definition get (fd : nat) (s : t) : result ProcessFileTableError.t FileDescriptor.t :=
  ok_or (mjoin (s.(descriptors) !! fd)) ProcessFileTableError.InvalidDescriptor.

(** [get_mut(fd)?.set_flags(flags)] *)
Definition set_flags (fd : nat) (flags : Z) (s : t) : result ProcessFileTableError.t unit * t :=
  match s.(descriptors) !! fd with
  | Some (Some d) =>
      (Ok tt, set_descriptors (<[fd:=Some (FileDescriptor.set_flags flags d)]> s.(descriptors)) s)
  | _ => (Err ProcessFileTableError.InvalidDescriptor, s)
  end.

Definition close (fd : nat) (s : t) : result ProcessFileTableError.t FileDescriptor.t * t :=
  match s.(descriptors) !! fd with
  | Some slot =>
      (ok_or slot ProcessFileTableError.InvalidDescriptor,
       set_descriptors (<[fd:=None]> s.(descriptors)) s)
  | None => (Err ProcessFileTableError.InvalidDescriptor, s)
  end.

(** the closed descriptions, by descriptor *)
Definition close_on_exec (s : t) : list (option Z) * t :=
  ((λ o, d ← o; if FileDescriptor.close_on_exec d then Some d.(FileDescriptor.description) else None)
     <$> s.(descriptors),
   set_descriptors (clear_where FileDescriptor.close_on_exec s.(descriptors)) s).

Definition clear (s : t) : list (option Z) * t :=
  ((λ o, d ← o; Some d.(FileDescriptor.description)) <$> s.(descriptors),
   set_descriptors (clear_where (λ _, true) s.(descriptors)) s).
End ProcessFileTable.

(** ** Exit statuses and signals *)
Module ExitStatus.
(** [(code & 0xff) << 8] *)
Definition exited (code : Z) : Z := Z.shiftl (Z.land code 255) 8.
Definition signaled (signal : Z) : Z := Z.land signal 127.
End ExitStatus.

Module SignalMask.
Definition EMPTY : Z := 0.
Definition valid (signal : Z) : bool := bool_decide (0 < signal) && bool_decide (signal <= MAX_SIGNAL_NUMBER).
Definition contains (bits signal : Z) : bool :=
  valid signal && negb (bool_decide (Z.land bits (Z.shiftl 1 (signal - 1)) = 0)).
Definition insert (signal bits : Z) : Z :=
  if valid signal then Z.lor bits (Z.shiftl 1 (signal - 1)) else bits.
Definition remove (signal bits : Z) : Z :=
  if valid signal then Z.ldiff bits (Z.shiftl 1 (signal - 1)) else bits.
End SignalMask.

Module SignalAction.
Record t : Type := mk { handler : Z; mask : Z; flags : Z }.
Definition DEFAULT : t := mk 0 SignalMask.EMPTY 0.
End SignalAction.

Module SignalQueueError.
Inductive t : Type := InvalidSignal | Full.
End SignalQueueError.

Module PendingSignalQueue.
Definition t : Type := list (option Z).
Definition new : t := replicate MAX_PENDING_SIGNALS None.

Definition push (signal : Z) (q : t) : result SignalQueueError.t unit * t :=
  if decide (signal = 0 ∨ signal > MAX_SIGNAL_NUMBER) then (Err SignalQueueError.InvalidSignal, q)
  else
    match free_slot q with
    | Some idx => (Ok tt, <[idx:=Some signal]> q)
    | None => (Err SignalQueueError.Full, q)
    end.

Definition deliverable (mask signal : Z) : bool :=
  bool_decide (signal = SIGKILL) || negb (SignalMask.contains mask signal).

Definition take_unmasked (mask : Z) (q : t) : option Z * t :=
  match find_slot (deliverable mask) q with
  | Some idx => (mjoin (q !! idx), <[idx:=None]> q)
  | None => (None, q)
  end.

Definition clear (q : t) : t := clear_where (λ _, true) q.
End PendingSignalQueue.

(** ** The control block *)
Module ProcessControlBlock.
Record t : Type := mk {
  pid : ProcessId;
  parent : option ProcessId;
  process_group : Z;
  session : Z;
  state : ProcessState.t;
  priority : ProcessPriority.t;
  entry_point : Z;
  address_space_root : Z;
  cpu_time : Z;
  security_label : SecurityLabel.t;
  credentials : ProcessCredentials.t;
  thread_count : Z;
  exit_status : option Z;
  files : ProcessFileTable.t;
  signal_actions : list SignalAction.t;
  pending_signals : PendingSignalQueue.t;
  child_wait : option ChildWaitSelector.t
}.

Definition new (MAX_FD : nat) (pid : ProcessId) (entry_point : Z) (priority : ProcessPriority.t)
    (parent : option ProcessId) : t :=
  mk pid parent pid (match parent with Some parent_pid => parent_pid | None => pid end)
     ProcessState.Ready priority entry_point 0 0 SecurityLabel.public
     (ProcessCredentials.new 0 0 0 0) 0 None (ProcessFileTable.new MAX_FD)
     (replicate (Z.to_nat MAX_SIGNAL_NUMBER + 1) SignalAction.DEFAULT) PendingSignalQueue.new None.

Definition set_state (v : ProcessState.t) (p : t) : t :=
  mk p.(pid) p.(parent) p.(process_group) p.(session) v p.(priority) p.(entry_point)
     p.(address_space_root) p.(cpu_time) p.(security_label) p.(credentials) p.(thread_count)
     p.(exit_status) p.(files) p.(signal_actions) p.(pending_signals) p.(child_wait).
Definition update_credentials (c : Credentials.t) (p : t) : t :=
  mk p.(pid) p.(parent) p.(process_group) p.(session) p.(state) p.(priority) p.(entry_point)
     p.(address_space_root) p.(cpu_time) c.(Credentials.label) (ProcessCredentials.from_credentials c)
     p.(thread_count) p.(exit_status) p.(files) p.(signal_actions) p.(pending_signals) p.(child_wait).
Definition set_thread_count (v : Z) (p : t) : t :=
  mk p.(pid) p.(parent) p.(process_group) p.(session) p.(state) p.(priority) p.(entry_point)
     p.(address_space_root) p.(cpu_time) p.(security_label) p.(credentials) v
     p.(exit_status) p.(files) p.(signal_actions) p.(pending_signals) p.(child_wait).
Definition increment_thread_count (p : t) : t := set_thread_count (sat_add 16 p.(thread_count) 1) p.
Definition decrement_thread_count (p : t) : t :=
  if decide (p.(thread_count) > 0) then set_thread_count (p.(thread_count) - 1) p else p.
Definition mark_zombie (status : Z) (p : t) : t :=
  mk p.(pid) p.(parent) p.(process_group) p.(session) ProcessState.Zombie p.(priority) p.(entry_point)
     p.(address_space_root) p.(cpu_time) p.(security_label) p.(credentials) p.(thread_count)
     (Some status) p.(files) p.(signal_actions) p.(pending_signals) p.(child_wait).
Definition set_pending v (p : t) : t :=
  mk p.(pid) p.(parent) p.(process_group) p.(session) p.(state) p.(priority) p.(entry_point)
     p.(address_space_root) p.(cpu_time) p.(security_label) p.(credentials) p.(thread_count)
     p.(exit_status) p.(files) p.(signal_actions) v p.(child_wait).
Definition set_exec_image (entry_point address_space_root : Z) (p : t) : t :=
  mk p.(pid) p.(parent) p.(process_group) p.(session) p.(state) p.(priority) entry_point
     address_space_root p.(cpu_time) p.(security_label) p.(credentials) p.(thread_count)
     p.(exit_status) p.(files) p.(signal_actions) (PendingSignalQueue.clear p.(pending_signals))
     p.(child_wait).
Definition update_security_label (label : SecurityLabel.t) (p : t) : t :=
  mk p.(pid) p.(parent) p.(process_group) p.(session) p.(state) p.(priority) p.(entry_point)
     p.(address_space_root) p.(cpu_time) label p.(credentials) p.(thread_count)
     p.(exit_status) p.(files) p.(signal_actions) p.(pending_signals) p.(child_wait).
Definition set_process_group (pgid : Z) (p : t) : t :=
  mk p.(pid) p.(parent) pgid p.(session) p.(state) p.(priority) p.(entry_point)
     p.(address_space_root) p.(cpu_time) p.(security_label) p.(credentials) p.(thread_count)
     p.(exit_status) p.(files) p.(signal_actions) p.(pending_signals) p.(child_wait).
Definition set_session (sid : Z) (p : t) : t :=
  mk p.(pid) p.(parent) p.(process_group) sid p.(state) p.(priority) p.(entry_point)
     p.(address_space_root) p.(cpu_time) p.(security_label) p.(credentials) p.(thread_count)
     p.(exit_status) p.(files) p.(signal_actions) p.(pending_signals) p.(child_wait).
Definition set_child_wait (v : option ChildWaitSelector.t) (p : t) : t :=
  mk p.(pid) p.(parent) p.(process_group) p.(session) p.(state) p.(priority) p.(entry_point)
     p.(address_space_root) p.(cpu_time) p.(security_label) p.(credentials) p.(thread_count)
     p.(exit_status) p.(files) p.(signal_actions) p.(pending_signals) v.
Definition wait_for_child (selector : ChildWaitSelector.t) : t → t := set_child_wait (Some selector).
Definition clear_child_wait : t → t := set_child_wait None.
Definition queue_signal (signal : Z) (p : t) : result SignalQueueError.t unit * t :=
  let '(r, q) := PendingSignalQueue.push signal p.(pending_signals) in (r, set_pending q p).
Definition take_deliverable_signal (mask : Z) (p : t) : option Z * t :=
  let '(r, q) := PendingSignalQueue.take_unmasked mask p.(pending_signals) in (r, set_pending q p).
End ProcessControlBlock.

(** ** Descriptors *)
Section descriptors.
  Import ProcessFileTable.

Lemma lowest_free_Some l min fd :
  lowest_free l min = Some fd →
  (min ≤ fd)%nat ∧ l !! fd = Some None ∧
  ∀ j, (min ≤ j < fd)%nat → ∃ d, l !! j = Some (Some d).
Proof.
  revert min fd. induction l as [|o l IH]; intros min fd; cbn; [by destruct min|].
  assert (∀ n, (S <$> lowest_free l n) = Some fd →
    ∃ f, fd = S f ∧ (n ≤ f)%nat ∧ l !! f = Some None ∧
      ∀ j, (n ≤ j < f)%nat → ∃ d, l !! j = Some (Some d)) as Hstep.
  { intros n (f & Hf & ->)%fmap_Some. exists f. split; [done|by apply IH]. }
  destruct o as [d|], min as [|n].
  - intros (f & -> & _ & Hf & Hj)%Hstep. split_and!; [lia|done|].
    intros [|j] Hlt; [by exists d|]. apply Hj. lia.
  - intros (f & -> & Hn & Hf & Hj)%Hstep. split_and!; [lia|done|].
    intros [|j] Hlt; [lia|]. apply Hj. lia.
  - intros [= <-]. split_and!; [lia|done|lia].
  - intros (f & -> & Hn & Hf & Hj)%Hstep. split_and!; [lia|done|].
    intros [|j] Hlt; [lia|]. apply Hj. lia.
Qed.

Lemma lowest_free_None l min :
  lowest_free l min = None → ∀ j, (min ≤ j < length l)%nat → ∃ d, l !! j = Some (Some d).
Proof.
  revert min. induction l as [|o l IH]; intros min; cbn; [intros _ j Hj; lia|].
  destruct o as [d|], min as [|n]; intros H; rewrite ?fmap_None in H; try done;
    intros [|j] Hj; cbn; try lia; try by exists d.
  - apply (IH 0%nat); [done|lia].
  - apply (IH n); [done|lia].
  - apply (IH n); [done|lia].
Qed.

(** Opening takes the lowest free descriptor.  [open_at_or_above] returns the
    least descriptor from [min_fd] on that was free; it then refers to the given
    description, and every other descriptor is what it was.  It fails, changing
    nothing, exactly when no descriptor from [min_fd] on is free. *)
Theorem open_lowest description flags min_fd s :
  match open_at_or_above description flags min_fd s with
  | (Ok fd, s') =>
      (min_fd ≤ fd)%nat ∧ s.(descriptors) !! fd = Some None ∧
      (∀ j, (min_fd ≤ j < fd)%nat → is_ok (get j s) = true) ∧
      (∀ j, get j s' = if decide (fd = j) then Ok (FileDescriptor.mk description flags) else get j s)
  | (Err e, s') =>
      e = ProcessFileTableError.Full ∧ s' = s ∧
      ∀ j, (min_fd ≤ j < length s.(descriptors))%nat → is_ok (get j s) = true
  end.
Proof.
  unfold open_at_or_above. destruct (lowest_free _ _) as [fd|] eqn:Hfd.
  - apply lowest_free_Some in Hfd as (Hmin & Hfree & Hbusy). split_and!; [done|done| |].
    + intros j (d & Hd)%Hbusy. unfold get. by rewrite Hd.
    + intros j. unfold get. cbn [set_descriptors descriptors]. case_decide as Hj.
      * subst j. by rewrite list_lookup_insert_eq by (by eapply lookup_lt_Some).
      * by rewrite list_lookup_insert_ne.
  - split_and!; [done|done|]. intros j (d & Hd)%(lowest_free_None _ _ Hfd). unfold get. by rewrite Hd.
Qed.

Lemma lookup_clear_where {T} (p : T → bool) l i :
  clear_where p l !! i = (λ o, x ← o; if p x then None else Some x) <$> l !! i.
Proof.
  revert i. induction l as [|[x|] l IH]; intros [|i]; cbn; try done; apply IH.
Qed.

(** Exec closes exactly the flagged descriptors.  [close_on_exec] closes a
    descriptor exactly when it carries the close-on-exec flag, reports the
    description behind each descriptor it closed, in its position, and leaves
    every other descriptor as it was. *)
Theorem close_on_exec_exact s fd :
  let '(closed, s') := close_on_exec s in
  match get fd s with
  | Ok d =>
      if FileDescriptor.close_on_exec d
      then is_ok (get fd s') = false ∧ closed !! fd = Some (Some d.(FileDescriptor.description))
      else get fd s' = Ok d ∧ closed !! fd = Some None
  | Err e => get fd s' = Err e ∧ mjoin (closed !! fd) = None
  end.
Proof.
  unfold close_on_exec, get. cbn [set_descriptors descriptors].
  rewrite lookup_clear_where, list_lookup_fmap.
  destruct (descriptors s !! fd) as [[d|]|]; cbn; [|done|done].
  by destruct (FileDescriptor.close_on_exec d).
Qed.
End descriptors.

(** ** Signals *)
Section signals.
  Import PendingSignalQueue.

Inductive signal_op : Type := Push (signal : Z) | Take (mask : Z).

(** the queue, the accepted signals and the delivered ones *)
Definition signal_step (p : t * list Z * list Z) (o : signal_op) : t * list Z * list Z :=
  let '(q, accepted, delivered) := p in
  match o with
  | Push signal => match push signal q with
                   | (Ok _, q') => (q', signal :: accepted, delivered)
                   | (Err _, q') => (q', accepted, delivered)
                   end
  | Take mask => match take_unmasked mask q with
                 | (Some signal, q') => (q', accepted, signal :: delivered)
                 | (None, q') => (q', accepted, delivered)
                 end
  end.

Lemma take_spec mask q :
  match take_unmasked mask q with
  | (Some signal, q') => deliverable mask signal = true ∧ occupied q ≡ₚ signal :: occupied q'
  | (None, q') => q' = q ∧ ∀ signal, signal ∈ occupied q → deliverable mask signal = false
  end.
Proof.
  unfold take_unmasked. destruct (find_slot _ _) as [i|] eqn:Hf.
  - apply find_slot_remove in Hf as (x & Hx & Hp & Hperm). unfold t in *. by rewrite Hx.
  - split; [done|]. intros x Hx%elem_of_occupied. apply find_slot_None in Hf.
    rewrite slot_find_None in Hf. by apply Hf.
Qed.

Lemma push_spec signal q q' :
  push signal q = (Ok tt, q') → occupied q' ≡ₚ signal :: occupied q.
Proof.
  unfold push. case_decide; [done|]. destruct (free_slot q) as [i|] eqn:Hf; [|done].
  intros [= <-]. by apply occupied_insert_free.
Qed.

(** No signal is lost, duplicated or wrongly delivered.  After any sequence of
    pushes and deliveries the accepted signals are exactly the delivered and the
    still pending ones; a delivery never returns a blocked signal other than
    SIGKILL, and it returns nothing only if every pending signal is blocked and
    SIGKILL is not among them, so SIGKILL cannot be held back. *)
Theorem signals_conserved ops :
  let '(q, accepted, delivered) := foldl signal_step (new, [], []) ops in
  accepted ≡ₚ delivered ++ occupied q ∧
  ∀ mask, match take_unmasked mask q with
          | (Some signal, _) => signal = SIGKILL ∨ SignalMask.contains mask signal = false
          | (None, _) => ∀ signal, signal ∈ occupied q →
              signal ≠ SIGKILL ∧ SignalMask.contains mask signal = true
          end.
Proof.
  assert (∀ p, p.1.2 ≡ₚ p.2 ++ occupied p.1.1 →
    (foldl signal_step p ops).1.2 ≡ₚ (foldl signal_step p ops).2 ++ occupied (foldl signal_step p ops).1.1)
    as Hinv.
  { induction ops as [|o ops IH]; intros p Hp; cbn; [done|]. apply IH.
    destruct p as [[q accepted] delivered]; cbn [fst snd] in Hp. destruct o as [signal|mask]; cbn.
    - destruct (push signal q) as [[[]|e] q'] eqn:Hpush; cbn.
      + apply push_spec in Hpush. rewrite Hp, Hpush. apply Permutation_middle.
      + unfold push in Hpush. case_decide; [by injection Hpush as <- <-|].
        destruct (free_slot q); [done|]. by injection Hpush as <- <-.
    - pose proof (take_spec mask q) as Ht. destruct (take_unmasked mask q) as [[signal|] q']; cbn.
      + destruct Ht as [_ Ht]. rewrite Hp, Ht. symmetry. apply Permutation_middle.
      + destruct Ht as [-> _]. done. }
  specialize (Hinv (new, [], [])). destruct (foldl _ _ ops) as [[q accepted] delivered].
  split; [by apply Hinv|]. intros mask. pose proof (take_spec mask q) as Ht.
  destruct (take_unmasked mask q) as [[signal|] q'].
  - destruct Ht as [[Hk%bool_decide_eq_true|Hm%negb_true_iff]%orb_true_iff _]; auto.
  - destruct Ht as [_ Ht]. intros signal Hs. apply Ht in Hs.
    apply orb_false_iff in Hs as [?%bool_decide_eq_false ?%negb_false_iff]. done.
Qed.

(** The exit status tells how a process ended.  A normal exit keeps the low byte
    of its code and has no signal number; a death by signal keeps the signal
    number; no exit status of one kind is a status of the other. *)
Theorem exit_status_decodes code signal :
  0 < signal <= MAX_SIGNAL_NUMBER →
  Z.land (ExitStatus.exited code) 127 = 0 ∧
  Z.shiftr (ExitStatus.exited code) 8 = code mod 256 ∧
  ExitStatus.signaled signal = signal ∧
  ExitStatus.exited code ≠ ExitStatus.signaled signal.
Proof.
  intros Hs. unfold MAX_SIGNAL_NUMBER in Hs. unfold ExitStatus.exited, ExitStatus.signaled.
  change 255 with (Z.ones 8). change 127 with (Z.ones 7). rewrite !Z.land_ones by lia.
  change (2 ^ 8) with 256. change (2 ^ 7) with 128.
  rewrite Z.shiftl_mul_pow2, Z.shiftr_div_pow2 by lia. change (2 ^ 8) with 256.
  assert (0 <= code mod 256 < 256) as Hb by (by apply Z.mod_pos_bound).
  rewrite (Z.mod_small signal) by lia. rewrite Z.div_mul by lia.
  assert (code mod 256 * 256 mod 128 = 0) as ->.
  { replace (code mod 256 * 256) with (code mod 256 * 2 * 128) by lia. by apply Z.mod_mul. }
  split_and!; try done. lia.
Qed.

Lemma exit_status_decodes_witness :
  ExitStatus.signaled SIGKILL = SIGKILL ∧ ExitStatus.exited 3 ≠ ExitStatus.signaled SIGKILL.
Proof.
  destruct (exit_status_decodes 3 SIGKILL) as (_ & _ & Hs & Hne); [unfold SIGKILL, MAX_SIGNAL_NUMBER; lia|].
  split; [exact Hs|exact Hne].
Defined.
End signals.
