(* ===== verification/ThreadBlock.v ===== *)
(** * Thread control blocks

    Models src/src/kernel/thread.rs: the saved processor state of a thread, the
    frame a thread enters user mode with, system call staging, and the thread
    control block.  Registers are u64. *)

From stdpp Require Import prelude.
From S2P Require Import Prelude Subkernel Process.

Local Open Scope Z_scope.

Abbreviation ThreadId := Z (only parsing).

Definition USER_RFLAGS : Z := 0x202.
Definition KERNEL_RFLAGS : Z := 0x202.
Definition KERNEL_CODE_SELECTOR : Z := 0x08.
Definition KERNEL_DATA_SELECTOR : Z := 0x10.
Definition USER_CODE_SELECTOR : Z := 0x1b.
Definition USER_DATA_SELECTOR : Z := 0x23.
Definition SYSCALL_TRAP_VECTOR : Z := 0x80.
Definition SYSCALL_RETURN_MARKER : Z := 0x5cca11.

Module ThreadState.
Inductive t : Type := Ready | Running | Blocked | Terminated.
#[global] Instance eq_dec : EqDecision t.
Proof. solve_decision. Defined.
End ThreadState.

Module PrivilegeMode.
Inductive t : Type := Kernel | User.
#[global] Instance eq_dec : EqDecision t.
Proof. solve_decision. Defined.
End PrivilegeMode.

Definition is_canonical_user_address (address : Z) : bool :=
  bool_decide (address < 0x0000800000000000).

Module CpuContext.
Record t : Type := mk {
  rax : Z; rbx : Z; rcx : Z; rdx : Z; rsi : Z; rdi : Z;
  rbp : Z; r8 : Z; r9 : Z; r10 : Z; r11 : Z; r12 : Z;
  r13 : Z; r14 : Z; r15 : Z; rip : Z; cs : Z; rflags : Z;
  rsp : Z; ss : Z; fs : Z; gs : Z; fs_base : Z; gs_base : Z;
  trap_vector : Z; error_code : Z;
  privilege_mode : PrivilegeMode.t
}.

Definition new (instruction_pointer stack_pointer : Z) (privilege_mode : PrivilegeMode.t) : t :=
  let '(cs, ss, rflags) :=
    match privilege_mode with
    | PrivilegeMode.Kernel => (KERNEL_CODE_SELECTOR, KERNEL_DATA_SELECTOR, KERNEL_RFLAGS)
    | PrivilegeMode.User => (USER_CODE_SELECTOR, USER_DATA_SELECTOR, USER_RFLAGS)
    end in
  mk 0 0 0 0 0 0 0 0 0 0 0 0 0 0 0 instruction_pointer cs rflags stack_pointer ss
     0 0 0 0 0 0 privilege_mode.

(** [(rflags | 0x202) & !(1 << 8)]: keeps the interrupt flag, clears the trap flag *)
Definition sanitize_user_return_frame (c : t) : option t :=
  if decide (c.(privilege_mode) ≠ PrivilegeMode.User ∨ c.(cs) ≠ USER_CODE_SELECTOR ∨
             c.(ss) ≠ USER_DATA_SELECTOR ∨ is_canonical_user_address c.(rip) = false ∨
             is_canonical_user_address c.(rsp) = false)
  then None
  else Some (
    mk c.(rax) c.(rbx) c.(rcx) c.(rdx) c.(rsi) c.(rdi) c.(rbp) c.(r8) c.(r9) c.(r10) c.(r11)
     c.(r12) c.(r13) c.(r14) c.(r15) c.(rip) c.(cs)
     (Z.ldiff (Z.lor c.(rflags) 0x202) (Z.shiftl 1 8)) c.(rsp) c.(ss) c.(fs) c.(gs) c.(fs_base)
     c.(gs_base) 0 c.(error_code) c.(privilege_mode)).

Definition canonical_user_entry_frame (instruction_pointer stack_pointer : Z) : option t :=
  if negb (is_canonical_user_address instruction_pointer) ||
     negb (is_canonical_user_address stack_pointer)
  then None
  else sanitize_user_return_frame (new instruction_pointer stack_pointer PrivilegeMode.User).

Definition syscall_number (c : t) : Z := c.(rax).
Definition syscall_args (c : t) : list Z := [c.(rdi); c.(rsi); c.(rdx); c.(r10); c.(r8); c.(r9)].

(** the six arguments as separate values *)
Definition stage_syscall_trap (number a0 a1 a2 a3 a4 a5 : Z) (c : t) : t :=
  mk number c.(rbx) c.(rcx) a2 a1 a0 c.(rbp) a4 a5 a3 c.(r11) c.(r12) c.(r13) c.(r14) c.(r15)
     c.(rip) c.(cs) c.(rflags) c.(rsp) c.(ss) c.(fs) c.(gs) c.(fs_base) c.(gs_base)
     SYSCALL_TRAP_VECTOR 0 c.(privilege_mode).

Definition clear_trap (c : t) : t :=
  mk c.(rax) c.(rbx) c.(rcx) c.(rdx) c.(rsi) c.(rdi) c.(rbp) c.(r8) c.(r9) c.(r10) c.(r11)
     c.(r12) c.(r13) c.(r14) c.(r15) c.(rip) c.(cs) c.(rflags) c.(rsp) c.(ss) c.(fs) c.(gs)
     c.(fs_base) c.(gs_base) 0 0 c.(privilege_mode).

Definition write_syscall_result (result : Z) (c : t) : t :=
  mk result c.(rbx) c.(rcx) c.(rdx) c.(rsi) c.(rdi) c.(rbp) c.(r8) c.(r9) c.(r10) c.(r11)
     c.(r12) c.(r13) c.(r14) c.(r15) c.(rip) c.(cs) c.(rflags) c.(rsp) c.(ss) c.(fs) c.(gs)
     c.(fs_base) c.(gs_base) 0 SYSCALL_RETURN_MARKER c.(privilege_mode).

Definition set_fs (base : Z) (c : t) : t :=
  mk c.(rax) c.(rbx) c.(rcx) c.(rdx) c.(rsi) c.(rdi) c.(rbp) c.(r8) c.(r9) c.(r10) c.(r11)
     c.(r12) c.(r13) c.(r14) c.(r15) c.(rip) c.(cs) c.(rflags) c.(rsp) c.(ss) base c.(gs) base
     c.(gs_base) c.(trap_vector) c.(error_code) c.(privilege_mode).

Definition set_gs (base : Z) (c : t) : t :=
  mk c.(rax) c.(rbx) c.(rcx) c.(rdx) c.(rsi) c.(rdi) c.(rbp) c.(r8) c.(r9) c.(r10) c.(r11)
     c.(r12) c.(r13) c.(r14) c.(r15) c.(rip) c.(cs) c.(rflags) c.(rsp) c.(ss) c.(fs) base
     c.(fs_base) base c.(trap_vector) c.(error_code) c.(privilege_mode).

(** [rdi = signal; if handler != 0 { rip = handler }] *)
Definition enter_handler (signal handler : Z) (c : t) : t :=
  mk c.(rax) c.(rbx) c.(rcx) c.(rdx) c.(rsi) signal c.(rbp) c.(r8) c.(r9) c.(r10) c.(r11)
     c.(r12) c.(r13) c.(r14) c.(r15) (if decide (handler ≠ 0) then handler else c.(rip)) c.(cs)
     c.(rflags) c.(rsp) c.(ss) c.(fs) c.(gs) c.(fs_base) c.(gs_base) c.(trap_vector)
     c.(error_code) c.(privilege_mode).
End CpuContext.

Module ThreadControlBlock.
Record t : Type := mk {
  id : ThreadId; process : ProcessId; priority : ProcessPriority.t; state : ThreadState.t;
  entry_point : Z; stack_pointer : Z; context : CpuContext.t; cpu_time : Z;
  signal_mask : Z; active_signal : option Z; thread_group : ProcessId;
  tls_base : Z; fs_base : Z; gs_base : Z;
  shares_address_space : bool; shares_descriptor_table : bool;
  child_wait : option ChildWaitSelector.t
}.

Definition entry_context (entry_point stack_pointer : Z) : CpuContext.t :=
  default (CpuContext.new entry_point stack_pointer PrivilegeMode.User)
    (CpuContext.canonical_user_entry_frame entry_point stack_pointer).

Definition new (id : ThreadId) (process : ProcessId) (entry_point : Z)
    (priority : ProcessPriority.t) (stack_pointer : Z) : t :=
  mk id process priority ThreadState.Ready entry_point stack_pointer
     (entry_context entry_point stack_pointer) 0 SignalMask.EMPTY None process 0 0 0
     false false None.

Definition set_state (v : ThreadState.t) (x : t) : t :=
  mk x.(id) x.(process) x.(priority) v x.(entry_point) x.(stack_pointer) x.(context)
     x.(cpu_time) x.(signal_mask) x.(active_signal) x.(thread_group) x.(tls_base) x.(fs_base)
     x.(gs_base) x.(shares_address_space) x.(shares_descriptor_table) x.(child_wait).
Definition mark_running : t → t := set_state ThreadState.Running.
Definition mark_ready : t → t := set_state ThreadState.Ready.
Definition block : t → t := set_state ThreadState.Blocked.
Definition terminate : t → t := set_state ThreadState.Terminated.
Definition set_context (v : CpuContext.t) (x : t) : t :=
  mk x.(id) x.(process) x.(priority) x.(state) x.(entry_point) x.(stack_pointer) v x.(cpu_time)
     x.(signal_mask) x.(active_signal) x.(thread_group) x.(tls_base) x.(fs_base) x.(gs_base)
     x.(shares_address_space) x.(shares_descriptor_table) x.(child_wait).
Definition prepare_syscall (number a0 a1 a2 a3 a4 a5 : Z) (x : t) : t :=
  set_context (CpuContext.stage_syscall_trap number a0 a1 a2 a3 a4 a5 x.(context)) x.
Definition write_syscall_result (result : Z) (x : t) : t :=
  set_context (CpuContext.write_syscall_result result x.(context)) x.
Definition set_child_wait (v : option ChildWaitSelector.t) (x : t) : t :=
  mk x.(id) x.(process) x.(priority) x.(state) x.(entry_point) x.(stack_pointer) x.(context)
     x.(cpu_time) x.(signal_mask) x.(active_signal) x.(thread_group) x.(tls_base) x.(fs_base)
     x.(gs_base) x.(shares_address_space) x.(shares_descriptor_table) v.
Definition wait_for_child (selector : ChildWaitSelector.t) : t → t := set_child_wait (Some selector).
Definition clear_child_wait : t → t := set_child_wait None.
Definition replace_exec_image (entry_point stack_pointer : Z) (x : t) : t :=
  mk x.(id) x.(process) x.(priority) ThreadState.Ready entry_point stack_pointer
     (entry_context entry_point stack_pointer) x.(cpu_time) x.(signal_mask) None
     x.(thread_group) 0 0 0 x.(shares_address_space) x.(shares_descriptor_table) x.(child_wait).
Definition set_fs_base (base : Z) (x : t) : t :=
  mk x.(id) x.(process) x.(priority) x.(state) x.(entry_point) x.(stack_pointer)
     (CpuContext.set_fs base x.(context)) x.(cpu_time) x.(signal_mask) x.(active_signal)
     x.(thread_group) base base x.(gs_base) x.(shares_address_space) x.(shares_descriptor_table)
     x.(child_wait).
Definition set_gs_base (base : Z) (x : t) : t :=
  mk x.(id) x.(process) x.(priority) x.(state) x.(entry_point) x.(stack_pointer)
     (CpuContext.set_gs base x.(context)) x.(cpu_time) x.(signal_mask) x.(active_signal)
     x.(thread_group) x.(tls_base) x.(fs_base) base x.(shares_address_space)
     x.(shares_descriptor_table) x.(child_wait).
Definition configure_clone_semantics (group : ProcessId) (base : Z)
    (shares_space shares_descriptors : bool) (y : t) : t :=
  let x := set_fs_base base y in
  mk x.(id) x.(process) x.(priority) x.(state) x.(entry_point) x.(stack_pointer) x.(context)
     x.(cpu_time) x.(signal_mask) x.(active_signal) group x.(tls_base) x.(fs_base) x.(gs_base)
     shares_space shares_descriptors x.(child_wait).
Definition set_signal_mask (mask : Z) (x : t) : Z * t :=
  (x.(signal_mask),
   mk x.(id) x.(process) x.(priority) x.(state) x.(entry_point) x.(stack_pointer) x.(context)
     x.(cpu_time) mask x.(active_signal) x.(thread_group) x.(tls_base) x.(fs_base) x.(gs_base)
     x.(shares_address_space) x.(shares_descriptor_table) x.(child_wait)).
Definition deliver_signal (signal handler : Z) (x : t) : t :=
  mk x.(id) x.(process) x.(priority) x.(state) x.(entry_point) x.(stack_pointer)
     (CpuContext.enter_handler signal handler x.(context)) x.(cpu_time) x.(signal_mask)
     (Some signal) x.(thread_group) x.(tls_base) x.(fs_base) x.(gs_base)
     x.(shares_address_space) x.(shares_descriptor_table) x.(child_wait).
Definition finish_signal (x : t) : t :=
  mk x.(id) x.(process) x.(priority) x.(state) x.(entry_point) x.(stack_pointer) x.(context)
     x.(cpu_time) x.(signal_mask) None x.(thread_group) x.(tls_base) x.(fs_base) x.(gs_base)
     x.(shares_address_space) x.(shares_descriptor_table) x.(child_wait).
Definition accumulate_cpu_time (ticks : Z) (x : t) : t :=
  mk x.(id) x.(process) x.(priority) x.(state) x.(entry_point) x.(stack_pointer) x.(context)
     (sat_add 128 x.(cpu_time) ticks) x.(signal_mask) x.(active_signal) x.(thread_group)
     x.(tls_base) x.(fs_base) x.(gs_base) x.(shares_address_space) x.(shares_descriptor_table)
     x.(child_wait).
End ThreadControlBlock.

(** ** Entering user mode *)
Section frames.
  Import CpuContext.

(** a frame the processor can safely resume in user mode: user selectors, addresses
    in the user half, interrupts on and single-stepping off *)
Record user_frame (c : t) : Prop := {
  uf_mode : c.(privilege_mode) = PrivilegeMode.User;
  uf_cs : c.(cs) = USER_CODE_SELECTOR;
  uf_ss : c.(ss) = USER_DATA_SELECTOR;
  uf_rip : is_canonical_user_address c.(rip) = true;
  uf_rsp : is_canonical_user_address c.(rsp) = true;
  uf_interrupts : Z.testbit c.(rflags) 9 = true;
  uf_step : Z.testbit c.(rflags) 8 = false;
  uf_trap : c.(trap_vector) = 0
}.

Lemma sanitized_rflags v :
  Z.testbit (Z.ldiff (Z.lor v 0x202) (Z.shiftl 1 8)) 9 = true ∧
  Z.testbit (Z.ldiff (Z.lor v 0x202) (Z.shiftl 1 8)) 8 = false.
Proof.
  rewrite !Z.ldiff_spec, !Z.lor_spec. split; [|by rewrite andb_false_r].
  by rewrite orb_true_r.
Qed.

Lemma sanitize_spec c c' :
  sanitize_user_return_frame c = Some c' →
  user_frame c' ∧ c'.(rip) = c.(rip) ∧ c'.(rsp) = c.(rsp) ∧ syscall_number c' = syscall_number c ∧
  syscall_args c' = syscall_args c.
Proof.
  unfold sanitize_user_return_frame. case_decide as Hbad; [done|]. intros [= <-].
  destruct (decide (privilege_mode c = PrivilegeMode.User)); [|tauto].
  destruct (decide (cs c = USER_CODE_SELECTOR)); [|tauto].
  destruct (decide (ss c = USER_DATA_SELECTOR)); [|tauto].
  destruct (is_canonical_user_address (rip c)) eqn:?; [|tauto].
  destruct (is_canonical_user_address (rsp c)) eqn:?; [|tauto].
  split; [|done]. destruct (sanitized_rflags (rflags c)). by split.
Qed.

(** User frames are confined.  A frame for entering user mode is built exactly
    when both the entry point and the stack lie in the user half of the address
    space; it resumes there in user mode with user selectors, interrupts enabled and
    single-stepping off, and sanitizing a frame before a return either refuses it or
    yields such a frame with the program's registers unchanged. *)
Theorem user_frames_confined instruction_pointer stack_pointer c :
  (is_Some (canonical_user_entry_frame instruction_pointer stack_pointer) ↔
   is_canonical_user_address instruction_pointer = true ∧
   is_canonical_user_address stack_pointer = true) ∧
  (∀ f, canonical_user_entry_frame instruction_pointer stack_pointer = Some f →
     user_frame f ∧ f.(rip) = instruction_pointer ∧ f.(rsp) = stack_pointer) ∧
  (∀ f, sanitize_user_return_frame c = Some f →
     user_frame f ∧ f.(rip) = c.(rip) ∧ f.(rsp) = c.(rsp) ∧
     syscall_number f = syscall_number c ∧ syscall_args f = syscall_args c).
Proof.
  split_and!.
  - unfold canonical_user_entry_frame.
    destruct (is_canonical_user_address instruction_pointer) eqn:Hi,
      (is_canonical_user_address stack_pointer) eqn:Hs; cbn [negb orb].
    + split; [done|]. intros _. unfold sanitize_user_return_frame. cbn.
      rewrite decide_False; [by eexists|]. rewrite Hi, Hs. intuition congruence.
    + split; [by intros [? ?]|by intros []].
    + split; [by intros [? ?]|by intros []].
    + split; [by intros [? ?]|by intros []].
  - intros f. unfold canonical_user_entry_frame. destruct (_ || _); [done|].
    intros (Hf & Hr & Hsp & _)%sanitize_spec. done.
  - intros f. apply sanitize_spec.
Qed.
End frames.
