(* ===== verification/Abi.v ===== *)
(** * The system call ABI

    Models crates/mirage-abi/src/syscall.rs: system call numbers, the error codes of
    a trap result and their errno values; and, of src/src/kernel, the error type of
    the kernel (mod.rs) with the errors it carries and the encoding of a kernel error
    as a trap result.  The theorems: numbers and codes survive the trip through their
    raw form, and an encoded error can never be taken for a result. *)

From stdpp Require Import prelude.
From S2P Require Import Prelude Vfs BlockDevice Subkernel.

Local Open Scope Z_scope.

(** ** Error codes *)
Definition MIRAGE_SYSCALL_ERROR_BIT : Z := Z.shiftl 1 63.

Abbreviation MIRAGE_EPERM := (1%Z) (only parsing).
Abbreviation MIRAGE_ENOENT := (2%Z) (only parsing).
Abbreviation MIRAGE_ESRCH := (3%Z) (only parsing).
Abbreviation MIRAGE_EINTR := (4%Z) (only parsing).
Abbreviation MIRAGE_EIO := (5%Z) (only parsing).
Abbreviation MIRAGE_EBADF := (9%Z) (only parsing).
Abbreviation MIRAGE_EAGAIN := (11%Z) (only parsing).
Abbreviation MIRAGE_ENOMEM := (12%Z) (only parsing).
Abbreviation MIRAGE_EACCES := (13%Z) (only parsing).
Abbreviation MIRAGE_EFAULT := (14%Z) (only parsing).
Abbreviation MIRAGE_EBUSY := (16%Z) (only parsing).
Abbreviation MIRAGE_EEXIST := (17%Z) (only parsing).
Abbreviation MIRAGE_EXDEV := (18%Z) (only parsing).
Abbreviation MIRAGE_ENODEV := (19%Z) (only parsing).
Abbreviation MIRAGE_ENOTDIR := (20%Z) (only parsing).
Abbreviation MIRAGE_EISDIR := (21%Z) (only parsing).
Abbreviation MIRAGE_EINVAL := (22%Z) (only parsing).
Abbreviation MIRAGE_ENOSPC := (28%Z) (only parsing).
Abbreviation MIRAGE_EROFS := (30%Z) (only parsing).
Abbreviation MIRAGE_EMLINK := (31%Z) (only parsing).
Abbreviation MIRAGE_ENAMETOOLONG := (36%Z) (only parsing).
Abbreviation MIRAGE_ENOSYS := (38%Z) (only parsing).
Abbreviation MIRAGE_ENOTSUP := (95%Z) (only parsing).
Abbreviation MIRAGE_ENOBUFS := (105%Z) (only parsing).
Abbreviation MIRAGE_ETIMEDOUT := (110%Z) (only parsing).

Module SyscallErrorCode.
Inductive t : Type :=
  | ProcessTableFull | SchedulerFull | NoSuchProcess | NoSuchThread | ThreadTableFull
  | QueueFull | QueueEmpty | PermissionDenied | IsolationFault | NoSuchDevice | DeviceFault
  | InvalidSyscall | InvalidArgument | BadAddress | OutOfMemory | FileNotFound
  | BadFileDescriptor | NotDirectory | IsDirectory | AlreadyExists | ReadOnlyFilesystem
  | NoSpace | FilesystemBusy | CrossDevice | TooManyLinks | UnsupportedFilesystem | NameTooLong
  | TimedOut.

Definition raw (c : t) : Z :=
  match c with
  | ProcessTableFull => 1 | SchedulerFull => 2 | NoSuchProcess => 3 | NoSuchThread => 4
  | ThreadTableFull => 5 | QueueFull => 6 | QueueEmpty => 7 | PermissionDenied => 8
  | IsolationFault => 9 | NoSuchDevice => 10 | DeviceFault => 11 | InvalidSyscall => 12
  | InvalidArgument => 13 | BadAddress => 14 | OutOfMemory => 15 | FileNotFound => 16
  | BadFileDescriptor => 17 | NotDirectory => 18 | IsDirectory => 19 | AlreadyExists => 20
  | ReadOnlyFilesystem => 21 | NoSpace => 22 | FilesystemBusy => 23 | CrossDevice => 24
  | TooManyLinks => 25 | UnsupportedFilesystem => 26 | NameTooLong => 27 | TimedOut => 28
  end.

Definition linux_errno (c : t) : Z :=
  match c with
  | ProcessTableFull | SchedulerFull | ThreadTableFull => MIRAGE_ENOMEM
  | NoSuchProcess | NoSuchThread => MIRAGE_ESRCH
  | QueueFull => MIRAGE_ENOBUFS
  | QueueEmpty => MIRAGE_EAGAIN
  | PermissionDenied | IsolationFault => MIRAGE_EACCES
  | NoSuchDevice => MIRAGE_ENODEV
  | DeviceFault => MIRAGE_EIO
  | InvalidSyscall => MIRAGE_ENOSYS
  | InvalidArgument => MIRAGE_EINVAL
  | BadAddress => MIRAGE_EFAULT
  | OutOfMemory => MIRAGE_ENOMEM
  | FileNotFound => MIRAGE_ENOENT
  | BadFileDescriptor => MIRAGE_EBADF
  | NotDirectory => MIRAGE_ENOTDIR
  | IsDirectory => MIRAGE_EISDIR
  | AlreadyExists => MIRAGE_EEXIST
  | ReadOnlyFilesystem => MIRAGE_EROFS
  | NoSpace => MIRAGE_ENOSPC
  | FilesystemBusy => MIRAGE_EBUSY
  | CrossDevice => MIRAGE_EXDEV
  | TooManyLinks => MIRAGE_EMLINK
  | UnsupportedFilesystem => MIRAGE_ENOTSUP
  | NameTooLong => MIRAGE_ENAMETOOLONG
  | TimedOut => MIRAGE_ETIMEDOUT
  end.
End SyscallErrorCode.

(** ** System call numbers *)
Module SyscallNumber.
Inductive t : Type :=
  | GetPid | Spawn | SendIpc | ReceiveIpc | BlockForIpc | EnumerateDevices | DeviceRead
  | DeviceWrite | Mmap | Munmap | Malloc | Free | ReceiveOrBlockIpc | Realloc | MallocAligned
  | DeviceInfo | OpenAt | Close | Read | Write | Pread64 | Pwrite64 | Lseek | Statx
  | NewFstatAt | Getdents64 | MkdirAt | UnlinkAt | RenameAt2 | Ftruncate | Fsync | Mount
  | Chdir | Fchdir | Getcwd | Faccessat | Fchmodat | Fchownat | Symlinkat | Readlinkat | Linkat
  | RegisterService | SendServiceIpc | ClaimDevice | ReleaseDevice | Fork | Execve | Exit
  | Wait4 | GetPpid | SetPgid | Setsid | GetUid | GetEuid | SetUid | GetGid | SetGid
  | GetGroups | SetGroups | RtSigaction | RtSigprocmask | Kill | RtSigreturn | ClockGettime
  | Nanosleep | TimerCreate | TimerSettime | TimerGettime | TimerDelete | Dup | Dup2 | Dup3
  | Fcntl | Ioctl | Pipe2 | Poll | Pselect | Eventfd | Socket | Bind | Listen | Accept
  | Connect | Sendmsg | Recvmsg | Clone | Futex | SetThreadArea | ArchPrctl | Yield.

Definition raw (n : t) : Z :=
  match n with
  | GetPid => 0 | Spawn => 1 | SendIpc => 2 | ReceiveIpc => 3 | BlockForIpc => 4
  | EnumerateDevices => 5 | DeviceRead => 6 | DeviceWrite => 7 | Mmap => 8 | Munmap => 9
  | Malloc => 10 | Free => 11 | ReceiveOrBlockIpc => 12 | Realloc => 13 | MallocAligned => 14
  | DeviceInfo => 15 | OpenAt => 16 | Close => 17 | Read => 18 | Write => 19 | Pread64 => 20
  | Pwrite64 => 21 | Lseek => 22 | Statx => 23 | NewFstatAt => 24 | Getdents64 => 25
  | MkdirAt => 26 | UnlinkAt => 27 | RenameAt2 => 28 | Ftruncate => 29 | Fsync => 30
  | Mount => 31 | Chdir => 32 | Fchdir => 33 | Getcwd => 34 | Faccessat => 35 | Fchmodat => 36
  | Fchownat => 37 | Symlinkat => 38 | Readlinkat => 39 | Linkat => 40 | RegisterService => 41
  | SendServiceIpc => 42 | ClaimDevice => 43 | ReleaseDevice => 44 | Fork => 100
  | Execve => 101 | Exit => 102 | Wait4 => 103 | GetPpid => 104 | SetPgid => 105
  | Setsid => 106 | GetUid => 120 | GetEuid => 121 | SetUid => 122 | GetGid => 123
  | SetGid => 124 | GetGroups => 125 | SetGroups => 126 | RtSigaction => 140
  | RtSigprocmask => 141 | Kill => 142 | RtSigreturn => 143 | ClockGettime => 160
  | Nanosleep => 161 | TimerCreate => 162 | TimerSettime => 163 | TimerGettime => 164
  | TimerDelete => 165 | Dup => 180 | Dup2 => 181 | Dup3 => 182 | Fcntl => 183 | Ioctl => 184
  | Pipe2 => 200 | Poll => 201 | Pselect => 202 | Eventfd => 203 | Socket => 220 | Bind => 221
  | Listen => 222 | Accept => 223 | Connect => 224 | Sendmsg => 225 | Recvmsg => 226
  | Clone => 240 | Futex => 241 | SetThreadArea => 242 | ArchPrctl => 243 | Yield => 244
  end.

Definition from_raw (raw : Z) : option t :=
  match raw with
  | 0 => Some GetPid | 1 => Some Spawn | 2 => Some SendIpc | 3 => Some ReceiveIpc
  | 4 => Some BlockForIpc | 5 => Some EnumerateDevices | 6 => Some DeviceRead
  | 7 => Some DeviceWrite | 8 => Some Mmap | 9 => Some Munmap | 10 => Some Malloc
  | 11 => Some Free | 12 => Some ReceiveOrBlockIpc | 13 => Some Realloc
  | 14 => Some MallocAligned | 15 => Some DeviceInfo | 16 => Some OpenAt | 17 => Some Close
  | 18 => Some Read | 19 => Some Write | 20 => Some Pread64 | 21 => Some Pwrite64
  | 22 => Some Lseek | 23 => Some Statx | 24 => Some NewFstatAt | 25 => Some Getdents64
  | 26 => Some MkdirAt | 27 => Some UnlinkAt | 28 => Some RenameAt2 | 29 => Some Ftruncate
  | 30 => Some Fsync | 31 => Some Mount | 32 => Some Chdir | 33 => Some Fchdir
  | 34 => Some Getcwd | 35 => Some Faccessat | 36 => Some Fchmodat | 37 => Some Fchownat
  | 38 => Some Symlinkat | 39 => Some Readlinkat | 40 => Some Linkat
  | 41 => Some RegisterService | 42 => Some SendServiceIpc | 43 => Some ClaimDevice
  | 44 => Some ReleaseDevice | 100 => Some Fork | 101 => Some Execve | 102 => Some Exit
  | 103 => Some Wait4 | 104 => Some GetPpid | 105 => Some SetPgid | 106 => Some Setsid
  | 120 => Some GetUid | 121 => Some GetEuid | 122 => Some SetUid | 123 => Some GetGid
  | 124 => Some SetGid | 125 => Some GetGroups | 126 => Some SetGroups
  | 140 => Some RtSigaction | 141 => Some RtSigprocmask | 142 => Some Kill
  | 143 => Some RtSigreturn | 160 => Some ClockGettime | 161 => Some Nanosleep
  | 162 => Some TimerCreate | 163 => Some TimerSettime | 164 => Some TimerGettime
  | 165 => Some TimerDelete | 180 => Some Dup | 181 => Some Dup2 | 182 => Some Dup3
  | 183 => Some Fcntl | 184 => Some Ioctl | 200 => Some Pipe2 | 201 => Some Poll
  | 202 => Some Pselect | 203 => Some Eventfd | 220 => Some Socket | 221 => Some Bind
  | 222 => Some Listen | 223 => Some Accept | 224 => Some Connect | 225 => Some Sendmsg
  | 226 => Some Recvmsg | 240 => Some Clone | 241 => Some Futex | 242 => Some SetThreadArea
  | 243 => Some ArchPrctl | 244 => Some Yield
  | _ => None
  end.
End SyscallNumber.

(** ** Errors of the kernel *)
Module LoadError.
Inductive t : Type :=
  | RootFsReadUnavailable | TooSmall | BadMagic | UnsupportedClass | UnsupportedEndian
  | UnsupportedType | UnsupportedMachine | BadProgramHeaderTable | BadLoadSegment
  | OverlappingLoadSegments | NoLoadSegments | EntryNotMapped | MapSegmentFailed
  | StackBuildFailed.
End LoadError.

Module KernelError.
Inductive t : Type :=
  | ProcessTableFull | SchedulerFull | UnknownProcess | UnknownThread | ThreadTableFull
  | MessageQueueFull | MessageQueueEmpty | SecurityViolation (e : IsolationError.t)
  | IsolationFault (e : IsolationError.t) | DeviceNotFound | DeviceFault (e : DeviceError.t)
  | InvalidSyscall | InvalidArgument | InvalidPointer | AllocationFailed | FileTableFull
  | Filesystem (e : VfsError.t) | TimedOut | Loader (e : LoadError.t).
End KernelError.

Definition isolation_syscall_error_code (reason : IsolationError.t) : SyscallErrorCode.t :=
  match reason with
  | IsolationError.UnknownTask => SyscallErrorCode.NoSuchProcess
  | IsolationError.PolicyViolation
  | IsolationError.CapabilityMissing => SyscallErrorCode.PermissionDenied
  | IsolationError.CapabilityTableFull => SyscallErrorCode.OutOfMemory
  end.

Definition syscall_error_code_from_vfs (error : VfsError.t) : SyscallErrorCode.t :=
  match error with
  | VfsError.InvalidPath PathError.TooLong
  | VfsError.InvalidPath PathError.ComponentTooLong
  | VfsError.NameTooLong => SyscallErrorCode.NameTooLong
  | VfsError.NoDevice | VfsError.InvalidPath PathError.Empty
  | VfsError.NotFound => SyscallErrorCode.FileNotFound
  | VfsError.InvalidSuperblock | VfsError.CorruptFilesystem
  | VfsError.InvalidPath PathError.NotAbsolute | VfsError.InvalidPath PathError.InvalidByte
  | VfsError.InvalidArgument | VfsError.InvalidInput => SyscallErrorCode.InvalidArgument
  | VfsError.NotDirectory => SyscallErrorCode.NotDirectory
  | VfsError.IsDirectory => SyscallErrorCode.IsDirectory
  | VfsError.AlreadyExists => SyscallErrorCode.AlreadyExists
  | VfsError.PermissionDenied => SyscallErrorCode.PermissionDenied
  | VfsError.ReadOnly | VfsError.JournalRequired => SyscallErrorCode.ReadOnlyFilesystem
  | VfsError.Io | VfsError.ChecksumMismatch => SyscallErrorCode.DeviceFault
  | VfsError.NoSpace => SyscallErrorCode.NoSpace
  | VfsError.InvalidHandle => SyscallErrorCode.BadFileDescriptor
  | VfsError.Busy => SyscallErrorCode.FilesystemBusy
  | VfsError.CrossDevice => SyscallErrorCode.CrossDevice
  | VfsError.TooManyLinks => SyscallErrorCode.TooManyLinks
  | VfsError.Unsupported
  | VfsError.UnsupportedFeature => SyscallErrorCode.UnsupportedFilesystem
  end.

Definition syscall_error_code (error : KernelError.t) : SyscallErrorCode.t :=
  match error with
  | KernelError.ProcessTableFull => SyscallErrorCode.ProcessTableFull
  | KernelError.SchedulerFull => SyscallErrorCode.SchedulerFull
  | KernelError.UnknownProcess => SyscallErrorCode.NoSuchProcess
  | KernelError.UnknownThread => SyscallErrorCode.NoSuchThread
  | KernelError.ThreadTableFull => SyscallErrorCode.ThreadTableFull
  | KernelError.MessageQueueFull => SyscallErrorCode.QueueFull
  | KernelError.MessageQueueEmpty => SyscallErrorCode.QueueEmpty
  | KernelError.SecurityViolation reason => isolation_syscall_error_code reason
  | KernelError.IsolationFault reason => isolation_syscall_error_code reason
  | KernelError.DeviceNotFound => SyscallErrorCode.NoSuchDevice
  | KernelError.DeviceFault _ => SyscallErrorCode.DeviceFault
  | KernelError.InvalidSyscall => SyscallErrorCode.InvalidSyscall
  | KernelError.InvalidArgument => SyscallErrorCode.InvalidArgument
  | KernelError.InvalidPointer => SyscallErrorCode.BadAddress
  | KernelError.AllocationFailed => SyscallErrorCode.OutOfMemory
  | KernelError.FileTableFull => SyscallErrorCode.OutOfMemory
  | KernelError.Filesystem error => syscall_error_code_from_vfs error
  | KernelError.TimedOut => SyscallErrorCode.TimedOut
  | KernelError.Loader _ => SyscallErrorCode.InvalidArgument
  end.

Definition encode_syscall_error (error : KernelError.t) : Z :=
  Z.lor MIRAGE_SYSCALL_ERROR_BIT (SyscallErrorCode.raw (syscall_error_code error)).

(** ** Theorems *)
Lemma from_raw_raw n : SyscallNumber.from_raw (SyscallNumber.raw n) = Some n.
Proof. by destruct n. Qed.

Lemma raw_from_raw z n : SyscallNumber.from_raw z = Some n → SyscallNumber.raw n = z.
Proof.
  unfold SyscallNumber.from_raw. destruct z as [|p|p]; [by intros [= <-]| |done].
  do 8 (destruct p as [p|p|]; try (done || by intros [= <-])).
Qed.

(** The system call table is exact.  A number decodes to a system call if and
    only if it is that call's number: no two calls share a number, every call can be
    made, and every other number is refused. *)
Theorem syscall_numbers_exact z n :
  SyscallNumber.from_raw z = Some n ↔ SyscallNumber.raw n = z.
Proof. split; [apply raw_from_raw|intros <-; apply from_raw_raw]. Qed.

(** An encoded error is never a result.  Every kernel error is encoded with the
    error bit and its code in the low bits, within 64 bits; two errors have the same
    encoding exactly when they have the same code; every code has a positive errno
    value; and refusals of the security kernel appear as [EACCES], unknown tasks as
    [ESRCH], full message queues as [ENOBUFS]. *)
Theorem encoded_errors_exact e e' :
  2 ^ 63 <= encode_syscall_error e < 2 ^ 64 ∧
  Z.land (encode_syscall_error e) (2 ^ 63 - 1) = SyscallErrorCode.raw (syscall_error_code e) ∧
  (encode_syscall_error e = encode_syscall_error e' ↔ syscall_error_code e = syscall_error_code e') ∧
  0 < SyscallErrorCode.linux_errno (syscall_error_code e) ∧
  SyscallErrorCode.linux_errno (syscall_error_code
    (KernelError.SecurityViolation IsolationError.CapabilityMissing)) = MIRAGE_EACCES ∧
  SyscallErrorCode.linux_errno (syscall_error_code
    (KernelError.SecurityViolation IsolationError.PolicyViolation)) = MIRAGE_EACCES ∧
  SyscallErrorCode.linux_errno (syscall_error_code KernelError.UnknownProcess) = MIRAGE_ESRCH ∧
  SyscallErrorCode.linux_errno (syscall_error_code KernelError.MessageQueueFull) = MIRAGE_ENOBUFS.
Proof.
  unfold encode_syscall_error.
  generalize (syscall_error_code e), (syscall_error_code e'). intros c c'.
  split; [by destruct c|]. split; [by destruct c|]. split.
  - split; [|by intros ->]. intros H.
    apply (f_equal (Z.land (2 ^ 63 - 1))) in H. by destruct c, c'.
  - split; [by destruct c|done].
Qed.
