(* ===== verification/KernelCore.v ===== *)
(** * The kernel core: blocking, waking and messages

    Models the part of src/src/kernel/mod.rs that ties processes, threads, the
    scheduler, the security kernel, message queues, timers and futexes together:
    sending and receiving messages, blocking and waking processes and threads, and
    the wake-ups of the timer interrupt.  The state has the fields of [Kernel] these
    operations use.

    The kernel core is a client of other components.  What it needs from each is an
    interface: [Scheduler] for MTSS, [MessageBuffer] for the message rings,
    [IpcPolicy] for the security kernel.  The operations below are defined over the
    interfaces; [KernelSafety] gives the instances and proves the theorems against
    the promises of the interfaces. *)

From stdpp Require Import prelude.
From S2P Require Import Prelude Slots MtssTypes RunQueue Subkernel Process ThreadBlock Ipc Timer Futex Abi BlockDevice.

Local Open Scope Z_scope.

Abbreviation MtssError := MtssTypes.MtssError.t (only parsing).

(** ** Interfaces *)
Class Scheduler (S : Type) : Type := {
  sched_wake_thread : ThreadId → M S MtssError unit;
  sched_block_thread : ThreadId → M S MtssError unit;
  sched_mark_task_ready : ProcessId → M S MtssError unit;
  sched_block_task : ProcessId → M S MtssError unit;
  sched_pick_next : M S MtssError (option MtssTypes.ScheduleDecision.t)
}.

(** marking a task ready fails only for a task the scheduler does not know *)
Class SchedulerLaws (S : Type) `{Scheduler S} : Prop := {
  mark_ready_total : ∀ task s,
    (sched_mark_task_ready task s).1 = Ok tt ∨
    (sched_mark_task_ready task s).1 = Err MtssTypes.MtssError.InvalidTask
}.

Class IpcPolicy (P : Type) : Type := {
  policy_authorize_ipc :
    ProcessId → ProcessId → SecurityClass.t → P → result IsolationError.t unit
}.

(** a bounded queue of messages whose last push can be withdrawn *)
Class MessageBuffer (Q : Type) : Type := {
  mb_push : Message.t → Q → result MessageQueueError.t unit * Q;
  mb_pop : Q → option Message.t * Q;
  mb_rollback : Q → option Message.t * Q;
  mb_holds : nat → Q → list Message.t → Prop
}.

Class MessageBufferLaws (Q : Type) `{MessageBuffer Q} : Prop := {
  mb_push_law : ∀ n q l m, mb_holds n q l →
    match mb_push m q with
    | (Ok _, q') => (length l < n)%nat ∧ mb_holds n q' (l ++ [m])
    | (Err _, q') => (n ≤ length l)%nat ∧ mb_holds n q' l
    end;
  mb_pop_law : ∀ n q l, mb_holds n q l →
    (mb_pop q).1 = hd_error l ∧ mb_holds n (mb_pop q).2 (tl l);
  mb_rollback_law : ∀ n q l m, mb_holds n q (l ++ [m]) →
    mb_holds n (mb_rollback q).2 l
}.

Definition map_mtss_error (error : MtssError) : KernelError.t :=
  match error with
  | MtssTypes.MtssError.RunQueueFull => KernelError.SchedulerFull
  | MtssTypes.MtssError.EmptyRunQueue => KernelError.UnknownThread
  | MtssTypes.MtssError.InvalidTask => KernelError.UnknownProcess
  | MtssTypes.MtssError.InvalidThread => KernelError.UnknownThread
  | MtssTypes.MtssError.TaskTableFull => KernelError.ProcessTableFull
  | MtssTypes.MtssError.ThreadTableFull => KernelError.ThreadTableFull
  | MtssTypes.MtssError.InvalidTaskTransition _ _
  | MtssTypes.MtssError.InvalidThreadTransition _ _
  | MtssTypes.MtssError.InvalidProcessTransition _ _
  | MtssTypes.MtssError.AlreadyCurrent => KernelError.InvalidArgument
  | MtssTypes.MtssError.ProcessRecordFull => KernelError.ProcessTableFull
  | MtssTypes.MtssError.BackendUnavailable => KernelError.DeviceFault DeviceError.Unsupported
  | MtssTypes.MtssError.CapabilityDenied =>
      KernelError.SecurityViolation IsolationError.CapabilityMissing
  end.

Definition MAX_THREADS : nat := 256.

(** ** User memory

    What the kernel learns through a user pointer: whether a word may be written
    there, and the values it reads.  The accesses go through the page tables of the
    active address space: [UserMemory.user_view] is the view they give. *)
Module MirageTimespec.
Record t : Type := mk { tv_sec : Z; tv_nsec : Z }.
End MirageTimespec.

Module UserAccess.
Record t : Type := mk {
  user_out_ptr : Z → result KernelError.t unit;
  read_i32 : Z → result KernelError.t Z;
  read_timespec : Z → result KernelError.t MirageTimespec.t
}.
End UserAccess.

(** [value as i32] *)
Definition as_i32 (value : Z) : Z :=
  let low := value mod 2 ^ 32 in if decide (low < 2 ^ 31) then low else low - 2 ^ 32.

Definition checked_u128 (value : Z) : option Z :=
  if decide (value <= umax 128) then Some value else None.

Definition timespec_to_nanos (timespec : MirageTimespec.t) : result KernelError.t Z :=
  let '(MirageTimespec.mk tv_sec tv_nsec) := timespec in
  if decide (tv_sec < 0 ∨ tv_nsec < 0 ∨ tv_nsec >= 1000000000) then Err KernelError.InvalidArgument
  else ok_or (value ← checked_u128 (tv_sec * 1000000000); checked_u128 (value + tv_nsec))
         KernelError.InvalidArgument.

Definition FUTEX_WAIT : Z := 0.
Definition FUTEX_WAKE : Z := 1.
Definition FUTEX_PRIVATE_FLAG : Z := 128.
(** [!FUTEX_PRIVATE_FLAG] *)
Definition FUTEX_CMD_MASK : Z := umax 64 - FUTEX_PRIVATE_FLAG.

(** ** The kernel *)
Module Kernel.
Record t (S Q P : Type) : Type := mk {
  process_table : list (option ProcessControlBlock.t);
  ipc_queues : list Q;
  mtss_scheduler : S;
  pending_mtss_decision : option (Sched.t ThreadId ProcessId ProcessPriority.t);
  security : P;
  thread_table : list (option ThreadControlBlock.t);
  timers : TimerManager.t;
  futexes : FutexTable.t;
  message_sequence : Z
}.
Arguments mk {S Q P}.
Arguments process_table {S Q P}.
Arguments ipc_queues {S Q P}.
Arguments mtss_scheduler {S Q P}.
Arguments pending_mtss_decision {S Q P}.
Arguments security {S Q P}.
Arguments thread_table {S Q P}.
Arguments timers {S Q P}.
Arguments futexes {S Q P}.
Arguments message_sequence {S Q P}.

Section operations.
  Context {S Q P : Type} `{!Scheduler S, !MessageBuffer Q, !IpcPolicy P}.
  Local Abbreviation K := (t S Q P).

Definition Op (A : Type) : Type := M K KernelError.t A.

Definition set_process_table v (k : K) : K :=
  mk v k.(ipc_queues) k.(mtss_scheduler) k.(pending_mtss_decision) k.(security) k.(thread_table)
     k.(timers) k.(futexes) k.(message_sequence).
Definition set_ipc_queues v (k : K) : K :=
  mk k.(process_table) v k.(mtss_scheduler) k.(pending_mtss_decision) k.(security) k.(thread_table)
     k.(timers) k.(futexes) k.(message_sequence).
Definition set_mtss v (k : K) : K :=
  mk k.(process_table) k.(ipc_queues) v k.(pending_mtss_decision) k.(security) k.(thread_table)
     k.(timers) k.(futexes) k.(message_sequence).
Definition set_pending_decision v (k : K) : K :=
  mk k.(process_table) k.(ipc_queues) k.(mtss_scheduler) v k.(security) k.(thread_table)
     k.(timers) k.(futexes) k.(message_sequence).
Definition set_thread_table v (k : K) : K :=
  mk k.(process_table) k.(ipc_queues) k.(mtss_scheduler) k.(pending_mtss_decision) k.(security) v
     k.(timers) k.(futexes) k.(message_sequence).
Definition set_timers v (k : K) : K :=
  mk k.(process_table) k.(ipc_queues) k.(mtss_scheduler) k.(pending_mtss_decision) k.(security)
     k.(thread_table) v k.(futexes) k.(message_sequence).
Definition set_futexes v (k : K) : K :=
  mk k.(process_table) k.(ipc_queues) k.(mtss_scheduler) k.(pending_mtss_decision) k.(security)
     k.(thread_table) k.(timers) v k.(message_sequence).
Definition set_message_sequence v (k : K) : K :=
  mk k.(process_table) k.(ipc_queues) k.(mtss_scheduler) k.(pending_mtss_decision) k.(security)
     k.(thread_table) k.(timers) k.(futexes) v.

(** ** Lookup *)
Definition locate_process (pid : ProcessId) (k : K) : result KernelError.t nat :=
  ok_or (find_slot (λ p, bool_decide (p.(ProcessControlBlock.pid) = pid)) k.(process_table))
    KernelError.UnknownProcess.
Definition locate_thread (thread : ThreadId) (k : K) : result KernelError.t nat :=
  ok_or (find_slot (λ x, bool_decide (x.(ThreadControlBlock.id) = thread)) k.(thread_table))
    KernelError.UnknownThread.

Definition next_message_sequence : Op Z := λ k,
  (Ok k.(message_sequence), set_message_sequence (wrap_add 64 k.(message_sequence) 1) k).

(** [if let Some(pcb) = self.process_table[index].as_mut() { f(pcb) }] *)
Definition update_pcb (index : nat) (f : ProcessControlBlock.t → ProcessControlBlock.t) (k : K) : K :=
  match k.(process_table) !! index with
  | Some (Some pcb) => set_process_table (<[index:=Some (f pcb)]> k.(process_table)) k
  | _ => k
  end.
(** the same for the thread table *)
Definition update_tcb (index : nat) (f : ThreadControlBlock.t → ThreadControlBlock.t) (k : K) : K :=
  match k.(thread_table) !! index with
  | Some (Some tcb) => set_thread_table (<[index:=Some (f tcb)]> k.(thread_table)) k
  | _ => k
  end.

(** a scheduler call: its result and the kernel with the new scheduler *)
Definition mtss_call {A} (m : M S MtssTypes.MtssError.t A) (k : K) : result MtssTypes.MtssError.t A * K :=
  let '(r, s) := m k.(mtss_scheduler) in (r, set_mtss s k).

(** [match r { Ok(()) | Err(ignored) => Ok(()), Err(err) => Err(map_mtss_error(err)) }] *)
Definition tolerate (ignored : MtssTypes.MtssError.t) (r : result MtssTypes.MtssError.t unit)
    : result KernelError.t unit :=
  match r with
  | Ok _ => Ok tt
  | Err e => if decide (e = ignored) then Ok tt else Err (map_mtss_error e)
  end.

Definition mtss_mark_process_ready (pid : ProcessId) : Op unit := λ k,
  let '(r, k) := mtss_call (sched_mark_task_ready pid) k in
  (tolerate MtssTypes.MtssError.InvalidTask r, k).
Definition mtss_block_process (pid : ProcessId) : Op unit := λ k,
  let '(r, k) := mtss_call (sched_block_task pid) k in
  (tolerate MtssTypes.MtssError.InvalidTask r, k).

Definition set_process_ready_via_mtss (pid : ProcessId) (index : nat) : Op unit :=
  mtss_mark_process_ready pid ;;
  modify (update_pcb index (ProcessControlBlock.set_state ProcessState.Ready)).
Definition set_process_blocked_via_mtss (pid : ProcessId) (index : nat) : Op unit :=
  mtss_block_process pid ;;
  modify (update_pcb index (ProcessControlBlock.set_state ProcessState.Blocked)).

(** ** Threads of a process *)
Definition block_threads_for_process (pid : ProcessId) (k : K) : K :=
  set_thread_table
    ((λ o, x ← o; Some (if decide (x.(ThreadControlBlock.process) = pid)
                        then ThreadControlBlock.block x else x)) <$> k.(thread_table)) k.

Definition block_process_at_index (pid : ProcessId) (index : nat) (k : K) : K :=
  block_threads_for_process pid (set_process_blocked_via_mtss pid index k).2.

(** one step of the loop of [rollback_ready_threads] *)
Definition rollback_slot (pid : ProcessId) (k : K) (idx : nat) : K :=
  match k.(thread_table) !! idx with
  | Some (Some x) =>
      if decide (x.(ThreadControlBlock.process) = pid ∧
                 x.(ThreadControlBlock.state) = ThreadState.Ready)
      then (mtss_call (sched_block_thread x.(ThreadControlBlock.id))
              (update_tcb idx ThreadControlBlock.block k)).2
      else k
  | _ => k
  end.
Definition rollback_ready_threads (pid : ProcessId) (before_index : nat) (k : K) : K :=
  foldl (rollback_slot pid) k (seq 0 before_index).

Definition ready_slot (pid : ProcessId) (idx : nat) : Op unit := λ k,
  match k.(thread_table) !! idx with
  | Some (Some x) =>
      if decide (x.(ThreadControlBlock.process) = pid ∧
                 x.(ThreadControlBlock.state) = ThreadState.Blocked)
      then
        let k := update_tcb idx ThreadControlBlock.mark_ready k in
        match mtss_call (sched_wake_thread x.(ThreadControlBlock.id)) k with
        | (Ok _, k) => (Ok tt, k)
        | (Err _, k) =>
            (Err KernelError.SchedulerFull,
             rollback_ready_threads pid idx (update_tcb idx ThreadControlBlock.block k))
        end
      else (Ok tt, k)
  | _ => (Ok tt, k)
  end.
Definition make_threads_ready (pid : ProcessId) : Op unit := λ k,
  mfor (seq 0 (length k.(thread_table))) (ready_slot pid) k.

Definition has_runnable_thread (pid : ProcessId) (k : K) : bool :=
  slot_any (λ x, bool_decide (x.(ThreadControlBlock.process) = pid) &&
                 (bool_decide (x.(ThreadControlBlock.state) = ThreadState.Ready) ||
                  bool_decide (x.(ThreadControlBlock.state) = ThreadState.Running))) k.(thread_table).

(** ** Messages *)
(** [self.ipc_queues[index]] replaced by the state an operation leaves *)
Definition queue_call {A} (index : nat) (f : Q → A * Q) (dflt : A) (k : K) : A * K :=
  match k.(ipc_queues) !! index with
  | Some q => let '(a, q) := f q in (a, set_ipc_queues (<[index:=q]> k.(ipc_queues)) k)
  | None => (dflt, k)
  end.

Definition push_message (index : nat) (message : Message.t) : Op unit := λ k,
  match queue_call index (mb_push message) (Err MessageQueueError.Full) k with
  | (Ok _, k) => (Ok tt, k)
  | (Err _, k) => (Err KernelError.MessageQueueFull, k)
  end.

(** the failure path of a send: the receiver blocks again, the message is withdrawn *)
Definition undo_send (receiver : ProcessId) (index : nat) (k : K) : K :=
  let k := (set_process_blocked_via_mtss receiver index k).2 in
  (queue_call index mb_rollback None k).2.

(** [if pcb.state == Blocked { set_process_ready_via_mtss(..)?; true }] *)
Definition wake_receiver (receiver : ProcessId) (index : nat) : Op bool := λ k,
  match k.(process_table) !! index with
  | Some (Some pcb) =>
      if decide (pcb.(ProcessControlBlock.state) = ProcessState.Blocked)
      then (set_process_ready_via_mtss receiver index ;; mret true) k
      else (Ok false, k)
  | _ => (Ok false, k)
  end.

(** waking the receiver's threads, or undoing the send *)
Definition wake_or_undo (receiver : ProcessId) (index : nat) : Op unit := λ k,
  match make_threads_ready receiver k with
  | (Ok _, k) => (Ok tt, k)
  | (Err e, k) => (Err e, undo_send receiver index k)
  end.

Definition send_message (sender receiver : ProcessId) (payload : MessagePayload.t) : Op unit :=
  allowed ← gets (λ k, policy_authorize_ipc sender receiver
                         payload.(MessagePayload.security_class) k.(security));
  lift (match allowed with Ok _ => Ok tt | Err e => Err (KernelError.SecurityViolation e) end) ;;
  sequence ← next_message_sequence;
  located ← gets (locate_process receiver);
  index ← lift located;
  push_message index (Message.mk sender receiver sequence payload) ;;
  woken ← wake_receiver receiver index;
  if (woken : bool) then wake_or_undo receiver index else mret tt.

Definition pop_message (index : nat) : Op (option Message.t) := λ k,
  let '(m, k) := queue_call index mb_pop None k in (Ok m, k).

Definition receive_message (pid : ProcessId) : Op Message.t :=
  located ← gets (locate_process pid);
  index ← lift located;
  m ← pop_message index;
  lift (ok_or m KernelError.MessageQueueEmpty).

Definition receive_or_block (pid : ProcessId) : Op (option Message.t) :=
  located ← gets (locate_process pid);
  index ← lift located;
  m ← pop_message index;
  match m with
  | Some m => mret (Some m)
  | None => modify (block_process_at_index pid index) ;; mret None
  end.

Definition block_for_message (pid : ProcessId) (k : K) : K :=
  match locate_process pid k with
  | Ok index => block_process_at_index pid index k
  | Err _ => k
  end.

(** ** Single threads *)
Definition mtss_block_thread (thread : ThreadId) : Op unit := λ k,
  let '(r, k) := mtss_call (sched_block_thread thread) k in
  (tolerate MtssTypes.MtssError.InvalidThread r, k).
Definition mtss_wake_thread (thread : ThreadId) : Op unit := λ k,
  let '(r, k) := mtss_call (sched_wake_thread thread) k in
  (tolerate MtssTypes.MtssError.InvalidThread r, k).

(** a process with no runnable thread left blocks, unless it is a zombie *)
Definition block_idle_process (process : ProcessId) (k : K) : K :=
  if has_runnable_thread process k then k
  else
    match locate_process process k with
    | Ok process_index =>
        match k.(process_table) !! process_index with
        | Some (Some pcb) =>
            if decide (pcb.(ProcessControlBlock.state) ≠ ProcessState.Zombie)
            then (set_process_blocked_via_mtss process process_index k).2 else k
        | _ => k
        end
    | Err _ => k
    end.

Definition block_thread (thread : ThreadId) : Op unit :=
  located ← gets (locate_thread thread);
  index ← lift located;
  entry ← gets (λ k, mjoin (k.(thread_table) !! index));
  tcb ← lift (ok_or entry KernelError.UnknownThread);
  let process := tcb.(ThreadControlBlock.process) in
  modify (update_tcb index ThreadControlBlock.block) ;;
  mtss_block_thread thread ;;
  modify (block_idle_process process).

(** the process of a woken thread is ready again if it was blocked *)
Definition ready_blocked_process (process : ProcessId) : Op unit := λ k,
  match locate_process process k with
  | Ok process_index =>
      match k.(process_table) !! process_index with
      | Some (Some pcb) =>
          if decide (pcb.(ProcessControlBlock.state) = ProcessState.Blocked)
          then set_process_ready_via_mtss process process_index k
          else (Ok tt, k)
      | _ => (Ok tt, k)
      end
  | Err _ => (Ok tt, k)
  end.

Definition wake_thread (thread : ThreadId) : Op unit :=
  located ← gets (locate_thread thread);
  index ← lift located;
  entry ← gets (λ k, mjoin (k.(thread_table) !! index));
  match entry with
  | Some tcb =>
      if decide (tcb.(ThreadControlBlock.state) = ThreadState.Blocked) then
        modify (update_tcb index ThreadControlBlock.mark_ready) ;;
        mtss_wake_thread thread ;;
        ready_blocked_process tcb.(ThreadControlBlock.process)
      else mret tt
  | None => mret tt
  end.

Definition write_thread_syscall_result (thread : ThreadId) (value : Z) (k : K) : K :=
  match locate_thread thread k with
  | Ok index => update_tcb index (ThreadControlBlock.write_syscall_result value) k
  | Err _ => k
  end.

Definition wake_futex_threads (threads : list (option ThreadId)) (count : nat) (value : Z) : Op unit :=
  mfor (take count threads) (λ entry,
    match entry with
    | Some thread => modify (write_thread_syscall_result thread value) ;; wake_thread thread
    | None => mret tt
    end).

(** ** The futex system call *)
Definition futex_key (user : UserAccess.t) (pid : ProcessId) (user_address : Z) (k : K)
    : result KernelError.t FutexKey.t :=
  match user.(UserAccess.user_out_ptr) user_address, locate_process pid k with
  | Err e, _ | Ok _, Err e => Err e
  | Ok _, Ok process_index =>
      match mjoin (k.(process_table) !! process_index) with
      | Some pcb =>
          let owner := pcb.(ProcessControlBlock.address_space_root) in
          Ok (FutexKey.mk (if decide (owner = 0) then pid else owner) user_address)
      | None => Err KernelError.UnknownProcess
      end
  end.

Definition futex_deadline (user : UserAccess.t) (now timeout_ptr : Z) : result KernelError.t (option Z) :=
  if decide (timeout_ptr = 0) then Ok None
  else
    match user.(UserAccess.read_timespec) timeout_ptr with
    | Err e => Err e
    | Ok requested =>
        match timespec_to_nanos requested with
        | Err e => Err e
        | Ok duration_ns => Ok (Some (sat_add 128 now duration_ns))
        end
    end.

Definition futex_enqueue (key : FutexKey.t) (thread : ThreadId) (deadline : option Z) : Op unit := λ k,
  let '(r, v) := FutexTable.enqueue key thread deadline k.(futexes) in
  (match r with Ok _ => Ok tt | Err _ => Err KernelError.AllocationFailed end, set_futexes v k).

Definition futex_wait (user : UserAccess.t) (now : Z) (key : FutexKey.t) (caller_thread : option ThreadId)
    (uaddr value timeout_ptr : Z) : Op Z :=
  thread ← lift (ok_or caller_thread KernelError.UnknownThread);
  observed ← lift (user.(UserAccess.read_i32) uaddr);
  if decide (observed ≠ value) then throw KernelError.MessageQueueEmpty
  else
    deadline ← lift (futex_deadline user now timeout_ptr);
    futex_enqueue key thread deadline ;;
    block_thread thread ;;
    mret 0.

Definition futex_release (key : FutexKey.t) (limit : nat) : Op (nat * list (option ThreadId)) := λ k,
  let '(count, woken, v) := FutexTable.wake key limit (replicate MAX_THREADS None) k.(futexes) in
  (Ok (count, woken), set_futexes v k).

Definition futex_wake (key : FutexKey.t) (value : Z) : Op Z :=
  let limit := if decide (value < 0) then 0%nat else Z.to_nat value in
  released ← futex_release key limit;
  wake_futex_threads released.2 released.1 0 ;;
  mret (Z.of_nat released.1).

(** [caller] and [caller_thread] are those of the context, [arg0] to [arg3] its arguments *)
Definition syscall_futex (user : UserAccess.t) (now : Z) (caller : ProcessId)
    (caller_thread : option ThreadId) (arg0 arg1 arg2 arg3 : Z) : Op Z :=
  let value := as_i32 arg2 in
  let command := Z.land arg1 FUTEX_CMD_MASK in
  found ← gets (futex_key user caller arg0);
  key ← lift found;
  if decide (command = FUTEX_WAIT) then futex_wait user now key caller_thread arg0 value arg3
  else if decide (command = FUTEX_WAKE) then futex_wake key value
  else throw KernelError.InvalidArgument.

(** ** The timer interrupt *)
Definition wake_process_for_timeout (pid : ProcessId) : Op unit :=
  located ← gets (locate_process pid);
  index ← lift located;
  woken ← wake_receiver pid index;
  if (woken : bool) then make_threads_ready pid else mret tt.

(** [while let Some(expired) = expire(now) { let _ = wake_process_for_timeout(pid(expired)); }],
    [None] when the fuel runs out *)
Fixpoint timeout_loop {A} (expire : TimerManager.t → option A * TimerManager.t) (pid : A → ProcessId)
    (fuel : nat) (k : K) : option K :=
  match fuel with
  | O => None
  | Datatypes.S fuel =>
      match expire k.(timers) with
      | (Some expired, v) =>
          timeout_loop expire pid fuel (wake_process_for_timeout (pid expired) (set_timers v k)).2
      | (None, v) => Some (set_timers v k)
      end
  end.

Definition wake_expired_timeouts (now : Z) (fuel : nat) (k : K) : option K :=
  k ← timeout_loop (TimerManager.expire_sleep now) ExpiredSleep.process fuel k;
  timeout_loop (TimerManager.expire_timer now) ExpiredTimer.owner fuel k.

Definition wake_expired_futexes (now : Z) (k : K) : K :=
  let '(count, expired_threads, v) := FutexTable.expire now (replicate MAX_THREADS None) k.(futexes) in
  (wake_futex_threads expired_threads count (encode_syscall_error KernelError.TimedOut) (set_futexes v k)).2.

(** ** Dispatching *)
Definition schedule_record_from_mtss (decision : ScheduleDecision.t) (k : K)
    : option (Sched.t ThreadId ProcessId ProcessPriority.t) :=
  match locate_thread decision.(ScheduleDecision.next) k with
  | Ok index =>
      tcb ← mjoin (k.(thread_table) !! index);
      Some (Sched.new tcb.(ThreadControlBlock.id) tcb.(ThreadControlBlock.process)
              tcb.(ThreadControlBlock.priority)
              (ProcessPriority.time_slice tcb.(ThreadControlBlock.priority)))
  | Err _ => None
  end.

Definition kernel_schedule_next (k : K)
    : option (Sched.t ThreadId ProcessId ProcessPriority.t) * K :=
  match k.(pending_mtss_decision) with
  | Some decision => (Some decision, set_pending_decision None k)
  | None =>
      match mtss_call sched_pick_next k with
      | (Ok (Some decision), k) => (schedule_record_from_mtss decision k, k)
      | (_, k) => (None, k)
      end
  end.
End operations.
End Kernel.
