(* ===== verification/KernelSafety.v ===== *)
(** * What the kernel core guarantees

    The instances of the kernel core's interfaces, and its theorems: messages are
    delivered exactly once, in order and only when the security kernel allows them;
    a thread that waits on a futex can be woken.  The theorems on messages are proved against the
    interfaces and hold for any scheduler, buffer and policy that keep their
    promises; the last section shows what they say about a concrete kernel. *)

From stdpp Require Import prelude.
From S2P Require Import Prelude Slots MtssTypes RunQueue Mtss Subkernel Process ThreadBlock Ipc Timer Futex Abi KernelCore.
Import Kernel.

Local Open Scope Z_scope.

(** ** The components keep their promises *)
#[export] Instance mtss_scheduler_ops : Scheduler Mtss.t := {
  sched_wake_thread := Mtss.wake_thread;
  sched_block_thread := Mtss.block_thread;
  sched_mark_task_ready := Mtss.mark_task_ready;
  sched_block_task := Mtss.block_task;
  sched_pick_next := Mtss.pick_next
}.

#[export] Instance mtss_scheduler_laws : SchedulerLaws Mtss.t.
Proof.
  split. intros task s. cbn. unfold Mtss.mark_task_ready, Mtss.task_mut.
  destruct (Mtss.find_task_index task s) as [i|]; [|by right].
  destruct (Mtss.tasks s !! i) as [[x|]|]; [|by right|by right].
  run_monad. case_decide as Hst; cbn; [|by left].
  unfold Task.wake, Task.transition. by destruct Hst as [-> | ->]; left.
Qed.

#[export] Instance security_policy : IpcPolicy SecurityKernel.t := {
  policy_authorize_ipc := SecurityKernel.authorize_ipc
}.

#[export] Instance message_ring : MessageBuffer MessageQueue.t := {
  mb_push := MessageQueue.push;
  mb_pop := MessageQueue.pop;
  mb_rollback := MessageQueue.rollback_last_push;
  mb_holds := MessageQueue.rep
}.

#[export] Instance message_ring_laws : MessageBufferLaws MessageQueue.t.
Proof.
  split; cbn.
  - intros n q l m R. pose proof (MessageQueue.rep_push n q l m R) as H.
    destruct (MessageQueue.push m q) as [[[]|e] q']; destruct H as [Hok R'];
      cbn in Hok; symmetry in Hok.
    + apply bool_decide_eq_true_1 in Hok. by rewrite decide_True in R'.
    + apply bool_decide_eq_false_1 in Hok. rewrite decide_False in R' by done. split; [lia|done].
  - intros n q l. apply MessageQueue.rep_pop.
  - intros n q l m R. destruct (MessageQueue.rep_rollback n q _ R) as [_ R'].
    rewrite length_app in R'. cbn in R'. by rewrite take_app_length' in R' by lia.
Qed.

(** ** Operations that leave the queues alone *)
Section frames.
  Context {S Q P : Type} `{!Scheduler S, !MessageBuffer Q, !IpcPolicy P}.
  Implicit Types k : t S Q P.

Definition pids k : list (option ProcessId) :=
  (λ o, p ← o; Some p.(ProcessControlBlock.pid)) <$> k.(process_table).

(** the parts of the kernel that only messages and timer operations change *)
Record frame k k' : Prop := {
  fr_queues : k'.(ipc_queues) = k.(ipc_queues);
  fr_security : k'.(security) = k.(security);
  fr_sequence : k'.(message_sequence) = k.(message_sequence);
  fr_pids : pids k' = pids k;
  fr_timers : k'.(timers) = k.(timers)
}.

Lemma frame_refl k : frame k k.
Proof. by split. Qed.
Lemma frame_trans k1 k2 k3 : frame k1 k2 → frame k2 k3 → frame k1 k3.
Proof. intros [] []. split; congruence. Qed.

Definition framed {A} (m : M (t S Q P) KernelError.t A) : Prop := ∀ k, frame k (m k).2.

Lemma framed_bind {A B} (m : M (t S Q P) KernelError.t A) (f : A → M (t S Q P) KernelError.t B) :
  framed m → (∀ a, framed (f a)) → framed (m ≫= f).
Proof.
  intros Hm Hf k. unfold mbind, M_bind. specialize (Hm k). destruct (m k) as [[a|e] k']; [|done].
  eapply frame_trans; [exact Hm|apply Hf].
Qed.
Lemma framed_ret {A} (a : A) : framed (mret a).
Proof. intros k. apply frame_refl. Qed.
Lemma framed_gets {A} (f : t S Q P → A) : framed (gets f).
Proof. intros k. apply frame_refl. Qed.
Lemma framed_lift {A} (r : result KernelError.t A) : framed (lift r).
Proof. intros k. apply frame_refl. Qed.
Lemma framed_modify f : (∀ k, frame k (f k)) → framed (modify f).
Proof. intros H k. apply H. Qed.
Lemma framed_mfor {B} l (body : B → M (t S Q P) KernelError.t unit) :
  (∀ i, framed (body i)) → framed (mfor l body).
Proof. intros H. induction l; cbn; [apply framed_ret|apply framed_bind; auto]. Qed.

Lemma frame_update_tcb i f k : frame k (update_tcb i f k).
Proof. unfold update_tcb. destruct (_ !! i) as [[x|]|]; by split. Qed.

Lemma frame_update_pcb i f k :
  (∀ p, (f p).(ProcessControlBlock.pid) = p.(ProcessControlBlock.pid)) → frame k (update_pcb i f k).
Proof.
  intros Hf. unfold update_pcb. destruct (_ !! i) as [[p|]|] eqn:Hp; [|by split|by split].
  split; cbn; try done. unfold pids. cbn. rewrite list_fmap_insert. apply list_insert_id.
  rewrite list_lookup_fmap, Hp. cbn. by rewrite Hf.
Qed.

Lemma frame_mtss_call {A} (m : M S MtssTypes.MtssError.t A) k : frame k (mtss_call m k).2.
Proof. unfold mtss_call. destruct (m _) as [r s]. by split. Qed.

Lemma frame_ready_mtss pid i : framed (set_process_ready_via_mtss pid i).
Proof.
  apply framed_bind.
  - intros k. unfold mtss_mark_process_ready. pose proof (frame_mtss_call (sched_mark_task_ready pid) k).
    by destruct (mtss_call _ k) as [r k'].
  - intros _. apply framed_modify. intros k. by apply frame_update_pcb.
Qed.

Lemma frame_blocked_mtss pid i : framed (set_process_blocked_via_mtss pid i).
Proof.
  apply framed_bind.
  - intros k. unfold mtss_block_process. pose proof (frame_mtss_call (sched_block_task pid) k).
    by destruct (mtss_call _ k) as [r k'].
  - intros _. apply framed_modify. intros k. by apply frame_update_pcb.
Qed.

(** operations that change only the scheduler and the thread table *)
Definition thread_frame k k' : Prop := ∃ s v, k' = set_mtss s (set_thread_table v k).

Lemma thread_frame_refl k : thread_frame k k.
Proof. exists k.(mtss_scheduler), k.(thread_table). by destruct k. Qed.
Lemma thread_frame_trans k1 k2 k3 : thread_frame k1 k2 → thread_frame k2 k3 → thread_frame k1 k3.
Proof. intros (s & v & ->) (s' & v' & ->). by exists s', v'. Qed.
Lemma thread_frame_frame k k' : thread_frame k k' → frame k k'.
Proof. intros (s & v & ->). by split. Qed.
Lemma thread_frame_processes k k' : thread_frame k k' → k'.(process_table) = k.(process_table).
Proof. by intros (s & v & ->). Qed.

Lemma thread_frame_tcb i f k : thread_frame k (update_tcb i f k).
Proof.
  unfold update_tcb. destruct (_ !! i) as [[x|]|]; [|apply thread_frame_refl|apply thread_frame_refl].
  exists k.(mtss_scheduler). by eexists.
Qed.
Lemma thread_frame_mtss {A} (m : M S MtssTypes.MtssError.t A) k : thread_frame k (mtss_call m k).2.
Proof. unfold mtss_call. destruct (m _) as [r s]. exists s, k.(thread_table). by destruct k. Qed.

Lemma thread_frame_rollback pid n k : thread_frame k (rollback_ready_threads pid n k).
Proof.
  unfold rollback_ready_threads. generalize (seq 0 n). intros l. revert k.
  induction l as [|i l IH]; intros k; cbn; [apply thread_frame_refl|].
  eapply thread_frame_trans; [|apply IH]. unfold rollback_slot.
  destruct (_ !! i) as [[x|]|]; [|apply thread_frame_refl|apply thread_frame_refl].
  case_decide; [|apply thread_frame_refl].
  eapply thread_frame_trans; [apply (thread_frame_tcb i ThreadControlBlock.block)|apply thread_frame_mtss].
Qed.

Lemma thread_frame_ready_slot pid i k : thread_frame k (ready_slot pid i k).2.
Proof.
  unfold ready_slot.
  destruct (_ !! i) as [[x|]|]; [|apply thread_frame_refl|apply thread_frame_refl].
  case_decide; [|apply thread_frame_refl].
  pose proof (thread_frame_tcb i ThreadControlBlock.mark_ready k) as H1.
  set (k1 := update_tcb i _ k) in *.
  pose proof (thread_frame_mtss (sched_wake_thread x.(ThreadControlBlock.id)) k1) as H2.
  destruct (mtss_call _ k1) as [[u|e] k2]; cbn [snd] in *; [by eapply thread_frame_trans|].
  eapply thread_frame_trans; [exact H1|]. eapply thread_frame_trans; [exact H2|].
  eapply thread_frame_trans; [apply (thread_frame_tcb i ThreadControlBlock.block)|].
  apply thread_frame_rollback.
Qed.

Lemma thread_frame_make_ready pid k : thread_frame k (make_threads_ready pid k).2.
Proof.
  unfold make_threads_ready. generalize (seq 0 (length k.(thread_table))). intros l. revert k.
  induction l as [|i l IH]; intros k; cbn; [apply thread_frame_refl|].
  unfold mbind, M_bind. pose proof (thread_frame_ready_slot pid i k) as H.
  destruct (ready_slot pid i k) as [[u|e] k']; [|exact H].
  eapply thread_frame_trans; [exact H|apply IH].
Qed.

Lemma frame_make_ready pid : framed (make_threads_ready pid).
Proof. intros k. apply thread_frame_frame, thread_frame_make_ready. Qed.

Lemma frame_block_process pid i k : frame k (block_process_at_index pid i k).
Proof.
  unfold block_process_at_index. eapply frame_trans; [apply frame_blocked_mtss|]. by split.
Qed.

Lemma frame_wake_receiver pid i : framed (wake_receiver pid i).
Proof.
  intros k. unfold wake_receiver. destruct (_ !! i) as [[x|]|]; [|apply frame_refl|apply frame_refl].
  case_decide; [|apply frame_refl].
  apply (framed_bind _ _ (frame_ready_mtss pid i)). intros u. apply framed_ret.
Qed.

Lemma frame_wake_timeout pid : framed (wake_process_for_timeout pid).
Proof.
  apply framed_bind; [apply framed_gets|]. intros located.
  apply framed_bind; [apply framed_lift|]. intros i.
  apply framed_bind; [apply frame_wake_receiver|]. intros [|]; [apply frame_make_ready|apply framed_ret].
Qed.

Lemma frame_wake_thread thread : framed (wake_thread thread).
Proof.
  apply framed_bind; [apply framed_gets|]. intros located.
  apply framed_bind; [apply framed_lift|]. intros i.
  apply framed_bind; [apply framed_gets|]. intros [x|]; [|apply framed_ret].
  case_decide; [|apply framed_ret].
  apply framed_bind; [apply framed_modify; intros; apply frame_update_tcb|]. intros _.
  apply framed_bind.
  - intros k. unfold mtss_wake_thread. pose proof (frame_mtss_call (sched_wake_thread thread) k).
    by destruct (mtss_call _ k).
  - intros _ k. unfold ready_blocked_process. destruct (locate_process _ k) as [j|]; [|apply frame_refl].
    destruct (_ !! j) as [[p|]|]; [|apply frame_refl|apply frame_refl].
    case_decide; [apply frame_ready_mtss|apply frame_refl].
Qed.

Lemma frame_block_thread thread : framed (block_thread thread).
Proof.
  apply framed_bind; [apply framed_gets|]. intros located.
  apply framed_bind; [apply framed_lift|]. intros i.
  apply framed_bind; [apply framed_gets|]. intros o.
  apply framed_bind; [apply framed_lift|]. intros x.
  apply framed_bind; [apply framed_modify; intros; apply frame_update_tcb|]. intros _.
  apply framed_bind.
  - intros k. unfold mtss_block_thread. pose proof (frame_mtss_call (sched_block_thread thread) k).
    by destruct (mtss_call _ k).
  - intros _. apply framed_modify. intros k. unfold block_idle_process.
    destruct (has_runnable_thread _ k); [apply frame_refl|].
    destruct (locate_process _ k) as [j|]; [|apply frame_refl].
    destruct (_ !! j) as [[p|]|]; [|apply frame_refl|apply frame_refl].
    case_decide; [apply frame_blocked_mtss|apply frame_refl].
Qed.

Lemma frame_wake_futexes threads count value : framed (wake_futex_threads threads count value).
Proof.
  apply framed_mfor. intros [thread|]; [|apply framed_ret].
  apply framed_bind; [|intros _; apply frame_wake_thread].
  apply framed_modify. intros k. unfold write_thread_syscall_result.
  destruct (locate_thread _ _); [apply frame_update_tcb|apply frame_refl].
Qed.

Lemma frame_futex_wait user now key th uaddr value timeout_ptr :
  framed (futex_wait user now key th uaddr value timeout_ptr).
Proof.
  apply framed_bind; [apply framed_lift|]. intros thread.
  apply framed_bind; [apply framed_lift|]. intros observed. case_decide; [by intros k|].
  apply framed_bind; [apply framed_lift|]. intros deadline.
  apply framed_bind; [|intros _; apply framed_bind; [apply frame_block_thread|intros _; apply framed_ret]].
  intros k. unfold futex_enqueue. destruct (FutexTable.enqueue _ _ _ _). by split.
Qed.

Lemma frame_futex_wake key value : framed (futex_wake key value).
Proof.
  apply framed_bind.
  - intros k. unfold futex_release. destruct (FutexTable.wake _ _ _ _) as [[c w] v]. by split.
  - intros released. apply framed_bind; [apply frame_wake_futexes|intros _; apply framed_ret].
Qed.

Lemma frame_syscall_futex user now caller th arg0 arg1 arg2 arg3 :
  framed (syscall_futex user now caller th arg0 arg1 arg2 arg3).
Proof.
  apply framed_bind; [apply framed_gets|]. intros found.
  apply framed_bind; [apply framed_lift|]. intros key.
  case_decide; [apply frame_futex_wait|]. case_decide; [apply frame_futex_wake|by intros k].
Qed.

Lemma frame_expired_futexes now k : frame k (wake_expired_futexes now k).
Proof.
  unfold wake_expired_futexes. destruct (FutexTable.expire _ _ _) as [[c w] v].
  eapply frame_trans; [|apply frame_wake_futexes]. by split.
Qed.

Lemma find_slot_fmap {A B} (f : A → B) (p : A → bool) (q : B → bool) l :
  (∀ x, p x = q (f x)) →
  find_slot p l = find_slot q ((λ o, x ← o; Some (f x)) <$> l).
Proof.
  intros H. induction l as [|[x|] l IH]; cbn; [done| |]; fold (find_slot p); by rewrite ?H, IH.
Qed.

Lemma locate_frame pid k k' : pids k' = pids k → locate_process pid k' = locate_process pid k.
Proof.
  intros H. unfold locate_process. f_equal.
  rewrite !(find_slot_fmap ProcessControlBlock.pid _ (λ z, bool_decide (z = pid))) by done.
  unfold pids in H. by rewrite H.
Qed.

Lemma locate_lt pid k i : locate_process pid k = Ok i → (i < length k.(process_table))%nat.
Proof.
  unfold locate_process. destruct (find_slot _ _) as [j|] eqn:Hf; [|done].
  intros [= <-]. by eapply find_slot_lt.
Qed.

(** the slot of a process names it, so two processes never share a slot *)
Lemma locate_inj pid pid' k i : locate_process pid k = Ok i → locate_process pid' k = Ok i → pid = pid'.
Proof.
  unfold locate_process.
  destruct (find_slot _ _) as [j|] eqn:H1; [|done]. intros [= ->].
  destruct (find_slot (λ p, bool_decide (_ = pid')) _) as [j|] eqn:H2; [|done]. intros [= ->].
  apply find_slot_Some in H1 as (x & Hx & H1 & _), H2 as (y & Hy & H2 & _).
  apply bool_decide_eq_true in H1, H2. congruence.
Qed.

Lemma frame_schedule_next k : frame k (kernel_schedule_next k).2.
Proof.
  unfold kernel_schedule_next. destruct k.(pending_mtss_decision); [by split|].
  pose proof (frame_mtss_call sched_pick_next k) as H.
  by destruct (mtss_call _ k) as [[[d|]|e] k'].
Qed.
End frames.

(** ** Messages *)
Section messages.
  Context {S Q P : Type} `{!Scheduler S, !MessageBuffer Q, !IpcPolicy P}.
  Context `{!SchedulerLaws S, !MessageBufferLaws Q}.
  Implicit Types k : t S Q P.

(** queue [i] holds the messages [L !! i], and every process slot has a queue *)
Record holds (n : nat) k (L : list (list Message.t)) : Prop := {
  h_queues : Forall2 (mb_holds n) k.(ipc_queues) L;
  h_slots : length (pids k) = length k.(ipc_queues)
}.

Lemma holds_frame n k k' L : frame k k' → holds n k L → holds n k' L.
Proof. intros [Hq Hs Hm Hp] []. split; [by rewrite Hq|by rewrite Hp, Hq]. Qed.

Lemma holds_slot n k L i pid :
  holds n k L → locate_process pid k = Ok i →
  ∃ q l, k.(ipc_queues) !! i = Some q ∧ L !! i = Some l ∧ mb_holds n q l.
Proof.
  intros [Hq Hl] Hi. apply locate_lt in Hi. unfold pids in Hl. rewrite length_fmap in Hl.
  destruct (lookup_lt_is_Some_2 k.(ipc_queues) i) as [q Hqi]; [lia|].
  destruct (Forall2_lookup_l _ _ _ _ _ Hq Hqi) as (l & Hli & R). by exists q, l.
Qed.

Lemma holds_set n k L i q l :
  holds n k L → mb_holds n q l → holds n (set_ipc_queues (<[i:=q]> k.(ipc_queues)) k) (<[i:=l]> L).
Proof.
  intros [Hq Hl] R. split; cbn; [by apply Forall2_insert|]. rewrite length_insert. exact Hl.
Qed.

(** no operation below changes the policy or the process slots *)
Definition same_board k k' : Prop := k'.(security) = k.(security) ∧ pids k' = pids k.

Lemma push_step n k L i l m :
  holds n k L → L !! i = Some l →
  match push_message i m k with
  | (Ok _, k') => (length l < n)%nat ∧ holds n k' (<[i:=l ++ [m]]> L)
  | (Err e, k') => e = KernelError.MessageQueueFull ∧ (n ≤ length l)%nat ∧ holds n k' L
  end.
Proof.
  intros H Hl. destruct (Forall2_lookup_r _ _ _ _ _ H.(h_queues _ _ _) Hl) as (q & Hq & R).
  unfold push_message, queue_call. rewrite Hq. pose proof (mb_push_law n q l m R) as Hp.
  destruct (mb_push m q) as [[u|e] q']; destruct Hp as [Hn R'].
  - split; [done|]. by apply holds_set.
  - split_and!; [done|done|]. rewrite <- (list_insert_id L i l) by done. by apply holds_set.
Qed.

Lemma queue_call_board {A} i (f : Q → A * Q) dflt k : same_board k (queue_call i f dflt k).2.
Proof. unfold queue_call. destruct (_ !! i); [|done]. by destruct (f _). Qed.

Lemma push_board i m k : same_board k (push_message i m k).2.
Proof.
  unfold push_message. pose proof (queue_call_board i (mb_push m) (Err MessageQueueError.Full) k).
  by destruct (queue_call _ _ _ k) as [[u|e] k'].
Qed.

Lemma frame_board k k' : frame k k' → same_board k k'.
Proof. by intros []. Qed.
Lemma board_trans k1 k2 k3 : same_board k1 k2 → same_board k2 k3 → same_board k1 k3.
Proof. intros [] []. split; congruence. Qed.

Lemma pop_step n k L i l :
  holds n k L → L !! i = Some l →
  ∃ k', pop_message i k = (Ok (hd_error l), k') ∧ holds n k' (<[i:=tl l]> L) ∧ same_board k k'.
Proof.
  intros H Hl. destruct (Forall2_lookup_r _ _ _ _ _ H.(h_queues _ _ _) Hl) as (q & Hq & R).
  unfold pop_message, queue_call. rewrite Hq. destruct (mb_pop_law n q l R) as [Hm R'].
  destruct (mb_pop q) as [m q'] eqn:Hp. cbn in Hm, R'. subst m.
  eexists. split_and!; [done|by apply holds_set|done].
Qed.

Lemma undo_step n k L i l m pid :
  holds n k (<[i:=l ++ [m]]> L) → L !! i = Some l → holds n (undo_send pid i k) L.
Proof.
  intros H Hl. unfold undo_send. set (k1 := (set_process_blocked_via_mtss pid i k).2).
  assert (H1 : holds n k1 (<[i:=l ++ [m]]> L)) by (eapply holds_frame; [apply frame_blocked_mtss|done]).
  destruct (Forall2_lookup_r _ _ _ i (l ++ [m]) H1.(h_queues _ _ _)) as (q & Hq & R).
  { apply list_lookup_insert_eq, lookup_lt_is_Some_1. by exists l. }
  unfold queue_call. rewrite Hq. pose proof (mb_rollback_law n q l m R) as R'.
  destruct (mb_rollback q) as [o q'].
  rewrite <- (list_insert_id L i l Hl), <- (list_insert_insert_eq L i l (l ++ [m])).
  by apply holds_set.
Qed.

Lemma undo_board pid i k : same_board k (undo_send pid i k).
Proof.
  eapply board_trans; [|apply queue_call_board]. apply frame_board, frame_blocked_mtss.
Qed.

(** a process is not blocked *)
Definition awake (i : nat) k : Prop :=
  ∀ p, k.(process_table) !! i = Some (Some p) → p.(ProcessControlBlock.state) ≠ ProcessState.Blocked.

(** waking a process cannot fail: the scheduler refuses to mark a task ready only
    when it does not know it, and the kernel tolerates that *)
Lemma ready_mtss_ok pid i k :
  ∃ s, set_process_ready_via_mtss pid i k =
    (Ok tt, update_pcb i (ProcessControlBlock.set_state ProcessState.Ready) (set_mtss s k)).
Proof.
  unfold set_process_ready_via_mtss, mtss_mark_process_ready, mtss_call, mbind, M_bind.
  pose proof (mark_ready_total pid k.(mtss_scheduler)) as Ht.
  destruct (sched_mark_task_ready pid _) as [r s]. exists s. cbn in Ht. by destruct Ht as [-> | ->].
Qed.

Lemma awake_set_ready i j k :
  i = j ∨ awake j k → awake j (update_pcb i (ProcessControlBlock.set_state ProcessState.Ready) k).
Proof.
  intros Hj p. unfold update_pcb. destruct (k.(process_table) !! i) as [[q|]|] eqn:Hq.
  - cbn. destruct (decide (i = j)) as [->|Hne].
    + rewrite list_lookup_insert_eq by (by eapply lookup_lt_Some). by intros [= <-].
    + rewrite list_lookup_insert_ne by done. destruct Hj as [|Hj]; [done|apply Hj].
  - intros Hp. destruct Hj as [->|Hj]; [congruence|by apply Hj].
  - intros Hp. destruct Hj as [->|Hj]; [congruence|by apply Hj].
Qed.

Lemma wake_receiver_ok pid i k :
  ∃ b k', wake_receiver pid i k = (Ok b, k') ∧ frame k k' ∧ ∀ j, i = j ∨ awake j k → awake j k'.
Proof.
  pose proof (frame_wake_receiver pid i k) as Hf. unfold wake_receiver in *.
  destruct (k.(process_table) !! i) as [[p|]|] eqn:Hp.
  2,3: exists false, k; split_and!; [done|done|intros j [->|Hj]; [intros p; congruence|done]].
  case_decide as Hb.
  - destruct (ready_mtss_ok pid i k) as [s Hs]. unfold mbind, M_bind in Hf |- *. rewrite Hs in Hf |- *.
    eexists true, _. split_and!; [done|exact Hf|]. intros j Hj. by apply awake_set_ready.
  - exists false, k. split_and!; [done|done|]. intros j [->|Hj]; [intros p'; congruence|done].
Qed.

Lemma make_ready_error pid k e :
  (make_threads_ready pid k).1 = Err e → e = KernelError.SchedulerFull.
Proof.
  unfold make_threads_ready. generalize (seq 0 (length k.(thread_table))). intros l. revert k.
  induction l as [|i l IH]; intros k; cbn; [done|]. unfold mbind, M_bind.
  destruct (ready_slot pid i k) as [[u|e'] k'] eqn:Hr; [apply IH|]. cbn. intros [= <-].
  unfold ready_slot in Hr. destruct (_ !! i) as [[x|]|]; [|done|done]. case_decide; [|done].
  destruct (mtss_call _ _) as [[?|?] ?]; by inversion Hr.
Qed.

(** what follows a successful push: the message stays, or it is withdrawn *)
Lemma wake_step n k L i l m pid :
  holds n k (<[i:=l ++ [m]]> L) → L !! i = Some l →
  let p := (woken ← wake_receiver pid i;
            if (woken : bool) then wake_or_undo pid i else mret tt) k in
  same_board k p.2 ∧
  match p.1 with
  | Ok _ => holds n p.2 (<[i:=l ++ [m]]> L) ∧ awake i p.2
  | Err e => e = KernelError.SchedulerFull ∧ holds n p.2 L
  end.
Proof.
  intros H Hl. destruct (wake_receiver_ok pid i k) as (b & k1 & Hw & Hf & Ha).
  specialize (Ha i (or_introl eq_refl)). unfold mbind, M_bind. rewrite Hw. pose proof (holds_frame _ _ _ _ Hf H) as H1.
  apply frame_board in Hf. destruct b; cbn; [|done]. unfold wake_or_undo.
  pose proof (thread_frame_make_ready pid k1) as Ht. pose proof (make_ready_error pid k1) as He.
  destruct (make_threads_ready pid k1) as [[u|e] k2]; cbn in *; apply thread_frame_frame in Ht as Hf2.
  - split; [by eapply board_trans, frame_board|]. split; [by eapply holds_frame|].
    unfold awake. by rewrite (thread_frame_processes _ _ Ht).
  - split; [by eapply board_trans; [eapply board_trans, frame_board|apply undo_board]|].
    split; [by apply He|]. eapply undo_step; [by eapply holds_frame|done].
Qed.

Lemma send_message_run sender receiver payload k :
  send_message sender receiver payload k =
    let k1 := set_message_sequence (wrap_add 64 k.(message_sequence) 1) k in
    match policy_authorize_ipc sender receiver payload.(MessagePayload.security_class) k.(security),
          locate_process receiver k with
    | Err e, _ => (Err (KernelError.SecurityViolation e), k)
    | Ok _, Err e => (Err e, k1)
    | Ok _, Ok i =>
        match push_message i (Message.mk sender receiver k.(message_sequence) payload) k1 with
        | (Ok _, k2) => (woken ← wake_receiver receiver i;
                         if (woken : bool) then wake_or_undo receiver i else mret tt) k2
        | (Err e, k2) => (Err e, k2)
        end
    end.
Proof.
  unfold send_message, gets, lift, next_message_sequence, mbind, M_bind. cbv beta iota zeta.
  destruct (policy_authorize_ipc _ _ _ _); [|done]. cbv beta iota.
  change (locate_process receiver (set_message_sequence _ k)) with (locate_process receiver k).
  destruct (locate_process receiver k); [|done]. by destruct (push_message _ _ _) as [[]].
Qed.

(** the outcome of a send: its result [r] and the kernel [k'] it leaves *)
Definition send_result n k L sender receiver payload (r : result KernelError.t unit) k' : Prop :=
  let verdict :=
    policy_authorize_ipc sender receiver payload.(MessagePayload.security_class) k.(security) in
  match r with
  | Ok _ => is_ok verdict = true ∧
      ∃ i l, locate_process receiver k = Ok i ∧ L !! i = Some l ∧ (length l < n)%nat ∧
        holds n k' (<[i:=l ++ [Message.mk sender receiver k.(message_sequence) payload]]> L) ∧
        awake i k'
  | Err e => holds n k' L ∧
      match e with
      | KernelError.SecurityViolation v => verdict = Err v
      | KernelError.UnknownProcess => is_ok (locate_process receiver k) = false
      | KernelError.MessageQueueFull =>
          ∃ i l, locate_process receiver k = Ok i ∧ L !! i = Some l ∧ (n ≤ length l)%nat
      | _ => e = KernelError.SchedulerFull
      end
  end.

Lemma send_step n k L sender receiver payload :
  holds n k L →
  let p := send_message sender receiver payload k in
  same_board k p.2 ∧ send_result n k L sender receiver payload p.1 p.2.
Proof.
  intros H. rewrite send_message_run. cbv zeta. unfold send_result.
  destruct (policy_authorize_ipc _ _ _ _) as [[]|e]; [|by cbn].
  set (k1 := set_message_sequence _ k). assert (H1 : holds n k1 L) by (destruct H; by split).
  destruct (locate_process receiver k) as [i|e] eqn:Hi.
  2: { assert (e = KernelError.UnknownProcess) as ->; [|by cbn].
       unfold locate_process in Hi. by destruct (find_slot _ _) in Hi; inversion Hi. }
  destruct (holds_slot n k1 L i receiver H1 Hi) as (q & l & _ & Hl & _).
  set (m := Message.mk _ _ _ _). pose proof (push_step n k1 L i l m H1 Hl) as Hp.
  pose proof (push_board i m k1) as Hb.
  destruct (push_message i m k1) as [[u|e] k2]; cbn [snd] in Hb.
  - destruct Hp as [Hn H2]. destruct (wake_step n k2 L i l m receiver H2 Hl) as [Hb2 Hw].
    split; [by eapply board_trans|].
    match type of Hb2 with same_board _ (?r.2) => destruct r as [[u'|e] k3] end; cbn [fst snd] in *.
    + destruct Hw as [H3 Ha]. split; [done|]. by exists i, l.
    + by destruct Hw as [-> H3].
  - destruct Hp as (-> & Hn & H2). split; [done|]. split; [done|]. by exists i, l.
Qed.

(** C30: sending a message is a transaction.  It succeeds only if the security kernel
    allows it, the receiver exists and its queue has room; then exactly this message,
    stamped with the next sequence number, is appended to the receiver's queue and the
    process of the receiver is not left blocked.  Every failure names its cause and leaves
    the contents of every queue as they were, also the failure that strikes after the
    message was enqueued, when the receiver's threads cannot be scheduled. *)
Theorem send_message_outcome n k L sender receiver payload :
  holds n k L →
  ∃ r k', send_message sender receiver payload k = (r, k') ∧
    k'.(security) = k.(security) ∧ pids k' = pids k ∧
    send_result n k L sender receiver payload r k'.
Proof.
  intros H. destruct (send_step n k L sender receiver payload H) as [[Hs Hp] Hr].
  destruct (send_message _ _ _ k) as [r k']. by exists r, k'.
Qed.

(** *** Sequences of kernel operations *)
Inductive event : Type :=
| Send (sender receiver : ProcessId) (payload : MessagePayload.t)
| Receive (pid : ProcessId)
| ReceiveOrBlock (pid : ProcessId)
| BlockForMessage (pid : ProcessId)
| BlockThread (thread : ThreadId)
| WakeThread (thread : ThreadId)
| SyscallFutex (user : UserAccess.t) (now : Z) (caller : ProcessId) (th : option ThreadId)
    (arg0 arg1 arg2 arg3 : Z)
| TimeoutOf (pid : ProcessId)
| ExpireFutexes (now : Z)
| ScheduleNext.

(** what an operation tells its caller about messages *)
Inductive seen : Type :=
| Accepted (m : Message.t)
| Delivered (pid : ProcessId) (m : Message.t)
| Silent.

Definition perform (e : event) k : seen * t S Q P :=
  match e with
  | Send sender receiver payload =>
      match send_message sender receiver payload k with
      | (Ok _, k') => (Accepted (Message.mk sender receiver k.(message_sequence) payload), k')
      | (Err _, k') => (Silent, k')
      end
  | Receive pid =>
      match receive_message pid k with
      | (Ok m, k') => (Delivered pid m, k')
      | (Err _, k') => (Silent, k')
      end
  | ReceiveOrBlock pid =>
      match receive_or_block pid k with
      | (Ok (Some m), k') => (Delivered pid m, k')
      | (_, k') => (Silent, k')
      end
  | BlockForMessage pid => (Silent, block_for_message pid k)
  | BlockThread thread => (Silent, (block_thread thread k).2)
  | WakeThread thread => (Silent, (wake_thread thread k).2)
  | SyscallFutex user now caller th arg0 arg1 arg2 arg3 =>
      (Silent, (syscall_futex user now caller th arg0 arg1 arg2 arg3 k).2)
  | TimeoutOf pid => (Silent, (wake_process_for_timeout pid k).2)
  | ExpireFutexes now => (Silent, wake_expired_futexes now k)
  | ScheduleNext => (Silent, (kernel_schedule_next k).2)
  end.

Fixpoint run (es : list event) k : list seen * t S Q P :=
  match es with
  | [] => ([], k)
  | e :: es => let '(o, k) := perform e k in let '(os, k) := run es k in (o :: os, k)
  end.

(** the messages accepted for, and delivered to, process [pid] *)
Definition accepted_for (pid : ProcessId) (o : seen) : list Message.t :=
  match o with
  | Accepted m => if decide (m.(Message.receiver) = pid) then [m] else []
  | _ => []
  end.
Definition delivered_to (pid : ProcessId) (o : seen) : list Message.t :=
  match o with
  | Delivered pid' m => if decide (pid' = pid) then [m] else []
  | _ => []
  end.

(** one operation keeps the account of every process's messages *)
Definition balanced (o : seen) k (L L' : list (list Message.t)) : Prop :=
  ∀ pid i, locate_process pid k = Ok i →
    ∃ l l', L !! i = Some l ∧ L' !! i = Some l' ∧ l ++ accepted_for pid o = delivered_to pid o ++ l'.

(** an accepted message was authorised *)
Definition lawful k (o : seen) : Prop :=
  match o with
  | Accepted m =>
      is_ok (policy_authorize_ipc m.(Message.sender) m.(Message.receiver)
        m.(Message.payload).(MessagePayload.security_class) k.(security)) = true
  | _ => True
  end.

Definition accounted n (o : seen) k k' L : Prop :=
  same_board k k' ∧ lawful k o ∧ ∃ L', holds n k' L' ∧ balanced o k L L'.

Lemma accounted_silent n k k' L :
  holds n k L → same_board k k' → holds n k' L → accounted n Silent k k' L.
Proof.
  intros H Hb H'. split; [done|]. split; [done|]. exists L. split; [done|].
  intros pid i Hi. destruct (holds_slot n k L i pid H Hi) as (_ & l & _ & Hl & _).
  exists l, l. by rewrite app_nil_r.
Qed.

Lemma accounted_frame n k k' L : holds n k L → frame k k' → accounted n Silent k k' L.
Proof. intros H Hf. apply accounted_silent; [done|by apply frame_board|by eapply holds_frame]. Qed.

Lemma accounted_push n k k' L i l sender receiver sequence payload :
  let m := Message.mk sender receiver sequence payload in
  holds n k L → same_board k k' → lawful k (Accepted m) →
  locate_process receiver k = Ok i → L !! i = Some l → holds n k' (<[i:=l ++ [m]]> L) →
  accounted n (Accepted m) k k' L.
Proof.
  intros m H Hb Hlaw Hi Hl H'. split; [done|]. split; [done|]. eexists. split; [exact H'|].
  intros pid j Hj. destruct (holds_slot n k L j pid H Hj) as (_ & l0 & _ & Hl0 & _). cbn.
  destruct (decide (receiver = pid)) as [->|Hne].
  - assert (j = i) as -> by congruence. exists l, (l ++ [m]). rewrite list_lookup_insert_eq; [done|].
    by eapply lookup_lt_Some.
  - assert (i ≠ j) by (intros ->; eauto using locate_inj).
    exists l0, l0. by rewrite list_lookup_insert_ne, app_nil_r.
Qed.

Lemma accounted_pop n k k' L i m l pid :
  holds n k L → same_board k k' → locate_process pid k = Ok i → L !! i = Some (m :: l) →
  holds n k' (<[i:=l]> L) → accounted n (Delivered pid m) k k' L.
Proof.
  intros H Hb Hi Hl H'. split; [done|]. split; [done|]. eexists. split; [exact H'|].
  intros pid' j Hj. destruct (holds_slot n k L j pid' H Hj) as (_ & l0 & _ & Hl0 & _). cbn.
  destruct (decide (pid = pid')) as [->|Hne].
  - assert (j = i) as -> by congruence. exists (m :: l), l. rewrite list_lookup_insert_eq, app_nil_r; [done|].
    by eapply lookup_lt_Some.
  - assert (i ≠ j) by (intros ->; eauto using locate_inj).
    exists l0, l0. by rewrite list_lookup_insert_ne, app_nil_r.
Qed.

Lemma accounted_send n k L sender receiver payload :
  holds n k L → let p := perform (Send sender receiver payload) k in accounted n p.1 k p.2 L.
Proof.
  intros H. cbn. destruct (send_step n k L sender receiver payload H) as [Hb Hr].
  destruct (send_message _ _ _ k) as [[u|e] k']; cbn in *.
  - destruct Hr as (Hv & i & l & Hi & Hl & _ & H' & _). by eapply accounted_push.
  - apply accounted_silent; [done|done|apply Hr].
Qed.

(** the head of an empty queue is nothing, and popping leaves it empty *)
Lemma accounted_empty n k k' L i :
  holds n k L → same_board k k' → L !! i = Some [] → holds n k' (<[i:=tl []]> L) →
  accounted n Silent k k' L.
Proof.
  intros H Hb Hl H'. apply accounted_silent; [done|done|]. cbn in H'. by rewrite list_insert_id in H'.
Qed.

Lemma accounted_receive n k L pid :
  holds n k L → let p := perform (Receive pid) k in accounted n p.1 k p.2 L.
Proof.
  intros H. cbn. unfold receive_message, gets, lift, mbind, M_bind.
  destruct (locate_process pid k) as [i|e] eqn:Hi; [|by apply accounted_frame; [|apply frame_refl]].
  destruct (holds_slot n k L i pid H Hi) as (_ & l & _ & Hl & _).
  destruct (pop_step n k L i l H Hl) as (k' & -> & H' & Hb).
  destruct l as [|m l]; cbn; [by eapply accounted_empty|by eapply accounted_pop].
Qed.

Lemma accounted_receive_or_block n k L pid :
  holds n k L → let p := perform (ReceiveOrBlock pid) k in accounted n p.1 k p.2 L.
Proof.
  intros H. cbn. unfold receive_or_block, gets, lift, mbind, M_bind.
  destruct (locate_process pid k) as [i|e] eqn:Hi; [|by apply accounted_frame; [|apply frame_refl]].
  destruct (holds_slot n k L i pid H Hi) as (_ & l & _ & Hl & _).
  destruct (pop_step n k L i l H Hl) as (k' & -> & H' & Hb).
  destruct l as [|m l]; cbn; [|by eapply accounted_pop].
  pose proof (frame_block_process pid i k') as Hf.
  eapply accounted_empty; [done|by eapply board_trans, frame_board|done|by eapply holds_frame].
Qed.

Lemma accounted_perform n e k L :
  holds n k L → let p := perform e k in accounted n p.1 k p.2 L.
Proof.
  intros H. destruct e; [by apply accounted_send|by apply accounted_receive
    |by apply accounted_receive_or_block|..]; apply accounted_frame; try done.
  - cbn. unfold block_for_message. destruct (locate_process _ _); [apply frame_block_process|apply frame_refl].
  - apply frame_block_thread.
  - apply frame_wake_thread.
  - apply frame_syscall_futex.
  - apply frame_wake_timeout.
  - apply frame_expired_futexes.
  - apply frame_schedule_next.
Qed.

(** C6: messages are delivered exactly once, in order, and only when allowed.  Over
    any sequence of sends, receives, blocking receives, thread and process wake-ups,
    futex operations, timeouts and scheduling decisions: the messages that were
    pending for a process, followed by those accepted for it, are those it received,
    in that order, followed by those still pending; every accepted message was
    authorised by the security kernel.  This holds for any scheduler, policy and
    message buffer that keep the promises of their interfaces. *)
Theorem delivery_exactly_once n es k L :
  holds n k L →
  let '(os, k') := run es k in
  ∃ L', holds n k' L' ∧ k'.(security) = k.(security) ∧ pids k' = pids k ∧
    (∀ o, o ∈ os → lawful k o) ∧
    ∀ pid i, locate_process pid k = Ok i →
      ∃ l l', L !! i = Some l ∧ L' !! i = Some l' ∧
        l ++ (os ≫= accepted_for pid) = (os ≫= delivered_to pid) ++ l'.
Proof.
  revert k L. induction es as [|e es IH]; intros k L H; cbn.
  - exists L. split_and!; [done|done|done|by intros o ?%elem_of_nil|].
    intros pid i Hi. destruct (holds_slot n k L i pid H Hi) as (_ & l & _ & Hl & _).
    exists l, l. by rewrite app_nil_r.
  - pose proof (accounted_perform n e k L H) as ([Hs Hp] & Hlaw & L1 & H1 & Hbal).
    destruct (perform e k) as [o k1]. cbn [fst snd] in *.
    specialize (IH k1 L1 H1). destruct (run es k1) as [os k2].
    destruct IH as (L2 & H2 & Hs2 & Hp2 & Hlaws & Hbals).
    exists L2. split_and!; [done|congruence|congruence| |].
    + intros o' [->|Ho]%elem_of_cons; [done|]. specialize (Hlaws o' Ho). destruct o'; cbn in *; congruence.
    + intros pid i Hi. destruct (Hbal pid i Hi) as (l & l1 & Hl & Hl1 & E1).
      destruct (Hbals pid i) as (l1' & l2 & Hl1' & Hl2 & E2); [by rewrite (locate_frame pid k k1)|].
      exists l, l2. split_and!; [done|done|]. cbn. assert (l1' = l1) as -> by congruence.
      by rewrite app_assoc, E1, <- !app_assoc, E2.
Qed.

(** ** Waiting on a futex *)
Lemma enqueue_waits key thread deadline s s' :
  FutexTable.enqueue key thread deadline s = (Ok tt, s') →
  Some (FutexWaiter.mk key thread deadline) ∈ s'.(FutexTable.waiters).
Proof.
  unfold FutexTable.enqueue. destruct (find_slot _ _) as [i|] eqn:Hf.
  - intros [= <-]. cbn. apply elem_of_insert_slot_new. by eapply find_slot_lt.
  - destruct (free_slot _) as [i|] eqn:Hi; [|done]. intros [= <-]. cbn.
    apply elem_of_insert_slot_new. eapply lookup_lt_Some. by apply free_slot_Some.
Qed.

Lemma enqueue_refused key thread deadline s e s' :
  FutexTable.enqueue key thread deadline s = (Err e, s') → s' = s.
Proof.
  unfold FutexTable.enqueue. destruct (find_slot _ _); [done|]. destruct (free_slot _); [done|].
  by intros [= _ <-].
Qed.

(** a call into the scheduler about a process changes no thread and no futex *)
Lemma block_idle_threads pid k :
  (block_idle_process pid k).(thread_table) = k.(thread_table) ∧
  (block_idle_process pid k).(futexes) = k.(futexes).
Proof.
  unfold block_idle_process. destruct (has_runnable_thread _ k); [done|].
  destruct (locate_process _ k) as [j|]; [|done].
  destruct (_ !! j) as [[p|]|]; [|done|done]. case_decide; [|done].
  unfold set_process_blocked_via_mtss, mtss_block_process, mtss_call, mbind, M_bind.
  destruct (sched_block_task _ _) as [r sch]. destruct (tolerate _ r); [|done].
  unfold modify, update_pcb. cbn. by destruct (_ !! j) as [[q|]|].
Qed.

Lemma block_thread_run thread k i x :
  locate_thread thread k = Ok i → k.(thread_table) !! i = Some (Some x) →
  let '(r, k') := block_thread thread k in
  r = tolerate MtssTypes.MtssError.InvalidThread (sched_block_thread thread k.(mtss_scheduler)).1 ∧
  k'.(thread_table) !! i = Some (Some (ThreadControlBlock.block x)) ∧ k'.(futexes) = k.(futexes).
Proof.
  intros Hi Hx. unfold block_thread, gets, lift, modify, mbind, M_bind. rewrite Hi, Hx. cbn.
  unfold update_tcb. rewrite Hx. unfold mtss_block_thread, mtss_call. cbn.
  destruct (sched_block_thread thread _) as [r s]. cbn.
  assert (Hlt := lookup_lt_Some _ _ _ Hx).
  destruct (tolerate _ r) as [[]|e]; cbn; [|by rewrite list_lookup_insert_eq].
  match goal with |- context [block_idle_process ?p ?k0] => destruct (block_idle_threads p k0) as [-> ->] end.
  cbn. by rewrite list_lookup_insert_eq.
Qed.

(** C32: waiting on a futex does not lose a wake-up.  For a caller whose address and
    timeout are valid: if the word no longer has the expected value the call fails
    and the kernel is unchanged; if the table has no room likewise; otherwise the
    thread is blocked and stands in the wait table under its key and deadline when
    the call returns, so a later wake finds it.  The call returns 0 exactly when the
    scheduler accepts the block or does not know the thread. *)
Theorem futex_wait_outcome user now caller thread arg0 arg1 arg2 arg3 key observed deadline i x k :
  Z.land arg1 FUTEX_CMD_MASK = FUTEX_WAIT →
  futex_key user caller arg0 k = Ok key →
  user.(UserAccess.read_i32) arg0 = Ok observed →
  futex_deadline user now arg3 = Ok deadline →
  locate_thread thread k = Ok i → k.(thread_table) !! i = Some (Some x) →
  let '(r, k') := syscall_futex user now caller (Some thread) arg0 arg1 arg2 arg3 k in
  if decide (observed ≠ as_i32 arg2) then r = Err KernelError.MessageQueueEmpty ∧ k' = k
  else if is_ok (FutexTable.enqueue key thread deadline k.(futexes)).1 then
    k'.(thread_table) !! i = Some (Some (ThreadControlBlock.block x)) ∧
    Some (FutexWaiter.mk key thread deadline) ∈ k'.(futexes).(FutexTable.waiters) ∧
    match tolerate MtssTypes.MtssError.InvalidThread
            (sched_block_thread thread k.(mtss_scheduler)).1 with
    | Ok _ => r = Ok 0
    | Err e => r = Err e
    end
  else r = Err KernelError.AllocationFailed ∧ k' = k.
Proof.
  intros Hc Hk Ho Hd Hi Hx. unfold syscall_futex, gets, lift, mbind, M_bind. rewrite Hk, Hc.
  rewrite decide_True by done. unfold futex_wait, lift, mbind, M_bind. cbn [ok_or]. rewrite Ho, Hd.
  case_decide as Hv; [done|]. unfold futex_enqueue.
  destruct (FutexTable.enqueue key thread deadline k.(futexes)) as [[[]|e] v] eqn:He; cbn [is_ok fst].
  - apply enqueue_waits in He. pose proof (block_thread_run thread (set_futexes v k) i x Hi Hx) as H.
    destruct (block_thread thread (set_futexes v k)) as [r k']. destruct H as (Hr & Ht & Hf).
    cbn in Hr, Hf. rewrite <- Hr, <- Hf in *. by destruct r.
  - apply enqueue_refused in He as ->. split; [done|]. by destruct k.
Qed.
End messages.

(** ** A kernel in use

    Two processes, each with a domain and an endpoint capability; process 2 has the
    threads 20 and 21, both ready and queued. *)
Definition kernel : Type := t Mtss.t MessageQueue.t SecurityKernel.t.

Definition demo_mtss : Mtss.t :=
  (((Mtss.create_task 1 None 0 0 ;; Mtss.create_task 2 None 0 0 ;;
     Mtss.create_thread 1 10 0 ;; Mtss.create_thread 2 20 0 ;; Mtss.create_thread 2 21 0 ;;
     Mtss.enqueue_thread 20 ;; Mtss.enqueue_thread 21) : Mtss.Op unit)
    (Mtss.new 4 8 8 4 MtssConfig.default)).2.

Definition demo_security : SecurityKernel.t :=
  let s := (SecurityKernel.register_task 1 Credentials.system (SecurityKernel.new 4)).2 in
  (SecurityKernel.register_task 2 Credentials.system s).2.

Definition demo_process (pid : ProcessId) : ProcessControlBlock.t :=
  ProcessControlBlock.new 4 pid 4096 ProcessPriority.Normal None.
Definition demo_tcb (id : ThreadId) (process : ProcessId) : ThreadControlBlock.t :=
  ThreadControlBlock.new id process 4096 ProcessPriority.Normal 8192.

Definition demo_kernel : kernel :=
  mk [Some (demo_process 1); Some (demo_process 2)]
     [MessageQueue.new 2; MessageQueue.new 2] demo_mtss None demo_security
     [Some (demo_tcb 10 1); Some (demo_tcb 20 2); Some (demo_tcb 21 2); None]
     (TimerManager.add_sleep 2 None 40 (TimerManager.new 2 2)).2 (FutexTable.new 4) 1.

Definition demo_payload : MessagePayload.t := MessagePayload.from_slice SecurityClass.Public [104; 105].

Definition blocked_kernel : kernel := (run [ReceiveOrBlock 2] demo_kernel).2.

(** the threads with a record in the scheduler's run queue *)
Definition queued (k : kernel) : list ThreadId :=
  Sched.thread <$> occupied k.(mtss_scheduler).(Mtss.run_queue).(RunQueue.queue).

(** A process that blocks for a message keeps running.  [receive_or_block] on an
    empty queue marks the process and its threads blocked, but MTSS still has a
    record of each of them: the next scheduling decision dispatches a thread that is
    blocked, of a process that is blocked.  When a message arrives the threads are
    queued a second time. *)
Theorem blocked_process_still_dispatched :
  ∃ record p x, receive_or_block 2 demo_kernel = (Ok None, blocked_kernel) ∧
    (kernel_schedule_next blocked_kernel).1 = Some record ∧
    blocked_kernel.(process_table) !! 1%nat = Some (Some p) ∧
    blocked_kernel.(thread_table) !! 1%nat = Some (Some x) ∧
    record.(Sched.process) = p.(ProcessControlBlock.pid) ∧
    p.(ProcessControlBlock.state) = ProcessState.Blocked ∧
    record.(Sched.thread) = x.(ThreadControlBlock.id) ∧
    x.(ThreadControlBlock.state) = ThreadBlock.ThreadState.Blocked ∧
    queued blocked_kernel = [20; 21] ∧
    queued (run [Send 1 2 demo_payload] blocked_kernel).2 = [20; 21; 20; 21].
Proof.
  exists (Sched.new 20 2 ProcessPriority.Normal 4).
  exists (ProcessControlBlock.set_state ProcessState.Blocked (demo_process 2)).
  exists (ThreadControlBlock.block (demo_tcb 20 2)).
  split_and!; vm_compute; reflexivity.
Qed.

Lemma demo_kernel_holds : holds 2 demo_kernel [[]; []].
Proof. split; [|by vm_compute]. repeat constructor; apply MessageQueue.rep_new. Qed.

Lemma send_message_outcome_witness :
  ∃ r k', send_message 1 2 demo_payload demo_kernel = (r, k') ∧
    send_result 2 demo_kernel [[]; []] 1 2 demo_payload r k' ∧ r = Ok tt.
Proof.
  destruct (send_message_outcome 2 demo_kernel [[]; []] 1 2 demo_payload demo_kernel_holds)
    as (r & k' & Hs & _ & _ & Hr).
  exists r, k'. split; [exact Hs|]. split; [exact Hr|].
  apply (f_equal fst) in Hs. cbn [fst] in Hs. rewrite <- Hs. vm_compute. reflexivity.
Defined.

Lemma delivery_exactly_once_witness :
  ∃ os k' l', run [ReceiveOrBlock 2; Send 1 2 demo_payload; Send 1 2 demo_payload; Receive 2] demo_kernel
      = (os, k') ∧
    (os ≫= accepted_for 2) = (os ≫= delivered_to 2) ++ l' ∧ length (os ≫= delivered_to 2) = 1%nat.
Proof.
  pose proof (delivery_exactly_once 2
    [ReceiveOrBlock 2; Send 1 2 demo_payload; Send 1 2 demo_payload; Receive 2]
    demo_kernel [[]; []] demo_kernel_holds) as H.
  destruct (run _ _) as [os k'] eqn:E. destruct H as (L' & _ & _ & _ & _ & H).
  destruct (H 2 1%nat) as (l & l' & Hl & _ & Hd); [vm_compute; reflexivity|].
  injection Hl as <-. exists os, k', l'. split; [reflexivity|]. split; [exact Hd|].
  apply (f_equal fst) in E. cbn [fst] in E. rewrite <- E. vm_compute. reflexivity.
Defined.

(** every user address is valid and holds the word 7; no timeout *)
Definition demo_user : UserAccess.t :=
  UserAccess.mk (λ _, Ok tt) (λ _, Ok 7) (λ _, Err KernelError.InvalidPointer).

Lemma futex_wait_outcome_witness :
  let '(r, k') := syscall_futex demo_user 0 2 (Some 20) 4096 FUTEX_WAIT 7 0 demo_kernel in
  k'.(thread_table) !! 1%nat = Some (Some (ThreadControlBlock.block (demo_tcb 20 2))) ∧
  Some (FutexWaiter.mk (FutexKey.mk 2 4096) 20 None) ∈ k'.(futexes).(FutexTable.waiters) ∧ r = Ok 0.
Proof.
  pose proof (futex_wait_outcome demo_user 0 2 20 4096 FUTEX_WAIT 7 0 (FutexKey.mk 2 4096) 7 None 1%nat
    (demo_tcb 20 2) demo_kernel) as H.
  destruct (syscall_futex _ _ _ _ _ _ _ _ _) as [r k'].
  apply H; vm_compute; reflexivity.
Defined.
