(* ===== verification/KernelTimeouts.v ===== *)
(** * What the timer interrupt does to processes and threads

    The timeout work of the timer interrupt ([KernelCore.Kernel.wake_expired_timeouts]),
    followed down to the threads and to the calls made to the scheduler.  The theorem
    holds for any scheduler that keeps the promises of its interface. *)

From stdpp Require Import prelude.
From S2P Require Import Prelude Slots MtssTypes RunQueue Mtss Subkernel Process ThreadBlock Ipc Timer Futex Abi KernelCore KernelSafety.
Import Kernel.

Local Open Scope Z_scope.

(** ** Tables of which the first slots have been visited *)
Definition upto {A} (n : nat) (f : A → A) (l : list A) : list A :=
  imap (λ j x, if decide (j < n)%nat then f x else x) l.
Lemma upto_lookup {A} n (f : A → A) l j : upto n f l !! j = (λ x, if decide (j < n)%nat then f x else x) <$> l !! j.
Proof. apply list_lookup_imap. Qed.
Lemma upto_0 {A} (f : A → A) l : upto 0 f l = l.
Proof. apply list_eq. intros j. rewrite upto_lookup. by destruct (l !! j). Qed.
Lemma upto_all {A} n (f : A → A) l : (length l ≤ n)%nat → upto n f l = f <$> l.
Proof.
  intros Hn. apply list_eq. intros j. rewrite upto_lookup, list_lookup_fmap. destruct (l !! j) eqn:E; [|done]. cbn.
  apply lookup_lt_Some in E. by rewrite decide_True by lia.
Qed.
Lemma upto_S {A} n (f : A → A) l x : l !! n = Some x → upto (S n) f l = <[n := f x]> (upto n f l).
Proof.
  intros Hx. apply list_eq. intros j. destruct (decide (j = n)) as [->|].
  - rewrite list_lookup_insert_eq, upto_lookup, Hx by (unfold upto; rewrite length_imap; by eapply lookup_lt_Some). cbn. by rewrite decide_True by lia.
  - rewrite list_lookup_insert_ne, !upto_lookup by done. destruct (l !! j); [|done]. cbn. repeat case_decide; (done || lia).
Qed.
Lemma upto_S_id {A} n (f : A → A) l : (∀ x, l !! n = Some x → f x = x) → upto (S n) f l = upto n f l.
Proof.
  intros Hx. apply list_eq. intros j. rewrite !upto_lookup. destruct (l !! j) eqn:E; [|done]. cbn. f_equal.
  repeat case_decide; try (done || lia). apply Hx. by replace n with j by lia.
Qed.
Lemma upto_at {A} n (f : A → A) l : upto n f l !! n = l !! n.
Proof. rewrite upto_lookup. destruct (l !! n); [|done]. cbn. by rewrite decide_False by lia. Qed.
Lemma upto_upto {A} n (f g : A → A) l : upto n f (upto n g l) = upto n (f ∘ g) l.
Proof. apply list_eq. intros j. rewrite !upto_lookup. destruct (l !! j); [|done]. cbn. by case_decide. Qed.
Lemma upto_ext {A} n (f g : A → A) l : (∀ x, f x = g x) → upto n f l = upto n g l.
Proof. intros H. apply list_eq. intros j. rewrite !upto_lookup. destruct (l !! j); [|done]. cbn. by rewrite H. Qed.
Lemma fmap_upto {A B} (h : A → B) n (f : A → A) (g : B → B) l : (∀ x, h (f x) = g (h x)) → h <$> upto n f l = upto n g (h <$> l).
Proof.
  intros H. apply list_eq. intros j. rewrite list_lookup_fmap, !upto_lookup, list_lookup_fmap. destruct (l !! j); [|done]. cbn. f_equal.
  by case_decide.
Qed.

(** ** Calls to the scheduler *)
Module SchedulerCall.
Inductive t : Type := MarkTaskReady (task : ProcessId) | WakeThread (thread : ThreadId) | BlockThread (thread : ThreadId).
Definition perform {S} `{!Scheduler S} (c : t) : M S MtssError unit :=
  match c with
  | MarkTaskReady task => sched_mark_task_ready task
  | WakeThread thread => sched_wake_thread thread
  | BlockThread thread => sched_block_thread thread
  end.
End SchedulerCall.
Import SchedulerCall.
Abbreviation Call := (SchedulerCall.t * result MtssError unit)%type.
(** the calls, with their answers, that take a scheduler from one state to another *)
Inductive scheduler_calls {S} `{!Scheduler S} : S → list Call → S → Prop :=
  | no_calls s : scheduler_calls s [] s
  | one_call s c r s' l s'' : perform c s = (r, s') → scheduler_calls s' l s'' → scheduler_calls s ((c, r) :: l) s''.

(** ** The threads of a process *)
Abbreviation Slot := (option ThreadControlBlock.t).
Definition of_process (pid : ProcessId) (o : Slot) : Slot :=
  x ← o; if decide (x.(ThreadControlBlock.process) = pid) then Some x else None.
(** a blocked thread becomes ready *)
Definition woken (o : Slot) : Slot :=
  x ← o; Some (if decide (x.(ThreadControlBlock.state) = ThreadState.Blocked) then ThreadControlBlock.mark_ready x else x).
(** a ready thread becomes blocked *)
Definition stopped (o : Slot) : Slot :=
  x ← o; Some (if decide (x.(ThreadControlBlock.state) = ThreadState.Ready) then ThreadControlBlock.block x else x).
(** the threads [v] of a process after an attempt to wake them: the scheduler has accepted
    all that were blocked, and they are ready; or it refused one, which is still blocked,
    as are the blocked ones before it, and ready ones before it are blocked as well *)
Definition threads_outcome (v v' : list Slot) (calls : list Call) : Prop :=
  (v' = woken <$> v ∧ ∀ x, Some x ∈ v → x.(ThreadControlBlock.state) = ThreadState.Blocked →
     (WakeThread x.(ThreadControlBlock.id), Ok tt) ∈ calls) ∨
  ∃ j x e, v !! j = Some (Some x) ∧ x.(ThreadControlBlock.state) = ThreadState.Blocked ∧
    (WakeThread x.(ThreadControlBlock.id), Err e) ∈ calls ∧ v' = upto j stopped v.

(** the same two steps where the table has the threads of all processes *)
Definition woken_in (pid : ProcessId) (o : Slot) : Slot :=
  x ← o; Some (if decide (x.(ThreadControlBlock.process) = pid ∧ x.(ThreadControlBlock.state) = ThreadState.Blocked)
               then ThreadControlBlock.mark_ready x else x).
Definition stopped_in (pid : ProcessId) (o : Slot) : Slot :=
  x ← o; Some (if decide (x.(ThreadControlBlock.process) = pid ∧ x.(ThreadControlBlock.state) = ThreadState.Ready)
               then ThreadControlBlock.block x else x).
Ltac slot_cases o :=
  destruct o as [[]|]; cbn; repeat (case_decide; cbn in *); (done || naive_solver congruence).
Lemma of_process_woken pid o : of_process pid (woken_in pid o) = woken (of_process pid o).
Proof. slot_cases o. Qed.
Lemma of_process_stopped pid o : of_process pid (stopped_in pid o) = stopped (of_process pid o).
Proof. slot_cases o. Qed.
Lemma of_process_woken_ne pid pid' o : pid ≠ pid' → of_process pid (woken_in pid' o) = of_process pid o.
Proof. intros. slot_cases o. Qed.
Lemma of_process_stopped_ne pid pid' o : pid ≠ pid' → of_process pid (stopped_in pid' o) = of_process pid o.
Proof. intros. slot_cases o. Qed.
Lemma stopped_woken pid o : stopped_in pid (woken_in pid o) = stopped_in pid o.
Proof. slot_cases o. Qed.

Section timeouts.
  Context {S Q P : Type} `{!Scheduler S, !SchedulerLaws S, !MessageBuffer Q, !IpcPolicy P}.
  Implicit Types k : Kernel.t S Q P.

Lemma scheduler_calls_app (s1 s2 s3 : S) l1 l2 : scheduler_calls s1 l1 s2 → scheduler_calls s2 l2 s3 → scheduler_calls s1 (l1 ++ l2) s3.
Proof. intros H1 H2. induction H1; [done|]. cbn. econstructor; [done|auto]. Qed.
Lemma mtss_call_calls c k : scheduler_calls k.(mtss_scheduler) [(c, (mtss_call (perform c) k).1)] (mtss_call (perform c) k).2.(mtss_scheduler).
Proof. unfold mtss_call. destruct (perform c _) as [r s] eqn:E. cbn. econstructor; [exact E|constructor]. Qed.
Lemma mtss_call_threads {A} (m : M S MtssError A) k : (mtss_call m k).2.(thread_table) = k.(thread_table).
Proof. unfold mtss_call. by destruct (m _). Qed.
Lemma update_tcb_table i f k x : k.(thread_table) !! i = Some (Some x) →
  (update_tcb i f k).(thread_table) = <[i := Some (f x)]> k.(thread_table) ∧ (update_tcb i f k).(mtss_scheduler) = k.(mtss_scheduler).
Proof. intros H. unfold update_tcb. by rewrite H. Qed.

(** ** Waking the threads of a process *)
Lemma rollback_threads pid n k : ∃ calls,
  scheduler_calls k.(mtss_scheduler) calls (rollback_ready_threads pid n k).(mtss_scheduler) ∧
  (rollback_ready_threads pid n k).(thread_table) = upto n (stopped_in pid) k.(thread_table).
Proof.
  unfold rollback_ready_threads. induction n as [|n (calls & Hc & Ht)]; [exists []; split; [constructor|by rewrite upto_0]|].
  rewrite seq_S, foldl_app. cbn [foldl Nat.add]. set (k1 := foldl _ k (seq 0 n)) in *. unfold rollback_slot.
  assert (∀ o, k.(thread_table) !! n = Some o → stopped_in pid o = o → ∃ calls', scheduler_calls k.(mtss_scheduler) calls' k1.(mtss_scheduler) ∧
    k1.(thread_table) = upto (Datatypes.S n) (stopped_in pid) k.(thread_table)) as Hid.
  { intros o Ho E. exists calls. split; [done|]. rewrite upto_S_id; [done|]. congruence. }
  rewrite Ht, upto_at. destruct (k.(thread_table) !! n) as [[x|]|] eqn:Ex; [|by apply (Hid None)|].
  2:{ exists calls. split; [done|]. rewrite upto_S_id; [done|]. congruence. }
  case_decide as Hd; [|apply (Hid (Some x)); [done|cbn; by rewrite decide_False]].
  destruct (update_tcb_table n ThreadControlBlock.block k1 x) as [Eu Es]; [by rewrite Ht, upto_at|].
  eexists. split; [eapply scheduler_calls_app; [exact Hc|]; rewrite <- Es; apply (mtss_call_calls (BlockThread _))|].
  rewrite mtss_call_threads, Eu, Ht, (upto_S _ _ _ _ Ex). cbn. by rewrite decide_True.
Qed.

(** the loop of [make_threads_ready], from slot [i] on *)
Lemma ready_threads pid (v : list Slot) (s : S) n i k calls :
  k.(thread_table) = upto i (woken_in pid) v → scheduler_calls s calls k.(mtss_scheduler) →
  (∀ j x, (j < i)%nat → v !! j = Some (Some x) → x.(ThreadControlBlock.process) = pid →
     x.(ThreadControlBlock.state) = ThreadState.Blocked → (WakeThread x.(ThreadControlBlock.id), Ok tt) ∈ calls) →
  ∃ calls', let '(r, k') := mfor (seq i n) (ready_slot pid) k in
    scheduler_calls s (calls ++ calls') k'.(mtss_scheduler) ∧
    match r with
    | Ok _ => k'.(thread_table) = upto (i + n) (woken_in pid) v ∧
        ∀ j x, (j < i + n)%nat → v !! j = Some (Some x) → x.(ThreadControlBlock.process) = pid →
          x.(ThreadControlBlock.state) = ThreadState.Blocked → (WakeThread x.(ThreadControlBlock.id), Ok tt) ∈ calls ++ calls'
    | Err _ => ∃ j x e, v !! j = Some (Some x) ∧ x.(ThreadControlBlock.process) = pid ∧
        x.(ThreadControlBlock.state) = ThreadState.Blocked ∧ (WakeThread x.(ThreadControlBlock.id), Err e) ∈ calls' ∧
        k'.(thread_table) = upto j (stopped_in pid) v
    end.
Proof.
  revert i k calls. induction n as [|n IH]; intros i k calls Ht Hc Hw.
  { exists []. cbn. by rewrite app_nil_r, Nat.add_0_r. }
  cbn [seq mfor]. unfold mbind, M_bind. unfold ready_slot at 1. rewrite Ht, upto_at.
  replace (i + Datatypes.S n)%nat with (Datatypes.S i + n)%nat by lia.
  assert ((∀ x, v !! i = Some (Some x) → ¬ (x.(ThreadControlBlock.process) = pid ∧ x.(ThreadControlBlock.state) = ThreadState.Blocked)) →
    k.(thread_table) = upto (Datatypes.S i) (woken_in pid) v ∧
    ∀ j x, (j < Datatypes.S i)%nat → v !! j = Some (Some x) → x.(ThreadControlBlock.process) = pid →
     x.(ThreadControlBlock.state) = ThreadState.Blocked → (WakeThread x.(ThreadControlBlock.id), Ok tt) ∈ calls) as Hskip.
  { intros Hx. split.
    - rewrite upto_S_id; [done|]. intros [x|] E; [|done]. cbn. by rewrite decide_False by by apply Hx.
    - intros j x Hj E H1 H2. destruct (decide (j = i)) as [->|]; [by destruct (Hx x E)|]. apply (Hw j); [lia|done..]. }
  destruct (v !! i) as [[x|]|] eqn:Ex.
  2,3: destruct Hskip as [Ht' Hw']; [done|]; exact (IH _ _ _ Ht' Hc Hw').
  case_decide as Hd; [|destruct Hskip as [Ht' Hw']; [by intros y [= <-]|]; exact (IH _ _ _ Ht' Hc Hw')].
  destruct (update_tcb_table i ThreadControlBlock.mark_ready k x) as [Eu Es]; [by rewrite Ht, upto_at|].
  set (k1 := update_tcb i _ k) in *. pose proof (mtss_call_calls (WakeThread x.(ThreadControlBlock.id)) k1) as Hcall.
  pose proof (mtss_call_threads (perform (WakeThread x.(ThreadControlBlock.id))) k1) as Htab. cbn [perform] in *.
  rewrite Eu, Ht in Htab. rewrite Es in Hcall. destruct (mtss_call _ k1) as [[[]|e] k2]; cbn [fst snd] in *.
  - destruct (IH (Datatypes.S i) k2 (calls ++ [(WakeThread x.(ThreadControlBlock.id), Ok tt)])) as (calls' & H).
    + rewrite Htab, (upto_S _ _ _ _ Ex). cbn. by rewrite decide_True.
    + by eapply scheduler_calls_app.
    + intros j y Hj Hy H1 H2. apply elem_of_app. destruct (decide (j = i)) as [->|]; [|left; apply (Hw j); [lia|done..]].
      right. apply list_elem_of_singleton. congruence.
    + exists ((WakeThread x.(ThreadControlBlock.id), Ok tt) :: calls'). destruct (mfor _ _ k2) as [[u|e] k']; rewrite <-app_assoc in H; cbn in H; [exact H|].
      destruct H as [H1 (j & y & e' & H2 & H3 & H4 & H5 & H6)]. split; [exact H1|]. exists j, y, e'. split_and!; [done..|by right|done].
  - destruct (update_tcb_table i ThreadControlBlock.block k2 (ThreadControlBlock.mark_ready x)) as [Eu2 Es2].
    { rewrite Htab, list_lookup_insert_eq; [done|]. unfold upto. rewrite length_imap. by eapply lookup_lt_Some. }
    set (k3 := update_tcb i _ k2) in *. destruct (rollback_threads pid i k3) as (calls' & Hc' & Ht').
    exists ((WakeThread x.(ThreadControlBlock.id), Err e) :: calls'). split.
    + eapply scheduler_calls_app; [exact Hc|]. eapply (scheduler_calls_app _ _ _ [_]); [exact Hcall|]. by rewrite <- Es2.
    + exists i, x, e. split_and!; [done|apply Hd|apply Hd|by left|]. rewrite Ht', Eu2, Htab, list_insert_insert_eq.
      rewrite list_insert_id; [by rewrite upto_upto; apply upto_ext, stopped_woken|]. rewrite upto_at, Ex.
      destruct x, Hd as [_ Hd]. cbn in *. by rewrite Hd.
Qed.

Definition threads_of (pid : ProcessId) k : list Slot := of_process pid <$> k.(thread_table).
Lemma elem_of_threads_of pid k x : Some x ∈ threads_of pid k ↔
  ∃ j, k.(thread_table) !! j = Some (Some x) ∧ x.(ThreadControlBlock.process) = pid.
Proof.
  unfold threads_of. rewrite list_elem_of_fmap. split.
  - intros ([y|] & E & [j Hj]%list_elem_of_lookup); cbn in E; [|done]. case_decide; [|done]. injection E as ->. by exists j.
  - intros (j & Hj & Hp). exists (Some x). split; [cbn; by rewrite decide_True|]. by eapply list_elem_of_lookup_2.
Qed.
Lemma make_threads_ready_outcome pid k : ∃ calls, let k' := (make_threads_ready pid k).2 in
  scheduler_calls k.(mtss_scheduler) calls k'.(mtss_scheduler) ∧
  threads_outcome (threads_of pid k) (threads_of pid k') calls ∧
  ∀ pid', pid' ≠ pid → threads_of pid' k' = threads_of pid' k.
Proof.
  destruct (ready_threads pid k.(thread_table) k.(mtss_scheduler) (length k.(thread_table)) 0 k []) as (calls & H);
    [by rewrite upto_0|constructor|lia|]. exists calls. unfold make_threads_ready. destruct (mfor _ _ k) as [r k']. cbn [snd app] in *.
  destruct H as [Hc Hr]. split; [done|]. unfold threads_of. destruct r as [[]|e].
  - destruct Hr as [Ht Hw]. split; [left; split|].
    + rewrite Ht, (fmap_upto _ _ _ woken) by apply of_process_woken. rewrite upto_all; [done|]. by rewrite length_fmap.
    + intros x (j & Hj & Hp)%(elem_of_threads_of pid k) Hb. apply (Hw j); [|done..]. by eapply lookup_lt_Some.
    + intros pid' Hne. rewrite Ht, (fmap_upto _ _ _ id) by (intros; by apply of_process_woken_ne). rewrite upto_all by (by rewrite length_fmap).
      apply list_fmap_id.
  - destruct Hr as (j & x & e' & Hj & Hp & Hb & Hin & Ht). split; [right; exists j, x, e'; split_and!; [|done..|]|].
    + rewrite list_lookup_fmap, Hj. cbn. by rewrite decide_True.
    + rewrite Ht. apply fmap_upto, of_process_stopped.
    + intros pid' Hne. rewrite Ht, (fmap_upto _ _ _ id) by (intros; by apply of_process_stopped_ne).
      apply list_eq. intros i. rewrite upto_lookup. destruct (_ !! i); [|done]. cbn. by case_decide.
Qed.

(** ** Waking processes *)
Definition pcb_of (pid : ProcessId) k : option ProcessControlBlock.t :=
  match locate_process pid k with Ok i => mjoin (k.(process_table) !! i) | Err _ => None end.
Definition is_blocked (pid : ProcessId) k : bool :=
  match pcb_of pid k with Some p => bool_decide (p.(ProcessControlBlock.state) = ProcessState.Blocked) | None => false end.
(** a blocked process has been made ready, and its threads with it if the scheduler agreed *)
Definition process_woken (pid : ProcessId) k k' (calls : list Call) : Prop :=
  pcb_of pid k' = ProcessControlBlock.set_state ProcessState.Ready <$> pcb_of pid k ∧
  (∃ r, (MarkTaskReady pid, r) ∈ calls) ∧ threads_outcome (threads_of pid k) (threads_of pid k') calls.
Definition process_kept (pid : ProcessId) k k' : Prop :=
  pcb_of pid k' = pcb_of pid k ∧ threads_of pid k' = threads_of pid k.
(** what waking the processes [ps] one after the other does *)
Record wakes (ps : list ProcessId) k k' (calls : list Call) : Prop := {
  wk_calls : scheduler_calls k.(mtss_scheduler) calls k'.(mtss_scheduler);
  wk_each : ∀ pid, if bool_decide (pid ∈ ps) && is_blocked pid k then process_woken pid k k' calls else process_kept pid k k'
}.
Lemma threads_outcome_mono v v' calls calls' : (∀ c, c ∈ calls → c ∈ calls') → threads_outcome v v' calls → threads_outcome v v' calls'.
Proof. intros H [[E Hx]|(j & x & e & H1 & H2 & H3 & H4)]; [left; eauto|right; exists j, x, e; auto]. Qed.
Lemma is_blocked_kept pid k k' : process_kept pid k k' → is_blocked pid k' = is_blocked pid k.
Proof. intros [E _]. unfold is_blocked. by rewrite E. Qed.
Lemma is_blocked_woken pid k k' calls : process_woken pid k k' calls → is_blocked pid k' = false.
Proof. intros (E & _). unfold is_blocked. rewrite E. by destruct (pcb_of pid k). Qed.
Lemma wakes_nil k : wakes [] k k [].
Proof. split; [constructor|done]. Qed.
Lemma wakes_app ps ps' k k' k'' calls calls' : wakes ps k k' calls → wakes ps' k' k'' calls' → wakes (ps ++ ps') k k'' (calls ++ calls').
Proof.
  intros [Hc1 H1] [Hc2 H2]. split; [by eapply scheduler_calls_app|]. intros pid. specialize (H1 pid). specialize (H2 pid).
  destruct (bool_decide (pid ∈ ps) && is_blocked pid k) eqn:E1.
  - rewrite (is_blocked_woken _ _ _ _ H1), andb_false_r in H2. apply andb_true_iff in E1 as [Ep ->].
    rewrite (bool_decide_eq_true_2 (pid ∈ ps ++ ps')) by (apply elem_of_app; left; by apply bool_decide_eq_true in Ep).
    destruct H1 as (E & (r & Hr) & Ht), H2 as [E' Et]. split; [by rewrite E'|]. split; [exists r; by apply elem_of_app; left|].
    rewrite Et. revert Ht. apply threads_outcome_mono. intros c Hin. by apply elem_of_app; left.
  - rewrite (is_blocked_kept _ _ _ H1) in H2. destruct H1 as [E Et]. destruct (is_blocked pid k).
    2:{ rewrite andb_false_r in *. destruct H2 as [E' Et']. split; congruence. }
    rewrite andb_true_r in *. apply bool_decide_eq_false in E1.
    rewrite (bool_decide_ext (pid ∈ ps ++ ps') (pid ∈ ps')) by (rewrite elem_of_app; naive_solver).
    destruct (bool_decide _); [|destruct H2; split; congruence]. unfold process_woken in *. rewrite E, Et in H2.
    destruct H2 as (E' & (r & Hr) & Ht). split; [done|]. split; [exists r; by apply elem_of_app; right|].
    revert Ht. apply threads_outcome_mono. intros c Hin. by apply elem_of_app; right.
Qed.
Lemma wakes_timers ps v k k' calls : wakes ps (set_timers v k) k' calls ↔ wakes ps k k' calls.
Proof. split; intros [H1 H2]; by split. Qed.

Lemma wake_timeout_wakes pid k : ∃ calls, wakes [pid] k (wake_process_for_timeout pid k).2 calls.
Proof.
  pose proof (frame_wake_timeout pid k) as Hf. apply fr_pids in Hf. revert Hf.
  unfold wake_process_for_timeout, gets, lift, mbind, M_bind.
  assert (is_blocked pid k = false → ∃ calls, wakes [pid] k k calls) as Hsame.
  { intros Hb. exists []. split; [constructor|]. intros p. destruct (decide (p = pid)) as [->|Hne]; [by rewrite Hb, andb_false_r|].
    by rewrite bool_decide_eq_false_2 by (by intros ?%list_elem_of_singleton). }
  destruct (locate_process pid k) as [i|e] eqn:Hi; [|intros _; apply Hsame; unfold is_blocked, pcb_of; by rewrite Hi].
  unfold wake_receiver. destruct (k.(process_table) !! i) as [[p|]|] eqn:Hp.
  2,3: intros _; apply Hsame; unfold is_blocked, pcb_of; by rewrite Hi, Hp.
  case_decide as Hst; [|intros _; apply Hsame; unfold is_blocked, pcb_of; rewrite Hi, Hp; by apply bool_decide_eq_false_2].
  unfold mbind, M_bind, mret, M_ret.
  pose proof (mtss_call_calls (MarkTaskReady pid) k) as Hmark. unfold mtss_call in Hmark. cbn [perform] in Hmark.
  destruct (ready_mtss_ok pid i k) as (s & Er). pose proof Er as Er'.
  unfold set_process_ready_via_mtss, mtss_mark_process_ready, mtss_call, mbind, M_bind in Er'. rewrite Er. clear Er.
  destruct (sched_mark_task_ready pid _) as [r s'] eqn:Es. cbn in Hmark.
  assert (s' = s) as ->.
  { destruct (tolerate _ r) as [[]|]; [|done]. injection Er' as E. apply (f_equal mtss_scheduler) in E.
    unfold update_pcb in E. cbn in E. by rewrite Hp in E. }
  clear Er'. unfold update_pcb. cbn [process_table set_mtss]. rewrite Hp.
  set (k1 := set_process_table _ _). destruct (make_threads_ready_outcome pid k1) as (calls & Hc & Ho & Hne).
  pose proof (thread_frame_processes _ _ (thread_frame_make_ready pid k1)) as Hpt. set (k2 := (make_threads_ready pid k1).2) in *.
  intros Hpids. exists ((MarkTaskReady pid, r) :: calls). split; [by eapply (scheduler_calls_app _ _ _ [_])|].
  assert (∀ p, pcb_of p k2 = if decide (p = pid) then ProcessControlBlock.set_state ProcessState.Ready <$> pcb_of p k else pcb_of p k) as Hpcb.
  { intros q. unfold pcb_of. rewrite (locate_frame q k k2 Hpids), Hpt. cbn [process_table k1 set_process_table].
    case_decide as Hq; [subst; by rewrite Hi, Hp, list_lookup_insert_eq by (by eapply lookup_lt_Some)|].
    destruct (locate_process q k) as [j|] eqn:Hj; [|done]. rewrite list_lookup_insert_ne; [done|]. intros <-. by apply Hq, (locate_inj _ _ k i). }
  intros q. destruct (decide (q = pid)) as [->|Hq].
  - assert (is_blocked pid k = true) as -> by (unfold is_blocked, pcb_of; rewrite Hi, Hp; by apply bool_decide_eq_true_2).
    rewrite bool_decide_eq_true_2 by (by apply list_elem_of_singleton). split; [by rewrite Hpcb, decide_True|]. split; [exists r; by left|].
    revert Ho. apply threads_outcome_mono. by right.
  - rewrite bool_decide_eq_false_2 by (by intros ?%list_elem_of_singleton). split; [by rewrite Hpcb, decide_False|]. by apply Hne.
Qed.

Lemma timeout_loop_drain {A} expire (pid : A → ProcessId) fuel k es s :
  TimerManager.drain expire fuel k.(timers) = Some (es, s) →
  ∃ k' calls, timeout_loop expire pid fuel k = Some k' ∧ frame (set_timers s k) k' ∧ wakes (pid <$> es) k k' calls.
Proof.
  revert k es. induction fuel as [|fuel IH]; intros k es; cbn; [done|].
  destruct (expire k.(timers)) as [[e|] v].
  - destruct (TimerManager.drain expire fuel v) as [[es' s']|] eqn:Hd; [|done]. cbn. intros [= <- <-].
    set (k0 := set_timers v k). pose proof (frame_wake_timeout (pid e) k0) as Hf.
    destruct (wake_timeout_wakes (pid e) k0) as (calls & Hw). set (k1 := (wake_process_for_timeout (pid e) k0).2) in *.
    destruct (IH k1 es') as (k' & calls' & -> & Hf' & Hw'); [by rewrite (fr_timers _ _ Hf)|].
    exists k', (calls ++ calls'). split_and!; [done| |].
    + eapply frame_trans; [|exact Hf']. destruct Hf. by split.
    + apply wakes_timers in Hw. exact (wakes_app [_] _ _ _ _ _ _ Hw Hw').
  - intros [= <- <-]. eexists _, []. split_and!; [done|apply frame_refl|]. split; [constructor|done].
Qed.

(** a timeout of [pid] is due at [now] *)
Definition timeout_due (now : Z) (pid : ProcessId) (s : TimerManager.t) : Prop :=
  (∃ e, Some e ∈ s.(TimerManager.sleeps) ∧ TimerManager.sleep_due now e = true ∧
        e.(SleepEntry.process) = pid) ∨
  (∃ x, Some x ∈ s.(TimerManager.timers) ∧ TimerManager.timer_due now x = true ∧
        x.(ProcessTimer.owner) = pid).

Lemma elem_of_due {A B C} (due : A → bool) (f : A → B) (g : B → C) l c :
  c ∈ g <$> (f <$> filter (λ x, due x = true) (occupied l)) ↔ ∃ x, Some x ∈ l ∧ due x = true ∧ g (f x) = c.
Proof.
  rewrite list_elem_of_fmap. setoid_rewrite list_elem_of_fmap. setoid_rewrite list_elem_of_filter. setoid_rewrite elem_of_occupied. split.
  - intros (y & -> & x & -> & Hd & Hx). by exists x.
  - intros (x & Hx & Hd & <-). exists (f x). split; [done|]. by exists x.
Qed.

(** C31: the timeout work of the timer interrupt ends and wakes whom it should.  With
    one more round than there are slots the two loops of the handler run to their end,
    and no sleep and no timer is due any more.  A blocked process whose sleep or timer was
    due is ready and marked so in the scheduler; its threads that were blocked are ready,
    the scheduler having accepted each of them, unless it refused one: then that thread and
    those before it are left blocked, ready ones among them too, while the process is ready
    and its timeout is spent.  Every other process and its threads are as they were, as are
    message queues, policy and process slots. *)
Theorem timeouts_wake_processes now fuel k :
  now < umax 128 → timers_ok k.(timers) →
  (length k.(timers).(TimerManager.sleeps) < fuel)%nat →
  (length k.(timers).(TimerManager.timers) < fuel)%nat →
  ∃ k' calls, wake_expired_timeouts now fuel k = Some k' ∧
    scheduler_calls k.(mtss_scheduler) calls k'.(mtss_scheduler) ∧
    (∀ pid p, timeout_due now pid k.(timers) → pcb_of pid k = Some p →
      p.(ProcessControlBlock.state) = ProcessState.Blocked →
      pcb_of pid k' = Some (ProcessControlBlock.set_state ProcessState.Ready p) ∧
      (∃ r, (MarkTaskReady pid, r) ∈ calls) ∧
      threads_outcome (threads_of pid k) (threads_of pid k') calls) ∧
    (∀ pid, ¬ timeout_due now pid k.(timers) ∨
        (∀ p, pcb_of pid k = Some p → p.(ProcessControlBlock.state) ≠ ProcessState.Blocked) →
      pcb_of pid k' = pcb_of pid k ∧ threads_of pid k' = threads_of pid k) ∧
    (∀ pid, ¬ timeout_due now pid k'.(timers)) ∧
    k'.(ipc_queues) = k.(ipc_queues) ∧ k'.(security) = k.(security) ∧ pids k' = pids k.
Proof.
  intros Hnow Hok Hsf Htf. unfold wake_expired_timeouts.
  pose proof (drain_sleeps now fuel k.(timers) Hsf) as Hd1.
  destruct (timeout_loop_drain _ ExpiredSleep.process fuel k _ _ Hd1) as (k1 & calls1 & -> & Hf1 & Hw1).
  cbn [mbind option_bind]. pose proof (fr_timers _ _ Hf1) as Ht1. cbn in Ht1.
  assert (Hd2 := drain_timers now fuel k1.(timers) Hnow). rewrite Ht1 in Hd2. specialize (Hd2 Hok Htf).
  rewrite <- Ht1 in Hd2.
  destruct (timeout_loop_drain _ ExpiredTimer.owner fuel k1 _ _ Hd2) as (k2 & calls2 & -> & Hf2 & Hw2).
  pose proof (fr_timers _ _ Hf2) as Ht2. pose proof (wakes_app _ _ _ _ _ _ _ Hw1 Hw2) as [Hc Hw].
  match type of Hw1 with wakes ?l1 _ _ _ => match type of Hw2 with wakes ?l2 _ _ _ =>
    assert (∀ pid, pid ∈ l1 ++ l2 ↔ timeout_due now pid k.(timers)) as Hdue end end.
  { intros pid. by rewrite elem_of_app, !elem_of_due, Ht1. }
  exists k2, (calls1 ++ calls2). split; [done|]. split; [done|]. split_and!.
  - intros pid p Hd Hp Hs. specialize (Hw pid). rewrite bool_decide_eq_true_2 in Hw by by apply Hdue.
    unfold is_blocked in Hw. rewrite Hp, bool_decide_eq_true_2 in Hw by done. destruct Hw as (E & Hr). by rewrite Hp in E.
  - intros pid Hno. specialize (Hw pid). destruct (bool_decide (pid ∈ _)) eqn:Ed; [|exact Hw]. apply bool_decide_eq_true, Hdue in Ed.
    destruct Hno as [Hno|Hno]; [done|]. unfold is_blocked in Hw. destruct (pcb_of pid k) as [p|] eqn:Hp; [|by rewrite <- Hp].
    rewrite bool_decide_eq_false_2 in Hw by by apply Hno. by rewrite <- Hp.
  - rewrite Ht2. cbn. intros pid [(e & He & Hp & _)|(x & Hx & Hp & _)].
    + rewrite Ht1 in He. cbn in He. apply elem_of_clear in He as [_ He]. congruence.
    + rewrite Ht1 in Hx. cbn in Hx. pose proof (fire_all_settled _ (λ x, Some (TimerManager.rearm now x))
        (λ x, 0 <= x.(ProcessTimer.wake_deadline_ns))
        (λ y z Hy Hd E, ltac:(injection E as <-; by apply rearm_ok)) _ x Hok Hx). congruence.
  - destruct Hf1, Hf2. cbn in *. congruence.
  - destruct Hf1, Hf2. cbn in *. congruence.
  - pose proof (fr_pids _ _ Hf1 : pids k1 = pids k). pose proof (fr_pids _ _ Hf2 : pids k2 = pids k1). congruence.
Qed.
End timeouts.

(** ** Examples *)
Lemma timeouts_wake_processes_witness : ∃ k' calls,
  wake_expired_timeouts 50 3 blocked_kernel = Some k' ∧ ¬ timeout_due 50 2 k'.(timers) ∧
  scheduler_calls blocked_kernel.(mtss_scheduler) calls k'.(mtss_scheduler) ∧
  pcb_of 2 k' = Some (ProcessControlBlock.set_state ProcessState.Ready (demo_process 2)) ∧
  threads_outcome (threads_of 2 blocked_kernel) (threads_of 2 k') calls.
Proof.
  destruct (timeouts_wake_processes 50 3 blocked_kernel) as (k' & calls & Hk & Hc & Hp & _ & Hd & _).
  - vm_compute. reflexivity.
  - intros x Hx. apply elem_of_occupied in Hx. vm_compute in Hx. by apply elem_of_nil in Hx.
  - vm_compute. lia.
  - vm_compute. lia.
  - exists k', calls. split; [exact Hk|]. split; [apply Hd|]. split; [exact Hc|].
    destruct (Hp 2 (ProcessControlBlock.set_state ProcessState.Blocked (demo_process 2))) as (E & _ & Ht).
    + left. exists (SleepEntry.mk 2 None 40). split; [|split; vm_compute; reflexivity].
      change (Some (SleepEntry.mk 2 None 40) ∈ [Some (SleepEntry.mk 2 None 40); None]). constructor.
    + vm_compute. reflexivity.
    + reflexivity.
    + split; [exact E|exact Ht].
Defined.
Definition thread_states (k : kernel) : list ThreadState.t := ThreadControlBlock.state <$> occupied (threads_of 2 k).
(** The error of a refused wake-up is ignored.  Process 2 blocks and is woken by its timeout
    four times in a row; its threads are queued twice each time, and once the run queue has
    no room the process is ready, its sleep is spent and both its threads stay blocked. *)
Definition sleep_again (k : kernel) : option kernel :=
  wake_expired_timeouts 50 3 (set_timers demo_kernel.(timers) (run [ReceiveOrBlock 2] k).2).
Lemma spent_timeout_leaves_threads_blocked :
  ∃ k k', (k ← sleep_again demo_kernel; k ← sleep_again k; sleep_again k) = Some k ∧
    thread_states k = [ThreadState.Ready; ThreadState.Ready] ∧
    sleep_again k = Some k' ∧ thread_states k' = [ThreadState.Blocked; ThreadState.Blocked] ∧
    ProcessControlBlock.state <$> pcb_of 2 k' = Some ProcessState.Ready ∧ k'.(timers).(TimerManager.sleeps) = [None; None].
Proof.
  assert (∀ (o : option kernel), is_Some o → o = Some (default demo_kernel o)) as H by (intros o [x ->]; done).
  eexists _, _. split; [apply H; vm_compute; by eexists|]. split; [by vm_compute|]. split; [apply H; vm_compute; by eexists|].
  split_and!; by vm_compute.
Qed.
