(* ===== verification/QfsFormat.v ===== *)
(** * The QFS on-disk format

    Models src/src/kernel/fs/qfs_format.rs: the wire records (superblock, book header,
    book index entry, inode record, journal record) with their parsers and
    serialisers, the sector arithmetic, the journal scan, the replay of committed
    transactions and the formatting of an image.

    A sector is a list of 512 bytes.  A serialiser is the list of the fields it stores,
    in order, each an offset with its bytes; [puts] stores them.  Slice copies at
    constant offsets cannot fail in the code; here they go through [puts] as well, and
    the theorems show that no serialiser fails.  Code over a device runs in the monad
    [Op], whose state is the device. *)

From stdpp Require Import prelude.
From S2P Require Import Prelude Bytes Permissions Vfs BlockDevice.

Local Open Scope Z_scope.

(** ** Constants *)
(** [*b"MIRQFS\0\0"] *)
Definition QFS_MAGIC : list Z := [77; 73; 82; 81; 70; 83; 0; 0].
Definition QFS_VERSION : Z := 2.
Definition QFS_SECTOR_SIZE : Z := 512.
Definition QFS_PAGE_SECTORS : Z := 8.
Definition QFS_BOOK_PAGES : Z := 64.
Definition QFS_MAX_BOOKS : nat := 8.
Definition QFS_MAX_BOOK_INDEX_ENTRIES : nat := 16.
Definition QFS_MAX_CHAPTER_INDEX_ENTRIES : nat := 32.
Definition QFS_MAX_INODE_RECORDS : nat := 32.
Definition QFS_MAX_JOURNAL_RECORDS : nat := 16.
Definition QFS_INLINE_DATA_BYTES : nat := 76.
Definition QFS_INLINE_EXTENT_RECORDS : nat := 2.
Definition QFS_NAME_BYTES : nat := 32.
Definition QFS_SUPERBLOCK_SECTOR : Z := 0.
Definition QFS_FIRST_BOOK_SECTOR : Z := 1.
Definition QFS_BOOK_HEADER_SECTORS : Z := 1.
Definition QFS_BOOK_INDEX_SECTORS : Z := 1.
Definition QFS_BOOK_INDEX_ENTRY_BYTES : nat := 16.
Definition QFS_INODE_RECORD_BYTES : nat := 256.
Definition QFS_JOURNAL_SLOT_SECTORS : Z := 2.
Definition QFS_JOURNAL_PAYLOAD_SECTOR_OFFSET : Z := 1.
(** [0x4a_46_53_51] *)
Definition QFS_JOURNAL_RECORD_MAGIC : Z := 1246122833.
Definition QFS_OBJECT_SERVICE_AWARE : Z := 4.

(** ** Records *)
Module QfsPageLocation.
Record t : Type := new { book_id : Z; page : Z }.
Definition empty : t := new 0 0.
End QfsPageLocation.

Module QfsBookRole.
Inductive t : Type := Free | Inode | Data | Journal | FreeMap.
Definition from_u8 (value : Z) : t :=
  match value with 1 => Inode | 2 => Data | 3 => Journal | 4 => FreeMap | _ => Free end.
(** [role as u8] *)
Definition as_u8 (r : t) : Z :=
  match r with Free => 0 | Inode => 1 | Data => 2 | Journal => 3 | FreeMap => 4 end.
End QfsBookRole.
#[export] Instance QfsBookRole_eq_dec : EqDecision QfsBookRole.t.
Proof. solve_decision. Defined.

Module QfsSuperblock.
Record t : Type := mk {
  magic : list Z;
  version : Z;
  sector_size : Z;
  page_sectors : Z;
  book_pages : Z;
  total_books : Z;
  root_inode : Z;
  inode_table : QfsPageLocation.t;
  journal : QfsPageLocation.t;
  free_space_bitmap : QfsPageLocation.t;
  flags : Z;
  total_sectors : Z;
  free_sectors : Z;
  reserved : list Z
}.
Definition empty : t :=
  mk QFS_MAGIC QFS_VERSION QFS_SECTOR_SIZE QFS_PAGE_SECTORS QFS_BOOK_PAGES 0 InodeId_ROOT
    QfsPageLocation.empty QfsPageLocation.empty QfsPageLocation.empty 0 0 0 (replicate 64 0).
End QfsSuperblock.

Module QfsBookHeader.
Record t : Type := mk {
  book_id : Z; chapter_count : Z; index_entry_count : Z; checksum : Z; generation : Z;
  reserved : list Z
}.
Definition empty : t := mk 0 0 0 0 0 (replicate 496 0).
End QfsBookHeader.

Module QfsBookIndexEntry.
Record t : Type := mk {
  chapter_id : Z; first_page : Z; page_count : Z; role : QfsBookRole.t; flags : Z;
  reserved : list Z
}.
Definition empty : t := mk 0 0 0 QfsBookRole.Free 0 (replicate 6 0).
End QfsBookIndexEntry.

Module QfsChapterIndexEntry.
Record t : Type := mk {
  inode : Z; logical_page : Z; book_id : Z; first_page : Z; page_count : Z; flags : Z
}.
Definition empty : t := mk 0 0 0 0 0 0.
End QfsChapterIndexEntry.

Module QfsExtentRecord.
Record t : Type := mk { logical_page : Z; book_id : Z; first_page : Z; page_count : Z }.
Definition empty : t := mk 0 0 0 0.
End QfsExtentRecord.

(** [QfsObjectMutationState] as its [u16] values *)
Definition Mutation_Clean : Z := 0.
Definition Mutation_Committed : Z := 1.

Definition encode_inode_kind (kind : InodeKind.t) : Z :=
  match kind with
  | InodeKind.Directory => 1
  | InodeKind.RegularFile => 2
  | InodeKind.Symlink => 3
  | InodeKind.BlockDevice => 4
  | InodeKind.CharDevice => 5
  | InodeKind.Fifo => 6
  | InodeKind.Socket => 7
  end.

Definition decode_inode_kind (kind : Z) : InodeKind.t :=
  match kind with
  | 1 => InodeKind.Directory
  | 3 => InodeKind.Symlink
  | 4 => InodeKind.BlockDevice
  | 5 => InodeKind.CharDevice
  | 6 => InodeKind.Fifo
  | 7 => InodeKind.Socket
  | _ => InodeKind.RegularFile
  end.

(** [hash ^= name[idx] as u64; hash = hash.wrapping_mul(0x100000001b3)] *)
Definition path_identity_step (hash byte : Z) : Z :=
  (Z.lxor hash byte * 1099511628211) mod 2 ^ 64.

(** from the offset basis [0xcbf29ce484222325] *)
Definition qfs_path_identity (parent_inode : Z) (name : list Z) (name_len : Z) : Z :=
  let len := Nat.min (Z.to_nat name_len) QFS_NAME_BYTES in
  foldl path_identity_step (Z.lxor 14695981039346656037 parent_inode) (take len name).

Module QfsInodeRecord.
Record t : Type := mk {
  inode : Z;
  object_id : Z;
  parent_inode : Z;
  path_identity : Z;
  kind : Z;
  name_len : Z;
  metadata_flags : Z;
  mode : Z;
  uid : Z;
  gid : Z;
  links : Z;
  service_class : Z;
  mutation_state : Z;
  size : Z;
  first_chapter : Z;
  chapter_count : Z;
  extent_map_version : Z;
  extent_count : Z;
  signature_len : Z;
  signature_ref : list Z;
  capability_len : Z;
  capability_ref : list Z;
  last_transaction_id : Z;
  extents : list QfsExtentRecord.t;
  name_bytes : list Z;
  inline_data_len : Z;
  inline_data : list Z
}.

Definition empty : t :=
  mk 0 0 0 0 0 0 0 0 0 0 0 0 Mutation_Clean 0 0 0 0 0 0 (replicate 16 0) 0 (replicate 16 0) 0
    (replicate QFS_INLINE_EXTENT_RECORDS QfsExtentRecord.empty) (replicate QFS_NAME_BYTES 0)
    0 (replicate QFS_INLINE_DATA_BYTES 0).

Definition root : t :=
  mk InodeId_ROOT InodeId_ROOT InodeId_ROOT 0 (encode_inode_kind InodeKind.Directory) 0
    QFS_OBJECT_SERVICE_AWARE 493 0 0 1 0 Mutation_Clean 0 0 0 0 0 0 (replicate 16 0) 0
    (replicate 16 0) 0 (replicate QFS_INLINE_EXTENT_RECORDS QfsExtentRecord.empty)
    (replicate QFS_NAME_BYTES 0) 0 (replicate QFS_INLINE_DATA_BYTES 0).

(** field assignments *)
Definition set_identity (object_id path_identity : Z) (r : t) : t :=
  mk r.(inode) object_id r.(parent_inode) path_identity r.(kind) r.(name_len)
    r.(metadata_flags) r.(mode) r.(uid) r.(gid) r.(links) r.(service_class) r.(mutation_state)
    r.(size) r.(first_chapter) r.(chapter_count) r.(extent_map_version) r.(extent_count)
    r.(signature_len) r.(signature_ref) r.(capability_len) r.(capability_ref)
    r.(last_transaction_id) r.(extents) r.(name_bytes) r.(inline_data_len) r.(inline_data).
Definition set_mutation (mutation_state last_transaction_id : Z) (r : t) : t :=
  mk r.(inode) r.(object_id) r.(parent_inode) r.(path_identity) r.(kind) r.(name_len)
    r.(metadata_flags) r.(mode) r.(uid) r.(gid) r.(links) r.(service_class) mutation_state
    r.(size) r.(first_chapter) r.(chapter_count) r.(extent_map_version) r.(extent_count)
    r.(signature_len) r.(signature_ref) r.(capability_len) r.(capability_ref)
    last_transaction_id r.(extents) r.(name_bytes) r.(inline_data_len) r.(inline_data).
Definition set_owner (mode uid gid links : Z) (r : t) : t :=
  mk r.(inode) r.(object_id) r.(parent_inode) r.(path_identity) r.(kind) r.(name_len)
    r.(metadata_flags) mode uid gid links r.(service_class) r.(mutation_state)
    r.(size) r.(first_chapter) r.(chapter_count) r.(extent_map_version) r.(extent_count)
    r.(signature_len) r.(signature_ref) r.(capability_len) r.(capability_ref)
    r.(last_transaction_id) r.(extents) r.(name_bytes) r.(inline_data_len) r.(inline_data).
Definition set_place (parent_inode : Z) (name_bytes : list Z) (name_len : Z) (r : t) : t :=
  mk r.(inode) r.(object_id) parent_inode r.(path_identity) r.(kind) name_len
    r.(metadata_flags) r.(mode) r.(uid) r.(gid) r.(links) r.(service_class) r.(mutation_state)
    r.(size) r.(first_chapter) r.(chapter_count) r.(extent_map_version) r.(extent_count)
    r.(signature_len) r.(signature_ref) r.(capability_len) r.(capability_ref)
    r.(last_transaction_id) r.(extents) name_bytes r.(inline_data_len) r.(inline_data).
Definition set_data (size inline_data_len : Z) (inline_data : list Z) (r : t) : t :=
  mk r.(inode) r.(object_id) r.(parent_inode) r.(path_identity) r.(kind) r.(name_len)
    r.(metadata_flags) r.(mode) r.(uid) r.(gid) r.(links) r.(service_class) r.(mutation_state)
    size r.(first_chapter) r.(chapter_count) r.(extent_map_version) r.(extent_count)
    r.(signature_len) r.(signature_ref) r.(capability_len) r.(capability_ref)
    r.(last_transaction_id) r.(extents) r.(name_bytes) inline_data_len inline_data.

Definition name (r : t) : list Z :=
  let len := Nat.min (Z.to_nat r.(name_len)) QFS_NAME_BYTES in
  from_utf8_or_empty (take len r.(name_bytes)).

Definition refresh_path_identity (r : t) : t :=
  set_identity r.(object_id) (qfs_path_identity r.(parent_inode) r.(name_bytes) r.(name_len)) r.

Definition mark_mutation (transaction_id : Z) (r : t) : t :=
  set_mutation Mutation_Committed transaction_id r.

Definition metadata (r : t) : InodeMetadata :=
  with_links r.(inode) (decode_inode_kind r.(kind)) r.(size)
    (Permissions.new r.(mode) r.(uid) r.(gid)) r.(links).
End QfsInodeRecord.

Module QfsJournalRecordKind.
Inductive t : Type := Begin | MetadataWrite | DataWrite | Commit | Abort.
Definition from_u16 (value : Z) : option t :=
  match value with
  | 1 => Some Begin | 2 => Some MetadataWrite | 3 => Some DataWrite | 4 => Some Commit
  | 5 => Some Abort | _ => None
  end.
(** [kind as u16] *)
Definition as_u16 (k : t) : Z :=
  match k with Begin => 1 | MetadataWrite => 2 | DataWrite => 3 | Commit => 4 | Abort => 5 end.
End QfsJournalRecordKind.
#[export] Instance QfsJournalRecordKind_eq_dec : EqDecision QfsJournalRecordKind.t.
Proof. solve_decision. Defined.

Module QfsJournalRecord.
Record t : Type := mk {
  sequence : Z; record_type : Z; target_inode : Z; sector : Z; sector_count : Z;
  checksum : Z; flags : Z
}.
Definition empty : t := mk 0 0 0 0 0 0 0.
Definition kind (r : t) : option QfsJournalRecordKind.t :=
  QfsJournalRecordKind.from_u16 r.(record_type).
End QfsJournalRecord.

(** ** Little-endian fields *)
Abbreviation res := (result VfsError.t).

Definition u8_at (bytes : list Z) (offset : nat) : res Z :=
  ok_or (bytes !! offset) VfsError.Unsupported.
(** [bytes.get(offset..offset + n)] and the integer of that width *)
Definition get_range (bytes : list Z) (offset n : nat) : res (list Z) :=
  if decide (offset + n ≤ length bytes)%nat then Ok (slice offset n bytes)
  else Err VfsError.Unsupported.
Definition uint_at (n : nat) (bytes : list Z) (offset : nat) : res Z :=
  bs ← get_range bytes offset n; Ok (from_le_bytes bs).
Definition u16_at : list Z → nat → res Z := uint_at 2.
Definition u32_at : list Z → nat → res Z := uint_at 4.
Definition u64_at : list Z → nat → res Z := uint_at 8.

(** the bytes of a field of each width *)
Definition u8 (v : Z) : list Z := [v].
Definition u16 (v : Z) : list Z := to_le_bytes 2 v.
Definition u32 (v : Z) : list Z := to_le_bytes 4 v.
Definition u64 (v : Z) : list Z := to_le_bytes 8 v.

(** [put_u16(out, offset, value)?] and the like, and slice copies *)
Definition put (out : list Z) (f : field) : res (list Z) :=
  if decide (f.1 + length f.2 ≤ length out)%nat then Ok (write_at f.1 f.2 out)
  else Err VfsError.Unsupported.
Definition puts (fs : list field) (out : list Z) : res (list Z) := rfold put out fs.

Definition zero_sector : list Z := replicate 512 0.

(** ** Sector arithmetic *)
Section geometry.
Import QfsSuperblock.
Definition book_size_sectors (sb : t) : Z := sb.(page_sectors) * sb.(book_pages).

Definition book_start_sector (sb : t) (book_id : Z) : Z :=
  QFS_FIRST_BOOK_SECTOR + book_id * book_size_sectors sb.

Definition page_location_sector (sb : t) (location : QfsPageLocation.t) : option Z :=
  if (sb.(total_books) <=? location.(QfsPageLocation.book_id))
     || (sb.(book_pages) <=? location.(QfsPageLocation.page))
  then None
  else Some (book_start_sector sb location.(QfsPageLocation.book_id)
             + location.(QfsPageLocation.page) * sb.(page_sectors)).

Definition journal_slot_count (sb : t) : nat :=
  if sb.(book_pages) <=? sb.(journal).(QfsPageLocation.page) then 0%nat
  else
    let sectors_from_journal_page :=
      (sb.(book_pages) - sb.(journal).(QfsPageLocation.page)) * sb.(page_sectors) in
    Nat.min QFS_MAX_JOURNAL_RECORDS
      (Z.to_nat (sectors_from_journal_page / QFS_JOURNAL_SLOT_SECTORS)).
End geometry.

(** ** The superblock *)
Definition parse_superblock (sector : list Z) : res QfsSuperblock.t :=
  let magic := slice 0 8 sector in
  if negb (bool_decide (magic = QFS_MAGIC)) then Err VfsError.InvalidArgument
  else
    version ← u16_at sector 8;
    if negb (version =? QFS_VERSION) then Err VfsError.Unsupported
    else
      sector_size ← u16_at sector 10;
      if negb (sector_size =? QFS_SECTOR_SIZE) then Err VfsError.Unsupported
      else
        page_sectors ← u16_at sector 12;
        book_pages ← u16_at sector 14;
        if (page_sectors =? 0) || (book_pages =? 0) then Err VfsError.InvalidArgument
        else
          let reserved := slice 64 64 sector in
          total_books ← u32_at sector 16;
          root_inode ← u64_at sector 20;
          inode_book ← u32_at sector 28;
          inode_page ← u16_at sector 32;
          journal_book ← u32_at sector 34;
          journal_page ← u16_at sector 38;
          bitmap_book ← u32_at sector 40;
          bitmap_page ← u16_at sector 44;
          flags ← u16_at sector 46;
          total_sectors ← u64_at sector 48;
          free_sectors ← u64_at sector 56;
          Ok (QfsSuperblock.mk magic version sector_size page_sectors book_pages total_books
                root_inode (QfsPageLocation.new inode_book inode_page)
                (QfsPageLocation.new journal_book journal_page)
                (QfsPageLocation.new bitmap_book bitmap_page) flags total_sectors free_sectors
                reserved).

Definition superblock_fields (sb : QfsSuperblock.t) : list field :=
  [ (0, sb.(QfsSuperblock.magic));
    (8, u16 sb.(QfsSuperblock.version));
    (10, u16 sb.(QfsSuperblock.sector_size));
    (12, u16 sb.(QfsSuperblock.page_sectors));
    (14, u16 sb.(QfsSuperblock.book_pages));
    (16, u32 sb.(QfsSuperblock.total_books));
    (20, u64 sb.(QfsSuperblock.root_inode));
    (28, u32 sb.(QfsSuperblock.inode_table).(QfsPageLocation.book_id));
    (32, u16 sb.(QfsSuperblock.inode_table).(QfsPageLocation.page));
    (34, u32 sb.(QfsSuperblock.journal).(QfsPageLocation.book_id));
    (38, u16 sb.(QfsSuperblock.journal).(QfsPageLocation.page));
    (40, u32 sb.(QfsSuperblock.free_space_bitmap).(QfsPageLocation.book_id));
    (44, u16 sb.(QfsSuperblock.free_space_bitmap).(QfsPageLocation.page));
    (46, u16 sb.(QfsSuperblock.flags));
    (48, u64 sb.(QfsSuperblock.total_sectors));
    (56, u64 sb.(QfsSuperblock.free_sectors));
    (64, sb.(QfsSuperblock.reserved)) ]%nat.
Definition serialize_superblock (sb : QfsSuperblock.t) : res (list Z) :=
  puts (superblock_fields sb) zero_sector.

(** ** Book headers *)
Definition parse_book_header (sector : list Z) : res QfsBookHeader.t :=
  let reserved := slice 16 496 sector in
  book_id ← u32_at sector 0;
  chapter_count ← u16_at sector 4;
  index_entry_count ← u16_at sector 6;
  checksum ← u32_at sector 8;
  generation ← u32_at sector 12;
  Ok (QfsBookHeader.mk book_id chapter_count index_entry_count checksum generation reserved).

Definition book_header_fields (h : QfsBookHeader.t) : list field :=
  [ (0, u32 h.(QfsBookHeader.book_id));
    (4, u16 h.(QfsBookHeader.chapter_count));
    (6, u16 h.(QfsBookHeader.index_entry_count));
    (8, u32 h.(QfsBookHeader.checksum));
    (12, u32 h.(QfsBookHeader.generation));
    (16, h.(QfsBookHeader.reserved)) ]%nat.
Definition serialize_book_header (h : QfsBookHeader.t) : res (list Z) :=
  puts (book_header_fields h) zero_sector.

(** ** Book index entries *)
Definition parse_book_index_entry (bytes : list Z) (offset : nat) : res QfsBookIndexEntry.t :=
  reserved ← get_range bytes (offset + 10) 6;
  chapter_id ← u32_at bytes offset;
  first_page ← u16_at bytes (offset + 4);
  page_count ← u16_at bytes (offset + 6);
  role ← u8_at bytes (offset + 8);
  flags ← u8_at bytes (offset + 9);
  Ok (QfsBookIndexEntry.mk chapter_id first_page page_count (QfsBookRole.from_u8 role) flags
        reserved).

Definition book_index_fields (e : QfsBookIndexEntry.t) (offset : nat) : list field :=
  [ (offset, u32 e.(QfsBookIndexEntry.chapter_id));
    (offset + 4, u16 e.(QfsBookIndexEntry.first_page));
    (offset + 6, u16 e.(QfsBookIndexEntry.page_count));
    (offset + 8, u8 (QfsBookRole.as_u8 e.(QfsBookIndexEntry.role)));
    (offset + 9, u8 e.(QfsBookIndexEntry.flags));
    (offset + 10, e.(QfsBookIndexEntry.reserved)) ]%nat.
Definition serialize_book_index_entry (e : QfsBookIndexEntry.t) (bytes : list Z) (offset : nat)
    : res (list Z) :=
  puts (book_index_fields e offset) bytes.

(** one iteration of the loop; [entries] is the caller's table *)
Definition parse_book_index_step (sector : list Z)
    (entries : list (option QfsBookIndexEntry.t)) (idx : nat)
    : res (list (option QfsBookIndexEntry.t)) :=
  entry ← parse_book_index_entry sector (idx * QFS_BOOK_INDEX_ENTRY_BYTES);
  if negb (entry.(QfsBookIndexEntry.chapter_id) =? 0)
     || negb (entry.(QfsBookIndexEntry.page_count) =? 0)
     || negb (bool_decide (entry.(QfsBookIndexEntry.role) = QfsBookRole.Free))
  then Ok (<[idx := Some entry]> entries)
  else Ok entries.

Definition parse_book_index_entries (sector : list Z) (entry_count : nat)
    (entries : list (option QfsBookIndexEntry.t)) : res (list (option QfsBookIndexEntry.t)) :=
  let max_entries :=
    Nat.min (Nat.min entry_count (length entries)) (512 / QFS_BOOK_INDEX_ENTRY_BYTES) in
  rfold (parse_book_index_step sector) entries (seq 0 max_entries).

(** ** Inode records *)
Definition extent_fields (e : QfsExtentRecord.t) (offset : nat) : list field :=
  [ (offset, u64 e.(QfsExtentRecord.logical_page));
    (offset + 8, u32 e.(QfsExtentRecord.book_id));
    (offset + 12, u16 e.(QfsExtentRecord.first_page));
    (offset + 14, u16 e.(QfsExtentRecord.page_count)) ]%nat.

Definition extent_at (record : QfsInodeRecord.t) (idx : nat) : QfsExtentRecord.t :=
  default QfsExtentRecord.empty (record.(QfsInodeRecord.extents) !! idx).

Definition clamp (v : Z) (bound : nat) : Z := Z.min v (Z.of_nat bound).

Definition inode_fields (r : QfsInodeRecord.t) (offset : nat) : list field :=
  let inline_len := Nat.min (Z.to_nat r.(QfsInodeRecord.inline_data_len)) QFS_INLINE_DATA_BYTES in
  [ (offset, u64 r.(QfsInodeRecord.inode));
    (offset + 8, u64 r.(QfsInodeRecord.object_id));
    (offset + 16, u64 r.(QfsInodeRecord.parent_inode));
    (offset + 24, u64 r.(QfsInodeRecord.path_identity));
    (offset + 32, u8 r.(QfsInodeRecord.kind));
    (offset + 33, u8 (clamp r.(QfsInodeRecord.name_len) QFS_NAME_BYTES));
    (offset + 34, u16 r.(QfsInodeRecord.metadata_flags));
    (offset + 36, u16 r.(QfsInodeRecord.mode));
    (offset + 38, u16 r.(QfsInodeRecord.uid));
    (offset + 40, u16 r.(QfsInodeRecord.gid));
    (offset + 42, u16 r.(QfsInodeRecord.links));
    (offset + 44, u16 r.(QfsInodeRecord.service_class));
    (offset + 46, u16 r.(QfsInodeRecord.mutation_state));
    (offset + 48, u64 r.(QfsInodeRecord.size));
    (offset + 56, u32 r.(QfsInodeRecord.first_chapter));
    (offset + 60, u32 r.(QfsInodeRecord.chapter_count));
    (offset + 64, u32 r.(QfsInodeRecord.extent_map_version));
    (offset + 68, u16 (clamp r.(QfsInodeRecord.extent_count) QFS_INLINE_EXTENT_RECORDS));
    (offset + 70, u16 r.(QfsInodeRecord.signature_len));
    (offset + 72, r.(QfsInodeRecord.signature_ref));
    (offset + 88, u16 r.(QfsInodeRecord.capability_len));
    (offset + 90, r.(QfsInodeRecord.capability_ref));
    (offset + 106, u64 r.(QfsInodeRecord.last_transaction_id)) ]%nat
  ++ extent_fields (extent_at r 0) (offset + 114)
  ++ extent_fields (extent_at r 1) (offset + 130)
  ++ [ (offset + 146, r.(QfsInodeRecord.name_bytes));
       (offset + 178, u16 (Z.of_nat inline_len));
       (offset + 180, take inline_len r.(QfsInodeRecord.inline_data)) ]%nat.

(** the defaults a record gets on its way to the disk *)
Definition with_defaults (r : QfsInodeRecord.t) : QfsInodeRecord.t :=
  let r := if r.(QfsInodeRecord.object_id) =? 0
           then QfsInodeRecord.set_identity r.(QfsInodeRecord.inode)
                  r.(QfsInodeRecord.path_identity) r
           else r in
  if (r.(QfsInodeRecord.path_identity) =? 0) && negb (r.(QfsInodeRecord.name_len) =? 0)
  then QfsInodeRecord.refresh_path_identity r else r.

(** the loop from one slot on: it stops at the end of the table or of the sector *)
Fixpoint serialize_inode_loop (inodes : list (option QfsInodeRecord.t)) (offset : nat)
    (sector : list Z) : res (list Z) :=
  match inodes with
  | [] => Ok sector
  | slot :: rest =>
      if decide (offset + QFS_INODE_RECORD_BYTES ≤ 512)%nat then
        sector ← match slot with
                 | Some record => puts (inode_fields (with_defaults record) offset) sector
                 | None => Ok sector
                 end;
        serialize_inode_loop rest (offset + QFS_INODE_RECORD_BYTES) sector
      else Ok sector
  end.
Definition serialize_inode_records (inodes : list (option QfsInodeRecord.t)) : res (list Z) :=
  serialize_inode_loop inodes 0 zero_sector.

Definition parse_extent (sector : list Z) (offset : nat) : res QfsExtentRecord.t :=
  logical_page ← u64_at sector offset;
  book_id ← u32_at sector (offset + 8);
  first_page ← u16_at sector (offset + 12);
  page_count ← u16_at sector (offset + 14);
  Ok (QfsExtentRecord.mk logical_page book_id first_page page_count).

(** the record at an offset, [None] for inode number 0 *)
Definition parse_inode_record (sector : list Z) (offset : nat) : res (option QfsInodeRecord.t) :=
  inode ← u64_at sector offset;
  if inode =? 0 then Ok None
  else
    let signature_ref := slice (offset + 72) 16 sector in
    let capability_ref := slice (offset + 90) 16 sector in
    extent0 ← parse_extent sector (offset + 114);
    extent1 ← parse_extent sector (offset + 130);
    let name := slice (offset + 146) 32 sector in
    stored_len ← u16_at sector (offset + 178);
    let inline_len := Nat.min (Z.to_nat stored_len) QFS_INLINE_DATA_BYTES in
    let inline_data :=
      write_at 0 (slice (offset + 180) inline_len sector) (replicate QFS_INLINE_DATA_BYTES 0) in
    object_id ← u64_at sector (offset + 8);
    parent_inode ← u64_at sector (offset + 16);
    path_identity ← u64_at sector (offset + 24);
    kind ← u8_at sector (offset + 32);
    name_len ← u8_at sector (offset + 33);
    metadata_flags ← u16_at sector (offset + 34);
    mode ← u16_at sector (offset + 36);
    uid ← u16_at sector (offset + 38);
    gid ← u16_at sector (offset + 40);
    links ← u16_at sector (offset + 42);
    service_class ← u16_at sector (offset + 44);
    mutation_state ← u16_at sector (offset + 46);
    size ← u64_at sector (offset + 48);
    first_chapter ← u32_at sector (offset + 56);
    chapter_count ← u32_at sector (offset + 60);
    extent_map_version ← u32_at sector (offset + 64);
    extent_count ← u16_at sector (offset + 68);
    signature_len ← u16_at sector (offset + 70);
    capability_len ← u16_at sector (offset + 88);
    last_transaction_id ← u64_at sector (offset + 106);
    Ok (Some (QfsInodeRecord.mk inode object_id parent_inode path_identity kind name_len
      metadata_flags mode uid gid links service_class mutation_state size first_chapter
      chapter_count extent_map_version (clamp extent_count QFS_INLINE_EXTENT_RECORDS)
      signature_len signature_ref capability_len capability_ref last_transaction_id
      [extent0; extent1] name (Z.of_nat inline_len) inline_data)).

(** [n] is the number of slots of the caller's table that are still to be filled *)
Fixpoint parse_inode_loop (n : nat) (offset : nat) (sector : list Z)
    : res (list (option QfsInodeRecord.t)) :=
  match n with
  | O => Ok []
  | S n =>
      if decide (offset + QFS_INODE_RECORD_BYTES ≤ 512)%nat then
        slot ← parse_inode_record sector offset;
        rest ← parse_inode_loop n (offset + QFS_INODE_RECORD_BYTES) sector;
        Ok (slot :: rest)
      else Ok (replicate (S n) None)
  end.
Definition parse_inode_records (sector : list Z) (table_len : nat)
    : res (list (option QfsInodeRecord.t)) :=
  parse_inode_loop table_len 0 sector.

(** ** Journal records *)
Definition parse_journal_record (sector : list Z) : res (option QfsJournalRecord.t) :=
  magic ← u32_at sector 0;
  if negb (magic =? QFS_JOURNAL_RECORD_MAGIC) then Ok None
  else
    record_type ← u16_at sector 12;
    if bool_decide (QfsJournalRecordKind.from_u16 record_type = None) then Ok None
    else
      sequence ← u64_at sector 4;
      sector_count ← u16_at sector 14;
      target_inode ← u64_at sector 16;
      sector_number ← u64_at sector 24;
      checksum ← u32_at sector 32;
      flags ← u32_at sector 36;
      if sequence =? 0 then Ok None
      else Ok (Some (QfsJournalRecord.mk sequence record_type target_inode sector_number
                       sector_count checksum flags)).

Definition journal_fields (r : QfsJournalRecord.t) : list field :=
  [ (0, u32 QFS_JOURNAL_RECORD_MAGIC);
    (4, u64 r.(QfsJournalRecord.sequence));
    (12, u16 r.(QfsJournalRecord.record_type));
    (14, u16 r.(QfsJournalRecord.sector_count));
    (16, u64 r.(QfsJournalRecord.target_inode));
    (24, u64 r.(QfsJournalRecord.sector));
    (32, u32 r.(QfsJournalRecord.checksum));
    (36, u32 r.(QfsJournalRecord.flags)) ]%nat.
Definition serialize_journal_record (r : QfsJournalRecord.t) : res (list Z) :=
  puts (journal_fields r) zero_sector.

(** [checksum.wrapping_add(sector[idx] as u32)] *)
Definition checksum_sector (sector : list Z) : Z := foldl (wrap_add 32) 0 sector.

Definition max_u64 (left right : Z) : Z := if right <=? left then left else right.
Definition max_u16 : Z → Z → Z := max_u64.

Definition journal_table : Type := list (option QfsJournalRecord.t).

(** the scan of [next_journal_slot]: the first empty slot, or the last slot with the
    greatest sequence number *)
Fixpoint newest_slot (records : journal_table) (idx best_idx : nat) (best_sequence : Z) (todo : nat)
    : nat + nat :=
  match todo with
  | O => inr best_idx
  | S todo =>
      match default None (records !! idx) with
      | None => inl idx
      | Some record =>
          if best_sequence <=? record.(QfsJournalRecord.sequence)
          then newest_slot records (S idx) idx record.(QfsJournalRecord.sequence) todo
          else newest_slot records (S idx) best_idx best_sequence todo
      end
  end.

(** the code is called with at least one slot; it would divide by zero otherwise *)
Definition next_journal_slot (records : journal_table) (slot_count : nat) : nat :=
  match newest_slot records 0 0 0 slot_count with
  | inl idx => idx
  | inr best_idx => ((best_idx + 1) mod slot_count)%nat
  end.

Definition transaction_has_kind (records : journal_table) (transaction_id : Z)
    (kind : QfsJournalRecordKind.t) : bool :=
  existsb (λ o, match o with
                | Some record =>
                    (record.(QfsJournalRecord.sequence) =? transaction_id)
                    && bool_decide (QfsJournalRecord.kind record = Some kind)
                | None => false
                end) records.
Definition transaction_has_begin (records : journal_table) (transaction_id : Z) : bool :=
  transaction_has_kind records transaction_id QfsJournalRecordKind.Begin.
Definition transaction_has_abort (records : journal_table) (transaction_id : Z) : bool :=
  transaction_has_kind records transaction_id QfsJournalRecordKind.Abort.

Definition map_device_error (error : DeviceError.t) : VfsError.t :=
  match error with
  | DeviceError.NotFound | DeviceError.RegistryFull => VfsError.NoSpace
  | DeviceError.Busy => VfsError.Busy
  | DeviceError.Unsupported | DeviceError.BufferTooSmall => VfsError.Unsupported
  end.

(** ** Operations on a device *)
Section device_ops.
Context {D : Type} `{!BlockStorage D}.
Abbreviation Op := (M D VfsError.t).

Definition read_sector (sector : Z) : Op (list Z) := λ d,
  match read_sectors d sector zero_sector with
  | (Ok bytes, buffer) =>
      if bytes =? QFS_SECTOR_SIZE then (Ok buffer, d) else (Err VfsError.Unsupported, d)
  | (Err e, _) => (Err (map_device_error e), d)
  end.

Definition write_sector (sector : Z) (buffer : list Z) : Op unit := λ d,
  match write_sectors d sector buffer with
  | (Ok bytes, d') =>
      if bytes =? QFS_SECTOR_SIZE then (Ok tt, d') else (Err VfsError.Unsupported, d')
  | (Err e, d') => (Err (map_device_error e), d')
  end.

Definition flush_device : Op unit := λ d,
  match flush d with
  | (Ok _, d') => (Ok tt, d')
  | (Err e, d') => (Err (map_device_error e), d')
  end.

Definition read_superblock : Op QfsSuperblock.t :=
  sector ← read_sector QFS_SUPERBLOCK_SECTOR; lift (parse_superblock sector).
Definition write_superblock (sb : QfsSuperblock.t) : Op unit :=
  sector ← lift (serialize_superblock sb); write_sector QFS_SUPERBLOCK_SECTOR sector.

Definition read_book_header (sb : QfsSuperblock.t) (book_id : Z) : Op QfsBookHeader.t :=
  sector ← read_sector (book_start_sector sb book_id); lift (parse_book_header sector).
Definition write_book_header (sb : QfsSuperblock.t) (header : QfsBookHeader.t) : Op unit :=
  sector ← lift (serialize_book_header header);
  write_sector (book_start_sector sb header.(QfsBookHeader.book_id)) sector.

Definition read_inode_table (sb : QfsSuperblock.t) (table_len : nat)
    : Op (list (option QfsInodeRecord.t)) :=
  sector_number ← lift (ok_or (page_location_sector sb sb.(QfsSuperblock.inode_table))
                          VfsError.Unsupported);
  sector ← read_sector sector_number;
  lift (parse_inode_records sector table_len).
Definition write_inode_table (sb : QfsSuperblock.t) (inodes : list (option QfsInodeRecord.t))
    : Op unit :=
  sector_number ← lift (ok_or (page_location_sector sb sb.(QfsSuperblock.inode_table))
                          VfsError.Unsupported);
  sector ← lift (serialize_inode_records inodes);
  write_sector sector_number sector.

(** the loop of [scan_journal] over the slots still to be read *)
Fixpoint scan_slots (journal_start : Z) (slots : list nat)
    (records : journal_table) (max_transaction_id : Z) : Op (journal_table * Z) :=
  match slots with
  | [] => mret (records, max_transaction_id)
  | slot :: rest =>
      let record_sector := journal_start + Z.of_nat slot * QFS_JOURNAL_SLOT_SECTORS in
      count ← gets sector_count;
      if count <=? record_sector + QFS_JOURNAL_PAYLOAD_SECTOR_OFFSET then
        mret (records, max_transaction_id)
      else
        sector ← read_sector record_sector;
        parsed ← lift (parse_journal_record sector);
        match parsed with
        | Some record =>
            scan_slots journal_start rest (<[slot := Some record]> records)
              (max_u64 max_transaction_id record.(QfsJournalRecord.sequence))
        | None => scan_slots journal_start rest records max_transaction_id
        end
  end.

(** the records found, the number of slots and the greatest sequence number *)
Definition scan_journal (sb : QfsSuperblock.t) : Op (journal_table * (nat * Z)) :=
  let records := replicate QFS_MAX_JOURNAL_RECORDS None in
  match page_location_sector sb sb.(QfsSuperblock.journal) with
  | None => mret (records, (0%nat, 0))
  | Some journal_start =>
      let slot_count := journal_slot_count sb in
      '(records, max_transaction_id) ← scan_slots journal_start (seq 0 slot_count) records 0;
      mret (records, (slot_count, max_transaction_id))
  end.

Definition is_write (record : QfsJournalRecord.t) : bool :=
  bool_decide (QfsJournalRecord.kind record = Some QfsJournalRecordKind.MetadataWrite)
  || bool_decide (QfsJournalRecord.kind record = Some QfsJournalRecordKind.DataWrite).

Definition payload_sector (journal_start : Z) (idx : nat) : Z :=
  journal_start + Z.of_nat idx * QFS_JOURNAL_SLOT_SECTORS + QFS_JOURNAL_PAYLOAD_SECTOR_OFFSET.

(** one slot of [apply_transaction_records] *)
Definition apply_slot (journal_start : Z) (transaction_id : Z)
    (slot : nat * option QfsJournalRecord.t) : Op unit :=
  match slot.2 with
  | Some record =>
      if (record.(QfsJournalRecord.sequence) =? transaction_id) && is_write record then
        count ← gets sector_count;
        if negb (record.(QfsJournalRecord.sector_count) =? 1)
           || (count <=? record.(QfsJournalRecord.sector)) then throw VfsError.NoSpace
        else if count <=? payload_sector journal_start slot.1 then throw VfsError.NoSpace
        else
          payload ← read_sector (payload_sector journal_start slot.1);
          if negb (checksum_sector payload =? record.(QfsJournalRecord.checksum)) then
            throw VfsError.Unsupported
          else write_sector record.(QfsJournalRecord.sector) payload
      else mret tt
  | None => mret tt
  end.

Definition numbered {A} (l : list A) : list (nat * A) := zip (seq 0 (length l)) l.

Definition apply_transaction_records (journal_start : Z) (records : journal_table)
    (transaction_id : Z) : Op unit :=
  mfor (numbered records) (apply_slot journal_start transaction_id).

(** the test of [replay_valid_journal_records] on one slot *)
Definition replayable (records : journal_table) (slot : option QfsJournalRecord.t) : option Z :=
  match slot with
  | Some commit =>
      if bool_decide (QfsJournalRecord.kind commit = Some QfsJournalRecordKind.Commit)
         && transaction_has_begin records commit.(QfsJournalRecord.sequence)
         && negb (transaction_has_abort records commit.(QfsJournalRecord.sequence))
      then Some commit.(QfsJournalRecord.sequence) else None
  | None => None
  end.

Definition replay_valid_journal_records (sb : QfsSuperblock.t) (records : journal_table)
    (slot_count : nat) : Op unit :=
  match page_location_sector sb sb.(QfsSuperblock.journal) with
  | None => mret tt
  | Some journal_start =>
      mfor (take slot_count records) (λ slot,
        match replayable records slot with
        | Some transaction_id => apply_transaction_records journal_start records transaction_id
        | None => mret tt
        end)
  end.

(** the superblock of a fresh image with that many books *)
Definition fresh_superblock (total_books : Z) : QfsSuperblock.t :=
  let book_size := QFS_BOOK_PAGES * QFS_PAGE_SECTORS in
  let formatted_sectors := QFS_FIRST_BOOK_SECTOR + total_books * book_size in
  let reserved_sectors :=
    QFS_SUPERBLOCK_SECTOR + 1 + QFS_BOOK_HEADER_SECTORS + QFS_BOOK_INDEX_SECTORS
    + QFS_PAGE_SECTORS * 3 in
  QfsSuperblock.mk QFS_MAGIC QFS_VERSION QFS_SECTOR_SIZE QFS_PAGE_SECTORS QFS_BOOK_PAGES
    total_books InodeId_ROOT (QfsPageLocation.new 0 1) (QfsPageLocation.new 0 8)
    (QfsPageLocation.new 0 2) 0 formatted_sectors (sat_sub formatted_sectors reserved_sectors)
    (replicate 64 0).

Definition fresh_index : list (QfsBookIndexEntry.t * nat) :=
  [ (QfsBookIndexEntry.mk 1 1 1 QfsBookRole.Inode 0 (replicate 6 0), 0%nat);
    (QfsBookIndexEntry.mk 2 2 1 QfsBookRole.FreeMap 0 (replicate 6 0),
     QFS_BOOK_INDEX_ENTRY_BYTES);
    (QfsBookIndexEntry.mk 3 8 (QFS_BOOK_PAGES - 8) QfsBookRole.Journal 0 (replicate 6 0),
     (QFS_BOOK_INDEX_ENTRY_BYTES * 2)%nat) ].

Definition fresh_inodes : list (option QfsInodeRecord.t) :=
  Some QfsInodeRecord.root :: replicate (QFS_MAX_INODE_RECORDS - 1) None.

Definition initialize_image (sector_count : Z) : Op QfsSuperblock.t :=
  size ← gets sector_size;
  if negb (size =? QFS_SECTOR_SIZE) then throw VfsError.Unsupported
  else
    let book_size := QFS_BOOK_PAGES * QFS_PAGE_SECTORS in
    if sector_count <? QFS_FIRST_BOOK_SECTOR + book_size then throw VfsError.NoSpace
    else
      let total_books := (sector_count - QFS_FIRST_BOOK_SECTOR) / book_size in
      if umax 32 <? total_books then throw VfsError.NoSpace
      else
        count ← gets BlockDevice.sector_count;
        if count <? QFS_FIRST_BOOK_SECTOR + total_books * book_size then throw VfsError.NoSpace
        else
          let superblock := fresh_superblock total_books in
          _ ← write_superblock superblock;
          _ ← write_book_header superblock
                (QfsBookHeader.mk 0 3 3 0 0 (replicate 496 0));
          sector ← lift (rfold (λ sector e, serialize_book_index_entry e.1 sector e.2)
                           zero_sector fresh_index);
          _ ← write_sector (book_start_sector superblock 0 + QFS_BOOK_HEADER_SECTORS) sector;
          _ ← write_inode_table superblock fresh_inodes;
          mret superblock.
End device_ops.
