(* ===== verification/QfsFormatSafety.v ===== *)
(** * The QFS records survive the disk

    Round trips of the wire records of QfsFormat: what a serialiser writes the parser
    reads back, field by field, for every value the field widths can hold; what a
    parser accepts is well formed; no serialiser fails.  The inode table is the
    exception the theorem spells out: one sector holds two records, so slots from the
    third on do not come back. *)

From stdpp Require Import prelude.
From S2P Require Import Prelude Bytes Permissions Vfs BlockDevice QfsFormat.

Local Open Scope Z_scope.

(** ** Storing and reading fields *)
Lemma put_ok out f : (f.1 + length f.2 ≤ length out)%nat → put out f = Ok (write_at f.1 f.2 out).
Proof. intros H. unfold put. by rewrite decide_True. Qed.

Lemma puts_ok fs bs :
  layout_ok (length bs) (extents fs) = true → puts fs bs = Ok (patched fs bs).
Proof.
  revert bs. unfold puts. induction fs as [|f fs IH]; intros bs; cbn [rfold patched]; [done|].
  cbn [extents fmap list_fmap layout_ok]. rewrite !andb_true_iff, Nat.leb_le. cbn [fst snd].
  intros [[Hr _] Hl]. rewrite put_ok by done. cbn [mbind result_bind].
  apply IH. by rewrite length_write_at.
Qed.

Lemma uint_at_stored n fs bs off v :
  layout_ok (length bs) (extents fs) = true → (off, to_le_bytes n v) ∈ fs →
  (off + n ≤ length bs)%nat → fits n v → uint_at n (patched fs bs) off = Ok v.
Proof.
  intros Hl Hin Hr Hv. unfold uint_at, get_range. rewrite length_patched by done.
  rewrite decide_True by done. cbn. rewrite (slice_patched_elem fs bs off (to_le_bytes n v)).
  - by rewrite from_to_le.
  - done.
  - done.
  - by rewrite length_to_le.
Qed.

Lemma u8_at_stored fs bs off v :
  layout_ok (length bs) (extents fs) = true → (off, u8 v) ∈ fs →
  u8_at (patched fs bs) off = Ok v.
Proof.
  intros Hl Hin. pose proof (slice_patched_elem _ _ _ _ 1 Hl Hin eq_refl) as Hs.
  unfold slice, u8_at in *. destruct (drop off (patched fs bs)) as [|b l] eqn:Ed; [done|].
  cbn in Hs. injection Hs as ->.
  rewrite <-(Nat.add_0_r off), <-lookup_drop, Ed. done.
Qed.

Lemma uint_at_fits n bytes off v :
  bytes_ok bytes → uint_at n bytes off = Ok v → fits n v.
Proof.
  intros Hb. unfold uint_at, get_range. case_decide as Hl; cbn; [|done]. intros [= <-].
  rewrite <-(length_slice off n bytes Hl) at 1. by apply from_le_fits, bytes_ok_slice.
Qed.

Lemma u8_at_fits bytes off v : bytes_ok bytes → u8_at bytes off = Ok v → fits 1 v.
Proof.
  intros Hb. unfold u8_at. destruct (bytes !! off) eqn:E; cbn; [|done]. intros [= <-].
  unfold bytes_ok in Hb. rewrite Forall_lookup in Hb. by apply (Hb _ _ E).
Qed.

(** a field of an explicit list *)
Ltac in_fields := repeat (apply list_elem_of_here || apply list_elem_of_further).

Lemma length_zero_sector : length zero_sector = 512%nat.
Proof. apply length_replicate. Qed.

(** one integer field of a stored record: [side] proves its width *)
Ltac stored Hl side :=
  erewrite (uint_at_stored _ _ _ _ _ Hl) by
    (first [solve [in_fields] | rewrite length_zero_sector; lia | side]);
  cbn [mbind result_bind].

(** ** The superblock *)
Definition location_ok (l : QfsPageLocation.t) : Prop :=
  fits 4 l.(QfsPageLocation.book_id) ∧ fits 2 l.(QfsPageLocation.page).

(** a superblock a driver of this version can have read *)
Record superblock_ok (sb : QfsSuperblock.t) : Prop := {
  sb_magic : sb.(QfsSuperblock.magic) = QFS_MAGIC;
  sb_version : sb.(QfsSuperblock.version) = QFS_VERSION;
  sb_sector_size : sb.(QfsSuperblock.sector_size) = QFS_SECTOR_SIZE;
  sb_page_sectors : fits 2 sb.(QfsSuperblock.page_sectors) ∧ sb.(QfsSuperblock.page_sectors) ≠ 0;
  sb_book_pages : fits 2 sb.(QfsSuperblock.book_pages) ∧ sb.(QfsSuperblock.book_pages) ≠ 0;
  sb_total_books : fits 4 sb.(QfsSuperblock.total_books);
  sb_root_inode : fits 8 sb.(QfsSuperblock.root_inode);
  sb_inode_table : location_ok sb.(QfsSuperblock.inode_table);
  sb_journal : location_ok sb.(QfsSuperblock.journal);
  sb_bitmap : location_ok sb.(QfsSuperblock.free_space_bitmap);
  sb_flags : fits 2 sb.(QfsSuperblock.flags);
  sb_total_sectors : fits 8 sb.(QfsSuperblock.total_sectors);
  sb_free_sectors : fits 8 sb.(QfsSuperblock.free_sectors);
  sb_reserved : length sb.(QfsSuperblock.reserved) = 64%nat ∧ bytes_ok sb.(QfsSuperblock.reserved)
}.

Lemma superblock_layout sb : superblock_ok sb →
  layout_ok (length zero_sector) (extents (superblock_fields sb)) = true.
Proof.
  intros H. cbn [extents superblock_fields fmap list_fmap fst snd]. unfold u16, u32, u64.
  rewrite !length_to_le, (sb_magic _ H), (proj1 (sb_reserved _ H)). by vm_compute.
Qed.

(** ** What a parser accepts *)
Ltac parse_inv H :=
  repeat first
    [ discriminate H
    | let E := fresh "E" in apply result_bind_Ok in H as (? & E & H)
    | match type of H with
      | (if ?b then _ else _) = _ => let E := fresh "E" in destruct b eqn:E
      end ].

Lemma uint_at_slice n bytes off v :
  bytes_ok bytes → uint_at n bytes off = Ok v →
  to_le_bytes n v = slice off n bytes ∧ fits n v.
Proof.
  intros Hb Hv. split; [|by eapply uint_at_fits]. unfold uint_at, get_range in Hv.
  case_decide as Hl; cbn in Hv; [|done]. injection Hv as <-.
  apply to_from_le; [by apply length_slice|by apply bytes_ok_slice].
Qed.

(** each integer read, with its bytes and its width *)
Ltac parsed_fields Hb :=
  repeat match goal with
  | E : uint_at _ _ _ = Ok _ |- _ =>
      let E1 := fresh "Eb" in let E2 := fresh "Ef" in
      apply (uint_at_slice _ _ _ _ Hb) in E as [E1 E2]
  end.

Ltac stored_bytes :=
  repeat match goal with E : to_le_bytes _ _ = slice _ _ _ |- _ => rewrite E; clear E end.

Lemma superblock_parsed sector sb : sector_ok sector → parse_superblock sector = Ok sb →
  superblock_ok sb ∧ field_bytes (superblock_fields sb) = take 128 sector.
Proof.
  intros [Hlen Hb] H. unfold parse_superblock, u16_at, u32_at, u64_at in H. parse_inv H.
  injection H as <-. parsed_fields Hb.
  apply negb_false_iff in E, E1, E3. apply bool_decide_eq_true in E. apply Z.eqb_eq in E1, E3.
  apply orb_false_iff in E6 as [Hp%Z.eqb_neq Hbp%Z.eqb_neq]. split.
  - split; cbn; try done; try (by split). split; [by apply length_slice; lia|by apply bytes_ok_slice].
  - cbn. unfold u16, u32, u64. stored_bytes.
    exact (cut_slice 0 [8; 2; 2; 2; 2; 4; 8; 4; 2; 4; 2; 4; 2; 2; 8; 8; 64]%nat sector).
Qed.

(** the serialised form of a record is its bytes and zeroes after them *)
Lemma puts_contiguous fs :
  layout_ok 512 (extents fs) = true → contiguous 0 fs → (length (field_bytes fs) ≤ 512)%nat →
  puts fs zero_sector = Ok (field_bytes fs ++ drop (length (field_bytes fs)) zero_sector).
Proof.
  intros Hl Hc Hn. rewrite puts_ok by (by rewrite length_zero_sector).
  rewrite (patched_contiguous 0) by (done || rewrite length_zero_sector; lia). done.
Qed.

Lemma superblock_rewritten sector sb : sector_ok sector → parse_superblock sector = Ok sb →
  serialize_superblock sb = Ok (take 128 sector ++ replicate 384 0).
Proof.
  intros Hs H. destruct (superblock_parsed _ _ Hs H) as [Hok Hf]. destruct Hs as [Hlen _].
  unfold serialize_superblock. rewrite puts_contiguous, Hf, length_take, Hlen.
  - done.
  - apply superblock_layout in Hok. by rewrite length_zero_sector in Hok.
  - cbn. unfold u16, u32, u64. rewrite !length_to_le, (sb_magic _ Hok). by repeat split.
  - rewrite Hf, length_take. lia.
Qed.

(** ** Book headers *)
Record book_header_ok (h : QfsBookHeader.t) : Prop := {
  bh_book_id : fits 4 h.(QfsBookHeader.book_id);
  bh_chapters : fits 2 h.(QfsBookHeader.chapter_count);
  bh_entries : fits 2 h.(QfsBookHeader.index_entry_count);
  bh_checksum : fits 4 h.(QfsBookHeader.checksum);
  bh_generation : fits 4 h.(QfsBookHeader.generation);
  bh_reserved : length h.(QfsBookHeader.reserved) = 496%nat ∧ bytes_ok h.(QfsBookHeader.reserved)
}.

Lemma book_header_layout h : book_header_ok h →
  layout_ok (length zero_sector) (extents (book_header_fields h)) = true.
Proof.
  intros H. cbn [extents book_header_fields fmap list_fmap fst snd]. unfold u16, u32.
  rewrite !length_to_le, (proj1 (bh_reserved _ H)). by vm_compute.
Qed.

Lemma book_header_read h : book_header_ok h →
  parse_book_header (patched (book_header_fields h) zero_sector) = Ok h.
Proof.
  intros H. pose proof (book_header_layout h H) as Hl. unfold parse_book_header.
  rewrite (slice_patched_elem _ _ 16 h.(QfsBookHeader.reserved) _ Hl);
    [|by in_fields|by rewrite (proj1 (bh_reserved _ H))].
  unfold u16_at, u32_at. destruct H. do 5 stored Hl done. by destruct h.
Qed.

Lemma book_header_parsed sector h : sector_ok sector → parse_book_header sector = Ok h →
  book_header_ok h ∧ field_bytes (book_header_fields h) = sector.
Proof.
  intros [Hlen Hb] H. unfold parse_book_header, u16_at, u32_at in H. parse_inv H.
  injection H as <-. parsed_fields Hb. split.
  - split; cbn; try done. split; [by apply length_slice; lia|by apply bytes_ok_slice].
  - cbn. unfold u16, u32. stored_bytes.
    etrans; [exact (cut_slice 0 [4; 2; 2; 4; 4; 496]%nat sector)|]. by apply slice_all.
Qed.

Lemma book_header_rewritten sector h : sector_ok sector → parse_book_header sector = Ok h →
  serialize_book_header h = Ok sector.
Proof.
  intros Hs H. destruct (book_header_parsed _ _ Hs H) as [Hok Hf]. destruct Hs as [Hlen _].
  unfold serialize_book_header. rewrite puts_contiguous, Hf, Hlen.
  - by rewrite app_nil_r.
  - apply book_header_layout in Hok. by rewrite length_zero_sector in Hok.
  - cbn. unfold u16, u32. rewrite !length_to_le. by repeat split.
  - by rewrite Hf, Hlen.
Qed.

(** ** Book index entries, at any offset of any buffer *)
Record index_entry_ok (e : QfsBookIndexEntry.t) : Prop := {
  bi_chapter_id : fits 4 e.(QfsBookIndexEntry.chapter_id);
  bi_first_page : fits 2 e.(QfsBookIndexEntry.first_page);
  bi_page_count : fits 2 e.(QfsBookIndexEntry.page_count);
  bi_flags : fits 1 e.(QfsBookIndexEntry.flags);
  bi_reserved : length e.(QfsBookIndexEntry.reserved) = 6%nat ∧ bytes_ok e.(QfsBookIndexEntry.reserved)
}.

Lemma from_as_u8 r : QfsBookRole.from_u8 (QfsBookRole.as_u8 r) = r.
Proof. by destruct r. Qed.

Lemma index_entry_layout e (bytes : list Z) off : index_entry_ok e → (off + 16 ≤ length bytes)%nat →
  layout_ok (length bytes) (extents (book_index_fields e off)) = true.
Proof.
  intros H Hl. cbn [extents book_index_fields fmap list_fmap fst snd]. unfold u16, u32, u8.
  rewrite !length_to_le, (proj1 (bi_reserved _ H)). cbn -[Nat.leb].
  unfold apart. cbn -[Nat.leb]. rewrite !andb_true_iff, !orb_true_iff, !Nat.leb_le. lia.
Qed.

Lemma index_entry_roundtrip e (bytes : list Z) off : index_entry_ok e → (off + 16 ≤ length bytes)%nat →
  ∃ bytes', serialize_book_index_entry e bytes off = Ok bytes' ∧
    length bytes' = length bytes ∧ parse_book_index_entry bytes' off = Ok e ∧
    ∀ o n, (o + n ≤ off)%nat ∨ (off + 16 ≤ o)%nat → slice o n bytes' = slice o n bytes.
Proof.
  intros H Hlen. pose proof (index_entry_layout e bytes off H Hlen) as Hl.
  exists (patched (book_index_fields e off) bytes). split_and!.
  - by apply puts_ok.
  - by apply length_patched.
  - unfold parse_book_index_entry, get_range.
    rewrite length_patched, decide_True by (done || lia). cbn [mbind result_bind].
    rewrite (slice_patched_elem _ _ (off + 10) e.(QfsBookIndexEntry.reserved) _ Hl);
      [|by in_fields|by rewrite (proj1 (bi_reserved _ H))].
    unfold u16_at, u32_at.
    erewrite !(uint_at_stored _ _ _ _ _ Hl) by (first [solve [in_fields]|lia|by destruct H]).
    cbn [mbind result_bind].
    erewrite !(u8_at_stored _ _ _ _ Hl) by (solve [in_fields]).
    cbn [mbind result_bind]. rewrite from_as_u8. by destruct e.
  - intros o n Ho. apply slice_patched_ne; [done|].
    cbn [extents book_index_fields fmap list_fmap fst snd]. unfold u16, u32, u8.
    rewrite !length_to_le, (proj1 (bi_reserved _ H)). cbn -[Nat.leb].
    unfold apart. cbn -[Nat.leb]. rewrite !andb_true_iff, !orb_true_iff, !Nat.leb_le. lia.
Qed.

(** ** Journal records *)
Record journal_record_ok (r : QfsJournalRecord.t) : Prop := {
  jr_sequence : fits 8 r.(QfsJournalRecord.sequence) ∧ r.(QfsJournalRecord.sequence) ≠ 0;
  jr_type : fits 2 r.(QfsJournalRecord.record_type) ∧ QfsJournalRecord.kind r ≠ None;
  jr_target : fits 8 r.(QfsJournalRecord.target_inode);
  jr_sector : fits 8 r.(QfsJournalRecord.sector);
  jr_count : fits 2 r.(QfsJournalRecord.sector_count);
  jr_checksum : fits 4 r.(QfsJournalRecord.checksum);
  jr_flags : fits 4 r.(QfsJournalRecord.flags)
}.

Lemma journal_layout r : layout_ok (length zero_sector) (extents (journal_fields r)) = true.
Proof.
  cbn [extents journal_fields fmap list_fmap fst snd]. unfold u16, u32, u64.
  rewrite !length_to_le. by vm_compute.
Qed.

Lemma journal_record_stored r :
  serialize_journal_record r = Ok (patched (journal_fields r) zero_sector).
Proof. apply puts_ok, journal_layout. Qed.

Lemma journal_record_parsed sector r : sector_ok sector →
  parse_journal_record sector = Ok (Some r) →
  journal_record_ok r ∧ field_bytes (journal_fields r) = take 40 sector.
Proof.
  intros [Hlen Hb] H. unfold parse_journal_record, u16_at, u32_at, u64_at in H. parse_inv H.
  injection H as <-. parsed_fields Hb. apply negb_false_iff, Z.eqb_eq in E0.
  apply bool_decide_eq_false in E2. apply Z.eqb_neq in E9. split.
  - split; cbn; try done.
  - cbn. unfold u16, u32, u64. rewrite <-E0. stored_bytes.
    exact (cut_slice 0 [4; 8; 2; 2; 8; 8; 4; 4]%nat sector).
Qed.

(** ** Inode records *)
Definition extent_ok (e : QfsExtentRecord.t) : Prop :=
  fits 8 e.(QfsExtentRecord.logical_page) ∧ fits 4 e.(QfsExtentRecord.book_id) ∧
  fits 2 e.(QfsExtentRecord.first_page) ∧ fits 2 e.(QfsExtentRecord.page_count).

Record inode_ok (r : QfsInodeRecord.t) : Prop := {
  in_u64 : Forall (fits 8) [r.(QfsInodeRecord.inode); r.(QfsInodeRecord.object_id);
    r.(QfsInodeRecord.parent_inode); r.(QfsInodeRecord.path_identity);
    r.(QfsInodeRecord.size); r.(QfsInodeRecord.last_transaction_id)];
  in_u32 : Forall (fits 4) [r.(QfsInodeRecord.first_chapter); r.(QfsInodeRecord.chapter_count);
    r.(QfsInodeRecord.extent_map_version)];
  in_u16 : Forall (fits 2) [r.(QfsInodeRecord.metadata_flags); r.(QfsInodeRecord.mode);
    r.(QfsInodeRecord.uid); r.(QfsInodeRecord.gid); r.(QfsInodeRecord.links);
    r.(QfsInodeRecord.service_class); r.(QfsInodeRecord.mutation_state);
    r.(QfsInodeRecord.extent_count); r.(QfsInodeRecord.signature_len);
    r.(QfsInodeRecord.capability_len); r.(QfsInodeRecord.inline_data_len)];
  in_u8 : Forall (fits 1) [r.(QfsInodeRecord.kind); r.(QfsInodeRecord.name_len)];
  in_signature : length r.(QfsInodeRecord.signature_ref) = 16%nat;
  in_capability : length r.(QfsInodeRecord.capability_ref) = 16%nat;
  in_extents : length r.(QfsInodeRecord.extents) = 2%nat;
  in_extents_ok : Forall extent_ok r.(QfsInodeRecord.extents);
  in_name : length r.(QfsInodeRecord.name_bytes) = 32%nat;
  in_data : length r.(QfsInodeRecord.inline_data) = 76%nat;
  in_bytes : bytes_ok r.(QfsInodeRecord.signature_ref) ∧ bytes_ok r.(QfsInodeRecord.capability_ref) ∧
    bytes_ok r.(QfsInodeRecord.name_bytes) ∧ bytes_ok r.(QfsInodeRecord.inline_data)
}.

Lemma clamp_fits v b n : fits n v → fits n (clamp v b).
Proof. unfold fits, clamp. lia. Qed.

Lemma path_identity_fits parent name len :
  fits 8 parent → bytes_ok name → fits 8 (qfs_path_identity parent name len).
Proof.
  intros Hp Hn. unfold qfs_path_identity.
  assert (fits 8 (Z.lxor 14695981039346656037 parent)) as Hi by (apply lxor_fits; [by apply fits_b|done]).
  generalize dependent (Z.lxor 14695981039346656037 parent).
  induction (take _ name) as [|b l IH]; intros h Hh; cbn; [done|]. apply IH.
  unfold path_identity_step, fits. apply Z.mod_pos_bound. lia.
Qed.

Lemma set_identity_ok r o p :
  inode_ok r → fits 8 o → fits 8 p → inode_ok (QfsInodeRecord.set_identity o p r).
Proof.
  intros [H8 ? ? ? ? ? ? ? ? ? ?] Ho Hp. split; try done. cbn in *.
  rewrite !Forall_cons in *. destruct_and!. by split_and!.
Qed.

Lemma refresh_ok r : inode_ok r → inode_ok (QfsInodeRecord.refresh_path_identity r).
Proof.
  intros H. pose proof (in_u64 _ H) as H8. rewrite !Forall_cons in H8.
  destruct_and!. apply set_identity_ok; [done..|]. apply path_identity_fits; [done|].
  by destruct (in_bytes _ H) as (_ & _ & ? & _).
Qed.

Lemma with_defaults_ok r : inode_ok r → inode_ok (with_defaults r).
Proof.
  intros H. pose proof (in_u64 _ H) as H8. rewrite !Forall_cons in H8. unfold with_defaults.
  repeat case_match; try apply refresh_ok; try done; apply set_identity_ok; by destruct_and!.
Qed.

Lemma with_defaults_inode r :
  (with_defaults r).(QfsInodeRecord.inode) = r.(QfsInodeRecord.inode).
Proof. unfold with_defaults. by repeat case_match. Qed.

(** what comes back from the disk: the defaults filled in, counts limited to the
    arrays they count, nothing after the inline data *)
Definition on_disk (r0 : QfsInodeRecord.t) : QfsInodeRecord.t :=
  let r := with_defaults r0 in
  let n := Nat.min (Z.to_nat r.(QfsInodeRecord.inline_data_len)) QFS_INLINE_DATA_BYTES in
  QfsInodeRecord.mk r.(QfsInodeRecord.inode) r.(QfsInodeRecord.object_id)
    r.(QfsInodeRecord.parent_inode) r.(QfsInodeRecord.path_identity) r.(QfsInodeRecord.kind)
    (clamp r.(QfsInodeRecord.name_len) QFS_NAME_BYTES) r.(QfsInodeRecord.metadata_flags)
    r.(QfsInodeRecord.mode) r.(QfsInodeRecord.uid) r.(QfsInodeRecord.gid)
    r.(QfsInodeRecord.links) r.(QfsInodeRecord.service_class) r.(QfsInodeRecord.mutation_state)
    r.(QfsInodeRecord.size) r.(QfsInodeRecord.first_chapter) r.(QfsInodeRecord.chapter_count)
    r.(QfsInodeRecord.extent_map_version)
    (clamp r.(QfsInodeRecord.extent_count) QFS_INLINE_EXTENT_RECORDS)
    r.(QfsInodeRecord.signature_len) r.(QfsInodeRecord.signature_ref)
    r.(QfsInodeRecord.capability_len) r.(QfsInodeRecord.capability_ref)
    r.(QfsInodeRecord.last_transaction_id) r.(QfsInodeRecord.extents)
    r.(QfsInodeRecord.name_bytes) (Z.of_nat n)
    (take n r.(QfsInodeRecord.inline_data) ++ replicate (QFS_INLINE_DATA_BYTES - n) 0).

(** ** The fields of the table *)
Definition inode_extents (off : nat) : list (nat * nat) :=
  prod_map (λ o, off + o)%nat id <$>
  [(0, 8); (8, 8); (16, 8); (24, 8); (32, 1); (33, 1); (34, 2); (36, 2); (38, 2); (40, 2);
   (42, 2); (44, 2); (46, 2); (48, 8); (56, 4); (60, 4); (64, 4); (68, 2); (70, 2); (72, 16);
   (88, 2); (90, 16); (106, 8); (114, 8); (122, 4); (126, 2); (128, 2); (130, 8); (138, 4);
   (142, 2); (144, 2); (146, 32); (178, 2); (180, 76)]%nat.

Lemma inode_extents_le r off : inode_ok r →
  Forall2 (λ e e', e.1 = e'.1 ∧ (e.2 ≤ e'.2)%nat) (extents (inode_fields r off)) (inode_extents off).
Proof.
  intros H. unfold inode_fields, inode_extents, extents, extent_fields.
  cbn [fmap list_fmap app fst snd prod_map id]. unfold u8, u16, u32, u64.
  rewrite !length_to_le, (in_signature _ H), (in_capability _ H), (in_name _ H), length_take, (in_data _ H).
  unfold QFS_INLINE_DATA_BYTES.
  repeat (apply Forall2_cons_2; [cbn [fst snd length]; lia|]). constructor.
Qed.

Definition slot_fields (slot : option QfsInodeRecord.t) (off : nat) : list field :=
  match slot with Some r => inode_fields (with_defaults r) off | None => [] end.
Definition slot_extents (slot : option QfsInodeRecord.t) (off : nat) : list (nat * nat) :=
  match slot with Some r => inode_extents off | None => [] end.
Definition slot_ok (slot : option QfsInodeRecord.t) : Prop :=
  ∀ r, slot = Some r → inode_ok r ∧ r.(QfsInodeRecord.inode) ≠ 0.

Lemma slot_extents_le slot off : slot_ok slot →
  Forall2 (λ e e', e.1 = e'.1 ∧ (e.2 ≤ e'.2)%nat) (extents (slot_fields slot off)) (slot_extents slot off).
Proof.
  intros H. destruct slot as [r|]; cbn [slot_fields slot_extents]; [|constructor].
  by apply inode_extents_le, with_defaults_ok, (H r).
Qed.

Definition table_fields (s0 s1 : option QfsInodeRecord.t) : list field :=
  slot_fields s0 0 ++ slot_fields s1 256.

Lemma table_extents_le s0 s1 : slot_ok s0 → slot_ok s1 →
  Forall2 (λ e e', e.1 = e'.1 ∧ (e.2 ≤ e'.2)%nat) (extents (table_fields s0 s1))
    (slot_extents s0 0 ++ slot_extents s1 256).
Proof.
  intros H0 H1. unfold table_fields, extents. rewrite fmap_app.
  apply Forall2_app; by apply slot_extents_le.
Qed.

Lemma table_layout s0 s1 : slot_ok s0 → slot_ok s1 →
  layout_ok (length zero_sector) (extents (table_fields s0 s1)) = true.
Proof.
  intros H0 H1. eapply layout_ok_le; [by apply table_extents_le|].
  destruct s0, s1; by vm_compute.
Qed.

(** a stored integer of one record among others *)
Ltac stored_in Hl Hsub side :=
  erewrite (uint_at_stored _ _ _ _ _ Hl) by
    (first [solve [apply Hsub; in_fields] | rewrite length_zero_sector; lia | side]);
  cbn [mbind result_bind].

Lemma extent_read r fs off k :
  inode_ok r → layout_ok (length zero_sector) (extents fs) = true → (off + 16 ≤ 512)%nat →
  extent_fields (extent_at r k) off ⊆ fs → (k < 2)%nat →
  parse_extent (patched fs zero_sector) off = Ok (extent_at r k).
Proof.
  intros H Hl Ho Hsub Hk. assert (extent_ok (extent_at r k)) as (? & ? & ? & ?).
  { unfold extent_at. destruct (lookup_lt_is_Some_2 (QfsInodeRecord.extents r) k) as [e He].
    { rewrite (in_extents _ H). done. }
    rewrite He. cbn. pose proof (in_extents_ok _ H) as Hx. rewrite Forall_lookup in Hx. by eapply Hx. }
  unfold parse_extent, u16_at, u32_at, u64_at.
  do 4 stored_in Hl Hsub done. by destruct (extent_at r k).
Qed.

Lemma extents_pair r : inode_ok r → [extent_at r 0; extent_at r 1] = r.(QfsInodeRecord.extents).
Proof.
  intros H. pose proof (in_extents _ H) as He. unfold extent_at.
  destruct (QfsInodeRecord.extents r) as [|e0 [|e1 [|]]]; done.
Qed.

Lemma inode_read r fs off :
  inode_ok r → r.(QfsInodeRecord.inode) ≠ 0 →
  layout_ok (length zero_sector) (extents fs) = true → (off + 256 ≤ 512)%nat →
  inode_fields r off ⊆ fs →
  parse_inode_record (patched fs zero_sector) off =
  Ok (Some (QfsInodeRecord.mk r.(QfsInodeRecord.inode) r.(QfsInodeRecord.object_id)
    r.(QfsInodeRecord.parent_inode) r.(QfsInodeRecord.path_identity) r.(QfsInodeRecord.kind)
    (clamp r.(QfsInodeRecord.name_len) QFS_NAME_BYTES) r.(QfsInodeRecord.metadata_flags)
    r.(QfsInodeRecord.mode) r.(QfsInodeRecord.uid) r.(QfsInodeRecord.gid)
    r.(QfsInodeRecord.links) r.(QfsInodeRecord.service_class) r.(QfsInodeRecord.mutation_state)
    r.(QfsInodeRecord.size) r.(QfsInodeRecord.first_chapter) r.(QfsInodeRecord.chapter_count)
    r.(QfsInodeRecord.extent_map_version)
    (clamp r.(QfsInodeRecord.extent_count) QFS_INLINE_EXTENT_RECORDS)
    r.(QfsInodeRecord.signature_len) r.(QfsInodeRecord.signature_ref)
    r.(QfsInodeRecord.capability_len) r.(QfsInodeRecord.capability_ref)
    r.(QfsInodeRecord.last_transaction_id) r.(QfsInodeRecord.extents)
    r.(QfsInodeRecord.name_bytes)
    (Z.of_nat (Nat.min (Z.to_nat r.(QfsInodeRecord.inline_data_len)) QFS_INLINE_DATA_BYTES))
    (take (Nat.min (Z.to_nat r.(QfsInodeRecord.inline_data_len)) QFS_INLINE_DATA_BYTES)
       r.(QfsInodeRecord.inline_data)
     ++ replicate (QFS_INLINE_DATA_BYTES -
          Nat.min (Z.to_nat r.(QfsInodeRecord.inline_data_len)) QFS_INLINE_DATA_BYTES) 0))).
Proof.
  intros H Hne Hl Ho Hsub. set (n := Nat.min _ _).
  pose proof (in_u64 _ H) as H8. pose proof (in_u32 _ H) as H4. pose proof (in_u16 _ H) as H2.
  pose proof (in_u8 _ H) as H1.
  rewrite !Forall_cons in H8. rewrite !Forall_cons in H4. rewrite !Forall_cons in H2.
  rewrite !Forall_cons in H1.
  destruct H8 as (? & ? & ? & ? & ? & ? & _). destruct H4 as (? & ? & ? & _).
  destruct H2 as (? & ? & ? & ? & ? & ? & ? & ? & ? & ? & ? & _). destruct H1 as (? & ? & _).
  assert (n ≤ 76)%nat as Hn by (unfold n, QFS_INLINE_DATA_BYTES; lia).
  assert (fits 2 (Z.of_nat n)) by (unfold fits; lia).
  unfold parse_inode_record.
  rewrite (extent_read r fs (off + 114) 0) by (first [done|lia|intros f Hf; apply Hsub; unfold inode_fields; rewrite !elem_of_app; tauto]).
  rewrite (extent_read r fs (off + 130) 1) by (first [done|lia|intros f Hf; apply Hsub; unfold inode_fields; rewrite !elem_of_app; tauto]).
  unfold u64_at, u32_at, u16_at.
  do 20 stored_in Hl Hsub ltac:(first [done|by apply clamp_fits]).
  rewrite (proj2 (Z.eqb_neq _ _) Hne).
  erewrite !(u8_at_stored _ _ _ _ Hl) by (solve [apply Hsub; in_fields]). cbn [mbind result_bind].
  rewrite Nat2Z.id. fold n. replace (Nat.min n QFS_INLINE_DATA_BYTES) with n by (unfold QFS_INLINE_DATA_BYTES; lia).
  rewrite (slice_patched_elem _ _ (off + 72) r.(QfsInodeRecord.signature_ref) _ Hl);
    [|by apply Hsub; in_fields|by rewrite (in_signature _ H)].
  rewrite (slice_patched_elem _ _ (off + 90) r.(QfsInodeRecord.capability_ref) _ Hl);
    [|by apply Hsub; in_fields|by rewrite (in_capability _ H)].
  rewrite (slice_patched_elem _ _ (off + 146) r.(QfsInodeRecord.name_bytes) _ Hl);
    [|by apply Hsub; in_fields|by rewrite (in_name _ H)].
  rewrite (slice_patched_elem _ _ (off + 180) (take n r.(QfsInodeRecord.inline_data)) _ Hl);
    [|by apply Hsub; in_fields|rewrite length_take, (in_data _ H); lia].
  rewrite extents_pair by done. unfold clamp at 2. rewrite Z.min_l by (unfold clamp; lia).
  unfold write_at. cbn [take app]. rewrite length_take, (in_data _ H), drop_replicate, Nat.min_l by lia.
  done.
Qed.

Lemma zero_slice off n : (off + n ≤ 512)%nat → slice off n zero_sector = replicate n 0.
Proof.
  intros H. unfold slice, zero_sector. rewrite drop_replicate, take_replicate.
  f_equal. lia.
Qed.

Lemma empty_read fs off :
  layout_ok (length zero_sector) (extents fs) = true →
  forallb (apart (off, 8%nat)) (extents fs) = true → (off + 8 ≤ 512)%nat →
  parse_inode_record (patched fs zero_sector) off = Ok None.
Proof.
  intros Hl Ha Ho. unfold parse_inode_record, u64_at.
  assert (uint_at 8 (patched fs zero_sector) off = Ok 0) as ->; [|done].
  unfold uint_at, get_range. rewrite length_patched, length_zero_sector, decide_True by done.
  cbn [mbind result_bind]. by rewrite slice_patched_ne, zero_slice.
Qed.

(** one slot of the table *)
Lemma slot_read s0 s1 (slot : option QfsInodeRecord.t) off :
  slot_ok s0 → slot_ok s1 → (slot = s0 ∧ off = 0%nat ∨ slot = s1 ∧ off = 256%nat) →
  parse_inode_record (patched (table_fields s0 s1) zero_sector) off = Ok (on_disk <$> slot).
Proof.
  intros H0 H1 Hslot. pose proof (table_layout _ _ H0 H1) as Hl.
  pose proof (table_extents_le _ _ H0 H1) as He.
  assert (slot_ok slot) as Hs by (by destruct Hslot as [[-> _]|[-> _]]).
  destruct slot as [r|].
  - destruct (Hs r eq_refl) as [Hr Hne]. apply inode_read.
    + by apply with_defaults_ok.
    + by rewrite with_defaults_inode.
    + done.
    + destruct Hslot as [[_ ->]|[_ ->]]; lia.
    + unfold table_fields. intros f Hf. apply elem_of_app.
      destruct Hslot as [[<- ->]|[<- ->]]; [by left|by right].
  - apply empty_read; [done| |destruct Hslot as [[_ ->]|[_ ->]]; lia].
    eapply apart_le; [exact He|]. destruct Hslot as [[<- ->]|[<- ->]].
    + destruct s1; by vm_compute.
    + destruct s0; by vm_compute.
Qed.

Lemma table_stored s0 s1 rest : slot_ok s0 → slot_ok s1 →
  serialize_inode_records (s0 :: s1 :: rest) = Ok (patched (table_fields s0 s1) zero_sector).
Proof.
  intros H0 H1. unfold serialize_inode_records, table_fields. rewrite patched_app.
  assert (∀ slot off bs, length bs = 512%nat → slot_ok slot → off = 0%nat ∨ off = 256%nat →
    match slot with
    | Some record => puts (inode_fields (with_defaults record) off) bs
    | None => Ok bs
    end = Ok (patched (slot_fields slot off) bs)) as Hput.
  { intros [r|] off bs Hb Hs Ho; [|done]. apply puts_ok. rewrite Hb.
    eapply layout_ok_le; [by apply inode_extents_le, with_defaults_ok, (Hs r)|].
    destruct Ho as [-> | ->]; by vm_compute. }
  cbn [serialize_inode_loop]. rewrite decide_True by (unfold QFS_INODE_RECORD_BYTES; lia).
  rewrite Hput by (done || by left). cbn [mbind result_bind].
  rewrite decide_True by (unfold QFS_INODE_RECORD_BYTES; lia).
  change (0 + QFS_INODE_RECORD_BYTES)%nat with 256%nat.
  assert (length (patched (slot_fields s0 0) zero_sector) = 512%nat) as Hlen.
  { rewrite length_patched; [apply length_zero_sector|]. rewrite length_zero_sector.
    eapply layout_ok_le; [by apply slot_extents_le|]. destruct s0; by vm_compute. }
  rewrite Hput by (done || by right). cbn [mbind result_bind].
  destruct rest as [|s2 rest]; [done|]. cbn [serialize_inode_loop].
  rewrite decide_False; [done|]. unfold QFS_INODE_RECORD_BYTES. lia.
Qed.

(** the sector of the table holds two slots *)
Lemma inode_table_sector s0 s1 rest n : slot_ok s0 → slot_ok s1 →
  ∃ sector, serialize_inode_records (s0 :: s1 :: rest) = Ok sector ∧ length sector = 512%nat ∧
    parse_inode_records sector (S (S n)) =
    Ok ((on_disk <$> s0) :: (on_disk <$> s1) :: replicate n None).
Proof.
  intros H0 H1. exists (patched (table_fields s0 s1) zero_sector). split_and!.
  - by apply table_stored.
  - rewrite length_patched by (by apply table_layout). apply length_zero_sector.
  - unfold parse_inode_records. cbn [parse_inode_loop].
    rewrite decide_True by (unfold QFS_INODE_RECORD_BYTES; lia).
    change (0 + QFS_INODE_RECORD_BYTES)%nat with 256%nat.
    rewrite (slot_read s0 s1 s0 0), (slot_read s0 s1 s1 256) by (first [done|by left|by right]).
    cbn [mbind result_bind]. destruct n as [|n]; [done|]. cbn [parse_inode_loop].
    rewrite (decide_False (P := (256 + QFS_INODE_RECORD_BYTES + _ ≤ _)%nat))
      by (unfold QFS_INODE_RECORD_BYTES; lia). done.
Qed.

Lemma book_header_stored h : book_header_ok h →
  serialize_book_header h = Ok (patched (book_header_fields h) zero_sector).
Proof. intros H. by apply puts_ok, book_header_layout. Qed.

Lemma length_header_sector h : book_header_ok h →
  length (patched (book_header_fields h) zero_sector) = 512%nat.
Proof. intros H. rewrite length_patched by (by apply book_header_layout). apply length_zero_sector. Qed.
Lemma length_journal_sector r : length (patched (journal_fields r) zero_sector) = 512%nat.
Proof. rewrite length_patched by (by apply journal_layout). apply length_zero_sector. Qed.

(** *** Any record that fits *)
(** a superblock whose fields fit their widths, of whatever version *)
Record superblock_fits (sb : QfsSuperblock.t) : Prop := {
  sf_magic : length sb.(QfsSuperblock.magic) = 8%nat;
  sf_u16 : Forall (fits 2) [sb.(QfsSuperblock.version); sb.(QfsSuperblock.sector_size); sb.(QfsSuperblock.page_sectors);
    sb.(QfsSuperblock.book_pages); sb.(QfsSuperblock.flags)];
  sf_u32 : fits 4 sb.(QfsSuperblock.total_books);
  sf_u64 : Forall (fits 8) [sb.(QfsSuperblock.root_inode); sb.(QfsSuperblock.total_sectors); sb.(QfsSuperblock.free_sectors)];
  sf_locations : Forall location_ok [sb.(QfsSuperblock.inode_table); sb.(QfsSuperblock.journal); sb.(QfsSuperblock.free_space_bitmap)];
  sf_reserved : length sb.(QfsSuperblock.reserved) = 64%nat
}.
(** what this version makes of a superblock *)
Definition mounted_superblock (sb : QfsSuperblock.t) : res QfsSuperblock.t :=
  if decide (sb.(QfsSuperblock.magic) ≠ QFS_MAGIC) then Err VfsError.InvalidArgument
  else if decide (sb.(QfsSuperblock.version) ≠ QFS_VERSION ∨ sb.(QfsSuperblock.sector_size) ≠ QFS_SECTOR_SIZE)
  then Err VfsError.Unsupported
  else if decide (sb.(QfsSuperblock.page_sectors) = 0 ∨ sb.(QfsSuperblock.book_pages) = 0) then Err VfsError.InvalidArgument
  else Ok sb.
Lemma superblock_fits_layout sb : superblock_fits sb → layout_ok (length zero_sector) (extents (superblock_fields sb)) = true.
Proof.
  intros H. cbn [extents superblock_fields fmap list_fmap fst snd]. unfold u16, u32, u64.
  rewrite !length_to_le, (sf_magic _ H), (sf_reserved _ H). by vm_compute.
Qed.
Lemma superblock_checked sb : superblock_fits sb → parse_superblock (patched (superblock_fields sb) zero_sector) = mounted_superblock sb.
Proof.
  intros H. pose proof (superblock_fits_layout sb H) as Hl. unfold parse_superblock, mounted_superblock.
  rewrite (slice_patched_elem _ _ 0 sb.(QfsSuperblock.magic) _ Hl); [|by in_fields|by rewrite (sf_magic _ H)].
  rewrite (slice_patched_elem _ _ 64 sb.(QfsSuperblock.reserved) _ Hl); [|by in_fields|by rewrite (sf_reserved _ H)].
  destruct (decide (QfsSuperblock.magic sb = QFS_MAGIC)) as [Em|Em].
  2:{ by rewrite bool_decide_eq_false_2, decide_True by done. }
  rewrite bool_decide_eq_true_2, decide_False by naive_solver. cbn [negb]. unfold u16_at, u32_at, u64_at.
  destruct H as [_ H2 ? H8 H6 _]. rewrite !Forall_cons in H2. rewrite !Forall_cons in H8. rewrite !Forall_cons in H6. unfold location_ok in H6. destruct_and!.
  do 15 stored Hl done. destruct (Z.eqb_spec (QfsSuperblock.version sb) QFS_VERSION) as [Ev|Ev]; cbn [negb]; [|by rewrite decide_True by auto].
  destruct (Z.eqb_spec (QfsSuperblock.sector_size sb) QFS_SECTOR_SIZE) as [Es|Es]; cbn [negb]; [|by rewrite decide_True by auto].
  rewrite decide_False by naive_solver.
  destruct (Z.eqb_spec (QfsSuperblock.page_sectors sb) 0) as [Ep|Ep]; cbn [orb]; [by rewrite decide_True by auto|].
  destruct (Z.eqb_spec (QfsSuperblock.book_pages sb) 0) as [Eb|Eb]; [by rewrite decide_True by auto|].
  rewrite decide_False by naive_solver. destruct sb as [? ? ? ? ? ? ? [] [] []]. cbn in *. by subst.
Qed.
(** a journal record whose fields fit their widths *)
Record journal_record_fits (r : QfsJournalRecord.t) : Prop := {
  jf_u16 : Forall (fits 2) [r.(QfsJournalRecord.record_type); r.(QfsJournalRecord.sector_count)];
  jf_u32 : Forall (fits 4) [r.(QfsJournalRecord.checksum); r.(QfsJournalRecord.flags)];
  jf_u64 : Forall (fits 8) [r.(QfsJournalRecord.sequence); r.(QfsJournalRecord.target_inode); r.(QfsJournalRecord.sector)]
}.
Lemma journal_record_checked r : journal_record_fits r →
  parse_journal_record (patched (journal_fields r) zero_sector) =
  Ok (if decide (QfsJournalRecord.kind r = None ∨ r.(QfsJournalRecord.sequence) = 0) then None else Some r).
Proof.
  intros H. pose proof (journal_layout r) as Hl. unfold parse_journal_record, u16_at, u32_at, u64_at.
  destruct H as [H2 H4 H8]. rewrite !Forall_cons in H2. rewrite !Forall_cons in H4. rewrite !Forall_cons in H8. destruct_and!. do 8 stored Hl ltac:(first [done|by apply fits_b]).
  change (QFS_JOURNAL_RECORD_MAGIC =? QFS_JOURNAL_RECORD_MAGIC) with true. cbn [negb].
  change (QfsJournalRecordKind.from_u16 (QfsJournalRecord.record_type r)) with (QfsJournalRecord.kind r).
  destruct (decide (QfsJournalRecord.kind r = None)) as [Ek|Ek].
  { by rewrite bool_decide_eq_true_2, decide_True by auto. }
  rewrite bool_decide_eq_false_2 by done.
  destruct (Z.eqb_spec (QfsJournalRecord.sequence r) 0) as [Es|Es]; [by rewrite decide_True by auto|].
  rewrite decide_False by naive_solver. by destruct r.
Qed.

(** C36: the metadata records survive the disk.  Serialising a superblock, a book header or
    a journal record whose fields fit their widths succeeds and fills one sector, and
    serialising a book index entry into a buffer changes its 16 bytes and no others.
    Parsing a header or an index entry gives it back.  Parsing a superblock gives it back
    exactly when its magic, version and sector size are this version's and its pages and books
    are not empty, and the error of the first check that fails otherwise.  Parsing a journal
    record gives it back when its kind is a known one and its sequence number is not zero,
    and no record otherwise, as for the empty record. *)
Theorem metadata_roundtrip sb h r e (bytes : list Z) off :
  superblock_fits sb → book_header_ok h → journal_record_fits r → index_entry_ok e → (off + 16 ≤ length bytes)%nat →
  (∃ s, serialize_superblock sb = Ok s ∧ length s = 512%nat ∧ parse_superblock s = mounted_superblock sb) ∧
  (∃ s, serialize_book_header h = Ok s ∧ length s = 512%nat ∧ parse_book_header s = Ok h) ∧
  (∃ s, serialize_journal_record r = Ok s ∧ length s = 512%nat ∧ parse_journal_record s =
     Ok (if decide (QfsJournalRecord.kind r = None ∨ r.(QfsJournalRecord.sequence) = 0) then None else Some r)) ∧
  ∃ bytes', serialize_book_index_entry e bytes off = Ok bytes' ∧ length bytes' = length bytes ∧
    parse_book_index_entry bytes' off = Ok e ∧
    ∀ o n, (o + n ≤ off)%nat ∨ (off + 16 ≤ o)%nat → slice o n bytes' = slice o n bytes.
Proof.
  intros Hsb Hh Hr He Hoff. split; [|split; [|split]].
  - pose proof (superblock_fits_layout sb Hsb) as Hl. eexists. split_and!; [by apply puts_ok| |by apply superblock_checked].
    rewrite length_patched by done. apply length_zero_sector.
  - eexists. split_and!; [by apply book_header_stored|by apply length_header_sector|by apply book_header_read].
  - eexists. split_and!; [apply journal_record_stored|apply length_journal_sector|by apply journal_record_checked].
  - by apply index_entry_roundtrip.
Qed.

Lemma zeros_ok n : bytes_ok (replicate n 0).
Proof. apply Forall_replicate. lia. Qed.

Definition sample_header : QfsBookHeader.t := QfsBookHeader.mk 0 3 3 0 0 (replicate 496 0).
Lemma sample_header_ok : book_header_ok sample_header.
Proof. split; cbn; try (by apply fits_b). exact (conj eq_refl (zeros_ok 496)). Qed.

Lemma metadata_roundtrip_witness :
  (∃ s, serialize_superblock (fresh_superblock 1) = Ok s ∧ length s = 512%nat ∧
    parse_superblock s = mounted_superblock (fresh_superblock 1)) ∧
  ∃ s, serialize_journal_record QfsJournalRecord.empty = Ok s ∧ parse_journal_record s = Ok None.
Proof.
  destruct (metadata_roundtrip (fresh_superblock 1) sample_header QfsJournalRecord.empty QfsBookIndexEntry.empty
    zero_sector 32) as (H1 & _ & (s & H2 & _ & H3) & _).
  - split; cbn; first [done|by apply fits_b|repeat (apply Forall_cons; split; [first [by apply fits_b|split; by apply fits_b]|]); apply Forall_nil_2].
  - apply sample_header_ok.
  - split; cbn; first [done|by apply fits_b|repeat (apply Forall_cons; split; [first [by apply fits_b|split; by apply fits_b]|]); apply Forall_nil_2].
  - split; cbn; try (by apply fits_b). exact (conj eq_refl (zeros_ok 6)).
  - rewrite length_zero_sector; lia.
  - split; [exact H1|]. by exists s.
Defined.

(** What the parsers accept is well typed, and rewriting it changes nothing that
    is stored.  A sector of bytes that parses as a superblock or a book header gives
    fields within their widths; serialising the result reproduces the sector, for
    the superblock with the unused part after its 128 bytes cleared. *)
Theorem parsed_metadata_canonical sector :
  sector_ok sector →
  (∀ sb, parse_superblock sector = Ok sb →
     superblock_ok sb ∧ serialize_superblock sb = Ok (take 128 sector ++ replicate 384 0)) ∧
  (∀ h, parse_book_header sector = Ok h → book_header_ok h ∧ serialize_book_header h = Ok sector) ∧
  (∀ r, parse_journal_record sector = Ok (Some r) →
     journal_record_ok r ∧
     serialize_journal_record r = Ok (take 40 sector ++ replicate 472 0)).
Proof.
  intros Hs. split_and!.
  - intros sb H. split; [by eapply superblock_parsed|by apply superblock_rewritten].
  - intros h H. split; [by eapply book_header_parsed|by apply book_header_rewritten].
  - intros r H. destruct (journal_record_parsed _ _ Hs H) as [Hok Hf]. split; [done|].
    destruct Hs as [Hlen _]. unfold serialize_journal_record.
    rewrite puts_contiguous, Hf, length_take, Hlen.
    + done.
    + pose proof (journal_layout r) as Hl. by rewrite length_zero_sector in Hl.
    + cbn. unfold u16, u32, u64. rewrite !length_to_le. by repeat split.
    + rewrite Hf, length_take. lia.
Qed.

Definition sample_sector : list Z :=
  patched (superblock_fields (fresh_superblock 1)) zero_sector.
Lemma parsed_metadata_canonical_witness :
  superblock_ok (fresh_superblock 1) ∧
  serialize_superblock (fresh_superblock 1) = Ok (take 128 sample_sector ++ replicate 384 0).
Proof.
  apply (parsed_metadata_canonical sample_sector); [|by vm_compute].
  split; [by vm_compute|]. apply (bool_decide_eq_true_1 (bytes_ok sample_sector)). by vm_compute.
Defined.

(** C15: an inode table comes back with its first two slots.  Whatever the table holds,
    writing it succeeds, and reading the sector returns the records of slots 0 and 1
    (object ids and path identities filled in, counts limited to their arrays, inline
    bytes beyond the recorded length cleared) and every other slot empty. *)
Theorem inode_table_roundtrip s0 s1 rest n :
  slot_ok s0 → slot_ok s1 →
  ∃ sector, serialize_inode_records (s0 :: s1 :: rest) = Ok sector ∧ length sector = 512%nat ∧
    parse_inode_records sector (S (S n)) =
    Ok ((on_disk <$> s0) :: (on_disk <$> s1) :: replicate n None).
Proof. apply inode_table_sector. Qed.

Lemma root_ok : inode_ok QfsInodeRecord.root.
Proof.
  split; try done; try (by repeat (constructor; try by apply fits_b)).
Qed.

Lemma inode_table_roundtrip_witness :
  ∃ sector, serialize_inode_records fresh_inodes = Ok sector ∧ length sector = 512%nat ∧
    parse_inode_records sector 32 =
    Ok (Some (on_disk QfsInodeRecord.root) :: None :: replicate 30 None).
Proof.
  apply (inode_table_roundtrip (Some QfsInodeRecord.root) None (replicate 30 None) 30).
  - intros r [= <-]. split; [apply root_ok|done].
  - done.
Defined.
