(* ===== verification/QfsJournal.v ===== *)
(** * Replaying the QFS journal

    Theorems about [scan_journal], [apply_transaction_records] and
    [replay_valid_journal_records] of QfsFormat, over any device that keeps the block
    storage contract.  Contents are compared sector by sector.  A replay is described
    by the list of its copies (target sector, payload sector); [run] is what doing
    them in order makes of the contents.  *)

From stdpp Require Import prelude.
From S2P Require Import Prelude Bytes Permissions Vfs BlockDevice QfsFormat QfsFormatSafety.

Local Open Scope Z_scope.

(** ** Copies *)
Definition copy : Type := Z * Z.
Definition copy_step (m : Z → list Z) (w : copy) : Z → list Z :=
  λ s, if decide (s = w.1) then m w.2 else m s.
Definition run (m : Z → list Z) (ws : list copy) : Z → list Z := foldl copy_step m ws.
Definition targets (ws : list copy) : list Z := fst <$> ws.

Lemma run_app m ws ws' : run m (ws ++ ws') = run (run m ws) ws'.
Proof. apply foldl_app. Qed.

Lemma run_other m ws s : s ∉ targets ws → run m ws s = m s.
Proof.
  revert m. induction ws as [|w ws IH]; intros m Hs; [done|]. cbn in *.
  apply not_elem_of_cons in Hs as [H1 H2]. rewrite IH by done. unfold copy_step. by rewrite decide_False.
Qed.

(** two states that agree on what is read and on what is not written end up alike *)
Lemma run_agree m m' ws :
  (∀ w, w ∈ ws → w.2 ∉ targets ws) →
  (∀ s, 0 <= s → s ∉ targets ws → m s = m' s) → (∀ w, w ∈ ws → 0 <= w.2) →
  ∀ s, 0 <= s → run m ws s = run m' ws s.
Proof.
  intros Hd Hm Hp.
  assert (∀ ws1 ws2, ws = ws1 ++ ws2 → ∀ s, 0 <= s →
    (s ∉ targets ws2 ∨ s ∈ targets ws1 → run m ws1 s = run m' ws1 s)) as H.
  { induction ws1 as [|w ws1 IH] using rev_ind; intros ws2 Hws s Hs Hor.
    - destruct Hor as [Hor|Hor]; [|by apply elem_of_nil in Hor]. apply Hm; [done|].
      rewrite Hws. done.
    - rewrite !run_app. cbn. unfold copy_step.
      rewrite <-app_assoc in Hws. cbn in Hws. case_decide as Hsw.
      + apply (IH _ Hws); [apply Hp; rewrite Hws; set_solver|]. left.
        assert (w.2 ∉ targets ws) as Hn by (apply Hd; rewrite Hws; set_solver).
        rewrite Hws in Hn. unfold targets in *. rewrite fmap_app in Hn. set_solver.
      + apply (IH _ Hws); [done|]. unfold targets in *. rewrite fmap_app in Hor. cbn in *. set_solver. }
  intros s Hs. apply (H ws []); [by rewrite app_nil_r|done|]. left. apply not_elem_of_nil.
Qed.

(** ** The copies a replay makes *)
Definition slot_copies (journal_start transaction_id : Z) (slot : nat * option QfsJournalRecord.t)
    : list copy :=
  match slot.2 with
  | Some record =>
      if (record.(QfsJournalRecord.sequence) =? transaction_id) && is_write record
      then [(record.(QfsJournalRecord.sector), payload_sector journal_start slot.1)] else []
  | None => []
  end.
Definition transaction_copies (journal_start : Z) (records : journal_table) (transaction_id : Z)
    : list copy :=
  numbered records ≫= slot_copies journal_start transaction_id.
Definition replay_copies (journal_start : Z) (records : journal_table) (slot_count : nat)
    : list copy :=
  take slot_count records ≫= λ slot,
    match replayable records slot with
    | Some transaction_id => transaction_copies journal_start records transaction_id
    | None => []
    end.

(** the sector numbers of records read from a disk are unsigned *)
Definition journal_ok (journal_start : Z) (records : journal_table) : Prop :=
  0 <= journal_start ∧ ∀ r, Some r ∈ records → 0 <= r.(QfsJournalRecord.sector).

Lemma elem_of_numbered {A} (l : list A) i x : (i, x) ∈ numbered l ↔ l !! i = Some x.
Proof.
  unfold numbered. rewrite list_elem_of_lookup. setoid_rewrite lookup_zip_Some. split.
  - intros (k & [-> Hk]%lookup_seq & Hx). by rewrite Nat.add_0_l.
  - intros Hx. exists i. split; [|done]. apply lookup_seq. split; [done|]. by eapply lookup_lt_Some.
Qed.

Lemma numbered_split {A} (l : list A) i x X Y : numbered l = X ++ (i, x) :: Y →
  ∀ j y, (j, y) ∈ Y → (i < j)%nat.
Proof.
  intros Hxy j y Hj.
  assert ((fst <$> numbered l) = seq 0 (length l)) as Hf.
  { unfold numbered. apply fst_zip. by rewrite length_seq. }
  rewrite Hxy, fmap_app, fmap_cons in Hf.
  apply list_elem_of_lookup in Hj as [k Hk].
  assert (seq 0 (length l) !! length X = Some i) as H1.
  { rewrite <-Hf. rewrite lookup_app_r by (by rewrite length_fmap). by rewrite length_fmap, Nat.sub_diag. }
  assert (seq 0 (length l) !! (length X + S k)%nat = Some j) as H2.
  { rewrite <-Hf. rewrite lookup_app_r by (rewrite length_fmap; lia). rewrite length_fmap.
    replace (length X + S k - length X)%nat with (S k) by lia. rewrite lookup_cons_ne_0 by lia. cbn [pred].
    by rewrite list_lookup_fmap, Hk. }
  apply lookup_seq in H1 as [-> _], H2 as [-> _]. lia.
Qed.

Lemma elem_of_slot_copies js tid i slot w :
  w ∈ slot_copies js tid (i, slot) ↔
  ∃ r, slot = Some r ∧ r.(QfsJournalRecord.sequence) = tid ∧ is_write r = true ∧
    w = (r.(QfsJournalRecord.sector), payload_sector js i).
Proof.
  unfold slot_copies. cbn. destruct slot as [r|]; [|split; [by intros ?%elem_of_nil|by intros (? & ? & _)]].
  destruct (Z.eqb_spec (QfsJournalRecord.sequence r) tid) as [He|He]; cbn [andb].
  - destruct (is_write r) eqn:Ew; split.
    + intros ->%list_elem_of_singleton. by exists r.
    + intros (? & [= <-] & _ & _ & ->). by apply list_elem_of_singleton.
    + by intros ?%elem_of_nil.
    + intros (? & [= <-] & _ & ? & _). congruence.
  - split; [by intros ?%elem_of_nil|]. by intros (? & [= <-] & ? & _).
Qed.

Lemma elem_of_transaction_copies js records tid w :
  w ∈ transaction_copies js records tid ↔
  ∃ i r, records !! i = Some (Some r) ∧ r.(QfsJournalRecord.sequence) = tid ∧ is_write r = true ∧
    w = (r.(QfsJournalRecord.sector), payload_sector js i).
Proof.
  unfold transaction_copies. rewrite list_elem_of_bind. split.
  - intros ([i slot] & (r & -> & Hr)%elem_of_slot_copies & Hi%elem_of_numbered). by exists i, r.
  - intros (i & r & Hi & Hr). exists (i, Some r).
    split; [apply elem_of_slot_copies; by exists r|by apply elem_of_numbered].
Qed.

(** a replay copies the write records of committed, begun, not aborted transactions *)
Lemma elem_of_replay_copies js records n w :
  w ∈ replay_copies js records n ↔
  ∃ i r slot, records !! i = Some (Some r) ∧ is_write r = true ∧
    slot ∈ take n records ∧ replayable records slot = Some r.(QfsJournalRecord.sequence) ∧
    w = (r.(QfsJournalRecord.sector), payload_sector js i).
Proof.
  unfold replay_copies. rewrite list_elem_of_bind. split.
  - intros (slot & Hw & Hs). destruct (replayable records slot) as [tid|] eqn:Er; [|by apply elem_of_nil in Hw].
    apply elem_of_transaction_copies in Hw as (i & r & Hi & <- & Hr & ->). by exists i, r, slot.
  - intros (i & r & slot & Hi & Hr & Hs & Hrep & ->). exists slot. rewrite Hrep. split; [|done].
    apply elem_of_transaction_copies. by exists i, r.
Qed.

Lemma payload_sector_nonneg js i : 0 <= js → 0 <= payload_sector js i.
Proof. unfold payload_sector, QFS_JOURNAL_SLOT_SECTORS, QFS_JOURNAL_PAYLOAD_SECTOR_OFFSET. lia. Qed.

Lemma replay_copies_nonneg js records n w :
  journal_ok js records → w ∈ replay_copies js records n → 0 <= w.1 ∧ 0 <= w.2.
Proof.
  intros [Hj Hr] (i & r & slot & Hi & _ & _ & _ & ->)%elem_of_replay_copies. cbn. split.
  - apply Hr. by eapply list_elem_of_lookup_2.
  - by apply payload_sector_nonneg.
Qed.

Lemma replayable_Some records slot tid :
  replayable records slot = Some tid ↔
  ∃ c, slot = Some c ∧ c.(QfsJournalRecord.sequence) = tid ∧
    QfsJournalRecord.kind c = Some QfsJournalRecordKind.Commit ∧
    transaction_has_begin records tid = true ∧ transaction_has_abort records tid = false.
Proof.
  unfold replayable. destruct slot as [c|]; [|split; [done|by intros (? & ? & _)]]. split.
  - case_bool_decide; cbn [andb]; [|done]. destruct (transaction_has_begin _ _) eqn:E1; cbn [andb]; [|done].
    destruct (transaction_has_abort _ _) eqn:E2; cbn [negb]; [done|]. intros [= <-]. by exists c.
  - intros (? & [= <-] & <- & H1 & H2 & H3). rewrite bool_decide_eq_true_2, H2, H3 by done. done.
Qed.

(** ** The newest write wins when slots are filled in order *)
Definition in_order (records : journal_table) : Prop :=
  ∀ i j a b, (i < j)%nat → records !! i = Some (Some a) → records !! j = Some (Some b) →
    a.(QfsJournalRecord.sequence) <= b.(QfsJournalRecord.sequence).

(** a write record of a transaction that is replayed *)
Definition replayed (records : journal_table) (n : nat) (i : nat) (r : QfsJournalRecord.t) : Prop :=
  records !! i = Some (Some r) ∧ is_write r = true ∧
  ∃ slot, slot ∈ take n records ∧ replayable records slot = Some r.(QfsJournalRecord.sequence).

Lemma run_last m ws1 w ws2 :
  w.1 ∉ targets ws2 → w.2 ∉ targets ws1 → run m (ws1 ++ w :: ws2) w.1 = m w.2.
Proof.
  intros H2 H1. rewrite run_app. cbn. change (foldl copy_step ?m ws2) with (run m ws2).
  rewrite run_other by done. unfold copy_step. rewrite decide_True by done. by apply run_other.
Qed.

(** the position of the newest write among the copies *)
Lemma newest_split js records n i r : in_order records → replayed records n i r →
  (∀ j r', replayed records n j r' →
     r'.(QfsJournalRecord.sector) = r.(QfsJournalRecord.sector) →
     r'.(QfsJournalRecord.sequence) < r.(QfsJournalRecord.sequence) ∨
     r'.(QfsJournalRecord.sequence) = r.(QfsJournalRecord.sequence) ∧ (j ≤ i)%nat) →
  ∃ ws1 ws2, replay_copies js records n =
    ws1 ++ (r.(QfsJournalRecord.sector), payload_sector js i) :: ws2 ∧
    r.(QfsJournalRecord.sector) ∉ targets ws2.
Proof.
  intros Hord (Hi & Hw & slot & Hslot & Hrep) Hmax.
  assert (Some r.(QfsJournalRecord.sequence) ∈ (replayable records <$> take n records)) as Hin.
  { rewrite <-Hrep. by apply list_elem_of_fmap_2. }
  apply list_elem_of_split_r in Hin as (l1 & l2 & Hl & Hn2).
  apply fmap_app_inv in Hl as (A & B' & -> & HB & Htake). destruct B' as [|slot' B]; [done|].
  injection HB as Hrep' ->. symmetry in Hrep'.
  assert ((i, Some r) ∈ numbered records) as Hnum by (by apply elem_of_numbered).
  apply list_elem_of_split in Hnum as (X & Y & Hxy).
  unfold replay_copies. rewrite Htake, bind_app. cbn [mbind list_bind].
  rewrite Hrep'. unfold transaction_copies at 2. rewrite Hxy, bind_app. cbn [mbind list_bind].
  unfold slot_copies at 2. cbn [fst snd]. rewrite Z.eqb_refl, Hw. cbn [andb app].
  rewrite <-!app_assoc. cbn [app].
  rewrite (app_assoc _ (X ≫= _)). eexists _, _. split; [done|].
  unfold targets. rewrite fmap_app, elem_of_app. intros [Hs|Hs].
  - apply list_elem_of_fmap in Hs as (w & Hwt & Hw').
    apply list_elem_of_bind in Hw' as ([j o] & (r' & -> & Hseq & Hwr & ->)%elem_of_slot_copies & Hj).
    pose proof (numbered_split _ _ _ _ _ Hxy _ _ Hj) as Hlt.
    assert (records !! j = Some (Some r')) as Hjr.
    { apply elem_of_numbered. rewrite Hxy. set_solver. }
    cbn in Hwt. destruct (Hmax j r') as [?|[_ ?]]; [|done|lia|lia].
    split; [done|]. split; [done|]. exists slot. by rewrite Hseq.
  - apply list_elem_of_fmap in Hs as (w & Hwt & Hw').
    apply list_elem_of_bind in Hw' as (sl & Hw' & Hsl).
    destruct (replayable records sl) as [tid|] eqn:Er; [|by apply elem_of_nil in Hw'].
    apply elem_of_transaction_copies in Hw' as (j & r' & Hj & Hseq & Hwr & ->). cbn in Hwt.
    assert (tid ≠ r.(QfsJournalRecord.sequence)) as Hne.
    { intros ->. apply Hn2. rewrite <-Er. by apply list_elem_of_fmap_2. }
    apply replayable_Some in Er as (c & -> & Hc & Hck & Hcb & Hca).
    apply replayable_Some in Hrep' as (c0 & -> & Hc0 & _).
    apply list_elem_of_lookup in Hsl as [k Hk].
    assert (r.(QfsJournalRecord.sequence) <= tid) as Hle.
    { rewrite <-Hc0, <-Hc. apply (Hord (length A) (length A + S k)%nat); [lia| |].
      - eapply (lookup_take_Some _ n). rewrite Htake. rewrite lookup_app_r by lia.
        by rewrite Nat.sub_diag.
      - eapply (lookup_take_Some _ n). rewrite Htake. rewrite lookup_app_r by lia.
        by replace (length A + S k - length A)%nat with (S k) by lia. }
    destruct (Hmax j r') as [?|[? _]]; [|done|lia|lia].
    split; [done|]. split; [done|]. exists (Some c). rewrite Hseq. split.
    + rewrite Htake. apply elem_of_app. right. apply list_elem_of_further.
      by eapply list_elem_of_lookup_2.
    + apply replayable_Some. by exists c.
Qed.

(** ** One sector at a time *)
Section journal.
Context {D : Type} `{BlockStorageLaws D}.

Lemma read_sector_spec s d r d' : device_ok d → 0 <= s → read_sector s d = (r, d') →
  d' = d ∧ ∀ buf, r = Ok buf → buf = sector_at d s ∧ length buf = 512%nat.
Proof.
  intros Hd Hs. unfold read_sector. destruct (read_sectors d s zero_sector) as [[n|e] buf] eqn:E.
  - destruct (Z.eqb_spec n QFS_SECTOR_SIZE) as [->|]; intros [= <- <-]; (split; [done|]); [|done].
    intros ? [= <-]. pose proof (read_one d s zero_sector Hd length_zero_sector Hs) as Hr.
    rewrite E in Hr. cbn in Hr. destruct (Hr eq_refl) as [-> Hl]. done.
  - intros [= <- <-]. split; done.
Qed.

Definition same_geometry (d d' : D) : Prop :=
  sector_size d' = sector_size d ∧ sector_count d' = sector_count d.

(** [does ws d p]: [p] is a run from [d] that changes targets of [ws] only, and all of
    them as [ws] says when it succeeds *)
Definition does {A} (ws : list copy) (d : D) (p : result VfsError.t A * D) : Prop :=
  device_ok p.2 ∧ same_geometry d p.2 ∧
  (∀ s, 0 <= s → s ∉ targets ws → sector_at p.2 s = sector_at d s) ∧
  (∀ a, p.1 = Ok a → ∀ s, 0 <= s → sector_at p.2 s = run (sector_at d) ws s).

Lemma does_nothing {A} (r : result VfsError.t A) d : device_ok d → does [] d (r, d).
Proof. by intros Hd; split_and!. Qed.

Lemma does_error {A} e ws d : device_ok d → does ws d (Err e : result VfsError.t A, d).
Proof. by intros Hd; split_and!. Qed.

Lemma run_ext m m' ws : (∀ w, w ∈ ws → 0 <= w.2) →
  (∀ s, 0 <= s → m s = m' s) → ∀ s, 0 <= s → run m ws s = run m' ws s.
Proof.
  revert m m'. induction ws as [|w ws IH]; intros m m' Hp Hm s Hs; [by apply Hm|].
  cbn. apply IH; [intros w' Hw'; by apply Hp, list_elem_of_further| |done].
  intros s' Hs'. unfold copy_step. case_decide; [apply Hm, Hp, list_elem_of_here|by apply Hm].
Qed.

Lemma does_bind {A B} ws ws' d (m : M D VfsError.t A) (k : A → M D VfsError.t B) :
  (∀ w, w ∈ ws' → 0 <= w.2) → does ws d (m d) →
  (∀ a d', device_ok d' → does ws' d' (k a d')) → does (ws ++ ws') d ((m ≫= k) d).
Proof.
  intros Hp (Hok & Hg & Ho & Hr) Hk. unfold mbind, M_bind. destruct (m d) as [[a|e] d1]; cbn in *.
  - destruct (Hk a d1 Hok) as (Hok' & Hg' & Ho' & Hr'). split_and!; [done| | |].
    + unfold same_geometry in *. destruct Hg, Hg'. split; congruence.
    + intros s Hs Hn. unfold targets in *. rewrite fmap_app, not_elem_of_app in Hn.
      destruct Hn. rewrite Ho', Ho by done. done.
    + intros b Hb s Hs. rewrite (Hr' _ Hb s Hs), run_app. apply run_ext; [done| |done].
      by apply (Hr a).
  - split_and!; [done..| |done]. intros s Hs Hn. unfold targets in *.
    rewrite fmap_app, not_elem_of_app in Hn. destruct Hn. by apply Ho.
Qed.

Lemma does_mfor {B} (ws : B → list copy) (body : B → M D VfsError.t unit) l d :
  device_ok d → (∀ x w, x ∈ l → w ∈ ws x → 0 <= w.2) →
  (∀ x d, x ∈ l → device_ok d → does (ws x) d (body x d)) →
  does (l ≫= ws) d (mfor l body d).
Proof.
  revert d. induction l as [|x l IH]; intros d Hd Hp Hb; cbn [mfor mbind list_bind].
  - by apply does_nothing.
  - apply (does_bind (ws x) (l ≫= ws)).
    + intros w (x' & Hx' & Hw)%list_elem_of_bind. apply (Hp x'); [set_solver|done].
    + apply Hb; [set_solver|done].
    + intros _ d' Hd'. apply IH; [done| |]; intros; [eapply Hp|apply Hb]; set_solver.
Qed.

Lemma write_sector_does s p buf d : device_ok d → length buf = 512%nat → 0 <= s →
  buf = sector_at d p → does [(s, p)] d (write_sector s buf d).
Proof.
  intros Hd Hb Hs ->. unfold write_sector.
  pose proof (write_keeps d s _ Hd Hb Hs) as (Hok & Hz & Hc).
  pose proof (write_other d s (sector_at d p)) as Ho. pose proof (write_one d s _ Hd Hb Hs) as H1.
  destruct (write_sectors d s (sector_at d p)) as [[n|e] d'] eqn:E; cbn in *.
  - destruct (Z.eqb_spec n QFS_SECTOR_SIZE) as [->|Hn]; split_and!; cbn; try done;
      try (intros s' Hs' Hne; apply Ho; set_solver).
    intros _ _ s' Hs'. unfold run, copy_step. cbn. case_decide; subst; [by apply H1|by apply Ho].
  - split_and!; cbn; try done. intros s' Hs' Hne. apply Ho; set_solver.
Qed.

Lemma apply_slot_does js tid slot d : device_ok d → 0 <= js →
  (∀ r, slot.2 = Some r → 0 <= r.(QfsJournalRecord.sector)) →
  does (slot_copies js tid slot) d (apply_slot js tid slot d).
Proof.
  intros Hd Hj Hr. unfold apply_slot, slot_copies. destruct slot as [i [r|]]; cbn [fst snd] in *.
  - destruct (_ && _); [|by apply does_nothing].
    unfold mbind, M_bind, gets, throw. destruct (negb _ || _); [by apply does_error|].
    destruct (_ <=? _); [by apply does_error|].
    destruct (read_sector (payload_sector js i) d) as [[buf|e] d1] eqn:E.
    + apply read_sector_spec in E as [-> Hb]; [|done|by apply payload_sector_nonneg].
      destruct (Hb _ eq_refl) as [Hbuf Hl]. destruct (negb _); [by apply does_error|].
      by apply write_sector_does; [|by rewrite Hbuf in *|apply Hr|].
    + apply read_sector_spec in E as [-> _]; [|done|by apply payload_sector_nonneg].
      by apply does_error.
  - by apply does_nothing.
Qed.

Lemma apply_transaction_does js records tid d : device_ok d → journal_ok js records →
  does (transaction_copies js records tid) d (apply_transaction_records js records tid d).
Proof.
  intros Hd [Hj Hr]. apply does_mfor; [done| |].
  - intros [i slot] w _ (r & _ & _ & _ & ->)%elem_of_slot_copies. by apply payload_sector_nonneg.
  - intros [i slot] d' Hi%elem_of_numbered Hd'. apply apply_slot_does; [done..|].
    cbn. intros r ->. apply Hr. by eapply list_elem_of_lookup_2.
Qed.

(** the replay does its copies *)
Lemma replay_does sb js records n d : device_ok d → journal_ok js records →
  page_location_sector sb sb.(QfsSuperblock.journal) = Some js →
  does (replay_copies js records n) d (replay_valid_journal_records sb records n d).
Proof.
  intros Hd Hj Hloc. unfold replay_valid_journal_records. rewrite Hloc. apply does_mfor; [done| |].
  - intros slot w Hs Hw. apply (replay_copies_nonneg js records n w Hj). unfold replay_copies.
    apply list_elem_of_bind. by exists slot.
  - intros slot d' _ Hd'. destruct (replayable records slot); [by apply apply_transaction_does|].
    by apply does_nothing.
Qed.

(** *** A replay that cannot fail *)
Section total.
Context `{!Reliable D}.
Variables (js : Z) (ws : list copy) (d0 : D).

(** what the copies read is what it was at the start *)
Definition payloads_kept (d : D) : Prop :=
  device_ok d ∧ same_geometry d0 d ∧ ∀ w, w ∈ ws → sector_at d w.2 = sector_at d0 w.2.

(** a write record whose payload is intact and whose target is on the device *)
Definition write_ok (i : nat) (r : QfsJournalRecord.t) : Prop :=
  r.(QfsJournalRecord.sector_count) = 1 ∧
  0 <= r.(QfsJournalRecord.sector) < sector_count d0 ∧
  payload_sector js i < sector_count d0 ∧
  checksum_sector (sector_at d0 (payload_sector js i)) = r.(QfsJournalRecord.checksum).

Hypothesis apart : ∀ w, w ∈ ws → w.2 ∉ targets ws ∧ 0 <= w.2.
Hypothesis start : 0 <= js.

Lemma does_keeps_payloads {A} ws' d (p : result VfsError.t A * D) :
  payloads_kept d → does ws' d p → (∀ w, w ∈ ws' → w ∈ ws) → payloads_kept p.2.
Proof.
  intros (Hd & [Hz Hc] & Hp) (Hd' & [Hz' Hc'] & Ho & _) Hsub. split; [done|]. split.
  { split; congruence. }
  intros w Hw. destruct (apart w Hw) as [Hn Hpos]. rewrite Ho, Hp; [done|done|done|].
  intros (w' & Hw' & Hin)%list_elem_of_fmap. apply Hn. unfold targets. rewrite Hw'.
  apply list_elem_of_fmap. exists w'. auto.
Qed.

Lemma apply_slot_total tid slot d : payloads_kept d →
  (∀ r, slot.2 = Some r → r.(QfsJournalRecord.sequence) = tid → is_write r = true →
     write_ok slot.1 r ∧ (r.(QfsJournalRecord.sector), payload_sector js slot.1) ∈ ws) →
  (apply_slot js tid slot d).1 = Ok tt.
Proof.
  intros (Hd & [Hz Hc] & Hp) Hok. unfold apply_slot. destruct slot as [i [r|]]; cbn [fst snd] in *; [|done].
  destruct (Z.eqb_spec (QfsJournalRecord.sequence r) tid) as [He|He]; [|done]. cbn [andb].
  destruct (is_write r) eqn:Ew; [|done]. destruct (Hok r eq_refl He Ew) as [(H1 & H2 & H3 & H4) Hin].
  unfold mbind, M_bind, gets, throw. rewrite Hc, H1.
  rewrite (proj2 (Z.leb_gt _ _)) by lia. cbn [Z.eqb Pos.eqb negb orb].
  rewrite (proj2 (Z.leb_gt _ _)) by done.
  assert (0 <= payload_sector js i) as Hpos by (by apply payload_sector_nonneg).
  destruct (read_sector (payload_sector js i) d) as [r' d'] eqn:E.
  pose proof (read_sector_spec _ _ _ _ Hd Hpos E) as [-> Hbuf].
  assert (∃ buf, r' = Ok buf) as [buf ->].
  { unfold read_sector in E. pose proof (reliable_read d (payload_sector js i) zero_sector Hd
      length_zero_sector) as Hr. rewrite Hc in Hr.
    destruct (read_sectors d (payload_sector js i) zero_sector) as [? ?]. cbn in Hr.
    rewrite Hr in E by lia. cbn in E. injection E as <-. eauto. }
  pose proof (Hp _ Hin) as Hpi. cbn [snd] in Hpi.
  destruct (Hbuf _ eq_refl) as [-> Hl]. rewrite Hpi in *. rewrite H4, Z.eqb_refl. cbn [negb].
  unfold write_sector.
  pose proof (reliable_write d (QfsJournalRecord.sector r)
    (sector_at d0 (payload_sector js i)) Hd Hl) as Hw. rewrite Hc in Hw.
  destruct (write_sectors _ _ _) as [? ?]. cbn in Hw. rewrite Hw by lia. done.
Qed.
End total.

(** on a reliable device, intact records outside the journal's own payloads replay *)
Lemma replay_total `{!Reliable D} sb js records n d : device_ok d → journal_ok js records →
  page_location_sector sb sb.(QfsSuperblock.journal) = Some js →
  (∀ w, w ∈ replay_copies js records n → w.2 ∉ targets (replay_copies js records n)) →
  (∀ i r slot, records !! i = Some (Some r) → is_write r = true → slot ∈ take n records →
     replayable records slot = Some r.(QfsJournalRecord.sequence) → write_ok js d i r) →
  (replay_valid_journal_records sb records n d).1 = Ok tt.
Proof.
  intros Hd Hj Hloc Hap Hok. unfold replay_valid_journal_records. rewrite Hloc.
  set (ws := replay_copies js records n).
  assert (∀ w, w ∈ ws → w.2 ∉ targets ws ∧ 0 <= w.2) as Hap'.
  { intros w Hw. split; [by apply Hap|]. by apply (replay_copies_nonneg js records n). }
  apply (mfor_total (payloads_kept ws d)).
  { split; [done|]. by split. }
  intros slot d1 Hs Hd1. destruct (replayable records slot) as [tid|] eqn:Er; [|done].
  apply (mfor_total (payloads_kept ws d)); [done|]. intros [i sl] d2 Hi%elem_of_numbered Hd2.
  assert (∀ w, w ∈ slot_copies js tid (i, sl) → w ∈ ws) as Hsub.
  { intros w (r & -> & <- & Hr & ->)%elem_of_slot_copies. apply elem_of_replay_copies. by exists i, r, slot. }
  split.
  - apply (apply_slot_total js ws d); [by destruct Hj|done|]. cbn. intros r -> <- Hr.
    split; [by apply (Hok i r slot)|]. apply Hsub. apply elem_of_slot_copies. by exists r.
  - eapply (does_keeps_payloads ws d Hap'); [done| |exact Hsub].
    apply apply_slot_does; [by destruct Hd2|by destruct Hj|]. cbn. intros r ->.
    destruct Hj as [_ Hj]. apply Hj. by eapply list_elem_of_lookup_2.
Qed.
End journal.

(** ** The guarantees of a replay *)

(** C19: only committed transactions reach their sectors.  Whatever device errors occur
    on the way, a sector changed by a journal replay is the target of a write record
    whose transaction has a Begin record and no Abort record in the journal, and a
    Commit record among the slots replayed. *)
Theorem replay_changes_only_committed {D : Type} `{BlockStorageLaws D} sb js records n (d : D) s :
  device_ok d → page_location_sector sb sb.(QfsSuperblock.journal) = Some js →
  journal_ok js records → 0 <= s →
  sector_at (replay_valid_journal_records sb records n d).2 s ≠ sector_at d s →
  ∃ i r c, records !! i = Some (Some r) ∧ is_write r = true ∧ r.(QfsJournalRecord.sector) = s ∧
    Some c ∈ take n records ∧ QfsJournalRecord.kind c = Some QfsJournalRecordKind.Commit ∧
    c.(QfsJournalRecord.sequence) = r.(QfsJournalRecord.sequence) ∧
    transaction_has_begin records r.(QfsJournalRecord.sequence) = true ∧
    transaction_has_abort records r.(QfsJournalRecord.sequence) = false.
Proof.
  intros Hd Hloc Hj Hs Hne.
  destruct (replay_does sb js records n d Hd Hj Hloc) as (_ & _ & Ho & _).
  destruct (decide (s ∈ targets (replay_copies js records n))) as [Hin|Hn]; [|by rewrite Ho in Hne].
  apply list_elem_of_fmap in Hin as (w & -> & Hw).
  apply elem_of_replay_copies in Hw as (i & r & slot & Hi & Hr & Hslot & Hrep & ->).
  apply replayable_Some in Hrep as (c & -> & Hc & Hk & Hb & Ha). by exists i, r, c.
Qed.

(** An interrupted replay can be repeated.  On a reliable device whose journal
    payloads are intact and lie outside the sectors the journal targets, a replay
    succeeds; and from any device that agrees with it outside those targets, such as
    the state a power failure leaves after any part of the replay, replaying again
    succeeds and ends with exactly the same contents. *)
Theorem replay_repeatable {D : Type} `{BlockStorageLaws D, !Reliable D} sb js records n (d d1 : D) :
  device_ok d → page_location_sector sb sb.(QfsSuperblock.journal) = Some js →
  journal_ok js records →
  (∀ w, w ∈ replay_copies js records n → w.2 ∉ targets (replay_copies js records n)) →
  (∀ i r, replayed records n i r → write_ok js d i r) →
  device_ok d1 → same_geometry d d1 →
  (∀ s, 0 <= s → s ∉ targets (replay_copies js records n) → sector_at d1 s = sector_at d s) →
  (replay_valid_journal_records sb records n d).1 = Ok tt ∧
  (replay_valid_journal_records sb records n d1).1 = Ok tt ∧
  ∀ s, 0 <= s → sector_at (replay_valid_journal_records sb records n d1).2 s =
                sector_at (replay_valid_journal_records sb records n d).2 s.
Proof.
  intros Hd Hloc Hj Hap Hok Hd1 [Hz Hc] Hsame.
  assert ((replay_valid_journal_records sb records n d).1 = Ok tt) as H1.
  { apply (replay_total sb js); try done. intros i r slot Hi Hw Hs Hr. apply Hok.
    split; [done|]. split; [done|]. by exists slot. }
  assert ((replay_valid_journal_records sb records n d1).1 = Ok tt) as H2.
  { apply (replay_total sb js); try done. intros i r slot Hi Hw Hs Hr.
    assert ((r.(QfsJournalRecord.sector), payload_sector js i) ∈ replay_copies js records n) as Hin.
    { apply elem_of_replay_copies. by exists i, r, slot. }
    destruct (Hok i r) as (? & ? & ? & Hsum).
    { split; [done|]. split; [done|]. by exists slot. }
    unfold write_ok. rewrite Hc, Hsame; [done| |by apply (Hap _ Hin)].
    by apply (replay_copies_nonneg js records n _ Hj Hin). }
  split_and!; [done..|]. intros s Hs.
  destruct (replay_does sb js records n d Hd Hj Hloc) as (_ & _ & _ & Hr).
  destruct (replay_does sb js records n d1 Hd1 Hj Hloc) as (_ & _ & _ & Hr1).
  rewrite (Hr _ H1 s Hs), (Hr1 _ H2 s Hs). apply run_agree; [done| | |done].
  - done.
  - intros w Hw. by apply (replay_copies_nonneg js records n).
Qed.

(** A journal filled in order restores the newest state.  If sequence numbers do
    not decrease along the slots, then after a successful replay every sector that a
    replayed transaction writes holds the payload of the newest such write: the one of
    the greatest sequence number, the last of them within its transaction. *)
Theorem replay_installs_newest {D : Type} `{BlockStorageLaws D} sb js records n (d : D) i r :
  device_ok d → page_location_sector sb sb.(QfsSuperblock.journal) = Some js →
  journal_ok js records → in_order records →
  (∀ w, w ∈ replay_copies js records n → w.2 ∉ targets (replay_copies js records n)) →
  replayed records n i r →
  (∀ j r', replayed records n j r' →
     r'.(QfsJournalRecord.sector) = r.(QfsJournalRecord.sector) →
     r'.(QfsJournalRecord.sequence) < r.(QfsJournalRecord.sequence) ∨
     r'.(QfsJournalRecord.sequence) = r.(QfsJournalRecord.sequence) ∧ (j ≤ i)%nat) →
  (replay_valid_journal_records sb records n d).1 = Ok tt →
  sector_at (replay_valid_journal_records sb records n d).2 r.(QfsJournalRecord.sector) =
  sector_at d (payload_sector js i).
Proof.
  intros Hd Hloc Hj Hord Hap Hr Hmax Hok.
  destruct (replay_does sb js records n d Hd Hj Hloc) as (_ & _ & _ & Hrun).
  destruct (newest_split js records n i r Hord Hr Hmax) as (ws1 & ws2 & Hws & Hn).
  assert ((r.(QfsJournalRecord.sector), payload_sector js i) ∈ replay_copies js records n) as Hin
    by (rewrite Hws; apply elem_of_app; right; apply list_elem_of_here).
  rewrite (Hrun _ Hok) by (by apply (replay_copies_nonneg js records n _ Hj Hin)).
  rewrite Hws. apply (run_last _ ws1 (_, _) ws2); [done|].
  specialize (Hap _ Hin). cbn in *. rewrite Hws in Hap. unfold targets in *. rewrite fmap_app in Hap. set_solver.
Qed.

(** ** An example journal: two transactions, the second without its Commit record *)
Section example.
Let mk_record (seq ty sector count sum : Z) : option QfsJournalRecord.t :=
  Some (QfsJournalRecord.mk seq ty 0 sector count sum 0).
Definition demo_superblock : QfsSuperblock.t := fresh_superblock 1.
Definition demo_records : journal_table :=
  [ mk_record 1 1 0 0 0; mk_record 1 2 9 1 3584; mk_record 1 4 0 0 0;
    mk_record 2 1 0 0 0; mk_record 2 2 10 1 4096 ] ++ replicate 11 None.
(** sector 68 is the payload of slot 1 *)
Definition demo_disk : RamDisk.t :=
  RamDisk.mk (<[68%nat := replicate 512 7]> (RamDisk.new RAM_SECTOR_COUNT).(RamDisk.sectors)).
(** the target half written *)
Definition torn_disk : RamDisk.t :=
  RamDisk.mk (<[9%nat := replicate 256 7 ++ replicate 256 0]> demo_disk.(RamDisk.sectors)).
End example.

Lemma demo_disk_ok : device_ok demo_disk.
Proof.
  apply (RamDiskLaws.ok_insert RAM_SECTOR_COUNT (RamDisk.new RAM_SECTOR_COUNT) 68); [|done].
  apply RamDiskLaws.new_ok. by vm_compute.
Qed.
Lemma torn_disk_ok : device_ok torn_disk.
Proof. apply (RamDiskLaws.ok_insert RAM_SECTOR_COUNT demo_disk 9); [apply demo_disk_ok|done]. Qed.

(** the five records, by slot *)
Lemma demo_lookup i r : demo_records !! i = Some (Some r) →
  (i < 5)%nat ∧ r.(QfsJournalRecord.sequence) = (if decide (i < 3)%nat then 1 else 2) ∧
  0 <= r.(QfsJournalRecord.sector) ∧
  (is_write r = true → i = 1%nat ∧ r = QfsJournalRecord.mk 1 2 0 9 1 3584 0 ∨
                       i = 4%nat ∧ r.(QfsJournalRecord.sequence) = 2).
Proof.
  intros H. do 16 (destruct i as [|i];
    [first [discriminate H|injection H as <-; cbn; split_and!; first [lia|done|by intros; auto]]|]).
  done.
Qed.

Lemma demo_journal_ok : journal_ok 65 demo_records.
Proof. split; [lia|]. intros r [i Hi]%list_elem_of_lookup. by apply demo_lookup in Hi as (_ & _ & ? & _). Qed.

Lemma demo_in_order : in_order demo_records.
Proof.
  intros i j a b Hij (_ & -> & _)%demo_lookup (_ & -> & _)%demo_lookup. repeat case_decide; lia.
Qed.

Lemma demo_replayed i r : replayed demo_records 16 i r →
  i = 1%nat ∧ r = QfsJournalRecord.mk 1 2 0 9 1 3584 0.
Proof.
  intros (Hi & Hw & slot & Hs & Hr). apply demo_lookup in Hi as (_ & _ & _ & Hi).
  destruct (Hi Hw) as [?|[_ H2]]; [done|]. rewrite H2 in Hr.
  assert (Some 2 ∈ (replayable demo_records <$> take 16 demo_records)) as Hin.
  { rewrite <-Hr. by apply list_elem_of_fmap_2. }
  apply (bool_decide_eq_true_2 _) in Hin. by vm_compute in Hin.
Qed.

Lemma demo_copies : replay_copies 65 demo_records 16 = [(9, 68)].
Proof. by vm_compute. Qed.

Lemma demo_apart w : w ∈ replay_copies 65 demo_records 16 →
  w.2 ∉ targets (replay_copies 65 demo_records 16).
Proof. rewrite demo_copies. intros ->%list_elem_of_singleton. by intros H%list_elem_of_singleton. Qed.

Lemma demo_write_ok i r : replayed demo_records 16 i r → write_ok 65 demo_disk i r.
Proof. intros [-> ->]%demo_replayed. split_and!; by vm_compute. Qed.

Lemma replay_changes_only_committed_witness :
  ∃ i r c, demo_records !! i = Some (Some r) ∧ is_write r = true ∧
    r.(QfsJournalRecord.sector) = 9 ∧
    Some c ∈ take 16 demo_records ∧ QfsJournalRecord.kind c = Some QfsJournalRecordKind.Commit ∧
    c.(QfsJournalRecord.sequence) = r.(QfsJournalRecord.sequence) ∧
    transaction_has_begin demo_records r.(QfsJournalRecord.sequence) = true ∧
    transaction_has_abort demo_records r.(QfsJournalRecord.sequence) = false.
Proof.
  apply (replay_changes_only_committed demo_superblock 65 demo_records 16 demo_disk 9).
  - apply demo_disk_ok.
  - by vm_compute.
  - apply demo_journal_ok.
  - lia.
  - apply (bool_decide_eq_false_1 (_ = _)). by vm_compute.
Defined.

Lemma replay_repeatable_witness :
  (replay_valid_journal_records demo_superblock demo_records 16 demo_disk).1 = Ok tt ∧
  (replay_valid_journal_records demo_superblock demo_records 16 torn_disk).1 = Ok tt ∧
  ∀ s, 0 <= s →
    sector_at (replay_valid_journal_records demo_superblock demo_records 16 torn_disk).2 s =
    sector_at (replay_valid_journal_records demo_superblock demo_records 16 demo_disk).2 s.
Proof.
  apply (replay_repeatable demo_superblock 65 demo_records 16 demo_disk torn_disk).
  - apply demo_disk_ok.
  - by vm_compute.
  - apply demo_journal_ok.
  - apply demo_apart.
  - apply demo_write_ok.
  - apply torn_disk_ok.
  - done.
  - rewrite demo_copies. intros s Hs Hn. cbn in Hn. apply not_elem_of_cons in Hn as [Hn _].
    cbn. etrans; [apply (RamDiskLaws.at_insert RAM_SECTOR_COUNT demo_disk 9); [apply demo_disk_ok|done|done]|].
    by rewrite decide_False.
Defined.

Lemma replay_installs_newest_witness :
  sector_at demo_disk (payload_sector 65 1) = replicate 512 7 ∧
  sector_at (replay_valid_journal_records demo_superblock demo_records 16 demo_disk).2 9 =
  sector_at demo_disk (payload_sector 65 1).
Proof.
  split; [by vm_compute|]. apply (replay_installs_newest demo_superblock 65 demo_records 16 demo_disk 1
    (QfsJournalRecord.mk 1 2 0 9 1 3584 0)).
  - apply demo_disk_ok.
  - by vm_compute.
  - apply demo_journal_ok.
  - apply demo_in_order.
  - apply demo_apart.
  - split; [done|]. split; [done|]. exists (Some (QfsJournalRecord.mk 1 4 0 0 0 0 0)). split; [|done].
    apply (list_elem_of_lookup_2 _ 2). done.
  - intros j r' [-> ->]%demo_replayed _. by right.
  - by vm_compute.
Defined.
