(* ===== verification/Qfs.v ===== *)
(** * The QFS filesystem

    Models src/src/kernel/fs/qfs.rs: the mount state with its bounded tables, path
    resolution, the journal transactions that carry every change to the device, and
    the operations of the [FileSystem] trait.  The filesystem is a record of its
    state, its read-only flag and its optional block device; operations run in the
    monad [Op] over it, so that what an operation did before it failed is kept.  The
    lock around the state serialises each access and is not modelled.  A [File] is
    represented by the inode it names, the only part of it QFS reads. *)

From stdpp Require Import prelude.
From S2P Require Import Prelude Bytes Permissions Vfs BlockDevice QfsFormat.

Local Open Scope Z_scope.

(** ** Mount state *)
Module QfsState.
Record t : Type := mk {
  mounted : bool;
  superblock : QfsSuperblock.t;
  book_headers : list (option QfsBookHeader.t);
  book_index : list (option QfsBookIndexEntry.t);
  chapter_index : list (option QfsChapterIndexEntry.t);
  inodes : list (option QfsInodeRecord.t);
  journal : journal_table;
  next_transaction_id : Z;
  next_slot : nat
}.

Definition new : t :=
  mk false QfsSuperblock.empty (replicate QFS_MAX_BOOKS None)
    (replicate QFS_MAX_BOOK_INDEX_ENTRIES None) (replicate QFS_MAX_CHAPTER_INDEX_ENTRIES None)
    (Some QfsInodeRecord.root :: replicate (QFS_MAX_INODE_RECORDS - 1) None)
    (replicate QFS_MAX_JOURNAL_RECORDS None) 1 0.

Definition set_inodes (inodes : list (option QfsInodeRecord.t)) (s : t) : t :=
  mk s.(mounted) s.(superblock) s.(book_headers) s.(book_index) s.(chapter_index) inodes
    s.(journal) s.(next_transaction_id) s.(next_slot).
Definition set_journal (journal : journal_table) (next_transaction_id : Z) (next_slot : nat)
    (s : t) : t :=
  mk s.(mounted) s.(superblock) s.(book_headers) s.(book_index) s.(chapter_index) s.(inodes)
    journal next_transaction_id next_slot.

(** *** The inode table *)
Abbreviation table := (list (option QfsInodeRecord.t)).

(** [if let Some(mut record) = inodes[idx] { ..; inodes[idx] = Some(record) }] for all slots *)
Definition each_record (f : QfsInodeRecord.t → QfsInodeRecord.t) : table → table :=
  fmap (M := list) (fmap (M := option) f).

Definition normalize_record (r : QfsInodeRecord.t) : QfsInodeRecord.t :=
  QfsInodeRecord.refresh_path_identity
    (if r.(QfsInodeRecord.object_id) =? 0
     then QfsInodeRecord.set_identity r.(QfsInodeRecord.inode) r.(QfsInodeRecord.path_identity) r
     else r).
Definition normalize_object_metadata (s : t) : t :=
  set_inodes (each_record normalize_record s.(inodes)) s.

Definition mark_all_inode_mutations (transaction_id : Z) (s : t) : t :=
  set_inodes (each_record (QfsInodeRecord.mark_mutation transaction_id) s.(inodes)) s.

(** the first slot whose record satisfies a test *)
Fixpoint find_slot (p : QfsInodeRecord.t → bool) (idx : nat) (inodes : table) : option nat :=
  match inodes with
  | [] => None
  | Some record :: rest => if p record then Some idx else find_slot p (S idx) rest
  | None :: rest => find_slot p (S idx) rest
  end.
Fixpoint find_record (p : QfsInodeRecord.t → bool) (inodes : table) : option QfsInodeRecord.t :=
  match inodes with
  | [] => None
  | Some record :: rest => if p record then Some record else find_record p rest
  | None :: rest => find_record p rest
  end.

Definition has_id (inode : Z) (r : QfsInodeRecord.t) : bool := r.(QfsInodeRecord.inode) =? inode.
Definition is_child (parent : Z) (name : list Z) (r : QfsInodeRecord.t) : bool :=
  (r.(QfsInodeRecord.parent_inode) =? parent) && bool_decide (QfsInodeRecord.name r = name).

Definition inode_by_id (inodes : table) (inode : Z) : option QfsInodeRecord.t :=
  find_record (has_id inode) inodes.
Definition child_by_name (inodes : table) (parent : Z) (name : list Z)
    : option QfsInodeRecord.t :=
  find_record (is_child parent name) inodes.
Definition child_slot_by_name (inodes : table) (parent : Z) (name : list Z) : option nat :=
  find_slot (is_child parent name) 0 inodes.
Definition inode_slot_by_id (inodes : table) (inode : Z) : option nat :=
  find_slot (has_id inode) 0 inodes.

Definition is_directory (r : QfsInodeRecord.t) : bool :=
  bool_decide (decode_inode_kind r.(QfsInodeRecord.kind) = InodeKind.Directory).

(** the loop of [resolve_inode] over the remaining components *)
Fixpoint walk (inodes : table) (current : QfsInodeRecord.t) (components : list (list Z))
    : res QfsInodeRecord.t :=
  match components with
  | [] => Ok current
  | component :: rest =>
      if negb (is_directory current) then Err VfsError.NotDirectory
      else
        next ← ok_or (child_by_name inodes current.(QfsInodeRecord.inode) component)
                 VfsError.NotFound;
        walk inodes next rest
  end.
Definition resolve_inode (inodes : table) (path : list Z) : res QfsInodeRecord.t :=
  if is_root path then ok_or (inode_by_id inodes InodeId_ROOT) VfsError.NotFound
  else
    root ← ok_or (inode_by_id inodes InodeId_ROOT) VfsError.NotFound;
    walk inodes root (components path).

Fixpoint free_slot (idx : nat) (inodes : table) : option nat :=
  match inodes with
  | [] => None
  | None :: _ => Some idx
  | Some _ :: rest => free_slot (S idx) rest
  end.
Definition free_inode_slot (inodes : table) : option nat := free_slot 0 inodes.

Definition next_inode_step (next : Z) (slot : option QfsInodeRecord.t) : Z :=
  match slot with
  | Some record =>
      if next <=? record.(QfsInodeRecord.inode)
      then sat_add 64 record.(QfsInodeRecord.inode) 1 else next
  | None => next
  end.
Definition next_inode_id (inodes : table) : Z :=
  foldl next_inode_step (sat_add 64 InodeId_ROOT 1) inodes.

Definition set_links (links : Z) (r : QfsInodeRecord.t) : QfsInodeRecord.t :=
  QfsInodeRecord.set_owner r.(QfsInodeRecord.mode) r.(QfsInodeRecord.uid)
    r.(QfsInodeRecord.gid) links r.

(** the update of every record of an inode *)
Definition update_inode (inode : Z) (f : QfsInodeRecord.t → QfsInodeRecord.t) : table → table :=
  each_record (λ r, if has_id inode r then f r else r).
Definition set_link_count (inode links : Z) : table → table := update_inode inode (set_links links).

Definition link_step (inode : Z) (count : Z) (slot : option QfsInodeRecord.t) : Z :=
  match slot with
  | Some record => if has_id inode record then sat_add 16 count 1 else count
  | None => count
  end.
Definition link_count (inodes : table) (inode : Z) : Z := foldl (link_step inode) 0 inodes.

Fixpoint count_options {A} (l : list (option A)) : nat :=
  match l with
  | [] => 0%nat
  | Some _ :: l' => S (count_options l')
  | None :: l' => count_options l'
  end.
Definition cached_counts (s : t) : nat * nat * nat * nat * nat :=
  (count_options s.(book_headers), count_options s.(book_index), count_options s.(chapter_index),
   count_options s.(inodes), count_options s.(journal)).
End QfsState.

(** ** The filesystem *)
Section qfs.
Context {D : Type} `{!BlockStorage D}.

Record QfsFileSystem : Type := mk_qfs {
  state : QfsState.t;
  read_only : bool;
  block_device : option D
}.
Abbreviation Op := (M QfsFileSystem VfsError.t).

Definition qfs_new (read_only : bool) : QfsFileSystem := mk_qfs QfsState.new read_only None.
Definition new_on_block_device (read_only : bool) (device : D) : QfsFileSystem :=
  mk_qfs QfsState.new read_only (Some device).

Definition put_state (s : QfsState.t) : Op unit :=
  modify (λ fs, mk_qfs s fs.(read_only) fs.(block_device)).
Definition inodes : Op QfsState.table := gets (λ fs, fs.(state).(QfsState.inodes)).
Definition put_inodes (t : QfsState.table) : Op unit :=
  modify (λ fs, mk_qfs (QfsState.set_inodes t fs.(state)) fs.(read_only) fs.(block_device)).

(** run an operation of the format on the device *)
Definition on_device {A} (m : M D VfsError.t A) : Op A := λ fs,
  match fs.(block_device) with
  | Some d => let '(r, d') := m d in (r, mk_qfs fs.(state) fs.(read_only) (Some d'))
  | None => (Err VfsError.NoDevice, fs)
  end.

(** [let Some(device) = self.block_device else { .. }] and the sector size check *)
Definition with_device {A} (none : Op A) (m : Op A) : Op A :=
  device ← gets block_device;
  match device with
  | None => none
  | Some d => if negb (sector_size d =? QFS_SECTOR_SIZE) then throw VfsError.Unsupported else m
  end.

Definition lookup_object_record (path : list Z) : Op QfsInodeRecord.t :=
  t ← inodes; lift (QfsState.resolve_inode t path).
Definition lookup_inode_record (inode : Z) : Op QfsInodeRecord.t :=
  t ← inodes; lift (ok_or (QfsState.inode_by_id t inode) VfsError.NotFound).

(** ** Transactions *)
Definition append_journal_record (record : QfsJournalRecord.t) (payload : option (list Z))
    : Op unit :=
  with_device (mret tt) (
    st ← gets state;
    let sb := st.(QfsState.superblock) in
    journal_start ← lift (ok_or (page_location_sector sb sb.(QfsSuperblock.journal))
                            VfsError.Unsupported);
    let slot_count := journal_slot_count sb in
    if (slot_count =? 0)%nat then throw VfsError.NoSpace
    else
      let slot := (st.(QfsState.next_slot) mod slot_count)%nat in
      let record_sector := journal_start + Z.of_nat slot * QFS_JOURNAL_SLOT_SECTORS in
      count ← on_device (gets sector_count);
      if count <=? record_sector + QFS_JOURNAL_PAYLOAD_SECTOR_OFFSET then throw VfsError.NoSpace
      else
        sector ← lift (serialize_journal_record record);
        _ ← on_device (write_sector record_sector sector);
        _ ← match payload with
            | Some data =>
                on_device (write_sector (record_sector + QFS_JOURNAL_PAYLOAD_SECTOR_OFFSET) data)
            | None => mret tt
            end;
        put_state (QfsState.set_journal (<[slot := Some record]> st.(QfsState.journal))
                     st.(QfsState.next_transaction_id) ((slot + 1) mod slot_count)%nat st)).

Definition check_writable : Op unit :=
  ro ← gets read_only; if ro : bool then throw VfsError.ReadOnly else mret tt.

Definition marker (transaction_id : Z) (kind : QfsJournalRecordKind.t) : QfsJournalRecord.t :=
  QfsJournalRecord.mk transaction_id (QfsJournalRecordKind.as_u16 kind) 0 0 0 0 0.

Definition begin_transaction : Op Z :=
  _ ← check_writable;
  st ← gets state;
  let transaction_id := st.(QfsState.next_transaction_id) in
  _ ← put_state (QfsState.set_journal st.(QfsState.journal) (sat_add 64 transaction_id 1)
                   st.(QfsState.next_slot) st);
  _ ← append_journal_record (marker transaction_id QfsJournalRecordKind.Begin) None;
  mret transaction_id.

Definition journal_write (transaction_id : Z) (kind : QfsJournalRecordKind.t)
    (target_inode sector : Z) (data : list Z) : Op unit :=
  _ ← check_writable;
  if negb (bool_decide (kind = QfsJournalRecordKind.MetadataWrite))
     && negb (bool_decide (kind = QfsJournalRecordKind.DataWrite))
  then throw VfsError.InvalidArgument
  else
    append_journal_record
      (QfsJournalRecord.mk transaction_id (QfsJournalRecordKind.as_u16 kind) target_inode sector 1
         (checksum_sector data) 0) (Some data).

Definition commit_transaction (transaction_id : Z) : Op unit :=
  _ ← check_writable;
  with_device (mret tt) (
    _ ← append_journal_record (marker transaction_id QfsJournalRecordKind.Commit) None;
    st ← gets state;
    let sb := st.(QfsState.superblock) in
    journal_start ← lift (ok_or (page_location_sector sb sb.(QfsSuperblock.journal))
                            VfsError.Unsupported);
    _ ← on_device (apply_transaction_records journal_start st.(QfsState.journal) transaction_id);
    on_device flush_device).

Definition persist_inode_table (transaction_id : Z) : Op unit :=
  with_device (mret tt) (
    st ← gets state;
    let sb := st.(QfsState.superblock) in
    sector_number ← lift (ok_or (page_location_sector sb sb.(QfsSuperblock.inode_table))
                            VfsError.Unsupported);
    sector ← lift (serialize_inode_records st.(QfsState.inodes));
    journal_write transaction_id QfsJournalRecordKind.MetadataWrite 0 sector_number sector).

Definition commit_inode_transaction (transaction_id : Z) : Op unit :=
  st ← gets state;
  _ ← put_state (QfsState.mark_all_inode_mutations transaction_id st);
  _ ← persist_inode_table transaction_id;
  commit_transaction transaction_id.

Definition write_superblock_to_block_device : Op unit :=
  _ ← check_writable;
  with_device (mret tt) (
    st ← gets state;
    sector ← lift (serialize_superblock st.(QfsState.superblock));
    transaction_id ← begin_transaction;
    _ ← journal_write transaction_id QfsJournalRecordKind.MetadataWrite 0 QFS_SUPERBLOCK_SECTOR
          sector;
    commit_transaction transaction_id).

(** ** Mounting *)
(** the inode table of the device, when it is in range *)
Definition read_table (sb : QfsSuperblock.t) (otherwise : QfsState.table)
    (f : QfsState.table → QfsState.table) : Op QfsState.table :=
  match page_location_sector sb sb.(QfsSuperblock.inode_table) with
  | Some inode_sector =>
      count ← on_device (gets sector_count);
      if inode_sector <? count then
        sector ← on_device (read_sector inode_sector);
        t ← lift (parse_inode_records sector QFS_MAX_INODE_RECORDS);
        mret (f t)
      else mret otherwise
  | None => mret otherwise
  end.

Definition replay_journal : Op unit :=
  with_device (mret tt) (
    st ← gets state;
    let sb := st.(QfsState.superblock) in
    '(records, (slot_count, max_transaction_id)) ← on_device (scan_journal sb);
    if (slot_count =? 0)%nat then mret tt
    else
      _ ← on_device (replay_valid_journal_records sb records slot_count);
      _ ← on_device flush_device;
      replayed_inodes ← read_table sb (replicate QFS_MAX_INODE_RECORDS None) id;
      st ← gets state;
      let st :=
        if existsb (λ o, bool_decide (is_Some o)) replayed_inodes
        then QfsState.normalize_object_metadata (QfsState.set_inodes replayed_inodes st) else st in
      put_state (QfsState.set_journal records
                   (max_u64 st.(QfsState.next_transaction_id) (sat_add 64 max_transaction_id 1))
                   (next_journal_slot records slot_count) st)).

(** one book: its header, and its index if the header is the book's own *)
Definition read_book (sb : QfsSuperblock.t)
    (acc : list (option QfsBookHeader.t) * list (option QfsBookIndexEntry.t)) (book_idx : nat)
    : Op (list (option QfsBookHeader.t) * list (option QfsBookIndexEntry.t)) :=
  let book_start := book_start_sector sb (Z.of_nat book_idx) in
  count ← on_device (gets sector_count);
  if negb (book_start <? count) then mret acc
  else
    sector ← on_device (read_sector book_start);
    header ← lift (parse_book_header sector);
    if negb (header.(QfsBookHeader.book_id) =? Z.of_nat book_idx) then mret acc
    else
      let headers := <[book_idx := Some header]> acc.1 in
      let index_sector := book_start + QFS_BOOK_HEADER_SECTORS in
      if negb (index_sector <? count) then mret (headers, acc.2)
      else
        sector ← on_device (read_sector index_sector);
        index ← lift (parse_book_index_entries sector
                  (Nat.min (Z.to_nat header.(QfsBookHeader.index_entry_count))
                     QFS_MAX_BOOK_INDEX_ENTRIES) acc.2);
        mret (headers, index).

Fixpoint read_books (sb : QfsSuperblock.t)
    (acc : list (option QfsBookHeader.t) * list (option QfsBookIndexEntry.t)) (books : list nat)
    : Op (list (option QfsBookHeader.t) * list (option QfsBookIndexEntry.t)) :=
  match books with
  | [] => mret acc
  | book_idx :: rest => acc ← read_book sb acc book_idx; read_books sb acc rest
  end.

Definition refresh_from_block_device : Op unit :=
  with_device (mret tt) (
    count ← on_device (gets sector_count);
    if count =? 0 then throw VfsError.NoSpace
    else
      sector ← on_device (read_sector QFS_SUPERBLOCK_SECTOR);
      sb ← lift (parse_superblock sector);
      let books_to_cache :=
        Nat.min (Z.to_nat sb.(QfsSuperblock.total_books)) QFS_MAX_BOOKS in
      '(headers, index) ← read_books sb (replicate QFS_MAX_BOOKS None,
                            replicate QFS_MAX_BOOK_INDEX_ENTRIES None) (seq 0 books_to_cache);
      t ← read_table sb QfsState.new.(QfsState.inodes)
            (QfsState.each_record QfsState.normalize_record);
      let t := match QfsState.inode_by_id t InodeId_ROOT with
               | Some _ => t
               | None => <[0%nat := Some QfsInodeRecord.root]> t
               end in
      _ ← put_state (QfsState.mk true sb headers index
            (replicate QFS_MAX_CHAPTER_INDEX_ENTRIES None) t
            (replicate QFS_MAX_JOURNAL_RECORDS None) 1 0);
      replay_journal).

(** ** Paths and file data *)
(** the loop of [parent_and_name]: [pending] is the last component seen *)
Fixpoint parent_walk (t : QfsState.table) (current : Z) (pending : list Z)
    (components : list (list Z)) : res (Z * list Z) :=
  match components with
  | [] => Ok (current, pending)
  | next :: rest =>
      parent ← ok_or (QfsState.inode_by_id t current) VfsError.NotFound;
      if negb (QfsState.is_directory parent) then Err VfsError.NotDirectory
      else
        child ← ok_or (QfsState.child_by_name t current pending) VfsError.NotFound;
        parent_walk t child.(QfsInodeRecord.inode) next rest
  end.

Definition parent_of (t : QfsState.table) (path : list Z) : res (Z * (list Z * Z)) :=
  if is_root path then Err VfsError.InvalidArgument
  else
    match components path with
    | [] => Err VfsError.InvalidArgument
    | pending :: rest =>
        '(parent, pending) ← parent_walk t InodeId_ROOT pending rest;
        if (QFS_NAME_BYTES <? length pending)%nat then Err VfsError.NameTooLong
        else Ok (parent, (write_at 0 pending (replicate QFS_NAME_BYTES 0),
                          Z.of_nat (length pending)))
    end.
Definition parent_and_name (path : list Z) : Op (Z * (list Z * Z)) :=
  t ← inodes; lift (parent_of t path).

(** the loop of [data_sector_for_offset] over the chapter index slots *)
Fixpoint data_sector_loop (st : QfsState.t) (record : QfsInodeRecord.t)
    (logical_page offset_in_page : Z) (slots : list nat) : option (Z * nat) :=
  match slots with
  | [] => None
  | idx :: rest =>
      let continue := data_sector_loop st record logical_page offset_in_page rest in
      match default None (st.(QfsState.chapter_index) !! idx) with
      | None => continue
      | Some entry =>
          let first := entry.(QfsChapterIndexEntry.logical_page) in
          let in_range :=
            (first <=? logical_page)
            && (logical_page <? sat_add 64 first entry.(QfsChapterIndexEntry.page_count)) in
          if (entry.(QfsChapterIndexEntry.inode) =? record.(QfsInodeRecord.inode)) && in_range then
            let page := sat_add 16 entry.(QfsChapterIndexEntry.first_page)
                          ((logical_page - first) mod 2 ^ 16) in
            match page_location_sector st.(QfsState.superblock)
                    (QfsPageLocation.new entry.(QfsChapterIndexEntry.book_id) page) with
            | Some page_sector =>
                Some (page_sector + offset_in_page / QFS_SECTOR_SIZE,
                      Z.to_nat (offset_in_page mod QFS_SECTOR_SIZE))
            | None => continue
            end
          else continue
      end
  end.

Definition data_sector_for_offset (st : QfsState.t) (record : QfsInodeRecord.t) (offset : Z)
    : option (Z * nat) :=
  let page_bytes := st.(QfsState.superblock).(QfsSuperblock.page_sectors) * QFS_SECTOR_SIZE in
  if page_bytes =? 0 then None
  else
    let first := Z.to_nat record.(QfsInodeRecord.first_chapter) in
    let last := Nat.min QFS_MAX_CHAPTER_INDEX_ENTRIES
      (Z.to_nat (sat_add 32 record.(QfsInodeRecord.first_chapter)
                   record.(QfsInodeRecord.chapter_count))) in
    data_sector_loop st record (offset / page_bytes) (offset mod page_bytes)
      (if record.(QfsInodeRecord.chapter_count) =? 0
       then seq 0 QFS_MAX_CHAPTER_INDEX_ENTRIES else seq first (last - first)).

(** the loop of [write_record_data]; an iteration copies at least one byte *)
Fixpoint write_data_loop (fuel : nat) (transaction_id : Z) (record : QfsInodeRecord.t)
    (data : list Z) (offset : Z) (written : nat) : Op nat :=
  match fuel with
  | O => mret written
  | S fuel =>
      if negb (written <? length data)%nat then mret written
      else
        let absolute := sat_add 64 offset (Z.of_nat written) in
        st ← gets state;
        '(sector_number, sector_offset) ← lift (ok_or (data_sector_for_offset st record absolute)
                                                  VfsError.NoSpace);
        sector ← on_device (read_sector sector_number);
        let to_copy := Nat.min (length data - written) (512 - sector_offset) in
        let sector := write_at sector_offset (slice written to_copy data) sector in
        _ ← journal_write transaction_id QfsJournalRecordKind.DataWrite
              record.(QfsInodeRecord.inode) sector_number sector;
        write_data_loop fuel transaction_id record data offset (written + to_copy)
  end.
Definition write_record_data (transaction_id : Z) (record : QfsInodeRecord.t) (data : list Z)
    (offset : Z) : Op nat :=
  with_device (throw VfsError.NoSpace)
    (write_data_loop (length data) transaction_id record data offset 0).

Definition inline_len (r : QfsInodeRecord.t) : nat :=
  Nat.min (Z.to_nat r.(QfsInodeRecord.inline_data_len)) QFS_INLINE_DATA_BYTES.

(** the loop of [pread] over the device, into the caller's buffer *)
Fixpoint read_data_loop (fuel : nat) (record : QfsInodeRecord.t) (offset : Z) (available : nat)
    (done_ : nat) (buffer : list Z) : Op (nat * list Z) :=
  match fuel with
  | O => mret (done_, buffer)
  | S fuel =>
      if negb (done_ <? available)%nat then mret (done_, buffer)
      else
        let absolute := sat_add 64 offset (Z.of_nat done_) in
        st ← gets state;
        '(sector_number, sector_offset) ← lift (ok_or (data_sector_for_offset st record absolute)
                                                  VfsError.NoSpace);
        sector ← on_device (read_sector sector_number);
        let to_copy := Nat.min (available - done_) (512 - sector_offset) in
        read_data_loop fuel record offset available (done_ + to_copy)
          (write_at done_ (slice sector_offset to_copy sector) buffer)
  end.

(** ** The operations of the trait *)
Definition lookup_path (path : list Z) : Op InodeMetadata :=
  r ← lookup_object_record path; mret (QfsInodeRecord.metadata r).
Definition lookup_inode (inode : Z) : Op InodeMetadata :=
  r ← lookup_inode_record inode; mret (QfsInodeRecord.metadata r).

(** the number of bytes read and the buffer *)
Definition pread (file : Z) (buffer : list Z) (offset : Z) : Op (nat * list Z) :=
  record ← lookup_inode_record file;
  if QfsState.is_directory record then throw VfsError.IsDirectory
  else if (record.(QfsInodeRecord.size) <=? offset) || bool_decide (buffer = []) then
    mret (0%nat, buffer)
  else
    let available :=
      Nat.min (Z.to_nat (record.(QfsInodeRecord.size) - offset)) (length buffer) in
    let inline := inline_len record in
    let start := Z.to_nat offset in
    if (start <? inline)%nat then
      let to_copy := Nat.min available (inline - start) in
      mret (to_copy, write_at 0 (slice start to_copy record.(QfsInodeRecord.inline_data)) buffer)
    else
      with_device (mret (0%nat, buffer)) (read_data_loop available record offset available 0 buffer).

(** the check of [pwrite] that every sector beyond the inline data is mapped *)
Fixpoint check_mapped (fuel : nat) (st : QfsState.t) (record : QfsInodeRecord.t) (offset : Z)
    (len checked : nat) : res unit :=
  match fuel with
  | O => Ok tt
  | S fuel =>
      if negb (checked <? len)%nat then Ok tt
      else
        _ ← ok_or (data_sector_for_offset st record (sat_add 64 offset (Z.of_nat checked)))
              VfsError.NoSpace;
        check_mapped fuel st record offset len (checked + 512)
  end.

(** the part of a write that goes into the record: how many bytes, and the record *)
Definition write_inline (record : QfsInodeRecord.t) (data : list Z) (offset : Z)
    : nat * QfsInodeRecord.t :=
  let start := Z.to_nat offset in
  let size := max_u64 record.(QfsInodeRecord.size)
                (sat_add 64 offset (Z.of_nat (length data))) in
  if (start <? QFS_INLINE_DATA_BYTES)%nat then
    let n := Nat.min (length data) (QFS_INLINE_DATA_BYTES - start) in
    (n, QfsInodeRecord.set_data size
          (max_u16 record.(QfsInodeRecord.inline_data_len) (Z.of_nat (start + n)))
          (write_at start (take n data) record.(QfsInodeRecord.inline_data)) record)
  else
    (0%nat, QfsInodeRecord.set_data size record.(QfsInodeRecord.inline_data_len)
              record.(QfsInodeRecord.inline_data) record).

Definition pwrite (file : Z) (data : list Z) (offset : Z) : Op nat :=
  _ ← check_writable;
  if bool_decide (data = []) then mret 0%nat
  else
    initial_record ← lookup_inode_record file;
    if QfsState.is_directory initial_record then throw VfsError.IsDirectory
    else
      _ ← (if Z.of_nat QFS_INLINE_DATA_BYTES <? sat_add 64 offset (Z.of_nat (length data)) then
             device ← gets block_device;
             match device with
             | None => throw VfsError.NoSpace
             | Some _ =>
                 let checked := (QFS_INLINE_DATA_BYTES - Z.to_nat offset)%nat in
                 st ← gets state;
                 lift (check_mapped (length data) st initial_record offset (length data) checked)
             end
           else mret tt);
      transaction_id ← begin_transaction;
      t ← inodes;
      slot ← lift (ok_or (QfsState.inode_slot_by_id t file) VfsError.NotFound);
      record ← lift (ok_or (default None (t !! slot)) VfsError.NotFound);
      let '(wrote_inline, record) := write_inline record data offset in
      _ ← put_inodes (<[slot := Some record]> t);
      written ← (if (wrote_inline <? length data)%nat then
                   n ← write_record_data transaction_id record (drop wrote_inline data)
                         (sat_add 64 offset (Z.of_nat wrote_inline));
                   mret (wrote_inline + n)%nat
                 else mret wrote_inline);
      _ ← commit_inode_transaction transaction_id;
      mret written.

Definition may_write (r : QfsInodeRecord.t) (credentials : FsCredentials.t) : bool :=
  Permissions.allows (QfsInodeRecord.metadata r).(im_permissions) credentials AccessMode.Write.

(** the checks of [mkdir], [link] and [symlink] on the new name, and a free slot *)
Definition new_entry_slot (t : QfsState.table) (parent : Z) (name : list Z) (name_len : Z)
    (credentials : FsCredentials.t) : res nat :=
  parent_record ← ok_or (QfsState.inode_by_id t parent) VfsError.NotFound;
  if negb (QfsState.is_directory parent_record) then Err VfsError.NotDirectory
  else if negb (may_write parent_record credentials) then Err VfsError.PermissionDenied
  else
    let name_str := from_utf8_or_empty (take (Z.to_nat name_len) name) in
    if bool_decide (is_Some (QfsState.child_by_name t parent name_str)) then
      Err VfsError.AlreadyExists
    else ok_or (QfsState.free_inode_slot t) VfsError.NoSpace.
Definition check_new_entry (parent : Z) (name : list Z) (name_len : Z)
    (credentials : FsCredentials.t) : Op nat :=
  t ← inodes; lift (new_entry_slot t parent name name_len credentials).

(** the record of a new inode *)
Definition new_record (inode parent : Z) (kind : InodeKind.t) (name : list Z) (name_len mode : Z)
    (credentials : FsCredentials.t) (size inline_data_len : Z) (inline_data : list Z)
    : QfsInodeRecord.t :=
  let e := QfsInodeRecord.empty in
  QfsInodeRecord.refresh_path_identity
    (QfsInodeRecord.mk inode inode parent 0 (encode_inode_kind kind) name_len
       QFS_OBJECT_SERVICE_AWARE mode credentials.(FsCredentials.uid)
       credentials.(FsCredentials.gid) 1 e.(QfsInodeRecord.service_class)
       e.(QfsInodeRecord.mutation_state) size e.(QfsInodeRecord.first_chapter)
       e.(QfsInodeRecord.chapter_count) e.(QfsInodeRecord.extent_map_version)
       e.(QfsInodeRecord.extent_count) e.(QfsInodeRecord.signature_len)
       e.(QfsInodeRecord.signature_ref) e.(QfsInodeRecord.capability_len)
       e.(QfsInodeRecord.capability_ref) e.(QfsInodeRecord.last_transaction_id)
       e.(QfsInodeRecord.extents) name inline_data_len inline_data).

Definition mkdir (path : list Z) (mode : Permissions.t) (credentials : FsCredentials.t) : Op unit :=
  _ ← check_writable;
  '(parent, (name, name_len)) ← parent_and_name path;
  transaction_id ← begin_transaction;
  slot ← check_new_entry parent name name_len credentials;
  t ← inodes;
  let record := new_record (QfsState.next_inode_id t) parent InodeKind.Directory name name_len
                  mode.(Permissions.bits) credentials 0 0 (replicate QFS_INLINE_DATA_BYTES 0) in
  _ ← put_inodes (<[slot := Some record]> t);
  commit_inode_transaction transaction_id.

(** the removal of the name of a record, after the check on its directory *)
Definition named_slot (t : QfsState.table) (record : QfsInodeRecord.t)
    (credentials : FsCredentials.t) : res nat :=
  parent ← ok_or (QfsState.inode_by_id t record.(QfsInodeRecord.parent_inode)) VfsError.NotFound;
  if negb (may_write parent credentials) then Err VfsError.PermissionDenied
  else ok_or (QfsState.child_slot_by_name t record.(QfsInodeRecord.parent_inode)
                (QfsInodeRecord.name record)) VfsError.NotFound.
Definition remove_name (record : QfsInodeRecord.t) (credentials : FsCredentials.t) : Op unit :=
  t ← inodes;
  slot ← lift (named_slot t record credentials);
  put_inodes (<[slot := None]> t).

Definition has_children (t : QfsState.table) (inode : Z) : bool :=
  existsb (λ o, match o with
                | Some child =>
                    (child.(QfsInodeRecord.parent_inode) =? inode)
                    && negb (child.(QfsInodeRecord.inode) =? inode)
                | None => false
                end) t.

Definition rmdir (path : list Z) (credentials : FsCredentials.t) : Op unit :=
  _ ← check_writable;
  record ← lookup_object_record path;
  if record.(QfsInodeRecord.inode) =? InodeId_ROOT then throw VfsError.Busy
  else if negb (QfsState.is_directory record) then throw VfsError.NotDirectory
  else
    transaction_id ← begin_transaction;
    t ← inodes;
    if has_children t record.(QfsInodeRecord.inode) then throw VfsError.Busy
    else
      _ ← remove_name record credentials;
      commit_inode_transaction transaction_id.

Definition unlink (path : list Z) (credentials : FsCredentials.t) : Op unit :=
  _ ← check_writable;
  record ← lookup_object_record path;
  if QfsState.is_directory record then throw VfsError.IsDirectory
  else
    transaction_id ← begin_transaction;
    _ ← remove_name record credentials;
    t ← inodes;
    let inode := record.(QfsInodeRecord.inode) in
    _ ← put_inodes (QfsState.set_link_count inode (QfsState.link_count t inode) t);
    commit_inode_transaction transaction_id.

(** the checks of [rename], and the slot and record it moves *)
Definition rename_slot (t : QfsState.table) (record : QfsInodeRecord.t) (new_parent : Z)
    (new_name : list Z) (new_name_len : Z) (credentials : FsCredentials.t)
    : res (nat * QfsInodeRecord.t) :=
  old_parent ← ok_or (QfsState.inode_by_id t record.(QfsInodeRecord.parent_inode))
                 VfsError.NotFound;
  parent ← ok_or (QfsState.inode_by_id t new_parent) VfsError.NotFound;
  if negb (QfsState.is_directory parent) then Err VfsError.NotDirectory
  else if negb (may_write old_parent credentials) || negb (may_write parent credentials) then
    Err VfsError.PermissionDenied
  else
    let new_name_str := from_utf8_or_empty (take (Z.to_nat new_name_len) new_name) in
    if bool_decide (is_Some (QfsState.child_by_name t new_parent new_name_str)) then
      Err VfsError.AlreadyExists
    else
      slot ← ok_or (QfsState.child_slot_by_name t record.(QfsInodeRecord.parent_inode)
                      (QfsInodeRecord.name record)) VfsError.NotFound;
      updated ← ok_or (default None (t !! slot)) VfsError.NotFound;
      Ok (slot, updated).

Definition rename (old_path new_path : list Z) (credentials : FsCredentials.t) : Op unit :=
  _ ← check_writable;
  record ← lookup_object_record old_path;
  '(new_parent, (new_name, new_name_len)) ← parent_and_name new_path;
  transaction_id ← begin_transaction;
  t ← inodes;
  '(slot, updated) ← lift (rename_slot t record new_parent new_name new_name_len credentials);
  _ ← put_inodes (<[slot := Some (QfsInodeRecord.refresh_path_identity
                      (QfsInodeRecord.set_place new_parent new_name new_name_len updated))]> t);
  commit_inode_transaction transaction_id.

Definition link (old_path new_path : list Z) (credentials : FsCredentials.t) : Op unit :=
  _ ← check_writable;
  source ← lookup_object_record old_path;
  if QfsState.is_directory source then throw VfsError.IsDirectory
  else
    '(parent, (name, name_len)) ← parent_and_name new_path;
    transaction_id ← begin_transaction;
    slot ← check_new_entry parent name name_len credentials;
    t ← inodes;
    let inode := source.(QfsInodeRecord.inode) in
    let links := sat_add 16 (QfsState.link_count t inode) 1 in
    let entry := QfsState.set_links links (QfsInodeRecord.refresh_path_identity
                   (QfsInodeRecord.set_place parent name name_len source)) in
    _ ← put_inodes (QfsState.set_link_count inode links (<[slot := Some entry]> t));
    commit_inode_transaction transaction_id.

Definition symlink (target link_path : list Z) (credentials : FsCredentials.t) : Op unit :=
  _ ← check_writable;
  '(parent, (name, name_len)) ← parent_and_name link_path;
  transaction_id ← begin_transaction;
  slot ← check_new_entry parent name name_len credentials;
  t ← inodes;
  let n := Nat.min (length target) QFS_INLINE_DATA_BYTES in
  let record := new_record (QfsState.next_inode_id t) parent InodeKind.Symlink name name_len 511
                  credentials (Z.of_nat (length target)) (Z.of_nat n)
                  (write_at 0 (take n target) (replicate QFS_INLINE_DATA_BYTES 0)) in
  _ ← put_inodes (<[slot := Some record]> t);
  _ ← (if (QFS_INLINE_DATA_BYTES <? length target)%nat then
         _ ← write_record_data transaction_id record (drop QFS_INLINE_DATA_BYTES target)
               (Z.of_nat QFS_INLINE_DATA_BYTES);
         mret tt
       else mret tt);
  commit_inode_transaction transaction_id.

Definition readlink (path buffer : list Z) : Op (nat * list Z) :=
  record ← lookup_object_record path;
  if negb (bool_decide (decode_inode_kind record.(QfsInodeRecord.kind) = InodeKind.Symlink))
  then throw VfsError.InvalidArgument
  else pread record.(QfsInodeRecord.inode) buffer 0.

(** a change to every record of an inode, in a transaction of its own *)
Definition update_all (inode : Z) (f : QfsInodeRecord.t → QfsInodeRecord.t) : Op unit :=
  transaction_id ← begin_transaction;
  t ← inodes;
  _ ← put_inodes (QfsState.update_inode inode f t);
  commit_inode_transaction transaction_id.

Definition chmod (path : list Z) (mode : Z) (credentials : FsCredentials.t) : Op unit :=
  _ ← check_writable;
  record ← lookup_object_record path;
  if negb credentials.(FsCredentials.is_kernel)
     && negb (credentials.(FsCredentials.uid) =? record.(QfsInodeRecord.uid))
  then throw VfsError.PermissionDenied
  else
    update_all record.(QfsInodeRecord.inode) (λ c,
      QfsInodeRecord.set_owner (Z.land mode 511) c.(QfsInodeRecord.uid) c.(QfsInodeRecord.gid)
        c.(QfsInodeRecord.links) c).

Definition chown (path : list Z) (uid gid : Z) (credentials : FsCredentials.t) : Op unit :=
  _ ← check_writable;
  record ← lookup_object_record path;
  if negb credentials.(FsCredentials.is_kernel) && negb (credentials.(FsCredentials.uid) =? 0)
  then throw VfsError.PermissionDenied
  else
    update_all record.(QfsInodeRecord.inode) (λ c,
      QfsInodeRecord.set_owner c.(QfsInodeRecord.mode) uid gid c.(QfsInodeRecord.links) c).

(** [candidate.size = size] with the inline length limited to it *)
Definition resize (size : Z) (c : QfsInodeRecord.t) : QfsInodeRecord.t :=
  QfsInodeRecord.set_data size
    (Z.min c.(QfsInodeRecord.inline_data_len)
       (Z.min size (Z.of_nat QFS_INLINE_DATA_BYTES))) c.(QfsInodeRecord.inline_data) c.

Definition truncate (path : list Z) (size : Z) (credentials : FsCredentials.t) : Op unit :=
  _ ← check_writable;
  record ← lookup_object_record path;
  if negb (may_write record credentials) then throw VfsError.PermissionDenied
  else update_all record.(QfsInodeRecord.inode) (resize size).

Definition ftruncate (file : Z) (size : Z) (credentials : FsCredentials.t) : Op unit :=
  record ← lookup_inode_record file;
  if negb (may_write record credentials) then throw VfsError.PermissionDenied
  else update_all file (resize size).

Definition fsync : Op unit :=
  device ← gets block_device;
  match device with
  | Some _ => on_device flush_device
  | None => mret tt
  end.

(** the loop of [readdir_inode] over the slots: entries after [offset], at most [room] *)
Fixpoint readdir_loop (inode : Z) (offset seen room : nat) (t : QfsState.table)
    : res (list DirEntry) :=
  match room, t with
  | O, _ | _, [] => Ok []
  | S room', None :: rest => readdir_loop inode offset seen room rest
  | S room', Some record :: rest =>
      if (record.(QfsInodeRecord.parent_inode) =? inode)
         && negb (record.(QfsInodeRecord.inode) =? inode) then
        if (offset <=? seen)%nat then
          entry ← DirEntry_new record.(QfsInodeRecord.inode)
                    (decode_inode_kind record.(QfsInodeRecord.kind)) (QfsInodeRecord.name record);
          entries ← readdir_loop inode offset (S seen) room' rest;
          Ok (entry :: entries)
        else readdir_loop inode offset (S seen) room rest
      else readdir_loop inode offset seen room rest
  end.

Definition readdir_inode (inode : Z) (offset room : nat) : Op (list DirEntry) :=
  directory ← lookup_inode_record inode;
  if negb (QfsState.is_directory directory) then throw VfsError.NotDirectory
  else t ← inodes; lift (readdir_loop inode offset 0 room t).
Definition readdir (path : list Z) (offset room : nat) : Op (list DirEntry) :=
  record ← lookup_object_record path;
  readdir_inode record.(QfsInodeRecord.inode) offset room.
End qfs.
Arguments QfsFileSystem : clear implicits.
