(* ===== verification/QfsTree.v ===== *)
(** * The shape of the QFS inode table

    A record of the inode table is a directory entry: a name in a directory, for an
    inode that is or is not a directory itself.  [shape] keeps just that of a table.
    [shape_ok] is the invariant of the namespace; the lemmas say which insertions,
    removals and moves keep it, and relate the searches of Qfs to entries. *)

From stdpp Require Import prelude.
From S2P Require Import Prelude Bytes Permissions Vfs BlockDevice QfsFormat QfsFormatSafety Qfs.

Local Open Scope Z_scope.

Record entry : Type := mk_entry { e_inode : Z; e_parent : Z; e_name : list Z; e_dir : bool }.
#[export] Instance entry_eq_dec : EqDecision entry.
Proof. solve_decision. Defined.

Definition entry_of (r : QfsInodeRecord.t) : entry :=
  mk_entry r.(QfsInodeRecord.inode) r.(QfsInodeRecord.parent_inode) (QfsInodeRecord.name r)
    (QfsState.is_directory r).
Abbreviation shape_t := (list (option entry)).
Definition shape (t : QfsState.table) : shape_t := fmap (M := option) entry_of <$> t.

Definition has (s : shape_t) (i : nat) (e : entry) : Prop := s !! i = Some (Some e).

(** the invariant of the namespace *)
Record shape_ok (s : shape_t) : Prop := {
  s_root : ∃ i e, has s i e ∧ e.(e_inode) = InodeId_ROOT ∧ e.(e_dir) = true;
  s_names : ∀ i j a b, has s i a → has s j b →
    a.(e_parent) = b.(e_parent) → a.(e_name) = b.(e_name) → i = j;
  s_inodes : ∀ i j a b, has s i a → has s j b → a.(e_inode) = b.(e_inode) →
    i = j ∨ a.(e_dir) = false ∧ b.(e_dir) = false;
  s_parents : ∀ i a, has s i a →
    ∃ k p, has s k p ∧ p.(e_inode) = a.(e_parent) ∧ p.(e_dir) = true;
  s_named : ∀ i a, has s i a → a.(e_inode) = InodeId_ROOT ∨ component_ok a.(e_name)
}.

Lemma has_insert s i e j a : has (<[i := Some e]> s) j a →
  (i < length s)%nat → (j = i ∧ a = e) ∨ (j ≠ i ∧ has s j a).
Proof.
  unfold has. intros H Hi. destruct (decide (j = i)) as [->|Hne].
  - left. rewrite list_lookup_insert_eq in H by done. by injection H as <-.
  - right. rewrite list_lookup_insert_ne in H by done. done.
Qed.
Lemma has_insert_eq s i e : (i < length s)%nat → has (<[i := Some e]> s) i e.
Proof. intros Hi. unfold has. by rewrite list_lookup_insert_eq. Qed.
Lemma has_insert_ne s i o j a : j ≠ i → has s j a → has (<[i := o]> s) j a.
Proof. intros Hne H. unfold has. by rewrite list_lookup_insert_ne. Qed.
Lemma has_remove s i j a : has (<[i := None]> s) j a → (i < length s)%nat → j ≠ i ∧ has s j a.
Proof.
  unfold has. intros H Hi. destruct (decide (j = i)) as [->|Hne].
  - rewrite list_lookup_insert_eq in H by done. done.
  - by rewrite list_lookup_insert_ne in H by done.
Qed.
Lemma has_lt s i a : has s i a → (i < length s)%nat.
Proof. intros H. by eapply lookup_lt_Some. Qed.

(** ** Insertion, removal, move *)
Lemma shape_insert s i e :
  shape_ok s → s !! i = Some None → component_ok e.(e_name) →
  (∃ k p, has s k p ∧ p.(e_inode) = e.(e_parent) ∧ p.(e_dir) = true) →
  (∀ j a, has s j a → a.(e_parent) = e.(e_parent) → a.(e_name) ≠ e.(e_name)) →
  (∀ j a, has s j a → a.(e_inode) = e.(e_inode) → a.(e_dir) = false ∧ e.(e_dir) = false) →
  shape_ok (<[i := Some e]> s).
Proof.
  intros [(ri & r & Hr & Hri & Hrd) Hn Hi Hp Hc] Hfree Hok (k & p & Hk & Hpi & Hpd) Hun Hfi.
  assert (i < length s)%nat as Hlt by (by eapply lookup_lt_Some).
  assert (∀ j a, has s j a → j ≠ i) as Hne by (intros j a Hj ->; unfold has in Hj; congruence).
  split.
  - exists ri, r. split; [|done]. apply has_insert_ne; [by eapply Hne|done].
  - intros x y a b Ha Hb H1 H2. apply has_insert in Ha, Hb; [|done..].
    destruct Ha as [[-> ->]|[? Ha]], Hb as [[-> ->]|[? Hb]]; [done| | |by eapply Hn].
    + by destruct (Hun _ _ Hb (eq_sym H1)).
    + by destruct (Hun _ _ Ha H1).
  - intros x y a b Ha Hb H1. apply has_insert in Ha, Hb; [|done..].
    destruct Ha as [[-> ->]|[? Ha]], Hb as [[-> ->]|[? Hb]]; [by left| | |by eapply Hi].
    + right. destruct (Hfi _ _ Hb (eq_sym H1)). done.
    + right. by destruct (Hfi _ _ Ha H1).
  - intros x a Ha. apply has_insert in Ha; [|done]. destruct Ha as [[-> ->]|[? Ha]].
    + exists k, p. split; [|done]. apply has_insert_ne; [by eapply Hne|done].
    + destruct (Hp _ _ Ha) as (k' & p' & Hk' & ?). exists k', p'. split; [|done].
      apply has_insert_ne; [by eapply Hne|done].
  - intros x a Ha. apply has_insert in Ha; [|done]. destruct Ha as [[-> ->]|[? Ha]]; [by right|by eapply Hc].
Qed.

Lemma shape_remove s i e :
  shape_ok s → has s i e → e.(e_inode) ≠ InodeId_ROOT →
  (e.(e_dir) = true → ∀ j a, has s j a → a.(e_parent) = e.(e_inode) → a.(e_inode) = e.(e_inode)) →
  shape_ok (<[i := None]> s).
Proof.
  intros [(ri & r & Hr & Hri & Hrd) Hn Hi Hp Hc] He Hroot Hch. pose proof (has_lt _ _ _ He) as Hlt. split.
  - exists ri, r. split; [|done]. apply has_insert_ne; [|done]. intros ->. unfold has in *. congruence.
  - intros x y a b [? Ha]%has_remove [? Hb]%has_remove; [|done..]. by eapply Hn.
  - intros x y a b [? Ha]%has_remove [? Hb]%has_remove; [|done..]. by eapply Hi.
  - intros x a [Hx Ha]%has_remove; [|done]. destruct (Hp _ _ Ha) as (k & p & Hk & Hpi & Hpd).
    exists k, p. split; [|done]. apply has_insert_ne; [|done]. intros ->.
    assert (p = e) as -> by (unfold has in *; congruence).
    assert (a.(e_inode) = e.(e_inode)) as Hae by (by apply (Hch Hpd x)).
    destruct (Hi _ _ _ _ Ha He Hae) as [?|[_ ?]]; congruence.
  - intros x a [Hx Ha]%has_remove; [|done]. by eapply Hc.
Qed.

Lemma shape_move s i e parent name :
  shape_ok s → has s i e → component_ok name →
  (∃ k p, has s k p ∧ p.(e_inode) = parent ∧ p.(e_dir) = true) →
  (∀ j a, has s j a → a.(e_parent) = parent → a.(e_name) ≠ name) →
  shape_ok (<[i := Some (mk_entry e.(e_inode) parent name e.(e_dir))]> s).
Proof.
  intros [(ri & r & Hr & Hri & Hrd) Hn Hi Hp Hc] He Hok Hpar Hun. pose proof (has_lt _ _ _ He) as Hlt.
  set (e' := mk_entry _ _ _ _).
  assert (∀ k p, has s k p → ∃ p', has (<[i := Some e']> s) k p' ∧ p'.(e_inode) = p.(e_inode) ∧
    p'.(e_dir) = p.(e_dir)) as Hkeep.
  { intros k p Hk. destruct (decide (k = i)) as [->|Hne].
    - exists e'. split; [by apply has_insert_eq|]. assert (p = e) as -> by (unfold has in *; congruence). done.
    - exists p. split; [by apply has_insert_ne|done]. }
  split.
  - destruct (Hkeep _ _ Hr) as (r' & ? & E1 & E2). exists ri, r'. by rewrite E1, E2.
  - intros x y a b Ha Hb H1 H2. apply has_insert in Ha, Hb; [|done..].
    destruct Ha as [[-> ->]|[? Ha]], Hb as [[-> ->]|[? Hb]]; [done| | |by eapply Hn].
    + by destruct (Hun _ _ Hb (eq_sym H1)).
    + by destruct (Hun _ _ Ha H1).
  - intros x y a b Ha Hb H1. apply has_insert in Ha, Hb; [|done..].
    destruct Ha as [[-> ->]|[? Ha]], Hb as [[-> ->]|[? Hb]]; [by left| | |by eapply Hi].
    + destruct (Hi _ _ _ _ He Hb H1) as [?|?]; [by left|by right].
    + destruct (Hi _ _ _ _ Ha He H1) as [?|?]; [by left|by right].
  - intros x a Ha. apply has_insert in Ha; [|done].
    assert (∃ k p, has s k p ∧ p.(e_inode) = a.(e_parent) ∧ p.(e_dir) = true) as (k & p & Hk & H1 & H2).
    { destruct Ha as [[-> ->]|[? Ha]]; [done|by eapply Hp]. }
    destruct (Hkeep _ _ Hk) as (p' & Hp' & E1 & E2). exists k, p'. by rewrite E1, E2.
  - intros x a Ha. apply has_insert in Ha; [|done]. destruct Ha as [[-> ->]|[? Ha]]; [by right|by eapply Hc].
Qed.

(** ** The searches of the table *)
Lemma has_shape t i r : t !! i = Some (Some r) → has (shape t) i (entry_of r).
Proof. intros H. unfold has, shape. by rewrite list_lookup_fmap, H. Qed.
Lemma has_shape_inv t i e : has (shape t) i e → ∃ r, t !! i = Some (Some r) ∧ e = entry_of r.
Proof.
  unfold has, shape. rewrite list_lookup_fmap. destruct (t !! i) as [[r|]|]; cbn; try done.
  intros [= <-]. by exists r.
Qed.
Lemma shape_insert_Some t i r : shape (<[i := Some r]> t) = <[i := Some (entry_of r)]> (shape t).
Proof. unfold shape. by rewrite list_fmap_insert. Qed.
Lemma shape_insert_None t i : shape (<[i := None]> t) = <[i := None]> (shape t).
Proof. unfold shape. by rewrite list_fmap_insert. Qed.
Lemma shape_each t f : (∀ r, entry_of (f r) = entry_of r) → shape (QfsState.each_record f t) = shape t.
Proof.
  intros Hf. unfold shape, QfsState.each_record. rewrite <-list_fmap_compose. apply list_fmap_ext.
  intros i [r|] _; cbn; [by rewrite Hf|done].
Qed.

Lemma find_slot_spec p k t i : QfsState.find_slot p k t = Some i →
  ∃ r, (k ≤ i)%nat ∧ t !! (i - k)%nat = Some (Some r) ∧ p r = true.
Proof.
  revert k. induction t as [|[r|] t IH]; intros k; cbn; [done| |].
  - destruct (p r) eqn:E.
    + intros [= <-]. exists r. by rewrite Nat.sub_diag.
    + intros (r' & Hk & Hl & Hp)%IH. exists r'. split; [lia|]. split; [|done].
      replace (i - k)%nat with (S (i - S k)) by lia. done.
  - intros (r' & Hk & Hl & Hp)%IH. exists r'. split; [lia|]. split; [|done].
    replace (i - k)%nat with (S (i - S k)) by lia. done.
Qed.

Lemma find_slot_elem p t i : QfsState.find_slot p 0 t = Some i → ∃ r, t !! i = Some (Some r) ∧ p r = true.
Proof. intros (r & _ & Hl & Hp)%find_slot_spec. rewrite Nat.sub_0_r in Hl. by exists r. Qed.

Lemma find_record_Some p t r : QfsState.find_record p t = Some r → ∃ i, t !! i = Some (Some r) ∧ p r = true.
Proof.
  induction t as [|[r'|] t IH]; cbn; [done| |].
  - destruct (p r') eqn:E; [intros [= <-]; by exists 0%nat|]. intros (i & Hi & Hp)%IH. by exists (S i).
  - intros (i & Hi & Hp)%IH. by exists (S i).
Qed.

Lemma find_record_None p t i r : QfsState.find_record p t = None → t !! i = Some (Some r) → p r = false.
Proof.
  revert i. induction t as [|[r'|] t IH]; intros i; cbn; [done| |].
  - destruct (p r') eqn:E; [done|]. intros Hn. destruct i as [|i]; cbn; [by intros [= <-]|by apply IH].
  - intros Hn. destruct i as [|i]; cbn; [done|by apply IH].
Qed.

Lemma find_slot_record p k t : QfsState.find_slot p k t = None ↔ QfsState.find_record p t = None.
Proof. revert k. induction t as [|[r|] t IH]; intros k; cbn; [done| |by apply IH]. destruct (p r); [done|apply IH]. Qed.

Lemma find_same p t :
  match QfsState.find_slot p 0 t with
  | Some i => ∃ r, t !! i = Some (Some r) ∧ QfsState.find_record p t = Some r
  | None => QfsState.find_record p t = None
  end.
Proof.
  assert (∀ k, match QfsState.find_slot p k t with
    | Some i => ∃ r, (k ≤ i)%nat ∧ t !! (i - k)%nat = Some (Some r) ∧ QfsState.find_record p t = Some r
    | None => QfsState.find_record p t = None end) as H.
  { induction t as [|[r|] t IH]; intros k; cbn; [done| |].
    - destruct (p r) eqn:E; [exists r; by rewrite Nat.sub_diag|]. specialize (IH (S k)).
      destruct (QfsState.find_slot p (S k) t) as [i|]; [|done]. destruct IH as (r' & Hk & Hl & Hf).
      exists r'. split; [lia|]. split; [|done]. by replace (i - k)%nat with (S (i - S k)) by lia.
    - specialize (IH (S k)). destruct (QfsState.find_slot p (S k) t) as [i|]; [|done].
      destruct IH as (r' & Hk & Hl & Hf). exists r'. split; [lia|]. split; [|done].
      by replace (i - k)%nat with (S (i - S k)) by lia. }
  specialize (H 0%nat). destruct (QfsState.find_slot p 0 t) as [i|]; [|done].
  destruct H as (r & _ & Hl & Hf). exists r. by rewrite Nat.sub_0_r in Hl.
Qed.

Lemma inode_by_id_Some t ino r : QfsState.inode_by_id t ino = Some r →
  ∃ i, has (shape t) i (entry_of r) ∧ t !! i = Some (Some r) ∧ r.(QfsInodeRecord.inode) = ino.
Proof.
  intros (i & Hi & Hp%Z.eqb_eq)%find_record_Some. exists i. split; [by apply has_shape|done].
Qed.

Lemma is_child_true parent name r : QfsState.is_child parent name r = true ↔
  r.(QfsInodeRecord.parent_inode) = parent ∧ QfsInodeRecord.name r = name.
Proof. unfold QfsState.is_child. by rewrite andb_true_iff, Z.eqb_eq, bool_decide_eq_true. Qed.

Lemma child_by_name_Some t parent name r : QfsState.child_by_name t parent name = Some r →
  ∃ i, t !! i = Some (Some r) ∧ r.(QfsInodeRecord.parent_inode) = parent ∧ QfsInodeRecord.name r = name.
Proof. intros (i & Hi & Hp%is_child_true)%find_record_Some. by exists i. Qed.

(** with unique names the search finds the entry, wherever it is *)
Lemma child_by_name_unique t i r : shape_ok (shape t) → t !! i = Some (Some r) →
  QfsState.child_by_name t r.(QfsInodeRecord.parent_inode) (QfsInodeRecord.name r) = Some r ∧
  QfsState.child_slot_by_name t r.(QfsInodeRecord.parent_inode) (QfsInodeRecord.name r) = Some i.
Proof.
  intros Hs Hi.
  set (p := QfsState.is_child r.(QfsInodeRecord.parent_inode) (QfsInodeRecord.name r)).
  assert (p r = true) as Hp by (by apply is_child_true).
  pose proof (find_same p t) as Hf. unfold QfsState.child_by_name, QfsState.child_slot_by_name. change (QfsState.is_child _ _) with p.
  destruct (QfsState.find_slot p 0 t) as [j|] eqn:E.
  - destruct Hf as (r' & Hj & Hf). apply find_record_Some in Hf as Hf'. destruct Hf' as (j' & Hj' & Hp').
    apply is_child_true in Hp' as [H1 H2].
    assert (j = i) as ->.
    { apply (s_names _ Hs j i (entry_of r') (entry_of r)); [by apply has_shape..| |]; done. }
    rewrite Hi in Hj. injection Hj as <-. done.
  - by rewrite (find_record_None _ _ _ _ Hf Hi) in Hp.
Qed.

Lemma child_by_name_None t parent name : QfsState.child_by_name t parent name = None →
  ∀ i e, has (shape t) i e → e.(e_parent) = parent → e.(e_name) ≠ name.
Proof.
  intros Hn i e (r & Hr & ->)%has_shape_inv. cbn. intros H1 H2.
  pose proof (find_record_None _ _ _ _ Hn Hr) as Hf.
  assert (QfsState.is_child parent name r = true) by (by apply is_child_true). congruence.
Qed.

(** every record a walk returns is in the table *)
Lemma walk_Some t cur comps r : (∃ i, t !! i = Some (Some cur)) →
  QfsState.walk t cur comps = Ok r → ∃ i, t !! i = Some (Some r).
Proof.
  revert cur. induction comps as [|c comps IH]; intros cur Hcur; cbn; [by intros [= <-]|].
  destruct (negb _); [done|].
  destruct (QfsState.child_by_name t _ c) as [n|] eqn:E; cbn; [|done].
  apply IH. apply child_by_name_Some in E as (i & Hi & _). by exists i.
Qed.

Lemma resolve_Some t path r : QfsState.resolve_inode t path = Ok r → ∃ i, t !! i = Some (Some r).
Proof.
  unfold QfsState.resolve_inode. destruct (QfsState.inode_by_id t InodeId_ROOT) as [root|] eqn:E;
    apply inode_by_id_Some in E as (i & _ & Hi & _) || idtac; destruct (is_root path); cbn; try done.
  - intros [= <-]. by exists i.
  - apply walk_Some. by exists i.
Qed.

Lemma free_slot_spec k t i : QfsState.free_slot k t = Some i → (k ≤ i)%nat ∧ t !! (i - k)%nat = Some None.
Proof.
  revert k. induction t as [|[r|] t IH]; intros k; cbn; [done| |].
  - intros [Hk Hl]%IH. split; [lia|]. by replace (i - k)%nat with (S (i - S k)) by lia.
  - intros [= <-]. by rewrite Nat.sub_diag.
Qed.
Lemma free_inode_slot_Some t i : QfsState.free_inode_slot t = Some i → t !! i = Some None.
Proof. intros [_ H]%free_slot_spec. by rewrite Nat.sub_0_r in H. Qed.

(** fresh inode numbers *)
Lemma next_inode_fold n0 t : n0 <= umax 64 →
  let n := foldl QfsState.next_inode_step n0 t in
  n0 <= n <= umax 64 ∧ (n < umax 64 → ∀ i r, t !! i = Some (Some r) → r.(QfsInodeRecord.inode) < n).
Proof.
  revert n0. induction t as [|o t IH]; intros n0 Hn; cbn; [split; [lia|done]|].
  assert (n0 <= QfsState.next_inode_step n0 o <= umax 64) as Hs.
  { unfold QfsState.next_inode_step. destruct o as [r|]; [|lia]. destruct (Z.leb_spec n0 (QfsInodeRecord.inode r)); [|lia].
    unfold sat_add. lia. }
  destruct (IH _ (proj2 Hs)) as [H1 H2]. split; [lia|]. intros Hlt i r Hi.
  destruct i as [|i]; [|by eapply H2]. injection Hi as ->.
  unfold QfsState.next_inode_step in *. destruct (Z.leb_spec n0 (QfsInodeRecord.inode r)); [|lia].
  unfold sat_add in *. lia.
Qed.

Lemma next_inode_fresh t i r : QfsState.next_inode_id t < umax 64 → t !! i = Some (Some r) →
  r.(QfsInodeRecord.inode) < QfsState.next_inode_id t.
Proof.
  unfold QfsState.next_inode_id. intros Hlt Hi.
  assert (sat_add 64 InodeId_ROOT 1 <= umax 64) as H by (by vm_compute).
  destruct (next_inode_fold _ t H) as [_ H2]. by eapply H2.
Qed.
Lemma next_inode_pos t : 1 < QfsState.next_inode_id t.
Proof.
  unfold QfsState.next_inode_id.
  assert (sat_add 64 InodeId_ROOT 1 <= umax 64) as H by (by vm_compute).
  destruct (next_inode_fold _ t H) as [[H1 _] _]. assert (sat_add 64 InodeId_ROOT 1 = 2) by done. lia.
Qed.
