(* ===== verification/QfsNamespace.v ===== *)
(** * Updates of the QFS namespace

    The changes the operations of Qfs make to the table of inode records, as relations
    between the table before and after, and what they mean: each keeps the invariant
    [table_ok] of the table and acts on the map from (directory, name) to inode as the
    operation promises. *)

From stdpp Require Import prelude.
From S2P Require Import Prelude Bytes Permissions Vfs BlockDevice QfsFormat QfsFormatSafety Qfs QfsTree.

Local Open Scope Z_scope.

(** ** What each operation does to the table *)
Definition mkdir_update path (mode : Permissions.t) c (t t0 : QfsState.table) : Prop :=
  ∃ parent name len slot, parent_of t path = Ok (parent, (name, len)) ∧
    new_entry_slot t parent name len c = Ok slot ∧
    t0 = <[slot := Some (new_record (QfsState.next_inode_id t) parent InodeKind.Directory name len
                           mode.(Permissions.bits) c 0 0 (replicate QFS_INLINE_DATA_BYTES 0))]> t.
Definition rmdir_update path c (t t0 : QfsState.table) : Prop :=
  ∃ r slot, QfsState.resolve_inode t path = Ok r ∧ r.(QfsInodeRecord.inode) ≠ InodeId_ROOT ∧
    QfsState.is_directory r = true ∧ has_children t r.(QfsInodeRecord.inode) = false ∧
    named_slot t r c = Ok slot ∧ t0 = <[slot := None]> t.
Definition unlink_update path c (t t0 : QfsState.table) : Prop :=
  ∃ r slot, QfsState.resolve_inode t path = Ok r ∧ QfsState.is_directory r = false ∧
    named_slot t r c = Ok slot ∧
    let t1 := <[slot := None]> t in
    let i := r.(QfsInodeRecord.inode) in
    t0 = QfsState.set_link_count i (QfsState.link_count t1 i) t1.
Definition rename_update old_path new_path c (t t0 : QfsState.table) : Prop :=
  ∃ r parent name len slot updated, QfsState.resolve_inode t old_path = Ok r ∧
    parent_of t new_path = Ok (parent, (name, len)) ∧
    rename_slot t r parent name len c = Ok (slot, updated) ∧
    t0 = <[slot := Some (QfsInodeRecord.refresh_path_identity
                           (QfsInodeRecord.set_place parent name len updated))]> t.
Definition link_update old_path new_path c (t t0 : QfsState.table) : Prop :=
  ∃ r parent name len slot, QfsState.resolve_inode t old_path = Ok r ∧
    QfsState.is_directory r = false ∧ parent_of t new_path = Ok (parent, (name, len)) ∧
    new_entry_slot t parent name len c = Ok slot ∧
    let i := r.(QfsInodeRecord.inode) in
    let links := sat_add 16 (QfsState.link_count t i) 1 in
    t0 = QfsState.set_link_count i links
           (<[slot := Some (QfsState.set_links links (QfsInodeRecord.refresh_path_identity
                              (QfsInodeRecord.set_place parent name len r)))]> t).
Definition symlink_update (target link_path : list Z) c (t t0 : QfsState.table) : Prop :=
  ∃ parent name len slot, parent_of t link_path = Ok (parent, (name, len)) ∧
    new_entry_slot t parent name len c = Ok slot ∧
    let n := Nat.min (length target) QFS_INLINE_DATA_BYTES in
    t0 = <[slot := Some (new_record (QfsState.next_inode_id t) parent InodeKind.Symlink name len 511
                           c (Z.of_nat (length target)) (Z.of_nat n)
                           (write_at 0 (take n target) (replicate QFS_INLINE_DATA_BYTES 0)))]> t.
(** a change of the metadata of an existing inode *)
Definition meta_update (f : QfsInodeRecord.t → QfsInodeRecord.t → QfsInodeRecord.t)
    (path : list Z) (t t0 : QfsState.table) : Prop :=
  ∃ r, QfsState.resolve_inode t path = Ok r ∧
    t0 = QfsState.update_inode r.(QfsInodeRecord.inode) (f r) t.


(** ** The namespace as a map *)
Definition namespace : Type := Z → list Z → option Z.
Definition dirent (t : QfsState.table) : namespace := λ p n,
  QfsInodeRecord.inode <$> QfsState.child_by_name t p n.

Lemma dirent_Some t p n i : shape_ok (shape t) →
  dirent t p n = Some i ↔
  ∃ k e, has (shape t) k e ∧ e.(e_parent) = p ∧ e.(e_name) = n ∧ e.(e_inode) = i.
Proof.
  intros Hs. unfold dirent. rewrite fmap_Some. split.
  - intros (r & (k & Hk & H1 & H2)%child_by_name_Some & ->). exists k, (entry_of r).
    split; [by apply has_shape|done].
  - intros (k & e & (r & Hr & ->)%has_shape_inv & <- & <- & <-). exists r.
    split; [|done]. by apply (child_by_name_unique t k).
Qed.

(** the map depends on the shape only *)
Lemma dirent_shape t t' p n : shape t = shape t' → dirent t p n = dirent t' p n.
Proof.
  unfold dirent, QfsState.child_by_name. revert t'.
  induction t as [|o t IH]; intros [|o' t']; cbn; try done. intros H. injection H as Ho Ht.
  destruct o as [r|], o' as [r'|]; cbn in Ho; try done; [|by apply IH].
  injection Ho as H1 H2 H3 H4.
  assert (QfsState.is_child p n r = QfsState.is_child p n r') as ->.
  { unfold QfsState.is_child. by rewrite H2, H3. }
  destruct (QfsState.is_child p n r'); cbn; [by rewrite H1|by apply IH].
Qed.

Definition update_ns (N : namespace) (p : Z) (n : list Z) (i : option Z) : namespace := λ q m,
  if decide (q = p ∧ m = n) then i else N q m.

Lemma dirent_insert t k r : shape_ok (shape t) → shape_ok (shape (<[k := Some r]> t)) →
  t !! k = Some None → ∀ q m,
  dirent (<[k := Some r]> t) q m =
  update_ns (dirent t) r.(QfsInodeRecord.parent_inode) (QfsInodeRecord.name r)
    (Some r.(QfsInodeRecord.inode)) q m.
Proof.
  intros Hs Hs' Hk q m. assert (k < length (shape t))%nat as Hlt.
  { unfold shape. rewrite length_fmap. by eapply lookup_lt_Some. }
  apply option_eq. intros i. rewrite (dirent_Some _ _ _ _ Hs'). unfold update_ns.
  rewrite shape_insert_Some. split.
  - intros (j & e & Hj & <- & <- & <-). apply has_insert in Hj as [[-> ->]|[Hne Hj]]; [| |done].
    + by rewrite decide_True.
    + rewrite decide_False; [apply dirent_Some; [done|by exists j, e]|]. intros [H1 H2].
      assert (k = j) as ->; [|done]. rewrite shape_insert_Some in Hs'.
      apply (s_names _ Hs' k j (entry_of r) e);
        [by apply has_insert_eq|by apply has_insert_ne|done|done].
  - case_decide as Hd.
    + destruct Hd as [-> ->]. intros [= <-]. exists k, (entry_of r). split; [by apply has_insert_eq|done].
    + intros (j & e & Hj & He)%dirent_Some; [|done]. exists j, e. split; [|done].
      apply has_insert_ne; [|done]. intros ->. apply has_shape_inv in Hj as (? & ? & _). congruence.
Qed.

Lemma dirent_remove t k r : shape_ok (shape t) → shape_ok (shape (<[k := None]> t)) →
  t !! k = Some (Some r) → ∀ q m,
  dirent (<[k := None]> t) q m =
  update_ns (dirent t) r.(QfsInodeRecord.parent_inode) (QfsInodeRecord.name r) None q m.
Proof.
  intros Hs Hs' Hk q m. assert (k < length (shape t))%nat as Hlt.
  { unfold shape. rewrite length_fmap. by eapply lookup_lt_Some. }
  apply has_shape in Hk as Hkr.
  apply option_eq. intros i. rewrite (dirent_Some _ _ _ _ Hs'). unfold update_ns.
  rewrite shape_insert_None. split.
  - intros (j & e & Hj & <- & <- & <-). apply has_remove in Hj as [Hne Hj]; [|done].
    rewrite decide_False; [apply dirent_Some; [done|by exists j, e]|]. intros [H1 H2].
    apply Hne. by apply (s_names _ Hs j k e (entry_of r)).
  - case_decide as Hd; [done|]. intros (j & e & Hj & H1 & H2 & H3)%dirent_Some; [|done].
    exists j, e. split; [|done]. apply has_insert_ne; [|done]. intros ->. apply Hd.
    assert (e = entry_of r) as -> by (unfold has in *; congruence). done.
Qed.

(** a move: the old name goes, the new one leads to the same inode *)
Lemma dirent_move t k r r' : shape_ok (shape t) → shape_ok (shape (<[k := Some r']> t)) →
  t !! k = Some (Some r) → r'.(QfsInodeRecord.inode) = r.(QfsInodeRecord.inode) → ∀ q m,
  dirent (<[k := Some r']> t) q m =
  update_ns (update_ns (dirent t) r.(QfsInodeRecord.parent_inode) (QfsInodeRecord.name r) None)
    r'.(QfsInodeRecord.parent_inode) (QfsInodeRecord.name r') (Some r.(QfsInodeRecord.inode)) q m.
Proof.
  intros Hs Hs' Hk Hino q m. assert (k < length (shape t))%nat as Hlt.
  { unfold shape. rewrite length_fmap. by eapply lookup_lt_Some. }
  apply has_shape in Hk as Hkr.
  apply option_eq. intros i. rewrite (dirent_Some _ _ _ _ Hs'). unfold update_ns.
  rewrite shape_insert_Some. split.
  - intros (j & e & Hj & <- & <- & <-). apply has_insert in Hj as [[-> ->]|[Hne Hj]]; [| |done].
    + rewrite decide_True by done. cbn. by rewrite Hino.
    + rewrite decide_False.
      * rewrite decide_False; [apply dirent_Some; [done|by exists j, e]|]. intros [H1 H2].
        apply Hne. by apply (s_names _ Hs j k e (entry_of r)).
      * intros [H1 H2]. apply Hne. rewrite shape_insert_Some in Hs'.
        apply (s_names _ Hs' j k e (entry_of r'));
          [by apply has_insert_ne|by apply has_insert_eq|done|done].
  - case_decide as Hd.
    + destruct Hd as [-> ->]. intros [= <-]. exists k, (entry_of r'). split; [by apply has_insert_eq|done].
    + case_decide as Hd'; [done|]. intros (j & e & Hj & H1 & H2 & H3)%dirent_Some; [|done].
      exists j, e. split; [|done]. apply has_insert_ne; [|done]. intros ->. apply Hd'.
      assert (e = entry_of r) as -> by (unfold has in *; congruence). done.
Qed.

(** ** Paths in the map *)
Fixpoint ns_walk (N : namespace) (i : Z) (cs : list (list Z)) : option Z :=
  match cs with
  | [] => Some i
  | c :: cs' => j ← N i c; ns_walk N j cs'
  end.
(** a path names the entry [n] of directory [p] *)
Definition locates (N : namespace) (path : list Z) (p : Z) (n : list Z) : Prop :=
  ∃ cs, components path = cs ++ [n] ∧ ns_walk N InodeId_ROOT cs = Some p.

Lemma ns_walk_app N i cs cs' : ns_walk N i (cs ++ cs') = ns_walk N i cs ≫= λ j, ns_walk N j cs'.
Proof. revert i. induction cs as [|c cs IH]; intros i; cbn; [done|]. destruct (N i c); cbn; [apply IH|done]. Qed.

Lemma walk_ns t cur cs r : QfsState.walk t cur cs = Ok r →
  ns_walk (dirent t) cur.(QfsInodeRecord.inode) cs = Some r.(QfsInodeRecord.inode) ∧
  (cs = [] ∧ r = cur ∨ ∃ cs0 n, cs = cs0 ++ [n] ∧
     ns_walk (dirent t) cur.(QfsInodeRecord.inode) cs0 = Some r.(QfsInodeRecord.parent_inode) ∧
     QfsInodeRecord.name r = n).
Proof.
  revert cur. induction cs as [|c cs IH]; intros cur; cbn.
  { intros [= <-]. split; [done|by left]. }
  destruct (negb _); [done|]. destruct (QfsState.child_by_name t _ c) as [x|] eqn:E; cbn; [|done].
  intros H. destruct (IH _ H) as [H1 H2].
  assert (dirent t cur.(QfsInodeRecord.inode) c = Some x.(QfsInodeRecord.inode)) as Hd.
  { unfold dirent. by rewrite E. }
  split; [by rewrite Hd|]. right. destruct H2 as [[-> ->]|(cs0 & n & -> & H2 & H3)].
  - apply child_by_name_Some in E as (i & _ & <- & <-). by exists [], (QfsInodeRecord.name x).
  - exists (c :: cs0), n. split; [done|]. cbn. by rewrite Hd.
Qed.

Lemma components_root : components [slash] = [].
Proof. by vm_compute. Qed.

Lemma resolve_ns t path r : QfsState.resolve_inode t path = Ok r →
  ns_walk (dirent t) InodeId_ROOT (components path) = Some r.(QfsInodeRecord.inode) ∧
  (components path = [] ∧ r.(QfsInodeRecord.inode) = InodeId_ROOT ∧
     QfsState.inode_by_id t InodeId_ROOT = Some r ∨
   locates (dirent t) path r.(QfsInodeRecord.parent_inode) (QfsInodeRecord.name r)).
Proof.
  unfold QfsState.resolve_inode. destruct (QfsState.inode_by_id t InodeId_ROOT) as [root|] eqn:E;
    cbn; [|by destruct (is_root path)].
  pose proof E as (_ & _ & _ & Hroot)%inode_by_id_Some.
  destruct (is_root path) eqn:Er.
  - apply bool_decide_eq_true in Er as ->. rewrite components_root. intros [= <-]. cbn. rewrite Hroot.
    split; [done|by left].
  - cbn. intros Hw. apply walk_ns in Hw as [H1 H2]. rewrite Hroot in *. split; [done|].
    destruct H2 as [[Hc ->]|(cs0 & n & Hc & Hw & <-)]; [by left|]. right. by exists cs0.
Qed.

Lemma parent_walk_ns t cur pending cs p n : parent_walk t cur pending cs = Ok (p, n) →
  ∃ cs0, pending :: cs = cs0 ++ [n] ∧ ns_walk (dirent t) cur cs0 = Some p.
Proof.
  revert cur pending. induction cs as [|c cs IH]; intros cur pending; cbn.
  { intros [= <- <-]. by exists []. }
  destruct (QfsState.inode_by_id t cur) as [r|]; cbn; [|done]. destruct (negb _); [done|].
  destruct (QfsState.child_by_name t cur pending) as [x|] eqn:E; cbn; [|done].
  intros (cs0 & -> & Hw)%IH. exists (pending :: cs0). split; [done|]. cbn.
  assert (dirent t cur pending = Some x.(QfsInodeRecord.inode)) as -> by (unfold dirent; by rewrite E).
  done.
Qed.

(** the array form of a name and back *)
Definition name_array (n : list Z) : list Z := write_at 0 n (replicate QFS_NAME_BYTES 0).

Lemma take_name_array n : (length n ≤ 32)%nat → take (length n) (name_array n) = n.
Proof.
  intros H. change (take (length n) (n ++ drop (0 + length n) (replicate QFS_NAME_BYTES 0)) = n).
  by rewrite take_app_length.
Qed.

Lemma length_name_array n : (length n ≤ 32)%nat → length (name_array n) = 32%nat.
Proof. intros H. unfold name_array. rewrite length_write_at; by rewrite length_replicate. Qed.

Lemma name_of_array r n : (length n ≤ 32)%nat → utf8_valid n = true →
  r.(QfsInodeRecord.name_bytes) = name_array n → r.(QfsInodeRecord.name_len) = Z.of_nat (length n) →
  QfsInodeRecord.name r = n.
Proof.
  intros Hl Hu Hb Hn. unfold QfsInodeRecord.name, from_utf8_or_empty.
  rewrite Hb, Hn, Nat2Z.id. unfold QFS_NAME_BYTES. rewrite Nat.min_l by done.
  by rewrite take_name_array, Hu.
Qed.

Lemma parent_of_Ok t path p name len : Forall component_ok (components path) →
  parent_of t path = Ok (p, (name, len)) →
  ∃ n, component_ok n ∧ (length n ≤ 32)%nat ∧ name = name_array n ∧ len = Z.of_nat (length n) ∧
    locates (dirent t) path p n.
Proof.
  intros Hok. unfold parent_of, locates. destruct (is_root path); [done|].
  destruct (components path) as [|pending cs]; [done|].
  destruct (parent_walk t InodeId_ROOT pending cs) as [[p' n]|] eqn:E; cbn [mbind result_bind]; [|done].
  destruct (Nat.ltb_spec QFS_NAME_BYTES (length n)) as [|Hl]; [done|]. intros [= <- <- <-].
  apply parent_walk_ns in E as (cs0 & Hc & Hw). rewrite Hc in *. exists n.
  apply Forall_app in Hok as [_ Hn]. rewrite Forall_singleton in Hn. do 4 (split; [done|]). by exists cs0.
Qed.

Lemma new_entry_slot_Ok t p n c slot : (length n ≤ 32)%nat → utf8_valid n = true →
  new_entry_slot t p (name_array n) (Z.of_nat (length n)) c = Ok slot →
  ∃ r, QfsState.inode_by_id t p = Some r ∧ QfsState.is_directory r = true ∧ may_write r c = true ∧
    QfsState.child_by_name t p n = None ∧ t !! slot = Some None.
Proof.
  intros Hl Hu. unfold new_entry_slot. destruct (QfsState.inode_by_id t p) as [r|]; cbn; [|done].
  destruct (QfsState.is_directory r) eqn:Ed; cbn; [|done].
  destruct (may_write r c) eqn:Ew; cbn; [|done].
  rewrite Nat2Z.id, take_name_array by done. unfold from_utf8_or_empty. rewrite Hu.
  case_bool_decide as Hc; [done|]. destruct (QfsState.free_inode_slot t) as [i|] eqn:Ef; cbn; [|done].
  intros [= <-]. exists r. split_and!; [done..| |by apply free_inode_slot_Some].
  destruct (QfsState.child_by_name t p n); [|done]. by destruct Hc.
Qed.

Lemma named_slot_Ok t r c slot i : shape_ok (shape t) → t !! i = Some (Some r) →
  named_slot t r c = Ok slot →
  slot = i ∧ ∃ p, QfsState.inode_by_id t r.(QfsInodeRecord.parent_inode) = Some p ∧ may_write p c = true.
Proof.
  intros Hs Hi. unfold named_slot.
  destruct (QfsState.inode_by_id t (QfsInodeRecord.parent_inode r)) as [p|]; cbn; [|done].
  destruct (may_write p c) eqn:Ew; cbn; [|done].
  rewrite (proj2 (child_by_name_unique t i r Hs Hi)). cbn. intros [= <-]. split; [done|by exists p].
Qed.

Lemma rename_slot_Ok t r p n c slot u i : shape_ok (shape t) → t !! i = Some (Some r) →
  (length n ≤ 32)%nat → utf8_valid n = true →
  rename_slot t r p (name_array n) (Z.of_nat (length n)) c = Ok (slot, u) →
  slot = i ∧ u = r ∧
  (∃ q, QfsState.inode_by_id t r.(QfsInodeRecord.parent_inode) = Some q ∧ may_write q c = true) ∧
  (∃ q, QfsState.inode_by_id t p = Some q ∧ QfsState.is_directory q = true ∧ may_write q c = true) ∧
  QfsState.child_by_name t p n = None.
Proof.
  intros Hs Hi Hl Hu. unfold rename_slot.
  destruct (QfsState.inode_by_id t (QfsInodeRecord.parent_inode r)) as [q|]; cbn; [|done].
  destruct (QfsState.inode_by_id t p) as [q'|]; cbn; [|done].
  destruct (QfsState.is_directory q') eqn:Ed; cbn; [|done].
  destruct (may_write q c) eqn:Ew; cbn; [|done]. destruct (may_write q' c) eqn:Ew'; cbn; [|done].
  rewrite Nat2Z.id, take_name_array by done. unfold from_utf8_or_empty. rewrite Hu.
  case_bool_decide as Hc; [done|].
  rewrite (proj2 (child_by_name_unique t i r Hs Hi)). cbn. rewrite Hi. cbn. intros [= <- <-].
  split_and!; [done..|by exists q|by exists q'|].
  destruct (QfsState.child_by_name t p n); [|done]. by destruct Hc.
Qed.

(** ** Link counts *)
Definition slot_is (ino : Z) (o : option QfsInodeRecord.t) : nat :=
  match o with Some r => if QfsState.has_id ino r then 1 else 0 | None => 0 end.
(** the number of names of an inode *)
Definition names_of (ino : Z) (t : QfsState.table) : nat := sum_list_with (slot_is ino) t.

Lemma link_count_names t ino : (length t ≤ 32)%nat →
  QfsState.link_count t ino = Z.of_nat (names_of ino t).
Proof.
  intros Hl. unfold QfsState.link_count.
  assert (∀ (n0 : nat), (n0 + length t ≤ 32)%nat →
    foldl (QfsState.link_step ino) (Z.of_nat n0) t = Z.of_nat (n0 + names_of ino t)) as H.
  { clear Hl. induction t as [|o t IH]; intros n0 Hn; cbn.
    { f_equal. unfold names_of. cbn. lia. }
    cbn in Hn. unfold names_of. cbn [sum_list_with].
    assert (QfsState.link_step ino (Z.of_nat n0) o = Z.of_nat (n0 + slot_is ino o)) as ->.
    { unfold QfsState.link_step, slot_is. destruct o as [r|]; [|f_equal; lia].
      destruct (QfsState.has_id ino r); [|f_equal; lia]. unfold sat_add, umax. lia. }
    rewrite IH.
    - f_equal. unfold names_of. lia.
    - unfold slot_is. repeat case_match; lia. }
  apply (H 0%nat). lia.
Qed.

Lemma names_of_insert ino t i o o' : t !! i = Some o →
  (names_of ino (<[i := o']> t) + slot_is ino o = names_of ino t + slot_is ino o')%nat.
Proof.
  revert i. induction t as [|x t IH]; intros i; [done|]. destruct i as [|i]; cbn -[slot_is names_of].
  - intros [= ->]. unfold names_of. cbn -[slot_is]. lia.
  - intros H. specialize (IH _ H). unfold names_of in *. cbn -[slot_is].
    rewrite <-!Nat.add_assoc. f_equal. exact IH.
Qed.

Lemma names_of_each ino t f : (∀ r, (f r).(QfsInodeRecord.inode) = r.(QfsInodeRecord.inode)) →
  names_of ino (QfsState.each_record f t) = names_of ino t.
Proof.
  intros Hf. unfold names_of, QfsState.each_record. induction t as [|[r|] t IH]; cbn; [done| |done].
  rewrite IH. unfold QfsState.has_id. by rewrite Hf.
Qed.

Lemma names_of_pos t i r : t !! i = Some (Some r) → (0 < names_of r.(QfsInodeRecord.inode) t)%nat.
Proof.
  intros Hi. pose proof (names_of_insert r.(QfsInodeRecord.inode) t i (Some r) None Hi) as H.
  cbn in H. unfold QfsState.has_id in H. rewrite Z.eqb_refl in H. lia.
Qed.

Lemma names_of_fresh ino t : (∀ i r, t !! i = Some (Some r) → r.(QfsInodeRecord.inode) ≠ ino) →
  names_of ino t = 0%nat.
Proof.
  unfold names_of. induction t as [|o t IH]; intros H; cbn; [done|].
  rewrite IH by (intros i r Hi; apply (H (S i) r Hi)). destruct o as [r|]; cbn; [|done].
  unfold QfsState.has_id. rewrite (proj2 (Z.eqb_neq _ _)); [done|]. by apply (H 0%nat).
Qed.

(** ** The invariant of the table *)
Record table_ok (t : QfsState.table) : Prop := {
  ok_length : length t = 32%nat;
  ok_shape : shape_ok (shape t);
  ok_links : ∀ i r, t !! i = Some (Some r) →
    r.(QfsInodeRecord.links) = Z.of_nat (names_of r.(QfsInodeRecord.inode) t);
  ok_typed : ∀ i r, t !! i = Some (Some r) → inode_ok r ∧ r.(QfsInodeRecord.inode) ≠ 0
}.

(** a change to records that leaves names, kinds and link counts alone *)
Lemma table_ok_each t f : table_ok t →
  (∀ r, entry_of (f r) = entry_of r ∧ (f r).(QfsInodeRecord.links) = r.(QfsInodeRecord.links)) →
  (∀ r, inode_ok r → inode_ok (f r)) → table_ok (QfsState.each_record f t).
Proof.
  intros [Hl Hs Hk Ht] Hf Hok.
  assert (∀ r, (f r).(QfsInodeRecord.inode) = r.(QfsInodeRecord.inode)) as Hi.
  { intros r. destruct (Hf r) as [H _]. by injection H. }
  assert (∀ i r, QfsState.each_record f t !! i = Some (Some r) → ∃ r0, t !! i = Some (Some r0) ∧ r = f r0) as Hlk.
  { intros i r. unfold QfsState.each_record. rewrite list_lookup_fmap.
    destruct (t !! i) as [[r0|]|]; cbn; try done. intros [= <-]. by exists r0. }
  split.
  - unfold QfsState.each_record. by rewrite length_fmap.
  - rewrite shape_each; [done|]. intros r. by destruct (Hf r).
  - intros i r (r0 & H0 & ->)%Hlk. destruct (Hf r0) as [_ ->]. rewrite Hi, names_of_each by done. by eapply Hk.
  - intros i r (r0 & H0 & ->)%Hlk. destruct (Ht _ _ H0). split; [by apply Hok|by rewrite Hi].
Qed.

(** widths of the fields of a changed record *)
Ltac all_fit :=
  decompose_Forall_hyps;
  repeat (apply Forall_cons; split; [first [assumption|by apply fits_b]|]); apply Forall_nil_2.

Lemma mark_ok r tid : fits 8 tid → inode_ok r → inode_ok (QfsInodeRecord.mark_mutation tid r).
Proof.
  intros Htid [H8 ? H2 ? ? ? ? ? ? ? ?]. split; try done; cbn in *; all_fit.
Qed.

Lemma table_ok_marked t tid : fits 8 tid → table_ok t →
  table_ok (QfsState.each_record (QfsInodeRecord.mark_mutation tid) t).
Proof. intros Htid Ht. apply table_ok_each; [done|done|]. intros r. by apply mark_ok. Qed.

(** ** Well-typed arguments *)
Lemma utf8_bytes n : utf8_valid n = true → bytes_ok n.
Proof.
  assert (∀ k n, (length n ≤ k)%nat → utf8_valid n = true → bytes_ok n) as H; [|by apply (H (length n))].
  clear n. assert (∀ lo hi b, 0 <= lo → hi < 256 → between lo hi b = true → 0 <= b < 2 ^ 8) as Hb.
  { intros lo hi b Hlo Hhi. unfold between. rewrite andb_true_iff, !Z.leb_le. lia. }
  assert (∀ b, cont b = true → 0 <= b < 2 ^ 8) as Hc by (intros b; by apply Hb).
  induction k as [|k IH]; intros n Hk Hn; [destruct n; [constructor|cbn in Hk; lia]|].
  destruct n as [|b0 n]; [constructor|]. cbn [utf8_valid] in Hn. cbn in Hk.
  destruct (between 0 127 b0) eqn:E0.
  { constructor; [by apply (Hb 0 127)|apply IH; [lia|done]]. }
  destruct n as [|b1 n]; [done|]. cbn in Hk. destruct (between 194 223 b0) eqn:E1.
  { apply andb_true_iff in Hn as [H1 H2]. constructor; [by apply (Hb 194 223)|].
    constructor; [by apply Hc|apply IH; [lia|done]]. }
  destruct n as [|b2 n]; [done|]. cbn in Hk. destruct (between 224 239 b0) eqn:E2.
  { rewrite !andb_true_iff in Hn. destruct Hn as [[H1 H2] H3]. constructor; [by apply (Hb 224 239)|].
    constructor; [|constructor; [by apply Hc|apply IH; [lia|done]]].
    repeat case_match; [by eapply Hb, H1|by eapply Hb, H1|by apply Hc]. }
  destruct n as [|b3 n]; [done|]. cbn in Hk.
  rewrite !andb_true_iff in Hn. destruct Hn as [[[[H0 H1] H2] H3] H4].
  constructor; [by apply (Hb 240 244)|].
  constructor; [|constructor; [by apply Hc|constructor; [by apply Hc|apply IH; [lia|done]]]].
  repeat case_match; [by eapply Hb, H1|by eapply Hb, H1|by apply Hc].
Qed.

Lemma name_array_ok n : (length n ≤ 32)%nat → utf8_valid n = true →
  length (name_array n) = 32%nat ∧ bytes_ok (name_array n).
Proof.
  intros Hl Hu. split; [by apply length_name_array|]. apply bytes_ok_write; [by apply utf8_bytes|].
  apply zeros_ok.
Qed.

Definition cred_ok (c : FsCredentials.t) : Prop :=
  fits 2 c.(FsCredentials.uid) ∧ fits 2 c.(FsCredentials.gid).

Lemma empty_extents_ok : Forall extent_ok (replicate 2 QfsExtentRecord.empty).
Proof. apply Forall_replicate. do 3 (split; [by apply fits_b|]). by apply fits_b. Qed.

Lemma new_record_ok ino p kind n mode c size len data :
  fits 8 ino → fits 8 p → (length n ≤ 32)%nat → utf8_valid n = true → fits 2 mode → cred_ok c →
  fits 8 size → fits 2 len → length data = 76%nat → bytes_ok data →
  inode_ok (new_record ino p kind (name_array n) (Z.of_nat (length n)) mode c size len data).
Proof.
  intros Hi Hp Hl Hu Hm [Hc1 Hc2] Hs Hn Hd Hb. destruct (name_array_ok n Hl Hu) as [Ha1 Ha2].
  apply refresh_ok.
  assert (fits 1 (encode_inode_kind kind)) by (destruct kind; by apply fits_b).
  assert (fits 1 (Z.of_nat (length n))) by (unfold fits; lia).
  split; cbn; try done; try all_fit.
  - exact empty_extents_ok.
  - split_and!; [exact (zeros_ok 16)..|done|done].
Qed.

(** ** Updates keep the invariant *)
Lemma entry_of_set_links l r : entry_of (QfsState.set_links l r) = entry_of r.
Proof. done. Qed.

Lemma set_links_ok l r : fits 2 l → inode_ok r → inode_ok (QfsState.set_links l r).
Proof. intros Hl [? ? H2 ? ? ? ? ? ? ? ?]. split; try done; cbn in *; all_fit. Qed.

Lemma names_of_le ino t : (names_of ino t ≤ length t)%nat.
Proof.
  unfold names_of. induction t as [|o t IH]; cbn -[slot_is]; [done|].
  assert (slot_is ino o ≤ 1)%nat by (unfold slot_is; repeat case_match; lia). lia.
Qed.

(** giving every record of an inode its number of names restores the counts *)
Lemma table_ok_relink t ino n :
  n = Z.of_nat (names_of ino t) → length t = 32%nat → shape_ok (shape t) →
  (∀ i r, t !! i = Some (Some r) → r.(QfsInodeRecord.inode) ≠ ino →
     r.(QfsInodeRecord.links) = Z.of_nat (names_of r.(QfsInodeRecord.inode) t)) →
  (∀ i r, t !! i = Some (Some r) → inode_ok r ∧ r.(QfsInodeRecord.inode) ≠ 0) →
  table_ok (QfsState.set_link_count ino n t).
Proof.
  intros En Hl Hs Hk Ht. unfold QfsState.set_link_count, QfsState.update_inode. set (f := λ r, _).
  assert (∀ r, entry_of (f r) = entry_of r) as Hf by (intros r; unfold f; by case_match).
  assert (∀ r, (f r).(QfsInodeRecord.inode) = r.(QfsInodeRecord.inode)) as Hi
    by (intros r; unfold f; by case_match).
  assert (fits 2 n) as Hn by (pose proof (names_of_le ino t); unfold fits; lia).
  assert (∀ i r, QfsState.each_record f t !! i = Some (Some r) → ∃ r0, t !! i = Some (Some r0) ∧ r = f r0) as Hlk.
  { intros i r. unfold QfsState.each_record. rewrite list_lookup_fmap.
    destruct (t !! i) as [[r0|]|]; cbn; try done. intros [= <-]. by exists r0. }
  split.
  - unfold QfsState.each_record. by rewrite length_fmap.
  - by rewrite shape_each.
  - intros i r (r0 & H0 & ->)%Hlk. rewrite Hi, names_of_each by done. unfold f, QfsState.has_id.
    destruct (Z.eqb_spec (QfsInodeRecord.inode r0) ino) as [->|Hne]; [done|]. by eapply Hk.
  - intros i r (r0 & H0 & ->)%Hlk. rewrite Hi. destruct (Ht _ _ H0). split; [|done].
    unfold f. case_match; [by apply set_links_ok|done].
Qed.

Lemma length_shape t : length (shape t) = length t.
Proof. apply length_fmap. Qed.

Lemma shape_free t i : t !! i = Some None → shape t !! i = Some None.
Proof. intros H. unfold shape. by rewrite list_lookup_fmap, H. Qed.

(** the parent directory, as an entry *)
Lemma parent_entry t p r : QfsState.inode_by_id t p = Some r → QfsState.is_directory r = true →
  ∃ k e, has (shape t) k e ∧ e.(e_inode) = p ∧ e.(e_dir) = true.
Proof. intros (k & Hk & _ & <-)%inode_by_id_Some Hd. by exists k, (entry_of r). Qed.

(** a new name for a new or existing inode keeps the shape *)
Lemma shape_new t slot r q : shape_ok (shape t) → t !! slot = Some None →
  component_ok (QfsInodeRecord.name r) →
  QfsState.inode_by_id t r.(QfsInodeRecord.parent_inode) = Some q → QfsState.is_directory q = true →
  QfsState.child_by_name t r.(QfsInodeRecord.parent_inode) (QfsInodeRecord.name r) = None →
  (∀ i a, t !! i = Some (Some a) → a.(QfsInodeRecord.inode) = r.(QfsInodeRecord.inode) →
     QfsState.is_directory a = false ∧ QfsState.is_directory r = false) →
  shape_ok (shape (<[slot := Some r]> t)).
Proof.
  intros Hs Hf Hc Hq Hd Hn Hi. rewrite shape_insert_Some. apply shape_insert; try done.
  - by apply shape_free.
  - by eapply parent_entry.
  - intros j a Ha Hp. by eapply child_by_name_None.
  - intros j a (r' & Hr' & ->)%has_shape_inv Hij. by eapply Hi.
Qed.

(** a new inode *)
Lemma table_ok_new t slot r q : table_ok t → t !! slot = Some None →
  component_ok (QfsInodeRecord.name r) →
  QfsState.inode_by_id t r.(QfsInodeRecord.parent_inode) = Some q → QfsState.is_directory q = true →
  QfsState.child_by_name t r.(QfsInodeRecord.parent_inode) (QfsInodeRecord.name r) = None →
  (∀ i a, t !! i = Some (Some a) → a.(QfsInodeRecord.inode) ≠ r.(QfsInodeRecord.inode)) →
  r.(QfsInodeRecord.links) = 1 → inode_ok r → r.(QfsInodeRecord.inode) ≠ 0 →
  table_ok (<[slot := Some r]> t).
Proof.
  intros [Hl Hs Hk Ht] Hf Hc Hq Hd Hn Hi Hlinks Hok Hne.
  assert (slot < length t)%nat as Hlt by (by eapply lookup_lt_Some). split.
  - by rewrite length_insert.
  - eapply shape_new; try done. intros i a Ha Heq. by destruct (Hi _ _ Ha).
  - intros i a Ha. pose proof (names_of_insert a.(QfsInodeRecord.inode) t slot None (Some r) Hf) as Hcnt.
    cbn in Hcnt. destruct (decide (i = slot)) as [->|Hne'].
    + rewrite list_lookup_insert_eq in Ha by done. injection Ha as <-.
      rewrite (names_of_fresh (QfsInodeRecord.inode r) t Hi) in Hcnt. unfold QfsState.has_id in Hcnt.
      rewrite Z.eqb_refl in Hcnt. rewrite Hlinks. lia.
    + rewrite list_lookup_insert_ne in Ha by done. unfold QfsState.has_id in Hcnt.
      rewrite (proj2 (Z.eqb_neq _ _)) in Hcnt by (intros E; by apply (Hi _ _ Ha)).
      rewrite (Hk _ _ Ha). lia.
  - intros i a Ha. destruct (decide (i = slot)) as [->|Hne'].
    + rewrite list_lookup_insert_eq in Ha by done. by injection Ha as <-.
    + rewrite list_lookup_insert_ne in Ha by done. by eapply Ht.
Qed.

(** directories have one name *)
Lemma dir_unique t i j a b : shape_ok (shape t) → t !! i = Some (Some a) → t !! j = Some (Some b) →
  a.(QfsInodeRecord.inode) = b.(QfsInodeRecord.inode) → QfsState.is_directory a = true → i = j ∧ a = b.
Proof.
  intros Hs Ha Hb Heq Hd.
  destruct (s_inodes _ Hs i j (entry_of a) (entry_of b)) as [->|[H _]]; [by apply has_shape..|done| |].
  - rewrite Ha in Hb. by injection Hb as <-.
  - cbn in H. congruence.
Qed.

(** removing a name, before the link counts are adjusted *)
Lemma removed_counts t i r j a : t !! i = Some (Some r) → <[i := None]> t !! j = Some (Some a) →
  a.(QfsInodeRecord.inode) ≠ r.(QfsInodeRecord.inode) →
  t !! j = Some (Some a) ∧ names_of a.(QfsInodeRecord.inode) (<[i := None]> t) = names_of a.(QfsInodeRecord.inode) t.
Proof.
  intros Hi Hj Hne. assert (i < length t)%nat by (by eapply lookup_lt_Some).
  pose proof (names_of_insert a.(QfsInodeRecord.inode) t i (Some r) None Hi) as Hc. cbn in Hc.
  unfold QfsState.has_id in Hc. rewrite (proj2 (Z.eqb_neq _ _)) in Hc by congruence.
  destruct (decide (j = i)) as [->|Hji].
  - by rewrite list_lookup_insert_eq in Hj by done.
  - rewrite list_lookup_insert_ne in Hj by done. split; [done|lia].
Qed.

(** ** What the updates do *)
(** the caller may change the entries of a directory *)
Definition allowed (t : QfsState.table) (p : Z) (c : FsCredentials.t) : Prop :=
  ∃ r, QfsState.inode_by_id t p = Some r ∧ QfsState.is_directory r = true ∧ may_write r c = true.

Definition ns_eq (N N' : namespace) : Prop := ∀ p n, N p n = N' p n.

(** a name is added for an inode *)
Definition adds (path : list Z) (i : Z) (N N' : namespace) (may : Z → Prop) : Prop :=
  ∃ p n, locates N path p n ∧ may p ∧ N p n = None ∧ ns_eq N' (update_ns N p n (Some i)).
(** the name a path leads to is removed *)
Definition removes (path : list Z) (N N' : namespace) (may : Z → Prop) : Prop :=
  ∃ p n i, locates N path p n ∧ may p ∧ N p n = Some i ∧ ns_eq N' (update_ns N p n None).
Definition unused (N : namespace) (i : Z) : Prop := ∀ p n, N p n ≠ Some i.

Lemma dirent_unused t i : (∀ k a, t !! k = Some (Some a) → a.(QfsInodeRecord.inode) ≠ i) → unused (dirent t) i.
Proof.
  intros H p n. unfold dirent. destruct (QfsState.child_by_name t p n) as [r|] eqn:E; cbn; [|done].
  apply child_by_name_Some in E as (k & Hk & _). intros [= He]. by apply (H k r).
Qed.

(** a record for a new inode in the place a path names *)
Lemma create_effect t path c p name len slot r :
  table_ok t → QfsState.next_inode_id t < umax 64 → Forall component_ok (components path) →
  parent_of t path = Ok (p, (name, len)) → new_entry_slot t p name len c = Ok slot →
  r.(QfsInodeRecord.inode) = QfsState.next_inode_id t → r.(QfsInodeRecord.parent_inode) = p →
  r.(QfsInodeRecord.name_bytes) = name → r.(QfsInodeRecord.name_len) = len →
  r.(QfsInodeRecord.links) = 1 →
  ((∃ n, (length n ≤ 32)%nat ∧ utf8_valid n = true ∧ name = name_array n ∧ len = Z.of_nat (length n)) →
   fits 8 p → inode_ok r) →
  table_ok (<[slot := Some r]> t) ∧
  adds path (QfsState.next_inode_id t) (dirent t) (dirent (<[slot := Some r]> t)) (λ p, allowed t p c) ∧
  unused (dirent t) (QfsState.next_inode_id t).
Proof.
  intros Ht Hmax Hpath Hp Hslot Hri Hrp Hrn Hrl Hlinks Hok.
  destruct (parent_of_Ok _ _ _ _ _ Hpath Hp) as (n & Hn & Hlen & -> & -> & Hloc).
  destruct Hn as (Hn1 & Hn2 & Hn3 & Hu).
  destruct (new_entry_slot_Ok _ _ _ _ _ Hlen Hu Hslot) as (q & Hq & Hd & Hw & Hnone & Hfree).
  assert (QfsInodeRecord.name r = n) as Hname by (by apply name_of_array).
  assert (∀ i a, t !! i = Some (Some a) → a.(QfsInodeRecord.inode) ≠ QfsState.next_inode_id t) as Hfresh.
  { intros i a Ha. pose proof (next_inode_fresh t i a Hmax Ha). lia. }
  pose proof Hq as (k & _ & Hk & Hqp)%inode_by_id_Some.
  assert (fits 8 p) as Hfp.
  { destruct (ok_typed _ Ht _ _ Hk) as [Hqok _]. pose proof (in_u64 _ Hqok) as H8. rewrite Hqp in H8.
    rewrite !Forall_cons in H8. by destruct H8 as (? & _). }
  assert (table_ok (<[slot := Some r]> t)) as Ht0.
  { eapply (table_ok_new t slot r q); rewrite ?Hri, ?Hrp, ?Hname; try done.
    - apply Hok; [|done]. by exists n.
    - pose proof (next_inode_pos t). lia. }
  split; [done|]. split; [|by apply dirent_unused].
  exists p, n. split; [done|]. split; [by exists q|]. split; [unfold dirent; by rewrite Hnone|].
  intros a b. rewrite dirent_insert by (done || by apply ok_shape). by rewrite Hri, Hrp, Hname.
Qed.

Lemma next_inode_fits t : QfsState.next_inode_id t < umax 64 → fits 8 (QfsState.next_inode_id t).
Proof. intros H. pose proof (next_inode_pos t). unfold fits, umax in *. lia. Qed.

Lemma mkdir_effect t t0 path mode c :
  table_ok t → QfsState.next_inode_id t < umax 64 → Forall component_ok (components path) →
  fits 2 mode.(Permissions.bits) → cred_ok c → mkdir_update path mode c t t0 →
  table_ok t0 ∧ ∃ i, unused (dirent t) i ∧ adds path i (dirent t) (dirent t0) (λ p, allowed t p c).
Proof.
  intros Ht Hmax Hpath Hm Hc (p & name & len & slot & Hp & Hs & ->).
  destruct (create_effect t path c p name len slot (new_record (QfsState.next_inode_id t) p
    InodeKind.Directory name len mode.(Permissions.bits) c 0 0 (replicate QFS_INLINE_DATA_BYTES 0)))
    as (H1 & H2 & H3); try done.
  - intros (n & Hl & Hu & -> & ->) Hfp. apply new_record_ok; try done; try (by apply fits_b).
    + by apply next_inode_fits.
    + apply zeros_ok.
  - split; [done|]. by exists (QfsState.next_inode_id t).
Qed.

Lemma symlink_effect t t0 target path c :
  table_ok t → QfsState.next_inode_id t < umax 64 → Forall component_ok (components path) →
  bytes_ok target → fits 8 (Z.of_nat (length target)) → cred_ok c → symlink_update target path c t t0 →
  table_ok t0 ∧ ∃ i, unused (dirent t) i ∧ adds path i (dirent t) (dirent t0) (λ p, allowed t p c).
Proof.
  intros Ht Hmax Hpath Hb Hlen Hc (p & name & len & slot & Hp & Hs & ->).
  set (n0 := Nat.min (length target) QFS_INLINE_DATA_BYTES).
  assert (n0 ≤ 76)%nat as Hn0 by (unfold n0, QFS_INLINE_DATA_BYTES; lia).
  destruct (create_effect t path c p name len slot (new_record (QfsState.next_inode_id t) p
    InodeKind.Symlink name len 511 c (Z.of_nat (length target)) (Z.of_nat n0)
    (write_at 0 (take n0 target) (replicate QFS_INLINE_DATA_BYTES 0)))) as (H1 & H2 & H3); try done.
  - intros (n & Hl & Hu & -> & ->) Hfp. apply new_record_ok; try done; try (by apply fits_b).
    + by apply next_inode_fits.
    + unfold fits. lia.
    + rewrite length_write_at; [done|]. rewrite length_take, length_replicate.
      unfold QFS_INLINE_DATA_BYTES. lia.
    + apply bytes_ok_write; [by apply Forall_take|apply zeros_ok].
  - split; [done|]. by exists (QfsState.next_inode_id t).
Qed.

(** the directory a record is in *)
Lemma parent_directory t i r q : shape_ok (shape t) → t !! i = Some (Some r) →
  QfsState.inode_by_id t r.(QfsInodeRecord.parent_inode) = Some q → QfsState.is_directory q = true.
Proof.
  intros Hs Hi (k & Hk & Hkt & Hq)%inode_by_id_Some.
  destruct (s_parents _ Hs i _ (has_shape _ _ _ Hi)) as (k' & p & Hk' & Hp1 & Hp2).
  apply has_shape_inv in Hk' as (p' & Hk' & ->). cbn in *.
  destruct (dir_unique t k' k p' q Hs Hk' Hkt) as [_ ->]; [congruence|done|done].
Qed.

(** the root is a directory, and its record is the only one of its inode *)
Lemma root_directory t i r : shape_ok (shape t) → t !! i = Some (Some r) →
  r.(QfsInodeRecord.inode) = InodeId_ROOT → QfsState.is_directory r = true.
Proof.
  intros Hs Hi Hr. destruct (s_root _ Hs) as (k & e & (r' & Hk & ->)%has_shape_inv & H1 & H2). cbn in *.
  destruct (dir_unique t k i r' r Hs Hk Hi) as [_ <-]; [congruence|done|done].
Qed.

Lemma located t path r : QfsState.resolve_inode t path = Ok r →
  r.(QfsInodeRecord.inode) ≠ InodeId_ROOT →
  locates (dirent t) path r.(QfsInodeRecord.parent_inode) (QfsInodeRecord.name r).
Proof. intros [_ [(_ & H & _)|H]]%resolve_ns Hne; done. Qed.

Lemma dirent_at t i r : shape_ok (shape t) → t !! i = Some (Some r) →
  dirent t r.(QfsInodeRecord.parent_inode) (QfsInodeRecord.name r) = Some r.(QfsInodeRecord.inode).
Proof. intros Hs Hi. unfold dirent. by rewrite (proj1 (child_by_name_unique t i r Hs Hi)). Qed.

Lemma rmdir_effect t t0 path c : table_ok t → rmdir_update path c t t0 →
  table_ok t0 ∧ removes path (dirent t) (dirent t0) (λ p, allowed t p c) ∧
  ∃ i, ns_walk (dirent t) InodeId_ROOT (components path) = Some i ∧ ∀ n j, dirent t i n = Some j → j = i.
Proof.
  intros Ht (r & slot & Hr & Hroot & Hd & Hch & Hslot & ->). pose proof (ok_shape _ Ht) as Hs.
  destruct (resolve_Some _ _ _ Hr) as [i Hi].
  destruct (named_slot_Ok t r c slot i Hs Hi Hslot) as (-> & q & Hq & Hw).
  assert (∀ j a, t !! j = Some (Some a) → a.(QfsInodeRecord.parent_inode) = r.(QfsInodeRecord.inode) →
    a.(QfsInodeRecord.inode) = r.(QfsInodeRecord.inode)) as Hnc.
  { intros j a Ha Hpa. destruct (decide (a.(QfsInodeRecord.inode) = r.(QfsInodeRecord.inode))) as [|Hne]; [done|].
    exfalso. apply not_true_iff_false in Hch. apply Hch. apply existsb_exists. exists (Some a).
    split; [by apply list_elem_of_In; eapply list_elem_of_lookup_2|].
    by rewrite Hpa, Z.eqb_refl, (proj2 (Z.eqb_neq _ _) Hne). }
  assert (shape_ok (shape (<[i := None]> t))) as Hs'.
  { rewrite shape_insert_None. apply (shape_remove _ i (entry_of r)); [done|by apply has_shape|done|].
    intros _ j a (a' & Ha & ->)%has_shape_inv. cbn. by apply (Hnc j). }
  split; [split|split].
  - by rewrite length_insert, (ok_length _ Ht).
  - done.
  - intros j a Ha. assert (j ≠ i) as Hji.
    { intros ->. rewrite list_lookup_insert_eq in Ha; [done|]. by eapply lookup_lt_Some. }
    pose proof Ha as Ha'. rewrite list_lookup_insert_ne in Ha' by done.
    destruct (removed_counts t i r j a Hi Ha) as [_ ->]; [|by apply (ok_links _ Ht j)].
    intros Heq. destruct (dir_unique t i j r a Hs Hi Ha' (eq_sym Heq) Hd). congruence.
  - intros j a Ha. destruct (decide (j = i)) as [->|Hji].
    + rewrite list_lookup_insert_eq in Ha; [done|]. by eapply lookup_lt_Some.
    + rewrite list_lookup_insert_ne in Ha by done. by eapply (ok_typed _ Ht).
  - exists r.(QfsInodeRecord.parent_inode), (QfsInodeRecord.name r), r.(QfsInodeRecord.inode).
    split; [by apply located|]. split; [|split; [by eapply dirent_at|by intros ? ?; apply dirent_remove]].
    exists q. split; [done|]. split; [by apply (parent_directory t i r)|done].
  - exists r.(QfsInodeRecord.inode). split; [by apply resolve_ns|]. intros n j.
    intros (k & e & (a & Ha & ->)%has_shape_inv & Hp & Hn & <-)%dirent_Some; [|done]. by apply (Hnc k a).
Qed.

Lemma lookup_removed (t : QfsState.table) i j a : <[i := None]> t !! j = Some (Some a) → (i < length t)%nat →
  j ≠ i ∧ t !! j = Some (Some a).
Proof.
  intros Ha Hi. destruct (decide (j = i)) as [->|Hne]; [by rewrite list_lookup_insert_eq in Ha|].
  by rewrite list_lookup_insert_ne in Ha.
Qed.

Lemma shape_set_links ino l t : shape (QfsState.set_link_count ino l t) = shape t.
Proof. apply shape_each. intros r. unfold QfsState.set_links. by case_match. Qed.

Lemma unlink_effect t t0 path c : table_ok t → unlink_update path c t t0 →
  table_ok t0 ∧ removes path (dirent t) (dirent t0) (λ p, allowed t p c).
Proof.
  intros Ht (r & slot & Hr & Hd & Hslot & ->). pose proof (ok_shape _ Ht) as Hs.
  destruct (resolve_Some _ _ _ Hr) as [i Hi]. assert (i < length t)%nat as Hlt by (by eapply lookup_lt_Some).
  destruct (named_slot_Ok t r c slot i Hs Hi Hslot) as (-> & q & Hq & Hw).
  assert (r.(QfsInodeRecord.inode) ≠ InodeId_ROOT) as Hroot.
  { intros Hroot. rewrite (root_directory t i r Hs Hi Hroot) in Hd. done. }
  assert (shape_ok (shape (<[i := None]> t))) as Hs'.
  { rewrite shape_insert_None. apply (shape_remove _ i (entry_of r)); [done|by apply has_shape|done|].
    cbn. congruence. }
  rewrite link_count_names by (rewrite length_insert, (ok_length _ Ht); lia). split.
  - apply table_ok_relink; [done|by rewrite length_insert, (ok_length _ Ht)|done| |].
    + intros j a Ha Hne. destruct (removed_counts t i r j a Hi Ha Hne) as [Ha' ->].
      by apply (ok_links _ Ht j).
    + intros j a [_ Ha]%lookup_removed; [|done]. by apply (ok_typed _ Ht j).
  - exists r.(QfsInodeRecord.parent_inode), (QfsInodeRecord.name r), r.(QfsInodeRecord.inode).
    split; [by apply located|]. split; [|split; [by apply (dirent_at t i)|]].
    + exists q. split; [done|]. split; [by apply (parent_directory t i r)|done].
    + intros p n. rewrite (dirent_shape _ (<[i := None]> t)) by apply shape_set_links. by apply dirent_remove.
Qed.

(** a name moves to another place, for the same inode *)
Definition moves (old_path new_path : list Z) (N N' : namespace) (may : Z → Prop) : Prop :=
  ∃ p n i p' n', N p n = Some i ∧ may p ∧
    (locates N old_path p n ∨ components old_path = [] ∧ i = InodeId_ROOT) ∧
    locates N new_path p' n' ∧ may p' ∧ N p' n' = None ∧
    ns_eq N' (update_ns (update_ns N p n None) p' n' (Some i)).

Lemma set_place_ok p n r : fits 8 p → (length n ≤ 32)%nat → utf8_valid n = true → inode_ok r →
  inode_ok (QfsInodeRecord.refresh_path_identity
    (QfsInodeRecord.set_place p (name_array n) (Z.of_nat (length n)) r)).
Proof.
  intros Hp Hl Hu [H8 ? ? H1 ? ? ? ? ? ? (Hb1 & Hb2 & _ & Hb4)]. destruct (name_array_ok n Hl Hu) as [? ?].
  assert (fits 1 (Z.of_nat (length n))) by (unfold fits; lia).
  apply refresh_ok. split; try done; cbn in *; all_fit.
Qed.

Lemma inode_fits t p q : table_ok t → QfsState.inode_by_id t p = Some q → fits 8 p.
Proof.
  intros Ht (k & _ & Hk & Hqp)%inode_by_id_Some. destruct (ok_typed _ Ht _ _ Hk) as [Hqok _].
  pose proof (in_u64 _ Hqok) as H8. rewrite Hqp in H8. rewrite !Forall_cons in H8. by destruct H8 as (? & _).
Qed.

(** replacing a record by one of the same inode and link count keeps the counts *)
Lemma counts_replace t i r r' : table_ok t → t !! i = Some (Some r) →
  r'.(QfsInodeRecord.inode) = r.(QfsInodeRecord.inode) →
  r'.(QfsInodeRecord.links) = r.(QfsInodeRecord.links) → inode_ok r' →
  shape_ok (shape (<[i := Some r']> t)) → table_ok (<[i := Some r']> t).
Proof.
  intros Ht Hi Hino Hlinks Hok Hs. assert (i < length t)%nat as Hlt by (by eapply lookup_lt_Some).
  assert (∀ x, names_of x (<[i := Some r']> t) = names_of x t) as Hn.
  { intros x. pose proof (names_of_insert x t i (Some r) (Some r') Hi) as H. cbn in H.
    unfold QfsState.has_id in H. rewrite Hino in H. lia. }
  assert (∀ j a, <[i := Some r']> t !! j = Some (Some a) → j = i ∧ a = r' ∨ t !! j = Some (Some a)) as Hlk.
  { intros j a Ha. destruct (decide (j = i)) as [->|Hne]; [left|right].
    - rewrite list_lookup_insert_eq in Ha by done. by injection Ha as <-.
    - by rewrite list_lookup_insert_ne in Ha. }
  split; [by rewrite length_insert, (ok_length _ Ht)|done| |].
  - intros j a [[-> ->]|Ha]%Hlk; rewrite Hn; [|by apply (ok_links _ Ht j)].
    rewrite Hino, Hlinks. by apply (ok_links _ Ht i).
  - intros j a [[-> ->]|Ha]%Hlk; [|by apply (ok_typed _ Ht j)]. split; [done|].
    rewrite Hino. by apply (ok_typed _ Ht i).
Qed.

Lemma rename_effect t t0 old_path new_path c :
  table_ok t → Forall component_ok (components new_path) → rename_update old_path new_path c t t0 →
  table_ok t0 ∧ moves old_path new_path (dirent t) (dirent t0) (λ p, allowed t p c).
Proof.
  intros Ht Hpath (r & p & name & len & slot & u & Hr & Hp & Hs & ->).
  pose proof (ok_shape _ Ht) as Hsh. destruct (resolve_Some _ _ _ Hr) as [i Hi].
  destruct (parent_of_Ok _ _ _ _ _ Hpath Hp) as (n & Hn & Hlen & -> & -> & Hloc).
  pose proof Hn as (_ & _ & _ & Hu).
  destruct (rename_slot_Ok t r p n c slot u i Hsh Hi Hlen Hu Hs)
    as (-> & -> & (q1 & Hq1 & Hw1) & (q2 & Hq2 & Hd2 & Hw2) & Hnone).
  set (r' := QfsInodeRecord.refresh_path_identity _).
  assert (QfsInodeRecord.name r' = n) as Hname by (by apply name_of_array).
  assert (shape_ok (shape (<[i := Some r']> t))) as Hs'.
  { rewrite shape_insert_Some.
    replace (entry_of r') with (mk_entry (entry_of r).(e_inode) p n (entry_of r).(e_dir))
      by (unfold entry_of at 3; by rewrite Hname).
    apply shape_move; [done|by apply has_shape|done|by eapply parent_entry|].
    intros j a Ha Hpa. by eapply child_by_name_None. }
  split.
  - eapply counts_replace; try done. apply set_place_ok; try done; [by eapply inode_fits|].
    by apply (ok_typed _ Ht i).
  - exists r.(QfsInodeRecord.parent_inode), (QfsInodeRecord.name r), r.(QfsInodeRecord.inode), p, n.
    split; [by apply (dirent_at t i)|]. split.
    { exists q1. split; [done|]. split; [by apply (parent_directory t i r)|done]. }
    split; [apply resolve_ns in Hr as [_ [(? & ? & _)|?]]; auto|]. split; [done|].
    split; [by exists q2|]. split; [unfold dirent; by rewrite Hnone|].
    intros a b. rewrite (dirent_move t i r r') by done. by rewrite Hname.
Qed.

Lemma link_effect t t0 old_path new_path c :
  table_ok t → Forall component_ok (components new_path) → link_update old_path new_path c t t0 →
  table_ok t0 ∧ ∃ i, ns_walk (dirent t) InodeId_ROOT (components old_path) = Some i ∧
    adds new_path i (dirent t) (dirent t0) (λ p, allowed t p c).
Proof.
  intros Ht Hpath (r & p & name & len & slot & Hr & Hd & Hp & Hs & ->).
  pose proof (ok_shape _ Ht) as Hsh. destruct (resolve_Some _ _ _ Hr) as [i Hi].
  destruct (parent_of_Ok _ _ _ _ _ Hpath Hp) as (n & Hn & Hlen & -> & -> & Hloc).
  pose proof Hn as (_ & _ & _ & Hu).
  destruct (new_entry_slot_Ok _ _ _ _ _ Hlen Hu Hs) as (q & Hq & Hqd & Hw & Hnone & Hfree).
  set (l := sat_add 16 _ 1). set (e := QfsState.set_links l _).
  assert (QfsInodeRecord.name e = n) as Hname by (by apply name_of_array).
  assert (shape_ok (shape (<[slot := Some e]> t))) as Hs'.
  { apply (shape_new t slot e q); rewrite ?Hname; try done. intros j a Ha Heq.
    split; [|done]. destruct (QfsState.is_directory a) eqn:Ea; [|done].
    destruct (dir_unique t j i a r Hsh Ha Hi) as [_ ->]; [done|done|]. congruence. }
  pose proof (names_of_le r.(QfsInodeRecord.inode) t) as Hle. rewrite (ok_length _ Ht) in Hle.
  pose proof (λ x, names_of_insert x t slot None (Some e) Hfree) as Hcnt. cbn in Hcnt.
  assert (l = Z.of_nat (names_of r.(QfsInodeRecord.inode) (<[slot := Some e]> t))) as Hl.
  { unfold l. rewrite link_count_names by (rewrite (ok_length _ Ht); lia).
    specialize (Hcnt r.(QfsInodeRecord.inode)). unfold QfsState.has_id in Hcnt. cbn in Hcnt.
    rewrite Z.eqb_refl in Hcnt. unfold sat_add, umax. lia. }
  assert (fits 2 l) as Hfl.
  { pose proof (names_of_le r.(QfsInodeRecord.inode) (<[slot := Some e]> t)) as H.
    rewrite length_insert, (ok_length _ Ht) in H. unfold fits. lia. }
  assert (∀ j a, <[slot := Some e]> t !! j = Some (Some a) → j = slot ∧ a = e ∨ t !! j = Some (Some a)) as Hlk.
  { intros j a Ha. destruct (decide (j = slot)) as [->|Hne]; [left|right].
    - rewrite list_lookup_insert_eq in Ha by (by eapply lookup_lt_Some). by injection Ha as <-.
    - by rewrite list_lookup_insert_ne in Ha. }
  split.
  - apply table_ok_relink; [done|by rewrite length_insert, (ok_length _ Ht)|done| |].
    + intros j a [[-> ->]|Ha]%Hlk Hne; [done|]. rewrite (ok_links _ Ht j a Ha). f_equal.
      specialize (Hcnt a.(QfsInodeRecord.inode)). unfold QfsState.has_id in Hcnt. cbn in Hcnt.
      rewrite (proj2 (Z.eqb_neq _ _)) in Hcnt by congruence. lia.
    + intros j a [[-> ->]|Ha]%Hlk; [|by apply (ok_typed _ Ht j)]. destruct (ok_typed _ Ht i r Hi).
      split; [|done]. apply set_links_ok; [done|].
      apply set_place_ok; try done. by eapply inode_fits.
  - exists r.(QfsInodeRecord.inode). split; [by apply resolve_ns|]. exists p, n.
    split; [done|]. split; [by exists q|]. split; [unfold dirent; by rewrite Hnone|].
    intros a b. rewrite (dirent_shape _ (<[slot := Some e]> t)) by apply shape_set_links.
    rewrite dirent_insert by done. by rewrite Hname.
Qed.

(** a change of metadata leaves the namespace alone *)
Lemma meta_effect t t0 f path : table_ok t →
  (∀ r0 r, entry_of (f r0 r) = entry_of r ∧ (f r0 r).(QfsInodeRecord.links) = r.(QfsInodeRecord.links)) →
  (∀ r0 r, inode_ok r → inode_ok (f r0 r)) → meta_update f path t t0 →
  table_ok t0 ∧ ns_eq (dirent t0) (dirent t).
Proof.
  intros Ht Hf Hok (r & _ & ->). split.
  - apply table_ok_each; [done| |].
    + intros a. case_match; [apply Hf|done].
    + intros a Ha. case_match; [by apply Hok|done].
  - intros p n. apply dirent_shape, shape_each. intros a. case_match; [apply Hf|done].
Qed.

(** the record of a file changes in place *)
Definition pwrite_update (file : Z) (data : list Z) (offset : Z) (t t0 : QfsState.table) : Prop :=
  ∃ slot r, QfsState.inode_slot_by_id t file = Some slot ∧ t !! slot = Some (Some r) ∧
    QfsState.inode_by_id t file = Some r ∧ QfsState.is_directory r = false ∧
    t0 = <[slot := Some (write_inline r data offset).2]> t.
Definition ftruncate_update (file size : Z) (t t0 : QfsState.table) : Prop :=
  t0 = QfsState.update_inode file (resize size) t.

Lemma max_u64_fits n a b : fits n a → fits n b → fits n (max_u64 a b).
Proof. intros. unfold max_u64. by case_match. Qed.

Lemma write_inline_entry r data offset :
  entry_of (write_inline r data offset).2 = entry_of r ∧
  (write_inline r data offset).2.(QfsInodeRecord.links) = r.(QfsInodeRecord.links).
Proof. unfold write_inline. by case_match. Qed.

Lemma write_inline_ok r data offset : bytes_ok data → fits 8 offset →
  inode_ok r → inode_ok (write_inline r data offset).2.
Proof.
  intros Hd Ho [H8 ? H2 ? ? ? ? ? ? Hlen (Hb1 & Hb2 & Hb3 & Hb4)].
  assert (fits 8 (max_u64 (QfsInodeRecord.size r) (sat_add 64 offset (Z.of_nat (length data))))).
  { apply max_u64_fits; [rewrite !Forall_cons in H8; by destruct H8 as (_ & _ & _ & _ & ? & _)|].
    unfold fits, sat_add, umax in *. lia. }
  unfold write_inline. destruct (Nat.ltb_spec (Z.to_nat offset) QFS_INLINE_DATA_BYTES) as [Hlt|Hge]; cbn [snd].
  - unfold QFS_INLINE_DATA_BYTES in *. set (n := Nat.min (length data) (76 - Z.to_nat offset)).
    assert (n ≤ 76 - Z.to_nat offset)%nat by lia. assert (length (take n data) = n) by (rewrite length_take; lia).
    assert (fits 2 (max_u16 (QfsInodeRecord.inline_data_len r) (Z.of_nat (Z.to_nat offset + n)))).
    { apply max_u64_fits; [|unfold fits; lia]. rewrite !Forall_cons in H2. tauto. }
    split; try done; cbn in *; try all_fit.
    + rewrite length_write_at; lia.
    + split_and!; try done. apply bytes_ok_write; [by apply Forall_take|done].
  - split; try done; cbn in *; all_fit.
Qed.

Lemma resize_entry size r : entry_of (resize size r) = entry_of r ∧
  (resize size r).(QfsInodeRecord.links) = r.(QfsInodeRecord.links).
Proof. done. Qed.

Lemma resize_ok size r : fits 8 size → inode_ok r → inode_ok (resize size r).
Proof.
  intros Hs [H8 ? H2 ? ? ? ? ? ? ? ?].
  assert (fits 2 (Z.min (QfsInodeRecord.inline_data_len r) (Z.min size (Z.of_nat QFS_INLINE_DATA_BYTES)))).
  { rewrite !Forall_cons in H2. assert (fits 2 (QfsInodeRecord.inline_data_len r)) as H' by tauto.
    unfold fits, QFS_INLINE_DATA_BYTES in *. lia. }
  split; try done; cbn in *; all_fit.
Qed.

Lemma pwrite_effect t t0 file data offset : table_ok t → bytes_ok data → fits 8 offset →
  pwrite_update file data offset t t0 → table_ok t0 ∧ ns_eq (dirent t0) (dirent t).
Proof.
  intros Ht Hd Ho (slot & r & _ & Hr & _ & _ & ->). destruct (write_inline_entry r data offset) as [He Hl].
  assert (shape (<[slot := Some (write_inline r data offset).2]> t) = shape t) as Hs.
  { rewrite shape_insert_Some, He. apply list_insert_id. by apply has_shape. }
  split.
  - apply (counts_replace t slot r); try done.
    + by injection He.
    + apply write_inline_ok; try done. by apply (ok_typed _ Ht slot).
    + rewrite Hs. by apply ok_shape.
  - intros p n. by apply dirent_shape.
Qed.

Lemma ftruncate_effect t t0 file size : table_ok t → fits 8 size → ftruncate_update file size t t0 →
  table_ok t0 ∧ ns_eq (dirent t0) (dirent t).
Proof.
  intros Ht Hs ->. split.
  - apply table_ok_each; [done| |].
    + intros a. by case_match.
    + intros a Ha. case_match; [by apply resize_ok|done].
  - intros p n. apply dirent_shape, shape_each. intros a. by case_match.
Qed.

Lemma set_owner_ok m u g r : fits 2 m → fits 2 u → fits 2 g → inode_ok r →
  inode_ok (QfsInodeRecord.set_owner m u g r.(QfsInodeRecord.links) r).
Proof. intros Hm Hu Hg [? ? H2 ? ? ? ? ? ? ? ?]. split; try done; cbn in *; all_fit. Qed.

Lemma land_511_fits m : fits 2 (Z.land m 511).
Proof. change 511 with (Z.ones 9). rewrite Z.land_ones by lia. unfold fits. pose proof (Z.mod_pos_bound m (2 ^ 9)). lia. Qed.
