(* ===== verification/QfsSafety.v ===== *)
(** * The QFS namespace

    What the operations of Qfs do to the table of inode records.  [updates] describes
    an operation: it either fails and leaves the table alone, or applies one update to
    it, after which the transaction marks every record; it can still report a device
    error then, and without a device it cannot.  The updates keep the invariant
    [table_ok] and refine operations on a map from (directory, name) to inodes.  *)

From stdpp Require Import prelude strings.
From S2P Require Import Prelude Bytes Permissions Vfs BlockDevice QfsFormat QfsFormatSafety Qfs QfsTree QfsNamespace.

Local Open Scope Z_scope.

Section frames.
Context {D : Type} `{!BlockStorage D}.
Abbreviation FS := (QfsFileSystem D).
Abbreviation Op := (M FS VfsError.t).

Definition tbl (fs : FS) : QfsState.table := fs.(state).(QfsState.inodes).

(** a state with this table and a transaction counter within its width *)
Definition holds (t : QfsState.table) (st : QfsState.t) : Prop :=
  st.(QfsState.inodes) = t ∧ fits 8 st.(QfsState.next_transaction_id).

(** the table, the read-only flag and whether there is a device *)
Definition frame (t : QfsState.table) (ro dv : bool) (fs : FS) : Prop :=
  holds t fs.(state) ∧ fs.(read_only) = ro ∧ bool_decide (is_Some fs.(block_device)) = dv.

Lemma frame_tbl t ro dv fs : frame t ro dv fs → tbl fs = t.
Proof. by intros ((? & _) & _). Qed.

Abbreviation marked tid t := (QfsState.each_record (QfsInodeRecord.mark_mutation tid) t).

Lemma frame_state t ro dv fs st :
  frame t ro dv fs → holds t st → frame t ro dv (mk_qfs st fs.(read_only) fs.(block_device)).
Proof. intros (_ & ? & ?) ?. by split_and!. Qed.

Lemma keeps_put_state t ro dv st : holds t st → keeps (frame t ro dv) (put_state st : Op unit).
Proof. intros Hst fs Hfs. by apply (frame_state t ro dv). Qed.

Lemma holds_journal t st journal next slot :
  holds t st → fits 8 next → holds t (QfsState.set_journal journal next slot st).
Proof. by intros [? ?] ?. Qed.
Lemma holds_next t st : holds t st → fits 8 (sat_add 64 st.(QfsState.next_transaction_id) 1).
Proof. intros [_ H]. unfold fits, sat_add, umax in *. lia. Qed.
Lemma holds_id t st : holds t st → fits 8 st.(QfsState.next_transaction_id).
Proof. by intros [_ H]. Qed.

Lemma keeps_on_device {A} t ro dv (m : M D VfsError.t A) : keeps (frame t ro dv) (on_device m).
Proof.
  intros fs (Ht & Hr & Hd). unfold on_device. destruct (block_device fs) as [d|] eqn:E;
    [|cbn; split_and!; [done..|by rewrite E]].
  destruct (m d) as [r d']. cbn. by split_and!.
Qed.

Lemma keeps_with_device {A} t ro dv (none m : Op A) :
  keeps (frame t ro dv) none → keeps (frame t ro dv) m → keeps (frame t ro dv) (with_device none m).
Proof.
  intros Hn Hm. apply keeps_bind; [apply keeps_gets|]. intros [d|]; [|done].
  destruct (negb _); [apply keeps_throw|done].
Qed.

Lemma keeps_check_writable t ro dv : keeps (frame t ro dv) (check_writable : Op unit).
Proof. apply keeps_bind; [apply keeps_gets|]. intros []; [apply keeps_throw|apply keeps_ret]. Qed.

(** a step that reads the state and writes back one with the same table *)
Lemma keeps_state_bind {A} t ro dv (k : QfsState.t → Op A) :
  (∀ st, holds t st → keeps (frame t ro dv) (k st)) →
  keeps (frame t ro dv) (gets state ≫= k).
Proof. intros Hk fs Hfs. unfold mbind, M_bind, gets. apply Hk; [|done]. by destruct Hfs. Qed.

Local Hint Resolve keeps_on_device keeps_check_writable keeps_put_state
  holds_journal holds_next holds_id : keeps.

(** Walk through an operation that leaves the frame alone. *)
Ltac keeps_step :=
  cbn zeta;
  lazymatch goal with
  | |- keeps _ (gets state ≫= _) => apply keeps_state_bind; intros
  | |- keeps _ (_ ≫= _) => apply keeps_bind; [|intros]
  | |- keeps _ (with_device _ _) => apply keeps_with_device
  | |- keeps _ (if ?b then _ else _) => destruct b
  | |- keeps _ (match ?x with _ => _ end) => destruct x
  | |- _ => solve [eauto with keeps]
  end.

Lemma keeps_append t ro dv record payload :
  keeps (frame t ro dv) (append_journal_record record payload : Op unit).
Proof. unfold append_journal_record. repeat keeps_step. Qed.
Local Hint Resolve keeps_append : keeps.

Lemma keeps_begin t ro dv : keeps (frame t ro dv) (begin_transaction : Op Z).
Proof. unfold begin_transaction. repeat keeps_step. Qed.

Lemma keeps_journal_write t ro dv tid kind ino sector data :
  keeps (frame t ro dv) (journal_write tid kind ino sector data : Op unit).
Proof. unfold journal_write. repeat keeps_step. Qed.
Local Hint Resolve keeps_begin keeps_journal_write : keeps.

Lemma keeps_commit t ro dv tid : keeps (frame t ro dv) (commit_transaction tid : Op unit).
Proof. unfold commit_transaction. repeat keeps_step. Qed.

Lemma keeps_persist t ro dv tid : keeps (frame t ro dv) (persist_inode_table tid : Op unit).
Proof. unfold persist_inode_table. repeat keeps_step. Qed.

Lemma keeps_write_loop t ro dv fuel tid record data offset written :
  keeps (frame t ro dv) (write_data_loop fuel tid record data offset written : Op nat).
Proof.
  revert written. induction fuel as [|fuel IH]; intros written; cbn [write_data_loop];
    repeat keeps_step.
Qed.
Local Hint Resolve keeps_commit keeps_persist keeps_write_loop : keeps.

Lemma keeps_write_record t ro dv tid record data offset :
  keeps (frame t ro dv) (write_record_data tid record data offset : Op nat).
Proof. unfold write_record_data. repeat keeps_step. Qed.
Local Hint Resolve keeps_write_record : keeps.

Lemma triple_check_writable t ro dv :
  triple (frame t ro dv) (check_writable : Op unit)
    (λ _ fs, frame t ro dv fs ∧ ro = false) (λ _, frame t ro dv).
Proof.
  intros fs Hfs. unfold check_writable, mbind, M_bind, gets. destruct (read_only fs) eqn:E; cbn; [done|].
  split; [done|]. destruct Hfs as (_ & <- & _). done.
Qed.

Lemma triple_begin t ro dv :
  triple (frame t ro dv) (begin_transaction : Op Z)
    (λ tid fs, frame t ro dv fs ∧ ro = false ∧ fits 8 tid) (λ _, frame t ro dv).
Proof.
  intros fs Hfs. pose proof (keeps_begin t ro dv fs Hfs) as Hk.
  destruct (begin_transaction fs) as [[tid|e] fs'] eqn:E; cbn in *; [|done]. split; [done|]. revert E.
  unfold begin_transaction, check_writable, mbind, M_bind, gets, put_state, modify. cbn.
  destruct (Hfs) as ([_ Hid] & Hro & _). rewrite Hro. destruct ro; [done|]. cbn.
  destruct (append_journal_record _ _ _) as [[[]|e] fs1]; cbn; [|done]. by intros [= <- _].
Qed.

(** the end of every operation: mark, persist, commit *)
Lemma triple_commit_inode t dv tid :
  triple (frame t false dv) (commit_inode_transaction tid : Op unit)
    (λ _, frame (marked tid t) false dv)
    (λ _ fs, frame (marked tid t) false dv fs ∧ dv = true).
Proof.
  intros fs Hfs.
  assert (frame (marked tid t) false dv (commit_inode_transaction tid fs).2) as Hk.
  { unfold commit_inode_transaction, mbind, M_bind, gets, put_state, modify.
    set (fs1 := mk_qfs _ _ _).
    assert (frame (marked tid t) false dv fs1) as H1.
    { destruct Hfs as ([Ht Hi] & Hr & Hd). subst fs1. split; [|by split]. split; [|done]. cbn. by rewrite Ht. }
    assert (keeps (frame (marked tid t) false dv)
      (persist_inode_table tid ≫= (λ _, commit_transaction tid) : Op unit)) as Hk by (repeat keeps_step).
    apply (Hk fs1 H1). }
  destruct (commit_inode_transaction tid fs) as [[[]|e] fs'] eqn:E; cbn in *; [done|]. split; [done|].
  destruct Hfs as (Ht & Hr & Hd). destruct (block_device fs) as [d|] eqn:Ed; [done|].
  exfalso. revert E. unfold commit_inode_transaction, persist_inode_table, commit_transaction,
    check_writable, with_device, mbind, M_bind, gets, put_state, modify. cbn. rewrite Ed. cbn.
  by rewrite Hr.
Qed.

(** ** The shape of an operation *)
Definition similar (t0 t' : QfsState.table) : Prop :=
  t' = t0 ∨ ∃ tid, fits 8 tid ∧ t' = marked tid t0.

(** [clean]: no error after the update unless there is a device *)
Definition updates {A} (clean : bool) (U : QfsState.table → QfsState.table → Prop) (m : Op A) : Prop :=
  ∀ t ro dv,
  triple (frame t ro dv) m
    (λ _ fs', ro = false ∧ ∃ t0 tid, fits 8 tid ∧ U t t0 ∧ frame (marked tid t0) ro dv fs')
    (λ _ fs', frame t ro dv fs' ∨
       ∃ t0 t', U t t0 ∧ similar t0 t' ∧ frame t' ro dv fs' ∧ (clean = true → dv = true)).

(** rules for the prefix of an operation, which reads only *)
Lemma updates_writable {A} clean U (k : Op A) :
  (∀ t dv, triple (frame t false dv) k
    (λ _ fs', ∃ t0 tid, fits 8 tid ∧ U t t0 ∧ frame (marked tid t0) false dv fs')
    (λ _ fs', frame t false dv fs' ∨
       ∃ t0 t', U t t0 ∧ similar t0 t' ∧ frame t' false dv fs' ∧ (clean = true → dv = true))) →
  updates clean U (_ ← check_writable; k).
Proof.
  intros Hk t ro dv. eapply triple_bind.
  - eapply triple_mono; [apply triple_check_writable|done|intros ? ? H; exact H|by left].
  - intros _ fs [Hfs ->]. eapply outcome_mono; [by apply Hk|by intros|by intros].
Qed.

Section steps.
Variables (t : QfsState.table) (ro dv : bool).

(** a result computed from the table *)
Lemma triple_read {A B} (f : QfsState.table → res B) (k : B → Op A) Q R :
  (∀ b, f t = Ok b → triple (frame t ro dv) (k b) Q R) →
  (∀ e fs, frame t ro dv fs → R e fs) →
  triple (frame t ro dv) ((t ← inodes; lift (f t)) ≫= k) Q R.
Proof.
  intros Hk HR fs Hfs. unfold inodes, mbind, M_bind, gets, lift.
  destruct (Hfs) as ([Ht _] & _). rewrite Ht.
  destruct (f t) as [b|e] eqn:E; [by apply Hk|by apply HR].
Qed.

Lemma triple_inodes {A} (k : QfsState.table → Op A) Q R :
  triple (frame t ro dv) (k t) Q R → triple (frame t ro dv) (inodes ≫= k) Q R.
Proof. intros Hk fs Hfs. unfold inodes, mbind, M_bind, gets. destruct (Hfs) as ([Ht _] & _). rewrite Ht. by apply Hk. Qed.

Lemma triple_pure {A B} (r : res B) (k : B → Op A) Q R :
  (∀ b, r = Ok b → triple (frame t ro dv) (k b) Q R) →
  (∀ e fs, frame t ro dv fs → R e fs) →
  triple (frame t ro dv) (lift r ≫= k) Q R.
Proof.
  intros Hk HR fs Hfs. unfold mbind, M_bind, lift. destruct r as [b|e]; [by apply Hk|by apply HR].
Qed.

Lemma triple_begin_bind {A} (k : Z → Op A) Q R :
  (∀ tid, fits 8 tid → ro = false → triple (frame t ro dv) (k tid) Q R) → (∀ e fs, frame t ro dv fs → R e fs) →
  triple (frame t ro dv) (begin_transaction ≫= k) Q R.
Proof.
  intros Hk HR. eapply triple_bind.
  - eapply triple_mono; [apply triple_begin|done|intros ? ? H; exact H|auto].
  - intros tid fs (Hfs & Hro & Htid). by apply Hk.
Qed.

End steps.

(** read a result from the table, or fail and leave it alone *)
Ltac fail_frame := try (intros; by left).
Ltac reads f := apply (triple_read _ _ _ f); [|fail_frame].
Ltac begins := apply triple_begin_bind; [|fail_frame]; intros tid Htid Hro.

Lemma triple_remove {A} t dv r c (k : unit → Op A) Q R :
  (∀ slot, named_slot t r c = Ok slot → triple (frame (<[slot := None]> t) false dv) (k tt) Q R) →
  (∀ e fs, frame t false dv fs → R e fs) →
  triple (frame t false dv) (remove_name r c ≫= k) Q R.
Proof.
  intros Hk HR fs Hfs. unfold remove_name, inodes, put_inodes, modify, mbind, M_bind, gets, lift.
  destruct (Hfs) as ([Ht Hi] & Hr & Hd). rewrite Ht.
  destruct (named_slot t r c) as [slot|e] eqn:E; [|by apply HR]. apply (Hk slot eq_refl). by split_and!.
Qed.

(** the end of an operation that updated the table to [t0] in steps *)
Lemma triple_end t t0 dv clean (U : QfsState.table → QfsState.table → Prop) tid :
  fits 8 tid → U t t0 →
  triple (frame t0 false dv) (commit_inode_transaction tid : Op unit)
    (λ _ fs', ∃ t0 tid, fits 8 tid ∧ U t t0 ∧ frame (marked tid t0) false dv fs')
    (λ _ fs', frame t false dv fs' ∨
       ∃ t0 t', U t t0 ∧ similar t0 t' ∧ frame t' false dv fs' ∧ (clean = true → dv = true)).
Proof.
  intros Htid HU. eapply triple_mono; [apply triple_commit_inode|done| |].
  - intros [] fs Hfs. by exists t0, tid.
  - intros e fs [Hfs Hdv]. right. exists t0, (marked tid t0).
    split_and!; [done|by right; exists tid|done|done].
Qed.

Lemma triple_put {A} t t0 dv (k : unit → Op A) Q R :
  triple (frame t0 false dv) (k tt) Q R →
  triple (frame t false dv) (put_inodes t0 ≫= k) Q R.
Proof.
  intros Hk. apply (triple_bind _ _ _ (λ _, frame t0 false dv)); [|by intros []].
  apply triple_modify. intros fs ([Ht Hi] & Hr & Hd). by split_and!.
Qed.

Lemma mkdir_updates path mode c : updates true (mkdir_update path mode c) (mkdir path mode c : Op unit).
Proof.
  apply updates_writable. intros t dv. reads (λ t, parent_of t path). intros [parent [name len]] Hp.
  begins. reads (λ t, new_entry_slot t parent name len c). intros slot Hs.
  apply triple_inodes, triple_put, (triple_end t); [done|]. by exists parent, name, len, slot.
Qed.

Lemma rmdir_updates path c : updates true (rmdir_update path c) (rmdir path c : Op unit).
Proof.
  apply updates_writable. intros t dv. reads (λ t, QfsState.resolve_inode t path). intros r Hr.
  destruct (Z.eqb_spec (QfsInodeRecord.inode r) InodeId_ROOT) as [|Hroot]; [apply triple_throw; fail_frame|].
  destruct (QfsState.is_directory r) eqn:Ed; cbn [negb]; [|apply triple_throw; fail_frame].
  begins. apply triple_inodes. destruct (has_children t _) eqn:Ec; [apply triple_throw; fail_frame|].
  apply triple_remove; [|fail_frame]. intros slot Hs. apply (triple_end t); [done|]. by exists r, slot.
Qed.

Lemma unlink_updates path c : updates true (unlink_update path c) (unlink path c : Op unit).
Proof.
  apply updates_writable. intros t dv. reads (λ t, QfsState.resolve_inode t path). intros r Hr.
  destruct (QfsState.is_directory r) eqn:Ed; [apply triple_throw; fail_frame|].
  begins. apply triple_remove; [|fail_frame]. intros slot Hs. apply triple_inodes, triple_put.
  apply (triple_end t); [done|]. by exists r, slot.
Qed.

Lemma rename_updates old_path new_path c :
  updates true (rename_update old_path new_path c) (rename old_path new_path c : Op unit).
Proof.
  apply updates_writable. intros t dv. reads (λ t, QfsState.resolve_inode t old_path). intros r Hr.
  reads (λ t, parent_of t new_path). intros [parent [name len]] Hp. begins. apply triple_inodes.
  apply triple_pure; [|fail_frame]. intros [slot updated] Hs. apply triple_put, (triple_end t); [done|].
  by exists r, parent, name, len, slot, updated.
Qed.

Lemma link_updates old_path new_path c :
  updates true (link_update old_path new_path c) (link old_path new_path c : Op unit).
Proof.
  apply updates_writable. intros t dv. reads (λ t, QfsState.resolve_inode t old_path). intros r Hr.
  destruct (QfsState.is_directory r) eqn:Ed; [apply triple_throw; fail_frame|].
  reads (λ t, parent_of t new_path). intros [parent [name len]] Hp. begins.
  reads (λ t, new_entry_slot t parent name len c). intros slot Hs. apply triple_inodes, triple_put, (triple_end t); [done|].
  by exists r, parent, name, len, slot.
Qed.

(** a step that keeps the frame and may fail after the update *)
Lemma triple_keep {A B} t t0 dv clean (U : QfsState.table → QfsState.table → Prop)
    (m : Op B) (k : B → Op A) Q :
  U t t0 → keeps (frame t0 false dv) m → (clean = true → dv = true) →
  (∀ b, triple (frame t0 false dv) (k b) Q
    (λ _ fs', frame t false dv fs' ∨
       ∃ t0 t', U t t0 ∧ similar t0 t' ∧ frame t' false dv fs' ∧ (clean = true → dv = true))) →
  triple (frame t0 false dv) (m ≫= k) Q
    (λ _ fs', frame t false dv fs' ∨
       ∃ t0 t', U t t0 ∧ similar t0 t' ∧ frame t' false dv fs' ∧ (clean = true → dv = true)).
Proof.
  intros HU Hm Hc Hk. apply (triple_bind _ _ _ (λ _, frame t0 false dv)); [|done].
  eapply triple_mono; [by apply keeps_triple|done|done|]. intros e fs Hfs. right. exists t0, t0.
  split_and!; [done|by left|done|done].
Qed.

Lemma symlink_updates target link_path c :
  updates false (symlink_update target link_path c) (symlink target link_path c : Op unit).
Proof.
  apply updates_writable. intros t dv. reads (λ t, parent_of t link_path).
  intros [parent [name len]] Hp. begins. reads (λ t, new_entry_slot t parent name len c).
  intros slot Hs. apply triple_inodes. cbn zeta. apply triple_put.
  assert (∀ t0, t0 = <[slot := Some (new_record (QfsState.next_inode_id t) parent InodeKind.Symlink
      name len 511 c (Z.of_nat (length target))
      (Z.of_nat (Nat.min (length target) QFS_INLINE_DATA_BYTES))
      (write_at 0 (take (Nat.min (length target) QFS_INLINE_DATA_BYTES) target)
        (replicate QFS_INLINE_DATA_BYTES 0)))]> t → symlink_update target link_path c t t0) as HU.
  { intros t0 Ht0. by exists parent, name, len, slot. }
  eapply triple_keep; [by apply HU| |done|].
  - repeat keeps_step.
  - intros _. apply (triple_end t); [done|]. by apply HU.
Qed.

Lemma meta_updates (test : QfsInodeRecord.t → bool) (f : QfsInodeRecord.t → QfsInodeRecord.t → QfsInodeRecord.t) path :
  updates true (meta_update f path) (
    _ ← check_writable;
    record ← lookup_object_record path;
    if test record then throw VfsError.PermissionDenied
    else update_all record.(QfsInodeRecord.inode) (f record) : Op unit).
Proof.
  apply updates_writable. intros t dv. reads (λ t, QfsState.resolve_inode t path). intros r Hr.
  destruct (test r); [apply triple_throw; fail_frame|]. begins. apply triple_inodes, triple_put, (triple_end t); [done|].
  by exists r.
Qed.

Lemma triple_gets_device {A} t dv (k : option D → Op A) Q R :
  (∀ d, bool_decide (is_Some d) = dv → triple (frame t false dv) (k d) Q R) →
  triple (frame t false dv) (gets block_device ≫= k) Q R.
Proof. intros Hk fs Hfs. unfold mbind, M_bind, gets. apply Hk; [|done]. by destruct Hfs as (_ & _ & ?). Qed.

(** the guard of [pwrite]: data beyond the inline area needs a device *)
Lemma triple_guard t dv (record : QfsInodeRecord.t) (data : list Z) offset :
  triple (frame t false dv)
    (if Z.of_nat QFS_INLINE_DATA_BYTES <? sat_add 64 offset (Z.of_nat (length data)) then
       device ← gets block_device;
       match device with
       | None => throw VfsError.NoSpace
       | Some _ =>
           let checked := (QFS_INLINE_DATA_BYTES - Z.to_nat offset)%nat in
           st ← gets state;
           lift (check_mapped (length data) st record offset (length data) checked)
       end
     else mret tt : Op unit)
    (λ _ fs, frame t false dv fs ∧
       (Z.of_nat QFS_INLINE_DATA_BYTES < sat_add 64 offset (Z.of_nat (length data)) → dv = true))
    (λ _, frame t false dv).
Proof.
  destruct (Z.ltb_spec (Z.of_nat QFS_INLINE_DATA_BYTES) (sat_add 64 offset (Z.of_nat (length data)))).
  - apply triple_gets_device. intros [d|] Hd; [|by apply triple_throw]. cbn zeta.
    intros fs Hfs. unfold mbind, M_bind, gets, lift. destruct (check_mapped _ _ _ _ _ _); cbn; [|done].
    split; [done|]. by intros _.
  - apply triple_ret. intros fs Hfs. split; [done|]. intros. exfalso. lia.
Qed.

Lemma triple_fact {A} (P : FS → Prop) (F : Prop) (m : Op A) Q R :
  (F → triple P m Q R) → triple (λ fs, P fs ∧ F) m Q R.
Proof. intros H fs [HP HF]. by apply H. Qed.

Lemma pwrite_updates file data offset : data ≠ [] → 0 <= offset →
  updates true (pwrite_update file data offset) (pwrite file data offset : Op nat).
Proof.
  intros Hne Ho. apply updates_writable. intros t dv. rewrite bool_decide_eq_false_2 by done.
  reads (λ t, ok_or (QfsState.inode_by_id t file) VfsError.NotFound). intros r Hr.
  destruct (QfsState.inode_by_id t file) as [r'|] eqn:Er; [|done]. injection Hr as ->.
  destruct (QfsState.is_directory r) eqn:Ed; [apply triple_throw; fail_frame|].
  eapply triple_bind; [eapply triple_mono; [apply (triple_guard t dv r data offset)|done|intros ? ? H; exact H|fail_frame]|].
  intros []. apply triple_fact. intros Hdv.
  begins. apply triple_inodes. apply triple_pure; [|fail_frame]. intros slot Hslot.
  pose proof (find_same (QfsState.has_id file) t) as Hsame. unfold QfsState.inode_slot_by_id in Hslot.
  destruct (QfsState.find_slot (QfsState.has_id file) 0 t) as [slot'|] eqn:Es; [|done]. injection Hslot as ->.
  destruct Hsame as (r1 & Hr1 & Hf). unfold QfsState.inode_by_id in Er. rewrite Er in Hf. injection Hf as <-.
  rewrite Hr1. cbn [default from_option id ok_or]. apply triple_pure; [|fail_frame]. intros ? [= <-].
  destruct (write_inline r data offset) as [wrote record] eqn:Ewi.
  assert (pwrite_update file data offset t (<[slot := Some record]> t)) as HU.
  { exists slot, r. rewrite Ewi. by split_and!. }
  apply triple_put.
  assert ((wrote <? length data)%nat = true → dv = true) as Hclean.
  { intros Hlt%Nat.ltb_lt. apply Hdv. unfold write_inline in Ewi. unfold QFS_INLINE_DATA_BYTES in *.
    destruct (Nat.ltb_spec (Z.to_nat offset) 76); injection Ewi as <- <-; unfold sat_add, umax; lia. }
  destruct (wrote <? length data)%nat.
  - apply (triple_keep t _ dv true _ _ _ _ HU); [repeat keeps_step|by intros _; apply Hclean|]. intros n.
    eapply triple_bind; [by apply (triple_end t _ dv true _ tid Htid HU)|]. intros []. by apply triple_ret.
  - apply (triple_bind _ _ _ (λ _, frame (<[slot := Some record]> t) false dv)); [by apply triple_ret|].
    intros n. eapply triple_bind; [by apply (triple_end t _ dv true _ tid Htid HU)|]. intros []. by apply triple_ret.
Qed.

Lemma ftruncate_updates file size c :
  updates true (ftruncate_update file size) (ftruncate file size c : Op unit).
Proof.
  intros t ro dv. reads (λ t, ok_or (QfsState.inode_by_id t file) VfsError.NotFound). intros r Hr.
  destruct (negb _); [apply triple_throw; fail_frame|]. begins. subst ro.
  apply triple_inodes, triple_put. 
  eapply triple_mono; [by eapply (triple_end t (QfsState.update_inode file (resize size) t) dv true
    (ftruncate_update file size))|done| |done].
  by intros [] fs Hfs.
Qed.
End frames.

(** ** Calls *)
Module Call.
Inductive t : Type :=
  | Mkdir (path : list Z) (mode : Permissions.t)
  | Rmdir (path : list Z)
  | Unlink (path : list Z)
  | Rename (old_path new_path : list Z)
  | Link (old_path new_path : list Z)
  | Symlink (target link_path : list Z)
  | Chmod (path : list Z) (mode : Z)
  | Chown (path : list Z) (uid gid : Z)
  | Truncate (path : list Z) (size : Z)
  | Ftruncate (file size : Z)
  | Pwrite (file : Z) (data : list Z) (offset : Z).
End Call.

Definition run_call {D : Type} `{!BlockStorage D} (c : FsCredentials.t) (o : Call.t)
    : M (QfsFileSystem D) VfsError.t unit :=
  match o with
  | Call.Mkdir path mode => mkdir path mode c
  | Call.Rmdir path => rmdir path c
  | Call.Unlink path => unlink path c
  | Call.Rename old_path new_path => rename old_path new_path c
  | Call.Link old_path new_path => link old_path new_path c
  | Call.Symlink target link_path => symlink target link_path c
  | Call.Chmod path mode => chmod path mode c
  | Call.Chown path uid gid => chown path uid gid c
  | Call.Truncate path size => truncate path size c
  | Call.Ftruncate file size => ftruncate file size c
  | Call.Pwrite file data offset => _ ← pwrite file data offset; mret tt
  end.

(** arguments of the types the code declares, paths that were validated *)
Definition path_ok (path : list Z) : Prop := utf8_valid path = true ∧ path_new path = Ok path.
Definition call_ok (o : Call.t) : Prop :=
  match o with
  | Call.Mkdir path mode => path_ok path ∧ fits 2 mode.(Permissions.bits)
  | Call.Rmdir path | Call.Unlink path => path_ok path
  | Call.Rename old_path new_path | Call.Link old_path new_path => path_ok old_path ∧ path_ok new_path
  | Call.Symlink target link_path =>
      path_ok link_path ∧ bytes_ok target ∧ fits 8 (Z.of_nat (length target))
  | Call.Chmod path mode => path_ok path
  | Call.Chown path uid gid => path_ok path ∧ fits 2 uid ∧ fits 2 gid
  | Call.Truncate path size => path_ok path ∧ fits 8 size
  | Call.Ftruncate file size => fits 8 size
  | Call.Pwrite file data offset => data ≠ [] ∧ bytes_ok data ∧ fits 8 offset
  end.

Definition chmod_record (mode : Z) (c : QfsInodeRecord.t) : QfsInodeRecord.t :=
  QfsInodeRecord.set_owner (Z.land mode 511) c.(QfsInodeRecord.uid) c.(QfsInodeRecord.gid)
    c.(QfsInodeRecord.links) c.
Definition chown_record (uid gid : Z) (c : QfsInodeRecord.t) : QfsInodeRecord.t :=
  QfsInodeRecord.set_owner c.(QfsInodeRecord.mode) uid gid c.(QfsInodeRecord.links) c.

Definition call_update (c : FsCredentials.t) (o : Call.t) : QfsState.table → QfsState.table → Prop :=
  match o with
  | Call.Mkdir path mode => mkdir_update path mode c
  | Call.Rmdir path => rmdir_update path c
  | Call.Unlink path => unlink_update path c
  | Call.Rename old_path new_path => rename_update old_path new_path c
  | Call.Link old_path new_path => link_update old_path new_path c
  | Call.Symlink target link_path => symlink_update target link_path c
  | Call.Chmod path mode => meta_update (λ _, chmod_record mode) path
  | Call.Chown path uid gid => meta_update (λ _, chown_record uid gid) path
  | Call.Truncate path size => meta_update (λ _, resize size) path
  | Call.Ftruncate file size => ftruncate_update file size
  | Call.Pwrite file data offset => pwrite_update file data offset
  end.

(** a call that, without a device, fails only before it changes anything *)
Definition clean_call (o : Call.t) : bool :=
  match o with Call.Symlink _ _ => false | _ => true end.

Lemma updates_weaken {D : Type} `{!BlockStorage D} {A} clean U (m : M (QfsFileSystem D) VfsError.t A) :
  updates clean U m → updates clean U (_ ← m; mret tt).
Proof.
  intros H t ro dv. eapply triple_bind; [apply H|]. intros a. by apply triple_ret.
Qed.

Lemma call_updates {D : Type} `{!BlockStorage D} c o : call_ok o →
  updates (clean_call o) (call_update c o) (run_call c o : M (QfsFileSystem D) VfsError.t unit).
Proof.
  intros Hok. destruct o; cbn in *.
  - apply mkdir_updates.
  - apply rmdir_updates.
  - apply unlink_updates.
  - apply rename_updates.
  - apply link_updates.
  - apply symlink_updates.
  - apply (meta_updates _ (λ _, chmod_record mode)).
  - apply (meta_updates _ (λ _, chown_record uid gid)).
  - apply (meta_updates _ (λ _, resize size)).
  - apply ftruncate_updates.
  - destruct Hok as (? & _ & ? & _). by apply updates_weaken, pwrite_updates.
Qed.

(** what a successful call means for the namespace *)
Definition call_spec (o : Call.t) (may : Z → Prop) (N N' : namespace) : Prop :=
  match o with
  | Call.Mkdir path _ | Call.Symlink _ path => ∃ i, unused N i ∧ adds path i N N' may
  | Call.Link old_path new_path =>
      ∃ i, ns_walk N InodeId_ROOT (components old_path) = Some i ∧ adds new_path i N N' may
  | Call.Rmdir path =>
      removes path N N' may ∧
      ∃ i, ns_walk N InodeId_ROOT (components path) = Some i ∧ ∀ n j, N i n = Some j → j = i
  | Call.Unlink path => removes path N N' may
  | Call.Rename old_path new_path => moves old_path new_path N N' may
  | _ => ns_eq N' N
  end.

Lemma path_ok_components path : path_ok path → Forall component_ok (components path).
Proof. intros [Hu Hp]. by eapply components_ok. Qed.

Lemma inode_owner r : inode_ok r →
  fits 2 r.(QfsInodeRecord.mode) ∧ fits 2 r.(QfsInodeRecord.uid) ∧ fits 2 r.(QfsInodeRecord.gid).
Proof. intros [_ _ H2 _ _ _ _ _ _ _ _]. rewrite !Forall_cons in H2. tauto. Qed.

Lemma call_effect c o t t0 : table_ok t → QfsState.next_inode_id t < umax 64 → cred_ok c → call_ok o →
  call_update c o t t0 →
  table_ok t0 ∧ call_spec o (λ p, allowed t p c) (dirent t) (dirent t0).
Proof.
  intros Ht Hmax Hc Hok HU. destruct o; cbn in *.
  - destruct Hok. eapply mkdir_effect; try done. by apply path_ok_components.
  - by apply rmdir_effect.
  - by apply unlink_effect.
  - destruct Hok. eapply rename_effect; try done. by apply path_ok_components.
  - destruct Hok. eapply link_effect; try done. by apply path_ok_components.
  - destruct Hok as (? & ? & ?). eapply symlink_effect; try done. by apply path_ok_components.
  - apply (meta_effect _ _ (λ _, chmod_record mode) path); [done|done| |done]. intros _ r Hr.
    apply set_owner_ok; [apply land_511_fits|by apply inode_owner..|done].
  - destruct Hok as (_ & ? & ?).
    apply (meta_effect _ _ (λ _, chown_record uid gid) path); [done|done| |done]. intros _ r Hr.
    apply set_owner_ok; [by apply inode_owner|done|done|done].
  - destruct Hok. apply (meta_effect _ _ (λ _, resize size) path); [done|done| |done].
    intros _ r Hr. by apply resize_ok.
  - by eapply ftruncate_effect.
  - destruct Hok as (_ & ? & ?). by eapply pwrite_effect.
Qed.

(** *** Inode numbers *)
Definition inodes_below (b : Z) (N : namespace) : Prop := ∀ p n i, N p n = Some i → i < b.

Lemma next_inode_below t b : shape_ok (shape t) → 2 <= b → b <= umax 64 → inodes_below b (dirent t) →
  QfsState.next_inode_id t <= b.
Proof.
  intros Hs H2 Hb Hbelow.
  assert (∀ k r, t !! k = Some (Some r) → r.(QfsInodeRecord.inode) < b) as Hin.
  { intros k r Hk. apply (Hbelow r.(QfsInodeRecord.parent_inode) (QfsInodeRecord.name r)).
    apply dirent_Some; [done|]. exists k, (entry_of r). split; [by apply has_shape|done]. }
  assert (∀ l n0, (∀ k r, l !! k = Some (Some r) → r.(QfsInodeRecord.inode) < b) → n0 <= b →
    foldl QfsState.next_inode_step n0 l <= b) as Hf; [|by apply Hf].
  clear t Hs Hbelow Hin. induction l as [|o l IH]; intros n0 Hl Hn; [done|]. cbn. apply IH.
  - intros k. apply (Hl (S k)).
  - destruct o as [r|]; cbn; [|done]. pose proof (Hl 0%nat r eq_refl).
    case_match; unfold sat_add; lia.
Qed.

Lemma update_ns_below b N p n i : inodes_below b N → (∀ j, i = Some j → j < b) →
  inodes_below b (update_ns N p n i).
Proof. intros HN Hi q m j. unfold update_ns. case_decide; [apply Hi|apply HN]. Qed.
Lemma ns_eq_below b N N' : ns_eq N' N → inodes_below b N → inodes_below b N'.
Proof. intros HE HN p n i. rewrite HE. apply HN. Qed.
Lemma ns_walk_below b N start path i : inodes_below b N → start < b →
  ns_walk N start path = Some i → i < b.
Proof.
  intros HN. revert start. induction path as [|n path IH]; intros start Hs; cbn.
  - by intros [= <-].
  - destruct (N start n) as [j|] eqn:E; cbn; [|done]. apply IH. by eapply HN.
Qed.

Lemma insert_below b t k r : shape_ok (shape t) → inodes_below b (dirent t) → r.(QfsInodeRecord.inode) <= b →
  inodes_below (b + 1) (dirent (<[k := Some r]> t)).
Proof.
  intros Hs HN Hr p n i. unfold dirent. rewrite fmap_Some. intros (a & (j & Hj & Hp & Hn)%child_by_name_Some & ->).
  destruct (decide (k = j)) as [->|Hne].
  - rewrite list_lookup_insert_eq in Hj; [by injection Hj as <-; lia|].
    apply lookup_lt_Some in Hj. by rewrite length_insert in Hj.
  - rewrite list_lookup_insert_ne in Hj by done.
    assert (dirent t p n = Some a.(QfsInodeRecord.inode)) as Hd%HN; [|lia].
    apply dirent_Some; [done|]. exists j, (entry_of a). split; [by apply has_shape|done].
Qed.

(** a call uses at most one inode number *)
Lemma call_below c o t t0 b : table_ok t → 2 <= b → b < umax 64 → cred_ok c → call_ok o →
  inodes_below b (dirent t) → call_update c o t t0 → inodes_below (b + 1) (dirent t0).
Proof.
  intros Ht H2 Hb Hc Hok HN HU. pose proof (ok_shape _ Ht) as Hs.
  pose proof (next_inode_below t b Hs H2 (Z.lt_le_incl _ _ Hb) HN) as Hnext.
  assert (inodes_below (b + 1) (dirent t)) as HN1 by (intros p n i Hi; apply HN in Hi; lia).
  destruct (call_effect c o t t0) as [_ Hspec]; [done|lia|done|done|done|].
  destruct o; cbn in Hspec;
    try (by eapply ns_eq_below);
    try (by destruct HU as (? & ? & ? & ? & _ & _ & ->); apply insert_below).
  - destruct Hspec as [(p & n & i & _ & _ & _ & HE) _]. eapply ns_eq_below; [exact HE|]. by apply update_ns_below.
  - destruct Hspec as (p & n & i & _ & _ & _ & HE). eapply ns_eq_below; [exact HE|]. by apply update_ns_below.
  - destruct Hspec as (p & n & i & p' & n' & Hi & _ & _ & _ & _ & _ & HE). eapply ns_eq_below; [exact HE|].
    apply update_ns_below; [by apply update_ns_below|]. intros j [= <-]. by eapply HN1.
  - destruct Hspec as (i & Hi & p & n & _ & _ & _ & HE). eapply ns_eq_below; [exact HE|].
    apply update_ns_below; [done|]. intros j [= <-]. eapply ns_walk_below; [done| |done]. unfold InodeId_ROOT. lia.
Qed.

(** the specification does not see how the map is represented *)
Lemma call_spec_ext o may N N1 N2 : call_spec o may N N1 → ns_eq N2 N1 → call_spec o may N N2.
Proof.
  assert (∀ N3, ns_eq N1 N3 → ns_eq N2 N1 → ns_eq N2 N3) as Htr by (intros N3 H1 H2 p n; by rewrite H2).
  destruct o; cbn; unfold adds, removes, moves; intros Hs HE;
    repeat match goal with H : ex _ |- _ => destruct H | H : _ ∧ _ |- _ => destruct H end; eauto 20.
Qed.

Lemma spec_changes o (may : Z → Prop) N N' p n : call_spec o may N N' → N' p n ≠ N p n → may p.
Proof.
  assert (∀ M q m i, update_ns M q m i p n ≠ M p n → p = q) as Hu.
  { intros M q m i. unfold update_ns. case_decide as Hd; [by intros _; destruct Hd|done]. }
  destruct o; cbn; try (by intros HE; rewrite HE).
  - intros (i & _ & q & m & _ & Hm & _ & HE). rewrite HE. by intros ->%Hu.
  - intros [(q & m & i & _ & Hm & _ & HE) _]. rewrite HE. by intros ->%Hu.
  - intros (q & m & i & _ & Hm & _ & HE). rewrite HE. by intros ->%Hu.
  - intros (q & m & i & q' & m' & _ & Hm & _ & _ & Hm' & _ & HE). rewrite HE. intros Hne.
    destruct (decide (update_ns N q m None p n = N p n)) as [E|Hne2%Hu]; [|by subst].
    rewrite <-E in Hne. by apply Hu in Hne as ->.
  - intros (i & _ & q & m & _ & Hm & _ & HE). rewrite HE. by intros ->%Hu.
  - intros (i & _ & q & m & _ & Hm & _ & HE). rewrite HE. by intros ->%Hu.
Qed.

(** *** One call, on the record of the filesystem *)
Section calls.
Context {D : Type} `{!BlockStorage D}.
Implicit Types (fs : QfsFileSystem D).

Definition usable fs : Prop := table_ok (tbl fs) ∧ fits 8 fs.(state).(QfsState.next_transaction_id).

Lemma call_outcome c o fs : call_ok o → fits 8 fs.(state).(QfsState.next_transaction_id) →
  let fs' := (run_call c o fs).2 in
  fits 8 fs'.(state).(QfsState.next_transaction_id) ∧
  match (run_call c o fs).1 with
  | Ok _ => ∃ t0, call_update c o (tbl fs) t0 ∧ similar t0 (tbl fs')
  | Err _ => tbl fs' = tbl fs ∨
      (∃ t0, call_update c o (tbl fs) t0 ∧ similar t0 (tbl fs')) ∧
      (clean_call o = true → fs.(block_device) ≠ None)
  end.
Proof.
  intros Hok Hid fs'. subst fs'.
  assert (frame (tbl fs) fs.(read_only) (bool_decide (is_Some fs.(block_device))) fs) as Hf by done.
  pose proof (call_updates c o Hok _ _ _ fs Hf) as H.
  destruct (run_call c o fs) as [[[]|e] fs']; cbn in *.
  - destruct H as (_ & t0 & tid & Htid & HU & Hfr). split; [by destruct Hfr as ([_ ?] & _)|].
    rewrite (frame_tbl _ _ _ _ Hfr). exists t0. split; [done|]. right. by exists tid.
  - destruct H as [Hfr|(t0 & t' & HU & Hsim & Hfr & Hcl)]; (split; [by destruct Hfr as ([_ ?] & _)|]);
      rewrite (frame_tbl _ _ _ _ Hfr); [by left|]. right. split; [by exists t0|].
    intros [? ->]%Hcl%bool_decide_eq_true_1. done.
Qed.

Lemma similar_ok t0 t' : table_ok t0 → similar t0 t' → table_ok t' ∧ ns_eq (dirent t') (dirent t0).
Proof.
  intros Ht [->|(tid & Htid & ->)]; [done|]. split; [by apply table_ok_marked|].
  intros p n. by apply dirent_shape, shape_each.
Qed.

(** the effect of a call, error or not: an update of the namespace or none *)
Lemma call_step c o fs : usable fs → QfsState.next_inode_id (tbl fs) < umax 64 → cred_ok c → call_ok o →
  let fs' := (run_call c o fs).2 in
  usable fs' ∧
  (tbl fs' = tbl fs ∨ ∃ t0, call_update c o (tbl fs) t0 ∧ ns_eq (dirent (tbl fs')) (dirent t0)).
Proof.
  intros [Ht Hid] Hmax Hc Hok fs'. destruct (call_outcome c o fs Hok Hid) as [Hid' H]. fold fs' in Hid', H.
  assert (tbl fs' = tbl fs ∨ ∃ t0, call_update c o (tbl fs) t0 ∧ similar t0 (tbl fs')) as [E|(t0 & HU & Hsim)].
  { case_match; [by right|]. destruct H as [?|[? _]]; [by left|by right]. }
  - split; [|by left]. split; [by rewrite E|done].
  - destruct (call_effect c o (tbl fs) t0) as [H0 _]; try done.
    destruct (similar_ok _ _ H0 Hsim). split; [done|]. right. by exists t0.
Qed.

Definition run_calls (os : list (FsCredentials.t * Call.t)) fs : QfsFileSystem D :=
  foldl (λ fs '(c, o), (run_call c o fs).2) fs os.

Lemma run_calls_ok os fs b : usable fs → inodes_below b (dirent (tbl fs)) → 2 <= b →
  b + Z.of_nat (length os) <= umax 64 → Forall (λ '(c, o), cred_ok c ∧ call_ok o) os →
  usable (run_calls os fs).
Proof.
  intros Hu HN H2 Hb Hos. revert fs b Hu HN H2 Hb.
  induction Hos as [|[c o] os [Hc Hok] _ IH]; intros fs b Hu HN H2 Hb; [done|]. cbn in Hb |- *.
  assert (QfsState.next_inode_id (tbl fs) <= b) as Hnext.
  { apply next_inode_below; [apply Hu|done|lia|done]. }
  destruct (call_step c o fs) as [Hu' Hn]; [done|lia|done|done|].
  apply (IH _ (b + 1) Hu'); [|lia..]. destruct Hn as [->|(t0 & HU & HE)].
  - intros p n i Hi%HN. lia.
  - eapply ns_eq_below; [exact HE|]. eapply call_below; try done; [apply Hu|lia].
Qed.
End calls.

(** C14: QFS keeps its table of inodes well formed.  Whatever calls are made, by whatever
    users, with or without a device under the filesystem and whatever error each returns:
    every directory entry lies in a directory, names are unique in it, every link count is
    the number of names of its inode and every field fits the width it has on disk. *)
Theorem qfs_table_invariant {D : Type} `{!BlockStorage D} (fs : QfsFileSystem D) os b :
  table_ok (tbl fs) → fits 8 fs.(state).(QfsState.next_transaction_id) →
  inodes_below b (dirent (tbl fs)) → 2 <= b → b + Z.of_nat (length os) <= umax 64 →
  Forall (λ '(c, o), cred_ok c ∧ call_ok o) os →
  table_ok (tbl (run_calls os fs)).
Proof. intros Ht Hid HN H2 Hb Hos. by apply (run_calls_ok os fs b). Qed.

(** C2: The operations of QFS implement operations on a map from (directory, name) to
    inode.  A call that succeeds makes exactly the change it promises: mkdir and symlink add
    one name for an unused inode, link adds a name for an existing one, rmdir removes an
    empty directory, unlink one name, rename moves one name, and the others leave the map
    alone.  A call that fails on a filesystem without a device leaves the whole table alone
    (a symlink apart, which can fail for its target when its name is already entered). *)
Theorem qfs_refines_namespace {D : Type} `{!BlockStorage D} (fs : QfsFileSystem D) c o :
  table_ok (tbl fs) → fits 8 fs.(state).(QfsState.next_transaction_id) →
  QfsState.next_inode_id (tbl fs) < umax 64 → cred_ok c → call_ok o →
  let fs' := (run_call c o fs).2 in
  match (run_call c o fs).1 with
  | Ok _ => call_spec o (λ p, allowed (tbl fs) p c) (dirent (tbl fs)) (dirent (tbl fs'))
  | Err _ => fs.(block_device) = None → clean_call o = true → tbl fs' = tbl fs
  end.
Proof.
  intros Ht Hid Hmax Hc Hok fs'. destruct (call_outcome c o fs Hok Hid) as [_ H]. fold fs' in H.
  destruct (run_call c o fs).1 as [[]|e].
  - destruct H as (t0 & HU & Hsim). destruct (call_effect c o (tbl fs) t0) as [H0 Hspec]; try done.
    destruct (similar_ok _ _ H0 Hsim) as [_ HE]. by eapply call_spec_ext.
  - intros Hd Hcl. destruct H as [?|[_ H]]; [done|]. by destruct (H Hcl).
Qed.

(** C28: The namespace changes only where the caller may write.  Whatever a call returns, if
    the entry of a name in a directory has changed then the directory existed before and its
    mode grants its caller write access. *)
Theorem qfs_change_needs_permission {D : Type} `{!BlockStorage D} (fs : QfsFileSystem D) c o p n :
  table_ok (tbl fs) → fits 8 fs.(state).(QfsState.next_transaction_id) →
  QfsState.next_inode_id (tbl fs) < umax 64 → cred_ok c → call_ok o →
  dirent (tbl (run_call c o fs).2) p n ≠ dirent (tbl fs) p n → allowed (tbl fs) p c.
Proof.
  intros Ht Hid Hmax Hc Hok Hne.
  destruct (call_step c o fs) as [_ [E|(t0 & HU & HE)]]; [by split|done..| |].
  - by rewrite E in Hne.
  - destruct (call_effect c o (tbl fs) t0) as [H0 Hspec]; try done.
    rewrite HE in Hne. exact (spec_changes _ _ _ _ _ _ Hspec Hne).
Qed.

(** ** File data *)
Lemma find_record_each p f t : (∀ r, p (f r) = p r) →
  QfsState.find_record p (QfsState.each_record f t) = f <$> QfsState.find_record p t.
Proof.
  intros Hp. induction t as [|[r|] t IH]; cbn; [done| |done]. rewrite Hp. by destruct (p r).
Qed.

Lemma find_record_insert p t i r : QfsState.find_slot p 0 t = Some i → p r = true →
  QfsState.find_record p (<[i := Some r]> t) = Some r.
Proof.
  intros Hi Hr. assert (∀ l k, QfsState.find_slot p k l = Some i → (k ≤ i)%nat ∧
    QfsState.find_record p (<[(i - k)%nat := Some r]> l) = Some r) as H.
  { induction l as [|o l IH]; intros k; cbn; [done|].
    assert (QfsState.find_slot p (S k) l = Some i →
      (k ≤ i)%nat ∧ (i - k = S (i - S k))%nat ∧
      QfsState.find_record p (<[(i - S k)%nat := Some r]> l) = Some r) as Hrec.
    { intros [Hle Hf]%IH. split_and!; [lia|lia|done]. }
    destruct o as [a|]; [destruct (p a) eqn:Ea|].
    - intros [= ->]. rewrite Nat.sub_diag. cbn. by rewrite Hr.
    - intros (Hle & -> & Hf)%Hrec. split; [done|]. cbn. by rewrite Ea.
    - intros (Hle & -> & Hf)%Hrec. by split. }
  destruct (H t 0%nat Hi) as [_ Hf]. by rewrite Nat.sub_0_r in Hf.
Qed.

Section data.
Context {D : Type} `{!BlockStorage D}.
Implicit Types (fs : QfsFileSystem D).

(** a read that the inline data of the record answers *)
Lemma pread_inline fs file r buffer offset n :
  QfsState.inode_by_id (tbl fs) file = Some r → QfsState.is_directory r = false →
  (0 < n)%nat → length buffer = n → 0 <= offset →
  offset + Z.of_nat n <= r.(QfsInodeRecord.size) → (Z.to_nat offset + n ≤ inline_len r)%nat →
  (inline_len r ≤ length r.(QfsInodeRecord.inline_data))%nat →
  pread file buffer offset fs = (Ok (n, slice (Z.to_nat offset) n r.(QfsInodeRecord.inline_data)), fs).
Proof.
  intros Hr Hd Hn Hb Ho Hs Hi Hl.
  unfold pread, lookup_inode_record, inodes, mbind, M_bind, gets, lift.
  unfold tbl in Hr. rewrite Hr. cbn [ok_or]. rewrite Hd.
  assert ((QfsInodeRecord.size r <=? offset) = false) as -> by (apply Z.leb_gt; lia).
  rewrite bool_decide_eq_false_2 by (intros ->; cbn in Hb; lia). cbn [orb].
  assert ((Z.to_nat offset <? inline_len r)%nat = true) as -> by (apply Nat.ltb_lt; lia).
  assert (Nat.min (Nat.min (Z.to_nat (QfsInodeRecord.size r - offset)) (length buffer))
    (inline_len r - Z.to_nat offset) = n) as -> by lia.
  unfold mret, M_ret. f_equal. f_equal. f_equal. unfold write_at. cbn [take app].
  rewrite Nat.add_0_l, drop_ge, app_nil_r; [done|]. rewrite length_slice; lia.
Qed.

Lemma max_u64_max a b : max_u64 a b = Z.max a b.
Proof. unfold max_u64. destruct (Z.leb_spec b a); lia. Qed.

(** the record after a write of inline data *)
Lemma write_inline_data r data offset : inode_ok r → 0 <= offset →
  (Z.to_nat offset + length data ≤ QFS_INLINE_DATA_BYTES)%nat → data ≠ [] →
  let r' := (write_inline r data offset).2 in
  slice (Z.to_nat offset) (length data) r'.(QfsInodeRecord.inline_data) = data ∧
  offset + Z.of_nat (length data) <= r'.(QfsInodeRecord.size) ∧
  (Z.to_nat offset + length data ≤ inline_len r')%nat ∧
  length r'.(QfsInodeRecord.inline_data) = QFS_INLINE_DATA_BYTES.
Proof.
  intros Hr Ho Hlen Hne. pose proof (in_data _ Hr) as H76.
  assert (0 < length data)%nat as Hpos by (destruct data; [done|cbn; lia]).
  unfold write_inline. rewrite (proj2 (Nat.ltb_lt _ _)) by lia. cbn [snd].
  rewrite Nat.min_l, take_ge by lia. unfold QfsInodeRecord.set_data, inline_len. cbn.
  unfold QFS_INLINE_DATA_BYTES in *. split_and!.
  - apply slice_write_eq; [done|lia].
  - rewrite max_u64_max. unfold sat_add, umax. lia.
  - unfold max_u16. rewrite max_u64_max. lia.
  - rewrite length_write_at; lia.
Qed.

Lemma begin_no_device st : begin_transaction (mk_qfs st false (None : option D)) =
  (Ok st.(QfsState.next_transaction_id),
   mk_qfs (QfsState.set_journal st.(QfsState.journal) (sat_add 64 st.(QfsState.next_transaction_id) 1)
             st.(QfsState.next_slot) st) false None).
Proof. reflexivity. Qed.

(** without a device nothing stops the write of an existing file *)
Lemma pwrite_no_device fs file data offset r :
  fs.(read_only) = false → fs.(block_device) = None → data ≠ [] → 0 <= offset →
  offset + Z.of_nat (length data) <= Z.of_nat QFS_INLINE_DATA_BYTES →
  QfsState.inode_by_id (tbl fs) file = Some r → QfsState.is_directory r = false →
  (pwrite file data offset fs).1 = Ok (length data).
Proof.
  intros Hro Hdev Hne Ho Hlen Hr Hdir. unfold tbl in Hr.
  assert (0 < length data)%nat as Hpos by (destruct data; [done|cbn; lia]).
  pose proof (find_same (QfsState.has_id file) (QfsState.inodes (state fs))) as Hsame.
  unfold QfsState.inode_by_id in Hr. rewrite Hr in Hsame.
  destruct (QfsState.find_slot _ _ _) as [slot|] eqn:Es; [|done]. destruct Hsame as (? & Hl & [= <-]).
  destruct fs as [st ro dev]. cbn in Hro, Hdev, Hr, Hl, Es. subst ro dev.
  unfold pwrite. rewrite bool_decide_eq_false_2 by done.
  assert ((Z.of_nat QFS_INLINE_DATA_BYTES <? sat_add 64 offset (Z.of_nat (length data))) = false) as ->.
  { apply Z.ltb_ge. unfold sat_add. lia. }
  erewrite bind_ok by reflexivity.
  rewrite (bind_ok (lookup_inode_record file) _ r _ (mk_qfs st false None)); [rewrite Hdir|].
  2:{ unfold lookup_inode_record, inodes, mbind, M_bind, gets, lift, QfsState.inode_by_id. cbn. by rewrite Hr. }
  erewrite bind_ok by reflexivity.
  rewrite (bind_ok _ _ _ _ _ (begin_no_device st)). erewrite bind_ok by reflexivity. cbn [state QfsState.inodes QfsState.set_journal].
  erewrite bind_ok by (unfold QfsState.inode_slot_by_id; by rewrite Es).
  erewrite bind_ok by (by rewrite Hl).
  destruct (write_inline r data offset) as [wrote record] eqn:E.
  assert (wrote = length data) as ->.
  { unfold write_inline in E. unfold QFS_INLINE_DATA_BYTES in *. rewrite (proj2 (Nat.ltb_lt _ _)) in E by lia.
    injection E as <- _. lia. }
  rewrite Nat.ltb_irrefl. reflexivity.
Qed.
End data.

(** C35: What is written to a file is what is read back.  After a write of data that ends
    within the inline bytes of the record has succeeded, a read of that range returns those
    bytes, whatever the filesystem did to the record in between (marking it, and journaling
    the table to the device if there is one); on a writable filesystem without a device
    such a write to an existing file always succeeds. *)
Theorem pwrite_pread_roundtrip {D : Type} `{!BlockStorage D} (fs : QfsFileSystem D) file data offset buffer :
  table_ok (tbl fs) → fits 8 fs.(state).(QfsState.next_transaction_id) →
  data ≠ [] → bytes_ok data → 0 <= offset →
  offset + Z.of_nat (length data) <= Z.of_nat QFS_INLINE_DATA_BYTES → length buffer = length data →
  (∀ n fs', pwrite file data offset fs = (Ok n, fs') →
     pread file buffer offset fs' = (Ok (length data, data), fs')) ∧
  (fs.(read_only) = false → fs.(block_device) = None →
   ∀ r, QfsState.inode_by_id (tbl fs) file = Some r → QfsState.is_directory r = false →
   (pwrite file data offset fs).1 = Ok (length data)).
Proof.
  intros Ht Hid Hne Hb Ho Hlen Hbuf. split.
  - intros n fs' Hw.
    assert (frame (tbl fs) fs.(read_only) (bool_decide (is_Some fs.(block_device))) fs) as Hf by done.
    pose proof (pwrite_updates file data offset Hne Ho _ _ _ fs Hf) as H. rewrite Hw in H.
    destruct H as (_ & t0 & tid & Htid & (slot & r & Hslot & Hr & Hid' & Hdir & ->) & Hfr).
    destruct (ok_typed _ Ht _ _ Hr) as [Hok _].
    destruct (write_inline_data r data offset) as (Hs & Hsize & Hin & H76); [done|done|unfold QFS_INLINE_DATA_BYTES in *; lia|done|].
    apply inode_by_id_Some in Hid' as Hino. destruct Hino as (_ & _ & _ & Hino).
    destruct (write_inline_entry r data offset) as [He _].
    set (r' := (write_inline r data offset).2) in *.
    assert (QfsState.inode_by_id (tbl fs') file = Some (QfsInodeRecord.mark_mutation tid r')) as Hr'.
    { rewrite (frame_tbl _ _ _ _ Hfr). unfold QfsState.inode_by_id.
      rewrite find_record_each by done. unfold QfsState.inode_slot_by_id in Hslot.
      rewrite (find_record_insert _ _ _ _ Hslot); [done|]. unfold QfsState.has_id.
      apply Z.eqb_eq. rewrite <-Hino. by injection He. }
    rewrite (pread_inline fs' file _ buffer offset (length data) Hr'); try done.
    + do 3 f_equal. exact Hs.
    + injection He as _ _ _ He. rewrite <-Hdir, <-He. done.
    + destruct data; [done|cbn; lia].
    + cbn. rewrite H76. unfold inline_len. lia.
  - intros Hro Hdev r Hr Hdir. rewrite (pwrite_no_device fs file data offset r) by (done || lia). done.
Qed.

(** ** Examples *)
Definition bytes_of (s : string) : list Z :=
  (λ a, Z.of_nat (Ascii.nat_of_ascii a)) <$> String.list_ascii_of_string s.
Definition superuser : FsCredentials.t := FsCredentials.user 0 0.
Definition dir_mode : Permissions.t := Permissions.mk 493 0 0.

(** a filesystem without a device *)
Definition demo_fs : QfsFileSystem RamDisk.t := qfs_new false.
(** a formatted and mounted disk of 640 sectors *)
Definition disk_storage : BlockStorage RamDisk.t := ram_instance 640.
Definition mounted_fs : QfsFileSystem RamDisk.t :=
  (refresh_from_block_device (BlockStorage0 := disk_storage)
     (new_on_block_device false
        (initialize_image (BlockStorage0 := disk_storage) 640 (RamDisk.new 640)).2)).2.

Lemma root_only_has k e : has (shape (tbl demo_fs)) k e → k = 0%nat ∧ e = entry_of QfsInodeRecord.root.
Proof.
  intros (r & Hr & ->)%has_shape_inv. unfold tbl, demo_fs in Hr.
  change (QfsState.inodes (state (qfs_new false : QfsFileSystem RamDisk.t)))
    with (Some QfsInodeRecord.root :: replicate 31 None) in Hr.
  destruct k as [|k]; [by injection Hr as <-|]. apply lookup_replicate in Hr. by destruct Hr.
Qed.

Lemma root_record_ok : inode_ok QfsInodeRecord.root.
Proof.
  split; try done; try (repeat (apply Forall_cons; split; [by apply fits_b|]); apply Forall_nil_2).
  - apply empty_extents_ok.
  - split_and!; apply zeros_ok.
Qed.

Lemma demo_table_ok : table_ok (tbl demo_fs).
Proof.
  split; [done| | |].
  - split.
    + by exists 0%nat, (entry_of QfsInodeRecord.root).
    + intros i j a b [-> _]%root_only_has [-> _]%root_only_has. done.
    + intros i j a b [-> _]%root_only_has [-> _]%root_only_has. by left.
    + intros i a [_ ->]%root_only_has. by exists 0%nat, (entry_of QfsInodeRecord.root).
    + intros i a [_ ->]%root_only_has. by left.
  - intros i r Hr. pose proof (proj1 (root_only_has i (entry_of r) (has_shape _ _ _ Hr))) as ->.
    by injection Hr as <-.
  - intros i r Hr. pose proof (proj1 (root_only_has i (entry_of r) (has_shape _ _ _ Hr))) as ->.
    injection Hr as <-. split; [apply root_record_ok|done].
Qed.

Definition demo_calls : list (FsCredentials.t * Call.t) :=
  [ (superuser, Call.Mkdir (bytes_of "/a") dir_mode);
    (superuser, Call.Symlink (bytes_of "/a") (bytes_of "/l"));
    (superuser, Call.Rename (bytes_of "/l") (bytes_of "/a/m"));
    (FsCredentials.user 7 7, Call.Rmdir (bytes_of "/a"));
    (superuser, Call.Link (bytes_of "/a/m") (bytes_of "/n"));
    (superuser, Call.Unlink (bytes_of "/a/m")) ].

Lemma demo_below : inodes_below 2 (dirent (tbl demo_fs)).
Proof.
  intros p n i (k & e & [_ ->]%root_only_has & _ & _ & <-)%dirent_Some; [done|apply demo_table_ok].
Qed.

Lemma superuser_ok : cred_ok superuser.
Proof. split; by apply fits_b. Qed.
Lemma user7_ok : cred_ok (FsCredentials.user 7 7).
Proof. split; by apply fits_b. Qed.

Lemma demo_calls_ok : Forall (λ '(c, o), cred_ok c ∧ call_ok o) demo_calls.
Proof.
  assert (∀ c o l, cred_ok c → call_ok o → Forall (λ '(c, o), cred_ok c ∧ call_ok o) l →
    Forall (λ '(c, o), cred_ok c ∧ call_ok o) ((c, o) :: l)) as Hcons by (intros; by constructor).
  assert (bytes_ok (bytes_of "/a")) as Hb by (apply utf8_bytes; by vm_compute).
  repeat (apply Hcons; [first [apply superuser_ok|apply user7_ok]| |]); [..|constructor]; cbn [call_ok];
    repeat lazymatch goal with
    | |- fits _ _ => apply fits_b; by vm_compute
    | |- path_ok _ => split; by vm_compute
    | |- bytes_ok _ => exact Hb
    | |- _ ∧ _ => split
    end.
Qed.

Lemma qfs_table_invariant_witness : table_ok (tbl (run_calls demo_calls demo_fs)).
Proof.
  apply (qfs_table_invariant demo_fs demo_calls 2); [apply demo_table_ok|by apply fits_b|apply demo_below|lia| |apply demo_calls_ok].
  by vm_compute.
Defined.
(** every call but the one of the unprivileged user succeeds *)
Lemma demo_calls_names : (λ r, (r.(QfsInodeRecord.inode), QfsInodeRecord.name r)) <$>
    omap id (tbl (run_calls demo_calls demo_fs)) = [(1, []); (2, bytes_of "a"); (3, bytes_of "n")].
Proof. by vm_compute. Qed.

Lemma qfs_refines_namespace_witness :
  (run_call superuser (Call.Mkdir (bytes_of "/a") dir_mode) demo_fs).1 = Ok tt ∧
  call_spec (Call.Mkdir (bytes_of "/a") dir_mode) (λ p, allowed (tbl demo_fs) p superuser)
    (dirent (tbl demo_fs)) (dirent (tbl (run_call superuser (Call.Mkdir (bytes_of "/a") dir_mode) demo_fs).2)).
Proof.
  split; [by vm_compute|].
  apply (qfs_refines_namespace demo_fs superuser (Call.Mkdir (bytes_of "/a") dir_mode));
    [apply demo_table_ok|by apply fits_b|by vm_compute|apply superuser_ok|].
  split; [split; by vm_compute|by apply fits_b].
Defined.

Lemma qfs_change_needs_permission_witness : allowed (tbl demo_fs) 1 superuser.
Proof.
  apply (qfs_change_needs_permission demo_fs superuser (Call.Mkdir (bytes_of "/a") dir_mode) 1 (bytes_of "a"));
    [apply demo_table_ok|by apply fits_b|by vm_compute|apply superuser_ok| |by vm_compute].
  split; [split; by vm_compute|by apply fits_b].
Defined.

(** the filesystem after the calls, with the file 3 *)
Definition file_fs : QfsFileSystem RamDisk.t := run_calls demo_calls demo_fs.
Lemma file_usable : usable file_fs.
Proof.
  unfold file_fs.
  apply (run_calls_ok demo_calls demo_fs 2); [|apply demo_below|lia|by vm_compute|apply demo_calls_ok].
  split; [apply demo_table_ok|by apply fits_b].
Qed.

Lemma pwrite_pread_roundtrip_witness :
  let fs' := (pwrite 3 (bytes_of "hello") 10 file_fs).2 in
  (pwrite 3 (bytes_of "hello") 10 file_fs).1 = Ok 5%nat ∧
  pread 3 (replicate 5 0) 10 fs' = (Ok (5%nat, bytes_of "hello"), fs').
Proof.
  destruct (pwrite_pread_roundtrip file_fs 3 (bytes_of "hello") 10 (replicate 5 0)) as [H _];
    [apply file_usable|apply file_usable|done|apply utf8_bytes; by vm_compute|lia|by vm_compute|done|].
  split; [by vm_compute|]. apply (H 5%nat). by vm_compute.
Defined.

(** *** What a remount brings back *)
Definition table_modes (fs : QfsFileSystem RamDisk.t) : list Z := QfsInodeRecord.mode <$> omap id (tbl fs).
Definition chmods : list (FsCredentials.t * Call.t) :=
  (λ m, (superuser, Call.Chmod (bytes_of "/") m)) <$> [448; 449; 450; 451; 452; 453].
Definition remount (fs : QfsFileSystem RamDisk.t) : QfsFileSystem RamDisk.t :=
  (refresh_from_block_device (BlockStorage0 := disk_storage) fs).2.
Definition after_chmods : QfsFileSystem RamDisk.t := run_calls (BlockStorage0 := disk_storage) chmods mounted_fs.

(** five committed changes survive a remount; after the sixth, the journal has wrapped
    around, and replay installs the fifth over it: slots are replayed in the order of their
    position and not of their transaction *)
Lemma replay_reverts_newest :
  table_modes (remount (run_calls (BlockStorage0 := disk_storage) (take 5 chmods) mounted_fs)) = [452] ∧
  table_modes after_chmods = [453] ∧ table_modes (remount after_chmods) = [452].
Proof. by vm_compute. Qed.

(** the journal of the old filesystem is replayed over a freshly formatted one *)
Lemma format_keeps_journal :
  let one := run_calls (BlockStorage0 := disk_storage) (take 1 chmods) mounted_fs in
  (λ d, table_modes (refresh_from_block_device (BlockStorage0 := disk_storage)
     (new_on_block_device false (initialize_image (BlockStorage0 := disk_storage) 640 d).2)).2)
    <$> one.(block_device) = Some [448] ∧
  table_modes mounted_fs = [493].
Proof. by vm_compute. Qed.

(** a directory renamed into itself is its own parent, and no path leads to it *)
Lemma rename_detaches :
  let fs := run_calls [(superuser, Call.Mkdir (bytes_of "/d") dir_mode);
                       (superuser, Call.Rename (bytes_of "/d") (bytes_of "/d/x"))] demo_fs in
  (λ r, (r.(QfsInodeRecord.inode), r.(QfsInodeRecord.parent_inode), QfsInodeRecord.name r)) <$>
    omap id (tbl fs) = [(1, 1, []); (2, 2, bytes_of "x")].
Proof. by vm_compute. Qed.

(** a symbolic link with a long target is entered, and the call reports NoSpace *)
Lemma long_symlink_stays :
  let r := run_call superuser (Call.Symlink (replicate 77 97) (bytes_of "/l")) demo_fs in
  r.1 = Err VfsError.NoSpace ∧ QfsInodeRecord.name <$> omap id (tbl r.2) = [[]; bytes_of "l"].
Proof. by vm_compute. Qed.

(** bytes cut off by ftruncate are back after a later write beyond them *)
Lemma truncate_exposes_old :
  let fs := run_calls [(superuser, Call.Pwrite 3 (bytes_of "secret") 0); (superuser, Call.Ftruncate 3 0);
                       (superuser, Call.Pwrite 3 (bytes_of "!") 6)] file_fs in
  (pread 3 (replicate 7 0) 0 fs).1 = Ok (7%nat, bytes_of "secret!").
Proof. by vm_compute. Qed.

(** a write through one of two names of a file is lost when that name is removed *)
Lemma hard_link_stale :
  let fs := run_calls [(superuser, Call.Link (bytes_of "/n") (bytes_of "/o"));
                       (superuser, Call.Pwrite 3 (bytes_of "new") 0)] file_fs in
  (pread 3 (replicate 3 0) 0 fs).1 = Ok (3%nat, bytes_of "new") ∧
  (pread 3 (replicate 3 0) 0 (run_call superuser (Call.Unlink (bytes_of "/o")) fs).2).1 =
    Ok (2%nat, bytes_of "/a" ++ [0]).
Proof. by vm_compute. Qed.
