(* ===== verification/Paging.v ===== *)
(** * Page tables

    src/src/arch/x86_64/paging.rs: the four-level page tables of the kernel and of user
    address spaces.  A [*mut PageTable] is the virtual address of the table, and [words]
    is the memory the tables lie in: the 64-bit words by address.  Frames come from the
    physical frame allocator through the interface [FrameSource]; the static pool of
    tables used before it is ready starts at the address [TABLES].  The registers the code
    writes are the fields [cr3] and [invalidated], the pages flushed by [invlpg]. *)

From stdpp Require Import prelude gmap.
From S2P Require Import Prelude Slots Subkernel FrameAllocator.

Local Open Scope Z_scope.

Definition ENTRY_COUNT : nat := 512.
Definition MAX_TABLES : Z := 128.
Definition PRESENT : Z := 1.
Definition WRITABLE : Z := 2.
Definition USER_ACCESSIBLE : Z := 4.
Definition WRITE_THROUGH : Z := 8.
Definition CACHE_DISABLE : Z := 16.
Definition GLOBAL : Z := 256.
Definition NO_EXECUTE : Z := 2 ^ 63.
Definition ADDRESS_MASK : Z := 4503599627366400.  (* 0x000f_ffff_ffff_f000 *)
Definition SUPPORTED_PAGE_FLAGS : Z :=
  PRESENT + WRITABLE + USER_ACCESSIBLE + NO_EXECUTE + GLOBAL + WRITE_THROUGH + CACHE_DISABLE.
Definition DEFAULT_IDENTITY_LIMIT : Z := 16 * 1024 * 1024.
Definition USER_LIMIT : Z := 2 ^ 47.  (* 0x0000_8000_0000_0000 *)

Module PagingError.
Inductive t : Type :=
| NotInitialized | MissingHhdm | InvalidAlignment | AddressOverflow | OutOfPageTables
| NotMapped | UnsupportedFlags.
#[global] Instance eq_dec : EqDecision t.
Proof. solve_decision. Defined.
End PagingError.

(** [PageFlags(bits)] and [MappingFlags(bits)] are their bits *)
Definition from_bits (bits : Z) : option Z :=
  if Z.ldiff bits SUPPORTED_PAGE_FLAGS =? 0 then Some bits else None.
Definition kernel_table : Z := Z.lor PRESENT WRITABLE.
Definition READ_ONLY : Z := PRESENT.
Definition WRITABLE_ : Z := Z.lor PRESENT WRITABLE.
Definition WRITABLE_NO_EXECUTE : Z := Z.lor (Z.lor PRESENT WRITABLE) NO_EXECUTE.

Definition flags_from_protection (protection : MemoryProtection.t) : Z :=
  let flags := PRESENT in
  let flags := if protection.(MemoryProtection.write) then Z.lor flags WRITABLE else flags in
  if negb protection.(MemoryProtection.execute) then Z.lor flags NO_EXECUTE else flags.
Definition user_flags_from_protection (protection : MemoryProtection.t) : Z :=
  let flags := Z.lor PRESENT USER_ACCESSIBLE in
  let flags := if protection.(MemoryProtection.write) then Z.lor flags WRITABLE else flags in
  if negb protection.(MemoryProtection.execute) then Z.lor flags NO_EXECUTE else flags.

(** ** Addresses *)
Definition index (address shift : Z) : Z := Z.land (Z.shiftr address shift) 511.
Definition align_down (address : Z) : Z := Z.ldiff address (PAGE_SIZE - 1).
Definition align_up_checked (address : Z) : result PagingError.t Z :=
  match checked_add 64 address (PAGE_SIZE - 1) with
  | Some value => Ok (Z.ldiff value (PAGE_SIZE - 1))
  | None => Err PagingError.AddressOverflow
  end.
Definition validate_page_alignment (virtual_address physical : Z) : result PagingError.t unit :=
  if negb (Z.land virtual_address (PAGE_SIZE - 1) =? 0) || negb (Z.land physical (PAGE_SIZE - 1) =? 0)
  then Err PagingError.InvalidAlignment else Ok tt.
Definition present (entry : Z) : bool := negb (Z.land entry PRESENT =? 0).
Definition physical_from_entry (entry : Z) : Z := Z.land entry ADDRESS_MASK.
Definition page_offset (virtual_address : Z) : Z := Z.land virtual_address (PAGE_SIZE - 1).

(** ** What paging asks of the frame allocator *)
Class FrameSource (F : Type) := {
  allocate_physical_frame : F → option Z * F;
  deallocate_physical_frame : Z → F → F;
  physical_allocator_initialized : F → bool
}.

(** the functions of src/src/kernel/memory.rs over the physical frame allocator *)
#[export] Instance physical_frames : FrameSource PhysicalFrameAllocator.t := {|
  allocate_physical_frame s :=
    match PhysicalFrameAllocator.allocate_frame s with
    | (Ok f, s) => (Some f.(PhysFrame.start), s)
    | (Err _, s) => (None, s)
    end;
  deallocate_physical_frame a s :=
    match PhysFrame.from_start_address a with
    | Ok f => (PhysicalFrameAllocator.free_frame f s).2
    | Err _ => s
    end;
  physical_allocator_initialized := PhysicalFrameAllocator.initialized
|}.

(** the kernel's sections, as the linker script exports them *)
Module KernelSections.
Record t : Type := mk {
  text : VirtualRange.t; rodata : VirtualRange.t; data : VirtualRange.t; bss : VirtualRange.t
}.
End KernelSections.

(** ** State *)
Module Paging.
Record t (F : Type) : Type := mk {
  words : gmap Z Z;
  next : Z;
  frames : F;
  active_translator : AddressTranslator.t;
  active_pml4 : Z;
  kernel_pml4_physical : Z;
  current_address_space_root : Z;
  frame_allocator_ready : bool;
  installed : bool;
  cr3 : Z;
  invalidated : list Z
}.
Arguments mk {F} _ _ _ _ _ _ _ _ _ _ _.
Arguments words {F} _.
Arguments next {F} _.
Arguments frames {F} _.
Arguments active_translator {F} _.
Arguments active_pml4 {F} _.
Arguments kernel_pml4_physical {F} _.
Arguments current_address_space_root {F} _.
Arguments frame_allocator_ready {F} _.
Arguments installed {F} _.
Arguments cr3 {F} _.
Arguments invalidated {F} _.

Section setters.
Context {F : Type}.
Implicit Types s : t F.
(** the statics before boot; [cr3] is what the boot loader left in the register *)
Definition initial (frames : F) (cr3 : Z) : t F :=
  mk ∅ 1 frames AddressTranslator.identity 0 0 0 false false cr3 [].
Definition set_words v s := mk v s.(next) s.(frames) s.(active_translator) s.(active_pml4)
  s.(kernel_pml4_physical) s.(current_address_space_root) s.(frame_allocator_ready)
  s.(installed) s.(cr3) s.(invalidated).
Definition set_next v s := mk s.(words) v s.(frames) s.(active_translator) s.(active_pml4)
  s.(kernel_pml4_physical) s.(current_address_space_root) s.(frame_allocator_ready)
  s.(installed) s.(cr3) s.(invalidated).
Definition set_frames (v : F) s : t F := mk s.(words) s.(next) v s.(active_translator) s.(active_pml4)
  s.(kernel_pml4_physical) s.(current_address_space_root) s.(frame_allocator_ready)
  s.(installed) s.(cr3) s.(invalidated).
Definition set_active tr pml4 s := mk s.(words) s.(next) s.(frames) tr pml4
  s.(kernel_pml4_physical) s.(current_address_space_root) s.(frame_allocator_ready)
  s.(installed) s.(cr3) s.(invalidated).
Definition set_roots kernel current s := mk s.(words) s.(next) s.(frames) s.(active_translator)
  s.(active_pml4) kernel current s.(frame_allocator_ready) s.(installed) s.(cr3) s.(invalidated).
Definition set_flags ready inst s := mk s.(words) s.(next) s.(frames) s.(active_translator)
  s.(active_pml4) s.(kernel_pml4_physical) s.(current_address_space_root) ready inst s.(cr3)
  s.(invalidated).
Definition set_cpu c inv s := mk s.(words) s.(next) s.(frames) s.(active_translator)
  s.(active_pml4) s.(kernel_pml4_physical) s.(current_address_space_root)
  s.(frame_allocator_ready) s.(installed) c inv.
End setters.
End Paging.

Module PageTableWalk.
Record t : Type := mk {
  cr3 : Z; pml4e : Z; pdpte : Z; pde : Z; pte : Z; physical : option Z
}.
End PageTableWalk.

(** the entry at [index] of the table at [table] *)
Definition entry_address (table index : Z) : Z := table + 8 * index.
Definition entry (words : gmap Z Z) (table index : Z) : Z :=
  default 0 (words !! entry_address table index).
(** [entries.fill(0)] on the table at [table] *)
Definition fill_zero (table : Z) (words : gmap Z Z) : gmap Z Z :=
  foldl (λ m i, <[entry_address table (Z.of_nat i) := 0]> m) words (seq 0 ENTRY_COUNT).

Section paging.
Context {F : Type} `{!FrameSource F}.
(** the address of [TABLES.tables] *)
Variable TABLES : Z.
Abbreviation S := (Paging.t F).
Abbreviation Op := (M S PagingError.t).
Abbreviation Opt := (M S unit).

Definition read_entry {E} (table index : Z) : M S E Z := gets (λ s, entry s.(Paging.words) table index).
Definition write_entry {E} (table index value : Z) : M S E unit :=
  modify (λ s, Paging.set_words (<[entry_address table index := value]> s.(Paging.words)) s).
Definition clear_table {E} (table : Z) : M S E unit :=
  modify (λ s, Paging.set_words (fill_zero table s.(Paging.words)) s).
Definition load_cr3 {E} (root : Z) : M S E unit :=
  modify (λ s, Paging.set_cpu root s.(Paging.invalidated) s).
Definition invalidate_page {E} (virtual_address : Z) : M S E unit :=
  modify (λ s, Paging.set_cpu s.(Paging.cr3) (virtual_address :: s.(Paging.invalidated)) s).
(** [allocate_physical_frame().ok_or(e)?] *)
Definition new_frame {E} (e : E) : M S E Z := λ s,
  match allocate_physical_frame s.(Paging.frames) with
  | (Some f, fr) => (Ok f, Paging.set_frames fr s)
  | (None, fr) => (Err e, Paging.set_frames fr s)
  end.
Definition drop_frame {E} (f : Z) : M S E unit :=
  modify (λ s, Paging.set_frames (deallocate_physical_frame f s.(Paging.frames)) s).

(** ** The pool of tables for early boot *)
Definition pool_reset {E} : M S E unit :=
  modify (λ s, Paging.set_next 1 (Paging.set_words
    (foldl (λ m k, fill_zero (TABLES + PAGE_SIZE * Z.of_nat k) m) s.(Paging.words)
       (seq 0 (Z.to_nat MAX_TABLES))) s)).
Definition pool_allocate : Op Z :=
  next ← gets Paging.next;
  if MAX_TABLES <=? next then throw PagingError.OutOfPageTables
  else
    let table := TABLES + PAGE_SIZE * next in
    _ ← modify (Paging.set_next (next + 1));
    _ ← clear_table table;
    mret table.

(** ** Mapping a page *)
Definition allocate_page_table (translator : AddressTranslator.t) : Op (Z * Z) :=
  ready ← gets Paging.frame_allocator_ready;
  if ready : bool then
    physical ← new_frame PagingError.OutOfPageTables;
    mret (AddressTranslator.virtual_for_physical translator physical, physical)
  else
    table ← pool_allocate;
    mret (table, AddressTranslator.physical_for_virtual translator table).

Definition next_table (translator : AddressTranslator.t) (parent index : Z) : Op Z :=
  e ← read_entry parent index;
  e ← (if negb (present e) then
         '(table, physical) ← allocate_page_table translator;
         _ ← clear_table table;
         let e := Z.lor (Z.land physical ADDRESS_MASK) kernel_table in
         _ ← write_entry parent index e;
         mret e
       else mret e);
  mret (AddressTranslator.virtual_for_physical translator (physical_from_entry e)).

Definition map_page_inner (pml4 : Z) (translator : AddressTranslator.t)
    (physical virtual_address flags : Z) : Op unit :=
  pdpt ← next_table translator pml4 (index virtual_address 39);
  pd ← next_table translator pdpt (index virtual_address 30);
  pt ← next_table translator pd (index virtual_address 21);
  let pt_index := index virtual_address 12 in
  old ← read_entry pt pt_index;
  _ ← write_entry pt pt_index (Z.lor (Z.land physical ADDRESS_MASK) flags);
  if present old then invalidate_page virtual_address else mret tt.

(** the loop of [map_range_inner]; [fuel] is the number of pages *)
Fixpoint map_range_loop (fuel : nat) (pml4 : Z) (translator : AddressTranslator.t)
    (physical virtual_address end_ flags : Z) : Op unit :=
  match fuel with
  | O => mret tt
  | Datatypes.S fuel =>
      if negb (virtual_address <? end_) then mret tt
      else
        _ ← map_page_inner pml4 translator physical virtual_address flags;
        physical ← lift (ok_or (checked_add 64 physical PAGE_SIZE) PagingError.AddressOverflow);
        virtual_address ← lift (ok_or (checked_add 64 virtual_address PAGE_SIZE) PagingError.AddressOverflow);
        map_range_loop fuel pml4 translator physical virtual_address end_ flags
  end.
Definition map_range_inner (pml4 : Z) (translator : AddressTranslator.t)
    (physical_start virtual_start length_ flags : Z) : Op unit :=
  let physical := align_down physical_start in
  let virtual_address := align_down virtual_start in
  sum ← lift (ok_or (checked_add 64 virtual_start length_) PagingError.AddressOverflow);
  end_ ← lift (align_up_checked sum);
  map_range_loop (Z.to_nat ((end_ - virtual_address) / PAGE_SIZE)) pml4 translator physical
    virtual_address end_ flags.

(** ** Boot *)
Definition is_early_identity_region (kind : MemoryRegionKind.t) : bool :=
  match kind with
  | MemoryRegionKind.Usable | MemoryRegionKind.BootloaderReclaimable
  | MemoryRegionKind.KernelAndModules | MemoryRegionKind.Framebuffer
  | MemoryRegionKind.AcpiReclaimable => true
  | _ => false
  end.

Fixpoint map_identity_entries (pml4 : Z) (translator : AddressTranslator.t)
    (entries : list MemoryMapEntry.t) (mapped_any : bool) : Op bool :=
  match entries with
  | [] => mret mapped_any
  | e :: rest =>
      if negb (is_early_identity_region e.(MemoryMapEntry.kind)) then
        map_identity_entries pml4 translator rest mapped_any
      else
        let start := align_down e.(MemoryMapEntry.base) in
        sum ← lift (ok_or (checked_add 64 e.(MemoryMapEntry.base) e.(MemoryMapEntry.length_))
                      PagingError.AddressOverflow);
        end_ ← lift (align_up_checked sum);
        let capped_end := Z.min end_ DEFAULT_IDENTITY_LIMIT in
        if start <? capped_end then
          _ ← map_range_inner pml4 translator start start (sat_sub capped_end start)
                WRITABLE_NO_EXECUTE;
          map_identity_entries pml4 translator rest true
        else map_identity_entries pml4 translator rest mapped_any
  end.
Definition map_early_identity_ranges (pml4 : Z) (translator : AddressTranslator.t)
    (boot_info : BootInfo.t) : Op unit :=
  mapped_any ← map_identity_entries pml4 translator
                 (PhysicalFrameAllocator.map_entries boot_info) false;
  if negb mapped_any then
    map_range_inner pml4 translator 0 0 DEFAULT_IDENTITY_LIMIT WRITABLE_NO_EXECUTE
  else mret tt.

Definition map_virtual_section (pml4 : Z) (translator : AddressTranslator.t)
    (section : VirtualRange.t) (flags : Z) : Op unit :=
  let length_ := VirtualRange.length_ section in
  let virtual_start := section.(VirtualRange.start) in
  if length_ =? 0 then mret tt
  else map_range_inner pml4 translator
         (AddressTranslator.physical_for_virtual translator virtual_start) virtual_start length_ flags.

Definition map_kernel_image (pml4 : Z) (translator : AddressTranslator.t) (boot_info : BootInfo.t)
    (sections : KernelSections.t) : Op unit :=
  _ ← match boot_info.(BootInfo.load_range) with
      | Some load =>
          map_range_inner pml4 translator load.(KernelLoadRange.physical_start)
            load.(KernelLoadRange.virtual_start) load.(KernelLoadRange.length_) WRITABLE_
      | None => mret tt
      end;
  _ ← map_virtual_section pml4 translator sections.(KernelSections.text) READ_ONLY;
  _ ← map_virtual_section pml4 translator sections.(KernelSections.rodata)
        (Z.lor READ_ONLY NO_EXECUTE);
  _ ← map_virtual_section pml4 translator sections.(KernelSections.data) WRITABLE_NO_EXECUTE;
  map_virtual_section pml4 translator sections.(KernelSections.bss) WRITABLE_NO_EXECUTE.

Definition map_framebuffer (pml4 : Z) (translator : AddressTranslator.t) (boot_info : BootInfo.t)
    : Op unit :=
  match boot_info.(BootInfo.framebuffer) with
  | Some framebuffer =>
      length_ ← lift (ok_or (checked_mul 64 framebuffer.(FramebufferInfo.pitch)
                               framebuffer.(FramebufferInfo.height)) PagingError.AddressOverflow);
      map_range_inner pml4 translator
        (AddressTranslator.physical_for_virtual translator framebuffer.(FramebufferInfo.address))
        framebuffer.(FramebufferInfo.address) length_ WRITABLE_NO_EXECUTE
  | None => mret tt
  end.

(** [let _ = m;] *)
Definition ignore {A} (m : Op A) : Op unit := λ s, (Ok tt, (m s).2).

Definition initialize (boot_info : BootInfo.t) (sections : KernelSections.t) : Op unit :=
  let translator := AddressTranslator.new boot_info in
  _ ← modify (λ s, Paging.set_active translator s.(Paging.active_pml4) s);
  match boot_info.(BootInfo.hhdm_offset) with
  | Some _ =>
      modify (λ s,
        let root := s.(Paging.cr3) in
        Paging.set_flags s.(Paging.frame_allocator_ready) true
          (Paging.set_active translator (AddressTranslator.virtual_for_physical translator root)
             (Paging.set_roots root root s)))
  | None =>
      _ ← pool_reset;
      let pml4 := TABLES in
      _ ← ignore (map_early_identity_ranges pml4 translator boot_info);
      _ ← ignore (map_kernel_image pml4 translator boot_info sections);
      _ ← ignore (map_framebuffer pml4 translator boot_info);
      let root := AddressTranslator.physical_for_virtual translator pml4 in
      _ ← modify (λ s, Paging.set_active translator pml4 (Paging.set_roots root root s));
      _ ← load_cr3 root;
      modify (λ s, Paging.set_flags s.(Paging.frame_allocator_ready) true s)
  end.

Definition enable_frame_backed_mapping (boot_info : BootInfo.t) : Op unit :=
  match boot_info.(BootInfo.hhdm_offset) with
  | None => throw PagingError.MissingHhdm
  | Some _ =>
      let translator := AddressTranslator.new boot_info in
      _ ← modify (λ s,
            if s.(Paging.kernel_pml4_physical) =? 0
            then Paging.set_roots s.(Paging.cr3) s.(Paging.cr3) s else s);
      modify (λ s,
        Paging.set_flags true s.(Paging.installed)
          (Paging.set_active translator
             (AddressTranslator.virtual_for_physical translator s.(Paging.kernel_pml4_physical)) s))
  end.

(** ** The kernel's address space *)
Definition table_for_physical (s : S) (physical : Z) : Z :=
  AddressTranslator.virtual_for_physical s.(Paging.active_translator) physical.

Definition map_page (virt phys flags : Z) : Op unit :=
  _ ← lift (validate_page_alignment virt phys);
  if negb (Z.ldiff flags SUPPORTED_PAGE_FLAGS =? 0) then throw PagingError.UnsupportedFlags
  else
    pml4 ← gets Paging.active_pml4;
    if pml4 =? 0 then throw PagingError.NotInitialized
    else
      translator ← gets Paging.active_translator;
      map_page_inner pml4 translator phys virt (Z.lor flags PRESENT).

Definition map_kernel_page (physical virtual_address : Z) (protection : MemoryProtection.t) : Op unit :=
  map_page virtual_address physical (flags_from_protection protection).

(** the table that holds the entry of a page *)
Definition leaf_table (s : S) (pml4 virtual_address : Z) : option Z :=
  let pml4e := entry s.(Paging.words) pml4 (index virtual_address 39) in
  if negb (present pml4e) then None
  else
    let pdpt := table_for_physical s (Z.land pml4e ADDRESS_MASK) in
    let pdpte := entry s.(Paging.words) pdpt (index virtual_address 30) in
    if negb (present pdpte) then None
    else
      let pd := table_for_physical s (Z.land pdpte ADDRESS_MASK) in
      let pde := entry s.(Paging.words) pd (index virtual_address 21) in
      if negb (present pde) then None
      else Some (table_for_physical s (Z.land pde ADDRESS_MASK)).

Definition unmap_page (virt : Z) : Op Z :=
  _ ← lift (validate_page_alignment virt 0);
  pml4 ← gets Paging.active_pml4;
  if pml4 =? 0 then throw PagingError.NotInitialized
  else
    leaf ← gets (λ s, leaf_table s pml4 virt);
    pt ← lift (ok_or leaf PagingError.NotMapped);
    let slot := index virt 12 in
    e ← read_entry pt slot;
    if negb (present e) then throw PagingError.NotMapped
    else
      _ ← write_entry pt slot 0;
      _ ← invalidate_page virt;
      mret (Z.land e ADDRESS_MASK).

Definition walk_kernel_page_tables (virtual_address : Z) (s : S) : option PageTableWalk.t :=
  let pml4 := s.(Paging.active_pml4) in
  let cr3 := s.(Paging.current_address_space_root) in
  if pml4 =? 0 then None
  else
    let pml4e := entry s.(Paging.words) pml4 (index virtual_address 39) in
    if negb (present pml4e) then Some (PageTableWalk.mk cr3 pml4e 0 0 0 None)
    else
      let pdpt := table_for_physical s (Z.land pml4e ADDRESS_MASK) in
      let pdpte := entry s.(Paging.words) pdpt (index virtual_address 30) in
      if negb (present pdpte) then Some (PageTableWalk.mk cr3 pml4e pdpte 0 0 None)
      else
        let pd := table_for_physical s (Z.land pdpte ADDRESS_MASK) in
        let pde := entry s.(Paging.words) pd (index virtual_address 21) in
        if negb (present pde) then Some (PageTableWalk.mk cr3 pml4e pdpte pde 0 None)
        else
          let pt := table_for_physical s (Z.land pde ADDRESS_MASK) in
          let pte := entry s.(Paging.words) pt (index virtual_address 12) in
          let physical :=
            if present pte then Some (Z.lor (Z.land pte ADDRESS_MASK) (page_offset virtual_address))
            else None in
          Some (PageTableWalk.mk cr3 pml4e pdpte pde pte physical).

Definition translate_virt (virt : Z) (s : S) : option Z :=
  if s.(Paging.active_pml4) =? 0 then None
  else
    pt ← leaf_table s s.(Paging.active_pml4) virt;
    let pte := entry s.(Paging.words) pt (index virt 12) in
    if negb (present pte) then None
    else Some (Z.lor (Z.land pte ADDRESS_MASK) (page_offset virt)).

(** the loop of [map_range]; [fuel] is the number of pages *)
Fixpoint map_range_pages (fuel : nat) (virt_start phys_start length_ offset flags : Z) : Op unit :=
  match fuel with
  | O => mret tt
  | Datatypes.S fuel =>
      if negb (offset <? length_) then mret tt
      else
        _ ← map_page (virt_start + offset) (phys_start + offset) flags;
        offset ← lift (ok_or (checked_add 64 offset PAGE_SIZE) PagingError.AddressOverflow);
        map_range_pages fuel virt_start phys_start length_ offset flags
  end.
Definition map_range (virt_start phys_start length_ flags : Z) : Op unit :=
  _ ← lift (validate_page_alignment virt_start phys_start);
  if (length_ =? 0) || negb (Z.land length_ (PAGE_SIZE - 1) =? 0)
  then throw PagingError.InvalidAlignment
  else
    _ ← lift (ok_or (checked_add 64 virt_start length_) PagingError.AddressOverflow);
    _ ← lift (ok_or (checked_add 64 phys_start length_) PagingError.AddressOverflow);
    map_range_pages (Z.to_nat (length_ / PAGE_SIZE)) virt_start phys_start length_ 0 flags.

Definition hhdm_virt_for_phys (physical : Z) (s : S) : option Z :=
  offset ← s.(Paging.active_translator).(AddressTranslator.hhdm_offset);
  checked_add 64 physical offset.
Definition hhdm_phys_for_virt (virtual_address : Z) (s : S) : option Z :=
  offset ← s.(Paging.active_translator).(AddressTranslator.hhdm_offset);
  checked_sub virtual_address offset.

Definition switch_address_space (root : Z) : Opt unit :=
  kernel ← gets Paging.kernel_pml4_physical;
  let target := if root =? 0 then kernel else root in
  if target =? 0 then throw tt
  else
    current ← gets Paging.current_address_space_root;
    if negb (current =? target) then
      _ ← load_cr3 target;
      modify (λ s, Paging.set_roots s.(Paging.kernel_pml4_physical) target s)
    else mret tt.

(** ** User address spaces *)
Definition create_user_address_space : Opt Z :=
  frame ← new_frame tt;
  pml4 ← gets (λ s, table_for_physical s frame);
  _ ← clear_table pml4;
  active ← gets Paging.active_pml4;
  _ ← (if negb (active =? 0) then
         mfor (seq 256 256) (λ idx,
           e ← read_entry active (Z.of_nat idx);
           write_entry pml4 (Z.of_nat idx) e)
       else mret tt);
  mret frame.

Definition destroy_pd (pd : Z) : Opt unit :=
  mfor (seq 0 ENTRY_COUNT) (λ pd_idx,
    pde ← read_entry pd (Z.of_nat pd_idx);
    if present pde then drop_frame (Z.land pde ADDRESS_MASK) else mret tt).
Definition destroy_pdpt (pdpt : Z) : Opt unit :=
  mfor (seq 0 ENTRY_COUNT) (λ pdpt_idx,
    pdpte ← read_entry pdpt (Z.of_nat pdpt_idx);
    if present pdpte then
      let pd_phys := Z.land pdpte ADDRESS_MASK in
      pd ← gets (λ s, table_for_physical s pd_phys);
      _ ← destroy_pd pd;
      drop_frame pd_phys
    else mret tt).
Definition destroy_user_address_space (root : Z) : Opt unit :=
  kernel ← gets Paging.kernel_pml4_physical;
  if (root =? 0) || (root =? kernel) then mret tt
  else
    pml4 ← gets (λ s, table_for_physical s root);
    _ ← mfor (seq 0 256) (λ pml4_idx,
      pml4e ← read_entry pml4 (Z.of_nat pml4_idx);
      if present pml4e then
        let pdpt_phys := Z.land pml4e ADDRESS_MASK in
        pdpt ← gets (λ s, table_for_physical s pdpt_phys);
        _ ← destroy_pdpt pdpt;
        drop_frame pdpt_phys
      else mret tt);
    drop_frame root.

Definition user_next_table (parent slot : Z) : Opt Z :=
  e ← read_entry parent slot;
  e ← (if negb (present e) then
         frame ← new_frame tt;
         table ← gets (λ s, table_for_physical s frame);
         _ ← clear_table table;
         let e := Z.lor (Z.lor (Z.lor (Z.land frame ADDRESS_MASK) PRESENT) WRITABLE) USER_ACCESSIBLE in
         _ ← write_entry parent slot e;
         mret e
       else mret e);
  gets (λ s, table_for_physical s (Z.land e ADDRESS_MASK)).

Definition map_user_page (root virtual_address physical : Z) (protection : MemoryProtection.t) : Opt unit :=
  if (root =? 0) || (USER_LIMIT <=? virtual_address) || negb (page_offset virtual_address =? 0)
  then throw tt
  else
    pml4 ← gets (λ s, table_for_physical s root);
    pdpt ← user_next_table pml4 (index virtual_address 39);
    pd ← user_next_table pdpt (index virtual_address 30);
    pt ← user_next_table pd (index virtual_address 21);
    let flags := user_flags_from_protection protection in
    write_entry pt (index virtual_address 12) (Z.lor (Z.land physical ADDRESS_MASK) flags).

Definition user_leaf_table (s : S) (root virtual_address : Z) : option Z :=
  if (root =? 0) || (USER_LIMIT <=? virtual_address) then None
  else
    let pml4 := table_for_physical s root in
    let pml4e := entry s.(Paging.words) pml4 (index virtual_address 39) in
    if negb (present pml4e) then None
    else
      let pdpt := table_for_physical s (Z.land pml4e ADDRESS_MASK) in
      let pdpte := entry s.(Paging.words) pdpt (index virtual_address 30) in
      if negb (present pdpte) then None
      else
        let pd := table_for_physical s (Z.land pdpte ADDRESS_MASK) in
        let pde := entry s.(Paging.words) pd (index virtual_address 21) in
        if negb (present pde) then None
        else Some (table_for_physical s (Z.land pde ADDRESS_MASK)).

Definition unmap_user_page (root virtual_address : Z) : Opt Z :=
  leaf ← gets (λ s, user_leaf_table s root virtual_address);
  pt ← lift (ok_or leaf tt);
  let slot := index virtual_address 12 in
  e ← read_entry pt slot;
  if negb (present e) then throw tt
  else
    _ ← write_entry pt slot 0;
    mret (Z.land e ADDRESS_MASK).

Definition translate_user_page (root virtual_address : Z) (write : bool) (s : S) : option Z :=
  pt ← user_leaf_table s root virtual_address;
  let e := entry s.(Paging.words) pt (index virtual_address 12) in
  if negb (present e) || (Z.land e USER_ACCESSIBLE =? 0) then None
  else if write && (Z.land e WRITABLE =? 0) then None
  else Some (Z.lor (Z.land e ADDRESS_MASK) (page_offset virtual_address)).
End paging.
