(* ===== verification/PagingSafety.v ===== *)
(** * What the page tables map

    The tables of an address space form a tree: a [tree] is the frame of a level-4 table
    with the range of its entries that belong to the tree (all of them for the kernel, the
    lower half for a user address space, whose upper half is shared).  [forest_ok] says
    that the trees in use share no table and that no table is a frame the allocator can
    still hand out.  It is kept by every operation, and it is what makes an operation on
    one page leave every other page of every address space alone: [pte] is the entry a
    page is mapped by. *)

From stdpp Require Import prelude gmap.
From S2P Require Import Prelude Slots Subkernel FrameAllocator FrameSafety Paging.

Local Open Scope Z_scope.

(** ** Frames and entries *)
(** an address that is all of the address bits of an entry: page aligned, below 2^52 *)
Definition framed (f : Z) : Prop := Z.land f ADDRESS_MASK = f.
(** physical memory ends here; the direct map of the upper half has room for twice this *)
Definition PHYSICAL_LIMIT : Z := 2 ^ 46.
(** a frame of physical memory *)
Definition good (f : Z) : Prop := framed f ∧ f < PHYSICAL_LIMIT.

Lemma framed_nonneg f : framed f → 0 <= f.
Proof. intros <-. apply Z.land_nonneg. right. by vm_compute. Qed.
Lemma framed_land e : framed (Z.land e ADDRESS_MASK).
Proof. unfold framed. rewrite <-Z.land_assoc. by rewrite Z.land_diag. Qed.

(** bits that do not touch the address *)
Definition flag_bits (flags : Z) : Prop := Z.land flags ADDRESS_MASK = 0.
Lemma entry_frame f flags : framed f → flag_bits flags → Z.land (Z.lor f flags) ADDRESS_MASK = f.
Proof. intros Hf Hb. by rewrite Z.land_lor_distr_l, Hf, Hb, Z.lor_0_r. Qed.

Lemma present_bit e : present e = Z.testbit e 0.
Proof.
  unfold present, PRESENT. change 1 with (Z.ones 1). rewrite Z.land_ones by lia.
  change (2 ^ 1) with 2. rewrite Zmod_odd, Z.bit0_odd. by destruct (Z.odd e).
Qed.
Lemma present_lor e flags : present flags = true → present (Z.lor e flags) = true.
Proof. rewrite !present_bit, Z.lor_spec. intros ->. apply orb_true_r. Qed.
Lemma present_zero : present 0 = false.
Proof. done. Qed.

(** ** Walks *)
Section walks.
Variable tr : AddressTranslator.t.
Abbreviation vaddr := (AddressTranslator.virtual_for_physical tr).

(** distinct entries of distinct frames lie at distinct addresses *)
Definition translator_ok : Prop := ∀ f g i j,
  good f → good g → 0 <= i < 512 → 0 <= j < 512 →
  entry_address (vaddr f) i = entry_address (vaddr g) j → f = g ∧ i = j.

Fixpoint walk (m : gmap Z Z) (f : Z) (path : list Z) : option Z :=
  match path with
  | [] => Some f
  | i :: rest =>
      let e := entry m (vaddr f) i in
      if present e then walk m (Z.land e ADDRESS_MASK) rest else None
  end.

Lemma walk_app m f p q : walk m f (p ++ q) = walk m f p ≫= λ g, walk m g q.
Proof. revert f. induction p as [|i p IH]; intros f; cbn; [done|]. by destruct (present _). Qed.

Lemma walk_agree m m' f p :
  (∀ q i r g, p = q ++ i :: r → walk m f q = Some g → entry m' (vaddr g) i = entry m (vaddr g) i) →
  walk m' f p = walk m f p.
Proof.
  revert f. induction p as [|i p IH]; intros f H; cbn; [done|].
  rewrite (H [] i p f eq_refl eq_refl). destruct (present (entry m (vaddr f) i)) eqn:E; [|done].
  apply IH. intros q j r g -> Hg. apply (H (i :: q) j r g eq_refl). cbn. by rewrite E.
Qed.

(** ** Forests *)
Record tree : Type := Tree { t_root : Z; t_low : Z; t_high : Z }.
#[export] Instance tree_eq_dec : EqDecision tree.
Proof. solve_decision. Defined.

Definition path_ok (t : tree) (p : list Z) : Prop :=
  (length p <= 3)%nat ∧ 0 <= t.(t_low) ∧ t.(t_high) <= 512 ∧
  match p with [] => True | i :: r => t.(t_low) <= i < t.(t_high) ∧ Forall (λ j, 0 <= j < 512) r end.

Lemma path_ok_index t q i r : path_ok t (q ++ i :: r) → 0 <= i < 512.
Proof.
  intros (_ & Hl & Hh & H). destruct q as [|k q]; cbn in H; [lia|]. destruct H as [_ H].
  rewrite Forall_app, Forall_cons in H. tauto.
Qed.
Lemma path_ok_prefix t q r : path_ok t (q ++ r) → path_ok t q.
Proof.
  intros (Hn & Hl & Hh & H). split; [rewrite length_app in Hn; lia|]. split; [done|]. split; [done|].
  destruct q as [|k q]; [done|]. cbn in H. destruct H as [? H]. rewrite Forall_app in H. tauto.
Qed.

Definition table_at (m : gmap Z Z) (t : tree) (p : list Z) (f : Z) : Prop :=
  path_ok t p ∧ walk m t.(t_root) p = Some f.

Record forest_ok (m : gmap Z Z) (trees : list tree) (spare : Z → Prop) : Prop := {
  fo_good : ∀ t p f, t ∈ trees → table_at m t p f → good f;
  fo_inj : ∀ t1 t2 p1 p2 f, t1 ∈ trees → t2 ∈ trees → table_at m t1 p1 f → table_at m t2 p2 f →
    t1 = t2 ∧ p1 = p2;
  fo_spare : ∀ t p f, t ∈ trees → table_at m t p f → ¬ spare f
}.

Section forest.
Hypothesis Htr : translator_ok.
Variables (m : gmap Z Z) (trees : list tree) (spare : Z → Prop).
Hypothesis Hfo : forest_ok m trees spare.

Lemma table_good t p f : t ∈ trees → table_at m t p f → good f.
Proof. by apply (fo_good _ _ _ Hfo). Qed.

(** a write to a table changes no walk but those through the entry *)
Lemma walk_write_other t p g j v t2 q : t ∈ trees → t2 ∈ trees → table_at m t p g → 0 <= j < 512 →
  path_ok t2 q → ¬ (t2 = t ∧ ∃ r, q = p ++ j :: r) →
  walk (<[entry_address (vaddr g) j := v]> m) t2.(t_root) q = walk m t2.(t_root) q.
Proof.
  intros Ht Ht2 Hg Hj Hq Hne. apply walk_agree. intros q1 i r g2 -> Hw. unfold entry.
  rewrite lookup_insert_ne; [done|]. intros E. apply Hne.
  assert (table_at m t2 q1 g2) as Hg2 by (split; [by eapply path_ok_prefix|done]).
  destruct (Htr g g2 j i) as [<- <-]; [exact (table_good t p g Ht Hg)|exact (table_good t2 q1 g2 Ht2 Hg2)|done|by eapply path_ok_index|done|].
  destruct (fo_inj _ _ _ Hfo t2 t q1 p g) as [-> ->]; try done. split; [done|]. by exists r.
Qed.

Lemma entry_fill_zero f g i : good f → good g → 0 <= i < 512 →
  entry (fill_zero (vaddr f) m) (vaddr g) i = if decide (f = g) then 0 else entry m (vaddr g) i.
Proof.
  intros Hf Hg Hi. unfold fill_zero. assert (∀ l, (∀ k, k ∈ l → (k < 512)%nat) →
    entry (foldl (λ m k, <[entry_address (vaddr f) (Z.of_nat k) := 0]> m) m l) (vaddr g) i =
    if decide (f = g ∧ Z.to_nat i ∈ l) then 0 else entry m (vaddr g) i) as H.
  { induction l as [|k l IH] using rev_ind; intros Hl.
    - cbn. rewrite decide_False; [done|]. intros [_ H]. by apply elem_of_nil in H.
    - rewrite foldl_app. cbn [foldl]. unfold entry at 1.
      destruct (decide (entry_address (vaddr f) (Z.of_nat k) = entry_address (vaddr g) i)) as [E|E].
      + rewrite E, lookup_insert_eq. destruct (Htr f g (Z.of_nat k) i) as [-> <-]; try done.
        { pose proof (Hl k). rewrite elem_of_app, list_elem_of_singleton in H. lia. }
        rewrite decide_True; [done|]. split; [done|]. rewrite Nat2Z.id, elem_of_app, list_elem_of_singleton. by right.
      + rewrite lookup_insert_ne by done. fold (entry (foldl (λ m k, <[entry_address (vaddr f) (Z.of_nat k) := 0]> m) m l) (vaddr g) i).
        rewrite IH by (intros; apply Hl; rewrite elem_of_app; by left).
        apply decide_ext. rewrite elem_of_app, list_elem_of_singleton. split; [tauto|].
        intros [-> [?| <-]]; [done|]. destruct E. by rewrite Z2Nat.id by lia. }
  rewrite H.
  - apply decide_ext. rewrite elem_of_seq. unfold ENTRY_COUNT. split; [tauto|]. intros ->. split; [done|lia].
  - intros k. rewrite elem_of_seq. unfold ENTRY_COUNT. lia.
Qed.

(** clearing a frame nobody uses changes no walk *)
Lemma walk_clear_spare f t q : good f → spare f → t ∈ trees → path_ok t q →
  walk (fill_zero (vaddr f) m) t.(t_root) q = walk m t.(t_root) q.
Proof.
  intros Hf Hs Ht Hq. apply walk_agree. intros q1 i r g -> Hw.
  assert (table_at m t q1 g) as Hg by (split; [by eapply path_ok_prefix|done]).
  rewrite entry_fill_zero; [|done|exact (table_good t q1 g Ht Hg)|by eapply path_ok_index].
  rewrite decide_False; [done|]. intros ->. by eapply (fo_spare _ _ _ Hfo).
Qed.

(** *** The entry of a page *)
Definition page_path (va : Z) : list Z := [index va 39; index va 30; index va 21].
#[local] Arguments page_path : simpl never.
Definition leaf_entry (m : gmap Z Z) (pt va : Z) : option Z :=
  let e := entry m (vaddr pt) (index va 12) in if present e then Some e else None.
Definition pte (m : gmap Z Z) (t : tree) (va : Z) : option Z :=
  walk m t.(t_root) (page_path va) ≫= λ pt, leaf_entry m pt va.

Lemma index_bound va shift : 0 <= index va shift < 512.
Proof.
  unfold index. change 511 with (Z.ones 9). rewrite Z.land_ones by lia. apply Z.mod_pos_bound. lia.
Qed.

(** *** A new table *)
Section install.
Variables (t : tree) (p : list Z) (g j f flags : Z).
Hypotheses (Ht : t ∈ trees) (Hg : table_at m t p g) (Hp : path_ok t (p ++ [j])).
Hypotheses (Hf : good f) (Hs : spare f) (Hfl : flag_bits flags) (Hpr : present flags = true).
Hypothesis Hnone : present (entry m (vaddr g) j) = false.

Definition installed_words : gmap Z Z :=
  <[entry_address (vaddr g) j := Z.lor f flags]> (fill_zero (vaddr f) m).

Lemma install_parent_ne : g ≠ f.
Proof. intros ->. by eapply (fo_spare _ _ _ Hfo). Qed.

Lemma entry_installed h i : good h → 0 <= i < 512 →
  entry installed_words (vaddr h) i =
  if decide (h = g ∧ i = j) then Z.lor f flags
  else if decide (h = f) then 0 else entry m (vaddr h) i.
Proof.
  intros Hh Hi. unfold installed_words, entry at 1.
  assert (0 <= j < 512) as Hj by (by eapply path_ok_index).
  case_decide as E.
  - destruct E as [-> ->]. by rewrite lookup_insert_eq.
  - rewrite lookup_insert_ne.
    + fold (entry (fill_zero (vaddr f) m) (vaddr h) i). rewrite entry_fill_zero by done. by apply decide_ext.
    + intros Ha. apply E. destruct (Htr g h j i) as [? ?]; [exact (table_good t p g Ht Hg)|done..|]. by subst.
Qed.

Lemma walk_fresh_none r h : h = f → r ≠ [] → Forall (λ k, 0 <= k < 512) r → walk installed_words h r = None.
Proof.
  intros -> Hr Hall. destruct r as [|i r]; [done|]. cbn. rewrite Forall_cons in Hall. destruct Hall as [Hi _].
  rewrite entry_installed by done. rewrite decide_False by (intros [? _]; by apply install_parent_ne).
  by rewrite decide_True.
Qed.

Lemma walk_installed t2 q : t2 ∈ trees → path_ok t2 q →
  walk installed_words t2.(t_root) q =
  if decide (t2 = t ∧ q = p ++ [j]) then Some f else walk m t2.(t_root) q.
Proof.
  intros Ht2 Hq. destruct (decide (t2 = t ∧ take (length p + 1) q = p ++ [j])) as [[-> Hpre]|Hne].
  - rewrite <-(take_drop (length p + 1) q), Hpre in Hq |- *. set (r := drop (length p + 1) q) in *.
    rewrite !walk_app.
    assert (walk installed_words (t_root t) p = Some g) as Hw.
    { rewrite <-(proj2 Hg). apply walk_agree. intros q1 i r1 h Hpq Hh.
      assert (table_at m t q1 h) as Hh1.
      { split; [|done]. apply (path_ok_prefix t q1 (i :: r1)). rewrite <-Hpq. apply Hg. }
      assert (0 <= i < 512) as Hi by (eapply (path_ok_index t q1 i r1); rewrite <-Hpq; apply Hg).
      rewrite entry_installed; [|exact (table_good t q1 h Ht Hh1)|done].
      rewrite !decide_False; [done| |].
      - intros ->. by eapply (fo_spare _ _ _ Hfo).
      - intros [-> _]. destruct (fo_inj _ _ _ Hfo t t q1 p g) as [_ E]; try done.
        rewrite Hpq in E. apply (f_equal length) in E. rewrite length_app in E. cbn in E. lia. }
    rewrite Hw, (proj2 Hg). cbn.
    rewrite entry_installed; [|exact (table_good t p g Ht Hg)|by eapply path_ok_index].
    rewrite decide_True, Hnone by done. rewrite present_lor, entry_frame by (done || apply Hf). cbn.
    destruct (decide (r = [])) as [->|Hr].
    + rewrite decide_True; [done|]. split; [done|]. by rewrite app_nil_r.
    + rewrite decide_False.
      * apply walk_fresh_none; [done|done|]. destruct Hq as (_ & _ & _ & Hq).
        destruct p as [|k p']; cbn in Hq; [tauto|]. destruct Hq as [_ Hq]. rewrite !Forall_app in Hq. tauto.
      * intros [_ E]. rewrite <-app_assoc in E. apply (f_equal length) in E.
        rewrite !length_app in E. destruct r; [done|cbn in E; lia].
  - rewrite decide_False.
    + unfold installed_words.
      assert (¬ (t2 = t ∧ ∃ r, q = p ++ j :: r)) as Hno.
      { intros [-> [r ->]]. apply Hne. split; [done|].
        rewrite take_app_ge by lia. by replace (length p + 1 - length p)%nat with 1%nat by lia. }
      transitivity (walk (fill_zero (vaddr f) m) t2.(t_root) q); [|by apply walk_clear_spare].
      apply walk_agree. intros q1 i r h -> Hh.
      assert (table_at m t2 q1 h) as Hh1.
      { split; [by eapply path_ok_prefix|]. rewrite <-(walk_clear_spare f t2 q1); try done. by eapply path_ok_prefix. }
      assert (0 <= i < 512) as Hi by (by eapply path_ok_index).
      unfold entry. rewrite lookup_insert_ne; [done|]. intros Ha. apply Hno.
      destruct (Htr g h j i) as [Hgh Hji];
        [exact (table_good t p g Ht Hg)|exact (table_good t2 q1 h Ht2 Hh1)|by eapply path_ok_index|done|done|].
      rewrite <-Hgh in Hh1. destruct (fo_inj _ _ _ Hfo t2 t q1 p g Ht2 Ht Hh1 Hg) as [-> ->].
      split; [done|]. exists r. by rewrite Hji.
    + intros [-> ->]. apply Hne. split; [done|]. rewrite take_ge; [done|]. rewrite length_app. cbn. lia.
Qed.

Lemma pte_installed t2 va : t2 ∈ trees → path_ok t2 (page_path va) → (length p < 3)%nat →
  pte installed_words t2 va = pte m t2 va.
Proof.
  intros Ht2 Hva Hlen. unfold pte. rewrite walk_installed by done. pose proof (index_bound va 12) as Hi.
  case_decide as E.
  - destruct E as [-> Hpath]. cbn. unfold leaf_entry. rewrite entry_installed by done.
    rewrite decide_False by (intros [? _]; by apply install_parent_ne). rewrite decide_True by done. cbn.
    rewrite Hpath, walk_app, (proj2 Hg). cbn. by rewrite Hnone.
  - destruct (walk m (t_root t2) (page_path va)) as [pt|] eqn:Hw; [|done]. cbn. unfold leaf_entry.
    assert (table_at m t2 (page_path va) pt) as Hpt by done.
    rewrite entry_installed; [|exact (table_good t2 _ pt Ht2 Hpt)|done]. rewrite !decide_False; [done| |].
    + intros ->. by eapply (fo_spare _ _ _ Hfo).
    + intros [-> _]. destruct (fo_inj _ _ _ Hfo t2 t (page_path va) p g) as [_ Hx]; try done.
      rewrite <-Hx in Hlen. unfold page_path in Hlen. cbn in Hlen. lia.
Qed.

Lemma table_installed t2 q h : t2 ∈ trees →
  table_at installed_words t2 q h ↔ (t2 = t ∧ q = p ++ [j] ∧ h = f) ∨ table_at m t2 q h.
Proof.
  intros Ht2. split.
  - intros [Hq Hw]. rewrite walk_installed in Hw by done. case_decide as E; [|by right].
    left. destruct E. split_and!; [done|done|congruence].
  - assert (walk m (t_root t) (p ++ [j]) = None) as Hn.
    { rewrite walk_app, (proj2 Hg). cbn. by rewrite Hnone. }
    intros [(-> & -> & ->)|[Hq Hw]].
    + split; [done|]. rewrite walk_installed by done. by rewrite decide_True.
    + split; [done|]. rewrite walk_installed by done. rewrite decide_False; [done|]. intros [-> ->]. congruence.
Qed.

Lemma forest_installed (spare' : Z → Prop) : (∀ h, spare' h → spare h ∧ h ≠ f) →
  forest_ok installed_words trees spare'.
Proof.
  intros Hs'. split.
  - intros t1 p1 h H1. rewrite table_installed by done. intros [(_ & _ & ->)|Ha]; [done|exact (table_good t1 p1 h H1 Ha)].
  - intros t1 t2 p1 p2 h H1 H2. rewrite !table_installed by done.
    intros [(-> & -> & ->)|Ha] [(-> & -> & Hh)|Hb]; [done| | |by eapply (fo_inj _ _ _ Hfo)].
    + destruct (fo_spare _ _ _ Hfo t2 p2 f); done.
    + subst h. destruct (fo_spare _ _ _ Hfo t1 p1 f); done.
  - intros t1 p1 h H1. rewrite table_installed by done. intros [(-> & -> & ->)|Ha] [Hsp Hne]%Hs'; [done|].
    by eapply (fo_spare _ _ _ Hfo).
Qed.
End install.

(** *** A new entry for a page *)
Definition same_page (va va' : Z) : Prop := page_path va = page_path va' ∧ index va 12 = index va' 12.
#[export] Instance same_page_dec va va' : Decision (same_page va va').
Proof. unfold same_page. apply _. Defined.

Section leaf.
Variables (t : tree) (va pt v : Z).
Hypotheses (Ht : t ∈ trees) (Hpt : table_at m t (page_path va) pt).
Definition mapped_words : gmap Z Z := <[entry_address (vaddr pt) (index va 12) := v]> m.

Lemma walk_mapped t2 q : t2 ∈ trees → path_ok t2 q → walk mapped_words t2.(t_root) q = walk m t2.(t_root) q.
Proof.
  intros Ht2 Hq. eapply (walk_write_other t (page_path va)); try done; [apply index_bound|].
  intros [_ [r ->]]. destruct Hq as [Hl _]. rewrite length_app in Hl. unfold page_path in Hl. cbn in Hl. lia.
Qed.
Lemma table_mapped t2 q h : t2 ∈ trees → table_at mapped_words t2 q h ↔ table_at m t2 q h.
Proof. intros Ht2. split; intros [Hq Hw]; (split; [done|]); [rewrite <-walk_mapped|rewrite walk_mapped]; done. Qed.
Lemma forest_mapped : forest_ok mapped_words trees spare.
Proof.
  split.
  - intros t1 p1 h H1. rewrite table_mapped by done. by apply (fo_good _ _ _ Hfo).
  - intros t1 t2 p1 p2 h H1 H2. rewrite !table_mapped by done. by apply (fo_inj _ _ _ Hfo).
  - intros t1 p1 h H1. rewrite table_mapped by done. by apply (fo_spare _ _ _ Hfo).
Qed.
Lemma pte_mapped t2 va2 : t2 ∈ trees → path_ok t2 (page_path va2) →
  pte mapped_words t2 va2 =
  if decide (t2 = t ∧ same_page va2 va) then (if present v then Some v else None) else pte m t2 va2.
Proof.
  intros Ht2 Hq. unfold pte. rewrite walk_mapped by done.
  assert (∀ pt2, walk m (t_root t2) (page_path va2) = Some pt2 →
    entry mapped_words (vaddr pt2) (index va2 12) =
    if decide (t2 = t ∧ same_page va2 va) then v else entry m (vaddr pt2) (index va2 12)) as He.
  { intros pt2 Hw. assert (table_at m t2 (page_path va2) pt2) as H2 by done. unfold mapped_words, entry at 1.
    case_decide as E.
    - destruct E as (-> & Hp & Hi). rewrite Hp in Hw. destruct Hpt as [_ Hpt']. rewrite Hpt' in Hw.
      injection Hw as ->. rewrite Hi. by rewrite lookup_insert_eq.
    - rewrite lookup_insert_ne; [done|]. intros Ha.
      destruct (Htr pt pt2 (index va 12) (index va2 12)) as [<- Hi]; [exact (table_good t _ pt Ht Hpt)|
        exact (table_good t2 _ pt2 Ht2 H2)|apply index_bound|apply index_bound|done|].
      apply E. destruct (fo_inj _ _ _ Hfo t2 t _ _ pt Ht2 Ht H2 Hpt) as [-> Hp]. by split_and!. }
  destruct (walk m (t_root t2) (page_path va2)) as [pt2|] eqn:Hw; cbn.
  - unfold leaf_entry. rewrite He by done. by case_decide.
  - rewrite decide_False; [done|]. intros (-> & Hp & _). rewrite Hp in Hw. destruct Hpt. congruence.
Qed.
End leaf.
End forest.
End walks.

(** ** What the frame allocator promises *)
Class FrameSourceLaws (F : Type) `{!FrameSource F} := {
  source_ok : F → Prop;
  (** the frames it can still hand out *)
  spare : F → Z → Prop;
  spare_good : ∀ s f, source_ok s → spare s f → good f;
  allocate_takes : ∀ s, source_ok s →
    match allocate_physical_frame s with
    | (Some f, s') => source_ok s' ∧ spare s f ∧ ∀ g, spare s' g ↔ spare s g ∧ g ≠ f
    | (None, s') => source_ok s' ∧ (∀ g, spare s' g ↔ spare s g) ∧ ∀ g, ¬ spare s g
    end;
  deallocate_gives : ∀ s f, source_ok s → good f →
    source_ok (deallocate_physical_frame f s) ∧
    ∀ g, spare (deallocate_physical_frame f s) g → spare s g ∨ g = f
}.

#[local] Opaque fill_zero.
#[local] Arguments page_path : simpl never.

Section operations.
Context {F : Type} `{!FrameSource F} `{!FrameSourceLaws F}.
Implicit Types s : Paging.t F.

Abbreviation tr s := (Paging.active_translator s).

Record paging_ok s (trees : list tree) : Prop := {
  po_translator : translator_ok (tr s);
  po_source : source_ok s.(Paging.frames);
  po_forest : forest_ok (tr s) s.(Paging.words) trees (spare s.(Paging.frames))
}.

(** the registers and settings, which mapping a page leaves alone *)
Definition same_env s s' : Prop :=
  s'.(Paging.active_translator) = s.(Paging.active_translator) ∧
  s'.(Paging.active_pml4) = s.(Paging.active_pml4) ∧
  s'.(Paging.kernel_pml4_physical) = s.(Paging.kernel_pml4_physical) ∧
  s'.(Paging.current_address_space_root) = s.(Paging.current_address_space_root) ∧
  s'.(Paging.frame_allocator_ready) = s.(Paging.frame_allocator_ready) ∧
  s'.(Paging.installed) = s.(Paging.installed) ∧
  s'.(Paging.cr3) = s.(Paging.cr3).

Definition page_of s (t : tree) (va : Z) : option Z := pte (tr s) s.(Paging.words) t va.
Definition has_table s (t : tree) (p : list Z) (f : Z) : Prop := table_at (tr s) s.(Paging.words) t p f.

(** the trees can have grown, and no page is mapped differently *)
Record extends s s' (trees : list tree) : Prop := {
  ex_env : same_env s s';
  ex_pages : ∀ t va, t ∈ trees → path_ok t (page_path va) → page_of s' t va = page_of s t va;
  ex_tables : ∀ t p f, t ∈ trees → has_table s t p f → has_table s' t p f;
  ex_new : ∀ t p f, t ∈ trees → has_table s' t p f → has_table s t p f ∨ spare s.(Paging.frames) f;
  ex_spare : ∀ f, spare s'.(Paging.frames) f → spare s.(Paging.frames) f
}.

Lemma same_env_refl s : same_env s s.
Proof. by split_and!. Qed.
Lemma same_env_trans s1 s2 s3 : same_env s1 s2 → same_env s2 s3 → same_env s1 s3.
Proof.
  intros (H1 & H2 & H3 & H4 & H5 & H6 & H7) (G1 & G2 & G3 & G4 & G5 & G6 & G7).
  unfold same_env. by rewrite G1, G2, G3, G4, G5, G6, G7.
Qed.
Lemma extends_refl s trees : extends s s trees.
Proof. split; [apply same_env_refl|done|done|by left|done]. Qed.
Lemma extends_trans s1 s2 s3 trees : extends s1 s2 trees → extends s2 s3 trees → extends s1 s3 trees.
Proof.
  intros [H1 H2 H3 H4 H5] [G1 G2 G3 G4 G5]. split; [by eapply same_env_trans| |by eauto| |by eauto].
  - intros t va Ht Hva. by rewrite G2, H2.
  - intros t p f Ht [Hf|Hf]%G4; [by apply H4|right; by apply H5|done].
Qed.

(** a state that differs in what mapping does not look at *)
Lemma new_frame_spec {E} (e : E) s trees : paging_ok s trees →
  match new_frame e s with
  | (Ok f, s') => good f ∧ spare s.(Paging.frames) f ∧ s' = Paging.set_frames s'.(Paging.frames) s ∧
      source_ok s'.(Paging.frames) ∧ ∀ g, spare s'.(Paging.frames) g → spare s.(Paging.frames) g ∧ g ≠ f
  | (Err e', s') => paging_ok s' trees ∧ extends s s' trees ∧ ∀ g, ¬ spare s.(Paging.frames) g
  end.
Proof.
  intros [H1 H2 H3]. unfold new_frame. pose proof (allocate_takes _ H2) as Ha.
  destruct (allocate_physical_frame (Paging.frames s)) as [[f|] fr].
  - destruct Ha as (Hok & Hsp & Hg). split_and!; try done; [exact (spare_good _ _ H2 Hsp)|]. cbn. intros g. apply Hg.
  - destruct Ha as (Hok & Hsp & Hn). split; [|split; [split; [by split_and!|done|done|by left|cbn; intros g; apply Hsp]|done]].
    split; [done|done|]. cbn. destruct H3 as [G1 G2 G3]. split; [done|done|]. intros t p f Ht Hp. rewrite Hsp. by eapply G3.
Qed.

Section next_table.
Variables (s : Paging.t F) (trees : list tree) (t : tree) (p : list Z) (g j : Z).
Hypotheses (Hok : paging_ok s trees) (Ht : t ∈ trees) (Hg : has_table s t p g).
Hypotheses (Hp : path_ok t (p ++ [j])) (Hlen : (length p < 3)%nat).
Abbreviation at_ f := (AddressTranslator.virtual_for_physical (tr s) f).

(** the table behind a present entry *)
Lemma present_table : present (entry s.(Paging.words) (at_ g) j) = true →
  has_table s t (p ++ [j]) (Z.land (entry s.(Paging.words) (at_ g) j) ADDRESS_MASK).
Proof. intros Hpr. split; [done|]. rewrite walk_app, (proj2 Hg). cbn. by rewrite Hpr. Qed.

(** a fresh frame behind an entry that was not present *)
Lemma install_state f fr flags nx : present (entry s.(Paging.words) (at_ g) j) = false →
  good f → spare s.(Paging.frames) f → flag_bits flags → present flags = true →
  source_ok fr → (∀ h, spare fr h → spare s.(Paging.frames) h ∧ h ≠ f) →
  let s' := Paging.set_next nx (Paging.set_words (installed_words (tr s) s.(Paging.words) g j f flags) (Paging.set_frames fr s)) in
  paging_ok s' trees ∧ has_table s' t (p ++ [j]) f ∧ extends s s' trees.
Proof.
  intros Hn Hf Hs Hfl Hpr Hfr Hsp s'. destruct Hok as [H1 H2 H3]. subst s'. split_and!.
  - split; [done|done|]. cbn. by eapply (forest_installed (tr s) H1 _ trees (spare (Paging.frames s)) H3 t p).
  - unfold has_table. cbn. apply (table_installed (tr s) H1 _ trees (spare (Paging.frames s)) H3 t p); try done.
    by left.
  - split; [by split_and!| | | |cbn; intros h Hh; by apply Hsp].
    + intros t2 va Ht2 Hva. unfold page_of. cbn.
      by apply (pte_installed (tr s) H1 _ trees (spare (Paging.frames s)) H3 t p).
    + intros t2 q h Ht2 Hq. unfold has_table. cbn.
      apply (table_installed (tr s) H1 _ trees (spare (Paging.frames s)) H3 t p); try done. by right.
    + intros t2 q h Ht2 Hq. unfold has_table in Hq. cbn in Hq.
      apply (table_installed (tr s) H1 _ trees (spare (Paging.frames s)) H3 t p) in Hq; try done.
      destruct Hq as [(_ & _ & ->)|Hq]; [by right|by left].
Qed.

Lemma user_next_table_spec :
  match user_next_table (at_ g) j s with
  | (Ok pointer, s') => ∃ f, pointer = at_ f ∧ paging_ok s' trees ∧ has_table s' t (p ++ [j]) f ∧ extends s s' trees
  | (Err _, s') => paging_ok s' trees ∧ extends s s' trees
  end.
Proof.
  unfold user_next_table, read_entry, mbind, M_bind, gets.
  destruct (present (entry (Paging.words s) (at_ g) j)) eqn:Hpr; cbn [negb].
  - cbn. eexists. split; [done|]. split; [done|]. split; [by apply present_table|apply extends_refl].
  - pose proof (new_frame_spec tt s trees Hok) as Hnew.
    destruct (new_frame tt s) as [[f|[]] s1]; [|by destruct Hnew as (? & ? & _)].
    destruct Hnew as (Hf & Hsp & -> & Hsrc & Hrest). cbn in Hsrc, Hrest. cbn.
    destruct (install_state f (Paging.frames s1) 7 s.(Paging.next)) as (G1 & G2 & G3); try done.
    rewrite (proj1 Hf). rewrite <-!Z.lor_assoc. change (Z.lor PRESENT (Z.lor WRITABLE USER_ACCESSIBLE)) with 7.
    exists f. unfold table_for_physical. cbn. rewrite entry_frame by (done || apply Hf). by split_and!.
Qed.

Lemma next_table_spec TABLES : s.(Paging.frame_allocator_ready) = true →
  match next_table TABLES (tr s) (at_ g) j s with
  | (Ok pointer, s') => ∃ f, pointer = at_ f ∧ paging_ok s' trees ∧ has_table s' t (p ++ [j]) f ∧ extends s s' trees
  | (Err _, s') => paging_ok s' trees ∧ extends s s' trees
  end.
Proof.
  intros Hready. unfold next_table, allocate_page_table, read_entry, mbind, M_bind, gets.
  destruct (present (entry (Paging.words s) (at_ g) j)) eqn:Hpr; cbn [negb].
  - cbn. eexists. split; [done|]. split; [done|]. split; [by apply present_table|apply extends_refl].
  - rewrite Hready. pose proof (new_frame_spec PagingError.OutOfPageTables s trees Hok) as Hnew.
    destruct (new_frame PagingError.OutOfPageTables s) as [[f|e] s1]; [|by destruct Hnew as (? & ? & _)].
    destruct Hnew as (Hf & Hsp & -> & Hsrc & Hrest). cbn in Hsrc, Hrest. cbn.
    destruct (install_state f (Paging.frames s1) kernel_table s.(Paging.next)) as (G1 & G2 & G3); try done.
    rewrite (proj1 Hf). exists f. unfold physical_from_entry. rewrite entry_frame by (done || apply Hf). by split_and!.
Qed.
End next_table.

(** *** Down to the table of a page *)
Section descend.
Context {E : Type}.
Variables (s0 : Paging.t F) (trees : list tree) (t : tree) (nx : Z → Z → M (Paging.t F) E Z).
Abbreviation at0 f := (AddressTranslator.virtual_for_physical (tr s0) f).

Definition grown (s : Paging.t F) : Prop := paging_ok s trees ∧ extends s0 s trees.
Definition holding (p : list Z) (g : Z) (s : Paging.t F) : Prop := grown s ∧ has_table s t p g.

Hypothesis Hnx : ∀ p g j, path_ok t (p ++ [j]) → (length p < 3)%nat →
  triple (holding p g) (nx (at0 g) j)
    (λ pointer s', ∃ f, pointer = at0 f ∧ holding (p ++ [j]) f s') (λ _, grown).

Lemma triple_found {A} p pointer (m : M (Paging.t F) E A) Q R :
  (∀ f, pointer = at0 f → triple (holding p f) m Q R) →
  triple (λ s, ∃ f, pointer = at0 f ∧ holding p f s) m Q R.
Proof. intros H s (f & Hp & Hf). by apply (H f). Qed.

(** the table of a page is reached, and something is done with it *)
Lemma triple_descend {A} va (k : Z → M (Paging.t F) E A) Q (R : E → Paging.t F → Prop) :
  path_ok t (page_path va) → t ∈ trees →
  (∀ e s, grown s → R e s) →
  (∀ pt, triple (holding (page_path va) pt) (k (at0 pt)) Q R) →
  triple (holding [] t.(t_root))
    (pdpt ← nx (at0 t.(t_root)) (index va 39);
     pd ← nx pdpt (index va 30);
     pt ← nx pd (index va 21);
     k pt) Q R.
Proof.
  intros Hva Ht HR Hk.
  assert (path_ok t [index va 39]) as H1 by (exact (path_ok_prefix t [_] [_; _] Hva)).
  assert (path_ok t [index va 39; index va 30]) as H2 by (exact (path_ok_prefix t [_; _] [_] Hva)).
  eapply triple_bind; [eapply triple_mono; [apply (Hnx [] _ _ H1); cbn; lia|done|intros ? ? H; exact H|done]|].
  intros pdpt. apply triple_found. intros f1 ->.
  eapply triple_bind; [eapply triple_mono; [apply (Hnx [_] _ _ H2); cbn; lia|done|intros ? ? H; exact H|done]|].
  intros pd. apply triple_found. intros f2 ->.
  eapply triple_bind; [eapply triple_mono; [apply (Hnx [_; _] _ _ Hva); cbn; lia|done|intros ? ? H; exact H|done]|].
  intros pt. apply triple_found. intros f3 ->. apply Hk.
Qed.
End descend.

(** the entry of a page is written *)
Definition sets_page s s' trees (t : tree) (va v : Z) : Prop :=
  paging_ok s' trees ∧ same_env s s' ∧
  (∀ t2 p f, t2 ∈ trees → has_table s' t2 p f → has_table s t2 p f ∨ spare s.(Paging.frames) f) ∧
  (∀ f, spare s'.(Paging.frames) f → spare s.(Paging.frames) f) ∧
  ∀ t2 va2, t2 ∈ trees → path_ok t2 (page_path va2) →
    page_of s' t2 va2 =
    if decide (t2 = t ∧ same_page va2 va) then (if present v then Some v else None)
    else page_of s t2 va2.

Lemma write_leaf {E} s0 s trees t va pt v : t ∈ trees → holding s0 trees t (page_path va) pt s →
  let at0 f := AddressTranslator.virtual_for_physical (tr s0) f in
  sets_page s0 (write_entry (E := E) (at0 pt) (index va 12) v s).2 trees t va v.
Proof.
  intros Ht (([H1 H2 H3] & [Henv Hpages Htables Hnew Hspare]) & Hpt) at0. subst at0.
  assert (tr s = tr s0) as Etr by apply Henv. rewrite <-Etr.
  unfold write_entry, modify. cbn [snd].
  pose proof (forest_mapped (tr s) H1 _ trees _ H3 t va pt v Ht Hpt) as Hforest.
  split_and!.
  - by split.
  - done.
  - intros t2 p f Ht2 Hf. apply (table_mapped (tr s) H1 _ trees _ H3 t va pt v Ht Hpt t2 p f Ht2) in Hf.
    by apply Hnew.
  - exact Hspare.
  - intros t2 va2 Ht2 Hva2. transitivity (pte (tr s) (mapped_words (tr s) (Paging.words s) va pt v) t2 va2);
      [done|].
    rewrite (pte_mapped (tr s) H1 _ trees _ H3 t va pt v Ht Hpt t2 va2 Ht2 Hva2).
    case_decide; [done|]. by apply Hpages.
Qed.

(** ** Pages by their number *)
Lemma index_div va shift : 0 <= shift → index va shift = (va / 2 ^ shift) mod 512.
Proof.
  intros Hs. unfold index. rewrite Z.shiftr_div_pow2 by done. change 511 with (Z.ones 9). by rewrite Z.land_ones by lia.
Qed.

(** the page number, cut to the bits the tables decode *)
Definition page_number (va : Z) : Z := (va / 4096) mod 2 ^ 36.

Lemma index_digits va : page_number va =
  ((index va 39 * 512 + index va 30) * 512 + index va 21) * 512 + index va 12.
Proof.
  unfold page_number. rewrite !index_div by lia. set (q := va / 4096).
  replace (va / 2 ^ 39) with (q / 512 / 512 / 512) by (subst q; rewrite !Zdiv_Zdiv by lia; done).
  replace (va / 2 ^ 30) with (q / 512 / 512) by (subst q; rewrite !Zdiv_Zdiv by lia; done).
  replace (va / 2 ^ 21) with (q / 512) by (subst q; rewrite !Zdiv_Zdiv by lia; done).
  change (va / 2 ^ 12) with q.
  assert (∀ x, x mod 2 ^ 36 = (x / 512) mod 2 ^ 27 * 512 + x mod 512) as H36.
  { intros x. change (2 ^ 36) with (512 * 2 ^ 27). rewrite Z.rem_mul_r by lia. lia. }
  assert (∀ x, x mod 2 ^ 27 = (x / 512) mod 2 ^ 18 * 512 + x mod 512) as H27.
  { intros x. change (2 ^ 27) with (512 * 2 ^ 18). rewrite Z.rem_mul_r by lia. lia. }
  assert (∀ x, x mod 2 ^ 18 = (x / 512) mod 512 * 512 + x mod 512) as H18.
  { intros x. change (2 ^ 18) with (512 * 512). rewrite Z.rem_mul_r by lia. lia. }
  by rewrite H36, H27, H18.
Qed.

Lemma same_page_number va va' : same_page va va' ↔ page_number va = page_number va'.
Proof.
  unfold same_page, page_path. rewrite !index_digits.
  pose proof (index_bound va 39). pose proof (index_bound va 30). pose proof (index_bound va 21).
  pose proof (index_bound va 12). pose proof (index_bound va' 39). pose proof (index_bound va' 30).
  pose proof (index_bound va' 21). pose proof (index_bound va' 12). split.
  - intros [[= -> -> ->] ->]. done.
  - intros He. assert (index va 12 = index va' 12) as -> by lia. assert (index va 21 = index va' 21) as -> by lia.
    assert (index va 30 = index va' 30) as -> by lia. assert (index va 39 = index va' 39) as -> by lia. done.
Qed.

Lemma page_number_user va : 0 <= va < USER_LIMIT → page_number va = va / 4096.
Proof. unfold USER_LIMIT, page_number. intros. apply Z.mod_small. split; [apply Z.div_pos; lia|apply Z.div_lt_upper_bound; lia]. Qed.

(** ** Trees of address spaces *)
Definition user_tree (root : Z) : tree := Tree root 0 256.
Definition kernel_tree (root : Z) : tree := Tree root 0 512.

Lemma user_path root va : 0 <= va < USER_LIMIT → path_ok (user_tree root) (page_path va).
Proof.
  intros Hva. unfold page_path.
  pose proof (index_bound va 30). pose proof (index_bound va 21). pose proof (index_bound va 39).
  split; [cbn; lia|]. split; [cbn; lia|]. split; [cbn; lia|]. cbn. split.
  - split; [lia|]. rewrite index_div by lia. unfold USER_LIMIT in Hva.
    assert (0 <= va / 2 ^ 39 < 256) by (split; [apply Z.div_pos; lia|apply Z.div_lt_upper_bound; lia]).
    rewrite Z.mod_small; lia.
  - repeat constructor; lia.
Qed.
Lemma kernel_path root va : path_ok (kernel_tree root) (page_path va).
Proof.
  unfold page_path.
  pose proof (index_bound va 30). pose proof (index_bound va 21). pose proof (index_bound va 39).
  split; [cbn; lia|]. split; [cbn; lia|]. split; [cbn; lia|]. cbn. split; [lia|]. repeat constructor; lia.
Qed.

Lemma leaf_table_walk s root va :
  leaf_table s (AddressTranslator.virtual_for_physical (tr s) root) va =
  AddressTranslator.virtual_for_physical (tr s) <$> walk (tr s) s.(Paging.words) root (page_path va).
Proof.
  unfold leaf_table, page_path, table_for_physical. cbn [walk].
  destruct (present _); cbn [negb]; [|done]. destruct (present _); cbn [negb]; [|done]. by destruct (present _).
Qed.
Lemma user_leaf_table_walk s root va : root ≠ 0 → va < USER_LIMIT →
  user_leaf_table s root va =
  AddressTranslator.virtual_for_physical (tr s) <$> walk (tr s) s.(Paging.words) root (page_path va).
Proof.
  intros Hr Hva. unfold user_leaf_table. rewrite (proj2 (Z.eqb_neq _ _)), (proj2 (Z.leb_gt _ _)) by done. cbn [orb].
  rewrite <-leaf_table_walk. done.
Qed.

(** a translation is a look-up of the page's entry *)
Lemma translate_virt_page s root va : s.(Paging.active_pml4) ≠ 0 →
  s.(Paging.active_pml4) = AddressTranslator.virtual_for_physical (tr s) root →
  translate_virt va s = (λ e, Z.lor (Z.land e ADDRESS_MASK) (page_offset va)) <$> page_of s (kernel_tree root) va.
Proof.
  intros Hne Heq. unfold translate_virt, page_of, pte. rewrite (proj2 (Z.eqb_neq _ _)) by done.
  rewrite Heq, leaf_table_walk. cbn [t_root kernel_tree].
  destruct (walk _ _ _ _) as [pt|]; [|done]. cbn. unfold leaf_entry. by destruct (present _).
Qed.

Definition user_access (write : bool) (e : Z) : bool :=
  negb (Z.land e USER_ACCESSIBLE =? 0) && (negb write || negb (Z.land e WRITABLE =? 0)).
Lemma translate_user_page_of s root va write : root ≠ 0 → va < USER_LIMIT →
  translate_user_page root va write s =
  (e ← page_of s (user_tree root) va;
   if user_access write e then Some (Z.lor (Z.land e ADDRESS_MASK) (page_offset va)) else None).
Proof.
  intros Hr Hva. unfold translate_user_page, page_of, pte. rewrite user_leaf_table_walk by done. cbn [t_root user_tree].
  destruct (walk _ _ _ _) as [pt|]; [|done]. cbn. unfold leaf_entry, user_access.
  destruct (present _); [|done]. cbn. destruct (Z.land _ USER_ACCESSIBLE =? 0); [done|]. cbn.
  destruct write; cbn; [|done]. by destruct (Z.land _ WRITABLE =? 0).
Qed.

(** ** Mapping and unmapping a page *)
Lemma user_nx s0 trees t : t ∈ trees →
  ∀ p g j, path_ok t (p ++ [j]) → (length p < 3)%nat →
  triple (holding s0 trees t p g) (user_next_table (AddressTranslator.virtual_for_physical (tr s0) g) j)
    (λ pointer s', ∃ f, pointer = AddressTranslator.virtual_for_physical (tr s0) f ∧ holding s0 trees t (p ++ [j]) f s')
    (λ _, grown s0 trees).
Proof.
  intros Ht p g j Hp Hlen s ((Hok & Hext) & Hg).
  assert (tr s = tr s0) as Etr by apply Hext. rewrite <-Etr.
  pose proof (user_next_table_spec s trees t p g j Hok Ht Hg Hp Hlen) as H.
  destruct (user_next_table _ j s) as [[pointer|e] s']; cbn.
  - destruct H as (f & -> & H1 & H2 & H3). exists f. split; [done|]. split; [|done]. split; [done|]. by eapply extends_trans.
  - destruct H as [H1 H2]. split; [done|]. by eapply extends_trans.
Qed.

Lemma kernel_nx TABLES s0 trees t : t ∈ trees → s0.(Paging.frame_allocator_ready) = true →
  ∀ p g j, path_ok t (p ++ [j]) → (length p < 3)%nat →
  triple (holding s0 trees t p g) (next_table TABLES (tr s0) (AddressTranslator.virtual_for_physical (tr s0) g) j)
    (λ pointer s', ∃ f, pointer = AddressTranslator.virtual_for_physical (tr s0) f ∧ holding s0 trees t (p ++ [j]) f s')
    (λ _, grown s0 trees).
Proof.
  intros Ht Hready p g j Hp Hlen s ((Hok & Hext) & Hg).
  assert (tr s = tr s0) as Etr by apply Hext. rewrite <-Etr.
  assert (s.(Paging.frame_allocator_ready) = true) as Hr.
  { rewrite <-Hready. by destruct Hext as [(_ & _ & _ & _ & ? & _) _ _ _ _]. }
  pose proof (next_table_spec s trees t p g j Hok Ht Hg Hp Hlen TABLES Hr) as H.
  destruct (next_table TABLES (tr s) _ j s) as [[pointer|e] s']; cbn.
  - destruct H as (f & -> & H1 & H2 & H3). exists f. split; [done|]. split; [|done]. split; [done|]. by eapply extends_trans.
  - destruct H as [H1 H2]. split; [done|]. by eapply extends_trans.
Qed.

Lemma holding_root s trees t : paging_ok s trees → path_ok t [] → holding s trees t [] t.(t_root) s.
Proof. intros Hok Hp. split; [|by split]. split; [done|apply extends_refl]. Qed.

Lemma map_user_page_spec s trees root va physical protection :
  paging_ok s trees → user_tree root ∈ trees → 0 <= va →
  match map_user_page root va physical protection s with
  | (Ok _, s') => root ≠ 0 ∧ va < USER_LIMIT ∧ page_offset va = 0 ∧
      sets_page s s' trees (user_tree root) va
        (Z.lor (Z.land physical ADDRESS_MASK) (user_flags_from_protection protection))
  | (Err _, s') => grown s trees s'
  end.
Proof.
  intros Hok Ht Hva. unfold map_user_page.
  destruct (Z.eqb_spec root 0) as [->|Hr]; [by split; [|apply extends_refl]|].
  destruct (Z.leb_spec USER_LIMIT va) as [|Hlim]; [by split; [|apply extends_refl]|].
  destruct (Z.eqb_spec (page_offset va) 0) as [Hal|]; [|by split; [|apply extends_refl]]. cbn [orb negb].
  rewrite (bind_ok _ _ (table_for_physical s root) s s) by done.
  set (v := Z.lor _ _).
  assert (triple (holding s trees (user_tree root) [] root)
    (pdpt ← user_next_table (AddressTranslator.virtual_for_physical (tr s) root) (index va 39);
     pd ← user_next_table pdpt (index va 30);
     pt ← user_next_table pd (index va 21);
     write_entry pt (index va 12) v)
    (λ _ s', sets_page s s' trees (user_tree root) va v) (λ _, grown s trees)) as Htr.
  { apply (triple_descend s trees (user_tree root) user_next_table); [by apply user_nx|by apply user_path|done|done|].
    intros pt s1 Hh. by apply (write_leaf (E := unit) s s1 trees (user_tree root) va pt v). }
  specialize (Htr s (holding_root s trees (user_tree root) Hok (path_ok_prefix _ [] _ (user_path root va (conj Hva Hlim))))).
  destruct ((_ : M (Paging.t F) unit unit) s) as [[[]|[]] s']; cbn in Htr; [by split_and!|done].
Qed.

(** a table reached by a translation *)
Lemma leaf_found s trees t va pt : t ∈ trees → paging_ok s trees → path_ok t (page_path va) →
  walk (tr s) s.(Paging.words) t.(t_root) (page_path va) = Some pt → holding s trees t (page_path va) pt s.
Proof. intros Ht Hok Hp Hw. split; [|by split]. split; [done|apply extends_refl]. Qed.

Lemma unmap_user_page_spec s trees root va :
  paging_ok s trees → user_tree root ∈ trees → 0 <= va →
  match unmap_user_page root va s with
  | (Ok f, s') => root ≠ 0 ∧ va < USER_LIMIT ∧ sets_page s s' trees (user_tree root) va 0 ∧
      ∃ e, page_of s (user_tree root) va = Some e ∧ f = Z.land e ADDRESS_MASK
  | (Err _, s') => s' = s ∧ (root = 0 ∨ USER_LIMIT <= va ∨ page_of s (user_tree root) va = None)
  end.
Proof.
  intros Hok Ht Hva. unfold unmap_user_page, lift, mbind, M_bind, gets.
  destruct (Z.eq_dec root 0) as [->|Hr]; [cbn; split; [done|by left]|].
  destruct (Z_lt_le_dec va USER_LIMIT) as [Hlim|Hge].
  2:{ unfold user_leaf_table. rewrite (proj2 (Z.leb_le _ _)), orb_true_r by done. cbn. split; [done|]. right. by left. }
  rewrite user_leaf_table_walk by done.
  assert (page_of s (user_tree root) va = walk (tr s) s.(Paging.words) root (page_path va) ≫= λ pt, leaf_entry (tr s) s.(Paging.words) pt va) as Hpage by done.
  destruct (walk _ _ _ _) as [pt|] eqn:Hw; cbn; [|by split; [|right; right]]. cbn in Hpage.
  unfold leaf_entry in Hpage. destruct (present _) eqn:Hpr; cbn.
  - split; [done|]. split; [done|]. split.
    + apply (write_leaf (E := unit) s s trees (user_tree root) va pt 0 Ht).
      apply leaf_found; [done|done|by apply user_path|done].
    + by eexists.
  - by split; [|right; right].
Qed.

(** *** The kernel's own pages *)
Record kernel_ok s (trees : list tree) (root : Z) : Prop := {
  ko_ok : paging_ok s trees;
  ko_tree : kernel_tree root ∈ trees;
  ko_active : s.(Paging.active_pml4) = AddressTranslator.virtual_for_physical (tr s) root;
  ko_nonnull : s.(Paging.active_pml4) ≠ 0;
  ko_ready : s.(Paging.frame_allocator_ready) = true
}.

Lemma kernel_ok_env s s' trees root : kernel_ok s trees root → paging_ok s' trees → same_env s s' →
  kernel_ok s' trees root.
Proof.
  intros [H1 H2 H3 H4 H5] Hok (E1 & E2 & E3 & E4 & E5 & E6). split; try done; congruence.
Qed.

Lemma sets_page_flush s s' trees t va v inv : sets_page s s' trees t va v →
  sets_page s (Paging.set_cpu s'.(Paging.cr3) inv s') trees t va v.
Proof. intros ([H1 H2 H3] & H4 & H5 & H6 & H7). by split_and!. Qed.

Lemma map_page_spec TABLES s trees root virt phys flags : kernel_ok s trees root → 
  match map_page TABLES virt phys flags s with
  | (Ok _, s') => Z.land virt 4095 = 0 ∧ Z.land phys 4095 = 0 ∧ Z.ldiff flags SUPPORTED_PAGE_FLAGS = 0 ∧
      sets_page s s' trees (kernel_tree root) virt (Z.lor (Z.land phys ADDRESS_MASK) (Z.lor flags PRESENT)) ∧
      (page_of s (kernel_tree root) virt ≠ None → virt ∈ s'.(Paging.invalidated))
  | (Err _, s') => grown s trees s'
  end.
Proof.
  intros [Hok Ht Hact Hnn Hready]. unfold map_page.
  assert (grown s trees s) as Hrefl by (split; [done|apply extends_refl]).
  unfold validate_page_alignment. change (PAGE_SIZE - 1) with 4095.
  destruct (Z.eqb_spec (Z.land virt 4095) 0) as [Hv|]; [|done].
  destruct (Z.eqb_spec (Z.land phys 4095) 0) as [Hp|]; [|done].
  cbn [orb negb]. rewrite (bind_ok _ _ tt s s) by done.
  destruct (Z.eqb_spec (Z.ldiff flags SUPPORTED_PAGE_FLAGS) 0) as [Hf|]; [|done]. cbn [negb].
  rewrite (bind_ok _ _ s.(Paging.active_pml4) s s) by done.
  rewrite (proj2 (Z.eqb_neq _ _)) by done. rewrite (bind_ok _ _ (tr s) s s) by done.
  set (v := Z.lor (Z.land phys ADDRESS_MASK) (Z.lor flags PRESENT)).
  assert (triple (holding s trees (kernel_tree root) [] root)
    (map_page_inner TABLES s.(Paging.active_pml4) (tr s) phys virt (Z.lor flags PRESENT))
    (λ _ s', sets_page s s' trees (kernel_tree root) virt v ∧
       (page_of s (kernel_tree root) virt ≠ None → virt ∈ s'.(Paging.invalidated))) (λ _, grown s trees)) as Htr.
  { unfold map_page_inner. rewrite Hact.
    apply (triple_descend s trees (kernel_tree root) (next_table TABLES (tr s)));
      [by apply kernel_nx|apply kernel_path|done|done|].
    intros pt s1 Hh. pose proof (write_leaf (E := PagingError.t) s s1 trees (kernel_tree root) virt pt v Ht Hh) as Hw.
    cbn zeta in Hw. unfold read_entry, mbind, M_bind, gets.
    assert (page_of s (kernel_tree root) virt =
      leaf_entry (tr s) s1.(Paging.words) pt virt) as Hpage.
    { destruct Hh as ([_ Hext] & [_ Hwalk]). rewrite <-(ex_pages _ _ _ Hext (kernel_tree root) virt Ht (kernel_path root virt)).
      assert (tr s1 = tr s) as Etr by apply Hext. unfold page_of, pte. rewrite Etr in *. by rewrite Hwalk. }
    unfold leaf_entry in Hpage.
    destruct (present (entry (Paging.words s1) _ _)); cbn.
    - split; [exact (sets_page_flush _ _ _ _ _ _ _ Hw)|]. intros _. apply list_elem_of_here.
    - split; [done|]. by rewrite Hpage. }
  specialize (Htr s (holding_root s trees (kernel_tree root) Hok (path_ok_prefix _ [] _ (kernel_path root virt)))).
  destruct (map_page_inner _ _ _ _ _ _ s) as [[[]|e] s']; cbn in Htr; [|done]. by destruct Htr.
Qed.

Lemma unmap_page_spec s trees root virt : kernel_ok s trees root →
  match unmap_page virt s with
  | (Ok f, s') => sets_page s s' trees (kernel_tree root) virt 0 ∧ virt ∈ s'.(Paging.invalidated) ∧
      ∃ e, page_of s (kernel_tree root) virt = Some e ∧ f = Z.land e ADDRESS_MASK
  | (Err e, s') => s' = s ∧
      (e = PagingError.InvalidAlignment ∧ Z.land virt 4095 ≠ 0 ∨
       e = PagingError.NotMapped ∧ page_of s (kernel_tree root) virt = None)
  end.
Proof.
  intros [Hok Ht Hact Hnn Hready]. unfold unmap_page, validate_page_alignment. change (PAGE_SIZE - 1) with 4095.
  destruct (Z.eqb_spec (Z.land virt 4095) 0) as [Hv|Hv]; [|by split; [|left]].
  cbn [orb negb]. change (Z.land 0 4095 =? 0) with true. cbn [negb]. rewrite (bind_ok _ _ tt s s) by done.
  rewrite (bind_ok _ _ s.(Paging.active_pml4) s s) by done. rewrite (proj2 (Z.eqb_neq _ _)) by done.
  rewrite Hact. unfold mbind, M_bind, gets, lift. rewrite leaf_table_walk.
  assert (page_of s (kernel_tree root) virt = walk (tr s) s.(Paging.words) root (page_path virt) ≫= λ pt, leaf_entry (tr s) s.(Paging.words) pt virt) as Hpage by done.
  destruct (walk _ _ _ _) as [pt|] eqn:Hw; cbn; [|by split; [|right]]. cbn in Hpage.
  unfold leaf_entry in Hpage. destruct (present _) eqn:Hpr; cbn; [|by split; [|right]].
  split; [|split; [apply list_elem_of_here|by eexists]].
  pose proof (leaf_found s trees (kernel_tree root) virt pt Ht Hok (kernel_path root virt) Hw) as Hh.
  pose proof (write_leaf (E := PagingError.t) s s trees (kernel_tree root) virt pt 0 Ht Hh) as Hset.
  cbn zeta in Hset. exact (sets_page_flush _ _ _ _ _ _ _ Hset).
Qed.
End operations.
