(* ===== verification/PagingFrames.v ===== *)
(** * Frames for page tables

    The physical frame allocator keeps the promises paging relies on, and an address
    translator whose direct map and kernel window do not overlap gives every entry of
    every table an address of its own.  An example state serves the theorems of
    [PagingTheorems]. *)

From stdpp Require Import prelude gmap.
From S2P Require Import Prelude Slots Subkernel FrameAllocator FrameSafety Paging PagingSafety.

Local Open Scope Z_scope.

(** ** Frames an entry can hold *)
Lemma framed_intro f : 0 <= f < 2 ^ 52 → f mod 4096 = 0 → framed f.
Proof.
  intros Hf Hm. unfold framed. assert (f = Z.shiftl (f / 4096) 12) as Hs.
  { rewrite Z.shiftl_mul_pow2 by lia. change (2 ^ 12) with 4096. pose proof (Z.div_mod f 4096). lia. }
  assert (0 <= f / 4096 < 2 ^ 40) by (split; [apply Z.div_pos; lia|apply Z.div_lt_upper_bound; lia]).
  rewrite Hs at 1. change ADDRESS_MASK with (Z.shiftl (Z.ones 40) 12).
  rewrite <-Z.shiftl_land, Z.land_ones, Z.mod_small by lia. by rewrite <-Hs.
Qed.
Lemma framed_elim f : framed f → 0 <= f < 2 ^ 52 ∧ f mod 4096 = 0.
Proof.
  unfold framed. intros Hf. assert (f = Z.shiftl (Z.land (Z.shiftr f 12) (Z.ones 40)) 12) as ->.
  { rewrite <-Hf at 1. change ADDRESS_MASK with (Z.shiftl (Z.ones 40) 12).
    apply Z.bits_inj'. intros n Hn. rewrite Z.land_spec. destruct (Z_lt_le_dec n 12).
    - by rewrite !Z.shiftl_spec_low, andb_false_r by lia.
    - rewrite !Z.shiftl_spec, Z.land_spec, Z.shiftr_spec by lia. by replace (n - 12 + 12) with n by lia. }
  rewrite Z.land_ones, Z.shiftl_mul_pow2 by lia. change (2 ^ 12) with 4096.
  pose proof (Z.mod_pos_bound (Z.shiftr f 12) (2 ^ 40)). split; [lia|]. apply Z.mod_mul. lia.
Qed.
Lemma good_elim f : good f → 0 <= f < PHYSICAL_LIMIT ∧ f mod 4096 = 0.
Proof. intros [[Hf Hm]%framed_elim Hl]. split; [lia|done]. Qed.

(** ** The physical frame allocator as a source of frames *)
Section physical.
Import PhysicalFrameAllocator.

(** a ready allocator for memory that page table entries can address *)
Definition addressable (s : t) : Prop := ready s ∧ Z.of_nat s.(frame_count) * 4096 <= PHYSICAL_LIMIT.
Definition free_at (s : t) (f : Z) : Prop :=
  ∃ i, f = Z.of_nat i * 4096 ∧ FrameSafety.frames s !! i = Some FrameState.Free.

Lemma free_at_index s i : free_at s (Z.of_nat i * 4096) ↔ FrameSafety.frames s !! i = Some FrameState.Free.
Proof. split; [intros (j & Hj & Hs); by assert (i = j) as -> by lia|by exists i]. Qed.

#[export] Instance physical_frames_laws : FrameSourceLaws t.
Proof.
  refine {| source_ok := addressable; spare := free_at |}.
  - intros s f [R Hs] (i & -> & Hi). apply lookup_lt_Some in Hi. rewrite frames_length in Hi by done.
    unfold PHYSICAL_LIMIT in Hs. split; [|unfold PHYSICAL_LIMIT; lia].
    apply framed_intro; [lia|]. apply Z.mod_mul. lia.
  - intros s [R Hs]. cbn. pose proof (allocate_spec s R) as H.
    destruct (allocate_frame s) as [[f|e] s']; cbn.
    + destruct H as (i & -> & Hi & _ & R' & Hf & Hc). assert (i < length (FrameSafety.frames s))%nat by (by eapply lookup_lt_Some).
      split; [split; [done|by rewrite Hc]|]. split; [by exists i|]. intros g. split.
      * intros (j & -> & Hj). rewrite Hf in Hj. destruct (decide (i = j)) as [->|Hne].
        { by rewrite list_lookup_insert_eq in Hj. }
        rewrite list_lookup_insert_ne in Hj by done. split; [by exists j|]. cbn. unfold PAGE_SIZE. lia.
      * intros [(j & -> & Hj) Hne]. exists j. split; [done|]. rewrite Hf, list_lookup_insert_ne; [done|].
        intros ->. by apply Hne.
    + destruct H as (_ & -> & Hno). split; [done|]. split; [done|]. intros g (i & _ & Hi). apply Hno.
      by eapply list_elem_of_lookup_2.
  - intros s f [R Hs] [Hf Hm]%good_elim. cbn. unfold PhysFrame.from_start_address.
    case_decide as Hal; [|split; [done|by left]].
    pose proof (free_spec s f R ltac:(unfold umax, PHYSICAL_LIMIT in *; lia)) as H.
    destruct (free_frame (PhysFrame.mk f) s) as [[[]|e] s']; cbn; [|destruct H as [-> _]; split; [done|by left]].
    destruct H as (i & -> & Hi & R' & Hf'). split.
    + split; [done|]. assert (s'.(frame_count) = s.(frame_count)) as ->; [|done].
      rewrite <-(frames_length s R), <-(frames_length s' R'), Hf'. apply length_insert.
    + intros g (j & -> & Hj). rewrite Hf' in Hj. destruct (decide (i = j)) as [->|Hne]; [by right|left].
      exists j. by rewrite list_lookup_insert_ne in Hj.
Defined.
End physical.

(** ** Address translators *)
Record windows_ok (t : AddressTranslator.t) (offset : Z) : Prop := {
  wo_hhdm : t.(AddressTranslator.hhdm_offset) = Some offset;
  wo_offset : 0 <= offset ∧ offset mod 4096 = 0 ∧ offset + PHYSICAL_LIMIT <= 2 ^ 64;
  wo_kernel : t.(AddressTranslator.kernel_length) = 0 ∨
    0 <= t.(AddressTranslator.kernel_physical_start) ∧ 0 < t.(AddressTranslator.kernel_length) ∧
    t.(AddressTranslator.kernel_physical_start) mod 4096 = 0 ∧
    t.(AddressTranslator.kernel_virtual_start) mod 4096 = 0 ∧
    t.(AddressTranslator.kernel_physical_start) + t.(AddressTranslator.kernel_length) < PHYSICAL_LIMIT ∧
    0 <= t.(AddressTranslator.kernel_virtual_start) ∧
    t.(AddressTranslator.kernel_virtual_start) + t.(AddressTranslator.kernel_length) < 2 ^ 64 ∧
    (t.(AddressTranslator.kernel_virtual_start) + t.(AddressTranslator.kernel_length) <= offset ∨
     offset + PHYSICAL_LIMIT <= t.(AddressTranslator.kernel_virtual_start))
}.

(** where a frame lies, in one of the two windows *)
Lemma windows_address t offset f : windows_ok t offset → good f →
  let v := AddressTranslator.virtual_for_physical t f in
  v mod 4096 = 0 ∧
  (v = f + offset ∨
   t.(AddressTranslator.kernel_length) ≠ 0 ∧
   t.(AddressTranslator.kernel_physical_start) <= f < t.(AddressTranslator.kernel_physical_start) + t.(AddressTranslator.kernel_length) ∧
   v = t.(AddressTranslator.kernel_virtual_start) + (f - t.(AddressTranslator.kernel_physical_start))).
Proof.
  intros [Hh (Ho & Hom & Hot) Hk] Hg v. destruct (good_elim f Hg) as [Hf Hfm].
  unfold PHYSICAL_LIMIT in *. subst v. unfold AddressTranslator.virtual_for_physical.
  rewrite Hh. case_decide as Hd.
  - destruct Hd as (Hne & Hlo & Hhi). destruct Hk as [?|(K1 & K2 & K3 & K4 & K5 & K6 & K7 & _)]; [done|].
    unfold sat_add, sat_sub, umax in *. rewrite Z.max_l, !Z.min_l by lia. split; [|right; split_and!; lia].
    pose proof (Z.div_mod f 4096). pose proof (Z.div_mod (AddressTranslator.kernel_physical_start t) 4096).
    pose proof (Z.div_mod (AddressTranslator.kernel_virtual_start t) 4096).
    apply Z.mod_divide; [lia|]. exists (AddressTranslator.kernel_virtual_start t / 4096 + (f / 4096 - AddressTranslator.kernel_physical_start t / 4096)). lia.
  - unfold sat_add, umax. rewrite Z.min_l by lia. split; [|by left].
    pose proof (Z.div_mod f 4096). pose proof (Z.div_mod offset 4096).
    apply Z.mod_divide; [lia|]. exists (f / 4096 + offset / 4096). lia.
Qed.

Lemma windows_translator t offset : windows_ok t offset → translator_ok t.
Proof.
  intros Hw f g i j Hf Hg Hi Hj. destruct (windows_address t offset f Hw Hf) as [Hfm Hfv].
  destruct (windows_address t offset g Hw Hg) as [Hgm Hgv].
  unfold entry_address. set (vf := AddressTranslator.virtual_for_physical t f) in *.
  set (vg := AddressTranslator.virtual_for_physical t g) in *. intros He.
  pose proof (Z.div_mod vf 4096). pose proof (Z.div_mod vg 4096). assert (vf = vg ∧ i = j) as [Hv ->] by lia.
  split; [|done]. destruct (good_elim f Hf) as [Hf' _], (good_elim g Hg) as [Hg' _].
  unfold PHYSICAL_LIMIT in *.
  destruct (wo_kernel _ _ Hw) as [Hk|(K1 & K2 & K3 & K4 & K5 & K6 & K7 & Hk)]; unfold PHYSICAL_LIMIT in *; lia.
Qed.

(** ** An example: a kernel with its level-4 table in frame 0 *)
Definition demo_translator : AddressTranslator.t := AddressTranslator.mk (Some (2 ^ 64 - 2 ^ 47)) 0 0 0.
Definition demo_paging : Paging.t PhysicalFrameAllocator.t :=
  Paging.mk ∅ 1 booted demo_translator (2 ^ 64 - 2 ^ 47) 0 0 true true 0 [].

Lemma demo_translator_ok : translator_ok demo_translator.
Proof. apply (windows_translator _ (2 ^ 64 - 2 ^ 47)). split; [done| |by left]. split; [lia|]. split; by vm_compute. Qed.

Lemma empty_walk tr f p g : walk tr ∅ f p = Some g → p = [] ∧ g = f.
Proof. destruct p as [|i p]; cbn; [by intros [= ->]|done]. Qed.

Lemma demo_kernel_ok : kernel_ok demo_paging [kernel_tree 0] 0.
Proof.
  split; [|apply list_elem_of_here|done|done|done]. split.
  - apply demo_translator_ok.
  - split; [apply booted_ready|by vm_compute].
  - split.
    + intros t p f ->%list_elem_of_singleton [_ [_ ->]%empty_walk]. split; by vm_compute.
    + intros t1 t2 p1 p2 f ->%list_elem_of_singleton ->%list_elem_of_singleton
        [_ [-> _]%empty_walk] [_ [-> _]%empty_walk]. done.
    + intros t p f ->%list_elem_of_singleton [_ [_ ->]%empty_walk] (i & Hi & Hs). cbn in Hi.
      assert (i = 0%nat) as -> by lia. by vm_compute in Hs.
Qed.
