(* ===== verification/PagingTheorems.v ===== *)
(** * Address spaces

    What callers of src/src/arch/x86_64/paging.rs can rely on: mapping and unmapping change
    one page of one address space, a new address space maps nothing of its own and shares
    the kernel's half, and destroying one returns each of its tables exactly once.  The
    physical frame allocator keeps the promises [FrameSourceLaws]. *)

From stdpp Require Import prelude gmap.
From S2P Require Import Prelude Slots Subkernel FrameAllocator FrameSafety Paging PagingSafety PagingFrames.

Local Open Scope Z_scope.
#[local] Opaque fill_zero.
#[local] Arguments page_path : simpl never.
#[local] Arguments destroy_pd : simpl never.
#[local] Arguments destroy_pdpt : simpl never.

Lemma fmap_bind {A B C} (h : B → C) (f : A → list B) l : h <$> (l ≫= f) = l ≫= λ a, h <$> f a.
Proof. induction l as [|a l IH]; cbn; [done|]. by rewrite fmap_app, IH. Qed.

(** ** The tables of a tree *)
Section enumeration.
Variables (tr : AddressTranslator.t) (m : gmap Z Z).
Abbreviation vaddr := (AddressTranslator.virtual_for_physical tr).

(** the tables below [g], each after those below it *)
Fixpoint tables_below (d n : nat) (g : Z) (path : list Z) : list (list Z * Z) :=
  match d with
  | O => []
  | S d =>
      seq 0 n ≫= λ i,
        let e := entry m (vaddr g) (Z.of_nat i) in
        if present e then
          let f := Z.land e ADDRESS_MASK in
          tables_below d ENTRY_COUNT f (path ++ [Z.of_nat i]) ++ [(path ++ [Z.of_nat i], f)]
        else []
  end.

Lemma tables_below_frames d n g path : (tables_below (S d) n g path).*2 =
  seq 0 n ≫= λ i,
    let e := entry m (vaddr g) (Z.of_nat i) in
    if present e then
      (tables_below d ENTRY_COUNT (Z.land e ADDRESS_MASK) (path ++ [Z.of_nat i])).*2 ++ [Z.land e ADDRESS_MASK]
    else [].
Proof.
  cbn [tables_below]. rewrite fmap_bind. generalize (seq 0 n). induction l as [|i l IH]; cbn; [done|].
  rewrite IH. f_equal. cbn zeta. destruct (present _); [|done]. by rewrite fmap_app.
Qed.

Definition steps_ok (d n : nat) (q : list Z) : Prop :=
  (length q <= d)%nat ∧ match q with [] => False | i :: r => 0 <= i < Z.of_nat n ∧ Forall (λ j, 0 <= j < 512) r end.

Lemma elem_of_tables d n g path p f :
  (p, f) ∈ tables_below d n g path ↔ ∃ q, steps_ok d n q ∧ p = path ++ q ∧ walk tr m g q = Some f.
Proof.
  revert n g path. induction d as [|d IH]; intros n g path.
  - cbn. rewrite elem_of_nil. split; [done|]. intros (q & [Hl Hq] & _). destruct q; [done|cbn in Hl; lia].
  - cbn [tables_below]. rewrite list_elem_of_bind. split.
    + intros (i & Hin & Hi%elem_of_seq).
      destruct (present (entry m (vaddr g) (Z.of_nat i))) eqn:Hpr; [|by apply elem_of_nil in Hin].
      rewrite elem_of_app, list_elem_of_singleton, IH in Hin. destruct Hin as [(q & [Hl Hq] & -> & Hw)|[= -> ->]].
      * exists (Z.of_nat i :: q). rewrite <-app_assoc. split; [|split; [done|]].
        { split; [cbn; lia|]. split; [lia|]. destruct q as [|j q]; [done|]. unfold ENTRY_COUNT in Hq.
          rewrite Forall_cons. destruct Hq; split; [lia|done]. }
        cbn. by rewrite Hpr.
      * exists [Z.of_nat i]. split; [|split; [done|]].
        { split; [cbn; lia|]. split; [lia|constructor]. }
        cbn. by rewrite Hpr.
    + intros (q & [Hl Hq] & -> & Hw). destruct q as [|i q]; [done|]. destruct Hq as [Hi Hq]. cbn in Hw.
      exists (Z.to_nat i). rewrite Z2Nat.id by lia. split; [|apply elem_of_seq; lia].
      destruct (present _); [|done]. rewrite elem_of_app, list_elem_of_singleton, IH.
      destruct q as [|j q]; [right; by injection Hw as <-|left]. exists (j :: q).
      rewrite <-app_assoc. split; [|done]. split; [cbn in *; lia|]. rewrite Forall_cons in Hq. unfold ENTRY_COUNT.
      destruct Hq; split; [lia|done].
Qed.

Lemma tables_paths_NoDup d n g path : NoDup (tables_below d n g path).*1.
Proof.
  revert n g path. induction d as [|d IH]; intros n g path; cbn [tables_below]; [constructor|].
  rewrite fmap_bind. apply NoDup_bind; [| |apply NoDup_seq].
  - intros i j p _ _. cbn. intros Hi Hj.
    assert (∀ k, p ∈ ((if present (entry m (vaddr g) (Z.of_nat k)) then
      tables_below d ENTRY_COUNT (Z.land (entry m (vaddr g) (Z.of_nat k)) ADDRESS_MASK) (path ++ [Z.of_nat k]) ++
      [(path ++ [Z.of_nat k], Z.land (entry m (vaddr g) (Z.of_nat k)) ADDRESS_MASK)] else []) : list (list Z * Z)).*1 →
      ∃ q, p = path ++ Z.of_nat k :: q) as H.
    { intros k. clear Hi Hj. destruct (present (entry m (vaddr g) (Z.of_nat k))); [|by intros H%elem_of_nil]. rewrite fmap_app, elem_of_app. intros [H|H].
      - apply list_elem_of_fmap in H as ([p' f] & -> & (q & _ & -> & _)%elem_of_tables). exists q. cbn. by rewrite <-app_assoc.
      - apply list_elem_of_singleton in H as ->. by exists []. }
    destruct (H i Hi) as [q1 ->]. destruct (H j Hj) as [q2 E]. apply app_inv_head in E. injection E. lia.
  - intros i _. cbn. destruct (present _); [|constructor]. rewrite fmap_app. apply NoDup_app. split_and!; [apply IH| |by apply NoDup_singleton].
    intros p Hp ->%list_elem_of_singleton. apply list_elem_of_fmap in Hp as ([p' f] & E & (q & [Hl Hq] & -> & _)%elem_of_tables).
    cbn in E. rewrite <-(app_nil_r (path ++ [_])) in E at 1. apply app_inv_head in E as <-. done.
Qed.
End enumeration.
#[local] Arguments tables_below : simpl never.

(** ** The tables of a new address space *)
Definition space_half (root : Z) : tree := Tree root 256 512.

Section new_space.
Variables (tr : AddressTranslator.t) (m w : gmap Z Z) (trees : list tree) (sp : Z → Prop) (root f : Z).
Abbreviation vaddr := (AddressTranslator.virtual_for_physical tr).
Hypotheses (Htr : translator_ok tr) (Hfo : forest_ok tr m trees sp).
Hypotheses (Ht : kernel_tree root ∈ trees) (Hf : good f) (Hsp : sp f).
Hypothesis Hent : ∀ h i, good h → 0 <= i < 512 → entry w (vaddr h) i =
  if decide (h = f) then (if decide (256 <= i) then entry m (vaddr root) i else 0) else entry m (vaddr h) i.

Lemma not_a_table t p h : t ∈ trees → table_at tr m t p h → h ≠ f.
Proof. intros Ht' Hp ->. by eapply (fo_spare _ _ _ _ Hfo). Qed.

Lemma walk_new_space t p : t ∈ trees → path_ok t p → walk tr w t.(t_root) p = walk tr m t.(t_root) p.
Proof.
  intros Ht' Hp. apply walk_agree. intros q i r g -> Hw.
  assert (table_at tr m t q g) as Hg by (split; [by eapply path_ok_prefix|done]).
  rewrite Hent; [|by eapply (table_good _ _ _ _ Hfo)|by eapply path_ok_index]. rewrite decide_False; [done|].
  by eapply not_a_table.
Qed.

Lemma leaf_new_space t p h va : t ∈ trees → table_at tr m t p h → leaf_entry tr w h va = leaf_entry tr m h va.
Proof.
  intros Ht' Hp. unfold leaf_entry. rewrite Hent; [|by eapply (table_good _ _ _ _ Hfo)|apply index_bound].
  rewrite decide_False; [done|]. by eapply not_a_table.
Qed.

Lemma walk_user_half p : path_ok (user_tree f) p → p ≠ [] → walk tr w f p = None.
Proof.
  intros (_ & _ & _ & Hp) Hne. destruct p as [|i p]; [done|]. cbn in Hp |- *.
  rewrite Hent by (done || lia). rewrite decide_True, decide_False by (done || lia). done.
Qed.

Lemma walk_kernel_half va : 256 <= index va 39 →
  walk tr w f (page_path va) = walk tr m root (page_path va).
Proof.
  intros Hva. pose proof (index_bound va 39) as Hb. pose proof (fo_good _ _ _ _ Hfo _ [] root Ht (conj (path_ok_prefix _ [] _ (kernel_path root va)) eq_refl)) as Hroot.
  pose proof (walk_new_space (kernel_tree root) (page_path va) Ht (kernel_path root va)) as Hold.
  unfold page_path in *. cbn in Hold |- *. rewrite Hent by done. rewrite !decide_True by done.
  rewrite (Hent root) in Hold by done. rewrite decide_False in Hold; [done|].
  eapply (not_a_table (kernel_tree root) []); [done|]. split; [|done]. apply (path_ok_prefix _ [] _ (kernel_path root va)).
Qed.

Lemma forest_new_space (sp' : Z → Prop) : (∀ h, sp' h → sp h ∧ h ≠ f) →
  forest_ok tr w (user_tree f :: trees) sp'.
Proof.
  intros Hs'. assert (∀ p h, table_at tr w (user_tree f) p h → p = [] ∧ h = f) as Hnew.
  { intros p h [Hp Hw]. destruct (decide (p = [])) as [->|Hne]; [by injection Hw as <-|].
    cbn in Hw. by rewrite walk_user_half in Hw. }
  assert (∀ t p h, t ∈ trees → table_at tr w t p h → table_at tr m t p h) as Hold.
  { intros t p h Ht' [Hp Hw]. split; [done|]. by rewrite walk_new_space in Hw. }
  split.
  - intros t p h [->|Ht']%elem_of_cons Ha; [by apply Hnew in Ha as [_ ->]|].
    apply (fo_good _ _ _ _ Hfo t p h Ht'). by apply Hold.
  - intros t1 t2 p1 p2 h [->|H1]%elem_of_cons [->|H2]%elem_of_cons Ha Hb.
    + apply Hnew in Ha as [-> ->], Hb as [-> _]. done.
    + apply Hnew in Ha as [-> ->]. apply Hold in Hb; [|done]. by destruct (not_a_table t2 p2 f).
    + apply Hnew in Hb as [-> ->]. apply Hold in Ha; [|done]. by destruct (not_a_table t1 p1 f).
    + apply (fo_inj _ _ _ _ Hfo t1 t2 p1 p2 h); auto.
  - intros t p h [->|Ht']%elem_of_cons Ha [Hs Hne]%Hs'; [by apply Hnew in Ha as [_ ->]|].
    eapply (fo_spare _ _ _ _ Hfo t p h); auto.
Qed.
End new_space.

Section spaces.
Context {F : Type} `{!FrameSource F} `{!FrameSourceLaws F}.
Implicit Types s : Paging.t F.
Abbreviation tr s := (Paging.active_translator s).

(** ** Destroying an address space *)
Definition frees (fs : list Z) s : Paging.t F :=
  Paging.set_frames (foldl (λ fr f, deallocate_physical_frame f fr) s.(Paging.frames) fs) s.
Definition unfreed s0 s : Prop := ∃ fs, s = frees fs s0.

Lemma frees_app a b s : frees (a ++ b) s = frees b (frees a s).
Proof. unfold frees. cbn. by rewrite foldl_app. Qed.
Lemma frees_nil s : frees [] s = s.
Proof. by destruct s. Qed.

Lemma mfor_frees s0 l (body : nat → M (Paging.t F) unit unit) g :
  (∀ i s, unfreed s0 s → body i s = (Ok tt, frees (g i) s)) → ∀ s, unfreed s0 s →
  mfor l body s = (Ok tt, frees (l ≫= g) s).
Proof.
  intros Hb. induction l as [|i l IH]; intros s Hs; cbn.
  - by rewrite frees_nil.
  - unfold mbind, M_bind. rewrite Hb by done. rewrite IH; [|].
    + by rewrite frees_app.
    + destruct Hs as [fs ->]. exists (fs ++ g i). by rewrite frees_app.
Qed.

Definition space_tables s (root : Z) : list (list Z * Z) :=
  tables_below (tr s) s.(Paging.words) 3 256 root [] ++ [([], root)].

Lemma destroy_frees s root : root ≠ 0 → root ≠ s.(Paging.kernel_pml4_physical) →
  destroy_user_address_space root s = (Ok tt, frees (space_tables s root).*2 s).
Proof.
  intros Hr Hk. unfold destroy_user_address_space. rewrite (bind_ok _ _ s.(Paging.kernel_pml4_physical) s s) by done.
  rewrite !(proj2 (Z.eqb_neq _ _)) by done. cbn [orb]. rewrite (bind_ok _ _ (table_for_physical s root) s s) by done.
  assert (unfreed s s) as Hs by (exists []; by rewrite frees_nil).
  assert (∀ s', unfreed s s' → s'.(Paging.words) = s.(Paging.words) ∧ tr s' = tr s) as Hsame by (by intros s' [fs ->]).
  assert (∀ g path s', unfreed s s' →
    destroy_pd (AddressTranslator.virtual_for_physical (tr s) g) s' =
    (Ok tt, frees (tables_below (tr s) s.(Paging.words) 1 512 g path).*2 s')) as Hpd.
  { intros g path s' Hs'. unfold destroy_pd. rewrite tables_below_frames. apply (mfor_frees s); [|done].
    intros i s1 H1. destruct (Hsame s1 H1) as [Ew Et].
    unfold read_entry, drop_frame, modify, mbind, M_bind, gets, mret, M_ret. rewrite Ew. unfold table_for_physical. cbn.
    destruct (present _); [done|by rewrite frees_nil]. }
  assert (∀ g path s', unfreed s s' →
    destroy_pdpt (AddressTranslator.virtual_for_physical (tr s) g) s' =
    (Ok tt, frees (tables_below (tr s) s.(Paging.words) 2 512 g path).*2 s')) as Hpdpt.
  { intros g path s' Hs'. unfold destroy_pdpt. rewrite tables_below_frames. apply (mfor_frees s); [|done].
    intros i s1 H1. destruct (Hsame s1 H1) as [Ew Et].
    unfold read_entry, mbind, M_bind, gets. rewrite Ew. unfold table_for_physical. cbn.
    destruct (present _); [|by rewrite frees_nil]. 
    unfold table_for_physical. rewrite Et.
    rewrite (Hpd _ (path ++ [Z.of_nat i])) by done. rewrite frees_app. done. }
  unfold space_tables. rewrite fmap_app, frees_app.
  erewrite bind_ok; [reflexivity|].
  rewrite tables_below_frames. apply (mfor_frees s); [|done].
  intros i s1 H1. destruct (Hsame s1 H1) as [Ew Et].
  unfold read_entry, mbind, M_bind, gets. rewrite Ew. unfold table_for_physical. cbn.
  destruct (present _); [|by rewrite frees_nil].
  unfold table_for_physical. rewrite Et.
  rewrite (Hpdpt _ ([] ++ [Z.of_nat i])) by done. rewrite frees_app. done.
Qed.

Lemma user_path_steps root q : path_ok (user_tree root) q ↔ q = [] ∨ steps_ok 3 256 q.
Proof.
  unfold path_ok, steps_ok. cbn. destruct q as [|i q]; split.
  - by left.
  - intros _. split_and!; [cbn; lia|lia|lia|done].
  - intros (? & _ & _ & ? & ?). right. split_and!; [done|lia|lia|done].
  - intros [|(? & [? ?] & ?)]; [done|]. split_and!; [done|lia|lia|lia|lia|done].
Qed.

Lemma elem_of_space s root p f :
  (p, f) ∈ space_tables s root ↔ has_table s (user_tree root) p f.
Proof.
  unfold space_tables, has_table, table_at. rewrite elem_of_app, list_elem_of_singleton, elem_of_tables, user_path_steps.
  cbn [t_root user_tree]. split.
  - intros [(q & Hq & -> & Hw)|[= -> ->]]; [|by split; [left|]]. split; [by right|done].
  - intros [[->|Hq] Hw]; [right; by injection Hw as <-|]. left. by exists p.
Qed.

Lemma space_frames_NoDup s trees root : paging_ok s trees → user_tree root ∈ trees →
  NoDup (space_tables s root).*2.
Proof.
  intros Hok Ht. assert (NoDup (space_tables s root).*1) as Hnd.
  { unfold space_tables. rewrite fmap_app. apply NoDup_app. split_and!; [apply tables_paths_NoDup| |apply NoDup_singleton].
    intros p Hp ->%list_elem_of_singleton. apply list_elem_of_fmap in Hp as ([p f] & E & (q & [_ Hq] & -> & _)%elem_of_tables).
    cbn in E. by subst q. }
  apply NoDup_fmap_1 in Hnd. apply NoDup_fmap_2_strong; [|done].
  intros [p f] [p' f'] H1%elem_of_space H2%elem_of_space. cbn. intros <-.
  by destruct (fo_inj _ _ _ _ (po_forest _ _ Hok) _ _ _ _ _ Ht Ht H1 H2) as [_ ->].
Qed.

(** returning frames one by one *)
Lemma frees_source fs s : source_ok s.(Paging.frames) → Forall good fs →
  source_ok (frees fs s).(Paging.frames) ∧
  ∀ g, spare (frees fs s).(Paging.frames) g → spare s.(Paging.frames) g ∨ g ∈ fs.
Proof.
  intros Hs Hfs. revert s Hs. induction Hfs as [|f fs Hf _ IH]; intros s Hs.
  - rewrite frees_nil. split; [done|by left].
  - change (f :: fs) with ([f] ++ fs). rewrite frees_app. destruct (deallocate_gives _ f Hs Hf) as [H1 H2].
    destruct (IH (frees [f] s) H1) as [H3 H4]. split; [done|]. intros g [Hg|Hg]%H4.
    + apply H2 in Hg as [?| ->]; [by left|right]. apply list_elem_of_here.
    + right. by apply list_elem_of_further.
Qed.

Lemma forest_subset tr0 m trees trees' sp sp' : forest_ok tr0 m trees sp → (∀ t, t ∈ trees' → t ∈ trees) →
  (∀ t p f, t ∈ trees' → table_at tr0 m t p f → sp' f → sp f) → forest_ok tr0 m trees' sp'.
Proof.
  intros [H1 H2 H3] Hsub Hsp. split.
  - intros t p f Ht Hf. eapply H1; eauto.
  - intros t1 t2 p1 p2 f Ht1 Ht2. apply H2; auto.
  - intros t p f Ht Hf Hf'. eapply H3; eauto.
Qed.

Lemma destroy_spec s trees root : paging_ok s trees → user_tree root ∈ trees →
  root ≠ 0 → root ≠ s.(Paging.kernel_pml4_physical) →
  ∃ fs s', destroy_user_address_space root s = (Ok tt, s') ∧ s' = frees fs s ∧ NoDup fs ∧
    (∀ f, f ∈ fs ↔ ∃ p, has_table s (user_tree root) p f) ∧
    paging_ok s' (filter (λ t, t ≠ user_tree root) trees).
Proof.
  intros Hok Ht Hr Hk. exists (space_tables s root).*2, (frees (space_tables s root).*2 s).
  assert (∀ f, f ∈ (space_tables s root).*2 ↔ ∃ p, has_table s (user_tree root) p f) as Hin.
  { intros f. rewrite list_elem_of_fmap. split.
    - intros ([p g] & -> & H%elem_of_space). by exists p.
    - intros [p H%elem_of_space]. by exists (p, f). }
  split_and!; [by apply destroy_frees|done|by eapply space_frames_NoDup|done|].
  destruct Hok as [H1 H2 H3].
  destruct (frees_source (space_tables s root).*2 s) as [G1 G2]; [done| |].
  { apply Forall_forall. intros f [p Hp]%Hin. by eapply (table_good _ _ _ _ H3). }
  split; [done|done|]. eapply (forest_subset _ _ _ _ _ _ H3).
  - intros t [_ ?]%list_elem_of_filter. done.
  - intros t p f [Hne Ht']%list_elem_of_filter Hf [Hs|Hs]%G2; [done|].
    apply Hin in Hs as [p' Hp']. destruct (fo_inj _ _ _ _ H3 t (user_tree root) p p' f) as [-> _]; done.
Qed.

(** ** A new address space *)
Lemma copy_entries s f root l : translator_ok (tr s) → good f → good root → f ≠ root →
  Forall (λ i, (i < 512)%nat) l →
  let body := λ idx,
    (e ← read_entry (AddressTranslator.virtual_for_physical (tr s) root) (Z.of_nat idx);
     write_entry (AddressTranslator.virtual_for_physical (tr s) f) (Z.of_nat idx) e) : M (Paging.t F) unit unit in
  ∃ w, mfor l body s = (Ok tt, Paging.set_words w s) ∧
    ∀ h i, good h → 0 <= i < 512 →
      entry w (AddressTranslator.virtual_for_physical (tr s) h) i =
      if decide (h = f ∧ Z.to_nat i ∈ l)
      then entry s.(Paging.words) (AddressTranslator.virtual_for_physical (tr s) root) i
      else entry s.(Paging.words) (AddressTranslator.virtual_for_physical (tr s) h) i.
Proof.
  intros Htr Hf Hr Hne Hl body. revert s Htr body. induction Hl as [|k l Hk _ IH]; intros s Htr body.
  - exists s.(Paging.words). split; [by destruct s|]. intros h i _ _. rewrite decide_False; [done|]. by intros [_ ?%elem_of_nil].
  - set (m1 := <[entry_address (AddressTranslator.virtual_for_physical (tr s) f) (Z.of_nat k) :=
      entry s.(Paging.words) (AddressTranslator.virtual_for_physical (tr s) root) (Z.of_nat k)]> s.(Paging.words)).
    assert (∀ h i, good h → 0 <= i < 512 → entry m1 (AddressTranslator.virtual_for_physical (tr s) h) i =
      if decide (h = f ∧ Z.to_nat i = k) then entry s.(Paging.words) (AddressTranslator.virtual_for_physical (tr s) root) i
      else entry s.(Paging.words) (AddressTranslator.virtual_for_physical (tr s) h) i) as Hm1.
    { intros h i Hh Hi. unfold m1, entry at 1. case_decide as E.
      - destruct E as [-> <-]. rewrite Z2Nat.id by lia. by rewrite lookup_insert_eq.
      - rewrite lookup_insert_ne; [done|]. intros He. apply E. destruct (Htr f h (Z.of_nat k) i) as [-> <-]; try done; [lia|].
        by rewrite Nat2Z.id. }
    destruct (IH (Paging.set_words m1 s) Htr) as (w & Hw & Hent). exists w. split; [exact Hw|].
    intros h i Hh Hi. cbn [Paging.words Paging.set_words Paging.active_translator] in Hent.
    change (tr (Paging.set_words m1 s)) with (tr s) in Hent.
    rewrite Hent by done. rewrite !Hm1 by done. rewrite (decide_False (P := root = f ∧ _)) by (intros [? _]; by apply Hne).
    case_decide as E1; [|case_decide as E2].
    + rewrite decide_True; [done|]. destruct E1; split; [done|by apply list_elem_of_further].
    + rewrite decide_True; [done|]. destruct E2 as [-> <-]; split; [done|apply list_elem_of_here].
    + rewrite decide_False; [done|]. intros [-> Hin]. apply elem_of_cons in Hin as [Hin|Hin]; [by apply E2|by apply E1].
Qed.

Lemma create_spec s trees root : kernel_ok s trees root →
  match create_user_address_space s with
  | (Ok f, s') => paging_ok s' (user_tree f :: trees) ∧ same_env s s' ∧ f ≠ root ∧ user_tree f ∉ trees ∧
      (∀ va, 0 <= va < USER_LIMIT → page_of s' (user_tree f) va = None) ∧
      (∀ t va, t ∈ trees → path_ok t (page_path va) → page_of s' t va = page_of s t va) ∧
      (∀ va, 256 <= index va 39 → page_of s' (space_half f) va = page_of s (kernel_tree root) va) ∧
      (∀ t p h, t ∈ user_tree f :: trees → has_table s' t p h → h = f ∨ t ∈ trees ∧ has_table s t p h) ∧
      (∀ g, spare s'.(Paging.frames) g → spare s.(Paging.frames) g ∧ g ≠ f) ∧ spare s.(Paging.frames) f
  | (Err _, s') => grown s trees s' ∧ ∀ g, ¬ spare s.(Paging.frames) g
  end.
Proof.
  intros [Hok Ht Hact Hnn Hready]. unfold create_user_address_space.
  pose proof (new_frame_spec tt s trees Hok) as Hnew. unfold mbind, M_bind, gets.
  destruct (new_frame tt s) as [[f|e] s1] eqn:Enew; [|by destruct Hnew as (? & ? & ?)].
  destruct Hnew as (Hf & Hsp & Hs1 & Hsrc & Hrest).
  destruct Hok as [H1 H2 H3].
  assert (has_table s (kernel_tree root) [] root) as Hrt.
  { split; [|done]. apply (path_ok_prefix _ [] _ (kernel_path root 0)). }
  pose proof (fo_good _ _ _ _ H3 _ _ _ Ht Hrt) as Hroot.
  assert (f ≠ root) as Hne by (intros ->; by eapply (fo_spare _ _ _ _ H3)).
  assert (s1.(Paging.active_pml4) ≠ 0) as Hnn1 by (by rewrite Hs1).
  cbn [clear_table modify].
  assert (Paging.active_pml4 (Paging.set_words (fill_zero (table_for_physical s1 f) (Paging.words s1)) s1) =
    AddressTranslator.virtual_for_physical (tr s) root) as Hact1 by (by rewrite Hs1).
  rewrite Hact1, (proj2 (Z.eqb_neq _ _)) by (by rewrite <-Hact). cbn [negb].
  set (s2 := Paging.set_words _ s1).
  assert (tr s2 = tr s) as Etr by (unfold s2; by rewrite Hs1).
  destruct (copy_entries s2 f root (seq 256 256)) as (w & Hw & Hent); [by rewrite Etr|done|done|done| |].
  { apply Forall_forall. intros i. rewrite elem_of_seq. lia. }
  rewrite Etr in Hw, Hent.
  assert (table_for_physical s1 f = AddressTranslator.virtual_for_physical (tr s) f) as -> by (by rewrite Hs1).
  unfold mbind, M_bind in Hw. rewrite Hw. cbn [mret M_ret].
  assert (∀ h i, good h → 0 <= i < 512 → entry w (AddressTranslator.virtual_for_physical (tr s) h) i =
    if decide (h = f) then (if decide (256 <= i) then
      entry s.(Paging.words) (AddressTranslator.virtual_for_physical (tr s) root) i else 0)
    else entry s.(Paging.words) (AddressTranslator.virtual_for_physical (tr s) h) i) as Hall.
  { assert (s2.(Paging.words) = fill_zero (AddressTranslator.virtual_for_physical (tr s) f) s.(Paging.words)) as E2.
    { unfold s2. by rewrite Hs1. }
    intros h i Hh Hi. rewrite Hent, E2, !(entry_fill_zero (tr s) H1) by done.
    rewrite (decide_False (P := f = root)) by done. destruct (decide (h = f)) as [->|Hhf].
    - rewrite (decide_True (P := f = f)) by done. destruct (decide (256 <= i)).
      + rewrite decide_True; [done|]. split; [done|]. apply elem_of_seq. lia.
      + rewrite decide_False; [done|]. rewrite elem_of_seq. lia.
    - rewrite !decide_False; [done| |]; [congruence|tauto]. }
  assert (s2 = Paging.set_words s2.(Paging.words) (Paging.set_frames s1.(Paging.frames) s)) as Es2.
  { unfold s2 at 1 2. cbn [Paging.words Paging.set_words]. f_equal. exact Hs1. }
  assert (same_env s (Paging.set_words w s2)) as Henv by (rewrite Es2; by split_and!).
  pose proof (forest_new_space (tr s) s.(Paging.words) w trees (spare s.(Paging.frames)) root f H3 Hf Hsp Hall) as Hforest.
  assert (tr (Paging.set_words w s2) = tr s) as Etr' by apply Henv.
  split_and!.
  - split; [by rewrite Etr'|by rewrite Es2|]. rewrite Etr'. cbn [Paging.words Paging.set_words].
    apply Hforest. rewrite Es2. cbn. apply Hrest.
  - done.
  - done.
  - intros Hin. eapply (fo_spare _ _ _ _ H3 (user_tree f) [] f); [done| |done]. split; [|done].
    apply user_path_steps. by left.
  - intros va Hva. unfold page_of, pte. rewrite Etr'. cbn [Paging.words Paging.set_words t_root user_tree].
    rewrite (walk_user_half (tr s) s.(Paging.words) w root f Hf Hall); [done|by apply user_path|done].
  - intros t va Ht' Hva. unfold page_of, pte. rewrite Etr'. cbn [Paging.words Paging.set_words].
    rewrite (walk_new_space (tr s) s.(Paging.words) w trees _ root f H3 Hsp Hall) by done.
    destruct (walk _ _ (t_root t) _) as [pt|] eqn:Ewalk; [|done]. cbn.
    exact (leaf_new_space (tr s) s.(Paging.words) w trees _ root f H3 Hsp Hall t (page_path va) pt va Ht' (conj Hva Ewalk)).
  - intros va Hva. unfold page_of, pte. rewrite Etr'. cbn [Paging.words Paging.set_words t_root space_half kernel_tree].
    rewrite (walk_kernel_half (tr s) s.(Paging.words) w trees _ root f H3 Ht Hf Hsp Hall) by done.
    destruct (walk _ _ root _) as [pt|] eqn:Ewalk; [|done]. cbn.
    exact (leaf_new_space (tr s) s.(Paging.words) w trees _ root f H3 Hsp Hall (kernel_tree root) (page_path va) pt va Ht
      (conj (kernel_path root va) Ewalk)).
  - intros t p h Hin [Hp Hwalk]. rewrite Etr' in Hwalk. cbn [Paging.words Paging.set_words] in Hwalk.
    destruct (decide (t ∈ trees)) as [Ht'|Hnot].
    + right. split; [done|]. split; [done|].
      by rewrite (walk_new_space (tr s) s.(Paging.words) w trees _ root f H3 Hsp Hall) in Hwalk.
    + left. apply elem_of_cons in Hin. destruct Hin as [Hin|Hin]; [|destruct (Hnot Hin)]. subst t.
      destruct p as [|i p]; [injection Hwalk as Hwalk; exact (eq_sym Hwalk)|]. exfalso.
      cbn [t_root user_tree] in Hwalk.
      rewrite (walk_user_half (tr s) s.(Paging.words) w root f Hf Hall) in Hwalk; [discriminate|exact Hp|discriminate].
  - rewrite Es2. cbn. exact Hrest.
  - exact Hsp.
Qed.

(** ** Translations *)
Lemma frame_offset f off : framed f → 0 <= off < 4096 → Z.lor f off = f + off.
Proof.
  intros Hf Ho. assert (Z.land f off = 0) as Hz.
  { assert (off = Z.land off 4095) as -> by (change 4095 with (Z.ones 12); rewrite Z.land_ones, Z.mod_small; lia).
    rewrite <-Hf, (Z.land_comm off), Z.land_assoc, <-(Z.land_assoc f).
    change (Z.land ADDRESS_MASK 4095) with 0. by rewrite Z.land_0_r. }
  by rewrite <-Z.lxor_lor, <-Z.add_nocarry_lxor.
Qed.
Lemma page_offset_mod va : page_offset va = va mod 4096.
Proof. unfold page_offset. change (PAGE_SIZE - 1) with (Z.ones 12). by rewrite Z.land_ones by lia. Qed.
Lemma page_offset_add va off : page_offset va = 0 → 0 <= off < 4096 →
  page_offset (va + off) = off ∧ (va + off) / 4096 = va / 4096.
Proof.
  rewrite !page_offset_mod. intros H Ho. rewrite (Z.div_mod va 4096) at 1 2 by lia. rewrite H, Z.add_0_r, Z.mul_comm.
  split; [by rewrite Z.add_comm, Z.mod_add, Z.mod_small by lia|].
  rewrite Z.add_comm, Z.div_add by lia. rewrite Z.div_small by lia. lia.
Qed.

Lemma framed_aligned f : framed f → f mod 4096 = 0.
Proof.
  intros <-. change 4096 with (2 ^ 12). rewrite <-Z.land_ones, <-Z.land_assoc by lia.
  change (Z.land ADDRESS_MASK (Z.ones 12)) with 0. apply Z.land_0_r.
Qed.
Lemma align_down_frame f off : framed f → 0 <= off < 4096 → align_down (Z.lor f off) = f.
Proof.
  intros Hf Ho. rewrite frame_offset by done. unfold align_down. change (PAGE_SIZE - 1) with (Z.ones 12).
  rewrite Z.ldiff_ones_r, Z.shiftl_mul_pow2, Z.shiftr_div_pow2 by lia. change (2 ^ 12) with 4096.
  pose proof (framed_aligned f Hf). pose proof (Z.div_mod f 4096).
  rewrite <-(Z.div_unique (f + off) 4096 (f / 4096) off); lia.
Qed.

(** the flags of a user page *)
Lemma user_flags_spec prot : let flags := user_flags_from_protection prot in
  flag_bits flags ∧ present flags = true ∧
  ∀ write, user_access write flags = negb write || prot.(MemoryProtection.write).
Proof. destruct prot as [r w x]. destruct w, x; (split; [by vm_compute|]; split; [by vm_compute|]; by intros []). Qed.
Lemma user_access_lor write f flags : framed f → user_access write (Z.lor f flags) = user_access write flags.
Proof.
  intros Hf. unfold user_access. rewrite !Z.land_lor_distr_l, <-Hf, <-!Z.land_assoc.
  change (Z.land ADDRESS_MASK USER_ACCESSIBLE) with 0. change (Z.land ADDRESS_MASK WRITABLE) with 0.
  by rewrite !Z.land_0_r, !Z.lor_0_l.
Qed.

(** translations depend on the entries of the pages only *)
Lemma same_user_translation s s' root va write :
  (va < USER_LIMIT → root ≠ 0 → page_of s' (user_tree root) va = page_of s (user_tree root) va) →
  translate_user_page root va write s' = translate_user_page root va write s.
Proof.
  intros H. destruct (Z.eq_dec root 0) as [->|Hr]; [done|]. destruct (Z_lt_le_dec va USER_LIMIT) as [Hva|Hva].
  - rewrite !translate_user_page_of by done. by rewrite H.
  - unfold translate_user_page, user_leaf_table. by rewrite !(proj2 (Z.leb_le _ _)), !orb_true_r by done.
Qed.
Lemma same_kernel_translation s s' trees kroot va : kernel_ok s trees kroot → same_env s s' →
  page_of s' (kernel_tree kroot) va = page_of s (kernel_tree kroot) va →
  translate_virt va s' = translate_virt va s.
Proof.
  intros [_ _ H3 H4 _] (E1 & E2 & _) Hp. rewrite !(translate_virt_page _ kroot); [by rewrite Hp|done|done|congruence|congruence].
Qed.

(** every translation but those of one page of one tree is as before *)
Definition only_page s s' (trees : list tree) (kroot : Z) (t : tree) (va : Z) : Prop :=
  (∀ root2 va2 write, user_tree root2 ∈ trees → 0 <= va2 → user_tree root2 ≠ t ∨ page_number va2 ≠ page_number va →
     translate_user_page root2 va2 write s' = translate_user_page root2 va2 write s) ∧
  ∀ va2, kernel_tree kroot ≠ t ∨ page_number va2 ≠ page_number va → translate_virt va2 s' = translate_virt va2 s.

Lemma sets_only s s' trees kroot t va v : kernel_ok s trees kroot → sets_page s s' trees t va v →
  only_page s s' trees kroot t va.
Proof.
  intros Hk (Hok & Henv & _ & _ & Hset). split.
  - intros root2 va2 write Ht2 Hva2 Hne. apply same_user_translation. intros Hlim Hr.
    rewrite Hset by (done || by apply user_path). rewrite decide_False; [done|].
    intros [E Hp]. apply same_page_number in Hp. by destruct Hne.
  - intros va2 Hne. eapply same_kernel_translation; [done|done|].
    rewrite Hset; [|by apply (ko_tree _ _ _ Hk)|apply kernel_path]. rewrite decide_False; [done|].
    intros [E Hp]. apply same_page_number in Hp. by destruct Hne.
Qed.
Lemma grown_same s s' trees kroot : kernel_ok s trees kroot → grown s trees s' →
  (∀ root2 va2 write, user_tree root2 ∈ trees → 0 <= va2 →
     translate_user_page root2 va2 write s' = translate_user_page root2 va2 write s) ∧
  ∀ va2, translate_virt va2 s' = translate_virt va2 s.
Proof.
  intros Hk (Hok & [Henv Hpages _ _ _]). split.
  - intros root2 va2 write Ht2 Hva2. apply same_user_translation. intros Hlim Hr. apply Hpages; [done|by apply user_path].
  - intros va2. eapply same_kernel_translation; [done|done|]. apply Hpages; [by apply (ko_tree _ _ _ Hk)|apply kernel_path].
Qed.
Lemma grown_kernel_ok s s' trees kroot : kernel_ok s trees kroot → grown s trees s' → kernel_ok s' trees kroot.
Proof. intros Hk (Hok & Hext). eapply kernel_ok_env; [done|done|apply Hext]. Qed.
Lemma sets_kernel_ok s s' trees kroot t va v : kernel_ok s trees kroot → sets_page s s' trees t va v →
  kernel_ok s' trees kroot.
Proof. intros Hk (Hok & Henv & _). by eapply kernel_ok_env. Qed.

Lemma user_kernel_ne root kroot : kernel_tree kroot ≠ user_tree root.
Proof. unfold kernel_tree, user_tree. congruence. Qed.
End spaces.

(** Mapping a user page maps that page and no other.  When it succeeds, every address of
    the page leads to the same offset of the frame, for reading always and for writing
    exactly when the protection allows it.  Every other page of that address space, every
    page of every other one and every kernel address lead where they led before, and so
    they do all when the call fails. *)
Theorem map_user_page_exact {F : Type} `{!FrameSource F, !FrameSourceLaws F} (s : Paging.t F) trees kroot
    root va physical protection :
  kernel_ok s trees kroot → user_tree root ∈ trees → 0 <= va → framed physical →
  let r := map_user_page root va physical protection s in
  kernel_ok r.2 trees kroot ∧
  match r.1 with
  | Ok _ =>
      (∀ off write, 0 <= off < 4096 → translate_user_page root (va + off) write r.2 =
         if negb write || protection.(MemoryProtection.write) then Some (physical + off) else None) ∧
      only_page s r.2 trees kroot (user_tree root) va
  | Err _ =>
      (∀ root2 va2 write, user_tree root2 ∈ trees → 0 <= va2 →
         translate_user_page root2 va2 write r.2 = translate_user_page root2 va2 write s) ∧
      ∀ va2, translate_virt va2 r.2 = translate_virt va2 s
  end.
Proof.
  intros Hk Ht Hva Hg. pose proof (map_user_page_spec s trees root va physical protection (ko_ok _ _ _ Hk) Ht Hva) as H.
  destruct (map_user_page root va physical protection s) as [[[]|[]] s']; cbn.
  - destruct H as (Hr & Hlim & Hal & Hset). split; [by eapply sets_kernel_ok|]. split; [|by eapply sets_only].
    intros off write Ho. destruct (page_offset_add va off Hal Ho) as [Hoff Hdiv].
    assert (va + off < USER_LIMIT) as Hlim'.
    { rewrite page_offset_mod in Hal. unfold USER_LIMIT in *. change (2 ^ 47) with (2 ^ 35 * 4096) in *.
      pose proof (Z.div_mod va 4096). assert (va / 4096 < 2 ^ 35) by (apply Z.div_lt_upper_bound; lia). lia. }
    rewrite translate_user_page_of by done. destruct Hset as (Hok & Henv & _ & _ & Hset).
    rewrite Hset; [|done|apply user_path; lia]. rewrite decide_True.
    2:{ split; [done|]. apply same_page_number. rewrite !page_number_user by (unfold USER_LIMIT in *; lia). done. }
    destruct (user_flags_spec protection) as (Hfl & Hpr & Hacc). rewrite Hg, present_lor by done. cbn.
    rewrite user_access_lor, Hacc by done. destruct (negb write || _); [|done].
    rewrite entry_frame, Hoff, frame_offset by done. done.
  - split; [by eapply grown_kernel_ok|]. by apply (grown_same _ _ trees kroot).
Qed.

(** Unmapping a user page is exact, also when it fails.  A page that is mapped is unmapped,
    its frame is returned, and no other translation of any address space changes; otherwise
    nothing changes at all. *)
Theorem unmap_user_page_exact {F : Type} `{!FrameSource F, !FrameSourceLaws F} (s : Paging.t F) trees kroot root va :
  kernel_ok s trees kroot → user_tree root ∈ trees → 0 <= va →
  let r := unmap_user_page root va s in
  kernel_ok r.2 trees kroot ∧
  match r.1 with
  | Ok f =>
      (∃ e, page_of s (user_tree root) va = Some e ∧ f = Z.land e ADDRESS_MASK) ∧
      (∀ write, translate_user_page root va write r.2 = None) ∧
      only_page s r.2 trees kroot (user_tree root) va
  | Err _ => r.2 = s ∧ ∀ write, translate_user_page root va write s = None
  end.
Proof.
  intros Hk Ht Hva. pose proof (unmap_user_page_spec s trees root va (ko_ok _ _ _ Hk) Ht Hva) as H.
  destruct (unmap_user_page root va s) as [[f|[]] s']; cbn.
  - destruct H as (Hr & Hlim & Hset & He). split; [by eapply sets_kernel_ok|]. split_and!; [done| |by eapply sets_only].
    intros write. rewrite translate_user_page_of by done. destruct Hset as (_ & _ & _ & _ & Hset).
    rewrite Hset; [|done|by apply user_path]. rewrite decide_True; [done|]. by split; [|apply same_page_number].
  - destruct H as [-> H]. split; [done|]. split; [done|]. intros write.
    destruct (Z.eq_dec root 0) as [->|Hr]; [done|]. destruct (Z_lt_le_dec va USER_LIMIT) as [Hlim|Hlim].
    + rewrite translate_user_page_of by done. destruct H as [?|[?|H]]; [done|lia|]. by rewrite H.
    + unfold translate_user_page, user_leaf_table. by rewrite (proj2 (Z.leb_le _ _)), orb_true_r by done.
Qed.

(** C26: A new address space maps nothing below the user limit and has exactly the kernel's
    mappings above it; its root is a frame no other address space uses; creating it changes
    no translation of any other address space, and it can fail only for want of a frame. *)
Theorem new_address_space_isolated {F : Type} `{!FrameSource F, !FrameSourceLaws F} (s : Paging.t F) trees kroot :
  kernel_ok s trees kroot →
  let r := create_user_address_space s in
  match r.1 with
  | Ok root =>
      kernel_ok r.2 (user_tree root :: trees) kroot ∧ user_tree root ∉ trees ∧
      (∀ va write, 0 <= va → translate_user_page root va write r.2 = None) ∧
      (∀ va, 256 <= index va 39 → page_of r.2 (space_half root) va = page_of s (kernel_tree kroot) va)
  | Err _ => kernel_ok r.2 trees kroot ∧ ∀ f, ¬ spare s.(Paging.frames) f
  end ∧
  (∀ root2 va2 write, user_tree root2 ∈ trees → 0 <= va2 →
     translate_user_page root2 va2 write r.2 = translate_user_page root2 va2 write s) ∧
  ∀ va2, translate_virt va2 r.2 = translate_virt va2 s.
Proof.
  intros Hk. pose proof (create_spec s trees kroot Hk) as H.
  destruct (create_user_address_space s) as [[root|[]] s']; cbn.
  - destruct H as (Hok & Henv & Hne & Hnew & Hnone & Hold & Hhalf & _).
    assert (kernel_ok s' (user_tree root :: trees) kroot) as Hk'.
    { destruct Hk as [_ H2 H3 H4 H5], Henv as (E1 & E2 & _ & _ & E5 & _).
      split; [done|by apply list_elem_of_further|congruence|congruence|congruence]. }
    split_and!; try done.
    + intros va write Hva. destruct (Z.eq_dec root 0) as [->|Hr]; [done|].
      destruct (Z_lt_le_dec va USER_LIMIT) as [Hlim|Hlim].
      * rewrite translate_user_page_of by done. by rewrite Hnone.
      * unfold translate_user_page, user_leaf_table. by rewrite (proj2 (Z.leb_le _ _)), orb_true_r by done.
    + intros root2 va2 write Ht2 Hva2. apply same_user_translation. intros Hlim Hr. apply Hold; [done|by apply user_path].
    + intros va2. eapply same_kernel_translation; [done|done|]. apply Hold; [by apply (ko_tree _ _ _ Hk)|apply kernel_path].
  - destruct H as [Hgrown Hno]. split; [split; [by eapply grown_kernel_ok|done]|]. by apply (grown_same _ _ trees kroot).
Qed.

(** C27: Destroying an address space returns its frames exactly.  Each of its page tables, and
    no other frame, goes back to the frame allocator, each once; it always ends; no table
    of an address space that remains can be handed out, and no translation of one changes. *)
Theorem destroy_returns_tables {F : Type} `{!FrameSource F, !FrameSourceLaws F} (s : Paging.t F) trees kroot root :
  kernel_ok s trees kroot → user_tree root ∈ trees → root ≠ 0 → root ≠ s.(Paging.kernel_pml4_physical) →
  let live := filter (λ t, t ≠ user_tree root) trees in
  ∃ fs s', destroy_user_address_space root s = (Ok tt, s') ∧ s' = frees fs s ∧ NoDup fs ∧
    (∀ f, f ∈ fs ↔ ∃ p, has_table s (user_tree root) p f) ∧
    kernel_ok s' live kroot ∧
    (∀ root2 va2 write, translate_user_page root2 va2 write s' = translate_user_page root2 va2 write s) ∧
    ∀ va2, translate_virt va2 s' = translate_virt va2 s.
Proof.
  intros Hk Ht Hr Hne. destruct (destroy_spec s trees root (ko_ok _ _ _ Hk) Ht Hr Hne) as (fs & s' & H1 & -> & H3 & H4 & H5).
  exists fs, (frees fs s).
  assert (∀ t va, page_of (frees fs s) t va = page_of s t va) as Hsame by (intros t va; reflexivity).
  split_and!; [exact H1|reflexivity|exact H3|exact H4| | |].
  - destruct Hk as [_ G2 G3 G4 G5]. split; [exact H5| |exact G3|exact G4|exact G5].
    apply list_elem_of_filter. split; [apply user_kernel_ne|done].
  - intros root2 va2 write. apply same_user_translation. intros _ _. apply Hsame.
  - intros va2. apply (same_kernel_translation s _ trees kroot); [done| |apply Hsame]. by split_and!.
Qed.

(** *** Ranges of kernel pages *)
Section ranges.
Context {F : Type} `{!FrameSource F, !FrameSourceLaws F}.
Variables (TABLES : Z) (trees : list tree) (kroot : Z).
Implicit Types s : Paging.t F.

Lemma supported_flags flags : Z.ldiff flags SUPPORTED_PAGE_FLAGS = 0 → flag_bits (Z.lor flags PRESENT).
Proof.
  intros H. assert (flags = Z.land flags SUPPORTED_PAGE_FLAGS) as ->.
  { apply Z.bits_inj'. intros n Hn. apply (f_equal (λ x, Z.testbit x n)) in H. rewrite Z.ldiff_spec, Z.testbit_0_l in H.
    rewrite Z.land_spec. by destruct (Z.testbit flags n), (Z.testbit SUPPORTED_PAGE_FLAGS n). }
  unfold flag_bits. rewrite Z.land_lor_distr_l, <-Z.land_assoc.
  change (Z.land SUPPORTED_PAGE_FLAGS ADDRESS_MASK) with 0. change (Z.land PRESENT ADDRESS_MASK) with 0.
  by rewrite Z.land_0_r.
Qed.

(** what mapping one page does to translations *)
Lemma map_page_translates s virt phys flags : kernel_ok s trees kroot → framed phys →
  let r := map_page TABLES virt phys flags s in
  kernel_ok r.2 trees kroot ∧
  match r.1 with
  | Ok _ => Z.land virt 4095 = 0 ∧
      (∀ off, 0 <= off < 4096 → translate_virt (virt + off) r.2 = Some (phys + off)) ∧
      only_page s r.2 trees kroot (kernel_tree kroot) virt
  | Err _ => grown s trees r.2
  end.
Proof.
  intros Hk Hg. pose proof (map_page_spec TABLES s trees kroot virt phys flags Hk) as H.
  destruct (map_page TABLES virt phys flags s) as [[[]|e] s']; cbn; [|by split; [eapply grown_kernel_ok|]].
  destruct H as (Hv & _ & Hfl & Hset & _). pose proof (sets_kernel_ok _ _ _ _ _ _ _ Hk Hset) as Hk'.
  split; [done|]. split; [done|]. split; [|by eapply sets_only]. intros off Ho.
  destruct (page_offset_add virt off Hv Ho) as [Hoff Hdiv].
  rewrite (translate_virt_page s' kroot) by apply Hk'. destruct Hset as (_ & _ & _ & _ & Hset).
  rewrite Hset; [|by apply (ko_tree _ _ _ Hk)|apply kernel_path]. rewrite decide_True.
  2:{ split; [done|]. apply same_page_number. unfold page_number. by rewrite Hdiv. }
  rewrite Hg, present_lor by (by apply present_lor). cbn.
  by rewrite entry_frame, Hoff, frame_offset by (done || by apply supported_flags).
Qed.

(** addresses the processor accepts *)
Definition canonical (va : Z) : Prop := 0 <= va < 2 ^ 47 ∨ 2 ^ 64 - 2 ^ 47 <= va < 2 ^ 64.

Lemma page_number_canonical a b : canonical a → canonical b → page_number a = page_number b → a / 4096 = b / 4096.
Proof.
  intros Ha Hb. assert (∀ x, canonical x → page_number x = x / 4096 ∧ x / 4096 < 2 ^ 35 ∨
    page_number x = x / 4096 - (2 ^ 52 - 2 ^ 36) ∧ 2 ^ 52 - 2 ^ 35 <= x / 4096) as H.
  { intros x [Hx|Hx]; unfold page_number.
    - left. assert (0 <= x / 4096 < 2 ^ 35) by (split; [apply Z.div_pos; lia|apply Z.div_lt_upper_bound; lia]).
      split; [|lia]. apply Z.mod_small. lia.
    - right. assert (2 ^ 52 - 2 ^ 35 <= x / 4096 < 2 ^ 52).
      { split; [apply Z.div_le_lower_bound; lia|apply Z.div_lt_upper_bound; lia]. }
      split; [|lia]. symmetry. apply (Z.mod_unique _ _ (2 ^ 16 - 1)); lia. }
  destruct (H a Ha) as [[-> ?]|[-> ?]], (H b Hb) as [[-> ?]|[-> ?]]; lia.
Qed.

Definition no_user_change s s' : Prop := ∀ root va write, user_tree root ∈ trees → 0 <= va →
  translate_user_page root va write s' = translate_user_page root va write s.

(** the loop has mapped everything below [offset], and maps the rest or stops at an error *)
Lemma map_range_pages_spec fuel s virt phys len offset flags :
  kernel_ok s trees kroot → 0 <= offset → offset mod 4096 = 0 → len = offset + 4096 * Z.of_nat fuel →
  virt mod 4096 = 0 → phys mod 4096 = 0 → 0 <= phys → phys + len <= 2 ^ 52 → len <= umax 64 →
  (∀ o, 0 <= o < len → canonical (virt + o)) →
  let r := map_range_pages TABLES fuel virt phys len offset flags s in
  kernel_ok r.2 trees kroot ∧ no_user_change s r.2 ∧
  (∀ va, canonical va → ¬ (virt + offset <= va < virt + len) → translate_virt va r.2 = translate_virt va s) ∧
  match r.1 with
  | Ok _ => ∀ o, offset <= o < len → translate_virt (virt + o) r.2 = Some (phys + o)
  | Err _ => ∀ o, offset <= o < len →
      translate_virt (virt + o) r.2 = translate_virt (virt + o) s ∨ translate_virt (virt + o) r.2 = Some (phys + o)
  end.
Proof.
  intros Hk Ho Hom Hlen Hvm Hpm Hp Htop Hmax Hcan. revert s offset Hk Ho Hom Hlen.
  induction fuel as [|fuel IH]; intros s offset Hk Ho Hom Hlen; cbn [map_range_pages].
  { split_and!; [done|by intros ? ? ?|done|]. intros o ?. lia. }
  rewrite (proj2 (Z.ltb_lt _ _)) by lia. cbn [negb].
  assert (∀ x y, x mod 4096 = 0 → y mod 4096 = 0 → (x + y) mod 4096 = 0) as Hadd.
  { intros x y Hx Hy. by rewrite Zplus_mod, Hx, Hy. }
  assert (framed (phys + offset)) as Hfr by (apply framed_intro; [lia|by apply Hadd]).
  pose proof (map_page_translates s (virt + offset) (phys + offset) flags Hk Hfr) as Hm.
  unfold mbind, M_bind. destruct (map_page TABLES _ _ flags s) as [[[]|e] s1]; cbn [fst snd] in Hm |- *.
  2:{ destruct Hm as [Hk1 Hg]. destruct (grown_same s s1 trees kroot Hk Hg) as [Hu Hv].
      split_and!; [done|by intros ? ? ?; apply Hu|by intros; apply Hv|by intros; left]. }
  destruct Hm as (Hk1 & _ & Hmapped & Hu & Hv).
  assert (checked_add 64 offset PAGE_SIZE = Some (offset + 4096)) as ->.
  { apply checked_add_Some. unfold PAGE_SIZE. lia. }
  cbn [ok_or lift].
  destruct (IH s1 (offset + 4096)) as (Hk2 & Hu2 & Hv2 & Hr2); [done|lia|by apply Hadd|lia|].
  assert (∀ va, canonical va → ¬ (virt + offset <= va < virt + offset + 4096) →
    translate_virt va s1 = translate_virt va s) as Hother.
  { intros va Hva Hne. apply Hv. right. intros E%page_number_canonical; [|done|apply Hcan; lia].
    assert ((virt + offset) mod 4096 = 0) as Hmod by (by apply Hadd).
    pose proof (Z.div_mod va 4096). pose proof (Z.div_mod (virt + offset) 4096).
    pose proof (Z.mod_pos_bound va 4096). lia. }
  assert (∀ o, offset <= o < offset + 4096 → translate_virt (virt + o) s1 = Some (phys + o)) as Hhere.
  { intros o Hoo. replace (virt + o) with (virt + offset + (o - offset)) by lia. rewrite Hmapped by lia. f_equal. lia. }
  split_and!; [done| | |].
  - intros root va write Ht Hva. rewrite Hu2 by done. apply Hu; [done|done|]. left. apply not_eq_sym, user_kernel_ne.
  - intros va Hva Hne. rewrite Hv2; [apply Hother; [done|lia]|done|lia].
  - destruct (map_range_pages TABLES fuel virt phys len (offset + 4096) flags s1) as [[[]|e] s2]; cbn [fst snd] in *;
      intros o Hoo; destruct (Z_lt_le_dec o (offset + 4096)).
    + rewrite Hv2; [apply Hhere; lia|apply Hcan; lia|lia].
    + apply Hr2. lia.
    + right. rewrite Hv2; [apply Hhere; lia|apply Hcan; lia|lia].
    + destruct (Hr2 o) as [E|E]; [lia| |by right]. left. rewrite E. apply Hother; [apply Hcan; lia|lia].
Qed.
End ranges.

(** Mapping a range of kernel pages.  When it succeeds every address of the range leads to
    the same offset of the physical range; when it fails, each leads there or where it led
    before.  Addresses outside the range and all user pages are as before in any case. *)
Theorem map_range_exact {F : Type} `{!FrameSource F, !FrameSourceLaws F} TABLES trees kroot (s : Paging.t F)
    virt phys len flags :
  kernel_ok s trees kroot → 0 <= virt → 0 <= phys → 0 <= len → phys + len <= 2 ^ 52 →
  (∀ o, 0 <= o < len → canonical (virt + o)) →
  let r := map_range TABLES virt phys len flags s in
  kernel_ok r.2 trees kroot ∧ no_user_change trees s r.2 ∧
  (∀ va, canonical va → ¬ (virt <= va < virt + len) → translate_virt va r.2 = translate_virt va s) ∧
  match r.1 with
  | Ok _ => ∀ o, 0 <= o < len → translate_virt (virt + o) r.2 = Some (phys + o)
  | Err _ => ∀ o, 0 <= o < len →
      translate_virt (virt + o) r.2 = translate_virt (virt + o) s ∨ translate_virt (virt + o) r.2 = Some (phys + o)
  end.
Proof.
  intros Hk Hv Hp Hl Htop Hcan. unfold map_range, validate_page_alignment.
  assert (∀ x, Z.land x (PAGE_SIZE - 1) = x mod 4096) as Hmod.
  { intros x. change (PAGE_SIZE - 1) with (Z.ones 12). by rewrite Z.land_ones by lia. }
  rewrite !Hmod.
  assert (∀ e : PagingError.t, kernel_ok s trees kroot ∧ no_user_change trees s s ∧
    (∀ va, canonical va → ¬ (virt <= va < virt + len) → translate_virt va s = translate_virt va s) ∧
    ∀ o, 0 <= o < len → translate_virt (virt + o) s = translate_virt (virt + o) s ∨
      translate_virt (virt + o) s = Some (phys + o)) as Hfail by (intros e; split_and!; [done|by intros ? ? ?|done|by left]).
  destruct (Z.eqb_spec (virt mod 4096) 0) as [Hvm|]; [|apply (Hfail PagingError.InvalidAlignment)].
  destruct (Z.eqb_spec (phys mod 4096) 0) as [Hpm|]; [|apply (Hfail PagingError.InvalidAlignment)].
  cbn [orb negb lift]. unfold mbind, M_bind. cbn [lift].
  destruct (Z.eqb_spec len 0) as [->|Hne]; [apply (Hfail PagingError.InvalidAlignment)|].
  destruct (Z.eqb_spec (len mod 4096) 0) as [Hlm|]; [|apply (Hfail PagingError.InvalidAlignment)]. cbn [orb negb].
  destruct (checked_add 64 virt len) as [e1|] eqn:E1; [|apply (Hfail PagingError.AddressOverflow)]. cbn [ok_or lift].
  destruct (checked_add 64 phys len) as [e2|] eqn:E2; [|apply (Hfail PagingError.AddressOverflow)]. cbn [ok_or lift].
  apply checked_add_Some in E1 as [-> E1].
  pose proof (map_range_pages_spec TABLES trees kroot (Z.to_nat (len / PAGE_SIZE)) s virt phys len 0 flags) as H.
  cbn zeta in H. rewrite Z.add_0_r in H. apply H; try done; try lia.
  rewrite Z2Nat.id by (apply Z.div_pos; unfold PAGE_SIZE; lia). unfold PAGE_SIZE. pose proof (Z.div_mod len 4096). lia.
Qed.

(** The two ways to look an address up agree: the diagnostic walk, which reports the entry
    it reads at every level, ends at the same physical address as the translation, also when
    a level is missing, and neither is defined before the tables are active. *)
Theorem page_walk_agrees {F : Type} (s : Paging.t F) va :
  translate_virt va s = (w ← walk_kernel_page_tables va s; w.(PageTableWalk.physical)) ∧
  (walk_kernel_page_tables va s = None ↔ s.(Paging.active_pml4) = 0).
Proof.
  unfold translate_virt, walk_kernel_page_tables, leaf_table.
  destruct (Z.eqb_spec (Paging.active_pml4 s) 0) as [Hz|Hz]; [done|].
  assert (∀ w : PageTableWalk.t, Some w = None ↔ s.(Paging.active_pml4) = 0) as Hw by (by intros w; split).
  do 3 (destruct (present _); cbn [negb]; [|by split; [|apply Hw]]).
  split; [|apply Hw]. cbn. by destruct (present _).
Qed.

(** ** Every reachable state *)
Section reachable.
Context {F : Type} `{!FrameSource F, !FrameSourceLaws F}.
Variables (TABLES kroot : Z).
Implicit Types s : Paging.t F.

(** the frame is neither a page table nor free *)
Definition data_frame s (trees : list tree) (f : Z) : Prop :=
  ¬ spare s.(Paging.frames) f ∧ ∀ t p, t ∈ trees → ¬ has_table s t p f.

(** the states the kernel reaches: address spaces come and go, and pages of live ones and of
    the kernel are mapped and unmapped; callers map data frames into user space *)
Inductive reachable : Paging.t F → list tree → Prop :=
| reach_boot s : kernel_ok s [kernel_tree kroot] kroot → reachable s [kernel_tree kroot]
| reach_create s trees r s' : reachable s trees → create_user_address_space s = (r, s') →
    reachable s' (match r with Ok root => user_tree root :: trees | Err _ => trees end)
| reach_destroy s trees root : reachable s trees → user_tree root ∈ trees →
    root ≠ 0 → root ≠ s.(Paging.kernel_pml4_physical) →
    reachable (destroy_user_address_space root s).2 (filter (λ t, t ≠ user_tree root) trees)
| reach_map_user s trees root va physical protection : reachable s trees → user_tree root ∈ trees → 0 <= va →
    framed physical → data_frame s trees physical →
    reachable (map_user_page root va physical protection s).2 trees
| reach_unmap_user s trees root va : reachable s trees → user_tree root ∈ trees → 0 <= va →
    reachable (unmap_user_page root va s).2 trees
| reach_map s trees virt phys flags : reachable s trees →
    reachable (map_page TABLES virt phys flags s).2 trees
| reach_unmap s trees virt : reachable s trees → reachable (unmap_page virt s).2 trees
| reach_switch s trees root : reachable s trees → reachable (switch_address_space root s).2 trees.

(** a page of a user address space is a data frame *)
Definition pages_apart s (trees : list tree) : Prop :=
  ∀ root va e, user_tree root ∈ trees → 0 <= va < USER_LIMIT → page_of s (user_tree root) va = Some e →
    data_frame s trees (Z.land e ADDRESS_MASK).

Lemma data_frame_keep s s' trees trees' f : data_frame s trees f →
  (∀ g, spare s'.(Paging.frames) g → spare s.(Paging.frames) g ∨ ∃ t p, t ∈ trees ∧ has_table s t p g) →
  (∀ t p g, t ∈ trees' → has_table s' t p g →
     (∃ t2 p2, t2 ∈ trees ∧ has_table s t2 p2 g) ∨ spare s.(Paging.frames) g) →
  data_frame s' trees' f.
Proof.
  intros [H1 H2] Hsp Htab. split.
  - intros [Hs|(t & p & Ht & Hp)]%Hsp; [done|]. by apply (H2 t p).
  - intros t p Ht Hp. apply Htab in Hp as [(t2 & p2 & Ht2 & Hp2)|Hs]; [by apply (H2 t2 p2)|done|done].
Qed.

Lemma data_frame_grown s s' trees f : grown s trees s' → data_frame s trees f → data_frame s' trees f.
Proof.
  intros (_ & [_ _ _ Hnew Hsp]) Hf. eapply data_frame_keep; [done|intros g Hg; left; by apply Hsp|].
  intros t p g Ht Hp. apply Hnew in Hp as [Hp|Hp]; [left; by exists t, p|by right|done].
Qed.
Lemma data_frame_sets s s' trees t va v f : sets_page s s' trees t va v → data_frame s trees f → data_frame s' trees f.
Proof.
  intros (_ & _ & Hnew & Hsp & _) Hf. eapply data_frame_keep; [done|intros g Hg; left; by apply Hsp|].
  intros t2 p g Ht Hp. apply Hnew in Hp as [Hp|Hp]; [left; by exists t2, p|by right|done].
Qed.

Lemma pages_apart_grown s s' trees : grown s trees s' → pages_apart s trees → pages_apart s' trees.
Proof.
  intros Hg Hp root va e Ht Hva He. apply (data_frame_grown s); [done|].
  eapply Hp; [done|done|]. rewrite <-He. symmetry. apply Hg; [done|by apply user_path].
Qed.
(** the new entry is none, or leads to a data frame, or belongs to the kernel *)
Lemma pages_apart_sets s s' trees t va v : sets_page s s' trees t va v → pages_apart s trees →
  present v = false ∨ t = kernel_tree kroot ∨ data_frame s trees (Z.land v ADDRESS_MASK) → pages_apart s' trees.
Proof.
  intros Hset Hp Hv root va2 e Ht Hva He. apply (data_frame_sets s _ _ _ _ _ _ Hset).
  destruct (Hset) as (_ & _ & _ & _ & Hpage). rewrite Hpage in He; [|done|by apply user_path].
  case_decide as Hd; [|by eapply Hp]. destruct Hd as [Hd _].
  destruct Hv as [Hv|[->|Hv]]; [by rewrite Hv in He|destruct (user_kernel_ne root kroot (eq_sym Hd))|].
  destruct (present v); [|done]. by injection He as <-.
Qed.

Lemma reachable_kernel_ok s trees : reachable s trees → kernel_ok s trees kroot ∧ pages_apart s trees.
Proof.
  induction 1 as [s Hs|s trees r s' _ [Hk Hp] Hc|s trees root _ [Hk Hp] Ht Hr Hne|
    s trees root va physical protection _ [Hk Hp] Ht Hva Hg Hd|s trees root va _ [Hk Hp] Ht Hva|
    s trees virt phys flags _ [Hk Hp]|s trees virt _ [Hk Hp]|s trees root _ [Hk Hp]].
  - split; [done|]. intros root va e Ht%list_elem_of_singleton. destruct (user_kernel_ne root kroot (eq_sym Ht)).
  - pose proof (create_spec s trees kroot Hk) as H. rewrite Hc in H. destruct r as [f|[]].
    + destruct H as (Hok & Henv & Hne & Hnew & Hnone & Hold & _ & Htab & Hsp & Hf). split.
      { destruct Hk as [_ H2 H3 H4 H5], Henv as (E1 & E2 & _ & _ & E5 & _).
        split; [done|by apply list_elem_of_further|congruence|congruence|congruence]. }
      intros root va e Ht Hva He. apply elem_of_cons in Ht as [Ht|Ht].
      { injection Ht as ->. by rewrite Hnone in He. }
      rewrite Hold in He; [|done|by apply user_path].
      eapply (data_frame_keep s); [by eapply Hp|intros g Hg; left; by apply Hsp|].
      intros t p g Ht2 Hp2. apply Htab in Hp2 as [->|[Ht3 Hp3]]; [by right|left; by exists t, p|done].
    + destruct H as [H _]. split; [by eapply grown_kernel_ok|by eapply pages_apart_grown].
  - destruct (destroy_spec s trees root (ko_ok _ _ _ Hk) Ht Hr Hne) as (fs & s' & Hd & -> & _ & Hfs & Hok).
    rewrite Hd. cbn [snd]. split.
    { destruct Hk as [_ G2 G3 G4 G5]. split; [exact Hok| |exact G3|exact G4|exact G5].
      apply list_elem_of_filter. split; [apply user_kernel_ne|done]. }
    intros root2 va e [_ Ht2]%list_elem_of_filter Hva He. change (page_of s (user_tree root2) va = Some e) in He.
    eapply (data_frame_keep s); [by eapply Hp| |].
    + assert (Forall good fs) as Hgood.
      { apply Forall_forall. intros f [p Hf]%Hfs. exact (table_good _ _ _ _ (po_forest _ _ (ko_ok _ _ _ Hk)) _ _ _ Ht Hf). }
      destruct (frees_source fs s (po_source _ _ (ko_ok _ _ _ Hk)) Hgood) as [_ Hsp].
      intros g [?|[p Hg]%Hfs]%Hsp; [by left|]. right. by exists (user_tree root), p.
    + intros t p g [_ Ht3]%list_elem_of_filter Hp3. left. by exists t, p.
  - pose proof (map_user_page_spec s trees root va physical protection (ko_ok _ _ _ Hk) Ht Hva) as H.
    destruct (map_user_page root va physical protection s) as [[[]|[]] s']; cbn.
    + destruct H as (_ & _ & _ & Hset). split; [by eapply sets_kernel_ok|]. eapply pages_apart_sets; [done|done|].
      right. right. rewrite Hg, entry_frame; [done|done|]. by destruct (user_flags_spec protection).
    + split; [by eapply grown_kernel_ok|by eapply pages_apart_grown].
  - pose proof (unmap_user_page_spec s trees root va (ko_ok _ _ _ Hk) Ht Hva) as H.
    destruct (unmap_user_page root va s) as [[f|[]] s']; cbn; [|by destruct H as [-> _]].
    destruct H as (_ & _ & Hset & _). split; [by eapply sets_kernel_ok|]. eapply pages_apart_sets; [done|done|by left].
  - pose proof (map_page_spec TABLES s trees kroot virt phys flags Hk) as H.
    destruct (map_page TABLES virt phys flags s) as [[[]|e] s']; cbn.
    + destruct H as (_ & _ & _ & Hset & _). split; [by eapply sets_kernel_ok|].
      eapply pages_apart_sets; [done|done|right; by left].
    + split; [by eapply grown_kernel_ok|by eapply pages_apart_grown].
  - pose proof (unmap_page_spec s trees kroot virt Hk) as H.
    destruct (unmap_page virt s) as [[f|e] s']; cbn; [|by destruct H as [-> _]].
    destruct H as (Hset & _). split; [by eapply sets_kernel_ok|]. eapply pages_apart_sets; [done|done|by left].
  - assert (∀ c cur, kernel_ok (Paging.set_roots s.(Paging.kernel_pml4_physical) cur (Paging.set_cpu c s.(Paging.invalidated) s))
      trees kroot) as Hcpu by (intros c cur; destruct Hk as [[K1 K2 K3] K4 K5 K6 K7]; by split).
    unfold switch_address_space, load_cr3, mbind, M_bind, gets, modify. cbn.
    set (target := if root =? 0 then _ else root). destruct (target =? 0); cbn; [done|].
    destruct (negb _); cbn; [split; [apply Hcpu|exact Hp]|done].
Qed.
End reachable.

(** C4: In every state paging reaches, whatever address spaces are created and destroyed and
    whatever pages are mapped and unmapped, address spaces share no page table, no page
    table is a frame the allocator can hand out again, and no page a user can access is a
    page table or a free frame, provided callers only map frames that were neither when
    they mapped them. *)
Theorem paging_invariant {F : Type} `{!FrameSource F, !FrameSourceLaws F} TABLES kroot (s : Paging.t F) trees :
  reachable TABLES kroot s trees →
  (∀ t1 t2 p1 p2 f, t1 ∈ trees → t2 ∈ trees → has_table s t1 p1 f → has_table s t2 p2 f → t1 = t2 ∧ p1 = p2) ∧
  (∀ t p f, t ∈ trees → has_table s t p f → ¬ spare s.(Paging.frames) f) ∧
  ∀ root va write a, user_tree root ∈ trees → 0 <= va → translate_user_page root va write s = Some a →
    ¬ spare s.(Paging.frames) (align_down a) ∧ ∀ t p, t ∈ trees → ¬ has_table s t p (align_down a).
Proof.
  intros [Hk Hp]%reachable_kernel_ok. destruct (po_forest _ _ (ko_ok _ _ _ Hk)) as [F1 F2 F3].
  split; [exact F2|]. split; [exact F3|]. intros root va write a Ht Hva Ha.
  destruct (Z.eq_dec root 0) as [->|Hr]; [done|]. destruct (Z_lt_le_dec va USER_LIMIT) as [Hlim|Hlim].
  2:{ revert Ha. unfold translate_user_page, user_leaf_table. by rewrite (proj2 (Z.leb_le _ _)), orb_true_r by done. }
  rewrite translate_user_page_of in Ha by done. destruct (page_of s (user_tree root) va) as [e|] eqn:He; [|done].
  cbn in Ha. destruct (user_access write e); [|done]. injection Ha as <-.
  assert (align_down (Z.lor (Z.land e ADDRESS_MASK) (page_offset va)) = Z.land e ADDRESS_MASK) as ->.
  { apply align_down_frame; [apply framed_land|]. rewrite page_offset_mod. apply Z.mod_pos_bound. lia. }
  by apply (Hp root va e).
Qed.

(** ** Examples *)
(** the example kernel with one address space, and with a page in it *)
Definition demo_space : Paging.t PhysicalFrameAllocator.t := (create_user_address_space demo_paging).2.
Definition demo_trees : list tree := [user_tree 20480; kernel_tree 0].
Definition demo_rw : MemoryProtection.t := MemoryProtection.new true true false.
Definition demo_mapped : Paging.t PhysicalFrameAllocator.t :=
  (map_user_page 20480 4194304 (2 ^ 30) demo_rw demo_space).2.

Lemma demo_created : create_user_address_space demo_paging = (Ok 20480, demo_space).
Proof. apply injective_projections; by vm_compute. Qed.

Lemma demo_space_ok : kernel_ok demo_space demo_trees 0.
Proof.
  pose proof (reachable_kernel_ok 0 0 demo_space demo_trees) as H. apply H.
  apply (reach_create 0 0 demo_paging [kernel_tree 0] (Ok 20480) demo_space); [|exact demo_created].
  apply reach_boot, demo_kernel_ok.
Qed.

Lemma demo_user : user_tree 20480 ∈ demo_trees.
Proof. apply list_elem_of_here. Qed.

Lemma map_user_page_exact_witness : (map_user_page 20480 4194304 (2 ^ 30) demo_rw demo_space).1 = Ok tt ∧
  translate_user_page 20480 (4194304 + 5) true demo_mapped = Some (2 ^ 30 + 5).
Proof.
  destruct (map_user_page_exact demo_space demo_trees 0 20480 4194304 (2 ^ 30) demo_rw) as [_ H];
    [apply demo_space_ok|apply demo_user|lia|by vm_compute|].
  assert ((map_user_page 20480 4194304 (2 ^ 30) demo_rw demo_space).1 = Ok tt) as E by (by vm_compute).
  split; [exact E|]. rewrite E in H. unfold demo_mapped.
  pose proof (proj1 H 5 true ltac:(lia)) as H5.
  change (negb true || MemoryProtection.write demo_rw) with true in H5. exact H5.
Defined.

Lemma demo_mapped_ok : kernel_ok demo_mapped demo_trees 0.
Proof.
  pose proof (map_user_page_spec demo_space demo_trees 20480 4194304 (2 ^ 30) demo_rw (ko_ok _ _ _ demo_space_ok)
    demo_user ltac:(lia)) as H. unfold demo_mapped.
  destruct (map_user_page 20480 4194304 (2 ^ 30) demo_rw demo_space) as [[[]|[]] s'].
  - eapply sets_kernel_ok; [apply demo_space_ok|apply H].
  - eapply grown_kernel_ok; [apply demo_space_ok|apply H].
Qed.

Lemma unmap_user_page_exact_witness : (unmap_user_page 20480 4194304 demo_mapped).1 = Ok (2 ^ 30) ∧
  translate_user_page 20480 4194304 false (unmap_user_page 20480 4194304 demo_mapped).2 = None.
Proof.
  destruct (unmap_user_page_exact demo_mapped demo_trees 0 20480 4194304) as [_ H];
    [apply demo_mapped_ok|apply demo_user|lia|].
  assert ((unmap_user_page 20480 4194304 demo_mapped).1 = Ok (2 ^ 30)) as E by (by vm_compute).
  split; [exact E|]. rewrite E in H. exact (proj1 (proj2 H) false).
Defined.

Lemma new_address_space_isolated_witness :
  kernel_ok demo_space demo_trees 0 ∧ ∀ va write, 0 <= va → translate_user_page 20480 va write demo_space = None.
Proof.
  pose proof (new_address_space_isolated demo_paging [kernel_tree 0] 0 demo_kernel_ok) as H.
  rewrite demo_created in H. cbn [fst snd] in H. destruct H as [(H1 & _ & H2 & _) _]. split; [exact H1|exact H2].
Defined.

(** the four tables of the address space are returned, the page is not *)
Lemma destroy_returns_tables_witness : ∃ fs s', destroy_user_address_space 20480 demo_mapped = (Ok tt, s') ∧
  NoDup fs ∧ s' = frees fs demo_mapped ∧ (space_tables demo_mapped 20480).*2 = [36864; 32768; 28672; 20480].
Proof.
  destruct (destroy_returns_tables demo_mapped demo_trees 0 20480) as (fs & s' & H1 & H2 & H3 & _);
    [apply demo_mapped_ok|apply demo_user|lia|by vm_compute|].
  exists fs, s'. split; [exact H1|]. split; [exact H3|]. split; [exact H2|by vm_compute].
Defined.

Lemma map_range_exact_witness : let va := 2 ^ 64 - 2 ^ 46 in
  (map_range 0 va (2 ^ 30) 8192 WRITABLE demo_space).1 = Ok tt ∧
  translate_virt (va + 4097) (map_range 0 va (2 ^ 30) 8192 WRITABLE demo_space).2 = Some (2 ^ 30 + 4097).
Proof.
  intros va. destruct (map_range_exact 0 demo_trees 0 demo_space va (2 ^ 30) 8192 WRITABLE) as (_ & _ & _ & H);
    [apply demo_space_ok|by vm_compute|by vm_compute|lia|by vm_compute|intros o Ho; right; unfold va; lia|].
  assert ((map_range 0 va (2 ^ 30) 8192 WRITABLE demo_space).1 = Ok tt) as E by (by vm_compute).
  split; [exact E|]. rewrite E in H. exact (H 4097 ltac:(lia)).
Defined.

Lemma paging_invariant_witness : length demo_trees = 2%nat ∧
  ∀ t p f, t ∈ demo_trees → has_table demo_space t p f → ¬ spare demo_space.(Paging.frames) f.
Proof.
  split; [reflexivity|].
  refine (proj1 (proj2 (paging_invariant 0 0 demo_space demo_trees _))).
  apply (reach_create 0 0 demo_paging [kernel_tree 0] (Ok 20480) demo_space); [|exact demo_created].
  apply reach_boot, demo_kernel_ok.
Defined.
