(* ===== verification/KernelHeap.v ===== *)
(** * The kernel heap's pages

    src/src/kernel/memory/heap.rs: the heap is a fixed range of kernel addresses whose
    pages are mapped to physical frames as it grows.  The state is the page tables and
    frames of [Paging] and the layout the code keeps in [HEAP_LAYOUT]; console output is
    left out. *)

From stdpp Require Import prelude gmap.
From S2P Require Import Prelude Slots Subkernel FrameAllocator Paging PagingSafety.

Local Open Scope Z_scope.

Definition KERNEL_HEAP_BASE : Z := 2 ^ 64 - 112 * 2 ^ 40.  (* 0xffff_9000_0000_0000 *)
Definition KERNEL_HEAP_RESERVED_BYTES : Z := 16 * 1024 * 1024.
Definition INITIAL_HEAP_COMMIT_BYTES : Z := 128 * 1024.

Module KernelHeapLayout.
Record t : Type := mk {
  base : Z; reserved_bytes : Z; committed_bytes : Z; frame_count : Z
}.
End KernelHeapLayout.

Module KernelHeapError.
Inductive t : Type :=
| PhysicalAllocatorNotInitialized | FrameBackedMapperNotInitialized | InvalidRange
| AddressOverflow | OutOfFrames | MapFailed (error : PagingError.t).
End KernelHeapError.

Definition page_flags_from_protection (protection : MemoryProtection.t) : Z :=
  let flags := GLOBAL in
  let flags := if protection.(MemoryProtection.write) then Z.lor flags WRITABLE else flags in
  if negb protection.(MemoryProtection.execute) then Z.lor flags NO_EXECUTE else flags.

Definition page_align_up (value : Z) : option Z :=
  added ← checked_add 64 value (PAGE_SIZE - 1); Some (Z.ldiff added (PAGE_SIZE - 1)).

(** the offsets [while offset < end { ..; offset += PAGE_SIZE }] visits *)
Definition page_offsets (start end_ : Z) : list Z :=
  (λ i, start + PAGE_SIZE * i) <$> seqZ 0 ((end_ - start + PAGE_SIZE - 1) / PAGE_SIZE).

Module KernelHeap.
Record t (F : Type) : Type := mk { paging : Paging.t F; layout : option KernelHeapLayout.t }.
Arguments mk {F} _ _.
Arguments paging {F} _.
Arguments layout {F} _.
End KernelHeap.

Section kernel_heap.
Context {F : Type} `{!FrameSource F}.
Variable TABLES : Z.
Abbreviation PagingOp := (M (Paging.t F) KernelHeapError.t).
Abbreviation HeapOp := (M (KernelHeap.t F) KernelHeapError.t).

(** one page of the rollback: errors are ignored *)
Definition release_page (base offset : Z) : PagingOp unit :=
  catch (physical ← unmap_page (base + offset); drop_frame physical) (λ _, mret tt).
Definition rollback_committed_pages (base start end_ : Z) : PagingOp unit :=
  mfor (page_offsets start end_) (release_page base).

(** the loop of [commit_range]; [fuel] is the number of pages *)
Fixpoint commit_loop (fuel : nat) (base current_committed target_committed flags next frames : Z)
    : PagingOp Z :=
  match fuel with
  | O => mret frames
  | S fuel =>
      if negb (next <? target_committed) then mret frames
      else
        physical ← catch (new_frame tt) (λ _,
          _ ← rollback_committed_pages base current_committed next;
          throw KernelHeapError.OutOfFrames);
        match checked_add 64 base next with
        | None =>
            _ ← drop_frame physical;
            _ ← rollback_committed_pages base current_committed next;
            throw KernelHeapError.AddressOverflow
        | Some virtual_address =>
            _ ← catch (map_page TABLES virtual_address physical flags) (λ error,
              _ ← drop_frame physical;
              _ ← rollback_committed_pages base current_committed next;
              throw (KernelHeapError.MapFailed error));
            commit_loop fuel base current_committed target_committed flags
              (sat_add 64 next PAGE_SIZE) (sat_add 64 frames 1)
        end
  end.
Definition commit_range (base current_committed target_committed : Z)
    (protection : MemoryProtection.t) : PagingOp Z :=
  if (target_committed <? current_committed) || negb (current_committed mod PAGE_SIZE =? 0)
     || negb (target_committed mod PAGE_SIZE =? 0)
  then throw KernelHeapError.InvalidRange
  else
    commit_loop (Z.to_nat ((target_committed - current_committed) / PAGE_SIZE)) base
      current_committed target_committed (page_flags_from_protection protection)
      current_committed 0.

Definition on_paging {A} (m : PagingOp A) : HeapOp A := λ h,
  let '(r, p) := m h.(KernelHeap.paging) in (r, KernelHeap.mk p h.(KernelHeap.layout)).
Definition put_layout (l : KernelHeapLayout.t) : HeapOp unit :=
  modify (λ h, KernelHeap.mk h.(KernelHeap.paging) (Some l)).
(** both allocators must be online *)
Definition check_online : HeapOp unit :=
  p ← gets KernelHeap.paging;
  if negb (physical_allocator_initialized p.(Paging.frames))
  then throw KernelHeapError.PhysicalAllocatorNotInitialized
  else if negb p.(Paging.frame_allocator_ready)
  then throw KernelHeapError.FrameBackedMapperNotInitialized
  else mret tt.

Definition initialize_heap : HeapOp KernelHeapLayout.t :=
  _ ← check_online;
  committed ← lift (ok_or (page_align_up INITIAL_HEAP_COMMIT_BYTES) KernelHeapError.AddressOverflow);
  if (committed =? 0) || (KERNEL_HEAP_RESERVED_BYTES <? committed)
  then throw KernelHeapError.InvalidRange
  else
    frames ← on_paging (commit_range KERNEL_HEAP_BASE 0 committed (MemoryProtection.new true true false));
    let layout :=
      KernelHeapLayout.mk KERNEL_HEAP_BASE KERNEL_HEAP_RESERVED_BYTES committed frames in
    _ ← put_layout layout;
    mret layout.

Definition grow_committed (base reserved_bytes current_committed target_committed : Z)
    (protection : MemoryProtection.t) : HeapOp KernelHeapLayout.t :=
  if target_committed <=? current_committed then
    l ← gets KernelHeap.layout; lift (ok_or l KernelHeapError.InvalidRange)
  else if negb (base =? KERNEL_HEAP_BASE) || negb (reserved_bytes =? KERNEL_HEAP_RESERVED_BYTES)
  then throw KernelHeapError.InvalidRange
  else if reserved_bytes <? target_committed then throw KernelHeapError.InvalidRange
  else
    _ ← check_online;
    target ← lift (ok_or (page_align_up target_committed) KernelHeapError.AddressOverflow);
    current ← lift (ok_or (page_align_up current_committed) KernelHeapError.AddressOverflow);
    added_frames ← on_paging (commit_range base current target protection);
    guard ← gets KernelHeap.layout;
    let layout := default (KernelHeapLayout.mk base reserved_bytes current (current / PAGE_SIZE))
                    guard in
    let layout := KernelHeapLayout.mk layout.(KernelHeapLayout.base)
                    layout.(KernelHeapLayout.reserved_bytes) target
                    (sat_add 64 layout.(KernelHeapLayout.frame_count) added_frames) in
    _ ← put_layout layout;
    mret layout.
End kernel_heap.
