(* ===== verification/KernelHeapSafety.v ===== *)
(** * Growing the kernel heap

    What [commit_range] does to the page tables: on success exactly the pages of the range
    are mapped, to distinct frames that were spare; on failure every translation is as it
    was before.  [heap_ok] is the invariant of the heap: its committed pages are mapped to
    frames of its own. *)

From stdpp Require Import prelude gmap.
From S2P Require Import Prelude Slots Subkernel FrameAllocator Paging PagingSafety KernelHeap.

Local Open Scope Z_scope.

Section commits.
Context {F : Type} `{!FrameSource F} `{!FrameSourceLaws F}.
Variables (trees : list tree) (root base flags : Z).
Implicit Types (s : Paging.t F) (new : list Z).

Definition kpage s (va : Z) : option Z := page_of s (kernel_tree root) va.
Definition is_table s (f : Z) : Prop := ∃ t p, t ∈ trees ∧ has_table s t p f.
(** the entry a page of the heap gets *)
Definition heap_entry (f : Z) : Z := Z.lor f (Z.lor flags PRESENT).
Definition heap_va (start : Z) (k : nat) : Z := base + start + 4096 * Z.of_nat k.

(** [s] is [s0] with the frames [new] mapped at the pages from [start] on *)
Record commits s0 s (start : Z) new : Prop := {
  c_ok : kernel_ok s trees root;
  c_env : same_env s0 s;
  c_tables : ∀ t p f, t ∈ trees → has_table s t p f → has_table s0 t p f ∨ spare s0.(Paging.frames) f;
  c_spare : ∀ f, spare s.(Paging.frames) f → spare s0.(Paging.frames) f;
  c_nodup : NoDup new;
  c_new : ∀ f, f ∈ new → good f ∧ spare s0.(Paging.frames) f ∧ ¬ spare s.(Paging.frames) f ∧
    ¬ is_table s f;
  c_mapped : ∀ k f, new !! k = Some f → kpage s (heap_va start k) = Some (heap_entry f);
  c_rest : ∀ t va, t ∈ trees → path_ok t (page_path va) →
    (∀ k, (k < length new)%nat → ¬ (t = kernel_tree root ∧ same_page va (heap_va start k))) →
    page_of s t va = page_of s0 t va
}.

Hypothesis Hflags : Z.land flags ADDRESS_MASK = 0.

Lemma heap_entry_frame f : good f → Z.land (heap_entry f) ADDRESS_MASK = f.
Proof.
  intros [Hf _]. unfold heap_entry. rewrite !Z.land_lor_distr_l, Hflags, Hf.
  change (Z.land PRESENT ADDRESS_MASK) with 0. by rewrite !Z.lor_0_r.
Qed.
Lemma heap_entry_present f : present (heap_entry f) = true.
Proof.
  unfold present, heap_entry. apply negb_true_iff, Z.eqb_neq. intros H.
  apply (f_equal (λ z, Z.testbit z 0)) in H.
  rewrite Z.land_spec, !Z.lor_spec, Z.bits_0 in H. change (Z.testbit PRESENT 0) with true in H.
  by rewrite !orb_true_r in H.
Qed.

Lemma commits_refl s start : kernel_ok s trees root → commits s s start [].
Proof.
  intros Hok. split; [done|apply same_env_refl|by left|done|constructor| |done|done].
  by intros f ?%elem_of_nil.
Qed.

Lemma new_tables s s' : (∀ t p f, t ∈ trees → has_table s' t p f → has_table s t p f ∨ spare s.(Paging.frames) f) →
  ∀ f, is_table s' f → is_table s f ∨ spare s.(Paging.frames) f.
Proof. intros H f (t & p & Ht & Hf). destruct (H t p f Ht Hf) as [Hh|Hh]; [left; by exists t, p|by right]. Qed.

(** a step that maps nothing differently *)
Lemma commits_frame s0 s s' start new : commits s0 s start new → kernel_ok s' trees root →
  same_env s s' → (∀ t p f, t ∈ trees → has_table s' t p f → has_table s t p f ∨ spare s.(Paging.frames) f) →
  (∀ f, spare s'.(Paging.frames) f → spare s.(Paging.frames) f) →
  (∀ t va, t ∈ trees → path_ok t (page_path va) → page_of s' t va = page_of s t va) →
  commits s0 s' start new.
Proof.
  intros [Hok Henv Htab Hsp Hnd Hnew Hmap Hrest] Hok' Henv' Htab' Hsp' Hpages.
  split; [done|by eapply same_env_trans| |by eauto|done| | |].
  - intros t p f Ht [Hf|Hf]%Htab'; [by apply Htab|right; by apply Hsp|done].
  - intros f Hf. destruct (Hnew f Hf) as (H1 & H2 & H3 & H4). split_and!; [done|done|by eauto|].
    intros [H|H]%(new_tables _ _ Htab'); [by apply H4|by apply H3].
  - intros k f Hk. rewrite <-(Hmap k f Hk). apply Hpages; [apply (ko_tree _ _ _ Hok)|apply kernel_path].
  - intros t va Ht Hva Hne. rewrite Hpages by done. by apply Hrest.
Qed.

Lemma set_frames_tables s fr f : is_table (Paging.set_frames fr s) f ↔ is_table s f.
Proof. done. Qed.
Lemma set_frames_env s fr : same_env s (Paging.set_frames fr s).
Proof. by split_and!. Qed.
Lemma set_frames_ok s fr : kernel_ok s trees root → source_ok fr →
  (∀ f, spare fr f → ¬ is_table s f) → kernel_ok (Paging.set_frames fr s) trees root.
Proof.
  intros [[Htr Hsrc [Hg Hi Hs]] Ht Hact Hnn Hready] Hfr Hsp. split; [|done|done|done|done].
  split; [done|done|]. split; [done|done|].
  intros t p f Htin Htab Hf. eapply Hsp; [done|]. by exists t, p.
Qed.

Lemma page_of_same s t va va' : same_page va va' → page_of s t va = page_of s t va'.
Proof. intros [Hp Hi]. unfold page_of, pte, leaf_entry. by rewrite Hp, Hi. Qed.

(** giving back a frame that is in use nowhere *)
Lemma commits_drop {E} s0 s start new f : commits s0 s start new → good f → f ∉ new →
  spare s0.(Paging.frames) f → ¬ is_table s f →
  ∃ s', drop_frame (E := E) f s = (Ok tt, s') ∧ commits s0 s' start new.
Proof.
  intros [Hok Henv Htab Hsp Hnd Hnew Hmap Hrest] Hg Hf Hsp0 Hnt.
  destruct (deallocate_gives s.(Paging.frames) f (po_source _ _ (ko_ok _ _ _ Hok)) Hg) as [Hsrc Hgive].
  eexists. split; [done|]. split; [|done|done| |done| |done|done].
  - apply set_frames_ok; [done|done|]. intros g [Hs | ->]%Hgive; [|done].
    intros (t & p & Ht & Htb). by eapply (fo_spare _ _ _ _ (po_forest _ _ (ko_ok _ _ _ Hok))).
  - intros g [Hs | ->]%Hgive; [by apply Hsp|done].
  - intros g Hgn. destruct (Hnew g Hgn) as (H1 & H2 & H3 & H4). split_and!; [done|done| |done].
    intros [Hs | ->]%Hgive; [done|by apply Hf].
Qed.

(** two pages of the range *)
Lemma heap_va_inj start j k : Z.of_nat (Nat.max j k) < 2 ^ 36 →
  same_page (heap_va start j) (heap_va start k) → j = k.
Proof.
  intros Hb Hs%same_page_number. unfold heap_va, page_number in Hs.
  rewrite !(Z.mul_comm 4096), !Z.div_add in Hs by done. set (b := (base + start) / 4096) in Hs.
  assert (((b + Z.of_nat j) - (b + Z.of_nat k)) mod 2 ^ 36 = 0) as H0.
  { by rewrite Zminus_mod, Hs, Z.sub_diag. }
  replace (b + Z.of_nat j - (b + Z.of_nat k)) with (Z.of_nat j - Z.of_nat k) in H0 by lia.
  apply Z.mod_divide in H0 as [c Hc]; [|done]. nia.
Qed.
Lemma heap_va_S start k : heap_va (start + 4096) k = heap_va start (S k).
Proof. unfold heap_va. lia. Qed.

(** one page of the rollback *)
Lemma release_page_spec s0 s start f new : commits s0 s start (f :: new) →
  Z.of_nat (length (f :: new)) < 2 ^ 36 → Z.land (base + start) 4095 = 0 →
  kpage s0 (base + start) = None →
  ∃ s', release_page base start s = (Ok tt, s') ∧ commits s0 s' (start + 4096) new.
Proof.
  intros Hc Hlen Hal Hfree. pose proof Hc as [Hok Henv Htab Hsp Hnd Hnew Hmap Hrest].
  destruct (Hnew f ltac:(apply list_elem_of_here)) as (Hg & Hs0 & Hns & Hnt).
  pose proof (Hmap O f eq_refl) as Hm0. unfold heap_va in Hm0. rewrite Z.mul_0_r, Z.add_0_r in Hm0.
  pose proof (unmap_page_spec s trees root (base + start) Hok) as Hun.
  unfold release_page, catch, mbind, M_bind.
  destruct (unmap_page (base + start) s) as [[f'|e] s1].
  2:{ destruct Hun as (_ & [[_ Ha]|[_ Hn]]); [done|]. unfold kpage in Hm0. congruence. }
  destruct Hun as ((Hok1 & Henv1 & Htab0 & Hsp1 & Hset) & _ & e & He & ->).
  pose proof (new_tables _ _ Htab0) as Htab1.
  unfold kpage in Hm0. rewrite Hm0 in He. injection He as <-. rewrite heap_entry_frame by done.
  apply NoDup_cons in Hnd as [Hfn Hnd].
  assert (commits s0 s1 (start + 4096) new) as Hc1.
  { split.
    - by eapply kernel_ok_env.
    - by eapply same_env_trans.
    - intros t p g Ht [Hh|Hh]%Htab0; [by apply Htab|right; by apply Hsp|done].
    - intros g Hgs. by apply Hsp, Hsp1.
    - done.
    - intros g Hgn. destruct (Hnew g) as (H1 & H2 & H3 & H4); [by apply list_elem_of_further|].
      split_and!; [done|done|intros H; by apply H3, Hsp1|].
      by intros [Hh|Hh]%Htab1.
    - intros k g Hk. rewrite heap_va_S. unfold kpage. rewrite Hset; [|apply (ko_tree _ _ _ Hok)|apply kernel_path].
      rewrite decide_False; [by apply (Hmap (S k))|]. intros [_ Hp].
      replace (base + start) with (heap_va start 0) in Hp by (unfold heap_va; lia).
      apply heap_va_inj in Hp; [done|]. apply lookup_lt_Some in Hk. cbn in Hlen. lia.
    - intros t va Ht Hva Hne. rewrite Hset by done. case_decide as Hd.
      + destruct Hd as [-> Hp]. change (present 0) with false. cbn iota.
        rewrite <-Hfree. symmetry. by apply page_of_same.
      + apply Hrest; [done|done|]. intros [|k] Hk [-> Hp].
        * apply Hd. split; [done|]. replace (base + start) with (heap_va start 0) by (unfold heap_va; lia). done.
        * eapply (Hne k); [cbn in Hk; lia|]. by rewrite heap_va_S. }
  apply (commits_drop s0 s1 (start + 4096) new f Hc1 Hg Hfn Hs0).
  by intros [Hh|Hh]%Htab1.
Qed.

Lemma page_offsets_nil start : page_offsets start start = [].
Proof. unfold page_offsets. replace (start - start + PAGE_SIZE - 1) with 4095 by (unfold PAGE_SIZE; lia). done. Qed.
Lemma page_offsets_S start n :
  page_offsets start (start + 4096 * Z.of_nat (S n)) =
  start :: page_offsets (start + 4096) (start + 4096 + 4096 * Z.of_nat n).
Proof.
  unfold page_offsets. change PAGE_SIZE with 4096.
  replace ((start + 4096 * Z.of_nat (S n) - start + 4096 - 1) / 4096) with (Z.succ (Z.of_nat n)).
  2:{ replace (start + 4096 * Z.of_nat (S n) - start + 4096 - 1) with (4095 + Z.succ (Z.of_nat n) * 4096) by lia.
      by rewrite Z.div_add. }
  replace ((start + 4096 + 4096 * Z.of_nat n - (start + 4096) + 4096 - 1) / 4096) with (Z.of_nat n).
  2:{ replace (start + 4096 + 4096 * Z.of_nat n - (start + 4096) + 4096 - 1) with (4095 + Z.of_nat n * 4096) by lia.
      by rewrite Z.div_add. }
  rewrite seqZ_cons by lia. cbn [fmap list_fmap]. f_equal; [lia|].
  rewrite Z.pred_succ. change (Z.succ 0) with (1 + 0). rewrite <-(fmap_add_seqZ 1 0), <-list_fmap_compose.
  apply list_fmap_ext. intros k z _. cbn. lia.
Qed.
Lemma page_offsets_len start n : length (page_offsets start (start + 4096 * Z.of_nat n)) = n.
Proof.
  revert start. induction n as [|n IH]; intros start.
  - by rewrite Z.mul_0_r, Z.add_0_r, page_offsets_nil.
  - rewrite page_offsets_S. cbn. by rewrite IH.
Qed.

Lemma rollback_spec s0 s start new : commits s0 s start new →
  Z.of_nat (length new) < 2 ^ 36 → Z.land (base + start) 4095 = 0 →
  (∀ k, (k < length new)%nat → kpage s0 (heap_va start k) = None) →
  ∃ s', rollback_committed_pages base start (start + 4096 * Z.of_nat (length new)) s = (Ok tt, s') ∧
    commits s0 s' (start + 4096 * Z.of_nat (length new)) [].
Proof.
  unfold rollback_committed_pages. revert s start.
  induction new as [|f new IH]; intros s start Hc Hlen Hal Hfree.
  - cbn [length]. rewrite Z.mul_0_r, Z.add_0_r, page_offsets_nil. by exists s.
  - cbn [length]. rewrite page_offsets_S. cbn [mfor].
    destruct (release_page_spec s0 s start f new Hc) as (s1 & E1 & Hc1); [done|done| |].
    { rewrite <-(Hfree O) by (cbn; lia). unfold heap_va. f_equal. lia. }
    rewrite (bind_ok _ _ _ _ _ E1).
    destruct (IH s1 (start + 4096) Hc1) as (s2 & E2 & Hc2).
    + cbn in Hlen. lia.
    + replace (base + (start + 4096)) with (base + start + 1 * 4096) by lia.
      change 4095 with (Z.ones 12) in *. rewrite Z.land_ones in * by done.
      change (2 ^ 12) with 4096 in *. by rewrite Z.mod_add.
    + intros k Hk. rewrite heap_va_S. apply Hfree. cbn. lia.
    + exists s2. split; [done|].
      replace (start + 4096 * Z.of_nat (S (length new))) with (start + 4096 + 4096 * Z.of_nat (length new)) by lia.
      done.
Qed.
Lemma commits_nil_start s0 s start start' : commits s0 s start [] → commits s0 s start' [].
Proof. intros [Hok Henv Htab Hsp Hnd Hnew Hmap Hrest]. split; try done. intros t va Ht Hva _. apply Hrest; [done|done|cbn; lia]. Qed.

(** a frame taken for the next page *)
Definition taken s0 s new (f : Z) : Prop :=
  f ∉ new ∧ good f ∧ spare s0.(Paging.frames) f ∧ ¬ spare s.(Paging.frames) f ∧ ¬ is_table s f.
Lemma take_frame_spec {E} s0 s start new (e : E) : commits s0 s start new →
  match new_frame e s with
  | (Ok f, s') => commits s0 s' start new ∧ taken s0 s' new f
  | (Err _, s') => commits s0 s' start new
  end.
Proof.
  intros Hc. pose proof (c_ok _ _ _ _ Hc) as Hok. pose proof (ko_ok _ _ _ Hok) as [_ Hsrc Hforest].
  pose proof (allocate_takes s.(Paging.frames) Hsrc) as Ha. unfold new_frame.
  destruct (allocate_physical_frame s.(Paging.frames)) as [[f|] fr].
  - destruct Ha as (Hfr & Hf & Hsp).
    assert (kernel_ok (Paging.set_frames fr s) trees root) as Hok'.
    { apply set_frames_ok; [done|done|]. intros g [Hg _]%Hsp (t & p & Ht & Htb).
      by eapply (fo_spare _ _ _ _ Hforest). }
    split.
    + apply (commits_frame _ _ _ _ _ Hc Hok'); [apply set_frames_env|by left| |done].
      intros g [Hg _]%Hsp. done.
    + split_and!.
      * intros Hin. by destruct (c_new _ _ _ _ Hc f Hin) as (_ & _ & H & _).
      * by apply (spare_good s.(Paging.frames)).
      * by apply (c_spare _ _ _ _ Hc).
      * by intros [_ H]%Hsp.
      * intros (t & p & Ht & Htb). by eapply (fo_spare _ _ _ _ Hforest).
  - destruct Ha as (Hfr & Hsp & _). apply (commits_frame _ _ _ _ _ Hc); [|apply set_frames_env|by left| |done].
    + apply set_frames_ok; [done|done|]. intros g Hg%Hsp (t & p & Ht & Htb).
      by eapply (fo_spare _ _ _ _ Hforest).
    + intros g Hg%Hsp. done.
Qed.

(** mapping it *)
Lemma map_next_spec TABLES s0 s start new f : commits s0 s start new → taken s0 s new f →
  Z.of_nat (length new) + 1 < 2 ^ 36 →
  match map_page TABLES (heap_va start (length new)) f flags s with
  | (Ok _, s') => commits s0 s' start (new ++ [f])
  | (Err _, s') => commits s0 s' start new ∧ ¬ is_table s' f
  end.
Proof.
  intros Hc (Hfn & Hg & Hs0 & Hns & Hnt) Hlen. pose proof Hc as [Hok Henv Htab Hsp Hnd Hnew Hmap Hrest].
  pose proof (map_page_spec TABLES s trees root (heap_va start (length new)) f flags Hok) as Hm.
  destruct (map_page _ _ _ _ s) as [[[]|e] s'].
  - destruct Hm as (_ & _ & _ & (Hok' & Henv' & Htab0 & Hsp' & Hset) & _).
    pose proof (new_tables _ _ Htab0) as Htab'.
    replace (Z.land f ADDRESS_MASK) with f in Hset by (symmetry; apply Hg). fold (heap_entry f) in Hset.
    rewrite heap_entry_present in Hset.
    assert (∀ g, g ∈ new ++ [f] → good g ∧ spare s0.(Paging.frames) g ∧ ¬ spare s.(Paging.frames) g ∧ ¬ is_table s g) as Hall.
    { intros g [Hgn| ->%list_elem_of_singleton]%elem_of_app; [by apply Hnew|done]. }
    split.
    + by eapply kernel_ok_env.
    + by eapply same_env_trans.
    + intros t p g Ht [Hh|Hh]%Htab0; [by apply Htab|right; by apply Hsp|done].
    + intros g Hgs. by apply Hsp, Hsp'.
    + apply NoDup_app. split_and!; [done| |apply NoDup_singleton].
      intros g Hgn ->%list_elem_of_singleton. done.
    + intros g Hgn. destruct (Hall g Hgn) as (H1 & H2 & H3 & H4). split_and!; [done|done|intros H; by apply H3, Hsp'|].
      by intros [Hh|Hh]%Htab'.
    + intros k g Hk. unfold kpage. rewrite Hset; [|apply (ko_tree _ _ _ Hok)|apply kernel_path].
      apply lookup_app_Some in Hk as [Hk|[Hk Hg']].
      * rewrite decide_False; [by apply Hmap|]. intros [_ Hp].
        apply lookup_lt_Some in Hk. apply heap_va_inj in Hp; lia.
      * apply list_lookup_singleton_Some in Hg' as [Hk0 ->].
        replace k with (length new) by lia. by rewrite decide_True.
    + intros t va Ht Hva Hne. rewrite length_app in Hne. cbn in Hne. rewrite Hset by done.
      rewrite decide_False by (intros [-> Hp]; by apply (Hne (length new)); [lia|]).
      apply Hrest; [done|done|]. intros k Hk. apply Hne. lia.
  - destruct Hm as (Hok' & [Henv' Hpages _ Htab0 Hsp']). pose proof (new_tables _ _ Htab0) as Htab'.
    split; [|by intros [Hh|Hh]%Htab'].
    apply (commits_frame _ _ _ _ _ Hc); [by eapply kernel_ok_env|done|done|done|done].
Qed.

Section loop.
Variables (TABLES : Z) (s0 : Paging.t F) (start : Z) (pages : nat).
Hypotheses (Hpages : Z.of_nat pages < 2 ^ 36) (Hal : Z.land (base + start) 4095 = 0)
  (Hfree : ∀ k, (k < pages)%nat → kpage s0 (heap_va start k) = None).

Lemma undo_spec s new (e : KernelHeapError.t) : commits s0 s start new → (length new <= pages)%nat →
  ∃ s', (_ ← rollback_committed_pages base start (start + 4096 * Z.of_nat (length new));
         throw (A := Z) e) s = (Err e, s') ∧ commits s0 s' start [].
Proof.
  intros Hc Hlen. destruct (rollback_spec s0 s start new Hc) as (s' & E & Hc').
  { lia. } { done. } { intros k Hk. apply Hfree. lia. }
  exists s'. rewrite (bind_ok _ _ _ _ _ E). split; [done|]. by eapply commits_nil_start.
Qed.

Lemma commit_loop_spec fuel s new target frames : commits s0 s start new →
  (length new + fuel = pages)%nat → target = start + 4096 * Z.of_nat pages → 0 <= start ->
  target <= umax 64 → 0 <= frames → frames + Z.of_nat fuel <= umax 64 →
  match commit_loop TABLES fuel base start target flags (start + 4096 * Z.of_nat (length new)) frames s with
  | (Ok n, s') => n = frames + Z.of_nat fuel ∧ ∃ more, length more = fuel ∧ commits s0 s' start (new ++ more)
  | (Err _, s') => commits s0 s' start []
  end.
Proof.
  revert s new frames. induction fuel as [|fuel IH]; intros s new frames Hc Hlen Htarget Hst Hmax Hfr Hmaxf.
  { cbn. split; [lia|]. exists []. by rewrite app_nil_r. }
  cbn [commit_loop]. rewrite (proj2 (Z.ltb_lt _ _)) by lia. cbn [negb].
  unfold mbind at 1, M_bind at 1, catch at 1.
  pose proof (take_frame_spec s0 s start new tt Hc) as Hnf.
  destruct (new_frame tt s) as [[f|[]] s1].
  2:{ destruct (undo_spec s1 new KernelHeapError.OutOfFrames Hnf) as (s2 & -> & Hc2); [lia|done]. }
  destruct Hnf as [Hc1 Htk]. pose proof Htk as (Hfn & Hg & Hsp & _ & Hnt).
  unfold checked_add. destruct (Z.leb_spec (base + (start + 4096 * Z.of_nat (length new))) (umax 64)).
  2:{ destruct (commits_drop (E := KernelHeapError.t) s0 s1 start new f Hc1 Hg Hfn Hsp Hnt) as (s2 & E2 & Hc2).
      rewrite (bind_ok _ _ _ _ _ E2).
      destruct (undo_spec s2 new KernelHeapError.AddressOverflow Hc2) as (s3 & -> & Hc3); [lia|done]. }
  replace (base + (start + 4096 * Z.of_nat (length new))) with (heap_va start (length new)) by (unfold heap_va; lia).
  pose proof (map_next_spec TABLES s0 s1 start new f Hc1 Htk) as Hm.
  unfold mbind at 1, M_bind at 1, catch at 1.
  destruct (map_page _ _ _ _ s1) as [[[]|e] s2]; (specialize (Hm ltac:(lia))).
  2:{ destruct Hm as [Hc2 Hnt2].
      destruct (commits_drop (E := KernelHeapError.t) s0 s2 start new f Hc2 Hg Hfn Hsp Hnt2) as (s3 & E3 & Hc3).
      rewrite (bind_ok _ _ _ _ _ E3). unfold mbind at 1, M_bind at 1.
      destruct (rollback_spec s0 s3 start new Hc3) as (s4 & E4 & Hc4).
      { lia. } { done. } { intros k Hk. apply Hfree. lia. }
      rewrite E4. by eapply commits_nil_start. }
  rewrite (sat_add_small 64 frames 1) by lia.
  rewrite (sat_add_small 64 _ PAGE_SIZE) by (change PAGE_SIZE with 4096; lia).
  replace (start + 4096 * Z.of_nat (length new) + PAGE_SIZE) with (start + 4096 * Z.of_nat (length (new ++ [f])))
    by (rewrite length_app; unfold PAGE_SIZE; cbn; lia).
  assert (length (new ++ [f]) = S (length new)) as El by (rewrite length_app; cbn; lia).
  specialize (IH s2 (new ++ [f]) (frames + 1) Hm ltac:(lia) Htarget Hst Hmax ltac:(lia) ltac:(lia)).
  destruct (commit_loop _ _ _ _ _ _ _ _ s2) as [[n|e] s3]; [|done].
  destruct IH as (-> & more & Hmore & Hc3). split; [lia|].
  exists (f :: more). split; [cbn; lia|]. by rewrite cons_middle, app_assoc.
Qed.
End loop.
End commits.

(** ** The heap *)
Section heap.
Context {F : Type} `{!FrameSource F} `{!FrameSourceLaws F}.
Variables (TABLES : Z) (trees : list tree) (root : Z).
Implicit Types (h : KernelHeap.t F) (fs : list Z).
Abbreviation heap_page := (heap_va KERNEL_HEAP_BASE 0).

(** the frames [fs] back the committed pages, in order *)
Record heap_ok h fs : Prop := {
  ho_paging : kernel_ok h.(KernelHeap.paging) trees root;
  ho_layout : match h.(KernelHeap.layout) with
    | Some l => l = KernelHeapLayout.mk KERNEL_HEAP_BASE KERNEL_HEAP_RESERVED_BYTES
                      (4096 * Z.of_nat (length fs)) (Z.of_nat (length fs))
    | None => fs = []
    end;
  ho_len : (length fs <= 4096)%nat;
  ho_nodup : NoDup fs;
  ho_held : ∀ f, f ∈ fs → good f ∧ ¬ spare h.(KernelHeap.paging).(Paging.frames) f ∧
    ¬ is_table trees h.(KernelHeap.paging) f;
  ho_mapped : ∀ k f, fs !! k = Some f → ∃ e, kpage root h.(KernelHeap.paging) (heap_page k) = Some e ∧
    Z.land e ADDRESS_MASK = f;
  ho_free : ∀ k, (length fs <= k < 4096)%nat → kpage root h.(KernelHeap.paging) (heap_page k) = None
}.

(** no page but those of the heap from [n] to [m] is mapped differently, and new tables
    are frames that were spare *)
Record maps_only h h' (n m : nat) : Prop := {
  mo_pages : ∀ t va, t ∈ trees → path_ok t (page_path va) →
    (∀ k, (n <= k < m)%nat → ¬ (t = kernel_tree root ∧ same_page va (heap_page k))) →
    page_of h'.(KernelHeap.paging) t va = page_of h.(KernelHeap.paging) t va;
  mo_env : same_env h.(KernelHeap.paging) h'.(KernelHeap.paging);
  mo_tables : ∀ t p f, t ∈ trees → has_table h'.(KernelHeap.paging) t p f →
    has_table h.(KernelHeap.paging) t p f ∨ spare h.(KernelHeap.paging).(Paging.frames) f;
  mo_spare : ∀ f, spare h'.(KernelHeap.paging).(Paging.frames) f → spare h.(KernelHeap.paging).(Paging.frames) f
}.

Lemma page_align_up_spec v r : page_align_up v = Some r → 0 <= v →
  v <= r < v + 4096 ∧ r mod 4096 = 0 ∧ (v mod 4096 = 0 → r = v).
Proof.
  unfold page_align_up. change PAGE_SIZE with 4096. intros Hr Hv.
  destruct (checked_add 64 v (4096 - 1)) as [a|] eqn:Ha; [|done]. injection Hr as <-.
  apply checked_add_Some in Ha as [-> _]. change (4096 - 1) with (Z.ones 12).
  rewrite Z.ldiff_ones_r, Z.shiftr_div_pow2, Z.shiftl_mul_pow2 by done.
  change (Z.ones 12) with 4095. change (2 ^ 12) with 4096.
  pose proof (Z.div_mod (v + 4095) 4096). pose proof (Z.mod_pos_bound (v + 4095) 4096).
  split_and!; [lia|lia|by rewrite Z.mod_mul|]. intros Hm.
  pose proof (Z.div_mod v 4096). assert (v + 4095 = 4095 + v / 4096 * 4096) as -> by lia.
  rewrite Z.div_add by done. change (4095 / 4096) with 0. lia.
Qed.

Lemma page_flags_ok protection : Z.land (page_flags_from_protection protection) ADDRESS_MASK = 0.
Proof. destruct protection as [r [] []]; reflexivity. Qed.

Lemma heap_page_split n k : heap_va KERNEL_HEAP_BASE (4096 * Z.of_nat n) k = heap_page (n + k).
Proof. unfold heap_va. lia. Qed.

Lemma heap_page_inj j k : (j < 4096)%nat → (k < 4096)%nat → same_page (heap_page j) (heap_page k) → j = k.
Proof. intros Hj Hk. apply heap_va_inj. lia. Qed.

(** the state after a commit of [more] frames *)
Lemma commits_heap h fs flags p more : heap_ok h fs → Z.land flags ADDRESS_MASK = 0 →
  commits trees root KERNEL_HEAP_BASE flags h.(KernelHeap.paging) p (4096 * Z.of_nat (length fs)) more →
  (length fs + length more <= 4096)%nat →
  (∀ l, l = KernelHeapLayout.mk KERNEL_HEAP_BASE KERNEL_HEAP_RESERVED_BYTES
          (4096 * Z.of_nat (length (fs ++ more))) (Z.of_nat (length (fs ++ more))) →
     heap_ok (KernelHeap.mk p (Some l)) (fs ++ more)) ∧
  maps_only h (KernelHeap.mk p None) (length fs) (length (fs ++ more)).
Proof.
  intros [Hok Hlay Hlen Hnd Hheld Hmap Hfree] Hfl [Hok' Henv Htab Hsp Hnd' Hnew Hmap' Hrest] Hb.
  assert (maps_only h (KernelHeap.mk p None) (length fs) (length (fs ++ more))) as Hmaps.
  { split; [|done|done|done]. intros t va Ht Hva Hne. apply Hrest; [done|done|]. intros k Hk.
    rewrite heap_page_split. apply Hne. rewrite length_app. lia. }
  split; [|done]. intros l ->.
  assert (∀ k, (k < 4096)%nat → (k < length fs ∨ length (fs ++ more) <= k)%nat →
    kpage root p (heap_page k) = kpage root h.(KernelHeap.paging) (heap_page k)) as Hsame.
  { intros k Hk Hor. apply (mo_pages _ _ _ _ Hmaps); [apply (ko_tree _ _ _ Hok)|apply kernel_path|].
    intros j Hj [_ Hp%heap_page_inj]; rewrite ?length_app in *; lia. }
  split; cbn [KernelHeap.paging KernelHeap.layout]; [done|done|rewrite length_app; lia| | | |].
  - apply NoDup_app. split_and!; [done| |done]. intros f Hf Hfm.
    destruct (Hheld f Hf) as (_ & Hns & _). by destruct (Hnew f Hfm) as (_ & H & _).
  - intros f [Hf|Hf]%elem_of_app.
    + destruct (Hheld f Hf) as (Hg & Hns & Hnt). split_and!; [done|intros H; by apply Hns, Hsp|].
      by intros [H|H]%(new_tables _ _ _ Htab).
    + by destruct (Hnew f Hf) as (Hg & _ & H1 & H2).
  - intros k f [Hk|[Hk Hf]]%lookup_app_Some.
    + rewrite Hsame by (apply lookup_lt_Some in Hk; lia). by apply Hmap.
    + pose proof (Hmap' _ _ Hf) as He. rewrite heap_page_split in He.
      replace (length fs + (k - length fs))%nat with k in He by lia. eexists. split; [done|].
      apply heap_entry_frame; [done|]. eapply Hnew, list_elem_of_lookup_2, Hf.
  - intros k Hk. rewrite Hsame by lia. apply Hfree. rewrite length_app in Hk. lia.
Qed.

Lemma commit_range_spec h fs target protection : heap_ok h fs →
  target mod 4096 = 0 → 4096 * Z.of_nat (length fs) <= target <= KERNEL_HEAP_RESERVED_BYTES →
  let r := commit_range TABLES KERNEL_HEAP_BASE (4096 * Z.of_nat (length fs)) target protection
             h.(KernelHeap.paging) in
  ∃ more, (∀ l, l = KernelHeapLayout.mk KERNEL_HEAP_BASE KERNEL_HEAP_RESERVED_BYTES
              (4096 * Z.of_nat (length (fs ++ more))) (Z.of_nat (length (fs ++ more))) →
              heap_ok (KernelHeap.mk r.2 (Some l)) (fs ++ more)) ∧
    maps_only h (KernelHeap.mk r.2 None) (length fs) (length (fs ++ more)) ∧
    match r.1 with
    | Ok n => n = Z.of_nat (length more) ∧ target = 4096 * Z.of_nat (length (fs ++ more))
    | Err _ => more = []
    end.
Proof.
  intros Hheap Hmod Hb r. subst r. pose proof Hheap as [Hok _ Hlen _ _ _ Hfree].
  change KERNEL_HEAP_RESERVED_BYTES with 16777216 in Hb.
  apply Z.mod_divide in Hmod as [c ->]; [|done].
  unfold commit_range. change PAGE_SIZE with 4096.
  rewrite (proj2 (Z.ltb_ge _ _)) by lia.
  rewrite (Z.mul_comm 4096), !Z.mod_mul by done. cbn [Z.eqb negb orb].
  rewrite <-Z.mul_sub_distr_r, Z.div_mul, (Z.mul_comm _ 4096) by done.
  set (flags := page_flags_from_protection protection).
  set (pages := Z.to_nat (c - Z.of_nat (length fs))).
  pose proof (commit_loop_spec trees root KERNEL_HEAP_BASE flags (page_flags_ok protection) TABLES
    h.(KernelHeap.paging) (4096 * Z.of_nat (length fs)) pages) as Hloop.
  specialize (Hloop ltac:(unfold pages; lia)).
  assert (Z.land (KERNEL_HEAP_BASE + 4096 * Z.of_nat (length fs)) 4095 = 0) as Hal.
  { change 4095 with (Z.ones 12). rewrite Z.land_ones by done. change (2 ^ 12) with 4096.
    rewrite (Z.mul_comm 4096), Z.mod_add by done. reflexivity. }
  specialize (Hloop Hal). 
  assert (∀ k, (k < pages)%nat → kpage root h.(KernelHeap.paging)
    (heap_va KERNEL_HEAP_BASE (4096 * Z.of_nat (length fs)) k) = None) as Hfr.
  { intros k Hk. rewrite heap_page_split. apply Hfree. unfold pages in Hk. lia. }
  specialize (Hloop Hfr pages h.(KernelHeap.paging) [] (c * 4096) 0 (commits_refl _ _ _ _ _ _ Hok)).
  cbn [length] in Hloop. rewrite Z.mul_0_r, Z.add_0_r in Hloop.
  specialize (Hloop ltac:(lia) ltac:(unfold pages; lia) ltac:(lia) ltac:(unfold umax; lia) ltac:(lia)
    ltac:(unfold umax, pages; lia)).
  destruct (commit_loop _ _ _ _ _ _ _ _ _) as [[n|e] p]; cbn [fst snd].
  - destruct Hloop as (-> & more & Hmore & Hc). exists more. cbn [app] in Hc.
    destruct (commits_heap h fs flags p more) as [H1 H2]; [done|apply page_flags_ok|done|unfold pages in *; lia|].
    split_and!; [done|done|lia|]. rewrite length_app. unfold pages in *. lia.
  - exists []. destruct (commits_heap h fs flags p []) as [H1 H2]; [done|apply page_flags_ok|done|cbn; lia|].
    done.
Qed.

Definition layout_of (n : nat) : KernelHeapLayout.t :=
  KernelHeapLayout.mk KERNEL_HEAP_BASE KERNEL_HEAP_RESERVED_BYTES (4096 * Z.of_nat n) (Z.of_nat n).

Lemma heap_ok_failed h fs p : heap_ok h fs → heap_ok (KernelHeap.mk p (Some (layout_of (length fs)))) fs →
  heap_ok (KernelHeap.mk p h.(KernelHeap.layout)) fs.
Proof. intros [_ Hlay _ _ _ _ _] [H1 _ H3 H4 H5 H6 H7]. by split. Qed.
Lemma maps_only_refl h n m : maps_only h h n m.
Proof. split; [done|apply same_env_refl|by left|done]. Qed.
#[local] Hint Resolve maps_only_refl : core.
Lemma maps_only_layout h p l l' n m : maps_only h (KernelHeap.mk p l) n m → maps_only h (KernelHeap.mk p l') n m.
Proof. by intros []. Qed.
Lemma maps_only_nothing h h' n m : maps_only h h' 0 0 → maps_only h h' n m.
Proof. intros [Hp He Ht Hs]. split; [|done|done|done]. intros t va Htr Hva _. apply Hp; [done|done|lia]. Qed.

Lemma check_online_spec h : check_online h = (Ok tt, h) ∨ ∃ e, check_online h = (Err e, h).
Proof. unfold check_online. run_monad. destruct (negb _); [by right; eexists|]. destruct (negb _); [by right; eexists|by left]. Qed.

(** Growing the heap adds frames for exactly the pages up to the target; a failure leaves
    every translation as it was. *)
Lemma grow_committed_spec h fs target protection : heap_ok h fs → 0 <= target →
  match grow_committed TABLES KERNEL_HEAP_BASE KERNEL_HEAP_RESERVED_BYTES
          (4096 * Z.of_nat (length fs)) target protection h with
  | (Ok l, h') => ∃ more, heap_ok h' (fs ++ more) ∧ h'.(KernelHeap.layout) = Some l ∧
      target <= l.(KernelHeapLayout.committed_bytes) ∧
      maps_only h h' (length fs) (length (fs ++ more))
  | (Err _, h') => heap_ok h' fs ∧ maps_only h h' 0 0
  end.
Proof.
  intros Hh Ht. pose proof Hh as [_ Hlay Hlen _ _ _ _]. unfold grow_committed.
  destruct (Z.leb_spec target (4096 * Z.of_nat (length fs))) as [Hle|Hgt].
  { rewrite (bind_ok _ _ h.(KernelHeap.layout) h h) by done. unfold lift.
    destruct h.(KernelHeap.layout) as [l|] eqn:El; cbn [ok_or]; [|done].
    exists []. rewrite app_nil_r, Hlay. by split_and!. }
  rewrite !Z.eqb_refl. cbn [negb orb].
  destruct (Z.ltb_spec KERNEL_HEAP_RESERVED_BYTES target) as [|Hres]; [done|].
  destruct (check_online_spec h) as [E|[e E]].
  2:{ unfold mbind, M_bind. by rewrite E. }
  rewrite (bind_ok _ _ _ _ _ E).
  destruct (page_align_up target) as [tg|] eqn:Etg; [|done]. rewrite (bind_ok _ _ tg h h) by done.
  destruct (page_align_up (4096 * Z.of_nat (length fs))) as [cur|] eqn:Ecur; [|done].
  rewrite (bind_ok _ _ cur h h) by done.
  destruct (page_align_up_spec _ _ Etg Ht) as (Htg & Hm & _).
  destruct (page_align_up_spec _ _ Ecur ltac:(lia)) as (_ & _ & ->).
  2:{ by rewrite Z.mul_comm, Z.mod_mul. }
  assert (tg <= KERNEL_HEAP_RESERVED_BYTES) as Htr.
  { apply Z.mod_divide in Hm as [c ->]; [|done]. change KERNEL_HEAP_RESERVED_BYTES with 16777216 in *. lia. }
  destruct (commit_range_spec h fs tg protection Hh Hm ltac:(lia)) as (more & Hok & Hmaps & Hres').
  unfold mbind at 1, M_bind at 1, on_paging.
  destruct (commit_range _ _ _ _ _ _) as [[n|e] p]; cbn [fst snd] in *.
  - destruct Hres' as [-> ->]. rewrite (bind_ok _ _ h.(KernelHeap.layout) _ _) by done.
    cbn zeta. pose proof (ho_len _ _ (Hok _ eq_refl)) as Hlen'. rewrite length_app in Hlen'.
    match goal with |- context [put_layout ?l] => assert (l = layout_of (length (fs ++ more))) as -> end.
    { unfold layout_of. rewrite !length_app, Nat2Z.inj_add. cbn [KernelHeap.layout].
      destruct h.(KernelHeap.layout) as [l|]; rewrite Hlay in *; cbn [default id from_option KernelHeapLayout.base
        KernelHeapLayout.reserved_bytes KernelHeapLayout.frame_count length] in *.
      - rewrite sat_add_small by (unfold umax; lia). done.
      - rewrite sat_add_small by (change (4096 * Z.of_nat 0 / PAGE_SIZE) with 0; unfold umax; lia). done. }
    exists more. split_and!; [by apply Hok|done|cbn; lia|by eapply maps_only_layout].
  - subst more. rewrite app_nil_r in *. split.
    + apply (heap_ok_failed h fs p Hh). by apply Hok.
    + destruct Hmaps as [Hp He Ht' Hs]. split; [|done|done|done].
      intros t va Htr' Hva _. apply Hp; [done|done|lia].
Qed.

(** The first commit, on a heap range nothing is mapped in. *)
Lemma initialize_heap_spec h : heap_ok h [] →
  match initialize_heap TABLES h with
  | (Ok l, h') => ∃ fs, heap_ok h' fs ∧ h'.(KernelHeap.layout) = Some l ∧
      4096 * Z.of_nat (length fs) = INITIAL_HEAP_COMMIT_BYTES ∧ maps_only h h' 0 (length fs)
  | (Err _, h') => heap_ok h' [] ∧ maps_only h h' 0 0
  end.
Proof.
  intros Hh. unfold initialize_heap. destruct (check_online_spec h) as [E|[e E]].
  2:{ unfold mbind, M_bind. by rewrite E. }
  rewrite (bind_ok _ _ _ _ _ E).
  change (page_align_up INITIAL_HEAP_COMMIT_BYTES) with (Some 131072). rewrite (bind_ok _ _ 131072 h h) by done.
  change ((131072 =? 0) || (KERNEL_HEAP_RESERVED_BYTES <? 131072)) with false. cbn iota.
  destruct (commit_range_spec h [] 131072 (MemoryProtection.new true true false) Hh) as (more & Hok & Hmaps & Hres);
    [done|done|].
  unfold mbind at 1, M_bind at 1, on_paging. change (4096 * Z.of_nat (length [])) with 0 in *.
  destruct (commit_range _ _ _ _ _ _) as [[n|e] p]; cbn [fst snd app length] in *.
  - destruct Hres as [-> Hm]. cbn zeta. exists more.
    split_and!; [apply Hok; cbn; by rewrite Hm|done|done|by eapply maps_only_layout].
  - subst more. split; [|by eapply maps_only_layout]. by apply (heap_ok_failed h [] p Hh), Hok.
Qed.
End heap.
