(* ===== verification/MemoryManager.v ===== *)
(** * The kernel's memory manager

    [MemoryManager] of src/src/kernel/memory.rs: [malloc], [realloc], [free], [mmap] and
    [munmap] over a list of free regions and a bump offset.  The static heap starts at the
    address [static_heap] and has [HEAP_SIZE] bytes; [bytes] is the memory that [realloc]
    copies.  What the manager asks of src/src/kernel/memory/heap.rs when it needs more
    pages is the interface [HeapBacking]. *)

From stdpp Require Import prelude gmap.
From S2P Require Import Prelude Slots Subkernel FrameAllocator Paging KernelHeap.

Local Open Scope Z_scope.

Module AllocationKind.
Inductive t : Type := Heap | Mapping.
#[global] Instance eq_dec : EqDecision t.
Proof. solve_decision. Defined.
End AllocationKind.

Definition read_write : MemoryProtection.t := MemoryProtection.new true true false.

Module BackingStore.
Inductive t : Type :=
| Static
| Virtual (base capacity committed frames : Z)
| Disabled.
End BackingStore.

Module AllocationRecord.
Record t : Type := new {
  owner : Z; offset : Z; size : Z; kind : AllocationKind.t; protection : MemoryProtection.t
}.
End AllocationRecord.

Module FreeRegion.
Record t : Type := new { offset : Z; size : Z }.
Definition end_ (r : t) : Z := r.(offset) + r.(size).
End FreeRegion.

Module MappedRegion.
Record t : Type := mk {
  owner : Z; ptr : Z; length_ : Z; requested : Z; protection : MemoryProtection.t;
  kind : AllocationKind.t
}.
End MappedRegion.

(** [heap::grow_committed] *)
Class HeapBacking (H : Type) := {
  backing_grow : Z → Z → Z → Z → MemoryProtection.t → M H KernelHeapError.t KernelHeapLayout.t
}.

Definition valid_alignment (align : Z) : bool :=
  negb (align =? 0) && (Z.land align (align - 1) =? 0).
Definition align_up (value align : Z) : option Z :=
  if negb (valid_alignment align) then None
  else aligned ← checked_add 64 value (align - 1); Some (Z.ldiff aligned (align - 1)).

(** [ptr::copy_nonoverlapping] *)
Definition copy_nonoverlapping (src dst len : Z) (bytes : gmap Z Z) : gmap Z Z :=
  foldl (λ m i, <[dst + i := default 0 (bytes !! (src + i))]> m) bytes (seqZ 0 len).

Module MemoryManager.
Record t (H : Type) : Type := mk {
  bytes : gmap Z Z;
  bump_offset : Z;
  allocations : list (option AllocationRecord.t);
  free_regions : list (option FreeRegion.t);
  allocated_bytes : Z;
  peak_bytes : Z;
  backing : BackingStore.t;
  pages : H
}.
Arguments mk {H} _ _ _ _ _ _ _ _.
Arguments bytes {H} _.
Arguments bump_offset {H} _.
Arguments allocations {H} _.
Arguments free_regions {H} _.
Arguments allocated_bytes {H} _.
Arguments peak_bytes {H} _.
Arguments backing {H} _.
Arguments pages {H} _.

Section setters.
Context {H : Type}.
Implicit Types m : t H.
Definition set_bytes v m := mk v m.(bump_offset) m.(allocations) m.(free_regions)
  m.(allocated_bytes) m.(peak_bytes) m.(backing) m.(pages).
Definition set_bump v m := mk m.(bytes) v m.(allocations) m.(free_regions)
  m.(allocated_bytes) m.(peak_bytes) m.(backing) m.(pages).
Definition set_allocations v m := mk m.(bytes) m.(bump_offset) v m.(free_regions)
  m.(allocated_bytes) m.(peak_bytes) m.(backing) m.(pages).
Definition set_free v m := mk m.(bytes) m.(bump_offset) m.(allocations) v
  m.(allocated_bytes) m.(peak_bytes) m.(backing) m.(pages).
Definition set_stats a p m := mk m.(bytes) m.(bump_offset) m.(allocations) m.(free_regions)
  a p m.(backing) m.(pages).
Definition set_backing b (h : H) m := mk m.(bytes) m.(bump_offset) m.(allocations)
  m.(free_regions) m.(allocated_bytes) m.(peak_bytes) b h.
End setters.

(** ** Regions *)
(** the first loop of [insert_free_region] *)
Fixpoint merge_regions (merged : FreeRegion.t) (l : list (option FreeRegion.t))
    : FreeRegion.t * list (option FreeRegion.t) :=
  match l with
  | [] => (merged, [])
  | None :: l => let '(r, l') := merge_regions merged l in (r, None :: l')
  | Some existing :: l =>
      if FreeRegion.end_ existing =? merged.(FreeRegion.offset) then
        let '(r, l') := merge_regions (FreeRegion.new existing.(FreeRegion.offset)
          (existing.(FreeRegion.size) + merged.(FreeRegion.size))) l in (r, None :: l')
      else if FreeRegion.end_ merged =? existing.(FreeRegion.offset) then
        let '(r, l') := merge_regions (FreeRegion.new merged.(FreeRegion.offset)
          (merged.(FreeRegion.size) + existing.(FreeRegion.size))) l in (r, None :: l')
      else let '(r, l') := merge_regions merged l in (r, Some existing :: l')
  end.

Definition insert_region (region : FreeRegion.t) (l : list (option FreeRegion.t))
    : list (option FreeRegion.t) :=
  if region.(FreeRegion.size) =? 0 then l
  else
    let '(merged, l) := merge_regions region l in
    match free_slot l with
    | Some idx => <[idx := Some merged]> l
    | None => l
    end.

Section manager.
Context {H : Type} `{!HeapBacking H}.
Variables (HEAP_SIZE static_heap : Z).
Implicit Types m : t H.
Abbreviation Opt := (M (t H) unit).

Definition new (MAX_AREAS : nat) (pages : H) : t H :=
  mk ∅ 0 (replicate MAX_AREAS None) (replicate MAX_AREAS None) 0 0 BackingStore.Static pages.

Definition capacity m : Z :=
  match m.(backing) with
  | BackingStore.Static => HEAP_SIZE
  | BackingStore.Virtual _ capacity _ _ => capacity
  | BackingStore.Disabled => 0
  end.
Definition base_address m : Z :=
  match m.(backing) with
  | BackingStore.Static => static_heap
  | BackingStore.Virtual base _ _ _ => base
  | BackingStore.Disabled => 0
  end.

Definition promote_to_virtual_heap (base capacity committed frames : Z) m : t H :=
  if negb (m.(allocated_bytes) =? 0) || negb (m.(bump_offset) =? 0) || (capacity =? 0)
     || (capacity <? committed)
  then m else set_backing (BackingStore.Virtual base capacity committed frames) m.(pages) m.
Definition disable_static_heap m : t H :=
  match m.(backing) with
  | BackingStore.Static => set_backing BackingStore.Disabled m.(pages) m
  | _ => m
  end.

Definition insert_free_region (region : FreeRegion.t) m : t H :=
  set_free (insert_region region m.(free_regions)) m.

Definition ensure_backing (offset size : Z) (protection : MemoryProtection.t) : Opt unit := λ m,
  match m.(backing) with
  | BackingStore.Static => (Ok tt, m)
  | BackingStore.Disabled => (Err tt, m)
  | BackingStore.Virtual base capacity committed _ =>
      match checked_add 64 offset size with
      | None => (Err tt, m)
      | Some required =>
          if capacity <? required then (Err tt, m)
          else
            match align_up required PAGE_SIZE with
            | None => (Err tt, m)
            | Some target =>
                match backing_grow base capacity committed target protection m.(pages) with
                | (Err _, h) => (Err tt, set_backing m.(backing) h m)
                | (Ok layout, h) =>
                    (Ok tt, set_backing (BackingStore.Virtual base capacity
                       layout.(KernelHeapLayout.committed_bytes)
                       layout.(KernelHeapLayout.frame_count)) h m)
                end
            end
      end
  end.

Definition aligned_heap_offset m (minimum_offset align : Z) : option Z :=
  if negb (valid_alignment align) then None
  else
    let base_remainder := base_address m mod align in
    let offset_remainder := minimum_offset mod align in
    let current_remainder :=
      if offset_remainder =? 0 then base_remainder
      else if align - offset_remainder <=? base_remainder
      then base_remainder - (align - offset_remainder)
      else base_remainder + offset_remainder in
    let padding := (align - current_remainder) mod align in
    checked_add 64 minimum_offset padding.

(** the search of [reserve_from_free_list]: the slot, the block and the region it is cut
    from; an overflow ends the search as an exhausted list does *)
Fixpoint find_fit m (size align : Z) (idx : nat) (l : list (option FreeRegion.t))
    : option (nat * Z * Z * FreeRegion.t) :=
  match l with
  | [] => None
  | None :: l => find_fit m size align (S idx) l
  | Some region :: l =>
      aligned_start ← aligned_heap_offset m region.(FreeRegion.offset) align;
      end_ ← checked_add 64 aligned_start size;
      if end_ <=? FreeRegion.end_ region then Some (idx, aligned_start, end_, region)
      else find_fit m size align (S idx) l
  end.
Definition reserve_from_free_list (size align : Z) m : option Z * t H :=
  match find_fit m size align 0 m.(free_regions) with
  | None => (None, m)
  | Some (idx, aligned_start, end_, region) =>
      let m := set_free (<[idx := None]> m.(free_regions)) m in
      let m :=
        if region.(FreeRegion.offset) <? aligned_start
        then insert_free_region (FreeRegion.new region.(FreeRegion.offset)
               (aligned_start - region.(FreeRegion.offset))) m
        else m in
      let m :=
        if end_ <? FreeRegion.end_ region
        then insert_free_region (FreeRegion.new end_ (FreeRegion.end_ region - end_)) m
        else m in
      (Some aligned_start, m)
  end.
Definition reserve (size align : Z) : Opt Z := λ m,
  match reserve_from_free_list size align m with
  | (Some offset, m) => (Ok offset, m)
  | (None, m) =>
      match (aligned_offset ← aligned_heap_offset m m.(bump_offset) align;
             end_ ← checked_add 64 aligned_offset size;
             Some (aligned_offset, end_)) with
      | None => (Err tt, m)
      | Some (aligned_offset, end_) =>
          if capacity m <? end_ then (Err tt, m) else (Ok aligned_offset, set_bump end_ m)
      end
  end.

Definition record_allocation (record : AllocationRecord.t) : Opt unit := λ m,
  match free_slot m.(allocations) with
  | Some idx => (Ok tt, set_allocations (<[idx := Some record]> m.(allocations)) m)
  | None => (Err tt, m)
  end.

Definition update_stats_on_alloc (size : Z) m : t H :=
  let allocated := sat_add 64 m.(allocated_bytes) size in
  set_stats allocated (if m.(peak_bytes) <? allocated then allocated else m.(peak_bytes)) m.
Definition update_stats_on_free (size : Z) m : t H :=
  set_stats (sat_sub m.(allocated_bytes) size) m.(peak_bytes) m.

(** ** Allocation *)
(** the common part of [malloc_for], [malloc_aligned_for] and [mmap_for]: reserve, back
    and record a block, giving the region back when a step fails *)
Definition allocate (owner actual_size align : Z) (kind : AllocationKind.t)
    (protection : MemoryProtection.t) : Opt Z :=
  offset ← reserve actual_size align;
  let give_back := λ _ : unit,
    _ ← modify (insert_free_region (FreeRegion.new offset actual_size)); throw tt in
  _ ← catch (ensure_backing offset actual_size protection) give_back;
  _ ← catch (record_allocation (AllocationRecord.new owner offset actual_size kind protection))
        give_back;
  _ ← modify (update_stats_on_alloc actual_size);
  gets (λ m, base_address m + offset).

Definition malloc_for (owner size : Z) : Opt Z :=
  if size =? 0 then throw tt
  else
    actual_size ← lift (ok_or (align_up size 8) tt);
    allocate owner actual_size 8 AllocationKind.Heap read_write.

Definition malloc_aligned_for (owner size align : Z) : Opt Z :=
  if (size =? 0) || negb (valid_alignment align) then throw tt
  else
    actual_size ← lift (ok_or (align_up size 8) tt);
    allocate owner actual_size (Z.max align 8) AllocationKind.Heap read_write.

Definition mmap_for (owner length_ : Z) (protection : MemoryProtection.t) : Opt MappedRegion.t :=
  if length_ =? 0 then throw tt
  else
    actual_size ← lift (ok_or (align_up length_ PAGE_SIZE) tt);
    ptr ← allocate owner actual_size PAGE_SIZE AllocationKind.Mapping protection;
    mret (MappedRegion.mk owner ptr actual_size length_ protection AllocationKind.Mapping).

(** ** Release *)
Definition offset_for_ptr m (ptr : Z) : option Z :=
  let base := base_address m in
  if (ptr <? base) || (sat_add 64 base (capacity m) <=? ptr) then None else Some (ptr - base).

Definition is_allocation (owner offset : Z) (r : AllocationRecord.t) : bool :=
  (r.(AllocationRecord.owner) =? owner) && (r.(AllocationRecord.offset) =? offset).
Definition find_allocation_index m (owner offset : Z) : option nat :=
  find_slot (is_allocation owner offset) m.(allocations).

Definition remove_allocation (owner offset : Z) (expected_kind : option AllocationKind.t)
    (minimum_length : option Z) m : option AllocationRecord.t * t H :=
  match find_slot (is_allocation owner offset) m.(allocations) with
  | None => (None, m)
  | Some idx =>
      match default None (m.(allocations) !! idx) with
      | None => (None, m)
      | Some record =>
          if match expected_kind with
             | Some kind => negb (bool_decide (record.(AllocationRecord.kind) = kind))
             | None => false
             end then (None, m)
          else if match minimum_length with
                  | Some length_ => record.(AllocationRecord.size) <? length_
                  | None => false
                  end then (None, m)
          else (Some record, set_allocations (<[idx := None]> m.(allocations)) m)
      end
  end.

(** the region of a record goes back to the free list *)
Definition reclaim (record : AllocationRecord.t) m : t H :=
  update_stats_on_free record.(AllocationRecord.size)
    (insert_free_region (FreeRegion.new record.(AllocationRecord.offset)
       record.(AllocationRecord.size)) m).

Definition release (owner ptr : Z) (expected_kind : option AllocationKind.t)
    (minimum_length : option Z) m : bool * t H :=
  match offset_for_ptr m ptr with
  | None => (false, m)
  | Some offset =>
      match remove_allocation owner offset expected_kind minimum_length m with
      | (Some record, m) => (true, reclaim record m)
      | (None, m) => (false, m)
      end
  end.
Definition free_for (owner ptr : Z) : t H → bool * t H :=
  release owner ptr (Some AllocationKind.Heap) None.
Definition munmap_ptr_for (owner ptr length_ : Z) : t H → bool * t H :=
  release owner ptr (Some AllocationKind.Mapping) (Some length_).
Definition munmap (region : MappedRegion.t) : t H → bool * t H :=
  munmap_ptr_for region.(MappedRegion.owner) region.(MappedRegion.ptr) region.(MappedRegion.length_).

(** one slot of [release_process] *)
Definition release_slot (owner : Z) m (idx : nat) : t H :=
  match default None (m.(allocations) !! idx) with
  | Some record =>
      if record.(AllocationRecord.owner) =? owner
      then reclaim record (set_allocations (<[idx := None]> m.(allocations)) m)
      else m
  | None => m
  end.
Definition release_process (owner : Z) m : t H :=
  foldl (release_slot owner) m (seq 0 (length m.(allocations))).

(** ** Reallocation *)
(** the shrinking branch: the record keeps its place *)
Definition shrink (idx : nat) (record : AllocationRecord.t) (aligned_new : Z) m : t H :=
  let leftover := sat_sub record.(AllocationRecord.size) aligned_new in
  let m :=
    if 0 <? leftover
    then update_stats_on_free leftover (insert_free_region
           (FreeRegion.new (record.(AllocationRecord.offset) + aligned_new) leftover) m)
    else m in
  set_allocations (<[idx := Some (AllocationRecord.new record.(AllocationRecord.owner)
    record.(AllocationRecord.offset) aligned_new record.(AllocationRecord.kind)
    record.(AllocationRecord.protection))]> m.(allocations)) m.

Definition realloc_for (owner : Z) (ptr : option Z) (new_size : Z) : Opt Z :=
  match ptr with
  | None => if new_size =? 0 then throw tt else malloc_for owner new_size
  | Some p =>
      if new_size =? 0 then
        _ ← modify (λ m, (free_for owner p m).2); throw tt
      else
        offset ← (λ m, (ok_or (offset_for_ptr m p) tt, m));
        idx ← (λ m, (ok_or (find_allocation_index m owner offset) tt, m));
        record ← (λ m, (ok_or (default None (m.(allocations) !! idx)) tt, m));
        if negb (bool_decide (record.(AllocationRecord.kind) = AllocationKind.Heap)) then throw tt
        else
          aligned_new ← lift (ok_or (align_up new_size 8) tt);
          if aligned_new <=? record.(AllocationRecord.size) then
            _ ← modify (shrink idx record aligned_new); mret p
          else
            let copy_len := Z.min record.(AllocationRecord.size) new_size in
            new_ptr ← malloc_for owner new_size;
            _ ← modify (λ m, set_bytes (copy_nonoverlapping p new_ptr copy_len m.(bytes)) m);
            _ ← modify (λ m, (free_for owner p m).2);
            mret new_ptr
  end.

(** ** The allocator of Rust's [alloc] types *)
(** [KERNEL_PROCESS_ID] *)
Definition KERNEL_PROCESS_ID : Z := 0.
(** an address, 0 for a null pointer; an empty block is the dangling pointer *)
Definition global_alloc (size align : Z) m : Z * t H :=
  if size =? 0 then (1, m)
  else
    match malloc_aligned_for KERNEL_PROCESS_ID size align m with
    | (Ok p, m) => (p, m)
    | (Err _, m) => (0, m)
    end.
Definition global_dealloc (ptr : Z) m : t H :=
  if ptr =? 0 then m else (free_for KERNEL_PROCESS_ID ptr m).2.
Definition global_realloc (ptr new_size : Z) m : Z * t H :=
  if ptr =? 0 then global_alloc new_size 8 m
  else
    match realloc_for KERNEL_PROCESS_ID (Some ptr) new_size m with
    | (Ok p, m) => (p, m)
    | (Err _, m) => (0, m)
    end.

Definition statistics m : Z * Z := (m.(allocated_bytes), m.(peak_bytes)).
(** base, end, committed and reserved bytes *)
Definition heap_statistics m : Z * Z * Z * Z :=
  let base := base_address m in
  let reserved := capacity m in
  let committed :=
    match m.(backing) with
    | BackingStore.Static => reserved
    | BackingStore.Virtual _ _ committed _ => committed
    | BackingStore.Disabled => 0
    end in
  (base, sat_add 64 base reserved, committed, reserved).
End manager.
End MemoryManager.

(** heap pages come from [KernelHeap] *)
Definition kernel_backing {F : Type} `{!FrameSource F} (TABLES : Z) : HeapBacking (KernelHeap.t F) :=
  {| backing_grow := grow_committed TABLES |}.
