(* ===== verification/MemoryManagerSafety.v ===== *)
(** * Safety of the memory manager

    The invariant: live blocks and free regions are pairwise disjoint, lie below the bump
    offset, and the statistics count the live bytes.  Disjointness is a counting statement,
    no byte is covered twice, which merging and splitting of regions preserve as an
    equation. *)

From stdpp Require Import prelude gmap.
From S2P Require Import Prelude Slots Subkernel FrameAllocator Paging PagingSafety KernelHeap KernelHeapSafety MemoryManager.

Local Open Scope Z_scope.

(** ** Sums and intervals *)
Fixpoint zsum {A} (f : A → Z) (l : list A) : Z :=
  match l with [] => 0 | x :: l => f x + zsum f l end.
Lemma zsum_app {A} (f : A → Z) l l' : zsum f (l ++ l') = zsum f l + zsum f l'.
Proof. induction l as [|x l IH]; cbn; [done|]. rewrite IH. lia. Qed.
#[export] Instance zsum_perm {A} (f : A → Z) : Proper ((≡ₚ) ==> (=)) (zsum f).
Proof. induction 1; cbn; [done|by rewrite IHPermutation|lia|by rewrite IHPermutation1]. Qed.
Lemma zsum_nonneg {A} (f : A → Z) l : (∀ x, x ∈ l → 0 <= f x) → 0 <= zsum f l.
Proof.
  induction l as [|x l IH]; cbn; intros Hf; [done|].
  pose proof (Hf x ltac:(apply list_elem_of_here)). 
  enough (0 <= zsum f l) by lia. apply IH. intros y Hy. apply Hf. by apply list_elem_of_further.
Qed.
Lemma zsum_fmap {A B} (g : A → B) (f : B → Z) l : zsum f (g <$> l) = zsum (λ x, f (g x)) l.
Proof. induction l as [|x l IH]; cbn; [done|]. by rewrite IH. Qed.

(** an interval is its first offset and its size *)
Definition iv : Type := Z * Z.
Definition within (a : Z) (x : iv) : Prop := x.1 <= a < x.1 + x.2.
Definition cov (a : Z) (x : iv) : Z := Z.b2z ((x.1 <=? a) && (a <? x.1 + x.2)).
Definition apart_ivs (x y : iv) : Prop := ∀ a, ¬ (within a x ∧ within a y).

Lemma cov_within a x : within a x → cov a x = 1.
Proof. unfold within, cov. intros [H1 H2]. by rewrite (proj2 (Z.leb_le _ _) H1), (proj2 (Z.ltb_lt _ _) H2). Qed.
Lemma cov_cases a x : (within a x ∧ cov a x = 1) ∨ (¬ within a x ∧ cov a x = 0).
Proof.
  unfold within, cov. destruct (Z.leb_spec x.1 a), (Z.ltb_spec a (x.1 + x.2)); cbn; [left|right|right|right]; lia.
Qed.
Lemma cov_nonneg a x : 0 <= cov a x.
Proof. destruct (cov_cases a x) as [[_ ->]|[_ ->]]; lia. Qed.
Lemma cover_nonneg a l : 0 <= zsum (cov a) l.
Proof. apply zsum_nonneg. intros x _. apply cov_nonneg. Qed.

(** intervals below [bump], no byte covered twice *)
Record wf (bump : Z) (l : list iv) : Prop := {
  wf_in : ∀ x, x ∈ l → 0 < x.2 ∧ 0 <= x.1 ∧ x.1 + x.2 <= bump;
  wf_cover : ∀ a, zsum (cov a) l <= 1;
  wf_sum : zsum snd l <= bump
}.
#[export] Instance wf_perm bump : Proper ((≡ₚ) ==> (↔)) (wf bump).
Proof.
  assert (∀ l l', l ≡ₚ l' → wf bump l → wf bump l') as H.
  { intros l l' Hp [H1 H2 H3]. split; [intros x; rewrite <-Hp; apply H1|intros a; by rewrite <-Hp|by rewrite <-Hp]. }
  intros l l' Hp. split; by apply H.
Qed.
Lemma wf_tail bump x l : wf bump (x :: l) → wf bump l.
Proof.
  intros [H1 H2 H3]. split.
  - intros y Hy. apply H1. by apply list_elem_of_further.
  - intros a. specialize (H2 a). cbn in H2. pose proof (cov_nonneg a x). lia.
  - cbn in H3. destruct (H1 x ltac:(apply list_elem_of_here)). lia.
Qed.
Lemma wf_apart bump x l y : wf bump (x :: l) → y ∈ l → apart_ivs x y.
Proof.
  intros [_ H _] (l1 & l2 & ->)%list_elem_of_split a [Hx Hy]. specialize (H a).
  rewrite <-Permutation_middle in H. cbn in H. rewrite !(cov_within a) in H by done.
  pose proof (cover_nonneg a (l1 ++ l2)). lia.
Qed.
Lemma wf_nil bump : 0 <= bump → wf bump [].
Proof. intros Hb. split; cbn; [by intros x ?%elem_of_nil|lia|done]. Qed.

(** replacing the head intervals by others that cover the same bytes *)
Lemma wf_recut bump xs ys l : wf bump (xs ++ l) →
  (∀ y, y ∈ ys → 0 < y.2 ∧ 0 <= y.1 ∧ y.1 + y.2 <= bump) →
  (∀ a, zsum (cov a) ys <= zsum (cov a) xs) → zsum snd ys <= zsum snd xs → wf bump (ys ++ l).
Proof.
  intros [H1 H2 H3] Hin Hcov Hsum. split.
  - intros x [Hx|Hx]%elem_of_app; [by apply Hin|]. apply H1, elem_of_app. by right.
  - intros a. specialize (H2 a). rewrite zsum_app in *. specialize (Hcov a). lia.
  - rewrite zsum_app in *. lia.
Qed.
Lemma cov_join a o s s' : 0 <= s → 0 <= s' → cov a (o, s + s') = cov a (o, s) + cov a (o + s, s').
Proof.
  intros Hs Hs'. destruct (cov_cases a (o, s + s')) as [[H ->]|[H ->]], (cov_cases a (o, s)) as [[H1 ->]|[H1 ->]],
    (cov_cases a (o + s, s')) as [[H2 ->]|[H2 ->]]; unfold within in *; cbn in *; lia.
Qed.
Lemma wf_join bump o s o' s' l : o + s = o' → wf bump ((o, s) :: (o', s') :: l) → wf bump ((o, s + s') :: l).
Proof.
  intros <- Hw. pose proof (wf_in _ _ Hw) as Hin.
  destruct (Hin (o, s) ltac:(apply list_elem_of_here)) as (H1 & H2 & H3).
  destruct (Hin (o + s, s') ltac:(apply list_elem_of_further, list_elem_of_here)) as (H4 & H5 & H6). cbn in *.
  apply (wf_recut bump [(o, s); (o + s, s')] [(o, s + s')] l Hw).
  - intros y ->%list_elem_of_singleton. cbn. lia.
  - intros a. cbn. rewrite cov_join by lia. lia.
  - cbn. lia.
Qed.
Lemma wf_split bump o s s' l : 0 < s → 0 < s' → wf bump ((o, s + s') :: l) → wf bump ((o, s) :: (o + s, s') :: l).
Proof.
  intros Hs Hs' Hw. destruct (wf_in _ _ Hw (o, s + s') ltac:(apply list_elem_of_here)) as (H1 & H2 & H3). cbn in *.
  apply (wf_recut bump [(o, s + s')] [(o, s); (o + s, s')] l Hw).
  - intros y [-> | ->%list_elem_of_singleton]%elem_of_cons; cbn; lia.
  - intros a. cbn. rewrite cov_join by lia. lia.
  - cbn. lia.
Qed.
(** a block above the bump offset *)
Lemma wf_fresh bump o s l : bump <= o → 0 < s → 0 <= bump -> wf bump l → wf (o + s) ((o, s) :: l).
Proof.
  intros Ho Hs Hb [H1 H2 H3]. split.
  - intros x [-> |Hx]%elem_of_cons; [cbn; lia|]. specialize (H1 x Hx). lia.
  - intros a. cbn. destruct (cov_cases a (o, s)) as [[Hw ->]|[_ ->]]; [|by apply H2].
    enough (zsum (cov a) l = 0) by lia. clear H2 H3. unfold within in Hw. cbn in Hw.
    induction l as [|x l IH]; cbn; [done|]. rewrite IH.
    + destruct (cov_cases a x) as [[Hx _]|[_ ->]]; [|done]. unfold within in Hx.
      destruct (H1 x ltac:(apply list_elem_of_here)). lia.
    + intros y Hy. apply H1. by apply list_elem_of_further.
  - cbn. lia.
Qed.

(** ** Free regions *)
Import MemoryManager.
Definition free_iv (r : FreeRegion.t) : iv := (r.(FreeRegion.offset), r.(FreeRegion.size)).
Definition alloc_iv (r : AllocationRecord.t) : iv := (r.(AllocationRecord.offset), r.(AllocationRecord.size)).
Definition fivs (l : list (option FreeRegion.t)) : list iv := free_iv <$> occupied l.

Lemma merge_regions_spec r l :
  length (merge_regions r l).2 = length l ∧
  (∀ bump X, wf bump (free_iv r :: X ++ fivs l) →
     wf bump (free_iv (merge_regions r l).1 :: X ++ fivs (merge_regions r l).2)).
Proof.
  revert r. induction l as [|[e|] l IH]; intros r; [done| |].
  2:{ destruct (IH r) as [H1 H2]. cbn. destruct (merge_regions r l) as [r' l']. cbn in *. split; [by f_equal|done]. }
  cbn [merge_regions]. 
  assert (∀ x, (let '(r', l') := merge_regions x l in (r', None :: l')) =
    ((merge_regions x l).1, None :: (merge_regions x l).2)) as Hpair.
  { intros x. by destruct (merge_regions x l). }
  destruct (Z.eqb_spec (FreeRegion.end_ e) r.(FreeRegion.offset)) as [He|He];
    [|destruct (Z.eqb_spec (FreeRegion.end_ r) e.(FreeRegion.offset)) as [He'|He']].
  - rewrite Hpair. cbn [fst snd]. match goal with |- context [merge_regions ?x l] => destruct (IH x) as [H1 H2] end.
    split; [cbn; by f_equal|]. intros bump X Hw. apply H2. clear IH H1 H2.
    apply (wf_join bump _ _ r.(FreeRegion.offset) r.(FreeRegion.size)); [done|].
    eapply (wf_perm bump); [|exact Hw]. cbn. rewrite <-Permutation_middle. apply Permutation_swap.
  - rewrite Hpair. cbn [fst snd]. match goal with |- context [merge_regions ?x l] => destruct (IH x) as [H1 H2] end.
    split; [cbn; by f_equal|]. intros bump X Hw. apply H2. clear IH H1 H2.
    apply (wf_join bump _ _ e.(FreeRegion.offset) e.(FreeRegion.size)); [done|].
    eapply (wf_perm bump); [|exact Hw]. cbn. by rewrite <-Permutation_middle.
  - destruct (IH r) as [H1 H2]. destruct (merge_regions r l) as [r' l'] eqn:E. cbn [fst snd] in *.
    split; [cbn; by f_equal|]. intros bump X Hw. specialize (H2 bump (X ++ [free_iv e])).
    rewrite <-!app_assoc in H2. by apply H2.
Qed.

Lemma insert_region_length r l : length (insert_region r l) = length l.
Proof.
  unfold insert_region. destruct (_ =? 0); [done|]. pose proof (proj1 (merge_regions_spec r l)) as Hl.
  destruct (merge_regions r l) as [r' l']. cbn in Hl. destruct (free_slot l'); [|done]. by rewrite length_insert.
Qed.

(** a region handed to the free list: it is merged in, or dropped when the list is full *)
Lemma insert_region_wf bump X r l :
  wf bump (free_iv r :: X ++ fivs l) → wf bump (X ++ fivs (insert_region r l)).
Proof.
  intros Hw. unfold insert_region. destruct (_ =? 0); [by eapply wf_tail|].
  pose proof (proj2 (merge_regions_spec r l) bump X Hw) as Hm. destruct (merge_regions r l) as [r' l']. cbn in Hm.
  destruct (free_slot l') as [i|] eqn:Hi; [|by eapply wf_tail].
  eapply (wf_perm bump); [|exact Hm]. unfold fivs. rewrite (occupied_insert_free l' i r' Hi). cbn.
  by rewrite <-Permutation_middle.
Qed.

(** ** What the manager relies on when it grows *)
Class HeapBackingLaws (H : Type) `{!HeapBacking H} := {
  (** base, capacity and committed bytes of a heap in good order *)
  backing_ok : H → Z → Z → Z → Prop;
  backing_grows : ∀ h base capacity committed target protection,
    backing_ok h base capacity committed → 0 <= target →
    match backing_grow base capacity committed target protection h with
    | (Ok l, h') => backing_ok h' base capacity l.(KernelHeapLayout.committed_bytes) ∧
        target <= l.(KernelHeapLayout.committed_bytes) ∧ committed <= l.(KernelHeapLayout.committed_bytes)
    | (Err _, h') => backing_ok h' base capacity committed
    end
}.

Section manager.
Context {H : Type} `{!HeapBacking H} `{!HeapBackingLaws H}.
Variables (HEAP_SIZE static_heap : Z).
Implicit Types (m : t H) (xs : list iv).
Abbreviation base_address := (base_address static_heap).
Abbreviation capacity := (capacity HEAP_SIZE).

Definition live m : list AllocationRecord.t := occupied m.(allocations).
Definition block m (r : AllocationRecord.t) : iv :=
  (base_address m + r.(AllocationRecord.offset), r.(AllocationRecord.size)).

(** the invariant while the intervals [xs] are reserved but not recorded *)
Record core m xs : Prop := {
  co_wf : wf m.(bump_offset) (xs ++ (alloc_iv <$> live m) ++ fivs m.(free_regions));
  co_bump : 0 <= m.(bump_offset) <= umax 64;
  co_cap : m.(backing) = BackingStore.Disabled ∨ m.(bump_offset) <= capacity m;
  co_back : match m.(backing) with
    | BackingStore.Virtual base cap committed _ =>
        backing_ok m.(pages) base cap committed ∧ 0 < base ∧ 0 <= cap ∧ base + cap <= umax 64 ∧
        ∀ r, r ∈ live m → r.(AllocationRecord.offset) + r.(AllocationRecord.size) <= committed
    | BackingStore.Static => 0 < static_heap ∧ 0 <= HEAP_SIZE ∧ static_heap + HEAP_SIZE <= umax 64
    | BackingStore.Disabled => True
    end
}.

(** nothing but the free regions and the bump offset changed *)
Definition same_live m m' : Prop :=
  m'.(allocations) = m.(allocations) ∧ m'.(bytes) = m.(bytes) ∧ m'.(backing) = m.(backing) ∧
  m'.(pages) = m.(pages) ∧ m'.(allocated_bytes) = m.(allocated_bytes) ∧ m'.(peak_bytes) = m.(peak_bytes).
Lemma same_live_refl m : same_live m m.
Proof. by split_and!. Qed.
Lemma same_live_trans m1 m2 m3 : same_live m1 m2 → same_live m2 m3 → same_live m1 m3.
Proof. unfold same_live. intuition congruence. Qed.

(** *** Alignment *)
Lemma aligned_offset_spec m o0 align o : 0 <= o0 → 0 <= align → 0 <= base_address m →
  aligned_heap_offset static_heap m o0 align = Some o →
  0 < align ∧ o0 <= o < o0 + align ∧ o <= umax 64 ∧ (base_address m + o) mod align = 0.
Proof.
  unfold aligned_heap_offset. intros Ho Ha Hb. destruct (valid_alignment align) eqn:Hv; [|done]. cbn [negb].
  apply andb_true_iff in Hv as [Hnz _]. apply negb_true_iff, Z.eqb_neq in Hnz. assert (0 < align) as Hpos by lia.
  set (b := base_address m) in *. pose proof (Z.mod_pos_bound b align Hpos). pose proof (Z.mod_pos_bound o0 align Hpos).
  set (cur := if o0 mod align =? 0 then _ else _).
  assert (cur mod align = (b + o0) mod align) as Hcur.
  { rewrite Z.add_mod by lia. subst cur. destruct (Z.eqb_spec (o0 mod align) 0) as [E|E].
    - by rewrite E, Z.add_0_r.
    - destruct (Z.leb_spec (align - o0 mod align) (b mod align)).
      + replace (b mod align - (align - o0 mod align)) with (b mod align + o0 mod align + (-1) * align) by lia.
        by rewrite Z.mod_add by lia.
      + done. }
  intros [-> Hmax]%checked_add_Some. pose proof (Z.mod_pos_bound (align - cur) align Hpos).
  split_and!; [lia|lia|lia|done|].
  rewrite Z.add_assoc, Z.add_mod, Z.mod_mod, <-Hcur, <-Z.add_mod by lia.
  replace (cur + (align - cur)) with (1 * align) by lia. by apply Z.mod_mul; lia.
Qed.

Lemma base_nonneg m xs : core m xs → 0 <= base_address m ∧ base_address m + capacity m <= umax 64 ∧ 0 <= capacity m.
Proof.
  intros [_ _ _ Hb]. unfold MemoryManager.base_address, MemoryManager.capacity.
  destruct m.(backing); [lia|lia|]. unfold umax. lia.
Qed.

(** *** Moving regions *)
Lemma core_live m m' xs ys : core m xs → same_live m m' → m'.(bump_offset) = m.(bump_offset) →
  wf m.(bump_offset) (ys ++ (alloc_iv <$> live m) ++ fivs m'.(free_regions)) → core m' ys.
Proof.
  intros [Hw Hb Hc Hk] (Ea & _ & Eb & Ep & _) Ebump Hw'.
  split; [by rewrite Ebump; unfold live; rewrite Ea|by rewrite Ebump| |].
  - unfold MemoryManager.capacity in *. by rewrite Eb, Ebump.
  - unfold live in *. by rewrite Eb, Ep, Ea.
Qed.

Lemma insert_free_spec m o s xs : core m ((o, s) :: xs) →
  core (insert_free_region (FreeRegion.new o s) m) xs ∧ same_live m (insert_free_region (FreeRegion.new o s) m).
Proof.
  intros Hc. split; [|by split_and!]. apply (core_live m _ _ _ Hc); [by split_and!|done|].
  cbn [free_regions insert_free_region set_free]. rewrite app_assoc. apply insert_region_wf. rewrite <-app_assoc.
  apply (co_wf _ _ Hc).
Qed.

Lemma find_fit_spec m size align i l idx st en region : 0 <= align → 0 <= base_address m →
  (∀ r, Some r ∈ l → 0 <= r.(FreeRegion.offset)) →
  find_fit static_heap m size align i l = Some (idx, st, en, region) →
  ∃ k, idx = (i + k)%nat ∧ l !! k = Some (Some region) ∧ region.(FreeRegion.offset) <= st ∧ en = st + size ∧
    en <= FreeRegion.end_ region ∧ (base_address m + st) mod align = 0.
Proof.
  intros Ha Hb. revert i. induction l as [|[r|] l IH]; intros i Hl; [done| |]; cbn [find_fit].
  - destruct (aligned_heap_offset _ m r.(FreeRegion.offset) align) as [o|] eqn:Eo; [|done]. cbn [mbind option_bind].
    destruct (checked_add 64 o size) as [e|] eqn:Ee; [|done]. cbn [mbind option_bind].
    destruct (Z.leb_spec e (FreeRegion.end_ r)).
    + intros [= <- <- <- <-]. exists O. apply checked_add_Some in Ee as [-> _].
      apply aligned_offset_spec in Eo as (_ & Ho & _ & Hm); [|by apply Hl, list_elem_of_here|done|done].
      split_and!; [lia|done|lia|done|done|done].
    + intros (k & -> & Hk)%IH; [|intros; apply Hl; by apply list_elem_of_further].
      exists (S k). split; [lia|done].
  - intros (k & -> & Hk)%IH; [|intros; apply Hl; by apply list_elem_of_further].
    exists (S k). split; [lia|done].
Qed.

Lemma fivs_elem l r : Some r ∈ l → free_iv r ∈ fivs l.
Proof. intros Hr. apply list_elem_of_fmap_2. by apply elem_of_occupied. Qed.

(** a block cut out of a free region *)
Lemma reserve_free_spec m xs size align : core m xs → 0 < size → 0 <= align →
  match reserve_from_free_list static_heap size align m with
  | (Some o, m') => core m' ((o, size) :: xs) ∧ (base_address m + o) mod align = 0 ∧ same_live m m'
  | (None, m') => m' = m
  end.
Proof.
  intros Hc Hs Ha. unfold reserve_from_free_list.
  destruct (find_fit _ m size align 0 m.(free_regions)) as [[[[idx st] en] region]|] eqn:Ef; [|done].
  assert (∀ r, Some r ∈ m.(free_regions) → 0 <= r.(FreeRegion.offset)) as Hnn.
  { intros r Hr%fivs_elem. apply (wf_in _ _ (co_wf _ _ Hc) (free_iv r)). rewrite !elem_of_app. by right; right. }
  apply find_fit_spec in Ef as (k & -> & Hk & Hst & -> & Hen & Hmod);
    [|done|by apply (base_nonneg _ _ Hc)|done]. cbn [Nat.add].
  set (m1 := set_free (<[k := None]> m.(free_regions)) m).
  destruct region as [ro rs]. unfold FreeRegion.end_ in *. cbn [FreeRegion.offset FreeRegion.size] in *.
  assert (core m1 ((ro, rs) :: xs)) as Hc1.
  { apply (core_live m m1 xs _ Hc); [by split_and!|done|].
    eapply (wf_perm m.(bump_offset)); [|apply (co_wf _ _ Hc)]. cbn [app free_regions set_free m1]. unfold fivs.
    rewrite (occupied_remove _ _ _ Hk). cbn. by rewrite !app_assoc, <-Permutation_middle. }
  assert (same_live m m1) as Hl1 by by split_and!.
  (* the part before *)
  set (m2 := if ro <? st then _ else m1).
  assert (core m2 ((st, ro + rs - st) :: xs) ∧ same_live m m2) as [Hc2 Hl2].
  { subst m2. destruct (Z.ltb_spec ro st).
    - assert (core m1 ((ro, st - ro) :: (st, ro + rs - st) :: xs)) as Hcut.
      { apply (core_live m1 m1 _ _ Hc1); [by split_and!|done|]. cbn [app].
        pose proof (co_wf _ _ Hc1) as Hw. cbn [app] in Hw.
        replace rs with ((st - ro) + (ro + rs - st)) in Hw by lia. apply wf_split in Hw; [|lia|lia].
        by replace (ro + (st - ro)) with st in Hw by lia. }
      apply insert_free_spec in Hcut as [Hcut Hl]. split; [done|]. by eapply same_live_trans.
    - assert (ro = st) as -> by lia. replace (st + rs - st) with rs by lia. done. }
  set (m3 := if st + size <? ro + rs then _ else m2).
  assert (core m3 ((st, size) :: xs) ∧ same_live m m3) as [Hc3 Hl3].
  { subst m3. destruct (Z.ltb_spec (st + size) (ro + rs)).
    - assert (core m2 ((st + size, ro + rs - (st + size)) :: (st, size) :: xs)) as Hcut.
      { apply (core_live m2 m2 _ _ Hc2); [by split_and!|done|]. cbn [app].
        pose proof (co_wf _ _ Hc2) as Hw. cbn [app] in Hw.
        replace (ro + rs - st) with (size + (ro + rs - (st + size))) in Hw by lia. apply wf_split in Hw; [|lia|lia].
        eapply (wf_perm m2.(bump_offset)); [|exact Hw]. apply Permutation_swap. }
      apply insert_free_spec in Hcut as [Hcut Hl]. split; [done|]. by eapply same_live_trans.
    - replace (ro + rs - st) with size in Hc2 by lia. done. }
  done.
Qed.

Lemma reserve_spec m xs size align : core m xs → 0 < size → 0 <= align →
  match reserve HEAP_SIZE static_heap size align m with
  | (Ok o, m') => core m' ((o, size) :: xs) ∧ (base_address m + o) mod align = 0 ∧ same_live m m'
  | (Err _, m') => m' = m
  end.
Proof.
  intros Hc Hs Ha. unfold reserve. pose proof (reserve_free_spec m xs size align Hc Hs Ha) as Hf.
  destruct (reserve_from_free_list _ _ _ m) as [[o|] m']; [done|]. subst m'.
  destruct (aligned_heap_offset _ m m.(bump_offset) align) as [o|] eqn:Eo; cbn [mbind option_bind]; [|done].
  destruct (checked_add 64 o size) as [e|] eqn:Ee; cbn [mbind option_bind]; [|done].
  destruct (Z.ltb_spec (capacity m) e); [done|].
  apply checked_add_Some in Ee as [-> Hmax].
  pose proof (base_nonneg _ _ Hc) as (Hb & Hbc & Hcap0). pose proof Hc as [Hw Hbump Hcap Hback].
  apply aligned_offset_spec in Eo as (_ & Ho & _ & Hm); [|lia|done|done].
  split_and!; [|done|by split_and!].
  split; cbn [bump_offset set_bump].
  - cbn [app]. apply (wf_fresh m.(bump_offset)); [lia|done|lia|done].
  - lia.
  - right. done.
  - done.
Qed.

(** *** Allocation *)
(** the live blocks, their place and their contents are as before *)
Record stays m m' : Prop := {
  st_allocations : m'.(allocations) = m.(allocations);
  st_bytes : m'.(bytes) = m.(bytes);
  st_allocated : m'.(allocated_bytes) = m.(allocated_bytes);
  st_peak : m'.(peak_bytes) = m.(peak_bytes);
  st_base : base_address m' = base_address m;
  st_capacity : capacity m' = capacity m
}.
Lemma stays_refl m : stays m m.
Proof. done. Qed.
Lemma stays_trans m1 m2 m3 : stays m1 m2 → stays m2 m3 → stays m1 m3.
Proof. intros [] []. split; congruence. Qed.
Lemma same_live_stays m m' : same_live m m' → stays m m'.
Proof.
  intros (H1 & H2 & H3 & H4 & H5 & H6). split; try done; unfold MemoryManager.base_address, MemoryManager.capacity; by rewrite H3.
Qed.
Lemma align_up_spec n v r : 0 <= n → 0 <= v → align_up v (2 ^ n) = Some r → v <= r < v + 2 ^ n ∧ r mod 2 ^ n = 0.
Proof.
  intros Hn Hv. unfold align_up. destruct (negb _); [done|].
  destruct (checked_add 64 v (2 ^ n - 1)) as [a|] eqn:Ha; [|done]. intros [= <-].
  apply checked_add_Some in Ha as [-> _]. replace (2 ^ n - 1) with (Z.ones n) by (rewrite Z.ones_equiv; lia).
  rewrite Z.ldiff_ones_r, Z.shiftr_div_pow2, Z.shiftl_mul_pow2 by done. rewrite Z.ones_equiv.
  pose proof (Z.pow_pos_nonneg 2 n). pose proof (Z.div_mod (v + Z.pred (2 ^ n)) (2 ^ n)).
  pose proof (Z.mod_pos_bound (v + Z.pred (2 ^ n)) (2 ^ n)). split; [lia|]. apply Z.mod_mul. lia.
Qed.

(** the end of a block is inside what is backed *)
Definition backed m (e : Z) : Prop :=
  match m.(backing) with
  | BackingStore.Virtual _ _ committed _ => e <= committed
  | BackingStore.Static => True
  | BackingStore.Disabled => False
  end.

Lemma core_backing m xs base cap committed frames committed' frames' h :
  core m xs → m.(backing) = BackingStore.Virtual base cap committed frames →
  backing_ok h base cap committed' → committed <= committed' →
  core (set_backing (BackingStore.Virtual base cap committed' frames') h m) xs ∧
  stays m (set_backing (BackingStore.Virtual base cap committed' frames') h m).
Proof.
  intros [Hw Hb Hc Hk] E Hok Hle. rewrite E in Hk. destruct Hk as (_ & H1 & H2 & H3 & H4). split.
  - split; [done|done| |].
    + right. destruct Hc as [Hc|Hc]; [congruence|]. unfold MemoryManager.capacity in *. by rewrite E in Hc.
    + cbn. split_and!; [done|lia|lia|lia|]. intros r Hr. specialize (H4 r Hr). lia.
  - split; try done; unfold MemoryManager.base_address, MemoryManager.capacity; by rewrite E.
Qed.

Lemma ensure_backing_spec m xs o s protection : core m xs → 0 <= o → 0 < s →
  match ensure_backing o s protection m with
  | (Ok _, m') => core m' xs ∧ stays m m' ∧ backed m' (o + s)
  | (Err _, m') => core m' xs ∧ stays m m'
  end.
Proof.
  intros Hc Ho Hs. unfold ensure_backing.
  destruct m.(backing) as [|base cap committed frames|] eqn:Eb; [unfold backed; by rewrite Eb| |done].
  destruct (checked_add 64 o s) as [req|] eqn:Er; [|done].
  destruct (Z.ltb_spec cap req); [done|]. destruct (align_up req PAGE_SIZE) as [tg|] eqn:Et; [|done].
  apply checked_add_Some in Er as [-> _].
  apply (align_up_spec 12) in Et as [Ht _]; [|done|lia].
  pose proof (co_back _ _ Hc) as Hk. rewrite Eb in Hk. destruct Hk as (Hok & _).
  pose proof (backing_grows _ _ _ _ tg protection Hok ltac:(lia)) as Hg.
  destruct (backing_grow _ _ _ _ _ _) as [[l|e] h].
  - destruct Hg as (Hok' & H1 & H2). 
    destruct (core_backing m xs _ _ _ _ _ l.(KernelHeapLayout.frame_count) h Hc Eb Hok' H2) as [H3 H4].
    split_and!; [done|done|]. unfold backed. cbn. lia.
  - destruct (core_backing m xs _ _ _ _ _ frames h Hc Eb Hg) as [H3 H4]; [lia|done].
Qed.

Lemma record_allocation_spec m xs r : core m (alloc_iv r :: xs) → backed m (r.(AllocationRecord.offset) + r.(AllocationRecord.size)) →
  match record_allocation r m with
  | (Ok _, m') => core m' xs ∧ live m' ≡ₚ r :: live m ∧
      m' = set_allocations m'.(allocations) m ∧
      ∃ i, free_slot m.(allocations) = Some i ∧ m'.(allocations) = <[i := Some r]> m.(allocations)
  | (Err _, m') => m' = m
  end.
Proof.
  intros Hc Hbk. unfold record_allocation. destruct (free_slot m.(allocations)) as [i|] eqn:Hi; [|done].
  pose proof (occupied_insert_free _ _ r Hi) as Hp. pose proof Hc as [Hw Hb Hcap Hk].
  split_and!; [|done|done|by exists i].
  split; cbn [bump_offset set_allocations]; [|done|done|].
  - eapply (wf_perm m.(bump_offset)); [|exact Hw]. cbn [free_regions set_allocations]. unfold live.
    cbn [allocations set_allocations]. rewrite Hp. cbn. by rewrite <-Permutation_middle.
  - cbn [backing set_allocations]. unfold backed in Hbk. destruct m.(backing); [done| |done].
    destruct Hk as (H1 & H2 & H3 & H4 & H5). split_and!; [done|done|done|done|].
    intros q. unfold live. cbn [allocations set_allocations]. rewrite Hp. intros [-> |Hq]%elem_of_cons; [done|by apply H5].
Qed.

Definition size_sum m : Z := zsum AllocationRecord.size (live m).
Record ok m : Prop := {
  ok_core : core m [];
  ok_allocated : m.(allocated_bytes) = size_sum m;
  ok_peak : m.(allocated_bytes) <= m.(peak_bytes)
}.
Lemma size_sum_bump m xs : core m xs → size_sum m <= m.(bump_offset) <= umax 64.
Proof.
  intros [[H1 _ Hw] Hb _ _]. split; [|lia]. rewrite !zsum_app in Hw.
  assert (0 <= zsum snd xs) by (apply zsum_nonneg; intros x Hx; destruct (H1 x); [by apply elem_of_app; left|lia]).
  assert (0 <= zsum snd (fivs m.(free_regions))).
  { apply zsum_nonneg. intros x Hx. destruct (H1 x); [|lia]. rewrite !elem_of_app. by right; right. }
  rewrite zsum_fmap in Hw. cbn in Hw. unfold size_sum. change (λ x : AllocationRecord.t, x.(AllocationRecord.size)) with AllocationRecord.size in Hw. lia.
Qed.
Lemma stays_ok m m' : ok m → stays m m' → core m' [] → ok m'.
Proof.
  intros [_ Ha Hp] [H1 H2 H3 H4 _ _] Hc. split; [done| |].
  - unfold size_sum, live. by rewrite H3, H1.
  - by rewrite H3, H4.
Qed.

(** A block is reserved, backed and recorded, or nothing live changes. *)
Lemma block_allocate_spec m owner size align kind protection : ok m → 0 < size → 0 <= align →
  match allocate HEAP_SIZE static_heap owner size align kind protection m with
  | (Ok p, m') => ok m' ∧ m'.(bytes) = m.(bytes) ∧ base_address m' = base_address m ∧
      capacity m' = capacity m ∧ p mod align = 0 ∧
      let r := AllocationRecord.new owner (p - base_address m) size kind protection in
      backed m' (p - base_address m + size) ∧ live m' ≡ₚ r :: live m ∧
      ∃ i, free_slot m.(allocations) = Some i ∧ m'.(allocations) = <[i := Some r]> m.(allocations)
  | (Err _, m') => ok m' ∧ stays m m'
  end.
Proof.
  intros Hok Hs Ha. unfold allocate, mbind at 1, M_bind at 1.
  pose proof (reserve_spec m [] size align (ok_core _ Hok) Hs Ha) as Hr.
  destruct (reserve _ _ _ _ m) as [[o|[]] m1]; [|by subst m1].
  destruct Hr as (Hc1 & Hmod & Hl1%same_live_stays). cbv zeta.
  assert (0 <= o) as Ho by (apply (wf_in _ _ (co_wf _ _ Hc1) (o, size)), list_elem_of_here).
  unfold mbind at 1, M_bind at 1, catch at 1.
  pose proof (ensure_backing_spec m1 [(o, size)] o size protection Hc1 Ho Hs) as He.
  destruct (ensure_backing _ _ _ m1) as [[[]|[]] m2].
  2:{ destruct He as [Hc2 Hl2]. apply insert_free_spec in Hc2 as [Hc3 Hl3%same_live_stays].
      assert (stays m (insert_free_region (FreeRegion.new o size) m2)) as Hst by eauto using stays_trans.
      split; [|done]. by apply (stays_ok m). }
  destruct He as (Hc2 & Hl2 & Hbk). pose proof (stays_trans _ _ _ Hl1 Hl2) as Hl. clear Hl1 Hl2.
  set (r := AllocationRecord.new owner o size kind protection).
  unfold mbind at 1, M_bind at 1, catch at 1.
  pose proof (record_allocation_spec m2 [] r Hc2 Hbk) as Hrec.
  destruct (record_allocation r m2) as [[[]|[]] m3].
  2:{ subst m3. apply insert_free_spec in Hc2 as [Hc3 Hl3%same_live_stays].
      assert (stays m (insert_free_region (FreeRegion.new o size) m2)) as Hst by eauto using stays_trans.
      split; [|done]. by apply (stays_ok m). }
  destruct Hrec as (Hc3 & Hlive & E3 & i & Hi & Ei). destruct Hl as [La Lby Lal Lpk Lb Lcap].
  assert (live m2 = live m) as El by (unfold live; by rewrite La). rewrite El in Hlive. rewrite La in Hi, Ei.
  assert (base_address m3 = base_address m) as Eb by (rewrite <-Lb, E3; done).
  rewrite (bind_ok _ _ tt m3 (update_stats_on_alloc size m3)) by done. unfold gets.
  change (base_address (update_stats_on_alloc size m3)) with (base_address m3). rewrite Eb. replace (base_address m + o - base_address m) with o by lia. fold r.
  pose proof (size_sum_bump m3 [] Hc3) as Hsum. unfold size_sum in Hsum. rewrite Hlive in Hsum. cbn in Hsum.
  fold (size_sum m) in Hsum.
  assert (m3.(allocated_bytes) = size_sum m) as Eal by (rewrite E3; cbn; rewrite Lal; apply Hok).
  assert (m3.(peak_bytes) = m.(peak_bytes)) as Epk by (rewrite E3; cbn; done).
  split_and!; [|by rewrite E3|done|by rewrite <-Lcap, E3|done| |done|by exists i].
  - split; [by destruct Hc3| |]; unfold update_stats_on_alloc; cbn; rewrite Eal, sat_add_small by lia.
    + transitivity (zsum AllocationRecord.size (live m3)); [|done]. rewrite Hlive. cbn. unfold size_sum. lia.
    + destruct (Z.ltb_spec m3.(peak_bytes) (size_sum m + size)); lia.
  - unfold backed in *. cbn. by rewrite E3.
Qed.

(** *** Release *)
(** everything about the blocks but which of them are live *)
Record keeps_heap m m' : Prop := {
  kh_bytes : m'.(bytes) = m.(bytes);
  kh_base : base_address m' = base_address m;
  kh_capacity : capacity m' = capacity m
}.

Lemma live_in m xs r : core m xs → r ∈ live m →
  0 < r.(AllocationRecord.size) ∧ 0 <= r.(AllocationRecord.offset) ∧
  r.(AllocationRecord.offset) + r.(AllocationRecord.size) <= m.(bump_offset).
Proof.
  intros Hc Hr. apply (wf_in _ _ (co_wf _ _ Hc) (alloc_iv r)). rewrite !elem_of_app. right; left.
  by apply list_elem_of_fmap_2.
Qed.
Lemma live_split m xs r l : core m xs → live m ≡ₚ r :: l →
  wf m.(bump_offset) (alloc_iv r :: (alloc_iv <$> l) ++ fivs m.(free_regions)).
Proof.
  intros [Hw _ _ _] Hp. rewrite Hp in Hw. cbn in Hw.
  assert (∀ ys zs, wf m.(bump_offset) (ys ++ zs) → wf m.(bump_offset) zs) as Hdrop.
  { induction ys as [|y ys IH]; intros zs Hz; [done|]. apply IH. by eapply wf_tail. }
  by apply (Hdrop xs).
Qed.
Lemma live_apart m xs r l q : core m xs → live m ≡ₚ r :: l → q ∈ l → apart_ivs (alloc_iv r) (alloc_iv q).
Proof.
  intros Hc Hp Hq. apply (wf_apart _ _ _ _ (live_split _ _ _ _ Hc Hp)), elem_of_app. left.
  by apply list_elem_of_fmap_2.
Qed.
Lemma live_inj m xs r q : core m xs → r ∈ live m → q ∈ live m →
  r.(AllocationRecord.offset) = q.(AllocationRecord.offset) → r = q.
Proof.
  intros Hc Hr Hq E. destruct (live_in _ _ _ Hc Hr) as (Hsr & _). destruct (live_in _ _ _ Hc Hq) as (Hsq & _).
  apply list_elem_of_split in Hr as Hr'. destruct Hr' as (l1 & l2 & El).
  assert (live m ≡ₚ r :: l1 ++ l2) as Hp by (rewrite El; by rewrite <-Permutation_middle).
  rewrite Hp in Hq. apply elem_of_cons in Hq as [->|Hq]; [done|].
  exfalso. apply (live_apart _ _ _ _ _ Hc Hp Hq r.(AllocationRecord.offset)).
  unfold within, alloc_iv. cbn. lia.
Qed.

Lemma core_remove m xs i r : core m xs → m.(allocations) !! i = Some (Some r) →
  core (set_allocations (<[i := None]> m.(allocations)) m) (alloc_iv r :: xs) ∧
  live m ≡ₚ r :: live (set_allocations (<[i := None]> m.(allocations)) m).
Proof.
  intros Hc Hi. pose proof (occupied_remove _ _ _ Hi) as Hp. split; [|done].
  pose proof Hc as [Hw Hb Hcap Hk]. split; [|done|done|].
  - eapply (wf_perm m.(bump_offset)); [|exact Hw]. cbn [free_regions set_allocations]. unfold live.
    cbn [allocations set_allocations]. rewrite Hp. cbn. by rewrite <-Permutation_middle.
  - cbn [backing set_allocations pages]. destruct m.(backing); [done| |done].
    destruct Hk as (H1 & H2 & H3 & H4 & H5). split_and!; [done|done|done|done|].
    intros q Hq. apply H5. unfold live. rewrite Hp. by apply list_elem_of_further.
Qed.

Lemma reclaim_spec m o s : core m [(o, s)] → m.(allocated_bytes) = size_sum m + s →
  m.(allocated_bytes) <= m.(peak_bytes) →
  let m' := update_stats_on_free s (insert_free_region (FreeRegion.new o s) m) in
  ok m' ∧ m'.(allocations) = m.(allocations) ∧ keeps_heap m m'.
Proof.
  intros Hc Ha Hp m'. destruct (insert_free_spec m o s [] Hc) as [Hc' _].
  assert (0 < s) as Hs by (apply (wf_in _ _ (co_wf _ _ Hc) (o, s)), list_elem_of_here).
  assert (0 <= size_sum m).
  { apply zsum_nonneg. intros r Hr. destruct (live_in _ _ _ Hc Hr). lia. }
  split_and!; [|done|done]. split; [by destruct Hc'| |]; cbn; unfold sat_sub.
  - change (Z.max (m.(allocated_bytes) - s) 0 = size_sum m). lia.
  - lia.
Qed.

(** the block at [p] of [owner], of the right kind and long enough *)
Definition matches m (owner p : Z) (kind : option AllocationKind.t) (len : option Z) (r : AllocationRecord.t) : Prop :=
  r.(AllocationRecord.owner) = owner ∧ base_address m + r.(AllocationRecord.offset) = p ∧
  (∀ k, kind = Some k → r.(AllocationRecord.kind) = k) ∧ (∀ n, len = Some n → n <= r.(AllocationRecord.size)).

Lemma offset_for_ptr_Some m p o : offset_for_ptr HEAP_SIZE static_heap m p = Some o → o = p - base_address m.
Proof. unfold offset_for_ptr. destruct (_ || _); congruence. Qed.
Lemma offset_for_ptr_live m r : core m [] → m.(backing) ≠ BackingStore.Disabled → r ∈ live m →
  offset_for_ptr HEAP_SIZE static_heap m (base_address m + r.(AllocationRecord.offset)) =
  Some r.(AllocationRecord.offset).
Proof.
  intros Hc Hd Hr. destruct (live_in _ _ _ Hc Hr) as (H1 & H2 & H3).
  destruct (base_nonneg _ _ Hc) as (H4 & H5 & H6). pose proof (co_cap _ _ Hc) as [|H7]; [done|].
  unfold offset_for_ptr. rewrite sat_add_small by done.
  rewrite (proj2 (Z.ltb_ge _ _)), (proj2 (Z.leb_gt _ _)) by lia. cbn. f_equal. lia.
Qed.

Lemma find_allocation_spec m owner o i : find_slot (is_allocation owner o) m.(allocations) = Some i →
  ∃ r, m.(allocations) !! i = Some (Some r) ∧ r ∈ live m ∧ r.(AllocationRecord.owner) = owner ∧ r.(AllocationRecord.offset) = o.
Proof.
  intros (r & Hi & Hp & Hperm)%find_slot_remove. exists r. unfold is_allocation in Hp.
  apply andb_true_iff in Hp as [H1%Z.eqb_eq H2%Z.eqb_eq]. split_and!; [done| |done|done].
  unfold live. rewrite Hperm. apply list_elem_of_here.
Qed.

(** Freeing takes out exactly the block that is asked for. *)
Lemma release_spec m owner p kind len : ok m →
  match release HEAP_SIZE static_heap owner p kind len m with
  | (true, m') => ok m' ∧ keeps_heap m m' ∧
      ∃ r i, matches m owner p kind len r ∧ live m ≡ₚ r :: live m' ∧
        m.(allocations) !! i = Some (Some r) ∧ m'.(allocations) = <[i := None]> m.(allocations)
  | (false, m') => m' = m ∧ (m.(backing) ≠ BackingStore.Disabled → ∀ r, r ∈ live m → ¬ matches m owner p kind len r)
  end.
Proof.
  intros Hok. pose proof (ok_core _ Hok) as Hc. unfold release.
  destruct (offset_for_ptr _ _ m p) as [o|] eqn:Eo.
  2:{ split; [done|]. intros Hd r Hr (_ & <- & _). by rewrite (offset_for_ptr_live m r) in Eo. }
  apply offset_for_ptr_Some in Eo as ->. unfold remove_allocation.
  destruct (find_slot _ m.(allocations)) as [i|] eqn:Ei.
  2:{ split; [done|]. intros _ r Hr (H1 & H2 & _). apply find_slot_None, slot_find_None with (x := r) in Ei; [|by apply elem_of_occupied].
      unfold is_allocation in Ei. rewrite !(proj2 (Z.eqb_eq _ _)) in Ei by lia. done. }
  apply find_allocation_spec in Ei as (r & Hi & Hr & Hown & Hoff). rewrite Hi. cbn [default from_option id].
  assert (∀ q, q ∈ live m → matches m owner p kind len q → q = r) as Huniq.
  { intros q Hq (_ & Hp & _). apply (live_inj m [] q r Hc Hq Hr). lia. }
  destruct (match kind with Some k => _ | None => false end) eqn:Ek.
  { split; [done|]. intros _ q Hq Hm. pose proof (Huniq q Hq Hm) as ->. destruct Hm as (_ & _ & Hk & _).
    destruct kind as [k|]; [|done]. rewrite bool_decide_eq_true_2 in Ek by by apply Hk. done. }
  destruct (match len with Some n => _ | None => false end) eqn:El.
  { split; [done|]. intros _ q Hq Hm. pose proof (Huniq q Hq Hm) as ->. destruct Hm as (_ & _ & _ & Hn).
    destruct len as [n|]; [|done]. apply Z.ltb_lt in El. specialize (Hn n eq_refl). lia. }
  destruct (core_remove m [] i r Hc Hi) as [Hc1 Hp1].
  set (m1 := set_allocations (<[i := None]> m.(allocations)) m) in *.
  destruct (reclaim_spec m1 _ _ Hc1) as (Hok' & Ea & Hkh).
  { change (m1.(allocated_bytes)) with (m.(allocated_bytes)). rewrite (ok_allocated _ Hok). unfold size_sum. rewrite Hp1. cbn. lia. }
  { apply (ok_peak _ Hok). }
  unfold reclaim. split_and!; [done|by destruct Hkh|]. exists r, i. split_and!; [|by unfold live; rewrite Ea|done|done].
  split_and!; [done|lia| |].
  - intros k ->. destruct (bool_decide_reflect (r.(AllocationRecord.kind) = k)); done.
  - intros n ->. apply Z.ltb_ge in El. lia.
Qed.

(** *** Reallocation *)
Lemma occupied_put {A} (l : list (option A)) i x : l !! i = Some None → occupied (<[i := Some x]> l) ≡ₚ x :: occupied l.
Proof.
  intros Hi. rewrite (occupied_remove (<[i := Some x]> l) i x).
  - by rewrite list_insert_insert_eq, list_insert_id.
  - apply list_lookup_insert_eq. by eapply lookup_lt_Some.
Qed.
Lemma core_put m xs i r : core m (alloc_iv r :: xs) → m.(allocations) !! i = Some None →
  backed m (r.(AllocationRecord.offset) + r.(AllocationRecord.size)) ∨ m.(backing) = BackingStore.Disabled →
  core (set_allocations (<[i := Some r]> m.(allocations)) m) xs ∧
  live (set_allocations (<[i := Some r]> m.(allocations)) m) ≡ₚ r :: live m.
Proof.
  intros Hc Hi Hbk. pose proof (occupied_put _ _ r Hi) as Hp. split; [|done].
  pose proof Hc as [Hw Hb Hcap Hk]. split; [|done|done|].
  - eapply (wf_perm m.(bump_offset)); [|exact Hw]. cbn [free_regions set_allocations]. unfold live.
    cbn [allocations set_allocations]. rewrite Hp. cbn. by rewrite <-Permutation_middle.
  - cbn [backing set_allocations pages]. unfold backed in Hbk. destruct m.(backing); [done| |done].
    destruct Hbk as [Hbk|]; [|done]. destruct Hk as (H1 & H2 & H3 & H4 & H5). split_and!; [done|done|done|done|].
    intros q. unfold live. cbn [allocations set_allocations]. rewrite Hp. intros [-> |Hq]%elem_of_cons; [done|by apply H5].
Qed.
Lemma live_backed m xs r : core m xs → r ∈ live m →
  backed m (r.(AllocationRecord.offset) + r.(AllocationRecord.size)) ∨ m.(backing) = BackingStore.Disabled.
Proof.
  intros Hc Hr. pose proof (co_back _ _ Hc) as Hk. unfold backed. destruct m.(backing); [by left| |by right].
  left. by apply Hk.
Qed.
Lemma backed_le m e e' : backed m e ∨ m.(backing) = BackingStore.Disabled → e' <= e →
  backed m e' ∨ m.(backing) = BackingStore.Disabled.
Proof. unfold backed. destruct m.(backing); [done| |done]. intros [He|]; [left; lia|done]. Qed.

Definition resized (r : AllocationRecord.t) (n : Z) : AllocationRecord.t :=
  AllocationRecord.new r.(AllocationRecord.owner) r.(AllocationRecord.offset) n r.(AllocationRecord.kind)
    r.(AllocationRecord.protection).

Lemma shrink_spec m i r n : ok m → m.(allocations) !! i = Some (Some r) → 0 < n <= r.(AllocationRecord.size) →
  ok (shrink i r n m) ∧ keeps_heap m (shrink i r n m) ∧
  ∃ l, live m ≡ₚ r :: l ∧ live (shrink i r n m) ≡ₚ resized r n :: l.
Proof.
  intros Hok Hi Hn. pose proof (ok_core _ Hok) as Hc. destruct (core_remove m [] i r Hc Hi) as [Hc1 Hp1].
  set (m1 := set_allocations (<[i := None]> m.(allocations)) m) in *.
  assert (r ∈ live m) as Hr by (apply elem_of_occupied, list_elem_of_lookup; by exists i).
  assert (size_sum m = r.(AllocationRecord.size) + size_sum m1) as Hsum by (unfold size_sum; by rewrite Hp1).
  set (left_ := r.(AllocationRecord.size) - n).
  set (m2 := if 0 <? left_ then insert_free_region (FreeRegion.new (r.(AllocationRecord.offset) + n) left_) m1 else m1).
  assert (core m2 [(r.(AllocationRecord.offset), n)] ∧ same_live m1 m2) as [Hc2 Hl2].
  { subst m2. destruct (Z.ltb_spec 0 left_).
    - apply insert_free_spec. apply (core_live m1 m1 _ _ Hc1); [by split_and!|done|].
      pose proof (co_wf _ _ Hc1) as Hw. cbn [app] in *. unfold alloc_iv in Hw.
      replace r.(AllocationRecord.size) with (n + left_) in Hw by lia. apply wf_split in Hw; [|lia|lia].
      eapply (wf_perm m1.(bump_offset)); [|exact Hw]. apply Permutation_swap.
    - split; [|by split_and!]. unfold alloc_iv in Hc1. by replace r.(AllocationRecord.size) with n in Hc1 by lia. }
  assert (m2.(allocations) !! i = Some None) as Hi2.
  { rewrite (proj1 Hl2). apply list_lookup_insert_eq. by eapply lookup_lt_Some. }
  assert (backed m2 (r.(AllocationRecord.offset) + n) ∨ m2.(backing) = BackingStore.Disabled) as Hb2.
  { pose proof (live_backed m [] r Hc Hr) as Hb. apply (backed_le m _ (r.(AllocationRecord.offset) + n)) in Hb; [|lia].
    unfold backed in *. destruct Hl2 as (_ & _ & -> & _). done. }
  destruct (core_put m2 [] i (resized r n) Hc2 Hi2 Hb2) as [Hc3 Hp3].
  set (m3 := set_allocations (<[i := Some (resized r n)]> m2.(allocations)) m2) in *.
  assert (live m3 ≡ₚ resized r n :: live m1) as Hp.
  { rewrite Hp3. unfold live. by rewrite (proj1 Hl2). }
  assert (shrink i r n m = set_stats (sat_sub m.(allocated_bytes) left_) m.(peak_bytes) m3) as ->.
  { destruct Hl2 as (Ea & _ & _ & _ & Eal & Epk). unfold shrink. fold (resized r n).
    assert (sat_sub r.(AllocationRecord.size) n = left_) as -> by (unfold sat_sub, left_; lia).
    unfold m3, m2, m1, sat_sub, insert_free_region, update_stats_on_free. destruct (Z.ltb_spec 0 left_); cbn.
    - unfold set_allocations, set_stats, set_free. cbn. by rewrite list_insert_insert_eq.
    - unfold set_allocations, set_stats. cbn. rewrite list_insert_insert_eq. f_equal.
      rewrite (ok_allocated _ Hok), Hsum. assert (0 <= size_sum m1).
      { apply zsum_nonneg. intros q Hq. destruct (live_in _ _ _ Hc1 Hq). lia. }
      subst left_. lia. }
  assert (live (set_stats (sat_sub m.(allocated_bytes) left_) m.(peak_bytes) m3) = live m3) as El by done.
  split_and!.
  - split; [by destruct Hc3| |].
    + unfold size_sum. rewrite El, Hp. change (zsum AllocationRecord.size (resized r n :: live m1)) with (n + size_sum m1).
      cbn [allocated_bytes set_stats]. rewrite (ok_allocated _ Hok), Hsum. assert (0 <= size_sum m1).
      { apply zsum_nonneg. intros q Hq. destruct (live_in _ _ _ Hc1 Hq). lia. }
      unfold sat_sub, left_. lia.
    + cbn. pose proof (ok_peak _ Hok). pose proof (ok_allocated _ Hok).
      assert (0 <= size_sum m) by (apply zsum_nonneg; intros q Hq; destruct (live_in _ _ _ Hc Hq); lia).
      unfold sat_sub. subst left_. lia.
  - destruct Hl2 as (_ & Eby & Ebk & _). split; [exact Eby| |]; unfold MemoryManager.base_address, MemoryManager.capacity;
      cbn [backing set_stats set_allocations m3]; by rewrite Ebk.
  - exists (live m1). by rewrite El.
Qed.

Definition byte m (a : Z) : Z := default 0 (m.(bytes) !! a).
Lemma copy_lookup src dst len (b : gmap Z Z) a : 0 <= len →
  default 0 (copy_nonoverlapping src dst len b !! a) =
  if decide (dst <= a < dst + len) then default 0 (b !! (src + (a - dst))) else default 0 (b !! a).
Proof.
  intros Hlen. unfold copy_nonoverlapping. rewrite <-(Z2Nat.id len) by done. generalize (Z.to_nat len). clear len Hlen.
  induction n as [|n IH].
  - cbn. rewrite decide_False by lia. done.
  - rewrite seqZ_S, foldl_app. cbn [foldl]. rewrite Z.add_0_l.
    destruct (decide (a = dst + Z.of_nat n)) as [->|Hne].
    + rewrite lookup_insert_eq, decide_True by lia. cbn. do 2 f_equal. lia.
    + rewrite lookup_insert_ne by done. rewrite IH. destruct (decide (dst <= a < dst + Z.of_nat n)).
      * by rewrite decide_True by lia.
      * by rewrite decide_False by lia.
Qed.

(** a fresh block [r] at the address [p] joins the live ones *)
Record gains m m' (p : Z) (r : AllocationRecord.t) : Prop := {
  ga_ok : ok m';
  ga_keeps : keeps_heap m m';
  ga_live : live m' ≡ₚ r :: live m;
  ga_at : base_address m + r.(AllocationRecord.offset) = p;
  ga_enabled : m'.(backing) ≠ BackingStore.Disabled
}.
Definition fails m m' : Prop := ok m' ∧ stays m m'.

Lemma allocate_gains m owner size align kind protection : ok m → 0 < size → 0 <= align →
  match allocate HEAP_SIZE static_heap owner size align kind protection m with
  | (Ok p, m') => p mod align = 0 ∧ ∃ r, gains m m' p r ∧ r.(AllocationRecord.owner) = owner ∧
      r.(AllocationRecord.size) = size ∧ r.(AllocationRecord.kind) = kind ∧ r.(AllocationRecord.protection) = protection
  | (Err _, m') => fails m m'
  end.
Proof.
  intros Hok Hs Ha. pose proof (block_allocate_spec m owner size align kind protection Hok Hs Ha) as H'.
  destruct (allocate _ _ _ _ _ _ _ m) as [[p|[]] m']; [|done].
  destruct H' as (H1 & H2 & H3 & H4 & H5 & H6 & H7 & _). split; [done|].
  exists (AllocationRecord.new owner (p - base_address m) size kind protection). split; [|done].
  split; [done|done|done|cbn; lia|]. intros E. unfold backed in H6. by rewrite E in H6.
Qed.

Lemma malloc_spec m owner size : ok m → 0 <= size →
  match malloc_for HEAP_SIZE static_heap owner size m with
  | (Ok p, m') => p mod 8 = 0 ∧ ∃ r, gains m m' p r ∧ r.(AllocationRecord.owner) = owner ∧
      size <= r.(AllocationRecord.size) < size + 8 ∧ r.(AllocationRecord.kind) = AllocationKind.Heap ∧
      r.(AllocationRecord.protection) = read_write
  | (Err _, m') => fails m m'
  end.
Proof.
  intros Hok Hs. unfold malloc_for. destruct (Z.eqb_spec size 0) as [|Hnz]; [done|].
  destruct (align_up size 8) as [n|] eqn:En; [|done]. rewrite (bind_ok _ _ n m m) by done.
  apply (align_up_spec 3) in En as [Hn _]; [|done|done]. change (2 ^ 3) with 8 in Hn.
  pose proof (allocate_gains m owner n 8 AllocationKind.Heap read_write Hok ltac:(lia) ltac:(lia)) as Ha.
  destruct (allocate _ _ _ _ _ _ _ m) as [[p|[]] m']; [|done].
  destruct Ha as (H1 & r & H2 & H3 & H4 & H5). split; [done|]. exists r. split_and!; [done|done|lia|lia|apply H5|apply H5].
Qed.

Lemma realloc_spec m owner p n : ok m → 0 < n →
  match realloc_for HEAP_SIZE static_heap owner (Some p) n m with
  | (Ok q, m') => ok m' ∧ base_address m' = base_address m ∧ ∃ r r' l,
      matches m owner p (Some AllocationKind.Heap) None r ∧ matches m' owner q (Some AllocationKind.Heap) (Some n) r' ∧
      live m ≡ₚ r :: l ∧ live m' ≡ₚ r' :: l ∧
      (∀ i, 0 <= i < Z.min r.(AllocationRecord.size) n → byte m' (q + i) = byte m (p + i)) ∧
      (∀ x a, x ∈ l → within a (block m x) → byte m' a = byte m a)
  | (Err _, m') => fails m m'
  end.
Proof.
  intros Hok Hn. pose proof (ok_core _ Hok) as Hc. unfold realloc_for. rewrite (proj2 (Z.eqb_neq _ _)) by lia.
  destruct (offset_for_ptr HEAP_SIZE static_heap m p) as [o|] eqn:Eo.
  2:{ unfold mbind at 1, M_bind at 1. rewrite Eo. done. }
  rewrite (bind_ok _ _ o m m) by (by rewrite Eo). apply offset_for_ptr_Some in Eo as ->.
  destruct (find_allocation_index m owner (p - base_address m)) as [i|] eqn:Ei.
  2:{ unfold mbind at 1, M_bind at 1. rewrite Ei. done. }
  rewrite (bind_ok _ _ i m m) by (by rewrite Ei).
  apply find_allocation_spec in Ei as (r & Hi & Hr & Hown & Hoff). rewrite (bind_ok _ _ r m m) by (by rewrite Hi).
  destruct (bool_decide_reflect (r.(AllocationRecord.kind) = AllocationKind.Heap)) as [Hk|]; [|done]. cbn [negb].
  destruct (align_up n 8) as [a|] eqn:En; [|done]. rewrite (bind_ok _ _ a m m) by done.
  apply (align_up_spec 3) in En as [Ha _]; [|done|lia]. change (2 ^ 3) with 8 in Ha.
  assert (matches m owner p (Some AllocationKind.Heap) None r) as Hm by (split_and!; [done|lia|congruence|done]).
  destruct (Z.leb_spec a r.(AllocationRecord.size)) as [Hle|Hgt].
  - rewrite (bind_ok _ _ tt m (shrink i r a m)) by done.
    destruct (shrink_spec m i r a Hok Hi ltac:(lia)) as (Hok' & [Eby Ebase Ecap] & l & Hp & Hp').
    split_and!; [done|done|]. exists r, (resized r a), l. split_and!; [done| |done|done| |].
    + split_and!; [done|rewrite Ebase; cbn; lia|intros k [= <-]; done|intros k [= <-]; cbn; lia].
    + intros j _. unfold byte. by rewrite Eby.
    + intros x b _ _. unfold byte. by rewrite Eby.
  - unfold mbind at 1, M_bind at 1. pose proof (malloc_spec m owner n Hok ltac:(lia)) as Hma.
    destruct (malloc_for _ _ _ _ m) as [[q|[]] m1]; [|done].
    destruct Hma as (_ & r1 & [Hok1 [Eby1 Ebase1 Ecap1] Hl1 Hq1 Hen1] & Hown1 & Hs1 & Hk1 & _).
    set (len := Z.min r.(AllocationRecord.size) n).
    set (m2 := set_bytes (copy_nonoverlapping p q len m1.(bytes)) m1).
    rewrite (bind_ok _ _ tt m1 m2) by done. rewrite (bind_ok _ _ tt m2 (free_for HEAP_SIZE static_heap owner p m2).2) by done.
    assert (ok m2) as Hok2 by (destruct Hok1 as [[] ? ?]; by split).
    assert (base_address m2 = base_address m) as Eb2 by done.
    assert (live m2 ≡ₚ r1 :: live m) as Hl2 by done.
    pose proof (release_spec m2 owner p (Some AllocationKind.Heap) None Hok2) as Hrel. unfold free_for.
    destruct (release _ _ _ _ _ _ m2) as [[] m3]; cbn [snd].
    2:{ destruct Hrel as [_ Hno]. exfalso. apply (Hno Hen1 r); [rewrite Hl2; by apply list_elem_of_further|].
        destruct Hm as (M1 & M2 & M3 & M4). split_and!; [done|by rewrite Eb2|done|done]. }
    destruct Hrel as (Hok3 & [Eby3 Ebase3 Ecap3] & r0 & j & (M1 & M2 & M3 & M4) & Hp & _).
    assert (r0 = r) as ->.
    { apply (live_inj m2 [] r0 r (ok_core _ Hok2)); [rewrite Hp; apply list_elem_of_here| |lia].
      rewrite Hl2. by apply list_elem_of_further. }
    apply list_elem_of_split in Hr as (l1 & l2 & El).
    assert (live m ≡ₚ r :: l1 ++ l2) as Hpm by (rewrite El; by rewrite <-Permutation_middle).
    assert (live m3 ≡ₚ r1 :: l1 ++ l2) as Hp3.
    { apply (Permutation_cons_inv (a := r)). rewrite <-Hp, Hl2, Hpm. apply Permutation_swap. }
    assert (0 <= len) as Hlen.
    { destruct (live_in m [] r Hc) as [? _]; [rewrite Hpm; apply list_elem_of_here|]. subst len. lia. }
    split_and!; [done|by rewrite Ebase3|]. exists r, r1, (l1 ++ l2). split_and!; [done| |done|done| |].
    + split_and!; [done|rewrite Ebase3, Eb2; done|intros k [= <-]; done|intros k [= <-]; lia].
    + intros j' Hj. unfold byte. rewrite Eby3. cbn [bytes set_bytes m2]. rewrite copy_lookup, decide_True by lia.
      rewrite Eby1. do 2 f_equal. lia.
    + intros x b Hx Hb. unfold byte. rewrite Eby3. cbn [bytes set_bytes m2]. rewrite copy_lookup by done.
      rewrite decide_False; [by rewrite Eby1|]. intros Hq.
      apply (live_apart m1 [] r1 (live m) x (ok_core _ Hok1) Hl1) with (b - base_address m).
      { rewrite Hpm. by apply list_elem_of_further. }
      unfold within, alloc_iv, block in *. cbn [fst snd] in *. subst len. lia.
Qed.

(** *** A process exits *)
Definition owned_by (owner : Z) (r : AllocationRecord.t) : bool := r.(AllocationRecord.owner) =? owner.
Lemma release_slot_spec m owner pre o suf : ok m → m.(allocations) = pre ++ o :: suf →
  let m' := release_slot owner m (length pre) in
  ok m' ∧ keeps_heap m m' ∧ m'.(allocations) = pre ++ clear_where (owned_by owner) [o] ++ suf.
Proof.
  intros Hok E. unfold release_slot. rewrite E, list_lookup_middle by done. cbn [default from_option id].
  destruct o as [r|]; [|by split_and!]. cbn [clear_where]. unfold owned_by.
  destruct (Z.eqb_spec r.(AllocationRecord.owner) owner); [|by split_and!].
  assert (m.(allocations) !! length pre = Some (Some r)) as Hi by (rewrite E; by apply list_lookup_middle).
  rewrite <-E. destruct (core_remove m [] _ r (ok_core _ Hok) Hi) as [Hc1 Hp1].
  set (m1 := set_allocations (<[length pre := None]> m.(allocations)) m) in *.
  destruct (reclaim_spec m1 _ _ Hc1) as (Hok' & Ea & Hkh).
  { change (m1.(allocated_bytes)) with (m.(allocated_bytes)). rewrite (ok_allocated _ Hok). unfold size_sum. rewrite Hp1. cbn. lia. }
  { apply (ok_peak _ Hok). }
  split_and!; [done|by destruct Hkh|]. unfold reclaim. rewrite Ea. cbn [m1 allocations set_allocations].
  rewrite E, insert_app_r_alt, Nat.sub_diag by done. done.
Qed.
Lemma release_process_spec m owner : ok m →
  let m' := release_process owner m in
  ok m' ∧ keeps_heap m m' ∧ m'.(allocations) = clear_where (owned_by owner) m.(allocations).
Proof.
  intros Hok. unfold release_process.
  enough (∀ suf pre m, ok m → m.(allocations) = pre ++ suf →
    let m' := foldl (release_slot owner) m (seq (length pre) (length suf)) in
    ok m' ∧ keeps_heap m m' ∧ m'.(allocations) = pre ++ clear_where (owned_by owner) suf) as Hall.
  { by apply (Hall m.(allocations) [] m). }
  clear m Hok. induction suf as [|o suf IH]; intros pre m Hok E; [by split_and!|].
  cbn [length seq foldl]. destruct (release_slot_spec m owner pre o suf Hok E) as (Hok1 & [K1 K2 K3] & E1).
  set (o' := clear_where (owned_by owner) [o]) in E1.
  assert (length (pre ++ o') = S (length pre)) as El.
  { rewrite length_app. unfold o'. rewrite length_clear_where. cbn. lia. }
  rewrite <-El. rewrite app_assoc in E1. destruct (IH (pre ++ o') _ Hok1 E1) as (Hok2 & [K4 K5 K6] & E2).
  split_and!; [done|split; congruence|]. rewrite E2, <-app_assoc. f_equal. unfold o'.
  cbn [clear_where]. by destruct o as [r|]; [destruct (owned_by owner r)|].
Qed.

(** *** Boot *)
Lemma live_nil m : ok m → m.(allocated_bytes) = 0 → live m = [].
Proof.
  intros Hok H0. pose proof (ok_allocated _ Hok) as Ha. unfold size_sum in Ha.
  destruct (live m) as [|r l] eqn:El; [done|]. cbn in Ha.
  destruct (live_in m [] r (ok_core _ Hok)) as [Hr _]; [rewrite El; apply list_elem_of_here|].
  enough (0 <= zsum AllocationRecord.size l) by lia. apply zsum_nonneg. intros q Hq.
  destruct (live_in m [] q (ok_core _ Hok)); [rewrite El; by apply list_elem_of_further|lia].
Qed.
Lemma promote_spec m base cap committed frames : ok m → backing_ok m.(pages) base cap committed →
  0 < base → 0 <= cap → base + cap <= umax 64 →
  ok (promote_to_virtual_heap base cap committed frames m) ∧
  m.(allocations) = (promote_to_virtual_heap base cap committed frames m).(allocations).
Proof.
  intros Hok Hbk H1 H2 H3. unfold promote_to_virtual_heap.
  destruct (Z.eqb_spec m.(allocated_bytes) 0) as [H4|]; [|done]. cbn [negb orb].
  destruct (Z.eqb_spec m.(bump_offset) 0) as [H5|]; [|done]. cbn [negb orb].
  destruct (_ || _); [done|]. split; [|done]. pose proof (live_nil m Hok H4) as Hl.
  destruct Hok as [[Hw Hb Hc Hk] Ha Hp]. split; [|done|done]. split; [done|done| |].
  - right. cbn. by rewrite H5.
  - cbn. split_and!; [done|done|done|done|]. intros r Hr. change (r ∈ live m) in Hr.
    rewrite Hl in Hr. by apply elem_of_nil in Hr.
Qed.
Lemma disable_spec m : ok m → ok (disable_static_heap m) ∧ (disable_static_heap m).(allocations) = m.(allocations).
Proof.
  intros Hok. unfold disable_static_heap. destruct m.(backing) eqn:E; [|done|done].
  split; [|done]. destruct Hok as [[Hw Hb Hc Hk] Ha Hp]. split; [|done|done]. split; [done|done|by left|done].
Qed.
Lemma manager_new_ok n h : 0 < static_heap → 0 <= HEAP_SIZE → static_heap + HEAP_SIZE <= umax 64 → ok (MemoryManager.new n h).
Proof.
  intros H1 H2 H3. assert (live (MemoryManager.new n h) = []) as El by (unfold live; cbn; apply occupied_replicate).
  split; [|by unfold size_sum; rewrite El|done].
  split; [|unfold umax; cbn; lia|right; cbn; lia|done].
  rewrite El. unfold fivs. cbn. rewrite occupied_replicate. by apply wf_nil.
Qed.
End manager.

(** ** Where the heap lies *)
Section stores.
Context {H : Type} `{!HeapBacking H}.
Variables (HEAP_SIZE static_heap : Z).
Implicit Types m : t H.

Definition virtual_heap m : Prop :=
  match m.(backing) with BackingStore.Virtual _ _ _ _ => True | _ => False end.

Lemma reserve_backing size align m : (reserve HEAP_SIZE static_heap size align m).2.(backing) = m.(backing).
Proof.
  unfold reserve, reserve_from_free_list. destruct (find_fit _ m size align 0 _) as [[[[i o] e] r]|]; [by repeat case_match|].
  destruct (_ : option (Z * Z)) as [[o e]|]; [|done]. by destruct (_ <? _).
Qed.
Lemma ensure_backing_virtual o size protection m :
  virtual_heap m → virtual_heap (ensure_backing o size protection m).2.
Proof.
  intros Hv. unfold ensure_backing. unfold virtual_heap in Hv. destruct m.(backing) eqn:E; [done| |done].
  destruct (checked_add 64 o size); [|by unfold virtual_heap; cbn; rewrite E]. destruct (_ <? _); [by unfold virtual_heap; cbn; rewrite E|].
  destruct (align_up _ _); [|by unfold virtual_heap; cbn; rewrite E]. by destruct (backing_grow _ _ _ _ _ _) as [[l|e] h].
Qed.
Lemma allocate_virtual owner size align kind protection :
  keeps virtual_heap (allocate HEAP_SIZE static_heap owner size align kind protection).
Proof.
  apply keeps_bind.
  { intros m Hm. unfold virtual_heap. by rewrite reserve_backing. }
  intros o. assert (∀ n : Z, keeps virtual_heap (_ ← modify (insert_free_region (FreeRegion.new o n)); throw (A := unit) tt)) as Hgive.
  { intros n. apply keeps_bind; [|intros; apply keeps_throw]. by apply keeps_modify. }
  assert (∀ (a : M (t H) unit unit) n, keeps virtual_heap a → keeps virtual_heap
    (catch a (λ _, _ ← modify (insert_free_region (FreeRegion.new o n)); throw tt))) as Hcatch.
  { intros a n Ha m Hm. unfold catch. specialize (Ha m Hm). destruct (a m) as [[[]|[]] m1]; [done|by apply Hgive]. }
  cbv zeta. apply keeps_bind; [apply Hcatch; intros m; apply ensure_backing_virtual|]. intros _.
  apply keeps_bind; [apply Hcatch|]; intros ?.
  { intros Hm. unfold record_allocation. by destruct (free_slot _). }
  apply keeps_bind; [by apply keeps_modify|]. intros _. apply keeps_gets.
Qed.
Lemma release_backing owner p kind len m : (release HEAP_SIZE static_heap owner p kind len m).2.(backing) = m.(backing).
Proof. unfold release, remove_allocation. by repeat case_match; simplify_eq. Qed.
Lemma release_pages owner p kind len m : (release HEAP_SIZE static_heap owner p kind len m).2.(pages) = m.(pages).
Proof. unfold release, remove_allocation. by repeat case_match; simplify_eq. Qed.
Lemma release_process_pages owner m : (release_process owner m).(pages) = m.(pages).
Proof.
  unfold release_process. generalize (seq 0 (length m.(allocations))). intros l. revert m.
  induction l as [|i l IH]; intros m; cbn; [done|]. rewrite IH. unfold release_slot. by repeat case_match.
Qed.
Lemma release_process_backing owner m : (release_process owner m).(backing) = m.(backing).
Proof.
  unfold release_process. generalize (seq 0 (length m.(allocations))). intros l. revert m.
  induction l as [|i l IH]; intros m; cbn; [done|]. rewrite IH. unfold release_slot. by repeat case_match.
Qed.
Lemma malloc_virtual owner size : keeps virtual_heap (malloc_for HEAP_SIZE static_heap owner size).
Proof. unfold malloc_for. case_match; [apply keeps_throw|]. apply keeps_bind; [apply keeps_lift|]. intros. apply allocate_virtual. Qed.
Lemma malloc_aligned_virtual owner size align :
  keeps virtual_heap (malloc_aligned_for HEAP_SIZE static_heap owner size align).
Proof.
  unfold malloc_aligned_for. case_match; [apply keeps_throw|]. apply keeps_bind; [apply keeps_lift|].
  intros. apply allocate_virtual.
Qed.
Lemma mmap_virtual owner len protection : keeps virtual_heap (mmap_for HEAP_SIZE static_heap owner len protection).
Proof.
  unfold mmap_for. case_match; [apply keeps_throw|]. apply keeps_bind; [apply keeps_lift|].
  intros. apply keeps_bind; [apply allocate_virtual|]. intros. apply keeps_ret.
Qed.
Lemma realloc_virtual owner p n : keeps virtual_heap (realloc_for HEAP_SIZE static_heap owner p n).
Proof.
  assert (∀ q, keeps virtual_heap (E := unit) (modify (λ m, (free_for HEAP_SIZE static_heap owner q m).2))) as Hfree.
  { intros q. apply keeps_modify. intros m Hm. unfold virtual_heap, free_for. by rewrite release_backing. }
  unfold realloc_for. destruct p as [p|]; [|case_match; [apply keeps_throw|apply malloc_virtual]].
  case_match; [apply keeps_bind; [apply Hfree|intros; apply keeps_throw]|].
  do 3 (apply keeps_bind; [by intros m Hm|intros ?]). case_match; [apply keeps_throw|].
  apply keeps_bind; [apply keeps_lift|]. intros ?. case_match.
  { apply keeps_bind; [|intros; apply keeps_ret]. apply keeps_modify. intros m Hm. unfold shrink. by case_match. }
  apply keeps_bind; [apply malloc_virtual|]. intros ?. apply keeps_bind; [by apply keeps_modify|]. intros _.
  apply keeps_bind; [apply Hfree|]. intros _. apply keeps_ret.
Qed.
End stores.

(** the manager over other pages, which may promise something else *)
Lemma ok_repage {H : Type} `{!HeapBacking H} (L1 L2 : HeapBackingLaws H) HEAP_SIZE static_heap (m : t H) h :
  @ok _ _ L1 HEAP_SIZE static_heap m →
  (∀ base cap committed frames, m.(backing) = BackingStore.Virtual base cap committed frames →
     @backing_ok _ _ L1 m.(pages) base cap committed → @backing_ok _ _ L2 h base cap committed) →
  @ok _ _ L2 HEAP_SIZE static_heap (set_backing m.(backing) h m).
Proof.
  intros [[Hw Hb Hc Hk] Ha Hp] Hh. split; [|done|done]. split; [done|done|done|]. cbn.
  destruct m.(backing) as [|base cap committed frames|] eqn:E; [done| |done].
  destruct Hk as (H1 & H2 & H3 & H4 & H5). split_and!; [by eapply Hh|done|done|done|done].
Qed.
