(* ===== verification/MemoryTheorems.v ===== *)
(** * Theorems about the kernel's memory

    The memory manager over any history of calls, for any source of heap pages that keeps
    its promises; and the heap of src/src/kernel/memory/heap.rs as that source, so that
    every byte of a live block has memory of its own. *)

From stdpp Require Import prelude gmap.
From S2P Require Import Prelude Slots Subkernel FrameAllocator FrameSafety Paging PagingSafety PagingFrames PagingTheorems KernelHeap KernelHeapSafety MemoryManager MemoryManagerSafety.
Import MemoryManager.

Local Open Scope Z_scope.

(** ** Histories *)
Module MemCall.
Inductive t : Type :=
| Malloc (owner size : Z)
| MallocAligned (owner size align : Z)
| Realloc (owner : Z) (ptr : option Z) (size : Z)
| Free (owner ptr : Z)
| Mmap (owner length_ : Z) (protection : MemoryProtection.t)
| Munmap (owner ptr length_ : Z)
| ReleaseProcess (owner : Z)
| DisableStaticHeap.
End MemCall.

Section histories.
Context {H : Type} `{!HeapBacking H} `{!HeapBackingLaws H}.
Variables (HEAP_SIZE static_heap : Z).
Implicit Types m : t H.

Definition run_mem (c : MemCall.t) m : t H :=
  match c with
  | MemCall.Malloc owner size => (malloc_for HEAP_SIZE static_heap owner size m).2
  | MemCall.MallocAligned owner size align => (malloc_aligned_for HEAP_SIZE static_heap owner size align m).2
  | MemCall.Realloc owner ptr size => (realloc_for HEAP_SIZE static_heap owner ptr size m).2
  | MemCall.Free owner ptr => (free_for HEAP_SIZE static_heap owner ptr m).2
  | MemCall.Mmap owner length_ protection => (mmap_for HEAP_SIZE static_heap owner length_ protection m).2
  | MemCall.Munmap owner ptr length_ => (munmap_ptr_for HEAP_SIZE static_heap owner ptr length_ m).2
  | MemCall.ReleaseProcess owner => release_process owner m
  | MemCall.DisableStaticHeap => disable_static_heap m
  end.
(** sizes are machine integers *)
Definition call_sizes (c : MemCall.t) : Prop :=
  match c with
  | MemCall.Malloc _ size | MemCall.Realloc _ _ size | MemCall.Mmap _ size _ => 0 <= size
  | MemCall.MallocAligned _ size align => 0 <= size ∧ 0 <= align
  | _ => True
  end.

Inductive mem_reachable : t H → Prop :=
| mem_new n h : 0 < static_heap → 0 <= HEAP_SIZE → static_heap + HEAP_SIZE <= umax 64 →
    mem_reachable (new n h)
| mem_promote m base cap committed frames : mem_reachable m →
    backing_ok m.(pages) base cap committed → 0 < base → 0 <= cap → base + cap <= umax 64 →
    mem_reachable (promote_to_virtual_heap base cap committed frames m)
| mem_call m c : mem_reachable m → call_sizes c → mem_reachable (run_mem c m).

Abbreviation ok := (ok HEAP_SIZE static_heap).

Lemma malloc_aligned_spec m owner size align : ok m → 0 <= size → 0 <= align →
  match malloc_aligned_for HEAP_SIZE static_heap owner size align m with
  | (Ok p, m') => 0 < size ∧ p mod Z.max align 8 = 0 ∧ ∃ r, gains HEAP_SIZE static_heap m m' p r ∧
      r.(AllocationRecord.owner) = owner ∧ size <= r.(AllocationRecord.size) < size + 8 ∧
      r.(AllocationRecord.kind) = AllocationKind.Heap
  | (Err _, m') => fails HEAP_SIZE static_heap m m'
  end.
Proof.
  intros Hok Hs Ha. unfold malloc_aligned_for. destruct (Z.eqb_spec size 0) as [|Hnz]; [done|].
  destruct (valid_alignment align); [|done]. cbn [negb orb].
  destruct (align_up size 8) as [n|] eqn:En; [|done]. rewrite (bind_ok _ _ n m m) by done.
  apply (align_up_spec 3) in En as [Hn _]; [|done|done]. change (2 ^ 3) with 8 in Hn.
  pose proof (allocate_gains HEAP_SIZE static_heap m owner n (Z.max align 8) AllocationKind.Heap read_write Hok
    ltac:(lia) ltac:(lia)) as H'.
  destruct (allocate _ _ _ _ _ _ _ m) as [[p|[]] m']; [|done].
  destruct H' as (H1 & r & H2 & H3 & H4 & H5 & _). split_and!; [lia|done|]. exists r. by rewrite H4.
Qed.
Lemma mmap_spec m owner length_ protection : ok m → 0 <= length_ →
  match mmap_for HEAP_SIZE static_heap owner length_ protection m with
  | (Ok g, m') => g.(MappedRegion.ptr) mod 4096 = 0 ∧ ∃ r, gains HEAP_SIZE static_heap m m' g.(MappedRegion.ptr) r ∧
      r = AllocationRecord.new owner r.(AllocationRecord.offset) g.(MappedRegion.length_) AllocationKind.Mapping protection ∧
      g = MappedRegion.mk owner g.(MappedRegion.ptr) g.(MappedRegion.length_) length_ protection AllocationKind.Mapping ∧
      length_ <= g.(MappedRegion.length_) < length_ + 4096 ∧ g.(MappedRegion.length_) mod 4096 = 0
  | (Err _, m') => fails HEAP_SIZE static_heap m m'
  end.
Proof.
  intros Hok Hs. unfold mmap_for. destruct (Z.eqb_spec length_ 0) as [|Hnz]; [done|].
  destruct (align_up length_ PAGE_SIZE) as [n|] eqn:En; [|done]. rewrite (bind_ok _ _ n m m) by done.
  apply (align_up_spec 12) in En as [Hn Hm]; [|done|done]. change (2 ^ 12) with 4096 in *.
  pose proof (allocate_gains HEAP_SIZE static_heap m owner n PAGE_SIZE AllocationKind.Mapping protection Hok
    ltac:(lia) ltac:(done)) as H'. unfold mbind, M_bind.
  destruct (allocate _ _ _ _ _ _ _ m) as [[p|[]] m']; [|done].
  destruct H' as (H1 & r & H2 & H3 & H4 & H5 & H6). cbn. split; [done|]. exists r.
  split_and!; [done| |done|lia|lia|done]. destruct r; cbn in *. congruence.
Qed.

Lemma release_ok m owner ptr kind len : ok m → ok (release HEAP_SIZE static_heap owner ptr kind len m).2.
Proof.
  intros Hok. pose proof (release_spec HEAP_SIZE static_heap m owner ptr kind len Hok) as Hr.
  destruct (release _ _ _ _ _ _ m) as [[] m']; [apply Hr|]. by destruct Hr as [-> _].
Qed.

Lemma run_mem_ok c m : ok m → call_sizes c → ok (run_mem c m).
Proof.
  intros Hok Hc. destruct c as [owner size|owner size align|owner ptr size|owner ptr|owner len prot|owner ptr len|owner|];
    cbn in *.
  - pose proof (malloc_spec HEAP_SIZE static_heap m owner size Hok Hc) as Hm.
    destruct (malloc_for _ _ _ _ m) as [[p|[]] m']; [|apply Hm]. destruct Hm as (_ & r & Hg & _). apply Hg.
  - pose proof (malloc_aligned_spec m owner size align Hok (proj1 Hc) (proj2 Hc)) as Hm.
    destruct (malloc_aligned_for _ _ _ _ _ m) as [[p|[]] m']; [|apply Hm]. destruct Hm as (_ & _ & r & Hg & _). apply Hg.
  - destruct (Z.eq_dec size 0) as [->|Hnz].
    + destruct ptr as [p|]; [|done].
      by apply (release_ok m owner p (Some AllocationKind.Heap) None).
    + destruct ptr as [p|].
      * pose proof (realloc_spec HEAP_SIZE static_heap m owner p size Hok ltac:(lia)) as Hm.
        destruct (realloc_for _ _ _ _ _ m) as [[q|[]] m']; apply Hm.
      * unfold realloc_for. rewrite (proj2 (Z.eqb_neq _ _)) by done.
        pose proof (malloc_spec HEAP_SIZE static_heap m owner size Hok Hc) as Hm.
        destruct (malloc_for _ _ _ _ m) as [[p|[]] m']; [|apply Hm]. destruct Hm as (_ & r & Hg & _). apply Hg.
  - by apply release_ok.
  - pose proof (mmap_spec m owner len prot Hok Hc) as Hm.
    destruct (mmap_for _ _ _ _ _ m) as [[p|[]] m']; [|apply Hm]. destruct Hm as (_ & r & Hg & _). apply Hg.
  - by apply release_ok.
  - by apply release_process_spec.
  - by apply disable_spec.
Qed.
Lemma mem_reachable_ok m : mem_reachable m → ok m.
Proof.
  induction 1; [by apply manager_new_ok|by apply promote_spec|by apply run_mem_ok].
Qed.
End histories.

(** ** The manager's promises *)
(** C10: After any history of allocations, reallocations, releases and mappings, failing
    ones included, no two live blocks share a byte, no free region overlaps a live block,
    every block lies in the heap unless the heap has been disabled, and the statistics
    count exactly the live bytes. *)
Theorem memory_invariant {H : Type} `{!HeapBacking H, !HeapBackingLaws H} HEAP_SIZE static_heap (m : t H) :
  mem_reachable HEAP_SIZE static_heap m →
  (∀ i j r q, m.(allocations) !! i = Some (Some r) → m.(allocations) !! j = Some (Some q) → i ≠ j →
     apart_ivs (block static_heap m r) (block static_heap m q)) ∧
  (∀ r f, r ∈ live m → Some f ∈ m.(free_regions) → apart_ivs (alloc_iv r) (free_iv f)) ∧
  (∀ r, r ∈ live m → 0 < r.(AllocationRecord.size) ∧
     (m.(backing) ≠ BackingStore.Disabled →
      0 <= r.(AllocationRecord.offset) ∧
      r.(AllocationRecord.offset) + r.(AllocationRecord.size) <= capacity HEAP_SIZE m)) ∧
  m.(allocated_bytes) = zsum AllocationRecord.size (live m) ∧ m.(allocated_bytes) <= m.(peak_bytes).
Proof.
  intros Hok%mem_reachable_ok. pose proof (ok_core _ _ _ Hok) as Hc. split_and!.
  - intros i j r q Hi Hj Hne a [H1 H2].
    destruct (core_remove HEAP_SIZE static_heap m [] i r Hc Hi) as [_ Hp].
    apply (live_apart HEAP_SIZE static_heap m [] r _ q Hc Hp) with (a - base_address static_heap m).
    + apply elem_of_occupied, list_elem_of_lookup. exists j. cbn. by rewrite list_lookup_insert_ne.
    + unfold within, block, alloc_iv in *. cbn in *. lia.
  - intros r f (l1 & l2 & El)%list_elem_of_split Hf%fivs_elem.
    assert (live m ≡ₚ r :: l1 ++ l2) as Hp by (rewrite El; by rewrite <-Permutation_middle).
    apply (wf_apart _ _ _ _ (live_split HEAP_SIZE static_heap m [] r _ Hc Hp)), elem_of_app. by right.
  - intros r Hr. destruct (live_in HEAP_SIZE static_heap m [] r Hc Hr) as (H1 & H2 & H3).
    split; [done|]. intros Hd. destruct (co_cap _ _ _ _ Hc) as [|Hcap]; [done|]. lia.
  - apply Hok.
  - apply Hok.
Qed.

(** C37: Allocation returns an aligned block of at least the requested size that overlaps no
    live block; all live blocks stay live with their contents.  When it fails, the live
    blocks, their contents and the statistics are as before. *)
Theorem malloc_outcome {H : Type} `{!HeapBacking H, !HeapBackingLaws H} HEAP_SIZE static_heap (m : t H) owner size align :
  mem_reachable HEAP_SIZE static_heap m → 0 <= size → 0 <= align →
  match malloc_aligned_for HEAP_SIZE static_heap owner size align m with
  | (Ok p, m') => p mod Z.max align 8 = 0 ∧ m'.(bytes) = m.(bytes) ∧
      base_address static_heap m' = base_address static_heap m ∧
      ∃ r, live m' ≡ₚ r :: live m ∧ r.(AllocationRecord.owner) = owner ∧
        (block static_heap m r).1 = p ∧ size <= r.(AllocationRecord.size) < size + 8 ∧
        r.(AllocationRecord.kind) = AllocationKind.Heap ∧
        ∀ q, q ∈ live m → apart_ivs (block static_heap m r) (block static_heap m q)
  | (Err _, m') => m'.(allocations) = m.(allocations) ∧ m'.(bytes) = m.(bytes) ∧ statistics m' = statistics m
  end.
Proof.
  intros Hok%mem_reachable_ok Hs Ha.
  pose proof (malloc_aligned_spec HEAP_SIZE static_heap m owner size align Hok Hs Ha) as Hm.
  destruct (malloc_aligned_for _ _ _ _ _ m) as [[p|[]] m'].
  - destruct Hm as (_ & H1 & r & [Hok' [K1 K2 K3] Hl Hat _] & H2 & H3 & H4). split_and!; [done|done|done|].
    exists r. split_and!; [done|done|done|lia|lia|done|]. intros q Hq a [W1 W2].
    apply (live_apart HEAP_SIZE static_heap m' [] r _ q (ok_core _ _ _ Hok') Hl Hq) with (a - base_address static_heap m).
    unfold within, block, alloc_iv in *. cbn in *. lia.
  - destruct Hm as [_ [S1 S2 S3 S4 _ _]]. unfold statistics. by rewrite S3, S4.
Qed.

(** Reallocation keeps what the block holds: the first bytes of the result, up to the
    smaller of the two sizes, are those of the old block, at the old or at a new place;
    exactly that block is replaced and no other block changes.  When it fails, the old
    block and everything else is as before. *)
Theorem realloc_keeps_contents {H : Type} `{!HeapBacking H, !HeapBackingLaws H} HEAP_SIZE static_heap (m : t H) owner p n :
  mem_reachable HEAP_SIZE static_heap m → 0 < n →
  match realloc_for HEAP_SIZE static_heap owner (Some p) n m with
  | (Ok q, m') => ∃ r r' l, live m ≡ₚ r :: l ∧ live m' ≡ₚ r' :: l ∧
      matches static_heap m owner p (Some AllocationKind.Heap) None r ∧
      matches static_heap m' owner q (Some AllocationKind.Heap) (Some n) r' ∧
      (∀ i, 0 <= i < Z.min r.(AllocationRecord.size) n → byte m' (q + i) = byte m (p + i)) ∧
      (∀ x a, x ∈ l → within a (block static_heap m x) → byte m' a = byte m a)
  | (Err _, m') => m'.(allocations) = m.(allocations) ∧ m'.(bytes) = m.(bytes) ∧ statistics m' = statistics m
  end.
Proof.
  intros Hok%mem_reachable_ok Hn. pose proof (realloc_spec HEAP_SIZE static_heap m owner p n Hok Hn) as Hr.
  destruct (realloc_for _ _ _ _ _ m) as [[q|[]] m'].
  - destruct Hr as (_ & _ & r & r' & l & H1 & H2 & H3 & H4 & H5 & H6). by exists r, r', l.
  - destruct Hr as [_ [S1 S2 S3 S4 _ _]]. unfold statistics. by rewrite S3, S4.
Qed.

(** [free] succeeds exactly on the start of a live heap block of the caller.  It then
    releases that block and no other, keeps every byte of memory, and freeing the same
    pointer again is refused; when it fails, nothing changes. *)
Theorem free_exact {H : Type} `{!HeapBacking H, !HeapBackingLaws H} HEAP_SIZE static_heap (m : t H) owner p :
  mem_reachable HEAP_SIZE static_heap m → m.(backing) ≠ BackingStore.Disabled →
  let r := free_for HEAP_SIZE static_heap owner p m in
  (r.1 = true ↔ ∃ x, x ∈ live m ∧ matches static_heap m owner p (Some AllocationKind.Heap) None x) ∧
  (r.1 = true → r.2.(bytes) = m.(bytes) ∧ (free_for HEAP_SIZE static_heap owner p r.2).1 = false ∧
     ∃ x, matches static_heap m owner p (Some AllocationKind.Heap) None x ∧ live m ≡ₚ x :: live r.2 ∧
       r.2.(allocated_bytes) = m.(allocated_bytes) - x.(AllocationRecord.size)) ∧
  (r.1 = false → r.2 = m).
Proof.
  intros Hok%mem_reachable_ok Hd. unfold free_for.
  pose proof (release_spec HEAP_SIZE static_heap m owner p (Some AllocationKind.Heap) None Hok) as Hr.
  destruct (release _ _ _ _ _ _ m) as [[] m']; cbn [fst snd].
  2:{ destruct Hr as [-> Hno]. split_and!; [|done|done]. split; [done|]. intros (x & Hx & Hm). by destruct (Hno Hd x Hx). }
  destruct Hr as (Hok' & [K1 K2 K3] & x & i & Hm & Hp & _). split_and!; [|intros _|done].
  - split; [|done]. intros _. exists x. split; [rewrite Hp; apply list_elem_of_here|done].
  - split_and!; [done| |].
    + pose proof (release_spec HEAP_SIZE static_heap m' owner p (Some AllocationKind.Heap) None Hok') as Hr2.
      destruct (release _ _ _ _ _ _ m') as [[] m2]; [|done]. exfalso.
      destruct Hr2 as (_ & _ & y & j & My & Hy & _).
      assert (y ∈ live m') as Hyin by (rewrite Hy; apply list_elem_of_here).
      apply (live_apart HEAP_SIZE static_heap m [] x _ y (ok_core _ _ _ Hok) Hp Hyin) with x.(AllocationRecord.offset).
      destruct Hm as (_ & M1 & _), My as (_ & M2 & _). rewrite K2 in M2.
      destruct (live_in HEAP_SIZE static_heap m [] x (ok_core _ _ _ Hok)) as [Hsx _]; [rewrite Hp; apply list_elem_of_here|].
      destruct (live_in HEAP_SIZE static_heap m' [] y (ok_core _ _ _ Hok') Hyin) as [Hsy _].
      unfold within, alloc_iv. cbn. lia.
    + exists x. split_and!; [done|done|]. rewrite (ok_allocated _ _ _ Hok), (ok_allocated _ _ _ Hok').
      unfold size_sum. rewrite Hp. cbn. lia.
Qed.

(** When a process ends, exactly its blocks are released: every block of another
    process keeps its slot and its contents, and the statistics count what remains. *)
Theorem exit_releases_exactly {H : Type} `{!HeapBacking H, !HeapBackingLaws H} HEAP_SIZE static_heap (m : t H) owner :
  mem_reachable HEAP_SIZE static_heap m →
  let m' := release_process owner m in
  (∀ r, r ∈ live m' ↔ r ∈ live m ∧ r.(AllocationRecord.owner) ≠ owner) ∧
  (∀ i r, m.(allocations) !! i = Some (Some r) → r.(AllocationRecord.owner) ≠ owner →
     m'.(allocations) !! i = Some (Some r)) ∧
  m'.(bytes) = m.(bytes) ∧ base_address static_heap m' = base_address static_heap m ∧
  m'.(allocated_bytes) = zsum AllocationRecord.size (live m').
Proof.
  intros Hok%mem_reachable_ok m'. destruct (release_process_spec HEAP_SIZE static_heap m owner Hok) as (Hok' & [K1 K2 K3] & E).
  fold m' in Hok', K1, K2, K3, E. split_and!; [| |done|done|apply Hok'].
  - intros r. unfold live. rewrite E, !elem_of_occupied, elem_of_clear. unfold owned_by. rewrite Z.eqb_neq. done.
  - intros i r Hi Hne. rewrite E. revert i Hi. generalize m.(allocations). clear -Hne.
    induction l as [|o l IH]; intros [|i] Hi; cbn in Hi; [done|done| |].
    + injection Hi as ->. cbn. unfold owned_by. by rewrite (proj2 (Z.eqb_neq _ _)).
    + destruct o as [q|]; cbn; [destruct (owned_by owner q)|]; by apply IH.
Qed.

(** ** The kernel heap as the source of pages *)
Section kernel_heap.
Context {F : Type} `{!FrameSource F} `{!FrameSourceLaws F}.
Variables (TABLES : Z) (trees : list tree) (root : Z).

(** the heap is in good order and a condition [P] on it and its frames holds, one that
    survives when the heap grows *)
Definition tracked_ok (P : KernelHeap.t F → list Z → Prop) (h : KernelHeap.t F) (base cap committed : Z) : Prop :=
  base = KERNEL_HEAP_BASE ∧ cap = KERNEL_HEAP_RESERVED_BYTES ∧
  ∃ fs, heap_ok trees root h fs ∧ committed = 4096 * Z.of_nat (length fs) ∧ P h fs.
Definition survives (P : KernelHeap.t F → list Z → Prop) : Prop := ∀ h h' fs more,
  P h fs → heap_ok trees root h fs → heap_ok trees root h' (fs ++ more) →
  maps_only trees root h h' (length fs) (length (fs ++ more)) → P h' (fs ++ more).

Lemma tracked_grows P h base cap committed target protection : survives P →
  tracked_ok P h base cap committed → 0 <= target →
  match grow_committed TABLES base cap committed target protection h with
  | (Ok l, h') => tracked_ok P h' base cap l.(KernelHeapLayout.committed_bytes) ∧
      target <= l.(KernelHeapLayout.committed_bytes) ∧ committed <= l.(KernelHeapLayout.committed_bytes)
  | (Err _, h') => tracked_ok P h' base cap committed
  end.
Proof.
  intros HP (-> & -> & fs & Hh & -> & Hfs) Ht.
  pose proof (grow_committed_spec TABLES trees root h fs target protection Hh Ht) as Hg.
  destruct (grow_committed _ _ _ _ _ _ h) as [[l|e] h'].
  - destruct Hg as (more & Hh' & El & Hle & Hm). pose proof (ho_layout _ _ _ _ Hh') as Hl. rewrite El in Hl. subst l.
    cbn in *. split_and!; [|done|rewrite length_app; lia]. split_and!; [done|done|]. exists (fs ++ more).
    split_and!; [done|done|]. by apply (HP h h').
  - destruct Hg as [Hh' Hm]. split_and!; [done|done|]. exists fs. split_and!; [done|done|].
    rewrite <-(app_nil_r fs). apply (HP h h'); [done|done|by rewrite app_nil_r|by apply maps_only_nothing].
Qed.
Definition tracked_laws P (HP : survives P) : @HeapBackingLaws (KernelHeap.t F) (kernel_backing TABLES) :=
  @Build_HeapBackingLaws _ (kernel_backing TABLES) (tracked_ok P)
    (λ h base cap committed target protection, tracked_grows P h base cap committed target protection HP).
Definition kernel_backing_laws : @HeapBackingLaws (KernelHeap.t F) (kernel_backing TABLES) :=
  tracked_laws (λ _ _, True) (λ _ _ _ _ _ _ _ _, I).

(** an address of a committed page *)
Lemma heap_translation h fs o : heap_ok trees root h fs → 0 <= o < 4096 * Z.of_nat (length fs) →
  ∃ f, fs !! Z.to_nat (o / 4096) = Some f ∧ framed f ∧
    translate_virt (KERNEL_HEAP_BASE + o) h.(KernelHeap.paging) = Some (f + o mod 4096) ∧
    align_down (f + o mod 4096) = f.
Proof.
  intros Hh Ho. assert (0 <= o / 4096 < Z.of_nat (length fs)) as Hk
    by (split; [apply Z.div_pos; lia|apply Z.div_lt_upper_bound; lia]).
  destruct (lookup_lt_is_Some_2 fs (Z.to_nat (o / 4096))) as [f Hf]; [lia|].
  destruct (ho_held _ _ _ _ Hh f) as ([Hg _] & _); [by eapply list_elem_of_lookup_2|].
  destruct (ho_mapped _ _ _ _ Hh _ _ Hf) as (e & He & Hef). pose proof (Z.mod_pos_bound o 4096 eq_refl) as Hm.
  exists f. split_and!; [done|done| |].
  - rewrite (translate_virt_page _ root) by apply (ho_paging _ _ _ _ Hh).
    rewrite (page_of_same _ _ _ (heap_va KERNEL_HEAP_BASE 0 (Z.to_nat (o / 4096)))).
    + unfold kpage in He. rewrite He. cbn [fmap option_fmap option_map]. rewrite Hef, page_offset_mod.
      rewrite Z.add_mod, (eq_refl : KERNEL_HEAP_BASE mod 4096 = 0), Z.add_0_l, Z.mod_mod by done.
      by rewrite frame_offset by (done || lia).
    + apply same_page_number. unfold page_number, heap_va. f_equal. rewrite Z2Nat.id, Z.add_0_r by lia.
      change KERNEL_HEAP_BASE with (KERNEL_HEAP_BASE / 4096 * 4096). 
      rewrite (Z.add_comm _ o), Z.div_add, (Z.mul_comm 4096 (o / 4096)), Z.div_add by done.
      rewrite Z.div_mul by done. lia.
  - rewrite <-frame_offset by (done || lia). apply align_down_frame; [done|lia].
Qed.
End kernel_heap.

(** C13: Every byte of a live block of the kernel heap is backed by memory of its own: its
    address translates to a physical address whose frame is neither spare nor a page table,
    and no other byte of any live block translates to it. *)
Theorem heap_blocks_backed {F : Type} `{!FrameSource F, !FrameSourceLaws F} TABLES trees root HEAP_SIZE static_heap
    (m : t (KernelHeap.t F)) base cap committed frames :
  @mem_reachable _ (kernel_backing TABLES) (kernel_backing_laws TABLES trees root) HEAP_SIZE static_heap m →
  m.(backing) = BackingStore.Virtual base cap committed frames →
  ∀ r a, r ∈ live m → within a (block static_heap m r) →
  ∃ phys, translate_virt a m.(pages).(KernelHeap.paging) = Some phys ∧
    ¬ spare m.(pages).(KernelHeap.paging).(Paging.frames) (align_down phys) ∧
    ¬ is_table trees m.(pages).(KernelHeap.paging) (align_down phys) ∧
    ∀ r' a', r' ∈ live m → within a' (block static_heap m r') →
      translate_virt a' m.(pages).(KernelHeap.paging) = Some phys → a' = a.
Proof.
  intros Hok%mem_reachable_ok Eb. pose proof (ok_core _ _ _ Hok) as Hc. pose proof (co_back _ _ _ _ Hc) as Hk.
  rewrite Eb in Hk. destruct Hk as ((-> & -> & fs & Hh & -> & _) & _ & _ & _ & Hin).
  assert (∀ r a, r ∈ live m → within a (block static_heap m r) →
    ∃ o, a = KERNEL_HEAP_BASE + o ∧ 0 <= o < 4096 * Z.of_nat (length fs)) as Hoff.
  { intros r a Hr Hw. pose proof (Hin r Hr). destruct (live_in HEAP_SIZE static_heap m [] r Hc Hr) as (_ & H0 & _).
    unfold within, block, base_address in Hw. rewrite Eb in Hw. cbn in Hw. exists (a - KERNEL_HEAP_BASE). lia. }
  intros r a Hr Hw. destruct (Hoff r a Hr Hw) as (o & -> & Ho).
  destruct (heap_translation trees root _ fs o Hh Ho) as (f & Hf & Hfr & Htr & Had).
  destruct (ho_held _ _ _ _ Hh f) as (_ & Hns & Hnt); [by eapply list_elem_of_lookup_2|].
  eexists. split; [done|]. rewrite Had. split_and!; [done|done|].
  intros r' a' Hr' Hw' Htr'. destruct (Hoff r' a' Hr' Hw') as (o' & -> & Ho').
  destruct (heap_translation trees root _ fs o' Hh Ho') as (f' & Hf' & _ & Htr2 & Had').
  rewrite Htr' in Htr2. injection Htr2 as E.
  assert (f' = f) as -> by (rewrite <-Had, <-Had', E; done).
  pose proof (NoDup_lookup _ _ _ _ (ho_nodup _ _ _ _ Hh) Hf Hf') as Ei.
  assert (0 <= o / 4096 ∧ 0 <= o' / 4096) by (split; apply Z.div_pos; lia).
  pose proof (Z.div_mod o 4096). pose proof (Z.div_mod o' 4096). lia.
Qed.

(** ** Examples: a heap whose pages are mapped on demand *)
Definition mem_pages : KernelHeap.t PhysicalFrameAllocator.t := KernelHeap.mk demo_paging None.
#[local] Instance mem_backing : HeapBacking (KernelHeap.t PhysicalFrameAllocator.t) := kernel_backing 0.
#[local] Instance mem_laws : HeapBackingLaws (KernelHeap.t PhysicalFrameAllocator.t) :=
  kernel_backing_laws 0 [kernel_tree 0] 0.
Definition mem_start : t (KernelHeap.t PhysicalFrameAllocator.t) :=
  promote_to_virtual_heap KERNEL_HEAP_BASE KERNEL_HEAP_RESERVED_BYTES 0 0 (new 8 mem_pages).
(** two blocks of process 7 and one of process 9 *)
Definition mem_blocks : t (KernelHeap.t PhysicalFrameAllocator.t) :=
  run_mem 4096 65536 (MemCall.Malloc 9 16)
    (run_mem 4096 65536 (MemCall.Malloc 7 24) (run_mem 4096 65536 (MemCall.Malloc 7 100) mem_start)).
Lemma mem_pages_ok : heap_ok [kernel_tree 0] 0 mem_pages [].
Proof.
  split; [apply demo_kernel_ok|done|cbn; lia|constructor|by intros f ?%elem_of_nil|done|].
  intros k _. unfold kpage, page_of, pte. cbn [KernelHeap.paging mem_pages]. 
  destruct (walk _ _ _ _) as [g|] eqn:Hw; [|done]. by apply empty_walk in Hw as [Hw _].
Qed.
Lemma mem_start_reachable : mem_reachable 4096 65536 mem_start.
Proof.
  apply mem_promote; [by apply mem_new| |done|done|done].
  split; [done|]. split; [done|]. exists []. split; [apply mem_pages_ok|done].
Qed.
Lemma mem_blocks_reachable : mem_reachable 4096 65536 mem_blocks.
Proof. repeat (apply mem_call; [|done]). apply mem_start_reachable. Qed.

Lemma memory_invariant_witness : mem_blocks.(allocated_bytes) = 144 ∧
  apart_ivs (KERNEL_HEAP_BASE, 104) (KERNEL_HEAP_BASE + 104, 24).
Proof.
  destruct (memory_invariant 4096 65536 mem_blocks mem_blocks_reachable) as (H1 & _ & _ & -> & _).
  split; [by vm_compute|]. apply (H1 0%nat 1%nat
    (AllocationRecord.new 7 0 104 AllocationKind.Heap read_write)
    (AllocationRecord.new 7 104 24 AllocationKind.Heap read_write)); [by vm_compute|by vm_compute|done].
Defined.

Definition mem_first : AllocationRecord.t := AllocationRecord.new 7 0 104 AllocationKind.Heap read_write.

Lemma malloc_outcome_witness : ∃ p m', malloc_aligned_for 4096 65536 9 10 64 mem_blocks = (Ok p, m') ∧ p mod 64 = 0 ∧
  ∃ r, live m' ≡ₚ r :: live mem_blocks ∧ ∀ q, q ∈ live mem_blocks → apart_ivs (block 65536 mem_blocks r) (block 65536 mem_blocks q).
Proof.
  pose proof (malloc_outcome 4096 65536 mem_blocks 9 10 64 mem_blocks_reachable ltac:(lia) ltac:(lia)) as Hm.
  assert (is_ok (malloc_aligned_for 4096 65536 9 10 64 mem_blocks).1 = true) as E by by vm_compute.
  destruct (malloc_aligned_for 4096 65536 9 10 64 mem_blocks) as [[p|] m']; [|done].
  destruct Hm as (H1 & _ & _ & r & H2 & _ & _ & _ & _ & H3). exists p, m'. split; [done|]. split; [exact H1|].
  by exists r.
Defined.

Lemma realloc_keeps_contents_witness : ∃ q m', realloc_for 4096 65536 7 (Some KERNEL_HEAP_BASE) 200 mem_blocks = (Ok q, m') ∧
  ∃ r, matches 65536 mem_blocks 7 KERNEL_HEAP_BASE (Some AllocationKind.Heap) None r ∧
    ∀ i, 0 <= i < Z.min r.(AllocationRecord.size) 200 → byte m' (q + i) = byte mem_blocks (KERNEL_HEAP_BASE + i).
Proof.
  pose proof (realloc_keeps_contents 4096 65536 mem_blocks 7 KERNEL_HEAP_BASE 200 mem_blocks_reachable ltac:(lia)) as Hm.
  assert (is_ok (realloc_for 4096 65536 7 (Some KERNEL_HEAP_BASE) 200 mem_blocks).1 = true) as E by by vm_compute.
  destruct (realloc_for 4096 65536 7 (Some KERNEL_HEAP_BASE) 200 mem_blocks) as [[q|] m']; [|done].
  destruct Hm as (r & r' & l & _ & _ & H1 & _ & H2 & _). exists q, m'. split; [done|]. by exists r.
Defined.

Lemma free_exact_witness : (free_for 4096 65536 7 KERNEL_HEAP_BASE mem_blocks).1 = true ∧
  (free_for 4096 65536 7 KERNEL_HEAP_BASE (free_for 4096 65536 7 KERNEL_HEAP_BASE mem_blocks).2).1 = false.
Proof.
  assert (mem_blocks.(backing) ≠ BackingStore.Disabled) as Hd by by vm_compute.
  destruct (free_exact 4096 65536 mem_blocks 7 KERNEL_HEAP_BASE mem_blocks_reachable Hd) as (_ & H2 & _).
  assert ((free_for 4096 65536 7 KERNEL_HEAP_BASE mem_blocks).1 = true) as E by by vm_compute.
  split; [exact E|]. exact (proj1 (proj2 (H2 E))).
Defined.

Lemma exit_releases_exactly_witness : (release_process 7 mem_blocks).(allocated_bytes) = 16 ∧
  mem_first ∉ live (release_process 7 mem_blocks).
Proof.
  destruct (exit_releases_exactly 4096 65536 mem_blocks 7 mem_blocks_reachable) as (H1 & _ & _ & _ & H2).
  split; [rewrite H2; by vm_compute|]. intros Hin.
  destruct (proj1 (H1 mem_first) Hin) as [_ Hne]. exact (Hne eq_refl).
Defined.

Lemma heap_blocks_backed_witness : ∃ phys,
  translate_virt (KERNEL_HEAP_BASE + 5) mem_blocks.(pages).(KernelHeap.paging) = Some phys ∧
  ¬ spare mem_blocks.(pages).(KernelHeap.paging).(Paging.frames) (align_down phys).
Proof.
  destruct (heap_blocks_backed 0 [kernel_tree 0] 0 4096 65536 mem_blocks KERNEL_HEAP_BASE KERNEL_HEAP_RESERVED_BYTES 4096 1
    mem_blocks_reachable ltac:(by vm_compute) mem_first (KERNEL_HEAP_BASE + 5)) as (phys & H1 & H2 & _).
  - apply elem_of_occupied, list_elem_of_lookup. exists 0%nat. by vm_compute.
  - by vm_compute.
  - exists phys. split; [exact H1|exact H2].
Defined.

(** A block that was allocated with a large alignment and grows through Rust's allocator
    moves to an address that is only aligned to eight bytes. *)
Lemma global_realloc_loses_alignment :
  let a := global_alloc 4096 65536 64 64 mem_start in
  let b := global_alloc 4096 65536 8 8 a.2 in
  let q := (global_realloc 4096 65536 a.1 128 b.2).1 in
  a.1 mod 64 = 0 ∧ q ≠ 0 ∧ q mod 64 = 8.
Proof. by vm_compute. Qed.
