(* ===== verification/AddressSpaces.v ===== *)
(** * User address spaces

    The tables of address spaces and of user mappings of src/src/kernel/memory.rs, with the
    system's copies to and from user memory.  A user mapping is a block of kernel memory
    from the memory manager whose frames are also mapped into the address space: the kernel
    reaches it through [kernel_start], the user through the page tables. *)

From stdpp Require Import prelude gmap.
From S2P Require Import Prelude Slots Subkernel FrameAllocator Paging KernelHeap MemoryManager.

Local Open Scope Z_scope.

Definition MAX_ADDRESS_SPACES : nat := 64.
Definition MAX_USER_MAPPINGS : nat := 2048.

Module AddressSpace.
Record t : Type := mk { owner : Z; root : Z; references : Z }.
End AddressSpace.

Module UserMappingRecord.
Record t : Type := mk {
  owner : Z; root : Z; user_start : Z; kernel_start : Z; length_ : Z;
  protection : MemoryProtection.t
}.
Definition contains (r : t) (root_ address len : Z) (write : bool) : bool :=
  if negb (r.(root) =? root_) || (write && negb r.(protection).(MemoryProtection.write)) then false
  else
    match checked_add 64 address len with
    | None => false
    | Some end_ =>
        (r.(user_start) <=? address) && (end_ <=? sat_add 64 r.(user_start) r.(length_))
    end.
End UserMappingRecord.

Abbreviation paging_create := create_user_address_space.
Abbreviation paging_destroy := destroy_user_address_space.

Module AddressSpaces.
Record t (F : Type) : Type := mk {
  manager : MemoryManager.t (KernelHeap.t F);
  spaces : list (option AddressSpace.t);
  mappings : list (option UserMappingRecord.t)
}.
Arguments mk {F} _ _ _.
Arguments manager {F} _.
Arguments spaces {F} _.
Arguments mappings {F} _.

Section address_spaces.
Context {F : Type} `{!FrameSource F}.
Variables (TABLES HEAP_SIZE static_heap : Z).
Implicit Types s : t F.
Abbreviation Opt := (M (t F) unit).
#[local] Instance heap_backing : HeapBacking (KernelHeap.t F) := kernel_backing TABLES.

Definition paging s : Paging.t F := s.(manager).(MemoryManager.pages).(KernelHeap.paging).
Definition set_manager m s : t F := mk m s.(spaces) s.(mappings).
Definition set_spaces v s : t F := mk s.(manager) v s.(mappings).
Definition set_mappings v s : t F := mk s.(manager) s.(spaces) v.
Definition set_paging (p : Paging.t F) s : t F :=
  set_manager (MemoryManager.set_backing s.(manager).(MemoryManager.backing)
    (KernelHeap.mk p s.(manager).(MemoryManager.pages).(KernelHeap.layout)) s.(manager)) s.

Definition on_paging {A} (m : M (Paging.t F) unit A) : Opt A := λ s,
  let '(r, p) := m (paging s) in (r, set_paging p s).
Definition on_manager {A} (m : M (MemoryManager.t (KernelHeap.t F)) unit A) : Opt A := λ s,
  let '(r, m) := m s.(manager) in (r, set_manager m s).
Definition munmap_ptr_for (owner ptr length_ : Z) : Opt unit :=
  modify (λ s, set_manager (MemoryManager.munmap_ptr_for HEAP_SIZE static_heap owner ptr length_ s.(manager)).2 s).
Definition munmap (region : MappedRegion.t) : Opt unit :=
  munmap_ptr_for region.(MappedRegion.owner) region.(MappedRegion.ptr) region.(MappedRegion.length_).

(** ** Address spaces *)
Definition create_user_address_space (owner : Z) : Opt Z :=
  root ← on_paging paging_create;
  table ← gets spaces;
  match free_slot table with
  | Some idx =>
      _ ← modify (set_spaces (<[idx := Some (AddressSpace.mk owner root 1)]> table));
      mret root
  | None =>
      _ ← on_paging (paging_destroy root);
      throw tt
  end.

Definition has_root (root : Z) (space : AddressSpace.t) : bool := space.(AddressSpace.root) =? root.
Definition share_user_address_space (root : Z) : Opt Z :=
  if root =? 0 then throw tt
  else
    table ← gets spaces;
    match find_slot (has_root root) table with
    | Some idx =>
        match default None (table !! idx) with
        | Some space =>
            _ ← modify (set_spaces (<[idx := Some (AddressSpace.mk space.(AddressSpace.owner)
                  space.(AddressSpace.root) (sat_add 64 space.(AddressSpace.references) 1))]> table));
            mret root
        | None => throw tt
        end
    | None => throw tt
    end.

(** one slot of the second loop of [destroy_user_address_space] *)
Definition release_mapping (root : Z) (idx : nat) : Opt unit :=
  table ← gets mappings;
  match default None (table !! idx) with
  | Some mapping =>
      if mapping.(UserMappingRecord.root) =? root then
        _ ← modify (set_mappings (<[idx := None]> table));
        if mapping.(UserMappingRecord.kernel_start) =? 0 then mret tt
        else munmap_ptr_for mapping.(UserMappingRecord.owner)
               mapping.(UserMappingRecord.kernel_start) mapping.(UserMappingRecord.length_)
      else mret tt
  | None => mret tt
  end.
Definition release_mappings (root : Z) : Opt unit :=
  table ← gets mappings;
  mfor (seq 0 (length table)) (release_mapping root).
Definition destroy_user_address_space (root : Z) : Opt unit :=
  if root =? 0 then mret tt
  else
    table ← gets spaces;
    match find_slot (has_root root) table ≫= λ idx, default None (table !! idx) ≫= λ space, Some (idx, space) with
    | Some (idx, space) =>
        if 1 <? space.(AddressSpace.references) then
          modify (set_spaces (<[idx := Some (AddressSpace.mk space.(AddressSpace.owner)
            space.(AddressSpace.root) (space.(AddressSpace.references) - 1))]> table))
        else
          _ ← modify (set_spaces (<[idx := None]> table));
          _ ← release_mappings root;
          on_paging (paging_destroy root)
    | None => release_mappings root
    end.

(** ** User mappings *)
(** the physical address behind a kernel address *)
Definition kernel_physical (p : Paging.t F) (kernel_va : Z) : Z :=
  default (AddressTranslator.physical_for_virtual p.(Paging.active_translator) kernel_va)
    (translate_virt kernel_va p).
(** one page of [mmap_user_fixed] *)
Definition map_block_page (root virtual_address : Z) (region : MappedRegion.t)
    (protection : MemoryProtection.t) (offset : Z) : Opt unit :=
  on_paging (
    let kernel_va := region.(MappedRegion.ptr) + offset in
    physical ← gets (λ p, kernel_physical p kernel_va);
    map_user_page root (virtual_address + offset) physical protection).

Definition mmap_user_fixed (owner address_space_root virtual_address length_ : Z)
    (protection : MemoryProtection.t) : Opt MappedRegion.t :=
  if (address_space_root =? 0) || (length_ =? 0)
     || negb (Z.land virtual_address (PAGE_SIZE - 1) =? 0) then throw tt
  else
    end_ ← lift (ok_or (checked_add 64 virtual_address length_) tt);
    if USER_LIMIT <? end_ then throw tt
    else
      let actual_size := align_up_u64 length_ in
      region ← on_manager (MemoryManager.mmap_for HEAP_SIZE static_heap owner actual_size protection);
      _ ← catch (mfor (page_offsets 0 actual_size)
             (map_block_page address_space_root virtual_address region protection))
            (λ _ : unit, _ ← munmap region; throw tt);
      table ← gets mappings;
      match free_slot table with
      | Some idx =>
          _ ← modify (set_mappings (<[idx := Some (UserMappingRecord.mk owner address_space_root
                virtual_address region.(MappedRegion.ptr) actual_size protection)]> table));
          mret region
      | None =>
          _ ← munmap region;
          throw tt
      end.

(** one slot of the loop of [clone_user_address_space], over the mappings before it *)
Definition clone_mapping (owner parent_root child_root : Z) (mapping : option UserMappingRecord.t)
    : Opt unit :=
  match mapping with
  | Some mapping =>
      if mapping.(UserMappingRecord.root) =? parent_root then
        child ← mmap_user_fixed owner child_root mapping.(UserMappingRecord.user_start)
                  mapping.(UserMappingRecord.length_) mapping.(UserMappingRecord.protection);
        modify (λ s, set_manager (MemoryManager.set_bytes (copy_nonoverlapping
          mapping.(UserMappingRecord.kernel_start) child.(MappedRegion.ptr)
          mapping.(UserMappingRecord.length_) s.(manager).(MemoryManager.bytes)) s.(manager)) s)
      else mret tt
  | None => mret tt
  end.
Definition clone_user_address_space (owner parent_root : Z) : Opt Z :=
  if parent_root =? 0 then create_user_address_space owner
  else
    child_root ← create_user_address_space owner;
    table ← gets mappings;
    _ ← mfor table (clone_mapping owner parent_root child_root);
    mret child_root.

Definition find_user_mapping s (address_space_root user_address length_ : Z) (write : bool)
    : option MappedRegion.t :=
  mapping ← slot_find (λ r, UserMappingRecord.contains r address_space_root user_address length_ write)
              s.(mappings);
  if mapping.(UserMappingRecord.kernel_start) =? 0 then None
  else Some (MappedRegion.mk mapping.(UserMappingRecord.owner) mapping.(UserMappingRecord.kernel_start)
         mapping.(UserMappingRecord.length_) mapping.(UserMappingRecord.length_)
         mapping.(UserMappingRecord.protection) AllocationKind.Mapping).
Definition find_user_mapping_protection s (address_space_root user_address length_ : Z)
    : option MemoryProtection.t :=
  UserMappingRecord.protection <$>
    slot_find (λ r, UserMappingRecord.contains r address_space_root user_address length_ false)
      s.(mappings).

(** the roots of a process, at most as many as there are slots *)
Definition roots_of (owner : Z) (table : list (option AddressSpace.t)) : list Z :=
  AddressSpace.root <$> filter (λ space, space.(AddressSpace.owner) = owner) (occupied table).
Definition release_process (owner : Z) : Opt unit :=
  table ← gets spaces;
  _ ← mfor (roots_of owner table) destroy_user_address_space;
  modify (λ s, set_manager (MemoryManager.release_process owner s.(manager)) s).

(** ** User memory *)
Definition active_translated_slice s (root ptr len : Z) (write : bool) : option Z :=
  if len =? 0 then Some 1
  else
    mapping ← slot_find (λ r, UserMappingRecord.contains r root ptr len write) s.(mappings);
    let offset := sat_sub ptr mapping.(UserMappingRecord.user_start) in
    let address := mapping.(UserMappingRecord.kernel_start) + offset in
    if address =? 0 then None else Some address.
Definition validate_user_range s (root ptr len : Z) (write : bool) : bool :=
  if len =? 0 then true else bool_decide (is_Some (active_translated_slice s root ptr len write)).

(** the bytes of memory from an address on *)
Definition load (bytes : gmap Z Z) (address : Z) (len : nat) : list Z :=
  (λ i, default 0 (bytes !! (address + i))) <$> seqZ 0 (Z.of_nat len).
Fixpoint store (address : Z) (data : list Z) (bytes : gmap Z Z) : gmap Z Z :=
  match data with
  | [] => bytes
  | b :: data' => store (address + 1) data' (<[address := b]> bytes)
  end.
Definition write_memory (address : Z) (data : list Z) s : t F :=
  set_manager (MemoryManager.set_bytes (store address data s.(manager).(MemoryManager.bytes)) s.(manager)) s.

Definition copy_from_user s (root ptr : Z) (out : list Z) : bool * list Z :=
  match active_translated_slice s root ptr (Z.of_nat (length out)) false with
  | None => (false, out)
  | Some src => (true, load s.(manager).(MemoryManager.bytes) src (length out))
  end.
Definition copy_to_user s (root ptr : Z) (input : list Z) : bool * t F :=
  match active_translated_slice s root ptr (Z.of_nat (length input)) true with
  | None => (false, s)
  | Some dst => (true, write_memory dst input s)
  end.

(** ** Boot *)
Definition new (frames : F) (cr3 : Z) (max_areas : nat) : t F :=
  mk (MemoryManager.new max_areas (KernelHeap.mk (Paging.initial frames cr3) None))
    (replicate MAX_ADDRESS_SPACES None) (replicate MAX_USER_MAPPINGS None).

Definition disable_static_heap s : t F := set_manager (MemoryManager.disable_static_heap s.(manager)) s.
(** the last step of [initialize_from_boot_info] *)
Definition start_heap s : t F :=
  let m := s.(manager) in
  match initialize_heap TABLES m.(MemoryManager.pages) with
  | (Ok layout, h) =>
      set_manager (MemoryManager.promote_to_virtual_heap layout.(KernelHeapLayout.base)
        layout.(KernelHeapLayout.reserved_bytes) layout.(KernelHeapLayout.committed_bytes)
        layout.(KernelHeapLayout.frame_count) (MemoryManager.set_backing m.(MemoryManager.backing) h m)) s
  | (Err _, h) =>
      disable_static_heap (set_manager (MemoryManager.set_backing m.(MemoryManager.backing) h m) s)
  end.
End address_spaces.

(** [initialize_from_boot_info]; the other arguments are those of [ingest_boot_info] *)
Definition initialize_from_boot_info (TABLES : Z) (boot_info : BootInfo.t) (tables : Z * Z) (stack_virtual : Z)
    (memory : Z → list FrameState.t) (s : t PhysicalFrameAllocator.t) : t PhysicalFrameAllocator.t :=
  match PhysicalFrameAllocator.ingest_boot_info boot_info tables stack_virtual memory
          (paging s).(Paging.frames) with
  | (Err _, frames) => disable_static_heap (set_paging (Paging.set_frames frames (paging s)) s)
  | (Ok _, frames) =>
      let s := set_paging (Paging.set_frames frames (paging s)) s in
      match enable_frame_backed_mapping boot_info (paging s) with
      | (Err _, p) => disable_static_heap (set_paging p s)
      | (Ok _, p) => start_heap TABLES (set_paging p s)
      end
  end.
End AddressSpaces.
