(* ===== verification/AddressSpaceSafety.v ===== *)
(** * User memory is kernel-heap memory

    The invariant of the address-space tables: the page tables of the live address spaces
    are apart, the kernel heap's frames are in good order, and every page a user can reach
    is one of them.  Each operation of src/src/kernel/memory.rs preserves it, also where it
    fails half-way. *)

From stdpp Require Import prelude gmap.
From S2P Require Import Prelude Slots Subkernel FrameAllocator FrameSafety Paging PagingSafety PagingTheorems KernelHeap KernelHeapSafety MemoryManager MemoryManagerSafety MemoryTheorems AddressSpaces.

Local Open Scope Z_scope.

Lemma filter_absent {A} `{!EqDecision A} (x : A) (l : list A) : x ∉ l → filter (λ y, y ≠ x) l = l.
Proof.
  induction l as [|y l IH]; intros Hx; [done|]. apply not_elem_of_cons in Hx as [Hne Hx].
  rewrite filter_cons_True by naive_solver. by rewrite IH.
Qed.

(** ** Steps of the page tables *)
Section steps.
Context {F : Type} `{!FrameSource F} `{!FrameSourceLaws F}.
Variable kroot : Z.
Implicit Types (p : Paging.t F) (trees : list tree) (fs : list Z).

(** a table of a user address space *)
Definition user_table p trees (f : Z) : Prop :=
  ∃ root q, user_tree root ∈ trees ∧ has_table p (user_tree root) q f.
(** the frame is not in use for user address spaces and will not be *)
Definition away p trees (f : Z) : Prop := ¬ spare p.(Paging.frames) f ∧ ¬ user_table p trees f.

(** tables come from spare frames, and the tables of address spaces become spare; the
    kernel's pages stay *)
Record pstep trees p trees' p' : Prop := {
  ps_ok : kernel_ok p' trees' kroot;
  ps_env : same_env p p';
  ps_spare : ∀ f, spare p'.(Paging.frames) f → spare p.(Paging.frames) f ∨ user_table p trees f;
  ps_tables : ∀ t q f, t ∈ trees' → has_table p' t q f →
    t ∈ trees ∧ has_table p t q f ∨ spare p.(Paging.frames) f ∨ user_table p trees f;
  ps_kernel : ∀ va, page_of p' (kernel_tree kroot) va = page_of p (kernel_tree kroot) va
}.

Lemma pstep_refl trees p : kernel_ok p trees kroot → pstep trees p trees p.
Proof. intros Hk. split; [done|apply same_env_refl|by left|by left|done]. Qed.
Lemma pstep_trans t1 p1 t2 p2 t3 p3 : pstep t1 p1 t2 p2 → pstep t2 p2 t3 p3 → pstep t1 p1 t3 p3.
Proof.
  intros [A1 A2 A3 A4 A5] [B1 B2 B3 B4 B5].
  assert (∀ f, user_table p2 t2 f → spare p1.(Paging.frames) f ∨ user_table p1 t1 f) as Hut.
  { intros f (root & q & Ht & Hq). apply A4 in Hq as [[Ht1 Hq]|Hq]; [|done|done]. right. by exists root, q. }
  split.
  - done.
  - by eapply same_env_trans.
  - intros f [Hf|Hf]%B3; [by apply A3|by apply Hut].
  - intros t q f Ht Hq. apply B4 in Hq as [[Ht2 Hq]|[Hf|Hf]]; [by apply A4| | |done]; right; [by apply A3|by apply Hut].
  - intros va. by rewrite B5, A5.
Qed.

Lemma away_step trees p trees' p' f : pstep trees p trees' p' → away p trees f → away p' trees' f.
Proof.
  intros [_ _ H1 H2 _] [Hs Ht]. split.
  - by intros [?|?]%H1.
  - intros (root & q & Htr & Hq). apply H2 in Hq as [[Htr2 Hq]|[Hq|Hq]]; [|done|done|done].
    apply Ht. by exists root, q.
Qed.

Lemma heap_ok_step trees h fs trees' p' : heap_ok trees kroot h fs →
  pstep trees h.(KernelHeap.paging) trees' p' → heap_ok trees' kroot (KernelHeap.mk p' h.(KernelHeap.layout)) fs.
Proof.
  intros [H1 H2 H3 H4 H5 H6 H7] [P1 P2 P3 P4 P5]. split; cbn [KernelHeap.paging KernelHeap.layout];
    [done|done|done|done| | |].
  - intros f Hf. destruct (H5 f Hf) as (Hg & Hs & Ht).
    assert (¬ user_table h.(KernelHeap.paging) trees f) as Hu.
    { intros (root & q & Htr & Hq). apply Ht. by exists (user_tree root), q. }
    split_and!; [done|by intros [?|?]%P3|]. intros (t & q & Htr & Hq).
    apply P4 in Hq as [[Htr2 Hq]|[?|?]]; [|done|done|done]. apply Ht. by exists t, q.
  - intros k f Hk. unfold kpage. rewrite P5. by apply H6.
  - intros k Hk. unfold kpage. rewrite P5. by apply H7.
Qed.

Lemma kernel_ok_cons p p' trees trees' : kernel_ok p trees kroot → paging_ok p' trees' → same_env p p' →
  kernel_tree kroot ∈ trees' → kernel_ok p' trees' kroot.
Proof.
  intros [_ _ H3 H4 H5] Hok (E1 & E2 & _ & _ & E5 & _) Ht. split; [done|done|congruence|congruence|congruence].
Qed.

(** the pages of the user address spaces *)
Definition upage p (root va : Z) : option Z := page_of p (user_tree root) va.
(** every one of them is one of the frames *)
Definition user_pages_in fs trees p : Prop := ∀ root va e, user_tree root ∈ trees → 0 <= va < USER_LIMIT →
  upage p root va = Some e → Z.land e ADDRESS_MASK ∈ fs.

Lemma grown_step trees p p' : kernel_ok p trees kroot → grown p trees p' →
  pstep trees p trees p' ∧
  ∀ root va, user_tree root ∈ trees → 0 <= va < USER_LIMIT → upage p' root va = upage p root va.
Proof.
  intros Hk Hg. pose proof Hg as (Hok & [E1 E2 E3 E4 E5]). split.
  - split.
    + by eapply grown_kernel_ok.
    + done.
    + intros f Hf. left. by apply E5.
    + intros t q f Ht Hq. apply E4 in Hq as [Hq|Hq]; [by left|right; by left|done].
    + intros va. apply E2; [apply (ko_tree _ _ _ Hk)|apply kernel_path].
  - intros root va Ht Hva. apply E2; [done|by apply user_path].
Qed.

Lemma same_user_page va va2 : 0 <= va < USER_LIMIT → 0 <= va2 < USER_LIMIT → va mod 4096 = 0 →
  same_page va2 va ↔ va <= va2 < va + 4096.
Proof.
  unfold USER_LIMIT. intros H1 H2 Hm. rewrite same_page_number. unfold page_number.
  assert (∀ x, 0 <= x < 2 ^ 47 → (x / 4096) mod 2 ^ 36 = x / 4096) as Hd.
  { intros x Hx. apply Z.mod_small. split; [apply Z.div_pos; lia|apply Z.div_lt_upper_bound; lia]. }
  rewrite !Hd by done. pose proof (Z.div_mod va 4096). pose proof (Z.div_mod va2 4096).
  pose proof (Z.mod_pos_bound va2 4096). lia.
Qed.

(** the entry of a user page *)
Definition user_entry (protection : MemoryProtection.t) (f : Z) : Z := Z.lor f (user_flags_from_protection protection).

Lemma map_user_step trees p root va f protection : kernel_ok p trees kroot → user_tree root ∈ trees →
  0 <= va → framed f →
  match map_user_page root va f protection p with
  | (Ok _, p') => pstep trees p trees p' ∧ va < USER_LIMIT ∧ va mod 4096 = 0 ∧
      ∀ root2 va2, user_tree root2 ∈ trees → 0 <= va2 < USER_LIMIT → upage p' root2 va2 =
        if decide (root2 = root ∧ va <= va2 < va + 4096) then Some (user_entry protection f)
        else upage p root2 va2
  | (Err _, p') => pstep trees p trees p' ∧
      ∀ root2 va2, user_tree root2 ∈ trees → 0 <= va2 < USER_LIMIT → upage p' root2 va2 = upage p root2 va2
  end.
Proof.
  intros Hk Ht Hva Hf. pose proof (map_user_page_spec p trees root va f protection (ko_ok _ _ _ Hk) Ht Hva) as Hm.
  destruct (map_user_page root va f protection p) as [[[]|[]] p']; [|by apply grown_step].
  destruct Hm as (Hr & Hlim & Hal & Hset). pose proof (sets_kernel_ok _ _ _ _ _ _ _ Hk Hset) as Hk'.
  destruct Hset as (_ & Henv & Htab & Hsp & Hpages). rewrite page_offset_mod in Hal.
  split_and!; [|done|done|].
  - split; [done|done|intros g Hg; left; by apply Hsp| |].
    + intros t q g Htr Hq. apply Htab in Hq as [Hq|Hq]; [by left|right; by left|done].
    + intros va2. rewrite Hpages; [|apply (ko_tree _ _ _ Hk)|apply kernel_path].
      rewrite decide_False; [done|]. intros [E _]. by apply user_kernel_ne in E.
  - intros root2 va2 Ht2 Hva2. unfold upage. rewrite Hpages by (done || by apply user_path).
    rewrite Hf. fold (user_entry protection f).
    assert (present (user_entry protection f) = true) as ->.
    { unfold user_entry. destruct (user_flags_spec protection) as (_ & Hp & _). by apply present_lor. }
    apply decide_ext. rewrite same_user_page by done. unfold user_tree. split; [intros [[= ->] ?]; done|by intros [-> ?]].
Qed.

Lemma create_step trees p : kernel_ok p trees kroot →
  match paging_create p with
  | (Ok f, p') => pstep trees p (user_tree f :: trees) p' ∧ user_tree f ∉ trees ∧
      spare p.(Paging.frames) f ∧ ¬ spare p'.(Paging.frames) f ∧
      (∀ va, 0 <= va < USER_LIMIT → upage p' f va = None) ∧
      ∀ root va, user_tree root ∈ trees → 0 <= va < USER_LIMIT → upage p' root va = upage p root va
  | (Err _, p') => pstep trees p trees p' ∧
      ∀ root va, user_tree root ∈ trees → 0 <= va < USER_LIMIT → upage p' root va = upage p root va
  end.
Proof.
  intros Hk. pose proof (create_spec p trees kroot Hk) as Hc.
  destruct (paging_create p) as [[f|[]] p']; [|apply grown_step; [done|by destruct Hc]].
  destruct Hc as (Hok & Henv & Hne & Hnew & Hnone & Hold & _ & Htab & Hsp & Hf).
  split_and!; [|done|done|by intros [_ ?]%Hsp|done|].
  - split.
    + eapply kernel_ok_cons; [done|done|done|]. apply list_elem_of_further, (ko_tree _ _ _ Hk).
    + done.
    + intros g [Hg _]%Hsp. by left.
    + intros t q g Ht Hq. apply Htab in Hq as [->|Hq]; [right; by left|by left|done].
    + intros va. apply Hold; [apply (ko_tree _ _ _ Hk)|apply kernel_path].
  - intros root va Ht Hva. apply Hold; [done|by apply user_path].
Qed.

Lemma destroy_step trees p root : kernel_ok p trees kroot → user_tree root ∈ trees → root ≠ 0 →
  root ≠ p.(Paging.kernel_pml4_physical) →
  ∃ p', paging_destroy root p = (Ok tt, p') ∧ pstep trees p (filter (λ t, t ≠ user_tree root) trees) p' ∧
    ∀ root2 va, upage p' root2 va = upage p root2 va.
Proof.
  intros Hk Ht Hr Hne. destruct (destroy_spec p trees root (ko_ok _ _ _ Hk) Ht Hr Hne) as (fs & p' & E & -> & _ & Hfs & Hok).
  exists (frees fs p). split; [done|]. split; [|done].
  assert (Forall good fs) as Hgood.
  { apply Forall_forall. intros f [q Hq]%Hfs. exact (table_good _ _ _ _ (po_forest _ _ (ko_ok _ _ _ Hk)) _ _ _ Ht Hq). }
  destruct (frees_source fs p (po_source _ _ (ko_ok _ _ _ Hk)) Hgood) as [_ Hsp].
  assert (same_env p (frees fs p)) as Henv by by split_and!.
  split.
  - eapply kernel_ok_cons; [done|done|done|]. apply list_elem_of_filter. split; [apply user_kernel_ne|apply (ko_tree _ _ _ Hk)].
  - done.
  - intros f [Hf|[q Hf]%Hfs]%Hsp; [by left|right]. by exists root, q.
  - intros t q f [_ Htr]%list_elem_of_filter Hq. by left.
  - done.
Qed.
End steps.

(** ** The system's invariant *)
Section system.
Context {F : Type} `{!FrameSource F} `{!FrameSourceLaws F}.
Variables (TABLES HEAP_SIZE static_heap kroot : Z).
Implicit Types (s : AddressSpaces.t F) (p : Paging.t F) (trees : list tree) (fs : list Z).
#[local] Instance system_backing : HeapBacking (KernelHeap.t F) := kernel_backing TABLES.
Abbreviation memory_ok laws := (@ok _ system_backing laws HEAP_SIZE static_heap).
Abbreviation laws trees := (kernel_backing_laws TABLES trees kroot).
Import AddressSpaces.

Definition roots s : list Z := AddressSpace.root <$> occupied s.(spaces).

Definition record_ok (r : UserMappingRecord.t) : Prop :=
  0 <= r.(UserMappingRecord.user_start) ∧ 0 <= r.(UserMappingRecord.length_) ∧ r.(UserMappingRecord.length_) mod 4096 = 0.
Record sys_ok s trees fs : Prop := {
  so_memory : memory_ok (laws trees) s.(manager);
  so_heap : heap_ok trees kroot s.(manager).(MemoryManager.pages) fs;
  so_virtual : ∃ frames, s.(manager).(MemoryManager.backing) =
    BackingStore.Virtual KERNEL_HEAP_BASE KERNEL_HEAP_RESERVED_BYTES (4096 * Z.of_nat (length fs)) frames;
  so_user : user_pages_in fs trees (paging s);
  so_trees : ∀ t, t ∈ trees ↔ t = kernel_tree kroot ∨ ∃ root, root ∈ roots s ∧ t = user_tree root;
  so_roots : NoDup (roots s);
  so_kernel : (paging s).(Paging.kernel_pml4_physical) = kroot;
  so_zero : away (paging s) trees 0;
  so_mappings : ∀ r, r ∈ occupied s.(mappings) → record_ok r;
  so_references : ∀ sp, sp ∈ occupied s.(spaces) → 1 <= sp.(AddressSpace.references);
  so_mapped : ∀ r, r ∈ occupied s.(mappings) → r.(UserMappingRecord.root) ∈ roots s
}.

Lemma sys_tree s trees fs root : sys_ok s trees fs → user_tree root ∈ trees ↔ root ∈ roots s.
Proof.
  intros Hs. rewrite (so_trees _ _ _ Hs). split.
  - intros [E|(r & Hr & [= ->])]; [|done]. by destruct (user_kernel_ne root kroot).
  - intros Hr. right. by exists root.
Qed.
Lemma sys_kernel_ok s trees fs : sys_ok s trees fs → kernel_ok (paging s) trees kroot.
Proof. intros Hs. apply (ho_paging _ _ _ _ (so_heap _ _ _ Hs)). Qed.

(** a live root is neither null nor the kernel's *)
Lemma live_root s trees fs root : sys_ok s trees fs → root ∈ roots s →
  root ≠ 0 ∧ root ≠ (paging s).(Paging.kernel_pml4_physical).
Proof.
  intros Hs Hr. pose proof (proj2 (sys_tree _ _ _ root Hs) Hr) as Ht. pose proof (sys_kernel_ok _ _ _ Hs) as Hk.
  assert (has_table (paging s) (user_tree root) [] root) as Hroot.
  { split; [|done]. apply (path_ok_prefix _ [] _ (user_path root 0 ltac:(done))). }
  split.
  - intros ->. destruct (so_zero _ _ _ Hs) as [_ Hz]. apply Hz. by exists 0, [].
  - rewrite (so_kernel _ _ _ Hs). intros ->.
    assert (has_table (paging s) (kernel_tree kroot) [] kroot) as Hkr.
    { split; [|done]. apply (path_ok_prefix _ [] _ (kernel_path kroot 0)). }
    destruct (fo_inj _ _ _ _ (po_forest _ _ (ko_ok _ _ _ Hk)) _ _ _ _ _ Ht (ko_tree _ _ _ Hk) Hroot Hkr) as [E _].
    by destruct (user_kernel_ne kroot kroot).
Qed.

(** *** Steps of the tables *)
Lemma paging_step s trees fs trees' p' table : sys_ok s trees fs → pstep kroot trees (paging s) trees' p' →
  user_pages_in fs trees' p' →
  (∀ t, t ∈ trees' ↔ t = kernel_tree kroot ∨ ∃ root, root ∈ AddressSpace.root <$> occupied table ∧ t = user_tree root) →
  NoDup (AddressSpace.root <$> occupied table) → (∀ sp, sp ∈ occupied table → 1 <= sp.(AddressSpace.references)) →
  (∀ r, r ∈ occupied s.(mappings) → r.(UserMappingRecord.root) ∈ AddressSpace.root <$> occupied table) →
  sys_ok (set_spaces table (set_paging p' s)) trees' fs.
Proof.
  intros [H1 H2 H3 H4 H5 H6 H7 H8 H9 H10 H11] Hp Hu Ht Hnd Hrf Hmp.
  pose proof (heap_ok_step _ _ _ _ _ _ H2 Hp) as Hh. split; try done.
  - apply (ok_repage (laws trees)); [done|]. intros base cap committed frames E (-> & -> & fs' & _ & -> & _).
    split_and!; [done|done|]. exists fs. split_and!; [done| |done]. destruct H3 as [fr E']. congruence.
  - rewrite <-H7. apply (ps_env _ _ _ _ _ Hp).
  - by eapply away_step.
Qed.
Lemma paging_step_same s trees fs p' : sys_ok s trees fs → pstep kroot trees (paging s) trees p' →
  user_pages_in fs trees p' → sys_ok (set_paging p' s) trees fs.
Proof.
  intros Hs Hp Hu. pose proof (paging_step s trees fs trees p' s.(spaces) Hs Hp Hu (so_trees _ _ _ Hs) (so_roots _ _ _ Hs)
    (so_references _ _ _ Hs) (so_mapped _ _ _ Hs)) as H.
  by destruct s.
Qed.
Lemma user_pages_same fs trees p p' : user_pages_in fs trees p →
  (∀ root va, user_tree root ∈ trees → 0 <= va < USER_LIMIT → upage p' root va = upage p root va) →
  user_pages_in fs trees p'.
Proof. intros Hp Hs root va e Ht Hva He. rewrite Hs in He by done. by apply (Hp root va). Qed.

(** *** Steps of the memory manager *)
(** the kernel maps what it did, but for pages of the heap behind its frames *)
Definition kernel_grown fs (p p' : Paging.t F) : Prop := same_env p p' ∧
  ∀ va, (∀ k, (length fs <= k < 4096)%nat → ¬ same_page va (heap_va KERNEL_HEAP_BASE 0 k)) →
    page_of p' (kernel_tree kroot) va = page_of p (kernel_tree kroot) va.
Lemma kernel_grown_refl fs p : kernel_grown fs p p.
Proof. split; [apply same_env_refl|done]. Qed.
Lemma kernel_grown_step fs trees trees' p p1 p2 : kernel_grown fs p p1 → pstep kroot trees p1 trees' p2 → kernel_grown fs p p2.
Proof.
  intros [E H] Hp. split; [eapply same_env_trans; [exact E|apply Hp]|]. intros va Hva. rewrite (ps_kernel _ _ _ _ _ Hp). by apply H.
Qed.
Definition snapshot trees (p0 : Paging.t F) (fs0 : list Z) (h : KernelHeap.t F) (fs : list Z) : Prop :=
  (∃ more, fs = fs0 ++ more) ∧ kernel_grown fs0 p0 h.(KernelHeap.paging) ∧
  (∀ f, spare h.(KernelHeap.paging).(Paging.frames) f → spare p0.(Paging.frames) f) ∧
  (∀ t q f, t ∈ trees → has_table h.(KernelHeap.paging) t q f → has_table p0 t q f ∨ spare p0.(Paging.frames) f) ∧
  ∀ root va, user_tree root ∈ trees → 0 <= va < USER_LIMIT →
    upage h.(KernelHeap.paging) root va = upage p0 root va.

Lemma snapshot_survives trees p0 fs0 : survives trees kroot (snapshot trees p0 fs0).
Proof.
  intros h h' fs more ((m0 & ->) & [Henv Hk] & Hsp & Htab & Hpg) Hh Hh' [Mp Me Mt Ms]. split_and!.
  - exists (m0 ++ more). by rewrite app_assoc.
  - split; [by eapply same_env_trans|]. intros va Hva. rewrite <-Hk by done.
    apply Mp; [apply (ko_tree _ _ _ (ho_paging _ _ _ _ Hh))|apply kernel_path|].
    intros k Hlt [_ Hsame]. apply (Hva k); [|done]. pose proof (ho_len _ _ _ _ Hh') as Hl. rewrite length_app in Hlt. lia.
  - intros f Hf. by apply Hsp, Ms.
  - intros t q f Ht Hq. apply Mt in Hq as [Hq|Hq]; [by apply Htab|right; by apply Hsp|done].
  - intros root va Ht Hva. rewrite <-Hpg by done. apply Mp; [done|by apply user_path|].
    intros k _ [E _]. by destruct (user_kernel_ne root kroot).
Qed.
Definition snap_laws s trees fs : HeapBackingLaws (KernelHeap.t F) :=
  tracked_laws TABLES trees kroot (snapshot trees (paging s) fs) (snapshot_survives trees (paging s) fs).

Lemma snap_ok s trees fs : sys_ok s trees fs → memory_ok (snap_laws s trees fs) s.(manager).
Proof.
  intros Hs. pose proof (ok_repage (laws trees) (snap_laws s trees fs) HEAP_SIZE static_heap s.(manager)
    s.(manager).(MemoryManager.pages) (so_memory _ _ _ Hs)) as H.
  destruct s as [m sp mp], m. apply H. clear H. intros base cap committed frames E (-> & -> & _).
  destruct (so_virtual _ _ _ Hs) as [fr E']. rewrite E' in E. injection E as <- <-.
  split_and!; [done|done|]. exists fs. split_and!; [apply (so_heap _ _ _ Hs)|done|].
  split_and!; [exists []; by rewrite app_nil_r|apply kernel_grown_refl|done|by left|done].
Qed.

Lemma memory_step s trees fs m : sys_ok s trees fs → memory_ok (snap_laws s trees fs) m → virtual_heap m →
  ∃ more, sys_ok (set_manager m s) trees (fs ++ more) ∧ kernel_grown fs (paging s) (paging (set_manager m s)) ∧
    ∀ root va, root ∈ roots s → 0 <= va < USER_LIMIT → upage (paging (set_manager m s)) root va = upage (paging s) root va.
Proof.
  intros Hs Hm Hv. pose proof (co_back _ _ _ _ (ok_core _ _ _ Hm)) as Hb. unfold virtual_heap in Hv.
  destruct m.(MemoryManager.backing) as [|base cap committed frames|] eqn:Eb; [done| |done].
  destruct Hb as ((-> & -> & fs' & Hh & -> & (more & ->) & Henv & Hsp & Htab & Hpg) & _).
  exists more. split; [|split; [exact Henv|]].
  - pose proof Hs as [H1 H2 H3 H4 H5 H6 H7 [Hz1 Hz2] H9 H10 H11]. split; try done.
    + pose proof (ok_repage (snap_laws s trees fs) (laws trees) HEAP_SIZE static_heap m m.(MemoryManager.pages) Hm) as H.
      destruct m. apply H. clear H. intros base cap committed fr E (-> & -> & fs' & Hh' & -> & _).
      split_and!; [done|done|]. by exists fs'.
    + by exists frames.
    + intros root va e Ht Hva He. cbn in He. change (upage m.(MemoryManager.pages).(KernelHeap.paging) root va = Some e) in He.
      rewrite Hpg in He by done. apply elem_of_app. left. by apply (H4 root va).
    + rewrite <-H7. apply Henv.
    + split; [intros Hz; by apply Hz1, Hsp|]. intros (root & q & Ht & Hq). apply Htab in Hq as [Hq|Hq]; [|done|done].
      apply Hz2. by exists root, q.
  - intros root va Hr Hva. apply Hpg; [by apply (sys_tree _ _ _ root Hs)|done].
Qed.

(** releasing blocks leaves the pages alone *)
Lemma release_step s trees fs m : sys_ok s trees fs → memory_ok (laws trees) m →
  m.(MemoryManager.pages) = s.(manager).(MemoryManager.pages) →
  m.(MemoryManager.backing) = s.(manager).(MemoryManager.backing) → sys_ok (set_manager m s) trees fs.
Proof.
  intros [H1 H2 H3 H4 H5 H6 H7 H8 H9 H10 H11] Hm Ep Eb. unfold paging in *.
  split; unfold paging; cbn [manager set_manager spaces mappings]; rewrite ?Ep, ?Eb; done.
Qed.

(** *** Creating and sharing *)
Lemma tree_root_fresh s trees fs root : sys_ok s trees fs → user_tree root ∉ trees → root ∉ roots s.
Proof. intros Hs Hn Hr. by apply Hn, (sys_tree _ _ _ root Hs). Qed.

(** the pages of every live address space are as before *)
Definition user_same s s' : Prop :=
  ∀ root va, root ∈ roots s → 0 <= va < USER_LIMIT → upage (paging s') root va = upage (paging s) root va.

Lemma space_create_spec s trees fs owner : sys_ok s trees fs →
  match create_user_address_space owner s with
  | (Ok root, s') => ∃ p table, s' = set_spaces table (set_paging p s) ∧
      sys_ok s' (user_tree root :: trees) fs ∧ root ∉ roots s ∧
      occupied table ≡ₚ AddressSpace.mk owner root 1 :: occupied s.(spaces) ∧
      same_env (paging s) p ∧ (∀ va, 0 <= va < USER_LIMIT → upage p root va = None) ∧ user_same s s'
  | (Err _, s') => ∃ p, s' = set_paging p s ∧ sys_ok s' trees fs ∧ same_env (paging s) p ∧ user_same s s'
  end.
Proof.
  intros Hs. pose proof (sys_kernel_ok _ _ _ Hs) as Hk. pose proof (create_step kroot trees (paging s) Hk) as Hc.
  assert (∀ p, (∀ root va, user_tree root ∈ trees → 0 <= va < USER_LIMIT → upage p root va = upage (paging s) root va) →
    ∀ root va, root ∈ roots s → 0 <= va < USER_LIMIT → upage p root va = upage (paging s) root va) as Hconv.
  { intros p Hp root va Hr. apply Hp. by apply (sys_tree _ _ _ root Hs). }
  unfold create_user_address_space, mbind, M_bind, on_paging.
  destruct (paging_create (paging s)) as [[root|[]] p].
  2:{ destruct Hc as [Hp Hu]. exists p. split_and!; [done| |apply (ps_env _ _ _ _ _ Hp)|exact (Hconv p Hu)].
      apply paging_step_same; [done|done|]. eapply user_pages_same; [apply (so_user _ _ _ Hs)|done]. }
  destruct Hc as (Hp & Hfresh & Hsp & Hnsp & Hnone & Hu). unfold gets. cbn [spaces set_paging set_manager].
  assert (user_pages_in fs (user_tree root :: trees) p) as Hin.
  { intros root2 va e [E|Ht]%elem_of_cons Hva He.
    - injection E as ->. by rewrite Hnone in He.
    - rewrite Hu in He by done. by apply (so_user _ _ _ Hs root2 va). }
  destruct (free_slot s.(spaces)) as [i|] eqn:Hi.
  - pose proof (occupied_insert_free _ _ (AddressSpace.mk owner root 1) Hi) as Hperm. unfold modify, mret, M_ret.
    eexists p, _. split; [reflexivity|]. split_and!; [|by eapply tree_root_fresh|done|apply (ps_env _ _ _ _ _ Hp)|done|exact (Hconv p Hu)].
    apply (paging_step s trees); [done|done|done| | | |].
    + intros t. rewrite elem_of_cons, (so_trees _ _ _ Hs). unfold roots. setoid_rewrite Hperm. cbn.
      setoid_rewrite elem_of_cons. naive_solver.
    + rewrite Hperm. cbn. apply NoDup_cons. split; [by eapply (tree_root_fresh s)|apply (so_roots _ _ _ Hs)].
    + intros sp. rewrite Hperm, elem_of_cons. intros [->|Hold]; [done|]. by apply (so_references _ _ _ Hs).
    + intros r Hr. rewrite Hperm. apply list_elem_of_further. by apply (so_mapped _ _ _ Hs).
  - assert (root ≠ 0) as Hr0.
    { intros ->. by destruct (so_zero _ _ _ Hs). }
    assert (root ≠ (paging (set_paging p s)).(Paging.kernel_pml4_physical)) as Hrk.
    { change (root ≠ p.(Paging.kernel_pml4_physical)). replace (p.(Paging.kernel_pml4_physical)) with kroot.
      2:{ rewrite <-(so_kernel _ _ _ Hs). symmetry. apply (ps_env _ _ _ _ _ Hp). }
      intros ->. eapply (fo_spare _ _ _ _ (po_forest _ _ (ko_ok _ _ _ Hk)) (kernel_tree kroot) [] kroot);
        [apply (ko_tree _ _ _ Hk)| |done]. split; [|done]. apply (path_ok_prefix _ [] _ (kernel_path kroot 0)). }
    destruct (destroy_step kroot (user_tree root :: trees) p root (ps_ok _ _ _ _ _ Hp) ltac:(apply list_elem_of_here) Hr0 Hrk)
      as (p2 & E2 & Hp2 & Hu2).
    change (paging (set_paging p s)) with p. rewrite E2. exists p2.
    assert (filter (λ t, t ≠ user_tree root) (user_tree root :: trees) = trees) as Ef.
    { rewrite filter_cons_False by naive_solver. by apply filter_absent. }
    rewrite Ef in Hp2.
    assert (∀ root0 va, user_tree root0 ∈ trees → 0 <= va < USER_LIMIT → upage p2 root0 va = upage (paging s) root0 va) as Hu3.
    { intros root0 va Ht Hva. rewrite Hu2. by apply Hu. }
    split_and!; [done| |eapply same_env_trans; [apply (ps_env _ _ _ _ _ Hp)|apply (ps_env _ _ _ _ _ Hp2)]|exact (Hconv p2 Hu3)].
    apply (paging_step_same s trees fs p2 Hs).
    + by eapply pstep_trans.
    + eapply user_pages_same; [apply (so_user _ _ _ Hs)|done].
Qed.

(** an entry of the table changes but its root *)
Lemma spaces_update s trees fs i sp sp' : sys_ok s trees fs → s.(spaces) !! i = Some (Some sp) →
  sp'.(AddressSpace.root) = sp.(AddressSpace.root) → 1 <= sp'.(AddressSpace.references) →
  sys_ok (set_spaces (<[i := Some sp']> s.(spaces)) s) trees fs.
Proof.
  intros [H1 H2 H3 H4 H5 H6 H7 H8 H9 H10 H11] Hi E Hrf.
  assert (roots (set_spaces (<[i := Some sp']> s.(spaces)) s) = roots s) as Er.
  { unfold roots. cbn [spaces set_spaces]. revert i Hi. generalize s.(spaces). clear -E.
    induction l as [|o l IH]; intros [|i] Hi; cbn in Hi; [done|done| |].
    - injection Hi as ->. cbn. by rewrite E.
    - destruct o as [x|]; cbn; [f_equal|]; exact (IH i Hi). }
  split; rewrite ?Er; try done.
  intros x (j & Hj)%elem_of_occupied%list_elem_of_lookup. cbn [spaces set_spaces] in Hj.
  apply list_lookup_insert_Some in Hj as [(_ & [= <-] & _)|[_ Hj]]; [done|].
  apply H10, elem_of_occupied. by eapply list_elem_of_lookup_2.
Qed.
Lemma share_ok s trees fs root : sys_ok s trees fs → sys_ok (share_user_address_space root s).2 trees fs.
Proof.
  intros Hs. unfold share_user_address_space. destruct (root =? 0); [done|]. unfold mbind, M_bind, gets.
  destruct (find_slot (has_root root) s.(spaces)) as [i|] eqn:Hi; [|done].
  apply find_slot_Some in Hi as (sp & Hi & _ & _). rewrite Hi. cbn. eapply spaces_update; [done|done|done|].
  assert (1 <= sp.(AddressSpace.references)) by (apply (so_references _ _ _ Hs), elem_of_occupied; by eapply list_elem_of_lookup_2).
  unfold sat_add, umax. cbn. lia.
Qed.

(** *** Destroying *)
Definition of_root (root : Z) (r : UserMappingRecord.t) : bool := r.(UserMappingRecord.root) =? root.
(** the block of a mapping goes back to the memory manager *)
Definition drop_block (m : MemoryManager.t (KernelHeap.t F)) (r : UserMappingRecord.t) : MemoryManager.t (KernelHeap.t F) :=
  if r.(UserMappingRecord.kernel_start) =? 0 then m
  else (MemoryManager.munmap_ptr_for HEAP_SIZE static_heap r.(UserMappingRecord.owner)
    r.(UserMappingRecord.kernel_start) r.(UserMappingRecord.length_) m).2.

Lemma release_mappings_spec root s : release_mappings HEAP_SIZE static_heap root s =
  (Ok tt, AddressSpaces.mk
     (foldl drop_block s.(manager) (filter (λ r, of_root root r = true) (occupied s.(mappings))))
     s.(spaces) (clear_where (of_root root) s.(mappings))).
Proof.
  unfold release_mappings. rewrite (bind_ok _ _ s.(mappings) s s) by done. destruct s as [m sp table].
  cbn [manager spaces mappings].
  enough (∀ suf pre m, mfor (seq (length pre) (length suf)) (release_mapping HEAP_SIZE static_heap root)
    (AddressSpaces.mk m sp (pre ++ suf)) =
    (Ok tt, AddressSpaces.mk (foldl drop_block m (filter (λ r, of_root root r = true) (occupied suf))) sp
       (pre ++ clear_where (of_root root) suf))) as Hall by by apply (Hall table []).
  clear m table. induction suf as [|o suf IH]; intros pre m; [done|].
  assert (release_mapping HEAP_SIZE static_heap root (length pre) (AddressSpaces.mk m sp (pre ++ o :: suf)) =
    (Ok tt, AddressSpaces.mk (foldl drop_block m (filter (λ r, of_root root r = true) (occupied [o]))) sp
      (pre ++ clear_where (of_root root) [o] ++ suf))) as Hone.
  { unfold release_mapping. set (s0 := AddressSpaces.mk m sp (pre ++ o :: suf)).
    rewrite (bind_ok _ _ (pre ++ o :: suf) s0 s0), list_lookup_middle by done.
    destruct o as [r|]; cbn [default from_option id]; [|done].
    cbn [occupied clear_where]. rewrite filter_cons. change (_ =? root) with (of_root root r).
    destruct (of_root root r) eqn:E; [rewrite decide_True by done|rewrite decide_False by done; done].
    rewrite (bind_ok _ _ tt s0 (AddressSpaces.mk m sp (pre ++ [None] ++ suf))).
    2:{ unfold modify, set_mappings. cbn. do 2 f_equal. by rewrite insert_app_r_alt, Nat.sub_diag by done. }
    unfold drop_block. cbn. by destruct (_ =? 0). }
  cbn [length seq mfor]. rewrite (bind_ok _ _ _ _ _ Hone).
  specialize (IH (pre ++ clear_where (of_root root) [o])).
  rewrite <-!app_assoc in IH. rewrite length_app, length_clear_where, Nat.add_1_r in IH. rewrite IH.
  do 2 f_equal; [|destruct o as [r|]; cbn; [by destruct (of_root root r)|done]].
  rewrite <-foldl_app. f_equal. destruct o as [r|]; cbn [occupied]; [|done].
  rewrite !filter_cons. by case_decide.
Qed.

Lemma drop_blocks_pages l m : (foldl drop_block m l).(MemoryManager.pages) = m.(MemoryManager.pages).
Proof.
  revert m. induction l as [|r l IH]; intros m; cbn; [done|]. rewrite IH. unfold drop_block.
  destruct (_ =? 0); [done|apply release_pages].
Qed.
Lemma drop_blocks_step s trees fs l : sys_ok s trees fs →
  sys_ok (set_manager (foldl drop_block s.(manager) l) s) trees fs.
Proof.
  intros Hs. revert s Hs. induction l as [|r l IH]; intros s Hs; cbn; [by destruct s|].
  assert (sys_ok (set_manager (drop_block s.(manager) r) s) trees fs) as H1; [|exact (IH _ H1)].
  unfold drop_block. destruct (_ =? 0); [by destruct s|].
  apply release_step; [done|apply release_ok, Hs|apply release_pages|apply release_backing].
Qed.
Lemma set_mappings_ok s trees fs table : sys_ok s trees fs →
  (∀ r, r ∈ occupied table → record_ok r ∧ r.(UserMappingRecord.root) ∈ roots s) →
  sys_ok (set_mappings table s) trees fs.
Proof. intros [H1 H2 H3 H4 H5 H6 H7 H8 H9 H10 H11] H. split; try done; intros r Hr; by apply H. Qed.
Lemma release_mappings_ok s trees fs root : sys_ok s trees fs →
  sys_ok (release_mappings HEAP_SIZE static_heap root s).2 trees fs.
Proof.
  intros Hs. rewrite release_mappings_spec. cbn [snd].
  pose proof (drop_blocks_step s trees fs (filter (λ r, of_root root r = true) (occupied s.(mappings))) Hs) as H1.
  apply (set_mappings_ok _ _ _ (clear_where (of_root root) s.(mappings))) in H1; [done|].
  intros r. rewrite occupied_clear, list_elem_of_filter. intros [_ Hr]. split; [by apply (so_mappings _ _ _ Hs)|by apply (so_mapped _ _ _ Hs)].
Qed.

(** What [destroy_user_address_space] does, by the reference count. *)
Lemma space_destroy_spec s trees fs root : sys_ok s trees fs → root ∈ roots s →
  ∃ i sp, s.(spaces) !! i = Some (Some sp) ∧ sp.(AddressSpace.root) = root ∧
  let s' := (destroy_user_address_space HEAP_SIZE static_heap root s).2 in
  (destroy_user_address_space HEAP_SIZE static_heap root s).1 = Ok tt ∧
  if 1 <? sp.(AddressSpace.references) then
    s' = set_spaces (<[i := Some (AddressSpace.mk sp.(AddressSpace.owner) root (sp.(AddressSpace.references) - 1))]> s.(spaces)) s ∧
    sys_ok s' trees fs
  else ∃ p, s' = set_paging p (AddressSpaces.mk
      (foldl drop_block s.(manager) (filter (λ r, of_root root r = true) (occupied s.(mappings))))
      (<[i := None]> s.(spaces)) (clear_where (of_root root) s.(mappings))) ∧
    occupied s.(spaces) ≡ₚ sp :: occupied (<[i := None]> s.(spaces)) ∧
    sys_ok s' (filter (λ t, t ≠ user_tree root) trees) fs ∧
    ∀ root2 va, upage p root2 va = upage (paging s) root2 va.
Proof.
  intros Hs Hr. destruct (live_root _ _ _ _ Hs Hr) as [Hr0 Hrk].
  unfold destroy_user_address_space. rewrite (proj2 (Z.eqb_neq _ _)) by done.
  rewrite (bind_ok _ _ s.(spaces) s s) by done.
  destruct (find_slot (has_root root) s.(spaces)) as [i|] eqn:Hi.
  2:{ exfalso. apply list_elem_of_fmap in Hr as (sp & -> & Hsp%elem_of_occupied).
      rewrite find_slot_None, slot_find_None in Hi. specialize (Hi sp Hsp). unfold has_root in Hi. by rewrite Z.eqb_refl in Hi. }
  apply find_slot_Some in Hi as (sp & Hi & Hroot%Z.eqb_eq & _). exists i, sp. split; [done|]. split; [done|].
  cbn [mbind option_bind]. rewrite Hi. cbn [default from_option id mbind option_bind]. rewrite Hroot.
  destruct (Z.ltb_spec 1 sp.(AddressSpace.references)); cbn [fst snd].
  { split; [done|]; split; [done|]. eapply spaces_update; [done|done|done|]. cbn. lia. }
  set (table := <[i := None]> s.(spaces)).
  rewrite (bind_ok _ _ tt s (set_spaces table s)) by done.
  rewrite (bind_ok _ _ _ _ _ (release_mappings_spec root (set_spaces table s))).
  unfold on_paging. cbn [manager spaces mappings set_spaces].
  set (s1 := AddressSpaces.mk _ table _).
  assert (paging s1 = paging s) as Ep.
  { unfold s1, paging. cbn [manager]. by rewrite drop_blocks_pages. }
  destruct (destroy_step kroot trees (paging s) root (sys_kernel_ok _ _ _ Hs)
    (proj2 (sys_tree _ _ _ root Hs) Hr) Hr0 Hrk) as (p & E & Hp & Hu).
  rewrite Ep, E. cbn [fst snd].
  pose proof (occupied_remove _ _ _ Hi) as Hperm. fold table in Hperm.
  split; [done|]. exists p. split_and!; [done|done| |done].
  pose proof (release_mappings_ok s trees fs root Hs) as Hrel. rewrite release_mappings_spec in Hrel. cbn [snd] in Hrel.
  apply (paging_step _ trees fs (filter (λ t, t ≠ user_tree root) trees) p table) in Hrel.
  - done.
  - cbn. change (pstep kroot trees (paging s1) (filter (λ t, t ≠ user_tree root) trees) p). by rewrite Ep.
  - intros root2 va e [_ Ht]%list_elem_of_filter Hva He. rewrite Hu in He. by apply (so_user _ _ _ Hs root2 va).
  - intros t. rewrite list_elem_of_filter, (so_trees _ _ _ Hs). unfold roots. setoid_rewrite Hperm. cbn.
    setoid_rewrite elem_of_cons. rewrite Hroot. pose proof (so_roots _ _ _ Hs) as Hnd. unfold roots in Hnd. rewrite Hperm in Hnd.
    cbn in Hnd. rewrite Hroot in Hnd. apply NoDup_cons in Hnd as [Hnd _]. split.
    + intros [Hne [->|(r & [->|Hin] & ->)]]; [by left|done|]. right. by exists r.
    + intros [->|(r & Hin & ->)]; [split; [apply user_kernel_ne|by left]|]. split; [|right; exists r; split; [by right|done]].
      intros [= ->]. done.
  - pose proof (so_roots _ _ _ Hs) as Hnd. unfold roots in Hnd. rewrite Hperm in Hnd. cbn in Hnd. by apply NoDup_cons in Hnd as [_ Hnd].
  - intros x Hx. apply (so_references _ _ _ Hs). rewrite Hperm. by apply list_elem_of_further.
  - intros r. cbn [mappings]. rewrite occupied_clear, list_elem_of_filter. intros [Hne Hin]. apply (so_mapped _ _ _ Hs) in Hin.
    unfold roots in Hin. rewrite Hperm in Hin. cbn in Hin. apply elem_of_cons in Hin as [E2|Hin]; [|done].
    unfold of_root in Hne. rewrite E2, Hroot, Z.eqb_refl in Hne. done.
Qed.
Lemma destroy_ok s trees fs root : sys_ok s trees fs →
  ∃ trees', sys_ok (destroy_user_address_space HEAP_SIZE static_heap root s).2 trees' fs.
Proof.
  intros Hs. destruct (decide (root ∈ roots s)) as [Hr|Hr].
  - destruct (space_destroy_spec s trees fs root Hs Hr) as (i & sp & _ & _ & _ & H).
    destruct (1 <? _); [exists trees; apply H|]. destruct H as (p & _ & _ & H & _). by eexists.
  - exists trees. unfold destroy_user_address_space. destruct (root =? 0); [done|].
    rewrite (bind_ok _ _ s.(spaces) s s) by done.
    destruct (find_slot (has_root root) s.(spaces)) as [i|] eqn:Hi; [|by apply release_mappings_ok].
    destruct Hr. apply find_slot_Some in Hi as (sp & Hi & <-%Z.eqb_eq & _).
    apply list_elem_of_fmap. exists sp. split; [done|]. apply elem_of_occupied. by eapply list_elem_of_lookup_2.
Qed.

(** *** Mapping a block into an address space *)
Lemma set_paging_eq s : set_paging (paging s) s = s.
Proof. by destruct s as [[b bu a f al pk ba [p l]] sp mp]. Qed.
Lemma on_paging_mfor {B} (l : list B) (f : B → M (Paging.t F) unit unit) s :
  mfor l (λ i, on_paging (f i)) s = on_paging (mfor l f) s.
Proof.
  revert s. induction l as [|i l IH]; intros s; cbn.
  - unfold mret, M_ret, on_paging. by rewrite set_paging_eq.
  - unfold mbind, M_bind, on_paging. destruct (f i (paging s)) as [[[]|[]] p]; [|done]. rewrite IH. unfold on_paging.
    change (paging (set_paging p s)) with p. by destruct (mfor l f p) as [r p2].
Qed.

Section block.
Variables (trees : list tree) (p0 : Paging.t F) (layout : option KernelHeapLayout.t) (fs : list Z).
Variables (root va : Z) (k : nat) (protection : MemoryProtection.t).
Hypotheses (Hheap : heap_ok trees kroot (KernelHeap.mk p0 layout) fs) (Ht : user_tree root ∈ trees) (Hva : 0 <= va).

(** the entry of a user address in the block that starts with page [k] of the heap *)
Definition block_entry (va2 : Z) : option Z :=
  user_entry protection <$> fs !! (k + Z.to_nat ((va2 - va) / 4096))%nat.
(** the first [n] pages are mapped *)
Record block_mapped p (n : nat) : Prop := {
  bm_step : pstep kroot trees p0 trees p;
  bm_pages : ∀ root2 va2, user_tree root2 ∈ trees → 0 <= va2 < USER_LIMIT → upage p root2 va2 =
    if decide (root2 = root ∧ va <= va2 < va + 4096 * Z.of_nat n) then block_entry va2 else upage p0 root2 va2
}.

Definition map_block (ptr offset : Z) : M (Paging.t F) unit unit :=
  physical ← gets (λ p, kernel_physical p (ptr + offset));
  map_user_page root (va + offset) physical protection.
Abbreviation ptr := (KERNEL_HEAP_BASE + 4096 * Z.of_nat k).

Lemma block_mapped_0 : block_mapped p0 0.
Proof.
  split; [apply pstep_refl, (ho_paging _ _ _ _ Hheap)|]. intros root2 va2 _ _. rewrite decide_False; [done|]. lia.
Qed.
Lemma kernel_physical_block p n : pstep kroot trees p0 trees p → (k + n < length fs)%nat →
  ∃ f, fs !! (k + n)%nat = Some f ∧ framed f ∧ kernel_physical p (ptr + 4096 * Z.of_nat n) = f.
Proof.
  intros Hp Hn. pose proof (heap_ok_step _ _ _ _ _ _ Hheap Hp) as Hh.
  destruct (heap_translation trees kroot _ fs (4096 * Z.of_nat (k + n)) Hh) as (f & Hf & Hfr & Htr & _); [lia|].
  rewrite (Z.mul_comm 4096), Z.div_mul, Nat2Z.id in Hf by done. exists f. split_and!; [done|done|].
  rewrite (Z.mul_comm 4096 (Z.of_nat (k + n))), Z.mod_mul, Z.add_0_r in Htr by done. cbn in Htr.
  unfold kernel_physical. replace (ptr + 4096 * Z.of_nat n) with (KERNEL_HEAP_BASE + Z.of_nat (k + n) * 4096) by lia.
  by rewrite Htr.
Qed.
Lemma map_block_spec p n : block_mapped p n → (k + n < length fs)%nat →
  match map_block ptr (4096 * Z.of_nat n) p with
  | (Ok _, p') => block_mapped p' (S n)
  | (Err _, p') => block_mapped p' n
  end.
Proof.
  intros [Hp Hpages] Hn. destruct (kernel_physical_block p n Hp Hn) as (f & Hf & Hfr & Hphys).
  unfold map_block. rewrite (bind_ok _ _ f p p) by (unfold gets; by rewrite Hphys).
  pose proof (map_user_step kroot trees p root (va + 4096 * Z.of_nat n) f protection (ps_ok _ _ _ _ _ Hp) Ht
    ltac:(lia) Hfr) as Hm.
  destruct (map_user_page root _ f protection p) as [[[]|[]] p'].
  - destruct Hm as (Hp' & Hlim & Hal & Hset). split; [by eapply pstep_trans|].
    intros root2 va2 Ht2 Hva2. rewrite Hset by done. case_decide as Hd.
    + destruct Hd as [-> Hd]. rewrite decide_True by lia. unfold block_entry.
      replace ((va2 - va) / 4096) with (Z.of_nat n); [by rewrite Nat2Z.id, Hf|].
      apply (Z.div_unique _ _ _ (va2 - (va + 4096 * Z.of_nat n))); lia.
    + rewrite Hpages by done. apply decide_ext. split; [intros [-> ?]; lia|]. intros [-> ?].
      split; [done|]. apply not_and_l in Hd as [?|?]; [done|lia].
  - destruct Hm as [Hp' Hsame]. split; [by eapply pstep_trans|]. intros root2 va2 Ht2 Hva2. rewrite Hsame by done. by apply Hpages.
Qed.
Lemma map_block_loop n m p : block_mapped p n → (k + n + m <= length fs)%nat →
  match mfor (page_offsets (4096 * Z.of_nat n) (4096 * Z.of_nat n + 4096 * Z.of_nat m)) (map_block ptr) p with
  | (Ok _, p') => block_mapped p' (n + m)
  | (Err _, p') => ∃ j, (j <= n + m)%nat ∧ block_mapped p' j
  end.
Proof.
  revert n p. induction m as [|m IH]; intros n p Hb Hlen.
  - rewrite Z.mul_0_r, Z.add_0_r, page_offsets_nil. cbn. by rewrite Nat.add_0_r.
  - rewrite page_offsets_S. cbn [mfor]. pose proof (map_block_spec p n Hb ltac:(lia)) as H1.
    unfold mbind, M_bind. destruct (map_block _ _ p) as [[[]|[]] p1]; [|exists n; split; [lia|done]].
    specialize (IH (S n) p1 H1 ltac:(lia)).
    replace (4096 * Z.of_nat (S n)) with (4096 * Z.of_nat n + 4096) in IH by lia.
    replace (n + S m)%nat with (S n + m)%nat by lia. exact IH.
Qed.

(** all pages are still pages of the heap *)
Lemma block_pages_in p n : block_mapped p n → user_pages_in fs trees p0 → user_pages_in fs trees p.
Proof.
  intros [_ Hp] Hin root2 va2 e Ht2 Hva2. rewrite Hp by done. case_decide; [|by apply Hin].
  unfold block_entry. intros (f & Hf & ->)%fmap_Some. pose proof (list_elem_of_lookup_2 _ _ _ Hf) as Hel.
  destruct (ho_held _ _ _ _ Hheap f Hel) as ([Hfr _] & _). unfold user_entry.
  rewrite entry_frame; [done|done|]. by destruct (user_flags_spec protection).
Qed.
End block.

(** the blocks of the memory manager *)
Lemma sys_base s trees fs : sys_ok s trees fs → MemoryManager.base_address static_heap s.(manager) = KERNEL_HEAP_BASE.
Proof. intros Hs. destruct (so_virtual _ _ _ Hs) as [fr E]. unfold MemoryManager.base_address. by rewrite E. Qed.
Lemma live_in_heap s trees fs r : sys_ok s trees fs → r ∈ live s.(manager) →
  0 < r.(AllocationRecord.size) ∧ 0 <= r.(AllocationRecord.offset) ∧
  r.(AllocationRecord.offset) + r.(AllocationRecord.size) <= 4096 * Z.of_nat (length fs).
Proof.
  intros Hs Hr. pose proof (ok_core _ _ _ (so_memory _ _ _ Hs)) as Hc.
  destruct (live_in HEAP_SIZE static_heap _ [] r Hc Hr) as (H1 & H2 & _). split_and!; [done|done|].
  pose proof (co_back _ _ _ _ Hc) as Hb. destruct (so_virtual _ _ _ Hs) as [fr E]. rewrite E in Hb. by apply Hb.
Qed.
Lemma munmap_block s trees fs r l : sys_ok s trees fs → live s.(manager) ≡ₚ r :: l →
  r.(AllocationRecord.kind) = AllocationKind.Mapping →
  ∃ m, munmap_ptr_for HEAP_SIZE static_heap r.(AllocationRecord.owner) (KERNEL_HEAP_BASE + r.(AllocationRecord.offset))
         r.(AllocationRecord.size) s = (Ok tt, set_manager m s) ∧ sys_ok (set_manager m s) trees fs ∧
    live m ≡ₚ l ∧ m.(MemoryManager.bytes) = s.(manager).(MemoryManager.bytes) ∧
    m.(MemoryManager.pages) = s.(manager).(MemoryManager.pages).
Proof.
  intros Hs Hl Hk. eexists. split; [reflexivity|]. unfold MemoryManager.munmap_ptr_for.
  pose proof (release_spec HEAP_SIZE static_heap s.(manager) r.(AllocationRecord.owner)
    (KERNEL_HEAP_BASE + r.(AllocationRecord.offset)) (Some AllocationKind.Mapping) (Some r.(AllocationRecord.size))
    (so_memory _ _ _ Hs)) as Hr.
  assert (r ∈ live s.(manager)) as Hin by (rewrite Hl; apply list_elem_of_here).
  assert (matches static_heap s.(manager) r.(AllocationRecord.owner) (KERNEL_HEAP_BASE + r.(AllocationRecord.offset))
    (Some AllocationKind.Mapping) (Some r.(AllocationRecord.size)) r) as Hm.
  { split_and!; [done|by rewrite (sys_base _ _ _ Hs)|by intros k [= <-]|by intros n [= <-]]. }
  pose proof (release_pages HEAP_SIZE static_heap r.(AllocationRecord.owner) (KERNEL_HEAP_BASE + r.(AllocationRecord.offset))
    (Some AllocationKind.Mapping) (Some r.(AllocationRecord.size)) s.(manager)) as Hpg.
  pose proof (release_backing HEAP_SIZE static_heap r.(AllocationRecord.owner) (KERNEL_HEAP_BASE + r.(AllocationRecord.offset))
    (Some AllocationKind.Mapping) (Some r.(AllocationRecord.size)) s.(manager)) as Hbk.
  destruct (MemoryManager.release _ _ _ _ _ _ _) as [[] m]; cbn [snd] in *.
  - destruct Hr as (Hok & [Hb _ _] & x & i & Hx & Hp & _). split_and!; [by apply release_step| |done|done].
    assert (x ∈ live s.(manager)) as Hxin by (rewrite Hp; apply list_elem_of_here).
    assert (x = r) as ->.
    { apply (live_inj HEAP_SIZE static_heap s.(manager) [] x r (ok_core _ _ _ (so_memory _ _ _ Hs))); [done|done|].
      destruct Hx as (_ & Hx & _), Hm as (_ & Hm & _). lia. }
    rewrite Hl in Hp. by apply Permutation_cons_inv in Hp.
  - destruct Hr as [_ Hr]. destruct (so_virtual _ _ _ Hs) as [fr E]. destruct (Hr ltac:(by rewrite E) r Hin Hm).
Qed.

(** A fresh block for a mapping: pages [k] to [k + n] of the heap. *)
Definition block_record (owner : Z) (k n : nat) (protection : MemoryProtection.t) : AllocationRecord.t :=
  AllocationRecord.new owner (4096 * Z.of_nat k) (4096 * Z.of_nat n) AllocationKind.Mapping protection.
Definition block_region (owner : Z) (k n : nat) (protection : MemoryProtection.t) : MappedRegion.t :=
  MappedRegion.mk owner (KERNEL_HEAP_BASE + 4096 * Z.of_nat k) (4096 * Z.of_nat n) (4096 * Z.of_nat n)
    protection AllocationKind.Mapping.
Lemma mmap_block s trees fs owner n protection : sys_ok s trees fs →
  match MemoryManager.mmap_for HEAP_SIZE static_heap owner (4096 * Z.of_nat n) protection s.(manager) with
  | (Ok g, m) => ∃ more k, sys_ok (set_manager m s) trees (fs ++ more) ∧ g = block_region owner k n protection ∧
      (0 < n)%nat ∧ (k + n <= length (fs ++ more))%nat ∧ live m ≡ₚ block_record owner k n protection :: live s.(manager) ∧
      m.(MemoryManager.bytes) = s.(manager).(MemoryManager.bytes) ∧ kernel_grown fs (paging s) (paging (set_manager m s)) ∧
      user_same s (set_manager m s)
  | (Err _, m) => ∃ more, sys_ok (set_manager m s) trees (fs ++ more) ∧ live m = live s.(manager) ∧
      m.(MemoryManager.bytes) = s.(manager).(MemoryManager.bytes) ∧ kernel_grown fs (paging s) (paging (set_manager m s)) ∧
      user_same s (set_manager m s)
  end.
Proof.
  intros Hs. pose proof (mmap_spec (HeapBackingLaws0 := snap_laws s trees fs) HEAP_SIZE static_heap s.(manager) owner
    (4096 * Z.of_nat n) protection (snap_ok _ _ _ Hs) ltac:(lia)) as Hm.
  assert (virtual_heap s.(manager)) as Hv.
  { destruct (so_virtual _ _ _ Hs) as [fr E]. unfold virtual_heap. by rewrite E. }
  apply (mmap_virtual HEAP_SIZE static_heap owner (4096 * Z.of_nat n) protection) in Hv.
  destruct (MemoryManager.mmap_for _ _ _ _ _ _) as [[g|[]] m].
  2:{ destruct Hm as [Hok [S1 S2 _ _ _ _]]. destruct (memory_step s trees fs m Hs Hok Hv) as (more & Hs1 & Henv & Hu).
      exists more. split_and!; [done|unfold live; by rewrite S1|done|done|done]. }
  destruct Hm as (Hgal & r & [Hok [K1 K2 K3] Hlive Hat _] & Er & Eg & Hgl & Hglm).
  assert (g.(MappedRegion.length_) = 4096 * Z.of_nat n) as Egl.
  { apply Z.mod_divide in Hglm as [c Hc]; [|done]. lia. }
  rewrite Egl in Er, Eg. clear Hgl Hglm.
  destruct (memory_step s trees fs m Hs Hok Hv) as (more & Hs1 & Henv & Hu).
  destruct (live_in_heap _ trees (fs ++ more) r Hs1) as (Hrs & Hro & Hre).
  { cbn [manager set_manager]. rewrite Hlive. apply list_elem_of_here. }
  rewrite (sys_base _ _ _ Hs) in Hat. rewrite Er in Hrs, Hre. cbn in Hrs, Hre.
  assert (∃ k, r.(AllocationRecord.offset) = 4096 * Z.of_nat k) as [k Ek].
  { rewrite <-Hat in Hgal. rewrite Z.add_mod, (eq_refl : KERNEL_HEAP_BASE mod 4096 = 0), Z.add_0_l, Z.mod_mod in Hgal by done.
    apply Z.mod_divide in Hgal as [c Hc]; [|done]. exists (Z.to_nat c). lia. }
  rewrite Ek in Er, Hat, Hre. exists more, k. split_and!; [done| |lia|lia| |done|done|done].
  - rewrite Eg. unfold block_region. by rewrite Hat.
  - rewrite Hlive. by rewrite Er.
Qed.

(** What a failed mapping leaves: no block, but perhaps pages of its range. *)
Definition mapping_failed s trees fs root va len s' : Prop := ∃ more,
  sys_ok s' trees (fs ++ more) ∧ s'.(spaces) = s.(spaces) ∧ s'.(mappings) = s.(mappings) ∧
  s'.(manager).(MemoryManager.bytes) = s.(manager).(MemoryManager.bytes) ∧ live s'.(manager) ≡ₚ live s.(manager) ∧
  kernel_grown fs (paging s) (paging s') ∧
  ∀ root2 va2, root2 ∈ roots s → 0 <= va2 < USER_LIMIT → ¬ (root2 = root ∧ va <= va2 < va + len) →
    upage (paging s') root2 va2 = upage (paging s) root2 va2.
Lemma unmap_block s s1 p trees fs more root va owner k n protection :
  sys_ok (set_paging p s1) trees (fs ++ more) → s1.(spaces) = s.(spaces) → s1.(mappings) = s.(mappings) →
  s1.(manager).(MemoryManager.bytes) = s.(manager).(MemoryManager.bytes) →
  live s1.(manager) ≡ₚ block_record owner k n protection :: live s.(manager) → kernel_grown fs (paging s) p →
  (∀ root2 va2, root2 ∈ roots s → 0 <= va2 < USER_LIMIT → ¬ (root2 = root ∧ va <= va2 < va + 4096 * Z.of_nat n) →
    upage p root2 va2 = upage (paging s) root2 va2) →
  ∃ s', munmap HEAP_SIZE static_heap (block_region owner k n protection) (set_paging p s1) = (Ok tt, s') ∧
    mapping_failed s trees fs root va (4096 * Z.of_nat n) s'.
Proof.
  intros Hs1 E1 E2 Eb Hl Henv Hu.
  destruct (munmap_block (set_paging p s1) trees (fs ++ more) (block_record owner k n protection)
    (live s.(manager)) Hs1) as (m2 & E & Hs2 & Hl2 & Hb2 & Hp2); [done|done|].
  exists (set_manager m2 (set_paging p s1)). split; [exact E|]. exists more.
  assert (paging (set_manager m2 (set_paging p s1)) = p) as Ep.
  2:{ rewrite Ep. split_and!; [done|done|done|cbn [manager set_manager]; rewrite Hb2; exact Eb|done|done|done]. }
  unfold paging. cbn [manager set_manager]. by rewrite Hp2.
Qed.

Lemma mmap_user_guards va len : va mod 4096 = 0 → 0 <= va → 0 < len → va + len <= USER_LIMIT →
  ∃ n, align_up_u64 len = 4096 * Z.of_nat n ∧ len <= 4096 * Z.of_nat n < len + 4096 ∧ va + 4096 * Z.of_nat n <= USER_LIMIT.
Proof.
  unfold USER_LIMIT. intros Hal Hva Hlen Hlim.
  pose proof (align_up_bounds len ltac:(unfold umax; unfold PAGE_SIZE; lia)) as [Hsz Hszm]. unfold PAGE_SIZE in Hsz, Hszm.
  apply Z.mod_divide in Hszm as [c Hc]; [|done]. exists (Z.to_nat c). split_and!; [lia|lia|lia|].
  apply Z.mod_divide in Hal as [d ->]; [|done]. change (2 ^ 47) with (34359738368 * 4096) in *. lia.
Qed.

(** [mmap_user_fixed] maps a fresh block at the pages of the range. *)
Lemma mmap_user_spec s trees fs owner root va len protection : sys_ok s trees fs → root ∈ roots s →
  0 <= va → 0 <= len →
  match mmap_user_fixed TABLES HEAP_SIZE static_heap owner root va len protection s with
  | (Ok g, s') => ∃ more n k i,
      va mod 4096 = 0 ∧ va + 4096 * Z.of_nat n <= USER_LIMIT ∧
      (len <= 4096 * Z.of_nat n < len + 4096 ∧ align_up_u64 len = 4096 * Z.of_nat n) ∧
      g = block_region owner k n protection ∧ (0 < n)%nat ∧ (k + n <= length (fs ++ more))%nat ∧
      live s'.(manager) ≡ₚ block_record owner k n protection :: live s.(manager) ∧
      s'.(manager).(MemoryManager.bytes) = s.(manager).(MemoryManager.bytes) ∧ s'.(spaces) = s.(spaces) ∧
      free_slot s.(mappings) = Some i ∧
      s'.(mappings) = <[i := Some (UserMappingRecord.mk owner root va (KERNEL_HEAP_BASE + 4096 * Z.of_nat k)
                          (4096 * Z.of_nat n) protection)]> s.(mappings) ∧
      sys_ok s' trees (fs ++ more) ∧ kernel_grown fs (paging s) (paging s') ∧
      ∀ root2 va2, root2 ∈ roots s → 0 <= va2 < USER_LIMIT → upage (paging s') root2 va2 =
        if decide (root2 = root ∧ va <= va2 < va + 4096 * Z.of_nat n) then block_entry (fs ++ more) va k protection va2
        else upage (paging s) root2 va2
  | (Err _, s') => ∃ n, (n = 0%nat ∨ 4096 * Z.of_nat n = align_up_u64 len) ∧ mapping_failed s trees fs root va (4096 * Z.of_nat n) s'
  end.
Proof.
  intros Hs Hr Hva Hlen.
  assert (∃ n, (n = 0%nat ∨ 4096 * Z.of_nat n = align_up_u64 len) ∧ mapping_failed s trees fs root va (4096 * Z.of_nat n) s) as Hfail.
  { exists 0%nat. split; [by left|]. exists []. rewrite app_nil_r. by split_and!. }
  unfold mmap_user_fixed. destruct (root =? 0); [done|]. destruct (Z.eqb_spec len 0) as [|Hl0]; [done|]. cbn [orb].
  destruct (Z.eqb_spec (Z.land va (PAGE_SIZE - 1)) 0) as [Hal|]; [|done]. cbn [negb].
  fold (page_offset va) in Hal. rewrite page_offset_mod in Hal.
  destruct (checked_add 64 va len) as [e|] eqn:Ee; [|done]. apply checked_add_Some in Ee as [-> _].
  rewrite (bind_ok _ _ (va + len) s s) by done. destruct (Z.ltb_spec USER_LIMIT (va + len)) as [|Hlim]; [done|].
  destruct (mmap_user_guards va len) as (n & En & Hn & Hend); [done|done|lia|lia|]. rewrite En. cbv zeta.
  pose proof (mmap_block s trees fs owner n protection Hs) as Hm. unfold mbind at 1, M_bind at 1, on_manager.
  destruct (MemoryManager.mmap_for _ _ _ _ _ _) as [[g|[]] m].
  2:{ destruct Hm as (more & Hs1 & Hl & Hb & Henv & Hu). exists n. split; [by right|]. exists more.
      split_and!; [done|done|done|done|cbn [manager set_manager]; by rewrite Hl|done|]. intros root2 va2 Hr2 Hva2 _. by apply Hu. }
  destruct Hm as (more & k & Hs1 & -> & Hn0 & Hkn & Hlive & Hbytes & Henv & Hu). set (s1 := set_manager m s) in *.
  assert (heap_ok trees kroot (KernelHeap.mk (paging s1) (s1.(manager).(MemoryManager.pages).(KernelHeap.layout))) (fs ++ more)) as Hheap.
  { pose proof (so_heap _ _ _ Hs1) as Hh. unfold paging. by destruct (s1.(manager).(MemoryManager.pages)). }
  assert (user_tree root ∈ trees) as Ht by by apply (sys_tree _ _ _ root Hs).
  pose proof (map_block_loop trees (paging s1) _ (fs ++ more) root va k protection Hheap Ht Hva 0 n (paging s1)
    (block_mapped_0 _ _ _ _ _ _ _ _ Hheap) ltac:(lia)) as Hloop.
  change (4096 * Z.of_nat 0) with 0 in Hloop. rewrite Z.add_0_l in Hloop. cbn [Nat.add] in Hloop.
  assert (∀ p j, block_mapped trees (paging s1) (fs ++ more) root va k protection p j →
    sys_ok (set_paging p s1) trees (fs ++ more)) as Hstep.
  { intros p j Hb. apply paging_step_same; [done|apply Hb|]. eapply block_pages_in; [done|done|apply (so_user _ _ _ Hs1)]. }
  assert (∀ p j, block_mapped trees (paging s1) (fs ++ more) root va k protection p j → kernel_grown fs (paging s) p) as Henvp.
  { intros p j Hb. eapply kernel_grown_step; [exact Henv|]. apply (bm_step _ _ _ _ _ _ _ _ _ Hb). }
  assert (∀ p j, (j <= n)%nat → block_mapped trees (paging s1) (fs ++ more) root va k protection p j →
    ∃ s', munmap HEAP_SIZE static_heap (block_region owner k n protection) (set_paging p s1) = (Ok tt, s') ∧
      mapping_failed s trees fs root va (4096 * Z.of_nat n) s') as Hundo.
  { intros p j Hj Hb. eapply (unmap_block s s1 p); [by apply (Hstep p j)|done|done|done|done|by apply (Henvp p j)|].
    intros root2 va2 Hr2 Hva2 Hne. rewrite (bm_pages _ _ _ _ _ _ _ _ _ Hb) by (done || by apply (sys_tree _ _ _ root2 Hs)).
    rewrite decide_False by lia. by apply Hu. }
  unfold mbind at 1, M_bind at 1, catch at 1.
  change (map_block_page root va (block_region owner k n protection) protection) with
    (λ i, on_paging (map_block root va protection (KERNEL_HEAP_BASE + 4096 * Z.of_nat k) i)).
  rewrite on_paging_mfor. unfold on_paging. destruct (mfor _ _ (paging s1)) as [[[]|[]] p].
  2:{ destruct Hloop as (j & Hj & Hb). destruct (Hundo p j Hj Hb) as (s' & E & H). rewrite (bind_ok _ _ _ _ _ E). exists n. by split; [right|]. }
  unfold gets, mbind, M_bind. cbn [mappings set_paging set_manager s1].
  destruct (free_slot s.(mappings)) as [i|] eqn:Hi.
  2:{ destruct (Hundo p n ltac:(lia) Hloop) as (s' & E & H). fold s1. rewrite E. exists n. by split; [right|]. }
  unfold modify, mret, M_ret. exists more, n, k, i. split_and!; try done; try lia.
  - fold s1. apply set_mappings_ok; [by apply (Hstep p n)|].
    intros r'. rewrite (occupied_insert_free _ _ _ Hi), elem_of_cons. intros [->|Hr'].
    { split; [|change (root ∈ roots s1); unfold roots, s1; done]. split_and!; [cbn; lia|cbn; lia|].
      cbn [UserMappingRecord.length_]. by rewrite Z.mul_comm, Z.mod_mul. }
    split; [by apply (so_mappings _ _ _ Hs)|by apply (so_mapped _ _ _ Hs)].
  - by apply (Henvp p n).
  - intros root2 va2 Hr2 Hva2. change (upage p root2 va2 = if decide (root2 = root ∧ va <= va2 < va + 4096 * Z.of_nat n)
      then block_entry (fs ++ more) va k protection va2 else upage (paging s) root2 va2).
    rewrite (bm_pages _ _ _ _ _ _ _ _ _ Hloop) by (done || by apply (sys_tree _ _ _ root2 Hs)).
    case_decide; [done|]. by apply Hu.
Qed.

(** *** Cloning *)
(** the memory of a mapping is a live block *)
Definition block_live s (r : UserMappingRecord.t) : Prop :=
  ∃ b, b ∈ live s.(manager) ∧ KERNEL_HEAP_BASE + b.(AllocationRecord.offset) = r.(UserMappingRecord.kernel_start) ∧
    r.(UserMappingRecord.length_) <= b.(AllocationRecord.size).
Definition sbyte s (a : Z) : Z := byte s.(manager) a.
Definition in_live s (a : Z) : Prop :=
  ∃ b, b ∈ live s.(manager) ∧ within a (KERNEL_HEAP_BASE + b.(AllocationRecord.offset), b.(AllocationRecord.size)).

(** what is live in [s] is live in [s'], with the same contents *)
Record carries s s' : Prop := {
  ca_live : ∀ b, b ∈ live s.(manager) → b ∈ live s'.(manager);
  ca_bytes : ∀ a, in_live s a → sbyte s' a = sbyte s a;
  ca_mappings : ∀ r, Some r ∈ s.(mappings) → Some r ∈ s'.(mappings);
  ca_spaces : s'.(spaces) = s.(spaces)
}.
Lemma carries_refl s : carries s s.
Proof. by split. Qed.
Lemma carries_trans s1 s2 s3 : carries s1 s2 → carries s2 s3 → carries s1 s3.
Proof.
  intros [A1 A2 A3 A4] [B1 B2 B3 B4]. split; [auto| |auto|congruence].
  intros a Ha. rewrite B2, A2; [done|done|]. destruct Ha as (b & Hb & Hw). exists b. auto.
Qed.

(** [r'] is a copy of [r]: the same pages, a block of its own, the same contents *)
Definition copy_of s (owner child : Z) (r : UserMappingRecord.t) s' : Prop := ∃ r', Some r' ∈ s'.(mappings) ∧
  r' = UserMappingRecord.mk owner child r.(UserMappingRecord.user_start) r'.(UserMappingRecord.kernel_start)
         r.(UserMappingRecord.length_) r.(UserMappingRecord.protection) ∧
  block_live s' r' ∧ (∀ a, in_live s a → ¬ within a (r'.(UserMappingRecord.kernel_start), r'.(UserMappingRecord.length_))) ∧
  ∀ i, 0 <= i < r.(UserMappingRecord.length_) →
    sbyte s' (r'.(UserMappingRecord.kernel_start) + i) = sbyte s (r.(UserMappingRecord.kernel_start) + i).

Lemma block_live_in s r i : block_live s r → 0 <= i < r.(UserMappingRecord.length_) →
  in_live s (r.(UserMappingRecord.kernel_start) + i).
Proof. intros (b & Hb & E & Hl) Hi. exists b. split; [done|]. unfold within. cbn. lia. Qed.
Lemma block_live_carries s s' r : carries s s' → block_live s r → block_live s' r.
Proof. intros [H _ _ _] (b & Hb & E & Hl). exists b. auto. Qed.
Lemma copy_of_carries s s1 s2 owner child r : carries s1 s2 → copy_of s owner child r s1 → copy_of s owner child r s2.
Proof.
  intros Hc (r' & H1 & H2 & H3 & H4 & H5). exists r'.
  split_and!; [by apply (ca_mappings _ _ Hc)|done|by eapply block_live_carries|done|].
  intros i Hi. rewrite (ca_bytes _ _ Hc); [by apply H5|]. apply block_live_in; [done|]. by rewrite H2.
Qed.

(** a block just taken does not touch the others *)
Lemma fresh_block s trees fs b l a : sys_ok s trees fs → live s.(manager) ≡ₚ b :: l →
  within a (KERNEL_HEAP_BASE + b.(AllocationRecord.offset), b.(AllocationRecord.size)) →
  ∀ q, q ∈ l → ¬ within a (KERNEL_HEAP_BASE + q.(AllocationRecord.offset), q.(AllocationRecord.size)).
Proof.
  intros Hs Hl Ha q Hq Hw.
  apply (live_apart HEAP_SIZE static_heap s.(manager) [] b l q (ok_core _ _ _ (so_memory _ _ _ Hs)) Hl Hq (a - KERNEL_HEAP_BASE)).
  unfold within, alloc_iv in *. cbn in *. lia.
Qed.

Lemma set_bytes_ok s trees fs b : sys_ok s trees fs → sys_ok (set_manager (MemoryManager.set_bytes b s.(manager)) s) trees fs.
Proof.
  intros Hs. apply release_step; [done| |done|done]. destruct (so_memory _ _ _ Hs) as [[W1 W2 W3 W4] W5 W6].
  split; [|done|done]. by split.
Qed.

(** the pages of every address space but one are as before *)
Definition others_same (child : Z) s s' : Prop := ∀ root va, root ∈ roots s → root ≠ child → 0 <= va < USER_LIMIT →
  upage (paging s') root va = upage (paging s) root va.

Lemma clone_mapping_spec s0 s trees fs owner parent child o : sys_ok s trees fs → child ∈ roots s →
  carries s0 s →
  match o with Some r => record_ok r | None => True end →
  match clone_mapping TABLES HEAP_SIZE static_heap owner parent child o s with
  | (Ok _, s') => carries s s' ∧ others_same child s s' ∧ (∃ more, sys_ok s' trees (fs ++ more)) ∧
      ∀ r, o = Some r → r.(UserMappingRecord.root) = parent → block_live s0 r → copy_of s0 owner child r s'
  | (Err _, s') => carries s s' ∧ others_same child s s' ∧ ∃ more, sys_ok s' trees (fs ++ more)
  end.
Proof.
  intros Hs Hc Hcar Ho. destruct o as [r|]; cbn [clone_mapping].
  2:{ split_and!; [apply carries_refl|done|exists []; by rewrite app_nil_r|done]. }
  destruct (Z.eqb_spec r.(UserMappingRecord.root) parent) as [Hp|Hp].
  2:{ split_and!; [apply carries_refl|done|exists []; by rewrite app_nil_r|by intros ? [= <-]]. }
  destruct Ho as (H1 & H2 & H3).
  pose proof (mmap_user_spec s trees fs owner child r.(UserMappingRecord.user_start) r.(UserMappingRecord.length_)
    r.(UserMappingRecord.protection) Hs Hc H1 H2) as Hm. unfold mbind, M_bind.
  destruct (mmap_user_fixed _ _ _ _ _ _ _ _ s) as [[g|[]] s1].
  2:{ destruct Hm as (n & _ & more & Hs1 & E1 & E2 & E3 & E4 & _ & Hpg). split_and!; [| |by exists more].
      2:{ intros root va Hr Hne Hva. apply Hpg; [done|done|naive_solver]. }
      split; [|unfold sbyte, byte; by rewrite E3|by rewrite E2|done]. intros b Hb. by rewrite E4. }
  destruct Hm as (more & n & k & i & _ & _ & Hn & -> & Hn0 & Hkn & Hl & Hb & Hsp & Hi & Hmap & Hs1 & _ & Hpg).
  assert (r.(UserMappingRecord.length_) = 4096 * Z.of_nat n) as Elen.
  { apply Z.mod_divide in H3 as [c Hc']; [|done]. lia. }
  cbn [MappedRegion.ptr block_region]. set (ks := KERNEL_HEAP_BASE + 4096 * Z.of_nat k).
  unfold modify. set (s2 := set_manager _ s1).
  assert (∀ a, sbyte s2 a = if decide (ks <= a < ks + 4096 * Z.of_nat n)
    then sbyte s (r.(UserMappingRecord.kernel_start) + (a - ks)) else sbyte s a) as Hby.
  { intros a. unfold s2, sbyte, byte. cbn. rewrite copy_lookup, Elen, Hb by lia. done. }
  assert (∀ a, in_live s a → ¬ within a (ks, 4096 * Z.of_nat n)) as Hfresh.
  { intros a (q & Hq & Hw) Hin. by eapply (fresh_block s1 trees (fs ++ more)). }
  assert (carries s s2) as Hcar2.
  { split.
    - intros b Hbl. change (b ∈ live s1.(manager)). rewrite Hl. by apply list_elem_of_further.
    - intros a Ha. rewrite Hby, decide_False; [done|]. by apply Hfresh.
    - intros q Hq. change (Some q ∈ s1.(mappings)). rewrite Hmap. apply elem_of_occupied.
      rewrite (occupied_insert_free _ _ _ Hi). by apply list_elem_of_further, elem_of_occupied.
    - done. }
  split_and!; [done| |exists more; by apply set_bytes_ok|].
  { intros root va Hr Hne Hva. change (paging s2) with (paging s1). rewrite Hpg by done. by rewrite decide_False by naive_solver. }
  intros ? [= <-] _ Hlive0.
  eexists. split_and!.
  - change (s2.(mappings)) with (s1.(mappings)). rewrite Hmap. apply elem_of_occupied.
    rewrite (occupied_insert_free _ _ _ Hi). apply list_elem_of_here.
  - cbn. by rewrite Elen.
  - exists (block_record owner k n r.(UserMappingRecord.protection)). split_and!; [|done|cbn; lia].
    change (block_record owner k n r.(UserMappingRecord.protection) ∈ live s1.(manager)). rewrite Hl. apply list_elem_of_here.
  - intros a (q & Hq & Hw). apply Hfresh. exists q. split; [by apply (ca_live _ _ Hcar)|done].
  - cbn [UserMappingRecord.kernel_start]. intros j Hj. rewrite Hby, decide_True by (fold ks; lia).
    rewrite <-(ca_bytes _ _ Hcar); [f_equal; fold ks; lia|]. by apply block_live_in.
Qed.

Lemma clone_loop s0 trees owner parent child l s fs : sys_ok s trees fs → child ∈ roots s → carries s0 s →
  (∀ r, Some r ∈ l → record_ok r) →
  match mfor l (clone_mapping TABLES HEAP_SIZE static_heap owner parent child) s with
  | (Ok _, s') => carries s s' ∧ others_same child s s' ∧ (∃ more, sys_ok s' trees (fs ++ more)) ∧
      ∀ r, Some r ∈ l → r.(UserMappingRecord.root) = parent → block_live s0 r → copy_of s0 owner child r s'
  | (Err _, s') => carries s s' ∧ others_same child s s' ∧ ∃ more, sys_ok s' trees (fs ++ more)
  end.
Proof.
  revert s fs. induction l as [|o l IH]; intros s fs Hs Hc Hcar Hl.
  { split_and!; [apply carries_refl|done|exists []; by rewrite app_nil_r|]. by intros r ?%elem_of_nil. }
  cbn [mfor]. pose proof (clone_mapping_spec s0 s trees fs owner parent child o Hs Hc Hcar) as H1.
  unfold mbind, M_bind. destruct (clone_mapping _ _ _ _ _ _ o s) as [[[]|[]] s1].
  2:{ apply H1. destruct o as [r|]; [apply Hl, list_elem_of_here|done]. }
  destruct H1 as (Hcar1 & Hoth1 & [more Hs1] & Hcopy).
  { destruct o as [r|]; [apply Hl, list_elem_of_here|done]. }
  specialize (IH s1 (fs ++ more) Hs1).
  assert (roots s1 = roots s) as Er by (unfold roots; by rewrite (ca_spaces _ _ Hcar1)). rewrite Er in IH.
  specialize (IH Hc (carries_trans _ _ _ Hcar Hcar1) (λ r Hr, Hl r (list_elem_of_further _ _ _ Hr))).
  assert (∀ s2, others_same child s1 s2 → others_same child s s2) as Hoth.
  { intros s2 H2 root va Hr Hne Hva. rewrite H2, Hoth1; [done|done|done|done|by rewrite Er|done|done]. }
  destruct (mfor l _ s1) as [[[]|[]] s2].
  - destruct IH as (Hcar2 & Hoth2 & [more2 Hs2] & Hcopy2).
    split_and!; [by eapply carries_trans|by apply Hoth|exists (more ++ more2); by rewrite app_assoc|].
    intros r [<-|Hr]%elem_of_cons Hp Hbl; [|by apply Hcopy2]. eapply copy_of_carries; [done|]. by apply Hcopy.
  - destruct IH as (Hcar2 & Hoth2 & [more2 Hs2]).
    split_and!; [by eapply carries_trans|by apply Hoth|]. exists (more ++ more2). by rewrite app_assoc.
Qed.

Lemma clone_spec s trees fs owner parent : sys_ok s trees fs →
  match clone_user_address_space TABLES HEAP_SIZE static_heap owner parent s with
  | (Ok child, s') => (∃ trees' fs', sys_ok s' trees' fs') ∧ child ∉ roots s ∧ child ∈ roots s' ∧ user_same s s' ∧
      (∀ a, in_live s a → sbyte s' a = sbyte s a) ∧
      (parent ≠ 0 → ∀ r, Some r ∈ s.(mappings) → r.(UserMappingRecord.root) = parent → block_live s r →
         copy_of s owner child r s')
  | (Err _, s') => (∃ trees' fs', sys_ok s' trees' fs') ∧ user_same s s' ∧ ∀ a, in_live s a → sbyte s' a = sbyte s a
  end.
Proof.
  intros Hs. unfold clone_user_address_space. pose proof (space_create_spec s trees fs owner Hs) as Hc.
  destruct (Z.eqb_spec parent 0) as [->|Hp].
  { destruct (create_user_address_space owner s) as [[child|[]] s1].
    - destruct Hc as (p & table & -> & Hs1 & Hfresh & Hperm & _ & _ & Hu).
      split_and!; [by do 2 eexists|done| |done|done|done]. unfold roots. cbn [spaces set_spaces]. rewrite Hperm. apply list_elem_of_here.
    - destruct Hc as (p & -> & Hs1 & _ & Hu). split_and!; [by do 2 eexists|done|done]. }
  unfold mbind at 1, M_bind at 1. destruct (create_user_address_space owner s) as [[child|[]] s1].
  2:{ destruct Hc as (p & -> & Hs1 & _ & Hu). split_and!; [by do 2 eexists|done|done]. }
  destruct Hc as (p & table & E1 & Hs1 & Hfresh & Hperm & _ & _ & Hu).
  assert (child ∈ roots s1) as Hchild by (rewrite E1; unfold roots; cbn [spaces set_spaces]; rewrite Hperm; apply list_elem_of_here).
  assert (∀ root, root ∈ roots s → root ∈ roots s1 ∧ root ≠ child) as Hold.
  { intros root Hr. split; [|by intros ->]. rewrite E1. unfold roots. cbn [spaces set_spaces]. rewrite Hperm. by apply list_elem_of_further. }
  assert (s1.(mappings) = s.(mappings)) as Em by by rewrite E1.
  rewrite (bind_ok _ _ s1.(mappings) s1 s1) by done. rewrite Em.
  pose proof (clone_loop s1 (user_tree child :: trees) owner parent child s.(mappings) s1 fs Hs1 Hchild (carries_refl s1)) as Hloop.
  assert (∀ r, Some r ∈ s.(mappings) → record_ok r) as Hrec.
  { intros r Hr. apply (so_mappings _ _ _ Hs). by apply elem_of_occupied. }
  unfold mbind, M_bind.
  assert (∀ a, in_live s a → in_live s1 a ∧ sbyte s1 a = sbyte s a) as Hsame by by rewrite E1.
  assert (∀ s2, others_same child s1 s2 → user_same s s2) as Hothers.
  { intros s2 H2 root va Hr Hva. destruct (Hold root Hr). rewrite H2 by done. by apply Hu. }
  destruct (mfor s.(mappings) _ s1) as [[[]|[]] s2]; specialize (Hloop Hrec).
  - destruct Hloop as (Hcar & Hoth & [more Hs2] & Hcopy). split_and!.
    + by do 2 eexists.
    + done.
    + unfold roots. by rewrite (ca_spaces _ _ Hcar).
    + by apply Hothers.
    + intros a [Ha <-]%Hsame. by apply (ca_bytes _ _ Hcar).
    + intros _ r Hr Hpr Hbl. rewrite E1 in Hcopy. exact (Hcopy r Hr Hpr Hbl).
  - destruct Hloop as (Hcar & Hoth & [more Hs2]). split_and!; [by do 2 eexists|by apply Hothers|].
    intros a [Ha <-]%Hsame. by apply (ca_bytes _ _ Hcar).
Qed.

(** *** Ending a process, and the other calls *)
Lemma mfor_destroy_ok l s trees fs : sys_ok s trees fs →
  ∃ trees', sys_ok (mfor l (destroy_user_address_space HEAP_SIZE static_heap) s).2 trees' fs ∧
    (mfor l (destroy_user_address_space HEAP_SIZE static_heap) s).1 = Ok tt.
Proof.
  revert s trees. induction l as [|root l IH]; intros s trees Hs; cbn [mfor]; [by exists trees|].
  destruct (destroy_ok s trees fs root Hs) as [trees1 Hs1].
  assert ((destroy_user_address_space HEAP_SIZE static_heap root s).1 = Ok tt) as E1.
  { destruct (decide (root ∈ roots s)) as [Hr|Hr].
    - destruct (space_destroy_spec s trees fs root Hs Hr) as (i & sp & _ & _ & E & _). done.
    - unfold destroy_user_address_space. destruct (root =? 0); [done|]. rewrite (bind_ok _ _ s.(spaces) s s) by done.
      destruct (find_slot (has_root root) s.(spaces)) as [i|] eqn:Hi; [|cbn [mbind option_bind]; by rewrite release_mappings_spec].
      destruct Hr. apply find_slot_Some in Hi as (sp & Hi & <-%Z.eqb_eq & _).
      apply list_elem_of_fmap. exists sp. split; [done|]. apply elem_of_occupied. by eapply list_elem_of_lookup_2. }
  unfold mbind, M_bind. destruct (destroy_user_address_space _ _ root s) as [[[]|] s1]; [|done]. by apply (IH s1 trees1).
Qed.
Lemma end_process_ok s trees fs owner : sys_ok s trees fs →
  ∃ trees', sys_ok (release_process HEAP_SIZE static_heap owner s).2 trees' fs.
Proof.
  intros Hs. unfold release_process. rewrite (bind_ok _ _ s.(spaces) s s) by done.
  destruct (mfor_destroy_ok (roots_of owner s.(spaces)) s trees fs Hs) as (trees' & Hs' & E).
  unfold mbind, M_bind. destruct (mfor _ _ s) as [[[]|] s1]; [|done]. cbn [snd] in *. exists trees'.
  apply release_step; [done|by apply release_process_spec, Hs'|apply release_process_pages|apply release_process_backing].
Qed.
Lemma copy_to_user_ok s trees fs root ptr data : sys_ok s trees fs → sys_ok (copy_to_user s root ptr data).2 trees fs.
Proof. intros Hs. unfold copy_to_user. destruct (active_translated_slice _ _ _ _ _); [|done]. by apply set_bytes_ok. Qed.
Lemma memory_call_ok s trees fs c : sys_ok s trees fs → call_sizes c →
  ∃ more, sys_ok (set_manager (run_mem HEAP_SIZE static_heap c s.(manager)) s) trees (fs ++ more).
Proof.
  intros Hs Hc. destruct (memory_step s trees fs (run_mem HEAP_SIZE static_heap c s.(manager)) Hs) as (more & H & _).
  - apply run_mem_ok; [by apply snap_ok|done].
  - assert (virtual_heap s.(manager)) as Hv.
    { destruct (so_virtual _ _ _ Hs) as [fr E]. unfold virtual_heap. by rewrite E. }
    destruct c; cbn [run_mem].
    + by apply malloc_virtual.
    + by apply malloc_aligned_virtual.
    + by apply realloc_virtual.
    + unfold virtual_heap, MemoryManager.free_for. by rewrite release_backing.
    + by apply mmap_virtual.
    + unfold virtual_heap, MemoryManager.munmap_ptr_for. by rewrite release_backing.
    + unfold virtual_heap. by rewrite release_process_backing.
    + unfold virtual_heap, MemoryManager.disable_static_heap in *. by destruct s.(manager).(MemoryManager.backing) eqn:E; [|rewrite E|].
  - by exists more.
Qed.
End system.
