(* ===== verification/AddressSpaceTheorems.v ===== *)
(** * Theorems about user memory

    Every history of the calls on address spaces and memory, from boot on: what a user can
    reach, what a new mapping shows the user, what copies and clones hold. *)

From stdpp Require Import prelude gmap.
From S2P Require Import Prelude Slots Subkernel FrameAllocator FrameSafety Paging PagingSafety PagingFrames PagingTheorems KernelHeap KernelHeapSafety MemoryManager MemoryManagerSafety MemoryTheorems AddressSpaces AddressSpaceSafety.
Import AddressSpaces.

Local Open Scope Z_scope.

(** ** Histories *)
Module SpaceCall.
Inductive t : Type :=
| Create (owner : Z)
| Share (root : Z)
| Clone (owner parent : Z)
| Destroy (root : Z)
| MapUser (owner root virtual_address length_ : Z) (protection : MemoryProtection.t)
| CopyToUser (root ptr : Z) (data : list Z)
| Write (address : Z) (data : list Z)
| EndProcess (owner : Z)
| Switch (root : Z)
| Memory (c : MemCall.t).
End SpaceCall.

Section histories.
Context {F : Type} `{!FrameSource F} `{!FrameSourceLaws F}.
Variables (TABLES HEAP_SIZE static_heap kroot : Z).
Implicit Types s : AddressSpaces.t F.
#[local] Instance history_backing : HeapBacking (KernelHeap.t F) := kernel_backing TABLES.

Definition run_space (c : SpaceCall.t) s : AddressSpaces.t F :=
  match c with
  | SpaceCall.Create owner => (create_user_address_space owner s).2
  | SpaceCall.Share root => (share_user_address_space root s).2
  | SpaceCall.Clone owner parent => (clone_user_address_space TABLES HEAP_SIZE static_heap owner parent s).2
  | SpaceCall.Destroy root => (destroy_user_address_space HEAP_SIZE static_heap root s).2
  | SpaceCall.MapUser owner root va len protection =>
      (mmap_user_fixed TABLES HEAP_SIZE static_heap owner root va len protection s).2
  | SpaceCall.CopyToUser root ptr data => (copy_to_user s root ptr data).2
  | SpaceCall.Write address data => write_memory address data s
  | SpaceCall.EndProcess owner => (release_process HEAP_SIZE static_heap owner s).2
  | SpaceCall.Switch root => set_paging (switch_address_space root (paging s)).2 s
  | SpaceCall.Memory c => set_manager (run_mem HEAP_SIZE static_heap c s.(manager)) s
  end.
(** callers map into live address spaces; sizes and addresses are machine integers *)
Definition space_call_ok s (c : SpaceCall.t) : Prop :=
  match c with
  | SpaceCall.MapUser _ root va len _ => root ∈ roots s ∧ 0 <= va ∧ 0 <= len
  | SpaceCall.Memory c => call_sizes c
  | _ => True
  end.

(** the state [initialize_from_boot_info] starts the heap in: nothing is mapped in its range,
    the first frame is not handed out *)
Record boot_ready s : Prop := {
  br_heap : heap_ok [kernel_tree kroot] kroot s.(manager).(MemoryManager.pages) [];
  br_manager : ∃ n, s.(manager) = MemoryManager.new n s.(manager).(MemoryManager.pages);
  br_static : 0 < static_heap ∧ 0 <= HEAP_SIZE ∧ static_heap + HEAP_SIZE <= umax 64;
  br_spaces : occupied s.(spaces) = [];
  br_mappings : occupied s.(mappings) = [];
  br_kernel : (paging s).(Paging.kernel_pml4_physical) = kroot;
  br_zero : ¬ spare (paging s).(Paging.frames) 0
}.

Inductive space_reachable : AddressSpaces.t F → Prop :=
| space_boot s : boot_ready s → virtual_heap (start_heap TABLES s).(manager) → space_reachable (start_heap TABLES s)
| space_call s c : space_reachable s → space_call_ok s c → space_reachable (run_space c s).

Lemma start_heap_ok s : boot_ready s → virtual_heap (start_heap TABLES s).(manager) →
  ∃ fs, sys_ok TABLES HEAP_SIZE static_heap kroot (start_heap TABLES s) [kernel_tree kroot] fs.
Proof.
  intros [B1 [n B2] (B3 & B4 & B5) B6 B7 B8 B9]. unfold start_heap.
  pose proof (initialize_heap_spec TABLES [kernel_tree kroot] kroot _ B1) as Hi.
  destruct (initialize_heap TABLES s.(manager).(MemoryManager.pages)) as [[l|e] h].
  2:{ rewrite B2. by intros []. }
  intros _. destruct Hi as (fs & Hh & El & Hlen & [Mp Me Mt Ms]).
  pose proof (ho_layout _ _ _ _ Hh) as Hl. rewrite El in Hl. subst l.
  cbn [KernelHeapLayout.base KernelHeapLayout.reserved_bytes KernelHeapLayout.committed_bytes KernelHeapLayout.frame_count].
  rewrite Hlen. set (m0 := MemoryManager.new n h : MemoryManager.t (KernelHeap.t F)).
  assert (MemoryManager.set_backing s.(manager).(MemoryManager.backing) h s.(manager) = m0) as -> by by rewrite B2.
  pose proof (manager_new_ok (HeapBackingLaws0 := kernel_backing_laws TABLES [kernel_tree kroot] kroot) HEAP_SIZE static_heap n h B3 B4 B5) as Hok.
  fold m0 in Hok.
  destruct (promote_spec (HeapBackingLaws0 := kernel_backing_laws TABLES [kernel_tree kroot] kroot) HEAP_SIZE static_heap m0
    KERNEL_HEAP_BASE KERNEL_HEAP_RESERVED_BYTES INITIAL_HEAP_COMMIT_BYTES (Z.of_nat (length fs)) Hok) as [Hok' _];
    [|done|done|done|].
  { split_and!; [done|done|]. by exists fs. }
  assert (roots (set_manager (MemoryManager.promote_to_virtual_heap KERNEL_HEAP_BASE KERNEL_HEAP_RESERVED_BYTES
    INITIAL_HEAP_COMMIT_BYTES (Z.of_nat (length fs)) m0) s) = []) as Er by (unfold roots; cbn; by rewrite B6).
  exists fs. split; rewrite ?Er.
  - done.
  - done.
  - rewrite Hlen. by eexists.
  - intros root va e Ht%list_elem_of_singleton. by destruct (user_kernel_ne root kroot).
  - intros t. rewrite list_elem_of_singleton. split; [by left|]. by intros [?|(r & ?%elem_of_nil & _)].
  - constructor.
  - rewrite <-B8. apply Me.
  - split; [intros Hz; by apply B9, Ms|]. intros (root & q & Ht%list_elem_of_singleton & _). by destruct (user_kernel_ne root kroot).
  - cbn [mappings set_manager]. rewrite B7. by intros r ?%elem_of_nil.
  - cbn [spaces set_manager]. rewrite B6. by intros r ?%elem_of_nil.
  - cbn [mappings set_manager]. rewrite B7. by intros r ?%elem_of_nil.
Qed.

(** switching writes registers only *)
Lemma registers_ok s trees fs target cr3 : sys_ok TABLES HEAP_SIZE static_heap kroot s trees fs →
  sys_ok TABLES HEAP_SIZE static_heap kroot (set_paging (Paging.set_roots (paging s).(Paging.kernel_pml4_physical) target
    (Paging.set_cpu cr3 (paging s).(Paging.invalidated) (paging s))) s) trees fs.
Proof.
  intros [H1 H2 H3 H4 H5 H6 H7 H8 H9 H10 H11].
  assert (∀ h, heap_ok trees kroot h fs → heap_ok trees kroot (KernelHeap.mk (let p := h.(KernelHeap.paging) in
    Paging.set_roots p.(Paging.kernel_pml4_physical) target (Paging.set_cpu cr3 p.(Paging.invalidated) p)) h.(KernelHeap.layout)) fs) as Hh.
  { intros h [[[K1 K2 K3] K4 K5 K6 K7] G2 G3 G4 G5 G6 G7]. by split. }
  split; try done; [|by apply Hh].
  apply (ok_repage (kernel_backing_laws TABLES trees kroot)); [done|]. intros base cap committed frames E (-> & -> & fs' & Hf & -> & _).
  split_and!; [done|done|]. exists fs. split_and!; [by apply Hh| |done]. destruct H3 as [fr E']. congruence.
Qed.
Lemma switch_ok s trees fs root : sys_ok TABLES HEAP_SIZE static_heap kroot s trees fs →
  sys_ok TABLES HEAP_SIZE static_heap kroot (set_paging (switch_address_space root (paging s)).2 s) trees fs.
Proof.
  intros Hs. unfold switch_address_space, load_cr3, mbind, M_bind, gets, modify. cbv zeta.
  set (target := if root =? 0 then _ else root). destruct (target =? 0); [unfold throw; cbn [snd]; by rewrite set_paging_eq|].
  destruct (negb _); cbn [snd]; [by apply registers_ok|cbn; by rewrite set_paging_eq].
Qed.

Lemma space_reachable_ok s : space_reachable s → ∃ trees fs, sys_ok TABLES HEAP_SIZE static_heap kroot s trees fs.
Proof.
  induction 1 as [s Hb Hv|s c _ (trees & fs & Hs) Hc].
  { destruct (start_heap_ok s Hb Hv) as [fs H]. by do 2 eexists. }
  destruct c as [owner|root|owner parent|root|owner root va len prot|root ptr data|address data|owner|root|c]; cbn [run_space].
  - pose proof (space_create_spec _ _ _ _ _ _ _ owner Hs) as H. destruct (create_user_address_space owner s) as [[root|[]] s'].
    + destruct H as (p & table & _ & H & _). by do 2 eexists.
    + destruct H as (p & _ & H & _). by do 2 eexists.
  - exists trees, fs. by apply share_ok.
  - pose proof (clone_spec _ _ _ _ _ _ _ owner parent Hs) as H.
    destruct (clone_user_address_space _ _ _ owner parent s) as [[root|[]] s']; apply H.
  - destruct (destroy_ok _ _ _ _ _ _ _ root Hs) as [trees' H]. by do 2 eexists.
  - destruct Hc as (Hr & Hva & Hlen). pose proof (mmap_user_spec _ _ _ _ _ _ _ owner root va len prot Hs Hr Hva Hlen) as H.
    destruct (mmap_user_fixed _ _ _ _ _ _ _ _ s) as [[g|[]] s'].
    + destruct H as (more & n & k & i & H). exists trees, (fs ++ more). apply H.
    + destruct H as (n & _ & more & H & _). by do 2 eexists.
  - exists trees, fs. by apply copy_to_user_ok.
  - exists trees, fs. by apply set_bytes_ok.
  - destruct (end_process_ok _ _ _ _ _ _ _ owner Hs) as [trees' H]. by do 2 eexists.
  - exists trees, fs. by apply switch_ok.
  - destruct (memory_call_ok _ _ _ _ _ _ _ c Hs Hc) as [more H]. by do 2 eexists.
Qed.
End histories.

(** ** What a user can reach *)
Section translations.
Context {F : Type} `{!FrameSource F} `{!FrameSourceLaws F}.
Variables (TABLES HEAP_SIZE static_heap kroot : Z).
Implicit Types s : AddressSpaces.t F.

Lemma translate_user_upage s root va write : root ≠ 0 → va < USER_LIMIT →
  translate_user_page root va write (paging s) =
  (e ← upage (paging s) root va;
   if user_access write e then Some (Z.land e ADDRESS_MASK + va mod 4096) else None).
Proof.
  intros Hr Hva. rewrite translate_user_page_of by done. unfold upage. destruct (page_of _ _ _) as [e|]; [|done].
  cbn. destruct (user_access write e); [|done]. rewrite page_offset_mod, frame_offset; [done|apply framed_land|].
  apply Z.mod_pos_bound. lia.
Qed.
Lemma translate_user_beyond s root va write : USER_LIMIT <= va → translate_user_page root va write (paging s) = None.
Proof. intros Hva. unfold translate_user_page, user_leaf_table. by rewrite (proj2 (Z.leb_le _ _)), orb_true_r by done. Qed.

Lemma same_upage_translation s trees fs s' root va write : sys_ok TABLES HEAP_SIZE static_heap kroot s trees fs →
  root ∈ roots s → (va < USER_LIMIT → upage (paging s') root va = upage (paging s) root va) →
  translate_user_page root va write (paging s') = translate_user_page root va write (paging s).
Proof.
  intros Hs Hr He. destruct (live_root _ _ _ _ _ _ _ _ Hs Hr) as [Hr0 _].
  destruct (Z_lt_le_dec va USER_LIMIT); [|by rewrite !translate_user_beyond]. rewrite !translate_user_upage by done. by rewrite He.
Qed.

(** an address of a user is an address of the heap *)
Lemma user_translation s trees fs root va write a : sys_ok TABLES HEAP_SIZE static_heap kroot s trees fs →
  root ∈ roots s → 0 <= va → translate_user_page root va write (paging s) = Some a →
  ∃ o, 0 <= o < 4096 * Z.of_nat (length fs) ∧ translate_virt (KERNEL_HEAP_BASE + o) (paging s) = Some a ∧ align_down a ∈ fs.
Proof.
  intros Hs Hr Hva Ha. destruct (live_root _ _ _ _ _ _ _ _ Hs Hr) as [Hr0 _].
  destruct (Z_lt_le_dec va USER_LIMIT) as [Hlim|Hlim]; [|by rewrite translate_user_beyond in Ha].
  rewrite translate_user_upage in Ha by done. destruct (upage (paging s) root va) as [e|] eqn:He; [|done].
  cbn in Ha. destruct (user_access write e); [|done]. injection Ha as <-.
  pose proof (so_user _ _ _ _ _ _ _ Hs root va e (proj2 (sys_tree _ _ _ _ _ _ _ root Hs) Hr) (conj Hva Hlim) He) as Hin.
  apply list_elem_of_lookup in Hin as Hlk. destruct Hlk as [j Hj]. pose proof (lookup_lt_Some _ _ _ Hj) as Hlt.
  pose proof (Z.mod_pos_bound va 4096 eq_refl) as Hm. exists (4096 * Z.of_nat j + va mod 4096). split; [lia|].
  destruct (heap_translation trees kroot _ fs (4096 * Z.of_nat j + va mod 4096) (so_heap _ _ _ _ _ _ _ Hs)) as (f & Hf & Hfr & Htr & Had); [lia|].
  assert ((4096 * Z.of_nat j + va mod 4096) / 4096 = Z.of_nat j) as Ed by (symmetry; apply (Z.div_unique _ _ _ (va mod 4096)); lia).
  assert ((4096 * Z.of_nat j + va mod 4096) mod 4096 = va mod 4096) as Em by (symmetry; apply (Z.mod_unique _ _ (Z.of_nat j)); lia).
  rewrite Ed, Nat2Z.id, Hj in Hf. injection Hf as <-. rewrite Em in Htr, Had. split; [exact Htr|]. by rewrite Had.
Qed.

(** an address in a block behind pages of the user leads where the kernel's does *)
Lemma entry_translation s trees fs root start k n protection va write : sys_ok TABLES HEAP_SIZE static_heap kroot s trees fs →
  root ∈ roots s → (k + n <= length fs)%nat → start mod 4096 = 0 → start <= va < start + 4096 * Z.of_nat n → 0 <= va < USER_LIMIT →
  upage (paging s) root va = block_entry fs start k protection va →
  ∃ p, translate_virt (KERNEL_HEAP_BASE + 4096 * Z.of_nat k + (va - start)) (paging s) = Some p ∧
    translate_user_page root va write (paging s) =
    if negb write || protection.(MemoryProtection.write) then Some p else None.
Proof.
  intros Hs Hr Hk Hal Hva Hlim Hup. destruct (live_root _ _ _ _ _ _ _ _ Hs Hr) as [Hr0 _]. set (o := va - start).
  destruct (heap_translation trees kroot _ fs (4096 * Z.of_nat k + o) (so_heap _ _ _ _ _ _ _ Hs)) as (f & Hf & Hfr & Htr & _); [lia|].
  pose proof (Z.div_mod o 4096 ltac:(done)). pose proof (Z.mod_pos_bound o 4096 eq_refl). assert (0 <= o / 4096) by (apply Z.div_pos; lia).
  assert ((4096 * Z.of_nat k + o) / 4096 = Z.of_nat k + o / 4096) as Ed by (symmetry; apply (Z.div_unique _ _ _ (o mod 4096)); lia).
  assert ((4096 * Z.of_nat k + o) mod 4096 = o mod 4096) as Em by (symmetry; apply (Z.mod_unique _ _ (Z.of_nat k + o / 4096)); lia).
  rewrite Ed, Z2Nat.inj_add, Nat2Z.id in Hf by lia. rewrite Em, Z.add_assoc in Htr.
  exists (f + o mod 4096). split; [exact Htr|].
  rewrite translate_user_upage, Hup by (done || lia). unfold block_entry. fold o. rewrite Hf. cbn.
  unfold user_entry. rewrite user_access_lor, entry_frame by (done || by destruct (user_flags_spec protection)).
  destruct (user_flags_spec protection) as (_ & _ & ->). destruct (negb write || _); [|done].
  do 2 f_equal. unfold o. rewrite Zminus_mod, Hal, Z.sub_0_r, Z.mod_mod; done.
Qed.
End translations.

(** C8: In every state the calls on address spaces and memory reach from boot, whatever fails
    on the way, all memory a user can access is memory of the kernel heap: the address
    leads where some committed address of the heap leads, its frame is not free, and it is
    no page table of the kernel or of any live address space. *)
Theorem user_memory_confined {F : Type} `{!FrameSource F, !FrameSourceLaws F} TABLES HEAP_SIZE static_heap kroot
    (s : AddressSpaces.t F) root va write a :
  space_reachable TABLES HEAP_SIZE static_heap kroot s → root ∈ roots s → 0 <= va →
  translate_user_page root va write (paging s) = Some a →
  (∃ o, 0 <= o < KERNEL_HEAP_RESERVED_BYTES ∧ translate_virt (KERNEL_HEAP_BASE + o) (paging s) = Some a) ∧
  ¬ spare (paging s).(Paging.frames) (align_down a) ∧
  (∀ q, ¬ has_table (paging s) (kernel_tree kroot) q (align_down a)) ∧
  ∀ root2 q, root2 ∈ roots s → ¬ has_table (paging s) (user_tree root2) q (align_down a).
Proof.
  intros (trees & fs & Hs)%space_reachable_ok Hr Hva Ha.
  destruct (user_translation _ _ _ _ _ _ _ root va write a Hs Hr Hva Ha) as (o & Ho & Htr & Hin).
  pose proof (so_heap _ _ _ _ _ _ _ Hs) as Hh. destruct (ho_held _ _ _ _ Hh _ Hin) as (_ & Hsp & Ht).
  split_and!; [|done| |].
  - exists o. split; [|done]. pose proof (ho_len _ _ _ _ Hh). unfold KERNEL_HEAP_RESERVED_BYTES. lia.
  - intros q Hq. apply Ht. exists (kernel_tree kroot), q. split; [apply (ko_tree _ _ _ (ho_paging _ _ _ _ Hh))|done].
  - intros root2 q Hr2 Hq. apply Ht. exists (user_tree root2), q. split; [by apply (sys_tree _ _ _ _ _ _ _ root2 Hs)|done].
Qed.

(** the kernel's own view: what it translated it still translates to the same place, and
    only addresses in pages of the heap can have become mapped *)
Definition kernel_kept {F : Type} (p p' : Paging.t F) : Prop :=
  (∀ v a, translate_virt v p = Some a → translate_virt v p' = Some a) ∧
  ∀ v, (∀ o, 0 <= o < KERNEL_HEAP_RESERVED_BYTES → ¬ same_page v (KERNEL_HEAP_BASE + o)) →
    translate_virt v p' = translate_virt v p.
Lemma grown_kept {F : Type} `{!FrameSource F, !FrameSourceLaws F} TABLES HEAP_SIZE static_heap kroot
    (s : AddressSpaces.t F) trees fs p' : sys_ok TABLES HEAP_SIZE static_heap kroot s trees fs →
  kernel_grown kroot fs (paging s) p' → kernel_kept (paging s) p'.
Proof.
  intros Hs [(E1 & E2 & _) Hk]. pose proof (so_heap _ _ _ _ _ _ _ Hs) as Hh.
  destruct (ho_paging _ _ _ _ Hh) as [_ _ Ha Hn _]. fold (paging s) in Ha, Hn.
  assert (∀ v, translate_virt v (paging s) =
    (λ e, Z.lor (Z.land e ADDRESS_MASK) (page_offset v)) <$> page_of (paging s) (kernel_tree kroot) v) as T1
    by (intros v; by apply translate_virt_page).
  assert (∀ v, translate_virt v p' =
    (λ e, Z.lor (Z.land e ADDRESS_MASK) (page_offset v)) <$> page_of p' (kernel_tree kroot) v) as T2.
  { intros v. apply translate_virt_page; [by rewrite E2|]. rewrite E2, Ha. by rewrite E1. }
  split.
  - intros v a Hv. rewrite T2, Hk, <-T1; [done|]. intros k Hlt [Ep Ei]. pose proof (ho_free _ _ _ _ Hh k Hlt) as Hf.
    rewrite T1 in Hv. change (page_of (paging s) (kernel_tree kroot) (heap_va KERNEL_HEAP_BASE 0 k) = None) in Hf.
    unfold page_of, pte, leaf_entry in *. by rewrite Ep, Ei, Hf in Hv.
  - intros v Hv. rewrite T2, T1, Hk; [done|]. intros k Hlt Hsame. apply (Hv (4096 * Z.of_nat k)); [unfold KERNEL_HEAP_RESERVED_BYTES; lia|].
    unfold heap_va in Hsame. by rewrite Z.add_0_r in Hsame.
Qed.

(** C17: Mapping memory into an address space shows the user exactly the new block, of the
    length asked for rounded up to whole pages: every address of the range leads where the
    kernel's address of the same offset leads, for reading always and for writing if the
    protection allows it.  A record of the mapping is in the first free slot of the mapping
    table, and the rest of that table, the table of address spaces, the contents of memory
    and the other blocks are as before.  When the call fails, both tables, the blocks and
    the contents of memory are as before.  Either way no page of any user outside the range
    has changed, the kernel's translations hold as before, and only in the pages of its heap
    can new ones have appeared. *)
Theorem user_mapping_coherent {F : Type} `{!FrameSource F, !FrameSourceLaws F} TABLES HEAP_SIZE static_heap kroot
    (s : AddressSpaces.t F) owner root va len protection :
  space_reachable TABLES HEAP_SIZE static_heap kroot s → root ∈ roots s → 0 <= va → 0 <= len →
  let r := mmap_user_fixed TABLES HEAP_SIZE static_heap owner root va len protection s in
  let size := align_up_u64 len in
  r.2.(spaces) = s.(spaces) ∧ r.2.(manager).(MemoryManager.bytes) = s.(manager).(MemoryManager.bytes) ∧
  kernel_kept (paging s) (paging r.2) ∧
  (∀ root2 va2 write, root2 ∈ roots s → 0 <= va2 → ¬ (root2 = root ∧ va <= va2 < va + size) →
     translate_user_page root2 va2 write (paging r.2) = translate_user_page root2 va2 write (paging s)) ∧
  match r.1 with
  | Ok g =>
      g = MappedRegion.mk owner g.(MappedRegion.ptr) size size protection AllocationKind.Mapping ∧
      len <= size < len + 4096 ∧ va + size <= USER_LIMIT ∧
      (∀ o write, 0 <= o < size →
         is_Some (translate_virt (g.(MappedRegion.ptr) + o) (paging r.2)) ∧
         translate_user_page root (va + o) write (paging r.2) =
         if negb write || protection.(MemoryProtection.write)
         then translate_virt (g.(MappedRegion.ptr) + o) (paging r.2) else None) ∧
      (∃ i, free_slot s.(mappings) = Some i ∧
         r.2.(mappings) = <[i := Some (UserMappingRecord.mk owner root va g.(MappedRegion.ptr) size protection)]> s.(mappings)) ∧
      live r.2.(manager) ≡ₚ AllocationRecord.new owner (g.(MappedRegion.ptr) - KERNEL_HEAP_BASE) size
        AllocationKind.Mapping protection :: live s.(manager)
  | Err _ => r.2.(mappings) = s.(mappings) ∧ live r.2.(manager) ≡ₚ live s.(manager)
  end.
Proof.
  intros (trees & fs & Hs)%space_reachable_ok Hr Hva Hlen.
  pose proof (mmap_user_spec _ _ _ _ _ _ _ owner root va len protection Hs Hr Hva Hlen) as Hm.
  destruct (mmap_user_fixed _ _ _ _ _ _ _ _ s) as [[g|[]] s']; cbn [fst snd].
  2:{ destruct Hm as (n & Hn & more & _ & E1 & E2 & E3 & E4 & Hg & Hpg). split_and!; [done|done|by eapply grown_kept| |done|done].
      intros root2 va2 write Hr2 Hva2 Hne. eapply same_upage_translation; [done|done|]. intros Hlim. apply Hpg; [done|done|].
      intros [-> Hin]. apply Hne. destruct Hn as [->|<-]; [lia|done]. }
  destruct Hm as (more & n & k & i & Hal & Hend & [Hn En] & -> & Hn0 & Hkn & Hl & Hb & Hsp & Hi & Hmap & Hs' & Hg & Hpg).
  cbn [MappedRegion.length_ MappedRegion.ptr block_region]. rewrite En.
  split_and!; [done|done|by eapply grown_kept| |done|lia|lia|done| |by exists i|by rewrite Z.add_simpl_l].
  - intros root2 va2 write Hr2 Hva2 Hne. eapply same_upage_translation; [done|done|]. intros Hlim. rewrite Hpg by done. by rewrite decide_False.
  - intros o write Ho.
    destruct (entry_translation TABLES HEAP_SIZE static_heap kroot s' trees (fs ++ more) root va k n protection (va + o) write Hs')
      as (p & Htr & Hus); [unfold roots; by rewrite Hsp|lia|done|lia|lia|rewrite Hpg by (done || lia); by rewrite decide_True by lia|].
    rewrite Z.add_simpl_l in Htr. rewrite Htr, Hus. by split.
Qed.

(** ** Copies *)
Lemma store_lookup dst data (bytes : gmap Z Z) a : default 0 (store dst data bytes !! a) =
  if decide (dst <= a < dst + Z.of_nat (length data)) then default 0 (data !! Z.to_nat (a - dst)) else default 0 (bytes !! a).
Proof.
  revert dst bytes. induction data as [|b data IH]; intros dst bytes; cbn [store length].
  - by rewrite decide_False by lia.
  - rewrite IH. destruct (decide (a = dst)) as [->|Hne].
    + rewrite decide_False, decide_True, Z.sub_diag by lia. by rewrite lookup_insert_eq.
    + rewrite lookup_insert_ne by done. destruct (decide (dst + 1 <= a < dst + 1 + Z.of_nat (length data))).
      * rewrite decide_True by lia. replace (Z.to_nat (a - dst)) with (S (Z.to_nat (a - (dst + 1)))) by lia. done.
      * by rewrite decide_False by lia.
Qed.
Lemma load_store dst data bytes : load (store dst data bytes) dst (length data) = data.
Proof.
  apply list_eq. intros i. unfold load. rewrite list_lookup_fmap. destruct (decide (i < length data)%nat) as [Hi|Hi].
  - rewrite lookup_seqZ_lt by lia. cbn. rewrite store_lookup, decide_True by lia.
    replace (dst + (0 + Z.of_nat i) - dst) with (Z.of_nat i) by lia. rewrite Nat2Z.id.
    by destruct (lookup_lt_is_Some_2 data i Hi) as [x ->].
  - rewrite lookup_seqZ_ge by lia. cbn. symmetry. apply lookup_ge_None_2. lia.
Qed.

Section copies.
Context {F : Type}.
Implicit Types s : AddressSpaces.t F.

(** the mappings of an address space do not overlap *)
Definition mappings_apart s (root : Z) : Prop := ∀ i j r q,
  s.(mappings) !! i = Some (Some r) → s.(mappings) !! j = Some (Some q) → i ≠ j →
  r.(UserMappingRecord.root) = root → q.(UserMappingRecord.root) = root →
  apart_ivs (r.(UserMappingRecord.user_start), r.(UserMappingRecord.length_))
            (q.(UserMappingRecord.user_start), q.(UserMappingRecord.length_)).
(** a mapping that holds the whole range *)
Definition holds_range (r : UserMappingRecord.t) (root ptr len : Z) (write : bool) : Prop :=
  r.(UserMappingRecord.root) = root ∧ (write = true → r.(UserMappingRecord.protection).(MemoryProtection.write) = true) ∧
  r.(UserMappingRecord.user_start) <= ptr ∧ ptr + len <= r.(UserMappingRecord.user_start) + r.(UserMappingRecord.length_).

Lemma contains_holds r root ptr len write : UserMappingRecord.contains r root ptr len write = true →
  holds_range r root ptr len write.
Proof.
  unfold UserMappingRecord.contains, holds_range. destruct (Z.eqb_spec r.(UserMappingRecord.root) root) as [Hr|]; [|done]. cbn [negb orb].
  destruct write, r.(UserMappingRecord.protection).(MemoryProtection.write); cbn [negb andb]; try done;
    destruct (checked_add 64 ptr len) as [e|] eqn:Ee; try done; apply checked_add_Some in Ee as [-> _];
    unfold sat_add; intros [H1%Z.leb_le H2%Z.leb_le]%andb_true_iff; split_and!; try done; lia.
Qed.
Lemma contains_read r root ptr len : UserMappingRecord.contains r root ptr len true = true →
  UserMappingRecord.contains r root ptr len false = true.
Proof.
  unfold UserMappingRecord.contains. destruct (negb (_ =? _)); [done|]. cbn [orb andb].
  by destruct (negb _).
Qed.

(** reading finds the mapping that writing found *)
Lemma find_unique s root ptr len r : mappings_apart s root → 0 < len →
  slot_find (λ r, UserMappingRecord.contains r root ptr len true) s.(mappings) = Some r →
  slot_find (λ r, UserMappingRecord.contains r root ptr len false) s.(mappings) = Some r.
Proof.
  intros Hap Hlen [Hc Hin]%slot_find_Some.
  destruct (slot_find (λ r, UserMappingRecord.contains r root ptr len false) s.(mappings)) as [q|] eqn:Hq.
  2:{ rewrite slot_find_None in Hq. specialize (Hq r Hin). cbn in Hq. by rewrite contains_read in Hq. }
  apply slot_find_Some in Hq as [Hcq Hqin]. f_equal.
  apply list_elem_of_lookup in Hin as [i Hi]. apply list_elem_of_lookup in Hqin as [j Hj].
  destruct (decide (i = j)) as [->|Hne]; [congruence|]. exfalso.
  apply contains_holds in Hc as (R1 & _ & R2 & R3), Hcq as (Q1 & _ & Q2 & Q3).
  apply (Hap i j r q Hi Hj Hne R1 Q1 ptr). unfold within. cbn. lia.
Qed.
End copies.

(** What the kernel writes to user memory is what it reads back, provided the mappings of
    that address space do not overlap.  A write touches only bytes of the block behind one
    writable mapping that holds the whole range, at the same offset; a refused write
    changes nothing. *)
Theorem user_copy_roundtrip {F : Type} (s : AddressSpaces.t F) root ptr data :
  mappings_apart s root → data ≠ [] →
  let r := copy_to_user s root ptr data in
  (r.1 = false → r.2 = s) ∧
  (r.1 = true →
     (∀ out, length out = length data → copy_from_user r.2 root ptr out = (true, data)) ∧
     ∃ m, Some m ∈ s.(mappings) ∧ holds_range m root ptr (Z.of_nat (length data)) true ∧
       ∀ a, ¬ within a (m.(UserMappingRecord.kernel_start) + (ptr - m.(UserMappingRecord.user_start)), Z.of_nat (length data)) →
         sbyte r.2 a = sbyte s a).
Proof.
  intros Hap Hne. assert (0 < Z.of_nat (length data)) as Hlen by (destruct data; [done|cbn; lia]).
  unfold copy_to_user, copy_from_user, active_translated_slice. rewrite (proj2 (Z.eqb_neq _ _)) by lia.
  destruct (slot_find (λ r, UserMappingRecord.contains r root ptr _ true) s.(mappings)) as [m|] eqn:Hm; cbn [mbind option_bind]; [|done].
  destruct (_ =? 0) eqn:Ez; [done|]. split; [done|]. intros _. cbn [fst snd].
  apply slot_find_Some in Hm as Hin. destruct Hin as [Hc%contains_holds Hin]. split.
  - intros out Eo. rewrite Eo, (proj2 (Z.eqb_neq _ _)) by lia.
    cbn [mappings set_manager write_memory]. rewrite (find_unique s root ptr _ m Hap Hlen Hm). cbn [mbind option_bind]. rewrite Ez.
    cbn [write_memory manager set_manager MemoryManager.bytes MemoryManager.set_bytes]. by rewrite load_store.
  - exists m. split_and!; [done|done|]. intros a Ha. unfold sbyte, byte.
    cbn [write_memory manager set_manager MemoryManager.bytes MemoryManager.set_bytes]. rewrite store_lookup, decide_False; [done|].
    intros Hw. apply Ha. unfold within. cbn [fst snd]. destruct Hc as (_ & _ & Hc & _). unfold sat_sub in Hw. rewrite Z.max_l in Hw by lia. done.
Qed.

(** ** Sharing *)
Section sharing.
Context {F : Type} `{!FrameSource F} `{!FrameSourceLaws F}.
Variables (TABLES HEAP_SIZE static_heap kroot : Z).
Implicit Types s : AddressSpaces.t F.

Lemma find_slot_update {A} (p : A → bool) l i x : find_slot p l = Some i → p x = true →
  find_slot p (<[i := Some x]> l) = Some i.
Proof.
  revert i. induction l as [|[y|] l IH]; intros i Hi Hx; cbn in *; [done| |].
  - destruct (p y) eqn:Hy; [injection Hi as <-; cbn; by rewrite Hx|]. apply fmap_Some in Hi as (j & Hj & ->).
    cbn. rewrite Hy. change (S <$> find_slot p (<[j := Some x]> l) = Some (S j)). by rewrite IH.
  - apply fmap_Some in Hi as (j & Hj & ->). change (S <$> find_slot p (<[j := Some x]> l) = Some (S j)). by rewrite IH.
Qed.

Lemma share_destroy s trees fs root : sys_ok TABLES HEAP_SIZE static_heap kroot s trees fs →
  root ∈ roots s → (∀ sp, sp ∈ occupied s.(spaces) → sp.(AddressSpace.references) < umax 64) →
  (share_user_address_space root s).1 = Ok root ∧
  destroy_user_address_space HEAP_SIZE static_heap root (share_user_address_space root s).2 = (Ok tt, s).
Proof.
  intros Hs Hr Href. destruct (live_root _ _ _ _ _ _ _ _ Hs Hr) as [Hr0 _].
  unfold share_user_address_space. rewrite (proj2 (Z.eqb_neq _ _)) by done. rewrite (bind_ok _ _ s.(spaces) s s) by done.
  destruct (find_slot (has_root root) s.(spaces)) as [i|] eqn:Hi.
  2:{ exfalso. apply list_elem_of_fmap in Hr as (sp & -> & Hsp%elem_of_occupied).
      rewrite find_slot_None, slot_find_None in Hi. specialize (Hi sp Hsp). unfold has_root in Hi. by rewrite Z.eqb_refl in Hi. }
  pose proof (find_slot_Some _ _ _ Hi) as (sp & Hlk & Hroot%Z.eqb_eq & _). rewrite Hlk. cbn [default from_option id].
  set (sp' := AddressSpace.mk _ _ _).
  rewrite (bind_ok _ _ tt s (set_spaces (<[i := Some sp']> s.(spaces)) s)) by done. split; [done|]. cbn [snd mret M_ret].
  assert (sp ∈ occupied s.(spaces)) as Hin by (apply elem_of_occupied; by eapply list_elem_of_lookup_2).
  pose proof (so_references _ _ _ _ _ _ _ Hs sp Hin). specialize (Href sp Hin).
  unfold destroy_user_address_space. rewrite (proj2 (Z.eqb_neq _ _)) by done.
  set (s1 := set_spaces _ s). rewrite (bind_ok _ _ s1.(spaces) s1 s1) by done. cbn [spaces s1 set_spaces].
  rewrite (find_slot_update _ _ _ sp' Hi) by (unfold has_root, sp'; cbn; by rewrite Hroot, Z.eqb_refl).
  cbn [mbind option_bind]. rewrite list_lookup_insert_eq by (by eapply lookup_lt_Some). cbn [default from_option id mbind option_bind].
  unfold sp' at 1. cbn [AddressSpace.references]. rewrite sat_add_small by lia. rewrite (proj2 (Z.ltb_lt _ _)) by lia.
  unfold modify, set_spaces. cbn. rewrite list_insert_insert_eq, sat_add_small, Z.add_simpl_r by lia.
  destruct sp, s. cbn in *. by rewrite list_insert_id.
Qed.

Lemma drop_blocks_live (L : HeapBackingLaws (KernelHeap.t F) (HeapBacking0 := kernel_backing TABLES)) l m :
  @ok _ (kernel_backing TABLES) L HEAP_SIZE static_heap m →
  (∀ b, b ∈ live (foldl (drop_block HEAP_SIZE static_heap) m l) → b ∈ live m) ∧
  (foldl (drop_block HEAP_SIZE static_heap) m l).(MemoryManager.bytes) = m.(MemoryManager.bytes).
Proof.
  revert m. induction l as [|r l IH]; intros m Hok; cbn [foldl]; [done|].
  unfold drop_block at 2 4. destruct (_ =? 0); [by apply IH|]. unfold MemoryManager.munmap_ptr_for.
  pose proof (release_spec HEAP_SIZE static_heap m r.(UserMappingRecord.owner) r.(UserMappingRecord.kernel_start)
    (Some AllocationKind.Mapping) (Some r.(UserMappingRecord.length_)) Hok) as Hr.
  destruct (MemoryManager.release _ _ _ _ _ _ m) as [[] m1]; cbn [snd].
  - destruct Hr as (Hok1 & [Hb _ _] & x & i & _ & Hp & _). destruct (IH m1 Hok1) as [H1 H2]. split; [|congruence].
    intros b Hb'%H1. rewrite Hp. by apply list_elem_of_further.
  - destruct Hr as [-> _]. by apply IH.
Qed.
End sharing.

(** C33: Address spaces are counted.  Sharing one and dropping the reference again restores the
    state exactly.  Dropping the last reference ends that address space and no other: its
    mappings and no others leave the table, every other address space keeps its pages, and
    no byte of memory changes. *)
Theorem address_space_counted {F : Type} `{!FrameSource F, !FrameSourceLaws F} TABLES HEAP_SIZE static_heap kroot
    (s : AddressSpaces.t F) root :
  space_reachable TABLES HEAP_SIZE static_heap kroot s → root ∈ roots s →
  ((∀ sp, sp ∈ occupied s.(spaces) → sp.(AddressSpace.references) < umax 64) →
   (share_user_address_space root s).1 = Ok root ∧
   destroy_user_address_space HEAP_SIZE static_heap root (share_user_address_space root s).2 = (Ok tt, s)) ∧
  (∀ sp, sp ∈ occupied s.(spaces) → sp.(AddressSpace.root) = root → sp.(AddressSpace.references) = 1 →
   let s' := (destroy_user_address_space HEAP_SIZE static_heap root s).2 in
   (∀ root2, root2 ∈ roots s' ↔ root2 ∈ roots s ∧ root2 ≠ root) ∧
   s'.(mappings) = clear_where (of_root root) s.(mappings) ∧
   (∀ root2 va write, root2 ∈ roots s' →
      translate_user_page root2 va write (paging s') = translate_user_page root2 va write (paging s)) ∧
   (∀ b, b ∈ live s'.(manager) → b ∈ live s.(manager)) ∧
   s'.(manager).(MemoryManager.bytes) = s.(manager).(MemoryManager.bytes)).
Proof.
  intros (trees & fs & Hs)%space_reachable_ok Hr. split; [by eapply share_destroy|]. intros sp Hsp Hroot Href s'.
  destruct (space_destroy_spec _ _ _ _ _ _ _ root Hs Hr) as (i & sp2 & Hi & Hroot2 & _ & Hd). fold s' in Hd.
  pose proof (so_roots _ _ _ _ _ _ _ Hs) as Hnd. unfold roots in Hnd.
  assert (sp2 ∈ occupied s.(spaces)) as Hsp2 by (apply elem_of_occupied; by eapply list_elem_of_lookup_2).
  assert (sp2 = sp) as ->.
  { apply list_elem_of_lookup in Hsp as [a Ha], Hsp2 as [b Hb].
    assert (a = b) as ->; [|congruence]. eapply (NoDup_lookup _ _ _ root Hnd); rewrite list_lookup_fmap, ?Ha, ?Hb; cbn; congruence. }
  rewrite Href in Hd. cbn in Hd. destruct Hd as (p & E & Hperm & Hs' & Hu).
  destruct (drop_blocks_live TABLES HEAP_SIZE static_heap _ (filter (λ r, of_root root r = true) (occupied s.(mappings))) s.(manager)
    (so_memory _ _ _ _ _ _ _ Hs)) as [H1 H2].
  assert (∀ root2, root2 ∈ roots s' ↔ root2 ∈ roots s ∧ root2 ≠ root) as Hroots.
  { intros root2. rewrite E. unfold roots. cbn [spaces set_paging set_manager]. rewrite Hperm in Hnd |- *. cbn in Hnd |- *.
    rewrite Hroot in Hnd |- *. apply NoDup_cons in Hnd as [Hnd _]. rewrite elem_of_cons. naive_solver. }
  split_and!; [done|by rewrite E| |by rewrite E|by rewrite E].
  intros root2 va write [Hr2 _]%Hroots. eapply same_upage_translation; [done|done|]. intros _. rewrite E. apply Hu.
Qed.

(** C18: A cloned address space is a copy: every mapping of the parent whose memory is live has
    a mapping of the child at the same addresses, with the same protection and the same
    contents, in a block that shares no byte with any block that was live before.  The
    parent and all others keep their pages, and every live byte keeps its value, also when
    cloning fails. *)
Theorem clone_copies_memory {F : Type} `{!FrameSource F, !FrameSourceLaws F} TABLES HEAP_SIZE static_heap kroot
    (s : AddressSpaces.t F) owner parent :
  space_reachable TABLES HEAP_SIZE static_heap kroot s →
  let r := clone_user_address_space TABLES HEAP_SIZE static_heap owner parent s in
  (∀ a, in_live s a → sbyte r.2 a = sbyte s a) ∧
  (∀ root va write, root ∈ roots s → 0 <= va →
     translate_user_page root va write (paging r.2) = translate_user_page root va write (paging s)) ∧
  ∀ child, r.1 = Ok child → child ∉ roots s ∧ child ∈ roots r.2 ∧
    (parent ≠ 0 → ∀ m, Some m ∈ s.(mappings) → m.(UserMappingRecord.root) = parent → block_live s m →
       copy_of s owner child m r.2).
Proof.
  intros (trees & fs & Hs)%space_reachable_ok. pose proof (clone_spec _ _ _ _ _ _ _ owner parent Hs) as Hc.
  destruct (clone_user_address_space _ _ _ owner parent s) as [[child|[]] s']; cbn [fst snd].
  - destruct Hc as (_ & H1 & H2 & Hu & Hb & Hcopy). split_and!; [done| |by intros ? [= <-]].
    intros root va write Hr Hva. eapply same_upage_translation; [done|done|]. intros Hlim. by apply Hu.
  - destruct Hc as (_ & Hu & Hb). split_and!; [done| |done].
    intros root va write Hr Hva. eapply same_upage_translation; [done|done|]. intros Hlim. by apply Hu.
Qed.

(** ** Examples *)
Definition space_boot_info : BootInfo.t := BootInfo.mk
  (Some [Some (MemoryMapEntry.mk 0 4096 MemoryRegionKind.Reserved); None;
         Some (MemoryMapEntry.mk 4096 520192 MemoryRegionKind.Usable)])
  None (Some 4096) (Some 1048576) (VirtualRange.mk 0 0)
  (Some (KernelLoadRange.mk 12288 8388608 6000))
  [Some (BootModule.mk (1048576 + 24576) 100)].
Definition space_frames : PhysicalFrameAllocator.t :=
  (PhysicalFrameAllocator.ingest_boot_info space_boot_info demo_tables demo_stack
     (λ _, replicate 128 FrameState.Invalid) (PhysicalFrameAllocator.new 16)).2.
Definition space_paging : Paging.t PhysicalFrameAllocator.t :=
  Paging.mk ∅ 1 space_frames demo_translator (2 ^ 64 - 2 ^ 47) 0 0 true true 0 [].
Definition space_start : AddressSpaces.t PhysicalFrameAllocator.t :=
  AddressSpaces.mk (MemoryManager.new 8 (KernelHeap.mk space_paging None))
    (replicate MAX_ADDRESS_SPACES None) (replicate MAX_USER_MAPPINGS None).
Definition space_booted : AddressSpaces.t PhysicalFrameAllocator.t := start_heap 0 space_start.

Lemma empty_kernel_ok (fr : PhysicalFrameAllocator.t) : source_ok fr → ¬ spare fr 0 →
  kernel_ok (Paging.mk ∅ 1 fr demo_translator (2 ^ 64 - 2 ^ 47) 0 0 true true 0 []) [kernel_tree 0] 0.
Proof.
  intros Hfr H0. split; [|apply list_elem_of_here|done|done|done]. split; [apply demo_translator_ok|done|]. split.
  - intros t p f ->%list_elem_of_singleton [_ [_ ->]%empty_walk]. split; by vm_compute.
  - intros t1 t2 p1 p2 f ->%list_elem_of_singleton ->%list_elem_of_singleton
      [_ [-> _]%empty_walk] [_ [-> _]%empty_walk]. done.
  - intros t p f ->%list_elem_of_singleton [_ [_ ->]%empty_walk]. done.
Qed.
Lemma space_frames_ok : source_ok space_frames ∧ ¬ spare space_frames 0.
Proof.
  split.
  - split; [|by vm_compute]. split; [by vm_compute| |by vm_compute|by vm_compute|by vm_compute].
    eexists. split; [vm_compute; reflexivity|vm_compute; lia].
  - intros (i & Hi & Hs). cbn in Hi. assert (i = 0%nat) as -> by lia. by vm_compute in Hs.
Qed.
Lemma space_start_ready : boot_ready 4096 65536 0 space_start.
Proof.
  destruct space_frames_ok as [H1 H2]. split.
  - split; [by apply empty_kernel_ok|done|cbn; lia|constructor|by intros f ?%elem_of_nil|done|].
    intros k _. unfold kpage, page_of, pte. cbn [KernelHeap.paging MemoryManager.pages MemoryManager.new manager space_start].
    destruct (walk _ _ _ _) as [g|] eqn:Hw; [|done]. by apply empty_walk in Hw as [Hw _].
  - by exists 8%nat.
  - done.
  - apply occupied_replicate.
  - apply occupied_replicate.
  - done.
  - exact H2.
Qed.
Abbreviation demo_reachable := (space_reachable 0 4096 65536 0).
Definition is_virtual {H} (m : MemoryManager.t H) : bool :=
  match m.(MemoryManager.backing) with BackingStore.Virtual _ _ _ _ => true | _ => false end.
Lemma is_virtual_heap {H} (m : MemoryManager.t H) : is_virtual m = true → virtual_heap m.
Proof. unfold is_virtual, virtual_heap. by destruct (MemoryManager.backing m). Qed.
Lemma space_booted_reachable : demo_reachable space_booted.
Proof. apply space_boot; [apply space_start_ready|]. apply is_virtual_heap. by vm_compute. Qed.

(** one address space of process 7, two pages in it, and some data *)
Definition space_root : Z := 233472.
Definition space_created : AddressSpaces.t PhysicalFrameAllocator.t := run_space 0 4096 65536 (SpaceCall.Create 7) space_booted.
Definition space_map : SpaceCall.t := SpaceCall.MapUser 7 space_root 4194304 5000 demo_rw.
Definition space_mapped : AddressSpaces.t PhysicalFrameAllocator.t := run_space 0 4096 65536 space_map space_created.
Definition space_filled : AddressSpaces.t PhysicalFrameAllocator.t :=
  run_space 0 4096 65536 (SpaceCall.CopyToUser space_root 4194310 [1; 2; 3]) space_mapped.

Lemma roots_bool {F} (s : AddressSpaces.t F) root : existsb (Z.eqb root) (roots s) = true → root ∈ roots s.
Proof. intros (x & Hx & <-%Z.eqb_eq)%existsb_exists. by apply list_elem_of_In. Qed.
Lemma space_created_root : space_root ∈ roots space_created.
Proof. apply roots_bool. by vm_compute. Qed.
Lemma space_filled_root : space_root ∈ roots space_filled.
Proof. apply roots_bool. by vm_compute. Qed.
Lemma space_created_reachable : demo_reachable space_created.
Proof. apply space_call; [apply space_booted_reachable|done]. Qed.
Lemma space_filled_reachable : demo_reachable space_filled.
Proof.
  apply space_call; [|done]. apply space_call; [apply space_created_reachable|]. split; [apply space_created_root|done].
Qed.

Lemma user_memory_confined_witness : translate_user_page space_root 4194309 true (paging space_filled) = Some 20485 ∧
  ¬ spare (paging space_filled).(Paging.frames) 20480.
Proof.
  assert (translate_user_page space_root 4194309 true (paging space_filled) = Some 20485) as E by by vm_compute.
  split; [exact E|]. exact (proj1 (proj2 (user_memory_confined 0 4096 65536 0 space_filled space_root 4194309 true 20485
    space_filled_reachable space_filled_root ltac:(lia) E))).
Defined.

Lemma if_true {A} (b : bool) (x y : A) : b = true → (if b then x else y) = x.
Proof. by intros ->. Qed.
Definition space_call_mmap : result () MappedRegion.t * AddressSpaces.t PhysicalFrameAllocator.t :=
  mmap_user_fixed 0 4096 65536 7 space_root 4194304 5000 demo_rw space_created.
Lemma user_mapping_coherent_witness : ∃ g, space_call_mmap.1 = Ok g ∧ g.(MappedRegion.length_) = 8192 ∧
  translate_user_page space_root (4194304 + 5) true (paging space_call_mmap.2) =
  translate_virt (g.(MappedRegion.ptr) + 5) (paging space_call_mmap.2).
Proof.
  pose proof (user_mapping_coherent 0 4096 65536 0 space_created 7 space_root 4194304 5000 demo_rw
    space_created_reachable space_created_root ltac:(lia) ltac:(lia)) as H. cbv zeta in H. destruct H as (_ & _ & _ & _ & H).
  assert (∃ g, (mmap_user_fixed 0 4096 65536 7 space_root 4194304 5000 demo_rw space_created).1 = Ok g ∧
    g.(MappedRegion.length_) = 8192) as (g & E & Hl).
  { exists (MappedRegion.mk 7 KERNEL_HEAP_BASE 8192 8192 demo_rw AllocationKind.Mapping). split; by vm_compute. }
  unfold space_call_mmap. rewrite E in H. destruct H as (_ & _ & _ & H & _). exists g. split; [exact E|]. split; [exact Hl|].
  destruct (H 5 true ltac:(vm_compute; split; congruence)) as [_ H5].
  rewrite (if_true (negb true || demo_rw.(MemoryProtection.write)) _ _ eq_refl) in H5. exact H5.
Defined.

Lemma space_mapped_apart : mappings_apart space_mapped space_root.
Proof.
  assert (occupied space_mapped.(mappings) = [UserMappingRecord.mk 7 space_root 4194304 KERNEL_HEAP_BASE 8192 demo_rw]) as E by by vm_compute.
  intros i j r q Hi Hj Hne _ _. exfalso. pose proof (occupied_remove _ _ _ Hi) as Hp. rewrite E in Hp.
  assert (<[i := None]> space_mapped.(mappings) !! j = Some (Some q)) as Hj' by by rewrite list_lookup_insert_ne.
  pose proof (occupied_remove _ _ _ Hj') as Hp2. rewrite Hp2 in Hp. apply Permutation_length in Hp. rewrite !length_cons in Hp. cbn [length] in Hp. lia.
Qed.
Lemma user_copy_roundtrip_witness : (copy_to_user space_mapped space_root 4194310 [1; 2; 3]).1 = true ∧
  copy_from_user space_filled space_root 4194310 [0; 0; 0] = (true, [1; 2; 3]).
Proof.
  destruct (user_copy_roundtrip space_mapped space_root 4194310 [1; 2; 3] space_mapped_apart ltac:(done)) as [_ H].
  assert ((copy_to_user space_mapped space_root 4194310 [1; 2; 3]).1 = true) as E by by vm_compute.
  split; [exact E|]. exact (proj1 (H E) [0; 0; 0] eq_refl).
Defined.

Lemma address_space_counted_witness :
  destroy_user_address_space 4096 65536 space_root (share_user_address_space space_root space_filled).2 = (Ok tt, space_filled) ∧
  space_root ∉ roots (destroy_user_address_space 4096 65536 space_root space_filled).2.
Proof.
  destruct (address_space_counted 0 4096 65536 0 space_filled space_root space_filled_reachable space_filled_root) as [H1 H2].
  assert (occupied space_filled.(spaces) = [AddressSpace.mk 7 space_root 1]) as E by by vm_compute.
  split.
  - apply H1. rewrite E. intros sp ->%list_elem_of_singleton. done.
  - specialize (H2 (AddressSpace.mk 7 space_root 1)). rewrite E in H2.
    destruct (H2 ltac:(apply list_elem_of_here) eq_refl eq_refl) as (H3 & _). intros Hin. apply H3 in Hin. exact (proj2 Hin eq_refl).
Defined.

Definition space_record : UserMappingRecord.t := UserMappingRecord.mk 7 space_root 4194304 KERNEL_HEAP_BASE 8192 demo_rw.
Lemma space_record_live : Some space_record ∈ space_filled.(mappings) ∧ block_live space_filled space_record.
Proof.
  split.
  - apply list_elem_of_lookup. exists 0%nat. by vm_compute.
  - exists (AllocationRecord.new 7 0 8192 AllocationKind.Mapping demo_rw). split_and!; [|done|done].
    apply elem_of_occupied, list_elem_of_lookup. exists 0%nat. by vm_compute.
Qed.
Lemma clone_copies_memory_witness :
  (clone_user_address_space 0 4096 65536 9 space_root space_filled).1 = Ok 249856 ∧
  copy_of space_filled 9 249856 space_record (clone_user_address_space 0 4096 65536 9 space_root space_filled).2.
Proof.
  destruct (clone_copies_memory 0 4096 65536 0 space_filled 9 space_root space_filled_reachable) as (_ & _ & H).
  assert ((clone_user_address_space 0 4096 65536 9 space_root space_filled).1 = Ok 249856) as E by by vm_compute.
  split; [exact E|]. destruct (H _ E) as (_ & _ & Hc).
  exact (Hc ltac:(done) space_record (proj1 space_record_live) eq_refl (proj2 space_record_live)).
Defined.

(** *** Where the tables and the memory manager disagree *)
Definition live_at {F} (s : AddressSpaces.t F) (a : Z) : bool :=
  existsb (λ b, (KERNEL_HEAP_BASE + b.(AllocationRecord.offset) <=? a) &&
                (a <? KERNEL_HEAP_BASE + b.(AllocationRecord.offset) + b.(AllocationRecord.size)))
    (live s.(manager)).

(** A process that shares its address space ends: the other one still reaches the block,
    which is free and is handed to the next process that asks. *)
Lemma shared_memory_freed :
  let s := run_space 0 4096 65536 (SpaceCall.EndProcess 7) (run_space 0 4096 65536 (SpaceCall.Share space_root) space_filled) in
  let s' := run_space 0 4096 65536 (SpaceCall.Memory (MemCall.Malloc 9 100)) s in
  live_at s KERNEL_HEAP_BASE = false ∧
  (MemoryManager.malloc_for (H := KernelHeap.t _) (HeapBacking0 := kernel_backing 0) 4096 65536 9 100 s.(manager)).1 = Ok KERNEL_HEAP_BASE ∧
  existsb (Z.eqb space_root) (roots s') = true ∧
  translate_user_page space_root 4194304 true (paging s') = translate_virt KERNEL_HEAP_BASE (paging s') ∧
  is_Some (translate_virt KERNEL_HEAP_BASE (paging s')).
Proof. cbv zeta. split_and!; [by vm_compute..|]. eexists. by vm_compute. Qed.

(** Two mappings of the same address: the user sees the second block, copies of the kernel
    go to the first. *)
Lemma overlapping_mapping_diverges :
  let s := run_space 0 4096 65536 space_map space_mapped in
  active_translated_slice s space_root 4194304 4 true = Some KERNEL_HEAP_BASE ∧
  translate_user_page space_root 4194304 true (paging s) = translate_virt (KERNEL_HEAP_BASE + 8192) (paging s) ∧
  translate_virt KERNEL_HEAP_BASE (paging s) ≠ translate_virt (KERNEL_HEAP_BASE + 8192) (paging s).
Proof. split_and!; by vm_compute. Qed.
