(* ===== verification/Text.v ===== *)
(** * Text

    The operations of Rust's [str] that the init system uses.  A string slice is the
    list of its characters, Unicode scalar values; byte order and character order of
    UTF-8 strings agree, so [BTreeMap] keys are ordered by [text_leb].  [decode_utf8]
    is [core::str::from_utf8] followed by [chars], total on byte lists: it succeeds
    exactly on [Vfs.utf8_valid] bytes and inverts [encode_utf8].  The lemmas give the
    round trips that parsing rests on: splitting what was joined, trimming what has no
    blanks at its ends, reading the lines of a file of lines. *)

From stdpp Require Import prelude strings gmap sorting.
From S2P Require Import Prelude Bytes Vfs.

Local Open Scope Z_scope.

Abbreviation text := (list Z).

(** an ASCII literal *)
Definition str (s : string) : text := (λ a, Z.of_nat (Ascii.nat_of_ascii a)) <$> String.list_ascii_of_string s.
Definition newline : Z := 10.
Definition carriage_return : Z := 13.
Definition space : Z := 32.
Definition text_is (s : text) (literal : string) : bool := bool_decide (s = str literal).

(** ** Order, as of the keys of a [BTreeMap] *)
Fixpoint text_leb (a b : text) : bool :=
  match a, b with
  | [], _ => true
  | _ :: _, [] => false
  | x :: a', y :: b' => (x <? y) || ((x =? y) && text_leb a' b')
  end.
Definition text_le (a b : text) : Prop := text_leb a b = true.
#[export] Instance text_le_dec : RelDecision text_le.
Proof. intros a b. unfold text_le. apply _. Defined.
(** the members of a [BTreeSet] as its iterator yields them *)
Definition sorted (X : gset text) : list text := merge_sort text_le (elements X).

(** ** [char::is_whitespace], [str::trim] and the splitting iterators *)
Definition is_whitespace (c : Z) : bool :=
  between 9 13 c || (c =? 32) || (c =? 133) || (c =? 160) || (c =? 5760) || between 8192 8202 c
  || (c =? 8232) || (c =? 8233) || (c =? 8239) || (c =? 8287) || (c =? 12288).

Fixpoint trim_start (s : text) : text :=
  match s with
  | c :: rest => if is_whitespace c then trim_start rest else s
  | [] => []
  end.
Definition trim_end (s : text) : text := reverse (trim_start (reverse s)).
Definition trim (s : text) : text := trim_end (trim_start s).

(** [s.split_once(c)] and [s.rsplit_once(c)] *)
Fixpoint split_once (c : Z) (s : text) : option (text * text) :=
  match s with
  | [] => None
  | x :: rest =>
      if x =? c then Some ([], rest)
      else '(a, b) ← split_once c rest; Some (x :: a, b)
  end.
Definition rsplit_once (c : Z) (s : text) : option (text * text) :=
  '(b, a) ← split_once c (reverse s); Some (reverse a, reverse b).

(** [s.split(p)]: the pieces between the characters that satisfy [p] *)
Fixpoint split (p : Z → bool) (s : text) : list text :=
  match s with
  | [] => [[]]
  | x :: rest =>
      if p x then [] :: split p rest
      else match split p rest with
           | piece :: pieces => (x :: piece) :: pieces
           | [] => [[x]]
           end
  end.
(** [s.split_whitespace()] *)
Definition split_whitespace (s : text) : list text := filter (λ w, w ≠ []) (split is_whitespace s).

(** [s.lines()]: every line ends at a newline, which the last one may lack; a carriage
    return before the newline belongs to it *)
Definition strip_carriage_return (l : text) : text :=
  if decide (last l = Some carriage_return) then take (length l - 1) l else l.
Definition lines (s : text) : list text :=
  let pieces := split (Z.eqb newline) s in
  let ended := take (length pieces - 1) pieces in
  (strip_carriage_return <$> ended)
  ++ match last pieces with Some [] | None => [] | Some l => [l] end.

Definition starts_with (c : Z) (s : text) : bool := bool_decide (head s = Some c).
Definition ends_with (c : Z) (s : text) : bool := bool_decide (last s = Some c).

(** the inverse of splitting: [words.join(sep)] *)
Fixpoint join (sep : text) (l : list text) : text :=
  match l with
  | [] => []
  | [w] => w
  | w :: l' => w ++ sep ++ join sep l'
  end.

(** ** UTF-8 *)
(** the value of a leading byte's payload followed by continuation bytes *)
Definition extend (v b : Z) : Z := v * 64 + (b - 128).
Fixpoint decode_chars (bs : list Z) : text :=
  match bs with
  | [] => []
  | b0 :: bs1 =>
      if between 0 127 b0 then b0 :: decode_chars bs1
      else match bs1 with
      | [] => []
      | b1 :: bs2 =>
          if between 194 223 b0 then extend (b0 - 192) b1 :: decode_chars bs2
          else match bs2 with
          | [] => []
          | b2 :: bs3 =>
              if between 224 239 b0 then extend (extend (b0 - 224) b1) b2 :: decode_chars bs3
              else match bs3 with
              | [] => []
              | b3 :: bs4 => extend (extend (extend (b0 - 240) b1) b2) b3 :: decode_chars bs4
              end
          end
      end
  end.
Definition decode_utf8 (bs : list Z) : option text :=
  if utf8_valid bs then Some (decode_chars bs) else None.

(** a Unicode scalar value and its encoding, [char::encode_utf8] *)
Definition is_char (c : Z) : bool := between 0 55295 c || between 57344 1114111 c.
Definition encode_char (c : Z) : list Z :=
  if c <? 128 then [c]
  else if c <? 2048 then [192 + c / 64; 128 + c mod 64]
  else if c <? 65536 then [224 + c / 4096; 128 + c / 64 mod 64; 128 + c mod 64]
  else [240 + c / 262144; 128 + c / 4096 mod 64; 128 + c / 64 mod 64; 128 + c mod 64].
Definition encode_utf8 (s : text) : list Z := s ≫= encode_char.

(** ** Lemmas *)
Definition blank_free (s : text) : Prop := Forall (λ c, is_whitespace c = false) s.
(** no blank at either end *)
Definition trimmed (s : text) : Prop :=
  (∀ c, head s = Some c → is_whitespace c = false) ∧ (∀ c, last s = Some c → is_whitespace c = false).

Lemma between_spec lo hi b : between lo hi b = true ↔ lo <= b <= hi.
Proof. unfold between. rewrite andb_true_iff, !Z.leb_le. done. Qed.
Lemma trim_start_id s : (∀ c, head s = Some c → is_whitespace c = false) → trim_start s = s.
Proof. destruct s as [|c s]; [done|]. intros H. cbn. by rewrite (H c eq_refl). Qed.
Lemma trim_id s : trimmed s → trim s = s.
Proof.
  intros [H1 H2]. unfold trim, trim_end. rewrite (trim_start_id s H1), trim_start_id; [apply reverse_involutive|].
  intros c. rewrite head_reverse. apply H2.
Qed.
Lemma trim_start_head s c : head (trim_start s) = Some c → is_whitespace c = false.
Proof. induction s as [|x s IH]; cbn; [done|]. destruct (is_whitespace x) eqn:E; [done|]. cbn. by intros [= ->]. Qed.
Lemma trim_start_suffix s : ∃ p, s = p ++ trim_start s ∧ Forall (λ c, is_whitespace c = true) p.
Proof.
  induction s as [|x s (p & IH & Hp)]; [by exists []|]. cbn. destruct (is_whitespace x) eqn:E; [|by exists []].
  exists (x :: p). cbn. rewrite <- IH. split; [done|by constructor].
Qed.
Lemma trim_trimmed s : trimmed (trim s).
Proof.
  unfold trim, trim_end. set (u := trim_start s). assert (∀ c, head u = Some c → is_whitespace c = false) as Hu
    by apply trim_start_head.
  destruct (trim_start_suffix (reverse u)) as (p & Hp & Hw). split; intros c.
  - rewrite head_reverse. intros Hl. apply Hu. apply (f_equal reverse) in Hp.
    rewrite reverse_involutive, reverse_app in Hp. rewrite Hp.
    destruct (trim_start (reverse u)) as [|x r]; [done|]. rewrite reverse_cons in *. rewrite <- head_reverse in Hl.
    rewrite reverse_cons in Hl. by destruct (reverse r).
  - rewrite last_reverse. apply trim_start_head.
Qed.

Lemma split_once_app c a b : c ∉ a → split_once c (a ++ c :: b) = Some (a, b).
Proof.
  induction a as [|x a IH]; cbn; [by rewrite Z.eqb_refl|]. intros [Hne Ha]%not_elem_of_cons.
  destruct (Z.eqb_spec x c) as [->|]; [done|]. by rewrite IH.
Qed.
Lemma split_once_Some c s a b : split_once c s = Some (a, b) → s = a ++ c :: b ∧ c ∉ a.
Proof.
  revert a b. induction s as [|x s IH]; [done|]. cbn. intros a b. destruct (Z.eqb_spec x c) as [->|Hne].
  - intros [= <- <-]. split; [done|apply not_elem_of_nil].
  - destruct (split_once c s) as [[a' b']|]; [|done]. cbn. intros [= <- <-]. destruct (IH a' b' eq_refl) as [-> Hn].
    split; [done|]. apply not_elem_of_cons. done.
Qed.

Lemma split_cons p s : ∃ w l, split p s = w :: l.
Proof.
  induction s as [|x s (w & l & E)]; [by exists [], []|]. cbn. destruct (p x); [by eexists [], _|]. rewrite E. eauto.
Qed.
Lemma split_app p w s : Forall (λ c, p c = false) w → ∀ x, p x = true →
  split p (w ++ x :: s) = w :: split p s.
Proof.
  intros Hw x Hx. induction Hw as [|y w Hy Hw IH]; cbn; [by rewrite Hx|]. by rewrite Hy, IH.
Qed.
Lemma split_whole p w : Forall (λ c, p c = false) w → split p w = [w].
Proof. induction 1 as [|y w Hy Hw IH]; cbn; [done|]. by rewrite Hy, IH. Qed.
Lemma split_pieces p s : Forall (Forall (λ c, p c = false)) (split p s).
Proof.
  induction s as [|x s IH]; cbn; [by repeat constructor|]. destruct (p x) eqn:E; [by constructor|].
  destruct (split p s); inversion IH; subst; by repeat constructor.
Qed.

(** a list of words survives being joined with spaces and split again *)
Definition word (w : text) : Prop := w ≠ [] ∧ blank_free w.
Lemma split_join l : Forall word l → split_whitespace (join [space] l) = l.
Proof.
  unfold split_whitespace. induction 1 as [|w l [Hne Hw] Hl IH]; [done|]. destruct l as [|w' l'].
  - cbn [join]. rewrite split_whole by done. by rewrite filter_cons_True.
  - cbn [join app] in *. rewrite split_app by done. rewrite filter_cons_True by done. by rewrite IH.
Qed.
Lemma split_whitespace_words s : Forall word (split_whitespace s).
Proof.
  apply Forall_forall. intros w [Hne Hw]%list_elem_of_filter. split; [done|].
  by eapply Forall_forall in Hw; [|apply split_pieces].
Qed.
Lemma join_trimmed l : Forall word l → trimmed (join [space] l).
Proof.
  induction 1 as [|w l [Hne Hw] Hl [IH1 IH2]]; [done|]. destruct w as [|x w]; [done|].
  assert (∀ c, last (x :: w) = Some c → is_whitespace c = false) as Hlast.
  { intros c Hc. eapply Forall_forall in Hw; [done|]. apply last_Some in Hc as [p ->]. apply elem_of_app. right. apply list_elem_of_here. }
  inversion_clear Hw. destruct l as [|w' l'].
  - split; [by intros c [= <-]|done].
  - split; [by intros c [= <-]|]. intros c Hc. apply IH2. change (join [space] ((x :: w) :: w' :: l')) with
      ((x :: w) ++ [space] ++ join [space] (w' :: l')) in Hc.
    rewrite app_assoc, last_app in Hc. destruct (last (join _ _)) as [d|] eqn:E; [done|].
    apply last_None in E. inversion Hl as [|? ? [Hw' _] _]; subst. destruct w' as [|y w']; [done|]. by destruct l'.
Qed.
Lemma join_members l c : c ∈ join [space] l → c = space ∨ ∃ w, w ∈ l ∧ c ∈ w.
Proof.
  induction l as [|w l IH]; [by intros ?%elem_of_nil|]. destruct l as [|w' l'].
  - cbn. intros Hc. right. exists w. split; [apply list_elem_of_here|done].
  - change (join [space] (w :: w' :: l')) with (w ++ [space] ++ join [space] (w' :: l')).
    intros [Hc|[->%list_elem_of_singleton|Hc]%elem_of_app]%elem_of_app; [|by left|].
    + right. exists w. split; [apply list_elem_of_here|done].
    + destruct (IH Hc) as [->|(v & Hv & Hcv)]; [by left|]. right. exists v. split; [by apply list_elem_of_further|done].
Qed.

(** the lines of a file of lines *)
Definition is_line (l : text) : Prop := (newline ∉ l) ∧ last l ≠ Some carriage_return.
Fixpoint unlines (ls : list text) : text :=
  match ls with
  | [] => []
  | l :: ls' => l ++ newline :: unlines ls'
  end.
Lemma lines_unlines ls : Forall is_line ls → lines (unlines ls) = ls.
Proof.
  intros H. assert (split (Z.eqb newline) (unlines ls) = ls ++ [[]]) as E.
  { induction H as [|l ls [Hl _] Hls IH]; [done|]. cbn [unlines]. rewrite split_app; [by rewrite IH| |done].
    apply Forall_forall. intros c Hc. apply Z.eqb_neq. intros <-. done. }
  unfold lines. rewrite E, length_app, last_snoc. cbn [length]. rewrite Nat.add_sub, take_app_length, app_nil_r.
  clear E. induction H as [|l ls [_ Hl] Hls IH]; [done|]. cbn. rewrite IH. unfold strip_carriage_return.
  by rewrite decide_False.
Qed.

Lemma sorted_elem X n : n ∈ sorted X ↔ n ∈ X.
Proof. unfold sorted. rewrite merge_sort_Permutation. apply elem_of_elements. Qed.
Lemma sorted_NoDup X : NoDup (sorted X).
Proof. unfold sorted. rewrite merge_sort_Permutation. apply NoDup_elements. Qed.
Lemma sorted_length X : length (sorted X) = size X.
Proof. unfold sorted. by rewrite merge_sort_Permutation. Qed.
#[export] Instance text_le_total : Total text_le.
Proof.
  intros a. unfold text_le. induction a as [|x a IH]; intros [|y b]; cbn; [by left|by left|by right|].
  destruct (Z.lt_trichotomy x y) as [H|[->|H]].
  - left. by rewrite (proj2 (Z.ltb_lt _ _)).
  - rewrite Z.ltb_irrefl, Z.eqb_refl. cbn. apply IH.
  - right. by rewrite (proj2 (Z.ltb_lt _ _)).
Qed.
Lemma sorted_sorted X : Sorted text_le (sorted X).
Proof. apply Sorted_merge_sort. apply _. Qed.

(** *** UTF-8 *)
Lemma between_true lo hi b : lo <= b <= hi → between lo hi b = true.
Proof. apply between_spec. Qed.
Lemma between_false lo hi b : ¬ (lo <= b <= hi) → between lo hi b = false.
Proof. intros H. destruct (between lo hi b) eqn:E; [|done]. by apply between_spec in E. Qed.
Ltac decide_between :=
  repeat match goal with
  | |- context [between ?lo ?hi ?b] =>
      first [rewrite (between_true lo hi b) by (Z.to_euclidean_division_equations; lia)
            |rewrite (between_false lo hi b) by (Z.to_euclidean_division_equations; lia)]
  end; cbn [andb].

Lemma decode_encode_char c bs : is_char c = true →
  utf8_valid (encode_char c ++ bs) = utf8_valid bs ∧ decode_chars (encode_char c ++ bs) = c :: decode_chars bs.
Proof.
  intros Hc. assert (0 <= c <= 55295 ∨ 57344 <= c <= 1114111) as Hr.
  { unfold is_char in Hc. by apply orb_true_iff in Hc as [?%between_spec|?%between_spec]; [left|right]. }
  unfold encode_char. destruct (Z.ltb_spec c 128) as [H1|H1].
  { cbn [app utf8_valid decode_chars]. by decide_between. }
  destruct (Z.ltb_spec c 2048) as [H2|H2].
  { cbn [app utf8_valid decode_chars]. unfold cont, extend. decide_between. split; [done|]. f_equal.
    Z.to_euclidean_division_equations; lia. }
  destruct (Z.ltb_spec c 65536) as [H3|H3].
  { cbn [app utf8_valid decode_chars]. unfold cont, extend. rewrite between_false by (Z.to_euclidean_division_equations; lia).
    rewrite between_false by (Z.to_euclidean_division_equations; lia).
    rewrite between_true by (Z.to_euclidean_division_equations; lia). split.
    - destruct (Z.eqb_spec (224 + c / 4096) 224) as [E|E]; [|destruct (Z.eqb_spec (224 + c / 4096) 237) as [E'|E']];
        by decide_between.
    - f_equal. Z.to_euclidean_division_equations; lia. }
  cbn [app utf8_valid decode_chars]. unfold cont, extend.
  do 3 rewrite between_false by (Z.to_euclidean_division_equations; lia).
  rewrite (between_true 240 244) by (Z.to_euclidean_division_equations; lia). split.
  - destruct (Z.eqb_spec (240 + c / 262144) 240) as [E|E]; [|destruct (Z.eqb_spec (240 + c / 262144) 244) as [E'|E']];
      by decide_between.
  - f_equal. Z.to_euclidean_division_equations; lia.
Qed.
Lemma decode_encode s : Forall (λ c, is_char c = true) s → decode_utf8 (encode_utf8 s) = Some s.
Proof.
  intros H. assert (utf8_valid (encode_utf8 s) = true ∧ decode_chars (encode_utf8 s) = s) as [H1 H2].
  { induction H as [|c s Hc Hs [IH1 IH2]]; [done|]. unfold encode_utf8 in *. rewrite bind_cons.
    destruct (decode_encode_char c (s ≫= encode_char) Hc) as [-> ->]. by rewrite IH2. }
  unfold decode_utf8. by rewrite H1, H2.
Qed.
