(* ===== verification/SpiderUnits.v ===== *)
(** * Units of the init system and their files

    Models userspace/spider-rs/src/units.rs and parser.rs: unit kinds, states and
    records, and [parse_unit], which reads a unit file line by line.  Strings are lists
    of characters ([Text]).

    [parsed_unit_ok] says what every parsed unit satisfies, whatever the file;
    [unit_file_roundtrip] that a file written from a unit is parsed to that unit. *)

From stdpp Require Import prelude strings.
From S2P Require Import Prelude Bytes Vfs Text.

Local Open Scope Z_scope.

(** ** units.rs *)
Module UnitKind.
Inductive t : Type := Service | Target | Mount | Device | Timer | Socket | Path.
Definition from_name (name : text) : option t :=
  '(_, suffix) ← rsplit_once 46 name;
  if text_is suffix "service" then Some Service
  else if text_is suffix "target" then Some Target
  else if text_is suffix "socket" then Some Socket
  else if text_is suffix "timer" then Some Timer
  else if text_is suffix "mount" then Some Mount
  else if text_is suffix "device" then Some Device
  else if text_is suffix "path" then Some Path
  else None.
End UnitKind.
#[export] Instance UnitKind_eq_dec : EqDecision UnitKind.t.
Proof. solve_decision. Defined.

Module UnitState.
Inductive t : Type :=
  Loaded | Waiting | Starting | Running | Exited | Failed | Skipped | Inactive | Activating | Active | Stopping.
End UnitState.
#[export] Instance UnitState_eq_dec : EqDecision UnitState.t.
Proof. solve_decision. Defined.

Module RestartPolicy.
Inductive t : Type := No | OnFailure | Always.
Definition parse (value : text) : option t :=
  let value := trim value in
  if text_is value "no" || text_is value "No" then Some No
  else if text_is value "on-failure" || text_is value "OnFailure" || text_is value "on_failure" then Some OnFailure
  else if text_is value "always" || text_is value "Always" then Some Always
  else None.
End RestartPolicy.

Module Unit.
Record t : Type := mk {
  name : text;
  description : text;
  kind : UnitKind.t;
  after : list text;
  before : list text;
  requires : list text;
  wants : list text;
  wanted_by : list text
}.
Definition set_description v u := mk u.(name) v u.(kind) u.(after) u.(before) u.(requires) u.(wants) u.(wanted_by).
Definition set_after v u := mk u.(name) u.(description) u.(kind) v u.(before) u.(requires) u.(wants) u.(wanted_by).
Definition set_before v u := mk u.(name) u.(description) u.(kind) u.(after) v u.(requires) u.(wants) u.(wanted_by).
Definition set_requires v u := mk u.(name) u.(description) u.(kind) u.(after) u.(before) v u.(wants) u.(wanted_by).
Definition set_wants v u := mk u.(name) u.(description) u.(kind) u.(after) u.(before) u.(requires) v u.(wanted_by).
Definition set_wanted_by v u := mk u.(name) u.(description) u.(kind) u.(after) u.(before) u.(requires) u.(wants) v.
End Unit.

Module ServiceUnit.
Record t : Type := mk { exec_start : text; restart : RestartPolicy.t }.
End ServiceUnit.

Module LoadedUnit.
Record t : Type := mk { unit : Unit.t; service : option ServiceUnit.t; state : UnitState.t }.
Definition new (unit : Unit.t) (service : option ServiceUnit.t) : t := mk unit service UnitState.Loaded.
Definition set_state (v : UnitState.t) (u : t) : t := mk u.(unit) u.(service) v.
End LoadedUnit.

(** ** parser.rs *)
Module UnitParseError.
Inductive t : Type :=
  | MissingUnitName
  | UnknownUnitKind (name : text)
  | InvalidLine (line : nat) (line_text : text)
  | UnknownSection (line : nat) (section : text)
  | InvalidRestartPolicy (value : text)
  | MissingExecStart (name : text)
  | ServiceSectionOnNonService (name : text).
End UnitParseError.

Definition split_unit_list (value : text) : list text :=
  filter (λ item, item ≠ []) (split_whitespace value).

(** the variables of the loop of [parse_unit] *)
Module Parser.
Record t : Type := mk { section : text; unit : Unit.t; exec_start : text; restart : RestartPolicy.t }.
Definition set_section v p := mk v p.(unit) p.(exec_start) p.(restart).
Definition set_unit v p := mk p.(section) v p.(exec_start) p.(restart).
Definition set_exec_start v p := mk p.(section) p.(unit) v p.(restart).
Definition set_restart v p := mk p.(section) p.(unit) p.(exec_start) v.
End Parser.

(** [match (section.as_str(), key)]; [None] is the arm of the empty section *)
Definition assign (key value : text) (p : Parser.t) : result UnitParseError.t (option Parser.t) :=
  let u := p.(Parser.unit) in
  let in_section (s k : string) := text_is p.(Parser.section) s && text_is key k in
  let put u := Ok (Some (Parser.set_unit u p)) in
  if in_section "Unit" "Name" then
    if bool_decide (u.(Unit.description) = []) then put (Unit.set_description value u) else Ok (Some p)
  else if in_section "Unit" "Description" then put (Unit.set_description value u)
  else if in_section "Unit" "After" then put (Unit.set_after (split_unit_list value) u)
  else if in_section "Unit" "Before" then put (Unit.set_before (split_unit_list value) u)
  else if in_section "Unit" "Requires" then put (Unit.set_requires (split_unit_list value) u)
  else if in_section "Unit" "Wants" then put (Unit.set_wants (split_unit_list value) u)
  else if in_section "Service" "ExecStart" then Ok (Some (Parser.set_exec_start value p))
  else if in_section "Service" "Restart" then
    match RestartPolicy.parse value with
    | Some r => Ok (Some (Parser.set_restart r p))
    | None => Err (UnitParseError.InvalidRestartPolicy value)
    end
  else if in_section "Install" "WantedBy" then put (Unit.set_wanted_by (split_unit_list value) u)
  else if text_is p.(Parser.section) "" then Ok None
  else Ok (Some p).

(** one round of the loop over the lines *)
Definition parse_line (p : Parser.t) (indexed : nat * text) : result UnitParseError.t Parser.t :=
  let '(index, raw) := indexed in
  let line_no := (index + 1)%nat in
  let line := trim raw in
  if bool_decide (line = []) || starts_with 35 line || starts_with 59 line then Ok p
  else if starts_with 91 line && ends_with 93 line then
    let section := take (length line - 2) (drop 1 line) in
    if text_is section "Unit" || text_is section "Service" || text_is section "Target" || text_is section "Install"
    then Ok (Parser.set_section section p)
    else Err (UnitParseError.UnknownSection line_no section)
  else match split_once 61 line with
  | None => Err (UnitParseError.InvalidLine line_no raw)
  | Some (key, value) =>
      r ← assign (trim key) (trim value) p;
      ok_or r (UnitParseError.InvalidLine line_no raw)
  end.

Definition parse_unit (name source : text) : result UnitParseError.t LoadedUnit.t :=
  kind ← ok_or (UnitKind.from_name name) (UnitParseError.UnknownUnitKind name);
  if bool_decide (trim name = []) then Err UnitParseError.MissingUnitName
  else
    p ← rfold parse_line
          (Parser.mk [] (Unit.mk name [] kind [] [] [] [] []) [] RestartPolicy.No)
          (zip (seq 0 (length (lines source))) (lines source));
    service ←
      (if decide (kind = UnitKind.Service) then
         if bool_decide (p.(Parser.exec_start) = []) then Err (UnitParseError.MissingExecStart name)
         else Ok (Some (ServiceUnit.mk p.(Parser.exec_start) p.(Parser.restart)))
       else if bool_decide (p.(Parser.exec_start) = []) then Ok None
       else Err (UnitParseError.ServiceSectionOnNonService name));
    Ok (LoadedUnit.new p.(Parser.unit) service).

(** ** What a parsed unit satisfies *)
Definition unit_ok (u : Unit.t) : Prop :=
  trimmed u.(Unit.description) ∧ Forall word u.(Unit.after) ∧ Forall word u.(Unit.before) ∧
  Forall word u.(Unit.requires) ∧ Forall word u.(Unit.wants) ∧ Forall word u.(Unit.wanted_by).
(** the kind is that of the name, and exactly services have a command *)
Definition loaded_ok (name : text) (u : LoadedUnit.t) : Prop :=
  u.(LoadedUnit.unit).(Unit.name) = name ∧ unit_ok u.(LoadedUnit.unit) ∧
  UnitKind.from_name name = Some u.(LoadedUnit.unit).(Unit.kind) ∧
  match u.(LoadedUnit.service) with
  | Some s => u.(LoadedUnit.unit).(Unit.kind) = UnitKind.Service ∧
              trimmed s.(ServiceUnit.exec_start) ∧ s.(ServiceUnit.exec_start) ≠ []
  | None => u.(LoadedUnit.unit).(Unit.kind) ≠ UnitKind.Service
  end.

Definition parser_ok (name : text) (kind : UnitKind.t) (p : Parser.t) : Prop :=
  p.(Parser.unit).(Unit.name) = name ∧ p.(Parser.unit).(Unit.kind) = kind ∧ unit_ok p.(Parser.unit) ∧
  trimmed p.(Parser.exec_start).

Lemma split_unit_list_words v : Forall word (split_unit_list v).
Proof.
  apply Forall_forall. intros w [_ Hw]%list_elem_of_filter. by eapply Forall_forall in Hw; [|apply split_whitespace_words].
Qed.
Lemma assign_ok name kind key value p p' : parser_ok name kind p → trimmed value →
  assign key value p = Ok (Some p') → parser_ok name kind p'.
Proof.
  pose proof (split_unit_list_words value) as Hw. intros (H1 & H2 & (Hd & Ha & Hb & Hr & Hn & Hy) & He) Hv. unfold assign.
  repeat case_match; intros [= <-]; unfold parser_ok, unit_ok; cbn; by split_and!.
Qed.
Lemma parse_line_ok name kind p l p' : parser_ok name kind p → parse_line p l = Ok p' → parser_ok name kind p'.
Proof.
  intros Hp. destruct l as [i raw]. unfold parse_line. case_match; [by intros [= <-]|].
  case_match; [case_match; [|done]; by intros [= <-]|].
  destruct (split_once 61 (trim raw)) as [[key value]|]; [|done].
  intros (r & Hr & Hq)%result_bind_Ok. destruct r as [q|]; [|done]. injection Hq as <-.
  eapply assign_ok; [done| |done]. apply trim_trimmed.
Qed.
Lemma parse_lines_ok name kind ls p p' : parser_ok name kind p → rfold parse_line p ls = Ok p' → parser_ok name kind p'.
Proof.
  revert p. induction ls as [|l ls IH]; intros p Hp; cbn; [by intros [= <-]|].
  intros (q & Hq & H)%result_bind_Ok. eapply IH; [|done]. by eapply parse_line_ok.
Qed.

Lemma parse_unit_loaded name source u : parse_unit name source = Ok u →
  loaded_ok name u ∧ u.(LoadedUnit.state) = UnitState.Loaded.
Proof.
  unfold parse_unit. intros (kind & Hk & H)%result_bind_Ok. destruct (UnitKind.from_name name) as [k|] eqn:En; [|done].
  injection Hk as <-. case_bool_decide; [done|]. apply result_bind_Ok in H as (p & Hp & H).
  apply (parse_lines_ok name k) in Hp as (H1 & H2 & H3 & H4); [|by repeat split].
  apply result_bind_Ok in H as (s & Hs & [= <-]). split; [|done]. split; [done|]. split; [done|].
  cbn. rewrite H2. split; [done|]. repeat case_match; simplify_eq; try done. by case_bool_decide.
Qed.
(** C40: whatever a unit file contains, a unit that is parsed carries the name it was asked
    for and the kind of that name's suffix; its dependencies are words without blanks;
    exactly service units have a command, and the command is not empty. *)
Theorem parsed_unit_ok name source u : parse_unit name source = Ok u →
  loaded_ok name u ∧ u.(LoadedUnit.state) = UnitState.Loaded.
Proof. apply parse_unit_loaded. Qed.

(** ** Writing a unit file *)
Definition restart_name (r : RestartPolicy.t) : text :=
  match r with
  | RestartPolicy.No => str "no"
  | RestartPolicy.OnFailure => str "on-failure"
  | RestartPolicy.Always => str "always"
  end.
Definition setting (key : string) (value : text) : text := str key ++ 61 :: value.
Definition unit_lines (u : LoadedUnit.t) : list text :=
  let i := u.(LoadedUnit.unit) in
  [str "[Unit]"; setting "Description" i.(Unit.description); setting "After" (join [space] i.(Unit.after));
   setting "Before" (join [space] i.(Unit.before)); setting "Requires" (join [space] i.(Unit.requires));
   setting "Wants" (join [space] i.(Unit.wants)); str "[Install]"; setting "WantedBy" (join [space] i.(Unit.wanted_by))]
  ++ match u.(LoadedUnit.service) with
     | Some s => [str "[Service]"; setting "ExecStart" s.(ServiceUnit.exec_start);
                  setting "Restart" (restart_name s.(ServiceUnit.restart))]
     | None => []
     end.
Definition unit_file (u : LoadedUnit.t) : text := unlines (unit_lines u).

(** a key: a non-empty literal of letters *)
Definition key_ok (k : string) : bool :=
  bool_decide (str k ≠ []) && forallb (λ c, between 65 122 c && negb (c =? 91)) (str k).
Lemma key_letters k c : key_ok k = true → c ∈ str k → between 65 122 c = true ∧ c ≠ 91.
Proof.
  unfold key_ok. rewrite andb_true_iff, forallb_forall. intros [_ H] Hc. apply list_elem_of_In in Hc.
  specialize (H c Hc). apply andb_true_iff in H as [H1 H2]. by apply negb_true_iff, Z.eqb_neq in H2.
Qed.
Lemma letter_not_blank c : between 65 122 c = true → is_whitespace c = false.
Proof.
  intros H%between_spec. unfold is_whitespace. rewrite !between_false by lia.
  repeat match goal with |- context [Z.eqb ?a ?b] => rewrite (proj2 (Z.eqb_neq a b)) by lia end. done.
Qed.
Lemma key_ends k : key_ok k = true → trimmed (str k).
Proof.
  intros Hk. split; intros c Hc; eapply letter_not_blank, key_letters; try exact Hk.
  - destruct (str k); [done|]. injection Hc as ->. apply list_elem_of_here.
  - apply last_Some in Hc as [l ->]. apply elem_of_app. right. apply list_elem_of_here.
Qed.
Lemma setting_trimmed k v : key_ok k = true → trimmed v → trimmed (setting k v).
Proof.
  intros Hk [_ Hv]. pose proof (key_ends k Hk) as [Hh _]. unfold setting.
  assert (str k ≠ []) as Hne. { unfold key_ok in Hk. apply andb_true_iff in Hk as [Hk _]. by apply bool_decide_eq_true in Hk. }
  split; intros c Hc.
  - apply Hh. destruct (str k); done.
  - rewrite last_app in Hc. destruct v as [|x v]; [by injection Hc as <-|]. apply Hv.
    change (last (61 :: x :: v)) with (last (x :: v)) in Hc. destruct (last (x :: v)) as [d|] eqn:E; [done|].
    by apply last_None in E.
Qed.

(** a setting reaches [assign] with its key and value *)
Lemma parse_setting p n k v : key_ok k = true → trimmed v →
  parse_line p (n, setting k v) = (r ← assign (str k) v p; ok_or r (UnitParseError.InvalidLine (n + 1) (setting k v))).
Proof.
  intros Hk Hv. unfold parse_line. rewrite (trim_id (setting k v)) by by apply setting_trimmed.
  assert (∃ c l, setting k v = c :: l ∧ between 65 122 c = true ∧ c ≠ 91) as (c & l & E & Hc & Hb).
  { unfold setting. destruct (str k) as [|c l] eqn:E.
    - unfold key_ok in Hk. by rewrite E in Hk.
    - exists c, (l ++ 61 :: v). split; [done|]. apply (key_letters k); [done|]. rewrite E. apply list_elem_of_here. }
  assert (split_once 61 (setting k v) = Some (str k, v)) as Es.
  { apply split_once_app. intros Hin. apply (key_letters k) in Hin as [Hin%between_spec _]; [lia|done]. }
  rewrite Es. rewrite !trim_id by (done || by apply key_ends). rewrite E. apply between_spec in Hc.
  rewrite bool_decide_false by done. unfold starts_with. cbn [head].
  rewrite !bool_decide_false by (intros [= ?]; lia). done.
Qed.
Lemma split_words l : Forall word l → split_unit_list (join [space] l) = l.
Proof.
  intros H. unfold split_unit_list. rewrite split_join by done. induction H as [|w l [Hw _] _ IH]; [done|].
  by rewrite filter_cons_True, IH.
Qed.

Lemma word_no_newline c : is_whitespace c = false → c ≠ newline ∧ c ≠ carriage_return.
Proof. intros H. split; intros ->; done. Qed.
Lemma setting_line k v : key_ok k = true → trimmed v → newline ∉ v → is_line (setting k v).
Proof.
  intros Hk Hv Hn. split.
  - unfold setting. rewrite elem_of_app, elem_of_cons. intros [H|[H|H]]; [|done|done].
    apply (key_letters k) in H as [H%between_spec _]; [|done]. unfold newline in H. lia.
  - destruct (last (setting k v)) as [c|] eqn:E; [|done]. intros [= ->].
    apply (setting_trimmed k v) in E; done.
Qed.
Lemma join_no_newline l : Forall word l → newline ∉ join [space] l.
Proof.
  intros Hl Hin. apply join_members in Hin as [H|(w & Hw & Hc)]; [done|]. rewrite Forall_forall in Hl. destruct (Hl w Hw) as [_ Hb].
  unfold blank_free in Hb. rewrite Forall_forall in Hb. specialize (Hb _ Hc). by apply word_no_newline in Hb as [? _].
Qed.
Lemma restart_name_ok r : trimmed (restart_name r) ∧ (newline ∉ restart_name r) ∧ RestartPolicy.parse (restart_name r) = Some r.
Proof.
  split_and!; [split; intros c Hc; destruct r; cbn in Hc; by simplify_eq|apply (bool_decide_unpack _); by destruct r|by destruct r].
Qed.

(** the lines [ls], at whatever line number, take the parser from [p] to [p'] *)
Definition lines_give (p : Parser.t) (ls : list text) (p' : Parser.t) : Prop :=
  ∀ k, rfold parse_line p (zip (seq k (length ls)) ls) = Ok p'.
Lemma give_nil p : lines_give p [] p.
Proof. done. Qed.
Lemma give_cons p l ls q p' : (∀ n, parse_line p (n, l) = Ok q) → lines_give q ls p' → lines_give p (l :: ls) p'.
Proof. intros Hl Hls k. cbn [length seq zip_with rfold]. rewrite Hl. apply Hls. Qed.
Lemma give_setting p k v ls q p' : key_ok k = true → trimmed v → assign (str k) v p = Ok (Some q) →
  lines_give q ls p' → lines_give p (setting k v :: ls) p'.
Proof. intros Hk Hv Hq. apply give_cons. intros n. rewrite parse_setting by done. by rewrite Hq. Qed.

(** the parser after all lines of a unit *)
Definition parser_end (i : Unit.t) (s : option ServiceUnit.t) : Parser.t :=
  match s with
  | Some s => Parser.mk (str "Service") i s.(ServiceUnit.exec_start) s.(ServiceUnit.restart)
  | None => Parser.mk (str "Install") i [] RestartPolicy.No
  end.
Lemma service_lines_give i s : trimmed s.(ServiceUnit.exec_start) →
  lines_give (parser_end i None) [str "[Service]"; setting "ExecStart" s.(ServiceUnit.exec_start);
    setting "Restart" (restart_name s.(ServiceUnit.restart))] (parser_end i (Some s)).
Proof.
  intros He. destruct (restart_name_ok (ServiceUnit.restart s)) as (Hr & _ & Hp).
  eapply give_cons; [reflexivity|]. eapply give_setting; [done|done|reflexivity|].
  eapply give_setting; [done|done| |apply give_nil]. unfold assign. cbn -[RestartPolicy.parse]. by rewrite Hp.
Qed.
Lemma unit_lines_give name i s : i.(Unit.name) = name → unit_ok i →
  (∀ v, s = Some v → trimmed v.(ServiceUnit.exec_start)) →
  lines_give (Parser.mk [] (Unit.mk name [] i.(Unit.kind) [] [] [] [] []) [] RestartPolicy.No)
    (unit_lines (LoadedUnit.mk i s UnitState.Loaded)) (parser_end i s).
Proof.
  intros Hname (Hd & Ha & Hb & Hr & Hw & Hy) Hs. unfold unit_lines. cbn [LoadedUnit.unit LoadedUnit.service app].
  eapply give_cons; [reflexivity|]. eapply give_setting; [done|done|reflexivity|].
  do 4 (eapply give_setting; [done|by apply join_trimmed|reflexivity|]).
  eapply give_cons; [reflexivity|]. eapply give_setting; [done|by apply join_trimmed|reflexivity|].
  rewrite !split_words by done. match goal with |- lines_give ?p _ _ => replace p with (parser_end i None) end.
  - destruct s as [s|]; [by apply service_lines_give, Hs|apply give_nil].
  - destruct i. cbn in *. by subst.
Qed.

(** C39: a unit file written from a unit that could have been parsed, with a one-line
    description and command, is parsed to exactly that unit. *)
Theorem unit_file_roundtrip name u : loaded_ok name u → trim name ≠ [] → u.(LoadedUnit.state) = UnitState.Loaded →
  newline ∉ u.(LoadedUnit.unit).(Unit.description) →
  (∀ s, u.(LoadedUnit.service) = Some s → newline ∉ s.(ServiceUnit.exec_start)) →
  parse_unit name (unit_file u) = Ok u.
Proof.
  intros (Hname & (Hd & Ha & Hb & Hr & Hw & Hy) & Hkind & Hs) Hne Hst Hdn Hen.
  destruct u as [i s st]. cbn [LoadedUnit.unit LoadedUnit.service LoadedUnit.state] in *. subst st.
  assert (lines (unit_file (LoadedUnit.mk i s UnitState.Loaded)) = unit_lines (LoadedUnit.mk i s UnitState.Loaded)) as El.
  { apply lines_unlines. unfold unit_lines. cbn [LoadedUnit.unit LoadedUnit.service].
    apply Forall_app. split.
    - repeat constructor; try (by apply setting_line; [done|by auto using join_trimmed|by auto using join_no_newline]);
        try by apply (bool_decide_unpack _).
    - destruct s as [s|]; [|constructor]. destruct Hs as (_ & He & _). destruct (restart_name_ok (ServiceUnit.restart s)) as (? & ? & _).
      repeat constructor; try (by apply setting_line; auto); by apply (bool_decide_unpack _). }
  unfold parse_unit. rewrite Hkind. cbn [ok_or mbind result_bind]. rewrite bool_decide_false by done. rewrite El.
  rewrite (unit_lines_give name i s Hname); [|done|intros v ->; by destruct Hs as (_ & ? & _)]. cbn [mbind result_bind]. destruct s as [s|].
  - destruct Hs as (-> & _ & He). rewrite decide_True by done. cbn [Parser.exec_start]. rewrite bool_decide_false by done.
    by destruct s.
  - by rewrite decide_False.
Qed.

(** ** Examples: the unit files in userspace/spider-rs/units *)
Definition default_target_file : text := str
"[Unit]
Name=Default Target
Description=Mirage default boot target
Wants=basic.target m1-terminal.service
After=basic.target

[Target]
".
Definition basic_target_file : text := str
"[Unit]
Name=Basic Target
Description=Mirage basic system target

[Target]
".
Definition m1_terminal_file : text := str
"[Unit]
Name=M1 Terminal
Description=Mirage M1.1 first terminal service
After=basic.target
Wants=basic.target

[Service]
ExecStart=/usr/bin/m1-terminal
Restart=no

[Install]
WantedBy=default.target
".
Definition m1_terminal : LoadedUnit.t := LoadedUnit.new
  (Unit.mk (str "m1-terminal.service") (str "Mirage M1.1 first terminal service") UnitKind.Service
     [str "basic.target"] [] [] [str "basic.target"] [str "default.target"])
  (Some (ServiceUnit.mk (str "/usr/bin/m1-terminal") RestartPolicy.No)).
Lemma parsed_unit_ok_witness : parse_unit (str "m1-terminal.service") m1_terminal_file = Ok m1_terminal ∧
  loaded_ok (str "m1-terminal.service") m1_terminal.
Proof.
  assert (parse_unit (str "m1-terminal.service") m1_terminal_file = Ok m1_terminal) as E by by vm_compute.
  split; [exact E|]. exact (proj1 (parsed_unit_ok _ _ _ E)).
Defined.
Definition demo_service : LoadedUnit.t := LoadedUnit.new
  (Unit.mk (str "a.service") (str "demo") UnitKind.Service [str "b.target"; str "c.target"] [] [] [] [])
  (Some (ServiceUnit.mk (str "/bin/a -v") RestartPolicy.OnFailure)).
Lemma demo_service_ok : loaded_ok (str "a.service") demo_service.
Proof.
  assert (∀ w, bool_decide (w ≠ []) && forallb (λ c, negb (is_whitespace c)) w = true → word w) as Hw.
  { intros w [H1 H2]%andb_true_iff. split; [by apply bool_decide_eq_true in H1|].
    apply Forall_forall. intros c Hc%list_elem_of_In. eapply forallb_forall in H2; [|exact Hc]. by apply negb_true_iff. }
  assert (∀ s, (match head s with Some c => negb (is_whitespace c) | None => true end) = true →
    (match last s with Some c => negb (is_whitespace c) | None => true end) = true → trimmed s) as Ht.
  { intros s H1 H2. split; intros c Hc; [rewrite Hc in H1|rewrite Hc in H2]; by apply negb_true_iff. }
  split; [done|]. split; [|split; [done|split; [done|split; [by apply Ht|done]]]].
  split; [by apply Ht|]. split_and!; repeat constructor; by apply Hw.
Qed.
Lemma unit_file_roundtrip_witness : parse_unit (str "a.service") (unit_file demo_service) = Ok demo_service.
Proof.
  apply (unit_file_roundtrip (str "a.service") demo_service demo_service_ok); [done|done|by apply (bool_decide_unpack _)|].
  intros s [= <-]. by apply (bool_decide_unpack _).
Defined.
