(* ===== verification/SpiderGraph.v ===== *)
(** * The startup order of units

    Models userspace/spider-rs/src/graph.rs: [collect_units] gathers the units a target
    pulls in, [resolve_startup_order] orders them by Kahn's algorithm.  A [BTreeMap] is a
    [gmap] whose keys are visited in order ([Text.sorted]), a [VecDeque] or [Vec] a list;
    the top of the stack is its head.  [None] stands for a panic of [expect], for an
    underflow of a count or for a loop that has used up its fuel: the theorems show that
    none of them happens, for any table of units.

    [needed] is what the target pulls in, [precedes] the order the unit files ask for.
    [startup_order_sound] says what a plan or an error means, [startup_order_complete]
    when there is a plan. *)

From stdpp Require Import prelude strings gmap sorting.
From S2P Require Import Prelude Bytes Text SpiderUnits.

Local Open Scope nat_scope.

Module StartupPlan.
Record t : Type := mk { target : text; order : list text }.
End StartupPlan.
Module DependencyError.
Inductive t : Type := MissingUnit (name : text) | Cycle (units : list text).
End DependencyError.

Abbreviation units := (gmap text LoadedUnit.t).
Implicit Types (us : units) (target name : text).
Definition contains_key (us : units) (name : text) : bool := bool_decide (is_Some (us !! name)).
(** [units.values()] *)
Definition values (us : units) : list LoadedUnit.t := omap (λ name, us !! name) (sorted (dom us)).

(** ** [collect_units] *)
Definition requires (u : LoadedUnit.t) : list text := u.(LoadedUnit.unit).(Unit.requires).
Definition wants (u : LoadedUnit.t) : list text := u.(LoadedUnit.unit).(Unit.wants).
Definition pulls (u : LoadedUnit.t) : list text := requires u ++ wants u.
(** the units that name [name] in WantedBy *)
Definition wanting (us : units) (name : text) : list text :=
  (λ c, c.(LoadedUnit.unit).(Unit.name)) <$>
    filter (λ c, name ∈ c.(LoadedUnit.unit).(Unit.wanted_by)) (values us).

Fixpoint collect_loop (fuel : nat) (us : units) (included : gset text) (stack : list text)
    : option (result DependencyError.t (gset text)) :=
  match fuel with
  | O => None
  | S fuel =>
      match stack with
      | [] => Some (Ok included)
      | name :: stack =>
          if decide (name ∈ included) then collect_loop fuel us included stack
          else
            let included := {[name]} ∪ included in
            match us !! name with
            | None => Some (Err (DependencyError.MissingUnit name))
            | Some unit =>
                match head (filter (λ dep, contains_key us dep = false) (pulls unit)) with
                | Some dep => Some (Err (DependencyError.MissingUnit dep))
                | None => collect_loop fuel us included (reverse (pulls unit ++ wanting us name) ++ stack)
                end
            end
      end
  end.
(** every unit is expanded once and pushes at most so many names *)
Definition pushes (us : units) (name : text) : nat :=
  match us !! name with Some unit => length (pulls unit ++ wanting us name) | None => 0 end.
Definition collect_fuel (us : units) : nat := 2 + sum_list (pushes us <$> elements (dom us)).
Definition collect_units (us : units) (target : text) : option (result DependencyError.t (gset text)) :=
  collect_loop (collect_fuel us) us ∅ [target].

(** ** [add_edge] and the edges of the graph *)
Module Graph.
Record t : Type := mk { edges : gmap text (gset text); indegree : gmap text nat }.
End Graph.

Definition add_edge (before after : text) (g : Graph.t) : option Graph.t :=
  match g.(Graph.edges) !! before with
  | None => None
  | Some out =>
      if decide (after ∈ out) then Some g
      else match g.(Graph.indegree) !! after with
      | None => None
      | Some count =>
          Some (Graph.mk (<[before := {[after]} ∪ out]> g.(Graph.edges))
                  (<[after := count + 1]> g.(Graph.indegree)))
      end
  end.

(** [for x in l], where the body may panic *)
Fixpoint pfold {A B} (body : A → B → option A) (a : A) (l : list B) : option A :=
  match l with
  | [] => Some a
  | x :: l' => a ← body a x; pfold body a l'
  end.
Definition included_only (included : gset text) (l : list text) : list text := filter (λ x, x ∈ included) l.
(** the edges of one unit *)
Definition unit_edges (us : units) (included : gset text) (g : Graph.t) (name : text) : option Graph.t :=
  unit ← us !! name;
  g ← pfold (λ g dep, add_edge dep name g) g (included_only included (pulls unit));
  g ← pfold (λ g after, add_edge after name g) g (included_only included unit.(LoadedUnit.unit).(Unit.after));
  pfold (λ g before, add_edge name before g) g (included_only included unit.(LoadedUnit.unit).(Unit.before)).
Definition empty_graph (included : gset text) : Graph.t :=
  Graph.mk (gset_to_gmap ∅ included) (gset_to_gmap 0 included).
Definition build_graph (us : units) (included : gset text) : option Graph.t :=
  pfold (unit_edges us included) (empty_graph included) (sorted included).

(** ** The loop over the ready queue *)
Module Kahn.
Record t : Type := mk { indegree : gmap text nat; ready : list text; order : list text }.
End Kahn.

(** one outgoing edge of the unit that was taken from the queue *)
Definition release_dependent (k : Kahn.t) (dependent : text) : option Kahn.t :=
  count ← k.(Kahn.indegree) !! dependent;
  match count with
  | O => None
  | S count =>
      Some (Kahn.mk (<[dependent := count]> k.(Kahn.indegree))
        (if decide (count = 0) then k.(Kahn.ready) ++ [dependent] else k.(Kahn.ready)) k.(Kahn.order))
  end.
Fixpoint kahn_loop (fuel : nat) (edges : gmap text (gset text)) (k : Kahn.t) : option Kahn.t :=
  match k.(Kahn.ready) with
  | [] => Some k
  | name :: ready =>
      match fuel with
      | O => None
      | S fuel =>
          k ← pfold release_dependent (Kahn.mk k.(Kahn.indegree) ready (k.(Kahn.order) ++ [name]))
                (sorted (default ∅ (edges !! name)));
          kahn_loop fuel edges k
      end
  end.
Definition with_count (p : nat → bool) (indegree : gmap text nat) : list text :=
  filter (λ name, p (default 0 (indegree !! name)) = true) (sorted (dom indegree)).

Definition resolve_startup_order (us : units) (target : text)
    : option (result DependencyError.t StartupPlan.t) :=
  if contains_key us target then
    r ← collect_units us target;
    match r with
    | Err e => Some (Err e)
    | Ok included =>
        g ← build_graph us included;
        k ← kahn_loop (size included) g.(Graph.edges)
              (Kahn.mk g.(Graph.indegree) (with_count (Nat.eqb 0) g.(Graph.indegree)) []);
        if decide (length k.(Kahn.order) = size included)
        then Some (Ok (StartupPlan.mk target k.(Kahn.order)))
        else Some (Err (DependencyError.Cycle (with_count (Nat.ltb 0) k.(Kahn.indegree))))
    end
  else Some (Err (DependencyError.MissingUnit target)).

(** ** What a target pulls in *)
Inductive needed (us : units) (target : text) : text → Prop :=
| needed_target : needed us target target
| needed_pulled name u d : needed us target name → us !! name = Some u → d ∈ pulls u → needed us target d
| needed_wanting name k c : needed us target name → is_Some (us !! name) → us !! k = Some c →
    name ∈ c.(LoadedUnit.unit).(Unit.wanted_by) → needed us target c.(LoadedUnit.unit).(Unit.name).

Lemma elem_of_wanting us name d : d ∈ wanting us name ↔
  ∃ k c, us !! k = Some c ∧ name ∈ c.(LoadedUnit.unit).(Unit.wanted_by) ∧ d = c.(LoadedUnit.unit).(Unit.name).
Proof.
  unfold wanting, values. rewrite list_elem_of_fmap. setoid_rewrite list_elem_of_filter. setoid_rewrite list_elem_of_omap.
  setoid_rewrite sorted_elem. split.
  - intros (c & -> & Hn & k & _ & Hk). by exists k, c.
  - intros (k & c & Hk & Hn & ->). exists c. split; [done|]. split; [done|]. exists k. split; [|done]. by eapply elem_of_dom_2.
Qed.
(** the names one unit adds to the stack *)
Definition successors (us : units) (name : text) : list text :=
  match us !! name with Some unit => pulls unit ++ wanting us name | None => [] end.
Lemma needed_successor us target name d : needed us target name → d ∈ successors us name → needed us target d.
Proof.
  unfold successors. destruct (us !! name) as [u|] eqn:E; [|by intros _ ?%elem_of_nil].
  intros Hn [Hd|(k & c & Hk & Hw & ->)%elem_of_wanting]%elem_of_app; [by eapply needed_pulled|].
  eapply needed_wanting; [exact Hn|by eexists|done|done].
Qed.
(** any closed set of units that holds the target holds all it needs *)
Lemma needed_closed us (target : text) (X : gset text) : target ∈ X → (∀ n d : text, n ∈ X → d ∈ successors us n → d ∈ X) →
  ∀ n, needed us target n → n ∈ X.
Proof.
  intros Ht Hc n. induction 1 as [|name u d Hn IH Hu Hd|name k c Hn IH [u Hu] Hk Hw]; [done| |].
  - apply (Hc name); [done|]. unfold successors. rewrite Hu. apply elem_of_app. by left.
  - apply (Hc name); [done|]. unfold successors. rewrite Hu. apply elem_of_app. right. apply elem_of_wanting. by exists k, c.
Qed.

(** the work left: the stack and what units not yet expanded may push *)
Definition work (us : units) (included : gset text) (stack : list text) : nat :=
  length stack + sum_list (pushes us <$> elements (dom us ∖ included)).
Lemma sum_list_perm (l k : list nat) : l ≡ₚ k → sum_list l = sum_list k.
Proof. induction 1; cbn; lia. Qed.
Lemma work_expand us included name u stack : us !! name = Some u → name ∉ included →
  work us ({[name]} ∪ included) (reverse (successors us name) ++ stack) = work us included stack.
Proof.
  intros Hu Hn. unfold work. assert (dom us ∖ included = {[name]} ∪ (dom us ∖ ({[name]} ∪ included))) as ->.
  { apply elem_of_dom_2 in Hu. apply set_eq. intros x. destruct (decide (x = name)); set_solver. }
  erewrite (sum_list_perm (pushes us <$> elements ({[name]} ∪ _)));
    [|apply fmap_Permutation, elements_union_singleton; set_solver].
  cbn. rewrite length_app, length_reverse. unfold pushes at 2, successors. rewrite Hu. lia.
Qed.

Lemma head_filter_None {A} (P : A → Prop) `{∀ x, Decision (P x)} l : head (filter P l) = None → ∀ x, x ∈ l → ¬ P x.
Proof.
  intros Hh x Hx HP. assert (x ∈ filter P l) as Hf by by apply list_elem_of_filter.
  destruct (filter P l); [by apply elem_of_nil in Hf|done].
Qed.
Lemma head_elem {A} (l : list A) x : head l = Some x → x ∈ l.
Proof. destruct l; [done|]. intros [= ->]. apply list_elem_of_here. Qed.

(** what the loop has established *)
Record collecting (us : units) (target : text) (included : gset text) (stack : list text) : Prop := {
  co_needed : ∀ n, n ∈ included ∨ n ∈ stack → needed us target n;
  co_loaded : ∀ n, n ∈ included → is_Some (us !! n);
  co_closed : ∀ n d, n ∈ included → d ∈ successors us n → d ∈ included ∨ d ∈ stack;
  co_target : target ∈ included ∨ target ∈ stack
}.
Lemma collect_loop_spec us target fuel included stack :
  collecting us target included stack → work us included stack < fuel →
  ∃ r, collect_loop fuel us included stack = Some r ∧
  match r with
  | Ok X => collecting us target X []
  | Err (DependencyError.MissingUnit n) => needed us target n ∧ us !! n = None
  | Err (DependencyError.Cycle _) => False
  end.
Proof.
  revert included stack. induction fuel as [|fuel IH]; intros included stack Hc Hf; [lia|]. cbn [collect_loop].
  destruct stack as [|name stack]; [by eexists|]. case_decide as Hin.
  - apply IH; [|unfold work in *; cbn in Hf; lia]. destruct Hc as [H1 H2 H3 H4]. split; [|done| |].
    + intros n [Hn|Hn]; apply H1; [by left|right; by apply list_elem_of_further].
    + intros n d Hn Hd. destruct (H3 n d Hn Hd) as [?|[->|?]%elem_of_cons]; auto.
    + destruct H4 as [?|[->|?]%elem_of_cons]; auto.
  - assert (needed us target name) as Hname by (apply Hc; right; apply list_elem_of_here).
    destruct (us !! name) as [u|] eqn:Hu; [|by eexists]. destruct (head _) as [dep|] eqn:Hh.
    + eexists. split; [done|]. apply head_elem, list_elem_of_filter in Hh as [Hk Hd].
      split; [by eapply needed_pulled|]. unfold contains_key in Hk. apply bool_decide_eq_false in Hk.
      by apply eq_None_not_Some.
    + assert (pulls u ++ wanting us name = successors us name) as Es by (unfold successors; by rewrite Hu).
      rewrite Es. apply IH; [|rewrite work_expand with (u := u) by done; unfold work in *; cbn in Hf; lia].
      destruct Hc as [H1 H2 H3 H4]. split.
      * intros n [[->%elem_of_singleton|Hn]%elem_of_union|[Hn|Hn]%elem_of_app].
        -- done.
        -- apply H1. by left.
        -- rewrite elem_of_reverse in Hn. exact (needed_successor _ _ _ _ Hname Hn).
        -- apply H1. right. by apply list_elem_of_further.
      * intros n [->%elem_of_singleton|Hn]%elem_of_union; [by exists u|by apply H2].
      * intros n d [->%elem_of_singleton|Hn]%elem_of_union Hd.
        -- right. apply elem_of_app. left. by apply elem_of_reverse.
        -- destruct (H3 n d Hn Hd) as [?|[->|?]%elem_of_cons]; [left; set_solver|left; set_solver|right; apply elem_of_app; auto].
      * destruct H4 as [?|[->|?]%elem_of_cons]; [left; set_solver|left; set_solver|right; apply elem_of_app; auto].
Qed.
Lemma collect_units_spec us target : ∃ r, collect_units us target = Some r ∧
  match r with
  | Ok X => (∀ n, n ∈ X ↔ needed us target n) ∧ ∀ n, n ∈ X → is_Some (us !! n)
  | Err (DependencyError.MissingUnit n) => needed us target n ∧ us !! n = None
  | Err (DependencyError.Cycle _) => False
  end.
Proof.
  destruct (collect_loop_spec us target (collect_fuel us) ∅ [target]) as (r & Hr & H).
  - split; [|set_solver|set_solver|right; apply list_elem_of_here].
    intros n [Hn|Hn]; [set_solver|]. apply list_elem_of_singleton in Hn as ->. constructor.
  - unfold work, collect_fuel. cbn [length]. replace (dom us ∖ ∅) with (dom us) by set_solver. lia.
  - exists r. split; [done|]. destruct r as [X|e]; [|done]. destruct H as [H1 H2 H3 H4]. split; [|done].
    intros n. split; [intros Hn; apply H1; by left|]. apply needed_closed; [|].
    + destruct H4 as [Hx|Hx]; [done|by apply elem_of_nil in Hx].
    + intros m d Hm Hd. destruct (H3 m d Hm Hd) as [Hx|Hx]; [done|by apply elem_of_nil in Hx].
Qed.

(** ** The graph that is built *)
(** the order the unit files ask for between two collected units *)
Definition precedes (us : units) (V : gset text) (a b : text) : Prop :=
  a ∈ V ∧ b ∈ V ∧
  ((∃ u, us !! b = Some u ∧ (a ∈ pulls u ∨ a ∈ u.(LoadedUnit.unit).(Unit.after))) ∨
   (∃ u, us !! a = Some u ∧ b ∈ u.(LoadedUnit.unit).(Unit.before))).

Definition out (edges : gmap text (gset text)) (a : text) : gset text := default ∅ (edges !! a).
(** how many of the units [X] come before [b] *)
Definition pending (edges : gmap text (gset text)) (X : gset text) (b : text) : nat :=
  size (filter (λ a, b ∈ out edges a) X).
Definition counted (edges : gmap text (gset text)) (V X : gset text) (indegree : gmap text nat) : Prop :=
  ∀ b, indegree !! b = if decide (b ∈ V) then Some (pending edges X b) else None.
Record graph_ok (V : gset text) (g : Graph.t) : Prop := {
  gr_known : ∀ a, a ∈ V → is_Some (g.(Graph.edges) !! a);
  gr_inside : ∀ a b, b ∈ out g.(Graph.edges) a → a ∈ V ∧ b ∈ V;
  gr_counted : counted g.(Graph.edges) V V g.(Graph.indegree)
}.

Lemma pending_ext edges edges' X b : (∀ a, a ∈ X → b ∈ out edges' a ↔ b ∈ out edges a) →
  pending edges' X b = pending edges X b.
Proof. intros H. unfold pending. f_equal. apply set_eq. intros a. rewrite !elem_of_filter. naive_solver. Qed.
Lemma pending_add edges edges' X a b : a ∈ X → b ∉ out edges a → b ∈ out edges' a →
  (∀ x, x ≠ a → b ∈ out edges' x ↔ b ∈ out edges x) → pending edges' X b = S (pending edges X b).
Proof.
  intros Ha Hno Hyes Hsame. unfold pending.
  assert (filter (λ x, b ∈ out edges' x) X = {[a]} ∪ filter (λ x, b ∈ out edges x) X) as ->.
  { apply set_eq. intros x. rewrite elem_of_union, elem_of_singleton, !elem_of_filter.
    destruct (decide (x = a)) as [->|Hx]; [naive_solver|]. rewrite (Hsame x Hx). naive_solver. }
  rewrite size_union, size_singleton; [done|]. rewrite disjoint_singleton_l, elem_of_filter. naive_solver.
Qed.
Lemma pending_done edges X a b : a ∈ X →
  pending edges X b = (if decide (b ∈ out edges a) then 1 else 0) + pending edges (X ∖ {[a]}) b.
Proof.
  intros Ha. unfold pending. case_decide as Hb.
  - assert (filter (λ x, b ∈ out edges x) X = {[a]} ∪ filter (λ x, b ∈ out edges x) (X ∖ {[a]})) as ->.
    { apply set_eq. intros x. rewrite elem_of_union, elem_of_singleton, !elem_of_filter, elem_of_difference, elem_of_singleton.
      destruct (decide (x = a)) as [->|Hx]; naive_solver. }
    rewrite size_union, size_singleton; [done|]. rewrite disjoint_singleton_l, elem_of_filter. set_solver.
  - cbn. f_equal. apply set_eq. intros x. rewrite !elem_of_filter, elem_of_difference, elem_of_singleton.
    destruct (decide (x = a)) as [->|Hx]; naive_solver.
Qed.
Lemma pending_0 edges X b : pending edges X b = 0 ↔ ∀ a, a ∈ X → b ∉ out edges a.
Proof.
  unfold pending. rewrite size_empty_iff. split.
  - intros H a Ha Hb. assert (a ∈ filter (λ a, b ∈ out edges a) X) as Hf by by apply elem_of_filter. set_solver.
  - intros H. apply set_equiv. intros a. rewrite elem_of_filter. set_solver.
Qed.
Lemma pending_pos edges X b : pending edges X b ≠ 0 → ∃ a, a ∈ X ∧ b ∈ out edges a.
Proof.
  unfold pending. rewrite size_empty_iff. intros (a & [? ?]%elem_of_filter)%set_choose. by exists a.
Qed.

Definition joins (g g' : Graph.t) (l : list (text * text)) : Prop :=
  ∀ x y, y ∈ out g'.(Graph.edges) x ↔ y ∈ out g.(Graph.edges) x ∨ (x, y) ∈ l.
Lemma add_edge_ok V g a b : graph_ok V g → a ∈ V → b ∈ V →
  ∃ g', add_edge a b g = Some g' ∧ graph_ok V g' ∧ joins g g' [(a, b)].
Proof.
  intros [H1 H2 H3] Ha Hb. unfold add_edge. destruct (H1 a Ha) as [o Ho]. rewrite Ho.
  assert (out (Graph.edges g) a = o) as Eo by (unfold out; by rewrite Ho). case_decide as Hin.
  { exists g. split; [done|]. split; [by split|]. intros x y. rewrite list_elem_of_singleton. split; [by left|].
    intros [?|[= -> ->]]; [done|]. by rewrite Eo. }
  pose proof (H3 b) as Hc. rewrite decide_True in Hc by done. rewrite Hc. eexists. split; [done|].
  set (E' := <[a := {[b]} ∪ o]> (Graph.edges g)).
  assert (∀ x y, y ∈ out E' x ↔ y ∈ out (Graph.edges g) x ∨ (x = a ∧ y = b)) as Hout.
  { intros x y. unfold out, E'. destruct (decide (x = a)) as [->|Hx].
    - rewrite lookup_insert_eq, Ho. cbn. set_solver.
    - rewrite lookup_insert_ne by done. naive_solver. }
  split; [split; cbn [Graph.edges Graph.indegree]|].
  - intros x Hx. unfold E'. destruct (decide (x = a)) as [->|]; [rewrite lookup_insert_eq; by eexists|].
    rewrite lookup_insert_ne by done. by apply H1.
  - intros x y [Hy|[-> ->]]%Hout; [by apply H2|done].
  - intros y. destruct (decide (y = b)) as [->|Hy].
    + rewrite lookup_insert_eq, decide_True by done. f_equal.
      rewrite (pending_add (Graph.edges g) E' V a b); [lia|done|by rewrite Eo|apply Hout; by right|].
      intros x Hx. rewrite Hout. naive_solver.
    + rewrite lookup_insert_ne by done. rewrite (H3 y). destruct (decide (y ∈ V)); [|done]. f_equal. symmetry.
      apply pending_ext. intros x _. fold E'. rewrite Hout. naive_solver.
  - intros x y. cbn. fold E'. rewrite Hout, list_elem_of_singleton. naive_solver.
Qed.
Lemma pfold_edges V (f : text → text * text) l g : graph_ok V g → (∀ x, x ∈ l → (f x).1 ∈ V ∧ (f x).2 ∈ V) →
  ∃ g', pfold (λ g x, add_edge (f x).1 (f x).2 g) g l = Some g' ∧ graph_ok V g' ∧ joins g g' (f <$> l).
Proof.
  revert g. induction l as [|x l IH]; intros g Hg Hl.
  { exists g. split; [done|]. split; [done|]. intros a b. cbn. rewrite elem_of_nil. naive_solver. }
  destruct (Hl x) as [H1 H2]; [apply list_elem_of_here|]. destruct (add_edge_ok V g _ _ Hg H1 H2) as (g1 & E1 & Hg1 & J1).
  destruct (IH g1 Hg1) as (g2 & E2 & Hg2 & J2); [intros y Hy; apply Hl; by apply list_elem_of_further|].
  exists g2. cbn [pfold]. rewrite E1. cbn [mbind option_bind]. split; [done|]. split; [done|]. intros a b. rewrite (J2 a b), (J1 a b), list_elem_of_singleton.
  rewrite fmap_cons, elem_of_cons. destruct (f x). cbn. naive_solver.
Qed.

(** the pairs one unit adds *)
Definition unit_pairs (us : units) (V : gset text) (name : text) : list (text * text) :=
  match us !! name with
  | Some u => ((λ d, (d, name)) <$> included_only V (pulls u)) ++
              ((λ d, (d, name)) <$> included_only V u.(LoadedUnit.unit).(Unit.after)) ++
              ((λ d, (name, d)) <$> included_only V u.(LoadedUnit.unit).(Unit.before))
  | None => []
  end.
Lemma unit_edges_ok us V g name : graph_ok V g → name ∈ V → is_Some (us !! name) →
  ∃ g', unit_edges us V g name = Some g' ∧ graph_ok V g' ∧ joins g g' (unit_pairs us V name).
Proof.
  intros Hg Hn [u Hu]. unfold unit_edges, unit_pairs. rewrite Hu. cbn [mbind option_bind].
  assert (∀ l x, x ∈ included_only V l → x ∈ V) as Hin by by intros l x [? _]%list_elem_of_filter.
  destruct (pfold_edges V (λ d, (d, name)) (included_only V (pulls u)) g Hg) as (g1 & E1 & Hg1 & J1);
    [intros x Hx; split; [by eapply Hin|done]|].
  destruct (pfold_edges V (λ d, (d, name)) (included_only V (Unit.after (LoadedUnit.unit u))) g1 Hg1) as (g2 & E2 & Hg2 & J2);
    [intros x Hx; split; [by eapply Hin|done]|].
  destruct (pfold_edges V (λ d, (name, d)) (included_only V (Unit.before (LoadedUnit.unit u))) g2 Hg2) as (g3 & E3 & Hg3 & J3);
    [intros x Hx; split; [done|by eapply Hin]|].
  cbn in E1, E2, E3. rewrite E1. cbn. rewrite E2. cbn. exists g3. split; [done|]. split; [done|].
  intros a b. rewrite (J3 a b), (J2 a b), (J1 a b), !elem_of_app. tauto.
Qed.
Lemma pfold_units us V l g : graph_ok V g → (∀ n, n ∈ l → n ∈ V ∧ is_Some (us !! n)) →
  ∃ g', pfold (unit_edges us V) g l = Some g' ∧ graph_ok V g' ∧ joins g g' (l ≫= unit_pairs us V).
Proof.
  revert g. induction l as [|n l IH]; intros g Hg Hl.
  { exists g. split; [done|]. split; [done|]. intros a b. cbn. rewrite elem_of_nil. naive_solver. }
  destruct (Hl n) as [H1 H2]; [apply list_elem_of_here|]. destruct (unit_edges_ok us V g n Hg H1 H2) as (g1 & E1 & Hg1 & J1).
  destruct (IH g1 Hg1) as (g2 & E2 & Hg2 & J2); [intros y Hy; apply Hl; by apply list_elem_of_further|].
  exists g2. cbn [pfold]. rewrite E1. cbn [mbind option_bind]. split; [done|]. split; [done|].
  intros a b. rewrite (J2 a b), (J1 a b), bind_cons, elem_of_app. tauto.
Qed.
Lemma elem_of_unit_pairs us V n a b : (a, b) ∈ unit_pairs us V n ↔ ∃ u, us !! n = Some u ∧
  ((b = n ∧ a ∈ V ∧ (a ∈ pulls u ∨ a ∈ u.(LoadedUnit.unit).(Unit.after))) ∨
   (a = n ∧ b ∈ V ∧ b ∈ u.(LoadedUnit.unit).(Unit.before))).
Proof.
  unfold unit_pairs. destruct (us !! n) as [u|]; [|rewrite elem_of_nil; naive_solver].
  rewrite !elem_of_app, !list_elem_of_fmap. unfold included_only. setoid_rewrite list_elem_of_filter. split.
  - intros [(x & [= -> ->] & ? & ?)|[(x & [= -> ->] & ? & ?)|(x & [= -> ->] & ? & ?)]]; exists u; naive_solver.
  - intros (u' & [= <-] & [(-> & Ha & [Hp|Hp])|(-> & Hb & Hp)]); [left|right; left|right; right]; eauto.
Qed.
Lemma empty_out V a b : b ∉ out (gset_to_gmap ∅ V) a.
Proof.
  unfold out. destruct (gset_to_gmap _ _ !! a) as [o|] eqn:E; [|set_solver].
  apply lookup_gset_to_gmap_Some in E as [_ <-]. set_solver.
Qed.
Lemma empty_graph_ok V : graph_ok V (empty_graph V).
Proof.
  split; cbn.
  - intros a Ha. exists ∅. by apply lookup_gset_to_gmap_Some.
  - intros a b Hb. by apply empty_out in Hb.
  - intros b. case_decide as Hb; [|by apply lookup_gset_to_gmap_None]. apply lookup_gset_to_gmap_Some. split; [done|].
    symmetry. apply pending_0. intros a _. apply empty_out.
Qed.
Lemma build_graph_ok us V : (∀ n, n ∈ V → is_Some (us !! n)) →
  ∃ g, build_graph us V = Some g ∧ graph_ok V g ∧ ∀ a b, b ∈ out g.(Graph.edges) a ↔ precedes us V a b.
Proof.
  intros HV. destruct (pfold_units us V (sorted V) _ (empty_graph_ok V)) as (g & Eg & Hg & J);
    [intros n Hn%sorted_elem; auto|].
  exists g. split; [done|]. split; [done|]. intros a b. rewrite (J a b), list_elem_of_bind.
  setoid_rewrite sorted_elem. setoid_rewrite elem_of_unit_pairs. unfold precedes. split.
  - intros [Hb|(n & (u & Hu & [(-> & Ha & H)|(-> & Hb & H)]) & Hn)]; [by apply empty_out in Hb| |]; eauto 10.
  - intros (Ha & Hb & [(u & Hu & H)|(u & Hu & H)]); right; [exists b|exists a]; eauto 10.
Qed.

(** ** The ready queue *)
(** releasing the dependents of one unit: each count drops by one, those that reach zero
    join the queue *)
Lemma release_dependents_ok (c : text → nat) ds k : NoDup ds →
  (∀ b, b ∈ ds → k.(Kahn.indegree) !! b = Some (S (c b))) →
  ∃ m, pfold release_dependent k ds = Some (Kahn.mk m (k.(Kahn.ready) ++ filter (λ b, c b = 0) ds) k.(Kahn.order)) ∧
    ∀ b, m !! b = if decide (b ∈ ds) then Some (c b) else k.(Kahn.indegree) !! b.
Proof.
  revert k. induction ds as [|d ds IH]; intros k Hnd Hc.
  { exists k.(Kahn.indegree). cbn. rewrite app_nil_r. split; [by destruct k|]. intros b. by rewrite decide_False by apply not_elem_of_nil. }
  apply NoDup_cons in Hnd as [Hd Hnd]. cbn [pfold].
  set (k1 := Kahn.mk (<[d := c d]> (Kahn.indegree k))
    (if decide (c d = 0) then Kahn.ready k ++ [d] else Kahn.ready k) (Kahn.order k)).
  assert (release_dependent k d = Some k1) as ->
    by (unfold release_dependent; by rewrite (Hc d) by apply list_elem_of_here).
  cbn [mbind option_bind].
  destruct (IH k1 Hnd) as (m & Em & Hm).
  { intros b Hb. cbn. rewrite lookup_insert_ne by by intros ->. apply Hc. by apply list_elem_of_further. }
  exists m. rewrite Em. split.
  - f_equal. f_equal. cbn [k1 Kahn.ready]. rewrite filter_cons. case_decide; [by rewrite <- app_assoc|done].
  - intros b. rewrite Hm. cbn [k1 Kahn.indegree]. destruct (decide (b = d)) as [->|Hne].
    + rewrite decide_False by done. rewrite decide_True by apply list_elem_of_here. by rewrite lookup_insert_eq.
    + rewrite lookup_insert_ne by done. destruct (decide (b ∈ ds)).
      * by rewrite decide_True by by apply list_elem_of_further.
      * rewrite decide_False; [done|]. by intros [?|?]%elem_of_cons.
Qed.

(** every unit of the order comes after all that precede it *)
Definition respects (edge : text → text → Prop) (order : list text) : Prop :=
  ∀ l1 b l2, order = l1 ++ b :: l2 → ∀ a, edge a b → a ∈ l1.
Definition edge_of (edges : gmap text (gset text)) (a b : text) : Prop := b ∈ out edges a.

Lemma respects_snoc edge order b : respects edge order → (∀ a, edge a b → a ∈ order) → respects edge (order ++ [b]).
Proof.
  intros Ho Hb l1 x l2 E a Ha. destruct (decide (l2 = [])) as [->|Hne].
  - apply app_inj_2 in E as [-> [= ->]]; [|done]. by apply Hb.
  - destruct (exists_last Hne) as (l3 & y & ->). rewrite app_comm_cons, app_assoc in E. apply app_inj_2 in E as [E _]; [|done].
    by eapply Ho.
Qed.

Section kahn.
Variables (V : gset text) (edges : gmap text (gset text)).
Hypothesis inside : ∀ a b, b ∈ out edges a → a ∈ V ∧ b ∈ V.
Abbreviation left_of order := (V ∖ list_to_set order).

Record kahn_ok (k : Kahn.t) : Prop := {
  ka_counted : counted edges V (left_of k.(Kahn.order)) k.(Kahn.indegree);
  ka_nodup : NoDup (k.(Kahn.order) ++ k.(Kahn.ready));
  ka_queued : ∀ b, b ∈ k.(Kahn.order) ++ k.(Kahn.ready) ↔ b ∈ V ∧ pending edges (left_of k.(Kahn.order)) b = 0;
  ka_respects : respects (edge_of edges) k.(Kahn.order)
}.

Lemma taken_length l : NoDup l → (∀ b, b ∈ l → b ∈ V) → length l ≤ size V.
Proof.
  intros Hnd Hl. rewrite <- (size_list_to_set (C := gset text)) by done. apply subseteq_size. set_solver.
Qed.
(** one round of the loop *)
Lemma kahn_round indegree name ready order : kahn_ok (Kahn.mk indegree (name :: ready) order) →
  ∃ k', pfold release_dependent (Kahn.mk indegree ready (order ++ [name])) (sorted (default ∅ (edges !! name))) = Some k' ∧
    kahn_ok k' ∧ k'.(Kahn.order) = order ++ [name].
Proof.
  intros [Hcount Hnd Hq Hr]. cbn [Kahn.indegree Kahn.ready Kahn.order] in *. change (default ∅ (edges !! name)) with (out edges name).
  assert (name ∈ V ∧ pending edges (left_of order) name = 0) as [HV Hp0] by (apply Hq, elem_of_app; right; apply list_elem_of_here).
  apply NoDup_app in Hnd as (Hno & Hdis & Hnr). apply NoDup_cons in Hnr as [Hnr1 Hnr2].
  assert (name ∉ order) as Hnew by (intros H; apply (Hdis _ H), list_elem_of_here).
  assert (left_of (order ++ [name]) = left_of order ∖ {[name]}) as El.
  { rewrite list_to_set_app_L. cbn. set_solver. }
  assert (name ∈ left_of order) as Hleft by set_solver.
  assert (∀ b, pending edges (left_of order) b = (if decide (b ∈ out edges name) then 1 else 0) + pending edges (left_of (order ++ [name])) b)
    as Hstep by (intros b; rewrite El; by apply pending_done).
  set (c := pending edges (left_of (order ++ [name]))) in *.
  destruct (release_dependents_ok c (sorted (out edges name)) (Kahn.mk indegree ready (order ++ [name]))) as (m & Em & Hm).
  { apply sorted_NoDup. }
  { intros b Hb%sorted_elem. cbn. rewrite (Hcount b), Hstep. rewrite !decide_True; [done|done|by apply (inside name)]. }
  eexists. split; [exact Em|]. cbn [Kahn.ready Kahn.order]. split; [|done].
  assert (∀ b, b ∈ filter (λ b, c b = 0) (sorted (out edges name)) ↔ b ∈ out edges name ∧ c b = 0) as Hf.
  { intros b. rewrite list_elem_of_filter, sorted_elem. naive_solver. }
  assert (∀ b, b ∈ order ++ name :: ready → b ∉ out edges name) as Hold.
  { intros b [_ Hb]%Hq. apply pending_0 with (a := name) in Hb; [done|done]. }
  split; cbn [Kahn.indegree Kahn.ready Kahn.order].
  - intros b. rewrite Hm. cbn [Kahn.indegree]. rewrite (Hcount b), Hstep. destruct (decide (b ∈ sorted (out edges name))) as [Hb|Hb].
    + apply sorted_elem in Hb. rewrite decide_True; [done|]. by apply (inside name).
    + rewrite sorted_elem in Hb. destruct (decide (b ∈ V)); [|done]. f_equal. fold c. by rewrite decide_False.
  - rewrite <- app_assoc. apply NoDup_app. split; [done|]. split.
    + intros x Hx [->|[Hx2|Hx2]%elem_of_app]%elem_of_cons; [done| |].
      * apply (Hdis _ Hx). by apply list_elem_of_further.
      * apply Hf in Hx2 as [Hx2 _]. eapply Hold; [|exact Hx2]. apply elem_of_app. by left.
    + cbn. apply NoDup_cons. split.
      * intros [Hx|[Hx _]%Hf]%elem_of_app; [done|]. eapply Hold; [|exact Hx]. apply elem_of_app. right. apply list_elem_of_here.
      * apply NoDup_app. split; [done|]. split; [|apply NoDup_filter, sorted_NoDup].
        intros x Hx [Hx2 _]%Hf. eapply Hold; [|exact Hx2]. apply elem_of_app. right. by apply list_elem_of_further.
  - intros b. fold c. rewrite <- app_assoc, !elem_of_app, list_elem_of_singleton, Hf.
    pose proof (Hq b) as Hqb. rewrite Hstep, elem_of_app, elem_of_cons in Hqb. split.
    + intros [Hb|[->|[Hb|[Hb Hc]]]].
      * destruct (proj1 Hqb) as [? ?]; [by left|]. split; [done|lia].
      * destruct (proj1 Hqb) as [? ?]; [by right; left|]. split; [done|lia].
      * destruct (proj1 Hqb) as [? ?]; [by right; right|]. split; [done|lia].
      * split; [by apply (inside name)|done].
    + intros [Hb Hc]. destruct (decide (b ∈ out edges name)) as [Ho|Ho]; [by right; right; right|].
      destruct (proj2 Hqb) as [?|[->|?]]; [split; [done|lia]|by left|by right; left|by right; right; left].
  - apply respects_snoc; [done|]. intros a Ha. destruct (decide (a ∈ order)) as [|Hno2]; [done|]. exfalso.
    apply pending_0 with (a := a) in Hp0; [done|]. destruct (inside a name Ha) as [HaV _]. set_solver.
Qed.
Lemma kahn_loop_spec fuel k : kahn_ok k → size V ≤ length k.(Kahn.order) + fuel →
  ∃ k', kahn_loop fuel edges k = Some k' ∧ kahn_ok k' ∧ k'.(Kahn.ready) = [].
Proof.
  revert k. induction fuel as [|fuel IH]; intros [indegree ready order] Hk Hf; cbn [Kahn.order] in Hf.
  - destruct ready as [|name ready]; [by eexists|]. exfalso.
    pose proof (taken_length _ (ka_nodup _ Hk)) as Hl. cbn [Kahn.order Kahn.ready] in Hl. rewrite length_app in Hl. cbn in Hl.
    assert (length order + S (length ready) ≤ size V); [|lia]. apply Hl. intros b Hb. by apply (ka_queued _ Hk) in Hb as [? _].
  - cbn [kahn_loop Kahn.ready Kahn.order Kahn.indegree]. destruct ready as [|name ready]; [by eexists|].
    destruct (kahn_round _ _ _ _ Hk) as (k' & -> & Hk' & Eo). cbn [mbind option_bind]. apply IH; [done|].
    rewrite Eo, length_app. cbn. lia.
Qed.
End kahn.

(** ** The plan *)
(** a list of the units [V] in an order that the edges allow *)
Definition valid_order (V : text → Prop) (edge : text → text → Prop) (order : list text) : Prop :=
  NoDup order ∧ (∀ n, n ∈ order ↔ V n) ∧ respects edge order.
(** units each of which waits for another one of them *)
Definition circular (edge : text → text → Prop) (C : list text) : Prop :=
  C ≠ [] ∧ ∀ b, b ∈ C → ∃ a, a ∈ C ∧ edge a b.
Lemma circular_no_order (V : text → Prop) edge C order : circular edge C → (∀ n, n ∈ C → V n) → ¬ valid_order V edge order.
Proof.
  intros [Hne Hc] HV (_ & Hall & Hr).
  assert (∀ l1 l2, order = l1 ++ l2 → ∀ n, n ∈ l1 → n ∉ C) as Hnone.
  { induction l1 as [|b l1 IH] using rev_ind; intros l2 E n; [by intros ?%elem_of_nil|].
    rewrite <- app_assoc in E. cbn in E. intros [Hn|Hn]%elem_of_app; [by eapply IH|].
    apply list_elem_of_singleton in Hn as ->. intros Hb. destruct (Hc b Hb) as (a & Ha & Hab).
    eapply IH; [exact E| |exact Ha]. by eapply Hr. }
  destruct C as [|n C]; [done|]. apply (Hnone order [] (eq_sym (app_nil_r order)) n); [|apply list_elem_of_here].
  apply Hall, HV, list_elem_of_here.
Qed.

(** the units a target needs, and the order asked for between them *)
Definition before (us : units) (target a b : text) : Prop :=
  needed us target a ∧ needed us target b ∧
  ((∃ u, us !! b = Some u ∧ (a ∈ pulls u ∨ a ∈ u.(LoadedUnit.unit).(Unit.after))) ∨
   (∃ u, us !! a = Some u ∧ b ∈ u.(LoadedUnit.unit).(Unit.before))).

Lemma with_count_elem p m n : n ∈ with_count p m ↔ ∃ c, m !! n = Some c ∧ p c = true.
Proof.
  unfold with_count. rewrite list_elem_of_filter, sorted_elem, elem_of_dom. split.
  - intros [Hp [c Hc]]. exists c. by rewrite Hc in Hp.
  - intros (c & Hc & Hp). rewrite Hc. split; [done|by eexists].
Qed.
Lemma kahn_start V g : graph_ok V g → kahn_ok V g.(Graph.edges)
  (Kahn.mk g.(Graph.indegree) (with_count (Nat.eqb 0) g.(Graph.indegree)) []).
Proof.
  intros [H1 H2 H3]. assert (V ∖ list_to_set [] = V) as EV by (cbn; set_solver).
  split; cbn [Kahn.indegree Kahn.ready Kahn.order app].
  - by rewrite EV.
  - apply NoDup_filter, sorted_NoDup.
  - intros b. rewrite EV, with_count_elem, (H3 b). destruct (decide (b ∈ V)); [|naive_solver].
    split; [intros (c & [= <-] & Hc); apply Nat.eqb_eq in Hc; auto|]. intros [_ Hp]. eexists. split; [done|]. by rewrite Hp.
  - intros l1 b l2 E. by destruct l1.
Qed.

(** what the loop leaves: a valid order, or units that wait for one another *)
Lemma kahn_end V edges k : kahn_ok V edges k → k.(Kahn.ready) = [] →
  if decide (length k.(Kahn.order) = size V) then valid_order (.∈ V) (edge_of edges) k.(Kahn.order)
  else circular (edge_of edges) (with_count (Nat.ltb 0) k.(Kahn.indegree)) ∧
       ∀ n, n ∈ with_count (Nat.ltb 0) k.(Kahn.indegree) → n ∈ V.
Proof.
  intros Hk Hempty. pose proof (ka_queued _ _ _ Hk) as Hq. pose proof (ka_nodup _ _ _ Hk) as Hnd.
  rewrite Hempty, app_nil_r in Hq, Hnd.
  assert (∀ n, n ∈ with_count (Nat.ltb 0) (Kahn.indegree k) ↔ n ∈ V ∧ n ∉ Kahn.order k) as HC.
  { intros n. rewrite with_count_elem, (ka_counted _ _ _ Hk n), Hq. destruct (decide (n ∈ V)) as [Hn|Hn]; [|naive_solver].
    split; [intros (c & [= <-] & Hc%Nat.ltb_lt); split; [done|]; lia|]. intros [_ Hp]. eexists. split; [done|].
    apply Nat.ltb_lt. assert (pending edges (V ∖ list_to_set (Kahn.order k)) n ≠ 0) by tauto. lia. }
  case_decide as Hlen.
  - split; [done|]. split; [|apply Hk]. intros n. split; [by intros [? _]%Hq|]. intros Hn.
    assert (list_to_set (Kahn.order k) ≡ V) as E; [|rewrite <- E in Hn; by apply elem_of_list_to_set in Hn].
    apply set_subseteq_size_equiv.
    + intros x Hx%elem_of_list_to_set. by apply Hq in Hx as [? _].
    + rewrite size_list_to_set by done. lia.
  - split; [|by intros n [Hn _]%HC]. split.
    + intros E. apply Hlen. rewrite <- (size_list_to_set (C := gset text)) by done. f_equal. apply set_eq. intros x.
      rewrite elem_of_list_to_set. split; [by intros [? _]%Hq|]. intros Hx. destruct (decide (x ∈ Kahn.order k)); [done|].
      exfalso. assert (x ∈ with_count (Nat.ltb 0) (Kahn.indegree k)) as Hc by by apply HC.
      rewrite E in Hc. by apply elem_of_nil in Hc.
    + intros b [Hb Hno]%HC. rewrite Hq in Hno.
      destruct (pending_pos edges (V ∖ list_to_set (Kahn.order k)) b) as (a & Ha & Hab); [tauto|].
      exists a. split; [|done]. apply HC. set_solver.
Qed.

Lemma valid_order_iff (V V' : text → Prop) (edge edge' : text → text → Prop) order :
  (∀ n, V n ↔ V' n) → (∀ a b, edge a b ↔ edge' a b) → valid_order V edge order → valid_order V' edge' order.
Proof.
  intros HV He (H1 & H2 & H3). split; [done|]. split; [intros n; by rewrite H2|].
  intros l1 b l2 E a Ha. eapply H3; [exact E|by apply He].
Qed.
Lemma resolve_spec us target : ∃ r, resolve_startup_order us target = Some r ∧
  match r with
  | Ok plan => plan.(StartupPlan.target) = target ∧ (∀ n, needed us target n → is_Some (us !! n)) ∧
               valid_order (needed us target) (before us target) plan.(StartupPlan.order)
  | Err (DependencyError.MissingUnit n) => needed us target n ∧ us !! n = None
  | Err (DependencyError.Cycle C) =>
      circular (before us target) C ∧ ∀ n, n ∈ C → needed us target n ∧ is_Some (us !! n)
  end.
Proof.
  unfold resolve_startup_order. destruct (contains_key us target) eqn:Ht; unfold contains_key in Ht.
  2:{ eexists. split; [done|]. apply bool_decide_eq_false in Ht. split; [constructor|by apply eq_None_not_Some]. }
  destruct (collect_units_spec us target) as (r & -> & Hr). cbn [mbind option_bind].
  destruct r as [V|e]; [|eexists; split; [done|]; by destruct e]. destruct Hr as [HV Hl].
  destruct (build_graph_ok us V Hl) as (g & -> & Hg & He). cbn [mbind option_bind].
  destruct (kahn_loop_spec V g.(Graph.edges) (gr_inside _ _ Hg) (size V) _ (kahn_start V g Hg)) as (k & -> & Hk & Hempty);
    [cbn; lia|]. cbn [mbind option_bind]. pose proof (kahn_end _ _ _ Hk Hempty) as Hend.
  assert (∀ a b, edge_of (Graph.edges g) a b ↔ before us target a b) as Hedge.
  { intros a b. unfold edge_of, before. rewrite He. unfold precedes. by rewrite !HV. }
  case_decide as Hlen; eexists; (split; [done|]); cbn.
  - split; [done|]. split; [intros n Hn%HV; by apply Hl|]. by apply (valid_order_iff (.∈ V) (needed us target) (edge_of (Graph.edges g))).
  - destruct Hend as [[Hne Hc] HC]. split; [split; [done|]|].
    + intros b Hb. destruct (Hc b Hb) as (a & Ha & Hab). exists a. split; [done|]. by apply Hedge.
    + intros n Hn%HC. split; [by apply HV|by apply Hl].
Qed.

(** C9: resolving a target never panics and always ends.  A plan lists exactly the units
    the target needs, once each, and every unit after all those its file or theirs put
    before it; a missing unit in the error is one that is needed and not there; the units
    of a reported cycle wait for one another. *)
Theorem startup_order_sound us target : ∃ r, resolve_startup_order us target = Some r ∧
  match r with
  | Ok plan => plan.(StartupPlan.target) = target ∧ (∀ n, needed us target n → is_Some (us !! n)) ∧
               valid_order (needed us target) (before us target) plan.(StartupPlan.order)
  | Err (DependencyError.MissingUnit n) => needed us target n ∧ us !! n = None
  | Err (DependencyError.Cycle C) =>
      circular (before us target) C ∧ ∀ n, n ∈ C → needed us target n ∧ is_Some (us !! n)
  end.
Proof. apply resolve_spec. Qed.

Lemma resolve_complete us target :
  (∃ plan, resolve_startup_order us target = Some (Ok plan)) ↔
  (∀ n, needed us target n → is_Some (us !! n)) ∧
  ∃ order, valid_order (needed us target) (before us target) order.
Proof.
  destruct (resolve_spec us target) as (r & Er & Hr). rewrite Er. split.
  - intros [plan [= ->]]. destruct Hr as (_ & Hl & Hv). split; [done|by eexists].
  - intros [Hl [order Ho]]. destruct r as [plan|[n|C]]; [by eexists| |].
    + destruct Hr as [Hn Hno]. apply Hl in Hn as [u Hu]. congruence.
    + exfalso. destruct Hr as [Hc HC]. eapply circular_no_order; [exact Hc| |exact Ho]. intros n Hn. by apply HC.
Qed.

(** C38: there is a plan exactly when every unit the target needs is there and some order of
    them respects what the unit files ask for. *)
Theorem startup_order_complete us target :
  (∃ plan, resolve_startup_order us target = Some (Ok plan)) ↔
  (∀ n, needed us target n → is_Some (us !! n)) ∧
  ∃ order, valid_order (needed us target) (before us target) order.
Proof. apply resolve_complete. Qed.

(** ** Examples *)
Definition unit_table (files : list (string * text)) : units :=
  list_to_map (omap (λ '(n, f), match parse_unit (str n) f with Ok u => Some (str n, u) | Err _ => None end) files).
(** the units in userspace/spider-rs/units start bottom up *)
Definition builtin_units : units := unit_table
  [("default.target", default_target_file); ("basic.target", basic_target_file);
   ("m1-terminal.service", m1_terminal_file)].
Lemma builtin_plan : resolve_startup_order builtin_units (str "default.target") =
  Some (Ok (StartupPlan.mk (str "default.target") [str "basic.target"; str "m1-terminal.service"; str "default.target"])).
Proof. by vm_compute. Qed.
