(* ===== verification/SpiderInit.v ===== *)
(** * Starting the units

    Models the dispatcher of userspace/spider-rs/src/bin_spider_rsd.rs, which loads unit
    files through system calls, resolves the default target and starts its units one
    after the other.  The section [plan_runner] is about any program that does so.  The
    system calls are a class, [Syscalls] ([DispatcherIo]
    and the functions of syscall.rs the dispatcher calls); a call takes the state of the
    world to its result and the next state, a wait possibly to nothing at all.

    Loops that depend on the answers of system calls run on fuel.  [Halt] says why the
    dispatcher is not at its end: no fuel, a panic, or a wait that does not return.  What
    the dispatcher does is stated through the trace of its system calls, which [Traced]
    adds to any world. *)

From stdpp Require Import prelude strings gmap.
From S2P Require Import Prelude Bytes Vfs Text SpiderUnits SpiderGraph.

Local Open Scope Z_scope.

(** [set_state]: only if the unit is there *)
Definition set_unit_state (name : text) (v : UnitState.t) (us : units) : units :=
  match us !! name with Some u => <[name := LoadedUnit.set_state v u]> us | None => us end.
Definition state_of (us : units) (name : text) : option UnitState.t := LoadedUnit.state <$> us !! name.
Definition split_exec (exec : text) : list text := split_whitespace exec.
Definition unit_suffix (name : text) (suffixes : list string) : bool :=
  match rsplit_once 46 name with
  | Some (_, suffix) => existsb (text_is suffix) suffixes
  | None => false
  end.
Definition is_unit_name (name : text) : bool :=
  unit_suffix name ["service"; "target"; "socket"; "timer"; "mount"; "device"; "path"].

(** ** The dispatcher *)
(** The answer of a read is a count and what is in the buffer afterwards.  Waiting may not
    return: then there is no answer. *)
Class Syscalls (W : Type) := {
  sys_open : text → W → result Z Z * W;
  sys_read : Z → list Z → W → (result Z Z * list Z) * W;
  sys_read_dir : Z → list Z → W → (result Z Z * list Z) * W;
  sys_close : Z → W → W;
  sys_write : Z → list Z → W → W;
  sys_spawn : text → list text → W → result Z Z * W;
  sys_wait : Z → W → option (result Z Z * W)
}.

(** why the dispatcher is not at its end: a loop has used up its fuel, an index was out of
    bounds, or it waits for a process in the state [d] *)
Module Halt.
Inductive t (D : Type) : Type := OutOfFuel | Panics | Waits (pid : Z) (d : D).
Arguments OutOfFuel {D}.
Arguments Panics {D}.
Arguments Waits {D} _ _.
End Halt.

Module Dispatcher.
Record t (W : Type) : Type := mk { units_ : units; world : W }.
Arguments mk {W} _ _.
Arguments units_ {W} _.
Arguments world {W} _.

Section dispatcher.
Context {W : Type} `{!Syscalls W}.
Implicit Types (d : t W) (w : W).
Abbreviation Res := (result (Halt.t (t W))).

Definition set_units v d : t W := mk v d.(world).
Definition set_world v d : t W := mk d.(units_) v.
Definition set_state (name : text) (v : UnitState.t) d : t W := set_units (set_unit_state name v d.(units_)) d.
Definition print (message : string) d : t W := set_world (sys_write 1 (str message) d.(world)) d.
Definition print_if (c : bool) (message : string) d : t W := if c then print message d else d.

(** *** Loading *)
(** [read_file]: reads into a buffer of 512 bytes until one returns nothing; the slice of
    the buffer panics when the count is larger than the buffer *)
Fixpoint read_loop (fuel : nat) (fd : Z) (out buffer : list Z) w : Res (option (list Z) * W) :=
  match fuel with
  | O => Err Halt.OutOfFuel
  | S fuel =>
      match sys_read fd buffer w with
      | ((Err _, _), w) => Ok (None, w)
      | ((Ok read, buffer), w) =>
          if read =? 0 then Ok (Some out, w)
          else if Z.of_nat (length buffer) <? read then Err Halt.Panics
          else read_loop fuel fd (out ++ take (Z.to_nat read) buffer) buffer w
      end
  end.
Definition read_file (fuel : nat) (path : text) w : Res (option (list Z) * W) :=
  match sys_open path w with
  | (Err _, w) => Ok (None, w)
  | (Ok fd, w) =>
      '(out, w) ← read_loop fuel fd [] (replicate 512 0) w;
      Ok (out, match out with Some _ => sys_close fd w | None => w end)
  end.
Definition report_required_unit_failure (path : text) (reason : string) d : t W :=
  let write bytes w := sys_write 1 bytes w in
  set_world (write (str "
") (write (str reason) (write (str " ") (write (encode_utf8 path)
    (write (str "SYSTEM DISPATCHER [FAILED]: required unit ") d.(world)))))) d.
Definition insert_unit (name source : text) d : bool * t W :=
  match parse_unit name source with
  | Ok unit => (true, set_units (<[name := unit]> d.(units_)) d)
  | Err _ => (false, d)
  end.

(** the names of the directory entries in the first [read] bytes of a buffer: 16 bytes, the
    record length, a type byte and the name up to its terminator or the end of the record.
    An index or a slice behind the buffer panics. *)
Fixpoint dirent_names (fuel : nat) (offset read : nat) (buffer : list Z) : Res (list (list Z)) :=
  match fuel with
  | O => Err Halt.OutOfFuel
  | S fuel =>
      if decide (offset + 19 ≤ read)%nat then
        match buffer !! (offset + 16)%nat, buffer !! (offset + 17)%nat with
        | Some low, Some high =>
            let reclen := Z.to_nat (low + 256 * high) in
            if decide (reclen = 0 ∨ read < offset + reclen)%nat then Ok []
            else
              let field := take (reclen - 19) (drop (offset + 19) buffer) in
              match split_once 0 field with
              | Some (name, _) => names ← dirent_names fuel (offset + reclen) read buffer; Ok (name :: names)
              | None =>
                  if decide (length buffer < offset + Nat.max reclen 19)%nat then Err Halt.Panics
                  else names ← dirent_names fuel (offset + reclen) read buffer; Ok (field :: names)
              end
        | _, _ => Err Halt.Panics
        end
      else Ok []
  end.
(** one entry of [load_dir] *)
Definition load_entry (fuel : nat) (dir : text) (d : t W) (name_bytes : list Z) : Res (t W) :=
  match decode_utf8 name_bytes with
  | None => Ok d
  | Some name =>
      if is_unit_name name then
        '(bytes, w) ← read_file fuel (dir ++ 47 :: name) d.(world);
        match bytes with
        | None => Ok (set_world w d)
        | Some bytes =>
            match decode_utf8 bytes with
            | Some source => Ok (insert_unit name source (set_world w d)).2
            | None => Ok (set_world w d)
            end
        end
      else Ok d
  end.
Fixpoint load_dir_loop (fuel rounds : nat) (dir : text) (fd : Z) (buffer : list Z) d : Res (t W) :=
  match rounds with
  | O => Err Halt.OutOfFuel
  | S rounds =>
      match sys_read_dir fd buffer d.(world) with
      | ((Err _, _), w) => Ok (set_world w d)
      | ((Ok read, buffer), w) =>
          if read =? 0 then Ok (set_world w d)
          else
            names ← dirent_names (S (Z.to_nat read)) 0 (Z.to_nat read) buffer;
            d ← rfold (load_entry fuel dir) (set_world w d) names;
            load_dir_loop fuel rounds dir fd buffer d
      end
  end.
Definition load_dir (fuel : nat) (d : t W) (dir : text) : Res (t W) :=
  match sys_open dir d.(world) with
  | (Err _, w) => Ok (set_world w d)
  | (Ok fd, w) =>
      d ← load_dir_loop fuel fuel dir fd (replicate 1024 0) (set_world w d);
      Ok (set_world (sys_close fd d.(world)) d)
  end.

Definition UNIT_DIRS : list text := [str "/etc/spider/units"; str "/usr/lib/spider/units"].
Definition REQUIRED_UNITS : list (text * text) :=
  [(str "/etc/spider/units/default.target", str "default.target");
   (str "/etc/spider/units/basic.target", str "basic.target");
   (str "/etc/spider/units/m1-terminal.service", str "m1-terminal.service")].
Definition load_required (fuel : nat) (path name : text) d : Res (bool * t W) :=
  '(bytes, w) ← read_file fuel path d.(world);
  let d := set_world w d in
  match bytes with
  | None => Ok (false, report_required_unit_failure path "missing or unreadable" d)
  | Some bytes =>
      match decode_utf8 bytes with
      | None => Ok (false, report_required_unit_failure path "not valid UTF-8" d)
      | Some source =>
          match insert_unit name source d with
          | (true, d) => Ok (true, d)
          | (false, d) => Ok (false, report_required_unit_failure path "parse failed" d)
          end
      end
  end.
Fixpoint load_all_required (fuel : nat) (l : list (text * text)) d : Res (bool * t W) :=
  match l with
  | [] => Ok (true, d)
  | (path, name) :: l' =>
      '(loaded, d) ← load_required fuel path name d;
      if loaded : bool then load_all_required fuel l' d else Ok (false, d)
  end.
Definition load_units (fuel : nat) d : Res (bool * t W) :=
  '(loaded, d) ← load_all_required fuel REQUIRED_UNITS d;
  if loaded : bool then d ← rfold (load_dir fuel) d UNIT_DIRS; Ok (true, d) else Ok (false, d).

(** *** Starting *)
Definition required_failed d (name : text) : bool :=
  match d.(units_) !! name with
  | Some u => existsb (λ r, match state_of d.(units_) r with
                           | Some s => bool_decide (s = UnitState.Failed)
                           | None => true
                           end) (requires u)
  | None => true
  end.
Definition is_terminal (name : text) : bool := text_is name "m1-terminal.service".
(** one round of the loop of [start_service], after the command line was split *)
Definition run_service (name path : text) (argv : list text) d : Res (t W) :=
  match sys_spawn path argv d.(world) with
  | (Ok pid, w) =>
      let d := print_if (is_terminal name) "M1 TERMINAL [STARTED]
" (set_state name UnitState.Running (set_world w d)) in
      match sys_wait pid d.(world) with
      | None => Err (Halt.Waits pid d)
      | Some (Ok 0, w) => Ok (print_if (is_terminal name) "M1 TERMINAL [EXITED: 0]
" (set_state name UnitState.Exited (set_world w d)))
      | Some (_, w) => Ok (print_if (is_terminal name) "M1 TERMINAL [FAILED]
" (set_state name UnitState.Failed (set_world w d)))
      end
  | (Err _, w) => Ok (print_if (is_terminal name) "M1 TERMINAL [FAILED]
" (set_state name UnitState.Failed (set_world w d)))
  end.
Definition wants_restart (policy : RestartPolicy.t) (state : UnitState.t) : bool :=
  match policy with
  | RestartPolicy.No => false
  | RestartPolicy.OnFailure => bool_decide (state = UnitState.Failed)
  | RestartPolicy.Always => bool_decide (state = UnitState.Exited) || bool_decide (state = UnitState.Failed)
  end.
Fixpoint service_loop (fuel : nat) (name : text) (service : ServiceUnit.t) (attempts : Z) d : Res (t W) :=
  match fuel with
  | O => Err Halt.OutOfFuel
  | S fuel =>
      let attempts := attempts + 1 in
      let d := set_state name UnitState.Starting d in
      match split_exec service.(ServiceUnit.exec_start) with
      | [] => Ok (set_state name UnitState.Failed d)
      | path :: args =>
          d ← run_service name path (path :: args) d;
          let state := default UnitState.Failed (state_of d.(units_) name) in
          if negb (wants_restart service.(ServiceUnit.restart) state) || (2 <=? attempts) then Ok d
          else service_loop fuel name service attempts d
      end
  end.
Definition start_service (name : text) d : Res (t W) :=
  match d.(units_) !! name ≫= LoadedUnit.service with
  | None => Ok (set_state name UnitState.Failed d)
  | Some service => service_loop 2 name service 0 d
  end.
Definition start_unit (d : t W) (name : text) : Res (t W) :=
  if required_failed d name then Ok (set_state name UnitState.Failed d)
  else
    let d := set_state name UnitState.Waiting d in
    match d.(units_) !! name with
    | None => Ok d
    | Some u =>
        match u.(LoadedUnit.unit).(Unit.kind) with
        | UnitKind.Target =>
            Ok (print_if (text_is name "default.target") "DEFAULT TARGET [STARTED]
" (set_state name UnitState.Running d))
        | UnitKind.Service => start_service name d
        | _ => Ok (set_state name UnitState.Skipped d)
        end
    end.

(** [run]; what it does afterwards is yield for ever *)
Inductive run_result : Type := NotLoaded (d : t W) | NoPlan (d : t W) | Started (plan : StartupPlan.t) (d : t W).
Definition run (fuel : nat) w : Res run_result :=
  '(loaded, d) ← load_units fuel (mk ∅ w);
  if negb loaded then Ok (NotLoaded d)
  else
    match resolve_startup_order d.(units_) (str "default.target") with
    | None => Err Halt.Panics
    | Some (Err _) => Ok (NoPlan (print "SYSTEM DISPATCHER [FAILED]" d))
    | Some (Ok plan) =>
        d ← rfold start_unit (print "SYSTEM DISPATCHER [ONLINE]
" d) plan.(StartupPlan.order);
        Ok (Started plan d)
    end.
End dispatcher.
End Dispatcher.

(** ** Starting units in the order of a plan *)
Lemma set_unit_state_twice n a b us : set_unit_state n a (set_unit_state n b us) = set_unit_state n a us.
Proof.
  unfold set_unit_state. destruct (us !! n) as [u|] eqn:E; [|by rewrite E]. rewrite lookup_insert_eq. cbn.
  by rewrite insert_insert_eq.
Qed.
Lemma set_unit_state_ne n s us m : m ≠ n → set_unit_state n s us !! m = us !! m.
Proof. intros H. unfold set_unit_state. destruct (us !! n); [|done]. by rewrite lookup_insert_ne. Qed.
Lemma set_unit_state_eq n s us u : us !! n = Some u → set_unit_state n s us !! n = Some (LoadedUnit.set_state s u).
Proof. intros H. unfold set_unit_state. rewrite H. by rewrite lookup_insert_eq. Qed.
Lemma set_unit_state_None n s us : us !! n = None → set_unit_state n s us = us.
Proof. intros H. unfold set_unit_state. by rewrite H. Qed.

Lemma set_unit_state_dom n s us m : is_Some (set_unit_state n s us !! m) ↔ is_Some (us !! m).
Proof.
  destruct (decide (m = n)) as [->|]; [|by rewrite set_unit_state_ne]. destruct (us !! n) as [u|] eqn:E.
  - rewrite (set_unit_state_eq _ _ _ _ E). split; by eexists.
  - by rewrite set_unit_state_None, E.
Qed.

Lemma NoDup_split_out {A} (l1 l2 : list A) n x : NoDup (l1 ++ n :: l2) → x ∈ l1 → x ∉ n :: l2.
Proof. intros (_ & H & _)%NoDup_app. apply H. Qed.

(** *** Any way of starting units one by one *)
(** [log] is what has been done so far; starting a unit that is [blocked] does nothing,
    starting another one leaves it in a state and adds to the log as [accepted] says *)
Section plan_runner.
Context {D E L : Type} (table : D → units) (log : D → list L) (start : D → text → result E D)
  (blocked : D → text → bool) (accepted : text → LoadedUnit.t → UnitState.t → list L → Prop).
Hypothesis start_spec : ∀ d name d', start d name = Ok d' →
  ∃ s done, table d' = set_unit_state name s (table d) ∧ log d' = log d ++ done ∧
  (blocked d name = true → s = UnitState.Failed ∧ done = []) ∧
  (blocked d name = false → ∀ u, table d !! name = Some u → accepted name u s done).
Hypothesis blocked_spec : ∀ d n u, table d !! n = Some u → (∀ r, r ∈ requires u → is_Some (table d !! r)) →
  blocked d n = true ↔ ∃ r, r ∈ requires u ∧ state_of (table d) r = Some UnitState.Failed.

(** what one unit of a finished plan looks like, and what was done for it *)
Definition unit_outcome (us us' : units) (n : text) (done : list L) : Prop :=
  ∃ u s, us !! n = Some u ∧ us' !! n = Some (LoadedUnit.set_state s u) ∧
    if decide (Exists (λ r, state_of us' r = Some UnitState.Failed) (requires u))
    then s = UnitState.Failed ∧ done = [] else accepted n u s done.

(** the rest of the table stays, and each unit is started once, in a state in which those
    before it have their final states *)
Lemma start_all_spec order d d' : NoDup order → rfold start d order = Ok d' →
  (∀ m, m ∉ order → table d' !! m = table d !! m) ∧ (∀ m, is_Some (table d' !! m) ↔ is_Some (table d !! m)) ∧
  ∃ dones, log d' = log d ++ concat dones ∧ length dones = length order ∧
  ∀ l1 n l2, order = l1 ++ n :: l2 → ∃ d1 d2 done, start d1 n = Ok d2 ∧ table d' !! n = table d2 !! n ∧
    dones !! length l1 = Some done ∧ log d2 = log d1 ++ done ∧
    (∀ m, m ∉ l1 → table d1 !! m = table d !! m) ∧ (∀ m, m ∉ n :: l2 → table d1 !! m = table d' !! m).
Proof.
  revert d. induction order as [|n order IH]; intros d Hnd; cbn [rfold].
  { intros [= <-]. split; [done|]. split; [done|]. exists []. rewrite app_nil_r. split; [done|]. split; [done|]. intros l1 n l2 E0. by destruct l1. }
  apply NoDup_cons in Hnd as [Hn Hnd]. intros (d1 & E1 & E')%result_bind_Ok. destruct (start_spec d n d1 E1) as (s & done & Hu & Hlog & _).
  assert (∀ m, m ≠ n → table d1 !! m = table d !! m) as Hne by (intros m Hm; rewrite Hu; by apply set_unit_state_ne).
  destruct (IH d1 Hnd E') as (Hout & Hdom & dones & Hl & Hlen & Hin). split; [|split].
  - intros m [Hm1 Hm2]%not_elem_of_cons. rewrite Hout by done. by apply Hne.
  - intros m. rewrite Hdom, Hu. apply set_unit_state_dom.
  - exists (done :: dones). split; [by rewrite Hl, Hlog, <-app_assoc|]. split; [cbn; by rewrite Hlen|].
    intros l1 m l2 E0. destruct l1 as [|n' l1]; injection E0 as <- ->.
    + exists d, d1, done. split; [done|]. split; [by apply Hout|]. split; [done|]. split; [done|]. split; [done|].
      intros m [Hm1 Hm2]%not_elem_of_cons. rewrite Hout by done. symmetry. by apply Hne.
    + destruct (Hin l1 m l2 eq_refl) as (d2 & d3 & done' & H1 & H2 & H3 & H4 & H5 & H6). exists d2, d3, done'. split; [done|]. split; [done|].
      split; [done|]. split; [done|]. split; [|done]. intros x [Hx1 Hx2]%not_elem_of_cons. rewrite H5 by done. by apply Hne.
Qed.

(** a beginning of a plan that has been carried out *)
Lemma plan_prefix d target plan l rest d' : resolve_startup_order (table d) target = Some (Ok plan) →
  plan.(StartupPlan.order) = l ++ rest → rfold start d l = Ok d' →
  (∀ n, n ∉ l → table d' !! n = table d !! n) ∧
  ∃ dones, log d' = log d ++ concat dones ∧ Forall2 (unit_outcome (table d) (table d')) l dones.
Proof.
  intros Er El Ed. destruct (resolve_spec (table d) target) as (r & Er' & Hr). rewrite Er in Er'. injection Er' as <-.
  destruct Hr as (_ & Hl & Hnd & Hall & Hresp). rewrite El in Hnd, Hall. pose proof Hnd as (Hnd1 & _ & _)%NoDup_app.
  destruct (start_all_spec _ d d' Hnd1 Ed) as (Hout & Hdom & dones & Hlog & Hlen & Hin).
  split; [done|]. exists dones. split; [done|]. apply Forall2_same_length_lookup_2; [done|]. intros i n done Hn Hdone.
  pose proof (list_elem_of_split_length _ _ _ Hn) as (l1 & l2 & El1 & Ei).
  destruct (Hin l1 n l2 El1) as (d1 & d2 & done' & E2 & Hn2 & Hdn & Hlg & Hd1 & Hd1'). rewrite <-Ei, Hdone in Hdn. injection Hdn as <-.
  assert (needed (table d) target n) as Hneed.
  { apply Hall, elem_of_app. left. rewrite El1. apply elem_of_app. right. apply list_elem_of_here. }
  destruct (Hl n Hneed) as [u Hu]. rewrite El1 in Hnd1. assert (table d1 !! n = Some u) as Hu1.
  { rewrite Hd1; [done|]. intros Hx. apply (NoDup_split_out _ _ _ _ Hnd1 Hx), list_elem_of_here. }
  assert (∀ r, r ∈ requires u → r ∈ l1) as Hreq.
  { intros r Hr. eapply (Hresp l1 n (l2 ++ rest)); [by rewrite El, El1, <-app_assoc|].
    assert (r ∈ pulls u) as Hp by (apply elem_of_app; by left).
    split; [by eapply needed_pulled|]. split; [done|]. left. exists u. auto. }
  assert (∀ r, r ∈ requires u → table d1 !! r = table d' !! r) as Hsame
    by (intros r Hr; apply Hd1', (NoDup_split_out _ _ _ _ Hnd1), Hreq, Hr).
  destruct (start_spec d1 n d2 E2) as (s & done' & Hu3 & Hlg' & Hfail & Hok). rewrite Hlg in Hlg'. apply app_inv_head in Hlg' as <-.
  exists u, s. split; [done|]. rewrite Hn2, Hu3. split; [by apply set_unit_state_eq|].
  assert (∀ r, r ∈ requires u → is_Some (table d1 !! r)) as Hsome.
  { intros r Hr. rewrite Hsame by done. apply Hdom, Hl, Hall. rewrite El1, <-app_assoc. apply elem_of_app. left. by apply Hreq. }
  pose proof (blocked_spec d1 n u Hu1 Hsome) as Hrf. case_decide as Hex.
  - apply Hfail, Hrf. apply Exists_exists in Hex as (r & Hr & Hs). exists r. split; [done|].
    unfold state_of in *. by rewrite Hsame.
  - apply Hok; [|done]. apply not_true_iff_false. intros (r & Hr & Hs)%Hrf. apply Hex, Exists_exists. exists r.
    split; [done|]. unfold state_of in *. by rewrite <- Hsame.
Qed.
(** a plan that has come to an end, or the unit it stopped at *)
Lemma rfold_stops d l e : rfold start d l = Err e →
  ∃ l1 n l2 d1, l = l1 ++ n :: l2 ∧ rfold start d l1 = Ok d1 ∧ start d1 n = Err e.
Proof.
  revert d. induction l as [|n l IH]; intros d; cbn [rfold]; [done|]. destruct (start d n) as [d1|e1] eqn:E1; cbn.
  - intros (l1 & m & l2 & d2 & -> & H1 & H2)%IH. exists (n :: l1), m, l2, d2. split; [done|]. cbn. by rewrite E1.
  - intros [= ->]. by exists [], n, l, d.
Qed.
End plan_runner.

(** ** Traces
    The world with a record of the calls made to it and the answers it gave: what a
    program does shows in the trace, whatever the world answers. *)
Module Call.
Inductive t : Type :=
  | Open (path : text) (answer : result Z Z)
  | Read (fd : Z) (answer : result Z Z) (buffer : list Z)
  | ReadDir (fd : Z) (answer : result Z Z) (buffer : list Z)
  | Close (fd : Z)
  | Write (fd : Z) (bytes : list Z)
  | Spawn (path : text) (argv : list text) (answer : result Z Z)
  | Wait (pid : Z) (answer : result Z Z).
End Call.
Module Traced.
Record t (W : Type) : Type := mk { inner : W; trace : list Call.t }.
Arguments mk {W} _ _.
Arguments inner {W} _.
Arguments trace {W} _.
Definition after {W} (c : Call.t) (w : W) (s : t W) : t W := mk w (s.(trace) ++ [c]).
#[global] Instance calls {W} `{!Syscalls W} : Syscalls (t W) := {
  sys_open path s := let '(r, w) := sys_open path s.(inner) in (r, after (Call.Open path r) w s);
  sys_read fd buffer s := let '(r, w) := sys_read fd buffer s.(inner) in (r, after (Call.Read fd r.1 r.2) w s);
  sys_read_dir fd buffer s := let '(r, w) := sys_read_dir fd buffer s.(inner) in (r, after (Call.ReadDir fd r.1 r.2) w s);
  sys_close fd s := after (Call.Close fd) (sys_close fd s.(inner)) s;
  sys_write fd bytes s := after (Call.Write fd bytes) (sys_write fd bytes s.(inner)) s;
  sys_spawn path argv s := let '(r, w) := sys_spawn path argv s.(inner) in (r, after (Call.Spawn path argv r) w s);
  sys_wait pid s :=
    match sys_wait pid s.(inner) with
    | Some (r, w) => Some (r, after (Call.Wait pid r) w s)
    | None => None
    end
}.
End Traced.

Import Dispatcher.
Section starting.
Context {W : Type} `{!Syscalls W}.
Implicit Types (d : t (Traced.t W)) (name path : text) (argv : list text).

Definition calls_of d : list Call.t := d.(world).(Traced.trace).
Definition said (c : bool) (message : string) : list Call.t := if c then [Call.Write 1 (str message)] else [].
Lemma print_if_units c m d : units_ (print_if c m d) = units_ d.
Proof. by destruct c. Qed.
Lemma print_if_calls c m d : calls_of (print_if c m d) = calls_of d ++ said c m.
Proof. destruct c; [done|]. by rewrite app_nil_r. Qed.

(** *** Services *)
(** one attempt to run a command: the state the service is in afterwards, and the calls *)
Inductive attempt name path argv : UnitState.t → list Call.t → Prop :=
  | attempt_refused e : attempt name path argv UnitState.Failed
      (Call.Spawn path argv (Err e) :: said (is_terminal name) "M1 TERMINAL [FAILED]
")
  | attempt_exited pid : attempt name path argv UnitState.Exited
      (Call.Spawn path argv (Ok pid) :: said (is_terminal name) "M1 TERMINAL [STARTED]
" ++ Call.Wait pid (Ok 0) :: said (is_terminal name) "M1 TERMINAL [EXITED: 0]
")
  | attempt_failed pid answer : answer ≠ Ok 0 → attempt name path argv UnitState.Failed
      (Call.Spawn path argv (Ok pid) :: said (is_terminal name) "M1 TERMINAL [STARTED]
" ++ Call.Wait pid answer :: said (is_terminal name) "M1 TERMINAL [FAILED]
").
(** an attempt whose process has not ended *)
Definition attempt_waits name path argv (pid : Z) : list Call.t :=
  Call.Spawn path argv (Ok pid) :: said (is_terminal name) "M1 TERMINAL [STARTED]
".

(** a service is run once, or twice when its restart policy asks for it after the first
    attempt; its state is that of the last attempt *)
Definition service_runs name (service : ServiceUnit.t) (s : UnitState.t) (calls : list Call.t) : Prop :=
  match split_exec service.(ServiceUnit.exec_start) with
  | [] => s = UnitState.Failed ∧ calls = []
  | path :: args =>
      let attempt := attempt name path (path :: args) in
      let again := wants_restart service.(ServiceUnit.restart) in
      (attempt s calls ∧ again s = false) ∨
      ∃ s1 calls1 calls2, attempt s1 calls1 ∧ again s1 = true ∧ attempt s calls2 ∧ calls = calls1 ++ calls2
  end.
Definition service_waits name (service : ServiceUnit.t) (pid : Z) (calls : list Call.t) : Prop :=
  ∃ path args, split_exec service.(ServiceUnit.exec_start) = path :: args ∧
    let argv := path :: args in
    (calls = attempt_waits name path argv pid ∨
     ∃ s1 calls1, attempt name path argv s1 calls1 ∧ wants_restart service.(ServiceUnit.restart) s1 = true ∧
       calls = calls1 ++ attempt_waits name path argv pid).

Lemma run_service_spec name path argv d :
  match run_service name path argv d with
  | Ok d' => ∃ s calls, attempt name path argv s calls ∧ units_ d' = set_unit_state name s (units_ d) ∧
      calls_of d' = calls_of d ++ calls
  | Err h => ∃ pid d', h = Halt.Waits pid d' ∧ units_ d' = set_unit_state name UnitState.Running (units_ d) ∧
      calls_of d' = calls_of d ++ attempt_waits name path argv pid ∧ sys_wait pid d'.(world).(Traced.inner) = None
  end.
Proof.
  unfold run_service. cbn [sys_spawn Traced.calls]. destruct (sys_spawn path argv (Traced.inner (world d))) as [[pid|e] w].
  2:{ eexists _, _. split; [apply (attempt_refused _ _ _ e)|]. rewrite print_if_units, print_if_calls. split; [done|].
      unfold calls_of. cbn. by rewrite <-app_assoc. }
  set (d1 := print_if _ _ _). assert (units_ d1 = set_unit_state name UnitState.Running (units_ d)) as E1
    by (unfold d1; by rewrite print_if_units).
  assert (calls_of d1 = calls_of d ++ attempt_waits name path argv pid) as E2.
  { unfold d1. rewrite print_if_calls. unfold calls_of, attempt_waits. cbn. by rewrite <-app_assoc. }
  assert (∀ s m answer w', units_ (print_if (is_terminal name) m (set_state name s
      (set_world (Traced.after (Call.Wait pid answer) w' (world d1)) d1))) = set_unit_state name s (units_ d) ∧
    calls_of (print_if (is_terminal name) m (set_state name s (set_world (Traced.after (Call.Wait pid answer) w' (world d1)) d1))) =
      calls_of d ++ attempt_waits name path argv pid ++ Call.Wait pid answer :: said (is_terminal name) m) as Hend.
  { intros s m answer w'. rewrite print_if_units, print_if_calls. cbn [units_ set_state set_units set_world]. rewrite E1, set_unit_state_twice.
    split; [done|]. unfold calls_of in *. cbn. by rewrite E2, <-!app_assoc. }
  cbn [sys_wait Traced.calls]. destruct (sys_wait pid (Traced.inner (world d1))) as [[answer w']|] eqn:Ew; [|by eexists _, _].
  destruct answer as [[|c|c]|e]; (eexists _, _; split; [|apply Hend]); [apply (attempt_exited _ _ _ pid)|..]; by apply attempt_failed.
Qed.
Lemma state_of_set name s us : is_Some (us !! name) → default UnitState.Failed (state_of (set_unit_state name s us) name) = s.
Proof. intros [u Hu]. unfold state_of. by rewrite (set_unit_state_eq _ _ _ _ Hu). Qed.
(** at most two attempts, so two rounds of fuel are enough *)
Lemma service_loop_spec name service d : is_Some (units_ d !! name) →
  match service_loop 2 name service 0 d with
  | Ok d' => ∃ s calls, service_runs name service s calls ∧ units_ d' = set_unit_state name s (units_ d) ∧
      calls_of d' = calls_of d ++ calls
  | Err h => ∃ pid d' calls, h = Halt.Waits pid d' ∧ service_waits name service pid calls ∧
      units_ d' = set_unit_state name UnitState.Running (units_ d) ∧ calls_of d' = calls_of d ++ calls ∧
      sys_wait pid d'.(world).(Traced.inner) = None
  end.
Proof.
  intros Hd. unfold service_runs, service_waits. cbn [service_loop]. destruct (split_exec _) as [|path args] eqn:Es.
  { eexists _, _. split; [done|]. cbn. rewrite set_unit_state_twice, app_nil_r. done. }
  set (d0 := set_state name UnitState.Starting d). pose proof (run_service_spec name path (path :: args) d0) as H1.
  destruct (run_service name path (path :: args) d0) as [d1|h1]; cbn [mbind result_bind].
  2:{ destruct H1 as (pid & d1 & -> & Hu & Hc & Hw). exists pid, d1. eexists. split; [done|]. split; [eexists _, _; split; [done|by left]|].
      rewrite Hu, Hc. cbn. by rewrite set_unit_state_twice. }
  destruct H1 as (s1 & calls1 & Ha1 & Hu1 & Hc1). cbn in Hu1. rewrite set_unit_state_twice in Hu1.
  rewrite Hu1, state_of_set by done. change (2 <=? 0 + 1) with false. rewrite orb_false_r.
  destruct (wants_restart _ s1) eqn:Er; cbn [negb]; [|by eexists s1, calls1; split; [by left|]].
  set (d2 := set_state name UnitState.Starting d1). pose proof (run_service_spec name path (path :: args) d2) as H2.
  assert (set_unit_state name UnitState.Starting (units_ d1) = units_ d2) as Eu by done.
  destruct (run_service name path (path :: args) d2) as [d3|h2]; cbn [mbind result_bind].
  - destruct H2 as (s2 & calls2 & Ha2 & Hu2 & Hc2). rewrite <-Eu, Hu1, !set_unit_state_twice in Hu2.
    change (2 <=? 0 + 1 + 1) with true. rewrite orb_true_r. exists s2, (calls1 ++ calls2).
    split; [right; by exists s1, calls1, calls2|]. split; [done|]. rewrite Hc2. unfold d2, calls_of in *. cbn in *. by rewrite Hc1, <-app_assoc.
  - destruct H2 as (pid & d3 & -> & Hu2 & Hc2 & Hw). exists pid, d3, (calls1 ++ attempt_waits name path (path :: args) pid).
    split; [done|]. split; [eexists _, _; split; [done|right; by exists s1, calls1]|].
    rewrite <-Eu, Hu1, !set_unit_state_twice in Hu2. split; [done|]. split; [|done].
    rewrite Hc2. unfold d2, calls_of in *. cbn in *. by rewrite Hc1, <-app_assoc.
Qed.

(** *** Units *)
(** what starting a unit does when nothing it requires has failed *)
Definition started name (u : LoadedUnit.t) (s : UnitState.t) (calls : list Call.t) : Prop :=
  match u.(LoadedUnit.unit).(Unit.kind) with
  | UnitKind.Target => s = UnitState.Running ∧ calls = said (text_is name "default.target") "DEFAULT TARGET [STARTED]
"
  | UnitKind.Service =>
      match u.(LoadedUnit.service) with
      | Some service => service_runs name service s calls
      | None => s = UnitState.Failed ∧ calls = []
      end
  | _ => s = UnitState.Skipped ∧ calls = []
  end.
Lemma start_unit_spec d name :
  match start_unit d name with
  | Ok d' => ∃ s calls, units_ d' = set_unit_state name s (units_ d) ∧ calls_of d' = calls_of d ++ calls ∧
      (required_failed d name = true → s = UnitState.Failed ∧ calls = []) ∧
      (required_failed d name = false → ∀ u, units_ d !! name = Some u → started name u s calls)
  | Err h => required_failed d name = false ∧ ∃ pid d' u service calls, h = Halt.Waits pid d' ∧
      units_ d !! name = Some u ∧ u.(LoadedUnit.unit).(Unit.kind) = UnitKind.Service ∧
      u.(LoadedUnit.service) = Some service ∧ service_waits name service pid calls ∧
      units_ d' = set_unit_state name UnitState.Running (units_ d) ∧ calls_of d' = calls_of d ++ calls ∧
      sys_wait pid d'.(world).(Traced.inner) = None
  end.
Proof.
  unfold start_unit. destruct (required_failed d name) eqn:Er; [exists UnitState.Failed, []; by rewrite app_nil_r|].
  change (units_ (set_state name UnitState.Waiting d)) with (set_unit_state name UnitState.Waiting (units_ d)).
  destruct (units_ d !! name) as [u|] eqn:Eu.
  2:{ rewrite set_unit_state_None, Eu by done. exists UnitState.Failed, []. rewrite app_nil_r.
      split; [cbn; by rewrite !set_unit_state_None by done|]. split; [done|]. split; [done|]. by intros _ u [=]. }
  rewrite (set_unit_state_eq _ _ _ _ Eu). cbn [LoadedUnit.unit LoadedUnit.set_state].
  assert (∀ s, Unit.kind (LoadedUnit.unit u) ≠ UnitKind.Service → Unit.kind (LoadedUnit.unit u) ≠ UnitKind.Target → s = UnitState.Skipped →
    ∃ s' calls, set_unit_state name s (set_unit_state name UnitState.Waiting (units_ d)) = set_unit_state name s' (units_ d) ∧
      calls_of d = calls_of d ++ calls ∧ (false = true → s' = UnitState.Failed ∧ calls = []) ∧
      (false = false → ∀ u', Some u = Some u' → started name u' s' calls)) as Hskip.
  { intros s H1 H2 ->. exists UnitState.Skipped, []. rewrite set_unit_state_twice, app_nil_r. split; [done|]. split; [done|]. split; [done|].
    intros _ u' [= <-]. unfold started. by destruct (LoadedUnit.unit u).(Unit.kind). }
  destruct (Unit.kind (LoadedUnit.unit u)) eqn:Ek; [|..|]; try (by apply Hskip).
  - unfold start_service. change (units_ (set_state name UnitState.Waiting d)) with (set_unit_state name UnitState.Waiting (units_ d)).
    rewrite (set_unit_state_eq _ _ _ _ Eu). cbn [mbind option_bind LoadedUnit.service LoadedUnit.set_state].
    destruct (LoadedUnit.service u) as [service|] eqn:Esv.
    + set (d0 := set_state name UnitState.Waiting d).
      assert (is_Some (units_ d0 !! name)) as H0 by (apply set_unit_state_dom; by rewrite Eu).
      pose proof (service_loop_spec name service d0 H0) as H. destruct (service_loop 2 name service 0 d0) as [d'|h].
      * destruct H as (s & calls & Hr & Hu & Hc). exists s, calls. cbn in Hu. rewrite set_unit_state_twice in Hu. split; [done|]. split; [done|].
        split; [done|]. intros _ u' [= <-]. unfold started. by rewrite Ek, Esv.
      * destruct H as (pid & d' & calls & -> & Hw & Hu & Hc & Hn). split; [done|]. exists pid, d', u, service, calls.
        cbn in Hu. by rewrite set_unit_state_twice in Hu.
    + exists UnitState.Failed, []. cbn. rewrite set_unit_state_twice, app_nil_r. split; [done|]. split; [done|]. split; [done|].
      intros _ u' [= <-]. unfold started. by rewrite Ek, Esv.
  - eexists UnitState.Running, _. rewrite print_if_units, print_if_calls. cbn. rewrite set_unit_state_twice. split; [done|]. split; [done|].
    split; [done|]. intros _ u' [= <-]. unfold started. by rewrite Ek.
Qed.
Lemma required_failed_spec d n u : units_ d !! n = Some u →
  (∀ r, r ∈ requires u → is_Some (units_ d !! r)) →
  required_failed d n = true ↔ ∃ r, r ∈ requires u ∧ state_of (units_ d) r = Some UnitState.Failed.
Proof.
  intros Hu Hr. unfold required_failed. rewrite Hu, existsb_exists. split.
  - intros (r & Hin%list_elem_of_In & Hs). exists r. split; [done|]. destruct (Hr r Hin) as [v Hv].
    unfold state_of in *. rewrite Hv in *. cbn in *. by apply bool_decide_eq_true in Hs as ->.
  - intros (r & Hin & Hs). exists r. split; [by apply list_elem_of_In|]. rewrite Hs. done.
Qed.

(** *** Plans *)
(** the units of [l] have been started, in this order and once each, with these calls: one
    that requires a unit that failed has failed without a call, the others have been
    started as their kind asks for; no other unit has changed *)
Definition carried_out (us : units) (l : list text) (us' : units) (calls : list Call.t) : Prop :=
  (∀ n, n ∉ l → us' !! n = us !! n) ∧
  ∃ dones, calls = concat dones ∧ Forall2 (unit_outcome started us us') l dones.
(** the dispatcher waits for a process [pid] of the service [n] *)
Definition waits_in (us : units) (n : text) (pid : Z) (us' : units) (calls : list Call.t) : Prop :=
  ∃ u service, us !! n = Some u ∧ u.(LoadedUnit.unit).(Unit.kind) = UnitKind.Service ∧
    u.(LoadedUnit.service) = Some service ∧ (∀ r, r ∈ requires u → state_of us r ≠ Some UnitState.Failed) ∧
    us' = set_unit_state n UnitState.Running us ∧ service_waits n service pid calls.
Lemma dispatcher_plan d target plan : resolve_startup_order (units_ d) target = Some (Ok plan) →
  match rfold start_unit d plan.(StartupPlan.order) with
  | Ok d' => ∃ calls, carried_out (units_ d) plan.(StartupPlan.order) (units_ d') calls ∧ calls_of d' = calls_of d ++ calls
  | Err h => ∃ l n rest us calls pid d' calls', h = Halt.Waits pid d' ∧ plan.(StartupPlan.order) = l ++ n :: rest ∧
      carried_out (units_ d) l us calls ∧ waits_in us n pid (units_ d') calls' ∧ calls_of d' = calls_of d ++ calls ++ calls' ∧
      sys_wait pid d'.(world).(Traced.inner) = None
  end.
Proof.
  intros Er.
  assert (∀ l rest d', plan.(StartupPlan.order) = l ++ rest → rfold start_unit d l = Ok d' →
    ∃ calls, carried_out (units_ d) l (units_ d') calls ∧ calls_of d' = calls_of d ++ calls) as Hpre.
  { intros l rest d' El Ed. destruct (plan_prefix units_ calls_of start_unit required_failed started) with (d := d) (target := target)
      (plan := plan) (l := l) (rest := rest) (d' := d') as (H1 & dones & H2 & H3); [| |done|done|done|].
    - intros d1 n d2 E. pose proof (start_unit_spec d1 n) as H. rewrite E in H. exact H.
    - intros d1 n u. apply required_failed_spec.
    - exists (concat dones). split; [|done]. split; [done|]. by exists dones. }
  destruct (rfold start_unit d (StartupPlan.order plan)) as [d'|h] eqn:Ef.
  { apply (Hpre _ []); [by rewrite app_nil_r|done]. }
  apply rfold_stops in Ef as (l & n & rest & d1 & El & Ed & En). destruct (Hpre l (n :: rest) d1 El Ed) as (calls & Hc & Hl).
  pose proof (start_unit_spec d1 n) as H. rewrite En in H. destruct H as (Hrf & pid & d' & u & service & calls' & -> & Hu & Hk & Hs & Hw & Hu' & Hc' & Hn).
  exists l, n, rest, (units_ d1), calls, pid, d', calls'. split; [done|]. split; [done|]. split; [done|]. split; [|split; [by rewrite Hc', Hl, <-app_assoc|done]].
  exists u, service. split; [done|]. split; [done|]. split; [done|]. split; [|done]. intros r Hr Hst.
  assert (required_failed d1 n = true) as Ht; [|congruence]. unfold required_failed. rewrite Hu. apply existsb_exists. exists r.
  split; [by apply list_elem_of_In|]. by rewrite Hst.
Qed.
End starting.

(** ** Loading unit files *)
(** every unit was parsed under its own name *)
Definition table_ok (us : units) : Prop :=
  ∀ k u, us !! k = Some u → loaded_ok k u ∧ u.(LoadedUnit.state) = UnitState.Loaded.
(** the unit in the bytes of a file *)
Definition unit_of (name : text) (bytes : list Z) : option LoadedUnit.t :=
  source ← decode_utf8 bytes;
  match parse_unit name source with Ok u => Some u | Err _ => None end.
Lemma table_ok_insert us name bytes u : table_ok us → unit_of name bytes = Some u → table_ok (<[name := u]> us).
Proof.
  intros H (source & _ & Hu)%bind_Some k v. destruct (parse_unit name source) as [u'|] eqn:E; [|done]. injection Hu as ->.
  apply parse_unit_loaded in E. destruct (decide (k = name)) as [->|]; [rewrite lookup_insert_eq; by intros [= <-]|].
  rewrite lookup_insert_ne by done. apply H.
Qed.

(** *** Files end *)
(** what a machine promises for reading to end: a file that is opened is a new one with
    fewer than [bound] bytes, a read that yields something leaves less, and no call makes
    another open file longer.  A read fills at most the buffer it is given. *)
Definition stays {W} (opened : W → Z → Prop) (unread : W → Z → nat) (except : option Z) (w w' : W) : Prop :=
  ∀ fd, opened w fd → Some fd ≠ except → opened w' fd ∧ (unread w' fd ≤ unread w fd)%nat.
Definition reads_in {W} (opened : W → Z → Prop) (unread : W → Z → nat)
    (call : Z → list Z → W → (result Z Z * list Z) * W) : Prop :=
  ∀ fd buffer w, stays opened unread None w (call fd buffer w).2 ∧
    ∀ n buffer', (call fd buffer w).1 = (Ok n, buffer') →
      0 <= n <= Z.of_nat (length buffer) ∧ length buffer' = length buffer ∧
      (n ≠ 0 → opened w fd → (unread (call fd buffer w).2 fd < unread w fd)%nat).
Record finite_files {W} `{!Syscalls W} (bound : nat) (opened : W → Z → Prop) (unread : W → Z → nat) : Prop := {
  ff_open : ∀ path w, stays opened unread None w (sys_open path w).2 ∧
    ∀ fd, (sys_open path w).1 = Ok fd →
      ¬ opened w fd ∧ opened (sys_open path w).2 fd ∧ (unread (sys_open path w).2 fd < bound)%nat;
  ff_read : reads_in opened unread sys_read;
  ff_read_dir : reads_in opened unread sys_read_dir;
  ff_close : ∀ fd w, stays opened unread (Some fd) w (sys_close fd w)
}.

(** the entries of a buffer are read within it, and there are fewer of them than bytes *)
Lemma dirent_names_end {W} k offset read (buffer : list Z) : (read ≤ length buffer)%nat → (offset ≤ read < offset + k)%nat →
  ∃ names, @dirent_names W k offset read buffer = Ok names.
Proof.
  intros Hl. revert offset. induction k as [|k IH]; intros offset Hk; [lia|]. cbn [dirent_names].
  destruct (decide (offset + 19 ≤ read)%nat); [|by eexists].
  destruct (lookup_lt_is_Some_2 buffer (offset + 16)) as [low ->]; [lia|].
  destruct (lookup_lt_is_Some_2 buffer (offset + 17)) as [high ->]; [lia|].
  set (reclen := Z.to_nat _). destruct (decide (reclen = 0 ∨ read < offset + reclen)%nat); [by eexists|].
  destruct (IH (offset + reclen)%nat) as [names En]; [lia|]. rewrite En. destruct (split_once 0 _) as [[name rest]|]; [by eexists|].
  rewrite decide_False by lia. by eexists.
Qed.
(** *** What is read, by the calls and their answers *)
(** reading an open file to its end, or to an error *)
Inductive reads (fd : Z) : list Call.t → option (list Z) → Prop :=
  | reads_failed e buffer : reads fd [Call.Read fd (Err e) buffer] None
  | reads_end buffer : reads fd [Call.Read fd (Ok 0) buffer] (Some [])
  | reads_more n buffer calls rest : n ≠ 0 → reads fd calls rest →
      reads fd (Call.Read fd (Ok n) buffer :: calls) (app (take (Z.to_nat n) buffer) <$> rest).
Inductive file_read (path : text) : list Call.t → option (list Z) → Prop :=
  | not_opened e : file_read path [Call.Open path (Err e)] None
  | not_read fd calls : reads fd calls None → file_read path (Call.Open path (Ok fd) :: calls) None
  | read_whole fd calls bytes : reads fd calls (Some bytes) →
      file_read path (Call.Open path (Ok fd) :: calls ++ [Call.Close fd]) (Some bytes).
Definition failure_report (path : text) (reason : string) : list Call.t :=
  [Call.Write 1 (str "SYSTEM DISPATCHER [FAILED]: required unit "); Call.Write 1 (encode_utf8 path); Call.Write 1 (str " ");
   Call.Write 1 (str reason); Call.Write 1 (str "
")].
Definition failure_reason (contents : option (list Z)) : string :=
  match contents with
  | None => "missing or unreadable"
  | Some bytes => match decode_utf8 bytes with None => "not valid UTF-8" | Some _ => "parse failed" end
  end.
(** the required units are read in order, up to the first whose file cannot be read or
    parsed, which is reported *)
Inductive required_read : list (text * text) → units → list Call.t → bool → units → Prop :=
  | required_all us : required_read [] us [] true us
  | required_unit path name l us calls bytes u calls' loaded us' :
      file_read path calls (Some bytes) → unit_of name bytes = Some u →
      required_read l (<[name := u]> us) calls' loaded us' → required_read ((path, name) :: l) us (calls ++ calls') loaded us'
  | required_missing path name l us calls contents : file_read path calls contents → contents ≫= unit_of name = None →
      required_read ((path, name) :: l) us (calls ++ failure_report path (failure_reason contents)) false us.
(** one thing after the other *)
Inductive in_order {A} (R : A → units → list Call.t → units → Prop) : list A → units → list Call.t → units → Prop :=
  | in_order_nil us : in_order R [] us [] us
  | in_order_cons x l us calls us1 calls' us2 : R x us calls us1 → in_order R l us1 calls' us2 →
      in_order R (x :: l) us (calls ++ calls') us2.
(** an entry of a directory: a file with a unit in it replaces the unit of its name *)
Inductive entry_read (dir : text) (name_bytes : list Z) (us : units) : list Call.t → units → Prop :=
  | no_unit_name : (∀ name, decode_utf8 name_bytes = Some name → is_unit_name name = false) → entry_read dir name_bytes us [] us
  | unit_file name calls contents : decode_utf8 name_bytes = Some name → is_unit_name name = true →
      file_read (dir ++ 47 :: name) calls contents →
      entry_read dir name_bytes us calls
        match contents ≫= unit_of name with Some u => <[name := u]> us | None => us end.

Section loading.
Context {W : Type} `{!Syscalls W}.
Implicit Types (d : t (Traced.t W)) (w : Traced.t W).

(** the entries of an open directory, buffer by buffer *)
Inductive entries_read (dir : text) (fd : Z) : units → list Call.t → units → Prop :=
  | entries_failed e buffer us : entries_read dir fd us [Call.ReadDir fd (Err e) buffer] us
  | entries_end buffer us : entries_read dir fd us [Call.ReadDir fd (Ok 0) buffer] us
  | entries_more n buffer names us calls us1 calls' us2 : n ≠ 0 →
      @dirent_names (Traced.t W) (S (Z.to_nat n)) 0 (Z.to_nat n) buffer = Ok names →
      in_order (entry_read dir) names us calls us1 → entries_read dir fd us1 calls' us2 →
      entries_read dir fd us (Call.ReadDir fd (Ok n) buffer :: calls ++ calls') us2.
Inductive dir_read (dir : text) (us : units) : list Call.t → units → Prop :=
  | dir_not_opened e : dir_read dir us [Call.Open dir (Err e)] us
  | dir_listed fd calls us' : entries_read dir fd us calls us' →
      dir_read dir us (Call.Open dir (Ok fd) :: calls ++ [Call.Close fd]) us'.
(** all that is loaded: the required units and then, if they are there, the directories *)
Definition units_read (calls : list Call.t) (loaded : bool) (us : units) : Prop :=
  ∃ calls1 us1 calls2, calls = calls1 ++ calls2 ∧ required_read REQUIRED_UNITS ∅ calls1 loaded us1 ∧
    if loaded then in_order dir_read UNIT_DIRS us1 calls2 us else calls2 = [] ∧ us = us1.

(** *** What is read is well formed *)
Definition grows (us us' : units) : Prop := (table_ok us → table_ok us') ∧ ∀ k, is_Some (us !! k) → is_Some (us' !! k).
#[local] Instance grows_preorder : PreOrder grows.
Proof. split; [by intros us|]. intros us1 us2 us3 [H1 H2] [H3 H4]. split; auto. Qed.
Lemma grows_insert us name bytes u : unit_of name bytes = Some u → grows us (<[name := u]> us).
Proof.
  intros H. split; [intros Hok; by eapply table_ok_insert|]. intros k Hk.
  destruct (decide (k = name)) as [->|]; [rewrite lookup_insert_eq; by eexists|by rewrite lookup_insert_ne].
Qed.
Lemma in_order_grows {A} (R : A → units → list Call.t → units → Prop) l us calls us' :
  (∀ x us calls us', R x us calls us' → grows us us') → in_order R l us calls us' → grows us us'.
Proof. intros HR. induction 1 as [|x l us calls us1 calls' us2 Hx _ IH]; [done|]. etrans; [by eapply HR|done]. Qed.
Lemma entry_grows dir bs us calls us' : entry_read dir bs us calls us' → grows us us'.
Proof.
  destruct 1 as [|name calls contents _ _ _]; [done|]. destruct contents as [bytes|]; [|done]. cbn.
  destruct (unit_of name bytes) eqn:E; [by eapply grows_insert|done].
Qed.
Lemma dir_grows dir us calls us' : dir_read dir us calls us' → grows us us'.
Proof.
  destruct 1 as [|fd calls us' H]; [done|]. induction H as [| |n buffer names us calls us1 calls' us2 _ _ H1 _ IH]; [done|done|].
  etrans; [|exact IH]. eapply in_order_grows; [|exact H1]. intros. by eapply entry_grows.
Qed.
Lemma required_spec l us calls loaded us' : required_read l us calls loaded us' → grows us us' ∧
  if loaded then ∀ path name, (path, name) ∈ l → is_Some (us' !! name)
  else NoDup l.*2 → (∀ path name, (path, name) ∈ l → us !! name = None) → ∃ path name, (path, name) ∈ l ∧ us' !! name = None.
Proof.
  induction 1 as [us|path name l us calls bytes u calls' loaded us' _ Hu _ [IH1 IH2]|path name l us calls contents _ _].
  - split; [done|]. by intros path name ?%elem_of_nil.
  - pose proof (grows_insert us name bytes u Hu) as Hg. split; [by etrans|]. destruct loaded.
    + intros p n [[= -> ->]|Hin]%elem_of_cons; [apply IH1; rewrite lookup_insert_eq; by eexists|by eapply IH2].
    + rewrite fmap_cons. intros [Hn Hnd]%NoDup_cons Hno. destruct (IH2 Hnd) as (p & n & Hin & Hnone).
      * intros p n Hin. rewrite lookup_insert_ne; [eapply Hno; by apply list_elem_of_further|].
        intros ->. apply Hn. apply list_elem_of_fmap. by exists (p, n).
      * exists p, n. split; [by apply list_elem_of_further|done].
  - split; [done|]. intros _ Hno. exists path, name. split; [apply list_elem_of_here|]. eapply Hno, list_elem_of_here.
Qed.
Lemma units_read_spec calls loaded us : units_read calls loaded us → table_ok us ∧
  if loaded then ∀ path name, (path, name) ∈ REQUIRED_UNITS → is_Some (us !! name)
  else ∃ path name, (path, name) ∈ REQUIRED_UNITS ∧ us !! name = None.
Proof.
  intros (calls1 & us1 & calls2 & _ & Hr & Hd). destruct (required_spec _ _ _ _ _ Hr) as [[H1 _] H2].
  assert (table_ok ∅) as H0 by (intros k u; by rewrite lookup_empty). destruct loaded.
  - assert (grows us1 us) as [H3 H4] by (eapply in_order_grows; [|exact Hd]; apply dir_grows). split; [by auto|].
    intros path name Hin. apply H4. by eapply H2.
  - destruct Hd as [_ ->]. split; [by auto|]. apply H2; [|intros; apply lookup_empty]. apply (bool_decide_unpack _). by vm_compute.
Qed.

Context (bound : nat) (opened : W → Z → Prop) (unread : W → Z → nat) (fuel : nat).
Hypothesis files : finite_files bound opened unread.
Hypothesis enough : (bound ≤ fuel)%nat.

(** the calls took the machine from one state to the other, and the open files are still there *)
Definition passes (calls : list Call.t) w w' : Prop :=
  w'.(Traced.trace) = w.(Traced.trace) ++ calls ∧ stays opened unread None w.(Traced.inner) w'.(Traced.inner).
Lemma unread_trans e (w1 w2 w3 : W) : stays opened unread e w1 w2 → stays opened unread e w2 w3 → stays opened unread e w1 w3.
Proof. intros H1 H2 fd Ho He. destruct (H1 fd Ho He) as [Ho1 Hu1]. destruct (H2 fd Ho1 He) as [Ho2 Hu2]. split; [done|lia]. Qed.
Lemma passes_nil w : passes [] w w.
Proof. split; [by rewrite app_nil_r|]. by intros fd. Qed.
Lemma passes_app calls calls' w1 w2 w3 : passes calls w1 w2 → passes calls' w2 w3 → passes (calls ++ calls') w1 w3.
Proof. intros [E1 S1] [E2 S2]. split; [by rewrite E2, E1, app_assoc|by eapply unread_trans]. Qed.

Lemma read_loop_ends k fd out buffer w : opened w.(Traced.inner) fd → (unread w.(Traced.inner) fd < k)%nat →
  ∃ r w' calls, read_loop k fd out buffer w = Ok (app out <$> r, w') ∧ reads fd calls r ∧ passes calls w w'.
Proof.
  revert out buffer w. induction k as [|k IH]; intros out buffer w Ho Hk; [lia|]. cbn [read_loop sys_read Traced.calls].
  destruct (ff_read _ _ _ files fd buffer w.(Traced.inner)) as [Hs Hc].
  destruct (sys_read fd buffer (Traced.inner w)) as [[[c|e] b] w']; cbn [fst snd] in *.
  2:{ eexists None, _, _. split; [done|]. split; [constructor|done]. }
  destruct (Hc _ _ eq_refl) as (Hn & Hb & Hd). destruct (Z.eqb_spec c 0) as [->|Hne].
  { eexists (Some []), _, _. cbn. rewrite app_nil_r. split; [done|]. split; [constructor|done]. }
  destruct (Hs fd Ho) as [Ho' _]; [done|]. rewrite (proj2 (Z.ltb_ge _ _)) by lia.
  destruct (IH (out ++ take (Z.to_nat c) b) b (Traced.after (Call.Read fd (Ok c) b) w' w)) as (r & w2 & calls & E & Hr & Hp); [done|cbn; naive_solver lia|].
  exists (app (take (Z.to_nat c) b) <$> r), w2, (Call.Read fd (Ok c) b :: calls). split; [|split; [by constructor|]].
  - cbn in E. rewrite E. destruct r; cbn; [by rewrite app_assoc|done].
  - eapply (passes_app [_]); [|exact Hp]. done.
Qed.
Lemma read_file_ends path w : ∃ r w' calls, read_file fuel path w = Ok (r, w') ∧ file_read path calls r ∧ passes calls w w'.
Proof.
  unfold read_file. cbn [sys_open Traced.calls]. destruct (ff_open _ _ _ files path w.(Traced.inner)) as [Hs Ho].
  destruct (sys_open path (Traced.inner w)) as [[fd|e] w1]; cbn [fst snd] in *.
  2:{ eexists _, _, _. split; [done|]. split; [constructor|done]. }
  destruct (Ho fd eq_refl) as (Hnew & Hopen & Hb). set (w1' := Traced.after _ w1 w).
  destruct (read_loop_ends fuel fd [] (replicate 512 0) w1' Hopen) as (r & w2 & calls & E & Hr & Hp); [cbn; lia|].
  rewrite E. cbn [mbind result_bind]. assert (passes (Call.Open path (Ok fd) :: calls) w w2) as Hp2 by (by eapply (passes_app [_]); [|exact Hp]).
  destruct r as [bytes|]; cbn.
  2:{ eexists _, _, _. split; [done|]. split; [by constructor|done]. }
  eexists _, _, _. split; [done|]. split; [by constructor|]. destruct Hp2 as [Et H3]. split; [cbn; rewrite Et; by rewrite <-app_assoc|].
  intros fd' Hfd' _. destruct (H3 fd' Hfd') as [Ho3 Hu3]; [done|]. assert (fd' ≠ fd) as Hne by by intros ->.
  destruct (ff_close _ _ _ files fd w2.(Traced.inner) fd' Ho3) as [Ho4 Hu4]; [congruence|]. split; [done|]. cbn. lia.
Qed.

(** *** The loading functions do what their relations say *)
Lemma load_entry_ends dir d name : ∃ d' calls, load_entry fuel dir d name = Ok d' ∧
  entry_read dir name (units_ d) calls (units_ d') ∧ passes calls (world d) (world d').
Proof.
  unfold load_entry. destruct (decode_utf8 name) as [n|] eqn:En.
  2:{ exists d, []. split; [done|]. split; [apply no_unit_name; congruence|apply passes_nil]. }
  destruct (is_unit_name n) eqn:Eu.
  2:{ exists d, []. split; [done|]. split; [apply no_unit_name; congruence|apply passes_nil]. }
  destruct (read_file_ends (dir ++ 47 :: n) (world d)) as (r & w & calls & -> & Hr & Hp). cbn [mbind result_bind].
  pose proof (unit_file dir name (units_ d) n calls r En Eu Hr) as He. unfold unit_of in He.
  destruct r as [bytes|]; [|by eexists _, _]. cbn in He. destruct (decode_utf8 bytes) as [source|]; [|by eexists _, _]. cbn in He.
  unfold insert_unit. destruct (parse_unit n source); by eexists _, _.
Qed.
Lemma load_entries_end dir names d : ∃ d' calls, rfold (load_entry fuel dir) d names = Ok d' ∧
  in_order (entry_read dir) names (units_ d) calls (units_ d') ∧ passes calls (world d) (world d').
Proof.
  revert d. induction names as [|n names IH]; intros d; [exists d, []; split; [done|]; split; [constructor|apply passes_nil]|].
  cbn [rfold]. destruct (load_entry_ends dir d n) as (d1 & c1 & -> & H1 & P1). cbn [mbind result_bind].
  destruct (IH d1) as (d2 & c2 & -> & H2 & P2). exists d2, (c1 ++ c2). split; [done|]. split; [by econstructor|by eapply passes_app].
Qed.
Lemma load_dir_loop_ends k dir fd buffer d : opened (world d).(Traced.inner) fd → (unread (world d).(Traced.inner) fd < k)%nat →
  ∃ d' calls, load_dir_loop fuel k dir fd buffer d = Ok d' ∧ entries_read dir fd (units_ d) calls (units_ d') ∧
    passes calls (world d) (world d').
Proof.
  revert buffer d. induction k as [|k IH]; intros buffer d Ho Hk; [lia|]. cbn [load_dir_loop sys_read_dir Traced.calls].
  destruct (ff_read_dir _ _ _ files fd buffer (world d).(Traced.inner)) as [Hs Hc].
  destruct (sys_read_dir fd buffer (Traced.inner (world d))) as [[[c|e] b] w']; cbn [fst snd] in *.
  2:{ eexists _, _. split; [done|]. split; [constructor|done]. }
  destruct (Hc _ _ eq_refl) as (Hn & Hb & Hd). destruct (Z.eqb_spec c 0) as [->|Hne].
  { eexists _, _. split; [done|]. split; [constructor|done]. }
  destruct (dirent_names_end (W := Traced.t W) (S (Z.to_nat c)) 0 (Z.to_nat c) b) as [names En]; [lia|lia|]. rewrite En.
  cbn [mbind result_bind].
  set (d0 := set_world _ d). destruct (load_entries_end dir names d0) as (d1 & c1 & -> & H1 & P1).
  cbn [mbind result_bind]. pose proof P1 as [_ Hs1]. destruct (Hs fd Ho) as [Ho' _]; [done|].
  destruct (Hs1 fd Ho') as [Ho1 Hu1]; [done|]. cbn in Hu1. specialize (Hd ltac:(done) Ho).
  destruct (IH b d1 Ho1) as (d2 & c2 & -> & H2 & P2); [lia|]. exists d2. eexists. split; [done|].
  split; [by econstructor|]. eapply (passes_app [_]); [|by eapply passes_app]. done.
Qed.
(** a directory stays open no longer than its loading, so only the trace is kept *)
Lemma load_dir_ends d dir : ∃ d' calls, load_dir fuel d dir = Ok d' ∧ dir_read dir (units_ d) calls (units_ d') ∧
  calls_of d' = calls_of d ++ calls.
Proof.
  unfold load_dir. cbn [sys_open Traced.calls]. destruct (ff_open _ _ _ files dir (world d).(Traced.inner)) as [_ Ho].
  destruct (sys_open dir (Traced.inner (world d))) as [[fd|e] w]; cbn [fst snd] in *.
  2:{ eexists _, _. split; [done|]. split; [constructor|done]. }
  destruct (Ho fd eq_refl) as (_ & Hopen & Hb). set (d0 := set_world _ d).
  destruct (load_dir_loop_ends fuel dir fd (replicate 1024 0) d0) as (d1 & calls & -> & H1 & [Et _]); [done|cbn; lia|].
  cbn [mbind result_bind]. eexists _, _. split; [done|]. split; [by constructor|]. unfold calls_of. cbn. rewrite Et. cbn.
  by rewrite <-!app_assoc.
Qed.
Lemma load_dirs_end l d : ∃ d' calls, rfold (load_dir fuel) d l = Ok d' ∧ in_order dir_read l (units_ d) calls (units_ d') ∧
  calls_of d' = calls_of d ++ calls.
Proof.
  revert d. induction l as [|dir l IH]; intros d; [exists d, []; rewrite app_nil_r; split; [done|]; split; [constructor|done]|].
  cbn [rfold]. destruct (load_dir_ends d dir) as (d1 & c1 & -> & H1 & E1). cbn [mbind result_bind].
  destruct (IH d1) as (d2 & c2 & -> & H2 & E2). exists d2, (c1 ++ c2). split; [done|]. split; [by econstructor|].
  by rewrite E2, E1, app_assoc.
Qed.
Lemma report_calls path reason d : calls_of (report_required_unit_failure path reason d) = calls_of d ++ failure_report path reason.
Proof. unfold calls_of, report_required_unit_failure. cbn. by rewrite <-!app_assoc. Qed.
Lemma load_required_ends l d : ∃ b d' calls, load_all_required fuel l d = Ok (b, d') ∧
  required_read l (units_ d) calls b (units_ d') ∧ calls_of d' = calls_of d ++ calls.
Proof.
  revert d. induction l as [|[path name] l IH]; intros d.
  { exists true, d, []. rewrite app_nil_r. split; [done|]. split; [constructor|done]. }
  cbn [load_all_required]. unfold load_required. destruct (read_file_ends path (world d)) as (r & w & calls & -> & Hr & [Et _]). cbn [mbind result_bind].
  assert (∀ reason, reason = failure_reason r → r ≫= unit_of name = None → ∃ b d' calls,
    Ok (E := Halt.t (t (Traced.t W))) (false, report_required_unit_failure path reason (set_world w d)) = Ok (b, d') ∧
    required_read ((path, name) :: l) (units_ d) calls b (units_ d') ∧ calls_of d' = calls_of d ++ calls) as Hfail.
  { intros reason -> Hn. eexists _, _, _. split; [done|]. split; [by eapply required_missing|].
    rewrite report_calls, app_assoc. f_equal. exact Et. }
  destruct r as [bytes|]; [|by apply Hfail]. destruct (decode_utf8 bytes) as [source|] eqn:Ed.
  2:{ apply Hfail; cbn; [by rewrite Ed|]. unfold unit_of. by rewrite Ed. }
  unfold insert_unit. destruct (parse_unit name source) as [u|e] eqn:Ep; cbn [fst snd].
  2:{ apply Hfail; cbn; [by rewrite Ed|]. unfold unit_of. rewrite Ed. cbn. by rewrite Ep. }
  cbn [mbind result_bind]. set (d1 := set_units _ _). destruct (IH d1) as (b & d2 & calls2 & -> & H2 & E2).
  exists b, d2, (calls ++ calls2). split; [done|]. split.
  - eapply required_unit; [exact Hr| |exact H2]. unfold unit_of. rewrite Ed. cbn. by rewrite Ep.
  - rewrite E2, app_assoc. f_equal. exact Et.
Qed.
Lemma load_units_ends w : w.(Traced.trace) = [] →
  ∃ b d, load_units fuel (mk ∅ w) = Ok (b, d) ∧ units_read (calls_of d) b (units_ d).
Proof.
  intros Hw. unfold load_units. destruct (load_required_ends REQUIRED_UNITS (mk ∅ w)) as (b & d1 & calls1 & -> & H1 & E1). cbn [mbind result_bind].
  unfold calls_of in E1 at 2. cbn in E1. rewrite Hw in E1. cbn in E1. destruct b.
  - destruct (load_dirs_end UNIT_DIRS d1) as (d2 & calls2 & -> & H2 & E2). exists true, d2. split; [done|].
    exists calls1, (units_ d1), calls2. by rewrite E2, E1.
  - exists false, d1. split; [done|]. exists calls1, (units_ d1), []. by rewrite E1, app_nil_r.
Qed.
End loading.

(** C20: for any machine whose files end and whose reads stay within their buffers, the
    dispatcher neither loops for ever nor panics, and the system calls it made are these.
    It reads the required units in order; at the first whose file cannot be read or parsed
    it reports that file and gives up.  If they are all there it reads the files with unit
    names in the two unit directories, a later unit replacing an earlier one of its name.
    Then either the units it read, each parsed under its own name, admit no order, which it
    reports; or it has announced itself and carried out a plan for default.target: the
    units of the plan were started in its order, those that require a failed one without
    any call, each other service by spawning its command and waiting for that process, a
    second time where its restart policy asks for it, and its state is what the last wait
    answered; targets are Running, other kinds Skipped, and nothing else has changed.  Or
    else it is blocked: it carried out a beginning of such a plan, spawned the process of
    the next unit, a service that requires nothing that failed, and the wait for it does
    not return. *)
Theorem dispatcher_run {W} `{!Syscalls W} bound opened unread fuel (w : W) :
  finite_files bound opened unread → (bound ≤ fuel)%nat →
  let target := str "default.target" in
  let online := Call.Write 1 (str "SYSTEM DISPATCHER [ONLINE]
") in
  let failed := Call.Write 1 (str "SYSTEM DISPATCHER [FAILED]") in
  let all_required us := ∀ path name, (path, name) ∈ REQUIRED_UNITS → is_Some (us !! name) in
  let loaded loading us := units_read (W := W) loading true us ∧ table_ok us ∧ all_required us in
  match run fuel (Traced.mk w []) with
  | Ok (NotLoaded d) => units_read (W := W) (calls_of d) false (units_ d) ∧ table_ok (units_ d) ∧
      ∃ path name, (path, name) ∈ REQUIRED_UNITS ∧ units_ d !! name = None
  | Ok (NoPlan d) => ∃ loading, loaded loading (units_ d) ∧ calls_of d = loading ++ [failed] ∧
      ¬ ((∀ n, needed (units_ d) target n → is_Some (units_ d !! n)) ∧
         ∃ order, valid_order (needed (units_ d) target) (before (units_ d) target) order)
  | Ok (Started plan d) => ∃ us loading calls, loaded loading us ∧
      resolve_startup_order us target = Some (Ok plan) ∧
      carried_out us plan.(StartupPlan.order) (units_ d) calls ∧ calls_of d = loading ++ online :: calls
  | Err (Halt.Waits pid d) => ∃ us loading plan l n rest us1 calls calls', loaded loading us ∧
      resolve_startup_order us target = Some (Ok plan) ∧
      plan.(StartupPlan.order) = l ++ n :: rest ∧ carried_out us l us1 calls ∧ waits_in us1 n pid (units_ d) calls' ∧
      calls_of d = loading ++ online :: calls ++ calls' ∧ sys_wait pid d.(world).(Traced.inner) = None
  | Err _ => False
  end.
Proof.
  intros Hf Hb target online failed all_required loaded. unfold run.
  destruct (load_units_ends bound opened unread fuel Hf Hb (Traced.mk w []) eq_refl) as (b & d & -> & Hu).
  cbn [mbind result_bind]. pose proof (units_read_spec _ _ _ Hu) as Hs. destruct b; cbn [negb]; [|done].
  assert (loaded (calls_of d) (units_ d)) as Hl by done.
  fold target. destruct (resolve_startup_order (units_ d) target) as [[plan|e]|] eqn:Er.
  - pose proof (dispatcher_plan (print "SYSTEM DISPATCHER [ONLINE]
" d) target plan Er) as H. set (d1 := print _ d) in *. assert (calls_of d1 = calls_of d ++ [online]) as E1 by done.
    assert (units_ d1 = units_ d) as Eu by done. destruct (rfold start_unit d1 _) as [d'|h]; cbn [mbind result_bind].
    + destruct H as (calls & Hc & Hcalls). exists (units_ d), (calls_of d), calls. split; [done|]. split; [done|].
      split; [done|]. by rewrite Hcalls, E1, <-app_assoc.
    + destruct H as (l & n & rest & us & calls & pid & d' & calls' & -> & Ho & Hc & Hw & Hcalls & Hn).
      exists (units_ d), (calls_of d), plan, l, n, rest, us, calls, calls'. repeat (split; [done|]). split; [|done].
      by rewrite Hcalls, E1, <-app_assoc.
  - exists (calls_of d). split; [done|]. split; [done|]. cbn [units_ print set_world].
    rewrite <- resolve_complete, Er. by intros [? ?].
  - destruct (resolve_spec (units_ d) target) as (r & Er' & _). congruence.
Qed.

(** an answer of fewer than 19 bytes holds no entry; the kernel answers with the number of
    entries it wrote, so a directory with fewer than 19 of them looks empty *)
Lemma short_answer_empty {W} `{!Syscalls W} k read buffer : (read < 19)%nat → @dirent_names W (S k) 0 read buffer = Ok [].
Proof. intros H. cbn [dirent_names]. by rewrite decide_False by lia. Qed.

(** ** Example: a machine with the three unit files *)
(** processes end with [exit_code], if they end at all *)
Module MockWorld.
Record t : Type := mk {
  files : list (text * list Z);
  open_files : gmap Z (list Z);
  next_fd : Z;
  exit_code : option Z
}.
Definition set_open v w := mk w.(files) v w.(next_fd) w.(exit_code).
Definition find (path : text) w : option (list Z) := snd <$> List.find (λ f, bool_decide (f.1 = path)) w.(files).
End MockWorld.
#[export] Instance mock_calls : Syscalls MockWorld.t := {
  sys_open path w :=
    match MockWorld.find path w, w.(MockWorld.open_files) !! w.(MockWorld.next_fd) with
    | Some bytes, None =>
        if (length bytes <? 256)%nat then
          (Ok w.(MockWorld.next_fd), MockWorld.mk w.(MockWorld.files)
             (<[w.(MockWorld.next_fd) := bytes]> w.(MockWorld.open_files)) (w.(MockWorld.next_fd) + 1) w.(MockWorld.exit_code))
        else (Err (-12), w)
    | _, _ => (Err (-2), w)
    end;
  sys_read fd buffer w :=
    match w.(MockWorld.open_files) !! fd with
    | Some bytes =>
        let chunk := take (length buffer) bytes in
        ((Ok (Z.of_nat (length chunk)), chunk ++ drop (length chunk) buffer),
         MockWorld.set_open (<[fd := drop (length buffer) bytes]> w.(MockWorld.open_files)) w)
    | None => ((Err (-9), buffer), w)
    end;
  sys_read_dir _ buffer w := ((Ok 0, buffer), w);
  sys_close fd w := MockWorld.set_open (delete fd w.(MockWorld.open_files)) w;
  sys_write _ _ w := w;
  sys_spawn _ _ w := (Ok 7, w);
  sys_wait _ w := (λ code, (Ok code, w)) <$> w.(MockWorld.exit_code)
}.
Definition mock_unread (w : MockWorld.t) (fd : Z) : nat := length (default [] (w.(MockWorld.open_files) !! fd)).
Definition mock_opened (w : MockWorld.t) (fd : Z) : Prop := is_Some (w.(MockWorld.open_files) !! fd).
Lemma mock_files : finite_files 256 mock_opened mock_unread.
Proof.
  split.
  - intros path w. cbn [sys_open mock_calls]. destruct (MockWorld.find path w) as [bytes|]; [|done].
    destruct (MockWorld.open_files w !! MockWorld.next_fd w) eqn:E; [done|]. destruct (Nat.ltb_spec (length bytes) 256); [|done].
    cbn [fst snd]. unfold stays, mock_opened, mock_unread. cbn [MockWorld.open_files]. split.
    + intros fd Ho _. rewrite lookup_insert_ne; [done|]. intros <-. rewrite E in Ho. by destruct Ho.
    + intros fd [= <-]. rewrite lookup_insert_eq, E. split; [by intros [? ?]|]. split; [by eexists|done].
  - intros fd buffer w. cbn [sys_read mock_calls]. destruct (MockWorld.open_files w !! fd) as [bytes|] eqn:E; [|done].
    cbn [fst snd]. unfold stays, mock_opened, mock_unread, MockWorld.set_open. cbn [MockWorld.open_files]. split.
    + intros fd' Ho _. destruct (decide (fd' = fd)) as [->|]; [|by rewrite lookup_insert_ne].
      rewrite lookup_insert_eq, E. split; [by eexists|]. cbn. rewrite length_drop. lia.
    + intros n b [= <- <-]. rewrite lookup_insert_eq, E, length_app, !length_drop, length_take. cbn. rewrite length_drop. lia.
  - intros fd buffer w. cbn. split; [done|]. intros n b [= <- <-]. lia.
  - intros fd w fd' Ho Hne. unfold mock_opened, mock_unread in *. cbn [sys_close mock_calls MockWorld.set_open MockWorld.open_files].
    rewrite lookup_delete_ne by congruence. done.
Qed.
Definition mock_world (exit_code : option Z) : MockWorld.t := MockWorld.mk
  [(str "/etc/spider/units/default.target", default_target_file); (str "/etc/spider/units/basic.target", basic_target_file);
   (str "/etc/spider/units/m1-terminal.service", m1_terminal_file)] ∅ 3 exit_code.
Definition mock_start (exit_code : option Z) : Traced.t MockWorld.t := Traced.mk (mock_world exit_code) [].
Definition process_calls {W} (d : t (Traced.t W)) : list Call.t :=
  List.filter (λ c, match c with Call.Spawn _ _ _ | Call.Wait _ _ => true | _ => false end) (calls_of d).

(** the terminal fails, which default.target only wants: the target is still reached *)
Definition terminal : text := str "/usr/bin/m1-terminal".
Lemma mock_run : match run 256 (mock_start (Some 1)) with
  | Ok (Started plan d) => (λ n, state_of (units_ d) n) <$> plan.(StartupPlan.order) =
      [Some UnitState.Running; Some UnitState.Failed; Some UnitState.Running] ∧
      process_calls d = [Call.Spawn terminal [terminal] (Ok 7); Call.Wait 7 (Ok 1)]
  | _ => False
  end.
Proof. vm_compute. done. Qed.
(** a terminal that keeps running keeps the dispatcher from default.target *)
Lemma mock_waits : match run 256 (mock_start None) with
  | Err (Halt.Waits pid d) => pid = 7 ∧ process_calls d = [Call.Spawn terminal [terminal] (Ok 7)] ∧
      state_of (units_ d) (str "default.target") = Some UnitState.Loaded
  | _ => False
  end.
Proof. vm_compute. done. Qed.
Lemma dispatcher_run_witness :
  (∃ plan d us loading calls, run 256 (mock_start (Some 1)) = Ok (Started plan d) ∧
    units_read (W := MockWorld.t) loading true us ∧ carried_out us plan.(StartupPlan.order) (units_ d) calls ∧ calls_of d = loading ++ Call.Write 1 (str "SYSTEM DISPATCHER [ONLINE]
") :: calls) ∧
  ∃ pid d plan l n rest us1 us calls calls', run 256 (mock_start None) = Err (Halt.Waits pid d) ∧
    resolve_startup_order us (str "default.target") = Some (Ok plan) ∧ plan.(StartupPlan.order) = l ++ n :: rest ∧
    carried_out us l us1 calls ∧ waits_in us1 n pid (units_ d) calls'.
Proof.
  split.
  - pose proof (dispatcher_run 256 mock_opened mock_unread 256 (mock_world (Some 1)) mock_files (le_n _)) as H.
    pose proof mock_run as Hm. unfold mock_start in *. destruct (run 256 _) as [[d|d|plan d]|h]; [done|done| |done].
    destruct H as (us & loading & calls & [Hu _] & _ & Hc & Hl). by exists plan, d, us, loading, calls.
  - pose proof (dispatcher_run 256 mock_opened mock_unread 256 (mock_world None) mock_files (le_n _)) as H.
    pose proof mock_waits as Hm. unfold mock_start in *. destruct (run 256 _) as [r|[| |pid d]]; [done|done|done|].
    destruct H as (us & loading & plan & l & n & rest & us1 & calls & calls' & _ & Hp & Ho & Hc & Hw & _).
    by exists pid, d, plan, l, n, rest, us1, us, calls, calls'.
Defined.
