(* ===== verification/SpiderHost.v ===== *)
(** * The manager, the spawners, supervision and the bootstrap heap

    Models the rest of userspace/spider-rs: [SpiderManager] of manager.rs, which carries
    out a startup plan through a [ProcessSpawner], the spawners of process.rs, the
    supervision loop of start.rs and the bootstrap allocator of lib.rs.  A spawner with
    interior mutability is a class over its state. *)

From stdpp Require Import prelude strings gmap pretty.
From S2P Require Import Prelude Bytes Vfs Text SpiderUnits SpiderGraph SpiderInit.

Local Open Scope Z_scope.

(** ** process.rs *)
Module SpawnError.
Inductive t : Type := StubFailure (message : text) | SyscallFailed (code : Z) | InvalidPid (pid : Z).
Definition to_string (e : t) : text :=
  match e with
  | StubFailure message => str "stub spawn failure: " ++ message
  | SyscallFailed code => str "Mirage spawn syscall failed: " ++ str (pretty code)
  | InvalidPid pid => str "Mirage spawn syscall returned invalid PID: " ++ str (pretty pid)
  end.
End SpawnError.
Class ProcessSpawner (S : Type) := {
  spawn : text → list text → list (text * text) → S → result SpawnError.t Z * S;
  is_stub : bool
}.
(** [StubSpawner]: the log of what would have been spawned *)
Definition stub_entry (path : text) (args : list text) (env : list (text * text)) : text :=
  str "stub spawn: " ++ path
  ++ (if bool_decide (args = []) then [] else space :: join [space] args)
  ++ str " (" ++ str (pretty (N.of_nat (length env))) ++ str " env vars)".
#[export] Instance StubSpawner : ProcessSpawner (list text) := {
  spawn path args env log := (Ok 0, log ++ [stub_entry path args env]);
  is_stub := true
}.
(** [MirageSpawner]: the system call's answer as a process id *)
Definition mirage_pid (answer : result Z Z) : result SpawnError.t Z :=
  match answer with
  | Ok pid => if (0 <? pid) && (pid <=? umax 32) then Ok pid else Err (SpawnError.InvalidPid pid)
  | Err code => Err (SpawnError.SyscallFailed code)
  end.
#[export] Instance MirageSpawner {W} `{!Syscalls W} : ProcessSpawner W := {
  spawn path args env w := let '(answer, w) := sys_spawn path args w in (mirage_pid answer, w);
  is_stub := false
}.

(** ** manager.rs *)
Definition kind_name (k : UnitKind.t) : text :=
  match k with
  | UnitKind.Service => str "service"
  | UnitKind.Target => str "target"
  | UnitKind.Socket => str "socket"
  | UnitKind.Timer => str "timer"
  | UnitKind.Mount => str "mount"
  | UnitKind.Device => str "device"
  | UnitKind.Path => str "path"
  end.
Definition is_spider_unit_name (name : text) : bool :=
  unit_suffix name ["service"; "target"; "socket"; "timer"; "mount"; "device"; "path"; "spider"].
Module ServiceOutcome.
Record t : Type := mk { name : text; state : UnitState.t; message : text }.
End ServiceOutcome.
Module SpiderError.
Inductive t : Type :=
  | Io
  | Parse (name : text) (error : UnitParseError.t)
  | Dependency (error : DependencyError.t)
  | Spawn (name : text) (error : SpawnError.t).
End SpiderError.

Module SpiderManager.
Section manager.
Context {S : Type} `{!ProcessSpawner S}.

Definition insert_parsed (name source : text) (us : units) : result SpiderError.t units :=
  match parse_unit name source with
  | Ok loaded => Ok (<[name := loaded]> us)
  | Err error => Err (SpiderError.Parse name error)
  end.
(** [load_directory]: the plain files of a directory, or an error that stopped the listing *)
Fixpoint load_entries (entries : list (result unit (text * option text))) (us : units) (loaded : Z)
    : result SpiderError.t (units * Z) :=
  match entries with
  | [] => Ok (us, loaded)
  | Err _ :: _ => Err SpiderError.Io
  | Ok (name, source) :: entries =>
      if is_spider_unit_name name then
        match source with
        | None => Err SpiderError.Io
        | Some source => us ← insert_parsed name source us; load_entries entries us (loaded + 1)
        end
      else load_entries entries us loaded
  end.
Definition resolve_default (us : units) : option (result SpiderError.t StartupPlan.t) :=
  r ← resolve_startup_order us (str "default.target");
  Some match r with Ok plan => Ok plan | Err e => Err (SpiderError.Dependency e) end.

Definition required_dependency_failed (us : units) (name : text) : option text :=
  match us !! name with
  | None => None
  | Some unit => List.find (λ r, bool_decide (state_of us r = Some UnitState.Failed)) (requires unit)
  end.
Definition start_service (exec_start : text) (s : S) : (UnitState.t * text) * S :=
  match split_exec exec_start with
  | [] => ((UnitState.Failed, str "empty ExecStart"), s)
  | path :: args =>
      match spawn path args [] s with
      | (Ok pid, s) =>
          if is_stub then
            ((UnitState.Skipped, str "stubbed ExecStart=" ++ exec_start ++
                str "; no process executed (pid token Pid(" ++ str (pretty pid) ++ str "))"), s)
          else ((UnitState.Running, str "started with pid " ++ str (pretty pid)), s)
      | (Err error, s) => ((UnitState.Failed, SpawnError.to_string error), s)
      end
  end.
(** the state of the loop of [start_plan] *)
Record run : Type := mk { table : units; spawner : S; outcomes : list ServiceOutcome.t }.
Definition record (name : text) (state : UnitState.t) (message : text) (s : S) (r : run) : run :=
  mk (set_unit_state name state r.(table)) s (r.(outcomes) ++ [ServiceOutcome.mk name state message]).
Definition start_one (r : run) (name : text) : run :=
  match required_dependency_failed r.(table) name with
  | Some dep => record name UnitState.Failed (str "required dependency failed: " ++ dep) r.(spawner) r
  | None =>
      match r.(table) !! name with
      | None => record name UnitState.Failed (str "unit disappeared during startup") r.(spawner) r
      | Some loaded =>
          match loaded.(LoadedUnit.unit).(Unit.kind) with
          | UnitKind.Target => record name UnitState.Running (str "target reached") r.(spawner) r
          | UnitKind.Service =>
              match loaded.(LoadedUnit.service) with
              | Some service =>
                  let '((state, message), s) := start_service service.(ServiceUnit.exec_start) r.(spawner) in
                  record name state message s r
              | None => record name UnitState.Failed (str "service unit has no [Service] data") r.(spawner) r
              end
          | kind => record name UnitState.Skipped
                      (kind_name kind ++ str " units are reserved for a later Spider-rs milestone") r.(spawner) r
          end
      end
  end.
Definition start_plan (us : units) (plan : StartupPlan.t) (s : S) : run :=
  foldl start_one (mk us s []) plan.(StartupPlan.order).
End manager.
End SpiderManager.

(** ** start.rs: PID 1 supervises the dispatcher *)
Module Supervision.
Definition MAX_RESTARTS : Z := 3.
Section supervision.
Context {W : Type} `{!Syscalls W} (yield_now : W → W).
Definition say (message : string) (w : W) : W := sys_write 1 (str message) w.
(** a failure: [continue] while restarts are left *)
Definition failure (restarts : Z) (restarting failed : string) (w : W) : Z * W :=
  if restarts <? MAX_RESTARTS then (restarts + 1, say restarting w) else (restarts, yield_now (say failed w)).
(** one round of the loop of [spider_main]; [None] while the dispatcher has not ended *)
Definition DISPATCHER : text := str "/spider-rt/sbin/spider-rsd".
Definition supervise (st : Z * W) : option (Z * W) :=
  let '(restarts, w) := st in
  match sys_spawn DISPATCHER [DISPATCHER] (say "SPIDER-RSD [STARTING]
" w) with
  | (Ok pid, w) =>
      '(answer, w) ← sys_wait pid (say "SPIDER-RSD [RUNNING]
" w);
      Some match answer with
      | Ok 0 => (restarts, yield_now (say "SPIDER-RSD [EXITED: 0]
" w))
      | Ok _ => failure restarts "SPIDER-RSD [RESTARTING: failure]
" "SPIDER-RSD [FAILED: restart limit reached]
" w
      | Err _ => failure restarts "SPIDER-RSD [RESTARTING: wait failed]
" "SPIDER-RSD [FAILED: wait failed]
" w
      end
  | (Err _, w) => Some (failure restarts "SPIDER-RSD [RESTARTING: spawn failed]
" "SPIDER-RSD [FAILED: spawn syscall failed]
" w)
  end.
End supervision.
End Supervision.

(** ** lib.rs: the bootstrap heap *)
Module BootstrapAllocator.
Definition HEAP_SIZE : Z := 128 * 1024.
(** [alloc]: the offset of the block in the heap, or [None] for a null pointer, and the
    next free offset; a block of size zero is a dangling pointer, [Err align] *)
Definition alloc (size align next : Z) : result Z (option Z) * Z :=
  let align := Z.max align 1 in
  if size =? 0 then (Err align, next)
  else
    let aligned := Z.land (next + align - 1) (Z.lnot (align - 1)) in
    match checked_add 64 aligned size with
    | None => (Ok None, next)
    | Some end_ => if HEAP_SIZE <? end_ then (Ok None, next) else (Ok (Some aligned), end_)
    end.
End BootstrapAllocator.

(** ** The manager's runs *)
Import SpiderManager.
Section manager_safety.
Context {S : Type} `{!ProcessSpawner S}.
Implicit Types r : run (S := S).

Definition manager_state (kind : UnitKind.t) (s : UnitState.t) : Prop :=
  match kind with
  | UnitKind.Target => s = UnitState.Running
  | UnitKind.Service => s = UnitState.Running ∨ s = UnitState.Skipped ∨ s = UnitState.Failed
  | _ => s = UnitState.Skipped
  end.
Definition is_blocked r (name : text) : bool := bool_decide (is_Some (required_dependency_failed r.(table) name)).
Lemma start_service_state exec s : manager_state UnitKind.Service (start_service exec s).1.1.
Proof. unfold start_service. repeat case_match; cbn; auto. Qed.
Lemma start_one_spec r name : ∃ s m sp, start_one r name = record name s m sp r ∧
  (is_blocked r name = true → s = UnitState.Failed ∧ sp = r.(spawner)) ∧
  (is_blocked r name = false → ∀ u, r.(table) !! name = Some u → manager_state u.(LoadedUnit.unit).(Unit.kind) s).
Proof.
  unfold start_one, is_blocked. destruct (required_dependency_failed (table r) name) as [dep|]; [by eexists _, _, _|].
  destruct (table r !! name) as [u|] eqn:Eu; [|by eexists _, _, _].
  destruct (Unit.kind (LoadedUnit.unit u)) eqn:Ek;
    try (eexists _, _, _; split; [done|]; split; [done|]; intros _ u' [= <-]; by rewrite Ek).
  destruct (LoadedUnit.service u) as [service|].
  - pose proof (start_service_state (ServiceUnit.exec_start service) (spawner r)) as Hs.
    destruct (start_service _ _) as [[state message] s]. eexists _, _, _. split; [done|]. split; [done|].
    intros _ u' [= <-]. by rewrite Ek.
  - eexists _, _, _. split; [done|]. split; [done|]. intros _ u' [= <-]. rewrite Ek. cbn. auto.
Qed.
Lemma find_Some_elem {A} (p : A → bool) l : is_Some (List.find p l) ↔ ∃ x, x ∈ l ∧ p x = true.
Proof.
  split.
  - intros [x [H1 H2]%find_some]. exists x. split; [by apply list_elem_of_In|done].
  - intros (x & Hx%list_elem_of_In & Hp). destruct (List.find p l) eqn:E; [by eexists|].
    eapply find_none in E; [|exact Hx]. congruence.
Qed.
Lemma is_blocked_spec r n u : r.(table) !! n = Some u →
  is_blocked r n = true ↔ ∃ d, d ∈ requires u ∧ state_of r.(table) d = Some UnitState.Failed.
Proof.
  intros Hu. unfold is_blocked, required_dependency_failed. rewrite Hu, bool_decide_eq_true, find_Some_elem.
  by setoid_rewrite bool_decide_eq_true.
Qed.
Lemma rfold_foldl {A B E} (f : A → B → A) l a : rfold (E := E) (λ a b, Ok (f a b)) a l = Ok (foldl f a l).
Proof. revert a. induction l as [|x l IH]; intros a; [done|]. apply IH. Qed.

(** the outcomes list the units in order, with the states they end in *)
Definition reported (order : list text) r : Prop :=
  ServiceOutcome.name <$> r.(outcomes) = order ∧
  ∀ o s, o ∈ r.(outcomes) → state_of r.(table) o.(ServiceOutcome.name) = Some s → o.(ServiceOutcome.state) = s.
Lemma start_one_reported order r name : reported order r → name ∉ order → reported (order ++ [name]) (start_one r name).
Proof.
  intros [H1 H2] Hn. destruct (start_one_spec r name) as (s & m & sp & -> & _). split; cbn [record outcomes table].
  - by rewrite fmap_app, H1.
  - intros o st [Ho|Ho]%elem_of_app.
    + intros Hs. apply H2; [done|]. unfold state_of in *. rewrite set_unit_state_ne in Hs; [done|]. intros <-.
      apply Hn. rewrite <- H1. by apply list_elem_of_fmap_2.
    + apply list_elem_of_singleton in Ho as ->. cbn. unfold state_of, set_unit_state.
      destruct (table r !! name) eqn:E; [|by rewrite E]. rewrite lookup_insert_eq. by intros [= <-].
Qed.
Lemma start_all_reported l order r : reported order r → NoDup (order ++ l) → reported (order ++ l) (foldl start_one r l).
Proof.
  revert order r. induction l as [|n l IH]; intros order r Hr Hnd; [by rewrite app_nil_r|]. cbn [foldl].
  assert (order ++ n :: l = (order ++ [n]) ++ l) as E by by rewrite <- app_assoc. rewrite E in *. apply IH; [|done].
  apply start_one_reported; [done|]. intros Hin. apply NoDup_app in Hnd as (Hnd & _ & _).
  apply NoDup_app in Hnd as (_ & Hd & _). by apply (Hd n Hin), list_elem_of_here.
Qed.

(** The manager's report names the units of the plan in order, each with the state it
    ends in; a unit that requires a failed one is reported Failed; otherwise targets are
    Running, services Running, Skipped or Failed, and other units Skipped; units outside the
    plan keep their state. *)
Theorem manager_report us target plan s : resolve_startup_order us target = Some (Ok plan) →
  let r := start_plan us plan s in
  reported plan.(StartupPlan.order) r ∧
  (∀ n, n ∉ plan.(StartupPlan.order) → r.(table) !! n = us !! n) ∧
  Forall (λ n, unit_outcome (L := Empty_set) (λ _ u s _, manager_state u.(LoadedUnit.unit).(Unit.kind) s) us r.(table) n [])
    plan.(StartupPlan.order).
Proof.
  intros Er r. destruct (resolve_spec us target) as (q & Er' & Hq). rewrite Er in Er'. injection Er' as <-.
  destruct Hq as (_ & _ & Hnd & _). split.
  { apply (start_all_reported _ [] (mk us s [])); [|done]. split; [done|]. by intros o st ?%elem_of_nil. }
  destruct (plan_prefix (E := Empty_set) (L := Empty_set) table (λ _, []) (λ r n, Ok (start_one r n)) is_blocked
      (λ _ u s _, manager_state u.(LoadedUnit.unit).(Unit.kind) s)) with (d := mk us s []) (target := target) (plan := plan)
      (l := plan.(StartupPlan.order)) (rest := @nil text) (d' := r) as (H1 & dones & _ & H2); [| |done|by rewrite app_nil_r|by apply rfold_foldl|].
  - intros r0 n r1 [= <-]. destruct (start_one_spec r0 n) as (st & m & sp & -> & H1 & H2). exists st, []. naive_solver.
  - intros r0 n u Hu _. by apply is_blocked_spec.
  - split; [done|]. clear -H2. induction H2 as [|n c l dones Hn _ IH]; [done|]. constructor; [by destruct c|done].
Qed.
End manager_safety.

(** ** The bootstrap heap *)
Import BootstrapAllocator.
(** a sequence of allocations: the blocks handed out, with their sizes and alignments *)
Fixpoint alloc_all (requests : list (Z * Z)) (next : Z) : list (Z * Z * Z) * Z :=
  match requests with
  | [] => ([], next)
  | (size, align) :: requests =>
      let '(r, next) := alloc size align next in
      let '(blocks, next) := alloc_all requests next in
      (match r with Ok (Some offset) => (offset, size, align) :: blocks | _ => blocks end, next)
  end.
Lemma align_up_pow2 next k : 0 <= k → 0 <= next →
  let a := Z.land (next + 2 ^ k - 1) (Z.lnot (2 ^ k - 1)) in next <= a < next + 2 ^ k ∧ a mod 2 ^ k = 0.
Proof.
  intros Hk Hn a. assert (a = (next + 2 ^ k - 1) / 2 ^ k * 2 ^ k) as ->.
  { unfold a. replace (2 ^ k - 1) with (Z.ones k) by (rewrite Z.ones_equiv; lia). rewrite <- Z.ldiff_land, Z.ldiff_ones_r by done.
    rewrite Z.shiftl_mul_pow2, Z.shiftr_div_pow2 by done. done. }
  pose proof (Z.pow_pos_nonneg 2 k ltac:(lia) Hk). split; [|apply Z.mod_mul; lia].
  pose proof (Z.div_mod (next + 2 ^ k - 1) (2 ^ k) ltac:(lia)). pose proof (Z.mod_pos_bound (next + 2 ^ k - 1) (2 ^ k) ltac:(lia)). nia.
Qed.
Definition request_ok (r : Z * Z) : Prop := 0 <= r.1 ∧ ∃ k, 0 <= k ∧ r.2 = 2 ^ k.
Lemma alloc_all_spec requests next : Forall request_ok requests → 0 <= next <= HEAP_SIZE →
  let '(blocks, next') := alloc_all requests next in
  next <= next' <= HEAP_SIZE ∧
  Forall (λ b, next <= b.1.1 ∧ b.1.1 + b.1.2 <= next' ∧ 0 < b.1.2 ∧ b.1.1 mod b.2 = 0) blocks ∧
  ForallOrdPairs (λ b c, b.1.1 + b.1.2 <= c.1.1) blocks.
Proof.
  intros Hr. revert next. induction Hr as [|[size align] requests [Hs (k & Hk & Ha)] Hr IH]; intros next Hn; cbn [alloc_all].
  { split; [lia|]. split; constructor. }
  cbn in Hs, Ha. subst align. unfold alloc. pose proof (Z.pow_pos_nonneg 2 k ltac:(lia) Hk) as Hp. rewrite (Z.max_l (2 ^ k) 1) by lia.
  destruct (Z.eqb_spec size 0) as [->|Hne].
  { specialize (IH next Hn). by destruct (alloc_all requests next). }
  destruct (align_up_pow2 next k Hk ltac:(lia)) as [Hb Hm]. set (a := Z.land _ _) in *.
  destruct (checked_add 64 a size) as [e|] eqn:Ec; [|specialize (IH next Hn); by destruct (alloc_all requests next)].
  apply checked_add_Some in Ec as [-> _]. destruct (Z.ltb_spec HEAP_SIZE (a + size)) as [Hlt|Hge].
  { specialize (IH next Hn). by destruct (alloc_all requests next). }
  specialize (IH (a + size) ltac:(lia)). destruct (alloc_all requests (a + size)) as [blocks next'].
  destruct IH as (H1 & H2 & H3). split; [lia|]. split.
  - constructor; [cbn; split_and!; lia|]. eapply Forall_impl; [exact H2|]. intros [[o s] al]. cbn. lia.
  - constructor; [|done]. eapply Forall_impl; [exact H2|]. intros [[o s] al]. cbn. lia.
Qed.

(** Over any sequence of allocations with power-of-two alignments, the bootstrap heap
    hands out blocks that lie inside the heap, do not overlap, and start at offsets that
    are multiples of their alignments. *)
Theorem bootstrap_blocks_apart requests : Forall request_ok requests →
  Forall (λ b, 0 <= b.1.1 ∧ b.1.1 + b.1.2 <= HEAP_SIZE ∧ b.1.1 mod b.2 = 0) (alloc_all requests 0).1 ∧
  ForallOrdPairs (λ b c, b.1.1 + b.1.2 <= c.1.1) (alloc_all requests 0).1.
Proof.
  intros Hr. pose proof (alloc_all_spec requests 0 Hr ltac:(unfold HEAP_SIZE; lia)) as H.
  destruct (alloc_all requests 0) as [blocks next']. destruct H as (H1 & H2 & H3). split; [|done].
  eapply Forall_impl; [exact H2|]. intros b (? & ? & ? & ?). lia.
Qed.

(** ** Supervision *)
Import Supervision.
Definition spawns {W} (s : Traced.t W) : nat :=
  length (List.filter (λ c, match c with Call.Spawn _ _ _ => true | _ => false end) s.(Traced.trace)).
Lemma spawns_after {W} c (w : W) s : spawns (Traced.after c w s) = (spawns s + match c with Call.Spawn _ _ _ => 1 | _ => 0 end)%nat.
Proof. unfold spawns. cbn. rewrite List.filter_app, length_app. by destruct c. Qed.
(** After three failures the loop reports that the restart limit is reached, and then starts
    the dispatcher again like before: over [n] rounds it is spawned [n] times. *)
Lemma restart_limit_never_stops {W} `{!Syscalls W} n (w : W) st :
  Nat.iter n (λ o, st ← o; supervise (λ s, s) st) (Some (0, Traced.mk w [])) = Some st → spawns st.2 = n.
Proof.
  revert st. induction n as [|n IH]; intros st; [by intros [= <-]|]. rewrite Nat.iter_succ. intros ([restarts s] & E & H)%bind_Some.
  specialize (IH _ E). cbn in IH. subst n. clear E. unfold supervise, failure, say in H. cbn [sys_spawn Traced.calls] in H.
  destruct (sys_spawn _ _ _) as [[pid|e] w1].
  - apply bind_Some in H as ([answer s2] & Hw & H). cbn in Hw. destruct (sys_wait _ _) as [[a w2]|]; [|done]. injection Hw as <- <-.
    destruct a as [[| |]|]; injection H as <-; try destruct (restarts <? MAX_RESTARTS); cbn [snd sys_write Traced.calls]; rewrite !spawns_after; lia.
  - injection H as <-. destruct (restarts <? MAX_RESTARTS); cbn [snd sys_write Traced.calls]; rewrite !spawns_after; lia.
Qed.
Lemma restart_limit_example : fst <$> Nat.iter 5 (λ o, st ← o; supervise (λ s, s) st) (Some (0, mock_start (Some 1))) = Some 3.
Proof. by vm_compute. Qed.

Lemma manager_report_witness : reported [str "basic.target"; str "m1-terminal.service"; str "default.target"]
  (start_plan builtin_units (StartupPlan.mk (str "default.target")
     [str "basic.target"; str "m1-terminal.service"; str "default.target"]) ([] : list text)).
Proof. exact (proj1 (manager_report builtin_units (str "default.target") _ ([] : list text) builtin_plan)). Defined.
Lemma bootstrap_blocks_apart_witness : (alloc_all [(3, 1); (8, 8); (0, 4); (131072, 1); (16, 16)] 0).1 = [(0, 3, 1); (8, 8, 8); (16, 16, 16)] ∧
  Forall (λ b, 0 <= b.1.1 ∧ b.1.1 + b.1.2 <= HEAP_SIZE ∧ b.1.1 mod b.2 = 0) (alloc_all [(3, 1); (8, 8); (0, 4); (131072, 1); (16, 16)] 0).1.
Proof.
  split; [by vm_compute|]. apply (bootstrap_blocks_apart [(3, 1); (8, 8); (0, 4); (131072, 1); (16, 16)]).
  repeat constructor; cbn; try lia; [exists 0|exists 3|exists 2|exists 0|exists 4]; lia.
Defined.
