(* ===== verification/UserMemory.v ===== *)
(** * User pointers

    How the kernel core (src/src/kernel/mod.rs) follows the pointers a system call passes:
    alignment and range checks, translation through the mappings of the active address
    space, values, strings and vectors.  Before paging is installed, or with no active
    address space, pointers are used as they are; [AddressSpaces] has the memory they lead
    to.  [user_view] is the part of this that [KernelCore] takes as an argument.

    [user_string_read] says what string is read, and that it lies in one mapping of the
    active address space. *)

From stdpp Require Import prelude gmap.
From S2P Require Import Prelude Bytes Slots Subkernel Vfs Process Abi KernelCore FrameAllocator Paging KernelHeap MemoryManager AddressSpaces FrameSafety PagingSafety PagingFrames PagingTheorems KernelHeapSafety MemoryManagerSafety MemoryTheorems AddressSpaceSafety AddressSpaceTheorems.
Import AddressSpaces.

Local Open Scope Z_scope.

Definition USER_CANONICAL_LIMIT : Z := 0x800000000000.
Definition MAX_EXEC_ARGS : nat := 64.
Definition MAX_EXEC_ENVS : nat := 64.

Section user_memory.
Context {F : Type}.
Implicit Types s : AddressSpaces.t F.
Abbreviation Res := (result KernelError.t).

Definition active_user_root s : Z := (paging s).(Paging.current_address_space_root).
(** [!x86_64::paging::installed() || active_user_root() == 0] *)
Definition untranslated s : bool := negb (paging s).(Paging.installed) || (active_user_root s =? 0).

Definition validate_user_access s (ptr len : Z) (write : bool) : Res unit :=
  if len =? 0 then Ok tt
  else if ptr =? 0 then Err KernelError.InvalidPointer
  else
    match checked_add 64 ptr len with
    | None => Err KernelError.InvalidPointer
    | Some end_ =>
        if negb ((ptr <=? end_) && (end_ <=? USER_CANONICAL_LIMIT)) then Err KernelError.InvalidPointer
        else if untranslated s then Ok tt
        else if negb (AddressSpaces.validate_user_range s (active_user_root s) ptr len write)
        then Err KernelError.InvalidPointer else Ok tt
    end.
Definition validate_user_range s (ptr len : Z) : Res unit := validate_user_access s ptr len false.

(** [NonNull::dangling] is the address 1 *)
Definition user_translated_ptr s (ptr len : Z) (write : bool) : Res Z :=
  _ ← validate_user_access s ptr len write;
  if len =? 0 then Ok 1
  else if untranslated s then (if ptr =? 0 then Err KernelError.InvalidPointer else Ok ptr)
  else ok_or (active_translated_slice s (active_user_root s) ptr len write) KernelError.InvalidPointer.

(** a slice is its address and its number of elements *)
Definition user_slice s (ptr len : Z) : Res (Z * Z) :=
  translated ← user_translated_ptr s ptr len false;
  Ok (if len =? 0 then (1, 0) else (translated, len)).
Definition user_slice_mut s (ptr len : Z) : Res (Z * Z) :=
  translated ← user_translated_ptr s ptr len true;
  Ok (if len =? 0 then (1, 0) else (translated, len)).

Definition is_aligned (align ptr : Z) : bool := ptr mod align =? 0.
(** slices of a type of the given size and alignment *)
Definition user_slice_of s (size align ptr count : Z) (write : bool) : Res (Z * Z) :=
  byte_len ← ok_or (checked_mul 64 count size) KernelError.InvalidPointer;
  if count =? 0 then Ok (align, 0)
  else if negb (is_aligned align ptr) then Err KernelError.InvalidPointer
  else
    translated ← user_translated_ptr s ptr byte_len write;
    if negb (is_aligned align translated) then Err KernelError.InvalidPointer
    else Ok (translated, count).
Definition user_slice_typed s (size align ptr count : Z) : Res (Z * Z) := user_slice_of s size align ptr count false.
Definition user_slice_mut_typed s (size align ptr count : Z) : Res (Z * Z) := user_slice_of s size align ptr count true.
Definition user_out_ptr s (size align ptr : Z) : Res Z :=
  if negb (is_aligned align ptr) then Err KernelError.InvalidPointer
  else
    translated ← user_translated_ptr s ptr size true;
    if negb (is_aligned align translated) then Err KernelError.InvalidPointer else Ok translated.

(** the bytes of a value *)
Definition read_user_value s (size : nat) (align ptr : Z) : Res (list Z) :=
  if negb (is_aligned align ptr) then Err KernelError.InvalidPointer
  else if untranslated s then Ok (load s.(manager).(MemoryManager.bytes) ptr size)
  else
    match copy_from_user s (active_user_root s) ptr (replicate size 0) with
    | (true, out) => Ok out
    | (false, _) => Err KernelError.InvalidPointer
    end.
Definition read_user_u64 s (ptr : Z) : Res Z :=
  bytes ← read_user_value s 8 8 ptr; Ok (from_le_bytes bytes).
Definition write_user_value s (align ptr : Z) (input : list Z) : Res unit * AddressSpaces.t F :=
  if negb (is_aligned align ptr) then (Err KernelError.InvalidPointer, s)
  else if untranslated s then
    (Ok tt, write_memory ptr input s)
  else
    match copy_to_user s (active_user_root s) ptr input with
    | (true, s') => (Ok tt, s')
    | (false, s') => (Err KernelError.InvalidPointer, s')
    end.

(** ** Strings *)
Definition user_byte s (ptr : Z) : Res Z :=
  if untranslated s then Ok (default 0 (s.(manager).(MemoryManager.bytes) !! ptr))
  else
    match copy_from_user s (active_user_root s) ptr [0] with
    | (true, [b]) => Ok b
    | _ => Err KernelError.InvalidPointer
    end.
(** [while len <= MAX_PATH_BYTES]; [ptr + len] wraps around in a release build, a debug build
    would panic *)
Fixpoint cstr_from s (ptr len : Z) (left_ : nat) : Res (Z * Z) :=
  match left_ with
  | O => Err (KernelError.Filesystem (VfsError.InvalidPath PathError.TooLong))
  | S left_ =>
      b ← user_byte s (wrap_add 64 ptr len);
      if b =? 0 then user_slice s ptr len else cstr_from s ptr (len + 1) left_
  end.
Definition user_cstr s (ptr : Z) : Res (Z * Z) :=
  _ ← validate_user_range s ptr 1;
  cstr_from s ptr 0 (Process.MAX_PATH_BYTES + 1).
(** the bytes behind a slice *)
Definition slice_bytes s (sl : Z * Z) : list Z := load s.(manager).(MemoryManager.bytes) sl.1 (Z.to_nat sl.2).
Definition user_path_str s (ptr : Z) : Res (list Z) :=
  sl ← user_cstr s ptr;
  let bytes := slice_bytes s sl in
  if utf8_valid bytes then Ok bytes else Err KernelError.InvalidArgument.
Definition user_path s (ptr : Z) : Res (list Z) :=
  raw ← user_path_str s ptr;
  match path_new raw with
  | Ok p => Ok p
  | Err e => Err (KernelError.Filesystem (VfsError.InvalidPath e))
  end.

(** ** Vectors *)
(** [while count < entries.len()] *)
Fixpoint count_entries (entries : list Z) (count : Z) : option Z :=
  match entries with
  | [] => None
  | e :: entries' => if e =? 0 then Some count else count_entries entries' (count + 1)
  end.
Definition slice_u64 s (sl : Z * Z) : list Z :=
  (λ i, from_le_bytes (load s.(manager).(MemoryManager.bytes) (sl.1 + 8 * i) 8)) <$> seqZ 0 sl.2.
Definition exec_vector_metadata s (ptr max_entries : Z) : Res ExecVectorMetadata.t :=
  if ptr =? 0 then Ok ExecVectorMetadata.empty
  else
    entries ← user_slice_typed s 8 8 ptr (max_entries + 1);
    Ok (match count_entries (slice_u64 s entries) 0 with
        | Some count => ExecVectorMetadata.new ptr count false
        | None => ExecVectorMetadata.new ptr max_entries true
        end).
Definition exec_vector_metadata_with_count s (base count max : Z) : Res ExecVectorMetadata.t :=
  if max <? count then Err KernelError.InvalidArgument
  else if count =? 0 then Ok ExecVectorMetadata.empty
  else
    bytes ← ok_or (checked_mul 64 count 8) KernelError.InvalidArgument;
    _ ← validate_user_range s base bytes;
    Ok (ExecVectorMetadata.new base count false).

(** ** What the kernel core sees *)
Definition to_signed (w v : Z) : Z := if v <? 2 ^ (w - 1) then v else v - 2 ^ w.
Definition user_view s : UserAccess.t := UserAccess.mk
  (λ ptr, _ ← user_out_ptr s 4 4 ptr; Ok tt)
  (λ ptr, bytes ← read_user_value s 4 4 ptr; Ok (to_signed 32 (from_le_bytes bytes)))
  (λ ptr, bytes ← read_user_value s 16 8 ptr;
          Ok (MirageTimespec.mk (to_signed 64 (from_le_bytes (slice 0 8 bytes)))
                (to_signed 64 (from_le_bytes (slice 8 8 bytes))))).
End user_memory.

(** ** What is read *)
Section reading.
Context {F : Type}.
Implicit Types s : AddressSpaces.t F.

(** a checked pointer leads into one mapping of the active address space *)
Lemma translated_mapping s ptr len write a : len ≠ 0 →
  active_translated_slice s (active_user_root s) ptr len write = Some a →
  ∃ m, Some m ∈ s.(mappings) ∧ holds_range m (active_user_root s) ptr len write ∧
    a = m.(UserMappingRecord.kernel_start) + (ptr - m.(UserMappingRecord.user_start)).
Proof.
  intros Hl Ha. unfold active_translated_slice in Ha. rewrite (proj2 (Z.eqb_neq _ _)) in Ha by done.
  destruct (slot_find _ s.(mappings)) as [m|] eqn:Hm; [|done]. cbn in Ha. destruct (_ =? 0); [done|]. injection Ha as <-.
  apply slot_find_Some in Hm as [Hc%contains_holds Hin]. exists m. split_and!; [done|done|].
  destruct Hc as (_ & _ & Hc & _). unfold sat_sub. by rewrite Z.max_l by lia.
Qed.
(** mappings that share an address are the same *)
Lemma mapping_unique s root a r q : mappings_apart s root → Some r ∈ s.(mappings) → Some q ∈ s.(mappings) →
  holds_range r root a 1 false → holds_range q root a 1 false → r = q.
Proof.
  intros Hap [i Hi]%list_elem_of_lookup [j Hj]%list_elem_of_lookup (R1 & _ & R2 & R3) (Q1 & _ & Q2 & Q3).
  destruct (decide (i = j)) as [->|Hne]; [congruence|]. exfalso. apply (Hap i j r q Hi Hj Hne R1 Q1 a). unfold within. cbn. lia.
Qed.
Lemma user_byte_mapping s ptr b : untranslated s = false → user_byte s ptr = Ok b →
  ∃ m, Some m ∈ s.(mappings) ∧ holds_range m (active_user_root s) ptr 1 false ∧
    b = sbyte s (m.(UserMappingRecord.kernel_start) + (ptr - m.(UserMappingRecord.user_start))).
Proof.
  intros Hu Hb. unfold user_byte, copy_from_user in Hb. rewrite Hu in Hb. cbn [length] in Hb. change (Z.of_nat 1) with 1 in Hb.
  destruct (active_translated_slice _ _ _ _ _) as [a|] eqn:Ha; [|done]. apply translated_mapping in Ha as (m & Hin & Hh & ->); [|done].
  exists m. split_and!; [done|done|]. cbn in Hb. injection Hb as <-. unfold sbyte, byte. by rewrite Z.add_0_r.
Qed.
(** the bytes from [ptr] on, [n] of them, are there and none is null *)
Definition text_at s (ptr n : Z) : Prop := ∀ o, 0 <= o < n → ∃ b, user_byte s (ptr + o) = Ok b ∧ b ≠ 0.
(** the range leads to [a]: directly, or through one mapping of the active address space *)
Definition leads_to s (ptr len a : Z) : Prop :=
  ptr + len <= USER_CANONICAL_LIMIT ∧ a ≠ 0 ∧
  if untranslated s then a = ptr
  else ∃ m, Some m ∈ s.(mappings) ∧ holds_range m (active_user_root s) ptr len false ∧
    a = m.(UserMappingRecord.kernel_start) + (ptr - m.(UserMappingRecord.user_start)).
Definition too_long : KernelError.t := KernelError.Filesystem (VfsError.InvalidPath PathError.TooLong).
Lemma user_byte_error s ptr e : user_byte s ptr = Err e → e = KernelError.InvalidPointer.
Proof.
  unfold user_byte. destruct (untranslated s); [done|]. destruct (copy_from_user _ _ _ _) as [[] [|b [|]]]; congruence.
Qed.
Lemma cstr_from_spec s ptr n : ∀ len, 0 <= len → ptr + len + Z.of_nat n <= umax 64 → 0 <= ptr → text_at s ptr len →
  match cstr_from s ptr len n with
  | Ok sl => ∃ len', len <= len' < len + Z.of_nat n ∧ text_at s ptr len' ∧ user_byte s (ptr + len') = Ok 0 ∧ user_slice s ptr len' = Ok sl
  | Err e => (e = too_long ∧ text_at s ptr (len + Z.of_nat n)) ∨
      ∃ len', len <= len' < len + Z.of_nat n ∧ text_at s ptr len' ∧
        (e = KernelError.InvalidPointer ∧ user_byte s (ptr + len') = Err e ∨
         user_byte s (ptr + len') = Ok 0 ∧ user_slice s ptr len' = Err e)
  end.
Proof.
  induction n as [|n IH]; intros len Hl Hm Hp Ht; cbn [cstr_from].
  { left. by rewrite Z.add_0_r. }
  rewrite wrap_add_small by lia. destruct (user_byte s (ptr + len)) as [b|e] eqn:Eb; cbn [mbind result_bind].
  2:{ right. exists len. pose proof (user_byte_error _ _ _ Eb) as ->. split_and!; [lia|lia|done|by left]. }
  destruct (Z.eqb_spec b 0) as [->|Hne].
  { destruct (user_slice s ptr len) as [sl|e] eqn:Es; [exists len; split_and!; [lia|lia|done..]|].
    right. exists len. split_and!; [lia|lia|done|by right]. }
  assert (text_at s ptr (len + 1)) as Ht'.
  { intros o Ho. destruct (decide (o = len)) as [->|]; [by exists b|]. apply Ht. lia. }
  specialize (IH (len + 1) ltac:(lia) ltac:(lia) Hp Ht'). destruct (cstr_from s ptr (len + 1) n) as [sl|e].
  - destruct IH as (len' & ? & ?). exists len'. split; [lia|done].
  - destruct IH as [[-> H]|(len' & ? & ?)].
    + left. split; [done|]. by replace (len + Z.of_nat (S n)) with (len + 1 + Z.of_nat n) by lia.
    + right. exists len'. split; [lia|done].
Qed.
Lemma holds_contains r root ptr len write : holds_range r root ptr len write → 0 <= len → 0 <= ptr → ptr + len <= umax 64 →
  UserMappingRecord.contains r root ptr len write = true.
Proof.
  intros (H1 & H2 & H3 & H4) Hl Hp Hm. unfold UserMappingRecord.contains. rewrite (proj2 (Z.eqb_eq _ _) H1). cbn [negb orb].
  assert (write && negb r.(UserMappingRecord.protection).(MemoryProtection.write) = false) as ->.
  { destruct write; [|done]. by rewrite H2. }
  assert (checked_add 64 ptr len = Some (ptr + len)) as -> by (by apply checked_add_Some).
  unfold sat_add. apply andb_true_iff. split; apply Z.leb_le; lia.
Qed.
(** a checked range leads somewhere, and the check fails only when it does not *)
Lemma user_translated_spec s ptr len : 0 < len → 0 <= ptr → (untranslated s = true ∨ mappings_apart s (active_user_root s)) →
  match user_translated_ptr s ptr len false with
  | Ok a => ptr ≠ 0 ∧ leads_to s ptr len a
  | Err e => e = KernelError.InvalidPointer ∧ (ptr = 0 ∨ ∀ a, ¬ leads_to s ptr len a)
  end.
Proof.
  intros Hl Hp Hap. unfold user_translated_ptr, validate_user_access, leads_to. rewrite (proj2 (Z.eqb_neq len 0)) by lia.
  destruct (Z.eqb_spec ptr 0) as [->|Hp0]; [cbn; auto|].
  destruct (checked_add 64 ptr len) as [e|] eqn:Ee.
  2:{ cbn. split; [done|]. right. intros a [Hlim _]. assert (checked_add 64 ptr len = Some (ptr + len)); [|congruence].
      apply checked_add_Some. unfold umax, USER_CANONICAL_LIMIT in *. lia. }
  apply checked_add_Some in Ee as [-> Hm]. rewrite (proj2 (Z.leb_le ptr (ptr + len))) by lia. cbn [andb].
  destruct (Z.leb_spec (ptr + len) USER_CANONICAL_LIMIT) as [Hlim|Hlim]; cbn [negb].
  2:{ cbn. split; [done|]. right. intros a [? _]. lia. }
  destruct (untranslated s) eqn:Hu; [cbn; by split_and!|].
  destruct Hap as [Hap|Hap]; [done|]. unfold AddressSpaces.validate_user_range. rewrite (proj2 (Z.eqb_neq len 0)) by lia.
  destruct (active_translated_slice s (active_user_root s) ptr len false) as [a|] eqn:Ea.
  - rewrite bool_decide_eq_true_2 by by eexists. cbn. pose proof Ea as (m & Hin & Hh & E)%translated_mapping; [|lia]. split_and!; [done|done| |by exists m].
    unfold active_translated_slice in Ea. rewrite (proj2 (Z.eqb_neq len 0)) in Ea by lia. destruct (slot_find _ _) as [q|]; [|done]. cbn in Ea.
    destruct (Z.eqb_spec (q.(UserMappingRecord.kernel_start) + sat_sub ptr q.(UserMappingRecord.user_start)) 0); [done|]. congruence.
  - rewrite bool_decide_eq_false_2 by by intros [? ?]. cbn. split; [done|]. right. intros a (_ & Ha & m & Hin & Hh & ->).
    unfold active_translated_slice in Ea. rewrite (proj2 (Z.eqb_neq len 0)) in Ea by lia.
    pose proof (holds_contains _ _ _ _ _ Hh ltac:(lia) Hp ltac:(lia)) as Hc.
    destruct (slot_find _ s.(mappings)) as [q|] eqn:Eq.
    + apply slot_find_Some in Eq as [Hcq%contains_holds Hinq]. assert (q = m) as ->.
      { eapply (mapping_unique s (active_user_root s) ptr); [done|done|done|..];
          [destruct Hcq as (G1 & G2 & G3 & G4)|destruct Hh as (G1 & G2 & G3 & G4)]; split_and!; (done || lia). }
      cbn in Ea. destruct Hh as (_ & _ & H3 & _). unfold sat_sub in Ea. rewrite Z.max_l in Ea by lia.
      by rewrite (proj2 (Z.eqb_neq _ 0)) in Ea.
    + rewrite slot_find_None in Eq. specialize (Eq _ Hin). congruence.
Qed.
Lemma user_slice_spec s ptr len : 0 <= len → 0 <= ptr → (untranslated s = true ∨ mappings_apart s (active_user_root s)) →
  match user_slice s ptr len with
  | Ok sl => sl.2 = len ∧ (0 < len → leads_to s ptr len sl.1)
  | Err e => e = KernelError.InvalidPointer ∧ 0 < len ∧ (ptr = 0 ∨ ∀ a, ¬ leads_to s ptr len a)
  end.
Proof.
  intros Hl Hp Hap. unfold user_slice. destruct (decide (len = 0)) as [->|Hl0]; [cbn; split; [done|lia]|].
  pose proof (user_translated_spec s ptr len ltac:(lia) Hp Hap) as H. rewrite (proj2 (Z.eqb_neq len 0)) by lia.
  destruct (user_translated_ptr s ptr len false) as [a|e]; cbn; [destruct H; by split|]. destruct H. split_and!; [done|lia|done].
Qed.
(** one byte, on its own and as part of a range that leads to [a] *)
Lemma user_byte_leads s ptr len a o b : (untranslated s = true ∨ mappings_apart s (active_user_root s)) →
  leads_to s ptr len a → 0 <= o < len → user_byte s (ptr + o) = Ok b → b = default 0 (s.(manager).(MemoryManager.bytes) !! (a + o)).
Proof.
  intros Hap (_ & _ & Ha) Ho Hb. destruct (untranslated s) eqn:Hu.
  { subst a. unfold user_byte in Hb. rewrite Hu in Hb. by injection Hb. }
  destruct Hap as [|Hap]; [done|]. destruct Ha as (m & Hin & Hh & ->). destruct (user_byte_mapping s _ _ Hu Hb) as (q & Hq & Hhq & ->).
  assert (m = q) as ->.
  { eapply mapping_unique; [exact Hap|exact Hin|exact Hq| |exact Hhq]. destruct Hh as (G1 & G2 & G3 & G4). split_and!; [done|done|lia|lia]. }
  unfold sbyte, byte. do 2 f_equal. lia.
Qed.
End reading.

(** C29: What reading a string through a user pointer gives, when the recorded mappings of
    the active address space do not overlap.  On success it is a string of at most 128 bytes,
    none of them null, each the byte that reading this address alone gives, with a null byte
    behind them; if it is not empty it ends in the user half, and what is read is memory
    behind the pointer itself when user pointers are not translated (paging is not installed
    or no address space is active), and otherwise memory behind a single recorded mapping of
    the active address space.  The call fails only when the pointer is null or not in the
    user half, when one of the bytes up to the null byte cannot be read, when the string
    as a whole does not lead to one place in this way, or when its first 129 bytes hold no
    null byte. *)
Theorem user_string_read {F : Type} (s : AddressSpaces.t F) ptr :
  0 <= ptr → untranslated s = true ∨ mappings_apart s (active_user_root s) →
  match user_cstr s ptr with
  | Ok sl =>
      let bytes := slice_bytes s sl in
      (length bytes <= 128)%nat ∧ (0 ∉ bytes) ∧
      (∀ i b, bytes !! i = Some b → user_byte s (ptr + Z.of_nat i) = Ok b) ∧
      user_byte s (ptr + Z.of_nat (length bytes)) = Ok 0 ∧
      (bytes ≠ [] → leads_to s ptr (Z.of_nat (length bytes)) sl.1)
  | Err e =>
      e = too_long ∧ text_at s ptr 129 ∨
      e = KernelError.InvalidPointer ∧
        (ptr = 0 ∨ USER_CANONICAL_LIMIT <= ptr ∨
         ∃ n, 0 <= n <= 128 ∧ text_at s ptr n ∧
           (user_byte s (ptr + n) = Err KernelError.InvalidPointer ∨
            user_byte s (ptr + n) = Ok 0 ∧ 0 < n ∧ ∀ a, ¬ leads_to s ptr n a))
  end.
Proof.
  intros Hptr Hap. unfold user_cstr, UserMemory.validate_user_range.
  destruct (validate_user_access s ptr 1 false) as [[]|e] eqn:Hv; cbn [mbind result_bind].
  2:{ right. pose proof (user_translated_spec s ptr 1 ltac:(lia) Hptr Hap) as H. unfold user_translated_ptr in H. rewrite Hv in H.
      destruct H as [-> Hno]. split; [done|]. destruct (decide (ptr = 0)) as [|Hp0]; [by left|]. destruct Hno as [|Hno]; [done|].
      destruct (Z_lt_le_dec ptr USER_CANONICAL_LIMIT) as [Hlt|]; [|by right; left]. right. right. exists 0. split_and!; [lia|lia|intros o ?; lia|].
      left. rewrite Z.add_0_r. destruct (user_byte s ptr) as [b|e] eqn:Eb; [|by rewrite (user_byte_error _ _ _ Eb)]. exfalso.
      unfold validate_user_access in Hv. cbn [Z.eqb] in Hv. rewrite (proj2 (Z.eqb_neq ptr 0)) in Hv by done.
      assert (checked_add 64 ptr 1 = Some (ptr + 1)) as Ec by (apply checked_add_Some; unfold umax, USER_CANONICAL_LIMIT in *; lia).
      rewrite Ec, (proj2 (Z.leb_le _ _)), (proj2 (Z.leb_le _ _)) in Hv by lia. cbn [andb negb] in Hv.
      unfold user_byte, copy_from_user in Eb. destruct (untranslated s); [done|]. cbn [length] in Eb. change (Z.of_nat 1) with 1 in Eb.
      unfold AddressSpaces.validate_user_range in Hv. cbn [Z.eqb] in Hv.
      destruct (active_translated_slice _ _ _ _ _); [|done]. by rewrite bool_decide_eq_true_2 in Hv by by eexists. }
  assert (ptr < USER_CANONICAL_LIMIT) as Hlim.
  { unfold validate_user_access in Hv. cbn in Hv. destruct (ptr =? 0); [done|].
    destruct (checked_add 64 ptr 1) as [e|] eqn:Ee; [|done]. apply checked_add_Some in Ee as [-> _].
    destruct (Z.leb_spec (ptr + 1) USER_CANONICAL_LIMIT); [lia|]. by rewrite andb_false_r in Hv. }
  pose proof (cstr_from_spec s ptr (Process.MAX_PATH_BYTES + 1) 0 ltac:(lia)) as Hc.
  change (0 + Z.of_nat (Process.MAX_PATH_BYTES + 1)) with 129 in Hc. change (Z.of_nat (Process.MAX_PATH_BYTES + 1)) with 129 in Hc.
  specialize (Hc ltac:(unfold umax, USER_CANONICAL_LIMIT in *; lia) Hptr ltac:(intros o ?; lia)).
  destruct (cstr_from s ptr 0 _) as [sl|e].
  2:{ destruct Hc as [[-> Ht]|(n & Hn & Ht & [[-> He]|[H0 Hs]])]; [by left|..]; right.
      - split; [done|]. right. right. exists n. split_and!; [lia|lia|done|by left].
      - pose proof (user_slice_spec s ptr n ltac:(lia) Hptr Hap) as H. rewrite Hs in H. destruct H as (-> & Hpos & Hno). split; [done|].
        destruct Hno as [|Hno]; [by left|]. right. right. exists n. split_and!; [lia|lia|done|by right]. }
  destruct Hc as (len & Hl & Ht & H0 & Hs). pose proof (user_slice_spec s ptr len ltac:(lia) Hptr Hap) as H. rewrite Hs in H.
  destruct H as [El Hleads]. set (bytes := slice_bytes s sl).
  assert (Z.of_nat (length bytes) = len) as Elen by (unfold bytes, slice_bytes, load; rewrite length_fmap, length_seqZ; lia).
  assert (∀ i b, bytes !! i = Some b → user_byte s (ptr + Z.of_nat i) = Ok b ∧ b ≠ 0) as Hall.
  { intros i b Hb. pose proof (lookup_lt_Some _ _ _ Hb) as Hi. destruct (Ht (Z.of_nat i) ltac:(lia)) as (b' & Hb' & Hn0).
    assert (b = b') as ->; [|done]. rewrite (user_byte_leads s ptr len sl.1 (Z.of_nat i) b' Hap (Hleads ltac:(lia)) ltac:(lia) Hb').
    unfold bytes, slice_bytes, load in Hb. rewrite list_lookup_fmap, lookup_seqZ_lt in Hb by lia. injection Hb as <-. by rewrite Z.add_0_l. }
  split_and!.
  - lia.
  - intros [i Hi]%list_elem_of_lookup. by destruct (Hall i 0 Hi).
  - intros i b Hb. by apply Hall.
  - by rewrite Elen.
  - intros Hnil. rewrite Elen. apply Hleads. destruct bytes; [done|cbn in Elen; lia].
Qed.

(** ** Example *)
(** the caller's vector: one pointer, to a string behind it *)
Definition exec_memory : AddressSpaces.t PhysicalFrameAllocator.t :=
  run_space 0 4096 65536 (SpaceCall.Switch space_root)
    (run_space 0 4096 65536 (SpaceCall.CopyToUser space_root 4194304 (to_le_bytes 8 4194320 ++ replicate 8 0 ++ [104; 105; 0]))
       space_mapped).
Lemma exec_memory_mapping : occupied exec_memory.(mappings) = [UserMappingRecord.mk 7 space_root 4194304 KERNEL_HEAP_BASE 8192 demo_rw].
Proof. by vm_compute. Qed.
Lemma exec_memory_reachable : demo_reachable exec_memory.
Proof.
  apply space_call; [|done]. apply space_call; [|done]. apply space_call; [apply space_created_reachable|]. split; [apply space_created_root|done].
Qed.
Lemma one_mapping_apart {F} (s : AddressSpaces.t F) root m : occupied s.(mappings) = [m] → mappings_apart s root.
Proof.
  intros E i j r q Hi Hj Hne _ _. exfalso. pose proof (occupied_remove _ _ _ Hi) as Hp. rewrite E in Hp.
  assert (<[i := None]> s.(mappings) !! j = Some (Some q)) as Hj' by by rewrite list_lookup_insert_ne.
  pose proof (occupied_remove _ _ _ Hj') as Hp2. rewrite Hp2 in Hp. apply Permutation_length in Hp. cbn [length] in Hp. lia.
Qed.
Lemma user_string_read_witness : ∃ sl, user_cstr exec_memory 4194320 = Ok sl ∧ slice_bytes exec_memory sl = [104; 105] ∧
  user_byte exec_memory (4194320 + 1) = Ok 105.
Proof.
  assert (user_cstr exec_memory 4194320 = Ok (KERNEL_HEAP_BASE + 16, 2)) as E by by vm_compute.
  assert (slice_bytes exec_memory (KERNEL_HEAP_BASE + 16, 2) = [104; 105]) as Eb by by vm_compute.
  pose proof (user_string_read exec_memory 4194320 ltac:(lia) (or_intror (one_mapping_apart _ _ _ exec_memory_mapping))) as H.
  rewrite E in H. destruct H as (_ & _ & H & _). rewrite Eb in H.
  exists (KERNEL_HEAP_BASE + 16, 2). split_and!; [exact E|exact Eb|]. exact (H 1%nat 105 eq_refl).
Defined.
