(* ===== verification/ExecImage.v ===== *)
(** * Loading programs

    Models src/src/kernel/elf.rs: [load_exec_image] checks the file, reads the ELF header,
    maps the PT_LOAD segments into a fresh address space, builds the initial stack from the
    caller's argument vectors and describes the result.  The file system is a class with
    the three calls of the trait [FileSystem] that are used; memory is [AddressSpaces].

    [load_exec_image] never leaves its address space behind on the error paths that clean
    up, and on success the new address space shows exactly [image_areas]: see
    [ExecSafety]. *)

From stdpp Require Import prelude gmap strings.
From S2P Require Import Prelude Bytes Slots Subkernel Permissions Vfs Process Abi FrameAllocator Paging KernelHeap MemoryManager AddressSpaces UserMemory.
Import AddressSpaces.

Local Open Scope Z_scope.

(** [open] for reading, [pread] into a buffer with what it left there, and [close] *)
Class ExecFiles (FS File : Type) := {
  fs_open : list Z → FsCredentials.t → M FS VfsError.t File;
  fs_pread : File → list Z → Z → FS → (result VfsError.t nat * list Z) * FS;
  fs_close : File → M FS VfsError.t unit
}.

(** an error, or a panic *)
Module Fault.
Inductive t : Type := Fails (e : KernelError.t) | Panics.
End Fault.

Definition ELF_HEADER_SIZE : nat := 64.
Definition PROGRAM_HEADER_SIZE : nat := 56.
Definition MAX_PROGRAM_HEADERS : Z := 64.
Definition PT_LOAD : Z := 1.
Definition ET_EXEC : Z := 2.
Definition ET_DYN : Z := 3.
Definition EM_X86_64 : Z := 62.
Definition PF_X : Z := 1.
Definition PF_W : Z := 2.
Definition PF_R : Z := 4.
Definition PIE_LOAD_BASE : Z := 0x555555550000.
Definition USER_STACK_BASE : Z := 0x7ffffff00000.
Definition USER_STACK_SIZE : Z := 64 * 1024.

Module ElfHeader.
Record t : Type := mk { file_type : Z; machine : Z; entry : Z; phoff : Z; phentsize : Z; phnum : Z }.
End ElfHeader.
Module ProgramHeader.
Record t : Type := mk { kind : Z; flags : Z; offset : Z; vaddr : Z; filesz : Z; memsz : Z; align : Z }.
End ProgramHeader.

(** [u16_at], [u32_at] and [u64_at] on arrays that hold the field *)
Definition uint_at (n : nat) (bytes : list Z) (offset : nat) : Z := from_le_bytes (slice offset n bytes).

Definition is_power_of_two (v : Z) : bool := (0 <? v) && (Z.land v (v - 1) =? 0).
(** [checked_add(...).filter(|end| *end <= limit).is_some()] *)
Definition sum_within (a b limit : Z) : bool :=
  match checked_add 64 a b with Some end_ => end_ <=? limit | None => false end.
Definition sum_below (a b limit : Z) : bool :=
  match checked_add 64 a b with Some end_ => end_ <? limit | None => false end.
Definition require (b : bool) : result KernelError.t unit := if b then Ok tt else Err KernelError.InvalidArgument.

Definition validate_load_header (ph : ProgramHeader.t) (file_size : Z) : result KernelError.t unit :=
  _ ← require (negb ((ph.(ProgramHeader.memsz) <? ph.(ProgramHeader.filesz)) || (ph.(ProgramHeader.align) =? 0)
                     || negb (is_power_of_two ph.(ProgramHeader.align))));
  _ ← require (ph.(ProgramHeader.vaddr) mod ph.(ProgramHeader.align) =? ph.(ProgramHeader.offset) mod ph.(ProgramHeader.align));
  _ ← require (sum_within ph.(ProgramHeader.offset) ph.(ProgramHeader.filesz) file_size);
  require (sum_below ph.(ProgramHeader.vaddr) ph.(ProgramHeader.memsz) USER_CANONICAL_LIMIT).

Definition relocated_address (address file_type : Z) : result KernelError.t Z :=
  if file_type =? ET_EXEC then Ok address
  else if file_type =? ET_DYN then
    if sum_below PIE_LOAD_BASE address USER_CANONICAL_LIMIT then Ok (PIE_LOAD_BASE + address)
    else Err KernelError.InvalidArgument
  else Err KernelError.InvalidArgument.

Definition protection_from_elf_flags (flags : Z) : MemoryProtection.t :=
  MemoryProtection.new (negb (Z.land flags PF_R =? 0)) (negb (Z.land flags PF_W =? 0)) (negb (Z.land flags PF_X =? 0)).

Definition align_down_page (value : Z) : Z := Z.ldiff value (PAGE_SIZE - 1).
Definition align_up_usize (value : Z) : result KernelError.t Z :=
  match checked_add 64 value (PAGE_SIZE - 1) with
  | Some v => Ok (Z.ldiff v (PAGE_SIZE - 1))
  | None => Err KernelError.InvalidArgument
  end.

Definition service_root : string := "mirage-service-root".
Definition driver_root : string := "mirage-driver-root".
(** the bytes of a literal *)
Definition literal (s : string) : list Z := (λ c, Z.of_N (Ascii.N_of_ascii c)) <$> String.list_ascii_of_string s.
Definition daemon_paths (name : string) : list (list Z) :=
  (λ dir, literal (dir ++ name)%string) <$> ["/bin/"; "/sbin/"; "/"]%string.
Definition signed_exec_manifest_for_path (path : list Z)
    : option ExecServiceDaemon.t * option ExecSignatureMetadata.t :=
  if bool_decide (path ∈ daemon_paths "displayd") then
    (Some ExecServiceDaemon.Display, Some (ExecSignatureMetadata.new service_root 0x444953504c415944))
  else if bool_decide (path ∈ daemon_paths "networkd") then
    (Some ExecServiceDaemon.Network, Some (ExecSignatureMetadata.new service_root 0x4e4554574f524b44))
  else if bool_decide (path ∈ daemon_paths "inputd") then
    (Some ExecServiceDaemon.Input, Some (ExecSignatureMetadata.new service_root 0x494e50555444414d))
  else if bool_decide (path ∈ daemon_paths "l2-driverd") then
    (Some ExecServiceDaemon.L2Driver, Some (ExecSignatureMetadata.new driver_root 0x4c32445249564552))
  else (None, None).

Module InitialStackBuilder.
(** [base] is where the kernel reaches the stack, [user_base] where the program does *)
Record t : Type := mk { base : Z; user_base : Z; len : Z; sp : Z }.
Definition new (base user_base len : Z) : t := mk base user_base len (user_base + len).
Definition set_sp (sp : Z) (b : t) : t := mk b.(base) b.(user_base) b.(len) sp.
Definition ensure_in_stack (b : t) (user_address len : Z) : result KernelError.t unit :=
  require (negb ((user_address <? b.(user_base))
                 || negb (sum_within user_address len (b.(user_base) + b.(InitialStackBuilder.len))))).
End InitialStackBuilder.

Module Loader.
Record t (FS F : Type) : Type := mk { root_fs : FS; memory : AddressSpaces.t F }.
Arguments mk {FS F} _ _.
Arguments root_fs {FS F} _.
Arguments memory {FS F} _.
End Loader.

Section exec_image.
Context {FS File : Type} `{!ExecFiles FS File} {F : Type} `{!FrameSource F}.
Variables (TABLES HEAP_SIZE static_heap : Z).
Abbreviation State := (Loader.t FS F).
Abbreviation Op := (M State Fault.t).

Definition try_ {A} (r : result KernelError.t A) : Op A := λ s,
  (match r with Ok a => Ok a | Err e => Err (Fault.Fails e) end, s).
Definition fail {A} (e : KernelError.t) : Op A := throw (Fault.Fails e).
Definition on_memory {A} (m : M (AddressSpaces.t F) unit A) (e : KernelError.t) : Op A := λ s,
  let '(r, mem) := m s.(Loader.memory) in
  (match r with Ok a => Ok a | Err _ => Err (Fault.Fails e) end, Loader.mk s.(Loader.root_fs) mem).
Definition on_fs {A} (m : M FS VfsError.t A) : Op A := λ s,
  let '(r, fs) := m s.(Loader.root_fs) in
  (match r with Ok a => Ok a | Err e => Err (Fault.Fails (KernelError.Filesystem e)) end,
   Loader.mk fs s.(Loader.memory)).
Definition peek {A} (f : AddressSpaces.t F → result KernelError.t A) : Op A := λ s, try_ (f s.(Loader.memory)) s.
Definition write (address : Z) (data : list Z) : Op unit :=
  modify (λ s, Loader.mk s.(Loader.root_fs) (write_memory address data s.(Loader.memory))).
(** [array[idx]], which panics out of range *)
Definition index (l : list Z) (idx : nat) : Op Z :=
  match l !! idx with Some v => mret v | None => throw Fault.Panics end.
Definition set_index (l : list Z) (idx : nat) (v : Z) : Op (list Z) :=
  if (idx <? length l)%nat then mret (<[idx := v]> l) else throw Fault.Panics.
Fixpoint mfold {A B} (body : A → B → Op A) (a : A) (l : list B) : Op A :=
  match l with
  | [] => mret a
  | x :: l' => a ← body a x; mfold body a l'
  end.

(** the result of [read_exact], and the buffer after it *)
Definition read_exact (file : File) (buffer : list Z) (offset : Z) (fs : FS)
    : (result KernelError.t unit * list Z) * FS :=
  let '((r, buffer'), fs') := fs_pread file buffer offset fs in
  (match r with
   | Ok read => if (read =? length buffer)%nat then Ok tt else Err (KernelError.Filesystem VfsError.InvalidHandle)
   | Err e => Err (KernelError.Filesystem e)
   end, buffer', fs').
(** into an array of the function *)
Definition read_array (file : File) (len : nat) (offset : Z) : Op (list Z) := λ s,
  let '((r, buffer), fs) := read_exact file (replicate len 0) offset s.(Loader.root_fs) in
  (match r with Ok _ => Ok buffer | Err e => Err (Fault.Fails e) end, Loader.mk fs s.(Loader.memory)).
(** into memory *)
Definition read_into (file : File) (address len offset : Z) : Op unit := λ s,
  let dest := load s.(Loader.memory).(manager).(MemoryManager.bytes) address (Z.to_nat len) in
  let '((r, buffer), fs) := read_exact file dest offset s.(Loader.root_fs) in
  (match r with Ok _ => Ok tt | Err e => Err (Fault.Fails e) end,
   Loader.mk fs (write_memory address buffer s.(Loader.memory))).

Definition parse_elf_header (bytes : list Z) : ElfHeader.t :=
  ElfHeader.mk (uint_at 2 bytes 16) (uint_at 2 bytes 18) (uint_at 8 bytes 24) (uint_at 8 bytes 32)
    (uint_at 2 bytes 54) (uint_at 2 bytes 56).
Definition read_elf_header (file : File) (file_size : Z) : Op ElfHeader.t :=
  _ ← try_ (require (Z.of_nat ELF_HEADER_SIZE <=? file_size));
  bytes ← read_array file ELF_HEADER_SIZE 0;
  _ ← try_ (require (bool_decide (slice 0 4 bytes = [127; 69; 76; 70])));
  _ ← try_ (require (bool_decide (slice 4 3 bytes = [2; 1; 1])));
  let header := parse_elf_header bytes in
  _ ← try_ (require (((header.(ElfHeader.file_type) =? ET_EXEC) || (header.(ElfHeader.file_type) =? ET_DYN))
         && (header.(ElfHeader.machine) =? EM_X86_64)
         && (header.(ElfHeader.phentsize) =? Z.of_nat PROGRAM_HEADER_SIZE)
         && negb (header.(ElfHeader.phnum) =? 0) && (header.(ElfHeader.phnum) <=? MAX_PROGRAM_HEADERS)));
  ph_bytes ← try_ (ok_or (checked_mul 64 header.(ElfHeader.phnum) header.(ElfHeader.phentsize)) KernelError.InvalidArgument);
  ph_end ← try_ (ok_or (checked_add 64 header.(ElfHeader.phoff) ph_bytes) KernelError.InvalidArgument);
  _ ← try_ (require (ph_end <=? file_size));
  mret header.

Definition parse_program_header (bytes : list Z) : ProgramHeader.t :=
  ProgramHeader.mk (uint_at 4 bytes 0) (uint_at 4 bytes 4) (uint_at 8 bytes 8) (uint_at 8 bytes 16)
    (uint_at 8 bytes 32) (uint_at 8 bytes 40) (uint_at 8 bytes 48).
Definition read_program_header (file : File) (phoff idx : Z) : Op ProgramHeader.t :=
  offset ← try_ (ok_or (checked_add 64 phoff (idx * Z.of_nat PROGRAM_HEADER_SIZE)) KernelError.InvalidArgument);
  bytes ← read_array file PROGRAM_HEADER_SIZE offset;
  mret (parse_program_header bytes).

(** one PT_LOAD header of [load_elf_segments]: whether it holds the entry point *)
Definition load_segment (owner address_space_root : Z) (file : File) (file_size : Z) (header : ElfHeader.t)
    (entry_point : Z) (ph : ProgramHeader.t) : Op bool :=
  _ ← try_ (validate_load_header ph file_size);
  relocated ← try_ (relocated_address ph.(ProgramHeader.vaddr) header.(ElfHeader.file_type));
  let map_start := align_down_page relocated in
  let page_offset := relocated - map_start in
  size ← try_ (ok_or (checked_add 64 page_offset ph.(ProgramHeader.memsz)) KernelError.InvalidArgument);
  map_len ← try_ (align_up_usize size);
  segment_end ← try_ (ok_or (checked_add 64 relocated ph.(ProgramHeader.memsz)) KernelError.InvalidArgument);
  let protection := protection_from_elf_flags ph.(ProgramHeader.flags) in
  let holds_entry := negb (Z.land ph.(ProgramHeader.flags) PF_X =? 0)
                     && (relocated <=? entry_point) && (entry_point <? segment_end) in
  region ← on_memory (mmap_user_fixed TABLES HEAP_SIZE static_heap owner address_space_root map_start map_len protection)
             KernelError.AllocationFailed;
  _ ← write region.(MappedRegion.ptr) (replicate (Z.to_nat region.(MappedRegion.length_)) 0);
  _ ← (if ph.(ProgramHeader.filesz) =? 0 then mret tt
       else read_into file (region.(MappedRegion.ptr) + page_offset) ph.(ProgramHeader.filesz) ph.(ProgramHeader.offset));
  mret holds_entry.
Definition load_header (owner address_space_root : Z) (file : File) (file_size : Z) (header : ElfHeader.t)
    (entry_point : Z) (st : bool * bool) (idx : nat) : Op (bool * bool) :=
  ph ← read_program_header file header.(ElfHeader.phoff) (Z.of_nat idx);
  if ph.(ProgramHeader.kind) =? PT_LOAD then
    holds_entry ← load_segment owner address_space_root file file_size header entry_point ph;
    mret (true, st.2 || holds_entry)
  else mret st.
Definition load_elf_segments (owner address_space_root : Z) (file : File) (file_size : Z) (header : ElfHeader.t)
    (entry_point : Z) : Op unit :=
  '(saw_load, entry_mapped_executable) ←
    mfold (load_header owner address_space_root file file_size header entry_point) (false, false)
      (seq 0 (Z.to_nat header.(ElfHeader.phnum)));
  try_ (require (saw_load && entry_mapped_executable)).

(** ** The initial stack *)
Abbreviation Builder := InitialStackBuilder.t.
(** one entry of [copy_vector_strings]; [vector.base + idx * 8] wraps around in a release
    build, a debug build would panic *)
Definition copy_string (vector : ExecVectorMetadata.t) (st : Builder * list Z) (idx : nat) : Op (Builder * list Z) :=
  let '(b, copied) := st in
  string_ptr ← peek (λ s, read_user_u64 s (wrap_add 64 vector.(ExecVectorMetadata.base) (8 * Z.of_nat idx)));
  bytes ← peek (λ s, user_cstr s string_ptr);
  total ← try_ (ok_or (checked_add 64 bytes.2 1) KernelError.InvalidArgument);
  sp ← try_ (ok_or (checked_sub b.(InitialStackBuilder.sp) total) KernelError.InvalidArgument);
  let b := InitialStackBuilder.set_sp sp b in
  _ ← try_ (InitialStackBuilder.ensure_in_stack b sp total);
  let offset := sp - b.(InitialStackBuilder.user_base) in
  data ← gets (λ s, slice_bytes s.(Loader.memory) bytes);
  _ ← write (b.(InitialStackBuilder.base) + offset) data;
  _ ← write (b.(InitialStackBuilder.base) + offset + bytes.2) [0];
  copied ← set_index copied idx sp;
  mret (b, copied).
Definition copy_vector_strings (b : Builder) (vector : ExecVectorMetadata.t) : Op (Builder * list Z) :=
  mfold (copy_string vector) (b, replicate MAX_EXEC_ARGS 0) (seq 0 (Z.to_nat vector.(ExecVectorMetadata.count))).

Definition push_u64 (b : Builder) (value : Z) : Op Builder :=
  sp ← try_ (ok_or (checked_sub b.(InitialStackBuilder.sp) 8) KernelError.InvalidArgument);
  let b := InitialStackBuilder.set_sp sp b in
  _ ← try_ (InitialStackBuilder.ensure_in_stack b sp 8);
  _ ← write (b.(InitialStackBuilder.base) + (sp - b.(InitialStackBuilder.user_base))) (to_le_bytes 8 value);
  mret b.
Definition push_index (ptrs : list Z) (b : Builder) (idx : nat) : Op Builder := v ← index ptrs idx; push_u64 b v.
(** [idx] counts down from [count] *)
Definition push_all (b : Builder) (ptrs : list Z) (count : nat) : Op Builder :=
  mfold (push_index ptrs) b (reverse (seq 0 count)).
Definition finish (b : Builder) (argv_ptrs : list Z) (argc : Z) (envp_ptrs : list Z) (envc : Z) : Op Z :=
  let b := InitialStackBuilder.set_sp (Z.ldiff b.(InitialStackBuilder.sp) 0xf) b in
  b ← push_u64 b 0;
  b ← push_u64 b 0;
  b ← push_u64 b 0;
  b ← push_all b envp_ptrs (Z.to_nat envc);
  b ← push_u64 b 0;
  b ← push_all b argv_ptrs (Z.to_nat argc);
  b ← push_u64 b argc;
  mret b.(InitialStackBuilder.sp).

Definition read_write : MemoryProtection.t := MemoryProtection.new true true false.
Definition build_initial_stack (owner address_space_root : Z) (argv envp : ExecVectorMetadata.t) : Op Z :=
  stack ← on_memory (mmap_user_fixed TABLES HEAP_SIZE static_heap owner address_space_root USER_STACK_BASE
                       USER_STACK_SIZE read_write) KernelError.AllocationFailed;
  _ ← write stack.(MappedRegion.ptr) (replicate (Z.to_nat stack.(MappedRegion.length_)) 0);
  let b := InitialStackBuilder.new stack.(MappedRegion.ptr) USER_STACK_BASE stack.(MappedRegion.length_) in
  '(b, argv_ptrs) ← copy_vector_strings b argv;
  '(b, envp_ptrs) ← copy_vector_strings b envp;
  finish b argv_ptrs argv.(ExecVectorMetadata.count) envp_ptrs envp.(ExecVectorMetadata.count).

(** ** The whole image *)
(** closes the file, whatever that returns, and drops the address space *)
Definition abandon {A} (file : File) (root : Z) (fault : Fault.t) : Op A :=
  match fault with
  | Fault.Panics => throw Fault.Panics
  | Fault.Fails e =>
      _ ← modify (λ s, Loader.mk (fs_close file s.(Loader.root_fs)).2 s.(Loader.memory));
      _ ← on_memory (destroy_user_address_space HEAP_SIZE static_heap root) e;
      fail e
  end.
(** [credentials] is [fs_credentials_for(caller)] *)
Definition load_exec_image (caller : Z) (credentials : result KernelError.t FsCredentials.t) (resolved : list Z)
    (stat : Stat) (argv envp : ExecVectorMetadata.t) : Op ExecImageMetadata.t :=
  if negb (bool_decide (stat.(st_kind) = InodeKind.RegularFile))
  then fail (KernelError.Filesystem VfsError.PermissionDenied)
  else
    credentials ← try_ credentials;
    if negb (Permissions.allows (Permissions.new stat.(st_mode) stat.(st_uid) stat.(st_gid)) credentials AccessMode.Execute)
    then fail (KernelError.Filesystem VfsError.PermissionDenied)
    else
      path ← try_ (match path_new resolved with
                   | Ok p => Ok p
                   | Err e => Err (KernelError.Filesystem (VfsError.InvalidPath e))
                   end);
      file ← on_fs (fs_open path credentials);
      header ← read_elf_header file stat.(st_size);
      root ← on_memory (create_user_address_space caller) KernelError.AllocationFailed;
      entry_point ← try_ (relocated_address header.(ElfHeader.entry) header.(ElfHeader.file_type));
      _ ← catch (load_elf_segments caller root file stat.(st_size) header entry_point) (abandon file root);
      stack_pointer ← catch (build_initial_stack caller root argv envp) (abandon file root);
      _ ← on_fs (fs_close file);
      let '(service_daemon, signature) := signed_exec_manifest_for_path resolved in
      mret (ExecImageMetadata.new stat.(st_inode) stat.(st_size) stat.(st_mode) entry_point stack_pointer root
              service_daemon signature).
End exec_image.
