(* ===== verification/ExecSafety.v ===== *)
(** * What loading a program leaves

    Proofs about [ExecImage].  While an image is loaded the new address space shows a list
    of areas, newest first; every write goes into the block behind the newest one
    ([write_top]).  On success the areas are those of the file and the stack; on errors the
    blocks and mappings are given back. *)

From stdpp Require Import prelude gmap.
From S2P Require Import Prelude Bytes Slots Subkernel Permissions Vfs Process Abi FrameAllocator FrameSafety Paging PagingSafety PagingFrames PagingTheorems KernelHeap KernelHeapSafety MemoryManager MemoryManagerSafety MemoryTheorems AddressSpaces AddressSpaceSafety AddressSpaceTheorems UserMemory ExecImage.
Import AddressSpaces.

Local Open Scope Z_scope.

(** ** Areas of an address space *)
Module Area.
Record t : Type := mk { start : Z; protection : MemoryProtection.t; data : list Z }.
Definition len (a : t) : Z := Z.of_nat (length a.(data)).
Definition covers (a : t) (va : Z) : bool := (a.(start) <=? va) && (va <? a.(start) + len a).
Definition set_data (d : list Z) (a : t) : t := mk a.(start) a.(protection) d.
End Area.
(** an area and the first page of its block in the heap *)
Definition placed : Type := Area.t * nat.
(** the newest area that covers an address *)
Fixpoint view {A} (area : A → Area.t) (l : list A) (va : Z) : option A :=
  match l with
  | [] => None
  | a :: l' => if Area.covers (area a) va then Some a else view area l' va
  end.

Lemma covers_true a va : Area.covers a va = true ↔ a.(Area.start) <= va < a.(Area.start) + Area.len a.
Proof. unfold Area.covers. rewrite andb_true_iff, Z.leb_le, Z.ltb_lt. done. Qed.

Section spaces.
Context {F : Type} `{!FrameSource F} `{!FrameSourceLaws F}.
Variables (TABLES HEAP_SIZE static_heap kroot : Z).
Implicit Types (s : AddressSpaces.t F) (l : list placed).
Abbreviation sys := (sys_ok TABLES HEAP_SIZE static_heap kroot).
Variables (owner root : Z).

Definition pages_of (a : Area.t) : nat := Nat.div (length a.(Area.data)) 4096.
Definition block_start (k : nat) : Z := KERNEL_HEAP_BASE + 4096 * Z.of_nat k.
Definition block_of (p : placed) : AllocationRecord.t := block_record owner p.2 (pages_of p.1) p.1.(Area.protection).
Definition mapping_of (p : placed) : UserMappingRecord.t :=
  UserMappingRecord.mk owner root p.1.(Area.start) (block_start p.2) (Area.len p.1) p.1.(Area.protection).
Definition paged (a : Area.t) : Prop := Area.len a = 4096 * Z.of_nat (pages_of a).

(** [s] is [s0] with the areas of [l] added to the address space *)
Record claimed s0 s trees fs l : Prop := {
  cl_sys : sys s trees fs;
  cl_spaces : s.(spaces) = s0.(spaces);
  cl_env : same_env (paging s0) (paging s);
  cl_paged : Forall (λ p : placed, paged p.1) l;
  cl_live : live s.(manager) ≡ₚ (block_of <$> l) ++ live s0.(manager);
  cl_mappings : occupied s.(mappings) ≡ₚ (mapping_of <$> l) ++ occupied s0.(mappings);
  cl_find : ∀ p, (∀ r, r.(UserMappingRecord.root) = root → p r = false) →
    slot_find p s.(mappings) = slot_find p s0.(mappings);
  cl_bytes : ∀ a, in_live s0 a → sbyte s a = sbyte s0 a;
  cl_pages : ∀ root2 va, root2 ∈ roots s0 → root2 ≠ root → 0 <= va < USER_LIMIT →
    upage (paging s) root2 va = upage (paging s0) root2 va
}.
(** the address space shows the areas of [l] *)
Record shown s fs l : Prop := {
  sh_in : Forall (λ p : placed, (p.2 + pages_of p.1 <= length fs)%nat) l;
  sh_pages : ∀ va, 0 <= va < USER_LIMIT → upage (paging s) root va =
    (p ← view fst l va; block_entry fs p.1.(Area.start) p.2 p.1.(Area.protection) va);
  sh_bytes : Forall (λ p : placed, ∀ o, 0 <= o < Area.len p.1 →
    sbyte s (block_start p.2 + o) = default 0 (p.1.(Area.data) !! Z.to_nat o)) l
}.

Lemma view_in {A} (area : A → Area.t) (l' : list A) va x : view area l' va = Some x → x ∈ l' ∧ Area.covers (area x) va = true.
Proof.
  induction l' as [|y l' IH]; cbn; [done|]. destruct (Area.covers (area y) va) eqn:E.
  - intros [= ->]. split; [apply list_elem_of_here|done].
  - intros [H1 H2]%IH. split; [by apply list_elem_of_further|done].
Qed.
Lemma block_entry_app fs more va k n protection va2 : (k + n <= length fs)%nat → va <= va2 < va + 4096 * Z.of_nat n →
  block_entry (fs ++ more) va k protection va2 = block_entry fs va k protection va2.
Proof.
  intros Hk Hva. unfold block_entry. rewrite lookup_app_l; [done|].
  assert ((va2 - va) / 4096 < Z.of_nat n) by (apply Z.div_lt_upper_bound; lia).
  assert (0 <= (va2 - va) / 4096) by (apply Z.div_pos; lia). lia.
Qed.

Lemma slot_find_insert_free {A} (p : A → bool) table i x : free_slot table = Some i → p x = false →
  slot_find p (<[i := Some x]> table) = slot_find p table.
Proof.
  revert i. induction table as [|[y|] table IH]; intros i Hi Hx; cbn in *; [done| |].
  - apply fmap_Some in Hi as (j & Hj & ->). cbn. destruct (p y); [done|]. by apply IH.
  - injection Hi as <-. cbn. by rewrite Hx.
Qed.

(** the contents of a block *)
Definition contents s (k n : nat) : list Z := load s.(manager).(MemoryManager.bytes) (block_start k) (4096 * n).
Lemma length_load bytes a n : length (load bytes a n) = n.
Proof. unfold load. rewrite length_fmap, length_seqZ. lia. Qed.
Lemma load_at bytes a n o : 0 <= o < Z.of_nat n → default 0 (load bytes a n !! Z.to_nat o) = default 0 (bytes !! (a + o)).
Proof.
  intros Ho. unfold load. rewrite list_lookup_fmap, lookup_seqZ_lt by lia. cbn. do 3 f_equal. lia.
Qed.

Lemma roots_claimed s0 s trees fs l : claimed s0 s trees fs l → roots s = roots s0.
Proof. intros H. unfold roots. by rewrite (cl_spaces _ _ _ _ _ H). Qed.
Lemma pages_of_len d n va protection : length d = (4096 * n)%nat → pages_of (Area.mk va protection d) = n.
Proof. intros E. unfold pages_of. cbn [Area.data]. rewrite E, Nat.mul_comm. by apply Nat.div_mul. Qed.

(** mapping one more area *)
Lemma map_area s0 s trees fs l va len protection : claimed s0 s trees fs l → root ∈ roots s0 → 0 <= va → 0 <= len →
  match mmap_user_fixed TABLES HEAP_SIZE static_heap owner root va len protection s with
  | (Ok g, s') => ∃ more k n, let a := Area.mk va protection (contents s' k n) in
      claimed s0 s' trees (fs ++ more) ((a, k) :: l) ∧ (shown s fs l → shown s' (fs ++ more) ((a, k) :: l)) ∧
      g.(MappedRegion.ptr) = block_start k ∧ g.(MappedRegion.length_) = 4096 * Z.of_nat n ∧
      len <= 4096 * Z.of_nat n < len + 4096 ∧ va + 4096 * Z.of_nat n <= USER_LIMIT ∧ va mod 4096 = 0
  | (Err _, s') => ∃ more, claimed s0 s' trees (fs ++ more) l
  end.
Proof.
  intros Hc Hr Hva Hlen. pose proof Hc as [C1 C2 C3 C4 C5 C6 C7 C8 C9]. pose proof (roots_claimed _ _ _ _ _ Hc) as Er.
  pose proof (mmap_user_spec _ _ _ _ _ _ _ owner root va len protection C1 ltac:(by rewrite Er) Hva Hlen) as Hm.
  destruct (mmap_user_fixed _ _ _ _ _ _ _ _ s) as [[g|[]] s'].
  2:{ destruct Hm as (n & _ & more & Hs & E1 & E2 & E3 & E4 & [Henv _] & Hpg). exists more. split; try done.
      - congruence.
      - by eapply same_env_trans.
      - by rewrite E4.
      - by rewrite E2.
      - intros p Hp. rewrite E2. by apply C7.
      - intros a Ha. unfold sbyte, byte in *. rewrite E3. by apply C8.
      - intros root2 va2 Hr2 Hne Hv. rewrite Hpg; [by apply C9|by rewrite Er|done|naive_solver]. }
  destruct Hm as (more & n & k & i & Hal & Hend & [Hn _] & -> & Hn0 & Hkn & Hl & Hb & Hsp & Hi & Hmap & Hs' & [Henv _] & Hpg).
  exists more, k, n. cbn zeta. set (a := Area.mk va protection (contents s' k n)).
  assert (length (contents s' k n) = (4096 * n)%nat) as Elen by apply length_load.
  assert (pages_of a = n) as Ep by by apply pages_of_len.
  assert (Area.len a = 4096 * Z.of_nat n) as Ea by (unfold Area.len, a; cbn [Area.data]; lia).
  assert (block_of (a, k) = block_record owner k n protection) as Eb by (unfold block_of; cbn [fst snd]; by rewrite Ep).
  split_and!; [| |done|done|lia|lia|lia|done].
  - split; try done.
    + congruence.
    + by eapply same_env_trans.
    + constructor; [|done]. unfold paged. cbn [fst]. by rewrite Ep.
    + rewrite fmap_cons, Eb, Hl, C5. done.
    + rewrite Hmap, (occupied_insert_free _ _ _ Hi), C6. rewrite fmap_cons. cbn [app]. unfold mapping_of at 2.
      cbn [fst snd]. by rewrite Ea.
    + intros p Hp. rewrite Hmap. etrans; [|by apply C7]. apply slot_find_insert_free; [done|by apply Hp].
    + intros x Hx. unfold sbyte, byte in *. rewrite Hb. by apply C8.
    + intros root2 va2 Hr2 Hne Hv. rewrite Hpg by (done || by rewrite Er). rewrite decide_False by naive_solver. by apply C9.
  - intros [S1 S2 S3]. split.
    + constructor; [cbn [fst snd]; rewrite Ep; done|]. eapply Forall_impl; [exact S1|]. intros p Hp. cbv beta in *. rewrite length_app. lia.
    + intros va2 Hv. rewrite Hpg by (done || by rewrite Er). cbn [view fst].
      destruct (Area.covers a va2) eqn:Ec.
      * apply covers_true in Ec. rewrite Ea in Ec. cbn [Area.start a] in Ec. rewrite decide_True by done. done.
      * rewrite decide_False. 2:{ intros [_ H]. assert (Area.covers a va2 = true); [|congruence]. apply covers_true. by rewrite Ea. }
        rewrite S2 by done. destruct (view fst l va2) as [p|] eqn:Ev; [|done]. cbn [mbind option_bind].
        apply view_in in Ev as [Hin Hcov]. apply covers_true in Hcov.
        rewrite Forall_forall in S1, C4. specialize (S1 p Hin). specialize (C4 p Hin). cbv beta in S1, C4. unfold paged in C4.
        symmetry. eapply block_entry_app; [exact S1|lia].
    + constructor.
      * cbn [fst snd]. rewrite Ea. intros o Ho. cbn [Area.data a]. unfold contents. rewrite load_at by lia. done.
      * eapply Forall_impl; [exact S3|]. intros p Hp o Ho. specialize (Hp o Ho). unfold sbyte, byte in *. by rewrite Hb.
Qed.

(** ** Writing into the newest block *)
Lemma lookup_write_at off d bs i : (off + length d <= length bs)%nat →
  write_at off d bs !! i = if decide (off <= i < off + length d)%nat then d !! (i - off)%nat else bs !! i.
Proof.
  intros Hl. unfold write_at. destruct (decide (i < off)%nat) as [Hi|Hi].
  { rewrite lookup_app_l by (rewrite length_take; lia). rewrite lookup_take_lt by done. by rewrite decide_False by lia. }
  rewrite lookup_app_r by (rewrite length_take; lia). rewrite length_take, Nat.min_l by lia.
  destruct (decide (i < off + length d)%nat) as [Hj|Hj].
  - rewrite lookup_app_l by lia. by rewrite decide_True by lia.
  - rewrite lookup_app_r by lia. rewrite lookup_drop, decide_False by lia. f_equal. lia.
Qed.
Lemma write_byte address d s a : sbyte (write_memory address d s) a =
  if decide (address <= a < address + Z.of_nat (length d)) then default 0 (d !! Z.to_nat (a - address)) else sbyte s a.
Proof. unfold sbyte, byte. cbn. apply store_lookup. Qed.

(** the newest block shares no byte with the others *)
Lemma top_apart s0 s trees fs a k l x : claimed s0 s trees fs ((a, k) :: l) → block_start k <= x < block_start k + Area.len a →
  ¬ in_live s0 x ∧ Forall (λ p : placed, ∀ o, 0 <= o < Area.len p.1 → block_start p.2 + o ≠ x) l.
Proof.
  intros [C1 C2 C3 C4 C5 C6 C7 C8 C9] Hx. rewrite fmap_cons in C5. cbn [app] in C5. apply Forall_cons in C4 as [Ca C4].
  unfold paged in Ca. cbn [fst] in Ca.
  assert (∀ q, q ∈ (block_of <$> l) ++ live s0.(manager) →
    ¬ within x (KERNEL_HEAP_BASE + q.(AllocationRecord.offset), q.(AllocationRecord.size))) as Hap.
  { intros q Hq. eapply (fresh_block _ _ _ _ s trees fs (block_of (a, k))); [exact C1|exact C5| |exact Hq].
    unfold within, block_of, block_start in *. cbn [fst snd block_record AllocationRecord.offset AllocationRecord.size] in *. lia. }
  split.
  - intros (q & Hq & Hw). apply (Hap q); [|done]. apply elem_of_app. by right.
  - apply Forall_forall. intros p Hp o Ho Eq. apply (Hap (block_of p)).
    + apply elem_of_app. left. apply list_elem_of_fmap. by exists p.
    + rewrite Forall_forall in C4. specialize (C4 p Hp). unfold paged in C4.
      unfold within, block_of, block_start in *. cbn [fst snd block_record AllocationRecord.offset AllocationRecord.size] in *. lia.
Qed.

Definition put (off : nat) (d : list Z) (a : Area.t) : Area.t := Area.set_data (write_at off d a.(Area.data)) a.
Lemma write_top s0 s trees fs a k l off d : claimed s0 s trees fs ((a, k) :: l) →
  (off + length d <= length a.(Area.data))%nat →
  let s' := write_memory (block_start k + Z.of_nat off) d s in
  claimed s0 s' trees fs ((put off d a, k) :: l) ∧ (shown s fs ((a, k) :: l) → shown s' fs ((put off d a, k) :: l)).
Proof.
  intros Hc Hl s'. pose proof Hc as [C1 C2 C3 C4 C5 C6 C7 C8 C9].
  assert (length (write_at off d a.(Area.data)) = length a.(Area.data)) as El by by apply length_write_at.
  assert (pages_of (put off d a) = pages_of a) as Ep by (unfold pages_of, put; cbn [Area.set_data Area.data]; by rewrite El).
  assert (Area.len (put off d a) = Area.len a) as Ea by (unfold Area.len, put; cbn [Area.set_data Area.data]; by rewrite El).
  assert (∀ x, ¬ (block_start k <= x < block_start k + Area.len a) → sbyte s' x = sbyte s x) as Hout.
  { intros x Hx. unfold s'. rewrite write_byte, decide_False; [done|]. unfold Area.len in Hx. lia. }
  split.
  - split; try done.
    + by apply set_bytes_ok.
    + apply Forall_cons in C4 as [Ca C4]. constructor; [|done]. unfold paged in *. cbn [fst] in *. by rewrite Ep, Ea.
    + rewrite fmap_cons in *. unfold block_of at 1. cbn [fst snd put Area.set_data Area.protection]. rewrite Ep. exact C5.
    + rewrite fmap_cons in *. unfold mapping_of at 1. cbn [fst snd]. rewrite Ea. exact C6.
    + intros x Hx. rewrite Hout; [by apply C8|]. intros Hin. by destruct (top_apart _ _ _ _ _ _ _ _ Hc Hin).
  - intros [S1 S2 S3]. split.
    + apply Forall_cons in S1 as [Ha S1]. constructor; [|done]. cbn [fst snd] in *. by rewrite Ep.
    + intros va Hva. change (paging s') with (paging s). rewrite S2 by done. cbn [view fst].
      assert (Area.covers (put off d a) va = Area.covers a va) as -> by (unfold Area.covers; by rewrite Ea).
      by destruct (Area.covers a va).
    + apply Forall_cons in S3 as [Ha S3]. constructor.
      * cbn [fst snd] in *. rewrite Ea. intros o Ho. unfold s'. rewrite write_byte. cbn [put Area.set_data Area.data].
        rewrite lookup_write_at by done. unfold Area.len in Ho. destruct (decide (Z.of_nat off <= o < Z.of_nat off + Z.of_nat (length d))).
        -- rewrite !decide_True by lia. do 2 f_equal. lia.
        -- rewrite !decide_False by lia. apply Ha. exact Ho.
      * apply Forall_forall. intros p Hp o Ho. rewrite Forall_forall in S3. rewrite <-(S3 p Hp o Ho). apply Hout.
        intros Hin. destruct (top_apart _ _ _ _ _ _ _ _ Hc Hin) as [_ Hap]. rewrite Forall_forall in Hap. by apply (Hap p Hp o Ho).
Qed.

(** ** Giving everything back *)
Lemma filter_none {A} (P : A → Prop) `{∀ x, Decision (P x)} (xs : list A) : (∀ x, x ∈ xs → ¬ P x) → filter P xs = [].
Proof.
  induction xs as [|x xs IH]; intros Hn; [done|]. rewrite filter_cons_False by (apply Hn, list_elem_of_here).
  apply IH. intros y Hy. apply Hn. by apply list_elem_of_further.
Qed.
Lemma drop_blocks_exact s trees fs l rest : sys s trees fs → live s.(manager) ≡ₚ (block_of <$> l) ++ rest →
  Forall (λ p : placed, paged p.1) l →
  live (foldl (drop_block HEAP_SIZE static_heap) s.(manager) (mapping_of <$> l)) ≡ₚ rest.
Proof.
  intros Hs Hl Hp. revert s Hs Hl. induction Hp as [|p l Hp Hpl IH]; intros s Hs Hl; cbn [fmap list_fmap foldl]; [done|].
  destruct (munmap_block _ _ _ _ s trees fs (block_of p) _ Hs Hl eq_refl) as (m & E & Hs1 & Hlive & _ & _).
  assert (drop_block HEAP_SIZE static_heap s.(manager) (mapping_of p) = m) as ->.
  { unfold munmap_ptr_for, modify in E. injection E as E. rewrite <-E. unfold drop_block, mapping_of.
    cbn [UserMappingRecord.kernel_start UserMappingRecord.owner UserMappingRecord.length_].
    rewrite (proj2 (Z.eqb_neq _ _)) by (unfold block_start; pose proof (Nat2Z.is_nonneg p.2); unfold KERNEL_HEAP_BASE; lia).
    unfold paged in Hp. rewrite Hp. done. }
  apply (IH (set_manager m s)); [exact Hs1|exact Hlive].
Qed.
(** the state is [s0] without the address space [root], but for page tables and memory that
    is not in use *)
Record returned s0 s : Prop := {
  rt_sys : ∃ trees fs, sys s trees fs;
  rt_spaces : occupied s0.(spaces) ≡ₚ AddressSpace.mk owner root 1 :: occupied s.(spaces);
  rt_live : live s.(manager) ≡ₚ live s0.(manager);
  rt_mappings : occupied s.(mappings) ≡ₚ occupied s0.(mappings);
  rt_bytes : ∀ a, in_live s0 a → sbyte s a = sbyte s0 a;
  rt_pages : ∀ root2 va, root2 ∈ roots s0 → root2 ≠ root → 0 <= va < USER_LIMIT →
    upage (paging s) root2 va = upage (paging s0) root2 va
}.
Lemma destroy_returns s0 s trees fs l : claimed s0 s trees fs l → AddressSpace.mk owner root 1 ∈ occupied s0.(spaces) →
  (∀ r, r ∈ occupied s0.(mappings) → r.(UserMappingRecord.root) ≠ root) →
  ∃ s', destroy_user_address_space HEAP_SIZE static_heap root s = (Ok tt, s') ∧ returned s0 s'.
Proof.
  intros [C1 C2 C3 C4 C5 C6 C7 C8 C9] Hsp Hold.
  assert (root ∈ roots s) as Hr.
  { unfold roots. rewrite C2. apply list_elem_of_fmap. eexists. split; [|exact Hsp]. done. }
  destruct (space_destroy_spec _ _ _ _ _ _ _ root C1 Hr) as (i & sp & Hi & Hroot & E & Hd).
  pose proof (so_roots _ _ _ _ _ _ _ C1) as Hnd. unfold roots in Hnd.
  assert (sp = AddressSpace.mk owner root 1) as ->.
  { rewrite C2 in Hi, Hnd. assert (sp ∈ occupied s0.(spaces)) as Hsp2 by (apply elem_of_occupied; by eapply list_elem_of_lookup_2).
    apply list_elem_of_lookup in Hsp as [a Ha], Hsp2 as [b Hb].
    assert (a = b) as ->; [|congruence]. eapply (NoDup_lookup _ _ _ root Hnd); rewrite list_lookup_fmap, ?Ha, ?Hb; cbn; congruence. }
  change (1 <? 1) with false in Hd. cbv iota in Hd. destruct Hd as (p & E2 & Hperm & Hs' & Hu).
  destruct (destroy_user_address_space _ _ root s) as [r s']. cbn [fst snd] in *. subst r. exists s'. split; [done|].
  assert (filter (λ r, of_root root r = true) (occupied s.(mappings)) ≡ₚ mapping_of <$> l) as Hf.
  { rewrite C6, filter_app. rewrite (filter_none _ (occupied s0.(mappings))).
    - rewrite app_nil_r. rewrite filter_all; [done|]. apply Forall_forall. intros r (q & -> & _)%list_elem_of_fmap. unfold of_root. apply Z.eqb_refl.
    - intros r Hin Ho. unfold of_root in Ho. apply Z.eqb_eq in Ho. by apply (Hold r Hin). }
  apply Permutation_map_inv in Hf as (l' & El & Hll). change (map mapping_of l') with (mapping_of <$> l') in El.
  split.
  - by do 2 eexists.
  - rewrite <-C2, Hperm, E2. done.
  - rewrite E2. cbn [manager set_paging set_manager]. unfold live. cbn [MemoryManager.allocations MemoryManager.set_backing].
    change (live (foldl (drop_block HEAP_SIZE static_heap) (manager s) (filter (λ r, of_root root r = true) (occupied (mappings s)))) ≡ₚ live (manager s0)).
    rewrite El. eapply drop_blocks_exact; [exact C1| |].
    + rewrite C5. by rewrite Hll.
    + by rewrite <-Hll.
  - rewrite E2. cbn [mappings set_paging set_manager]. rewrite occupied_clear.
    rewrite C6, filter_app. rewrite (filter_none _ (mapping_of <$> l)).
    + cbn [app]. rewrite filter_all; [done|]. apply Forall_forall. intros r Hin. unfold of_root. apply Z.eqb_neq. by apply Hold.
    + intros r (q & -> & _)%list_elem_of_fmap. unfold of_root. cbn. by rewrite Z.eqb_refl.
  - intros a Ha. rewrite E2. unfold sbyte at 1, byte. cbn [manager set_paging set_manager MemoryManager.bytes MemoryManager.set_backing].
    rewrite (proj2 (drop_blocks_live TABLES HEAP_SIZE static_heap _ _ _ (so_memory _ _ _ _ _ _ _ C1))). by apply C8.
  - intros root2 va Hr2 Hne Hva. rewrite E2. change (upage p root2 va = upage (paging s0) root2 va). rewrite Hu. by apply C9.
Qed.
End spaces.

Lemma store_app address d1 d2 bytes : store address (d1 ++ d2) bytes = store (address + Z.of_nat (length d1)) d2 (store address d1 bytes).
Proof.
  revert address bytes. induction d1 as [|x d1 IH]; intros address bytes; cbn [app store length]; [by rewrite Z.add_0_r|].
  rewrite IH. f_equal. lia.
Qed.

(** ** Reading the caller's memory *)
Section reads.
Context {F : Type}.
Implicit Types s : AddressSpaces.t F.

(** the caller's pointers go through its address space, whose memory is live *)
Record caller_mapped s : Prop := {
  cm_translated : untranslated s = false;
  cm_root : active_user_root s ∈ roots s;
  cm_live : ∀ r, Some r ∈ s.(mappings) → r.(UserMappingRecord.root) = active_user_root s → block_live s r
}.
Record same_reads s s' : Prop := {
  sr_env : same_env (paging s) (paging s');
  sr_find : ∀ ptr len write,
    slot_find (λ r, UserMappingRecord.contains r (active_user_root s) ptr len write) s'.(mappings) =
    slot_find (λ r, UserMappingRecord.contains r (active_user_root s) ptr len write) s.(mappings);
  sr_bytes : ∀ a, in_live s a → sbyte s' a = sbyte s a
}.

Lemma translated_live s ptr len write a o : caller_mapped s →
  active_translated_slice s (active_user_root s) ptr len write = Some a → 0 <= o < len → in_live s (a + o).
Proof.
  intros [H1 H2 H3] Ha Ho. unfold active_translated_slice in Ha. rewrite (proj2 (Z.eqb_neq _ _)) in Ha by lia.
  destruct (slot_find _ s.(mappings)) as [r|] eqn:Hr; [|done]. cbn in Ha. destruct (_ =? 0); [done|]. injection Ha as <-.
  apply slot_find_Some in Hr as [Hc Hin]. apply contains_holds in Hc as (R1 & _ & R2 & R3). unfold sat_sub. rewrite Z.max_l by lia.
  rewrite <-Z.add_assoc. apply block_live_in; [by apply H3|lia].
Qed.
Section same.
Variables (s s' : AddressSpaces.t F).
Hypotheses (Hm : caller_mapped s) (Hs : same_reads s s').

Lemma same_root : active_user_root s' = active_user_root s.
Proof. unfold active_user_root. by destruct (sr_env _ _ Hs) as (_ & _ & _ & H & _). Qed.
Lemma same_untranslated : untranslated s' = untranslated s.
Proof. unfold untranslated. rewrite same_root. by destruct (sr_env _ _ Hs) as (_ & _ & _ & _ & _ & -> & _). Qed.
Lemma same_slice ptr len write :
  active_translated_slice s' (active_user_root s) ptr len write = active_translated_slice s (active_user_root s) ptr len write.
Proof. unfold active_translated_slice. by rewrite (sr_find _ _ Hs). Qed.
Lemma same_load a n : (∀ o, 0 <= o < Z.of_nat n → in_live s (a + o)) →
  load s'.(manager).(MemoryManager.bytes) a n = load s.(manager).(MemoryManager.bytes) a n.
Proof.
  intros Hl. apply list_eq. intros i. unfold load. rewrite !list_lookup_fmap. destruct (seqZ 0 (Z.of_nat n) !! i) as [x|] eqn:E; [|done].
  apply lookup_seqZ in E as [-> Hi]. cbn. f_equal. apply (sr_bytes _ _ Hs). apply Hl. lia.
Qed.
Lemma same_copy ptr out : copy_from_user s' (active_user_root s) ptr out = copy_from_user s (active_user_root s) ptr out.
Proof.
  unfold copy_from_user. rewrite same_slice. destruct (active_translated_slice _ _ _ _ _) as [a|] eqn:Ha; [|done].
  rewrite same_load; [done|]. intros o Ho. by eapply translated_live.
Qed.
Lemma same_byte ptr : user_byte s' ptr = user_byte s ptr.
Proof. unfold user_byte. rewrite same_untranslated, (cm_translated _ Hm), same_root. by rewrite same_copy. Qed.
Lemma same_u64 ptr : read_user_u64 s' ptr = read_user_u64 s ptr.
Proof. unfold read_user_u64, read_user_value. rewrite same_untranslated, (cm_translated _ Hm), same_root. by rewrite same_copy. Qed.
Lemma same_access ptr len write : validate_user_access s' ptr len write = validate_user_access s ptr len write.
Proof.
  unfold validate_user_access, AddressSpaces.validate_user_range. rewrite same_untranslated, same_root. by rewrite same_slice.
Qed.
Lemma same_user_slice ptr len : user_slice s' ptr len = user_slice s ptr len.
Proof. unfold user_slice, user_translated_ptr. rewrite same_access, same_untranslated, same_root. by rewrite same_slice. Qed.
Lemma same_cstr ptr : user_cstr s' ptr = user_cstr s ptr.
Proof.
  unfold user_cstr, UserMemory.validate_user_range. rewrite same_access. destruct (validate_user_access s ptr 1 false); [|done]. cbn [mbind result_bind].
  generalize 0. generalize (Process.MAX_PATH_BYTES + 1)%nat. induction n as [|n IH]; intros len; [done|].
  cbn [cstr_from]. rewrite same_byte. destruct (user_byte _ _); [|done]. cbn [mbind result_bind]. rewrite same_user_slice.
  destruct (_ =? 0); [done|]. apply IH.
Qed.
End same.

(** a slice the caller may read lies in its memory *)
Lemma user_slice_live s ptr len sl : caller_mapped s → user_slice s ptr len = Ok sl → 0 <= len →
  sl.2 = len ∧ ∀ o, 0 <= o < sl.2 → in_live s (sl.1 + o).
Proof.
  intros Hm Hsl Hlen. unfold user_slice, user_translated_ptr in Hsl. apply result_bind_Ok in Hsl as (a & Ha & [= <-]).
  apply result_bind_Ok in Ha as (_ & _ & Ha). destruct (Z.eqb_spec len 0) as [->|Hne]; [split; [done|cbn; lia]|].
  split; [done|]. cbn [fst snd]. rewrite (cm_translated _ Hm) in Ha.
  destruct (active_translated_slice _ _ _ _ _) as [x|] eqn:Hx; [|done]. injection Ha as <-. intros o Ho. by eapply translated_live.
Qed.
Lemma cstr_from_slice s ptr len n sl : cstr_from s ptr len n = Ok sl → 0 <= len →
  ∃ len', len <= len' < len + Z.of_nat n ∧ user_slice s ptr len' = Ok sl.
Proof.
  revert len. induction n as [|n IH]; intros len H Hl; [done|]. cbn [cstr_from] in H. apply result_bind_Ok in H as (b & _ & H).
  destruct (b =? 0); [exists len; split; [lia|done]|]. destruct (IH (len + 1) H ltac:(lia)) as (len' & Hl' & E). exists len'. split; [lia|done].
Qed.
Lemma cstr_live s ptr sl : caller_mapped s → user_cstr s ptr = Ok sl →
  0 <= sl.2 <= 128 ∧ ∀ o, 0 <= o < sl.2 → in_live s (sl.1 + o).
Proof.
  intros Hm H. unfold user_cstr in H. apply result_bind_Ok in H as (_ & _ & H). apply cstr_from_slice in H as (len & Hl & H); [|done].
  change (Z.of_nat (Process.MAX_PATH_BYTES + 1)) with 129 in Hl. apply user_slice_live in H as [-> H]; [|done|lia]. split; [lia|done].
Qed.
Lemma same_slice_bytes s s' ptr sl : caller_mapped s → same_reads s s' → user_cstr s ptr = Ok sl →
  slice_bytes s' sl = slice_bytes s sl.
Proof.
  intros Hm Hs H. destruct (cstr_live _ _ _ Hm H) as [H1 H2]. unfold slice_bytes. apply same_load; [done|]. intros o Ho. apply H2. lia.
Qed.

(** the strings of a vector *)
Definition vector_string s (v : ExecVectorMetadata.t) (idx : nat) : result KernelError.t (list Z) :=
  ptr ← read_user_u64 s (wrap_add 64 v.(ExecVectorMetadata.base) (8 * Z.of_nat idx));
  sl ← user_cstr s ptr;
  Ok (slice_bytes s sl).
Definition vector_strings s (v : ExecVectorMetadata.t) : result KernelError.t (list (list Z)) :=
  mapM (vector_string s v) (seq 0 (Z.to_nat v.(ExecVectorMetadata.count))).
End reads.

(** ** The stack a program starts with *)
(** a string below [top], one after the other *)
Fixpoint string_ptrs (top : Z) (strings : list (list Z)) : list Z :=
  match strings with
  | [] => []
  | str :: strings' => let ptr := top - (Z.of_nat (length str) + 1) in ptr :: string_ptrs ptr strings'
  end.
(** the bytes from the last string up to [top] *)
Fixpoint strings_tail (strings : list (list Z)) (tail : list Z) : list Z :=
  match strings with
  | [] => tail
  | str :: strings' => strings_tail strings' (str ++ [0] ++ tail)
  end.
Definition words_bytes (words : list Z) : list Z := concat (to_le_bytes 8 <$> words).
Definition stack_top : Z := USER_STACK_BASE + USER_STACK_SIZE.
(** the words at the stack pointer *)
Definition stack_words (args envs : list (list Z)) : list Z :=
  let low := stack_top - Z.of_nat (length (strings_tail args [])) in
  [Z.of_nat (length args)] ++ string_ptrs stack_top args ++ [0] ++ string_ptrs low envs ++ [0; 0; 0].
Definition stack_strings (args envs : list (list Z)) : list Z := strings_tail envs (strings_tail args []).
(** everything above the stack pointer: words, padding and strings *)
Definition stack_contents (args envs : list (list Z)) : list Z :=
  let strings := stack_strings args envs in
  let low := stack_top - Z.of_nat (length strings) in
  words_bytes (stack_words args envs) ++ replicate (Z.to_nat (low mod 16)) 0 ++ strings.
Definition stack_pointer_for (args envs : list (list Z)) : Z :=
  stack_top - Z.of_nat (length (stack_contents args envs)).
Definition stack_area (args envs : list (list Z)) : Area.t :=
  let contents := stack_contents args envs in
  Area.mk USER_STACK_BASE read_write (replicate (Z.to_nat USER_STACK_SIZE - length contents) 0 ++ contents).

Lemma length_strings_tail strings tail :
  Z.of_nat (length (strings_tail strings tail)) = Z.of_nat (length (strings_tail strings [])) + Z.of_nat (length tail).
Proof.
  revert tail. induction strings as [|str strings IH]; intros tail; cbn [strings_tail]; [cbn; lia|].
  rewrite IH, (IH (str ++ [0] ++ [])). rewrite !length_app. cbn [length]. lia.
Qed.
Lemma length_string_ptrs top strings : length (string_ptrs top strings) = length strings.
Proof. revert top. induction strings as [|str strings IH]; intros top; cbn; [done|]. by rewrite IH. Qed.
Lemma string_ptrs_app top l1 l2 : string_ptrs top (l1 ++ l2) =
  string_ptrs top l1 ++ string_ptrs (top - Z.of_nat (length (strings_tail l1 []))) l2.
Proof.
  revert top. induction l1 as [|str l1 IH]; intros top; cbn [app string_ptrs strings_tail]; [by rewrite Z.sub_0_r|].
  rewrite IH. pose proof (length_strings_tail l1 (str ++ [0])) as El. rewrite !length_app in El. cbn [length] in El.
  cbn [app]. rewrite El. do 3 f_equal. lia.
Qed.
Lemma strings_tail_app l1 l2 tail : strings_tail (l1 ++ l2) tail = strings_tail l2 (strings_tail l1 tail).
Proof. revert tail. induction l1 as [|str l1 IH]; intros tail; cbn; [done|]. apply IH. Qed.

Lemma write_prefix off d n tail : (off + length d = n)%nat →
  write_at off d (replicate n 0 ++ tail) = replicate off 0 ++ d ++ tail.
Proof.
  intros E. unfold write_at. rewrite take_app_le by (rewrite length_replicate; lia). rewrite take_replicate, Nat.min_l by lia.
  do 2 f_equal. rewrite E, drop_app_length' by by rewrite length_replicate. done.
Qed.

Section stack.
Context {FS File : Type} `{!ExecFiles FS File} {F : Type} `{!FrameSource F} `{!FrameSourceLaws F}.
Variables (TABLES HEAP_SIZE static_heap kroot owner root : Z).
Abbreviation State := (Loader.t FS F).
Implicit Types (s : AddressSpaces.t F) (st : State) (l : list placed) (b : InitialStackBuilder.t).
Abbreviation claim := (claimed TABLES HEAP_SIZE static_heap kroot owner root).
Abbreviation show := (shown root).

Lemma try_run {A B} (r : result KernelError.t A) (k : A → M State Fault.t B) st :
  (try_ r ≫= k) st = match r with Ok a => k a st | Err e => (Err (Fault.Fails e), st) end.
Proof. by destruct r. Qed.
Lemma peek_run {A B} (f : AddressSpaces.t F → result KernelError.t A) (k : A → M State Fault.t B) st :
  (peek f ≫= k) st = match f st.(Loader.memory) with Ok a => k a st | Err e => (Err (Fault.Fails e), st) end.
Proof. unfold peek, mbind, M_bind, try_. by destruct (f _). Qed.
Lemma write_run {B} address d (k : unit → M State Fault.t B) st :
  (write address d ≫= k) st = k tt (Loader.mk st.(Loader.root_fs) (write_memory address d st.(Loader.memory))).
Proof. done. Qed.
Lemma gets_run {A B} (f : State → A) (k : A → M State Fault.t B) st : (gets f ≫= k) st = k (f st) st.
Proof. done. Qed.

(** the states in which the stack is being filled: [tail] is what lies above the pointer *)
Variables (m0 s0 : AddressSpaces.t F) (trees : list tree) (fs : list Z) (l0 : list placed) (k : nat) (files : FS).
Record filling b (tail : list Z) st : Prop := {
  fi_files : st.(Loader.root_fs) = files;
  fi_builder : b = InitialStackBuilder.mk (block_start k) USER_STACK_BASE USER_STACK_SIZE b.(InitialStackBuilder.sp);
  fi_range : USER_STACK_BASE <= b.(InitialStackBuilder.sp) <= stack_top;
  fi_tail : Z.of_nat (length tail) = stack_top - b.(InitialStackBuilder.sp);
  fi_claim : claim s0 st.(Loader.memory) trees fs
    ((Area.mk USER_STACK_BASE read_write (replicate (Z.to_nat (b.(InitialStackBuilder.sp) - USER_STACK_BASE)) 0 ++ tail), k) :: l0);
  fi_show : show st.(Loader.memory) fs
    ((Area.mk USER_STACK_BASE read_write (replicate (Z.to_nat (b.(InitialStackBuilder.sp) - USER_STACK_BASE)) 0 ++ tail), k) :: l0)
}.
Definition spoiled st : Prop := st.(Loader.root_fs) = files ∧ ∃ a, claim s0 st.(Loader.memory) trees fs ((a, k) :: l0).
Lemma filling_spoiled b tail st : filling b tail st → spoiled st.
Proof. intros [H _ _ _ Hc _]. split; [done|]. by eexists. Qed.

(** storing bytes right below the pointer *)
Lemma fill_below b tail st sp d : filling b tail st → InitialStackBuilder.ensure_in_stack (InitialStackBuilder.set_sp sp b) sp (Z.of_nat (length d)) = Ok tt →
  sp + Z.of_nat (length d) = b.(InitialStackBuilder.sp) →
  filling (InitialStackBuilder.set_sp sp b) (d ++ tail)
    (Loader.mk st.(Loader.root_fs) (write_memory (b.(InitialStackBuilder.base) + (sp - b.(InitialStackBuilder.user_base))) d st.(Loader.memory))).
Proof.
  intros [H1 H2 H3 H4 H5 H6] He Hsp. rewrite H2 in He |- *. unfold InitialStackBuilder.set_sp in *. cbn [InitialStackBuilder.base InitialStackBuilder.user_base
    InitialStackBuilder.len InitialStackBuilder.sp] in *. unfold stack_top in *.
  assert (USER_STACK_BASE <= sp) as Hlow.
  { unfold InitialStackBuilder.ensure_in_stack in He. cbn in He. destruct (Z.ltb_spec sp USER_STACK_BASE); [done|done]. }
  set (sp0 := InitialStackBuilder.sp b) in *.
  destruct (write_top _ _ _ _ _ _ s0 _ _ _ _ _ _ (Z.to_nat (sp - USER_STACK_BASE)) d H5) as [Hc Hs].
  { cbn [Area.data]. rewrite length_app, length_replicate. lia. }
  assert (block_start k + Z.of_nat (Z.to_nat (sp - USER_STACK_BASE)) = block_start k + (sp - USER_STACK_BASE)) as Eo by lia.
  rewrite Eo in Hc, Hs. unfold put in Hc, Hs. cbn [Area.data Area.set_data Area.start Area.protection] in Hc, Hs.
  rewrite write_prefix in Hc, Hs by lia.
  split; cbn [Loader.root_fs Loader.memory InitialStackBuilder.sp]; [done|done|unfold stack_top; lia|rewrite length_app; unfold stack_top; lia|exact Hc|by apply Hs].
Qed.

Lemma push_u64_spec b tail st v : filling b tail st →
  match push_u64 b v st with
  | (Ok b', st') => filling b' (to_le_bytes 8 v ++ tail) st' ∧ b'.(InitialStackBuilder.sp) = b.(InitialStackBuilder.sp) - 8
  | (Err e, st') => spoiled st' ∧ e ≠ Fault.Panics
  end.
Proof.
  intros Hf. unfold push_u64. rewrite try_run. unfold checked_sub, ok_or. pose proof (filling_spoiled _ _ _ Hf) as Hsp.
  destruct (Z.leb_spec 8 b.(InitialStackBuilder.sp)); [|done]. rewrite try_run.
  destruct (InitialStackBuilder.ensure_in_stack _ _ _) as [[]|e] eqn:He; [|done]. rewrite write_run. cbn [mret M_ret].
  split; [|done].
  refine (fill_below b tail st _ (to_le_bytes 8 v) Hf _ _); [by rewrite length_to_le|rewrite length_to_le; lia].
Qed.
Lemma words_bytes_app w1 w2 : words_bytes (w1 ++ w2) = words_bytes w1 ++ words_bytes w2.
Proof. unfold words_bytes. by rewrite fmap_app, concat_app. Qed.
Lemma length_words_bytes w : length (words_bytes w) = (8 * length w)%nat.
Proof.
  induction w as [|v w IH]; [done|]. change (v :: w) with ([v] ++ w). rewrite words_bytes_app, !length_app, IH.
  unfold words_bytes. cbn [fmap list_fmap concat]. rewrite length_app, length_to_le. cbn [length]. lia.
Qed.
Definition pushed (words : list Z) b tail (r : result Fault.t InitialStackBuilder.t * State) : Prop :=
  match r with
  | (Ok b', st') => filling b' (words_bytes words ++ tail) st' ∧
      b'.(InitialStackBuilder.sp) = b.(InitialStackBuilder.sp) - 8 * Z.of_nat (length words)
  | (Err e, st') => spoiled st' ∧ e ≠ Fault.Panics
  end.
Lemma pushed_bind w1 w2 b tail r (next : InitialStackBuilder.t → M State Fault.t InitialStackBuilder.t) :
  pushed w1 b tail r → (∀ b' tail' st', filling b' tail' st' → pushed w2 b' tail' (next b' st')) →
  pushed (w2 ++ w1) b tail (match r with (Ok b', st') => next b' st' | (Err e, st') => (Err e, st') end).
Proof.
  intros Hr Hn. destruct r as [[b'|e] st']; [|exact Hr]. destruct Hr as [Hf Hsp]. specialize (Hn _ _ _ Hf).
  destruct (next b' st') as [[b2|e] st2]; [|exact Hn]. destruct Hn as [Hf2 Hsp2].
  split; [by rewrite words_bytes_app, <-app_assoc|]. rewrite Hsp2, Hsp, length_app. lia.
Qed.
Lemma pushed_one b tail st v : filling b tail st → pushed [v] b tail (push_u64 b v st).
Proof.
  intros Hf. pose proof (push_u64_spec b tail st v Hf) as H. destruct (push_u64 b v st) as [[b'|e] st']; [|done].
  destruct H as [H1 H2]. split; [|rewrite H2; cbn [length]; lia]. unfold words_bytes. cbn [fmap list_fmap concat]. by rewrite app_nil_r.
Qed.
Lemma push_all_spec ptrs count b tail st : filling b tail st → (count <= length ptrs)%nat →
  pushed (take count ptrs) b tail (push_all b ptrs count st).
Proof.
  revert b tail st. induction count as [|count IH]; intros b tail st Hf Hc.
  { split; rewrite take_0; [done|cbn [length]; lia]. }
  destruct (lookup_lt_is_Some_2 ptrs count) as [v Hv]; [lia|].
  unfold push_all. rewrite seq_S, reverse_snoc. cbn [mfold Nat.add].
  assert (push_index ptrs b count st = push_u64 b v st) as Hp by (unfold push_index, index; by rewrite Hv).
  unfold mbind, M_bind. rewrite Hp. change (pushed (take (S count) ptrs) b tail (match push_u64 b v st with
    (Ok b', st') => push_all b' ptrs count st' | (Err e, st') => (Err e, st') end)).
  rewrite (take_S_r _ _ _ Hv). apply pushed_bind; [by apply pushed_one|]. intros b' tail' st' Hf'. apply IH; [done|lia].
Qed.
Lemma aligned_filling b tail st : filling b tail st →
  filling (InitialStackBuilder.set_sp (Z.ldiff b.(InitialStackBuilder.sp) 0xf) b)
    (replicate (Z.to_nat (b.(InitialStackBuilder.sp) mod 16)) 0 ++ tail) st.
Proof.
  intros [H1 H2 H3 H4 H5 H6].
  assert (Z.ldiff b.(InitialStackBuilder.sp) 0xf = b.(InitialStackBuilder.sp) - b.(InitialStackBuilder.sp) mod 16) as E.
  { change 0xf with (Z.ones 4). rewrite Z.ldiff_ones_r by lia. rewrite Z.shiftl_mul_pow2, Z.shiftr_div_pow2 by lia.
    rewrite (Z.mod_eq _ 16) by lia. change (2 ^ 4) with 16. lia. }
  rewrite E. unfold stack_top in *. pose proof (Z.mod_pos_bound b.(InitialStackBuilder.sp) 16 ltac:(lia)) as Hm.
  set (sp := b.(InitialStackBuilder.sp)) in *.
  assert (USER_STACK_BASE <= sp - sp mod 16) as Hlow.
  { unfold USER_STACK_BASE in *. Z.to_euclidean_division_equations. lia. }
  assert (replicate (Z.to_nat (sp - sp mod 16 - USER_STACK_BASE)) 0 ++ replicate (Z.to_nat (sp mod 16)) 0 ++ tail =
    replicate (Z.to_nat (sp - USER_STACK_BASE)) 0 ++ tail) as Er.
  { rewrite app_assoc, <-replicate_add. do 2 f_equal. lia. }
  split; cbn [InitialStackBuilder.set_sp InitialStackBuilder.sp]; rewrite ?Er; try done.
  - rewrite H2. done.
  - unfold stack_top. lia.
  - rewrite length_app, length_replicate. unfold stack_top. lia.
Qed.
Lemma pushed_then w1 w2 (p : M State Fault.t InitialStackBuilder.t) (next : InitialStackBuilder.t → M State Fault.t InitialStackBuilder.t) b tail st :
  pushed w1 b tail (p st) → (∀ b' tail' st', filling b' tail' st' → pushed w2 b' tail' (next b' st')) →
  pushed (w2 ++ w1) b tail ((p ≫= next) st).
Proof. apply pushed_bind. Qed.
Lemma finish_spec b tail st argv_ptrs argc envp_ptrs envc : filling b tail st → 0 <= argc <= Z.of_nat (length argv_ptrs) →
  0 <= envc <= Z.of_nat (length envp_ptrs) →
  match finish b argv_ptrs argc envp_ptrs envc st with
  | (Ok sp, st') => ∃ b', sp = b'.(InitialStackBuilder.sp) ∧
      filling b' (words_bytes ([argc] ++ take (Z.to_nat argc) argv_ptrs ++ [0] ++ take (Z.to_nat envc) envp_ptrs ++ [0; 0; 0]) ++
        replicate (Z.to_nat (b.(InitialStackBuilder.sp) mod 16)) 0 ++ tail) st'
  | (Err e, st') => spoiled st' ∧ e ≠ Fault.Panics
  end.
Proof.
  intros Hf Ha He. unfold finish. set (b1 := InitialStackBuilder.set_sp _ b). set (tail1 := replicate _ 0 ++ tail).
  assert (filling b1 tail1 st) as Hf1 by by apply aligned_filling.
  set (words := [argc] ++ _).
  assert (pushed words b1 tail1
    ((b ← push_u64 b1 0; b ← push_u64 b 0; b ← push_u64 b 0; b ← push_all b envp_ptrs (Z.to_nat envc); b ← push_u64 b 0;
      b ← push_all b argv_ptrs (Z.to_nat argc); push_u64 b argc) st)) as Hp.
  { replace words with (((((([argc] ++ take (Z.to_nat argc) argv_ptrs) ++ [0]) ++ take (Z.to_nat envc) envp_ptrs) ++ [0]) ++ [0]) ++ [0])
      by (unfold words; by rewrite <-!app_assoc).
    apply pushed_then; [by apply pushed_one|]. intros b2 t2 st2 Hf2. apply pushed_then; [by apply pushed_one|]. intros b3 t3 st3 Hf3.
    apply pushed_then; [by apply pushed_one|]. intros b4 t4 st4 Hf4. apply pushed_then; [apply push_all_spec; [done|lia]|]. intros b5 t5 st5 Hf5.
    apply pushed_then; [by apply pushed_one|]. intros b6 t6 st6 Hf6. apply pushed_then; [apply push_all_spec; [done|lia]|].
    intros b7 t7 st7 Hf7. by apply pushed_one. }
  unfold mbind, M_bind in *.
  destruct (push_u64 b1 0 st) as [[b2|e] st2]; [|exact Hp]. destruct (push_u64 b2 0 st2) as [[b3|e] st3]; [|exact Hp].
  destruct (push_u64 b3 0 st3) as [[b4|e] st4]; [|exact Hp]. destruct (push_all b4 _ _ st4) as [[b5|e] st5]; [|exact Hp].
  destruct (push_u64 b5 0 st5) as [[b6|e] st6]; [|exact Hp]. destruct (push_all b6 _ _ st6) as [[b7|e] st7]; [|exact Hp].
  destruct (push_u64 b7 argc st7) as [[b8|e] st8]; [|exact Hp]. cbn [mret M_ret]. exists b8. split; [done|]. apply Hp.
Qed.

(** *** The strings *)
Section strings.
Hypotheses (Hcaller : caller_mapped m0) (Hreads : ∀ mem l, claim s0 mem trees fs l → same_reads m0 mem).
Lemma copy_string_spec v b tail st copied idx : filling b tail st →
  match copy_string v (b, copied) idx st with
  | (Ok (b', copied'), st') => ∃ str, vector_string m0 v idx = Ok str ∧ filling b' (str ++ [0] ++ tail) st' ∧
      b'.(InitialStackBuilder.sp) = b.(InitialStackBuilder.sp) - (Z.of_nat (length str) + 1) ∧
      (idx < length copied)%nat ∧ copied' = <[idx := b'.(InitialStackBuilder.sp)]> copied
  | (Err e, st') => spoiled st' ∧ (e = Fault.Panics → (length copied <= idx)%nat)
  end.
Proof.
  intros Hf. pose proof (filling_spoiled _ _ _ Hf) as Hbad. pose proof (Hreads _ _ (fi_claim _ _ _ Hf)) as Hsr.
  unfold copy_string. rewrite peek_run, (same_u64 _ _ Hcaller Hsr). unfold vector_string.
  destruct (read_user_u64 m0 _) as [ptr|e]; [|done]. cbn [mbind result_bind]. rewrite peek_run, (same_cstr _ _ Hcaller Hsr).
  destruct (user_cstr m0 ptr) as [sl|e] eqn:Hsl; [|done]. cbn [mbind result_bind].
  destruct (cstr_live _ _ _ Hcaller Hsl) as [Hlen _].
  rewrite try_run. unfold checked_add. rewrite (proj2 (Z.leb_le _ _)) by (unfold umax; lia). cbn [ok_or].
  rewrite try_run. unfold checked_sub. destruct (Z.leb_spec (sl.2 + 1) b.(InitialStackBuilder.sp)) as [Hle|]; [|done]. cbn [ok_or].
  rewrite try_run. set (sp := b.(InitialStackBuilder.sp) - (sl.2 + 1)).
  destruct (InitialStackBuilder.ensure_in_stack _ _ _) as [[]|e] eqn:He; [|done]. rewrite gets_run.
  rewrite (same_slice_bytes _ _ _ _ Hcaller Hsr Hsl). set (str := slice_bytes m0 sl).
  assert (Z.of_nat (length str) = sl.2) as Estr by (unfold str, slice_bytes; rewrite length_load; lia).
  rewrite !write_run. cbn [Loader.root_fs Loader.memory].
  set (b1 := InitialStackBuilder.set_sp sp b).
  set (mem := write_memory (_ + sl.2) [0] _).
  assert (filling b1 ((str ++ [0]) ++ tail) (Loader.mk st.(Loader.root_fs) mem)) as Hf1.
  { replace mem with (write_memory (b.(InitialStackBuilder.base) + (sp - b.(InitialStackBuilder.user_base))) (str ++ [0]) st.(Loader.memory)).
    - apply fill_below; [done| |]; rewrite length_app, Nat2Z.inj_add, Estr; [exact He|]. unfold sp. cbn [length]. lia.
    - unfold mem, write_memory. cbn [manager set_manager MemoryManager.bytes MemoryManager.set_bytes b1 InitialStackBuilder.set_sp
        InitialStackBuilder.base InitialStackBuilder.user_base]. rewrite store_app, Estr. done. }
  rewrite <-app_assoc in Hf1. unfold set_index. destruct (Nat.ltb_spec idx (length copied)) as [Hi|Hi].
  - cbn [mbind M_bind mret M_ret]. exists str. split_and!; [done|exact Hf1| |done|done]. unfold b1. cbn. unfold sp. lia.
  - split; [|done]. by eapply filling_spoiled.
Qed.
Lemma copy_strings_loop v n : ∀ i b tail st copied, filling b tail st → (i + n <= length copied)%nat ∨ (i <= length copied)%nat →
  match mfold (copy_string v) (b, copied) (seq i n) st with
  | (Ok (b', copied'), st') => ∃ strs, mapM (vector_string m0 v) (seq i n) = Ok strs ∧ filling b' (strings_tail strs tail) st' ∧
      length strs = n ∧ (i + n <= length copied)%nat ∧
      copied' = take i copied ++ string_ptrs b.(InitialStackBuilder.sp) strs ++ drop (i + n) copied
  | (Err e, st') => spoiled st' ∧ (e = Fault.Panics → (length copied < i + n)%nat)
  end.
Proof.
  induction n as [|n IH]; intros i b tail st copied Hf Hi; cbn [seq mfold].
  { cbn [mret M_ret]. exists []. split_and!; [done|done|done|lia|]. cbn [string_ptrs app]. by rewrite Nat.add_0_r, take_drop. }
  pose proof (copy_string_spec v b tail st copied i Hf) as H1. unfold mbind at 1, M_bind at 1.
  destruct (copy_string v (b, copied) i st) as [[[b1 copied1]|e] st1].
  2:{ destruct H1 as [H1 H2]. split; [done|]. intros E. specialize (H2 E). lia. }
  destruct H1 as (str & Hstr & Hf1 & Hsp & Hlt & ->).
  specialize (IH (S i) b1 (str ++ [0] ++ tail) st1 (<[i := b1.(InitialStackBuilder.sp)]> copied) Hf1).
  rewrite length_insert in IH. specialize (IH ltac:(lia)).
  destruct (mfold _ _ _ st1) as [[[b2 copied2]|e] st2].
  2:{ destruct IH as [H1 H2]. split; [done|]. intros E. specialize (H2 E). lia. }
  destruct IH as (strs & Hm & Hf2 & Hlen & Hb & ->). exists (str :: strs).
  split_and!; [|exact Hf2|cbn; lia|lia|].
  - change (mapM (vector_string m0 v) (i :: seq (S i) n)) with
      (y ← vector_string m0 v i; k ← mapM (vector_string m0 v) (seq (S i) n); mret (y :: k)). rewrite Hstr. cbn [mbind result_bind]. by rewrite Hm.
  - rewrite (take_S_r _ _ b1.(InitialStackBuilder.sp)) by (by rewrite list_lookup_insert_eq). rewrite take_insert_ge by lia.
    rewrite drop_insert_lt by lia. cbn [string_ptrs]. rewrite Hsp, <-app_assoc. cbn [app].
    replace (i + S n)%nat with (S i + n)%nat by lia. done.
Qed.
End strings.
Definition vector_readable (v : ExecVectorMetadata.t) : Prop :=
  v.(ExecVectorMetadata.count) = 0 ∨ caller_mapped m0 ∧ ∀ mem l, claim s0 mem trees fs l → same_reads m0 mem.
Lemma copy_vector_spec v b tail st : filling b tail st → 0 <= v.(ExecVectorMetadata.count) → vector_readable v →
  match copy_vector_strings b v st with
  | (Ok (b', ptrs), st') => ∃ strs, vector_strings m0 v = Ok strs ∧ filling b' (strings_tail strs tail) st' ∧
      Z.of_nat (length strs) = v.(ExecVectorMetadata.count) ∧ v.(ExecVectorMetadata.count) <= Z.of_nat (length ptrs) ∧
      take (Z.to_nat v.(ExecVectorMetadata.count)) ptrs = string_ptrs b.(InitialStackBuilder.sp) strs
  | (Err e, st') => spoiled st' ∧ (e = Fault.Panics → 64 < v.(ExecVectorMetadata.count))
  end.
Proof.
  intros Hf Hc Hr. unfold copy_vector_strings, vector_strings. destruct Hr as [E|[Hcm Hsr]].
  { rewrite E. cbn [Z.to_nat seq mfold mret M_ret]. exists []. split_and!; [done|done|done|rewrite length_replicate; lia|done]. }
  pose proof (copy_strings_loop Hcm Hsr v (Z.to_nat v.(ExecVectorMetadata.count)) 0 b tail st (replicate MAX_EXEC_ARGS 0) Hf) as H.
  rewrite length_replicate in H. specialize (H ltac:(unfold MAX_EXEC_ARGS; lia)).
  destruct (mfold _ _ _ st) as [[[b' ptrs]|e] st'].
  2:{ destruct H as [H1 H2]. split; [done|]. intros E. specialize (H2 E). unfold MAX_EXEC_ARGS in H2. lia. }
  destruct H as (strs & H1 & H2 & H3 & H4 & ->). exists strs. rewrite take_0. cbn [app Nat.add] in *.
  split_and!; [done|done|lia| |].
  - rewrite length_app, length_string_ptrs, length_drop, length_replicate. lia.
  - rewrite take_app_le by (rewrite length_string_ptrs; lia). rewrite take_ge by (rewrite length_string_ptrs; lia). done.
Qed.
End stack.

(** ** Segments *)
Definition load_address (h : ElfHeader.t) (address : Z) : Z :=
  if h.(ElfHeader.file_type) =? ET_DYN then PIE_LOAD_BASE + address else address.
Definition segment_start (h : ElfHeader.t) (ph : ProgramHeader.t) : Z := load_address h ph.(ProgramHeader.vaddr).
(** the bytes of the file at their offset in the page, the rest zero *)
Definition segment_data (data : list Z) (h : ElfHeader.t) (ph : ProgramHeader.t) : list Z :=
  let offset := segment_start h ph mod 4096 in
  let len := (offset + ph.(ProgramHeader.memsz) + 4095) / 4096 * 4096 in
  replicate (Z.to_nat offset) 0 ++ slice (Z.to_nat ph.(ProgramHeader.offset)) (Z.to_nat ph.(ProgramHeader.filesz)) data ++
  replicate (Z.to_nat (len - offset - ph.(ProgramHeader.filesz))) 0.
Definition segment_area (data : list Z) (h : ElfHeader.t) (ph : ProgramHeader.t) : Area.t :=
  Area.mk (segment_start h ph / 4096 * 4096) (protection_from_elf_flags ph.(ProgramHeader.flags)) (segment_data data h ph).
(** the entry point is in the segment, which may be executed *)
Definition holds_entry (h : ElfHeader.t) (ph : ProgramHeader.t) : bool :=
  let entry := load_address h h.(ElfHeader.entry) in
  negb (Z.land ph.(ProgramHeader.flags) PF_X =? 0) && (segment_start h ph <=? entry)
  && (entry <? segment_start h ph + ph.(ProgramHeader.memsz)).
Record header_fits (ph : ProgramHeader.t) : Prop := {
  hf_offset : 0 <= ph.(ProgramHeader.offset); hf_vaddr : 0 <= ph.(ProgramHeader.vaddr);
  hf_filesz : 0 <= ph.(ProgramHeader.filesz); hf_memsz : 0 <= ph.(ProgramHeader.memsz)
}.

Lemma load_address_ok h a r : relocated_address a h.(ElfHeader.file_type) = Ok r → r = load_address h a.
Proof.
  unfold relocated_address, load_address. destruct (Z.eqb_spec h.(ElfHeader.file_type) ET_EXEC) as [->|]; [by intros [= ->]|].
  destruct (_ =? ET_DYN); [|done]. destruct (sum_below _ _ _); [by intros [= <-]|done].
Qed.
Lemma align_down_page_div v : 0 <= v → align_down_page v = v / 4096 * 4096.
Proof.
  intros Hv. unfold align_down_page, PAGE_SIZE. change (4096 - 1) with (Z.ones 12). rewrite Z.ldiff_ones_r by lia.
  rewrite Z.shiftl_mul_pow2, Z.shiftr_div_pow2 by lia. done.
Qed.
Lemma align_up_usize_ok v r : 0 <= v → align_up_usize v = Ok r → r = (v + 4095) / 4096 * 4096.
Proof.
  intros Hv. unfold align_up_usize, PAGE_SIZE. destruct (checked_add 64 v (4096 - 1)) as [x|] eqn:E; [|done].
  apply checked_add_Some in E as [-> _]. intros [= <-]. change (4096 - 1) with 4095. rewrite <-align_down_page_div by lia. done.
Qed.
Lemma validate_load_ok ph size : validate_load_header ph size = Ok tt →
  ph.(ProgramHeader.filesz) <= ph.(ProgramHeader.memsz) ∧ ph.(ProgramHeader.offset) + ph.(ProgramHeader.filesz) <= size ∧
  ph.(ProgramHeader.vaddr) + ph.(ProgramHeader.memsz) < USER_CANONICAL_LIMIT.
Proof.
  unfold validate_load_header, require, sum_within, sum_below.
  destruct (Z.ltb_spec ph.(ProgramHeader.memsz) ph.(ProgramHeader.filesz)) as [|H1]; [done|]. cbn [orb].
  destruct (negb (_ || _)); [|done]. cbn [mbind result_bind]. destruct (_ mod _ =? _); [|done]. cbn [mbind result_bind].
  destruct (checked_add 64 ph.(ProgramHeader.offset) _) as [x|] eqn:E1; [|done]. apply checked_add_Some in E1 as [-> _].
  destruct (Z.leb_spec (ph.(ProgramHeader.offset) + ph.(ProgramHeader.filesz)) size) as [H2|]; [|done]. cbn [mbind result_bind].
  destruct (checked_add 64 ph.(ProgramHeader.vaddr) _) as [y|] eqn:E2; [|done]. apply checked_add_Some in E2 as [-> _].
  destruct (Z.ltb_spec (ph.(ProgramHeader.vaddr) + ph.(ProgramHeader.memsz)) USER_CANONICAL_LIMIT) as [H3|]; done.
Qed.

(** the program headers of a file, and the areas of those that are loaded *)
Definition elf_header (data : list Z) : ElfHeader.t := parse_elf_header (slice 0 ELF_HEADER_SIZE data).
Definition program_header (data : list Z) (h : ElfHeader.t) (idx : nat) : ProgramHeader.t :=
  parse_program_header (slice (Z.to_nat (h.(ElfHeader.phoff) + Z.of_nat idx * 56)) PROGRAM_HEADER_SIZE data).
Definition is_load (ph : ProgramHeader.t) : bool := ph.(ProgramHeader.kind) =? PT_LOAD.
Definition load_headers (data : list Z) (h : ElfHeader.t) (indices : list nat) : list ProgramHeader.t :=
  filter (λ ph, is_load ph = true) (program_header data h <$> indices).
Definition image_headers (data : list Z) : list ProgramHeader.t :=
  let h := elf_header data in load_headers data h (seq 0 (Z.to_nat h.(ElfHeader.phnum))).
(** newest first *)
Definition image_areas (data : list Z) (args envs : list (list Z)) : list Area.t :=
  stack_area args envs :: reverse (segment_area data (elf_header data) <$> image_headers data).
Record loadable (size : Z) (h : ElfHeader.t) (ph : ProgramHeader.t) : Prop := {
  ld_sizes : ph.(ProgramHeader.filesz) <= ph.(ProgramHeader.memsz);
  ld_file : ph.(ProgramHeader.offset) + ph.(ProgramHeader.filesz) <= size;
  ld_end : segment_start h ph + ph.(ProgramHeader.memsz) <= USER_LIMIT
}.
Lemma uint_nonneg n bytes off : bytes_ok bytes → 0 <= uint_at n bytes off.
Proof. intros H. unfold uint_at. apply (from_le_fits _ (bytes_ok_slice off n bytes H)). Qed.
Lemma program_header_fits bytes : bytes_ok bytes → header_fits (parse_program_header bytes).
Proof. intros H. split; by apply uint_nonneg. Qed.

(** ** Files *)
(** What the loader relies on: [pread] leaves a buffer of the same size, and reads the data
    of the file where there is enough of it; [close] succeeds, as the trait's does. *)
Class ExecFilesLaws (FS File : Type) `{!ExecFiles FS File} := {
  holds_data : FS → File → list Z → Prop;
  pread_buffer : ∀ file buffer offset fs, let buffer' := (fs_pread file buffer offset fs).1.2 in
    length buffer' = length buffer ∧ (bytes_ok buffer → bytes_ok buffer');
  pread_data : ∀ file buffer offset fs data, holds_data fs file data → 0 <= offset →
    offset + Z.of_nat (length buffer) <= Z.of_nat (length data) →
    ∃ fs', fs_pread file buffer offset fs = ((Ok (length buffer), slice (Z.to_nat offset) (length buffer) data), fs') ∧
      holds_data fs' file data;
  close_ok : ∀ file fs, (fs_close file fs).1 = Ok tt
}.

Section loading.
Context {FS File : Type} `{!ExecFiles FS File} {F : Type} `{!FrameSource F} `{!FrameSourceLaws F}.
Variables (TABLES HEAP_SIZE static_heap kroot owner root : Z).
Abbreviation State := (Loader.t FS F).
Implicit Types (s : AddressSpaces.t F) (st : State) (l : list placed).
Abbreviation claim := (claimed TABLES HEAP_SIZE static_heap kroot owner root).
Abbreviation show := (shown root).
Variables (m0 s0 : AddressSpaces.t F).
Hypothesis (Hroot : root ∈ roots s0).

Definition readable (v : ExecVectorMetadata.t) : Prop :=
  v.(ExecVectorMetadata.count) = 0 ∨
  caller_mapped m0 ∧ ∀ mem trees fs l, claim s0 mem trees fs l → same_reads m0 mem.
Lemma readable_at v trees fs : readable v → vector_readable TABLES HEAP_SIZE static_heap kroot owner root m0 s0 trees fs v.
Proof. intros [E|[H1 H2]]; [by left|right]. split; [done|]. intros mem l. apply H2. Qed.

(** some of the address space's areas are there *)
Definition begun s : Prop := ∃ trees fs l, claim s0 s trees fs l.
Definition built s l : Prop := ∃ trees fs, claim s0 s trees fs l ∧ show s fs l.

Lemma on_memory_run {A B} (p : M (AddressSpaces.t F) unit A) e (next : A → M State Fault.t B) st :
  (on_memory p e ≫= next) st =
  match p st.(Loader.memory) with
  | (Ok a, mem) => next a (Loader.mk st.(Loader.root_fs) mem)
  | (Err _, mem) => (Err (Fault.Fails e), Loader.mk st.(Loader.root_fs) mem)
  end.
Proof. unfold mbind, M_bind, on_memory. by destruct (p _) as [[a|u] mem]. Qed.

(** mapping an area and clearing it *)
Lemma map_cleared s l va len protection : built s l → 0 <= va → 0 <= len →
  match mmap_user_fixed TABLES HEAP_SIZE static_heap owner root va len protection s with
  | (Ok g, s') => ∃ trees fs k n,
      g.(MappedRegion.ptr) = block_start k ∧ g.(MappedRegion.length_) = 4096 * Z.of_nat n ∧
      len <= 4096 * Z.of_nat n < len + 4096 ∧ va + 4096 * Z.of_nat n <= USER_LIMIT ∧ va mod 4096 = 0 ∧
      let s2 := write_memory g.(MappedRegion.ptr) (replicate (Z.to_nat g.(MappedRegion.length_)) 0) s' in
      let area := Area.mk va protection (replicate (Z.to_nat (4096 * Z.of_nat n)) 0) in
      claim s0 s2 trees fs ((area, k) :: l) ∧ show s2 fs ((area, k) :: l)
  | (Err _, s') => begun s'
  end.
Proof.
  intros (trees & fs & Hc & Hs) Hva Hlen.
  pose proof (map_area _ _ _ _ _ _ s0 s trees fs l va len protection Hc Hroot Hva Hlen) as Hm.
  destruct (mmap_user_fixed _ _ _ _ _ _ _ _ s) as [[g|[]] s']; [|destruct Hm as [more Hm]; by do 3 eexists].
  destruct Hm as (more & k & n & Hc1 & Hs1 & Hp & Hl & Hn & Hend & Hal). specialize (Hs1 Hs).
  exists trees, (fs ++ more), k, n. split_and!; try done; try lia. cbv zeta. rewrite Hp, Hl.
  assert (length (contents s' k n) = (4096 * n)%nat) as El by apply length_load.
  destruct (write_top _ _ _ _ _ _ s0 s' _ _ _ _ _ 0 (replicate (Z.to_nat (4096 * Z.of_nat n)) 0) Hc1) as [Hc2 Hs2].
  { cbn [Area.data]. rewrite length_replicate, El. lia. }
  unfold put in Hc2, Hs2. cbn [Area.data Area.set_data Area.start Area.protection] in Hc2, Hs2.
  change (Z.of_nat 0) with 0 in Hc2, Hs2. rewrite Z.add_0_r in Hc2, Hs2.
  assert (write_at 0 (replicate (Z.to_nat (4096 * Z.of_nat n)) 0) (contents s' k n) = replicate (Z.to_nat (4096 * Z.of_nat n)) 0) as Ew.
  { unfold write_at. rewrite take_0. cbn [app Nat.add]. rewrite drop_ge by (rewrite length_replicate, El; lia). by rewrite app_nil_r. }
  rewrite Ew in Hc2, Hs2. split; [done|]. by apply Hs2.
Qed.

Lemma build_stack_spec st l argv envp : built st.(Loader.memory) l →
  0 <= argv.(ExecVectorMetadata.count) → 0 <= envp.(ExecVectorMetadata.count) → readable argv → readable envp →
  match build_initial_stack TABLES HEAP_SIZE static_heap owner root argv envp st with
  | (Ok sp, st') => st'.(Loader.root_fs) = st.(Loader.root_fs) ∧
      ∃ args envs k, vector_strings m0 argv = Ok args ∧ vector_strings m0 envp = Ok envs ∧
        built st'.(Loader.memory) ((stack_area args envs, k) :: l) ∧ sp = stack_pointer_for args envs ∧
        Z.of_nat (length (stack_contents args envs)) <= USER_STACK_SIZE
  | (Err e, st') => st'.(Loader.root_fs) = st.(Loader.root_fs) ∧ begun st'.(Loader.memory) ∧
      (e = Fault.Panics → 64 < argv.(ExecVectorMetadata.count) ∨ 64 < envp.(ExecVectorMetadata.count))
  end.
Proof.
  intros Hb Ha0 He0 Ha He. unfold build_initial_stack. rewrite on_memory_run.
  pose proof (map_cleared _ _ USER_STACK_BASE USER_STACK_SIZE read_write Hb ltac:(done) ltac:(done)) as Hm.
  destruct (mmap_user_fixed _ _ _ _ _ _ _ _ _) as [[g|[]] mem]; [|done].
  destruct Hm as (trees & fs & k & n & Hp & Hl & Hn & _ & _ & Hc & Hs). rewrite write_run. cbn [Loader.root_fs Loader.memory].
  assert (4096 * Z.of_nat n = USER_STACK_SIZE) as En by (unfold USER_STACK_SIZE in *; lia). rewrite En in *.
  set (mem2 := write_memory _ _ mem) in *. set (st2 := Loader.mk st.(Loader.root_fs) mem2). cbv zeta.
  set (b := InitialStackBuilder.new _ _ _).
  assert (filling TABLES HEAP_SIZE static_heap kroot owner root s0 trees fs l k st.(Loader.root_fs) b [] st2) as Hf.
  { assert (Z.to_nat (b.(InitialStackBuilder.sp) - USER_STACK_BASE) = Z.to_nat USER_STACK_SIZE) as Esp
      by (unfold b; cbn [InitialStackBuilder.new InitialStackBuilder.sp]; rewrite Hl; f_equal; lia).
    split; rewrite ?Esp, ?app_nil_r; try done.
    - unfold b. rewrite Hp, Hl. done.
    - unfold b, stack_top. cbn [InitialStackBuilder.new InitialStackBuilder.sp]. rewrite Hl. unfold USER_STACK_SIZE. lia.
    - unfold b, stack_top. cbn [InitialStackBuilder.new InitialStackBuilder.sp length]. rewrite Hl. lia. }
  assert (b.(InitialStackBuilder.sp) = stack_top) as Esp by (unfold b; cbn [InitialStackBuilder.new InitialStackBuilder.sp]; by rewrite Hl).
  assert (∀ st, spoiled TABLES HEAP_SIZE static_heap kroot owner root s0 trees fs l k st2.(Loader.root_fs) st →
    st.(Loader.root_fs) = st2.(Loader.root_fs) ∧ begun st.(Loader.memory)) as Hbad.
  { intros st3 [H1 [a H2]]. split; [done|]. by do 3 eexists. }
  pose proof (copy_vector_spec _ _ _ _ _ _ m0 s0 trees fs l k st2.(Loader.root_fs) argv b [] st2 Hf Ha0 (readable_at _ _ _ Ha)) as H1.
  unfold mbind at 1, M_bind at 1. destruct (copy_vector_strings b argv st2) as [[[b1 argv_ptrs]|e] st3].
  2:{ destruct H1 as [H1 H2]. apply Hbad in H1 as [H1 H3]. split_and!; [done|done|]. intros E. left. by apply H2. }
  destruct H1 as (args & Hargs & Hf1 & Hla & Hca & Hpa).
  pose proof (copy_vector_spec _ _ _ _ _ _ m0 s0 trees fs l k st2.(Loader.root_fs) envp b1 _ st3 Hf1 He0 (readable_at _ _ _ He)) as H2.
  unfold mbind at 1, M_bind at 1. destruct (copy_vector_strings b1 envp st3) as [[[b2 envp_ptrs]|e] st4].
  2:{ destruct H2 as [H1 H2]. apply Hbad in H1 as [H1 H3]. split_and!; [done|done|]. intros E. right. by apply H2. }
  destruct H2 as (envs & Henvs & Hf2 & Hle & Hce & Hpe).
  pose proof (finish_spec _ _ _ _ _ _ s0 trees fs l k st2.(Loader.root_fs) b2 _ st4 argv_ptrs argv.(ExecVectorMetadata.count) envp_ptrs
    envp.(ExecVectorMetadata.count) Hf2 ltac:(lia) ltac:(lia)) as H3.
  destruct (finish b2 _ _ _ _ st4) as [[sp|e] st5].
  2:{ destruct H3 as [H1 H2]. apply Hbad in H1 as [H1 H3]. by split_and!. }
  destruct H3 as (b3 & -> & Hf3).
  assert (b1.(InitialStackBuilder.sp) = stack_top - Z.of_nat (length (strings_tail args []))) as E1 by (pose proof (fi_tail _ _ _ _ _ _ _ _ _ _ _ _ _ _ _ Hf1); lia).
  assert (b2.(InitialStackBuilder.sp) = stack_top - Z.of_nat (length (stack_strings args envs))) as E2
    by (pose proof (fi_tail _ _ _ _ _ _ _ _ _ _ _ _ _ _ _ Hf2); unfold stack_strings; lia).
  rewrite Hpa, Hpe, Esp, E1, E2, <-Hla in Hf3. fold (stack_strings args envs) in Hf3.
  change (filling TABLES HEAP_SIZE static_heap kroot owner root s0 trees fs l k st2.(Loader.root_fs) b3 (stack_contents args envs) st5) in Hf3.
  destruct Hf3 as [G1 G2 G3 G4 G5 G6]. split; [done|]. exists args, envs, k.
  assert (Z.to_nat (b3.(InitialStackBuilder.sp) - USER_STACK_BASE) = (Z.to_nat USER_STACK_SIZE - length (stack_contents args envs))%nat) as E3.
  { unfold stack_top in *. lia. }
  rewrite E3 in G5, G6. split_and!; [done|done| |unfold stack_pointer_for; lia|unfold stack_top in *; lia].
  exists trees, fs. by split.
Qed.
Context `{!ExecFilesLaws FS File}.
Variables (file : File) (data : list Z) (size : Z).
(** the file is open and holds [data], at least [size] bytes *)
Definition opened st : Prop :=
  holds_data st.(Loader.root_fs) file data ∧ bytes_ok data ∧ size <= Z.of_nat (length data).

Lemma read_array_spec len offset st :
  match read_array file len offset st with
  | (r, st') => st'.(Loader.memory) = st.(Loader.memory) ∧ r ≠ Err Fault.Panics ∧ (∀ bytes, r = Ok bytes → bytes_ok bytes) ∧
      (opened st → 0 <= offset → offset + Z.of_nat len <= size →
       r = Ok (slice (Z.to_nat offset) len data) ∧ opened st')
  end.
Proof.
  unfold read_array, read_exact. destruct (pread_buffer file (replicate len 0) offset st.(Loader.root_fs)) as [Hl Hb].
  pose proof (pread_data file (replicate len 0) offset st.(Loader.root_fs) data) as Hd. rewrite length_replicate in *.
  destruct (fs_pread file _ offset _) as [[r buffer] fs']. cbn [fst snd] in *. split_and!.
  - done.
  - destruct r as [read|e]; [by destruct (read =? len)%nat|done].
  - assert (bytes_ok buffer) by (apply Hb, Forall_replicate; lia). destruct r as [read|e]; [|done].
    destruct (read =? len)%nat; [by intros ? [= <-]|done].
  - intros (Ho & Hok & Hs) H1 H2. destruct (Hd Ho H1 ltac:(lia)) as (fs2 & E & Ho'). injection E as -> -> ->. by rewrite Nat.eqb_refl.
Qed.
(** a failed read leaves something in the buffer only *)
Lemma read_into_spec address len offset st : 0 <= len →
  match read_into file address len offset st with
  | (r, st') => r ≠ Err Fault.Panics ∧
      ∃ d, length d = Z.to_nat len ∧ st'.(Loader.memory) = write_memory address d st.(Loader.memory) ∧
      (opened st → 0 <= offset → offset + len <= size →
       opened st' ∧ d = slice (Z.to_nat offset) (Z.to_nat len) data)
  end.
Proof.
  intros Hl. unfold read_into, read_exact. set (dest := load _ _ _).
  assert (length dest = Z.to_nat len) as Ed by apply length_load.
  destruct (pread_buffer file dest offset st.(Loader.root_fs)) as [Hd _].
  pose proof (pread_data file dest offset st.(Loader.root_fs) data) as Hp. rewrite Ed in *.
  destruct (fs_pread file dest offset _) as [[r buffer] fs']. cbn [fst snd] in *. split.
  { destruct r as [read|e]; [by destruct (read =? Z.to_nat len)%nat|done]. }
  exists buffer. split_and!; [done|done|].
  intros (Ho & Hok & Hs) H1 H2. destruct (Hp Ho H1 ltac:(lia)) as (fs2 & E & Ho'). by injection E as -> -> ->.
Qed.

Lemma write_middle d len n : (length d <= len)%nat → ∀ off, (off + len <= n)%nat →
  write_at off d (replicate n 0) = replicate off 0 ++ d ++ replicate (n - off - length d) 0.
Proof.
  intros Hd off Hn. unfold write_at. rewrite take_replicate, Nat.min_l by lia. do 2 f_equal. rewrite drop_replicate. f_equal. lia.
Qed.

Lemma write_nil address s : write_memory address [] s = s.
Proof. by destruct s as [[] ? ?]. Qed.
Lemma load_segment_spec st l h ph : built st.(Loader.memory) l → header_fits ph →
  match load_segment TABLES HEAP_SIZE static_heap owner root file size h (load_address h h.(ElfHeader.entry)) ph st with
  | (Ok hit, st') => hit = holds_entry h ph ∧ loadable size h ph ∧
      ∃ a k, built st'.(Loader.memory) ((a, k) :: l) ∧ (opened st → opened st' ∧ a = segment_area data h ph)
  | (Err e, st') => begun st'.(Loader.memory) ∧ e ≠ Fault.Panics
  end.
Proof.
  intros Hb [F1 F2 F3 F4]. unfold load_segment. assert (begun st.(Loader.memory)) as Hbad by (destruct Hb as (t & f & H & _); by do 3 eexists).
  rewrite try_run. destruct (validate_load_header ph size) as [[]|e] eqn:Hv; [|done]. apply validate_load_ok in Hv as (V1 & V2 & V3).
  rewrite try_run. destruct (relocated_address _ _) as [r|e] eqn:Hr; [|done]. apply load_address_ok in Hr.
  fold (segment_start h ph) in Hr. assert (0 <= r) as Hr0.
  { rewrite Hr. unfold segment_start, load_address, PIE_LOAD_BASE. destruct (_ =? _); lia. }
  rewrite try_run, align_down_page_div by done. pose proof (Z.div_mod r 4096 ltac:(done)) as Hdm. pose proof (Z.mod_pos_bound r 4096 ltac:(done)) as Hmod.
  replace (r - r / 4096 * 4096) with (r mod 4096) by lia. set (po := r mod 4096) in *.
  destruct (checked_add 64 po _) as [sz|] eqn:Es; [|done]. apply checked_add_Some in Es as [-> _]. cbn [ok_or].
  rewrite try_run. destruct (align_up_usize _) as [map_len|e] eqn:Em; [|done]. apply align_up_usize_ok in Em; [|lia].
  rewrite try_run. destruct (checked_add 64 r _) as [send|] eqn:Ee; [|done]. apply checked_add_Some in Ee as [-> _]. cbn [ok_or].
  rewrite on_memory_run. set (memsz := ph.(ProgramHeader.memsz)) in *. set (filesz := ph.(ProgramHeader.filesz)) in *.
  assert (po + memsz <= map_len) as Hml by (rewrite Em; Z.to_euclidean_division_equations; lia).
  pose proof (map_cleared _ _ (r / 4096 * 4096) map_len (protection_from_elf_flags ph.(ProgramHeader.flags)) Hb ltac:(apply Z.mul_nonneg_nonneg; [apply Z.div_pos; lia|lia]) ltac:(lia)) as Hm.
  destruct (mmap_user_fixed _ _ _ _ _ _ _ _ _) as [[g|[]] mem]; [|done].
  destruct Hm as (trees & fs & k & n & Hp & Hl & Hn & Hend & _ & Hc & Hs). rewrite write_run. cbn [Loader.root_fs Loader.memory].
  assert (4096 * Z.of_nat n = map_len) as En by lia. rewrite En in *.
  set (mem2 := write_memory _ _ mem) in *. set (st2 := Loader.mk st.(Loader.root_fs) mem2).
  assert (∀ d, length d = Z.to_nat filesz → let mem3 := write_memory (g.(MappedRegion.ptr) + po) d mem2 in
    let a := Area.mk (r / 4096 * 4096) (protection_from_elf_flags ph.(ProgramHeader.flags))
               (replicate (Z.to_nat po) 0 ++ d ++ replicate (Z.to_nat (map_len - po - filesz)) 0) in
    claim s0 mem3 trees fs ((a, k) :: l) ∧ show mem3 fs ((a, k) :: l)) as Hw.
  { intros d Hd. destruct (write_top _ _ _ _ _ _ s0 mem2 _ _ _ _ _ (Z.to_nat po) d Hc) as [Hc3 Hs3].
    { cbn [Area.data]. rewrite length_replicate. lia. }
    rewrite Z2Nat.id, <-Hp in Hc3, Hs3 by lia. unfold put in Hc3, Hs3. cbn [Area.data Area.set_data Area.start Area.protection] in Hc3, Hs3.
    rewrite (write_middle d (length d)) in Hc3, Hs3 by lia.
    replace (Z.to_nat map_len - Z.to_nat po - length d)%nat with (Z.to_nat (map_len - po - filesz)) in Hc3, Hs3 by lia.
    split; [done|]. by apply Hs3. }
  assert (segment_area data h ph = Area.mk (r / 4096 * 4096) (protection_from_elf_flags ph.(ProgramHeader.flags))
    (replicate (Z.to_nat po) 0 ++ slice (Z.to_nat ph.(ProgramHeader.offset)) (Z.to_nat filesz) data ++ replicate (Z.to_nat (map_len - po - filesz)) 0)) as Ea.
  { unfold segment_area, segment_data. rewrite <-Hr. fold po memsz filesz. by rewrite <-Em. }
  assert (loadable size h ph) as Hld by (split; [done|done|rewrite <-Hr; fold memsz; lia]).
  cbv zeta. unfold holds_entry. rewrite <-Hr. fold memsz.
  destruct (Z.eqb_spec filesz 0) as [Ef|Ef].
  - cbn [mbind M_bind mret M_ret]. split_and!; [done|done|]. destruct (Hw []) as [Hc3 Hs3]; [by rewrite Ef|].
    rewrite write_nil in Hc3, Hs3. eexists _, k. split; [exists trees, fs; by split|]. intros Ho. split; [done|]. rewrite Ea.
    by rewrite (nil_length_inv (slice _ (Z.to_nat filesz) data)) by (rewrite Ef; unfold slice; by rewrite take_0).
  - unfold mbind at 1, M_bind at 1.
    pose proof (read_into_spec (g.(MappedRegion.ptr) + po) filesz ph.(ProgramHeader.offset) st2 F3) as Hrd.
    destruct (read_into file _ _ _ st2) as [r2 st3]. destruct Hrd as (Hnp & d & Hd & Emem & Hok).
    destruct (Hw d Hd) as [Hc3 Hs3]. change (Loader.memory st2) with mem2 in Emem. rewrite <-Emem in Hc3, Hs3.
    destruct r2 as [[]|e]; [|split; [by do 3 eexists|congruence]]. cbn [mret M_ret]. split_and!; [done|done|].
    eexists _, k. split; [exists trees, fs; by split|]. intros Ho. destruct (Hok Ho F1 ltac:(lia)) as [Ho3 ->]. by rewrite Ea.
Qed.
Lemma built_begun s l : built s l → begun s.
Proof. intros (t & f & H & _). by do 3 eexists. Qed.
Lemma load_header_spec st l h flags idx : built st.(Loader.memory) l →
  let ph := program_header data h idx in
  match load_header TABLES HEAP_SIZE static_heap owner root file size h (load_address h h.(ElfHeader.entry)) flags idx st with
  | (Ok flags', st') => ∃ l', built st'.(Loader.memory) (l' ++ l) ∧
      (opened st → 0 <= h.(ElfHeader.phoff) → h.(ElfHeader.phoff) + 56 * (Z.of_nat idx + 1) <= size → opened st' ∧
       if is_load ph then flags' = (true, flags.2 || holds_entry h ph) ∧ loadable size h ph ∧ l'.*1 = [segment_area data h ph]
       else flags' = flags ∧ l' = [])
  | (Err e, st') => begun st'.(Loader.memory) ∧ e ≠ Fault.Panics
  end.
Proof.
  intros Hb ph. pose proof (built_begun _ _ Hb) as Hbad. unfold load_header, read_program_header. change (Z.of_nat PROGRAM_HEADER_SIZE) with 56.
  rewrite bind_assoc, try_run. destruct (checked_add 64 _ _) as [off|] eqn:Eoff; [|done]. apply checked_add_Some in Eoff as [-> _]. cbn [ok_or].
  pose proof (read_array_spec PROGRAM_HEADER_SIZE (h.(ElfHeader.phoff) + Z.of_nat idx * 56) st) as Hr.
  rewrite bind_assoc. unfold mbind at 1, M_bind at 1. destruct (read_array file _ _ st) as [r st1]. destruct Hr as (Emem & Hnp & Hok & Hdata).
  rewrite <-Emem in Hb, Hbad. destruct r as [bytes|e]; [|split; [done|congruence]].
  rewrite (bind_ok _ _ (parse_program_header bytes) st1 st1) by done. fold (is_load (parse_program_header bytes)).
  assert (opened st → 0 <= h.(ElfHeader.phoff) → h.(ElfHeader.phoff) + 56 * (Z.of_nat idx + 1) <= size →
    opened st1 ∧ parse_program_header bytes = ph) as Hph.
  { intros Ho H1 H2. destruct (Hdata Ho ltac:(lia)) as [[= ->] Ho1]; [unfold PROGRAM_HEADER_SIZE; lia|]. by split. }
  destruct (is_load (parse_program_header bytes)) eqn:El.
  - pose proof (load_segment_spec st1 l h (parse_program_header bytes) Hb ltac:(by apply program_header_fits, Hok)) as Hs.
    unfold mbind, M_bind. destruct (load_segment _ _ _ _ _ _ _ _ _ _ st1) as [[hit|e] st2]; [|done].
    destruct Hs as (-> & Hld & a & k & Hb2 & Ho2). cbn [mret M_ret]. exists [(a, k)]. split; [done|]. intros Ho H1 H2.
    destruct (Hph Ho H1 H2) as [Ho1 E]. rewrite E in *. destruct (Ho2 Ho1) as [Ho3 ->]. rewrite El. by split_and!.
  - cbn [mret M_ret]. exists []. split; [done|]. intros Ho H1 H2. destruct (Hph Ho H1 H2) as [Ho1 E]. rewrite E in El. by rewrite El.
Qed.
Lemma load_headers_loop h n : ∀ i st l flags, built st.(Loader.memory) l →
  let phs := load_headers data h (seq i n) in
  match mfold (load_header TABLES HEAP_SIZE static_heap owner root file size h (load_address h h.(ElfHeader.entry))) flags (seq i n) st with
  | (Ok flags', st') => ∃ l', built st'.(Loader.memory) (l' ++ l) ∧
      (opened st → 0 <= h.(ElfHeader.phoff) → h.(ElfHeader.phoff) + 56 * Z.of_nat (i + n) <= size → opened st' ∧
       l'.*1 = reverse (segment_area data h <$> phs) ∧ Forall (loadable size h) phs ∧
       flags' = (flags.1 || negb (bool_decide (phs = [])), flags.2 || existsb (holds_entry h) phs))
  | (Err e, st') => begun st'.(Loader.memory) ∧ e ≠ Fault.Panics
  end.
Proof.
  induction n as [|n IH]; intros i st l flags Hb; cbn [seq mfold].
  { cbn [mret M_ret load_headers fmap list_fmap]. exists []. split; [done|]. intros Ho _ _. split_and!; [done|done|constructor|].
    destruct flags. cbn. by rewrite !orb_false_r. }
  pose proof (load_header_spec st l h flags i Hb) as H1. unfold mbind, M_bind. cbv zeta in H1.
  destruct (load_header _ _ _ _ _ _ _ _ _ flags i st) as [[flags1|e] st1]; [|done]. destruct H1 as (l1 & Hb1 & Hcase).
  specialize (IH (S i) st1 (l1 ++ l) flags1 Hb1). cbv zeta in *.
  destruct (mfold _ flags1 _ st1) as [[flags2|e] st2]; [|done]. destruct IH as (l2 & Hb2 & Hall). rewrite app_assoc in Hb2.
  exists (l2 ++ l1). split; [done|]. intros Ho Hoff Hend. destruct (Hcase Ho Hoff ltac:(lia)) as [Ho1 Hc].
  destruct (Hall Ho1 Hoff ltac:(lia)) as (Ho2 & El2 & Hld & ->). split; [done|].
  unfold load_headers in *. cbn [fmap list_fmap]. rewrite filter_cons. fold (program_header data h <$> seq (S i) n).
  destruct (is_load (program_header data h i)) eqn:Eload.
  - destruct Hc as (-> & Hl & El1). rewrite decide_True by done. split_and!.
    + rewrite fmap_app, El2, El1. cbn [fmap list_fmap]. by rewrite reverse_cons.
    + by constructor.
    + cbn [fst snd existsb orb]. rewrite bool_decide_eq_false_2 by done. cbn [negb]. by rewrite orb_true_r, orb_assoc.
  - destruct Hc as [-> ->]. rewrite decide_False by done. split_and!; [|done|done]. by rewrite app_nil_r.
Qed.
Lemma load_segments_spec st h : built st.(Loader.memory) [] → 0 <= h.(ElfHeader.phnum) →
  let phs := load_headers data h (seq 0 (Z.to_nat h.(ElfHeader.phnum))) in
  match load_elf_segments TABLES HEAP_SIZE static_heap owner root file size h (load_address h h.(ElfHeader.entry)) st with
  | (Ok _, st') => ∃ l', built st'.(Loader.memory) l' ∧
      (opened st → 0 <= h.(ElfHeader.phoff) → h.(ElfHeader.phoff) + 56 * h.(ElfHeader.phnum) <= size → opened st' ∧
       l'.*1 = reverse (segment_area data h <$> phs) ∧ Forall (loadable size h) phs ∧ existsb (holds_entry h) phs = true)
  | (Err e, st') => begun st'.(Loader.memory) ∧ e ≠ Fault.Panics
  end.
Proof.
  intros Hb Hn phs. unfold load_elf_segments.
  pose proof (load_headers_loop h (Z.to_nat h.(ElfHeader.phnum)) 0 st [] (false, false) Hb) as H. cbv zeta in H.
  unfold mbind, M_bind. destruct (mfold _ _ _ st) as [[[saw hit]|e] st1]; [|done]. destruct H as (l' & Hb1 & Hall). rewrite app_nil_r in Hb1.
  unfold try_, require. destruct (saw && hit) eqn:Ef; [|split; [by eapply built_begun|done]].
  exists l'. split; [done|]. intros Ho H1 H2. destruct (Hall Ho H1 ltac:(lia)) as (Ho1 & El & Hld & [= _ Eh]). fold phs in El, Hld, Eh.
  apply andb_true_iff in Ef as [_ Ef]. rewrite Ef in Eh. by split_and!.
Qed.

(** ** The header *)
Record header_ok (h : ElfHeader.t) : Prop := {
  ho_type : h.(ElfHeader.file_type) = ET_EXEC ∨ h.(ElfHeader.file_type) = ET_DYN;
  ho_phnum : 0 < h.(ElfHeader.phnum) <= MAX_PROGRAM_HEADERS;
  ho_phoff : 0 <= h.(ElfHeader.phoff);
  ho_end : h.(ElfHeader.phoff) + 56 * h.(ElfHeader.phnum) <= size
}.
Lemma read_elf_header_spec st :
  match read_elf_header file size st with
  | (Ok h, st') => header_ok h ∧ st'.(Loader.memory) = st.(Loader.memory) ∧ (opened st → h = elf_header data ∧ opened st')
  | (Err e, st') => e ≠ Fault.Panics ∧ st'.(Loader.memory) = st.(Loader.memory)
  end.
Proof.
  unfold read_elf_header. rewrite try_run. unfold require at 1. destruct (Z.leb_spec (Z.of_nat ELF_HEADER_SIZE) size) as [H64|]; [|done].
  pose proof (read_array_spec ELF_HEADER_SIZE 0 st) as Hr. unfold mbind at 1, M_bind at 1.
  destruct (read_array file _ _ st) as [r st1]. destruct Hr as (Emem & Hnp & Hok & Hdata).
  destruct r as [bytes|e]; [|split; [congruence|done]]. specialize (Hok bytes eq_refl).
  rewrite try_run. unfold require at 1. case_bool_decide; [|done]. rewrite try_run. unfold require at 1. case_bool_decide; [|done].
  set (h := parse_elf_header bytes). cbv zeta.
  assert (0 <= h.(ElfHeader.phoff) ∧ 0 <= h.(ElfHeader.phnum)) as [N1 N2] by (split; by apply uint_nonneg).
  rewrite try_run. unfold require at 1. destruct (_ && _) eqn:Ec; [|done].
  apply andb_true_iff in Ec as [Ec Hmax%Z.leb_le]. apply andb_true_iff in Ec as [Ec Hn0%negb_true_iff%Z.eqb_neq].
  apply andb_true_iff in Ec as [Ec Hsz%Z.eqb_eq]. apply andb_true_iff in Ec as [Hty _]. change (Z.of_nat PROGRAM_HEADER_SIZE) with 56 in Hsz.
  rewrite try_run, Hsz. destruct (checked_mul 64 _ _) as [pb|] eqn:Em; [|done]. cbn [ok_or].
  assert (pb = h.(ElfHeader.phnum) * 56) as -> by (unfold checked_mul in Em; by destruct (_ <=? _); [injection Em as <-|]).
  rewrite try_run. destruct (checked_add 64 _ _) as [pe|] eqn:Ea; [|done]. apply checked_add_Some in Ea as [-> _]. cbn [ok_or].
  rewrite try_run. unfold require. destruct (Z.leb_spec (h.(ElfHeader.phoff) + h.(ElfHeader.phnum) * 56) size) as [He|]; [|done].
  cbn [mret M_ret]. split_and!; [|done|].
  - split; [|lia|done|lia]. apply orb_true_iff in Hty as [Ht%Z.eqb_eq|Ht%Z.eqb_eq]; [by left|by right].
  - intros Ho. destruct (Hdata Ho ltac:(lia) ltac:(lia)) as [[= ->] Ho1]. by split.
Qed.
End loading.

(** ** The whole image *)
Section exec.
Context {FS File : Type} `{!ExecFiles FS File} `{!ExecFilesLaws FS File} {F : Type} `{!FrameSource F} `{!FrameSourceLaws F}.
Variables (TABLES HEAP_SIZE static_heap kroot : Z).
Abbreviation State := (Loader.t FS F).
Implicit Types (m s : AddressSpaces.t F) (st : State).
Abbreviation sys := (sys_ok TABLES HEAP_SIZE static_heap kroot).
Abbreviation built_in caller root := (built TABLES HEAP_SIZE static_heap kroot caller root).

(** [s] is [m] with a fresh, empty address space *)
Record created m caller root s : Prop := {
  ct_base : ∃ p table, s = set_spaces table (set_paging p m) ∧ same_env (paging m) p ∧
    occupied table ≡ₚ AddressSpace.mk caller root 1 :: occupied m.(spaces);
  ct_sys : ∃ trees fs, sys s trees fs;
  ct_fresh : root ∉ roots m;
  ct_mapped : ∀ r, r ∈ occupied m.(mappings) → r.(UserMappingRecord.root) ∈ roots m;
  ct_empty : ∀ va, 0 <= va < USER_LIMIT → upage (paging s) root va = None;
  ct_same : user_same m s
}.
Section created.
Variables (m s0 : AddressSpaces.t F) (caller root : Z).
Hypothesis (Hct : created m caller root s0).
Lemma created_roots root2 : root2 ∈ roots s0 ↔ root2 = root ∨ root2 ∈ roots m.
Proof.
  destruct (ct_base _ _ _ _ Hct) as (p & table & -> & _ & Hp). unfold roots at 1. cbn [spaces set_spaces]. rewrite Hp.
  cbn. by rewrite elem_of_cons.
Qed.
Lemma created_entry : AddressSpace.mk caller root 1 ∈ occupied s0.(spaces).
Proof. destruct (ct_base _ _ _ _ Hct) as (p & table & -> & _ & Hp). cbn [spaces set_spaces]. rewrite Hp. apply list_elem_of_here. Qed.
Lemma created_unmapped r : r ∈ occupied s0.(mappings) → r.(UserMappingRecord.root) ≠ root.
Proof.
  destruct (ct_base _ _ _ _ Hct) as (p & table & -> & _ & _). intros Hr ->%eq_sym. apply (ct_fresh _ _ _ _ Hct), (ct_mapped _ _ _ _ Hct), Hr.
Qed.
Lemma created_built : built_in caller root s0 s0 [].
Proof.
  destruct (ct_sys _ _ _ _ Hct) as (trees & fs & Hs). exists trees, fs. split.
  - by split.
  - split; [constructor| |constructor]. intros va Hva. by rewrite (ct_empty _ _ _ _ Hct).
Qed.
Lemma created_live a : in_live m a ↔ in_live s0 a.
Proof. by destruct (ct_base _ _ _ _ Hct) as (p & table & -> & _ & _). Qed.
Lemma created_reads mem trees fs l : active_user_root m ∈ roots m →
  claimed TABLES HEAP_SIZE static_heap kroot caller root s0 mem trees fs l → same_reads m mem.
Proof.
  intros Hr Hc. split.
  - eapply same_env_trans; [|apply (cl_env _ _ _ _ _ _ _ _ _ _ _ Hc)]. by destruct (ct_base _ _ _ _ Hct) as (p & table & -> & H & _).
  - intros ptr len write. rewrite (cl_find _ _ _ _ _ _ _ _ _ _ _ Hc); [by destruct (ct_base _ _ _ _ Hct) as (p & table & -> & _ & _)|].
    intros r Er. unfold UserMappingRecord.contains. rewrite Er, (proj2 (Z.eqb_neq root _)); [done|]. intros E.
    apply (ct_fresh _ _ _ _ Hct). by rewrite E.
  - intros a Ha. rewrite (cl_bytes _ _ _ _ _ _ _ _ _ _ _ Hc) by by apply created_live.
    by destruct (ct_base _ _ _ _ Hct) as (p & table & -> & _ & _).
Qed.
End created.
Lemma create_created m trees fs caller : sys m trees fs →
  match create_user_address_space caller m with
  | (Ok root, s) => created m caller root s
  | (Err _, s) => ∃ p, s = set_paging p m ∧ user_same m s
  end.
Proof.
  intros Hs. pose proof (space_create_spec _ _ _ _ _ _ _ caller Hs) as H. destruct (create_user_address_space caller m) as [[root|[]] s].
  - destruct H as (p & table & -> & Hs' & Hf & Hp & Henv & He & Hu). split; try done; [by exists p, table|by do 2 eexists|].
    apply (so_mapped _ _ _ _ _ _ _ Hs).
  - destruct H as (p & -> & _ & _ & Hu). by exists p.
Qed.

(** what is in use is as in [m] *)
Record restored m s : Prop := {
  re_spaces : occupied s.(spaces) ≡ₚ occupied m.(spaces);
  re_live : live s.(manager) ≡ₚ live m.(manager);
  re_mappings : occupied s.(mappings) ≡ₚ occupied m.(mappings);
  re_bytes : ∀ a, in_live m a → sbyte s a = sbyte m a;
  re_pages : user_same m s
}.
Lemma restored_refl m : restored m m.
Proof. by split. Qed.
Lemma returned_restored m s0 s caller root : created m caller root s0 →
  returned TABLES HEAP_SIZE static_heap kroot caller root s0 s → restored m s.
Proof.
  intros Hct [R1 R2 R3 R4 R5 R6]. pose proof Hct as [(p & table & E & _ & Hp) _ Hf _ _ Hu]. split.
  - rewrite E in R2. cbn [spaces set_spaces] in R2. rewrite Hp in R2. apply Permutation_cons_inv in R2. by rewrite R2.
  - rewrite R3, E. done.
  - rewrite R4, E. done.
  - intros a Ha. rewrite R5 by (by apply (created_live _ _ _ _ Hct)). by rewrite E.
  - intros root2 va Hr Hva. rewrite R6; [by apply Hu|by apply (created_roots _ _ _ _ Hct); right| |done]. by intros ->.
Qed.

Definition vectors_ok m (v : ExecVectorMetadata.t) : Prop :=
  0 <= v.(ExecVectorMetadata.count) <= 64 ∧ (v.(ExecVectorMetadata.count) = 0 ∨ caller_mapped m).

(** cleaning up *)
Lemma abandon_spec {A} m s0 caller root file e st : created m caller root s0 →
  begun TABLES HEAP_SIZE static_heap kroot caller root s0 st.(Loader.memory) →
  ∃ st', abandon HEAP_SIZE static_heap (A:=A) file root (Fault.Fails e) st = (Err (Fault.Fails e), st') ∧ restored m st'.(Loader.memory).
Proof.
  intros Hct (trees & fs & l & Hc). unfold abandon. unfold mbind at 1, M_bind at 1, modify. rewrite on_memory_run.
  destruct (destroy_returns _ _ _ _ _ _ _ _ _ _ _ Hc (created_entry _ _ _ _ Hct) (created_unmapped _ _ _ _ Hct)) as (s' & E & Hr).
  cbn [Loader.memory Loader.root_fs]. rewrite E. eexists. split; [done|]. by eapply returned_restored.
Qed.
Lemma catch_run {A B} (p : M State Fault.t A) h (next : A → M State Fault.t B) st :
  (catch p h ≫= next) st = match p st with (Ok a, st') => next a st' | (Err e, st') => (h e ≫= next) st' end.
Proof. unfold mbind, M_bind, catch. by destruct (p st) as [[a|e] st']. Qed.
End exec.
