(* ===== verification/Elf.v ===== *)
(** * Program images

    Models src/src/kernel/userspace/elf_loader.rs: [parse_elf64] reads the header and the
    program headers of a static executable and rejects images whose segments leave the
    file, leave the user half or share pages; [validate_elf64] also asks for an entry
    point in an executable segment.  A slice index out of range panics: [None].

    [elf_parse_safe] says that parsing never panics and what an accepted image satisfies,
    [elf_image_parsed] that every well-formed image is accepted with the segments that
    were written into it. *)

From stdpp Require Import prelude.
From S2P Require Import Prelude Bytes Abi.

Local Open Scope Z_scope.

(** a computation that may panic, or fail with an error *)
Definition may (E A : Type) : Type := option (result E A).
#[export] Instance may_ret {E} : MRet (may E) := λ A a, Some (Ok a).
#[export] Instance may_bind {E} : MBind (may E) := λ A B f m,
  match m with
  | Some (Ok a) => f a
  | Some (Err e) => Some (Err e)
  | None => None
  end.
Definition panics {E A} (o : option A) : may E A := match o with Some a => Some (Ok a) | None => None end.
Definition fails {E A} (e : E) : may E A := Some (Err e).
Fixpoint may_fold {E A B} (body : A → B → may E A) (a : A) (l : list B) : may E A :=
  match l with
  | [] => mret a
  | x :: l' => a ← body a x; may_fold body a l'
  end.

Module LoadSegment.
Record t : Type := mk { vaddr : Z; file_offset : Z; file_size : Z; mem_size : Z; flags : Z }.
Definition empty : t := mk 0 0 0 0 0.
End LoadSegment.
Module SegmentMapping.
Record t : Type := mk { map_start : Z; map_len : Z; page_offset : Z; file_start : Z }.
End SegmentMapping.
Module ParsedElf.
Record t : Type := mk { entry : Z; segments : list LoadSegment.t; segment_count : nat }.
End ParsedElf.

Definition EI_CLASS : nat := 4.
Definition EI_DATA : nat := 5.
Definition ELFCLASS64 : Z := 2.
Definition ELFDATA2LSB : Z := 1.
Definition ET_EXEC : Z := 2.
Definition EM_X86_64 : Z := 62.
Definition PT_LOAD : Z := 1.
Definition ELF_HEADER_LEN : Z := 64.
Definition PHDR_LEN : Z := 56.
Definition USER_END : Z := 0x800000000000.
Definition MAX_SEGMENTS : nat := 8.

(** [read_u16], [read_u32] and [read_u64] *)
Definition read_le (n : nat) (image : list Z) (off : Z) : option Z :=
  if (0 <=? off) && (off + Z.of_nat n <=? Z.of_nat (length image))
  then Some (from_le_bytes (slice (Z.to_nat off) n image)) else None.

Definition is_power_of_two (v : Z) : bool := (0 <? v) && (Z.land v (v - 1) =? 0).
(** [value.saturating_add(align - 1) & !(align - 1)] for 64-bit values *)
Definition align_up (value align : Z) : Z := Z.ldiff (sat_add 64 value (align - 1)) (align - 1).
Definition align_down_page (v : Z) : Z := Z.ldiff v 0xfff.

Definition segment_mapping (vaddr file_offset mem_size : Z) : SegmentMapping.t :=
  let map_start := align_down_page vaddr in
  let file_start := align_down_page file_offset in
  let page_offset := vaddr - map_start in
  let map_len := align_up (wrap_add 64 page_offset mem_size) 4096 in
  SegmentMapping.mk map_start map_len page_offset file_start.
Definition segment_page_bounds (vaddr mem_size : Z) : Z * Z :=
  let mapping := segment_mapping vaddr 0 mem_size in
  (mapping.(SegmentMapping.map_start), mapping.(SegmentMapping.map_len)).

(** the inner loop of [reject_overlapping_load_segments] *)
Definition reject_pair (a b : LoadSegment.t) : result LoadError.t unit :=
  let '(a_start, a_len) := segment_page_bounds a.(LoadSegment.vaddr) a.(LoadSegment.mem_size) in
  match checked_add 64 a_start a_len with
  | None => Err LoadError.BadLoadSegment
  | Some a_end =>
      let '(b_start, b_len) := segment_page_bounds b.(LoadSegment.vaddr) b.(LoadSegment.mem_size) in
      match checked_add 64 b_start b_len with
      | None => Err LoadError.BadLoadSegment
      | Some b_end =>
          if (a_start <? b_end) && (b_start <? a_end) then Err LoadError.OverlappingLoadSegments else Ok tt
      end
  end.
Definition reject_segment (a : LoadSegment.t) (rest : list LoadSegment.t) : result LoadError.t unit :=
  let '(a_start, a_len) := segment_page_bounds a.(LoadSegment.vaddr) a.(LoadSegment.mem_size) in
  match checked_add 64 a_start a_len with
  | None => Err LoadError.BadLoadSegment
  | Some _ => rfold (λ _ b, reject_pair a b) tt rest
  end.
Fixpoint reject_all (segments : list LoadSegment.t) : result LoadError.t unit :=
  match segments with
  | [] => Ok tt
  | a :: rest => _ ← reject_segment a rest; reject_all rest
  end.
Definition reject_overlapping_load_segments (segments : list LoadSegment.t) (count : nat) : result LoadError.t unit :=
  reject_all (take count segments).

Definition contains (start len value : Z) : bool :=
  match checked_add 64 start len with
  | Some end_ => (start <=? value) && (value <? end_)
  | None => false
  end.

(** one program header, in the loop of [parse_elf64] *)
Definition exceeds (o : option Z) (limit : Z) : bool := match o with Some end_ => limit <? end_ | None => true end.
Definition parse_header (image : list Z) (phoff phentsize : Z) (st : list LoadSegment.t * nat) (idx : nat)
    : may LoadError.t (list LoadSegment.t * nat) :=
  let '(segments, count) := st in
  let off := wrap_add 64 phoff (Z.of_nat idx * phentsize) in
  kind ← panics (read_le 4 image off);
  if negb (kind =? PT_LOAD) then mret st
  else
    flags ← panics (read_le 4 image (off + 4));
    p_offset ← panics (read_le 8 image (off + 8));
    p_vaddr ← panics (read_le 8 image (off + 16));
    p_filesz ← panics (read_le 8 image (off + 32));
    p_memsz ← panics (read_le 8 image (off + 40));
    p_align ← panics (read_le 8 image (off + 48));
    if ((1 <? p_align) && (negb (is_power_of_two p_align) || negb (p_vaddr mod p_align =? p_offset mod p_align)))
       || (p_memsz <? p_filesz)
       || exceeds (checked_add 64 p_offset p_filesz) (Z.of_nat (length image))
       || exceeds (checked_add 64 p_vaddr p_memsz) USER_END
    then fails LoadError.BadLoadSegment
    else if (count =? MAX_SEGMENTS)%nat then fails LoadError.BadProgramHeaderTable
    else mret (<[count := LoadSegment.mk p_vaddr p_offset p_filesz p_memsz flags]> segments, (count + 1)%nat).

Definition check {E} (b : bool) (e : E) : may E unit := if b then mret tt else fails e.
Definition parse_elf64 (image : list Z) : may LoadError.t ParsedElf.t :=
  let len := Z.of_nat (length image) in
  _ ← check (ELF_HEADER_LEN <=? len) LoadError.TooSmall;
  _ ← check (bool_decide (slice 0 4 image = [127; 69; 76; 70])) LoadError.BadMagic;
  class ← panics (image !! EI_CLASS);
  _ ← check (class =? ELFCLASS64) LoadError.UnsupportedClass;
  data ← panics (image !! EI_DATA);
  _ ← check (data =? ELFDATA2LSB) LoadError.UnsupportedEndian;
  file_type ← panics (read_le 2 image 16);
  _ ← check (file_type =? ET_EXEC) LoadError.UnsupportedType;
  machine ← panics (read_le 2 image 18);
  _ ← check (machine =? EM_X86_64) LoadError.UnsupportedMachine;
  entry ← panics (read_le 8 image 24);
  _ ← check (negb ((entry =? 0) || (USER_END <=? entry))) LoadError.EntryNotMapped;
  phoff ← panics (read_le 8 image 32);
  phentsize ← panics (read_le 2 image 54);
  phnum ← panics (read_le 2 image 56);
  _ ← check (negb ((phnum =? 0) || negb (phentsize =? PHDR_LEN)
                   || exceeds (checked_add 64 phoff (sat_mul 64 phentsize phnum)) len))
        LoadError.BadProgramHeaderTable;
  '(segments, count) ← may_fold (parse_header image phoff phentsize)
     (replicate MAX_SEGMENTS LoadSegment.empty, 0%nat) (seq 0 (Z.to_nat phnum));
  _ ← check (negb (count =? 0)%nat) LoadError.NoLoadSegments;
  _ ← (Some (reject_overlapping_load_segments segments count) : may LoadError.t unit);
  mret (ParsedElf.mk entry segments count).

Definition validate_elf64 (image : list Z) : may LoadError.t Z :=
  parsed ← parse_elf64 image;
  if existsb (λ s, negb (Z.land s.(LoadSegment.flags) 1 =? 0)
                   && contains s.(LoadSegment.vaddr) s.(LoadSegment.mem_size) parsed.(ParsedElf.entry))
       (take parsed.(ParsedElf.segment_count) parsed.(ParsedElf.segments))
  then mret parsed.(ParsedElf.entry) else fails LoadError.EntryNotMapped.

(** ** What an accepted image satisfies *)
Lemma read_le_in n image off : 0 <= off → off + Z.of_nat n <= Z.of_nat (length image) →
  read_le n image off = Some (from_le_bytes (slice (Z.to_nat off) n image)).
Proof. intros H1 H2. unfold read_le. rewrite (proj2 (Z.leb_le _ _)), (proj2 (Z.leb_le _ _)) by lia. done. Qed.
(** the field of [n] bytes at [off] *)
Definition field_at (n : nat) (image : list Z) (off : Z) : Z := from_le_bytes (slice (Z.to_nat off) n image).
Lemma field_fits n image off : bytes_ok image → 0 <= off → off + Z.of_nat n <= Z.of_nat (length image) → fits n (field_at n image off).
Proof.
  intros Hb H1 H2. unfold field_at. replace (fits n) with (fits (length (slice (Z.to_nat off) n image)))
    by (rewrite length_slice; [done|lia]). apply from_le_fits, bytes_ok_slice, Hb.
Qed.

(** the segment a program header describes, if it is a PT_LOAD header *)
Definition header_segment (image : list Z) (off : Z) : option LoadSegment.t :=
  if field_at 4 image off =? PT_LOAD then
    Some (LoadSegment.mk (field_at 8 image (off + 16)) (field_at 8 image (off + 8)) (field_at 8 image (off + 32))
            (field_at 8 image (off + 40)) (field_at 4 image (off + 4)))
  else None.
Definition load_headers (image : list Z) (phoff : Z) (indices : list nat) : list LoadSegment.t :=
  omap (λ idx, header_segment image (phoff + 56 * Z.of_nat idx)) indices.
(** inside the file and inside the user half *)
Record segment_ok (len : Z) (s : LoadSegment.t) : Prop := {
  sg_offset : 0 <= s.(LoadSegment.file_offset);
  sg_file : s.(LoadSegment.file_offset) + s.(LoadSegment.file_size) <= len;
  sg_sizes : 0 <= s.(LoadSegment.file_size) <= s.(LoadSegment.mem_size);
  sg_start : 0 <= s.(LoadSegment.vaddr);
  sg_end : s.(LoadSegment.vaddr) + s.(LoadSegment.mem_size) <= USER_END
}.
Definition in_segment (s : LoadSegment.t) (a : Z) : Prop := s.(LoadSegment.vaddr) <= a < s.(LoadSegment.vaddr) + s.(LoadSegment.mem_size).
(** no page holds bytes of both *)
Definition pages_apart (a b : LoadSegment.t) : Prop := ∀ x y, in_segment a x → in_segment b y → x / 4096 ≠ y / 4096.

Lemma ldiff_page v : 0 <= v → Z.ldiff v 0xfff = v / 4096 * 4096.
Proof.
  intros Hv. change 0xfff with (Z.ones 12). rewrite Z.ldiff_ones_r by lia. rewrite Z.shiftl_mul_pow2, Z.shiftr_div_pow2 by lia. done.
Qed.
Lemma page_bounds v m : 0 <= v → 0 <= m → v + m <= USER_END →
  segment_page_bounds v m = (v / 4096 * 4096, (v mod 4096 + m + 4095) / 4096 * 4096).
Proof.
  intros Hv Hm He. unfold USER_END in He. unfold segment_page_bounds, segment_mapping, align_down_page, align_up.
  cbn [SegmentMapping.map_start SegmentMapping.map_len]. rewrite (ldiff_page v) by done.
  replace (v - v / 4096 * 4096) with (v mod 4096) by (rewrite Z.mod_eq by lia; lia).
  pose proof (Z.mod_pos_bound v 4096 ltac:(lia)). rewrite wrap_add_small by (unfold umax; lia).
  rewrite sat_add_small by (unfold umax; lia). change (4096 - 1) with 0xfff. rewrite ldiff_page by lia. done.
Qed.
(** the page range covers the segment *)
Lemma page_bounds_cover v m start len x : 0 <= v → 0 <= m → v + m <= USER_END → segment_page_bounds v m = (start, len) →
  v <= x < v + m → start <= x / 4096 * 4096 ∧ x / 4096 * 4096 + 4096 <= start + len.
Proof.
  intros Hv Hm He Hb Hx. rewrite page_bounds in Hb by done. injection Hb as <- <-. Z.to_euclidean_division_equations. lia.
Qed.
Lemma reject_pair_apart len a b : segment_ok len a → segment_ok len b → reject_pair a b = Ok tt → pages_apart a b.
Proof.
  intros [? ? ? ? ?] [? ? ? ? ?]. unfold reject_pair.
  destruct (segment_page_bounds (LoadSegment.vaddr a) _) as [as_ al] eqn:Ea.
  destruct (segment_page_bounds (LoadSegment.vaddr b) _) as [bs bl] eqn:Eb.
  destruct (checked_add 64 as_ al) as [ae|] eqn:Eae; [|done]. destruct (checked_add 64 bs bl) as [be|] eqn:Ebe; [|done].
  apply checked_add_Some in Eae as [-> _], Ebe as [-> _]. destruct (_ && _) eqn:Ec; [done|]. intros _ x y Hx Hy Heq.
  eapply page_bounds_cover in Ea; [|lia|lia|lia|exact Hx]. eapply page_bounds_cover in Eb; [|lia|lia|lia|exact Hy].
  rewrite Heq in Ea. apply andb_false_iff in Ec as [Ec%Z.ltb_ge|Ec%Z.ltb_ge]; lia.
Qed.
Lemma reject_all_apart len segs : Forall (segment_ok len) segs → reject_all segs = Ok tt → ForallOrdPairs pages_apart segs.
Proof.
  induction 1 as [|a segs Ha Hs IH]; cbn [reject_all]; [constructor|]. intros ([] & H1 & H2)%result_bind_Ok. constructor; [|by apply IH].
  unfold reject_segment in H1. destruct (segment_page_bounds _ _) as [st ln]. destruct (checked_add 64 st ln); [|done].
  clear IH H2. revert H1. induction Hs as [|b segs Hb Hs IH]; cbn [rfold]; [constructor|].
  intros ([] & H1 & H2)%result_bind_Ok. constructor; [by eapply reject_pair_apart|by apply IH].
Qed.

Lemma exceeds_false w a b limit : exceeds (checked_add w a b) limit = false → a + b <= limit.
Proof.
  unfold exceeds. destruct (checked_add w a b) as [e|] eqn:E; [|done]. apply checked_add_Some in E as [-> _]. apply Z.ltb_ge.
Qed.
(** one program header inside the image *)
Lemma parse_header_spec image phoff idx segments count : bytes_ok image → Z.of_nat (length image) <= umax 64 →
  0 <= phoff → phoff + 56 * (Z.of_nat idx + 1) <= Z.of_nat (length image) →
  let off := phoff + 56 * Z.of_nat idx in
  ∃ r, parse_header image phoff 56 (segments, count) idx = Some r ∧
  match r with
  | Ok st => match header_segment image off with
             | Some s => segment_ok (Z.of_nat (length image)) s ∧ count ≠ MAX_SEGMENTS ∧ st = (<[count := s]> segments, S count)
             | None => st = (segments, count)
             end
  | Err _ => True
  end.
Proof.
  intros Hb Hl Hp Hi off. unfold parse_header. rewrite wrap_add_small by lia. replace (phoff + Z.of_nat idx * 56) with off by lia.
  assert (∀ n o, 0 <= o → o + Z.of_nat n <= 56 →
    read_le n image (off + o) = Some (field_at n image (off + o)) ∧ fits n (field_at n image (off + o))) as Hr.
  { intros n o Ho Hn. split; [apply read_le_in; lia|]. apply field_fits; [done|lia|lia]. }
  assert (read_le 4 image off = Some (field_at 4 image off)) as -> by (apply read_le_in; lia).
  destruct (Hr 4%nat 4) as [-> F1]; [lia|lia|]. destruct (Hr 8%nat 8) as [-> F2]; [lia|lia|].
  destruct (Hr 8%nat 16) as [-> F3]; [lia|lia|]. destruct (Hr 8%nat 32) as [-> F4]; [lia|lia|].
  destruct (Hr 8%nat 40) as [-> F5]; [lia|lia|]. destruct (Hr 8%nat 48) as [-> F6]; [lia|lia|].
  cbn [panics mbind may_bind mret may_ret]. unfold header_segment.
  destruct (field_at 4 image off =? PT_LOAD) eqn:Ek; cbn [negb]; [|by eexists].
  destruct (_ || _) eqn:Ec; [by eexists|]. destruct (Nat.eqb_spec count MAX_SEGMENTS) as [|Hne]; [by eexists|].
  eexists. split; [done|]. split; [|split; [done|by rewrite Nat.add_comm]].
  apply orb_false_iff in Ec as [[[_ E1]%orb_false_iff E2]%orb_false_iff E3]. apply Z.ltb_ge in E1.
  apply exceeds_false in E2, E3. unfold fits in *. split; cbn; lia.
Qed.
Record parsing (image : list Z) (phoff : Z) (l : list nat) (st : list LoadSegment.t * nat) : Prop := {
  pa_length : length st.1 = MAX_SEGMENTS;
  pa_count : (st.2 ≤ MAX_SEGMENTS)%nat;
  pa_taken : take st.2 st.1 = load_headers image phoff l;
  pa_ok : Forall (segment_ok (Z.of_nat (length image))) (load_headers image phoff l)
}.
Lemma load_headers_snoc image phoff l idx : load_headers image phoff (l ++ [idx]) =
  load_headers image phoff l ++ option_list (header_segment image (phoff + 56 * Z.of_nat idx)).
Proof. unfold load_headers. rewrite omap_app. cbn. by destruct (header_segment _ _). Qed.
Lemma parse_headers_spec image phoff l rest st : bytes_ok image → Z.of_nat (length image) <= umax 64 → 0 <= phoff →
  (∀ idx, idx ∈ rest → phoff + 56 * (Z.of_nat idx + 1) <= Z.of_nat (length image)) → parsing image phoff l st →
  ∃ r, may_fold (parse_header image phoff 56) st rest = Some r ∧
  match r with Ok st' => parsing image phoff (l ++ rest) st' | Err _ => True end.
Proof.
  intros Hb Hl Hp. revert l st. induction rest as [|idx rest IH]; intros l st Hi Hst.
  { eexists. split; [done|]. by rewrite app_nil_r. }
  destruct st as [segments count]. cbn [may_fold].
  destruct (parse_header_spec image phoff idx segments count Hb Hl Hp) as (r & -> & Hr); [apply Hi, list_elem_of_here|].
  destruct r as [st1|e]; cbn [mbind may_bind]; [|by eexists]. replace (l ++ idx :: rest) with ((l ++ [idx]) ++ rest) by by rewrite <- app_assoc.
  apply IH; [intros j Hj; apply Hi; by apply list_elem_of_further|]. destruct Hst as [H1 H2 H3 H4]. cbn [fst snd] in *.
  destruct (header_segment image (phoff + 56 * Z.of_nat idx)) as [s|] eqn:Es.
  - destruct Hr as (Hs & Hc & ->). assert (count < MAX_SEGMENTS)%nat as Hlt by lia.
    split; cbn [fst snd]; rewrite ?load_headers_snoc, ?Es; cbn [option_list].
    + by rewrite length_insert.
    + lia.
    + rewrite (take_S_r _ _ s) by (rewrite list_lookup_insert_eq; [done|lia]). rewrite take_insert_ge by lia. by rewrite H3.
    + apply Forall_app. split; [done|by constructor].
  - rewrite Hr. split; cbn [fst snd]; rewrite ?load_headers_snoc, ?Es; cbn [option_list]; by rewrite ?app_nil_r.
Qed.

(** the program headers of an image *)
Definition image_segments (image : list Z) : list LoadSegment.t :=
  load_headers image (field_at 8 image 32) (seq 0 (Z.to_nat (field_at 2 image 56))).
(** [p] lists exactly the PT_LOAD headers, in order, all inside file and user half and on
    pages of their own *)
Record elf_ok (image : list Z) (p : ParsedElf.t) : Prop := {
  el_entry : p.(ParsedElf.entry) = field_at 8 image 24 ∧ 0 < p.(ParsedElf.entry) < USER_END;
  el_array : length p.(ParsedElf.segments) = MAX_SEGMENTS ∧ (0 < p.(ParsedElf.segment_count) ≤ MAX_SEGMENTS)%nat;
  el_segments : take p.(ParsedElf.segment_count) p.(ParsedElf.segments) = image_segments image;
  el_inside : Forall (segment_ok (Z.of_nat (length image))) (image_segments image);
  el_apart : ForallOrdPairs pages_apart (image_segments image)
}.
Lemma may_check {E B} (b : bool) (e : E) (k : unit → may E B) (Q : result E B → Prop) :
  (b = true → ∃ r, k tt = Some r ∧ Q r) → (b = false → Q (Err e)) → ∃ r, (check b e ≫= k) = Some r ∧ Q r.
Proof. destruct b; cbn; [eauto|]. intros _ H. exists (Err e). auto. Qed.
Lemma may_panics {E A B} (o : option A) a (k : A → may E B) : o = Some a → (panics o ≫= k) = k a.
Proof. by intros ->. Qed.
Ltac checked H := apply may_check; [intros H|done].
Lemma parse_spec image : bytes_ok image → Z.of_nat (length image) <= umax 64 →
  ∃ r, parse_elf64 image = Some r ∧ match r with Ok p => elf_ok image p | Err _ => True end.
Proof.
  intros Hb Hl. unfold parse_elf64. checked H64. apply Z.leb_le in H64. unfold ELF_HEADER_LEN in H64.
  assert (∀ n o, 0 <= o → o + Z.of_nat n <= 64 → read_le n image o = Some (field_at n image o) ∧ fits n (field_at n image o)) as Hr
    by (intros n o Ho Hn; split; [apply read_le_in; lia|apply field_fits; [done|lia|lia]]).
  checked Hmagic. destruct (lookup_lt_is_Some_2 image EI_CLASS) as [c Hc]; [unfold EI_CLASS; lia|].
  rewrite (may_panics _ _ _ Hc). checked Hclass. destruct (lookup_lt_is_Some_2 image EI_DATA) as [d Hd]; [unfold EI_DATA; lia|].
  rewrite (may_panics _ _ _ Hd). checked Hdata. rewrite (may_panics _ _ _ (proj1 (Hr 2%nat 16 ltac:(lia) ltac:(lia)))). checked Htype.
  rewrite (may_panics _ _ _ (proj1 (Hr 2%nat 18 ltac:(lia) ltac:(lia)))). checked Hmachine.
  rewrite (may_panics _ _ _ (proj1 (Hr 8%nat 24 ltac:(lia) ltac:(lia)))). checked Hentry.
  rewrite (may_panics _ _ _ (proj1 (Hr 8%nat 32 ltac:(lia) ltac:(lia)))).
  rewrite (may_panics _ _ _ (proj1 (Hr 2%nat 54 ltac:(lia) ltac:(lia)))).
  rewrite (may_panics _ _ _ (proj1 (Hr 2%nat 56 ltac:(lia) ltac:(lia)))). checked Htable.
  apply negb_true_iff, orb_false_iff in Htable as [[_ Hps%negb_false_iff]%orb_false_iff Hend%exceeds_false]. apply Z.eqb_eq in Hps.
  unfold PHDR_LEN in Hps. rewrite Hps in *. destruct (Hr 8%nat 32 ltac:(lia) ltac:(lia)) as [_ F4]. destruct (Hr 2%nat 56 ltac:(lia) ltac:(lia)) as [_ F6].
  destruct (Hr 8%nat 24 ltac:(lia) ltac:(lia)) as [_ F3]. unfold fits in F3, F4, F6. unfold sat_mul in Hend. rewrite Z.min_l in Hend by (unfold umax; lia).
  destruct (parse_headers_spec image (field_at 8 image 32) [] (seq 0 (Z.to_nat (field_at 2 image 56)))
    (replicate MAX_SEGMENTS LoadSegment.empty, 0%nat)) as (r & -> & Hst); [done|done|lia| |split; [done|cbn; lia|done|constructor]|].
  { intros idx Hidx%elem_of_seq. lia. }
  destruct r as [[segments count]|e]; [|by eexists]. cbn [mbind may_bind]. destruct Hst as [H1 H2 H3 H4]. cbn [fst snd app] in *.
  checked Hcount. apply negb_true_iff, Nat.eqb_neq in Hcount. unfold reject_overlapping_load_segments. rewrite H3.
  destruct (reject_all _) as [[]|e] eqn:Er; [|by eexists]. eexists. split; [done|].
  apply negb_true_iff, orb_false_iff in Hentry as [He1%Z.eqb_neq He2%Z.leb_gt].
  split; cbn; [split; [done|lia]|split; [done|lia]|done|done|by eapply reject_all_apart].
Qed.
(** C23: parsing an ELF image never reads outside it.  When it succeeds, the segments are
    exactly the PT_LOAD headers of the file in order, every one lies inside the file and
    below the end of the user half, and no page holds bytes of two of them. *)
Theorem elf_parse_safe image : bytes_ok image → Z.of_nat (length image) <= umax 64 →
  ∃ r, parse_elf64 image = Some r ∧ match r with Ok p => elf_ok image p | Err _ => True end.
Proof. apply parse_spec. Qed.

(** A validated image has its entry point in an executable segment. *)
Theorem validated_entry_executable image entry : bytes_ok image → Z.of_nat (length image) <= umax 64 →
  validate_elf64 image = Some (Ok entry) →
  ∃ s, s ∈ image_segments image ∧ in_segment s entry ∧ Z.testbit s.(LoadSegment.flags) 0 = true ∧
       entry = field_at 8 image 24.
Proof.
  intros Hb Hl. unfold validate_elf64. destruct (parse_spec image Hb Hl) as (r & -> & Hr). destruct r as [p|e]; [|done].
  cbn [mbind may_bind]. rewrite (el_segments _ _ Hr). destruct (existsb _ _) eqn:Ee; [|done]. intros [= <-].
  apply existsb_exists in Ee as (s & Hs%list_elem_of_In & Hc). apply andb_true_iff in Hc as [Hf Hc]. exists s. split; [done|].
  unfold contains in Hc. destruct (checked_add 64 _ _) as [e|] eqn:Ea; [|done]. apply checked_add_Some in Ea as [-> _].
  apply andb_true_iff in Hc as [Hc1%Z.leb_le Hc2%Z.ltb_lt]. split; [done|]. split; [|apply Hr].
  apply negb_true_iff, Z.eqb_neq in Hf. destruct (Z.testbit (LoadSegment.flags s) 0) eqn:Et; [done|]. exfalso. apply Hf.
  apply Z.bits_inj'. intros n Hn. rewrite Z.land_spec, Z.bits_0. destruct (decide (n = 0)) as [->|]; [by rewrite Et|].
  rewrite (Z.bits_above_log2 1 n) by (cbn; lia). by rewrite andb_false_r.
Qed.

(** ** Writing an image *)
Module Phdr.
Record t : Type := mk { kind : Z; flags : Z; offset : Z; vaddr : Z; paddr : Z; filesz : Z; memsz : Z; align : Z }.
Definition fields (base : nat) (p : t) : list field :=
  [(base, to_le_bytes 4 p.(kind)); ((base + 4)%nat, to_le_bytes 4 p.(flags)); ((base + 8)%nat, to_le_bytes 8 p.(offset));
   ((base + 16)%nat, to_le_bytes 8 p.(vaddr)); ((base + 24)%nat, to_le_bytes 8 p.(paddr));
   ((base + 32)%nat, to_le_bytes 8 p.(filesz)); ((base + 40)%nat, to_le_bytes 8 p.(memsz));
   ((base + 48)%nat, to_le_bytes 8 p.(align))].
Definition segment (p : t) : option LoadSegment.t :=
  if p.(kind) =? PT_LOAD then Some (LoadSegment.mk p.(vaddr) p.(offset) p.(filesz) p.(memsz) p.(flags)) else None.
Definition fits_widths (p : t) : Prop :=
  fits 4 p.(kind) ∧ fits 4 p.(flags) ∧ fits 8 p.(offset) ∧ fits 8 p.(vaddr) ∧ fits 8 p.(filesz) ∧ fits 8 p.(memsz) ∧ fits 8 p.(align).
(** what the loader asks of a PT_LOAD header *)
Definition loadable (len : Z) (p : t) : Prop :=
  p.(filesz) <= p.(memsz) ∧ 0 < p.(memsz) ∧ p.(offset) + p.(filesz) <= len ∧ p.(vaddr) + p.(memsz) <= USER_END ∧
  (1 < p.(align) → is_power_of_two p.(align) = true ∧ p.(vaddr) mod p.(align) = p.(offset) mod p.(align)).
End Phdr.
Definition header_fields (entry phnum : Z) : list field :=
  [(0%nat, [127; 69; 76; 70]); (4%nat, [ELFCLASS64]); (5%nat, [ELFDATA2LSB]); (6%nat, 1 :: replicate 9 0);
   (16%nat, to_le_bytes 2 ET_EXEC); (18%nat, to_le_bytes 2 EM_X86_64); (20%nat, to_le_bytes 4 1);
   (24%nat, to_le_bytes 8 entry); (32%nat, to_le_bytes 8 64); (40%nat, to_le_bytes 8 0); (48%nat, to_le_bytes 4 0);
   (52%nat, to_le_bytes 2 64); (54%nat, to_le_bytes 2 PHDR_LEN); (56%nat, to_le_bytes 2 phnum); (58%nat, to_le_bytes 6 0)].
Fixpoint phdr_fields (base : nat) (phs : list Phdr.t) : list field :=
  match phs with [] => [] | p :: phs' => Phdr.fields base p ++ phdr_fields (base + 56) phs' end.
Definition image_fields (entry : Z) (phs : list Phdr.t) : list field :=
  header_fields entry (Z.of_nat (length phs)) ++ phdr_fields 64 phs.
Definition elf_image (entry : Z) (phs : list Phdr.t) (body : list Z) : list Z := field_bytes (image_fields entry phs) ++ body.

Lemma slice_field_bytes b pre fs off src rest : length pre = b → contiguous b fs → (off, src) ∈ fs →
  slice off (length src) (pre ++ field_bytes fs ++ rest) = src.
Proof.
  revert b pre. induction fs as [|[o s] fs IH]; intros b pre Hp Hc Hin; [by apply elem_of_nil in Hin|].
  destruct Hc as [E Hc]. cbn [fst snd] in *. subst o. apply elem_of_cons in Hin as [[= -> ->]|Hin].
  - unfold slice. rewrite drop_app_length' by done. unfold field_bytes. cbn. rewrite <- app_assoc. by rewrite take_app_length.
  - unfold field_bytes. cbn. rewrite <- !app_assoc, (app_assoc pre). apply (IH (b + length s)%nat); [|done|done].
    rewrite length_app. lia.
Qed.
Lemma contiguous_app b fs gs : contiguous b fs → contiguous (b + length (field_bytes fs)) gs → contiguous b (fs ++ gs).
Proof.
  revert b. induction fs as [|[o s] fs IH]; intros b; [by rewrite Nat.add_0_r|]. intros [E Hc] Hg. split; [done|].
  cbn [fst snd] in *. apply IH; [done|]. unfold field_bytes in Hg. cbn in Hg. rewrite length_app in Hg. by rewrite <- Nat.add_assoc.
Qed.
Lemma Phdr_contiguous base p : contiguous base (Phdr.fields base p) ∧ length (field_bytes (Phdr.fields base p)) = 56%nat.
Proof.
  unfold Phdr.fields, field_bytes. cbn. rewrite !length_app, !length_to_le. cbn. split; [|done]. repeat split; lia.
Qed.
Lemma phdr_contiguous base phs : contiguous base (phdr_fields base phs) ∧ length (field_bytes (phdr_fields base phs)) = (56 * length phs)%nat.
Proof.
  revert base. induction phs as [|p phs IH]; intros base; [done|]. cbn [phdr_fields].
  destruct (Phdr_contiguous base p) as [H1 H2]. destruct (IH (base + 56)%nat) as [H3 H4]. split.
  - apply contiguous_app; [done|]. by rewrite H2.
  - unfold field_bytes in *. rewrite bind_app, length_app. cbn [length]. lia.
Qed.
Lemma image_contiguous entry phs : contiguous 0 (image_fields entry phs) ∧
  length (field_bytes (image_fields entry phs)) = (64 + 56 * length phs)%nat.
Proof.
  unfold image_fields. destruct (phdr_contiguous 64 phs) as [H1 H2].
  assert (length (field_bytes (header_fields entry (Z.of_nat (length phs)))) = 64%nat) as H64
    by (unfold header_fields, field_bytes; cbn; by rewrite ?length_app, !length_to_le).
  split; [apply contiguous_app; [|by rewrite H64]|].
  - unfold header_fields. cbn. rewrite !length_to_le. by repeat split.
  - unfold field_bytes in *. rewrite bind_app, length_app. lia.
Qed.
Lemma image_field entry phs body n off v : ((Z.to_nat off, to_le_bytes n v) : field) ∈ image_fields entry phs → fits n v →
  field_at n (elf_image entry phs body) off = v.
Proof.
  intros Hin Hv. unfold field_at, elf_image. destruct (image_contiguous entry phs) as [Hc _].
  pose proof (slice_field_bytes 0 [] _ _ _ body eq_refl Hc Hin) as Hs. rewrite length_to_le in Hs. cbn [app] in Hs. rewrite Hs.
  by apply from_to_le.
Qed.
Lemma phdr_field base phs idx p f : phs !! idx = Some p → f ∈ Phdr.fields (base + 56 * idx) p → f ∈ phdr_fields base phs.
Proof.
  revert base idx. induction phs as [|q phs IH]; intros base idx; [done|]. destruct idx as [|idx]; cbn [lookup list_lookup].
  - intros [= ->]. rewrite Nat.mul_0_r, Nat.add_0_r. intros Hf. cbn [phdr_fields]. apply elem_of_app. by left.
  - intros Hp Hf. cbn [phdr_fields]. apply elem_of_app. right. apply (IH (base + 56)%nat idx); [done|].
    by replace (base + 56 + 56 * idx)%nat with (base + 56 * S idx)%nat by lia.
Qed.
Ltac in_fields := unfold Phdr.fields, header_fields; repeat first [apply list_elem_of_here | apply list_elem_of_further].
Lemma image_header entry phs body idx p : phs !! idx = Some p → Phdr.fits_widths p →
  header_segment (elf_image entry phs body) (64 + 56 * Z.of_nat idx) = Phdr.segment p ∧
  field_at 8 (elf_image entry phs body) (64 + 56 * Z.of_nat idx + 48) = p.(Phdr.align).
Proof.
  intros Hp (F1 & F2 & F3 & F4 & F5 & F6 & F7).
  assert (∀ n o v, 0 <= o → ((64 + 56 * idx + Z.to_nat o)%nat, to_le_bytes n v) ∈ Phdr.fields (64 + 56 * idx) p → fits n v →
    field_at n (elf_image entry phs body) (64 + 56 * Z.of_nat idx + o) = v) as H.
  { intros n o v Ho Hin Hv. apply image_field; [|done]. unfold image_fields. apply elem_of_app. right.
    eapply phdr_field; [exact Hp|]. by replace (Z.to_nat (64 + 56 * Z.of_nat idx + o)) with (64 + 56 * idx + Z.to_nat o)%nat by lia. }
  unfold header_segment, Phdr.segment. replace (64 + 56 * Z.of_nat idx) with (64 + 56 * Z.of_nat idx + 0) at 1 by lia.
  rewrite (H 4%nat 0 (Phdr.kind p)); [|lia| |done].
  2:{ replace (64 + 56 * idx + Z.to_nat 0)%nat with (64 + 56 * idx)%nat by lia. in_fields. }
  rewrite (H 4%nat 4 (Phdr.flags p)), (H 8%nat 8 (Phdr.offset p)), (H 8%nat 16 (Phdr.vaddr p)),
    (H 8%nat 32 (Phdr.filesz p)), (H 8%nat 40 (Phdr.memsz p)), (H 8%nat 48 (Phdr.align p)); try done; try lia; in_fields.
Qed.

(** a well-formed header is accepted *)
Lemma parse_header_accepts entry phs body idx p segments count :
  let image := elf_image entry phs body in
  Z.of_nat (length image) <= umax 64 → phs !! idx = Some p → Phdr.fits_widths p →
  (p.(Phdr.kind) = PT_LOAD → Phdr.loadable (Z.of_nat (length image)) p ∧ (count < MAX_SEGMENTS)%nat) →
  parse_header image 64 56 (segments, count) idx = Some (Ok match Phdr.segment p with
    | Some s => (<[count := s]> segments, S count) | None => (segments, count) end).
Proof.
  intros image Hl Hp Hf Hok. destruct (image_header entry phs body idx p Hp Hf) as [Hs Ha].
  assert (length image = 64 + 56 * length phs + length body)%nat as Hlen.
  { unfold image, elf_image. rewrite length_app. by destruct (image_contiguous entry phs) as [_ ->]. }
  pose proof (lookup_lt_Some _ _ _ Hp) as Hi. unfold parse_header. rewrite wrap_add_small by lia.
  replace (64 + Z.of_nat idx * 56) with (64 + 56 * Z.of_nat idx) by lia. set (off := 64 + 56 * Z.of_nat idx) in *.
  assert (∀ n o, 0 <= o → o + Z.of_nat n <= 56 → read_le n image (off + o) = Some (field_at n image (off + o))) as Hr
    by (intros n o Ho Hn; apply read_le_in; lia).
  assert (read_le 4 image off = Some (field_at 4 image off)) as -> by (apply read_le_in; lia).
  rewrite (Hr 4%nat 4), (Hr 8%nat 8), (Hr 8%nat 16), (Hr 8%nat 32), (Hr 8%nat 40), (Hr 8%nat 48) by lia.
  cbn [panics mbind may_bind mret may_ret]. unfold header_segment, Phdr.segment in *. fold image in Hs, Ha. rewrite Ha.
  destruct (field_at 4 image off =? PT_LOAD) eqn:Ek; destruct (Z.eqb_spec (Phdr.kind p) PT_LOAD) as [El|El]; try done.
  injection Hs as -> -> -> -> ->. destruct (Hok El) as [(H1 & H2 & H3 & H4 & H5) Hc]. destruct Hf as (F1 & F2 & F3 & F4 & F5 & F6 & F7).
  unfold fits, USER_END in *. rewrite (proj2 (checked_add_Some 64 (Phdr.offset p) (Phdr.filesz p) _)) by (unfold umax in *; split; [done|lia]).
  rewrite (proj2 (checked_add_Some 64 (Phdr.vaddr p) (Phdr.memsz p) _)) by (unfold umax in *; split; [done|lia]).
  cbn [exceeds negb]. rewrite (proj2 (Z.ltb_ge (Phdr.memsz p) _)), (proj2 (Z.ltb_ge (Z.of_nat _) _)), (proj2 (Z.ltb_ge 0x800000000000 _)) by lia.
  rewrite (proj2 (Nat.eqb_neq count MAX_SEGMENTS)) by lia. destruct (Z.ltb_spec 1 (Phdr.align p)) as [Hal|Hal].
  - destruct (H5 Hal) as [-> ->]. rewrite Z.eqb_refl. cbn. by rewrite Nat.add_comm.
  - cbn. by rewrite Nat.add_comm.
Qed.
Lemma parse_headers_accept entry phs body indices segments count :
  let image := elf_image entry phs body in
  Z.of_nat (length image) <= umax 64 → Forall Phdr.fits_widths phs →
  Forall (λ p, p.(Phdr.kind) = PT_LOAD → Phdr.loadable (Z.of_nat (length image)) p) phs →
  (∀ idx, idx ∈ indices → (idx < length phs)%nat) → length segments = MAX_SEGMENTS →
  let loads := omap (λ idx, phs !! idx ≫= Phdr.segment) indices in
  (count + length loads ≤ MAX_SEGMENTS)%nat →
  may_fold (parse_header image 64 56) (segments, count) indices =
    Some (Ok (take count segments ++ loads ++ drop (count + length loads) segments, (count + length loads)%nat)).
Proof.
  intros image Hl Hf Hok. revert segments count. induction indices as [|idx indices IH]; intros segments count Hi Hs loads Hc.
  { unfold loads. cbn. by rewrite Nat.add_0_r, take_drop. }
  destruct (lookup_lt_is_Some_2 phs idx) as [p Hp]; [apply Hi, list_elem_of_here|]. cbn [may_fold].
  assert (loads = option_list (Phdr.segment p) ++ omap (λ idx, phs !! idx ≫= Phdr.segment) indices) as El.
  { unfold loads. cbn. rewrite Hp. cbn. by destruct (Phdr.segment p). }
  rewrite El in *. rewrite length_app in *. set (rest := omap _ indices) in *.
  rewrite (parse_header_accepts entry phs body idx p); [|done|done|by eapply Forall_lookup_1 in Hf|].
  2:{ intros Hk. split; [eapply Forall_lookup_1 in Hok; [|done]; by apply Hok|]. unfold Phdr.segment in Hc. rewrite Hk in Hc. cbn in Hc. lia. }
  cbn [mbind may_bind]. destruct (Phdr.segment p) as [s|]; [change (option_list (Some s)) with [s] in *|change (option_list None) with (@nil LoadSegment.t) in *];
    cbn [app length] in *.
  - rewrite IH; [|intros j Hj; apply Hi; by apply list_elem_of_further|by rewrite length_insert|cbv zeta; fold rest; lia]. cbv zeta. fold rest. f_equal. f_equal. f_equal; [|lia].
    rewrite (take_S_r _ _ s) by (rewrite list_lookup_insert_eq; [done|lia]). rewrite take_insert_ge by lia. rewrite <- app_assoc. cbn.
    rewrite drop_insert_lt by lia. do 4 f_equal. lia.
  - rewrite IH; [done|intros j Hj; apply Hi; by apply list_elem_of_further|done|cbv zeta; fold rest; lia].
Qed.
Lemma omap_all (phs : list Phdr.t) : omap (λ idx, phs !! idx ≫= Phdr.segment) (seq 0 (length phs)) = omap Phdr.segment phs.
Proof.
  induction phs as [|p phs IH] using rev_ind; [done|]. rewrite length_app, Nat.add_comm. cbn [length Nat.add]. rewrite seq_S, !omap_app.
  f_equal.
  - rewrite <- IH. apply list_omap_ext. apply Forall2_same_length_lookup. split; [done|]. intros i x y Hx Hy.
    assert (x = y) as <- by congruence. apply lookup_seq in Hx as [-> Hlt]. by rewrite lookup_app_l by lia.
  - cbn. by rewrite lookup_app_r, Nat.sub_diag by lia.
Qed.

(** segments on pages of their own pass the overlap check *)
Lemma reject_pair_complete len a b : segment_ok len a → segment_ok len b → 0 < a.(LoadSegment.mem_size) →
  0 < b.(LoadSegment.mem_size) → pages_apart a b → reject_pair a b = Ok tt.
Proof.
  intros [? ? ? ? ?] [? ? ? ? ?] Ha Hb Hap. unfold reject_pair. rewrite !page_bounds by lia. unfold USER_END in *.
  set (va := LoadSegment.vaddr a) in *. set (vb := LoadSegment.vaddr b) in *. set (ma := LoadSegment.mem_size a) in *. set (mb := LoadSegment.mem_size b) in *.
  rewrite (proj2 (checked_add_Some 64 (va / 4096 * 4096) _ _)) by (split; [done|]; unfold umax; Z.to_euclidean_division_equations; lia).
  rewrite (proj2 (checked_add_Some 64 (vb / 4096 * 4096) _ _)) by (split; [done|]; unfold umax; Z.to_euclidean_division_equations; lia).
  destruct (_ && _) eqn:Ec; [|done]. exfalso. apply andb_true_iff in Ec as [E1%Z.ltb_lt E2%Z.ltb_lt].
  set (P := Z.max (va / 4096 * 4096) (vb / 4096 * 4096)).
  apply (Hap (Z.max P va) (Z.max P vb)); unfold in_segment; fold va vb ma mb; unfold P; Z.to_euclidean_division_equations; lia.
Qed.
Lemma reject_all_complete len segs : Forall (segment_ok len) segs → Forall (λ s, 0 < s.(LoadSegment.mem_size)) segs →
  ForallOrdPairs pages_apart segs → reject_all segs = Ok tt.
Proof.
  intros Hs Hm Hp. induction Hp as [|a segs Ha Hp IH]; [done|]. inversion_clear Hs as [|? ? Hsa Hss]. inversion_clear Hm as [|? ? Hma Hms].
  cbn [reject_all]. assert (reject_segment a segs = Ok tt) as ->; [|by apply IH]. unfold reject_segment.
  destruct Hsa as [? ? ? ? ?] eqn:E. rewrite page_bounds by lia. unfold USER_END in *.
  rewrite (proj2 (checked_add_Some 64 _ _ _)) by (split; [done|]; unfold umax; Z.to_euclidean_division_equations; lia).
  clear IH Hp E. induction Ha as [|b segs Hab Ha IH]; [done|]. inversion_clear Hss. inversion_clear Hms. cbn [rfold].
  rewrite (reject_pair_complete len a b); [by apply IH|by split|done..].
Qed.

Lemma check_then {E B} (b : bool) (e : E) (k : unit → may E B) : b = true → (check b e ≫= k) = k tt.
Proof. by intros ->. Qed.

(** C34: an image written from an entry point and program headers that fit the format is
    accepted, with exactly its PT_LOAD headers as segments. *)
Theorem elf_image_parsed entry phs body :
  let image := elf_image entry phs body in
  let loads := omap Phdr.segment phs in
  Z.of_nat (length image) <= umax 64 → 0 < entry < USER_END → Z.of_nat (length phs) < 2 ^ 16 →
  Forall Phdr.fits_widths phs →
  Forall (λ p, p.(Phdr.kind) = PT_LOAD → Phdr.loadable (Z.of_nat (length image)) p) phs →
  (0 < length loads ≤ MAX_SEGMENTS)%nat → ForallOrdPairs pages_apart loads →
  parse_elf64 image = Some (Ok (ParsedElf.mk entry
    (loads ++ drop (length loads) (replicate MAX_SEGMENTS LoadSegment.empty)) (length loads))).
Proof.
  intros image loads Hl He Hn Hf Hok Hc Hap.
  assert (length image = 64 + 56 * length phs + length body)%nat as Hlen.
  { unfold image, elf_image. rewrite length_app. by destruct (image_contiguous entry phs) as [_ ->]. }
  assert (∀ n off v, ((Z.to_nat off, to_le_bytes n v) : field) ∈ header_fields entry (Z.of_nat (length phs)) → fits n v →
    0 <= off → off + Z.of_nat n <= 64 → read_le n image off = Some v) as Hr.
  { intros n off v Hin Hv Ho Hb. rewrite read_le_in by lia. f_equal. apply image_field; [|done]. apply elem_of_app. by left. }
  assert (∀ off src, (off, src) ∈ header_fields entry (Z.of_nat (length phs)) → slice off (length src) image = src) as Hsl.
  { intros off src Hin. destruct (image_contiguous entry phs) as [Hcon _].
    apply (slice_field_bytes 0 [] _ off src body eq_refl Hcon). apply elem_of_app. by left. }
  assert (∀ off v, (off, [v]) ∈ header_fields entry (Z.of_nat (length phs)) → image !! off = Some v) as Hb1.
  { intros off v Hin. specialize (Hsl off [v] Hin). cbn [length] in Hsl. apply (f_equal (λ l, l !! 0%nat)) in Hsl.
    unfold slice in Hsl. rewrite lookup_take_lt, lookup_drop, Nat.add_0_r in Hsl by lia. exact Hsl. }
  unfold parse_elf64. fold image. rewrite (proj2 (Z.leb_le ELF_HEADER_LEN _)) by (unfold ELF_HEADER_LEN; lia). cbn [check mbind may_bind mret may_ret].
  pose proof (Hsl 0%nat [127; 69; 76; 70] ltac:(in_fields)) as Hm. cbn [length] in Hm. rewrite Hm. rewrite bool_decide_true by done.
  rewrite (Hb1 EI_CLASS ELFCLASS64) by in_fields. rewrite (Hb1 EI_DATA ELFDATA2LSB) by in_fields.
  rewrite (Hr 2%nat 16 ET_EXEC), (Hr 2%nat 18 EM_X86_64), (Hr 8%nat 24 entry), (Hr 8%nat 32 64), (Hr 2%nat 54 PHDR_LEN), (Hr 2%nat 56 (Z.of_nat (length phs)));
    try lia; try (by in_fields); try (unfold fits, USER_END in *; cbn; lia).
  cbn [panics mbind may_bind]. rewrite !check_then by done. rewrite (check_then (negb (_ || (USER_END <=? _)))).
  2:{ apply negb_true_iff, orb_false_iff. split; [apply Z.eqb_neq; lia|apply Z.leb_gt; lia]. }
  assert (length phs ≠ 0%nat) as Hne by (intros E; destruct phs; [cbn in Hc; lia|done]).
  rewrite check_then.
  2:{ unfold PHDR_LEN, sat_mul in *. rewrite Z.min_l by (unfold umax; lia). apply negb_true_iff, orb_false_iff. split.
      - apply orb_false_iff. split; [apply Z.eqb_neq; lia|done].
      - unfold exceeds. rewrite (proj2 (checked_add_Some 64 _ _ _)) by (split; [done|]; unfold umax in *; lia). apply Z.ltb_ge. lia. }
  rewrite Nat2Z.id. change PHDR_LEN with 56. pose proof (omap_all phs) as Eo.
  rewrite (parse_headers_accept entry phs body (seq 0 (length phs)));
    [|done|done|done|intros idx Hidx%elem_of_seq; lia|done|cbv zeta; rewrite Eo; fold loads; lia].
  cbv zeta. rewrite Eo. fold loads. cbn [mbind may_bind]. rewrite take_0, app_nil_l. cbn [Nat.add]. rewrite check_then by (apply negb_true_iff, Nat.eqb_neq; lia).
  unfold reject_overlapping_load_segments. rewrite take_app_length.
  rewrite (reject_all_complete (Z.of_nat (length image))); [done| | |done]; apply Forall_forall;
    intros s (p & Hp & Es)%list_elem_of_omap; rewrite Forall_forall in Hf, Hok; specialize (Hf p Hp); specialize (Hok p Hp);
    unfold Phdr.segment in Es; destruct (Z.eqb_spec (Phdr.kind p) PT_LOAD) as [Ek|]; try done; injection Es as <-;
    destruct (Hok Ek) as (H1 & H2 & H3 & H4 & _); destruct Hf as (F1 & F2 & F3 & F4 & F5 & F6 & F7); unfold fits in *; [split|];
    cbn [LoadSegment.file_offset LoadSegment.file_size LoadSegment.mem_size LoadSegment.vaddr]; lia.
Qed.

(** ** Examples *)
(** the image of the loader's own tests *)
Definition demo_phdr : Phdr.t := Phdr.mk PT_LOAD 5 0 0x400000 0 16 0x2000 0.
Definition demo_data : Phdr.t := Phdr.mk PT_LOAD 6 0 0x403000 0 8 0x100 4096.
Definition demo_elf : list Z := elf_image 0x401000 [demo_phdr; demo_data] [].
Lemma demo_elf_valid : validate_elf64 demo_elf = Some (Ok 0x401000).
Proof. by vm_compute. Qed.
Lemma demo_elf_bytes : bytes_ok demo_elf ∧ Z.of_nat (length demo_elf) <= umax 64.
Proof.
  split; [|by vm_compute]. apply Forall_forall. intros b Hb%list_elem_of_In.
  assert (forallb (λ b, (0 <=? b) && (b <? 256)) demo_elf = true) as H by by vm_compute.
  eapply forallb_forall in H; [|exact Hb]. apply andb_true_iff in H as [H1%Z.leb_le H2%Z.ltb_lt]. lia.
Qed.
Lemma elf_parse_safe_witness : ∃ r, parse_elf64 demo_elf = Some r ∧ match r with Ok p => elf_ok demo_elf p | Err _ => True end.
Proof. exact (elf_parse_safe demo_elf (proj1 demo_elf_bytes) (proj2 demo_elf_bytes)). Defined.
Lemma validated_entry_executable_witness : ∃ s, s ∈ image_segments demo_elf ∧ in_segment s 0x401000.
Proof.
  destruct (validated_entry_executable demo_elf 0x401000 (proj1 demo_elf_bytes) (proj2 demo_elf_bytes) demo_elf_valid)
    as (s & H1 & H2 & _). by exists s.
Defined.
Lemma demo_segments_apart : ForallOrdPairs pages_apart (omap Phdr.segment [demo_phdr; demo_data]).
Proof.
  repeat constructor. intros x y Hx Hy. unfold in_segment in *. cbn in *. Z.to_euclidean_division_equations. lia.
Qed.
Lemma elf_image_parsed_witness : parse_elf64 demo_elf = Some (Ok (ParsedElf.mk 0x401000
  ([LoadSegment.mk 0x400000 0 16 0x2000 5; LoadSegment.mk 0x403000 0 8 0x100 6] ++ replicate 6 LoadSegment.empty) 2)).
Proof.
  apply (elf_image_parsed 0x401000 [demo_phdr; demo_data] []); [by vm_compute|unfold USER_END; lia|cbn; lia| | |cbn; unfold MAX_SEGMENTS; lia|apply demo_segments_apart].
  - repeat constructor; by vm_compute.
  - repeat constructor; try (by vm_compute).
Defined.
