(* ===== verification/ExecTheorems.v ===== *)
(** * Theorems about loading programs

    What a program sees when it starts: its segments and its stack, byte by byte; and what
    a failed [load_exec_image] leaves behind. *)

From stdpp Require Import prelude gmap.
From S2P Require Import Prelude Bytes Slots Subkernel Permissions Vfs Process Abi FrameAllocator FrameSafety Paging PagingSafety PagingFrames PagingTheorems KernelHeap KernelHeapSafety MemoryManager MemoryManagerSafety MemoryTheorems AddressSpaces AddressSpaceSafety AddressSpaceTheorems UserMemory Elf ExecImage ExecSafety.
Import AddressSpaces.

Local Open Scope Z_scope.

Section exec.
Context {FS File : Type} `{!ExecFiles FS File} `{!ExecFilesLaws FS File} {F : Type} `{!FrameSource F} `{!FrameSourceLaws F}.
Variables (TABLES HEAP_SIZE static_heap kroot : Z).
Abbreviation State := (Loader.t FS F).
Implicit Types (m s : AddressSpaces.t F) (st : State).
Abbreviation sys := (sys_ok TABLES HEAP_SIZE static_heap kroot).
Abbreviation built_in caller root := (built TABLES HEAP_SIZE static_heap kroot caller root).

(** the entry point of a relocatable program lies beyond the user half *)
Definition entry_rejected (size : Z) (file : File) (fs : FS) m : Prop :=
  ∃ h, (read_elf_header (F:=F) file size (Loader.mk fs m)).1 = Ok h ∧
    relocated_address h.(ElfHeader.entry) h.(ElfHeader.file_type) = Err KernelError.InvalidArgument.

Record exec_done (data : list Z) st st' caller (stat : Stat) argv envp (file : File) fs (image : ExecImageMetadata.t) : Prop := {
  ed_file : image.(ExecImageMetadata.inode) = stat.(st_inode) ∧ image.(ExecImageMetadata.size) = stat.(st_size) ∧
    image.(ExecImageMetadata.mode) = stat.(st_mode);
  ed_image : ∃ s0 l args envs k,
    created TABLES HEAP_SIZE static_heap kroot st.(Loader.memory) caller image.(ExecImageMetadata.address_space_root) s0 ∧
    built_in caller image.(ExecImageMetadata.address_space_root) s0 st'.(Loader.memory) ((stack_area args envs, k) :: l) ∧
    vector_strings st.(Loader.memory) argv = Ok args ∧ vector_strings st.(Loader.memory) envp = Ok envs ∧
    image.(ExecImageMetadata.stack_pointer) = stack_pointer_for args envs ∧
    Z.of_nat (length (stack_contents args envs)) <= USER_STACK_SIZE ∧
    (holds_data fs file data → bytes_ok data → stat.(st_size) <= Z.of_nat (length data) →
      let h := elf_header data in
      header_ok stat.(st_size) h ∧ l.*1 = reverse (segment_area data h <$> image_headers data) ∧
      Forall (loadable stat.(st_size) h) (image_headers data) ∧ existsb (holds_entry h) (image_headers data) = true ∧
      image.(ExecImageMetadata.entry_point) = load_address h h.(ElfHeader.entry))
}.

Lemma fs_run {A B} (p : M FS VfsError.t A) (next : A → M State Fault.t B) st :
  (on_fs p ≫= next) st =
  match p st.(Loader.root_fs) with
  | (Ok a, fs) => next a (Loader.mk fs st.(Loader.memory))
  | (Err e, fs) => (Err (Fault.Fails (KernelError.Filesystem e)), Loader.mk fs st.(Loader.memory))
  end.
Proof. unfold mbind, M_bind, on_fs. by destruct (p _) as [[a|e] fs]. Qed.

Lemma load_exec_image_spec data st caller credentials path stat argv envp trees fs : sys st.(Loader.memory) trees fs →
  vectors_ok st.(Loader.memory) argv → vectors_ok st.(Loader.memory) envp →
  match load_exec_image TABLES HEAP_SIZE static_heap caller credentials path stat argv envp st with
  | (Ok image, st') => ∃ creds file files, credentials = Ok creds ∧ fs_open path creds st.(Loader.root_fs) = (Ok file, files) ∧
      stat.(st_kind) = InodeKind.RegularFile ∧
      Permissions.allows (Permissions.new stat.(st_mode) stat.(st_uid) stat.(st_gid)) creds AccessMode.Execute = true ∧
      exec_done data st st' caller stat argv envp file files image
  | (Err fault, st') => fault ≠ Fault.Panics ∧
      (restored st.(Loader.memory) st'.(Loader.memory) ∨
       ∃ creds file files root, credentials = Ok creds ∧ fs_open path creds st.(Loader.root_fs) = (Ok file, files) ∧
         entry_rejected stat.(st_size) file files st.(Loader.memory) ∧
         created TABLES HEAP_SIZE static_heap kroot st.(Loader.memory) caller root st'.(Loader.memory))
  end.
Proof.
  intros Hs [Ha Hra] [He Hre]. unfold load_exec_image. set (m := st.(Loader.memory)) in *.
  case_bool_decide as Hkind; cbn [negb]; [|split; [done|left; apply restored_refl]].
  rewrite try_run. destruct credentials as [creds|e]; [|split; [done|left; apply restored_refl]].
  destruct (Permissions.allows _ _ _) eqn:Hallow; cbn [negb]; [|split; [done|left; apply restored_refl]].
  rewrite try_run. destruct (path_new path) as [p|e] eqn:Hpath; [|split; [done|left; apply restored_refl]].
  apply validate_ok in Hpath as [-> _]. rewrite fs_run.
  destruct (fs_open path creds st.(Loader.root_fs)) as [[file|e] files] eqn:Hopen; [|split; [done|left; apply restored_refl]].
  fold m. pose proof (read_elf_header_spec file data stat.(st_size) (Loader.mk (FS:=FS) files m)) as Hhd.
  unfold mbind at 1, M_bind at 1.
  destruct (read_elf_header file stat.(st_size) (Loader.mk files m)) as [[h|e] st1] eqn:Ehd.
  2:{ destruct Hhd as [H1 H2]. split; [done|]. left. rewrite H2. apply restored_refl. }
  destruct Hhd as (Hok & Em1 & Hhd). cbn [Loader.memory] in Em1. rewrite on_memory_run, Em1.
  pose proof (create_created _ _ _ _ m trees fs caller Hs) as Hcr.
  destruct (create_user_address_space caller m) as [[root|[]] s0].
  2:{ destruct Hcr as (p & -> & Hu). split; [done|]. left. by split. }
  rewrite try_run. destruct (relocated_address _ _) as [entry|e] eqn:Hrel.
  2:{ split; [done|]. right. exists creds, file, files, root. split_and!; [done|done| |done].
      exists h. split; [by rewrite Ehd|]. rewrite Hrel. revert Hrel. unfold relocated_address.
      destruct (_ =? ET_EXEC); [done|]. destruct (_ =? ET_DYN); [destruct (sum_below _ _ _); [done|]|]; by intros [= <-]. }
  apply load_address_ok in Hrel. subst entry. cbn [Loader.root_fs].
  set (st2 := Loader.mk st1.(Loader.root_fs) s0). rewrite catch_run.
  assert (root ∈ roots s0) as Hroot by (apply (created_roots _ _ _ _ _ _ _ _ Hcr); by left).
  pose proof (load_segments_spec TABLES HEAP_SIZE static_heap kroot caller root s0 Hroot file data stat.(st_size) st2 h
    (created_built _ _ _ _ _ _ _ _ Hcr) ltac:(destruct Hok; lia)) as Hseg.
  destruct (load_elf_segments _ _ _ _ _ _ _ _ _ st2) as [[[]|e] st3].
  2:{ destruct Hseg as [Hb Hnp]. destruct e as [e|]; [|done].
      destruct (abandon_spec (A:=()) _ _ _ _ m s0 caller root file e st3 Hcr Hb) as (st4 & E & Hr).
      unfold mbind at 1, M_bind at 1. rewrite E. split; [done|by left]. }
  rewrite catch_run. destruct Hseg as (l & Hb3 & Hl).
  assert (∀ v, vectors_ok m v → readable TABLES HEAP_SIZE static_heap kroot caller root m s0 v) as Hrd.
  { intros v [_ [Hv|Hv]]; [by left|]. right. split; [done|]. intros mem t f l2 Hc. eapply created_reads; [done|apply (cm_root _ Hv)|done]. }
  pose proof (build_stack_spec TABLES HEAP_SIZE static_heap kroot caller root m s0 Hroot st3 l argv envp Hb3 ltac:(lia) ltac:(lia)
    (Hrd argv (conj Ha Hra)) (Hrd envp (conj He Hre))) as Hst.
  destruct (build_initial_stack _ _ _ _ _ _ _ st3) as [[sp|e] st4].
  2:{ destruct Hst as (_ & Hb & Hnp). destruct e as [e|]; [|specialize (Hnp eq_refl); lia].
      destruct (abandon_spec (A:=Z) _ _ _ _ m s0 caller root file e st4 Hcr Hb) as (st5 & E & Hr).
      unfold mbind at 1, M_bind at 1. rewrite E. split; [done|by left]. }
  destruct Hst as (_ & args & envs & k & Hargs & Henvs & Hb4 & -> & Hfit). rewrite fs_run.
  pose proof (close_ok file st4.(Loader.root_fs)) as Hcl. destruct (fs_close file _) as [r fs5]. cbn [fst] in Hcl. subst r.
  destruct (signed_exec_manifest_for_path path) as [daemon signature]. cbn [mret M_ret].
  exists creds, file, files. split_and!; [done|done|done|done|]. split; [done|].
  exists s0, l, args, envs, k. split_and!; [done|done|done|done|done|done|]. intros Hd Hby Hsz.
  destruct (Hhd (conj Hd (conj Hby Hsz))) as [Eh Ho1]. destruct Hok as [O1 O2 O3 O4]. destruct Hl as (_ & El & Hld & Hent); [done|done|done|].
  subst h. by split_and!.
Qed.
End exec.

(** ** What the program sees *)
Section sees.
Context {F : Type} `{!FrameSource F} `{!FrameSourceLaws F}.
Variables (TABLES HEAP_SIZE static_heap kroot : Z).
Implicit Types s : AddressSpaces.t F.
Abbreviation sys := (sys_ok TABLES HEAP_SIZE static_heap kroot).

(** the user reaches a byte of memory at [va] *)
Definition sees s (root va : Z) (write : bool) (b : Z) : Prop := ∃ a p,
  translate_user_page root va write (paging s) = Some p ∧ translate_virt a (paging s) = Some p ∧ sbyte s a = b.
Definition sees_bytes s (root va : Z) (bytes : list Z) : Prop :=
  ∀ i b, bytes !! i = Some b → sees s root (va + Z.of_nat i) false b.
(** the address space shows exactly these areas, newest first *)
Definition shows_areas s (root : Z) (areas : list Area.t) : Prop := ∀ va write, 0 <= va < USER_LIMIT →
  match view id areas va with
  | Some a =>
      if negb write || a.(Area.protection).(MemoryProtection.write)
      then sees s root va write (default 0 (a.(Area.data) !! Z.to_nat (va - a.(Area.start))))
      else translate_user_page root va write (paging s) = None
  | None => translate_user_page root va write (paging s) = None
  end.

Lemma view_fst l va : view id (l.*1) va = fst <$> view fst (l : list placed) va.
Proof.
  induction l as [|p l IH]; [done|]. cbn [fmap list_fmap view]. unfold id at 1. destruct (Area.covers p.1 va); [done|exact IH].
Qed.

Lemma built_shows owner root s0 s l : built TABLES HEAP_SIZE static_heap kroot owner root s0 s l → root ∈ roots s →
  Forall (λ a : Area.t, a.(Area.start) mod 4096 = 0) l.*1 → shows_areas s root l.*1.
Proof.
  intros (trees & fs & Hc & Hs) Hr Hal va write Hva. rewrite view_fst. pose proof (sh_pages _ _ _ _ Hs va Hva) as Hp.
  destruct (view fst l va) as [[a k]|] eqn:Ev; cbn [fmap option_fmap option_map fst mbind option_bind snd] in *.
  2:{ destruct (live_root _ _ _ _ _ _ _ _ (cl_sys _ _ _ _ _ _ _ _ _ _ _ Hc) Hr) as [Hr0 _]. rewrite translate_user_upage, Hp by (done || lia). done. }
  apply view_in in Ev as [Hin Hcov%covers_true]. cbn [fst] in Hcov.
  pose proof (cl_paged _ _ _ _ _ _ _ _ _ _ _ Hc) as Hpg. rewrite Forall_forall in Hpg. specialize (Hpg _ Hin). unfold paged in Hpg. cbn [fst] in Hpg.
  pose proof (sh_in _ _ _ _ Hs) as Hfs. rewrite Forall_forall in Hfs. specialize (Hfs _ Hin). cbn [fst snd] in Hfs.
  rewrite Forall_forall in Hal. assert (a ∈ l.*1) as Ha by (apply list_elem_of_fmap; by exists (a, k)). specialize (Hal a Ha). cbv beta in Hal.
  destruct (entry_translation TABLES HEAP_SIZE static_heap kroot s trees fs root a.(Area.start) k (pages_of a) a.(Area.protection) va write
    (cl_sys _ _ _ _ _ _ _ _ _ _ _ Hc) Hr Hfs Hal ltac:(lia) Hva Hp) as (p & Htr & Hus).
  destruct (negb write || _); [|done]. exists (block_start k + (va - a.(Area.start))), p. split_and!; [done|done|].
  pose proof (sh_bytes _ _ _ _ Hs) as Hby. rewrite Forall_forall in Hby. by apply (Hby _ Hin); cbn [fst]; lia.
Qed.
End sees.

Lemma image_areas_aligned data args envs : Forall (λ a : Area.t, a.(Area.start) mod 4096 = 0) (image_areas data args envs).
Proof.
  constructor; [done|]. apply Forall_forall. intros a Ha. rewrite elem_of_reverse in Ha. apply list_elem_of_fmap in Ha as (ph & -> & _).
  cbn [segment_area Area.start]. by apply Z.mod_mul.
Qed.

(** ** The stack of the program *)
Lemma strings_tail_split strings tail : strings_tail strings tail = strings_tail strings [] ++ tail.
Proof.
  revert tail. induction strings as [|str strings IH]; intros tail; cbn [strings_tail]; [done|].
  rewrite IH, (IH (str ++ [0] ++ [])). by rewrite <-!app_assoc.
Qed.
Lemma string_at strings tail i str : strings !! i = Some str → ∃ pre post,
  strings_tail strings tail = pre ++ (str ++ [0]) ++ post ∧
  string_ptrs (stack_top - Z.of_nat (length tail)) strings !! i = Some (stack_top - Z.of_nat (length ((str ++ [0]) ++ post))).
Proof.
  revert tail i. induction strings as [|x strings IH]; intros tail [|i] Hi; cbn [lookup list_lookup] in Hi; try done; cbn [strings_tail string_ptrs].
  - injection Hi as ->. exists (strings_tail strings []), tail. split; [rewrite strings_tail_split; by rewrite <-!app_assoc|].
    cbn [lookup list_lookup]. f_equal. rewrite !length_app. cbn [length]. lia.
  - destruct (IH (x ++ [0] ++ tail) i Hi) as (pre & post & E & Hp). exists pre, post. split; [done|]. cbn [lookup list_lookup].
    rewrite <-Hp. do 2 f_equal. rewrite !length_app. cbn [length]. lia.
Qed.

Section stack_view.
Context {F : Type} `{!FrameSource F}.
Variables (s : AddressSpaces.t F) (root : Z) (args envs : list (list Z)) (rest : list Area.t).
Hypotheses (Hs : shows_areas s root (stack_area args envs :: rest))
  (Hfit : Z.of_nat (length (stack_contents args envs)) <= USER_STACK_SIZE).

Lemma stack_sees pre bytes post : stack_contents args envs = pre ++ bytes ++ post →
  sees_bytes s root (stack_top - Z.of_nat (length (bytes ++ post))) bytes.
Proof.
  intros E i b Hb. pose proof (lookup_lt_Some _ _ _ Hb) as Hi. set (va := stack_top - _ + _).
  assert (length (stack_contents args envs) = length pre + length bytes + length post)%nat as El by (rewrite E, !length_app; lia).
  assert (Area.len (stack_area args envs) = USER_STACK_SIZE) as Ea.
  { unfold Area.len, stack_area. cbn [Area.data]. rewrite length_app, length_replicate. unfold USER_STACK_SIZE in *. lia. }
  assert (va = USER_STACK_BASE + (USER_STACK_SIZE - Z.of_nat (length bytes + length post)%nat + Z.of_nat i)) as Eva.
  { unfold va, stack_top. rewrite length_app. lia. }
  assert (0 <= va < USER_LIMIT) as Hva by (unfold USER_STACK_BASE, USER_LIMIT in *; change (2 ^ 47) with 140737488355328; unfold USER_STACK_SIZE in *; lia).
  specialize (Hs va false Hva). cbn [view] in Hs. unfold id at 1 in Hs. rewrite (proj2 (covers_true _ _)) in Hs.
  2:{ rewrite Ea. cbn [stack_area Area.start]. unfold USER_STACK_SIZE in *. lia. }
  cbn [negb orb] in Hs. replace b with (default 0 (Area.data (stack_area args envs) !! Z.to_nat (va - Area.start (stack_area args envs)))); [exact Hs|].
  cbn [stack_area Area.data Area.start]. rewrite lookup_app_r by (rewrite length_replicate; lia).
  replace (Z.to_nat (va - USER_STACK_BASE) - length (replicate (Z.to_nat USER_STACK_SIZE - length (stack_contents args envs)) 0%Z))%nat
    with (length pre + i)%nat by (rewrite length_replicate; unfold USER_STACK_SIZE in *; lia).
  rewrite E, lookup_app_r by lia. rewrite lookup_app_l by lia. by replace (length pre + i - length pre)%nat with i by lia; rewrite Hb.
Qed.
Lemma words_seen : sees_bytes s root (stack_pointer_for args envs) (words_bytes (stack_words args envs)).
Proof. apply (stack_sees [] _ _ eq_refl). Qed.
Lemma string_seen pre post str : stack_strings args envs = pre ++ (str ++ [0]) ++ post →
  sees_bytes s root (stack_top - Z.of_nat (length ((str ++ [0]) ++ post))) (str ++ [0]).
Proof.
  intros E. unfold stack_contents in *.
  eapply (stack_sees (words_bytes (stack_words args envs) ++ replicate (Z.to_nat ((stack_top - Z.of_nat (length (stack_strings args envs))) mod 16)) 0 ++ pre)).
  unfold stack_contents. rewrite E at 2. by rewrite <-!app_assoc.
Qed.
Lemma argument_seen i str : args !! i = Some str →
  ∃ p, stack_words args envs !! (1 + i)%nat = Some p ∧ sees_bytes s root p (str ++ [0]).
Proof.
  intros Hi. destruct (string_at args [] i str Hi) as (pre & post & E & Hp). cbn [length] in Hp. change (Z.of_nat 0) with 0 in Hp. rewrite Z.sub_0_r in Hp.
  eexists. split.
  - unfold stack_words. rewrite lookup_app_r by (cbn; lia). cbn [length]. rewrite lookup_app_l by (apply lookup_lt_Some in Hp; lia).
    replace (1 + i - 1)%nat with i by lia. exact Hp.
  - apply (string_seen (strings_tail envs [] ++ pre)). unfold stack_strings. rewrite strings_tail_split, E. by rewrite <-!app_assoc.
Qed.
Lemma environment_seen j str : envs !! j = Some str →
  ∃ p, stack_words args envs !! (2 + length args + j)%nat = Some p ∧ sees_bytes s root p (str ++ [0]).
Proof.
  intros Hj. destruct (string_at envs (strings_tail args []) j str Hj) as (pre & post & E & Hp).
  eexists. split; [|exact (string_seen pre post str E)].
  unfold stack_words. rewrite lookup_app_r by (cbn; lia). rewrite lookup_app_r by (rewrite length_string_ptrs; cbn [length]; lia).
  rewrite lookup_app_r by (rewrite length_string_ptrs; cbn [length]; lia). rewrite lookup_app_l by (apply lookup_lt_Some in Hp; rewrite !length_string_ptrs in *; cbn [length]; lia).
  rewrite length_string_ptrs. cbn [length]. replace (2 + length args + j - 1 - length args - 1)%nat with j by lia. exact Hp.
Qed.
End stack_view.

Section theorems.
Context {FS File : Type} `{!ExecFiles FS File} `{!ExecFilesLaws FS File} {F : Type} `{!FrameSource F} `{!FrameSourceLaws F}.
Variables (TABLES HEAP_SIZE static_heap kroot : Z).
Implicit Types (st : Loader.t FS F).
Abbreviation exec := (load_exec_image TABLES HEAP_SIZE static_heap).
Abbreviation reachable := (space_reachable TABLES HEAP_SIZE static_heap kroot).

(** the call succeeds, on a file that holds [data] *)
Record exec_ok st st' caller path (stat : Stat) argv envp (data : list Z) (image : ExecImageMetadata.t) : Prop := {
  eo_start : reachable st.(Loader.memory);
  eo_argv : vectors_ok st.(Loader.memory) argv;
  eo_envp : vectors_ok st.(Loader.memory) envp;
  eo_run : ∃ creds file files, fs_open path creds st.(Loader.root_fs) = (Ok file, files) ∧ holds_data files file data ∧
    exec caller (Ok creds) path stat argv envp st = (Ok image, st');
  eo_data : bytes_ok data ∧ stat.(st_size) <= Z.of_nat (length data)
}.
Lemma exec_ok_image st st' caller path stat argv envp data image : exec_ok st st' caller path stat argv envp data image →
  let root := image.(ExecImageMetadata.address_space_root) in
  ∃ s0 args envs, created TABLES HEAP_SIZE static_heap kroot st.(Loader.memory) caller root s0 ∧
    vector_strings st.(Loader.memory) argv = Ok args ∧ vector_strings st.(Loader.memory) envp = Ok envs ∧
    (∃ l, built TABLES HEAP_SIZE static_heap kroot caller root s0 st'.(Loader.memory) l ∧ l.*1 = image_areas data args envs) ∧
    image.(ExecImageMetadata.stack_pointer) = stack_pointer_for args envs ∧
    Z.of_nat (length (stack_contents args envs)) <= USER_STACK_SIZE ∧
    let h := elf_header data in
    Forall (loadable stat.(st_size) h) (image_headers data) ∧ existsb (holds_entry h) (image_headers data) = true ∧
    image.(ExecImageMetadata.entry_point) = load_address h h.(ElfHeader.entry).
Proof.
  intros [Hreach Ha He (creds & file & files & Hopen & Hd & Hrun) [Hby Hsz]] root.
  destruct (space_reachable_ok _ _ _ _ _ Hreach) as (trees & fs & Hs).
  pose proof (load_exec_image_spec TABLES HEAP_SIZE static_heap kroot data st caller (Ok creds) path stat argv envp trees fs Hs Ha He) as H.
  rewrite Hrun in H. destruct H as (creds' & file' & files' & [= <-] & Hopen' & _ & _ & [_ (s0 & l & args & envs & k & H1 & H2 & H3 & H4 & H5 & H6 & H7)]).
  rewrite Hopen in Hopen'. injection Hopen' as <- <-. destruct (H7 Hd Hby Hsz) as (_ & El & Hld & Hent & Eent).
  exists s0, args, envs. split_and!; try done. exists ((stack_area args envs, k) :: l). split; [done|]. cbn [fmap list_fmap]. by rewrite El.
Qed.
Lemma built_root caller root m s0 s l : created TABLES HEAP_SIZE static_heap kroot m caller root s0 →
  built TABLES HEAP_SIZE static_heap kroot caller root s0 s l → root ∈ roots (s : AddressSpaces.t F).
Proof.
  intros Hct (trees & fs & Hc & _). rewrite (roots_claimed _ _ _ _ _ _ _ _ _ _ _ Hc). apply (created_roots _ _ _ _ _ _ _ _ Hct). by left.
Qed.
End theorems.

(** C3: From any reachable state, with vectors of at most 64 strings that, unless they are
    empty, the caller passes from its own live and mapped memory ([caller_mapped]), and
    for a file at least as long as its metadata says, a successful [load_exec_image] makes
    a fresh address space that shows exactly the program: every PT_LOAD segment with the
    bytes of the file at their addresses, zeros up to its memory size and around it on its
    pages, and the initial stack on top; where segments overlap, the later one; nothing is
    mapped elsewhere, and only writable segments can be written.  The entry point lies in
    an executable segment.  No other address space changes, nor any memory that was in
    use. *)
Theorem exec_image_exact {FS File F : Type} `{!ExecFiles FS File, !ExecFilesLaws FS File, !FrameSource F, !FrameSourceLaws F}
    TABLES HEAP_SIZE static_heap kroot (st st' : Loader.t FS F) caller path stat argv envp data image :
  exec_ok TABLES HEAP_SIZE static_heap kroot st st' caller path stat argv envp data image →
  let m := st.(Loader.memory) in let m' := st'.(Loader.memory) in let h := elf_header data in
  ∃ args envs, vector_strings m argv = Ok args ∧ vector_strings m envp = Ok envs ∧
    (image.(ExecImageMetadata.address_space_root) ∉ roots m) ∧
    shows_areas m' image.(ExecImageMetadata.address_space_root) (image_areas data args envs) ∧
    image.(ExecImageMetadata.stack_pointer) = stack_pointer_for args envs ∧
    image.(ExecImageMetadata.entry_point) = load_address h h.(ElfHeader.entry) ∧
    (∃ ph, ph ∈ image_headers data ∧ holds_entry h ph = true) ∧ Forall (loadable stat.(st_size) h) (image_headers data) ∧
    (∀ a, in_live m a → sbyte m' a = sbyte m a) ∧
    ∀ root va write, root ∈ roots m → 0 <= va →
      translate_user_page root va write (paging m') = translate_user_page root va write (paging m).
Proof.
  intros Hok m m' h. destruct (exec_ok_image _ _ _ _ _ _ _ _ _ _ _ _ _ Hok) as (s0 & args & envs & Hct & Ha & He & (l & Hb & El) & Hsp & Hfit & Hld & Hent & Een).
  pose proof (ct_fresh _ _ _ _ _ _ _ _ Hct) as Hf. exists args, envs.
  assert (∀ root, root ∈ roots m → root ≠ image.(ExecImageMetadata.address_space_root)) as Hne by (intros root Hr ->; done).
  destruct (space_reachable_ok _ _ _ _ _ (eo_start _ _ _ _ _ _ _ _ _ _ _ _ _ Hok)) as (trees & fs & Hs).
  split_and!; [done|done|done| |done|done| |done| |].
  - rewrite <-El. eapply built_shows; [done|by eapply built_root|]. rewrite El. apply image_areas_aligned.
  - apply existsb_exists in Hent as (ph & Hin & Hh). exists ph. split; [by apply list_elem_of_In|done].
  - intros a Hin. destruct Hb as (t & f & Hc & _). unfold m'. rewrite (cl_bytes _ _ _ _ _ _ _ _ _ _ _ Hc) by (by apply (created_live _ _ _ _ _ _ _ _ Hct)).
    by destruct (ct_base _ _ _ _ _ _ _ _ Hct) as (p & table & -> & _ & _).
  - intros root va write Hr Hva. eapply same_upage_translation; [done|done|]. intros Hlim. destruct Hb as (t & f & Hc & _). unfold m'.
    rewrite (cl_pages _ _ _ _ _ _ _ _ _ _ _ Hc); [by apply (ct_same _ _ _ _ _ _ _ _ Hct)| |by apply Hne|done].
    apply (created_roots _ _ _ _ _ _ _ _ Hct). by right.
Qed.

(** C24: When the caller passes its vectors from its own live and mapped memory, as for
    the image itself ([caller_mapped]), the program starts with its arguments on the
    stack: at the stack pointer it finds the number of arguments, their pointers, a null
    word, the pointers of the environment and three null words; every pointer leads to a
    copy of the caller's string and its null byte.  Everything lies in the stack's pages
    and the stack pointer is a multiple of eight. *)
Theorem initial_stack_layout {FS File F : Type} `{!ExecFiles FS File, !ExecFilesLaws FS File, !FrameSource F, !FrameSourceLaws F}
    TABLES HEAP_SIZE static_heap kroot (st st' : Loader.t FS F) caller path stat argv envp data image :
  exec_ok TABLES HEAP_SIZE static_heap kroot st st' caller path stat argv envp data image →
  let sp := image.(ExecImageMetadata.stack_pointer) in
  let finds := sees_bytes st'.(Loader.memory) image.(ExecImageMetadata.address_space_root) in
  ∃ args envs words, vector_strings st.(Loader.memory) argv = Ok args ∧ vector_strings st.(Loader.memory) envp = Ok envs ∧
    length words = (length args + length envs + 5)%nat ∧ finds sp (words_bytes words) ∧
    words !! 0%nat = Some (Z.of_nat (length args)) ∧
    (∀ i str, args !! i = Some str → ∃ p, words !! (1 + i)%nat = Some p ∧ finds p (str ++ [0])) ∧
    words !! (1 + length args)%nat = Some 0 ∧
    (∀ j str, envs !! j = Some str → ∃ p, words !! (2 + length args + j)%nat = Some p ∧ finds p (str ++ [0])) ∧
    (∀ j, (j < 3)%nat → words !! (2 + length args + length envs + j)%nat = Some 0) ∧
    USER_STACK_BASE <= sp <= stack_top - 8 * Z.of_nat (length words) ∧ sp mod 8 = 0.
Proof.
  intros Hok sp finds. destruct (exec_ok_image _ _ _ _ _ _ _ _ _ _ _ _ _ Hok) as (s0 & args & envs & Hct & Ha & He & (l & Hb & El) & Hsp & Hfit & _).
  assert (shows_areas st'.(Loader.memory) image.(ExecImageMetadata.address_space_root) (image_areas data args envs)) as Hsh.
  { rewrite <-El. eapply built_shows; [done|by eapply built_root|]. rewrite El. apply image_areas_aligned. }
  exists args, envs, (stack_words args envs).
  assert (length (stack_words args envs) = (length args + length envs + 5)%nat) as Elen
    by (unfold stack_words; rewrite !length_app, !length_string_ptrs; cbn [length]; lia).
  assert (length (stack_contents args envs) = 8 * length (stack_words args envs) +
    Z.to_nat ((stack_top - Z.of_nat (length (stack_strings args envs))) mod 16) + length (stack_strings args envs))%nat as Ec
    by (unfold stack_contents; rewrite !length_app, length_replicate, length_words_bytes; lia).
  pose proof (Z.mod_pos_bound (stack_top - Z.of_nat (length (stack_strings args envs))) 16 ltac:(lia)) as Hm.
  assert (∀ i, stack_words args envs !! (1 + length args + i)%nat = ([0] ++ string_ptrs
    (stack_top - Z.of_nat (length (strings_tail args []))) envs ++ [0; 0; 0]) !! i) as Htail.
  { intros i. unfold stack_words. rewrite lookup_app_r by (cbn [length]; lia). rewrite lookup_app_r by (rewrite length_string_ptrs; cbn [length]; lia).
    rewrite length_string_ptrs. f_equal. cbn [length]. lia. }
  split_and!; [done|done|done| |done| | | | | | |].
  - unfold finds, sp. rewrite Hsp. by eapply words_seen.
  - intros i str Hi. by eapply argument_seen.
  - specialize (Htail 0%nat). by rewrite Nat.add_0_r in Htail.
  - intros j str Hj. by eapply environment_seen.
  - intros j Hj. specialize (Htail (1 + length envs + j)%nat). replace (2 + length args + length envs + j)%nat with (1 + length args + (1 + length envs + j))%nat by lia.
    rewrite Htail, lookup_app_r by (cbn [length]; lia). rewrite lookup_app_r by (rewrite length_string_ptrs; cbn [length]; lia).
    rewrite length_string_ptrs. cbn [length]. replace (1 + length envs + j - 1 - length envs)%nat with j by lia. by destruct j as [|[|[|j]]]; [..|lia].
  - unfold sp. rewrite Hsp. unfold stack_pointer_for, stack_top. unfold USER_STACK_SIZE in *. lia.
  - unfold sp. rewrite Hsp. unfold stack_pointer_for. lia.
  - unfold sp. rewrite Hsp. unfold stack_pointer_for. rewrite Ec. set (top := stack_top - Z.of_nat (length (stack_strings args envs))) in *.
    replace (stack_top - _) with ((2 * (top / 16) - Z.of_nat (length (stack_words args envs))) * 8); [by apply Z.mod_mul|].
    pose proof (Z.div_mod top 16 ltac:(lia)). lia.
Qed.

(** C16: From any reachable state, with vectors of at most 64 strings that, unless they
    are empty, the caller passes from its own live and mapped memory ([caller_mapped]), a
    failed [load_exec_image] does not panic and gives everything back: the same address
    spaces, mappings and blocks, with the same contents, and the same pages for every
    user, whatever the file holds and wherever it failed.  The one exception is a
    relocatable program whose entry point lies beyond the user half: then the new, empty
    address space stays behind. *)
Theorem exec_failure_releases {FS File F : Type} `{!ExecFiles FS File, !ExecFilesLaws FS File, !FrameSource F, !FrameSourceLaws F}
    TABLES HEAP_SIZE static_heap kroot (st st' : Loader.t FS F) caller credentials path stat argv envp fault :
  space_reachable TABLES HEAP_SIZE static_heap kroot st.(Loader.memory) →
  vectors_ok st.(Loader.memory) argv → vectors_ok st.(Loader.memory) envp →
  load_exec_image TABLES HEAP_SIZE static_heap caller credentials path stat argv envp st = (Err fault, st') →
  let m := st.(Loader.memory) in let m' := st'.(Loader.memory) in
  (∃ e, fault = Fault.Fails e) ∧
  (restored m m' ∧
   (∀ root va write, root ∈ roots m → 0 <= va →
      translate_user_page root va write (paging m') = translate_user_page root va write (paging m)) ∨
   ∃ creds file files root, credentials = Ok creds ∧ fs_open path creds st.(Loader.root_fs) = (Ok file, files) ∧
     entry_rejected stat.(st_size) file files m ∧ (root ∉ roots m) ∧
     occupied m'.(spaces) ≡ₚ AddressSpace.mk caller root 1 :: occupied m.(spaces) ∧ m'.(mappings) = m.(mappings)).
Proof.
  intros Hreach Ha He Hrun m m'. destruct (space_reachable_ok _ _ _ _ _ Hreach) as (trees & fs & Hs).
  pose proof (load_exec_image_spec TABLES HEAP_SIZE static_heap kroot [] st caller credentials path stat argv envp trees fs Hs Ha He) as H.
  rewrite Hrun in H. destruct H as [Hnp Hcase]. split; [destruct fault as [e|]; [by exists e|done]|].
  destruct Hcase as [Hr|(creds & file & files & root & H1 & H2 & H3 & H4)].
  - left. split; [done|]. intros root va write Hroot Hva. eapply same_upage_translation; [done|done|]. intros Hlim.
    by apply (re_pages _ _ Hr).
  - right. exists creds, file, files, root. split_and!; [done|done|done|apply (ct_fresh _ _ _ _ _ _ _ _ H4)| |];
      by destruct (ct_base _ _ _ _ _ _ _ _ H4) as (p & table & E & _ & Hp); unfold m'; rewrite E.
Qed.

(** ** Examples *)
(** one file, always open *)
Module MemoryFile.
Definition pread (data buffer : list Z) (offset : Z) : result VfsError.t nat * list Z :=
  if (0 <=? offset) && (offset + Z.of_nat (length buffer) <=? Z.of_nat (length data))
  then (Ok (length buffer), (λ b, b mod 256) <$> slice (Z.to_nat offset) (length buffer) data) else (Err VfsError.Io, buffer).
#[global] Instance files : ExecFiles (list Z) unit := {|
  fs_open _ _ := mret tt;
  fs_pread _ buffer offset fs := (pread fs buffer offset, fs);
  fs_close _ := mret tt
|}.
Lemma mod_bytes data : bytes_ok data → (λ b, b mod 256) <$> data = data.
Proof.
  induction 1 as [|b data Hb _ IH]; [done|]. cbn [fmap list_fmap]. change (b mod 256 :: ((λ b, b mod 256) <$> data) = b :: data).
  by rewrite Z.mod_small, IH.
Qed.
#[global] Program Instance laws : ExecFilesLaws (list Z) unit := {|
  holds_data fs _ data := fs = data ∧ bytes_ok data
|}.
Next Obligation.
  intros [] buffer offset fs. cbn [fs_pread files fst snd]. unfold pread.
  destruct (Z.leb_spec 0 offset) as [H1|]; [|done]. cbn [andb].
  destruct (Z.leb_spec (offset + Z.of_nat (length buffer)) (Z.of_nat (length fs))); [|done]. cbn [snd]. split.
  - rewrite length_fmap, length_slice; lia.
  - intros _. apply Forall_fmap, Forall_true. intros b. cbn. apply Z.mod_pos_bound. lia.
Qed.
Next Obligation.
  intros [] buffer offset fs data [-> Hb] H1 H2. exists data. split; [|done]. cbn [fs_pread files]. unfold pread.
  rewrite (proj2 (Z.leb_le _ _)), (proj2 (Z.leb_le _ _)) by lia. cbn [andb]. by rewrite mod_bytes by by apply bytes_ok_slice.
Qed.
Next Obligation. done. Qed.
End MemoryFile.
Definition exec_elf : list Z := Elf.elf_image 0x401000 [Elf.Phdr.mk 1 5 0 0x400000 0 16 0x2000 4096] [].
Definition exec_start : Loader.t (list Z) PhysicalFrameAllocator.t := Loader.mk exec_elf exec_memory.
Definition exec_stat : Stat := mk_Stat 5 InodeKind.RegularFile (Z.of_nat (length exec_elf)) 493 0 0 1.
Definition exec_argv : ExecVectorMetadata.t := ExecVectorMetadata.new 4194304 1 false.
Definition exec_creds : FsCredentials.t := FsCredentials.user 0 0.
Definition exec_path : list Z := [47; 97].
Definition exec_result := load_exec_image 0 4096 65536 7 (Ok exec_creds) exec_path exec_stat exec_argv ExecVectorMetadata.empty exec_start.
Lemma byte_list data : forallb (λ b, (0 <=? b) && (b <? 256)) data = true → bytes_ok data.
Proof.
  intros H. apply Forall_forall. intros b Hb%list_elem_of_In. eapply forallb_forall in H; [|exact Hb].
  apply andb_true_iff in H as [H1%Z.leb_le H2%Z.ltb_lt]. lia.
Qed.
Lemma exec_caller_mapped : caller_mapped exec_memory.
Proof.
  assert (active_user_root exec_memory = space_root) as Er by by vm_compute. split; [by vm_compute|by rewrite Er; apply roots_bool; vm_compute|].
  intros r Hr%elem_of_occupied _. rewrite exec_memory_mapping, list_elem_of_singleton in Hr. subst r.
  assert (live exec_memory.(manager) = [AllocationRecord.new 7 0 8192 AllocationKind.Mapping demo_rw]) as El by by vm_compute.
  eexists. rewrite El. split_and!; [apply list_elem_of_here|done|done].
Qed.
Lemma exec_argv_ok : vectors_ok exec_memory exec_argv.
Proof. split; [done|]. right. apply exec_caller_mapped. Qed.
Lemma exec_envp_ok : vectors_ok exec_memory ExecVectorMetadata.empty.
Proof. split; [done|]. by left. Qed.
Definition exec_image_of (r : result Fault.t ExecImageMetadata.t * Loader.t (list Z) PhysicalFrameAllocator.t) : ExecImageMetadata.t :=
  match r.1 with Ok i => i | Err _ => ExecImageMetadata.new 0 0 0 0 0 0 None None end.
Lemma run_pair {A B} (x : A * B) a : x.1 = a → x = (a, x.2).
Proof. by destruct x; intros <-. Qed.
Lemma image_of_ok r : is_ok r.1 = true → r.1 = Ok (exec_image_of r).
Proof. unfold exec_image_of. by destruct (r.1). Qed.
Lemma exec_demo_ok : exec_ok 0 4096 65536 0 exec_start exec_result.2 7 exec_path exec_stat exec_argv ExecVectorMetadata.empty exec_elf (exec_image_of exec_result).
Proof.
  split; [apply exec_memory_reachable|apply exec_argv_ok|apply exec_envp_ok| |].
  - exists exec_creds, tt, exec_elf. split; [done|]. split; [split; [done|apply byte_list; by vm_compute]|].
    rewrite <-(run_pair exec_result (Ok (exec_image_of exec_result))) by (apply image_of_ok; by vm_compute). unfold exec_result. reflexivity.
  - split; [apply byte_list; by vm_compute|]. apply Z.leb_le. by vm_compute.
Qed.
Lemma exec_image_exact_witness : ∃ args envs, vector_strings exec_memory exec_argv = Ok args ∧
  shows_areas exec_result.2.(Loader.memory) (exec_image_of exec_result).(ExecImageMetadata.address_space_root) (image_areas exec_elf args envs).
Proof.
  destruct (exec_image_exact 0 4096 65536 0 exec_start exec_result.2 7 exec_path exec_stat exec_argv ExecVectorMetadata.empty exec_elf
    (exec_image_of exec_result) exec_demo_ok) as (args & envs & H1 & _ & _ & H2 & _). exists args, envs. by split.
Defined.
Lemma initial_stack_layout_witness : ∃ (words : list Z) p, words !! 1%nat = Some p ∧
  sees_bytes exec_result.2.(Loader.memory) (exec_image_of exec_result).(ExecImageMetadata.address_space_root) p [104; 105; 0].
Proof.
  destruct (initial_stack_layout 0 4096 65536 0 exec_start exec_result.2 7 exec_path exec_stat exec_argv ExecVectorMetadata.empty exec_elf
    (exec_image_of exec_result) exec_demo_ok) as (args & envs & words & H1 & _ & _ & _ & _ & H2 & _). exists words.
  assert (vector_strings exec_memory exec_argv = Ok [[104; 105]]) as E by by vm_compute.
  change (vector_strings exec_memory exec_argv = Ok args) in H1. rewrite E in H1. injection H1 as <-.
  exact (H2 0%nat [104; 105] eq_refl).
Defined.
(** no segment holds the entry point *)
Definition exec_bad : list Z := Elf.elf_image 0x500000 [Elf.Phdr.mk 1 5 0 0x400000 0 16 0x2000 4096] [].
Definition exec_bad_start : Loader.t (list Z) PhysicalFrameAllocator.t := Loader.mk exec_bad exec_memory.
Abbreviation exec_failed := (load_exec_image 0 4096 65536 7 (Ok exec_creds) exec_path exec_stat exec_argv ExecVectorMetadata.empty exec_bad_start).
Lemma exec_failed_run : exec_failed = (Err (Fault.Fails KernelError.InvalidArgument), exec_failed.2).
Proof. apply run_pair. by vm_compute. Qed.
Lemma exec_bad_relocates : ¬ entry_rejected (st_size exec_stat) tt exec_bad exec_memory.
Proof.
  intros (h & Hh & Hr).
  assert (match (read_elf_header (F:=PhysicalFrameAllocator.t) tt (st_size exec_stat) (Loader.mk exec_bad exec_memory)).1 with
    | Ok h => is_ok (relocated_address h.(ElfHeader.entry) h.(ElfHeader.file_type)) | Err _ => true end = true) as H by by vm_compute.
  rewrite Hh in H. by rewrite Hr in H.
Qed.
Lemma exec_failure_releases_witness : restored exec_memory exec_failed.2.(Loader.memory).
Proof.
  destruct (exec_failure_releases 0 4096 65536 0 exec_bad_start exec_failed.2 7 (Ok exec_creds) exec_path exec_stat exec_argv
    ExecVectorMetadata.empty (Fault.Fails KernelError.InvalidArgument) exec_memory_reachable exec_argv_ok exec_envp_ok exec_failed_run)
    as [_ [[H _]|(creds & [] & files & root & _ & Ho & Hrej & _)]]; [exact H|exfalso].
  apply exec_bad_relocates. assert (files = exec_bad) as -> by (apply (f_equal snd) in Ho; exact (eq_sym Ho)). exact Hrej.
Defined.
