(* ===== verification/KernelPath.v ===== *)
(** * Kernel paths

    Models [KernelPathBuf] of src/src/kernel/mod.rs, a path in a fixed buffer, and the
    loop of [resolve_path_str] that walks a path from a start below the root directory of
    the process; and the conversions of [ProcessPath] (src/src/kernel/process.rs) to and
    from text.  The theorem shows that the walk is lexical resolution that never leaves
    the root directory. *)

From stdpp Require Import prelude.
From S2P Require Import Prelude Bytes Permissions Vfs Abi Process.

Local Open Scope Z_scope.

Definition dot : Z := 46.
Definition map_path_error (error : PathError.t) : KernelError.t :=
  KernelError.Filesystem (VfsError.InvalidPath error).

Module KernelPathBuf.
Record t : Type := mk { bytes : list Z; len : nat }.

Definition from_str (raw : list Z) : result KernelError.t t :=
  if bool_decide (raw = []) || (Process.MAX_PATH_BYTES <? length raw)%nat
  then Err (map_path_error PathError.TooLong)
  else Ok (mk (write_at 0 raw (replicate Process.MAX_PATH_BYTES 0)) (length raw)).
Definition as_str (p : t) : list Z := take p.(len) p.(bytes).
Definition as_path (p : t) : result KernelError.t (list Z) :=
  match path_new (as_str p) with Ok path => Ok path | Err e => Err (map_path_error e) end.
Definition truncate_to_root (root_len : nat) (p : t) : t := mk p.(bytes) (Nat.max root_len 1).

(** [while self.len > 1 && f(self.bytes[self.len - 1]) { self.len -= 1; }] *)
Fixpoint back_while (f : Z → bool) (bytes : list Z) (len : nat) : nat :=
  match len with
  | S (S _ as rest) => if f (nth rest bytes 0) then back_while f bytes rest else len
  | _ => len
  end.

Definition push_component (component : list Z) (p : t) : result KernelError.t t :=
  if bool_decide (component = []) || bool_decide (component = [dot]) then Ok p
  else if bool_decide (component = [dot; dot]) then
    let len := back_while (Z.eqb slash) p.(bytes) p.(len) in
    let len := back_while (λ b, negb (slash =? b)) p.(bytes) len in
    Ok (mk p.(bytes) (if (1 <? len)%nat then len - 1 else len)%nat)
  else if MAX_COMPONENT_BYTES <? Z.of_nat (length component) then Err (KernelError.Filesystem VfsError.NameTooLong)
  else
    let extra := if (p.(len) =? 1)%nat then length component else (length component + 1)%nat in
    if (Process.MAX_PATH_BYTES <? p.(len) + extra)%nat then Err (map_path_error PathError.TooLong)
    else
      let p := if (p.(len) =? 1)%nat then p else mk (<[p.(len) := slash]> p.(bytes)) (p.(len) + 1) in
      Ok (mk (write_at p.(len) component p.(bytes)) (p.(len) + length component)).
End KernelPathBuf.
Import KernelPathBuf.

(** [ProcessPath::as_str] and [ProcessPath::from_path] *)
Definition process_path_str (p : ProcessPath.t) : list Z := take p.(ProcessPath.len) p.(ProcessPath.bytes).
Definition process_path_from (path : list Z) : ProcessPath.t :=
  ProcessPath.mk (write_at 0 path (replicate Process.MAX_PATH_BYTES 0)) (length path).

(** one component in the loop of [resolve_path_str] *)
Definition walk_component (root_len : nat) (resolved : KernelPathBuf.t) (component : list Z)
    : result KernelError.t KernelPathBuf.t :=
  let before := resolved.(len) in
  resolved ← push_component component resolved;
  Ok (if bool_decide (component = [dot; dot]) && (resolved.(len) <? root_len)%nat
      then truncate_to_root root_len resolved
      else if (before <? root_len)%nat then truncate_to_root root_len resolved
      else resolved).
(** the loop; [raw.split('/')] yields the pieces between slashes *)
Definition walk (root_len : nat) (resolved : KernelPathBuf.t) (raw : list Z) : result KernelError.t KernelPathBuf.t :=
  rfold (walk_component root_len) resolved (pieces raw).

(** ** Lexical resolution *)
(** the canonical path of a list of components *)
Definition path_string (cs : list (list Z)) : list Z := if bool_decide (cs = []) then [slash] else join cs.

(** where the components of a path lead from a directory below a root: an empty piece and
    a dot stay, two dots go up but not above the root; too long a path is refused *)
Definition step_into (root below : list (list Z)) (c : list Z) : result KernelError.t (list (list Z)) :=
  if bool_decide (c = []) || bool_decide (c = [dot]) then Ok below
  else if bool_decide (c = [dot; dot]) then Ok (take (length below - 1) below)
  else if bool_decide (length (path_string (root ++ below ++ [c])) <= Process.MAX_PATH_BYTES)%nat
  then Ok (below ++ [c]) else Err (map_path_error PathError.TooLong).
Definition resolve_below (root below : list (list Z)) (raw : list Z) : result KernelError.t (list (list Z)) :=
  rfold (step_into root) below (pieces raw).

Definition plain (c : list Z) : Prop := c ≠ [] ∧ slash_free c ∧ short c.
(** the buffer holds the canonical path of these components *)
Record holds (p : KernelPathBuf.t) (cs : list (list Z)) : Prop := {
  ho_len : length p.(bytes) = Process.MAX_PATH_BYTES;
  ho_fits : (p.(len) <= Process.MAX_PATH_BYTES)%nat;
  ho_str : as_str p = path_string cs;
  ho_plain : Forall plain cs
}.

Lemma back_while_step f bytes n :
  back_while f bytes (S (S n)) = if f (nth (S n) bytes 0) then back_while f bytes (S n) else S (S n).
Proof. done. Qed.
Lemma back_while_spec f bytes a b :
  take (length a + length b) bytes = a ++ b → (0 < length a)%nat →
  Forall (λ x, f x = true) b → (length a = 1%nat ∨ ∃ x, last a = Some x ∧ f x = false) →
  back_while f bytes (length a + length b) = length a.
Proof.
  intros E Ha Hb Hstop. revert E. induction b as [|x b IH] using rev_ind; intros E.
  - cbn [length]. rewrite Nat.add_0_r in *. rewrite app_nil_r in E. destruct Hstop as [->|(x & Hx & Hf)]; [done|].
    destruct (length a) as [|[|n]] eqn:El; [done|done|]. rewrite back_while_step.
    rewrite last_lookup, El in Hx. cbn [Init.Nat.pred] in Hx. rewrite <-E in Hx.
    rewrite lookup_take_lt in Hx by lia.
    rewrite (nth_lookup_Some _ _ _ _ Hx), Hf. done.
  - rewrite length_app in *. cbn [length] in *. apply Forall_app in Hb as [Hb Hx]. inversion_clear Hx.
    replace (length a + (length b + 1))%nat with (S (length a + length b)) in * by lia.
    destruct (length a + length b)%nat as [|m] eqn:Em; [lia|]. rewrite back_while_step.
    assert (bytes !! S m = Some x) as Hl.
    { rewrite <-(lookup_take_lt _ (S (S m))) by lia. rewrite E, app_assoc, lookup_app_r; rewrite length_app, Em; [|lia].
      by rewrite Nat.sub_diag. }
    rewrite (nth_lookup_Some _ _ _ _ Hl), H. apply IH; [done|]. apply (f_equal (take (S m))) in E. rewrite take_take, Nat.min_l in E by lia. rewrite E.
    rewrite app_assoc. apply take_app_length'. rewrite length_app. lia.
Qed.

Definition up (cs : list (list Z)) : list Z := if bool_decide (cs = []) then [slash] else join cs ++ [slash].
Lemma join_app cs ds : join (cs ++ ds) = join cs ++ join ds.
Proof. unfold join. apply bind_app. Qed.
Lemma path_string_snoc cs c : path_string (cs ++ [c]) = up cs ++ c.
Proof.
  unfold path_string, up. rewrite (bool_decide_eq_false_2 (cs ++ [c] = [])) by (by destruct cs). rewrite join_app. cbn.
  rewrite app_nil_r. case_bool_decide as E; [by rewrite E|]. by rewrite <-app_assoc.
Qed.
Lemma path_string_nonempty cs : (1 <= length (path_string cs))%nat.
Proof. unfold path_string. case_bool_decide; [cbn; lia|]. destruct cs; [done|]. cbn. lia. Qed.
Lemma path_string_root cs : length (path_string cs) = 1%nat → Forall plain cs → cs = [].
Proof.
  destruct cs as [|c cs]; [done|]. intros H Hp. inversion Hp as [|? ? (Hne & _)]. unfold path_string in H.
  cbn in H. rewrite length_app in H. destruct c; [done|]. cbn in H. lia.
Qed.
Lemma last_plain cs : cs ≠ [] → Forall plain cs → ∃ x, last (path_string cs) = Some x ∧ x ≠ slash.
Proof.
  intros Hne Hp. destruct cs as [|c cs _] using rev_ind; [done|]. apply Forall_app in Hp as [_ Hp].
  inversion_clear Hp as [|? ? (Hc & Hs & _) _]. rewrite path_string_snoc.
  destruct c as [|x c _] using rev_ind; [done|]. exists x. rewrite app_assoc, last_snoc. split; [done|].
  intros ->. apply Hs. apply elem_of_app. right. by left.
Qed.

Lemma holds_length p cs : holds p cs → p.(len) = length (path_string cs).
Proof.
  intros [Hl Hf Hs _]. rewrite <-Hs. unfold as_str. rewrite length_take. lia.
Qed.
(** a shorter path in the same buffer *)
Lemma holds_shorter p cs ds rest : holds p cs → path_string cs = path_string ds ++ rest → Forall plain ds →
  holds (KernelPathBuf.mk p.(bytes) (length (path_string ds))) ds.
Proof.
  intros Hh E Hp. pose proof (holds_length _ _ Hh) as Hlen. destruct Hh as [Hl Hf Hs _]. rewrite E, length_app in Hlen.
  split; [done|cbn; lia| |done]. unfold as_str in *. cbn. rewrite E in Hs.
  apply (f_equal (take (length (path_string ds)))) in Hs. rewrite take_take, Nat.min_l, take_app_length in Hs by lia. done.
Qed.

Definition popped (p : KernelPathBuf.t) : KernelPathBuf.t :=
  let len := back_while (λ b, negb (slash =? b)) p.(bytes) (back_while (Z.eqb slash) p.(bytes) p.(len)) in
  KernelPathBuf.mk p.(bytes) (if (1 <? len)%nat then len - 1 else len)%nat.
Lemma push_dots p : push_component [dot; dot] p = Ok (popped p).
Proof. done. Qed.
Lemma popped_root p : holds p [] → popped p = p.
Proof. intros H%holds_length. destruct p as [b l]. cbn in H. by subst l. Qed.
Lemma popped_snoc p cs c : holds p (cs ++ [c]) → holds (popped p) cs.
Proof.
  intros Hh. pose proof (holds_length _ _ Hh) as Hlen. pose proof Hh as [Hl Hf Hs Hp]. unfold as_str in Hs.
  destruct (last_plain (cs ++ [c])) as (x & Hx & Hne); [by destruct cs|done|]. unfold popped. rewrite Hlen in Hs |- *.
  assert (back_while (Z.eqb slash) p.(bytes) (length (path_string (cs ++ [c]))) = length (path_string (cs ++ [c]))) as ->.
  { pose proof (back_while_spec (Z.eqb slash) p.(bytes) (path_string (cs ++ [c])) []) as H. cbn [length] in H.
    rewrite Nat.add_0_r, app_nil_r in H. apply H; [done|pose proof (path_string_nonempty (cs ++ [c])); lia|done|].
    right. exists x. split; [done|]. by apply Z.eqb_neq. }
  pose proof (path_string_snoc cs c) as E. apply Forall_app in Hp as [Hcs Hc].
  inversion_clear Hc as [|? ? (Hc0 & Hc1 & _) _]. rewrite E in Hs |- *. rewrite length_app in *.
  assert (up cs = path_string cs ++ (if bool_decide (cs = []) then [] else [slash])) as Eu.
  { unfold up, path_string. by case_bool_decide. }
  rewrite back_while_spec; [|done|rewrite Eu, length_app; pose proof (path_string_nonempty cs); lia| |].
  - replace (if (1 <? length (up cs))%nat then (length (up cs) - 1)%nat else length (up cs)) with (length (path_string cs)).
    { eapply holds_shorter; [done| |done]. by rewrite E, Eu, <-app_assoc. }
    rewrite Eu, length_app. case_bool_decide as H; [by subst cs|]. cbn [length].
    pose proof (path_string_nonempty cs). destruct (Nat.ltb_spec 1 (length (path_string cs) + 1)); lia.
  - apply Forall_forall. intros y Hy. apply negb_true_iff, Z.eqb_neq. intros <-. by apply Hc1.
  - right. exists slash. split; [|done]. unfold up. case_bool_decide; [done|]. by rewrite last_snoc.
Qed.

Lemma push_plain p cs c : holds p cs → plain c → c ≠ [dot] → c ≠ [dot; dot] →
  if bool_decide (length (path_string (cs ++ [c])) <= Process.MAX_PATH_BYTES)%nat
  then ∃ p', push_component c p = Ok p' ∧ holds p' (cs ++ [c])
  else push_component c p = Err (map_path_error PathError.TooLong).
Proof.
  intros Hh Hc Hd Hdd. pose proof (holds_length _ _ Hh) as Hlen. pose proof Hh as [Hl Hf Hs Hp]. pose proof Hc as (Hne & Hsl & Hsh & H0).
  unfold push_component.
  rewrite (bool_decide_eq_false_2 (c = [])), (bool_decide_eq_false_2 (c = [dot])), (bool_decide_eq_false_2 (c = [dot; dot])) by done.
  cbn [orb].
  destruct (Z.ltb_spec MAX_COMPONENT_BYTES (Z.of_nat (length c))) as [|_]; [lia|].
  set (extra := if (p.(len) =? 1)%nat then length c else (length c + 1)%nat).
  assert (length (path_string (cs ++ [c])) = (p.(len) + extra)%nat) as E.
  { rewrite path_string_snoc, length_app, Hlen. unfold extra. rewrite Hlen.
    destruct (Nat.eqb_spec (length (path_string cs)) 1) as [E|E].
    - apply path_string_root in E as ->; [|done]. done.
    - unfold up, path_string in *. case_bool_decide; [done|]. rewrite length_app. cbn. lia. }
  rewrite E. case_bool_decide as Hfit; destruct (Nat.ltb_spec Process.MAX_PATH_BYTES (p.(len) + extra)) as [|Hge]; [lia| |done|lia].
  eexists. split; [done|]. subst extra. destruct (Nat.eqb_spec p.(len) 1) as [E1|E1].
  - split; cbn [bytes len]; [by rewrite length_write_at by lia|lia| |by apply Forall_app_2; [|constructor]].
    unfold as_str in *. cbn [bytes len]. rewrite path_string_snoc. rewrite Hlen in E1. apply path_string_root in E1 as ->; [|done].
    cbn in Hlen, Hs. rewrite Hlen in Hs |- *. unfold write_at. rewrite Hs. rewrite app_assoc. cbn [up].
    rewrite take_app_length' by (rewrite length_app; cbn; lia). done.
  - split; cbn [bytes len]; [rewrite length_write_at; rewrite length_insert; lia|lia| |by apply Forall_app_2; [|constructor]].
    unfold as_str in *. cbn [bytes len]. rewrite path_string_snoc. unfold write_at.
    rewrite app_assoc, take_app_length'.
    2:{ rewrite length_app, length_take, length_insert. lia. }
    f_equal. rewrite <-Nat.add_1_r || idtac. rewrite Nat.add_1_r, (take_S_r _ _ slash) by (apply list_lookup_insert_eq; lia).
    rewrite take_insert_ge by lia. rewrite Hs. unfold up, path_string. case_bool_decide as En; [|done]. subst cs. done.
Qed.

Lemma validate_bytes_ok raw k p ps : pieces raw = p :: ps → 0 <= k → k + Z.of_nat (length p) <= MAX_COMPONENT_BYTES →
  0 ∉ p → Forall short ps → validate_bytes k raw = Ok tt.
Proof.
  revert k p ps. induction raw as [|b r IH]; intros k p ps Ep Hk Hl H0 Hs; [done|]. cbn [pieces validate_bytes] in *.
  pose proof (pieces_not_nil r) as Hn. destruct (pieces r) as [|q qs]; [done|].
  destruct (Z.eqb_spec b slash) as [->|Hb].
  - injection Ep as <- <-. inversion Hs as [|? ? [Hq Hq0] Hqs]; subst. cbn. eapply IH; [done|lia|lia|done|done].
  - injection Ep as <- <-. apply not_elem_of_cons in H0 as [Hb0 H0]. cbn [length] in Hl.
    destruct (Z.eqb_spec b 0) as [->|_]; [done|]. destruct (Z.ltb_spec MAX_COMPONENT_BYTES (k + 1)); [lia|].
    eapply IH; [done|lia|lia|done|done].
Qed.
Lemma path_string_valid cs : Forall plain cs → (length (path_string cs) <= Process.MAX_PATH_BYTES)%nat →
  path_new (path_string cs) = Ok (path_string cs).
Proof.
  intros Hp Hl. unfold path_new, validate. pose proof (path_string_nonempty cs) as Hn.
  rewrite bool_decide_eq_false_2 by (intros E; rewrite E in Hn; cbn in Hn; lia).
  unfold Vfs.MAX_PATH_BYTES, Process.MAX_PATH_BYTES in *. destruct (Z.ltb_spec 128 (Z.of_nat (length (path_string cs)))); [lia|].
  assert (∃ r ps, path_string cs = slash :: r ∧ pieces r = ps ∧ Forall short ps) as (r & ps & E & Er & Hs).
  { destruct cs as [|c cs]; [exists [], [[]]; split_and!; [done|done|]; constructor; [split; [done|apply not_elem_of_nil]|constructor]|]. exists (c ++ join cs), (c :: cs).
    split; [done|]. split; [|eapply Forall_impl; [exact Hp|]; by intros ? (_ & _ & ?)].
    inversion_clear Hp as [|? ? (_ & H1 & _) H2]. apply pieces_join; [done|]. eapply Forall_impl; [exact H2|]. by intros ? (_ & ? & _). }
  rewrite E. cbn -[validate_bytes]. pose proof (pieces_not_nil r) as Hr. destruct ps as [|p ps]; [congruence|].
  inversion_clear Hs as [|? ? [H1 H2] H3].
  rewrite (validate_bytes_ok _ 0 [] (p :: ps)); [done| |done|done|apply not_elem_of_nil|by constructor; [split|]].
  cbn. by rewrite Er.
Qed.
Lemma holds_path p cs : holds p cs → as_path p = Ok (path_string cs).
Proof.
  intros Hh. pose proof (holds_length _ _ Hh) as Hl. destruct Hh as [_ Hf Hs Hp]. unfold as_path. rewrite Hs, path_string_valid; [done|done|lia].
Qed.
Lemma holds_from_str cs : Forall plain cs → (length (path_string cs) <= Process.MAX_PATH_BYTES)%nat →
  ∃ p, from_str (path_string cs) = Ok p ∧ holds p cs.
Proof.
  intros Hp Hl. unfold from_str. pose proof (path_string_nonempty cs) as Hn.
  rewrite bool_decide_eq_false_2 by (intros E; rewrite E in Hn; cbn in Hn; lia). cbn [orb].
  destruct (Nat.ltb_spec Process.MAX_PATH_BYTES (length (path_string cs))); [lia|]. eexists. split; [done|].
  assert (length (replicate Process.MAX_PATH_BYTES 0) = Process.MAX_PATH_BYTES) as Er by apply length_replicate.
  split; cbn [bytes len]; [rewrite length_write_at; lia|lia| |done].
  unfold as_str, write_at. cbn [bytes len]. by rewrite take_0, app_nil_l, take_app_length.
Qed.

(** ** The walk *)
Lemma path_string_prefix cs ds : (length (path_string cs) <= length (path_string (cs ++ ds)))%nat.
Proof.
  unfold path_string. case_bool_decide as E; case_bool_decide as E'; cbn [length]; [done| |destruct cs; done|].
  - destruct ds; [by subst|]. subst. cbn. lia.
  - rewrite join_app, length_app. lia.
Qed.
Lemma walk_component_spec root below p c : holds p (root ++ below) → c = [] ∨ plain c →
  let root_len := length (path_string root) in
  match step_into root below c with
  | Ok below' => ∃ p', walk_component root_len p c = Ok p' ∧ holds p' (root ++ below')
  | Err e => walk_component root_len p c = Err e
  end.
Proof.
  intros Hh Hc root_len. pose proof (holds_length _ _ Hh) as Hlen. pose proof (path_string_prefix root below) as Hpre.
  unfold step_into, walk_component. destruct (Nat.ltb_spec p.(len) root_len) as [|_]; [unfold root_len in *; lia|].
  destruct (decide (c = [] ∨ c = [dot])) as [Hd|Hd].
  { assert (bool_decide (c = []) || bool_decide (c = [dot]) = true) as E.
    { destruct Hd as [->| ->]; done. }
    rewrite E. exists p. split; [|done]. unfold push_component. rewrite E. cbn. destruct Hd as [->| ->]; done. }
  apply Decidable.not_or in Hd as [Hne Hd]. destruct Hc as [|Hc]; [done|].
  rewrite (bool_decide_eq_false_2 (c = [])), (bool_decide_eq_false_2 (c = [dot])) by done. cbn [orb].
  destruct (decide (c = [dot; dot])) as [->|Hdd].
  - rewrite bool_decide_eq_true_2 by done. rewrite push_dots. cbn [mbind result_bind andb].
    eexists. split; [done|]. destruct below as [|d below _] using rev_ind.
    + rewrite app_nil_r in *. cbn [length Nat.sub take].
      destruct root as [|d root _] using rev_ind; [rewrite (popped_root _ Hh); destruct (Nat.ltb_spec p.(len) root_len); [lia|done]|].
      pose proof (popped_snoc _ _ _ Hh) as Hq. pose proof (holds_length _ _ Hq) as Hql.
      pose proof (path_string_snoc root d) as Es. inversion Hh as [_ _ _ Hp]. apply Forall_app in Hp as [_ Hp]. inversion_clear Hp as [|? ? (Hd0 & _) _].
      assert (length (path_string root) <= length (up root))%nat.
      { unfold path_string, up. case_bool_decide; [done|]. rewrite length_app. lia. }
      destruct (Nat.ltb_spec (popped p).(len) root_len) as [_|Hge].
      * unfold truncate_to_root. replace (Nat.max root_len 1) with p.(len) by (pose proof (path_string_nonempty (root ++ [d])); unfold root_len; lia).
        by destruct p.
      * unfold root_len in Hge. rewrite Es, length_app in Hge. destruct d; [done|]. cbn [length] in Hge. lia.
    + rewrite length_app. cbn [length]. rewrite Nat.add_sub, take_app_length. rewrite app_assoc in Hh.
      pose proof (popped_snoc _ _ _ Hh) as Hq. pose proof (holds_length _ _ Hq) as Hql.
      pose proof (path_string_prefix root below). destruct (Nat.ltb_spec (popped p).(len) root_len); [unfold root_len in *; lia|done].
  - rewrite bool_decide_eq_false_2 by done. cbn [andb]. pose proof (push_plain _ _ c Hh Hc Hd Hdd) as H. rewrite <-app_assoc in H.
    case_bool_decide.
    + destruct H as (p' & -> & Hp'). by exists p'.
    + by rewrite H.
Qed.
(** The walk of a path from a directory below the root of the process, in a buffer that holds
    the canonical path of this directory, is lexical resolution: the result is the canonical
    path of a directory that is again below the root, and the walk fails exactly when one of
    the paths on the way is too long for the buffer. *)
Theorem walk_resolves root below p raw : holds p (root ++ below) → Forall short (pieces raw) →
  match resolve_below root below raw with
  | Ok below' => ∃ p', walk (length (path_string root)) p raw = Ok p' ∧ holds p' (root ++ below')
  | Err e => walk (length (path_string root)) p raw = Err e
  end.
Proof.
  unfold resolve_below, walk. pose proof (pieces_slash_free raw) as Hf. revert p below Hf.
  induction (pieces raw) as [|c cs IH]; intros p below Hf Hh Hs; [by exists p|].
  inversion_clear Hf as [|? ? Hc Hcs]. inversion_clear Hs as [|? ? Hsc Hscs]. cbn [rfold].
  pose proof (walk_component_spec root below p c Hh) as H. destruct (step_into root below c) as [below'|e].
  - destruct H as (p' & -> & Hp'); [destruct (decide (c = [])); [by left|by right]|]. cbn. by apply IH.
  - rewrite H; [done|]. destruct (decide (c = [])); [by left|by right].
Qed.
