(* ===== verification/OpenFiles.v ===== *)
(** * Open files, pipes and event counters

    Models src/src/kernel/fs/file.rs: access modes, open flags, open files, the objects a
    descriptor can stand for, and the table of open file descriptions with its reference
    counts; and the pipes and event counters of src/src/kernel/mod.rs.  The path of a file
    is its text, which the code keeps in a buffer with its length; ids and indices of
    tables are natural numbers or, where a descriptor carries them, [Z].  The theorem
    shows that a pipe is a bounded queue of bytes. *)

From stdpp Require Import prelude.
From S2P Require Import Prelude Slots Bytes Permissions Vfs Abi Process.

Local Open Scope Z_scope.

Module FileMode.
Inductive t : Type := ReadOnly | WriteOnly | ReadWrite.
Definition can_read (m : t) : bool := match m with ReadOnly | ReadWrite => true | WriteOnly => false end.
Definition can_write (m : t) : bool := match m with WriteOnly | ReadWrite => true | ReadOnly => false end.
End FileMode.

Module OpenFlags.
Definition EMPTY : Z := 0.
Definition RDONLY : Z := Z.shiftl 1 0.
Definition WRONLY : Z := Z.shiftl 1 1.
Definition RDWR : Z := Z.shiftl 1 2.
Definition CREATE : Z := Z.shiftl 1 3.
Definition EXCLUSIVE : Z := Z.shiftl 1 4.
Definition TRUNCATE : Z := Z.shiftl 1 5.
Definition APPEND : Z := Z.shiftl 1 6.
Definition DIRECTORY : Z := Z.shiftl 1 7.
Definition NOFOLLOW : Z := Z.shiftl 1 8.
Definition CLOSE_ON_EXEC : Z := Z.shiftl 1 9.
Definition contains (self flag : Z) : bool := Z.land self flag =? flag.
Definition union (self flag : Z) : Z := Z.lor self flag.
Definition without_descriptor_flags (self : Z) : Z := Z.ldiff self CLOSE_ON_EXEC.
Definition access_mode (self : Z) : FileMode.t :=
  if contains self RDWR then FileMode.ReadWrite
  else if contains self WRONLY then FileMode.WriteOnly
  else FileMode.ReadOnly.
End OpenFlags.
(** [DescriptorFlags::from_open_flags] *)
Definition descriptor_flags_from_open_flags (flags : Z) : Z :=
  if OpenFlags.contains flags OpenFlags.CLOSE_ON_EXEC then DescriptorFlags.CLOSE_ON_EXEC else DescriptorFlags.EMPTY.

Module File.
Record t : Type := mk { inode : Z; cursor : Z; mode : FileMode.t; flags : Z; path : list Z }.
Definition new (inode : Z) (mode : FileMode.t) : t := mk inode 0 mode OpenFlags.EMPTY [slash].
Definition with_flags (inode flags : Z) : t :=
  let file_flags := OpenFlags.without_descriptor_flags flags in
  mk inode 0 (OpenFlags.access_mode file_flags) file_flags [slash].
Definition with_path (path : list Z) (f : t) : t := mk f.(inode) f.(cursor) f.(mode) f.(flags) path.
Definition is_append (f : t) : bool := OpenFlags.contains f.(flags) OpenFlags.APPEND.
Definition seek (offset : Z) (f : t) : t := mk f.(inode) offset f.(mode) f.(flags) f.(path).
Definition advance (bytes : Z) (f : t) : t := seek (sat_add 64 f.(cursor) bytes) f.
End File.

Module PipeDirection.
Inductive t : Type := Read | Write.
#[global] Instance eq_dec : EqDecision t.
Proof. solve_decision. Defined.
End PipeDirection.
Module PipeEndpoint.
Record t : Type := new { id : nat; direction : PipeDirection.t }.
#[global] Instance eq_dec : EqDecision t.
Proof. solve_decision. Defined.
End PipeEndpoint.
Module ConsoleDescriptor.
Inductive t : Type := Stdout | Stderr.
End ConsoleDescriptor.
Module DescriptorObject.
Inductive t : Type :=
  | Regular (file : File.t)
  | Pipe (endpoint : PipeEndpoint.t)
  | EventFd (id : nat)
  | Device (id : Z)
  | Socket (raw : Z)
  | Console (console : ConsoleDescriptor.t).
End DescriptorObject.

Module FileTableError.
Inductive t : Type := Full | InvalidDescriptor.
End FileTableError.

Module OpenFileDescription.
Record t : Type := mk { object : DescriptorObject.t; ref_count : Z }.
Definition new_object (object : DescriptorObject.t) : t := mk object 1.
Definition file (d : t) : option File.t :=
  match d.(object) with DescriptorObject.Regular file => Some file | _ => None end.
Definition increment_ref_count (d : t) : t := mk d.(object) (sat_add 16 d.(ref_count) 1).
Definition decrement_ref_count (d : t) : t := if 0 <? d.(ref_count) then mk d.(object) (d.(ref_count) - 1) else d.
End OpenFileDescription.

Module FileTable.
Definition t : Type := list (option OpenFileDescription.t).
Definition new (MAX : nat) : t := replicate MAX None.
Definition clear (s : t) : t := replicate (length s) None.
Definition insert_object (object : DescriptorObject.t) (s : t) : result FileTableError.t Z * t :=
  match free_slot s with
  | Some idx => (Ok (Z.of_nat idx), <[idx := Some (OpenFileDescription.new_object object)]> s)
  | None => (Err FileTableError.Full, s)
  end.
Definition insert (file : File.t) : t → result FileTableError.t Z * t := insert_object (DescriptorObject.Regular file).
Definition entry (id : Z) (s : t) : option OpenFileDescription.t := mjoin (s !! Z.to_nat id).
Definition get (id : Z) (s : t) : result FileTableError.t File.t :=
  ok_or (entry id s ≫= OpenFileDescription.file) FileTableError.InvalidDescriptor.
Definition get_object (id : Z) (s : t) : result FileTableError.t DescriptorObject.t :=
  ok_or (OpenFileDescription.object <$> entry id s) FileTableError.InvalidDescriptor.
(** [get_mut(id)?] and the update made through it *)
Definition update_file (id : Z) (f : File.t → File.t) (s : t) : result FileTableError.t unit * t :=
  match entry id s with
  | Some (OpenFileDescription.mk (DescriptorObject.Regular file) ref_count) =>
      (Ok tt, <[Z.to_nat id := Some (OpenFileDescription.mk (DescriptorObject.Regular (f file)) ref_count)]> s)
  | _ => (Err FileTableError.InvalidDescriptor, s)
  end.
Definition ref_count (id : Z) (s : t) : result FileTableError.t Z :=
  ok_or (OpenFileDescription.ref_count <$> entry id s) FileTableError.InvalidDescriptor.
Definition increment_ref_count (id : Z) (s : t) : result FileTableError.t unit * t :=
  match entry id s with
  | Some description => (Ok tt, <[Z.to_nat id := Some (OpenFileDescription.increment_ref_count description)]> s)
  | None => (Err FileTableError.InvalidDescriptor, s)
  end.
Definition close (id : Z) (s : t) : result FileTableError.t (option DescriptorObject.t) * t :=
  match entry id s with
  | Some description =>
      let description := OpenFileDescription.decrement_ref_count description in
      if description.(OpenFileDescription.ref_count) =? 0
      then (Ok (Some description.(OpenFileDescription.object)), <[Z.to_nat id := None]> s)
      else (Ok None, <[Z.to_nat id := Some description]> s)
  | None => (Err FileTableError.InvalidDescriptor, s)
  end.
End FileTable.

(** ** Pipes *)
Definition PIPE_BUFFER_BYTES : nat := 4096.
#[global] Opaque PIPE_BUFFER_BYTES.

Module PipeObject.
Record t : Type := mk { buffer : list Z; head : nat; len : nat; readers : Z; writers : Z }.
Definition new : t := mk (replicate PIPE_BUFFER_BYTES 0) 0 0 1 1.
Definition is_readable (p : t) : bool := (0 <? p.(len))%nat || (p.(writers) =? 0).
Definition is_writable (p : t) : bool := (0 <? p.(readers)) && (p.(len) <? PIPE_BUFFER_BYTES)%nat.
Definition set_ends (readers writers : Z) (p : t) : t := mk p.(buffer) p.(head) p.(len) readers writers.

(** one round of the loop of [read]: a byte goes from the ring to [out] *)
Definition read_byte (st : list Z * t) (idx : nat) : list Z * t :=
  let '(out, p) := st in
  (<[idx := nth p.(head) p.(buffer) 0]> out,
   mk p.(buffer) ((p.(head) + 1) mod PIPE_BUFFER_BYTES) p.(len) p.(readers) p.(writers)).
(** the number of bytes, what is in [out] and the pipe after it *)
Definition read (out : list Z) (p : t) : nat * list Z * t :=
  let count := Nat.min (length out) p.(len) in
  let '(out, p) := foldl read_byte (out, p) (seq 0 count) in
  (count, out, mk p.(buffer) p.(head) (p.(len) - count) p.(readers) p.(writers)).

Definition write_byte (p : t) (b : Z) : t :=
  let tail := ((p.(head) + p.(len)) mod PIPE_BUFFER_BYTES)%nat in
  mk (<[tail := b]> p.(buffer)) p.(head) (p.(len) + 1) p.(readers) p.(writers).
Definition write (data : list Z) (p : t) : nat * t :=
  let count := Nat.min (length data) (PIPE_BUFFER_BYTES - p.(len)) in
  (count, foldl write_byte p (take count data)).
End PipeObject.

Module EventFdObject.
Record t : Type := new { counter : Z; semaphore : bool }.
Definition is_readable (e : t) : bool := 0 <? e.(counter).
Definition is_writable (e : t) : bool := e.(counter) <=? umax 64 - 2.
End EventFdObject.

(** ** A pipe is a bounded queue *)
Import PipeObject.
Record pipe_ok (p : PipeObject.t) : Prop := {
  po_buffer : length p.(buffer) = PIPE_BUFFER_BYTES;
  po_head : (p.(head) < PIPE_BUFFER_BYTES)%nat;
  po_len : (p.(len) <= PIPE_BUFFER_BYTES)%nat
}.
(** the bytes in the pipe, oldest first *)
Definition contents (p : PipeObject.t) : list Z :=
  (λ i, nth ((p.(head) + i) mod PIPE_BUFFER_BYTES) p.(buffer) 0) <$> seq 0 p.(len).

Lemma pipe_room : (0 < PIPE_BUFFER_BYTES)%nat.
Proof. Transparent PIPE_BUFFER_BYTES. unfold PIPE_BUFFER_BYTES. lia. Opaque PIPE_BUFFER_BYTES. Qed.
Lemma pipe_new_ok : pipe_ok PipeObject.new ∧ contents PipeObject.new = [].
Proof. split; [|done]. pose proof pipe_room. split; cbn; [apply length_replicate|lia|lia]. Qed.
Lemma length_contents p : length (contents p) = p.(len).
Proof. unfold contents. by rewrite length_fmap, length_seq. Qed.

Lemma write_byte_spec p b : pipe_ok p → (p.(len) < PIPE_BUFFER_BYTES)%nat →
  pipe_ok (write_byte p b) ∧ contents (write_byte p b) = contents p ++ [b].
Proof.
  intros [Hb Hh Hl] Hlt. pose proof pipe_room. split.
  { split; cbn; [by rewrite length_insert|done|lia]. }
  unfold contents, write_byte. cbn [head len buffer]. rewrite seq_app, fmap_app. cbn [seq fmap list_fmap Nat.add]. f_equal.
  - apply list_fmap_ext. intros i x Hi%lookup_seq. rewrite !nth_lookup. rewrite list_lookup_insert_ne; [done|].
    intros E. destruct Hi as [-> Hi].
    assert ((p.(head) + p.(len)) mod PIPE_BUFFER_BYTES ≠ (p.(head) + (0 + i)) mod PIPE_BUFFER_BYTES)%nat as []; [|done].
    intros E'. apply (f_equal Z.of_nat) in E'. rewrite !Nat2Z.inj_mod in E'.
    apply Z.cong_iff_0 in E'. apply Z.mod_divide in E' as [k Hk]; [|lia].
    assert (k <= 0 ∨ 1 <= k) as [?|?] by lia; nia.
  - f_equal. rewrite nth_lookup, list_lookup_insert_eq; [done|]. rewrite Hb. apply Nat.mod_upper_bound. lia.
Qed.
Lemma write_bytes_spec p data : pipe_ok p → (p.(len) + length data <= PIPE_BUFFER_BYTES)%nat →
  pipe_ok (foldl write_byte p data) ∧ contents (foldl write_byte p data) = contents p ++ data ∧
  (foldl write_byte p data).(readers) = p.(readers) ∧ (foldl write_byte p data).(writers) = p.(writers).
Proof.
  revert p. induction data as [|b data IH]; intros p Hp Hl; cbn [foldl]; [by rewrite app_nil_r|].
  cbn [length] in Hl. destruct (write_byte_spec p b Hp) as [Hp' E]; [lia|].
  destruct (IH (write_byte p b) Hp') as (H1 & H2 & H3); [cbn; lia|]. split_and!; [done| |by apply H3..].
  by rewrite H2, E, <-app_assoc.
Qed.
Lemma pipe_write p data : pipe_ok p →
  let '(count, p') := write data p in
  count = Nat.min (length data) (PIPE_BUFFER_BYTES - length (contents p)) ∧ pipe_ok p' ∧
  contents p' = contents p ++ take count data ∧ p'.(readers) = p.(readers) ∧ p'.(writers) = p.(writers).
Proof.
  intros Hp. unfold write. rewrite length_contents. pose proof (po_len _ Hp).
  destruct (write_bytes_spec p (take (Nat.min (length data) (PIPE_BUFFER_BYTES - p.(len))) data) Hp) as (H1 & H2 & H3);
    [rewrite length_take; lia|]. split_and!; [done|done|done|apply H3..].
Qed.

(** reading [k] bytes from index [idx] on *)
Lemma read_bytes_spec k idx out p : pipe_ok p → (idx + k <= length out)%nat → (k <= p.(len))%nat →
  foldl read_byte (out, p) (seq idx k) =
    (take idx out ++ take k (contents p) ++ drop (idx + k) out,
     PipeObject.mk p.(buffer) ((p.(head) + k) mod PIPE_BUFFER_BYTES) p.(len) p.(readers) p.(writers)).
Proof.
  intros Hp. pose proof pipe_room. induction k as [|k IH]; intros Ho Hk.
  - cbn [seq foldl]. rewrite take_0, app_nil_l, !Nat.add_0_r, take_drop. destruct Hp. by rewrite Nat.mod_small by done; destruct p.
  - rewrite seq_S, foldl_app, IH by lia. cbn [foldl read_byte buffer head len readers writers]. f_equal.
    + assert (contents p !! k = Some (nth ((p.(head) + k) mod PIPE_BUFFER_BYTES) p.(buffer) 0)) as Ek.
      { unfold contents. rewrite list_lookup_fmap, lookup_seq_lt by lia. done. }
      rewrite (take_S_r _ _ _ Ek), insert_app_r_alt; rewrite length_take_le by lia; [|lia].
      replace (idx + k - idx)%nat with k by lia. rewrite insert_app_r_alt; rewrite length_take_le by (rewrite length_contents; lia); [|lia].
      rewrite Nat.sub_diag, <-app_assoc. f_equal. f_equal. destruct (drop (idx + k) out) as [|x l] eqn:E.
      { apply (f_equal length) in E. rewrite length_drop in E. cbn in E. lia. }
      cbn. f_equal. replace (idx + S k)%nat with (idx + k + 1)%nat by lia. rewrite <-drop_drop, E. done.
    + f_equal. rewrite Nat.Div0.add_mod_idemp_l. f_equal. lia.
Qed.
Lemma pipe_read p out : pipe_ok p →
  let '(count, out', p') := read out p in
  count = Nat.min (length out) (length (contents p)) ∧ pipe_ok p' ∧
  out' = take count (contents p) ++ drop count out ∧ contents p' = drop count (contents p) ∧
  p'.(readers) = p.(readers) ∧ p'.(writers) = p.(writers).
Proof.
  intros Hp. unfold read. rewrite length_contents. set (count := Nat.min (length out) p.(len)). pose proof pipe_room.
  rewrite (read_bytes_spec count 0 out p) by (done || lia). rewrite take_0, app_nil_l. cbn [buffer head len readers writers Nat.add].
  pose proof Hp as [Hb Hh Hl]. split_and!; [done| |done| |done|done].
  - split; cbn; [done|by apply Nat.mod_upper_bound; lia|lia].
  - unfold contents. cbn [buffer head len]. rewrite <-fmap_drop, skipn_seq. cbn [Nat.add].
    apply list_eq. intros i. rewrite !list_lookup_fmap. destruct (decide (i < p.(len) - count)%nat) as [Hi|Hi].
    + rewrite !lookup_seq_lt by lia. cbn. f_equal. f_equal. rewrite Nat.Div0.add_mod_idemp_l. f_equal. lia.
    + rewrite !lookup_seq_ge by lia. done.
Qed.

(** ** The stream through a pipe *)
Module PipeCall.
Inductive t : Type := Read (out : list Z) | Write (data : list Z).
End PipeCall.
(** the pipe, the bytes accepted so far and the bytes delivered so far *)
Definition pipe_call (st : PipeObject.t * list Z * list Z) (c : PipeCall.t) : PipeObject.t * list Z * list Z :=
  let '(p, accepted, delivered) := st in
  match c with
  | PipeCall.Write data => let '(count, p) := write data p in (p, accepted ++ take count data, delivered)
  | PipeCall.Read out => let '(count, out, p) := read out p in (p, accepted, delivered ++ take count out)
  end.
Lemma pipe_call_stream p accepted delivered c : pipe_ok p → accepted = delivered ++ contents p →
  let '(p', accepted', delivered') := pipe_call (p, accepted, delivered) c in
  pipe_ok p' ∧ accepted' = delivered' ++ contents p'.
Proof.
  intros Hp ->. destruct c as [out|data]; cbn [pipe_call].
  - pose proof (pipe_read p out Hp) as H. destruct (read out p) as [[count out'] p'].
    destruct H as (Hc & Hp' & -> & Hd & _). split; [done|]. rewrite Hd, <-app_assoc. f_equal.
    rewrite take_app_le by (rewrite length_take; lia). rewrite take_take, Nat.min_id. by rewrite take_drop.
  - pose proof (pipe_write p data Hp) as H. destruct (write data p) as [count p'].
    destruct H as (Hc & Hp' & Hd & _). split; [done|]. by rewrite Hd, <-app_assoc.
Qed.
(** Over any sequence of reads and writes of a pipe, the bytes the readers get are the
    bytes the writers were told are accepted, in the same order and without a gap; what is
    still missing is in the pipe, at most 4096 bytes of it. *)
Theorem pipe_stream calls :
  let '(p, accepted, delivered) := foldl pipe_call (PipeObject.new, [], []) calls in
  accepted = delivered ++ contents p ∧ (length (contents p) <= 4096)%nat.
Proof.
  assert (∀ p accepted delivered, pipe_ok p → accepted = delivered ++ contents p →
    let '(p', accepted', delivered') := foldl pipe_call (p, accepted, delivered) calls in
    pipe_ok p' ∧ accepted' = delivered' ++ contents p') as H.
  { induction calls as [|c calls IH]; intros p a d Hp E; [done|]. cbn [foldl].
    pose proof (pipe_call_stream p a d c Hp E) as H. destruct (pipe_call (p, a, d) c) as [[p' a'] d'].
    destruct H as [Hp' E']. by apply IH. }
  destruct pipe_new_ok as [Hok Hc]. specialize (H PipeObject.new [] [] Hok). rewrite Hc in H. specialize (H eq_refl).
  destruct (foldl _ _ calls) as [[p a] d]. destruct H as [Hp E]. split; [done|]. rewrite length_contents.
  pose proof (po_len _ Hp) as Hl. Transparent PIPE_BUFFER_BYTES. unfold PIPE_BUFFER_BYTES in Hl. Opaque PIPE_BUFFER_BYTES. done.
Qed.
