(* ===== verification/FileSystem.v ===== *)
(** * The file system trait

    Models the trait [FileSystem] of src/src/kernel/fs/vfs.rs as a class, with the
    methods it provides by default; QFS as an implementation of it; the root file system
    of src/src/kernel/mod.rs, which is QFS or ext4 and passes every call on; and the
    structures of src/src/kernel/fs/stdlib.rs in which results go to programs.  The ext4
    driver is any other implementation.  A call that fills a buffer returns what is in the
    buffer afterwards, also when it fails. *)

From stdpp Require Import prelude.
From S2P Require Import Prelude Bytes Permissions Vfs BlockDevice QfsFormat Qfs Abi Process OpenFiles.

Local Open Scope Z_scope.

Class FileSystem (FS : Type) : Type := {
  vfs_lookup : list Z → M FS VfsError.t InodeMetadata;
  vfs_lookup_inode : Z → M FS VfsError.t InodeMetadata;
  vfs_open : list Z → Z → FsCredentials.t → M FS VfsError.t File.t;
  vfs_close : File.t → M FS VfsError.t unit;
  vfs_pread : File.t → list Z → Z → FS → (result VfsError.t nat * list Z) * FS;
  vfs_pwrite : File.t → list Z → Z → M FS VfsError.t nat;
  vfs_mkdir : list Z → Permissions.t → FsCredentials.t → M FS VfsError.t unit;
  vfs_rmdir : list Z → FsCredentials.t → M FS VfsError.t unit;
  vfs_unlink : list Z → FsCredentials.t → M FS VfsError.t unit;
  vfs_rename : list Z → list Z → FsCredentials.t → M FS VfsError.t unit;
  vfs_link : list Z → list Z → FsCredentials.t → M FS VfsError.t unit;
  vfs_symlink : list Z → list Z → FsCredentials.t → M FS VfsError.t unit;
  vfs_readlink : list Z → list Z → FS → (result VfsError.t nat * list Z) * FS;
  vfs_stat : list Z → M FS VfsError.t Stat;
  vfs_fstat : File.t → M FS VfsError.t Stat;
  vfs_chmod : list Z → Z → FsCredentials.t → M FS VfsError.t unit;
  vfs_chown : list Z → Z → Z → FsCredentials.t → M FS VfsError.t unit;
  vfs_truncate : list Z → Z → FsCredentials.t → M FS VfsError.t unit;
  vfs_ftruncate : File.t → Z → FsCredentials.t → M FS VfsError.t unit;
  vfs_fsync : File.t → M FS VfsError.t unit;
  vfs_readdir : list Z → nat → nat → M FS VfsError.t (list DirEntry);
  vfs_readdir_inode : Z → nat → nat → M FS VfsError.t (list DirEntry)
}.

(** ** Default methods *)
Definition access_for_mode (mode : FileMode.t) : AccessMode.t :=
  match mode with
  | FileMode.ReadOnly => AccessMode.Read
  | FileMode.WriteOnly => AccessMode.Write
  | FileMode.ReadWrite => AccessMode.ReadWrite
  end.
Definition default_open {FS} (lookup : list Z → M FS VfsError.t InodeMetadata) (path : list Z) (flags : Z)
    (credentials : FsCredentials.t) : M FS VfsError.t File.t :=
  metadata ← lookup path;
  if OpenFlags.contains flags OpenFlags.DIRECTORY && negb (bool_decide (metadata.(im_kind) = InodeKind.Directory))
  then throw VfsError.NotDirectory
  else if bool_decide (metadata.(im_kind) = InodeKind.Directory) && FileMode.can_write (OpenFlags.access_mode flags)
  then throw VfsError.IsDirectory
  else
    let access := access_for_mode (OpenFlags.access_mode flags) in
    if negb (Permissions.allows metadata.(im_permissions) credentials access) then throw VfsError.PermissionDenied
    else mret (File.with_path path (File.with_flags metadata.(im_id) flags)).
Definition default_stat {FS} (lookup : list Z → M FS VfsError.t InodeMetadata) (path : list Z) : M FS VfsError.t Stat :=
  metadata ← lookup path; mret (from_metadata metadata).
Definition default_fstat {FS} (lookup_inode : Z → M FS VfsError.t InodeMetadata) (file : File.t) : M FS VfsError.t Stat :=
  metadata ← lookup_inode file.(File.inode); mret (from_metadata metadata).

(** [read] and [write] at the cursor of the file, which they advance: the result, what is
    in the buffer, and the file *)
Definition vfs_read {FS} `{!FileSystem FS} (file : File.t) (buffer : list Z) (fs : FS)
    : (result VfsError.t nat * list Z * File.t) * FS :=
  if negb (FileMode.can_read file.(File.mode)) then ((Err VfsError.PermissionDenied, buffer, file), fs)
  else
    let '((r, buffer), fs) := vfs_pread file buffer file.(File.cursor) fs in
    match r with
    | Ok bytes => ((Ok bytes, buffer, File.advance (Z.of_nat bytes) file), fs)
    | Err e => ((Err e, buffer, file), fs)
    end.
Definition vfs_write {FS} `{!FileSystem FS} (file : File.t) (data : list Z) (fs : FS)
    : (result VfsError.t nat * File.t) * FS :=
  if negb (FileMode.can_write file.(File.mode)) then ((Err VfsError.PermissionDenied, file), fs)
  else
    match vfs_pwrite file data file.(File.cursor) fs with
    | (Ok bytes, fs) => ((Ok bytes, File.advance (Z.of_nat bytes) file), fs)
    | (Err e, fs) => ((Err e, file), fs)
    end.

(** ** QFS *)
Section qfs.
Context {D : Type} `{!BlockStorage D}.

(** the loop of [pread], with what it has put into the buffer when it fails *)
Fixpoint fill_data_loop (fuel : nat) (record : QfsInodeRecord.t) (offset : Z) (available : nat)
    (done_ : nat) (buffer : list Z) (fs : @QfsFileSystem D) : (result VfsError.t nat * list Z) * @QfsFileSystem D :=
  match fuel with
  | O => ((Ok done_, buffer), fs)
  | S fuel =>
      if negb (done_ <? available)%nat then ((Ok done_, buffer), fs)
      else
        let absolute := sat_add 64 offset (Z.of_nat done_) in
        match (st ← gets state;
               '(sector_number, sector_offset) ← lift (ok_or (data_sector_for_offset st record absolute)
                                                         VfsError.NoSpace);
               sector ← on_device (read_sector sector_number);
               mret (sector_offset, sector)) fs with
        | (Ok (sector_offset, sector), fs) =>
            let to_copy := Nat.min (available - done_) (512 - sector_offset) in
            fill_data_loop fuel record offset available (done_ + to_copy)
              (write_at done_ (slice sector_offset to_copy sector) buffer) fs
        | (Err e, fs) => ((Err e, buffer), fs)
        end
  end.
Definition qfs_pread (inode : Z) (buffer : list Z) (offset : Z) (fs : @QfsFileSystem D)
    : (result VfsError.t nat * list Z) * @QfsFileSystem D :=
  match lookup_inode_record inode fs with
  | (Err e, fs) => ((Err e, buffer), fs)
  | (Ok record, fs) =>
      if QfsState.is_directory record then ((Err VfsError.IsDirectory, buffer), fs)
      else if (record.(QfsInodeRecord.size) <=? offset) || bool_decide (buffer = []) then ((Ok 0%nat, buffer), fs)
      else
        let available := Nat.min (Z.to_nat (record.(QfsInodeRecord.size) - offset)) (length buffer) in
        let inline := inline_len record in
        let start := Z.to_nat offset in
        if (start <? inline)%nat then
          let to_copy := Nat.min available (inline - start) in
          ((Ok to_copy, write_at 0 (slice start to_copy record.(QfsInodeRecord.inline_data)) buffer), fs)
        else
          match fs.(block_device) with
          | None => ((Ok 0%nat, buffer), fs)
          | Some d =>
              if negb (sector_size d =? QFS_SECTOR_SIZE) then ((Err VfsError.Unsupported, buffer), fs)
              else fill_data_loop available record offset available 0 buffer fs
          end
  end.
Definition qfs_readlink (path buffer : list Z) (fs : @QfsFileSystem D)
    : (result VfsError.t nat * list Z) * @QfsFileSystem D :=
  match lookup_object_record path fs with
  | (Err e, fs) => ((Err e, buffer), fs)
  | (Ok record, fs) =>
      if negb (bool_decide (decode_inode_kind record.(QfsInodeRecord.kind) = InodeKind.Symlink))
      then ((Err VfsError.InvalidArgument, buffer), fs)
      else qfs_pread record.(QfsInodeRecord.inode) buffer 0 fs
  end.

#[global] Instance qfs_file_system : FileSystem (@QfsFileSystem D) := {
  vfs_lookup := Qfs.lookup_path;
  vfs_lookup_inode := Qfs.lookup_inode;
  vfs_open := default_open Qfs.lookup_path;
  vfs_close _ := mret tt;
  vfs_pread file := qfs_pread file.(File.inode);
  vfs_pwrite file := Qfs.pwrite file.(File.inode);
  vfs_mkdir := Qfs.mkdir;
  vfs_rmdir := Qfs.rmdir;
  vfs_unlink := Qfs.unlink;
  vfs_rename := Qfs.rename;
  vfs_link := Qfs.link;
  vfs_symlink := Qfs.symlink;
  vfs_readlink := qfs_readlink;
  vfs_stat := default_stat Qfs.lookup_path;
  vfs_fstat := default_fstat Qfs.lookup_inode;
  vfs_chmod := Qfs.chmod;
  vfs_chown := Qfs.chown;
  vfs_truncate := Qfs.truncate;
  vfs_ftruncate file := Qfs.ftruncate file.(File.inode);
  vfs_fsync _ := Qfs.fsync;
  vfs_readdir := Qfs.readdir;
  vfs_readdir_inode := Qfs.readdir_inode
}.

(** the two forms of [pread] agree *)
Lemma fill_data_loop_read fuel record offset available done_ buffer fs :
  match read_data_loop fuel record offset available done_ buffer fs with
  | (Ok (n, b), fs') => fill_data_loop fuel record offset available done_ buffer fs = ((Ok n, b), fs')
  | (Err e, fs') => ∃ b, fill_data_loop fuel record offset available done_ buffer fs = ((Err e, b), fs')
  end.
Proof.
  revert done_ buffer fs. induction fuel as [|fuel IH]; intros done_ buffer fs; [done|].
  cbn [read_data_loop fill_data_loop]. destruct (negb _); [done|].
  unfold mbind, M_bind, gets, lift. destruct (ok_or _ _) as [[sn so]|e]; [|by exists buffer].
  destruct (on_device (read_sector sn) fs) as [[sector|e] fs']; [|by exists buffer]. unfold mret, M_ret. apply IH.
Qed.
Lemma qfs_pread_read inode buffer offset fs :
  match Qfs.pread inode buffer offset fs with
  | (Ok (n, b), fs') => qfs_pread inode buffer offset fs = ((Ok n, b), fs')
  | (Err e, fs') => ∃ b, qfs_pread inode buffer offset fs = ((Err e, b), fs')
  end.
Proof.
  unfold Qfs.pread, qfs_pread, mbind at 1, M_bind at 1. destruct (lookup_inode_record inode fs) as [[record|e] fs']; [|by exists buffer].
  destruct (QfsState.is_directory record); [by exists buffer|]. destruct ((_ <=? _) || _); [done|].
  cbv zeta. destruct (_ <? inline_len record)%nat; [done|]. unfold with_device, mbind, M_bind, gets.
  destruct fs'.(block_device) as [d|]; [|done]. destruct (negb _); [by exists buffer|]. apply fill_data_loop_read.
Qed.
End qfs.

(** ** The root file system *)
Module RootFileSystem.
Inductive t (Q E : Type) : Type := Qfs (fs : Q) | Ext4 (fs : E).
Arguments Qfs {Q E}.
Arguments Ext4 {Q E}.
Section dispatch.
Context {Q E : Type} `{!FileSystem Q, !FileSystem E}.
(** [match self { Self::Qfs(fs) => .., Self::Ext4(fs) => .. }] *)
Definition on {R} (q : Q → R * Q) (e : E → R * E) (s : t Q E) : R * t Q E :=
  match s with
  | Qfs fs => let '(r, fs) := q fs in (r, Qfs fs)
  | Ext4 fs => let '(r, fs) := e fs in (r, Ext4 fs)
  end.
#[global] Instance file_system : FileSystem (t Q E) := {
  vfs_lookup path := on (vfs_lookup path) (vfs_lookup path);
  vfs_lookup_inode inode := on (vfs_lookup_inode inode) (vfs_lookup_inode inode);
  vfs_open path flags c := on (vfs_open path flags c) (vfs_open path flags c);
  vfs_close file := on (vfs_close file) (vfs_close file);
  vfs_pread file buffer offset := on (vfs_pread file buffer offset) (vfs_pread file buffer offset);
  vfs_pwrite file data offset := on (vfs_pwrite file data offset) (vfs_pwrite file data offset);
  vfs_mkdir path mode c := on (vfs_mkdir path mode c) (vfs_mkdir path mode c);
  vfs_rmdir path c := on (vfs_rmdir path c) (vfs_rmdir path c);
  vfs_unlink path c := on (vfs_unlink path c) (vfs_unlink path c);
  vfs_rename old new c := on (vfs_rename old new c) (vfs_rename old new c);
  vfs_link old new c := on (vfs_link old new c) (vfs_link old new c);
  vfs_symlink target path c := on (vfs_symlink target path c) (vfs_symlink target path c);
  vfs_readlink path buffer := on (vfs_readlink path buffer) (vfs_readlink path buffer);
  vfs_stat path := on (vfs_stat path) (vfs_stat path);
  vfs_fstat file := on (vfs_fstat file) (vfs_fstat file);
  vfs_chmod path mode c := on (vfs_chmod path mode c) (vfs_chmod path mode c);
  vfs_chown path uid gid c := on (vfs_chown path uid gid c) (vfs_chown path uid gid c);
  vfs_truncate path size c := on (vfs_truncate path size c) (vfs_truncate path size c);
  vfs_ftruncate file size c := on (vfs_ftruncate file size c) (vfs_ftruncate file size c);
  vfs_fsync file := on (vfs_fsync file) (vfs_fsync file);
  vfs_readdir path offset room := on (vfs_readdir path offset room) (vfs_readdir path offset room);
  vfs_readdir_inode inode offset room := on (vfs_readdir_inode inode offset room) (vfs_readdir_inode inode offset room)
}.
End dispatch.

(** [mount_qfs]: the new file system replaces the old one once it has been read *)
Definition mount_qfs {D E : Type} `{!BlockStorage D} (read_only : bool) (device : D) (s : t (@QfsFileSystem D) E)
    : result VfsError.t unit * t (@QfsFileSystem D) E :=
  match refresh_from_block_device (new_on_block_device read_only device) with
  | (Ok _, next) => (Ok tt, Qfs next)
  | (Err e, _) => (Err e, s)
  end.
End RootFileSystem.

(** ** Results as programs see them *)
Definition O_ACCMODE : Z := 3.
Definition O_WRONLY : Z := 1.
Definition O_RDWR : Z := 2.
Definition O_CREAT : Z := 0x40.
Definition O_EXCL : Z := 0x80.
Definition O_TRUNC : Z := 0x200.
Definition O_APPEND : Z := 0x400.
Definition O_DIRECTORY : Z := 0x10000.
Definition O_NOFOLLOW : Z := 0x20000.
Definition O_CLOEXEC : Z := 0x80000.
(** [if (flags & libc) != 0 { translated = translated.union(flag); }] *)
Definition translate_flag (flags : Z) (translated : Z) (f : Z * Z) : Z :=
  if negb (Z.land flags f.1 =? 0) then OpenFlags.union translated f.2 else translated.
Definition open_flags_from_libc (flags : Z) : Z :=
  let translated :=
    let mode := Z.land flags O_ACCMODE in
    if mode =? O_WRONLY then OpenFlags.WRONLY else if mode =? O_RDWR then OpenFlags.RDWR else OpenFlags.RDONLY in
  foldl (translate_flag flags) translated
    [(O_CREAT, OpenFlags.CREATE); (O_EXCL, OpenFlags.EXCLUSIVE); (O_TRUNC, OpenFlags.TRUNCATE);
     (O_APPEND, OpenFlags.APPEND); (O_DIRECTORY, OpenFlags.DIRECTORY); (O_NOFOLLOW, OpenFlags.NOFOLLOW);
     (O_CLOEXEC, OpenFlags.CLOSE_ON_EXEC)].
(** [mode as u16] is cut to nine bits in any case *)
Definition permissions_from_libc_mode (mode owner group : Z) : Permissions.t :=
  Permissions.new (Z.land mode 511) owner group.

Definition file_type_mode (kind : InodeKind.t) : Z :=
  match kind with
  | InodeKind.Directory => 0x4000
  | InodeKind.RegularFile => 0x8000
  | InodeKind.Symlink => 0xa000
  | InodeKind.BlockDevice => 0x6000
  | InodeKind.CharDevice => 0x2000
  | InodeKind.Fifo => 0x1000
  | InodeKind.Socket => 0xc000
  end.
Definition dirent_type (kind : InodeKind.t) : Z :=
  match kind with
  | InodeKind.Directory => 4
  | InodeKind.RegularFile => 8
  | InodeKind.Symlink => 10
  | InodeKind.BlockDevice => 6
  | InodeKind.CharDevice => 2
  | InodeKind.Fifo => 1
  | InodeKind.Socket => 12
  end.

(** The structures are what the kernel stores: the bytes of each field at its offset.
    [CStat] has padding behind [st_mode], which is not written. *)
Definition C_STAT_SIZE : Z := 120.
Definition c_stat (stat : Stat) : list field :=
  [(0, to_le_bytes 8 0); (8, to_le_bytes 8 stat.(st_inode));
   (16, to_le_bytes 4 (Z.lor (file_type_mode stat.(st_kind)) (Z.land stat.(st_mode) 511)));
   (24, to_le_bytes 8 stat.(st_links)); (32, to_le_bytes 4 stat.(st_uid)); (36, to_le_bytes 4 stat.(st_gid));
   (40, to_le_bytes 8 0); (48, to_le_bytes 8 stat.(st_size)); (56, to_le_bytes 8 1);
   (64, to_le_bytes 8 ((stat.(st_size) + 511) / 512));
   (72, to_le_bytes 8 0); (80, to_le_bytes 8 0); (88, to_le_bytes 8 0); (96, to_le_bytes 8 0);
   (104, to_le_bytes 8 0); (112, to_le_bytes 8 0)]%nat.
Definition C_DIR_ENTRY_SIZE : Z := 56.
Definition c_dir_entry (entry : DirEntry) (offset_after_entry : Z) : list field :=
  let name := DirEntry_name entry in
  let copy_len := Nat.min (length name) 32 in
  [(0, to_le_bytes 8 entry.(de_inode)); (8, to_le_bytes 8 offset_after_entry); (16, to_le_bytes 2 C_DIR_ENTRY_SIZE);
   (18, [dirent_type entry.(de_kind)]); (19, write_at 0 (take copy_len name) (replicate 33 0%Z))]%nat.
